(* ===== verification/_CoqProject ===== *)
-Q . S2P
Prelude.v
StdCollections.v
Ids.v
Crc.v
Fs.v
Directory.v
Store.v
StoreDir.v
Log.v
WriteSet.v
Txn.v
LogIo.v
CommitAppend.v
Recovery.v
SegmentLog.v
SegmentNames.v
SegmentRecovery.v
Shards.v
Mvcc.v
UndoStore.v
Visibility.v
WriteIntent.v
Admission.v
Frame.v
Translation.v
PageIo.v
PageDependency.v
PageImage.v
PageMapFile.v
PageStore.v
PageArena.v
PageStoreSpec.v
PageRecovery.v
Buffer.v
PageBuffer.v
PageV4.v
PageSpec.v
PageUpdate.v
PageMap.v
KeyOrder.v
Packed.v
PackedSpec.v
TreeShape.v
TreeV4.v
TreeSpec.v
TreeOps.v
TreeRange.v
TreeMap.v
ObjectStore.v
OrderedMvcc.v
OrderedRead.v
OrderedCommit.v
OrderedRecovery.v
Versions.v
InstallSpec.v
Interleaving.v
Demo.v
Settling.v
LaneStages.v
IsolationInv.v
IsolationSteps.v
ReplaySpec.v
SnapshotIsolation.v
RangeReads.v
Progress.v
Durability.v
Atomicity.v
