(* ===== verification/Prelude.v ===== *)
(** * The SeerDB storage kernel of OmenDB: a verification development

    ** What is verified

    [crates/seerdb/src/vnext] is the transactional storage kernel of OmenDB: a
    segmented write-ahead log, an undo store, ordered objects kept in B-link trees
    over a buffer pool and a persistent page store, and on top of them a runtime
    that gives concurrent callers snapshot isolation, durable commits and recovery.
    Every source file of that directory is modelled, tests apart; file names below
    are relative to it.  Of the OmenDB crate in [src] the packed ranges ([packed.rs])
    and the injection of faults ([fault.rs]) are modelled too.

    A commit goes through the parts in this order.  A caller begins a transaction
    ([txn.rs]) at the snapshot of the visibility frontier and stages mutations in
    it.  [commit] of [ordered_commit.rs] enters through the admission gate, reduces
    the mutations to final effects, takes the write intents, and prepares every
    effect: the displaced record goes to the undo store and the new record is
    planned.  The append lane assigns the commit sequence and appends the encoded
    batch to the log; the log is synchronized; the planned records are installed in
    the trees, whose changed pages carry the requirements that the page store
    enforces before it writes them; the commit is published to the frontier, waited
    for and acknowledged.  Readers resolve a record against the status table and
    follow undo links to the version their snapshot calls for.  After a crash the
    log is parsed, validated and replayed.

    ** Files

    Vocabulary: [Prelude] (results, machine integers, byte strings, layouts of
    fixed-width fields, tactics, hints), [StdCollections] (ordered and tree maps),
    [Ids] ([ids.rs], [object.rs], the LSN of [storage/format.rs]), [Crc] (CRC-32C
    as a class with its width as the only law), [Shards] (tables of locked shards),
    [Fs] (files with write faults, torn writes, syncs and crashes), [Directory]
    ([crates/durable-fs]: a directory with names that a crash may take back, and
    atomic publication in it), [Store] and [StoreDir] ([store.rs]: identity and
    header codec, component claims; creating and opening a store directory).

    Log: [Log] ([log.rs]), [LogIo] ([log_io.rs]; the device is the class
    [LogDevice] with laws), [CommitAppend] ([commit_append.rs]), [SegmentLog] and
    [SegmentRecovery] ([segment_log.rs], an instance of that class), [SegmentNames]
    (its file names), [Recovery] ([recovery.rs]).

    Transactions: [WriteSet] ([write_set.rs]), [Txn] ([txn.rs], [txn_overlay.rs]),
    [Mvcc] ([mvcc.rs]), [UndoStore] ([undo_store.rs]), [Visibility]
    ([visibility.rs]), [WriteIntent] ([write_intent.rs]), [Admission]
    ([runtime_admission.rs]).

    Pages: [Frame] ([frame.rs]), [Translation] ([translation.rs]), [PageIo] (the
    page device as a class with laws), [PageDependency] ([page_dependency.rs]),
    [PageImage] ([page_image.rs]), [PageMapFile] ([page_map.rs]), [PageStore] with
    [PageArena], [PageStoreSpec] and [PageRecovery] ([page_store.rs], an instance
    of that class), [Buffer] ([buffer.rs]) and [PageBuffer], the interface the
    trees use.

    Trees: [PageV4], [PageSpec], [PageUpdate] and [PageMap] ([btree/page_v4.rs] at
    byte level), [KeyOrder], [TreeShape], [TreeV4], [TreeSpec], [TreeOps],
    [TreeRange] and [TreeMap] ([btree/tree_v4.rs], [btree/preflight.rs],
    [btree/cursor_v4.rs]).

    Packed ranges: [Packed] and [PackedSpec] (OmenDB's [packed.rs] and [fault.rs]:
    sorted entries in immutable checksummed pages of one file).

    Runtime: [ObjectStore] (what the runtime relies on of the trees, a class with
    laws that a forest of trees satisfies), [OrderedMvcc] ([ordered_mvcc.rs]),
    [OrderedRead] ([ordered_mvcc_read.rs], [ordered_txn_read.rs]), [OrderedCommit]
    ([ordered_commit.rs]), [OrderedRecovery] ([ordered_recovery.rs]).  Its proofs:
    [Versions] and [InstallSpec] (what the records stand for), [Interleaving] (the
    callers as a step relation), [Settling], [LaneStages], [IsolationInv],
    [IsolationSteps] (the invariant), [ReplaySpec]; its theorems:
    [SnapshotIsolation], [RangeReads], [Progress], [Durability], [Atomicity].  The
    publications that [Interleaving] lists are a history variable no code reads; the
    theorems tie it to what [mvcc_lookup] and the cursors answer.  [Demo] is a small
    runtime that the examples evaluate.

    ** How the code is modelled

    A function is a Rocq function of the same name, prefixed where the name is
    taken; [&mut self] is a state passed in and returned, [Result] is [result], the
    question mark is [let?] or [do?], and an error carries the state it leaves.
    Integers are [Z] with the checks and the wrapping of the source; bytes are
    coqutil bytes; a [BTreeMap] is a sorted association list and a [HashMap] a
    [gmap].  A mutex is its poison flag.  Third-party and unspecified functions
    are parameters: CRC-32C, the hashes that choose a shard, and the log and page
    devices where a component is proved for all of them.

    Concurrency is explicit where it matters.  The frame word ([Frame]), the
    admission gate ([Admission]) and the intent table ([WriteIntent]) are step
    relations between atomic operations.  In [Interleaving] the threads of any number
    of callers interleave freely, failures of the files and of the log included, and
    the steps of a thread are the stages of [commit]: the entry (admission, preflight
    and intents), the preparation of one effect (its read of the tree and its undo
    record), the append, the hardening (the log barrier, the durable mark and the
    undo barrier), the installation of one effect, the publication, the wait and the
    completion; [begin_write], [abort], a staged mutation, a lookup and a batch of a
    cursor are one step each.  What happens inside one stage is therefore not
    interleaved with other threads: a call into a tree or the buffer pool is atomic,
    and the latches that make it so are not modelled above the single frame.  Nor is
    a checkpoint a step there; its exclusion of commits is proved in [Admission].

    Crashes: a crash keeps what was synchronized and any prefix of the rest of a
    file; a file of which nothing was synchronized may be gone ([Fs.fs_crash]).  In
    [Directory] the entries of a directory are kept apart from the contents: a crash
    may bring back what a name stood for before the directory was synchronized.

    ** What the theorems show

    - Durability and recovery: [Durability.visible_commits_survive_a_crash] for the
      whole runtime; below it [SegmentRecovery.end_to_end_recovery],
      [CommitAppend.commit_order_is_log_order], [Recovery.recovery_sound],
      [Log.log_truncation], [Log.parse_log_sound], and
      [UndoStore.undo_recovery_keeps_durable].  The first two are about a log that
      was created new and crashes between two device calls, is not fenced, and has
      synchronized every segment it rotated away from: the code does not ensure the
      last by itself, and after a failed device call [open] may refuse the log.
    - Identity and ownership: publication of a file is atomic
      ([Directory.atomic_write_is_atomic]); a store directory has one identity and
      one owner across processes, failures and crashes
      ([StoreDir.store_has_one_identity], [StoreDir.store_has_one_owner]); the scan
      of the log directory returns its segments
      ([SegmentNames.segment_files_are_listed]).
    - Isolation: reads return their snapshot, the first committer wins, snapshots
      never change and cover what was acknowledged, replay rebuilds the history, a
      fenced runtime stays fenced and answers nothing ([SnapshotIsolation]); readers
      get all or nothing of a transaction, in any interleaving ([Atomicity]); range
      cursors are exact across batches as long as no batch fails, and only skip rows
      after one has ([RangeReads]).
    - Progress: a blocked commit waits for an earlier one that can move, and all
      calls in progress can finish ([Progress]).
    - Storage: a published page survives every later operation, restart and crash
      ([PageRecovery.published_pages_survive]); the page store, the buffer pool over
      any page device, a leaf page and the B-link tree over it are maps
      ([PageStoreSpec.page_store_is_a_page_map], [Buffer.buffer_is_a_page_map],
      [PageMap.leaf_is_a_bounded_map], [TreeMap.btree_is_a_map]); the page store
      satisfies the laws of [PageIo], so the pool and the trees run over it.
    - Packed ranges: a range is the map of its entries
      ([PackedSpec.packed_range_is_a_map]) and is read back from its file after a
      crash, whatever fault was injected before the write reported success
      ([PackedSpec.packed_range_survives]).
    - Capacity: the preflight of an upsert is exact for an empty leaf, and refuses
      nothing a tree could take ([TreeMap.preflight_refuses_only_what_never_fits]).
    - Write-ahead rule: [PageDependency.write_gate_covers_every_merge] and
      [TreeMap.upsert_changes_are_gated].
    - Components: exclusion of frames, intents and checkpoints, the visible
      frontier, the transaction object, write sets, and exact codecs.
    - Behaviour the code does not intend, each proved on a concrete run: a frame
      dirtied inside [try_begin_evict], between its check and its exchange, is dropped
      ([Frame.eviction_can_lose_a_write]), a rotation without a sync or a short
      header can make [open] refuse a log
      ([SegmentRecovery.rotation_without_sync_can_block_open],
      [SegmentRecovery.short_header_blocks_open]), and the preflight of an upsert
      admits records the tree refuses ([TreeMap.preflight_does_not_admit]), and the
      byte budget of a packed range does not bound its pages
      ([PackedSpec.byte_budget_is_not_kept]); a crash inside [create] can leave a
      directory in which no store can be created
      ([StoreDir.crashed_create_blocks_the_directory]).

    ** Bounds and fuel

    Loops over bytes take the length of the input as fuel and each round consumes
    some ([Log.parse_loop], the scans of the undo store, the segments and the page
    arena); searches in a page take the number of slots.  The depth bound of the
    trees is the code's own [MAX_ROUTING_DEPTH], and
    [TreeMap.routing_depth_suffices] shows when it is enough.  The eviction loop
    has the code's own bound of turns.  Loops without a bound in the code return
    [None] when the fuel ends: pinning a page, the undo chain of a read, and the
    batches of the cursors; undo links decrease and every round of a batch consumes
    rows, so enough fuel exists, which [Versions.resolve_loop_spec] and
    [RangeReads.transaction_ranges_are_exact] state; without another thread one
    round pins a page ([Buffer.buffer_pin_repr]).  A wait for visibility is given
    what other threads do while it sleeps.

    ** Not modelled

    Metrics and debug output.  The paths of the components' files: the logs, the undo
    store and the page store name their files by number.  The waits of one thread
    for another thread's page load, and latch coupling in the trees: a tree call is
    one step.  Outside [Directory] and [StoreDir], a lost directory entry of a file
    that was synchronized.  The older SeerDB
    engine outside [vnext] ([btree], [db], [transactional], [buffer], [recovery],
    [space], [blob]), of which the kernel uses the identities of
    [storage/format.rs] and the blob pointer; the rest of the OmenDB layer in [src]
    (SQL, the relational executor, the wire protocol, sessions), which runs over
    that older engine; tests, examples and scripts. *)
From stdpp Require Export base tactics option list gmap fin_maps sorting.
From coqutil Require Export Byte Word.LittleEndianList.
From Stdlib Require Export ZArith Lia.

Local Open Scope Z_scope.

(** ** Results

    Rust's [Result<A, E>]; fallible code of the kernel returns it, and the [?]
    operator is the [let?] notation below. *)
Inductive result (A E : Type) : Type :=
| Ok (a : A)
| Err (e : E).
Arguments Ok {A E} a.
Arguments Err {A E} e.

Declare Scope seer_scope.
Delimit Scope seer_scope with seer.

Notation "'let?' x := c 'in' k" :=
  (match c with Ok x => k | Err e => Err e end)
  (at level 10, x pattern, c at level 200, k at level 200,
   format "'[v' 'let?'  x  :=  c  'in' '/' k ']'") : seer_scope.

(** Code that takes [&mut self] returns the state it leaves behind together with
    its result; an error keeps the state reached so far. *)
Notation "'do?' ( s , x ) := c 'in' k" :=
  (match c with (s, Ok x) => k | (s, Err e) => (s, Err e) end)
  (at level 10, s name, x pattern, c at level 200, k at level 200,
   format "'[v' 'do?'  ( s ,  x )  :=  c  'in' '/' k ']'") : seer_scope.

(** [opt.ok_or(e)] *)
Definition ok_or {A E} (o : option A) (e : E) : result A E :=
  match o with Some a => Ok a | None => Err e end.

(** [res.map_err(f)], also the [From::from] conversion the [?] operator makes. *)
Definition map_err {A E F} (f : E → F) (r : result A E) : result A F :=
  match r with Ok a => Ok a | Err e => Err (f e) end.

Definition is_ok {A E} (r : result A E) : bool :=
  match r with Ok _ => true | Err _ => false end.

(** ** Machine integers

    A w-bit unsigned integer is a [Z]; [usize] is 64 bits wide. *)
Definition U32_MAX : Z := 2 ^ 32 - 1.
Definition U64_MAX : Z := 2 ^ 64 - 1.

Definition is_u32 (z : Z) : Prop := 0 ≤ z < 2 ^ 32.
Definition is_u64 (z : Z) : Prop := 0 ≤ z < 2 ^ 64.

(** [u32::try_from(z)], for a nonnegative [z]. *)
Definition u32_try_from (z : Z) : option Z :=
  if z <=? U32_MAX then Some z else None.

(** [a.checked_add(b)] on [u64] and on [usize]. *)
Definition checked_add (a b : Z) : option Z :=
  if a + b <=? U64_MAX then Some (a + b) else None.

(** [a.saturating_add(b)] on [u64]. *)
Definition saturating_add (a b : Z) : Z := Z.min (a + b) U64_MAX.

(** [v.len()] as the [usize] it is. *)
Definition len {A} (l : list A) : Z := Z.of_nat (length l).

(** ** Bytes *)
Abbreviation bytes := (list byte).

(** [x.to_le_bytes()] for a [u16], [u32] and [u64]. *)
Definition u16_le (z : Z) : bytes := le_split 2 z.
Definition u32_le (z : Z) : bytes := le_split 4 z.
Definition u64_le (z : Z) : bytes := le_split 8 z.

(** [bytes.get(offset..offset + n)] *)
Definition slice (bs : bytes) (offset n : nat) : option bytes :=
  if decide (offset + n ≤ length bs)%nat then Some (take n (drop offset bs)) else None.

(** [bytes[i]] as a [u8]; the callers have checked the length. *)
Definition byte_at (bs : bytes) (i : nat) : Z :=
  match bs !! i with Some b => byte.unsigned b | None => 0 end.

(** The [read_u32] and [read_u64] helpers every codec of the kernel repeats. *)
Definition read_u32 (bs : bytes) (offset : nat) : option Z :=
  le_combine <$> slice bs offset 4.
Definition read_u64 (bs : bytes) (offset : nat) : option Z :=
  le_combine <$> slice bs offset 8.

Definition u8 (z : Z) : byte := byte.of_Z z.

#[global] Instance byte_eq_dec : EqDecision byte := Byte.byte_eq_dec.
#[global] Program Instance byte_countable : Countable byte :=
  inj_countable Byte.to_N Byte.of_N _.
Next Obligation. intros b. apply Byte.of_to_N. Qed.

(** ** Orders

    What [#[derive(Ord)]] and the [Ord] instances of integers, vectors and tuples
    give: a three-way comparison that is a total order compatible with equality. *)
Class Ord (A : Type) := {
  cmp : A → A → comparison;
  cmp_eq : ∀ x y, cmp x y = Eq ↔ x = y;
  cmp_opp : ∀ x y, cmp y x = CompOpp (cmp x y);
  cmp_trans : ∀ x y z, cmp x y = Lt → cmp y z = Lt → cmp x z = Lt
}.

Definition lt_ord {A} `{Ord A} (x y : A) : Prop := cmp x y = Lt.

(** Lexicographic comparison of slices. *)
Fixpoint list_cmp {A} (c : A → A → comparison) (xs ys : list A) : comparison :=
  match xs, ys with
  | [], [] => Eq
  | [], _ :: _ => Lt
  | _ :: _, [] => Gt
  | x :: xs', y :: ys' =>
      match c x y with Eq => list_cmp c xs' ys' | o => o end
  end.

(** Lexicographic comparison of pairs and of derived structs. *)
Definition pair_cmp {A B} (ca : A → A → comparison) (cb : B → B → comparison)
    (p q : A * B) : comparison :=
  match ca p.1 q.1 with Eq => cb p.2 q.2 | o => o end.

(** ** Automation *)
Create HintDb seer.
Create Rewrite HintDb seer.

(** Splits a hypothesis or goal on a [match] of a [result] or an [option], and
    simplifies the equations it yields. *)
Ltac split_match :=
  match goal with
  | H : context [match ?x with _ => _ end] |- _ => destruct x eqn:?
  | |- context [match ?x with _ => _ end] => destruct x eqn:?
  end.

Ltac invert_res := repeat (split_match; simplify_eq/=); simplify_eq/=.

(** Turns the boolean tests of the code into propositions for [lia]. *)
Ltac bool_to_prop :=
  repeat match goal with
  | H : (_ && _)%bool = true |- _ => apply andb_prop in H as [? ?]
  | H : (_ || _)%bool = false |- _ => apply orb_false_iff in H as [? ?]
  | H : negb _ = true |- _ => apply negb_true_iff in H
  | H : negb _ = false |- _ => apply negb_false_iff in H
  | H : (_ =? _) = true |- _ => apply Z.eqb_eq in H
  | H : (_ =? _) = false |- _ => apply Z.eqb_neq in H
  | H : (_ <=? _) = true |- _ => apply Z.leb_le in H
  | H : (_ <=? _) = false |- _ => apply Z.leb_gt in H
  | H : (_ <? _) = true |- _ => apply Z.ltb_lt in H
  | H : (_ <? _) = false |- _ => apply Z.ltb_ge in H
  | H : bool_decide _ = true |- _ => apply bool_decide_eq_true in H
  | H : bool_decide _ = false |- _ => apply bool_decide_eq_false in H
  end.

(** ** Generic lemmas *)
Lemma is_u32_u64 z : is_u32 z → is_u64 z.
Proof. unfold is_u32, is_u64. lia. Qed.

Lemma u32_try_from_Some z y : u32_try_from z = Some y ↔ y = z ∧ z ≤ U32_MAX.
Proof.
  unfold u32_try_from. destruct (z <=? U32_MAX) eqn:E; bool_to_prop; split.
  - intros [= <-]; auto.
  - intros [-> ?]; auto.
  - done.
  - lia.
Qed.

Lemma checked_add_Some a b c : checked_add a b = Some c ↔ c = a + b ∧ a + b ≤ U64_MAX.
Proof.
  unfold checked_add. destruct (a + b <=? U64_MAX) eqn:E; bool_to_prop; split.
  - intros [= <-]; auto.
  - intros [-> ?]; auto.
  - done.
  - lia.
Qed.

Lemma len_app {A} (l k : list A) : len (l ++ k) = len l + len k.
Proof. unfold len. rewrite length_app. lia. Qed.

Lemma len_nonneg {A} (l : list A) : 0 ≤ len l.
Proof. unfold len. lia. Qed.

Lemma length_u16_le z : length (u16_le z) = 2%nat.
Proof. apply length_le_split. Qed.
Lemma length_u32_le z : length (u32_le z) = 4%nat.
Proof. apply length_le_split. Qed.
Lemma length_u64_le z : length (u64_le z) = 8%nat.
Proof. apply length_le_split. Qed.

#[export] Hint Rewrite @len_app length_u16_le length_u32_le length_u64_le
  @length_app @length_cons @length_nil @length_take @length_drop : seer.

(** *** Little-endian integers *)
Lemma le_combine_le_split n z :
  0 ≤ z < 2 ^ (Z.of_nat n * 8) → le_combine (le_split n z) = z.
Proof. intros H. rewrite le_combine_split. by apply Z.mod_small. Qed.

Lemma le_u32_roundtrip z : is_u32 z → le_combine (u32_le z) = z.
Proof. intros H. by apply le_combine_le_split. Qed.

Lemma le_u64_roundtrip z : is_u64 z → le_combine (u64_le z) = z.
Proof. intros H. by apply le_combine_le_split. Qed.

Lemma le_combine_u32 bs : length bs = 4%nat → is_u32 (le_combine bs).
Proof. intros H. pose proof (le_combine_bound bs) as B. rewrite H in B. exact B. Qed.

Lemma le_combine_u64 bs : length bs = 8%nat → is_u64 (le_combine bs).
Proof. intros H. pose proof (le_combine_bound bs) as B. rewrite H in B. exact B. Qed.

Lemma u32_le_combine bs : length bs = 4%nat → u32_le (le_combine bs) = bs.
Proof. apply split_le_combine'. Qed.

Lemma u64_le_combine bs : length bs = 8%nat → u64_le (le_combine bs) = bs.
Proof. apply split_le_combine'. Qed.

(** *** Slices *)
Lemma slice_Some bs o n x :
  slice bs o n = Some x ↔ (o + n ≤ length bs)%nat ∧ x = take n (drop o bs).
Proof. unfold slice. case_decide; naive_solver. Qed.

Lemma slice_length bs o n x : slice bs o n = Some x → length x = n.
Proof. rewrite slice_Some. intros [? ->]. rewrite length_take, length_drop. lia. Qed.

(** A field that was read is the next segment of the buffer. *)
Lemma slice_drop bs o n x m :
  slice bs o n = Some x → (o + n)%nat = m → drop o bs = x ++ drop m bs.
Proof.
  rewrite slice_Some. intros [? ->] <-.
  rewrite <-(take_drop n (drop o bs)) at 1. by rewrite drop_drop.
Qed.

Lemma slice_app_here a l o n :
  o = 0%nat → n = length a → slice (a ++ l) o n = Some a.
Proof.
  intros -> ->. apply slice_Some. rewrite length_app, drop_0, take_app_length. split; [lia|done].
Qed.

Lemma slice_app_skip a l o n k :
  length a = k → (k ≤ o)%nat → slice (a ++ l) o n = slice l (o - k) n.
Proof.
  intros <- ?. unfold slice. rewrite length_app.
  rewrite drop_app_ge by lia. repeat case_decide; auto; lia.
Qed.

Lemma slice_all a o n : o = 0%nat → n = length a → slice a o n = Some a.
Proof. intros -> ->. apply slice_Some. rewrite drop_0, take_ge; auto. Qed.

Lemma byte_at_here b l : byte_at (b :: l) 0 = byte.unsigned b.
Proof. done. Qed.

Lemma byte_at_skip a l i k :
  length a = k → (k ≤ i)%nat → byte_at (a ++ l) i = byte_at l (i - k).
Proof. intros <- ?. unfold byte_at. rewrite lookup_app_r by lia. done. Qed.

Lemma byte_at_cons b l i : byte_at (b :: l) (S i) = byte_at l i.
Proof. done. Qed.

Lemma byte_at_range bs i : 0 ≤ byte_at bs i < 256.
Proof. unfold byte_at. destruct (bs !! i); [apply byte.unsigned_range|lia]. Qed.

Lemma unsigned_u8 z : 0 ≤ z < 256 → byte.unsigned (u8 z) = z.
Proof.
  intros H. unfold u8. rewrite byte.unsigned_of_Z. by apply Z.mod_small.
Qed.

Lemma u8_byte_at bs i b : bs !! i = Some b → u8 (byte_at bs i) = b.
Proof. intros H. unfold byte_at, u8. rewrite H. apply byte.of_Z_unsigned. Qed.

Lemma read_u32_Some bs o z :
  read_u32 bs o = Some z ↔ ∃ x, slice bs o 4 = Some x ∧ z = le_combine x.
Proof. unfold read_u32. rewrite fmap_Some. naive_solver. Qed.

Lemma read_u64_Some bs o z :
  read_u64 bs o = Some z ↔ ∃ x, slice bs o 8 = Some x ∧ z = le_combine x.
Proof. unfold read_u64. rewrite fmap_Some. naive_solver. Qed.

(** Splitting a byte string at field boundaries. *)
Lemma drop_field (h : bytes) o n m :
  (o + n = m)%nat → drop o h = take n (drop o h) ++ drop m h.
Proof. intros <-. by rewrite <-drop_drop, take_drop. Qed.

Lemma drop_byte (h : bytes) o m :
  (o < length h)%nat → (S o = m)%nat → drop o h = u8 (byte_at h o) :: drop m h.
Proof.
  intros Ho <-. destruct (lookup_lt_is_Some_2 h o Ho) as [b Hb].
  rewrite (drop_S h b o Hb). f_equal. symmetry. by apply u8_byte_at.
Qed.

Lemma zero_bytes (l : bytes) n :
  length l = n → existsb (λ b, negb (byte.unsigned b =? 0)) l = false → l = replicate n (u8 0).
Proof.
  intros <-. induction l as [|b l IH]; cbn; [done|]. intros [Hb Hl]%orb_false_iff.
  bool_to_prop. f_equal; [|by apply IH]. by rewrite <-(byte.of_Z_unsigned b), Hb.
Qed.

(** Two positions of a sorted list. *)
Lemma StronglySorted_lookup {A} (R : A → A → Prop) (l : list A) i j x y :
  StronglySorted R l → (i < j)%nat → l !! i = Some x → l !! j = Some y → R x y.
Proof.
  intros Hs. revert i j. induction Hs as [|z l _ IH Hz]; intros i j Hij; [by rewrite lookup_nil|].
  destruct j as [|j]; [lia|]. destruct i as [|i]; cbn.
  - intros [= ->] Hj. by apply (proj1 (Forall_lookup _ _) Hz j).
  - apply IH. lia.
Qed.

(** An integer field that was read is its own encoding in the buffer. *)
Lemma read_u32_drop bs o z m :
  read_u32 bs o = Some z → (o + 4 = m)%nat → drop o bs = u32_le z ++ drop m bs ∧ is_u32 z.
Proof.
  intros (x & Hx & ->)%read_u32_Some Hm. pose proof (slice_length _ _ _ _ Hx) as Hl.
  rewrite u32_le_combine by done. split; [by apply (slice_drop _ _ 4)|by apply le_combine_u32].
Qed.

Lemma read_u64_drop bs o z m :
  read_u64 bs o = Some z → (o + 8 = m)%nat → drop o bs = u64_le z ++ drop m bs ∧ is_u64 z.
Proof.
  intros (x & Hx & ->)%read_u64_Some Hm. pose proof (slice_length _ _ _ _ Hx) as Hl.
  rewrite u64_le_combine by done. split; [by apply (slice_drop _ _ 8)|by apply le_combine_u64].
Qed.

(** *** Byte layouts

    A record of fixed layout is the concatenation of its fields; [cut] splits what
    follows an offset at the field lengths. *)
Fixpoint cut (o : nat) (ls : list nat) (bs : bytes) : list bytes :=
  match ls with
  | [] => []
  | n :: ls' => take n (drop o bs) :: cut (o + n) ls' bs
  end.

Lemma concat_cut o ls bs : concat (cut o ls bs) = take (sum_list ls) (drop o bs).
Proof.
  revert o. induction ls as [|n ls IH]; intros o; cbn; [done|].
  by rewrite IH, <-drop_drop, take_take_drop.
Qed.

Lemma cut_app o ls1 ls2 bs : cut o (ls1 ++ ls2) bs = cut o ls1 bs ++ cut (o + sum_list ls1) ls2 bs.
Proof.
  revert o. induction ls1 as [|n ls1 IH]; intros o; cbn; [by rewrite Nat.add_0_r|]. by rewrite IH, Nat.add_assoc.
Qed.

Lemma concat_cut_all ls bs : length bs = sum_list ls → bs = concat (cut 0 ls bs).
Proof. intros Hl. rewrite concat_cut, drop_0, take_ge by lia. done. Qed.

Lemma length_concat_fields (fields : list bytes) : length (concat fields) = sum_list (length <$> fields).
Proof. induction fields as [|f fields IH]; cbn; [done|]. by rewrite length_app, IH. Qed.

(** The field at position [i]. *)
Lemma field_layout (fields : list bytes) ls i f :
  length <$> fields = ls → fields !! i = Some f →
  take (length f) (drop (sum_list (take i ls)) (concat fields)) = f.
Proof.
  intros <-. revert i. induction fields as [|g fields IH]; intros [|i]; cbn; [done..| |].
  - intros [= ->]. by rewrite drop_0, take_app_length.
  - intros Hi. rewrite <-drop_drop, drop_app_length. by apply IH.
Qed.

Lemma take_layout (fields : list bytes) ls i :
  length <$> fields = ls → take (sum_list (take i ls)) (concat fields) = concat (take i fields).
Proof.
  intros <-. rewrite <-fmap_take, <-length_concat_fields.
  rewrite <-(take_drop i fields) at 2. rewrite concat_app. apply take_app_length.
Qed.

Lemma slice_layout (fields : list bytes) ls i f :
  length <$> fields = ls → fields !! i = Some f →
  slice (concat fields) (sum_list (take i ls)) (length f) = Some f.
Proof.
  intros Hls Hi. apply slice_Some. split; [|by rewrite (field_layout fields)].
  rewrite <-Hls, <-fmap_take, <-length_concat_fields.
  rewrite <-(take_drop_middle fields i f Hi) at 2. rewrite concat_app, length_app. cbn. rewrite length_app. lia.
Qed.

Lemma read_layout32 fields ls i z :
  length <$> fields = ls → fields !! i = Some (u32_le z) → is_u32 z →
  read_u32 (concat fields) (sum_list (take i ls)) = Some z.
Proof.
  intros Hls Hi Hz. unfold read_u32. rewrite <-(length_u32_le z), (slice_layout fields) by done.
  cbn. by rewrite le_u32_roundtrip.
Qed.

Lemma read_layout64 fields ls i z :
  length <$> fields = ls → fields !! i = Some (u64_le z) → is_u64 z →
  read_u64 (concat fields) (sum_list (take i ls)) = Some z.
Proof.
  intros Hls Hi Hz. unfold read_u64. rewrite <-(length_u64_le z), (slice_layout fields) by done.
  cbn. by rewrite le_u64_roundtrip.
Qed.

Lemma byte_layout (fields : list bytes) ls i z :
  length <$> fields = ls → fields !! i = Some [u8 z] → 0 ≤ z < 256 →
  byte_at (concat fields) (sum_list (take i ls)) = z.
Proof.
  intros Hls Hi Hz. pose proof (field_layout fields ls i [u8 z] Hls Hi) as Hf. cbn in Hf.
  unfold byte_at. destruct (drop _ (concat fields)) as [|b l] eqn:E; [done|]. cbn in Hf. injection Hf as ->.
  assert (concat fields !! (sum_list (take i ls) + 0)%nat = Some (u8 z)) as Hb by (by rewrite <-lookup_drop, E).
  rewrite Nat.add_0_r in Hb. rewrite Hb. by apply unsigned_u8.
Qed.

(** What a field that was read says about the bytes there. *)
Lemma read_u32_field bs o z : read_u32 bs o = Some z → take 4 (drop o bs) = u32_le z ∧ is_u32 z.
Proof.
  intros (x & Hx & ->)%read_u32_Some. pose proof (slice_length _ _ _ _ Hx) as Hl.
  apply slice_Some in Hx as [_ <-]. by rewrite u32_le_combine by done; split; [|apply le_combine_u32].
Qed.

Lemma read_u64_field bs o z : read_u64 bs o = Some z → take 8 (drop o bs) = u64_le z ∧ is_u64 z.
Proof.
  intros (x & Hx & ->)%read_u64_Some. pose proof (slice_length _ _ _ _ Hx) as Hl.
  apply slice_Some in Hx as [_ <-]. by rewrite u64_le_combine by done; split; [|apply le_combine_u64].
Qed.

Lemma byte_field (bs : bytes) o : (o < length bs)%nat → take 1 (drop o bs) = [u8 (byte_at bs o)].
Proof. intros Ho. by rewrite (drop_byte bs o (S o) Ho eq_refl). Qed.

(** Reads one field of a concatenation: skips the segments in front of it. *)
Ltac seg_len := autorewrite with seer; cbn; lia.
Ltac read_field :=
  unfold read_u32, read_u64;
  repeat first [rewrite (slice_app_skip _ _ _ _ _ (length_u64_le _)) by lia
               |rewrite (slice_app_skip _ _ _ _ _ (length_u32_le _)) by lia
               |rewrite (slice_app_skip [_] _ _ _ 1) by (cbn; lia)
               |rewrite (slice_app_skip [_; _; _; _] _ _ _ 4) by (cbn; lia)];
  first [rewrite slice_app_here by (rewrite ?length_u64_le, ?length_u32_le; lia)
        |rewrite slice_all by (rewrite ?length_u64_le, ?length_u32_le; lia)];
  cbn [fmap option_fmap option_map mbind option_bind];
  rewrite ?le_u64_roundtrip, ?le_u32_roundtrip by assumption.
