(* ===== verification/StdCollections.v ===== *)
(** * Collections of the Rust standard library

    [std::collections::BTreeMap] and [BTreeSet] as the kernel uses them: an
    association list kept in key order, so that iteration order is the order of
    the list.  [HashMap] and [HashSet], whose iteration order the kernel never
    relies on, are [gmap] and [gset].  The file also holds the [Ord] instances of
    integers, bytes, slices and pairs, and the lemmas about them. *)
From S2P Require Import Prelude.

Local Open Scope Z_scope.

(** ** Instances of [Ord] *)
#[global] Program Instance Z_ord : Ord Z := {| cmp := Z.compare |}.
Next Obligation. intros x y. apply Z.compare_eq_iff. Qed.
Next Obligation. intros x y. apply Z.compare_antisym. Qed.
Next Obligation. intros x y z. rewrite !Z.compare_lt_iff. lia. Qed.

#[global] Program Instance byte_ord : Ord byte :=
  {| cmp := λ x y, Z.compare (byte.unsigned x) (byte.unsigned y) |}.
Next Obligation.
  intros x y. rewrite Z.compare_eq_iff. split; [apply byte.unsigned_inj|by intros ->].
Qed.
Next Obligation. intros x y. apply Z.compare_antisym. Qed.
Next Obligation. intros x y z. cbn. rewrite !Z.compare_lt_iff. lia. Qed.

#[global] Program Instance list_ord {A} `{Ord A} : Ord (list A) := {| cmp := list_cmp cmp |}.
Next Obligation.
  intros A ? xs. induction xs as [|x xs IH]; intros [|y ys]; cbn; [done..|].
  destruct (cmp x y) eqn:E.
  - apply cmp_eq in E as ->. rewrite IH. naive_solver.
  - split; [done|]. intros [= -> ->]. by rewrite (proj2 (cmp_eq y y)) in E.
  - split; [done|]. intros [= -> ->]. by rewrite (proj2 (cmp_eq y y)) in E.
Qed.
Next Obligation.
  intros A ? xs. induction xs as [|x xs IH]; intros [|y ys]; cbn; [done..|].
  rewrite (cmp_opp x y). destruct (cmp x y); cbn; auto.
Qed.
Next Obligation.
  intros A ? xs. induction xs as [|x xs IH]; intros [|y ys] [|z zs]; cbn; [done..|].
  destruct (cmp x y) eqn:E1; [|intros _|done].
  - apply cmp_eq in E1 as ->. destruct (cmp y z); eauto; done.
  - destruct (cmp y z) eqn:E2; [intros _|intros _|done].
    + apply cmp_eq in E2 as <-. by rewrite E1.
    + by rewrite (cmp_trans _ _ _ E1 E2).
Qed.

#[global] Program Instance pair_ord {A B} `{Ord A, Ord B} : Ord (A * B) :=
  {| cmp := pair_cmp cmp cmp |}.
Next Obligation.
  intros A B ?? [a b] [c d]. unfold pair_cmp; cbn.
  destruct (cmp a c) eqn:E.
  - apply cmp_eq in E as ->. rewrite cmp_eq. naive_solver.
  - split; [done|]. intros [= -> ->]. by rewrite (proj2 (cmp_eq c c)) in E.
  - split; [done|]. intros [= -> ->]. by rewrite (proj2 (cmp_eq c c)) in E.
Qed.
Next Obligation.
  intros A B ?? [a b] [c d]. unfold pair_cmp; cbn.
  rewrite (cmp_opp a c). destruct (cmp a c); cbn; auto using cmp_opp.
Qed.
Next Obligation.
  intros A B ?? [a b] [c d] [e f]. unfold pair_cmp; cbn.
  destruct (cmp a c) eqn:E1; [|intros _|done].
  - apply cmp_eq in E1 as ->. destruct (cmp c e) eqn:E2; eauto using cmp_trans; done.
  - destruct (cmp c e) eqn:E2; [intros _|intros _|done].
    + apply cmp_eq in E2 as <-. by rewrite E1.
    + by rewrite (cmp_trans _ _ _ E1 E2).
Qed.

(** ** [BTreeMap] *)
Module BTreeMap.
Section btree_map.
Context {K V : Type} `{Ord K}.
Implicit Types (m : list (K * V)).

Fixpoint insert (k : K) (v : V) (m : list (K * V)) : list (K * V) :=
  match m with
  | [] => [(k, v)]
  | (k', v') :: m' =>
      match cmp k k' with
      | Lt => (k, v) :: m
      | Eq => (k, v) :: m'
      | Gt => (k', v') :: insert k v m'
      end
  end.

Fixpoint get (k : K) (m : list (K * V)) : option V :=
  match m with
  | [] => None
  | (k', v') :: m' => match cmp k k' with Eq => Some v' | _ => get k m' end
  end.

Fixpoint remove (k : K) (m : list (K * V)) : list (K * V) :=
  match m with
  | [] => []
  | (k', v') :: m' => match cmp k k' with Eq => m' | _ => (k', v') :: remove k m' end
  end.

Definition contains_key (k : K) (m : list (K * V)) : bool :=
  match get k m with Some _ => true | None => false end.

(** The representation invariant: keys strictly increase. *)
Definition wf (m : list (K * V)) : Prop := StronglySorted (λ p q, lt_ord p.1 q.1) m.

Lemma cmp_refl (k : K) : cmp k k = Eq.
Proof. by apply cmp_eq. Qed.

Lemma lt_ord_irrefl (k : K) : ¬ lt_ord k k.
Proof. unfold lt_ord. by rewrite cmp_refl. Qed.

Lemma cmp_gt_lt (k k' : K) : cmp k k' = Gt → lt_ord k' k.
Proof. intros E. unfold lt_ord. by rewrite cmp_opp, E. Qed.

Lemma elem_insert k v m p : p ∈ insert k v m → p = (k, v) ∨ p ∈ m.
Proof.
  induction m as [|[k' v'] m IH]; cbn.
  - intros ?%list_elem_of_singleton; auto.
  - destruct (cmp k k'); rewrite !elem_of_cons; naive_solver.
Qed.

Lemma elem_remove k m p : p ∈ remove k m → p ∈ m.
Proof.
  induction m as [|[k' v'] m IH]; cbn; [done|].
  destruct (cmp k k'); rewrite !elem_of_cons; naive_solver.
Qed.

Lemma insert_wf k v m : wf m → wf (insert k v m).
Proof.
  unfold wf. induction 1 as [|[k' v'] m Hm IH Hall]; cbn; [repeat constructor|].
  destruct (cmp k k') eqn:E.
  - apply cmp_eq in E as ->. by constructor.
  - repeat constructor; auto.
    eapply Forall_impl; [exact Hall|]. intros p; cbn. unfold lt_ord. eauto using cmp_trans.
  - constructor; [done|]. apply Forall_forall. intros p [->|Hp]%elem_insert; cbn.
    + by apply cmp_gt_lt.
    + rewrite Forall_forall in Hall. auto.
Qed.

Lemma remove_wf k m : wf m → wf (remove k m).
Proof.
  unfold wf. induction 1 as [|[k' v'] m Hm IH Hall]; cbn; [constructor|].
  destruct (cmp k k'); [done|..]; constructor; auto;
    apply Forall_forall; intros p Hp%elem_remove; rewrite Forall_forall in Hall; auto.
Qed.

Lemma get_insert_eq k v m : get k (insert k v m) = Some v.
Proof.
  induction m as [|[k' v'] m IH]; cbn; [by rewrite cmp_refl|].
  destruct (cmp k k') eqn:E; cbn; rewrite ?cmp_refl; auto. by rewrite E.
Qed.

Lemma get_insert_ne k k' v m : k ≠ k' → get k' (insert k v m) = get k' m.
Proof.
  intros Hne. induction m as [|[j w] m IH]; cbn.
  - destruct (cmp k' k) eqn:E; auto. apply cmp_eq in E. congruence.
  - destruct (cmp k j) eqn:E; cbn.
    + apply cmp_eq in E as ->. destruct (cmp k' j) eqn:E'; auto. apply cmp_eq in E'. congruence.
    + destruct (cmp k' k) eqn:E'; auto. apply cmp_eq in E'. congruence.
    + by rewrite IH.
Qed.

Lemma get_insert `{EqDecision K} k k' v m :
  get k' (insert k v m) = if decide (k = k') then Some v else get k' m.
Proof.
  case_decide as E; [subst; apply get_insert_eq|by apply get_insert_ne].
Qed.

Lemma get_elem k v m : get k m = Some v → (k, v) ∈ m.
Proof.
  induction m as [|[k' v'] m IH]; cbn; [done|].
  destruct (cmp k k') eqn:E; rewrite elem_of_cons; auto.
  apply cmp_eq in E as ->. intros [= ->]; auto.
Qed.

Lemma elem_get k v m : wf m → (k, v) ∈ m → get k m = Some v.
Proof.
  unfold wf. induction 1 as [|[k' v'] m Hm IH Hall]; cbn; [by intros ?%elem_of_nil|].
  intros [[= -> ->]|Hin]%elem_of_cons; [by rewrite cmp_refl|].
  rewrite Forall_forall in Hall. specialize (Hall _ Hin); cbn in Hall.
  destruct (cmp k k') eqn:E; auto.
  apply cmp_eq in E as ->. by apply lt_ord_irrefl in Hall.
Qed.

Lemma get_lt k m p : Forall (λ q, lt_ord k q.1) m → p ∈ m → p.1 ≠ k.
Proof.
  rewrite Forall_forall. intros Hall Hp <-. by apply (lt_ord_irrefl p.1), Hall.
Qed.

Lemma get_notin k m : Forall (λ q, lt_ord k q.1) m → get k m = None.
Proof.
  intros Hall. destruct (get k m) eqn:E; [|done].
  apply get_elem in E. by apply (get_lt k m) in E.
Qed.

Lemma get_remove_eq k m : wf m → get k (remove k m) = None.
Proof.
  unfold wf. induction 1 as [|[k' v'] m Hm IH Hall]; cbn; [done|].
  destruct (cmp k k') eqn:E; cbn; rewrite ?E; auto.
  apply cmp_eq in E as ->. by apply get_notin.
Qed.

Lemma get_remove_ne k k' m : k ≠ k' → get k' (remove k m) = get k' m.
Proof.
  intros Hne. induction m as [|[j w] m IH]; cbn; [done|].
  destruct (cmp k j) eqn:E; cbn; [|by rewrite IH..].
  apply cmp_eq in E as ->. destruct (cmp k' j) eqn:E'; auto. apply cmp_eq in E'. congruence.
Qed.

(** Two maps with the same lookups are the same ordered list. *)
Lemma map_eq m1 m2 : wf m1 → wf m2 → (∀ k, get k m1 = get k m2) → m1 = m2.
Proof.
  intros H1. revert m2. unfold wf in *.
  induction H1 as [|[k v] m Hm IH Hall]; intros m2 H2 Hget.
  - destruct m2 as [|[k' v'] m2]; [done|].
    specialize (Hget k'); cbn in Hget. by rewrite cmp_refl in Hget.
  - destruct H2 as [|[k' v'] m2 Hm2 Hall2].
    { specialize (Hget k); cbn in Hget. by rewrite cmp_refl in Hget. }
    assert (k = k') as <-.
    { destruct (cmp k k') eqn:E; [by apply cmp_eq|exfalso..].
      - specialize (Hget k); cbn in Hget. rewrite cmp_refl, E in Hget.
        rewrite get_notin in Hget; [done|].
        eapply Forall_impl; [exact Hall2|]. intros p; cbn. unfold lt_ord. eauto using cmp_trans.
      - apply cmp_gt_lt in E. pose proof (Hget k') as G; cbn in G.
        rewrite cmp_refl in G. unfold lt_ord in E. rewrite E in G.
        rewrite get_notin in G; [done|].
        eapply Forall_impl; [exact Hall|]. intros p; cbn. unfold lt_ord in *. eauto using cmp_trans. }
    pose proof (Hget k) as G; cbn in G. rewrite cmp_refl in G. simplify_eq.
    f_equal. apply IH; [done|]. intros j. specialize (Hget j); cbn in Hget.
    destruct (cmp j k) eqn:E; [|done..].
    apply cmp_eq in E as ->. by rewrite !get_notin.
Qed.

Lemma insert_existing `{EqDecision K} k v v' m :
  wf m → get k m = Some v →
  insert k v' m = (λ p, if decide (p.1 = k) then (k, v') else p) <$> m.
Proof.
  unfold wf. induction 1 as [|[j w] m Hm IH Hall]; cbn; [done|].
  destruct (cmp k j) eqn:E.
  - apply cmp_eq in E as ->. intros _. rewrite decide_True by done. f_equal.
    rewrite <-(list_fmap_id m) at 1. apply list_fmap_ext. intros i p Hp; cbn.
    rewrite decide_False; [done|]. apply (get_lt j m); [done|]. by eapply list_elem_of_lookup_2.
  - intros Hg. apply get_elem in Hg. rewrite Forall_forall in Hall.
    apply Hall in Hg. cbn in Hg. exfalso. apply (lt_ord_irrefl k). unfold lt_ord in *.
    eauto using cmp_trans.
  - intros Hg. rewrite IH by done. rewrite decide_False; [done|]. intros ->.
    by rewrite cmp_refl in E.
Qed.

Lemma insert_last k v m : Forall (λ p, lt_ord p.1 k) m → insert k v m = m ++ [(k, v)].
Proof.
  induction 1 as [|[j w] m Hj _ IH]; cbn; [done|]. cbn in Hj.
  unfold lt_ord in Hj. rewrite (cmp_opp j k), Hj. cbn. by rewrite IH.
Qed.

Lemma get_snoc k v m : Forall (λ p, lt_ord p.1 k) m → get k (m ++ [(k, v)]) = Some v.
Proof. intros Hm. by rewrite <-(insert_last k v), get_insert_eq. Qed.

Lemma wf_snoc k v m : wf m → Forall (λ p, lt_ord p.1 k) m → wf (m ++ [(k, v)]).
Proof. intros Hw Hm. rewrite <-insert_last by done. by apply insert_wf. Qed.

Lemma insert_snoc k v v' m :
  Forall (λ p, lt_ord p.1 k) m → insert k v' (m ++ [(k, v)]) = m ++ [(k, v')].
Proof.
  induction 1 as [|[j w] m Hj _ IH]; cbn; [by rewrite cmp_refl|]. cbn in Hj.
  unfold lt_ord in Hj. rewrite (cmp_opp j k), Hj. cbn. by rewrite IH.
Qed.

Lemma get_notin_last k m : Forall (λ p, lt_ord p.1 k) m → get k m = None.
Proof.
  intros Hm. destruct (get k m) eqn:E; [|done]. apply get_elem in E.
  rewrite Forall_forall in Hm. apply Hm in E. by apply lt_ord_irrefl in E.
Qed.

Lemma wf_nodup m : wf m → NoDup m.*1.
Proof.
  unfold wf. induction 1 as [|[k v] m Hm IH Hall]; cbn; constructor; auto.
  intros ([k' v'] & -> & Hp)%list_elem_of_fmap. by apply (get_lt k' m) in Hp.
Qed.
End btree_map.
End BTreeMap.

(** ** [BTreeSet] *)
Module BTreeSet.
Section btree_set.
Context {K : Type} `{Ord K}.

Fixpoint insert (k : K) (s : list K) : list K :=
  match s with
  | [] => [k]
  | k' :: s' =>
      match cmp k k' with Lt => k :: s | Eq => s | Gt => k' :: insert k s' end
  end.

Fixpoint contains (k : K) (s : list K) : bool :=
  match s with
  | [] => false
  | k' :: s' => match cmp k k' with Eq => true | _ => contains k s' end
  end.

(** [s.remove(&k)] returns whether the element was there. *)
Fixpoint remove (k : K) (s : list K) : bool * list K :=
  match s with
  | [] => (false, [])
  | k' :: s' =>
      match cmp k k' with
      | Eq => (true, s')
      | _ => let '(b, s'') := remove k s' in (b, k' :: s'')
      end
  end.

Definition wf (s : list K) : Prop := StronglySorted lt_ord s.

Lemma contains_elem k s : contains k s = true ↔ k ∈ s.
Proof.
  induction s as [|k' s IH]; cbn.
  - split; [done|by intros ?%elem_of_nil].
  - rewrite elem_of_cons, <-IH. destruct (cmp k k') eqn:E.
    + apply cmp_eq in E as ->. naive_solver.
    + split; [by auto|]. intros [->|?]; [|done]. by rewrite (proj2 (cmp_eq k' k')) in E.
    + split; [by auto|]. intros [->|?]; [|done]. by rewrite (proj2 (cmp_eq k' k')) in E.
Qed.

Lemma set_elem_insert k s x : x ∈ insert k s ↔ x = k ∨ x ∈ s.
Proof.
  induction s as [|k' s IH]; cbn.
  - rewrite list_elem_of_singleton, elem_of_nil. naive_solver.
  - destruct (cmp k k') eqn:E; rewrite ?elem_of_cons, ?IH; [|naive_solver..].
    apply cmp_eq in E as ->. naive_solver.
Qed.

Lemma set_insert_wf k s : wf s → wf (insert k s).
Proof.
  unfold wf. induction 1 as [|k' s Hs IH Hall]; cbn; [repeat constructor|].
  destruct (cmp k k') eqn:E.
  - by constructor.
  - repeat constructor; auto.
    eapply Forall_impl; [exact Hall|]. intros p. unfold lt_ord. eauto using cmp_trans.
  - constructor; [done|]. apply Forall_forall. intros p [->|Hp]%set_elem_insert.
    + unfold lt_ord. by rewrite cmp_opp, E.
    + rewrite Forall_forall in Hall. auto.
Qed.

Lemma remove_fst k s : (remove k s).1 = contains k s.
Proof.
  induction s as [|k' s IH]; cbn; [done|].
  destruct (cmp k k'); [done|..]; destruct (remove k s); done.
Qed.

Lemma set_elem_remove k s x : wf s → x ∈ (remove k s).2 ↔ x ∈ s ∧ x ≠ k.
Proof.
  unfold wf. induction 1 as [|k' s Hs IH Hall]; cbn; [set_solver|].
  destruct (cmp k k') eqn:E; cbn.
  - apply cmp_eq in E as ->. rewrite elem_of_cons. split; [|naive_solver].
    intros Hx. split; [by right|]. intros ->. rewrite Forall_forall in Hall.
    apply Hall in Hx. unfold lt_ord in Hx. by rewrite (proj2 (cmp_eq k' k')) in Hx.
  - destruct (remove k s); cbn in *. rewrite !elem_of_cons, IH.
    split; [|naive_solver]. intros [->|?]; [|naive_solver]. split; [auto|].
    intros ->. by rewrite (proj2 (cmp_eq k k)) in E.
  - destruct (remove k s); cbn in *. rewrite !elem_of_cons, IH.
    split; [|naive_solver]. intros [->|?]; [|naive_solver]. split; [auto|].
    intros ->. by rewrite (proj2 (cmp_eq k k)) in E.
Qed.

Lemma set_remove_wf k s : wf s → wf (remove k s).2.
Proof.
  intros Hs. induction Hs as [|k' s Hs IH Hall]; cbn; [constructor|].
  destruct (cmp k k') eqn:E; cbn; [done|..].
  all: destruct (remove k s) as [b t] eqn:R; cbn in *; constructor; auto.
  all: apply Forall_forall; intros x Hx; rewrite Forall_forall in Hall; apply Hall.
  all: eapply (set_elem_remove k s); [done|]; by rewrite R.
Qed.

Lemma remove_length k s : contains k s = true → length s = S (length (remove k s).2).
Proof.
  induction s as [|k' s IH]; cbn; [done|].
  destruct (cmp k k'); cbn; [done|..]; intros Hc; specialize (IH Hc); destruct (remove k s); cbn in *; lia.
Qed.
End btree_set.
End BTreeSet.
