(* ===== verification/Ids.v ===== *)
(** * Kernel identities

    Models [crates/seerdb/src/vnext/ids.rs], [vnext/object.rs] and the [Lsn] and
    [CommitPosition] types of [storage/format.rs].  The numeric newtypes
    ([TxnId], [CommitSeq], [VersionId], [StorageObjectId], [PageId]) wrap a [u64]
    and are their integer. *)
From S2P Require Import Prelude StdCollections.

Local Open Scope Z_scope.

Abbreviation TxnId := Z.
Abbreviation CommitSeq := Z.
Abbreviation VersionId := Z.
Abbreviation StorageObjectId := Z.
Abbreviation PageId := Z.
Abbreviation FrameId := Z.
Abbreviation Lsn := Z.

(** ** [Lsn]: segment in the high half, end offset in the low half *)
Definition MAX_OFFSET : Z := U32_MAX.

Definition from_wal_position (segment offset : Z) : option Lsn :=
  if (U32_MAX <? segment) || (MAX_OFFSET <? offset) then None
  else Some (Z.lor (Z.shiftl segment 32) offset).

Definition lsn_segment (l : Lsn) : Z := Z.shiftr l 32.
Definition lsn_offset (l : Lsn) : Z := Z.land l MAX_OFFSET.

Record CommitPosition := { cp_csn : CommitSeq; cp_lsn : Lsn }.

(** ** Object-scoped page identity *)
Record PageKey := { pk_object : StorageObjectId; pk_page : PageId }.

#[global] Instance PageKey_eq_dec : EqDecision PageKey.
Proof. solve_decision. Defined.
#[global] Program Instance PageKey_countable : Countable PageKey :=
  inj_countable' (λ k, (pk_object k, pk_page k)) (λ p, {| pk_object := p.1; pk_page := p.2 |}) _.
Next Obligation. by intros []. Qed.

(** ** Store incarnations *)

(** [StoreIncarnation::from_bytes]: the loop looks for a nonzero byte. *)
Fixpoint incarnation_from_bytes_loop (all rest : bytes) : option bytes :=
  match rest with
  | [] => None
  | b :: rest' =>
      if byte.unsigned b =? 0 then incarnation_from_bytes_loop all rest' else Some all
  end.
Definition incarnation_from_bytes (bs : bytes) : option bytes :=
  incarnation_from_bytes_loop bs bs.

(** ** Frame references *)
Definition FrameIncarnation_new (value : Z) : option Z :=
  if value =? 0 then None else Some value.

Record FrameRef := { fr_frame : FrameId; fr_incarnation : Z }.

#[global] Instance FrameRef_eq_dec : EqDecision FrameRef.
Proof. solve_decision. Defined.

(** ** Storage objects *)
Inductive ObjectAuthority := Authoritative | Derived.

Definition requires_commit_recovery (a : ObjectAuthority) : bool :=
  match a with Authoritative => true | Derived => false end.

Record StorageObjectDescriptor := { od_id : StorageObjectId; od_authority : ObjectAuthority }.

(** ** Lemmas *)
Lemma from_wal_position_Some s o l :
  0 ≤ s → 0 ≤ o →
  from_wal_position s o = Some l ↔ s ≤ U32_MAX ∧ o ≤ U32_MAX ∧ l = s * 2 ^ 32 + o.
Proof.
  intros Hs Ho. unfold from_wal_position, MAX_OFFSET, U32_MAX.
  assert (o < 2 ^ 32 → Z.lor (Z.shiftl s 32) o = s * 2 ^ 32 + o) as Hpack.
  { intros Hlt. rewrite <-Z.add_lor_land, Z.shiftl_mul_pow2 by lia.
    enough (Z.land (s * 2 ^ 32) o = 0) by lia.
    apply Z.bits_inj'. intros n Hn. rewrite Z.land_spec, Z.bits_0.
    destruct (Z.ltb_spec n 32).
    - rewrite Z.mul_pow2_bits_low by lia. done.
    - rewrite (Z.bits_above_log2 o n); [by rewrite andb_false_r|lia|].
      destruct (Z.eq_dec o 0) as [->|]; [cbn; lia|].
      apply Z.log2_lt_pow2; [lia|].
      eapply Z.lt_le_trans; [exact Hlt|]. apply Z.pow_le_mono_r; lia. }
  destruct ((2 ^ 32 - 1 <? s) || (2 ^ 32 - 1 <? o))%bool eqn:E.
  - split; [done|]. apply orb_prop in E as [?%Z.ltb_lt|?%Z.ltb_lt]; lia.
  - bool_to_prop. rewrite Hpack by lia. split; [intros [= <-]|intros (?&?&->)]; auto.
Qed.

(** An LSN built from a WAL position gives that position back. *)
Lemma lsn_fields s o l :
  0 ≤ s → 0 ≤ o → from_wal_position s o = Some l →
  lsn_segment l = s ∧ lsn_offset l = o.
Proof.
  intros Hs Ho (?&?&->)%from_wal_position_Some; [|done..].
  unfold lsn_segment, lsn_offset, MAX_OFFSET, U32_MAX in *.
  replace (2 ^ 32 - 1) with (Z.ones 32) by done.
  rewrite Z.land_ones, Z.shiftr_div_pow2 by lia. split.
  - rewrite Z.div_add_l, Z.div_small by lia. lia.
  - rewrite Z.add_comm, Z.mod_add by lia. apply Z.mod_small. lia.
Qed.

Lemma incarnation_from_bytes_Some bs x : incarnation_from_bytes bs = Some x → x = bs.
Proof.
  unfold incarnation_from_bytes. generalize bs at 2 as rest. intros rest.
  induction rest as [|b rest IH]; cbn; [done|]. destruct (_ =? 0); [done|congruence].
Qed.
