(* ===== verification/Crc.v ===== *)
(** * Checksums

    The [crc32c] crate is a third-party dependency.  The codecs use its one
    function [crc32c] and rely on nothing but its [u32] result type, so it is a
    class parameter of every definition that calls it.  [castagnoli] is the
    published CRC-32C algorithm; it instantiates the class in the concrete runs. *)
From S2P Require Import Prelude.

Local Open Scope Z_scope.

Class Crc32c := {
  crc32c : bytes → Z;
  crc32c_u32 : ∀ bs, is_u32 (crc32c bs)
}.

(** One byte of the reflected polynomial [0x82F63B78]. *)
Fixpoint crc_bits (n : nat) (crc : Z) : Z :=
  match n with
  | O => crc
  | S n' =>
      crc_bits n' (if Z.testbit crc 0 then Z.lxor (Z.shiftr crc 1) 0x82F63B78
                   else Z.shiftr crc 1)
  end.

Definition castagnoli (bs : bytes) : Z :=
  Z.lxor (fold_left (λ crc b, crc_bits 8 (Z.lxor crc (byte.unsigned b))) bs 0xFFFFFFFF)
    0xFFFFFFFF mod 2 ^ 32.

Lemma castagnoli_u32 bs : is_u32 (castagnoli bs).
Proof.
  unfold castagnoli, is_u32.
  match goal with |- context [?x mod _] => pose proof (Z.mod_pos_bound x (2 ^ 32)) end. lia.
Qed.

Definition castagnoli_crc : Crc32c :=
  {| crc32c := castagnoli; crc32c_u32 := castagnoli_u32 |}.

(** The check value of the algorithm: the checksum of [123456789]. *)
Example castagnoli_check : castagnoli (u8 <$> [49; 50; 51; 52; 53; 54; 55; 56; 57]) = 0xE3069283.
Proof. vm_compute. reflexivity. Qed.
