(* ===== verification/Fs.v ===== *)
(** * Files

    The file operations of [std::fs] and of [crates/durable-fs] that the storage
    components use, over a store of files named by number.  Every operation can
    fail: a schedule of faults decides, and a failed write may have written any
    prefix of its bytes.  A file remembers how much of it the last sync covered;
    a crash keeps at least that much. *)
From S2P Require Import Prelude StdCollections.

Local Open Scope Z_scope.
Local Open Scope seer_scope.

(** The kinds of [std::io::Error] the kernel produces or forwards. *)
Inductive IoErrorKind := InvalidInput | InvalidData | StorageFull | NotFound | AlreadyExists | WouldBlock | Unsupported | OtherIo.

Record File := { f_bytes : bytes; f_synced : nat }.

(** [fs_faults]: the outcome of each coming operation; [Some n] fails it after [n]
    bytes took effect, and past the end of the schedule operations succeed. *)
Record Fs := { fs_files : list (Z * File); fs_faults : list (option nat) }.

Definition set_files (files : list (Z * File)) (fs : Fs) : Fs :=
  {| fs_files := files; fs_faults := fs_faults fs |}.

(** Takes the outcome of the next operation off the schedule. *)
Definition next_fault (fs : Fs) : Fs * option nat :=
  match fs_faults fs with
  | [] => (fs, None)
  | f :: rest => ({| fs_files := fs_files fs; fs_faults := rest |}, f)
  end.

(** Overwrites from [pos], extending the file with zeroes up to [pos]. *)
Definition splice (pos : nat) (bs content : bytes) : bytes :=
  take pos (content ++ replicate (pos - length content) (u8 0)) ++ bs ++
  drop (pos + length bs) content.

(** An operation without an effect of its own: [seek], [metadata], [sync_dir]. *)
Definition fs_check (fs : Fs) : Fs * result unit IoErrorKind :=
  let '(fs, fault) := next_fault fs in
  match fault with Some _ => (fs, Err OtherIo) | None => (fs, Ok ()) end.

(** [OpenOptions::create_new(true).open(path)] *)
Definition fs_create_new (k : Z) (fs : Fs) : Fs * result unit IoErrorKind :=
  do? (fs, _) := fs_check fs in
  if BTreeMap.contains_key k (fs_files fs) then (fs, Err AlreadyExists)
  else (set_files (BTreeMap.insert k {| f_bytes := []; f_synced := 0 |} (fs_files fs)) fs, Ok ()).

(** [seek(pos)] then [write_all(bytes)]; the seek is [fs_check]. *)
Definition fs_write_at (k : Z) (pos : nat) (bs : bytes) (fs : Fs) : Fs * result unit IoErrorKind :=
  let '(fs, fault) := next_fault fs in
  match BTreeMap.get k (fs_files fs) with
  | None => (fs, Err NotFound)
  | Some f =>
      let written := match fault with None => bs | Some n => take n bs end in
      let f' := {| f_bytes := splice pos written (f_bytes f);
                   f_synced := Nat.min (f_synced f) pos |} in
      (set_files (BTreeMap.insert k f' (fs_files fs)) fs,
       match fault with None => Ok () | Some _ => Err OtherIo end)
  end.

(** [sync_file_data] and [sync_file_all] *)
Definition fs_sync_file (k : Z) (fs : Fs) : Fs * result unit IoErrorKind :=
  do? (fs, _) := fs_check fs in
  match BTreeMap.get k (fs_files fs) with
  | None => (fs, Err NotFound)
  | Some f =>
      (set_files (BTreeMap.insert k
         {| f_bytes := f_bytes f; f_synced := length (f_bytes f) |} (fs_files fs)) fs, Ok ())
  end.

(** [fsync_dir] *)
Definition fs_sync_dir (fs : Fs) : Fs * result unit IoErrorKind := fs_check fs.

(** [read_to_end] *)
Definition fs_read (k : Z) (fs : Fs) : Fs * result bytes IoErrorKind :=
  do? (fs, _) := fs_check fs in
  match BTreeMap.get k (fs_files fs) with
  | None => (fs, Err NotFound)
  | Some f => (fs, Ok (f_bytes f))
  end.

(** [set_len(n)] *)
Definition fs_set_len (k : Z) (n : nat) (fs : Fs) : Fs * result unit IoErrorKind :=
  do? (fs, _) := fs_check fs in
  match BTreeMap.get k (fs_files fs) with
  | None => (fs, Err NotFound)
  | Some f =>
      (set_files (BTreeMap.insert k
         {| f_bytes := take n (f_bytes f ++ replicate (n - length (f_bytes f)) (u8 0));
            f_synced := Nat.min (f_synced f) n |} (fs_files fs)) fs, Ok ())
  end.

(** ** Crashes

    A file keeps what was synchronized and any prefix of the rest; a file of which
    nothing was synchronized may be gone. *)
Definition file_crash (f f' : File) : Prop :=
  ∃ n, (f_synced f ≤ n)%nat ∧ f_bytes f' = take n (f_bytes f) ∧ f_synced f' = f_synced f.

Inductive files_crash : list (Z * File) → list (Z * File) → Prop :=
| crash_nil : files_crash [] []
| crash_keep k f f' fs fs' :
    file_crash f f' → files_crash fs fs' → files_crash ((k, f) :: fs) ((k, f') :: fs')
| crash_drop k f fs fs' :
    f_synced f = 0%nat → files_crash fs fs' → files_crash ((k, f) :: fs) fs'.

(** After a crash the machine restarts with working devices. *)
Definition fs_crash (fs fs' : Fs) : Prop :=
  files_crash (fs_files fs) (fs_files fs') ∧ fs_faults fs' = [].

(** ** Lemmas *)
Lemma splice_end content bs : splice (length content) bs content = content ++ bs.
Proof.
  unfold splice. rewrite Nat.sub_diag. cbn. rewrite app_nil_r, take_ge by done.
  by rewrite drop_ge, app_nil_r by lia.
Qed.

Lemma fs_check_files fs fs' r : fs_check fs = (fs', r) → fs_files fs' = fs_files fs.
Proof.
  unfold fs_check, next_fault. destruct (fs_faults fs) as [|[n|] rest]; intros [= <- <-]; done.
Qed.

Lemma fs_check_ok fs : fs_faults fs = [] → fs_check fs = (fs, Ok ()).
Proof. intros E. unfold fs_check, next_fault. by rewrite E. Qed.

(** The effect of each operation on the files: nothing, or what it says. *)
Lemma fs_create_new_cases k fs fs' r :
  fs_create_new k fs = (fs', r) →
  fs_files fs' = fs_files fs ∧ is_ok r = false ∨
  r = Ok () ∧ BTreeMap.get k (fs_files fs) = None ∧
  fs_files fs' = BTreeMap.insert k {| f_bytes := []; f_synced := 0 |} (fs_files fs).
Proof.
  unfold fs_create_new. destruct (fs_check fs) as [fs1 [[]|e]] eqn:E; apply fs_check_files in E.
  2:{ intros [= <- <-]. by left. }
  unfold BTreeMap.contains_key. rewrite E.
  destruct (BTreeMap.get k (fs_files fs)) eqn:G; intros [= <- <-]; [by left|by right].
Qed.

Lemma fs_write_at_cases k pos bs fs fs' r f :
  BTreeMap.get k (fs_files fs) = Some f → fs_write_at k pos bs fs = (fs', r) →
  ∃ written, fs_files fs' = BTreeMap.insert k
      {| f_bytes := splice pos written (f_bytes f); f_synced := Nat.min (f_synced f) pos |}
      (fs_files fs) ∧
    (r = Ok () ∧ written = bs ∨ is_ok r = false ∧ ∃ n, written = take n bs).
Proof.
  intros Hg. unfold fs_write_at, next_fault.
  destruct (fs_faults fs) as [|[n|] rest]; cbn; rewrite Hg; intros [= <- <-]; cbn;
    eexists; (split; [done|]); eauto.
Qed.

Lemma fs_sync_file_cases k fs fs' r :
  fs_sync_file k fs = (fs', r) →
  fs_files fs' = fs_files fs ∧ is_ok r = false ∨
  r = Ok () ∧ ∃ f, BTreeMap.get k (fs_files fs) = Some f ∧
  fs_files fs' = BTreeMap.insert k {| f_bytes := f_bytes f; f_synced := length (f_bytes f) |}
                   (fs_files fs).
Proof.
  unfold fs_sync_file. destruct (fs_check fs) as [fs1 [[]|e]] eqn:E; apply fs_check_files in E.
  2:{ intros [= <- <-]. by left. }
  rewrite E. destruct (BTreeMap.get k (fs_files fs)) eqn:G; intros [= <- <-]; [right|by left].
  split; [done|]. by eexists.
Qed.

Lemma fs_read_ok k fs f :
  fs_faults fs = [] → BTreeMap.get k (fs_files fs) = Some f → fs_read k fs = (fs, Ok (f_bytes f)).
Proof. intros E G. unfold fs_read. by rewrite fs_check_ok, G. Qed.

Lemma fs_read_cases k fs fs' r :
  fs_read k fs = (fs', r) →
  fs_files fs' = fs_files fs ∧
  match r with
  | Ok bs => ∃ f, BTreeMap.get k (fs_files fs) = Some f ∧ bs = f_bytes f
  | Err _ => True
  end.
Proof.
  unfold fs_read. destruct (fs_check fs) as [fs1 [[]|]] eqn:E; apply fs_check_files in E;
    [|by intros [= <- <-]]. rewrite E.
  destruct (BTreeMap.get k (fs_files fs)) as [f|]; intros [= <- <-]; [|done]. eauto.
Qed.

Lemma fs_sync_file_ok k fs f :
  fs_faults fs = [] → BTreeMap.get k (fs_files fs) = Some f →
  ∃ fs', fs_sync_file k fs = (fs', Ok ()) ∧ fs_faults fs' = [] ∧
    fs_files fs' = BTreeMap.insert k {| f_bytes := f_bytes f; f_synced := length (f_bytes f) |}
                     (fs_files fs).
Proof. intros E G. unfold fs_sync_file. rewrite fs_check_ok, G by done. by eexists. Qed.

Lemma fs_set_len_ok k n fs f :
  fs_faults fs = [] → BTreeMap.get k (fs_files fs) = Some f → (n ≤ length (f_bytes f))%nat →
  ∃ fs', fs_set_len k n fs = (fs', Ok ()) ∧ fs_faults fs' = [] ∧
    fs_files fs' = BTreeMap.insert k {| f_bytes := take n (f_bytes f);
                                        f_synced := Nat.min (f_synced f) n |} (fs_files fs).
Proof.
  intros E G Hn. unfold fs_set_len. rewrite fs_check_ok, G by done. eexists. split; [done|].
  split; [done|]. cbn. replace (n - length (f_bytes f))%nat with 0%nat by lia. cbn.
  by rewrite app_nil_r.
Qed.

(** A crash keeps a file of which something was synchronized. *)
Lemma files_crash_get x fs fs' f :
  files_crash fs fs' → BTreeMap.get x fs = Some f → f_synced f ≠ 0%nat →
  ∃ f', BTreeMap.get x fs' = Some f' ∧ file_crash f f'.
Proof.
  intros Hc Hg Hs.
  induction Hc as [|k g g' l l' Hgg Hc IH|k g l l' H0 Hc IH]; cbn [BTreeMap.get] in *; [done|..].
  - destruct (cmp x k); [|by apply IH..]. injection Hg as ->. by exists g'.
  - destruct (cmp x k); [|by apply IH..]. by injection Hg as ->.
Qed.

(** The crash in which every file loses what lies past byte [n] and was not
    synchronized. *)
Definition crash_at (n : nat) (fs : Fs) : Fs :=
  {| fs_files := (λ p, (p.1, {| f_bytes := take (Nat.max (f_synced p.2) n) (f_bytes p.2);
                                f_synced := f_synced p.2 |})) <$> fs_files fs;
     fs_faults := [] |}.

Lemma crash_at_crash n fs : fs_crash fs (crash_at n fs).
Proof.
  split; [|done]. cbn. induction (fs_files fs) as [|[k f] files IH]; cbn; constructor; [|done].
  exists (Nat.max (f_synced f) n). split_and!; [lia|done..].
Qed.
