(* ===== verification/Directory.v ===== *)
(** * Directories and atomic publication

    Models [crates/durable-fs/src/lib.rs] over one directory.  A name of the
    directory has a history: what it stands for now, and everything it has stood for
    since the directory was last synchronized, any of which a crash may bring back.
    The contents of a file keep what was synchronized and any prefix of the rest.
    Every operation may fail, and the machine may crash inside it; the operations
    after that find it dead. *)
From stdpp Require Import strings gmap pretty.
From S2P Require Import Prelude StdCollections Fs.

Local Open Scope Z_scope.
Local Open Scope seer_scope.

Inductive Node := RegularFile (f : File) | OtherNode.

(** How an operation ends: a write that fails or crashes has written [n] bytes, and a
    change of the directory that crashes has taken place unless [n] is zero. *)
Inductive Outcome := Succeeds | FailsAfter (n : nat) | CrashesAfter (n : nat).

(** [d_linked]: the entries that lead to the directory are durable; [d_depth] is how
    many ancestors it has. *)
Record Dir := {
  d_exists : bool;
  d_linked : bool;
  d_depth : nat;
  d_entries : gmap string (list (option nat));
  d_nodes : gmap nat Node;
  d_next : nat;
  d_dead : bool;
  d_outcomes : list Outcome
}.

Definition history (name : string) (d : Dir) : list (option nat) := default [None] (d_entries d !! name).
Definition entry (name : string) (d : Dir) : option nat := default None (head (history name d)).

Definition dir_names (d : Dir) : list string :=
  filter (λ name, entry name d ≠ None) (map_to_list (d_entries d)).*1.

Definition set_entries (entries : gmap string (list (option nat))) (d : Dir) : Dir :=
  {| d_exists := d_exists d; d_linked := d_linked d; d_depth := d_depth d; d_entries := entries; d_nodes := d_nodes d;
     d_next := d_next d; d_dead := d_dead d; d_outcomes := d_outcomes d |}.
Definition set_node (ino : nat) (node : Node) (d : Dir) : Dir :=
  {| d_exists := d_exists d; d_linked := d_linked d; d_depth := d_depth d; d_entries := d_entries d;
     d_nodes := <[ino := node]> (d_nodes d); d_next := Nat.max (d_next d) (S ino); d_dead := d_dead d;
     d_outcomes := d_outcomes d |}.
Definition set_linked (exists_ linked : bool) (d : Dir) : Dir :=
  {| d_exists := exists_; d_linked := linked; d_depth := d_depth d; d_entries := d_entries d; d_nodes := d_nodes d;
     d_next := d_next d; d_dead := d_dead d; d_outcomes := d_outcomes d |}.

(** The name stands for [e] from now on. *)
Definition relink (name : string) (e : option nat) (d : Dir) : Dir :=
  set_entries (<[name := e :: history name d]> (d_entries d)) d.

Definition set_turn (dead : bool) (outcomes : list Outcome) (d : Dir) : Dir :=
  {| d_exists := d_exists d; d_linked := d_linked d; d_depth := d_depth d; d_entries := d_entries d;
     d_nodes := d_nodes d; d_next := d_next d; d_dead := dead; d_outcomes := outcomes |}.

(** ** The operations *)
Definition turn (d : Dir) : Dir * Outcome :=
  if d_dead d then (set_turn true (d_outcomes d) d, FailsAfter 0)
  else match d_outcomes d with
       | [] => (set_turn false [] d, Succeeds)
       | o :: rest => (set_turn match o with CrashesAfter _ => true | _ => false end rest d, o)
       end.

Definition took_place (o : Outcome) : bool :=
  match o with Succeeds => true | FailsAfter _ => false | CrashesAfter n => negb (Nat.eqb n 0) end.

Definition outcome {A} (o : Outcome) (x : A) : result A IoErrorKind :=
  match o with Succeeds => Ok x | _ => Err OtherIo end.

(** An operation without an effect. *)
Definition dir_check (d : Dir) : Dir * result unit IoErrorKind :=
  let '(d, o) := turn d in (d, outcome o tt).

(** A new empty file under the name. *)
Definition new_file (name : string) (d : Dir) : Dir :=
  relink name (Some (d_next d)) (set_node (d_next d) (RegularFile {| f_bytes := []; f_synced := 0 |}) d).

(** [OpenOptions::create_new(true).open(path)] *)
Definition dir_create_new (name : string) (d : Dir) : Dir * result nat IoErrorKind :=
  let '(d, o) := turn d in
  if negb (took_place o) then (d, Err OtherIo)
  else match entry name d with
       | Some _ => (d, Err AlreadyExists)
       | None => (new_file name d, outcome o (d_next d))
       end.

(** [OpenOptions::create(true).open(path)] *)
Definition dir_open_create (name : string) (d : Dir) : Dir * result nat IoErrorKind :=
  let '(d, o) := turn d in
  if negb (took_place o) then (d, Err OtherIo)
  else match entry name d with
       | Some ino => (d, outcome o ino)
       | None => (new_file name d, outcome o (d_next d))
       end.

(** [write_all] through a handle that was just opened *)
Definition dir_write (ino : nat) (bs : bytes) (d : Dir) : Dir * result unit IoErrorKind :=
  let '(d, o) := turn d in
  match d_nodes d !! ino with
  | Some (RegularFile f) =>
      let written := match o with Succeeds => bs | FailsAfter n | CrashesAfter n => take n bs end in
      (set_node ino (RegularFile {| f_bytes := splice 0 written (f_bytes f); f_synced := 0 |}) d, outcome o tt)
  | _ => (d, Err OtherIo)
  end.

(** [sync_all] *)
Definition dir_sync_file (ino : nat) (d : Dir) : Dir * result unit IoErrorKind :=
  let '(d, o) := turn d in
  match d_nodes d !! ino, o with
  | Some (RegularFile f), Succeeds =>
      (set_node ino (RegularFile {| f_bytes := f_bytes f; f_synced := length (f_bytes f) |}) d, Ok tt)
  | _, _ => (d, Err OtherIo)
  end.

(** [std::fs::rename] *)
Definition dir_rename (from to : string) (d : Dir) : Dir * result unit IoErrorKind :=
  let '(d, o) := turn d in
  match entry from d with
  | None => (d, Err NotFound)
  | Some ino => (if took_place o then relink from None (relink to (Some ino) d) else d, outcome o tt)
  end.

(** [std::fs::remove_file] *)
Definition dir_remove (name : string) (d : Dir) : Dir * result unit IoErrorKind :=
  let '(d, o) := turn d in
  match entry name d with
  | None => (d, Err NotFound)
  | Some _ => (if took_place o then relink name None d else d, outcome o tt)
  end.

(** [Path::is_file], which is false when the name cannot be inspected *)
Definition dir_is_file (name : string) (d : Dir) : Dir * bool :=
  let '(d, o) := turn d in
  (d, match o, entry name d ≫= (λ ino, d_nodes d !! ino) with
      | Succeeds, Some (RegularFile _) => true
      | _, _ => false
      end).

(** What the name holds. *)
Definition stored (e : option nat) (d : Dir) : option bytes :=
  match e ≫= (λ ino, d_nodes d !! ino) with Some (RegularFile f) => Some (f_bytes f) | _ => None end.
Definition read_name (name : string) (d : Dir) : option bytes := stored (entry name d) d.

(** [std::fs::read] *)
Definition dir_read (name : string) (d : Dir) : Dir * result bytes IoErrorKind :=
  let '(d, o) := turn d in
  match o, read_name name d with
  | Succeeds, Some bs => (d, Ok bs)
  | Succeeds, None => (d, Err NotFound)
  | _, _ => (d, Err OtherIo)
  end.

(** [fsync_dir] of the directory *)
Definition fsync_dir (d : Dir) : Dir * result unit IoErrorKind :=
  let '(d, o) := turn d in
  match o with
  | Succeeds => (set_entries ((λ h, [default None (head h)]) <$> d_entries d) d, Ok tt)
  | _ => (d, Err OtherIo)
  end.

(** The rounds of [fsync_dir_chain] above the directory. *)
Fixpoint sync_ancestors (n : nat) (d : Dir) : Dir * result unit IoErrorKind :=
  match n with
  | O => (d, Ok tt)
  | S n' => do? (d, _) := dir_check d in sync_ancestors n' d
  end.

Definition fsync_dir_chain (d : Dir) : Dir * result unit IoErrorKind :=
  do? (d, _) := fsync_dir d in
  do? (d, _) := sync_ancestors (d_depth d) d in
  (set_linked (d_exists d) true d, Ok tt).

(** [create_temporary_sibling]: [pid] is the process and [sequence] its counter. *)
Definition temporary_name (filename : string) (pid sequence : Z) : string :=
  filename +:+ ".tmp." +:+ pretty pid +:+ "." +:+ pretty sequence.

Fixpoint temporary_loop (n : nat) (filename : string) (pid sequence : Z) (d : Dir)
    : Dir * Z * result (string * nat) IoErrorKind :=
  match n with
  | O => (d, sequence, Err AlreadyExists)
  | S n' =>
      let temporary := temporary_name filename pid sequence in
      let sequence' := (sequence + 1) mod 2 ^ 64 in
      match dir_create_new temporary d with
      | (d, Ok ino) => (d, sequence', Ok (temporary, ino))
      | (d, Err AlreadyExists) => temporary_loop n' filename pid sequence' d
      | (d, Err error) => (d, sequence', Err error)
      end
  end.

Definition create_temporary_sibling (filename : string) (pid sequence : Z) (d : Dir)
    : Dir * Z * result (string * nat) IoErrorKind :=
  if bool_decide (filename = EmptyString) then (d, sequence, Err InvalidInput)
  else temporary_loop 128 filename pid sequence d.

(** The closure of [atomic_write] *)
Definition publish_file (filename temporary : string) (ino : nat) (data : bytes) (d : Dir)
    : Dir * result unit IoErrorKind :=
  do? (d, _) := dir_write ino data d in
  do? (d, _) := dir_sync_file ino d in
  dir_rename temporary filename d.

Definition atomic_write (filename : string) (data : bytes) (pid sequence : Z) (d : Dir)
    : Dir * Z * result unit IoErrorKind :=
  match create_temporary_sibling filename pid sequence d with
  | (d, sequence, Err error) => (d, sequence, Err error)
  | (d, sequence, Ok (temporary, ino)) =>
      match publish_file filename temporary ino data d with
      | (d, Err error) => ((dir_remove temporary d).1, sequence, Err error)
      | (d, Ok _) => let '(d, r) := fsync_dir d in (d, sequence, r)
      end
  end.

(** ** Crashes *)
Definition node_crash (n n' : Node) : Prop :=
  match n, n' with
  | RegularFile f, RegularFile f' => file_crash f f'
  | OtherNode, OtherNode => True
  | _, _ => False
  end.

(** A directory that is not linked may be gone with all its names. *)
Record dir_crash (d d' : Dir) : Prop := {
  dc_dead : d_dead d' = false;
  dc_depth : d_depth d' = d_depth d;
  dc_next : d_next d' = d_next d;
  dc_linked : d_linked d' = d_linked d && d_exists d';
  dc_exists : d_exists d' = true ∧ d_exists d = true ∧
                (∀ name, ∃ e, e ∈ history name d ∧ history name d' = [e]) ∨
              d_exists d' = false ∧ (d_exists d && d_linked d = false) ∧ d_entries d' = ∅;
  dc_nodes : map_relation (λ _ n n', node_crash n n') (λ _ _, False) (λ _ _, False) (d_nodes d) (d_nodes d')
}.

(** ** Well-formed directories *)
Record wf_dir (d : Dir) : Prop := {
  wd_history : ∀ name, history name d ≠ [];
  wd_inodes : ∀ name ino, Some ino ∈ history name d → is_Some (d_nodes d !! ino);
  wd_nodes : ∀ ino node, d_nodes d !! ino = Some node → (ino < d_next d)%nat
}.

Lemma inode_lt d name ino : wf_dir d → Some ino ∈ history name d → (ino < d_next d)%nat.
Proof. intros Hw Hi. destruct (wd_inodes d Hw _ _ Hi) as [node Hn]. by eapply wd_nodes. Qed.

Lemma turn_cases d d' o : turn d = (d', o) → ∃ dead outcomes, d' = set_turn dead outcomes d.
Proof. unfold turn. destruct (d_dead d); [|destruct (d_outcomes d)]; intros [= <- <-]; eauto. Qed.

Lemma splice_new bs : splice 0 bs [] = bs.
Proof. unfold splice. cbn. by rewrite drop_nil, app_nil_r. Qed.

(** They differ in the outcomes that are left. *)
Definition same_but_turn (d d' : Dir) : Prop := ∃ dead outcomes, d' = set_turn dead outcomes d.

Lemma entry_in name d : wf_dir d → entry name d ∈ history name d.
Proof.
  intros Hw. unfold entry. pose proof (wd_history d Hw name). destruct (history name d); [done|]. apply elem_of_cons. by left.
Qed.

Lemma history_relink name e other d :
  history other (relink name e d) = if decide (other = name) then e :: history name d else history other d.
Proof.
  unfold history, relink. cbn. case_decide as E; [subst; by rewrite lookup_insert_eq|by rewrite lookup_insert_ne].
Qed.

Lemma history_fsync d other :
  wf_dir d → history other (set_entries ((λ h, [default None (head h)]) <$> d_entries d) d) = [entry other d].
Proof.
  intros Hw. unfold history, entry, history. cbn. rewrite lookup_fmap. by destruct (d_entries d !! other) as [h|].
Qed.

(** ** Atomic publication

    What a publication of [data] under [name] through [tmp] has done to [d0] so far. *)
Definition synced_file (data : bytes) : Node := RegularFile {| f_bytes := data; f_synced := length data |}.

Record publishing (name tmp : string) (data : bytes) (d0 d : Dir) : Prop := {
  pu_wf : wf_dir d;
  pu_meta : d_exists d = d_exists d0 ∧ d_linked d = d_linked d0 ∧ d_depth d = d_depth d0;
  pu_other : ∀ other, other ≠ name → other ≠ tmp →
    history other d = history other d0 ∨ history other d = [entry other d0];
  pu_nodes : ∀ i node, d_nodes d0 !! i = Some node → d_nodes d !! i = Some node;
  pu_name : ∀ e, e ∈ history name d →
    e ∈ history name d0 ∨ e = Some (d_next d0) ∧ d_nodes d !! d_next d0 = Some (synced_file data)
}.

Section publishing.
Variables (name tmp : string) (data : bytes) (d0 : Dir).
Hypothesis Hne : tmp ≠ name.
Hypothesis Hwf0 : wf_dir d0.
Local Abbreviation publishing := (publishing name tmp data d0).
Local Abbreviation ino := (d_next d0).

Lemma publishing_refl : publishing d0.
Proof. constructor; auto. Qed.

Lemma publishing_turn d dead outcomes : publishing d → publishing (set_turn dead outcomes d).
Proof. intros [[W1 W2 W3] M O N E]. constructor; [constructor|..]; assumption. Qed.

Lemma publishing_node d node :
  publishing d → (ino < d_next d)%nat → Some ino ∉ history name d → publishing (set_node ino node d).
Proof.
  intros [[W1 W2 W3] M O N E] Hlt Hn. constructor; [constructor|..]; try assumption; cbn.
  - intros n i Hi. change (Some i ∈ history n d) in Hi. rewrite lookup_insert_is_Some'. right. by eapply W2.
  - intros i nd. rewrite lookup_insert_Some. intros [[<- _]|[_ Hi]]; [lia|]. apply W3 in Hi. lia.
  - intros i nd Hi. rewrite lookup_insert_ne; [by apply N|]. intros Heq. rewrite <-Heq in Hi. apply (wd_nodes d0 Hwf0) in Hi. lia.
  - intros e He. change (e ∈ history name d) in He. destruct (E e He) as [?|[-> _]]; [by left|done].
Qed.

Lemma publishing_relink_tmp d e :
  publishing d → (∀ i, e = Some i → is_Some (d_nodes d !! i)) → publishing (relink tmp e d).
Proof.
  intros [[W1 W2 W3] M O N E] He. constructor; [constructor|..]; try assumption; cbn.
  - intros n. rewrite history_relink. case_decide; [done|apply W1].
  - intros n i. rewrite history_relink. case_decide; [|apply W2]. intros [Hi|Hi]%elem_of_cons; [by apply He|by eapply W2].
  - intros other Ho Ht. rewrite history_relink, decide_False by done. by apply O.
  - intros e'. rewrite history_relink, decide_False by done. apply E.
Qed.

Lemma publishing_relink_name d :
  publishing d → d_nodes d !! ino = Some (synced_file data) → publishing (relink name (Some ino) d).
Proof.
  intros [[W1 W2 W3] M O N E] Hf. constructor; [constructor|..]; try assumption; cbn.
  - intros n. rewrite history_relink. case_decide; [done|apply W1].
  - intros n i. rewrite history_relink. case_decide; [|apply W2]. intros [[= ->]|Hi]%elem_of_cons; [by eexists|by eapply W2].
  - intros other Ho Ht. rewrite history_relink, decide_False by done. by apply O.
  - intros e'. rewrite history_relink, decide_True by done. intros [->|He]%elem_of_cons; [by right|by apply E].
Qed.

Lemma publishing_fsync d d' r : publishing d → fsync_dir d = (d', r) → publishing d' ∧ entry name d' = entry name d ∧ (r = Ok tt → history name d' = [entry name d]).
Proof.
  intros Hp. unfold fsync_dir. destruct (turn d) as [d1 o] eqn:Et. apply turn_cases in Et as (x & y & ->).
  apply (publishing_turn d x y) in Hp. set (d1 := set_turn x y d) in *. change (entry name d) with (entry name d1).
  destruct o; intros [= <- <-]; [|done..].
  pose proof (pu_wf _ _ _ _ _ Hp) as Hw. pose proof (history_fsync d1) as Hh.
  set (d2 := set_entries _ _) in *. assert (entry name d2 = entry name d1) as He.
  { unfold entry at 1. by rewrite Hh. }
  split_and!; [|done|by rewrite Hh]. destruct Hp as [[W1 W2 W3] M O N E]. constructor; [constructor|..]; try assumption.
  - intros n. by rewrite Hh.
  - intros n i. rewrite Hh by done. intros Hi%list_elem_of_singleton. apply (W2 n). rewrite Hi. by apply entry_in.
  - intros other Ho Ht. rewrite Hh by done. right. f_equal. unfold entry. destruct (O other Ho Ht) as [-> | ->]; done.
  - intros e. rewrite Hh by done. intros ->%list_elem_of_singleton. apply E. by apply entry_in.
Qed.

Lemma publishing_remove d : publishing d → publishing (dir_remove tmp d).1 ∧ entry name (dir_remove tmp d).1 = entry name d.
Proof.
  intros Hp. unfold dir_remove. destruct (turn d) as [d1 o] eqn:Et. apply turn_cases in Et as (x & y & ->).
  apply (publishing_turn d x y) in Hp. destruct (entry tmp _); [|done]. destruct (took_place o); [|done]. cbn [fst].
  split; [by apply publishing_relink_tmp|]. unfold entry. by rewrite history_relink, decide_False.
Qed.

Lemma publishing_new_file d : same_but_turn d0 d → publishing (new_file tmp d) ∧ entry tmp (new_file tmp d) = Some ino ∧
  Some ino ∉ history name (new_file tmp d) ∧ d_nodes (new_file tmp d) !! ino = Some (RegularFile {| f_bytes := []; f_synced := 0 |}).
Proof.
  intros (x & y & ->). unfold new_file. cbn [set_turn d_next].
  pose proof (publishing_turn d0 x y publishing_refl) as Hp. assert (Some ino ∉ history name d0) as Hfresh.
  { intros Hi%(inode_lt d0 _ _ Hwf0). lia. }
  split_and!.
  - apply publishing_relink_tmp; [|cbn; intros i [= <-]; by rewrite lookup_insert_eq].
    destruct Hp as [[W1 W2 W3] M O N E]. constructor; [constructor|..]; try assumption; cbn.
    + intros n i Hi. rewrite lookup_insert_is_Some'. right. by eapply (wd_inodes d0 Hwf0).
    + intros i nd. rewrite lookup_insert_Some. intros [[<- _]|[_ Hi]]; [lia|]. apply (wd_nodes d0 Hwf0) in Hi. lia.
    + intros i nd Hi. rewrite lookup_insert_ne; [done|]. intros Heq. rewrite <-Heq in Hi. apply (wd_nodes d0 Hwf0) in Hi. lia.
    + intros e He. by left.
  - unfold entry. by rewrite history_relink, decide_True.
  - by rewrite history_relink, decide_False.
  - apply lookup_insert_eq.
Qed.

Lemma publish_file_cases d d' r f :
  publishing d → entry tmp d = Some ino → Some ino ∉ history name d → d_nodes d !! ino = Some (RegularFile f) →
  f_bytes f = [] → publish_file name tmp ino data d = (d', r) →
  publishing d' ∧ (r = Ok tt → entry name d' = Some ino ∧ d_nodes d' !! ino = Some (synced_file data)).
Proof.
  intros Hp Ht Hn Hf Hempty. unfold publish_file, dir_write.
  destruct (turn d) as [d1 o1] eqn:Et1. apply turn_cases in Et1 as (x1 & y1 & ->). cbn [set_turn d_nodes]. rewrite Hf, Hempty.
  apply (publishing_turn d x1 y1) in Hp. assert (ino < d_next d)%nat as Hlt by (eapply (wd_nodes _ (pu_wf _ _ _ _ _ Hp)); exact Hf).
  rewrite splice_new. set (n1 := RegularFile _). apply (publishing_node _ n1) in Hp; [|done..].
  destruct o1; cbn [outcome]; [|intros [= <- <-]; by split..].
  unfold dir_sync_file. destruct (turn _) as [d2 o2] eqn:Et2. apply turn_cases in Et2 as (x2 & y2 & ->).
  cbn [set_turn set_node d_nodes]. rewrite lookup_insert_eq. unfold n1 at 1. cbn [f_bytes].
  apply (publishing_turn _ x2 y2) in Hp. destruct o2; [|intros [= <- <-]; by split..].
  apply (publishing_node _ (synced_file data)) in Hp; [|cbn; lia|done].
  change (RegularFile _) with (synced_file data). set (d3 := set_node ino (synced_file data) _) in *.
  assert (entry tmp d3 = Some ino) as Ht3 by exact Ht. assert (d_nodes d3 !! ino = Some (synced_file data)) as Hf3 by apply lookup_insert_eq.
  clearbody d3. clear Ht Hn Hf Hempty. unfold dir_rename.
  destruct (turn d3) as [d4 o4] eqn:Et4. apply turn_cases in Et4 as (x4 & y4 & ->).
  change (entry tmp (set_turn x4 y4 d3)) with (entry tmp d3). rewrite Ht3.
  apply (publishing_turn _ x4 y4) in Hp. intros [= <- <-]. destruct (took_place o4) eqn:Eo; [|by destruct o4].
  split; [by apply publishing_relink_tmp; [apply publishing_relink_name|]|]. intros _. split; [|done].
  unfold entry. by rewrite history_relink, decide_False, history_relink, decide_True.
Qed.
End publishing.

Lemma temporary_name_ne filename pid sequence : temporary_name filename pid sequence ≠ filename.
Proof.
  unfold temporary_name. intros E. apply (f_equal String.length) in E. revert E.
  generalize (pretty pid +:+ "." +:+ pretty sequence). intros t.
  induction filename as [|c filename IH]; cbn; [done|]. intros [= E]. by apply IH.
Qed.

Lemma temporary_loop_cases n filename pid d0 : ∀ sequence d d' sequence' r,
  same_but_turn d0 d → temporary_loop n filename pid sequence d = (d', sequence', r) →
  ∃ s d1, same_but_turn d0 d1 ∧
    (is_ok r = false ∧ d' = d1 ∨
     d' = new_file (temporary_name filename pid s) d1 ∧
       (r = Ok (temporary_name filename pid s, d_next d0) ∨ is_ok r = false)).
Proof.
  induction n as [|n IH]; intros sequence d d' sequence' r Hs; cbn [temporary_loop].
  { intros [= <- <- <-]. exists 0, d. split; [done|]. by left. }
  unfold dir_create_new. destruct (turn d) as [d1 o] eqn:Et. apply turn_cases in Et as (x & y & ->).
  assert (same_but_turn d0 (set_turn x y d)) as Hs1 by (destruct Hs as (x0 & y0 & ->); by exists x, y).
  assert (d_next (set_turn x y d) = d_next d0) as Hnx by (destruct Hs as (x0 & y0 & ->); done).
  destruct (took_place o) eqn:Eo; cbn [negb].
  2:{ intros [= <- <- <-]. exists 0, (set_turn x y d). split; [done|]. by left. }
  destruct (entry _ _); [by apply IH|]. rewrite Hnx. destruct o; cbn [outcome]; intros [= <- <- <-];
    exists sequence, (set_turn x y d); (split; [done|]); right; split; auto.
Qed.

Lemma atomic_write_cases filename data pid sequence d d' sequence' r :
  wf_dir d → atomic_write filename data pid sequence d = (d', sequence', r) →
  ∃ s, publishing filename (temporary_name filename pid s) data d d' ∧
    (r = Ok tt → history filename d' = [Some (d_next d)] ∧ d_nodes d' !! d_next d = Some (synced_file data)).
Proof.
  intros Hw. unfold atomic_write, create_temporary_sibling. case_bool_decide as Hfn.
  { intros [= <- <- <-]. exists 0. split; [by apply publishing_refl|done]. }
  destruct (temporary_loop _ _ _ _ _) as [[d1 s1] r1] eqn:El.
  apply (temporary_loop_cases _ _ _ d) in El as (s & d2 & Hs & Hcases); [|by exists (d_dead d), (d_outcomes d); destruct d].
  pose proof (temporary_name_ne filename pid s) as Hne. set (tmp := temporary_name filename pid s) in *.
  pose proof (publishing_new_file filename tmp data d Hne Hw d2 Hs) as (Hp & Ht & Hn & Hf).
  assert (publishing filename tmp data d d2) as Hp2.
  { destruct Hs as (x & y & ->). by apply publishing_turn, publishing_refl. }
  destruct Hcases as [[Hr ->]|[-> Hr]].
  { destruct r1; [done|]. intros [= <- <- <-]. exists s. by split. }
  destruct Hr as [->|Hr]; [|destruct r1; [done|]; intros [= <- <- <-]; exists s; by split].
  destruct (publish_file _ _ _ _ _) as [d3 r3] eqn:Ep.
  apply (publish_file_cases filename tmp data d Hne Hw _ _ _ _ Hp Ht Hn Hf) in Ep as [Hp3 Hok]; [|done].
  destruct r3 as [[]|e].
  - destruct (fsync_dir d3) as [d4 r4] eqn:Ef. intros [= <- <- <-]. exists s.
    destruct (Hok eq_refl) as [He Hnd].
    destruct (publishing_fsync filename tmp data d _ _ _ Hp3 Ef) as (Hp4 & _ & Hh). split; [done|]. intros Hr. rewrite Hh, He by done.
    split; [done|]. destruct (pu_name _ _ _ _ _ Hp4 (Some (d_next d))) as [Hold|[_ ?]]; [|by apply (inode_lt d _ _ Hw) in Hold; lia|done].
    rewrite Hh, He by done. by left.
  - intros [= <- <- <-]. exists s. split; [|done]. by apply publishing_remove.
Qed.

(** ** What a crash may leave under a name *)
Definition durable_entry (e : option nat) (d : Dir) : Prop :=
  match e ≫= (λ ino, d_nodes d !! ino) with
  | Some (RegularFile f) => f_synced f = length (f_bytes f)
  | _ => True
  end.

(** Everything the name may stand for is complete on the device and satisfies [P]. *)
Definition holds (P : option bytes → Prop) (name : string) (d : Dir) : Prop :=
  ∀ e, e ∈ history name d → durable_entry e d ∧ P (stored e d).

Lemma node_crash_get d d' ino :
  dir_crash d d' → option_relation node_crash (λ _, False) (λ _, False) (d_nodes d !! ino) (d_nodes d' !! ino).
Proof. intros Hc. apply (dc_nodes d d' Hc). Qed.

Lemma stored_crash d d' e : dir_crash d d' → durable_entry e d → stored e d' = stored e d ∧ durable_entry e d'.
Proof.
  intros Hc. destruct e as [ino|]; [|done]. unfold durable_entry, stored. cbn [mbind option_bind].
  pose proof (node_crash_get d d' ino Hc) as Hn.
  destruct (d_nodes d !! ino) as [[f|]|], (d_nodes d' !! ino) as [[f'|]|]; try done.
  destruct Hn as (n & Hle & Hb & Hs). intros Hd. rewrite take_ge in Hb by lia. rewrite Hb, Hs. by split.
Qed.

Lemma holds_crash P name d d' : holds P name d → dir_crash d d' → d_exists d' = true → holds P name d'.
Proof.
  intros Hh Hc He e. destruct (dc_exists d d' Hc) as [(_ & _ & Hn)|(? & _)]; [|congruence].
  destruct (Hn name) as (e' & Hin & ->). intros ->%list_elem_of_singleton. destruct (Hh e' Hin) as [Hd Hp].
  destruct (stored_crash d d' e' Hc Hd) as [-> ?]. by split.
Qed.

Lemma holds_read P name d : wf_dir d → holds P name d → P (read_name name d).
Proof. intros Hw Hh. apply Hh, entry_in, Hw. Qed.

Lemma wf_dir_crash d d' : wf_dir d → dir_crash d d' → wf_dir d'.
Proof.
  intros [W1 W2 W3] Hc. pose proof (dc_next d d' Hc) as Hnx. constructor.
  - intros name. destruct (dc_exists d d' Hc) as [(_ & _ & Hn)|(_ & _ & Hn)].
    + by destruct (Hn name) as (e & _ & ->).
    + unfold history. by rewrite Hn.
  - intros name ino. destruct (dc_exists d d' Hc) as [(_ & _ & Hn)|(_ & _ & Hn)].
    + destruct (Hn name) as (e & He & ->). intros <-%list_elem_of_singleton. destruct (W2 name ino He) as [node Hi].
      pose proof (node_crash_get d d' ino Hc) as Hr. rewrite Hi in Hr. by destruct (d_nodes d' !! ino).
    + unfold history. rewrite Hn. intros ?%list_elem_of_singleton. done.
  - intros ino node Hi. rewrite Hnx. pose proof (node_crash_get d d' ino Hc) as Hr. rewrite Hi in Hr.
    destruct (d_nodes d !! ino) eqn:E; [by eapply W3|done].
Qed.

Lemma publishing_holds P name tmp data d0 d :
  publishing name tmp data d0 d → wf_dir d0 → holds P name d0 → holds (λ c, P c ∨ c = Some data) name d.
Proof.
  intros [W M O N E] Hw Hh e He. destruct (E e He) as [H0|[-> Hf]].
  - destruct (Hh e H0) as [Hd Hp]. destruct e as [ino|]; [|by split; [|left]].
    unfold durable_entry, stored in *. cbn [mbind option_bind] in *.
    destruct (d_nodes d0 !! ino) as [node|] eqn:En; [rewrite (N _ _ En); by split; [|left]|].
    destruct (wd_inodes d0 Hw _ _ H0). congruence.
  - unfold durable_entry, stored. cbn [mbind option_bind]. rewrite Hf. cbn. by split; [|right].
Qed.

(** C35. Publication is atomic.  Whatever fails while [atomic_write] replaces a file, and
    wherever the machine crashes in it, the name holds one of its old contents or all
    of the new, and so it does after any later crash that keeps the directory; when
    the call succeeds it holds the new contents in every such crash.  Other names,
    temporary siblings apart, read as before. *)
Theorem atomic_write_is_atomic (P : option bytes → Prop) filename data pid sequence d d' sequence' r :
  wf_dir d → holds P filename d →
  atomic_write filename data pid sequence d = (d', sequence', r) →
  (∀ d2, d2 = d' ∨ dir_crash d' d2 ∧ d_exists d2 = true →
     (P (read_name filename d2) ∨ read_name filename d2 = Some data) ∧
     (r = Ok tt → read_name filename d2 = Some data)) ∧
  (∀ other, other ≠ filename → (∀ s, other ≠ temporary_name filename pid s) → read_name other d' = read_name other d).
Proof.
  intros Hw Hh (s & Hp & Hok)%atomic_write_cases; [|done]. pose proof (pu_wf _ _ _ _ _ Hp) as Hw'. split.
  - assert (r = Ok tt → holds (λ c, c = Some data) filename d') as Hnew.
    { intros Hr e. destruct (Hok Hr) as [-> Hn]. intros ->%list_elem_of_singleton.
      unfold durable_entry, stored. cbn [mbind option_bind]. by rewrite Hn. }
    apply (publishing_holds P) in Hp; [|done..].
    intros d2 [->|[Hc He]]; (split; [|intros Hr; specialize (Hnew Hr)]).
    + exact (holds_read _ _ _ Hw' Hp).
    + exact (holds_read _ _ _ Hw' Hnew).
    + exact (holds_read _ _ _ (wf_dir_crash _ _ Hw' Hc) (holds_crash _ _ _ _ Hp Hc He)).
    + exact (holds_read _ _ _ (wf_dir_crash _ _ Hw' Hc) (holds_crash _ _ _ _ Hnew Hc He)).
  - intros other Ho Ht. unfold read_name.
    assert (entry other d' = entry other d) as ->.
    { unfold entry. destruct (pu_other _ _ _ _ _ Hp other Ho (Ht s)) as [-> | ->]; done. }
    pose proof (entry_in other d Hw) as Hin. destruct (entry other d) as [ino|]; [|done].
    destruct (wd_inodes d Hw _ _ Hin) as [node Hn]. unfold stored. cbn [mbind option_bind].
    by rewrite Hn, (pu_nodes _ _ _ _ _ Hp _ _ Hn).
Qed.

(** The crash that keeps the oldest or the newest entry of every name and nothing
    that was not synchronized. *)
Definition restart (newest : bool) (outcomes : list Outcome) (d : Dir) : Dir :=
  {| d_exists := d_exists d; d_linked := d_linked d && d_exists d; d_depth := d_depth d;
     d_entries := (λ h, [default None (if newest then head h else last h)]) <$> d_entries d;
     d_nodes := (λ n, match n with
                      | RegularFile f => RegularFile {| f_bytes := take (f_synced f) (f_bytes f); f_synced := f_synced f |}
                      | OtherNode => OtherNode
                      end) <$> d_nodes d;
     d_next := d_next d; d_dead := false; d_outcomes := outcomes |}.

Lemma restart_crash newest outcomes d : wf_dir d → d_exists d = true → dir_crash d (restart newest outcomes d).
Proof.
  intros Hw He. constructor; try done.
  - left. split_and!; [done..|]. intros name. unfold history. cbn. rewrite lookup_fmap.
    pose proof (wd_history d Hw name) as Hh. unfold history in Hh.
    destruct (d_entries d !! name) as [h|]; cbn in *; [|by eexists; split; [left|]].
    eexists; split; [|done]. destruct newest.
    + destruct h; [done|]. by left.
    + destruct (last h) as [e|] eqn:El; [by apply last_Some_elem_of|by apply last_None in El].
  - intros ino. cbn. rewrite lookup_fmap. destruct (d_nodes d !! ino) as [[f|]|]; cbn; try done.
    exists (f_synced f). by split_and!.
Qed.

(** ** Example: the power fails after the rename and before the directory is
    synchronized *)
Definition dir_demo_old : bytes := [u8 1; u8 2; u8 3].
Definition dir_demo : Dir :=
  {| d_exists := true; d_linked := true; d_depth := 1; d_entries := {["artifact" := [Some 0%nat]]};
     d_nodes := {[0%nat := synced_file dir_demo_old]}; d_next := 1; d_dead := false;
     d_outcomes := [Succeeds; Succeeds; Succeeds; Succeeds; CrashesAfter 0] |}.

Lemma dir_demo_wf : wf_dir dir_demo.
Proof.
  constructor.
  - intros name. unfold history. cbn. rewrite lookup_singleton. by case_decide.
  - intros name ino. unfold history. cbn. rewrite lookup_singleton. case_decide; cbn; intros ?%list_elem_of_singleton; [|done].
    simplify_eq. eexists. by vm_compute.
  - intros ino node. cbn. rewrite lookup_singleton_Some. intros [<- _]. lia.
Qed.

Definition dir_demo_result : Dir := (atomic_write "artifact" [u8 9] 7 0 dir_demo).1.1.

Lemma atomic_write_is_atomic_witness :
  (read_name "artifact" (restart false [] dir_demo_result) = Some dir_demo_old ∧
   read_name "artifact" (restart true [] dir_demo_result) = Some [u8 9]) ∧
  ((λ c, c = Some dir_demo_old) (read_name "artifact" dir_demo_result) ∨ read_name "artifact" dir_demo_result = Some [u8 9]) ∧
  (is_ok (atomic_write "artifact" [u8 9] 7 0 dir_demo).2 = false).
Proof.
  split; [vm_compute; by split|]. split; [|vm_compute; reflexivity].
  destruct (atomic_write_is_atomic (λ c, c = Some dir_demo_old) "artifact" [u8 9] 7 0 dir_demo dir_demo_result 1 (Err OtherIo)) as [Ha _].
  - apply dir_demo_wf.
  - intros e. unfold history. cbn. intros ->%list_elem_of_singleton. by vm_compute.
  - vm_compute. reflexivity.
  - apply (Ha dir_demo_result). by left.
Defined.
