(* ===== verification/Store.v ===== *)
(** * Store identity and component claims

    Models the parts of [crates/seerdb/src/vnext/store.rs] below the directory, which
    is in [StoreDir]: the errors, the 32-byte container header that binds a file to one store
    incarnation, shared by the store identity and the undo container, and the
    exclusive claim of a component through a compare-and-swap on the bit set of
    claimed components. *)
From S2P Require Import Prelude StdCollections Ids Crc Fs.

Local Open Scope Z_scope.
Local Open Scope seer_scope.

Definition STORE_IDENTITY_MAGIC : bytes := [u8 79; u8 77; u8 83; u8 73].
Definition BOUND_HEADER_BYTES : nat := 32.
Definition BOUND_HEADER_VERSION : Z := 1.
Definition BOUND_HEADER_CHECKSUM_OFFSET : nat := 28.

Inductive StoreComponent := ComponentWal | ComponentUndo | ComponentPages.

#[global] Instance StoreComponent_eq_dec : EqDecision StoreComponent.
Proof. solve_decision. Defined.

Definition claim_bit (c : StoreComponent) : Z :=
  match c with ComponentWal => 1 | ComponentUndo => 2 | ComponentPages => 4 end.

(** The [reason] of a [StoreError::Corruption]. *)
Inductive HeaderCorruption :=
| HeaderLength | HeaderMagic | HeaderVersion | HeaderFlags | HeaderSizeField
| HeaderReserved | HeaderChecksum | HeaderIncarnation.

(** The reasons of [StoreError::InvalidPath]. *)
Inductive PathProblem := EmptyPath | NotADirectory | LockNotRegular.

Inductive StoreError :=
| StoreBusy
| StoreComponentBusy (c : StoreComponent)
| StoreMissingLock
| StoreMissingIdentity
| StoreAlreadyExists
| StoreNotEmpty
| StoreUnsupportedPlatform
| StoreInvalidPath (reason : PathProblem)
| StoreCorruption (reason : HeaderCorruption)
| StoreForeignIncarnation (expected actual : bytes)
| StoreInvalidRandomIncarnation
| StoreRandom
| StoreIo (source : IoErrorKind).

(** [store_io] of the log device *)
Definition store_io (error : StoreError) : IoErrorKind :=
  match error with
  | StoreBusy | StoreComponentBusy _ => WouldBlock
  | StoreMissingLock | StoreMissingIdentity => NotFound
  | StoreAlreadyExists | StoreNotEmpty => AlreadyExists
  | StoreUnsupportedPlatform => Unsupported
  | StoreCorruption _ | StoreForeignIncarnation _ _ | StoreInvalidPath _ => InvalidData
  | StoreInvalidRandomIncarnation | StoreRandom => OtherIo
  | StoreIo source => source
  end.

(** ** The bound header *)
Section header.
Context `{Crc32c}.

Definition bound_header_body (magic incarnation : bytes) : bytes :=
  magic ++ [u8 BOUND_HEADER_VERSION; u8 0] ++ u16_le (Z.of_nat BOUND_HEADER_BYTES)
  ++ incarnation ++ replicate 4 (u8 0).

Definition encode_bound_header (magic incarnation : bytes) : bytes :=
  bound_header_body magic incarnation ++ u32_le (crc32c (bound_header_body magic incarnation)).

Definition decode_bound_header (bs magic : bytes) : result bytes StoreError :=
  if negb (bool_decide (length bs = BOUND_HEADER_BYTES)) then Err (StoreCorruption HeaderLength)
  else if negb (bool_decide (take 4 bs = magic)) then Err (StoreCorruption HeaderMagic)
  else if negb (byte_at bs 4 =? BOUND_HEADER_VERSION) then Err (StoreCorruption HeaderVersion)
  else if negb (byte_at bs 5 =? 0) then Err (StoreCorruption HeaderFlags)
  else if negb (le_combine (take 2 (drop 6 bs)) =? Z.of_nat BOUND_HEADER_BYTES)
  then Err (StoreCorruption HeaderSizeField)
  else if existsb (λ b, negb (byte.unsigned b =? 0)) (take 4 (drop 24 bs))
  then Err (StoreCorruption HeaderReserved)
  else if negb (crc32c (take BOUND_HEADER_CHECKSUM_OFFSET bs)
                =? le_combine (drop BOUND_HEADER_CHECKSUM_OFFSET bs))
  then Err (StoreCorruption HeaderChecksum)
  else ok_or (incarnation_from_bytes (take 16 (drop 8 bs))) (StoreCorruption HeaderIncarnation).

Definition encode_identity (incarnation : bytes) : bytes :=
  encode_bound_header STORE_IDENTITY_MAGIC incarnation.

Definition decode_identity (bs : bytes) : result bytes StoreError :=
  decode_bound_header bs STORE_IDENTITY_MAGIC.
End header.

(** A [StoreIncarnation]: sixteen bytes that are not all zero. *)
Definition wf_incarnation (i : bytes) : Prop :=
  length i = 16%nat ∧ incarnation_from_bytes i = Some i.

(** ** Component claims

    [claim] loads the claimed set, gives up when the bit is there and otherwise
    swaps the extended set in, retrying when the set has changed since. *)
Definition claim_round (component : StoreComponent) (observed : Z) : result Z StoreError :=
  if negb (Z.land observed (claim_bit component) =? 0) then Err (StoreComponentBusy component)
  else Ok (Z.lor observed (claim_bit component)).

(** [ComponentLease::drop]: [fetch_and(!bit)] on a [u8]. *)
Definition release_claim (component : StoreComponent) (claimed : Z) : Z :=
  Z.land claimed (Z.lxor 255 (claim_bit component)).

(** The atomic steps of any number of threads; [leases] are the live leases. *)
Inductive claim_step : Z * list StoreComponent → Z * list StoreComponent → Prop :=
| step_cas c claimed next leases :
    claim_round c claimed = Ok next → claim_step (claimed, leases) (next, c :: leases)
| step_drop c claimed leases leases' :
    leases ≡ₚ c :: leases' → claim_step (claimed, leases) (release_claim c claimed, leases').

(** ** The header codec is exact *)
Section header_codec.
Context `{Crc32c}.

Lemma length_bound_body magic i :
  length magic = 4%nat → length i = 16%nat → length (bound_header_body magic i) = 28%nat.
Proof.
  intros Hm Hi. unfold bound_header_body. rewrite !length_app, Hm, Hi, length_u16_le. done.
Qed.

Lemma length_bound_header magic i :
  length magic = 4%nat → length i = 16%nat → length (encode_bound_header magic i) = 32%nat.
Proof.
  intros. unfold encode_bound_header. by rewrite length_app, length_bound_body, length_u32_le.
Qed.

Lemma decode_encode_bound_header magic i :
  length magic = 4%nat → wf_incarnation i →
  decode_bound_header (encode_bound_header magic i) magic = Ok i.
Proof.
  intros Hm [Hl Hi]. unfold decode_bound_header.
  rewrite length_bound_header, bool_decide_eq_true_2 by done. cbn [negb].
  unfold encode_bound_header, BOUND_HEADER_CHECKSUM_OFFSET.
  set (crc := u32_le (crc32c (bound_header_body magic i))).
  set (h := bound_header_body magic i ++ crc).
  assert (h = magic ++ [u8 BOUND_HEADER_VERSION; u8 0] ++ u16_le 32 ++ i
    ++ replicate 4 (u8 0) ++ crc) as Eh by (unfold h, bound_header_body; by rewrite <-!app_assoc).
  assert (drop 4 h = [u8 BOUND_HEADER_VERSION; u8 0] ++ u16_le 32 ++ i ++ replicate 4 (u8 0) ++ crc)
    as E4 by (rewrite Eh; by apply drop_app_length').
  assert (∀ k, byte_at h (4 + k) = byte_at (drop 4 h) k) as Hb.
  { intros k. unfold byte_at. by rewrite lookup_drop. }
  assert (∀ k, drop (4 + k) h = drop k (drop 4 h)) as Hd by (intros k; by rewrite drop_drop).
  rewrite (Hb 0%nat : byte_at h 4 = _), (Hb 1%nat : byte_at h 5 = _), (Hd 2%nat : drop 6 h = _),
    (Hd 4%nat : drop 8 h = _), (Hd 20%nat : drop 24 h = _), E4.
  rewrite bool_decide_eq_true_2 by (rewrite Eh; by apply take_app_length'). cbn [negb].
  change (drop 2 (_ ++ _)) with (u16_le 32 ++ i ++ replicate 4 (u8 0) ++ crc).
  change (drop 4 (_ ++ _)) with (i ++ replicate 4 (u8 0) ++ crc).
  change (drop 20 (_ ++ _)) with (drop 16 (i ++ replicate 4 (u8 0) ++ crc)).
  rewrite (drop_app_length' i), (take_app_length' i) by done.
  rewrite take_app_length' by done. cbn [app negb].
  change (byte_at (u8 BOUND_HEADER_VERSION :: _) 0 =? BOUND_HEADER_VERSION) with true.
  change (byte_at (_ :: u8 0 :: _) 1 =? 0) with true.
  change (le_combine (u16_le 32) =? Z.of_nat BOUND_HEADER_BYTES) with true.
  change (existsb _ _) with false. cbn [negb].
  unfold h. rewrite take_app_length', drop_app_length' by (by rewrite length_bound_body).
  unfold crc. rewrite le_u32_roundtrip, Z.eqb_refl by apply crc32c_u32. cbn [negb].
  by rewrite Hi.
Qed.

Lemma decode_bound_header_inv bs magic i :
  decode_bound_header bs magic = Ok i → wf_incarnation i ∧ bs = encode_bound_header magic i.
Proof.
  unfold decode_bound_header. repeat (case_match; [done|]).
  destruct (incarnation_from_bytes _) as [x|] eqn:Ei; [|done]. intros [= <-].
  pose proof (incarnation_from_bytes_Some _ _ Ei) as Ex. bool_to_prop.
  unfold BOUND_HEADER_BYTES, BOUND_HEADER_CHECKSUM_OFFSET in *.
  assert (length x = 16%nat) as Hlx by (rewrite Ex, length_take, length_drop; lia).
  split; [split; [done|congruence]|].
  assert (bs = bound_header_body magic x ++ drop 28 bs) as Eh.
  { rewrite <-(drop_0 bs) at 1.
    rewrite (drop_field bs 0 4 4), (drop_byte bs 4 5), (drop_byte bs 5 6), (drop_field bs 6 2 8),
      (drop_field bs 8 16 24), (drop_field bs 24 4 28) by lia.
    rewrite drop_0. unfold bound_header_body. rewrite <-!app_assoc. cbn [app].
    assert (length (take 4 (drop 24 bs)) = 4%nat) by (rewrite length_take, length_drop; lia).
    rewrite (zero_bytes (take 4 (drop 24 bs)) 4) by done.
    assert (u16_le (Z.of_nat BOUND_HEADER_BYTES) = take 2 (drop 6 bs)) as ->.
    { unfold BOUND_HEADER_BYTES. match goal with E : le_combine (take 2 _) = _ |- _ => rewrite <-E end.
      apply split_le_combine'. rewrite length_take, length_drop; lia. }
    congruence. }
  unfold encode_bound_header. rewrite Eh at 1. f_equal.
  assert (take 28 bs = bound_header_body magic x) as Et.
  { rewrite Eh at 1. apply take_app_length'. rewrite length_bound_body; [done| |done].
    match goal with E : take 4 bs = magic |- _ => rewrite <-E end. rewrite length_take. lia. }
  rewrite <-Et. match goal with E : crc32c _ = _ |- _ => rewrite E end.
  symmetry. apply u32_le_combine. rewrite length_drop; lia.
Qed.

(** A store identity file is accepted just when it is the encoding of the
    nonzero incarnation it returns: any other length, magic, version, flag,
    reserved byte or checksum fails closed. *)
Theorem store_identity_codec bs i :
  decode_identity bs = Ok i ↔ wf_incarnation i ∧ bs = encode_identity i.
Proof.
  split; [apply decode_bound_header_inv|]. intros [Hi ->]. by apply decode_encode_bound_header.
Qed.
End header_codec.

(** ** Claims are exclusive *)

(** The claimed set as three flags. *)
Definition claimed_of (w u p : bool) : Z := Z.b2z w + 2 * Z.b2z u + 4 * Z.b2z p.

Definition claim_inv (c : Z * list StoreComponent) : Prop :=
  NoDup c.2 ∧ ∃ w u p, c.1 = claimed_of w u p ∧ (w = true ↔ ComponentWal ∈ c.2) ∧
    (u = true ↔ ComponentUndo ∈ c.2) ∧ (p = true ↔ ComponentPages ∈ c.2).

Lemma claim_step_inv c c' : claim_step c c' → claim_inv c → claim_inv c'.
Proof.
  intros Hs (Hnd & w & u & p & Hc & Hw & Hu & Hp).
  destruct Hs as [x claimed next leases E|x claimed leases leases' Hperm]; cbn in *; subst claimed.
  - unfold claim_round in E. destruct (negb _) eqn:Eb; [done|]. injection E as <-.
    assert (x ∉ leases) as Hx.
    { destruct x; rewrite <-?Hw, <-?Hu, <-?Hp; destruct w, u, p; done. }
    split; [by constructor|]. cbn.
    destruct x; [exists true, u, p|exists w, true, p|exists w, u, true];
      rewrite !elem_of_cons; split_and!; try (by destruct w, u, p); naive_solver.
  - rewrite Hperm in Hnd. apply NoDup_cons in Hnd as [Hx Hnd]. split; [done|]. cbn.
    setoid_rewrite Hperm in Hw. setoid_rewrite Hperm in Hu. setoid_rewrite Hperm in Hp.
    rewrite elem_of_cons in Hw, Hu, Hp.
    destruct x; [exists false, u, p|exists w, false, p|exists w, u, false];
      split_and!; try (by destruct w, u, p); naive_solver.
Qed.

(** No component is ever claimed twice: under any interleaving of claims and
    lease drops, at most one lease of each component is live, and the claimed set
    holds exactly the bits of the live leases, so a claim fails just while
    another lease of its component is live. *)
Theorem claims_are_exclusive claimed leases :
  rtc claim_step (0, []) (claimed, leases) →
  NoDup leases ∧ ∀ c, claim_round c claimed = Err (StoreComponentBusy c) ↔ c ∈ leases.
Proof.
  intros Hr. assert (claim_inv (claimed, leases)) as (Hnd & w & u & p & Hc & Hw & Hu & Hp).
  { remember (0, []) as c0 eqn:E0. assert (claim_inv c0) as Hi.
    { subst. split; [constructor|]. exists false, false, false. cbn. set_solver. }
    clear E0. induction Hr as [|x y z Hs _ IH]; [done|]. by apply IH, (claim_step_inv x). }
  split; [done|]. cbn in *. subst. intros []; unfold claim_round;
    rewrite <-?Hw, <-?Hu, <-?Hp; by destruct w, u, p.
Qed.

Lemma claims_are_exclusive_witness :
  NoDup [ComponentUndo; ComponentWal] ∧ claim_round ComponentUndo 3 = Err (StoreComponentBusy ComponentUndo).
Proof.
  destruct (claims_are_exclusive 3 [ComponentUndo; ComponentWal]) as [Hnd Hc].
  - eapply rtc_l; [apply (step_cas ComponentWal 0 1 []); reflexivity|].
    eapply rtc_once, (step_cas ComponentUndo 1 3 [ComponentWal]). reflexivity.
  - split; [exact Hnd|]. apply Hc. left.
Defined.
