(* ===== verification/StoreDir.v ===== *)
(** * Store directories

    Models [StoreDirectory] of [crates/seerdb/src/vnext/store.rs]: creating and
    opening a store directory under its lock file, the identity that is published
    once, and the component leases that keep the lock.  Any number of handles, of one
    process or of many, take their turns between each other's; everything a handle
    does under the lock is split into the turns in which another could interfere.
    The order in which a directory is listed is a parameter. *)
From stdpp Require Import strings gmap.
From S2P Require Import Prelude StdCollections Ids Crc Fs Directory Store.

Local Open Scope Z_scope.
Local Open Scope seer_scope.

Definition LOCK_FILE_NAME : string := "seerdb.lock".
Definition IDENTITY_FILE_NAME : string := "store.identity".

(** [std::fs::read_dir]: every name once, in an order of the platform. *)
Class ReadDir := read_dir : list string → list string.
Class ReadDirLaws `{ReadDir} := read_dir_names : ∀ names, read_dir names ≡ₚ names.

Definition dir_io {A} (c : Dir * result A IoErrorKind) : Dir * result A StoreError := (c.1, map_err StoreIo c.2).

(** [Path::exists], [Path::is_dir]: false when the path cannot be inspected. *)
Definition dir_probe (d : Dir) : Dir * bool :=
  let '(d, o) := turn d in (d, match o with Succeeds => d_exists d | _ => false end).

(** [std::fs::create_dir_all] *)
Definition create_dir_all (d : Dir) : Dir * result unit IoErrorKind :=
  let '(d, o) := turn d in
  (if took_place o && negb (d_exists d) then set_linked true false d else d, outcome o tt).

Definition require_supported_platform (unix : bool) : result unit StoreError :=
  if unix then Ok tt else Err StoreUnsupportedPlatform.

Definition canonical_directory (d : Dir) : Dir * result unit StoreError :=
  let '(d, is_dir) := dir_probe d in
  if negb is_dir then (d, Err (StoreInvalidPath NotADirectory)) else dir_io (dir_check d).

Definition open_lock_file (d : Dir) : Dir * result nat StoreError :=
  do? (d, _) := dir_io (dir_check d) in
  match entry LOCK_FILE_NAME d ≫= (λ ino, d_nodes d !! ino) with
  | Some OtherNode => (d, Err (StoreInvalidPath LockNotRegular))
  | _ => dir_io (dir_open_create LOCK_FILE_NAME d)
  end.

(** The loop of [require_only_lock_file]. *)
Fixpoint foreign_loop (names : list string) (d : Dir) : Dir * result unit StoreError :=
  match names with
  | [] => (d, Ok tt)
  | name :: names' =>
      do? (d, _) := dir_io (dir_check d) in
      if bool_decide (name = LOCK_FILE_NAME) then
        do? (d, _) := dir_io (dir_check d) in
        match entry name d ≫= (λ ino, d_nodes d !! ino) with
        | Some (RegularFile _) => foreign_loop names' d
        | _ => (d, Err (StoreInvalidPath LockNotRegular))
        end
      else if bool_decide (name = IDENTITY_FILE_NAME) then (d, Err StoreAlreadyExists)
      else (d, Err StoreNotEmpty)
  end.

(** [getrandom::fill] gives [random] or fails. *)
Definition generate_incarnation (random : option bytes) : result bytes StoreError :=
  match random with
  | None => Err StoreRandom
  | Some bs => ok_or (incarnation_from_bytes bs) StoreInvalidRandomIncarnation
  end.

(** What a handle is about to do; [l] is the file it has open under the lock name. *)
Inductive StoreTask :=
| CreateLock (l : nat)
| CreateCheck (l : nat)
| CreatePublish (l : nat)
| CreateSync (l : nat) (incarnation : bytes)
| OpenLock (l : nat) (expected : option bytes)
| OpenRead (l : nat) (expected : option bytes)
| OpenSync (l : nat) (incarnation : bytes)
| Owner (l : nat) (incarnation : bytes) (claimed : Z) (leases : list StoreComponent) (handle : bool).

Definition task_lock (task : StoreTask) : nat :=
  match task with
  | CreateLock l | CreateCheck l | CreatePublish l | CreateSync l _ | OpenLock l _ | OpenRead l _ | OpenSync l _
  | Owner l _ _ _ _ => l
  end.

(** [sd_locks]: the handle that holds the lock of a file; [sd_opened]: the
    incarnations that [create] and [open] have returned. *)
Record StoreSys := {
  sd_dir : Dir;
  sd_locks : gmap nat nat;
  sd_tasks : gmap nat StoreTask;
  sd_opened : list bytes
}.

Definition with_dir (d : Dir) (s : StoreSys) : StoreSys :=
  {| sd_dir := d; sd_locks := sd_locks s; sd_tasks := sd_tasks s; sd_opened := sd_opened s |}.
Definition put_task (t : nat) (task : StoreTask) (s : StoreSys) : StoreSys :=
  {| sd_dir := sd_dir s; sd_locks := sd_locks s; sd_tasks := <[t := task]> (sd_tasks s); sd_opened := sd_opened s |}.

(** The handle is dropped: its file is closed, and the lock goes with it. *)
Definition close_task (t : nat) (s : StoreSys) : StoreSys :=
  {| sd_dir := sd_dir s; sd_locks := filter (λ x, x.2 ≠ t) (sd_locks s); sd_tasks := delete t (sd_tasks s);
     sd_opened := sd_opened s |}.

Definition opened (t l : nat) (incarnation : bytes) (s : StoreSys) : StoreSys :=
  {| sd_dir := sd_dir s; sd_locks := sd_locks s; sd_tasks := <[t := Owner l incarnation 0 [] true]> (sd_tasks s);
     sd_opened := incarnation :: sd_opened s |}.

(** [acquire_lock] *)
Definition acquire_lock (t l : nat) (s : StoreSys) : StoreSys * result unit StoreError :=
  let '(d, o) := turn (sd_dir s) in
  let s := with_dir d s in
  match o with
  | Succeeds =>
      match sd_locks s !! l with
      | Some _ => (s, Err StoreBusy)
      | None => ({| sd_dir := sd_dir s; sd_locks := <[l := t]> (sd_locks s); sd_tasks := sd_tasks s;
                    sd_opened := sd_opened s |}, Ok tt)
      end
  | _ => (s, Err (StoreIo OtherIo))
  end.

Section store.
Context `{Crc32c} `{ReadDir}.

Definition require_only_lock_file (d : Dir) : Dir * result unit StoreError :=
  do? (d, _) := dir_io (dir_check d) in foreign_loop (read_dir (dir_names d)) d.

(** The part of [create] before the lock. *)
Definition create_prepare (unix : bool) (path : string) (d : Dir) : Dir * result nat StoreError :=
  do? (d, _) := (d, require_supported_platform unix) in
  if bool_decide (path = EmptyString) then (d, Err (StoreInvalidPath EmptyPath))
  else
    let '(d, present) := dir_probe d in
    do? (d, _) := if negb present then dir_io (create_dir_all d) else (d, Ok tt) in
    do? (d, _) := canonical_directory d in
    open_lock_file d.

(** The part of [open] before the lock. *)
Definition open_prepare (unix : bool) (d : Dir) : Dir * result nat StoreError :=
  do? (d, _) := (d, require_supported_platform unix) in
  do? (d, _) := canonical_directory d in
  let '(d, lock_is_file) := dir_is_file LOCK_FILE_NAME d in
  if negb lock_is_file then (d, Err StoreMissingLock) else open_lock_file d.

Definition publish_identity (incarnation : bytes) (pid sequence : Z) (d : Dir) : Dir * result unit StoreError :=
  let '(d, _, r) := atomic_write IDENTITY_FILE_NAME (encode_identity incarnation) pid sequence d in
  (d, map_err StoreIo r).

(** [open] from the check of the identity to that of the expected incarnation. *)
Definition read_identity (expected : option bytes) (d : Dir) : Dir * result bytes StoreError :=
  let '(d, is_file) := dir_is_file IDENTITY_FILE_NAME d in
  if negb is_file then (d, Err StoreMissingIdentity)
  else
    do? (d, bs) := dir_io (dir_read IDENTITY_FILE_NAME d) in
    do? (d, incarnation) := (d, decode_identity bs) in
    match expected with
    | Some e => if bool_decide (e = incarnation) then (d, Ok incarnation)
                else (d, Err (StoreForeignIncarnation e incarnation))
    | None => (d, Ok incarnation)
    end.

(** The two barriers of [open]. *)
Definition sync_identity (d : Dir) : Dir * result unit StoreError :=
  do? (d, _) := dir_io (dir_check d) in
  match entry IDENTITY_FILE_NAME d with
  | None => (d, Err (StoreIo NotFound))
  | Some ino => do? (d, _) := dir_io (dir_sync_file ino d) in dir_io (fsync_dir_chain d)
  end.

(** One turn of a handle; [Owner] has none of its own. *)
Definition store_turn (t : nat) (random : option bytes) (pid sequence : Z) (task : StoreTask) (s : StoreSys) : StoreSys :=
  let next (c : Dir * result StoreTask StoreError) : StoreSys :=
    match c with
    | (d, Ok task) => put_task t task (with_dir d s)
    | (d, Err _) => close_task t (with_dir d s)
    end in
  match task with
  | CreateLock l =>
      match acquire_lock t l s with
      | (s, Ok _) => put_task t (CreateCheck l) s
      | (s, Err _) => close_task t s
      end
  | CreateCheck l => next (do? (d, _) := require_only_lock_file (sd_dir s) in (d, Ok (CreatePublish l)))
  | CreatePublish l =>
      next (do? (d, incarnation) := (sd_dir s, generate_incarnation random) in
            do? (d, _) := publish_identity incarnation pid sequence d in
            (d, Ok (CreateSync l incarnation)))
  | CreateSync l incarnation =>
      match dir_io (fsync_dir_chain (sd_dir s)) with
      | (d, Ok _) => opened t l incarnation (with_dir d s)
      | (d, Err _) => close_task t (with_dir d s)
      end
  | OpenLock l expected =>
      match acquire_lock t l s with
      | (s, Ok _) => put_task t (OpenRead l expected) s
      | (s, Err _) => close_task t s
      end
  | OpenRead l expected =>
      next (do? (d, incarnation) := read_identity expected (sd_dir s) in (d, Ok (OpenSync l incarnation)))
  | OpenSync l incarnation =>
      match sync_identity (sd_dir s) with
      | (d, Ok _) => opened t l incarnation (with_dir d s)
      | (d, Err _) => close_task t (with_dir d s)
      end
  | Owner _ _ _ _ _ => s
  end.

(** A handle that was dropped keeps the lock while a lease is live. *)
Definition keep_owner (t l : nat) (incarnation : bytes) (claimed : Z) (leases : list StoreComponent) (handle : bool)
    (s : StoreSys) : StoreSys :=
  if negb handle && bool_decide (leases = []) then close_task t s
  else put_task t (Owner l incarnation claimed leases handle) s.

(** What the components write: everything but the lock and the identity. *)
Record components_wrote (d d' : Dir) : Prop := {
  cw_wf : wf_dir d';
  cw_meta : d_exists d' = d_exists d ∧ d_linked d' = d_linked d ∧ d_depth d' = d_depth d;
  cw_names : ∀ name, name = LOCK_FILE_NAME ∨ name = IDENTITY_FILE_NAME →
    history name d' = history name d ∨ history name d' = [entry name d];
  cw_nodes : ∀ name ino, name = LOCK_FILE_NAME ∨ name = IDENTITY_FILE_NAME → Some ino ∈ history name d' →
    d_nodes d' !! ino = d_nodes d !! ino
}.

Inductive store_step (unix : bool) (path : string) (s : StoreSys) : StoreSys → Prop :=
| step_create t d r :
    sd_tasks s !! t = None → create_prepare unix path (sd_dir s) = (d, r) →
    store_step unix path s (match r with Ok l => put_task t (CreateLock l) (with_dir d s) | Err _ => with_dir d s end)
| step_open t expected d r :
    sd_tasks s !! t = None → open_prepare unix (sd_dir s) = (d, r) →
    store_step unix path s (match r with Ok l => put_task t (OpenLock l expected) (with_dir d s) | Err _ => with_dir d s end)
| step_turn t task random pid sequence :
    sd_tasks s !! t = Some task → (∀ bs, random = Some bs → length bs = 16%nat) →
    store_step unix path s (store_turn t random pid sequence task s)
| step_claim t l i claimed leases c next :
    sd_tasks s !! t = Some (Owner l i claimed leases true) → claim_round c claimed = Ok next →
    store_step unix path s (put_task t (Owner l i next (c :: leases) true) s)
| step_lease t l i claimed leases leases' handle c :
    sd_tasks s !! t = Some (Owner l i claimed leases handle) → leases ≡ₚ c :: leases' →
    store_step unix path s (keep_owner t l i (release_claim c claimed) leases' handle s)
| step_handle t l i claimed leases :
    sd_tasks s !! t = Some (Owner l i claimed leases true) →
    store_step unix path s (keep_owner t l i claimed leases false s)
| step_components t l i claimed leases handle d :
    sd_tasks s !! t = Some (Owner l i claimed leases handle) → components_wrote (sd_dir s) d →
    store_step unix path s (with_dir d s)
| step_exit t : store_step unix path s (close_task t s)
| step_crash d :
    dir_crash (sd_dir s) d →
    store_step unix path s {| sd_dir := d; sd_locks := ∅; sd_tasks := ∅; sd_opened := sd_opened s |}.

(** A handle's own turns, and the whole calls of [create] and [open]. *)
Fixpoint store_turns (n t : nat) (random : option bytes) (pid sequence : Z) (s : StoreSys) : StoreSys :=
  match n with
  | O => s
  | S n' =>
      match sd_tasks s !! t with
      | Some task => store_turns n' t random pid sequence (store_turn t random pid sequence task s)
      | None => s
      end
  end.

Definition store_create (unix : bool) (path : string) (t : nat) (random : option bytes) (pid sequence : Z) (s : StoreSys)
    : StoreSys :=
  match create_prepare unix path (sd_dir s) with
  | (d, Ok l) => store_turns 4 t random pid sequence (put_task t (CreateLock l) (with_dir d s))
  | (d, Err _) => with_dir d s
  end.

Definition store_open (unix : bool) (t : nat) (expected : option bytes) (s : StoreSys) : StoreSys :=
  match open_prepare unix (sd_dir s) with
  | (d, Ok l) => store_turns 3 t None 0 0 (put_task t (OpenLock l expected) (with_dir d s))
  | (d, Err _) => with_dir d s
  end.

Definition store_start (d : Dir) : StoreSys := {| sd_dir := d; sd_locks := ∅; sd_tasks := ∅; sd_opened := [] |}.
End store.

(** ** Operations that leave the lock and the identity alone *)
Definition fixed_name (name : string) : Prop := name = LOCK_FILE_NAME ∨ name = IDENTITY_FILE_NAME.

Record quiet (d d' : Dir) : Prop := {
  q_wf : wf_dir d';
  q_exists : d_exists d' = d_exists d;
  q_linked : d_linked d = true → d_linked d' = true;
  q_names : ∀ name, fixed_name name → history name d' = history name d ∨ history name d' = [entry name d];
  q_nodes : ∀ name ino, fixed_name name → Some ino ∈ history name d' → d_nodes d' !! ino = d_nodes d !! ino
}.

Lemma quiet_refl d : wf_dir d → quiet d d.
Proof. constructor; auto. Qed.

Lemma quiet_entry d d' name : quiet d d' → fixed_name name → entry name d' = entry name d.
Proof. intros Hq Hf. unfold entry. destruct (q_names d d' Hq name Hf) as [-> | ->]; done. Qed.

Lemma quiet_history d d' name e : wf_dir d → quiet d d' → fixed_name name → e ∈ history name d' → e ∈ history name d.
Proof.
  intros Hw Hq Hf. destruct (q_names d d' Hq name Hf) as [-> | ->]; [done|]. intros ->%list_elem_of_singleton. by apply entry_in.
Qed.

Lemma quiet_trans d d1 d2 : wf_dir d → quiet d d1 → quiet d1 d2 → quiet d d2.
Proof.
  intros Hw H1 H2. constructor.
  - apply H2.
  - by rewrite (q_exists _ _ H2), (q_exists _ _ H1).
  - intros Hl. by apply H2, H1.
  - intros name Hf. rewrite <-(quiet_entry d d1) by done.
    destruct (q_names d1 d2 H2 name Hf) as [-> | ->]; [|by right].
    rewrite (quiet_entry d d1) by done. by apply H1.
  - intros name ino Hf Hi. rewrite (q_nodes d1 d2 H2 name) by done. apply (q_nodes d d1 H1 name); [done|].
    eapply quiet_history; [|done..]. apply H1.
Qed.

Lemma quiet_turn d d' o : wf_dir d → turn d = (d', o) → quiet d d'.
Proof.
  intros Hw Ht. apply turn_cases in Ht as (x & y & ->). constructor; auto. destruct Hw as [W1 W2 W3]. by constructor.
Qed.

Lemma dir_check_quiet d d' r : wf_dir d → dir_check d = (d', r) → quiet d d'.
Proof.
  intros Hw. unfold dir_check. destruct (turn d) as [d1 o] eqn:Et. intros [= <- <-]. by eapply quiet_turn.
Qed.

Lemma dir_io_inv {A} (c : Dir * result A IoErrorKind) d r :
  dir_io c = (d, r) → ∃ r', c = (d, r') ∧ r = map_err StoreIo r'.
Proof. destruct c as [d' r']. intros [= <- <-]. by eexists. Qed.

Lemma io_check_quiet d d' r : wf_dir d → dir_io (dir_check d) = (d', r) → quiet d d'.
Proof. intros Hw (r' & Hc & _)%dir_io_inv. by eapply dir_check_quiet. Qed.

Lemma dir_probe_quiet d d' b : wf_dir d → dir_probe d = (d', b) → quiet d d' ∧ (b = true → d_exists d' = true).
Proof.
  intros Hw. unfold dir_probe. destruct (turn d) as [d1 o] eqn:Et. intros [= <- <-].
  split; [by eapply quiet_turn|by destruct o].
Qed.

Lemma canonical_quiet d d' r : wf_dir d → canonical_directory d = (d', r) → quiet d d' ∧ (is_ok r = true → d_exists d' = true).
Proof.
  intros Hw. unfold canonical_directory. destruct (dir_probe d) as [d1 b] eqn:Ep.
  apply dir_probe_quiet in Ep as [Hq Hb]; [|done]. destruct b; cbn [negb]; [|intros [= <- <-]; by split].
  intros Hc. apply io_check_quiet in Hc as Hq2; [|apply Hq]. split; [by eapply quiet_trans|].
  intros _. rewrite (q_exists _ _ Hq2). by apply Hb.
Qed.

Lemma dir_is_file_quiet d d' name b :
  wf_dir d → dir_is_file name d = (d', b) →
  quiet d d' ∧ (b = true → ∃ ino f, entry name d' = Some ino ∧ d_nodes d' !! ino = Some (RegularFile f)).
Proof.
  intros Hw. unfold dir_is_file. destruct (turn d) as [d1 o] eqn:Et. intros [= <- <-]. split; [by eapply quiet_turn|].
  destruct o; [|done..]. destruct (entry name d1) as [ino|]; [|done]. cbn [mbind option_bind].
  destruct (d_nodes d1 !! ino) as [[f|]|] eqn:Ei; [|done..]. by exists ino, f.
Qed.

Lemma fsync_quiet d d' r :
  wf_dir d → fsync_dir d = (d', r) →
  quiet d d' ∧ (r = Ok tt → ∀ name, history name d' = [entry name d]) ∧ d_depth d' = d_depth d.
Proof.
  intros Hw. unfold fsync_dir. destruct (turn d) as [d1 o] eqn:Et. pose proof (quiet_turn _ _ _ Hw Et) as Hq.
  apply turn_cases in Et as (x & y & ->). pose proof (q_wf _ _ Hq) as Hw1.
  destruct o; intros [= <- <-]; [|by split_and!..]. pose proof (history_fsync (set_turn x y d)) as Hh.
  set (d2 := set_entries _ _) in *. split_and!; [|intros _ name; by rewrite Hh|done]. constructor; try done.
  - destruct Hw1 as [W1 W2 W3]. constructor; try assumption.
    + intros name. by rewrite Hh.
    + intros name ino. rewrite Hh by done. intros Hi%list_elem_of_singleton. apply (W2 name). rewrite Hi. by apply entry_in.
  - intros name _. rewrite Hh by done. by right.
Qed.

Lemma sync_ancestors_quiet n : ∀ d d' r, wf_dir d → sync_ancestors n d = (d', r) → quiet d d' ∧ ∀ name, history name d' = history name d.
Proof.
  induction n as [|n IH]; intros d d' r Hw; cbn [sync_ancestors].
  { intros [= <- <-]. split; [by apply quiet_refl|done]. }
  destruct (dir_check d) as [d1 [[]|e]] eqn:Ec; pose proof (dir_check_quiet _ _ _ Hw Ec) as Hq.
  all: unfold dir_check in Ec; destruct (turn d) as [d2 o] eqn:Et; apply turn_cases in Et as (x & y & ->); injection Ec as <- _.
  - intros Hs. apply IH in Hs as [Hq2 Hh]; [|apply Hq]. split; [by eapply quiet_trans|]. intros name. by rewrite Hh.
  - intros [= <- <-]. by split.
Qed.

(** The chain of barriers makes the lock and the identity durable. *)
Lemma chain_quiet d d' r :
  wf_dir d → dir_io (fsync_dir_chain d) = (d', r) →
  quiet d d' ∧ (is_ok r = true → d_linked d' = true ∧ ∀ name, history name d' = [entry name d]).
Proof.
  intros Hw (r' & Hc & ->)%dir_io_inv. revert Hc. unfold fsync_dir_chain.
  destruct (fsync_dir d) as [d1 [[]|e]] eqn:Ef; apply fsync_quiet in Ef as (Hq & Hh & _); try done.
  2:{ intros [= <- <-]. by split. }
  destruct (sync_ancestors _ d1) as [d2 [[]|e]] eqn:Ea; apply sync_ancestors_quiet in Ea as [Hq2 Hh2]; try apply Hq.
  2:{ intros [= <- <-]. split; [by eapply quiet_trans|done]. }
  intros [= <- <-]. assert (quiet d d2) as [W X L N M] by by eapply quiet_trans. split.
  - constructor; try done. destruct W as [W1 W2 W3]. by constructor.
  - intros _. split; [done|]. intros name. change (history name d2 = [entry name d]). by rewrite Hh2, Hh.
Qed.

(** ** Preparations

    Before the lock a handle may create the directory and the lock file; it does so
    only where there were none. *)
Definition vacant (d : Dir) : Prop := d_exists d = false ∨ entry LOCK_FILE_NAME d = None.

Record prepared (d d' : Dir) : Prop := {
  pr_wf : wf_dir d';
  pr_history : ∀ e, e ∈ history IDENTITY_FILE_NAME d' → e ∈ history IDENTITY_FILE_NAME d;
  pr_nodes : ∀ ino, Some ino ∈ history IDENTITY_FILE_NAME d' → d_nodes d' !! ino = d_nodes d !! ino;
  pr_quiet : vacant d ∨ quiet d d'
}.

Lemma lock_fixed : fixed_name LOCK_FILE_NAME.
Proof. by left. Qed.
Lemma identity_fixed : fixed_name IDENTITY_FILE_NAME.
Proof. by right. Qed.
#[local] Hint Resolve lock_fixed identity_fixed : core.

Lemma prepared_quiet d d' : wf_dir d → quiet d d' → prepared d d'.
Proof.
  intros Hw Hq. constructor; [apply Hq|..|by right].
  - intros e. by apply quiet_history.
  - intros ino. by apply (q_nodes d d' Hq).
Qed.

Lemma prepared_trans d d1 d2 : wf_dir d → prepared d d1 → prepared d1 d2 → prepared d d2.
Proof.
  intros Hw H1 H2. constructor; [apply H2|..].
  - intros e He. by apply H1, H2.
  - intros ino Hi. rewrite (pr_nodes _ _ H2) by done. apply H1. by apply H2.
  - destruct (pr_quiet _ _ H1) as [?|Q1]; [by left|]. destruct (pr_quiet _ _ H2) as [[V|V]|Q2].
    + left. left. by rewrite <-(q_exists _ _ Q1).
    + left. right. by rewrite <-(quiet_entry d d1).
    + right. by eapply quiet_trans.
Qed.

Lemma create_dir_all_prepared d d' r : wf_dir d → dir_io (create_dir_all d) = (d', r) → prepared d d'.
Proof.
  intros Hw (r' & Hc & _)%dir_io_inv. revert Hc. unfold create_dir_all. destruct (turn d) as [d1 o] eqn:Et.
  pose proof (quiet_turn _ _ _ Hw Et) as Hq. apply turn_cases in Et as (x & y & ->). intros [= <- <-].
  destruct (took_place o && _) eqn:Ee; [|by apply prepared_quiet]. apply andb_prop in Ee as [_ Ee].
  constructor; try done; [|left; left; cbn in Ee; by destruct (d_exists d)].
  destruct Hw as [W1 W2 W3]. by constructor.
Qed.

Lemma new_file_wf name d : wf_dir d → wf_dir (new_file name d).
Proof.
  intros Hw. pose proof Hw as [W1 W2 W3]. unfold new_file. constructor.
  - intros n. rewrite history_relink. case_decide; [done|apply W1].
  - intros n ino. rewrite history_relink. cbn. rewrite lookup_insert_is_Some'.
    case_decide; [intros [[= ->]|Hi]%elem_of_cons|intros Hi]; [by left|right; by eapply W2..].
  - intros ino node. cbn. rewrite lookup_insert_Some. intros [[<- _]|[_ Hi%W3]]; lia.
Qed.

Lemma new_file_node name d ino node : wf_dir d → d_nodes d !! ino = Some node → d_nodes (new_file name d) !! ino = Some node.
Proof.
  intros Hw Hn. cbn. rewrite lookup_insert_ne; [done|]. intros <-. apply (wd_nodes d Hw) in Hn. lia.
Qed.

Lemma new_lock_prepared d : wf_dir d → entry LOCK_FILE_NAME d = None → prepared d (new_file LOCK_FILE_NAME d).
Proof.
  intros Hw He. assert (history IDENTITY_FILE_NAME (new_file LOCK_FILE_NAME d) = history IDENTITY_FILE_NAME d) as Hh.
  { unfold new_file. by rewrite history_relink, decide_False by done. }
  constructor; rewrite ?Hh; [by apply new_file_wf|done| |left; by right].
  intros ino Hi. destruct (wd_inodes d Hw _ _ Hi) as [node Hn]. by rewrite Hn, (new_file_node _ _ _ _ Hw Hn).
Qed.

Definition lock_open (l : nat) (d : Dir) : Prop :=
  entry LOCK_FILE_NAME d = Some l ∧ ∃ f, d_nodes d !! l = Some (RegularFile f).

Lemma open_lock_file_prepared d d' r :
  wf_dir d → open_lock_file d = (d', r) →
  prepared d d' ∧ d_exists d' = d_exists d ∧ (∀ l, r = Ok l → lock_open l d').
Proof.
  intros Hw. unfold open_lock_file. destruct (dir_io (dir_check d)) as [d1 [[]|e]] eqn:Ec;
    pose proof (io_check_quiet _ _ _ Hw Ec) as Hq; pose proof (prepared_quiet _ _ Hw Hq) as Hp; pose proof (q_exists _ _ Hq) as Hx.
  2:{ intros [= <- <-]. by split_and!. }
  pose proof (q_wf _ _ Hq) as Hw1. intros H.
  assert (prepared d1 d' ∧ d_exists d' = d_exists d1 ∧ (∀ l, r = Ok l → lock_open l d')) as (Hp2 & Hx2 & Hl).
  2:{ split_and!; [by eapply prepared_trans|congruence|done]. }
  clear d Hw Ec Hq Hp Hx. destruct (entry LOCK_FILE_NAME d1) as [ino|] eqn:Ee; cbn [mbind option_bind] in H.
  - destruct (d_nodes d1 !! ino) as [[f|]|] eqn:En.
    2:{ injection H as <- <-. split_and!; try done. by apply prepared_quiet, quiet_refl. }
    2:{ pose proof (entry_in LOCK_FILE_NAME d1 Hw1) as Hin. rewrite Ee in Hin. destruct (wd_inodes d1 Hw1 _ _ Hin). congruence. }
    apply dir_io_inv in H as (r' & H & ->). unfold dir_open_create in H. destruct (turn d1) as [d2 o] eqn:Et.
    pose proof (prepared_quiet _ _ Hw1 (quiet_turn _ _ _ Hw1 Et)) as Hp. apply turn_cases in Et as (x & y & ->).
    change (entry _ (set_turn x y d1)) with (entry LOCK_FILE_NAME d1) in H. rewrite Ee in H.
    destruct (negb _); injection H as <- <-; (split_and!; [done|done|]); intros l Hl; [done|].
    destruct o; [|done..]. injection Hl as <-. split; [done|by exists f].
  - apply dir_io_inv in H as (r' & H & ->). unfold dir_open_create in H. destruct (turn d1) as [d2 o] eqn:Et.
    pose proof (prepared_quiet _ _ Hw1 (quiet_turn _ _ _ Hw1 Et)) as Hp.
    pose proof (q_wf _ _ (quiet_turn _ _ _ Hw1 Et)) as Hw2. apply turn_cases in Et as (x & y & ->).
    change (entry _ (set_turn x y d1)) with (entry LOCK_FILE_NAME d1) in H. rewrite Ee in H.
    destruct (negb _); injection H as <- <-; [by split_and!|]. split_and!; [|done|].
    + eapply prepared_trans; [done..|]. by apply new_lock_prepared.
    + intros l Hl. destruct o; [|done..]. injection Hl as <-. split; [|eexists; apply lookup_insert_eq].
      unfold new_file, entry. by rewrite history_relink, decide_True.
Qed.

Lemma create_prepare_prepared unix path d d' r :
  wf_dir d → create_prepare unix path d = (d', r) →
  prepared d d' ∧ (∀ l, r = Ok l → d_exists d' = true ∧ lock_open l d').
Proof.
  intros Hw. unfold create_prepare. pose proof (prepared_quiet d d Hw (quiet_refl d Hw)) as H0.
  destruct (require_supported_platform unix) as [[]|e]; [|intros [= <- <-]; by split].
  case_bool_decide; [intros [= <- <-]; by split|].
  destruct (dir_probe d) as [d1 present] eqn:Ep. apply dir_probe_quiet in Ep as [Hq _]; [|done].
  pose proof (prepared_quiet _ _ Hw Hq) as H1. pose proof (q_wf _ _ Hq) as Hw1. clear H0 Hq.
  destruct (if negb present then dir_io (create_dir_all d1) else (d1, Ok tt)) as [d2 r2] eqn:Ec.
  assert (prepared d1 d2) as H2.
  { destruct present; cbn [negb] in Ec; [injection Ec as <- _; by apply prepared_quiet, quiet_refl|by eapply create_dir_all_prepared]. }
  pose proof (pr_wf _ _ H2) as Hw2. apply (prepared_trans d) in H2; [|done..]. destruct r2 as [[]|e]; [|intros [= <- <-]; by split].
  destruct (canonical_directory d2) as [d3 [[]|e]] eqn:E3; apply canonical_quiet in E3 as [Hq3 Hx]; try done;
    pose proof (prepared_trans _ _ _ Hw H2 (prepared_quiet _ _ Hw2 Hq3)) as H3; [|intros [= <- <-]; by split].
  intros (H4 & Hx4 & Hl)%open_lock_file_prepared; [|apply Hq3]. split; [by eapply prepared_trans|].
  intros l ->. split; [rewrite Hx4; by apply Hx|by apply Hl].
Qed.

Lemma open_prepare_prepared unix d d' r :
  wf_dir d → open_prepare unix d = (d', r) →
  prepared d d' ∧ (∀ l, r = Ok l → d_exists d' = true ∧ lock_open l d').
Proof.
  intros Hw. unfold open_prepare.
  destruct (require_supported_platform unix) as [[]|e]; [|intros [= <- <-]; split; [by apply prepared_quiet, quiet_refl|done]].
  destruct (canonical_directory d) as [d1 [[]|e]] eqn:E1; apply canonical_quiet in E1 as [Hq1 Hx]; try done.
  2:{ intros [= <- <-]. split; [by apply prepared_quiet|done]. }
  destruct (dir_is_file LOCK_FILE_NAME d1) as [d2 b] eqn:E2. apply dir_is_file_quiet in E2 as [Hq2 _]; [|apply Hq1].
  pose proof (quiet_trans _ _ _ Hw Hq1 Hq2) as Hq. destruct b; cbn [negb]; [|intros [= <- <-]; split; [by apply prepared_quiet|done]].
  intros (H4 & Hx4 & Hl)%open_lock_file_prepared; [|apply Hq2]. split; [eapply prepared_trans; [done|by apply prepared_quiet|done]|].
  intros l ->. split; [rewrite Hx4, (q_exists _ _ Hq2); by apply Hx|by apply Hl].
Qed.

(** ** Under the lock *)
Lemma dir_names_entry name d : name ∈ dir_names d ↔ entry name d ≠ None.
Proof.
  unfold dir_names. rewrite list_elem_of_filter. split; [by intros [? _]|]. intros He. split; [done|].
  unfold entry, history in He. destruct (d_entries d !! name) as [h|] eqn:Eh; [|done].
  apply list_elem_of_fmap. exists (name, h). split; [done|by apply elem_of_map_to_list].
Qed.

Lemma foreign_loop_quiet names : ∀ d d' r,
  wf_dir d → foreign_loop names d = (d', r) → quiet d d' ∧ (r = Ok tt → IDENTITY_FILE_NAME ∉ names).
Proof.
  induction names as [|name names IH]; intros d d' r Hw; cbn [foreign_loop].
  { intros [= <- <-]. split; [by apply quiet_refl|]. intros _. by apply not_elem_of_nil. }
  destruct (dir_io (dir_check d)) as [d1 [[]|e]] eqn:E1; pose proof (io_check_quiet _ _ _ Hw E1) as Hq; [|intros [= <- <-]; by split].
  case_bool_decide as Hn; [|case_bool_decide; intros [= <- <-]; by split]. pose proof (q_wf _ _ Hq) as Hw1.
  destruct (dir_io (dir_check d1)) as [d2 [[]|e]] eqn:E2; pose proof (quiet_trans _ _ _ Hw Hq (io_check_quiet _ _ _ Hw1 E2)) as Hq2;
    [|intros [= <- <-]; by split].
  destruct (_ ≫= _) as [[f|]|]; [|intros [= <- <-]; by split..].
  intros [Hq3 Hok]%IH; [|apply Hq2]. split; [by eapply quiet_trans|].
  intros Hr. apply not_elem_of_cons. split; [by subst name|by apply Hok].
Qed.

Lemma dir_read_quiet name d d' r :
  wf_dir d → dir_io (dir_read name d) = (d', r) → quiet d d' ∧ (∀ bs, r = Ok bs → read_name name d' = Some bs).
Proof.
  intros Hw (r' & H & ->)%dir_io_inv. revert H. unfold dir_read. destruct (turn d) as [d1 o] eqn:Et.
  pose proof (quiet_turn _ _ _ Hw Et) as Hq. destruct o; [destruct (read_name name d1) eqn:E|..]; intros [= <- <-]; (split; [done|]); try done.
  by intros ? [= <-].
Qed.

Section facts.
Context `{Crc32c} `{!ReadDir} `{!ReadDirLaws}.

Lemma require_only_quiet d d' r :
  wf_dir d → require_only_lock_file d = (d', r) → quiet d d' ∧ (r = Ok tt → entry IDENTITY_FILE_NAME d' = None).
Proof.
  intros Hw. unfold require_only_lock_file.
  destruct (dir_io (dir_check d)) as [d1 [[]|e]] eqn:E1; pose proof (io_check_quiet _ _ _ Hw E1) as Hq; [|intros [= <- <-]; by split].
  intros [Hq2 Hok]%foreign_loop_quiet; [|apply Hq]. split; [by eapply quiet_trans|]. intros Hr.
  rewrite (quiet_entry _ _ _ Hq2) by done. specialize (Hok Hr). rewrite read_dir_names, dir_names_entry in Hok.
  by destruct (entry IDENTITY_FILE_NAME d1); [destruct Hok|].
Qed.

Lemma read_identity_quiet expected d d' r :
  wf_dir d → read_identity expected d = (d', r) →
  quiet d d' ∧ (∀ i, r = Ok i → ∃ bs, read_name IDENTITY_FILE_NAME d' = Some bs ∧ decode_identity bs = Ok i).
Proof.
  intros Hw. unfold read_identity. destruct (dir_is_file _ d) as [d1 b] eqn:E1. apply dir_is_file_quiet in E1 as [Hq _]; [|done].
  destruct b; cbn [negb]; [|intros [= <- <-]; by split].
  destruct (dir_io (dir_read _ d1)) as [d2 [bs|e]] eqn:E2; apply dir_read_quiet in E2 as [Hq2 Hr]; try apply Hq;
    pose proof (quiet_trans _ _ _ Hw Hq Hq2) as Hq3; [|intros [= <- <-]; by split].
  destruct (decode_identity bs) as [i|e] eqn:Ed; [|intros [= <- <-]; by split].
  specialize (Hr bs eq_refl). assert (∀ j, (Ok i : result bytes StoreError) = Ok j → ∃ bs, read_name IDENTITY_FILE_NAME d2 = Some bs ∧ decode_identity bs = Ok j) as Hi.
  { intros j [= <-]. by exists bs. }
  destruct expected as [e|]; [case_bool_decide|]; intros [= <- <-]; by split.
Qed.

(** ** The invariant *)
Definition identity_file (ino : nat) (i : bytes) (d : Dir) : Prop :=
  wf_incarnation i ∧ d_nodes d !! ino = Some (synced_file (encode_identity i)).

Definition identity_is (i : bytes) (d : Dir) : Prop := ∃ ino, entry IDENTITY_FILE_NAME d = Some ino ∧ identity_file ino i d.

(** Whatever a crash may bring back under the identity's name is an identity; once an
    incarnation was returned there is nothing to bring back but that one. *)
Record dir_inv (opened : list bytes) (d : Dir) : Prop := {
  di_wf : wf_dir d;
  di_identity : ∀ ino, Some ino ∈ history IDENTITY_FILE_NAME d → ∃ i, identity_file ino i d;
  di_opened : ∀ i, i ∈ opened → d_exists d = true ∧ d_linked d = true ∧ identity_is i d ∧
    history IDENTITY_FILE_NAME d = [entry IDENTITY_FILE_NAME d] ∧ ∃ l, history LOCK_FILE_NAME d = [Some l] ∧ lock_open l d
}.

Definition task_ok (opened : list bytes) (d : Dir) (task : StoreTask) : Prop :=
  d_exists d = true ∧ lock_open (task_lock task) d ∧
  match task with
  | CreatePublish _ => entry IDENTITY_FILE_NAME d = None
  | CreateSync _ i | OpenSync _ i => identity_is i d
  | Owner _ i claimed leases handle => i ∈ opened ∧ claim_inv (claimed, leases) ∧ (handle = false → leases ≠ [])
  | _ => True
  end.

Definition holds_lock (task : StoreTask) : bool := match task with CreateLock _ | OpenLock _ _ => false | _ => true end.

Record store_inv (s : StoreSys) : Prop := {
  si_dir : dir_inv (sd_opened s) (sd_dir s);
  si_tasks : ∀ t task, sd_tasks s !! t = Some task → task_ok (sd_opened s) (sd_dir s) task;
  si_locks : ∀ l t, sd_locks s !! l = Some t ↔
    ∃ task, sd_tasks s !! t = Some task ∧ holds_lock task = true ∧ task_lock task = l
}.

Lemma encode_identity_inj i j : wf_incarnation i → wf_incarnation j → encode_identity i = encode_identity j → i = j.
Proof.
  intros Hi Hj E. pose proof (decode_encode_bound_header STORE_IDENTITY_MAGIC i eq_refl Hi) as Di.
  pose proof (decode_encode_bound_header STORE_IDENTITY_MAGIC j eq_refl Hj) as Dj.
  unfold encode_identity in E. rewrite E in Di. congruence.
Qed.

Lemma identity_is_unique i j d : identity_is i d → identity_is j d → i = j.
Proof.
  intros (a & Ea & Wi & Na) (b & Eb & Wj & Nb). apply encode_identity_inj; [done..|]. unfold synced_file in *. congruence.
Qed.

Lemma one_holder s t1 t2 task1 task2 :
  store_inv s → sd_tasks s !! t1 = Some task1 → sd_tasks s !! t2 = Some task2 →
  holds_lock task1 = true → holds_lock task2 = true → t1 = t2.
Proof.
  intros Hi T1 T2 L1 L2. destruct (si_tasks s Hi _ _ T1) as (_ & [E1 _] & _), (si_tasks s Hi _ _ T2) as (_ & [E2 _] & _).
  assert (sd_locks s !! task_lock task1 = Some t1) by (apply (si_locks s Hi); eauto).
  assert (sd_locks s !! task_lock task2 = Some t2) by (apply (si_locks s Hi); eauto). congruence.
Qed.

(** Quiet operations keep it. *)
Lemma quiet_entry_node d d' name ino :
  quiet d d' → fixed_name name → entry name d = Some ino → d_nodes d' !! ino = d_nodes d !! ino.
Proof.
  intros Hq Hf He. apply (q_nodes d d' Hq name); [done|]. rewrite <-He, <-(quiet_entry d d' name) by done.
  apply entry_in, Hq.
Qed.

Lemma quiet_lock_open l d d' : quiet d d' → lock_open l d → lock_open l d'.
Proof.
  intros Hq [He Hf]. split; [by rewrite (quiet_entry d d') by done|]. by rewrite (quiet_entry_node d d' LOCK_FILE_NAME).
Qed.

Lemma quiet_identity_is i d d' : quiet d d' → identity_is i d → identity_is i d'.
Proof.
  intros Hq (ino & He & Hw & Hn). exists ino. split; [by rewrite (quiet_entry d d') by done|]. split; [done|].
  by rewrite (quiet_entry_node d d' IDENTITY_FILE_NAME).
Qed.

Lemma quiet_singleton d d' name : quiet d d' → fixed_name name → history name d = [entry name d] → history name d' = [entry name d].
Proof. intros Hq Hf Hs. destruct (q_names d d' Hq name Hf); congruence. Qed.

Lemma quiet_dir_inv opened d d' : dir_inv opened d → quiet d d' → dir_inv opened d'.
Proof.
  intros [W I O] Hq. constructor; [apply Hq|..].
  - intros ino Hi. apply (quiet_history d d') in Hi as Hi'; [|done..]. destruct (I ino Hi') as (i & Hw & Hn).
    exists i. split; [done|]. by rewrite (q_nodes d d' Hq IDENTITY_FILE_NAME).
  - intros i Hi. destruct (O i Hi) as (X & L & Id & Hs & l & Hl & Ho).
    split_and!; [by rewrite (q_exists _ _ Hq)|by apply Hq|by eapply quiet_identity_is|by rewrite (quiet_entry d d'), (quiet_singleton d d')|].
    exists l. split; [|by eapply quiet_lock_open].
    assert (entry LOCK_FILE_NAME d = Some l) as He by apply Ho. rewrite <-He in Hl |- *. by apply quiet_singleton.
Qed.

Lemma quiet_task_ok opened d d' task : quiet d d' → task_ok opened d task → task_ok opened d' task.
Proof.
  intros Hq (X & L & T). split_and!; [by rewrite (q_exists _ _ Hq)|by eapply quiet_lock_open|].
  destruct task; try done; try (by eapply quiet_identity_is). by rewrite (quiet_entry d d').
Qed.

Lemma quiet_store_inv s d : store_inv s → quiet (sd_dir s) d → store_inv (with_dir d s).
Proof.
  intros [D T L] Hq. constructor; cbn; [by eapply quiet_dir_inv| |done]. intros t task Ht. eapply quiet_task_ok; [done|by eapply T].
Qed.

Lemma close_task_inv s t : store_inv s → store_inv (close_task t s).
Proof.
  intros [D T L]. constructor; cbn; [done|..].
  - intros t' task [_ Ht]%lookup_delete_Some. by eapply T.
  - intros l t'. rewrite map_lookup_filter_Some, L. cbn. setoid_rewrite lookup_delete_Some. naive_solver.
Qed.

Lemma put_task_inv s t task' :
  store_inv s → task_ok (sd_opened s) (sd_dir s) task' →
  match sd_tasks s !! t with
  | Some task => holds_lock task' = holds_lock task ∧ (holds_lock task = true → task_lock task' = task_lock task)
  | None => holds_lock task' = false
  end → store_inv (put_task t task' s).
Proof.
  intros [D T L] Hok Ht. constructor; cbn; [done|..].
  - intros t2 task. rewrite lookup_insert_Some. intros [[<- <-]|[_ ?]]; [done|by eapply T].
  - intros l t2. rewrite L. destruct (decide (t = t2)) as [<-|Hne]; [|by rewrite lookup_insert_ne].
    rewrite lookup_insert_eq. destruct (sd_tasks s !! t) as [task|].
    2:{ split; intros (x & [= <-] & Hx & _). congruence. }
    destruct Ht as [Hh Hl]. split.
    + intros (x & [= <-] & Hx & <-). exists task'. rewrite Hh. auto.
    + intros (x & [= <-] & Hx & <-). exists task. rewrite Hh in Hx. rewrite Hl by done. auto.
Qed.

Lemma acquire_lock_cases t l s s' r :
  store_inv s → acquire_lock t l s = (s', r) →
  store_inv s' ∧ is_ok r = false ∧ sd_opened s' = sd_opened s ∧ sd_tasks s' = sd_tasks s ∨
  r = Ok tt ∧ sd_locks s !! l = None ∧ ∃ d, quiet (sd_dir s) d ∧
    s' = {| sd_dir := d; sd_locks := <[l := t]> (sd_locks s); sd_tasks := sd_tasks s; sd_opened := sd_opened s |}.
Proof.
  intros Hi. unfold acquire_lock. destruct (turn (sd_dir s)) as [d o] eqn:Et.
  apply quiet_turn in Et as Hq; [|apply Hi]. pose proof (quiet_store_inv _ _ Hi Hq) as Hi'. cbn [with_dir sd_locks].
  destruct o; [destruct (sd_locks s !! l) eqn:El|..]; intros [= <- <-]; [by left|right|by left..].
  split_and!; [done..|]. by exists d.
Qed.

(** A handle that gets the lock goes on. *)
Lemma acquire_turn_inv t l s task task' :
  store_inv s → sd_tasks s !! t = Some task → holds_lock task = false → task_lock task = l →
  holds_lock task' = true → task_lock task' = l →
  (∀ d, task_ok (sd_opened s) d task → task_ok (sd_opened s) d task') →
  store_inv (match acquire_lock t l s with (s, Ok _) => put_task t task' s | (s, Err _) => close_task t s end).
Proof.
  intros Hi Ht Hh <- Hh' Hl' Hok. destruct (acquire_lock _ _ s) as [s' r] eqn:Ea.
  apply acquire_lock_cases in Ea as [(Hi' & Hr & _)|(-> & Hfree & d & Hq & ->)]; [destruct r; [done|by apply close_task_inv]| |done].
  pose proof (quiet_store_inv _ _ Hi Hq) as [D T L]. constructor; cbn in *; [done|..].
  - intros t2 x. rewrite lookup_insert_Some. intros [[<- <-]|[_ ?]]; [|by eapply T]. eapply Hok, T, Ht.
  - intros l t2. setoid_rewrite lookup_insert_Some. rewrite L. split.
    + intros [[<- <-]|[Hne (x & Hx & Hhx & <-)]]; [exists task'; auto|]. exists x. split_and!; [right; split; [|done]|done..].
      intros <-. rewrite Ht in Hx. injection Hx as ->. congruence.
    + intros (x & [[<- <-]|[Hne Hx]] & Hhx & <-); [left; auto|right]. split; [|eauto].
      intros E. assert (sd_locks s !! task_lock x = Some t2) by (apply L; eauto). congruence.
Qed.

(** The barriers of [open] change nothing but what is durable. *)
Lemma sync_file_quiet ino data d d' r :
  wf_dir d → d_nodes d !! ino = Some (synced_file data) → dir_io (dir_sync_file ino d) = (d', r) →
  quiet d d' ∧ ∀ name, entry name d' = entry name d.
Proof.
  intros Hw Hn (r' & Hc & _)%dir_io_inv. revert Hc. unfold dir_sync_file. destruct (turn d) as [d1 o] eqn:Et.
  pose proof (quiet_turn _ _ _ Hw Et) as Hq. apply turn_cases in Et as (x & y & ->). cbn [set_turn d_nodes]. rewrite Hn.
  cbn [synced_file f_bytes]. destruct o; intros [= <- <-]; [|by split..].
  change (RegularFile _) with (synced_file data). split; [|done].
  pose proof (insert_id _ _ _ Hn) as Hid. pose proof (wd_nodes d Hw _ _ Hn). destruct Hq as [[W1 W2 W3] X L N M].
  constructor; [constructor|..]; try assumption; cbn in *.
  - intros name i Hi. rewrite Hid. by eapply W2.
  - intros i node. rewrite Hid. intros Hi%W3. lia.
  - intros name i Hf Hi. by rewrite Hid.
Qed.

Lemma sync_identity_quiet i d d' r :
  wf_dir d → identity_is i d → sync_identity d = (d', r) →
  quiet d d' ∧ (is_ok r = true → d_linked d' = true ∧ ∀ name, history name d' = [entry name d]).
Proof.
  intros Hw Hid. unfold sync_identity.
  destruct (dir_io (dir_check d)) as [d1 [[]|e]] eqn:E1; pose proof (io_check_quiet _ _ _ Hw E1) as Hq1; [|intros [= <- <-]; by split].
  assert (∀ name, entry name d1 = entry name d) as He1.
  { apply dir_io_inv in E1 as (r' & E1 & _). unfold dir_check in E1. destruct (turn d) as [d2 o] eqn:Et.
    apply turn_cases in Et as (x & y & ->). by injection E1 as <- _. }
  destruct (quiet_identity_is i d d1 Hq1 Hid) as (ino & -> & _ & Hn). pose proof (q_wf _ _ Hq1) as Hw1.
  destruct (dir_io (dir_sync_file ino d1)) as [d2 [[]|e]] eqn:E2;
    pose proof (sync_file_quiet _ _ _ _ _ Hw1 Hn E2) as [Hq2 He2]; pose proof (quiet_trans _ _ _ Hw Hq1 Hq2) as Hq;
    [|intros [= <- <-]; by split].
  intros [Hq3 Hok]%chain_quiet; [|apply Hq]. split; [by eapply quiet_trans|]. intros Hr. destruct (Hok Hr) as [Hl Hh].
  split; [done|]. intros name. by rewrite Hh, He2, He1.
Qed.

(** After the barriers the incarnation may be returned. *)
Lemma store_opened_inv s t task l i d :
  store_inv s → sd_tasks s !! t = Some task → holds_lock task = true → task_lock task = l →
  identity_is i (sd_dir s) → quiet (sd_dir s) d → d_linked d = true →
  (∀ name, history name d = [entry name (sd_dir s)]) → store_inv (opened t l i (with_dir d s)).
Proof.
  intros Hi Ht Hh <- Hid Hq Hl Hhist. pose proof (quiet_store_inv _ _ Hi Hq) as Hi'. pose proof Hi' as [D T L].
  destruct (T t task Ht) as (X & Lo & _). pose proof (quiet_identity_is _ _ _ Hq Hid) as Hid'. cbn in *.
  assert (∀ j, j ∈ i :: sd_opened s → j = i) as Hsame.
  { intros j [->|Hj]%elem_of_cons; [done|]. destruct (di_opened _ _ D j Hj) as (_ & _ & Hj' & _). by eapply identity_is_unique. }
  set (s1 := {| sd_dir := d; sd_locks := sd_locks s; sd_tasks := sd_tasks s; sd_opened := i :: sd_opened s |}).
  assert (store_inv s1) as Hi1.
  { constructor; cbn; [|intros t2 x Hx|done].
    - destruct D as [W I O]. constructor; [done..|]. intros j Hj%Hsame. subst j. split_and!; try done.
      + by rewrite Hhist, (quiet_entry _ _ _ Hq).
      + exists (task_lock task). split; [|done]. rewrite Hhist, <-(quiet_entry _ _ _ Hq) by done. f_equal. apply Lo.
    - destruct (T t2 x Hx) as (X2 & L2 & T2). split_and!; try done. destruct x; try done. destruct T2 as [? ?]. split; [by right|done]. }
  apply (put_task_inv s1 t); [done| |cbn; by rewrite Ht].
  split; [done|]. split; [done|]. cbn. split; [by left|]. split; [|done]. split; [constructor|]. exists false, false, false. cbn. set_solver.
Qed.

Lemma with_dir_inv s d :
  store_inv s → dir_inv (sd_opened s) d → (∀ t task, sd_tasks s !! t = Some task → task_ok (sd_opened s) d task) →
  store_inv (with_dir d s).
Proof. intros [D T L] HD HT. by constructor. Qed.

Lemma nothing_opened opened d : dir_inv opened d → entry IDENTITY_FILE_NAME d = None → opened = [].
Proof.
  intros D He. destruct opened as [|i opened]; [done|]. destruct (di_opened _ _ D i) as (_ & _ & (ino & E & _) & _); [by left|congruence].
Qed.

Lemma publish_identity_cases i pid sequence d d' r :
  wf_dir d → publish_identity i pid sequence d = (d', r) →
  ∃ tmp, tmp ≠ LOCK_FILE_NAME ∧ publishing IDENTITY_FILE_NAME tmp (encode_identity i) d d' ∧
    (is_ok r = true → entry IDENTITY_FILE_NAME d' = Some (d_next d) ∧
       d_nodes d' !! d_next d = Some (synced_file (encode_identity i))).
Proof.
  intros Hw. unfold publish_identity. destruct (atomic_write _ _ _ _ _) as [[d1 seq'] r1] eqn:Ea.
  intros [= <- <-]. apply atomic_write_cases in Ea as (s & Hp & Hok); [|done].
  exists (temporary_name IDENTITY_FILE_NAME pid s). split_and!; [done..|]. intros Hr.
  destruct r1 as [[]|]; [|done]. destruct (Hok eq_refl) as [Hh Hn]. unfold entry. by rewrite Hh.
Qed.

(** The lock keeps every other handle out of the critical section, so only handles
    that wait for it see the identity appear. *)
Lemma store_publish_inv s t l i pid sequence d r :
  store_inv s → sd_tasks s !! t = Some (CreatePublish l) → wf_incarnation i →
  publish_identity i pid sequence (sd_dir s) = (d, r) →
  store_inv (match r with Ok _ => put_task t (CreateSync l i) (with_dir d s) | Err _ => close_task t (with_dir d s) end).
Proof.
  intros Hi Ht Hwi Hp. destruct (si_tasks s Hi _ _ Ht) as (X & Lo & Hnone). pose proof (si_dir s Hi) as D.
  pose proof (di_wf _ _ D) as Hw. apply publish_identity_cases in Hp as (tmp & Htmp & [W M O N E] & Hok); [|done].
  assert (∀ l', lock_open l' (sd_dir s) → lock_open l' d) as Hlo.
  { intros l' [El (f & Hf)]. split; [|exists f; by apply N].
    rewrite <-El. unfold entry. destruct (O LOCK_FILE_NAME) as [-> | ->]; done. }
  assert (sd_opened s = []) as Hop by by eapply nothing_opened.
  set (s0 := put_task t (CreateCheck l) s).
  assert (store_inv s0) as Hi0 by (apply put_task_inv; [done|by split_and!|by rewrite Ht]).
  assert (store_inv (with_dir d s0)) as Hi1.
  { apply with_dir_inv; [done|..]; cbn.
    - constructor; [done| |intros j; rewrite Hop; by intros ?%not_elem_of_nil].
      intros ino He. destruct (E _ He) as [Ho|[[= ->] Hf]]; [|by exists i].
      destruct (di_identity _ _ D ino Ho) as (j & Wj & Nj). exists j. split; [done|by apply N].
    - intros t2 x Hx. pose proof (si_tasks s0 Hi0 t2 x Hx) as (_ & L2 & _). cbn in L2.
      destruct M as [MX _]. split_and!; [congruence|by apply Hlo|]. apply lookup_insert_Some in Hx as [[<- <-]|[Hne Hx]]; [done|].
      destruct x; try done; exfalso; apply Hne; eapply (one_holder s); done. }
  destruct r as [[]|e].
  - replace (put_task t (CreateSync l i) (with_dir d s)) with (put_task t (CreateSync l i) (with_dir d s0)).
    2:{ unfold put_task, with_dir. cbn. by rewrite insert_insert_eq. }
    destruct (Hok eq_refl) as [He Hf]. apply put_task_inv; [done| |cbn; by rewrite lookup_insert_eq].
    destruct M as [MX _]. split_and!; [cbn; congruence|by apply Hlo|]. exists (d_next (sd_dir s)). by split.
  - replace (close_task t (with_dir d s)) with (close_task t (with_dir d s0)); [by apply close_task_inv|].
    unfold close_task, with_dir. cbn. by rewrite delete_insert_eq.
Qed.

Lemma generated_wf random i :
  (∀ bs, random = Some bs → length bs = 16%nat) → generate_incarnation random = Ok i → wf_incarnation i.
Proof.
  intros Hl. unfold generate_incarnation. destruct random as [bs|]; [|done].
  destruct (incarnation_from_bytes bs) as [x|] eqn:Ei; [|done]. intros [= <-].
  pose proof (incarnation_from_bytes_Some _ _ Ei) as ->. split; [by apply Hl|done].
Qed.

Lemma read_identity_is opened expected d d' i :
  dir_inv opened d → read_identity expected d = (d', Ok i) → quiet d d' ∧ identity_is i d'.
Proof.
  intros D Hr. pose proof (di_wf _ _ D) as Hw. apply read_identity_quiet in Hr as [Hq Hok]; [|done]. split; [done|].
  destruct (Hok i eq_refl) as (bs & Hb & Hd). pose proof (quiet_dir_inv _ _ _ D Hq) as D'.
  unfold read_name, stored in Hb. pose proof (entry_in IDENTITY_FILE_NAME d' (di_wf _ _ D')) as Hin.
  destruct (entry IDENTITY_FILE_NAME d') as [ino|] eqn:Ee; [|done]. cbn [mbind option_bind] in Hb.
  destruct (di_identity _ _ D' ino Hin) as (j & Hj & Hn). rewrite Hn in Hb. injection Hb as <-.
  assert (j = i) as ->. { pose proof (decode_encode_bound_header STORE_IDENTITY_MAGIC j eq_refl Hj) as E. unfold decode_identity, encode_identity in Hd. congruence. }
  exists ino. by split.
Qed.

(** A turn whose operation is quiet and that goes on to [task']. *)
Lemma quiet_turn_inv s t task task' d :
  store_inv s → sd_tasks s !! t = Some task → holds_lock task = true → holds_lock task' = true → task_lock task' = task_lock task →
  quiet (sd_dir s) d → (task_ok (sd_opened s) d task → task_ok (sd_opened s) d task') →
  store_inv (put_task t task' (with_dir d s)).
Proof.
  intros Hi Ht Hh Hh' Hl Hq Hok. pose proof (quiet_store_inv _ _ Hi Hq) as Hi'.
  apply put_task_inv; [done|apply Hok, (si_tasks _ Hi' t), Ht|]. cbn. rewrite Ht. by rewrite Hh, Hh', Hl.
Qed.

Lemma quiet_close_inv s t d : store_inv s → quiet (sd_dir s) d → store_inv (close_task t (with_dir d s)).
Proof. intros Hi Hq. by apply close_task_inv, quiet_store_inv. Qed.

Lemma store_turn_inv s t random pid sequence task :
  store_inv s → sd_tasks s !! t = Some task → (∀ bs, random = Some bs → length bs = 16%nat) →
  store_inv (store_turn t random pid sequence task s).
Proof.
  intros Hi Ht Hrand. pose proof (si_dir s Hi) as D. pose proof (di_wf _ _ D) as Hw.
  destruct (si_tasks s Hi t task Ht) as (_ & _ & Hok). destruct task as [l|l|l|l i|l e|l e|l i|l i c ls h]; cbn [store_turn].
  - by eapply acquire_turn_inv.
  - destruct (require_only_lock_file _) as [d [[]|er]] eqn:E; apply require_only_quiet in E as [Hq Hn]; try done.
    + eapply quiet_turn_inv; [done..|]. intros (X & L & _). split_and!; [done..|]. by apply Hn.
    + by apply quiet_close_inv.
  - destruct (generate_incarnation random) as [i|er] eqn:Eg; [|by apply quiet_close_inv, quiet_refl].
    apply generated_wf in Eg; [|done]. destruct (publish_identity i pid sequence _) as [d r] eqn:Ep.
    eapply store_publish_inv in Ep; [|done..]. by destruct r as [[]|].
  - destruct (dir_io (fsync_dir_chain _)) as [d [[]|er]] eqn:E; apply chain_quiet in E as [Hq Hd]; try done;
      [|by apply quiet_close_inv]. destruct (Hd eq_refl). by eapply store_opened_inv.
  - by eapply acquire_turn_inv.
  - destruct (read_identity _ _) as [d [i|er]] eqn:E.
    + apply (read_identity_is _ _ _ _ _ D) in E as [Hq Hid]. eapply quiet_turn_inv; [done..|]. intros (X & L & _). by split_and!.
    + apply read_identity_quiet in E as [Hq _]; [|done]. by apply quiet_close_inv.
  - destruct (sync_identity _) as [d [[]|er]] eqn:E; apply (sync_identity_quiet i) in E as [Hq Hd]; try done;
      [|by apply quiet_close_inv]. destruct (Hd eq_refl). by eapply store_opened_inv.
  - done.
Qed.

(** In a vacant directory there is no handle and no store. *)
Lemma prepared_inv s d : store_inv s → prepared (sd_dir s) d → store_inv (with_dir d s).
Proof.
  intros Hi Hp. pose proof (si_dir s Hi) as D. destruct (pr_quiet _ _ Hp) as [V|Hq]; [|by apply quiet_store_inv].
  assert (∀ l, d_exists (sd_dir s) = true → lock_open l (sd_dir s) → False) as Hno.
  { intros l X [L _]. destruct V; congruence. }
  apply with_dir_inv; [done|..].
  - constructor; [apply Hp|..].
    + intros ino Hin. destruct (di_identity _ _ D ino) as (i & Hw & Hn); [by apply Hp|]. exists i. split; [done|]. by rewrite (pr_nodes _ _ Hp).
    + intros i Hin. destruct (di_opened _ _ D i Hin) as (X & _ & _ & _ & l & _ & L). by destruct (Hno l).
  - intros t task Ht. destruct (si_tasks s Hi t task Ht) as (X & L & _). by destruct (Hno (task_lock task)).
Qed.

Lemma prepare_step_inv s t d task (r : result nat StoreError) :
  store_inv s → sd_tasks s !! t = None → prepared (sd_dir s) d →
  (∀ l, r = Ok l → d_exists d = true ∧ lock_open l d) →
  (∀ l, holds_lock (task l) = false ∧ task_lock (task l) = l ∧ (d_exists d = true ∧ lock_open l d → task_ok (sd_opened s) d (task l))) →
  store_inv (match r with Ok l => put_task t (task l) (with_dir d s) | Err _ => with_dir d s end).
Proof.
  intros Hi Ht Hp Hl Htask. pose proof (prepared_inv _ _ Hi Hp) as Hi'. destruct r as [l|e]; [|done].
  destruct (Htask l) as (Hh & Hlk & Hok). apply put_task_inv; [done|by apply Hok, Hl|]. cbn. by rewrite Ht.
Qed.

Lemma keep_owner_inv s t l i claimed leases handle claimed' leases' handle' :
  store_inv s → sd_tasks s !! t = Some (Owner l i claimed leases handle) →
  claim_inv (claimed', leases') → store_inv (keep_owner t l i claimed' leases' handle' s).
Proof.
  intros Hi Ht Hc. unfold keep_owner. destruct (negb handle' && _) eqn:E; [by apply close_task_inv|].
  destruct (si_tasks s Hi _ _ Ht) as (X & L & Hin & _ & _). apply put_task_inv; [done| |by rewrite Ht].
  split; [done|]. split; [done|]. split; [done|]. split; [done|]. intros -> ->. done.
Qed.

Lemma synced_file_crash data f : node_crash (synced_file data) f → f = synced_file data.
Proof.
  destruct f as [[bs n]|]; [|done]. intros (m & Hm & Hb & Hn). cbn in Hm, Hb, Hn. subst. unfold synced_file. by rewrite take_ge by lia.
Qed.

Lemma crash_dir_inv opened d d' : dir_inv opened d → dir_crash d d' → dir_inv opened d'.
Proof.
  intros [W I O] Hc. assert (∀ ino i, identity_file ino i d → identity_file ino i d') as Hkeep.
  { intros ino i [Hw Hn]. split; [done|]. pose proof (node_crash_get d d' ino Hc) as Hr. rewrite Hn in Hr.
    destruct (d_nodes d' !! ino) as [node|]; [|done]. by rewrite (synced_file_crash _ _ Hr). }
  constructor; [by eapply wf_dir_crash|..].
  - intros ino Hin. destruct (dc_exists d d' Hc) as [(_ & _ & Hh)|(_ & _ & Hh)].
    + destruct (Hh IDENTITY_FILE_NAME) as (e & He & E). rewrite E in Hin. apply list_elem_of_singleton in Hin as <-.
      destruct (I ino He) as [i Hi]. exists i. by apply Hkeep.
    + unfold history in Hin. rewrite Hh in Hin. by apply list_elem_of_singleton in Hin.
  - intros i Hin. destruct (O i Hin) as (X & L & (ino & He & Hf) & Hs & l & Hl & Elo & f & Hlf).
    destruct (dc_exists d d' Hc) as [(X' & _ & Hh)|(_ & Hx & _)]; [|by rewrite X, L in Hx].
    assert (∀ name, history name d = [entry name d] → history name d' = [entry name d]) as Hsing.
    { intros name E. destruct (Hh name) as (e & Hin' & ->). rewrite E in Hin'. by apply list_elem_of_singleton in Hin' as ->. }
    apply Hsing in Hs as Hs'. rewrite <-Elo in Hl. apply Hsing in Hl as Hl'. rewrite Elo in Hl'.
    split_and!; [done|by rewrite (dc_linked _ _ Hc), L, X'|exists ino; split; [unfold entry at 1; by rewrite Hs'|by apply Hkeep]|
      unfold entry at 1; by rewrite Hs'|].
    exists l. split; [done|]. split; [unfold entry; by rewrite Hl'|].
    pose proof (node_crash_get d d' l Hc) as Hr. rewrite Hlf in Hr. destruct (d_nodes d' !! l) as [[f'|]|]; [by exists f'|done..].
Qed.

Lemma components_quiet d d' : components_wrote d d' → quiet d d'.
Proof.
  intros [W (X & L & _) N M]. constructor; try done. congruence.
Qed.

Lemma store_step_inv unix path s s' : store_step unix path s s' → store_inv s → store_inv s'.
Proof.
  intros Hs Hi. pose proof (si_dir s Hi) as D. pose proof (di_wf _ _ D) as Hw.
  destruct Hs as [t d r Ht Hp|t e d r Ht Hp|t task random pid sq Ht Hr|t l i cl ls c nx Ht Hc|t l i cl ls ls' h c Ht Hp
    |t l i cl ls Ht|t l i cl ls h d Ht Hcw|t|d Hc].
  - apply create_prepare_prepared in Hp as [Hp Hl]; [|done]. apply (prepare_step_inv s t d CreateLock); try done. intros l. split_and!; [done..|]. by intros [? ?].
  - apply open_prepare_prepared in Hp as [Hp Hl]; [|done]. apply (prepare_step_inv s t d (λ l, OpenLock l e)); try done. intros l. split_and!; [done..|]. by intros [? ?].
  - by apply store_turn_inv.
  - destruct (si_tasks s Hi _ _ Ht) as (_ & _ & _ & Hci & _).
    apply (keep_owner_inv s t l i cl ls true nx (c :: ls) true) in Ht; [done..|].
    by eapply (claim_step_inv (cl, ls)); [apply step_cas|].
  - destruct (si_tasks s Hi _ _ Ht) as (_ & _ & _ & Hci & _). eapply keep_owner_inv; [done..|].
    by eapply (claim_step_inv (cl, ls)); [apply step_drop|].
  - destruct (si_tasks s Hi _ _ Ht) as (_ & _ & _ & Hci & _). by eapply keep_owner_inv.
  - apply quiet_store_inv; [done|by apply components_quiet].
  - by apply close_task_inv.
  - constructor; cbn; [by eapply crash_dir_inv|by intros t task ?%lookup_empty_Some|].
    intros l t. rewrite lookup_empty. split; [done|]. intros (x & Hx & _). by apply lookup_empty_Some in Hx.
Qed.

(** ** Opening while nothing fails *)
Definition calm (d : Dir) : Prop := d_dead d = false ∧ d_outcomes d = [].

Lemma turn_calm d : calm d → turn d = (d, Succeeds).
Proof. destruct d. intros [Hd Ho]. cbn in *. subst. done. Qed.

Lemma sync_ancestors_calm n d : calm d → sync_ancestors n d = (d, Ok tt).
Proof. intros Hc. induction n as [|n IH]; cbn; [done|]. unfold dir_check. rewrite turn_calm by done. cbn. exact IH. Qed.

Lemma open_prepare_calm d l : calm d → d_exists d = true → lock_open l d → open_prepare true d = (d, Ok l).
Proof.
  intros Hc X [El (f & Hf)].
  assert (dir_check d = (d, Ok tt)) as Hck by (unfold dir_check; by rewrite turn_calm).
  assert (canonical_directory d = (d, Ok tt)) as Hcd.
  { unfold canonical_directory, dir_probe. rewrite turn_calm, X by done. cbn [negb]. by rewrite Hck. }
  assert (dir_is_file LOCK_FILE_NAME d = (d, true)) as Hif.
  { unfold dir_is_file. rewrite turn_calm, El by done. cbn [mbind option_bind]. by rewrite Hf. }
  unfold open_prepare. cbn [require_supported_platform]. rewrite Hcd, Hif. cbn [negb]. unfold open_lock_file.
  rewrite Hck. unfold dir_io at 1. cbn [fst snd map_err]. rewrite El. cbn [mbind option_bind]. rewrite Hf.
  unfold dir_open_create. rewrite turn_calm by done. cbn [took_place negb]. by rewrite El.
Qed.

Lemma read_identity_calm d i expected :
  calm d → identity_is i d → expected = None ∨ expected = Some i → read_identity expected d = (d, Ok i).
Proof.
  intros Hc (ino & He & Hw & Hn) Hexp.
  assert (dir_is_file IDENTITY_FILE_NAME d = (d, true)) as Hif.
  { unfold dir_is_file. rewrite turn_calm, He by done. cbn [mbind option_bind]. by rewrite Hn. }
  assert (dir_read IDENTITY_FILE_NAME d = (d, Ok (encode_identity i))) as Hrd.
  { unfold dir_read, read_name, stored. rewrite turn_calm, He by done. cbn [mbind option_bind]. by rewrite Hn. }
  unfold read_identity. rewrite Hif, Hrd. cbn [negb dir_io fst snd map_err].
  unfold decode_identity, encode_identity. rewrite decode_encode_bound_header by done.
  destruct Hexp as [-> | ->]; [done|]. by rewrite bool_decide_eq_true_2.
Qed.

Lemma sync_identity_calm d i : calm d → identity_is i d → is_ok (sync_identity d).2 = true.
Proof.
  intros Hc (ino & He & Hw & Hn). assert (dir_check d = (d, Ok tt)) as Hck by (unfold dir_check; by rewrite turn_calm).
  unfold sync_identity. rewrite Hck. cbn [dir_io fst snd map_err]. rewrite He. unfold dir_sync_file.
  rewrite turn_calm, Hn by done. cbn [synced_file f_bytes dir_io fst snd map_err].
  set (d1 := set_node _ _ d). assert (calm d1) as Hc1 by done. unfold fsync_dir_chain, fsync_dir.
  rewrite turn_calm by done. set (d2 := set_entries _ d1). assert (calm d2) as Hc2 by done.
  by rewrite sync_ancestors_calm.
Qed.

Lemma store_open_calm s t i expected :
  store_inv s → i ∈ sd_opened s → calm (sd_dir s) → sd_locks s = ∅ → expected = None ∨ expected = Some i →
  ∃ l, sd_tasks (store_open true t expected s) !! t = Some (Owner l i 0 [] true).
Proof.
  intros Hi Hin Hc Hl He. destruct (di_opened _ _ (si_dir s Hi) i Hin) as (X & _ & Hid & _ & l & _ & Hlo). exists l.
  unfold store_open. rewrite (open_prepare_calm _ l) by done. set (s1 := put_task _ _ _).
  assert (store_turn t None 0 0 (OpenLock l expected) s1 =
    {| sd_dir := sd_dir s; sd_locks := <[l := t]> ∅; sd_tasks := <[t := OpenRead l expected]> (sd_tasks s1); sd_opened := sd_opened s |}) as E1.
  { cbn [store_turn]. unfold acquire_lock, s1. cbn [put_task with_dir sd_dir]. rewrite turn_calm by done.
    cbn [put_task with_dir sd_locks]. by rewrite Hl, lookup_empty. }
  cbn [store_turns]. replace (sd_tasks s1 !! t) with (Some (OpenLock l expected)) by (symmetry; apply lookup_insert_eq).
  rewrite E1. cbn [sd_tasks]. rewrite lookup_insert_eq. set (s2 := {| sd_dir := _ |}).
  assert (store_turn t None 0 0 (OpenRead l expected) s2 = put_task t (OpenSync l i) s2) as ->.
  { cbn [store_turn s2 sd_dir]. by rewrite (read_identity_calm _ i). }
  change (sd_tasks (put_task t (OpenSync l i) s2)) with (<[t := OpenSync l i]> (sd_tasks s2)).
  rewrite lookup_insert_eq. cbn [store_turn put_task sd_dir].
  pose proof (sync_identity_calm _ i Hc Hid) as Hs. cbn [s2 sd_dir]. destruct (sync_identity (sd_dir s)) as [d [[]|]]; [|done].
  cbn [opened with_dir sd_tasks]. by rewrite lookup_insert_eq.
Qed.

Lemma store_runs_inv unix path s s' : rtc (store_step unix path) s s' → store_inv s → store_inv s'.
Proof. induction 1; [done|]. intros Hi. apply IHrtc. by eapply store_step_inv. Qed.

Lemma store_start_inv d : wf_dir d → history IDENTITY_FILE_NAME d = [None] → store_inv (store_start d).
Proof.
  intros Hw Hn. constructor; cbn.
  - constructor; [done| |by intros i ?%not_elem_of_nil]. intros ino. rewrite Hn. by intros ?%list_elem_of_singleton.
  - by intros t task ?%lookup_empty_Some.
  - intros l t. rewrite lookup_empty. split; [done|]. intros (x & Hx & _). by apply lookup_empty_Some in Hx.
Qed.

(** C17. A store has one identity.  Let any number of handles, in any processes, create,
    open and drop the store in a directory that held none, with any failures of the
    file system and any crashes, also inside a publication.  Then all incarnations
    [create] and [open] ever return are the same one; and after one was returned, a
    later [open] that meets no failure and no other owner returns it again. *)
Theorem store_has_one_identity unix path d s :
  wf_dir d → history IDENTITY_FILE_NAME d = [None] → rtc (store_step unix path) (store_start d) s →
  (∀ i j, i ∈ sd_opened s → j ∈ sd_opened s → i = j) ∧
  (∀ i t expected, i ∈ sd_opened s → calm (sd_dir s) → sd_locks s = ∅ → expected = None ∨ expected = Some i →
     ∃ l, sd_tasks (store_open true t expected s) !! t = Some (Owner l i 0 [] true)).
Proof.
  intros Hw Hn Hr. pose proof (store_runs_inv _ _ _ _ Hr (store_start_inv d Hw Hn)) as Hi. split.
  - intros i j Hii Hj. destruct (di_opened _ _ (si_dir s Hi) i Hii) as (_ & _ & Di & _).
    destruct (di_opened _ _ (si_dir s Hi) j Hj) as (_ & _ & Dj & _). by eapply identity_is_unique.
  - intros i t e Hin Hc Hl He. by eapply store_open_calm.
Qed.

(** C31. A store has one owner.  In every such history at most one handle owns the
    directory, its lock is held while the handle or one of its leases lives, every
    other attempt at the lock is told that the store is busy, and no component of the
    owner is leased twice. *)
Theorem store_has_one_owner unix path d s t l i claimed leases handle :
  wf_dir d → history IDENTITY_FILE_NAME d = [None] → rtc (store_step unix path) (store_start d) s →
  sd_tasks s !! t = Some (Owner l i claimed leases handle) →
  sd_locks s !! l = Some t ∧ i ∈ sd_opened s ∧ (handle = true ∨ leases ≠ []) ∧ NoDup leases ∧
  (∀ t2 task, sd_tasks s !! t2 = Some task → t2 ≠ t →
     holds_lock task = false ∧ task_lock task = l ∧
     (calm (sd_dir s) → (acquire_lock t2 l s).2 = Err StoreBusy)).
Proof.
  intros Hw Hn Hr Ht. pose proof (store_runs_inv _ _ _ _ Hr (store_start_inv d Hw Hn)) as Hi.
  destruct (si_tasks s Hi _ _ Ht) as (_ & [El _] & Hin & [Hnd _] & Hh).
  assert (sd_locks s !! l = Some t) as Hl by (apply (si_locks s Hi); eauto). split_and!; try done.
  - destruct handle; [by left|right; by apply Hh].
  - intros t2 task Ht2 Hne. destruct (si_tasks s Hi _ _ Ht2) as (_ & [El2 _] & _). split_and!.
    + destruct (holds_lock task) eqn:E; [|done]. destruct Hne. by eapply one_holder.
    + cbn in El. congruence.
    + intros Hc. unfold acquire_lock. rewrite turn_calm by done. cbn. by rewrite Hl.
Qed.
End facts.

(** ** Examples *)
Section runs.
Context `{Crc32c} `{ReadDir}.

Lemma store_turns_run unix path n t random pid sequence : ∀ s,
  (∀ bs, random = Some bs → length bs = 16%nat) → rtc (store_step unix path) s (store_turns n t random pid sequence s).
Proof.
  induction n as [|n IH]; intros s Hr; cbn; [done|]. destruct (sd_tasks s !! t) as [task|] eqn:Ht; [|done].
  eapply rtc_l; [by eapply step_turn|by apply IH].
Qed.

Lemma store_create_run unix path t random pid sequence s :
  sd_tasks s !! t = None → (∀ bs, random = Some bs → length bs = 16%nat) →
  rtc (store_step unix path) s (store_create unix path t random pid sequence s).
Proof.
  intros Ht Hr. unfold store_create. destruct (create_prepare unix path (sd_dir s)) as [d r] eqn:E.
  eapply rtc_l; [by eapply step_create|]. destruct r as [l|e]; [by apply store_turns_run|done].
Qed.
End runs.

#[local] Existing Instance castagnoli_crc.
#[local] Instance sd_demo_order : ReadDir := λ names, names.
#[local] Instance sd_demo_order_laws : ReadDirLaws.
Proof. by intros names. Qed.

Definition sd_demo_dir (outcomes : list Outcome) : Dir :=
  {| d_exists := false; d_linked := false; d_depth := 2; d_entries := ∅; d_nodes := ∅; d_next := 0; d_dead := false;
     d_outcomes := outcomes |}.

Lemma sd_demo_wf outcomes : wf_dir (sd_demo_dir outcomes).
Proof.
  constructor; [done|..]; cbn.
  - intros name ino. by intros ?%list_elem_of_singleton.
  - by intros ino node ?%lookup_empty_Some.
Qed.

Definition sd_demo_incarnation : bytes := replicate 16 (u8 3).
Definition sd_demo_create (outcomes : list Outcome) : StoreSys :=
  store_create true "store" 1 (Some sd_demo_incarnation) 7 0 (store_start (sd_demo_dir outcomes)).
Definition sd_demo_restart (s : StoreSys) : StoreSys :=
  {| sd_dir := restart true [] (sd_dir s); sd_locks := ∅; sd_tasks := ∅; sd_opened := sd_opened s |}.

Lemma sd_demo_create_run outcomes : rtc (store_step true "store") (store_start (sd_demo_dir outcomes)) (sd_demo_create outcomes).
Proof. apply store_create_run; [done|]. by intros bs [= <-]. Qed.

Lemma sd_demo_run outcomes :
  d_exists (sd_dir (sd_demo_create outcomes)) = true →
  rtc (store_step true "store") (store_start (sd_demo_dir outcomes)) (sd_demo_restart (sd_demo_create outcomes)).
Proof.
  intros Hx. etrans; [apply sd_demo_create_run|]. apply rtc_once, step_crash, restart_crash; [|done].
  apply (store_runs_inv true "store" _ _ (sd_demo_create_run outcomes)), store_start_inv; [apply sd_demo_wf|done].
Qed.

Lemma store_has_one_identity_witness :
  sd_opened (sd_demo_restart (sd_demo_create [])) = [sd_demo_incarnation] ∧
  ∃ l, sd_tasks (store_open true 2 None (sd_demo_restart (sd_demo_create []))) !! 2%nat =
         Some (Owner l sd_demo_incarnation 0 [] true).
Proof.
  split; [vm_compute; reflexivity|].
  destruct (store_has_one_identity true "store" (sd_demo_dir []) (sd_demo_restart (sd_demo_create []))) as [_ Hopen].
  - apply sd_demo_wf.
  - reflexivity.
  - apply sd_demo_run. vm_compute. reflexivity.
  - apply Hopen; [vm_compute; by left|vm_compute; by split|reflexivity|by left].
Defined.

Lemma store_has_one_owner_witness :
  sd_locks (sd_demo_create []) !! 0%nat = Some 1%nat ∧ NoDup (@nil StoreComponent).
Proof.
  destruct (store_has_one_owner true "store" (sd_demo_dir []) (sd_demo_create []) 1 0 sd_demo_incarnation 0 [] true) as (Hl & _ & _ & Hnd & _).
  - apply sd_demo_wf.
  - reflexivity.
  - apply sd_demo_create_run.
  - vm_compute. reflexivity.
  - by split.
Defined.

(** A crash inside [create] can leave its temporary file behind.  From then on [create]
    refuses the directory for its foreign contents and [open] for its missing
    identity. *)
Theorem crashed_create_blocks_the_directory :
  ∃ s, rtc (store_step true "store") (store_start (sd_demo_dir (repeat Succeeds 11 ++ [CrashesAfter 0]))) s ∧
    calm (sd_dir s) ∧ sd_tasks s = ∅ ∧ sd_opened s = [] ∧
    (require_only_lock_file (sd_dir s)).2 = Err StoreNotEmpty ∧
    (read_identity None (sd_dir s)).2 = Err StoreMissingIdentity.
Proof.
  eexists. split; [apply sd_demo_run; vm_compute; reflexivity|]. by vm_compute.
Qed.
