(* ===== verification/Log.v ===== *)
(** * Transaction-log framing

    Models [crates/seerdb/src/vnext/log.rs]: the record types, the checksummed
    frame encoder, the fail-closed decoder, the prefix parser with its
    classification of the suffix, and the mutation digest.  The CRC-32C function
    is the third-party [crc32c] crate, a class parameter of which only the [u32]
    range of the result is assumed. *)
From S2P Require Import Prelude StdCollections Ids Crc.

Local Open Scope Z_scope.
Local Open Scope seer_scope.

Definition LOG_FORMAT_VERSION : Z := 2.
Definition HEADER_CHECKSUM_OFFSET : nat := 8.
Definition RECORD_HEADER_SIZE : nat := 12.
Definition RECORD_TRAILER_SIZE : nat := 4.
Definition MIN_RECORD_LENGTH : Z := 12.
Definition MUTATION_FIXED_PAYLOAD : nat := 29.

(** ** Records *)
Inductive LogParseStatus := Complete | Incomplete | Corrupt.

Inductive MutationKind := OrderedPut | OrderedDelete.

#[global] Instance MutationKind_eq_dec : EqDecision MutationKind.
Proof. solve_decision. Defined.

(** [kind as u8] *)
Definition kind_u8 (k : MutationKind) : Z :=
  match k with OrderedPut => 1 | OrderedDelete => 2 end.

Record LoggedMutation := {
  lm_txn_id : TxnId;
  lm_ordinal : Z;
  lm_object : StorageObjectId;
  lm_kind : MutationKind;
  lm_key : bytes;
  lm_value : bytes
}.

Definition ordered_put (txn_id : TxnId) (ordinal : Z) (object : StorageObjectId)
    (key value : bytes) : LoggedMutation :=
  {| lm_txn_id := txn_id; lm_ordinal := ordinal; lm_object := object;
     lm_kind := OrderedPut; lm_key := key; lm_value := value |}.

Definition ordered_delete (txn_id : TxnId) (ordinal : Z) (object : StorageObjectId)
    (key : bytes) : LoggedMutation :=
  {| lm_txn_id := txn_id; lm_ordinal := ordinal; lm_object := object;
     lm_kind := OrderedDelete; lm_key := key; lm_value := [] |}.

Record CommitDecision := {
  cd_txn_id : TxnId;
  cd_csn : CommitSeq;
  cd_mutation_count : Z;
  cd_mutation_digest : Z
}.

Inductive LogRecord :=
| Mutation (m : LoggedMutation)
| Commit (d : CommitDecision)
| Abort (txn : TxnId).

Record ParsedLogRecord := { pr_record : LogRecord; pr_end_offset : Z }.

Definition end_lsn (p : ParsedLogRecord) (segment base_offset : Z) : option Lsn :=
  offset ← checked_add base_offset (pr_end_offset p);
  from_wal_position segment offset.

Inductive LogEncodeError := RecordTooLarge.

(** ** Encoding *)
Definition encode_mutation_payload (m : LoggedMutation) : result bytes LogEncodeError :=
  let? key_len := ok_or (u32_try_from (len (lm_key m))) RecordTooLarge in
  let? value_len := ok_or (u32_try_from (len (lm_value m))) RecordTooLarge in
  if bool_decide (lm_kind m = OrderedDelete) && negb (value_len =? 0) then Err RecordTooLarge
  else
    let? capacity := ok_or
      (c ← checked_add (Z.of_nat MUTATION_FIXED_PAYLOAD) (len (lm_key m));
       checked_add c (len (lm_value m))) RecordTooLarge in
    Ok (u64_le (lm_txn_id m) ++ u32_le (lm_ordinal m) ++ u64_le (lm_object m)
        ++ [u8 (kind_u8 (lm_kind m))] ++ u32_le key_len ++ u32_le value_len
        ++ lm_key m ++ lm_value m).

Definition encode_commit_payload (d : CommitDecision) : bytes :=
  u64_le (cd_txn_id d) ++ u64_le (cd_csn d)
  ++ u32_le (cd_mutation_count d) ++ u32_le (cd_mutation_digest d).

Section codec.
Context `{Crc32c}.

(** [LogRecord::to_bytes] *)
Definition to_bytes (r : LogRecord) : result bytes LogEncodeError :=
  let? (kind, payload) :=
    match r with
    | Mutation m => let? p := encode_mutation_payload m in Ok (1, p)
    | Commit d => Ok (2, encode_commit_payload d)
    | Abort txn => Ok (3, u64_le txn)
    end in
  let? length := ok_or
    (v ← checked_add (Z.of_nat RECORD_HEADER_SIZE - 4) (len payload);
     checked_add v (Z.of_nat RECORD_TRAILER_SIZE)) RecordTooLarge in
  let? length_u32 := ok_or (u32_try_from length) RecordTooLarge in
  let? total := ok_or (checked_add 4 length) RecordTooLarge in
  let head := u32_le length_u32 ++ u16_le LOG_FORMAT_VERSION ++ [u8 kind] ++ [u8 0] in
  let body := head ++ u32_le (crc32c head) ++ payload in
  Ok (body ++ u32_le (crc32c body)).

(** The [canonical] buffer of [mutation_digest]. *)
Fixpoint digest_input (ms : list LoggedMutation) : result bytes LogEncodeError :=
  match ms with
  | [] => Ok []
  | m :: ms' =>
      let? payload := encode_mutation_payload m in
      let? rest := digest_input ms' in
      Ok (payload ++ rest)
  end.

Definition mutation_digest (ms : list LoggedMutation) : result Z LogEncodeError :=
  let? canonical := digest_input ms in
  Ok (crc32c canonical).

(** ** Decoding *)
Definition valid_record_header (header : bytes) : bool :=
  if negb (bool_decide (length header = RECORD_HEADER_SIZE)) then false
  else
    let version := le_combine (take 2 (drop 4 header)) in
    if negb (version =? LOG_FORMAT_VERSION) || negb (byte_at header 7 =? 0)
       || negb ((1 <=? byte_at header 6) && (byte_at header 6 <=? 3)) then false
    else bool_decide (read_u32 header HEADER_CHECKSUM_OFFSET =
                      Some (crc32c (take HEADER_CHECKSUM_OFFSET header))).

Definition decode_mutation_payload (payload : bytes) : option LoggedMutation :=
  if len payload <? Z.of_nat MUTATION_FIXED_PAYLOAD then None
  else
    txn_id ← read_u64 payload 0;
    ordinal ← read_u32 payload 8;
    object ← read_u64 payload 12;
    kind ← match byte_at payload 20 with
           | 1 => Some OrderedPut
           | 2 => Some OrderedDelete
           | _ => None
           end;
    key_len ← read_u32 payload 21;
    value_len ← read_u32 payload 25;
    if bool_decide (kind = OrderedDelete) && negb (value_len =? 0) then None
    else
      key_end ← checked_add (Z.of_nat MUTATION_FIXED_PAYLOAD) key_len;
      value_end ← checked_add key_end value_len;
      if negb (value_end =? len payload) then None
      else Some {| lm_txn_id := txn_id; lm_ordinal := ordinal; lm_object := object;
                   lm_kind := kind;
                   lm_key := take (Z.to_nat key_len) (drop MUTATION_FIXED_PAYLOAD payload);
                   lm_value := drop (Z.to_nat key_end) payload |}.

Definition decode_commit_payload (payload : bytes) : option CommitDecision :=
  if negb (bool_decide (length payload = 24%nat)) then None
  else
    txn ← read_u64 payload 0;
    csn ← read_u64 payload 8;
    count ← read_u32 payload 16;
    digest ← read_u32 payload 20;
    Some {| cd_txn_id := txn; cd_csn := csn;
            cd_mutation_count := count; cd_mutation_digest := digest |}.

Definition decode_complete_record (frame : bytes) : option LogRecord :=
  if bool_decide (length frame < RECORD_HEADER_SIZE + RECORD_TRAILER_SIZE)%nat
     || negb (valid_record_header (take RECORD_HEADER_SIZE frame)) then None
  else
    let length := le_combine (take 4 frame) in
    total ← checked_add 4 length;
    if (length <? MIN_RECORD_LENGTH) || negb (len frame =? total) then None
    else
      let payload_end := (List.length frame - RECORD_TRAILER_SIZE)%nat in
      let stored_checksum := le_combine (drop payload_end frame) in
      if negb (stored_checksum =? crc32c (take payload_end frame)) then None
      else
        let payload := drop RECORD_HEADER_SIZE (take payload_end frame) in
        match byte_at frame 6 with
        | 1 => Mutation <$> decode_mutation_payload payload
        | 2 => Commit <$> decode_commit_payload payload
        | 3 => txn ← read_u64 payload 0;
               if bool_decide (List.length payload = 8%nat) then Some (Abort txn) else None
        | _ => None
        end.

(** ** Parsing a prefix

    The loop of [parse_log_prefix_frames]; [rest] is [&bytes[offset..]].  Every
    round consumes at least sixteen bytes, so [length bytes + 1] rounds are
    enough ([parse_loop_fuel]). *)
Fixpoint parse_loop (fuel : nat) (rest : bytes) (offset : Z)
    (records : list ParsedLogRecord) : list ParsedLogRecord * LogParseStatus :=
  match fuel with
  | O => (records, Corrupt)
  | S fuel' =>
      if len rest =? 0 then (records, Complete)
      else if len rest <? Z.of_nat RECORD_HEADER_SIZE then (records, Incomplete)
      else
        let header := take RECORD_HEADER_SIZE rest in
        if negb (valid_record_header header) then (records, Corrupt)
        else
          let length := le_combine (take 4 header) in
          if length <? MIN_RECORD_LENGTH then (records, Corrupt)
          else
            match checked_add 4 length with
            | None => (records, Corrupt)
            | Some total =>
                if len rest <? total then (records, Incomplete)
                else
                  match checked_add offset total with
                  | None => (records, Corrupt)
                  | Some stop =>
                      match decode_complete_record (take (Z.to_nat total) rest) with
                      | None => (records, Corrupt)
                      | Some record =>
                          parse_loop fuel' (drop (Z.to_nat total) rest) stop
                            (records ++ [{| pr_record := record; pr_end_offset := stop |}])
                      end
                  end
            end
  end.

Definition parse_log_prefix_frames (bs : bytes) : list ParsedLogRecord * LogParseStatus :=
  parse_loop (S (length bs)) bs 0 [].

Definition parse_log_prefix (bs : bytes) : list LogRecord * LogParseStatus :=
  let '(frames, status) := parse_log_prefix_frames bs in (pr_record <$> frames, status).
End codec.

(** ** Well-formed records: every field is in the range of its Rust type *)
Definition wf_mutation (m : LoggedMutation) : Prop :=
  is_u64 (lm_txn_id m) ∧ is_u32 (lm_ordinal m) ∧ is_u64 (lm_object m).

Definition wf_decision (d : CommitDecision) : Prop :=
  is_u64 (cd_txn_id d) ∧ is_u64 (cd_csn d) ∧
  is_u32 (cd_mutation_count d) ∧ is_u32 (cd_mutation_digest d).

Definition wf_record (r : LogRecord) : Prop :=
  match r with
  | Mutation m => wf_mutation m
  | Commit d => wf_decision d
  | Abort txn => is_u64 txn
  end.

(** A Rust slice holds at most [isize::MAX] bytes. *)
Definition slice_bound (bs : bytes) : Prop := len bs < 2 ^ 63.

(** ** Payload codecs *)
Ltac log_lia :=
  unfold U64_MAX, U32_MAX, MIN_RECORD_LENGTH, MUTATION_FIXED_PAYLOAD, RECORD_HEADER_SIZE,
    RECORD_TRAILER_SIZE, is_u32, is_u64, slice_bound in *; lia.

Lemma encode_mutation_payload_Ok m p :
  encode_mutation_payload m = Ok p ↔
  len (lm_key m) ≤ U32_MAX ∧ len (lm_value m) ≤ U32_MAX ∧
  (lm_kind m = OrderedDelete → lm_value m = []) ∧
  p = u64_le (lm_txn_id m) ++ u32_le (lm_ordinal m) ++ u64_le (lm_object m)
      ++ [u8 (kind_u8 (lm_kind m))] ++ u32_le (len (lm_key m)) ++ u32_le (len (lm_value m))
      ++ lm_key m ++ lm_value m.
Proof.
  unfold encode_mutation_payload, ok_or.
  destruct (u32_try_from (len (lm_key m))) as [kl|] eqn:Ek.
  2:{ split; [done|]. intros (?&_). unfold u32_try_from in Ek.
      destruct (_ <=? _) eqn:E in Ek; [done|]. bool_to_prop; lia. }
  destruct (u32_try_from (len (lm_value m))) as [vl|] eqn:Ev.
  2:{ split; [done|]. intros (?&?&_). unfold u32_try_from in Ev.
      destruct (_ <=? _) eqn:E in Ev; [done|]. bool_to_prop; lia. }
  apply u32_try_from_Some in Ek as [-> ?], Ev as [-> ?].
  assert (len (lm_value m) = 0 ↔ lm_value m = []) as Hnil.
  { unfold len. destruct (lm_value m); cbn; [done|]. split; [lia|done]. }
  destruct (bool_decide (lm_kind m = OrderedDelete) && negb (len (lm_value m) =? 0))%bool eqn:Ed.
  { bool_to_prop. split; [done|]. intros (_&_&Hd&_). exfalso.
    match goal with H : len _ ≠ 0 |- _ => apply H, Hnil, Hd end. done. }
  pose proof (len_nonneg (lm_key m)). pose proof (len_nonneg (lm_value m)).
  replace (checked_add _ _) with (Some (29 + len (lm_key m)))
    by (symmetry; apply checked_add_Some; log_lia).
  cbn. replace (checked_add _ _) with (Some (29 + len (lm_key m) + len (lm_value m)))
    by (symmetry; apply checked_add_Some; log_lia).
  apply andb_false_iff in Ed.
  split; [intros [= <-]; repeat split; auto|by intros (_&_&_&->)].
  intros Hk. destruct Ed; bool_to_prop; [done|]. by apply Hnil.
Qed.

Lemma len_u32 {A} (l : list A) : len l ≤ U32_MAX → is_u32 (len l).
Proof. pose proof (len_nonneg l). unfold is_u32, U32_MAX. lia. Qed.

Lemma decode_mutation_payload_roundtrip m p :
  wf_mutation m → encode_mutation_payload m = Ok p → decode_mutation_payload p = Some m.
Proof.
  intros (Ht & Ho & Hb) (Hk & Hv & Hdel & ->)%encode_mutation_payload_Ok.
  pose proof (len_u32 _ Hk) as Hku. pose proof (len_u32 _ Hv) as Hvu.
  pose proof (len_nonneg (lm_key m)). pose proof (len_nonneg (lm_value m)).
  unfold decode_mutation_payload.
  set (p := u64_le _ ++ _).
  assert (len p = 29 + len (lm_key m) + len (lm_value m)) as Hlen.
  { unfold p, len. autorewrite with seer. cbn. lia. }
  destruct (len p <? _) eqn:E; bool_to_prop; [log_lia|].
  assert (read_u64 p 0 = Some (lm_txn_id m)) as -> by (unfold p; read_field; done). cbn [mbind option_bind].
  assert (read_u32 p 8 = Some (lm_ordinal m)) as -> by (unfold p; read_field; done). cbn [mbind option_bind].
  assert (read_u64 p 12 = Some (lm_object m)) as -> by (unfold p; read_field; done). cbn [mbind option_bind].
  assert (byte_at p 20 = kind_u8 (lm_kind m)) as ->.
  { unfold p. rewrite (byte_at_skip _ _ _ _ (length_u64_le _)) by lia.
    rewrite (byte_at_skip _ _ _ _ (length_u32_le _)) by lia.
    rewrite (byte_at_skip _ _ _ _ (length_u64_le _)) by lia. change (20 - 8 - 4 - 8)%nat with 0%nat. cbn [app].
    rewrite byte_at_here. by destruct (lm_kind m). }
  assert (read_u32 p 21 = Some (len (lm_key m))) as -> by (unfold p; read_field; done).
  assert (read_u32 p 25 = Some (len (lm_value m))) as -> by (unfold p; read_field; done).
  assert (match kind_u8 (lm_kind m) with 1 => Some OrderedPut | 2 => Some OrderedDelete | _ => None end
    = Some (lm_kind m)) as -> by (by destruct (lm_kind m)).
  cbn [mbind option_bind].
  destruct (bool_decide (lm_kind m = OrderedDelete) && negb (len (lm_value m) =? 0))%bool eqn:Ed.
  { bool_to_prop. exfalso. match goal with H : len _ ≠ 0 |- _ => apply H end.
    by rewrite Hdel. }
  replace (checked_add _ (len (lm_key m))) with (Some (29 + len (lm_key m)))
    by (symmetry; apply checked_add_Some; log_lia).
  cbn [mbind option_bind].
  replace (checked_add _ _) with (Some (29 + len (lm_key m) + len (lm_value m)))
    by (symmetry; apply checked_add_Some; log_lia).
  cbn [mbind option_bind]. rewrite Hlen, Z.eqb_refl. cbn [negb].
  assert (∃ h, length h = 29%nat ∧ p = h ++ lm_key m ++ lm_value m) as (h & Hh & ->).
  { exists (u64_le (lm_txn_id m) ++ u32_le (lm_ordinal m) ++ u64_le (lm_object m)
      ++ [u8 (kind_u8 (lm_kind m))] ++ u32_le (len (lm_key m)) ++ u32_le (len (lm_value m))).
    split; [autorewrite with seer; done|]. unfold p. by rewrite <-!app_assoc. }
  unfold MUTATION_FIXED_PAYLOAD, len.
  rewrite drop_app_length' by done. rewrite Nat2Z.id, take_app_length.
  replace (Z.to_nat _) with (length (h ++ lm_key m)) by (rewrite length_app; lia).
  rewrite app_assoc, drop_app_length. by destruct m.
Qed.

Lemma decode_commit_payload_roundtrip d :
  wf_decision d → decode_commit_payload (encode_commit_payload d) = Some d.
Proof.
  intros (Ht & Hc & Hn & Hg). unfold decode_commit_payload, encode_commit_payload.
  set (p := u64_le _ ++ _).
  assert (length p = 24%nat) as -> by (unfold p; autorewrite with seer; done). cbn [bool_decide negb].
  assert (read_u64 p 0 = Some (cd_txn_id d)) as -> by (unfold p; read_field; done).
  assert (read_u64 p 8 = Some (cd_csn d)) as -> by (unfold p; read_field; done).
  assert (read_u32 p 16 = Some (cd_mutation_count d)) as -> by (unfold p; read_field; done).
  assert (read_u32 p 20 = Some (cd_mutation_digest d)) as -> by (unfold p; read_field; done).
  by destruct d.
Qed.

Lemma option_bind_Some {A B} (f : A → option B) (o : option A) b :
  o ≫= f = Some b → ∃ a, o = Some a ∧ f a = Some b.
Proof. destruct o; cbn; naive_solver. Qed.

(** Inverts the chain of field reads of a decoder. *)
Ltac invert_reads :=
  repeat match goal with
  | H : (_ ≫= _) = Some _ |- _ => apply option_bind_Some in H as (? & ? & H)
  | H : read_u32 _ _ = Some _ |- _ => apply read_u32_Some in H as (? & H & ->)
  | H : read_u64 _ _ = Some _ |- _ => apply read_u64_Some in H as (? & H & ->)
  | H : _ <$> _ = Some _ |- _ => apply fmap_Some in H as (? & H & ->)
  | H : checked_add _ _ = Some _ |- _ => apply checked_add_Some in H as [-> ?]
  end.

Lemma le_reads_u32 bs o x : slice bs o 4 = Some x → is_u32 (le_combine x) ∧ u32_le (le_combine x) = x.
Proof. intros ?%slice_length. split; [by apply le_combine_u32|by apply u32_le_combine]. Qed.

Lemma le_reads_u64 bs o x : slice bs o 8 = Some x → is_u64 (le_combine x) ∧ u64_le (le_combine x) = x.
Proof. intros ?%slice_length. split; [by apply le_combine_u64|by apply u64_le_combine]. Qed.

Lemma decode_mutation_payload_sound p m :
  decode_mutation_payload p = Some m → encode_mutation_payload m = Ok p ∧ wf_mutation m.
Proof.
  unfold decode_mutation_payload. destruct (len p <? _) eqn:Hlen; [done|]. intros Hd. invert_reads.
  bool_to_prop.
  match goal with
  | H0 : slice p 0 8 = Some ?t, H1 : slice p 8 4 = Some ?o, H2 : slice p 12 8 = Some ?b,
    H3 : slice p 21 4 = Some ?kl, H4 : slice p 25 4 = Some ?vl, HK : _ = Some ?k |- _ =>
      match type of HK with (match byte_at _ _ with _ => _ end) = _ =>
        rename H0 into Ht, H1 into Ho, H2 into Hb, H3 into Hkl, H4 into Hvl, HK into Hk;
        rename t into xt, o into xo, b into xb, kl into xkl, vl into xvl, k into xk
      end
  end.
  destruct (bool_decide (xk = OrderedDelete) && negb (le_combine xvl =? 0))%bool eqn:Hdel; [done|].
  invert_reads.
  destruct (negb (_ =? len p)) eqn:Hend; [done|]. bool_to_prop. simplify_eq.
  destruct (le_reads_u64 _ _ _ Ht) as [? Et], (le_reads_u32 _ _ _ Ho) as [? Eo],
    (le_reads_u64 _ _ _ Hb) as [? Eb], (le_reads_u32 _ _ _ Hkl) as [? Ekl],
    (le_reads_u32 _ _ _ Hvl) as [? Evl].
  assert (Z.of_nat MUTATION_FIXED_PAYLOAD = 29) as E29 by done. rewrite E29 in *.
  assert (len (take (Z.to_nat (le_combine xkl)) (drop MUTATION_FIXED_PAYLOAD p)) = le_combine xkl) as Hkey.
  { unfold len in *. rewrite length_take, length_drop. log_lia. }
  assert (len (drop (Z.to_nat (29 + le_combine xkl)) p) = le_combine xvl) as Hval.
  { unfold len in *. rewrite length_drop. log_lia. }
  split; [|done].
  apply encode_mutation_payload_Ok.
  cbn [lm_txn_id lm_ordinal lm_object lm_kind lm_key lm_value]. rewrite Hkey, Hval.
  split_and!; [log_lia|log_lia| |].
  { intros ->. rewrite bool_decide_eq_true_2 in Hdel by done.
    cbn [andb] in Hdel. bool_to_prop.
    destruct (drop (Z.to_nat (29 + le_combine xkl)) p) eqn:E; [done|].
    unfold len in Hval. rewrite length_cons in Hval. lia. }
  rewrite Et, Eo, Eb, Ekl, Evl.
  replace (drop (Z.to_nat _) p) with
    (drop (Z.to_nat (le_combine xkl)) (drop MUTATION_FIXED_PAYLOAD p))
    by (rewrite drop_drop; f_equal; log_lia).
  rewrite take_drop.
  assert (∃ b, p !! 20%nat = Some b) as [b Hb20].
  { apply lookup_lt_is_Some. unfold len in Hlen. lia. }
  assert (u8 (kind_u8 xk) = b) as ->.
  { rewrite <-(u8_byte_at p 20 b Hb20). f_equal. revert Hk.
    destruct (byte_at p 20) as [|[?|[?|?|]|]|]; intros [= <-]; done. }
  rewrite <-(drop_0 p) at 1.
  rewrite (slice_drop _ _ _ _ 8 Ht eq_refl), (slice_drop _ _ _ _ 12 Ho eq_refl),
    (slice_drop _ _ _ _ 20 Hb eq_refl), (drop_S p b 20 Hb20),
    (slice_drop _ _ _ _ 25 Hkl eq_refl), (slice_drop _ _ _ _ 29 Hvl eq_refl).
  done.
Qed.

Lemma decode_commit_payload_sound p d :
  decode_commit_payload p = Some d → p = encode_commit_payload d ∧ wf_decision d.
Proof.
  unfold decode_commit_payload. destruct (negb _) eqn:Hlen; [done|]. intros Hd. invert_reads.
  bool_to_prop. simplify_eq.
  match goal with
  | H0 : slice p 0 8 = Some ?t, H1 : slice p 8 8 = Some ?c, H2 : slice p 16 4 = Some ?n,
    H3 : slice p 20 4 = Some ?g |- _ =>
      destruct (le_reads_u64 _ _ _ H0) as [? Et], (le_reads_u64 _ _ _ H1) as [? Ec],
        (le_reads_u32 _ _ _ H2) as [? En], (le_reads_u32 _ _ _ H3) as [? Eg];
      split; [|done]; unfold encode_commit_payload; cbn; rewrite Et, Ec, En, Eg;
      rewrite <-(drop_0 p) at 1;
      rewrite (slice_drop _ _ _ _ 8 H0 eq_refl), (slice_drop _ _ _ _ 16 H1 eq_refl),
        (slice_drop _ _ _ _ 20 H2 eq_refl), (slice_drop _ _ _ _ 24 H3 eq_refl)
  end.
  rewrite (drop_ge p 24) by lia. by rewrite app_nil_r.
Qed.

(** ** Frames

    The shape of an encoded record, and the two directions between it and the
    decoder. *)
Section frames.
Context `{Crc32c}.

Definition header_of (length kind : Z) : bytes :=
  let head := u32_le length ++ u16_le LOG_FORMAT_VERSION ++ [u8 kind] ++ [u8 0] in
  head ++ u32_le (crc32c head).

Definition frame_of (kind : Z) (payload : bytes) : bytes :=
  let body := header_of (12 + len payload) kind ++ payload in
  body ++ u32_le (crc32c body).

Definition decode_kind (kind : Z) (payload : bytes) : option LogRecord :=
  match kind with
  | 1 => Mutation <$> decode_mutation_payload payload
  | 2 => Commit <$> decode_commit_payload payload
  | 3 => txn ← read_u64 payload 0;
         if bool_decide (List.length payload = 8%nat) then Some (Abort txn) else None
  | _ => None
  end.

Lemma length_header_of n k : length (header_of n k) = RECORD_HEADER_SIZE.
Proof. unfold header_of. autorewrite with seer. done. Qed.

Lemma len_frame_of k p : len (frame_of k p) = 16 + len p.
Proof.
  unfold frame_of, len. rewrite !length_app, length_header_of, length_u32_le. cbn. lia.
Qed.

Lemma header_of_length n k : is_u32 n → le_combine (take 4 (header_of n k)) = n.
Proof.
  intros Hn. unfold header_of. rewrite <-!app_assoc, take_app_length' by (by rewrite length_u32_le).
  by apply le_u32_roundtrip.
Qed.

Lemma header_of_kind n k : 1 ≤ k ≤ 3 → byte_at (header_of n k) 6 = k.
Proof.
  intros Hk. unfold header_of. rewrite <-!app_assoc.
  rewrite (byte_at_skip _ _ _ _ (length_u32_le _)) by lia.
  rewrite (byte_at_skip _ _ _ _ (length_u16_le _)) by lia.
  change (6 - 4 - 2)%nat with 0%nat. cbn [app]. rewrite byte_at_here. apply unsigned_u8. lia.
Qed.

Lemma valid_header_of n k : 1 ≤ k ≤ 3 → valid_record_header (header_of n k) = true.
Proof.
  intros Hk. unfold valid_record_header.
  rewrite bool_decide_eq_true_2 by apply length_header_of. cbn [negb].
  rewrite header_of_kind by done.
  assert (le_combine (take 2 (drop 4 (header_of n k))) = LOG_FORMAT_VERSION) as ->.
  { unfold header_of. rewrite <-!app_assoc, drop_app_length' by (by rewrite length_u32_le).
    rewrite take_app_length' by (by rewrite length_u16_le). by apply le_combine_le_split. }
  assert (byte_at (header_of n k) 7 = 0) as ->.
  { unfold header_of. rewrite <-!app_assoc.
    rewrite (byte_at_skip _ _ _ _ (length_u32_le _)) by lia.
    rewrite (byte_at_skip _ _ _ _ (length_u16_le _)) by lia.
    change (7 - 4 - 2)%nat with 1%nat. done. }
  replace ((1 <=? k) && (k <=? 3))%bool with true by (symmetry; apply andb_true_intro; lia).
  cbn. apply bool_decide_eq_true_2. unfold header_of.
  rewrite (take_app_length' (_ ++ _)) by (autorewrite with seer; done).
  unfold read_u32. rewrite (slice_app_skip _ _ _ _ 8) by (autorewrite with seer; done || lia).
  rewrite slice_all by (rewrite ?length_u32_le; done). cbn.
  f_equal. apply le_u32_roundtrip, crc32c_u32.
Qed.

Lemma valid_header_inv h :
  valid_record_header h = true →
  ∃ n k, is_u32 n ∧ 1 ≤ k ≤ 3 ∧ h = header_of n k.
Proof.
  unfold valid_record_header. destruct (negb _) eqn:Hlen; [done|].
  destruct (_ || _)%bool eqn:Hf; [done|]. intros Hcrc. bool_to_prop.
  apply read_u32_Some in Hcrc as (c & Hc & Ec).
  unfold RECORD_HEADER_SIZE, HEADER_CHECKSUM_OFFSET in *.
  exists (le_combine (take 4 h)), (byte_at h 6).
  assert (length (take 4 h) = 4%nat) as H4 by (rewrite length_take; lia).
  split; [by apply le_combine_u32|]. split; [lia|].
  unfold header_of. rewrite u32_le_combine by done.
  assert (∃ b6 b7, h !! 6%nat = Some b6 ∧ h !! 7%nat = Some b7) as (b6 & b7 & H6 & H7).
  { destruct (lookup_lt_is_Some_2 h 6), (lookup_lt_is_Some_2 h 7); [lia..|]. eauto. }
  rewrite (u8_byte_at _ _ _ H6).
  assert (u8 0 = b7) as -> by (rewrite <-(u8_byte_at _ _ _ H7); f_equal; lia).
  assert (u16_le LOG_FORMAT_VERSION = take 2 (drop 4 h)) as ->.
  { match goal with H : le_combine (take 2 (drop 4 h)) = _ |- _ => rewrite <-H end.
    apply split_le_combine'. rewrite length_take, length_drop; lia. }
  assert (take 4 h ++ take 2 (drop 4 h) ++ [b6] ++ [b7] = take 8 h) as Ehead.
  { rewrite <-(take_drop 4 (take 8 h)), take_take, skipn_firstn_comm. f_equal.
    change (8 - 4)%nat with 4%nat. rewrite <-(take_drop 2 (take 4 (drop 4 h))), take_take.
    f_equal. rewrite skipn_firstn_comm, drop_drop. change (4 + 2)%nat with 6%nat.
    rewrite (drop_S h b6 6 H6), (drop_S h b7 7 H7). done. }
  rewrite Ehead. rewrite Ec. pose proof (slice_length _ _ _ _ Hc).
  rewrite u32_le_combine by done.
  pose proof (slice_drop _ _ _ _ 12 Hc eq_refl) as Hd.
  rewrite (drop_ge h 12) in Hd by lia. rewrite app_nil_r in Hd.
  rewrite <-Hd. by rewrite take_drop.
Qed.

Lemma to_bytes_Ok r bs :
  to_bytes r = Ok bs ↔
  ∃ k p, 12 + len p ≤ U32_MAX ∧ bs = frame_of k p ∧
    match r with
    | Mutation m => k = 1 ∧ encode_mutation_payload m = Ok p
    | Commit d => k = 2 ∧ p = encode_commit_payload d
    | Abort txn => k = 3 ∧ p = u64_le txn
    end.
Proof.
  assert (∀ k p, (let? length := ok_or
    (v ← checked_add (Z.of_nat RECORD_HEADER_SIZE - 4) (len p);
     checked_add v (Z.of_nat RECORD_TRAILER_SIZE)) RecordTooLarge in
    let? length_u32 := ok_or (u32_try_from length) RecordTooLarge in
    let? total := ok_or (checked_add 4 length) RecordTooLarge in
    let head := u32_le length_u32 ++ u16_le LOG_FORMAT_VERSION ++ [u8 k] ++ [u8 0] in
    let body := head ++ u32_le (crc32c head) ++ p in
    Ok (body ++ u32_le (crc32c body))) = Ok bs ↔ 12 + len p ≤ U32_MAX ∧ bs = frame_of k p) as Hgen.
  { intros k p. pose proof (len_nonneg p).
    assert ((v ← checked_add (Z.of_nat RECORD_HEADER_SIZE - 4) (len p);
       checked_add v (Z.of_nat RECORD_TRAILER_SIZE)) =
       if 12 + len p <=? U64_MAX then Some (12 + len p) else None) as ->.
    { unfold checked_add. repeat case_match; bool_to_prop; cbn in *; simplify_eq; try log_lia;
        try (f_equal; log_lia).
      all: repeat case_match; bool_to_prop; simplify_eq; try log_lia; f_equal; log_lia. }
    destruct (12 + len p <=? U64_MAX) eqn:E; bool_to_prop; cbn [ok_or].
    2:{ split; [done|]. log_lia. }
    unfold u32_try_from. destruct (12 + len p <=? U32_MAX) eqn:E'; bool_to_prop; cbn [ok_or].
    2:{ split; [done|]. log_lia. }
    replace (checked_add 4 (12 + len p)) with (Some (4 + (12 + len p)))
      by (symmetry; apply checked_add_Some; log_lia). cbn [ok_or].
    unfold frame_of, header_of. rewrite <-!app_assoc. cbn [app].
    split; [intros [= <-]|intros [_ ->]]; done. }
  unfold to_bytes. destruct r as [m|d|txn].
  - destruct (encode_mutation_payload m) as [p|e] eqn:Ep.
    + rewrite Hgen. split; [intros []; eauto 10|]. intros (k & p' & ? & -> & -> & [= <-]). done.
    + split; [done|]. intros (k & p' & ? & -> & -> & [=]).
  - rewrite Hgen. split; [intros []; eauto 10|]. intros (k & p' & ? & -> & -> & ->). done.
  - rewrite Hgen. split; [intros []; eauto 10|]. intros (k & p' & ? & -> & -> & ->). done.
Qed.

Lemma take_header k p : take RECORD_HEADER_SIZE (frame_of k p) = header_of (12 + len p) k.
Proof.
  unfold frame_of. rewrite <-app_assoc. apply take_app_length'. by rewrite length_header_of.
Qed.

Lemma decode_frame k p :
  1 ≤ k ≤ 3 → 12 + len p ≤ U32_MAX →
  decode_complete_record (frame_of k p) = decode_kind k p.
Proof.
  intros Hk Hp. pose proof (len_nonneg p). pose proof (len_frame_of k p) as Hlen.
  assert (is_u32 (12 + len p)) by log_lia.
  unfold decode_complete_record. rewrite take_header, valid_header_of by done.
  rewrite bool_decide_eq_false_2 by (unfold len in Hlen; log_lia). cbn [orb negb].
  assert (take 4 (frame_of k p) = take 4 (header_of (12 + len p) k)) as ->.
  { rewrite <-take_header, take_take. done. }
  rewrite header_of_length by done.
  replace (checked_add 4 (12 + len p)) with (Some (16 + len p))
    by (symmetry; apply checked_add_Some; log_lia).
  cbn [mbind option_bind].
  rewrite Hlen, Z.eqb_refl. destruct (_ <? MIN_RECORD_LENGTH) eqn:E; bool_to_prop; [log_lia|].
  cbn [orb negb].
  set (body := header_of (12 + len p) k ++ p).
  assert (frame_of k p = body ++ u32_le (crc32c body)) as -> by done.
  replace (length (body ++ u32_le (crc32c body)) - RECORD_TRAILER_SIZE)%nat with (length body)
    by (rewrite length_app, length_u32_le; log_lia).
  rewrite drop_app_length, take_app_length, le_u32_roundtrip by apply crc32c_u32.
  rewrite Z.eqb_refl. cbn [negb].
  assert (byte_at (body ++ u32_le (crc32c body)) 6 = k) as ->.
  { unfold body, byte_at. rewrite <-app_assoc, lookup_app_l by (rewrite length_header_of; log_lia).
    by apply (header_of_kind (12 + len p)). }
  unfold body. rewrite drop_app_length' by (by rewrite length_header_of). done.
Qed.

Lemma decode_frame_inv f r :
  decode_complete_record f = Some r →
  ∃ k p, 1 ≤ k ≤ 3 ∧ 12 + len p ≤ U32_MAX ∧ f = frame_of k p ∧ decode_kind k p = Some r.
Proof.
  unfold decode_complete_record. destruct (_ || _)%bool eqn:Hhead; [done|]. bool_to_prop.
  destruct (valid_header_inv (take RECORD_HEADER_SIZE f)) as (n & k & Hn & Hk & Eh); [done|].
  assert (le_combine (take 4 f) = n) as En.
  { rewrite <-(header_of_length n k Hn), <-Eh, take_take. done. }
  intros Hd. apply option_bind_Some in Hd as (total & Ht & Hd).
  apply checked_add_Some in Ht as [-> ?]. rewrite En in *.
  destruct ((n <? MIN_RECORD_LENGTH) || negb (len f =? 4 + n))%bool eqn:Hl; [done|]. bool_to_prop.
  destruct (negb (_ =? crc32c _)) eqn:Hcrc; [done|]. bool_to_prop.
  set (pe := (length f - RECORD_TRAILER_SIZE)%nat) in *.
  set (p := drop RECORD_HEADER_SIZE (take pe f)) in *.
  assert (length f = Z.to_nat (4 + n)) as Hlf by (unfold len in *; lia).
  assert (len p = n - 12) as Hp.
  { unfold p, len, pe. rewrite length_drop, length_take. log_lia. }
  assert (take pe f = header_of n k ++ p) as Ebody.
  { rewrite <-(take_drop RECORD_HEADER_SIZE (take pe f)), take_take, <-Eh.
    f_equal. f_equal. unfold pe. log_lia. }
  exists k, p. split; [done|]. split; [log_lia|]. split.
  - unfold frame_of. replace (12 + len p) with n by lia. rewrite <-Ebody.
    rewrite <-(take_drop pe f) at 1. f_equal.
    match goal with H : le_combine (drop pe f) = _ |- _ => rewrite <-H end.
    rewrite u32_le_combine; [done|]. rewrite length_drop. unfold pe. log_lia.
  - assert (byte_at f 6 = k) as E6.
    { rewrite <-(header_of_kind n k Hk), <-Eh. unfold byte_at.
      rewrite lookup_take_lt by (unfold RECORD_HEADER_SIZE; lia). done. }
    rewrite E6 in Hd. exact Hd.
Qed.

Lemma decode_kind_encode r k p :
  wf_record r →
  match r with
  | Mutation m => k = 1 ∧ encode_mutation_payload m = Ok p
  | Commit d => k = 2 ∧ p = encode_commit_payload d
  | Abort txn => k = 3 ∧ p = u64_le txn
  end → decode_kind k p = Some r.
Proof.
  destruct r as [m|d|txn]; cbn; intros Hwf [-> Hp]; cbn.
  - by rewrite (decode_mutation_payload_roundtrip m p Hwf Hp).
  - subst p. by rewrite (decode_commit_payload_roundtrip d Hwf).
  - subst p. unfold read_u64. rewrite slice_all by (rewrite ?length_u64_le; done). cbn.
    rewrite le_u64_roundtrip by done. done.
Qed.

Lemma decode_kind_sound k p r :
  1 ≤ k ≤ 3 → decode_kind k p = Some r →
  wf_record r ∧
  match r with
  | Mutation m => k = 1 ∧ encode_mutation_payload m = Ok p
  | Commit d => k = 2 ∧ p = encode_commit_payload d
  | Abort txn => k = 3 ∧ p = u64_le txn
  end.
Proof.
  intros Hk. assert (k = 1 ∨ k = 2 ∨ k = 3) as [->|[->| ->]] by lia; cbn; intros Hd.
  - apply fmap_Some in Hd as (m & [? ?]%decode_mutation_payload_sound & ->). done.
  - apply fmap_Some in Hd as (d & [? ?]%decode_commit_payload_sound & ->). done.
  - apply option_bind_Some in Hd as (t & Ht & Hd).
    destruct (bool_decide _) eqn:E; [|done]. bool_to_prop. simplify_eq.
    apply read_u64_Some in Ht as (x & Hx & ->).
    assert (x = p) as ->. { apply slice_Some in Hx as [_ ->]. by rewrite drop_0, take_ge by lia. }
    cbn. split; [by apply le_combine_u64|]. split; [done|]. by rewrite u64_le_combine.
Qed.

Lemma to_bytes_inj_len r bs : to_bytes r = Ok bs → 16 ≤ len bs ≤ 4 + U32_MAX.
Proof.
  intros (k & p & ? & -> & _)%to_bytes_Ok. rewrite len_frame_of. pose proof (len_nonneg p). lia.
Qed.
End frames.

(** ** Whole logs *)
Section logs.
Context `{Crc32c}.

(** The bytes of a sequence of records appended one after the other. *)
Fixpoint encode_log (rs : list LogRecord) : result (list bytes) LogEncodeError :=
  match rs with
  | [] => Ok []
  | r :: rs' =>
      let? e := to_bytes r in
      let? es := encode_log rs' in
      Ok (e :: es)
  end.

(** The records placed at the end offsets of their frames. *)
Fixpoint place (offset : Z) (rs : list LogRecord) (es : list bytes) : list ParsedLogRecord :=
  match rs, es with
  | r :: rs', e :: es' =>
      {| pr_record := r; pr_end_offset := offset + len e |} :: place (offset + len e) rs' es'
  | _, _ => []
  end.

(** A suffix the parser treats as an unfinished append: it is nonempty, and it is
    either shorter than a header or its valid header announces more bytes. *)
Definition torn (tail : bytes) : Prop :=
  tail ≠ [] ∧
  (len tail < 12 ∨
   valid_record_header (take RECORD_HEADER_SIZE tail) = true ∧
   MIN_RECORD_LENGTH ≤ le_combine (take 4 tail) ∧
   len tail < 4 + le_combine (take 4 tail)).

Lemma encode_log_app rs rs' es :
  encode_log (rs ++ rs') = Ok es ↔
  ∃ es1 es2, encode_log rs = Ok es1 ∧ encode_log rs' = Ok es2 ∧ es = es1 ++ es2.
Proof.
  revert es. induction rs as [|r rs IH]; intros es; cbn.
  - naive_solver.
  - destruct (to_bytes r) as [e|]; [|naive_solver].
    destruct (encode_log (rs ++ rs')) as [es'|] eqn:E.
    + destruct (proj1 (IH es') eq_refl) as (es1 & es2 & -> & -> & ->).
      split; [intros [= <-]; by eexists _, _|naive_solver].
    + split; [done|]. intros (es1 & es2 & H1 & H2 & ->).
      destruct (encode_log rs) as [x|]; [|done]. simplify_eq.
      exfalso. assert (Err e0 = Ok (x ++ es2)) as [=]. apply IH; eauto.
Qed.

Lemma place_records off rs es : encode_log rs = Ok es → pr_record <$> place off rs es = rs.
Proof.
  revert off es. induction rs as [|r rs IH]; cbn; intros off es.
  - by intros [= <-].
  - destruct (to_bytes r) as [e|] eqn:Er, (encode_log rs) as [es'|] eqn:E; [|done..].
    intros [= <-]; cbn. f_equal. by apply IH.
Qed.

Lemma place_app off rs rs' es es' :
  encode_log rs = Ok es →
  place off (rs ++ rs') (es ++ es') = place off rs es ++ place (off + len (concat es)) rs' es'.
Proof.
  revert off es. induction rs as [|r rs IH]; cbn; intros off es.
  - intros [= <-]. cbn. f_equal. unfold len. cbn. lia.
  - destruct (to_bytes r) as [e|] eqn:Er, (encode_log rs) as [es0|] eqn:E; [|done..].
    intros [= <-]; cbn. f_equal. rewrite (IH (off + len e) es0 eq_refl).
    f_equal. f_equal. rewrite len_app. lia.
Qed.

Lemma parse_loop_step fuel r e rest off acc :
  to_bytes r = Ok e → wf_record r → off + len e ≤ U64_MAX →
  parse_loop (S fuel) (e ++ rest) off acc =
  parse_loop fuel rest (off + len e)
    (acc ++ [{| pr_record := r; pr_end_offset := off + len e |}]).
Proof.
  intros (k & p & Hp & -> & Hr)%to_bytes_Ok Hwf Hoff.
  pose proof (len_nonneg p). pose proof (len_nonneg rest).
  pose proof (len_frame_of k p) as Hlen. rewrite Hlen in *.
  assert (1 ≤ k ≤ 3) as Hk by (destruct r as [?|?|?], Hr as [-> _]; lia).
  assert (is_u32 (12 + len p)) by log_lia.
  cbn [parse_loop]. rewrite len_app, Hlen.
  destruct (_ =? 0) eqn:E1; bool_to_prop; [lia|].
  destruct (_ <? Z.of_nat RECORD_HEADER_SIZE) eqn:E2; bool_to_prop; [log_lia|].
  assert (take RECORD_HEADER_SIZE (frame_of k p ++ rest) = header_of (12 + len p) k) as ->.
  { rewrite take_app_le; [apply take_header|]. unfold len in Hlen. log_lia. }
  rewrite valid_header_of, header_of_length by done. cbn [negb].
  destruct (_ <? MIN_RECORD_LENGTH) eqn:E3; bool_to_prop; [log_lia|].
  replace (checked_add 4 (12 + len p)) with (Some (16 + len p))
    by (symmetry; apply checked_add_Some; log_lia).
  destruct (_ <? 16 + len p) eqn:E4; bool_to_prop; [lia|].
  replace (checked_add off (16 + len p)) with (Some (off + (16 + len p)))
    by (symmetry; apply checked_add_Some; log_lia).
  replace (Z.to_nat (16 + len p)) with (length (frame_of k p)) by (unfold len in *; lia).
  rewrite take_app_length, drop_app_length, decode_frame by done.
  by rewrite (decode_kind_encode r k p).
Qed.

Lemma parse_loop_app fuel rs es rest off acc :
  encode_log rs = Ok es → Forall wf_record rs → off + len (concat es) ≤ U64_MAX →
  parse_loop (length rs + fuel) (concat es ++ rest) off acc =
  parse_loop fuel rest (off + len (concat es)) (acc ++ place off rs es).
Proof.
  revert off es acc. induction rs as [|r rs IH]; intros off es acc;
    cbn [encode_log length Nat.add].
  - intros [= <-] _ _. cbn [concat app place]. rewrite app_nil_r. f_equal.
    unfold len; cbn; lia.
  - destruct (to_bytes r) as [e|] eqn:Er, (encode_log rs) as [es'|] eqn:E; [|done..].
    intros [= <-] [Hwf Hwfs]%Forall_cons. cbn [concat]. rewrite len_app. intros Hoff.
    pose proof (len_nonneg (concat es')).
    rewrite <-app_assoc. rewrite (parse_loop_step _ _ _ _ _ _ Er Hwf) by lia.
    rewrite (IH (off + len e) es') by (done || lia).
    cbn [place]. rewrite <-app_assoc. cbn [app]. f_equal. lia.
Qed.

Lemma parse_loop_fuel n m rest off acc :
  (length rest < n)%nat → (length rest < m)%nat →
  parse_loop n rest off acc = parse_loop m rest off acc.
Proof.
  revert m rest off acc. induction n as [|n IH]; intros [|m] rest off acc Hn Hm; [lia..|].
  cbn [parse_loop].
  destruct (len rest =? 0) eqn:E1; [done|].
  destruct (len rest <? Z.of_nat RECORD_HEADER_SIZE); [done|].
  destruct (negb _); [done|]. destruct (_ <? MIN_RECORD_LENGTH) eqn:E3; [done|].
  destruct (checked_add 4 _) as [t|] eqn:Et; [|done].
  destruct (len rest <? t) eqn:E4; [done|].
  destruct (checked_add off t) as [stop|]; [|done].
  destruct (decode_complete_record _); [|done].
  apply checked_add_Some in Et as [-> ?]. bool_to_prop.
  apply IH; rewrite length_drop; unfold len in *; log_lia.
Qed.

(** The parser on an encoded log followed by anything: it emits the log and then
    classifies the rest. *)
Lemma parse_frames_app rs es rest :
  encode_log rs = Ok es → Forall wf_record rs → slice_bound (concat es ++ rest) →
  parse_log_prefix_frames (concat es ++ rest) =
  parse_loop (S (length rest)) rest (len (concat es)) (place 0 rs es).
Proof.
  intros He Hwf Hb. unfold parse_log_prefix_frames.
  pose proof (len_nonneg rest). unfold slice_bound in Hb. rewrite len_app in Hb.
  rewrite (parse_loop_fuel _ (length rs + S (length (concat es ++ rest)))) by lia.
  rewrite (parse_loop_app _ rs es) by (done || log_lia). cbn [app].
  apply parse_loop_fuel; [rewrite length_app; lia|lia].
Qed.

Lemma torn_prefix r e cut :
  to_bytes r = Ok e → (0 < cut < length e)%nat → torn (take cut e).
Proof.
  intros (k & p & Hp & -> & Hr)%to_bytes_Ok Hcut.
  pose proof (len_nonneg p). pose proof (len_frame_of k p) as Hlen.
  assert (1 ≤ k ≤ 3) as Hk by (destruct r as [?|?|?], Hr as [-> _]; lia).
  assert (is_u32 (12 + len p)) by log_lia.
  assert (length (take cut (frame_of k p)) = cut) as Hc by (rewrite length_take; lia).
  split; [intros E; rewrite E in Hc; cbn in Hc; lia|].
  unfold len at 1 2. rewrite Hc.
  destruct (decide (cut < 12)%nat); [left; lia|right].
  rewrite take_take, Nat.min_l by log_lia. rewrite take_header, valid_header_of by done.
  split; [done|].
  assert (take 4 (take cut (frame_of k p)) = take 4 (header_of (12 + len p) k)) as ->.
  { rewrite <-take_header, !take_take. f_equal. log_lia. }
  rewrite header_of_length by done. unfold len in *. log_lia.
Qed.

Lemma parse_loop_torn fuel tail off acc :
  torn tail → len tail ≤ U64_MAX →
  parse_loop (S fuel) tail off acc = (acc, Incomplete).
Proof.
  intros [Hne Ht] Hb. cbn [parse_loop].
  destruct (len tail =? 0) eqn:E1; bool_to_prop.
  { destruct tail; [done|]. unfold len in E1. cbn in E1. lia. }
  destruct (len tail <? Z.of_nat RECORD_HEADER_SIZE) eqn:E2; [done|]. bool_to_prop.
  destruct Ht as [Ht|(Hv & Hmin & Ht)]; [log_lia|]. rewrite Hv. cbn [negb].
  rewrite take_take. change (4 `min` RECORD_HEADER_SIZE)%nat with 4%nat.
  destruct (_ <? MIN_RECORD_LENGTH) eqn:E3; bool_to_prop; [log_lia|].
  assert (is_u32 (le_combine (take 4 tail))).
  { apply le_combine_u32. rewrite length_take. unfold len in *. log_lia. }
  replace (checked_add 4 _) with (Some (4 + le_combine (take 4 tail)))
    by (symmetry; apply checked_add_Some; log_lia).
  destruct (_ <? 4 + _) eqn:E4; bool_to_prop; [done|lia].
Qed.

Lemma parse_loop_sound n rest off acc fs st :
  (length rest < n)%nat → off + len rest ≤ U64_MAX →
  parse_loop n rest off acc = (fs, st) →
  ∃ rs es tail, rest = concat es ++ tail ∧ encode_log rs = Ok es ∧ Forall wf_record rs ∧
    fs = acc ++ place off rs es ∧
    (st = Complete ↔ tail = []) ∧ (st = Incomplete ↔ torn tail).
Proof.
  revert rest off acc. induction n as [|n IH]; intros rest off acc Hn Hb; [lia|].
  cbn [parse_loop].
  assert (∀ st', (st' = Complete ↔ rest = []) → (st' = Incomplete ↔ torn rest) →
    (acc, st') = (fs, st) →
    ∃ rs es tail, rest = concat es ++ tail ∧ encode_log rs = Ok es ∧ Forall wf_record rs ∧
    fs = acc ++ place off rs es ∧
    (st = Complete ↔ tail = []) ∧ (st = Incomplete ↔ torn tail)) as Hstop.
  { intros st' Hc Hi [= <- <-]. exists [], [], rest. cbn. rewrite app_nil_r. by split_and!. }
  destruct (len rest =? 0) eqn:E1; bool_to_prop.
  { assert (rest = []) as -> by (destruct rest; [done|]; unfold len in E1; cbn in E1; lia).
    apply Hstop; [done|]. split; [done|by intros []]. }
  assert (rest ≠ []) as Hne by (intros ->; by apply E1).
  destruct (len rest <? Z.of_nat RECORD_HEADER_SIZE) eqn:E2; bool_to_prop.
  { apply Hstop; [naive_solver|]. split; [intros _; split; [done|left; log_lia]|done]. }
  destruct (valid_record_header _) eqn:Hv; cbn [negb].
  2:{ apply Hstop; [naive_solver|]. split; [done|]. intros [_ [?|(Hv' & _)]]; [log_lia|congruence]. }
  rewrite take_take. change (4 `min` RECORD_HEADER_SIZE)%nat with 4%nat.
  assert (is_u32 (le_combine (take 4 rest))).
  { apply le_combine_u32. rewrite length_take. unfold len in *. log_lia. }
  destruct (_ <? MIN_RECORD_LENGTH) eqn:E3; bool_to_prop.
  { apply Hstop; [naive_solver|]. split; [done|]. intros [_ [?|(_ & ? & _)]]; log_lia. }
  replace (checked_add 4 _) with (Some (4 + le_combine (take 4 rest)))
    by (symmetry; apply checked_add_Some; log_lia).
  set (t := 4 + le_combine (take 4 rest)) in *.
  destruct (len rest <? t) eqn:E4; bool_to_prop.
  { apply Hstop; [naive_solver|]. split; [|done]. intros _. split; [done|]. right.
    split; [done|]. split; [log_lia|done]. }
  assert (¬ torn rest) as Hnt by (intros [_ [?|(_ & _ & ?)]]; [log_lia|lia]).
  assert (16 ≤ t) as Ht by (unfold t; log_lia). clearbody t.
  assert (length (take (Z.to_nat t) rest) = Z.to_nat t) as Hlt
    by (rewrite length_take; unfold len in *; lia).
  replace (checked_add off t) with (Some (off + t))
    by (symmetry; apply checked_add_Some; log_lia).
  destruct (decode_complete_record _) as [r|] eqn:Hd; [|by apply Hstop; naive_solver].
  intros (rs & es & tail & Er & He & Hwf & -> & Hc & Hi)%IH;
    [|unfold len in *; rewrite length_drop; log_lia..].
  apply decode_frame_inv in Hd as (k & p & Hk & Hp & Ef & Hd).
  apply decode_kind_sound in Hd as [Hr Hkp]; [|done].
  assert (to_bytes r = Ok (take (Z.to_nat t) rest)) as Eb
    by (apply to_bytes_Ok; exists k, p; eauto).
  exists (r :: rs), (take (Z.to_nat t) rest :: es), tail.
  split; [cbn [concat]; by rewrite <-app_assoc, <-Er, take_drop|].
  split; [cbn [encode_log]; by rewrite Eb, He|]. split; [by constructor|].
  split; [|done]. cbn [place]. unfold len at 1 2. rewrite Hlt.
  rewrite Z2Nat.id by lia. by rewrite <-app_assoc.
Qed.

(** Where a cut of a concatenation falls. *)
Lemma take_concat {A} (es : list (list A)) n :
  (n ≤ length (concat es))%nat →
  ∃ k m, (k ≤ length es)%nat ∧ n = (length (concat (take k es)) + m)%nat ∧
    (m = 0%nat ∧ take n (concat es) = concat (take k es) ∨
     ∃ e, es !! k = Some e ∧ (0 < m < length e)%nat ∧
       take n (concat es) = concat (take k es) ++ take m e).
Proof.
  revert n. induction es as [|e es IH]; intros n Hn.
  - exists 0%nat, 0%nat. cbn in *. split; [lia|]. split; [lia|]. left. split; [done|].
    by destruct n.
  - cbn [concat] in *. rewrite length_app in Hn.
    destruct (decide (n = 0)%nat) as [->|Hn0].
    { exists 0%nat, 0%nat. cbn. split; [lia|]. split; [lia|]. by left. }
    destruct (decide (n < length e)%nat) as [Hlt|Hge].
    { exists 0%nat, n. split; [cbn; lia|]. split; [cbn; lia|]. right. exists e.
      split; [done|]. split; [lia|]. cbn. rewrite take_app_le by lia. done. }
    destruct (IH (n - length e)%nat) as (k & m & Hk & Hnm & Hcase); [lia|].
    exists (S k), m. cbn. rewrite length_app. split; [lia|]. split; [lia|].
    rewrite take_app_ge by lia.
    destruct Hcase as [[-> ->]|(e' & He' & Hm & ->)]; [by left|right].
    exists e'. by rewrite app_assoc.
Qed.

Lemma encode_log_length rs es : encode_log rs = Ok es → length es = length rs.
Proof.
  revert es. induction rs as [|r rs IH]; intros es; cbn; [by intros [= <-]|].
  destruct (to_bytes r), (encode_log rs) eqn:E; [|done..]. intros [= <-]. cbn. by rewrite IH.
Qed.

Lemma encode_log_take k rs es :
  encode_log rs = Ok es → encode_log (take k rs) = Ok (take k es).
Proof.
  revert k es. induction rs as [|r rs IH]; intros k es; cbn.
  - intros [= <-]. by rewrite !take_nil.
  - destruct (to_bytes r) as [e|] eqn:Er, (encode_log rs) eqn:E; [|done..]. intros [= <-].
    destruct k; cbn; [done|]. by rewrite Er, (IH _ _ eq_refl).
Qed.

Lemma encode_log_lookup k rs es e :
  encode_log rs = Ok es → es !! k = Some e → ∃ r, rs !! k = Some r ∧ to_bytes r = Ok e.
Proof.
  revert k es. induction rs as [|r rs IH]; intros k es; cbn; [by intros [= <-]|].
  destruct (to_bytes r) as [e'|] eqn:Er, (encode_log rs) eqn:E; [|done..]. intros [= <-].
  destruct k; cbn; [intros [= <-]; eauto|]. by apply IH.
Qed.

(** A cut of a log parses to the records that are whole in it. *)
Lemma parse_cut rs es n :
  encode_log rs = Ok es → Forall wf_record rs → slice_bound (concat es) →
  (n ≤ length (concat es))%nat →
  ∃ k m, (k ≤ length rs)%nat ∧ n = (length (concat (take k es)) + m)%nat ∧
    (m = 0%nat ∨ ∃ e, es !! k = Some e ∧ 0 < m < length e)%nat ∧
    parse_log_prefix_frames (take n (concat es)) =
    (place 0 (take k rs) (take k es), if decide (m = 0%nat) then Complete else Incomplete).
Proof.
  intros He Hwf Hb Hn. pose proof (encode_log_length _ _ He) as Hlen.
  destruct (take_concat es n Hn) as (k & m & Hk & Hnm & Hcase).
  exists k, m. split; [lia|]. split; [done|].
  assert (∀ t, take n (concat es) = concat (take k es) ++ t →
    parse_log_prefix_frames (take n (concat es)) =
    parse_loop (S (length t)) t (len (concat (take k es))) (place 0 (take k rs) (take k es)) ∧
    len t ≤ U64_MAX) as Hp.
  { intros t Et. assert (slice_bound (concat (take k es) ++ t)) as Hsb.
    { rewrite <-Et. unfold slice_bound, len in *. rewrite length_take. lia. }
    split; [rewrite Et; apply parse_frames_app; [by apply encode_log_take|by apply Forall_take|done]|].
    pose proof (len_nonneg (concat (take k es))).
    unfold slice_bound in Hsb. rewrite len_app in Hsb. log_lia. }
  destruct Hcase as [[-> Et]|(e & Hke & Hm & Et)].
  - split; [by left|]. destruct (Hp []) as [-> _]; [by rewrite app_nil_r|]. done.
  - split; [right; eauto|]. destruct (Hp _ Et) as [-> Hl].
    destruct (encode_log_lookup _ _ _ _ He Hke) as (r & _ & Hr).
    rewrite parse_loop_torn; [|by eapply torn_prefix|done].
    rewrite decide_False by lia. done.
Qed.

Lemma parse_encoded rs es :
  encode_log rs = Ok es → Forall wf_record rs → slice_bound (concat es) →
  parse_log_prefix_frames (concat es) = (place 0 rs es, Complete).
Proof.
  intros He Hwf Hb. rewrite <-(app_nil_r (concat es)).
  rewrite (parse_frames_app rs es) by (by rewrite ?app_nil_r). done.
Qed.

(** Encoding then parsing a log returns every record, in order, at the end
    offset of its frame, and reports the log complete. *)
Theorem log_roundtrip rs es :
  encode_log rs = Ok es → Forall wf_record rs → slice_bound (concat es) →
  parse_log_prefix_frames (concat es) = (place 0 rs es, Complete) ∧
  parse_log_prefix (concat es) = (rs, Complete).
Proof.
  intros He Hwf Hb.
  pose proof (parse_encoded _ _ He Hwf Hb) as Hp. split; [done|]. unfold parse_log_prefix. rewrite Hp, (place_records _ _ _ He). done.
Qed.

(** C18. A crash may cut the log at any byte: the parser then returns exactly the
    records that lie wholly before the cut, and reports the log complete when the
    cut falls on a record boundary and incomplete otherwise, never corrupt. *)
Theorem log_truncation rs es n :
  encode_log rs = Ok es → Forall wf_record rs → slice_bound (concat es) →
  (n ≤ length (concat es))%nat →
  ∃ k m, (k ≤ length rs)%nat ∧ n = (length (concat (take k es)) + m)%nat ∧
    (m = 0%nat ∨ ∃ e, es !! k = Some e ∧ 0 < m < length e)%nat ∧
    parse_log_prefix (take n (concat es)) =
    (take k rs, if decide (m = 0%nat) then Complete else Incomplete).
Proof.
  intros He Hwf Hb Hn. destruct (parse_cut rs es n He Hwf Hb Hn) as (k & m & Hk & Hnm & Hm & Hp).
  exists k, m. do 3 (split; [done|]). unfold parse_log_prefix. rewrite Hp.
  by rewrite (place_records _ _ _ (encode_log_take k _ _ He)).
Qed.

(** C19. The parser is sound and canonical on arbitrary bytes: the records it
    returns re-encode to exactly the bytes in front of the point where it
    stopped and are placed at the ends of their frames; it reports complete
    exactly when nothing is left and incomplete exactly when the rest is an
    unfinished frame. *)
Theorem parse_log_sound bs frames status :
  slice_bound bs → parse_log_prefix_frames bs = (frames, status) →
  ∃ es tail, bs = concat es ++ tail ∧
    encode_log (pr_record <$> frames) = Ok es ∧ Forall wf_record (pr_record <$> frames) ∧
    frames = place 0 (pr_record <$> frames) es ∧
    (status = Complete ↔ tail = []) ∧ (status = Incomplete ↔ torn tail).
Proof.
  intros Hb Hp. apply parse_loop_sound in Hp as (rs & es & tail & -> & He & Hwf & -> & Hc & Hi);
    [|lia|log_lia].
  exists es, tail. cbn [app]. rewrite (place_records _ _ _ He). done.
Qed.
End logs.

(** ** Concrete runs *)
Definition sample_log : list LogRecord :=
  [ Mutation (ordered_put 7 0 3 [u8 107] [u8 118]);
    Commit {| cd_txn_id := 7; cd_csn := 1; cd_mutation_count := 1; cd_mutation_digest := 0 |};
    Abort 9 ].

Lemma sample_log_wf : Forall wf_record sample_log.
Proof. repeat constructor; cbn; unfold U64_MAX, U32_MAX; lia. Qed.

Lemma log_roundtrip_witness :
  ∃ es, @encode_log castagnoli_crc sample_log = Ok es ∧
    @parse_log_prefix castagnoli_crc (concat es) = (sample_log, Complete).
Proof.
  eexists. split; [vm_compute; reflexivity|].
  apply (@log_roundtrip castagnoli_crc); [vm_compute; reflexivity|apply sample_log_wf|].
  vm_compute. reflexivity.
Defined.

Lemma log_truncation_witness :
  ∃ es k m, @encode_log castagnoli_crc sample_log = Ok es ∧
    60%nat = (length (concat (take k es)) + m)%nat ∧
    @parse_log_prefix castagnoli_crc (take 60 (concat es)) =
    (take k sample_log, if decide (m = 0%nat) then Complete else Incomplete).
Proof.
  eexists. edestruct (@log_truncation castagnoli_crc sample_log) as (k & m & _ & Hn & _ & Hp);
    [vm_compute; reflexivity|apply sample_log_wf|vm_compute; reflexivity| |].
  2:{ exists k, m. split; [vm_compute; reflexivity|]. split; [exact Hn|exact Hp]. }
  vm_compute. lia.
Defined.

Lemma parse_log_sound_witness :
  ∃ es tail, u8 <$> [1; 2; 3] = concat es ++ tail ∧
    @encode_log castagnoli_crc [] = Ok es ∧ @torn castagnoli_crc (u8 <$> [1; 2; 3]).
Proof.
  destruct (@parse_log_sound castagnoli_crc (u8 <$> [1; 2; 3]) [] Incomplete)
    as (es & tail & Hbs & He & _ & _ & _ & Ht); [done|vm_compute; reflexivity|].
  exists es, tail. split; [done|]. split; [done|].
  cbn in He. injection He as <-. rewrite Hbs. by apply Ht.
Defined.
