(* ===== verification/WriteSet.v ===== *)
(** * Canonical write sets

    Models [crates/seerdb/src/vnext/write_set.rs]: the reduction of a validated
    mutation stream to one final effect per (object, key), in key order.  The
    commit path, the write intents and recovery all install this view. *)
From S2P Require Import Prelude StdCollections Ids Log.

Local Open Scope Z_scope.
Local Open Scope seer_scope.

(** The (object, key) a mutation addresses. *)
Abbreviation EffectKey := (StorageObjectId * bytes)%type.

Record FinalEffect := { fe_mutation : LoggedMutation }.

Definition fe_txn_id (e : FinalEffect) : TxnId := lm_txn_id (fe_mutation e).
Definition fe_ordinal (e : FinalEffect) : Z := lm_ordinal (fe_mutation e).
Definition fe_object (e : FinalEffect) : StorageObjectId := lm_object (fe_mutation e).
Definition fe_kind (e : FinalEffect) : MutationKind := lm_kind (fe_mutation e).
Definition fe_key (e : FinalEffect) : bytes := lm_key (fe_mutation e).
Definition fe_value (e : FinalEffect) : bytes := lm_value (fe_mutation e).

Inductive FinalWriteSetError :=
| ReservedTransaction
| WrongTransaction (expected actual : TxnId) (ordinal : Z)
| NonContiguousOrdinal (expected actual : Z)
| TooManyMutations.

Definition effect_key (m : LoggedMutation) : EffectKey := (lm_object m, lm_key m).

(** The loop over [mutations.iter().enumerate()]. *)
Fixpoint normalize_loop (txn_id : TxnId) (index : Z) (mutations : list LoggedMutation)
    (final_by_key : list (EffectKey * LoggedMutation))
    : result (list (EffectKey * LoggedMutation)) FinalWriteSetError :=
  match mutations with
  | [] => Ok final_by_key
  | mutation :: rest =>
      let? expected := ok_or (u32_try_from index) TooManyMutations in
      if negb (lm_ordinal mutation =? expected)
      then Err (NonContiguousOrdinal expected (lm_ordinal mutation))
      else if negb (lm_txn_id mutation =? txn_id)
      then Err (WrongTransaction txn_id (lm_txn_id mutation) (lm_ordinal mutation))
      else normalize_loop txn_id (index + 1) rest
             (BTreeMap.insert (effect_key mutation) mutation final_by_key)
  end.

Definition normalize_final_effects (txn_id : TxnId) (mutations : list LoggedMutation)
    : result (list FinalEffect) FinalWriteSetError :=
  if txn_id =? 0 then Err ReservedTransaction
  else
    let? final_by_key := normalize_loop txn_id 0 mutations [] in
    Ok (Build_FinalEffect <$> final_by_key.*2).

(** ** Specification *)

(** The last mutation of a stream for one (object, key). *)
Definition last_for (k : EffectKey) (ms : list LoggedMutation) : option LoggedMutation :=
  List.find (λ m, bool_decide (effect_key m = k)) (rev ms).

(** The streams the reducer accepts: contiguous ordinals from [index], one owner. *)
Fixpoint valid_stream (txn_id : TxnId) (index : Z) (ms : list LoggedMutation) : Prop :=
  match ms with
  | [] => True
  | m :: ms' =>
      index ≤ U32_MAX ∧ lm_ordinal m = index ∧ lm_txn_id m = txn_id ∧
      valid_stream txn_id (index + 1) ms'
  end.

Definition effect_lt (e e' : FinalEffect) : Prop :=
  lt_ord (effect_key (fe_mutation e)) (effect_key (fe_mutation e')).

Lemma last_for_snoc k ms m :
  last_for k (ms ++ [m]) = if decide (effect_key m = k) then Some m else last_for k ms.
Proof.
  unfold last_for. rewrite rev_app_distr. cbn.
  destruct (decide (effect_key m = k));
    [by rewrite bool_decide_eq_true_2|by rewrite bool_decide_eq_false_2].
Qed.

Lemma last_for_key k ms m : last_for k ms = Some m → effect_key m = k ∧ m ∈ ms.
Proof.
  intros [Hin Hk]%List.find_some. apply bool_decide_eq_true in Hk. split; [done|].
  by apply list_elem_of_In, in_rev.
Qed.

Lemma last_for_None k ms : last_for k ms = None ↔ ∀ m, m ∈ ms → effect_key m ≠ k.
Proof.
  unfold last_for. split.
  - intros H m Hm. eapply List.find_none in H; [by apply bool_decide_eq_false in H|].
    apply list_elem_of_In in Hm. by apply in_rev in Hm.
  - intros H. destruct (List.find _ _) as [m|] eqn:E; [|done].
    apply last_for_key in E as [Hk Hm]. by apply H in Hm.
Qed.

Lemma valid_stream_snoc t i ms m :
  valid_stream t i (ms ++ [m]) ↔
  valid_stream t i ms ∧ i + len ms ≤ U32_MAX ∧ lm_ordinal m = i + len ms ∧ lm_txn_id m = t.
Proof.
  revert i. induction ms as [|x ms IH]; intros i; cbn [valid_stream app].
  - unfold len; cbn. rewrite Z.add_0_r. naive_solver.
  - rewrite IH. unfold len; cbn. rewrite Nat2Z.inj_succ.
    replace (i + 1 + Z.of_nat (length ms)) with (i + Z.succ (Z.of_nat (length ms))) by lia.
    naive_solver.
Qed.

(** The map built by the loop: [get] is the last mutation for the key. *)
Definition index_of (seen : list LoggedMutation) (m : list (EffectKey * LoggedMutation)) : Prop :=
  BTreeMap.wf m ∧ ∀ k, BTreeMap.get k m = last_for k seen.

Lemma index_of_nil : index_of [] [].
Proof. split; [constructor|done]. Qed.

Lemma index_of_insert seen m x :
  index_of seen m → index_of (seen ++ [x]) (BTreeMap.insert (effect_key x) x m).
Proof.
  intros [Hwf Hget]. split; [by apply BTreeMap.insert_wf|].
  intros k. rewrite last_for_snoc, BTreeMap.get_insert, Hget. done.
Qed.

Lemma normalize_loop_ok t ms seen acc :
  0 ≤ len seen → index_of seen acc → valid_stream t (len seen) ms →
  ∃ m, normalize_loop t (len seen) ms acc = Ok m ∧ index_of (seen ++ ms) m.
Proof.
  revert seen acc. induction ms as [|x ms IH]; intros seen acc Hs Hacc Hv; cbn in *.
  - rewrite app_nil_r. eauto.
  - destruct Hv as (Hi & Ho & Ht & Hv). unfold u32_try_from.
    rewrite (proj2 (Z.leb_le _ _) Hi). cbn. rewrite Ho, Ht, !Z.eqb_refl. cbn.
    destruct (IH (seen ++ [x]) (BTreeMap.insert (effect_key x) x acc)) as (m & Hm & Hidx).
    + apply len_nonneg.
    + by apply index_of_insert.
    + rewrite len_app. exact Hv.
    + exists m. rewrite <-app_assoc in Hidx. split; [|done]. rewrite <-Hm, len_app. done.
Qed.

Lemma normalize_loop_valid t i ms acc m :
  normalize_loop t i ms acc = Ok m → valid_stream t i ms.
Proof.
  revert i acc. induction ms as [|x ms IH]; intros i acc; cbn; [done|].
  destruct (u32_try_from i) as [e|] eqn:E; [cbn|done].
  apply u32_try_from_Some in E as [-> ?].
  destruct (negb _) eqn:Ho; [done|]. destruct (negb (_ =? t)) eqn:Ht; [done|].
  bool_to_prop. intros Hm. split_and!; eauto.
Qed.

Lemma index_of_values seen m :
  index_of seen m →
  Sorted effect_lt (Build_FinalEffect <$> m.*2) ∧
  ∀ x, Build_FinalEffect x ∈ Build_FinalEffect <$> m.*2 ↔ last_for (effect_key x) seen = Some x.
Proof.
  intros [Hwf Hget].
  assert (∀ k x, (k, x) ∈ m → effect_key x = k) as Hkey.
  { intros k x Hin. apply BTreeMap.elem_get in Hin; [|done]. rewrite Hget in Hin.
    by apply last_for_key in Hin as [? _]. }
  split.
  - apply StronglySorted_Sorted. clear Hget. unfold BTreeMap.wf in Hwf.
    induction Hwf as [|[k x] m Hm IH Hall]; cbn; [constructor|].
    constructor; [apply IH; intros; apply Hkey; by right|].
    rewrite Forall_forall in Hall. apply Forall_forall.
    intros e (y & -> & ([k' y'] & -> & Hy)%list_elem_of_fmap)%list_elem_of_fmap.
    unfold effect_lt; cbn. rewrite (Hkey k x), (Hkey k' y') by (by (left + right)).
    by apply (Hall _ Hy).
  - intros x. rewrite !list_elem_of_fmap. split.
    + intros (y & [= <-] & ([k z] & Ez & Hz)%list_elem_of_fmap). cbn in Ez. subst z.
      rewrite <-Hget, (Hkey _ _ Hz). by apply BTreeMap.elem_get.
    + intros Hl. exists x. split; [done|]. apply list_elem_of_fmap.
      exists (effect_key x, x). split; [done|]. apply BTreeMap.get_elem. by rewrite Hget.
Qed.

Lemma normalize_ok_inv t ms fx :
  normalize_final_effects t ms = Ok fx →
  t ≠ 0 ∧ valid_stream t 0 ms ∧
  ∃ m, index_of ms m ∧ fx = Build_FinalEffect <$> m.*2.
Proof.
  unfold normalize_final_effects. destruct (t =? 0) eqn:E; [done|]. bool_to_prop.
  destruct (normalize_loop t 0 ms []) as [m|] eqn:Em; [|done]. intros [= <-].
  pose proof (normalize_loop_valid _ _ _ _ _ Em) as Hv. split_and!; [done..|].
  destruct (normalize_loop_ok t ms [] []) as (m' & Hm' & Hidx); [done|apply index_of_nil|done|].
  change (len []) with 0 in Hm'. rewrite Em in Hm'. injection Hm' as <-. by exists m.
Qed.

Lemma valid_stream_ordinals txn i ms :
  0 ≤ i → valid_stream txn i ms → Forall (λ m, is_u32 (lm_ordinal m) ∧ lm_txn_id m = txn) ms.
Proof.
  revert i. induction ms as [|m ms IH]; intros i Hi; cbn; [constructor|].
  intros (? & ? & ? & Hv). constructor; [unfold is_u32, U32_MAX in *; split; [lia|done]|].
  apply (IH (i + 1)); [lia|done].
Qed.

(** The effects of a stream carry its transaction and its ordinals. *)
Lemma normalize_effects_wf t ms fx :
  normalize_final_effects t ms = Ok fx → Forall (λ e, is_u32 (fe_ordinal e) ∧ fe_txn_id e = t) fx.
Proof.
  intros (_ & Hv & m & [Hwf Hget] & ->)%normalize_ok_inv. apply Forall_fmap, Forall_fmap, Forall_forall.
  intros [k x] Hx. cbn. apply BTreeMap.elem_get in Hx; [|done]. rewrite Hget in Hx.
  apply last_for_key in Hx as [_ Hx]. apply valid_stream_ordinals in Hv; [|lia].
  rewrite Forall_forall in Hv. by apply Hv.
Qed.

Lemma normalize_valid_ok t ms :
  t ≠ 0 → valid_stream t 0 ms → ∃ fx, normalize_final_effects t ms = Ok fx.
Proof.
  intros Ht Hv. unfold normalize_final_effects.
  destruct (t =? 0) eqn:E; bool_to_prop; [done|].
  destruct (normalize_loop_ok t ms [] []) as (m & Hm & _); [done|apply index_of_nil|done|].
  change (len []) with 0 in Hm. rewrite Hm. eauto.
Qed.

(** Two strictly ordered effect lists with the same members are the same list. *)
Lemma effects_unique fx fx' :
  Sorted effect_lt fx → Sorted effect_lt fx' → (∀ e, e ∈ fx ↔ e ∈ fx') → fx = fx'.
Proof.
  assert (Transitive effect_lt) as Htr
    by (intros x y z; unfold effect_lt, lt_ord; apply cmp_trans).
  assert (∀ e, ¬ effect_lt e e) as Hirr
    by (intros e; apply BTreeMap.lt_ord_irrefl).
  intros H1%Sorted_StronglySorted H2%Sorted_StronglySorted; [|done..]. revert fx' H2.
  induction H1 as [|e fx Hfx IH Hall]; intros fx' H2 Hel.
  - destruct fx' as [|e' fx']; [done|]. exfalso. by apply (not_elem_of_nil e'), Hel, elem_of_cons; left.
  - destruct H2 as [|e' fx' Hfx' Hall'].
    { exfalso. by apply (not_elem_of_nil e), Hel, elem_of_cons; left. }
    rewrite Forall_forall in Hall, Hall'.
    assert (e = e') as <-.
    { pose proof (proj1 (Hel e) ltac:(by left)) as Ha.
      pose proof (proj2 (Hel e') ltac:(by left)) as Hb.
      apply elem_of_cons in Ha as [Ha|Ha]; [done|].
      apply elem_of_cons in Hb as [Hb|Hb]; [done|].
      exfalso. eapply Hirr, (Htr _ e'); eauto. }
    f_equal. apply IH; [done|].
    intros x. specialize (Hel x). rewrite !elem_of_cons in Hel.
    split; intros Hx.
    + destruct (proj1 Hel (or_intror Hx)) as [->|]; [|done]. exfalso. eapply Hirr, Hall, Hx.
    + destruct (proj2 Hel (or_intror Hx)) as [->|]; [|done]. exfalso. eapply Hirr, Hall', Hx.
Qed.

(** C29. The canonical write set: normalization accepts exactly the streams of a
    nonzero transaction with contiguous ordinals, and its result is the one list
    in strict (object, key) order that holds, for every key written, the last
    mutation for that key and nothing else. *)
Theorem normalize_final_effects_spec txn ms fx :
  normalize_final_effects txn ms = Ok fx ↔
  txn ≠ 0 ∧ valid_stream txn 0 ms ∧ Sorted effect_lt fx ∧
  ∀ m, Build_FinalEffect m ∈ fx ↔ last_for (effect_key m) ms = Some m.
Proof.
  split.
  - intros (? & ? & m & Hidx & ->)%normalize_ok_inv.
    apply index_of_values in Hidx as [? ?]. done.
  - intros (Ht & Hv & Hs & Hel). destruct (normalize_valid_ok _ _ Ht Hv) as [fx' E].
    rewrite E. f_equal. apply normalize_ok_inv in E as (_ & _ & m & Hidx & ->).
    apply index_of_values in Hidx as [Hs' Hel'].
    apply effects_unique; [done..|]. intros [x]. by rewrite Hel, Hel'.
Qed.

(** A rejected stream is rejected for its first offending mutation: the
    prefix in front of it is valid and the error names what is wrong with it. *)
Theorem normalize_final_effects_error txn ms e :
  txn ≠ 0 → normalize_final_effects txn ms = Err e →
  ∃ pre m post, ms = pre ++ m :: post ∧ valid_stream txn 0 pre ∧
    (U32_MAX < len pre ∧ e = TooManyMutations ∨
     len pre ≤ U32_MAX ∧ lm_ordinal m ≠ len pre ∧
       e = NonContiguousOrdinal (len pre) (lm_ordinal m) ∨
     len pre ≤ U32_MAX ∧ lm_ordinal m = len pre ∧ lm_txn_id m ≠ txn ∧
       e = WrongTransaction txn (lm_txn_id m) (len pre)).
Proof.
  intros Ht. unfold normalize_final_effects. rewrite (proj2 (Z.eqb_neq _ _) Ht).
  assert (∀ ms pre acc e, valid_stream txn 0 pre →
    normalize_loop txn (len pre) ms acc = Err e →
    ∃ mid m post, ms = mid ++ m :: post ∧ valid_stream txn 0 (pre ++ mid) ∧
    (U32_MAX < len (pre ++ mid) ∧ e = TooManyMutations ∨
     len (pre ++ mid) ≤ U32_MAX ∧ lm_ordinal m ≠ len (pre ++ mid) ∧
       e = NonContiguousOrdinal (len (pre ++ mid)) (lm_ordinal m) ∨
     len (pre ++ mid) ≤ U32_MAX ∧ lm_ordinal m = len (pre ++ mid) ∧ lm_txn_id m ≠ txn ∧
       e = WrongTransaction txn (lm_txn_id m) (len (pre ++ mid)))) as Hgen.
  { clear. induction ms as [|x ms IH]; intros pre acc e Hv; cbn [normalize_loop]; [done|].
    unfold u32_try_from. destruct (len pre <=? U32_MAX) eqn:Hi; cbn [ok_or]; bool_to_prop.
    2:{ intros [= <-]. exists [], x, ms. rewrite app_nil_r. eauto. }
    destruct (negb (_ =? len pre)) eqn:Ho; bool_to_prop.
    { intros [= <-]. exists [], x, ms. rewrite app_nil_r. eauto 10. }
    destruct (negb (_ =? txn)) eqn:Hx; bool_to_prop.
    { intros [= <-]. exists [], x, ms. rewrite app_nil_r, Ho. eauto 10. }
    replace (len pre + 1) with (len (pre ++ [x])) by (by rewrite len_app).
    intros (mid & m & post & -> & Hv' & Herr)%IH.
    - exists (x :: mid), m, post. rewrite <-app_assoc in Hv', Herr. done.
    - apply valid_stream_snoc. rewrite Z.add_0_l. done. }
  destruct (normalize_loop txn 0 ms []) as [|e'] eqn:E; [done|]. intros [= <-].
  by apply (Hgen ms [] []) in E.
Qed.

Lemma normalize_final_effects_error_witness :
  ∃ pre m post,
    [ordered_put 7 0 1 [u8 97] []; ordered_put 7 2 1 [u8 98] []] = pre ++ m :: post ∧
    valid_stream 7 0 pre.
Proof.
  destruct (normalize_final_effects_error 7
    [ordered_put 7 0 1 [u8 97] []; ordered_put 7 2 1 [u8 98] []] (NonContiguousOrdinal 1 2))
    as (pre & m & post & Hms & Hv & _); [done|vm_compute; reflexivity|].
  exists pre, m, post. split; [exact Hms|exact Hv].
Defined.
