(* ===== verification/Txn.v ===== *)
(** * The transaction object

    Models [crates/seerdb/src/vnext/txn.rs] (the transaction state machine) and
    [txn_overlay.rs] (the private read-your-writes view).  A method that takes
    [&mut self] is a function from a transaction to the transaction it leaves and
    its result. *)
From S2P Require Import Prelude StdCollections Ids Crc Log WriteSet.

Local Open Scope Z_scope.
Local Open Scope seer_scope.

Inductive TransactionPhase :=
| Active
| Validating
| Prepared
| WalAppended
| DurableDecision
| Visible
| Aborted
| RecoveryRequired
| Released.

#[global] Instance TransactionPhase_eq_dec : EqDecision TransactionPhase.
Proof. solve_decision. Defined.

Inductive TransactionError :=
| WrongPhase (expected actual : TransactionPhase)
| DerivedMutation (object : StorageObjectId)
| TxnTooManyMutations
| WalLsnMismatch (appended durable : Lsn)
| LogEncoding (e : LogEncodeError).

Record Transaction := {
  tx_id : TxnId;
  tx_snapshot : CommitSeq;
  tx_phase : TransactionPhase;
  tx_mutations : list LoggedMutation;
  tx_commit_seq : option CommitSeq;
  tx_decision_lsn : option Lsn;
  tx_position : option CommitPosition
}.

Definition Transaction_new (id : TxnId) (snapshot : CommitSeq) : Transaction :=
  {| tx_id := id; tx_snapshot := snapshot; tx_phase := Active; tx_mutations := [];
     tx_commit_seq := None; tx_decision_lsn := None; tx_position := None |}.

Definition final_effects (t : Transaction) : result (list FinalEffect) FinalWriteSetError :=
  normalize_final_effects (tx_id t) (tx_mutations t).

(** Field updates. *)
Definition with_phase (p : TransactionPhase) (t : Transaction) : Transaction :=
  {| tx_id := tx_id t; tx_snapshot := tx_snapshot t; tx_phase := p;
     tx_mutations := tx_mutations t; tx_commit_seq := tx_commit_seq t;
     tx_decision_lsn := tx_decision_lsn t; tx_position := tx_position t |}.

Definition with_commit (csn : option CommitSeq) (lsn : option Lsn) (t : Transaction) : Transaction :=
  {| tx_id := tx_id t; tx_snapshot := tx_snapshot t; tx_phase := tx_phase t;
     tx_mutations := tx_mutations t; tx_commit_seq := csn;
     tx_decision_lsn := lsn; tx_position := tx_position t |}.

Definition with_position (p : option CommitPosition) (t : Transaction) : Transaction :=
  {| tx_id := tx_id t; tx_snapshot := tx_snapshot t; tx_phase := tx_phase t;
     tx_mutations := tx_mutations t; tx_commit_seq := tx_commit_seq t;
     tx_decision_lsn := tx_decision_lsn t; tx_position := p |}.

Definition push_mutation (m : LoggedMutation) (t : Transaction) : Transaction :=
  {| tx_id := tx_id t; tx_snapshot := tx_snapshot t; tx_phase := tx_phase t;
     tx_mutations := tx_mutations t ++ [m]; tx_commit_seq := tx_commit_seq t;
     tx_decision_lsn := tx_decision_lsn t; tx_position := tx_position t |}.

Definition next_ordinal (t : Transaction) : result Z TransactionError :=
  ok_or (u32_try_from (len (tx_mutations t))) TxnTooManyMutations.

Definition require_authoritative (object : StorageObjectDescriptor) : result unit TransactionError :=
  if requires_commit_recovery (od_authority object) then Ok ()
  else Err (DerivedMutation (od_id object)).

Definition require_phase (expected : TransactionPhase) (t : Transaction)
    : result unit TransactionError :=
  if decide (tx_phase t = expected) then Ok () else Err (WrongPhase expected (tx_phase t)).

Definition transition (expected next : TransactionPhase) (t : Transaction)
    : Transaction * result unit TransactionError :=
  match require_phase expected t with
  | Ok _ => (with_phase next t, Ok ())
  | Err e => (t, Err e)
  end.

Definition stage_ordered_put (object : StorageObjectDescriptor) (key value : bytes)
    (t : Transaction) : Transaction * result unit TransactionError :=
  do? (t, _) := (t, require_phase Active t) in
  do? (t, _) := (t, require_authoritative object) in
  do? (t, ordinal) := (t, next_ordinal t) in
  (push_mutation (ordered_put (tx_id t) ordinal (od_id object) key value) t, Ok ()).

Definition stage_ordered_delete (object : StorageObjectDescriptor) (key : bytes)
    (t : Transaction) : Transaction * result unit TransactionError :=
  do? (t, _) := (t, require_phase Active t) in
  do? (t, _) := (t, require_authoritative object) in
  do? (t, ordinal) := (t, next_ordinal t) in
  (push_mutation (ordered_delete (tx_id t) ordinal (od_id object) key) t, Ok ()).

Definition begin_validation (t : Transaction) : Transaction * result unit TransactionError :=
  transition Active Validating t.

Definition mark_prepared (csn : CommitSeq) (t : Transaction)
    : Transaction * result unit TransactionError :=
  do? (t, _) := transition Validating Prepared t in
  (with_commit (Some csn) (tx_decision_lsn t) t, Ok ()).

Definition commit_decision `{Crc32c} (t : Transaction) : result CommitDecision TransactionError :=
  let? _ := require_phase Prepared t in
  let? csn := ok_or (tx_commit_seq t) (WrongPhase Prepared (tx_phase t)) in
  let? mutation_count := ok_or (u32_try_from (len (tx_mutations t))) TxnTooManyMutations in
  let? digest := map_err LogEncoding (mutation_digest (tx_mutations t)) in
  Ok {| cd_txn_id := tx_id t; cd_csn := csn; cd_mutation_count := mutation_count;
        cd_mutation_digest := digest |}.

Definition mark_wal_appended (lsn : Lsn) (t : Transaction)
    : Transaction * result unit TransactionError :=
  do? (t, _) := transition Prepared WalAppended t in
  (with_commit (tx_commit_seq t) (Some lsn) t, Ok ()).

Definition mark_durable (lsn : Lsn) (t : Transaction)
    : Transaction * result CommitPosition TransactionError :=
  do? (t, _) := (t, require_phase WalAppended t) in
  do? (t, appended) := (t, ok_or (tx_decision_lsn t) (WrongPhase WalAppended (tx_phase t))) in
  if negb (lsn =? appended) then (t, Err (WalLsnMismatch appended lsn))
  else
    do? (t, csn) := (t, ok_or (tx_commit_seq t) (WrongPhase WalAppended (tx_phase t))) in
    let position := {| cp_csn := csn; cp_lsn := lsn |} in
    (with_phase DurableDecision (with_position (Some position) t), Ok position).

Definition mark_recovery_required (t : Transaction) : Transaction * result unit TransactionError :=
  match tx_phase t with
  | Prepared | WalAppended | DurableDecision => (with_phase RecoveryRequired t, Ok ())
  | actual => (t, Err (WrongPhase Prepared actual))
  end.

Definition mark_visible (t : Transaction) : Transaction * result unit TransactionError :=
  transition DurableDecision Visible t.

Definition abort (t : Transaction) : Transaction * result unit TransactionError :=
  match tx_phase t with
  | Active | Validating | Prepared => (with_commit None None (with_phase Aborted t), Ok ())
  | actual => (t, Err (WrongPhase Active actual))
  end.

Definition release (t : Transaction) : Transaction * result unit TransactionError :=
  match tx_phase t with
  | Visible | Aborted => (with_phase Released t, Ok ())
  | actual => (t, Err (WrongPhase Visible actual))
  end.

(** ** The read-your-writes overlay *)
Inductive StagedOrderedLookup :=
| StagedPut (value : bytes)
| StagedDelete
| Unchanged.

Definition staged_ordered_lookup (object : StorageObjectId) (key : bytes) (t : Transaction)
    : StagedOrderedLookup :=
  match List.find (λ m, (lm_object m =? object) && bool_decide (lm_key m = key))%bool
          (rev (tx_mutations t)) with
  | None => Unchanged
  | Some mutation =>
      match lm_kind mutation with
      | OrderedPut => StagedPut (lm_value mutation)
      | OrderedDelete => StagedDelete
      end
  end.

(** ** Histories of calls *)
Inductive TxnOp :=
| OpPut (object : StorageObjectDescriptor) (key value : bytes)
| OpDelete (object : StorageObjectDescriptor) (key : bytes)
| OpBeginValidation
| OpPrepared (csn : CommitSeq)
| OpWalAppended (lsn : Lsn)
| OpDurable (lsn : Lsn)
| OpRecoveryRequired
| OpVisible
| OpAbort
| OpRelease.

Definition exec (op : TxnOp) (t : Transaction) : Transaction :=
  match op with
  | OpPut o k v => (stage_ordered_put o k v t).1
  | OpDelete o k => (stage_ordered_delete o k t).1
  | OpBeginValidation => (begin_validation t).1
  | OpPrepared csn => (mark_prepared csn t).1
  | OpWalAppended lsn => (mark_wal_appended lsn t).1
  | OpDurable lsn => (mark_durable lsn t).1
  | OpRecoveryRequired => (mark_recovery_required t).1
  | OpVisible => (mark_visible t).1
  | OpAbort => (abort t).1
  | OpRelease => (release t).1
  end.

Definition run (ops : list TxnOp) (t : Transaction) : Transaction :=
  fold_left (λ t op, exec op t) ops t.

(** What the fields hold in each phase. *)
Definition txn_inv (t : Transaction) : Prop :=
  valid_stream (tx_id t) 0 (tx_mutations t) ∧
  match tx_phase t with
  | Active | Validating | Aborted =>
      tx_commit_seq t = None ∧ tx_decision_lsn t = None ∧ tx_position t = None
  | Prepared => is_Some (tx_commit_seq t) ∧ tx_decision_lsn t = None ∧ tx_position t = None
  | WalAppended => is_Some (tx_commit_seq t) ∧ is_Some (tx_decision_lsn t) ∧ tx_position t = None
  | DurableDecision | Visible =>
      ∃ csn lsn, tx_commit_seq t = Some csn ∧ tx_decision_lsn t = Some lsn ∧
        tx_position t = Some {| cp_csn := csn; cp_lsn := lsn |}
  | RecoveryRequired =>
      is_Some (tx_commit_seq t) ∧
      ∀ p, tx_position t = Some p →
        tx_commit_seq t = Some (cp_csn p) ∧ tx_decision_lsn t = Some (cp_lsn p)
  | Released =>
      tx_commit_seq t = None ∧ tx_decision_lsn t = None ∧ tx_position t = None ∨
      ∃ csn lsn, tx_commit_seq t = Some csn ∧ tx_decision_lsn t = Some lsn ∧
        tx_position t = Some {| cp_csn := csn; cp_lsn := lsn |}
  end.

(** The decision may have reached the physical log. *)
Definition decided (t : Transaction) : Prop := is_Some (tx_decision_lsn t).

(** ** The steps a transaction can take

    One constructor per call that succeeds; a call that fails changes nothing. *)
Inductive txn_step : Transaction → Transaction → Prop :=
| step_stage t m :
    tx_phase t = Active → len (tx_mutations t) ≤ U32_MAX →
    lm_ordinal m = len (tx_mutations t) → lm_txn_id m = tx_id t →
    txn_step t (push_mutation m t)
| step_validate t : tx_phase t = Active → txn_step t (with_phase Validating t)
| step_prepare t csn :
    tx_phase t = Validating →
    txn_step t (with_commit (Some csn) (tx_decision_lsn t) (with_phase Prepared t))
| step_append t lsn :
    tx_phase t = Prepared →
    txn_step t (with_commit (tx_commit_seq t) (Some lsn) (with_phase WalAppended t))
| step_durable t csn lsn :
    tx_phase t = WalAppended → tx_decision_lsn t = Some lsn → tx_commit_seq t = Some csn →
    txn_step t (with_phase DurableDecision
                  (with_position (Some {| cp_csn := csn; cp_lsn := lsn |}) t))
| step_fence t :
    tx_phase t = Prepared ∨ tx_phase t = WalAppended ∨ tx_phase t = DurableDecision →
    txn_step t (with_phase RecoveryRequired t)
| step_visible t : tx_phase t = DurableDecision → txn_step t (with_phase Visible t)
| step_abort t :
    tx_phase t = Active ∨ tx_phase t = Validating ∨ tx_phase t = Prepared →
    txn_step t (with_commit None None (with_phase Aborted t))
| step_release t :
    tx_phase t = Visible ∨ tx_phase t = Aborted → txn_step t (with_phase Released t).

Lemma require_phase_Ok p t : require_phase p t = Ok () ↔ tx_phase t = p.
Proof. unfold require_phase. case_decide; split; done. Qed.

Lemma transition_cases p q t :
  transition p q t = (with_phase q t, Ok ()) ∧ tx_phase t = p ∨
  transition p q t = (t, Err (WrongPhase p (tx_phase t))) ∧ tx_phase t ≠ p.
Proof. unfold transition, require_phase. case_decide; auto. Qed.

Lemma stage_cases object (mk : Z → LoggedMutation) t r :
  (do? (t, _) := (t, require_phase Active t) in
   do? (t, _) := (t, require_authoritative object) in
   do? (t, ordinal) := (t, next_ordinal t) in
   (push_mutation (mk ordinal) t, Ok ())) = r →
  r.1 = t ∧ is_ok r.2 = false ∨
  r = (push_mutation (mk (len (tx_mutations t))) t, Ok ()) ∧ tx_phase t = Active ∧
  len (tx_mutations t) ≤ U32_MAX ∧ od_authority object = Authoritative.
Proof.
  intros <-. unfold require_phase, require_authoritative, next_ordinal.
  case_decide; [|by left].
  destruct (od_authority object) eqn:Ea; cbn; [|by left].
  destruct (u32_try_from _) eqn:Eo; cbn; [|by left].
  apply u32_try_from_Some in Eo as [-> ?]. right. done.
Qed.

Lemma exec_step op t : exec op t = t ∨ txn_step t (exec op t).
Proof.
  destruct op; cbn [exec].
  - destruct (stage_cases object (λ o, ordered_put (tx_id t) o (od_id object) key value) t _ eq_refl)
      as [[? _]|(E & ? & ? & _)]; [by left|right]. unfold stage_ordered_put. rewrite E.
    by constructor.
  - destruct (stage_cases object (λ o, ordered_delete (tx_id t) o (od_id object) key) t _ eq_refl)
      as [[? _]|(E & ? & ? & _)]; [by left|right]. unfold stage_ordered_delete. rewrite E.
    by constructor.
  - unfold begin_validation. destruct (transition_cases Active Validating t) as [[-> ?]|[-> _]];
      [right; by apply step_validate|by left].
  - unfold mark_prepared. destruct (transition_cases Validating Prepared t) as [[-> ?]|[-> _]];
      [right; by apply (step_prepare t csn)|by left].
  - unfold mark_wal_appended. destruct (transition_cases Prepared WalAppended t) as [[-> ?]|[-> _]];
      [right; by apply (step_append t lsn)|by left].
  - unfold mark_durable, require_phase. case_decide; [|by left].
    destruct (tx_decision_lsn t) eqn:El; cbn; [|by left].
    destruct (negb _) eqn:Eq; [by left|]. bool_to_prop. subst.
    destruct (tx_commit_seq t) eqn:Ec; cbn; [|by left]. right. by constructor.
  - unfold mark_recovery_required. destruct (tx_phase t) eqn:E; auto; right; constructor; auto.
  - unfold mark_visible. destruct (transition_cases DurableDecision Visible t) as [[-> ?]|[-> _]];
      [right; by apply step_visible|by left].
  - unfold abort. destruct (tx_phase t) eqn:E; auto; right; constructor; auto.
  - unfold release. destruct (tx_phase t) eqn:E; auto; right; constructor; auto.
Qed.

Lemma run_rtc ops t : rtc txn_step t (run ops t).
Proof.
  revert t. induction ops as [|op ops IH]; intros t; cbn; [done|].
  destruct (exec_step op t) as [->|Hs]; [apply IH|]. by eapply rtc_l; [exact Hs|].
Qed.

(** ** Invariants, by induction over steps *)
Lemma txn_inv_new id snapshot : txn_inv (Transaction_new id snapshot).
Proof. by split. Qed.

Lemma step_inv t t' : txn_step t t' → txn_inv t → txn_inv t'.
Proof.
  intros Hs [Hv Hp]. destruct Hs as
    [t m Hph Hn Ho Ht|t Hph|t csn Hph|t lsn Hph|t csn lsn Hph Hl Hc|t Hph|t Hph|t Hph|t Hph];
    unfold txn_inv; cbn.
  1: { split; [apply valid_stream_snoc; rewrite Z.add_0_l; done|]. by rewrite Hph in *. }
  all: split; [done|].
  1-4: rewrite Hph in Hp; naive_solver.
  all: try (destruct Hph as [Hph|[Hph|Hph]]; rewrite Hph in Hp; naive_solver).
  - rewrite Hph in Hp. naive_solver.
  - destruct Hph as [Hph|Hph]; rewrite Hph in Hp; naive_solver.
Qed.

Lemma reachable_inv t t' : rtc txn_step t t' → txn_inv t → txn_inv t'.
Proof. induction 1; eauto using step_inv. Qed.

Lemma step_frozen t t' :
  txn_step t t' →
  tx_id t' = tx_id t ∧ tx_snapshot t' = tx_snapshot t ∧
  (tx_phase t ≠ Active → tx_mutations t' = tx_mutations t ∧ tx_phase t' ≠ Active).
Proof. destruct 1; cbn; naive_solver. Qed.

Lemma reachable_frozen t t' :
  rtc txn_step t t' →
  tx_id t' = tx_id t ∧ tx_snapshot t' = tx_snapshot t ∧
  (tx_phase t ≠ Active → tx_mutations t' = tx_mutations t ∧ tx_phase t' ≠ Active).
Proof.
  induction 1 as [|t t1 t2 Hs%step_frozen _ IH]; [done|].
  destruct Hs as (? & ? & Hf), IH as (? & ? & Hg). split_and!; [congruence..|].
  intros Hp. destruct (Hf Hp) as [? Hp1]. destruct (Hg Hp1). split; congruence.
Qed.

(** The phases of a transaction whose decision may be in the log. *)
Definition past_append (p : TransactionPhase) : Prop :=
  match p with
  | WalAppended | DurableDecision | Visible | RecoveryRequired | Released => True
  | Active | Validating | Prepared | Aborted => False
  end.

Lemma decided_past_append t : txn_inv t → decided t → past_append (tx_phase t).
Proof.
  intros [_ Hp] [l Hl]. destruct (tx_phase t); cbn; auto; destruct_and!; congruence.
Qed.

Lemma step_decided t t' :
  txn_step t t' → txn_inv t → decided t →
  tx_decision_lsn t' = tx_decision_lsn t ∧ tx_commit_seq t' = tx_commit_seq t.
Proof.
  intros Hs Hi Hd. pose proof (decided_past_append t Hi Hd) as Hp.
  destruct Hs as [t m Hph|t Hph|t csn Hph|t lsn Hph|t csn lsn Hph|t Hph|t Hph|t Hph|t Hph];
    cbn; try done; try (rewrite Hph in Hp; done).
  destruct Hph as [Hph|[Hph|Hph]]; rewrite Hph in Hp; done.
Qed.

Lemma reachable_decided t t' :
  rtc txn_step t t' → txn_inv t → decided t →
  txn_inv t' ∧ tx_decision_lsn t' = tx_decision_lsn t ∧ tx_commit_seq t' = tx_commit_seq t.
Proof.
  induction 1 as [t|t t1 t2 Hs _ IH]; intros Hi Hd; [done|].
  pose proof (step_inv _ _ Hs Hi) as Hi1.
  destruct (step_decided _ _ Hs Hi Hd) as [El Ec].
  destruct IH as (? & El' & Ec'); [done|unfold decided in *; by rewrite El|].
  split_and!; congruence.
Qed.

Lemma staged_lookup_last object key t :
  List.find (λ m, (lm_object m =? object) && bool_decide (lm_key m = key))%bool
    (rev (tx_mutations t)) = last_for (object, key) (tx_mutations t).
Proof.
  unfold last_for. generalize (rev (tx_mutations t)) as ms. intros ms.
  induction ms as [|m ms IH]; cbn; [done|].
  assert ((lm_object m =? object) && bool_decide (lm_key m = key)
    = bool_decide (effect_key m = (object, key)))%bool as ->; [|by rewrite IH].
  apply eq_true_iff_eq. rewrite andb_true_iff, Z.eqb_eq, !bool_decide_eq_true.
  unfold effect_key. naive_solver.
Qed.

(** C30. Whatever sequence of calls a transaction sees, its staged stream keeps
    contiguous ordinals and its own identity, and the commit sequence, the
    decision LSN and the commit position are set exactly as its phase says. *)
Theorem transaction_invariant id snapshot ops :
  txn_inv (run ops (Transaction_new id snapshot)).
Proof. eapply reachable_inv; [apply run_rtc|apply txn_inv_new]. Qed.

(** Once the decision has been appended no sequence of calls aborts the
    transaction or changes its write set, its commit sequence or its decision
    LSN: it ends durable and visible, fenced for recovery, or released. *)
Theorem decided_never_aborts id snapshot ops ops' :
  let t := run ops (Transaction_new id snapshot) in
  let t' := run ops' t in
  decided t →
  past_append (tx_phase t') ∧ tx_decision_lsn t' = tx_decision_lsn t ∧
  tx_commit_seq t' = tx_commit_seq t ∧ is_Some (tx_commit_seq t) ∧
  tx_mutations t' = tx_mutations t.
Proof.
  intros t t' Hd.
  assert (txn_inv t) as Hi by (eapply reachable_inv; [apply run_rtc|apply txn_inv_new]).
  pose proof (run_rtc ops' t) as Hr. fold t' in Hr.
  destruct (reachable_decided _ _ Hr Hi Hd) as (Hi' & El & Ec).
  pose proof (decided_past_append _ Hi Hd) as Hp.
  destruct (reachable_frozen _ _ Hr) as (_ & _ & Hf).
  split_and!; [|done|done| |].
  - apply decided_past_append; [done|]. unfold decided in *. by rewrite El.
  - destruct Hi as [_ Hph], Hd as [l Hl]. destruct (tx_phase t); naive_solver.
  - apply Hf. intros E. by rewrite E in Hp.
Qed.

Lemma decided_never_aborts_witness :
  let t := run [OpPut {| od_id := 1; od_authority := Authoritative |} [] []; OpBeginValidation;
                OpPrepared 5; OpWalAppended 40] (Transaction_new 7 3) in
  past_append (tx_phase (run [OpAbort; OpDurable 40; OpAbort] t)).
Proof.
  apply (decided_never_aborts 7 3
    [OpPut {| od_id := 1; od_authority := Authoritative |} [] []; OpBeginValidation;
     OpPrepared 5; OpWalAppended 40] [OpAbort; OpDurable 40; OpAbort]).
  exists 40. reflexivity.
Defined.

(** The private read-your-writes view agrees with what the commit will
    install: in any reachable state the overlay answers a key with the final
    effect for it, and with [Unchanged] exactly when the write set has none. *)
Theorem overlay_agrees_with_final_effects id snapshot ops object key :
  id ≠ 0 →
  let t := run ops (Transaction_new id snapshot) in
  ∃ fx, final_effects t = Ok fx ∧
    match staged_ordered_lookup object key t with
    | StagedPut v => ∃ e, e ∈ fx ∧ effect_key (fe_mutation e) = (object, key) ∧
                          fe_kind e = OrderedPut ∧ fe_value e = v
    | StagedDelete => ∃ e, e ∈ fx ∧ effect_key (fe_mutation e) = (object, key) ∧
                           fe_kind e = OrderedDelete
    | Unchanged => ∀ e, e ∈ fx → effect_key (fe_mutation e) ≠ (object, key)
    end.
Proof.
  intros Hid t. pose proof (run_rtc ops (Transaction_new id snapshot)) as Hr. fold t in Hr.
  destruct (reachable_inv _ _ Hr (txn_inv_new _ _)) as [Hv _].
  destruct (reachable_frozen _ _ Hr) as (Eid & _ & _). cbn in Eid.
  destruct (normalize_valid_ok (tx_id t) (tx_mutations t)) as [fx Hfx]; [congruence|done|].
  exists fx. split; [exact Hfx|].
  apply normalize_ok_inv in Hfx as (_ & _ & m & [_ Hel]%index_of_values & ->).
  unfold staged_ordered_lookup. rewrite staged_lookup_last.
  destruct (last_for (object, key) (tx_mutations t)) as [x|] eqn:El.
  - pose proof (last_for_key _ _ _ El) as [Ek _].
    assert (Build_FinalEffect x ∈ Build_FinalEffect <$> m.*2) by (apply Hel; by rewrite Ek).
    destruct (lm_kind x) eqn:Ekind; by exists (Build_FinalEffect x).
  - intros [x] Hx%Hel%last_for_key. cbn. apply (proj1 (last_for_None _ _) El). apply Hx.
Qed.

Lemma overlay_agrees_with_final_effects_witness :
  ∃ fx, final_effects (run [OpPut {| od_id := 1; od_authority := Authoritative |} [u8 1] [u8 2];
                            OpDelete {| od_id := 1; od_authority := Authoritative |} [u8 1]]
                         (Transaction_new 7 3)) = Ok fx ∧
    ∃ e, e ∈ fx ∧ effect_key (fe_mutation e) = (1, [u8 1]) ∧ fe_kind e = OrderedDelete.
Proof.
  apply (overlay_agrees_with_final_effects 7 3
    [OpPut {| od_id := 1; od_authority := Authoritative |} [u8 1] [u8 2];
     OpDelete {| od_id := 1; od_authority := Authoritative |} [u8 1]] 1 [u8 1]).
  lia.
Defined.
