(* ===== verification/LogIo.v ===== *)
(** * The durable-log seam

    Models [crates/seerdb/src/vnext/log_io.rs]: the encoded batch of one
    transaction, the [LogDevice] contract as a class with its laws, and the
    fencing wrapper [DurableLog].  A device operation returns the device it leaves
    behind, so that a failed operation can have had any partial effect its laws
    allow. *)
From S2P Require Import Prelude StdCollections Ids Crc Fs Log WriteSet Txn.

Local Open Scope Z_scope.
Local Open Scope seer_scope.

Inductive LogIoOperation := OpAppend | OpSync.

(** ** The device contract *)
Class LogDevice (D : Type) := {
  device_append : bytes → D → D * result Lsn IoErrorKind;
  device_sync_through : Lsn → D → D * result unit IoErrorKind
}.

(** What the trait's documentation promises, over the batches [bs] a device holds
    with their end positions.  [device_repr] is a device in service,
    [device_keeps] one whose last operation may have failed half way, and
    [device_synced d lsn] says everything up to [lsn] survives a crash.  A
    successful append places the batch after every earlier one in a single log
    order and returns the position after its last byte; a failed operation leaves
    the batches appended before it; a successful sync makes its target durable. *)
Class LogDeviceLaws (D : Type) `{LogDevice D} := {
  device_repr : D → list (Lsn * bytes) → Prop;
  device_keeps : D → list (Lsn * bytes) → Prop;
  device_synced : D → Lsn → Prop;
  device_repr_keeps d bs : device_repr d bs → device_keeps d bs;
  device_append_ok batch bs d d' lsn :
    device_repr d bs → device_append batch d = (d', Ok lsn) →
    device_repr d' (bs ++ [(lsn, batch)]) ∧ Forall (λ b, b.1 < lsn) bs ∧ 0 < lsn;
  device_append_err batch bs d d' e :
    device_repr d bs → device_append batch d = (d', Err e) → device_keeps d' bs;
  device_sync_ok lsn bs d d' u :
    device_repr d bs → device_sync_through lsn d = (d', Ok u) →
    device_repr d' bs ∧ device_synced d' lsn;
  device_sync_err lsn bs d d' e :
    device_repr d bs → device_sync_through lsn d = (d', Err e) → device_keeps d' bs;
  device_append_synced batch bs d d' r lsn :
    device_repr d bs → device_append batch d = (d', r) → device_synced d lsn → device_synced d' lsn;
  device_sync_synced target bs d d' r lsn :
    device_repr d bs → device_sync_through target d = (d', r) →
    device_synced d lsn → device_synced d' lsn
}.

(** ** Encoded batches *)
Record PreparedLogBatch := {
  plb_txn_id : TxnId;
  plb_csn : CommitSeq;
  plb_bytes : bytes
}.

Inductive PrepareLogBatchError :=
| PrepareTransaction (e : TransactionError)
| PrepareEncoding (e : LogEncodeError).

Section batches.
Context `{Crc32c}.

(** The loop of [from_decision] over the mutations, with its running total. *)
Fixpoint encode_mutations (mutations : list LoggedMutation) (encoded : list bytes) (total : Z)
    : result (list bytes * Z) LogEncodeError :=
  match mutations with
  | [] => Ok (encoded, total)
  | mutation :: rest =>
      let? bs := to_bytes (Mutation mutation) in
      let? total := ok_or (checked_add total (len bs)) RecordTooLarge in
      encode_mutations rest (encoded ++ [bs]) total
  end.

Definition from_decision (decision : CommitDecision) (mutations : list LoggedMutation)
    : result PreparedLogBatch LogEncodeError :=
  let? (encoded, total) := encode_mutations mutations [] 0 in
  let? decision_bytes := to_bytes (Commit decision) in
  let? total := ok_or (checked_add total (len decision_bytes)) RecordTooLarge in
  Ok {| plb_txn_id := cd_txn_id decision; plb_csn := cd_csn decision;
        plb_bytes := concat (encoded ++ [decision_bytes]) |}.

Definition from_transaction (transaction : Transaction)
    : result PreparedLogBatch PrepareLogBatchError :=
  let? decision := map_err PrepareTransaction (commit_decision transaction) in
  map_err PrepareEncoding (from_decision decision (tx_mutations transaction)).

Definition for_commit (txn_id : TxnId) (csn : CommitSeq) (mutations : list LoggedMutation)
    : result PreparedLogBatch LogEncodeError :=
  let? count := ok_or (u32_try_from (len mutations)) RecordTooLarge in
  let? digest := mutation_digest mutations in
  from_decision {| cd_txn_id := txn_id; cd_csn := csn; cd_mutation_count := count;
                   cd_mutation_digest := digest |} mutations.

(** The records of one committed transaction, in log order. *)
Definition commit_records (txn : TxnId) (csn : CommitSeq) (ms : list LoggedMutation) (digest : Z)
    : list LogRecord :=
  (Mutation <$> ms) ++
  [Commit {| cd_txn_id := txn; cd_csn := csn; cd_mutation_count := len ms;
             cd_mutation_digest := digest |}].

Lemma encode_mutations_Ok ms encoded total r :
  encode_mutations ms encoded total = Ok r →
  ∃ es, encode_log (Mutation <$> ms) = Ok es ∧ r.1 = encoded ++ es.
Proof.
  revert encoded total. induction ms as [|m ms IH]; intros encoded total; cbn [encode_mutations].
  - intros [= <-]. exists []. by rewrite app_nil_r.
  - destruct (to_bytes (Mutation m)) as [e|] eqn:Ee; [|done].
    destruct (checked_add total (len e)); cbn [ok_or]; [|done].
    intros (es & He & ->)%IH. exists (e :: es).
    change (Mutation <$> m :: ms) with (Mutation m :: (Mutation <$> ms)). cbn [encode_log].
    rewrite Ee, He. split; [done|]. by rewrite <-app_assoc.
Qed.

Lemma from_decision_Ok d ms b :
  from_decision d ms = Ok b →
  ∃ es, encode_log ((Mutation <$> ms) ++ [Commit d]) = Ok es ∧
    plb_bytes b = concat es ∧ plb_txn_id b = cd_txn_id d ∧ plb_csn b = cd_csn d.
Proof.
  unfold from_decision. destruct (encode_mutations ms [] 0) as [[encoded total]|] eqn:E; [|done].
  apply encode_mutations_Ok in E as (es & He & Ees). cbn in Ees. subst encoded.
  destruct (to_bytes (Commit d)) as [db|] eqn:Ed; [|done].
  destruct (checked_add total (len db)); cbn [ok_or]; [|done]. intros [= <-]. cbn.
  exists (es ++ [db]). split; [|done]. apply encode_log_app. exists es, [db].
  split; [done|]. split; [|done]. cbn [encode_log]. by rewrite Ed.
Qed.

Lemma for_commit_Ok txn csn ms b :
  for_commit txn csn ms = Ok b →
  ∃ digest es, mutation_digest ms = Ok digest ∧ len ms ≤ U32_MAX ∧
    encode_log (commit_records txn csn ms digest) = Ok es ∧
    plb_bytes b = concat es ∧ plb_txn_id b = txn ∧ plb_csn b = csn.
Proof.
  unfold for_commit. destruct (u32_try_from (len ms)) as [c|] eqn:Ec; cbn [ok_or]; [|done].
  apply u32_try_from_Some in Ec as [-> ?].
  destruct (mutation_digest ms) as [digest|] eqn:Ed; [|done].
  intros (es & He & ? & ? & ?)%from_decision_Ok. exists digest, es. done.
Qed.

(** A transaction prepared with a commit sequence encodes to the very batch the
    append lane builds for it before preparing it. *)
Lemma from_transaction_for_commit t csn b :
  tx_phase t = Prepared → tx_commit_seq t = Some csn → len (tx_mutations t) ≤ U32_MAX →
  from_transaction t = Ok b ↔ for_commit (tx_id t) csn (tx_mutations t) = Ok b.
Proof.
  intros Hp Hc Hl. unfold from_transaction, commit_decision, for_commit, require_phase.
  rewrite Hp, Hc, decide_True by done. cbn [ok_or].
  unfold u32_try_from. rewrite (proj2 (Z.leb_le _ _) Hl). cbn [ok_or].
  destruct (mutation_digest _) as [d|e]; cbn [map_err]; [|done].
  destruct (from_decision _ _) as [b'|e]; cbn; [|done]. split; congruence.
Qed.
End batches.

(** ** The fencing wrapper *)
Record AppendTicket := {
  at_txn_id : TxnId;
  at_csn : CommitSeq;
  at_decision_lsn : Lsn
}.

Inductive DurableLogError :=
| Fenced
| Poisoned
| Io (operation : LogIoOperation) (source : IoErrorKind).

(** [dl_poisoned] is the poison flag of the [operations] mutex. *)
Record DurableLog (D : Type) := {
  dl_device : D;
  dl_poisoned : bool;
  dl_fenced : bool;
  dl_durable_lsn : Z
}.
Arguments dl_device {D} _.
Arguments dl_poisoned {D} _.
Arguments dl_fenced {D} _.
Arguments dl_durable_lsn {D} _.

Section durable_log.
Context {D : Type} `{LogDevice D}.
Implicit Types (log : DurableLog D).

Definition DurableLog_new (device : D) : DurableLog D :=
  {| dl_device := device; dl_poisoned := false; dl_fenced := false; dl_durable_lsn := 0 |}.

Definition set_device (d : D) log : DurableLog D :=
  {| dl_device := d; dl_poisoned := dl_poisoned log; dl_fenced := dl_fenced log;
     dl_durable_lsn := dl_durable_lsn log |}.

Definition store_fenced log : DurableLog D :=
  {| dl_device := dl_device log; dl_poisoned := dl_poisoned log; dl_fenced := true;
     dl_durable_lsn := dl_durable_lsn log |}.

(** [fetch_max] on the durable frontier. *)
Definition fetch_max_durable (lsn : Lsn) log : DurableLog D :=
  {| dl_device := dl_device log; dl_poisoned := dl_poisoned log; dl_fenced := dl_fenced log;
     dl_durable_lsn := Z.max (dl_durable_lsn log) lsn |}.

Definition lock_operation log : DurableLog D * result unit DurableLogError :=
  if dl_poisoned log then (store_fenced log, Err Poisoned) else (log, Ok ()).

Definition log_ensure_open log : result unit DurableLogError :=
  if dl_fenced log then Err Fenced else Ok ().

Definition log_append (batch : PreparedLogBatch) log
    : DurableLog D * result AppendTicket DurableLogError :=
  do? (log, _) := lock_operation log in
  do? (log, _) := (log, log_ensure_open log) in
  match device_append (plb_bytes batch) (dl_device log) with
  | (d, Err source) => (store_fenced (set_device d log), Err (Io OpAppend source))
  | (d, Ok decision_lsn) =>
      (set_device d log,
       Ok {| at_txn_id := plb_txn_id batch; at_csn := plb_csn batch;
             at_decision_lsn := decision_lsn |})
  end.

Definition log_sync_through (lsn : Lsn) log : DurableLog D * result unit DurableLogError :=
  do? (log, _) := lock_operation log in
  do? (log, _) := (log, log_ensure_open log) in
  match device_sync_through lsn (dl_device log) with
  | (d, Err source) => (store_fenced (set_device d log), Err (Io OpSync source))
  | (d, Ok _) => (fetch_max_durable lsn (set_device d log), Ok ())
  end.

Definition durable_lsn log : option Lsn :=
  if dl_durable_lsn log =? 0 then None else Some (dl_durable_lsn log).

(** ** Histories of log calls *)
Inductive LogOp := LAppend (batch : PreparedLogBatch) | LSync (lsn : Lsn).

Definition log_exec (op : LogOp) log : DurableLog D :=
  match op with
  | LAppend b => (log_append b log).1
  | LSync lsn => (log_sync_through lsn log).1
  end.

Definition log_run (ops : list LogOp) log : DurableLog D :=
  fold_left (λ log op, log_exec op log) ops log.

(** The outcomes of one call. *)
Lemma log_append_cases batch log log' r :
  log_append batch log = (log', r) →
  dl_device log' = dl_device log ∧ dl_durable_lsn log' = dl_durable_lsn log ∧
    (r = Err Poisoned ∧ dl_poisoned log = true ∧ dl_fenced log' = true ∨
     r = Err Fenced ∧ dl_fenced log = true ∧ dl_fenced log' = true) ∨
  dl_fenced log = false ∧ dl_poisoned log = false ∧
  ∃ d r', device_append (plb_bytes batch) (dl_device log) = (d, r') ∧ dl_device log' = d ∧
    dl_durable_lsn log' = dl_durable_lsn log ∧ dl_poisoned log' = false ∧
    match r' with
    | Ok lsn => dl_fenced log' = false ∧
        r = Ok {| at_txn_id := plb_txn_id batch; at_csn := plb_csn batch;
                  at_decision_lsn := lsn |}
    | Err e => dl_fenced log' = true ∧ r = Err (Io OpAppend e)
    end.
Proof.
  unfold log_append, lock_operation, log_ensure_open.
  destruct (dl_poisoned log) eqn:Ep; [intros [= <- <-]; left; naive_solver|].
  destruct (dl_fenced log) eqn:Ef; [intros [= <- <-]; left; naive_solver|].
  destruct (device_append _ _) as [d [lsn|e]] eqn:Ed; intros [= <- <-]; right;
    do 2 (split; [done|]); eexists _, _; by split_and!.
Qed.

Lemma log_sync_cases lsn log log' r :
  log_sync_through lsn log = (log', r) →
  dl_device log' = dl_device log ∧ dl_durable_lsn log' = dl_durable_lsn log ∧
    is_ok r = false ∧ dl_fenced log' = true ∨
  dl_fenced log = false ∧ dl_poisoned log = false ∧
  ∃ d r', device_sync_through lsn (dl_device log) = (d, r') ∧ dl_device log' = d ∧
    dl_poisoned log' = false ∧
    match r' with
    | Ok _ => dl_fenced log' = false ∧ r = Ok () ∧
        dl_durable_lsn log' = Z.max (dl_durable_lsn log) lsn
    | Err e => dl_fenced log' = true ∧ r = Err (Io OpSync e) ∧
        dl_durable_lsn log' = dl_durable_lsn log
    end.
Proof.
  unfold log_sync_through, lock_operation, log_ensure_open.
  destruct (dl_poisoned log) eqn:Ep; [intros [= <- <-]; left; naive_solver|].
  destruct (dl_fenced log) eqn:Ef; [intros [= <- <-]; left; naive_solver|].
  destruct (device_sync_through _ _) as [d [[]|e]] eqn:Ed; intros [= <- <-]; right;
    do 2 (split; [done|]); eexists _, _; by split_and!.
Qed.

Lemma log_exec_fenced op log :
  dl_fenced log = true ∨ dl_poisoned log = true →
  dl_fenced (log_exec op log) = true ∧ dl_device (log_exec op log) = dl_device log ∧
  dl_durable_lsn (log_exec op log) = dl_durable_lsn log.
Proof.
  intros Hf. destruct op as [b|lsn]; cbn.
  - destruct (log_append b log) as [log' r] eqn:E; cbn.
    apply log_append_cases in E as [(? & ? & Hr)|(? & ? & _)]; [|destruct Hf; congruence].
    split; [|done]. by destruct Hr as [(_ & _ & ?)|(_ & _ & ?)].
  - destruct (log_sync_through lsn log) as [log' r] eqn:E; cbn.
    apply log_sync_cases in E as [(? & ? & ? & ?)|(? & ? & _)]; [done|destruct Hf; congruence].
Qed.

(** The fence is permanent: after an append or a sync fails, no later call of
    any kind reaches the device or moves the durable frontier. *)
Theorem fence_is_permanent ops log :
  dl_fenced log = true →
  dl_fenced (log_run ops log) = true ∧ dl_device (log_run ops log) = dl_device log ∧
  dl_durable_lsn (log_run ops log) = dl_durable_lsn log.
Proof.
  revert log. induction ops as [|op ops IH]; intros log Hf; [done|]. cbn.
  destruct (log_exec_fenced op log) as (Hf' & <- & <-); [by left|]. by apply IH.
Qed.
End durable_log.

(** ** A device in memory

    The simplest implementation of the contract, for concrete runs: batches end at
    the running byte total, and an empty batch is refused. *)
Definition memory_end (d : list (Lsn * bytes)) : Lsn := default 0 (fst <$> last d).

#[local] Instance memory_device : LogDevice (list (Lsn * bytes)) := {
  device_append bs d :=
    if len bs =? 0 then (d, Err InvalidInput)
    else (d ++ [(memory_end d + len bs, bs)], Ok (memory_end d + len bs));
  device_sync_through lsn d :=
    if memory_end d <? lsn then (d, Err InvalidInput) else (d, Ok ())
}.

#[local] Program Instance memory_device_laws : LogDeviceLaws (list (Lsn * bytes)) := {
  device_repr d bs := d = bs ∧ 0 ≤ memory_end d ∧ Forall (λ b, b.1 ≤ memory_end d) d;
  device_keeps d bs := d = bs;
  device_synced d lsn := lsn ≤ memory_end d
}.
Next Obligation. by intros d bs [? _]. Qed.
Next Obligation.
  cbn. intros batch bs d d' lsn (-> & H0 & Hwf). destruct (len batch =? 0) eqn:E; [done|].
  intros [= <- <-]. bool_to_prop. pose proof (len_nonneg batch).
  assert (memory_end (bs ++ [(memory_end bs + len batch, batch)]) = memory_end bs + len batch) as ->
    by (unfold memory_end at 1; by rewrite last_snoc).
  assert (Forall (λ b : Lsn * bytes, b.1 < memory_end bs + len batch) bs).
  { eapply Forall_impl; [exact Hwf|]. cbn. intros; lia. }
  split_and!; [done|lia| |done|lia]. apply Forall_app. split; [|by repeat constructor].
  eapply Forall_impl; [done|]. cbn. intros; lia.
Qed.
Next Obligation. cbn. intros batch bs d d' e (-> & _). destruct (_ =? _); congruence. Qed.
Next Obligation.
  cbn. intros lsn bs d d' u Hr. destruct (_ <? _) eqn:E; intros [= <- <-]; bool_to_prop.
  split; [done|lia].
Qed.
Next Obligation.
  cbn. intros lsn bs d d' e (-> & _). destruct (_ <? _); congruence.
Qed.
Next Obligation.
  cbn. intros batch bs d d' r lsn _. pose proof (len_nonneg batch).
  destruct (len batch =? 0); intros [= <- <-]; [done|].
  intros Hs. unfold memory_end at 1. rewrite last_snoc. cbn. unfold memory_end in *. lia.
Qed.
Next Obligation. cbn. intros t bs d d' r lsn _. destruct (_ <? _); congruence. Qed.

Lemma fence_is_permanent_witness :
  dl_device (log_run [LAppend {| plb_txn_id := 1; plb_csn := 1; plb_bytes := [u8 7] |}]
               (log_exec (LAppend {| plb_txn_id := 1; plb_csn := 1; plb_bytes := [] |})
                  (DurableLog_new []))) = [].
Proof.
  refine (proj1 (proj2 (fence_is_permanent
    [LAppend {| plb_txn_id := 1; plb_csn := 1; plb_bytes := [u8 7] |}]
    (log_exec (LAppend {| plb_txn_id := 1; plb_csn := 1; plb_bytes := [] |})
       (DurableLog_new [])) _))).
  reflexivity.
Defined.
