(* ===== verification/CommitAppend.v ===== *)
(** * The commit append lane

    Models [crates/seerdb/src/vnext/commit_append.rs]: the lane that assigns commit
    sequences in physical log order.  The theorems are proved against the
    [LogDeviceLaws] contract, so they hold for every device that meets it. *)
From S2P Require Import Prelude StdCollections Ids Crc Fs Log WriteSet Txn LogIo.

Local Open Scope Z_scope.
Local Open Scope seer_scope.

Inductive CommitAppendError :=
| AppendWrongPhase (actual : TransactionPhase)
| AppendLanePoisoned
| CommitSeqExhausted
| AppendWriteSet (e : FinalWriteSetError)
| AppendEncoding (e : LogEncodeError)
| AppendTransaction (e : TransactionError)
| LogUnavailable (e : DurableLogError)
| OutcomeUncertain (error : DurableLogError) (state_error : option TransactionError)
| StateAfterAppend (source : TransactionError) (state_error : option TransactionError).

(** [ca_poisoned] is the poison flag of the [lane] mutex. *)
Record CommitAppender (D : Type) := {
  ca_log : DurableLog D;
  ca_next_csn : option Z;
  ca_poisoned : bool
}.
Arguments ca_log {D} _.
Arguments ca_next_csn {D} _.
Arguments ca_poisoned {D} _.

(** [result.err()] *)
Definition err_of {A E} (r : result A E) : option E :=
  match r with Ok _ => None | Err e => Some e end.

Section lane.
Context `{Crc32c} {D : Type} `{LogDevice D}.
Implicit Types (ca : CommitAppender D) (t : Transaction).

Definition CommitAppender_new (log : DurableLog D) (recovered_csn : CommitSeq)
    : CommitAppender D :=
  {| ca_log := log; ca_next_csn := checked_add recovered_csn 1; ca_poisoned := false |}.

Definition with_log (log : DurableLog D) ca : CommitAppender D :=
  {| ca_log := log; ca_next_csn := ca_next_csn ca; ca_poisoned := ca_poisoned ca |}.

Definition with_next_csn (next : option Z) ca : CommitAppender D :=
  {| ca_log := ca_log ca; ca_next_csn := next; ca_poisoned := ca_poisoned ca |}.

Definition append_validated ca t
    : CommitAppender D * Transaction * result AppendTicket CommitAppendError :=
  if negb (bool_decide (tx_phase t = Validating))
  then (ca, t, Err (AppendWrongPhase (tx_phase t)))
  else
  match final_effects t with
  | Err e => (ca, t, Err (AppendWriteSet e))
  | Ok _ =>
  if ca_poisoned ca then (ca, t, Err AppendLanePoisoned)
  else
  match ca_next_csn ca with
  | None => (ca, t, Err CommitSeqExhausted)
  | Some csn =>
  match for_commit (tx_id t) csn (tx_mutations t) with
  | Err e => (ca, t, Err (AppendEncoding e))
  | Ok batch =>
  match mark_prepared csn t with
  | (t, Err e) => (ca, t, Err (AppendTransaction e))
  | (t, Ok _) =>
  match log_append batch (ca_log ca) with
  | (log, Err (Io op source)) =>
      let '(t, state) := mark_recovery_required t in
      (with_log log ca, t, Err (OutcomeUncertain (Io op source) (err_of state)))
  | (log, Err error) =>
      match abort t with
      | (t, Err e) => (with_log log ca, t, Err (AppendTransaction e))
      | (t, Ok _) => (with_log log ca, t, Err (LogUnavailable error))
      end
  | (log, Ok ticket) =>
      let ca := with_next_csn (checked_add csn 1) (with_log log ca) in
      match mark_wal_appended (at_decision_lsn ticket) t with
      | (t, Err source) =>
          let '(t, state) := mark_recovery_required t in
          (ca, t, Err (StateAfterAppend source (err_of state)))
      | (t, Ok _) => (ca, t, Ok ticket)
      end
  end
  end
  end
  end
  end.

Definition appender_sync_through (lsn : Lsn) ca : CommitAppender D * result unit DurableLogError :=
  let '(log, r) := log_sync_through lsn (ca_log ca) in (with_log log ca, r).

Definition next_csn ca : result (option CommitSeq) CommitAppendError :=
  if ca_poisoned ca then Err AppendLanePoisoned else Ok (ca_next_csn ca).

(** The effect of a successful append on the transaction. *)
Definition appended_txn (csn : CommitSeq) (lsn : Lsn) t : Transaction :=
  with_commit (Some csn) (Some lsn) (with_phase WalAppended t).

Lemma append_validated_cases ca t ca' t' r :
  append_validated ca t = (ca', t', r) →
  match r with
  | Ok ticket => ∃ csn batch fx log,
      tx_phase t = Validating ∧ final_effects t = Ok fx ∧ ca_next_csn ca = Some csn ∧
      for_commit (tx_id t) csn (tx_mutations t) = Ok batch ∧
      log_append batch (ca_log ca) = (log, Ok ticket) ∧
      ca' = with_next_csn (checked_add csn 1) (with_log log ca) ∧
      t' = appended_txn csn (at_decision_lsn ticket) t
  | Err (OutcomeUncertain e st) => ∃ csn batch log op source,
      tx_phase t = Validating ∧ ca_next_csn ca = Some csn ∧
      for_commit (tx_id t) csn (tx_mutations t) = Ok batch ∧
      log_append batch (ca_log ca) = (log, Err e) ∧ e = Io op source ∧ st = None ∧
      ca' = with_log log ca ∧ tx_phase t' = RecoveryRequired
  | Err (LogUnavailable e) => ∃ batch log,
      log_append batch (ca_log ca) = (log, Err e) ∧ (e = Fenced ∨ e = Poisoned) ∧
      ca' = with_log log ca ∧ tx_phase t' = Aborted
  | Err (StateAfterAppend _ _) | Err (AppendTransaction _) => False
  | Err _ => ca' = ca ∧ t' = t
  end.
Proof.
  unfold append_validated. destruct (negb _) eqn:Ep; [by intros [= <- <- <-]|]. bool_to_prop.
  destruct (final_effects t) as [fx|] eqn:Efx; [|by intros [= <- <- <-]].
  destruct (ca_poisoned ca); [by intros [= <- <- <-]|].
  destruct (ca_next_csn ca) as [csn|] eqn:Ec; [|by intros [= <- <- <-]].
  destruct (for_commit _ _ _) as [batch|] eqn:Eb; [|by intros [= <- <- <-]].
  unfold mark_prepared. destruct (transition_cases Validating Prepared t) as [[-> _]|[_ ?]]; [|done].
  destruct (log_append batch (ca_log ca)) as [log [ticket|[| |op source]]] eqn:El.
  - unfold mark_wal_appended, transition, require_phase. rewrite decide_True by done.
    intros [= <- <- <-]. exists csn, batch, fx, log. done.
  - intros [= <- <- <-]. exists batch, log. auto.
  - intros [= <- <- <-]. exists batch, log. auto.
  - intros [= <- <- <-]. exists csn, batch, log, op, source. done.
Qed.
End lane.

(** ** Histories of the lane *)
Record Appended := { ap_ticket : AppendTicket; ap_mutations : list LoggedMutation }.

Inductive LaneOp := LaneAppend (t : Transaction) | LaneSync (lsn : Lsn).

Section history.
Context `{Crc32c} {D : Type} `{LogDevice D} `{!LogDeviceLaws D}.
Implicit Types (ca : CommitAppender D) (hist : list Appended).

Definition lane_exec (op : LaneOp) ca : CommitAppender D * list Appended :=
  match op with
  | LaneAppend t =>
      match append_validated ca t with
      | (ca, _, Ok ticket) => (ca, [{| ap_ticket := ticket; ap_mutations := tx_mutations t |}])
      | (ca, _, Err _) => (ca, [])
      end
  | LaneSync lsn => ((appender_sync_through lsn ca).1, [])
  end.

Fixpoint lane_run (ops : list LaneOp) ca : CommitAppender D * list Appended :=
  match ops with
  | [] => (ca, [])
  | op :: ops' =>
      let '(ca, h1) := lane_exec op ca in
      let '(ca, h2) := lane_run ops' ca in
      (ca, h1 ++ h2)
  end.

(** The batch a device holds for an appended transaction. *)
Definition encodes (a : Appended) (b : Lsn * bytes) : Prop :=
  let k := ap_ticket a in
  b.1 = at_decision_lsn k ∧ at_txn_id k ≠ 0 ∧ len (ap_mutations a) ≤ U32_MAX ∧
  valid_stream (at_txn_id k) 0 (ap_mutations a) ∧
  ∃ digest es, mutation_digest (ap_mutations a) = Ok digest ∧
    encode_log (commit_records (at_txn_id k) (at_csn k) (ap_mutations a) digest) = Ok es ∧
    b.2 = concat es.

(** The lane over a device that holds [bs]; a fenced log keeps them, an open one
    can take more, and what the log reports durable survives a crash. *)
Definition lane_holds ca (bs : list (Lsn * bytes)) : Prop :=
  device_keeps (dl_device (ca_log ca)) bs ∧
  (dl_fenced (ca_log ca) = false → device_repr (dl_device (ca_log ca)) bs) ∧
  (dl_durable_lsn (ca_log ca) = 0 ∨
   device_synced (dl_device (ca_log ca)) (dl_durable_lsn (ca_log ca))).

(** Commit sequences are consecutive from [first]. *)
Fixpoint consecutive (first : option Z) (hist : list Appended) : Prop :=
  match hist with
  | [] => True
  | a :: hist' =>
      first = Some (at_csn (ap_ticket a)) ∧
      consecutive (checked_add (at_csn (ap_ticket a)) 1) hist'
  end.

(** The next commit sequence after a history. *)
Definition csn_after (first : option Z) (hist : list Appended) : option Z :=
  match last hist with None => first | Some a => checked_add (at_csn (ap_ticket a)) 1 end.

Lemma consecutive_app first h1 h2 :
  consecutive first (h1 ++ h2) ↔ consecutive first h1 ∧ consecutive (csn_after first h1) h2.
Proof.
  revert first. induction h1 as [|a h1 IH]; intros first; cbn [consecutive app].
  - unfold csn_after; cbn. naive_solver.
  - rewrite IH. unfold csn_after. destruct h1 as [|b h1]; cbn; [naive_solver|].
    destruct (last (b :: h1)) eqn:E; cbn in E |- *; rewrite ?E; [naive_solver|].
    by apply last_None in E.
Qed.

Lemma csn_after_app first h1 h2 :
  csn_after first (h1 ++ h2) = csn_after (csn_after first h1) h2.
Proof. unfold csn_after. rewrite last_app. by destruct (last h2). Qed.

(** What a stretch of the lane's history does to a device that held [bs]: it
    appends the batches of [h], in order and after everything already there, and
    nothing else. *)
Definition lane_extends ca ca' h bs : Prop :=
  consecutive (ca_next_csn ca) h ∧
  ca_next_csn ca' = csn_after (ca_next_csn ca) h ∧
  ∃ bs', lane_holds ca' (bs ++ bs') ∧ Forall2 encodes h bs' ∧
    Forall (λ b', 0 < b'.1 ∧ Forall (λ b, b.1 < b'.1) bs) bs' ∧
    StronglySorted (λ b b', b.1 < b'.1) bs'.

Lemma lane_extends_nil ca ca' bs :
  ca_next_csn ca' = ca_next_csn ca → lane_holds ca' bs → lane_extends ca ca' [] bs.
Proof.
  intros Hn Hb. split_and!; try done. exists []. rewrite app_nil_r.
  split_and!; try done; constructor.
Qed.

Lemma log_append_failed ca batch log e bs :
  lane_holds ca bs → log_append batch (ca_log ca) = (log, Err e) →
  lane_holds (with_log log ca) bs ∧ dl_fenced log = true.
Proof.
  intros (Hk & Hr & Hs) El.
  apply log_append_cases in El as
    [(Hd & Hl & Hc)|(Hf & _ & d & [lsn|e'] & Ed & Hd & Hl & _ & Hc)]; [|by destruct Hc|].
  - assert (dl_fenced log = true) as Hf by (by destruct Hc as [(_ & _ & ?)|(_ & _ & ?)]).
    unfold lane_holds; cbn. rewrite Hd, Hl, Hf. done.
  - destruct Hc as [Hf' _]. specialize (Hr Hf). unfold lane_holds; cbn. rewrite Hd, Hl, Hf'.
    split_and!; [by eapply device_append_err|done| |done].
    destruct Hs as [?|?]; [by left|right; eapply device_append_synced; [exact Hr|exact Ed|done]].
Qed.

Lemma log_append_succeeded ca csn t fx batch log ticket bs :
  lane_holds ca bs → final_effects t = Ok fx →
  for_commit (tx_id t) csn (tx_mutations t) = Ok batch →
  log_append batch (ca_log ca) = (log, Ok ticket) →
  at_txn_id ticket = tx_id t ∧ at_csn ticket = csn ∧
  lane_holds (with_log log ca) (bs ++ [(at_decision_lsn ticket, plb_bytes batch)]) ∧
  encodes {| ap_ticket := ticket; ap_mutations := tx_mutations t |}
    (at_decision_lsn ticket, plb_bytes batch) ∧
  0 < at_decision_lsn ticket ∧ Forall (λ b, b.1 < at_decision_lsn ticket) bs.
Proof.
  intros (_ & Hr & Hs) Hfx Hb Hl.
  apply log_append_cases in Hl as [(_ & _ & Hc)|(Hf & _ & d & [lsn|e'] & Ed & Hd & Hl & _ & Hc)];
    [by destruct Hc as [(? & _)|(? & _)]| |by destruct Hc].
  destruct Hc as [Hf' [= ->]]. specialize (Hr Hf).
  destruct (device_append_ok _ _ _ _ _ Hr Ed) as (Hr' & Hlt & Hpos).
  apply for_commit_Ok in Hb as (digest & es & Hdig & Hlen & He & Ebytes & Etxn & Ecsn).
  apply normalize_ok_inv in Hfx as (Hid & Hv & _).
  unfold lane_holds; cbn. rewrite Hd, Hl. split_and!; try done.
  - by apply device_repr_keeps.
  - destruct Hs as [?|?]; [by left|right; eapply device_append_synced; [exact Hr|exact Ed|done]].
  - unfold encodes; cbn. rewrite Etxn, Ecsn. split_and!; try done. by exists digest, es.
Qed.

Lemma lane_append_spec ca t ca' h bs :
  lane_holds ca bs → lane_exec (LaneAppend t) ca = (ca', h) → lane_extends ca ca' h bs.
Proof.
  intros Hh. cbn [lane_exec].
  destruct (append_validated ca t) as [[ca1 t1] r] eqn:E. apply append_validated_cases in E.
  destruct r as [ticket|e].
  - destruct E as (csn & batch & fx & log & _ & Hfx & Hc & Hb & Hl & -> & ->). intros [= <- <-].
    destruct (log_append_succeeded _ _ _ _ _ _ _ _ Hh Hfx Hb Hl)
      as (Et & Ec & Hh' & Henc & Hpos & Hlt).
    unfold lane_extends; cbn. rewrite Hc, Ec. split_and!; try done.
    exists [(at_decision_lsn ticket, plb_bytes batch)]. split_and!; [done| | |by repeat constructor].
    + constructor; [done|constructor].
    + constructor; [done|constructor].
  - destruct e; try done;
      try (destruct E as [-> ->]; intros [= <- <-]; by apply lane_extends_nil).
    + destruct E as (batch & log & El & _ & -> & _). intros [= <- <-].
      apply lane_extends_nil; [done|]. by eapply log_append_failed.
    + destruct E as (csn & batch & log & op & source & _ & _ & _ & El & _ & _ & -> & _).
      intros [= <- <-]. apply lane_extends_nil; [done|]. by eapply log_append_failed.
Qed.

Lemma lane_sync_spec ca lsn ca' h bs :
  lane_holds ca bs → lane_exec (LaneSync lsn) ca = (ca', h) → lane_extends ca ca' h bs.
Proof.
  intros (Hk & Hr & Hs). cbn [lane_exec]. unfold appender_sync_through.
  destruct (log_sync_through lsn (ca_log ca)) as [log r] eqn:E. intros [= <- <-].
  apply lane_extends_nil; [done|]. unfold lane_holds; cbn.
  apply log_sync_cases in E as [(Hd & Hl & _ & Hf)|(Hf & _ & d & r' & Ed & Hd & _ & Hc)].
  { rewrite Hd, Hl, Hf. done. }
  specialize (Hr Hf). rewrite Hd. destruct r' as [u|e]; destruct Hc as (-> & _ & ->).
  - destruct (device_sync_ok _ _ _ _ _ Hr Ed) as [Hr' Hsy].
    split_and!; [by apply device_repr_keeps|done|].
    destruct (Z.max_spec (dl_durable_lsn (ca_log ca)) lsn) as [[_ ->]|[? ->]]; [by right|].
    destruct Hs as [?|?]; [by left|right; eapply device_sync_synced; [exact Hr|exact Ed|done]].
  - split_and!; [by eapply device_sync_err|done|].
    destruct Hs as [?|?]; [by left|right; eapply device_sync_synced; [exact Hr|exact Ed|done]].
Qed.

Lemma lane_extends_trans ca1 ca2 ca3 h1 h2 bs :
  lane_extends ca1 ca2 h1 bs → (∀ bs, lane_holds ca2 bs → lane_extends ca2 ca3 h2 bs) →
  lane_extends ca1 ca3 (h1 ++ h2) bs.
Proof.
  intros (Hc1 & Hn1 & bs1 & Hh1 & He1 & Hs1 & Hss1) H2.
  destruct (H2 _ Hh1) as (Hc2 & Hn2 & bs2 & Hh2 & He2 & Hs2 & Hss2).
  rewrite Hn1 in Hc2, Hn2. split; [by apply consecutive_app|].
  split; [by rewrite csn_after_app|]. exists (bs1 ++ bs2). rewrite app_assoc.
  split; [done|]. split; [by apply Forall2_app|].
  assert (Forall (λ b', 0 < b'.1 ∧ Forall (λ b, b.1 < b'.1) bs) bs2 ∧
    Forall (λ b', Forall (λ b, b.1 < b'.1) bs1) bs2) as [Hl Hr].
  { split; (eapply Forall_impl; [exact Hs2|]); intros b [? [??]%Forall_app]; done. }
  split; [by apply Forall_app|]. clear -Hss1 Hss2 Hr.
  induction Hss1 as [|b bs1 Hss1 IH Hall]; [done|]. cbn. constructor.
  - apply IH. eapply Forall_impl; [exact Hr|]. intros x Hx. by inversion Hx.
  - apply Forall_app. split; [done|]. eapply Forall_impl; [exact Hr|]. intros x Hx. by inversion Hx.
Qed.

Lemma lane_run_spec ops ca ca' h bs :
  lane_holds ca bs → lane_run ops ca = (ca', h) → lane_extends ca ca' h bs.
Proof.
  revert ca h bs. induction ops as [|op ops IH]; intros ca h bs Hh; cbn [lane_run].
  { intros [= <- <-]. by apply lane_extends_nil. }
  destruct (lane_exec op ca) as [ca1 h1] eqn:E1, (lane_run ops ca1) as [ca2 h2] eqn:E2.
  intros [= <- <-].
  assert (lane_extends ca ca1 h1 bs) as H1
    by (destruct op; [by eapply lane_append_spec|by eapply lane_sync_spec]).
  eapply lane_extends_trans; [exact H1|]. eauto.
Qed.

Lemma lane_holds_new log recovered bs :
  dl_fenced log = false → dl_durable_lsn log = 0 → device_repr (dl_device log) bs →
  lane_holds (CommitAppender_new log recovered) bs.
Proof. intros Hf Hl Hr. split_and!; cbn; [by apply device_repr_keeps|done|by left]. Qed.

(** Every outcome of one append: success consumes the next commit sequence,
    puts exactly the transaction's batch at the end of the log and moves it to
    [WalAppended] with that sequence and LSN; an uncertain outcome fences the log
    and leaves the transaction for recovery; every other error leaves the log's
    batches and the next commit sequence as they were and the transaction where
    an abort is still allowed or already done. *)
Theorem append_validated_outcome ca t ca' t' r bs :
  lane_holds ca bs → append_validated ca t = (ca', t', r) →
  match r with
  | Ok ticket => ∃ csn batch,
      ca_next_csn ca = Some csn ∧ ca_next_csn ca' = checked_add csn 1 ∧
      t' = appended_txn csn (at_decision_lsn ticket) t ∧
      at_csn ticket = csn ∧ at_txn_id ticket = tx_id t ∧
      lane_holds ca' (bs ++ [(at_decision_lsn ticket, batch)]) ∧
      encodes {| ap_ticket := ticket; ap_mutations := tx_mutations t |}
        (at_decision_lsn ticket, batch)
  | Err (OutcomeUncertain _ _) =>
      lane_holds ca' bs ∧ dl_fenced (ca_log ca') = true ∧ tx_phase t' = RecoveryRequired
  | Err _ =>
      lane_holds ca' bs ∧ ca_next_csn ca' = ca_next_csn ca ∧ (t' = t ∨ tx_phase t' = Aborted)
  end.
Proof.
  intros Hh E%append_validated_cases. destruct r as [ticket|e].
  - destruct E as (csn & batch & fx & log & _ & Hfx & Hc & Hb & Hl & -> & ->).
    destruct (log_append_succeeded _ _ _ _ _ _ _ _ Hh Hfx Hb Hl) as (Et & Ec & Hh' & Henc & _).
    by exists csn, (plb_bytes batch).
  - destruct e; try done; try (destruct E as [-> ->]; by auto).
    + destruct E as (batch & log & El & _ & -> & Ht).
      destruct (log_append_failed _ _ _ _ _ Hh El) as [? _]. auto.
    + destruct E as (csn & batch & log & op & source & _ & _ & _ & El & -> & _ & -> & Ht).
      by destruct (log_append_failed _ _ _ _ _ Hh El).
Qed.

(** C20. Commit order is log order: whatever transactions enter the lane and
    whenever the log is synchronized, the device ends up with its earlier batches
    followed by the batches of the transactions that got a ticket, in ticket order
    (and nothing else while the log is not fenced; a fence may leave a torn batch
    behind them), at strictly increasing positions, and their commit sequences
    are consecutive from the one after the recovered frontier. *)
Theorem commit_order_is_log_order ops log recovered ca' h bs :
  dl_fenced log = false → dl_durable_lsn log = 0 → device_repr (dl_device log) bs →
  lane_run ops (CommitAppender_new log recovered) = (ca', h) →
  consecutive (checked_add recovered 1) h ∧
  ∃ bs', lane_holds ca' (bs ++ bs') ∧ Forall2 encodes h bs' ∧
    Forall (λ b', 0 < b'.1 ∧ Forall (λ b, b.1 < b'.1) bs) bs' ∧
    StronglySorted (λ b b', b.1 < b'.1) bs'.
Proof.
  intros Hf Hl Hr E. eapply lane_run_spec in E as (Hc & _ & Hbs); [done|].
  by apply lane_holds_new.
Qed.
End history.

(** ** A concrete run *)
#[local] Existing Instance castagnoli_crc.
#[local] Existing Instance memory_device.
#[local] Existing Instance memory_device_laws.

Definition sample_object : StorageObjectDescriptor :=
  {| od_id := 1; od_authority := Authoritative |}.

Definition sample_txn (id : TxnId) (key : Z) : Transaction :=
  run [OpPut sample_object [u8 key] [u8 5]; OpBeginValidation] (Transaction_new id 0).

Definition sample_lane : CommitAppender (list (Lsn * bytes)) :=
  CommitAppender_new (DurableLog_new []) 4.

Lemma sample_lane_holds : lane_holds sample_lane [].
Proof. apply lane_holds_new; [done..|]. split_and!; [done|done|constructor]. Qed.

Lemma append_validated_outcome_witness :
  ∃ batch, lane_holds (append_validated sample_lane (sample_txn 7 1)).1.1 ([] ++ [(87, batch)]) ∧
    encodes {| ap_ticket := {| at_txn_id := 7; at_csn := 5; at_decision_lsn := 87 |};
               ap_mutations := tx_mutations (sample_txn 7 1) |} (87, batch).
Proof.
  destruct (append_validated_outcome sample_lane (sample_txn 7 1)
    (append_validated sample_lane (sample_txn 7 1)).1.1
    (append_validated sample_lane (sample_txn 7 1)).1.2
    (Ok {| at_txn_id := 7; at_csn := 5; at_decision_lsn := 87 |}) [])
    as (csn & batch & _ & _ & _ & _ & _ & Hb & He);
    [apply sample_lane_holds|vm_compute; reflexivity|].
  exists batch. split; [exact Hb|exact He].
Defined.

Lemma commit_order_is_log_order_witness :
  ∃ ca' h, lane_run [LaneAppend (sample_txn 7 1); LaneSync 87; LaneAppend (sample_txn 8 2)]
      sample_lane = (ca', h) ∧ length h = 2%nat ∧ consecutive (Some 5) h.
Proof.
  eexists _, _. split; [vm_compute; reflexivity|]. split; [reflexivity|].
  eapply (commit_order_is_log_order
    [LaneAppend (sample_txn 7 1); LaneSync 87; LaneAppend (sample_txn 8 2)]
    (DurableLog_new []) 4); [reflexivity..| |vm_compute; reflexivity].
  split_and!; [done|done|constructor].
Defined.
