(* ===== verification/Recovery.v ===== *)
(** * Recovery validation of the transaction log

    Models [crates/seerdb/src/vnext/recovery.rs]: the assembler that consumes framed
    records in LSN order and emits a transaction only for a commit decision whose
    count and digest match the mutations staged for it. *)
From S2P Require Import Prelude StdCollections Ids Crc Fs Log WriteSet Txn LogIo CommitAppend.

Local Open Scope Z_scope.
Local Open Scope seer_scope.

Record RecoveredTransaction := {
  rt_txn_id : TxnId;
  rt_position : CommitPosition;
  rt_mutations : list LoggedMutation
}.

Inductive RecoveryError :=
| NonMonotonicLsn (previous actual : Lsn)
| ReservedTxn
| ReservedCommitSeq
| MutationOrdinal (txn : TxnId) (expected actual : Z)
| RecordAfterTerminal (txn : TxnId)
| MutationCount (txn : TxnId) (declared actual : Z)
| MutationDigest (txn : TxnId)
| NonMonotonicCommitSeq (previous actual : CommitSeq)
| MutationEncoding.

Record RecoveryAssembler := {
  ra_pending : gmap TxnId (list LoggedMutation);
  ra_terminal : gset TxnId;
  ra_last_lsn : option Lsn;
  ra_last_csn : option CommitSeq
}.

Definition RecoveryAssembler_new : RecoveryAssembler :=
  {| ra_pending := ∅; ra_terminal := ∅; ra_last_lsn := None; ra_last_csn := None |}.

Definition recovered_final_effects (r : RecoveredTransaction)
    : result (list FinalEffect) FinalWriteSetError :=
  normalize_final_effects (rt_txn_id r) (rt_mutations r).

Definition set_pending p (a : RecoveryAssembler) : RecoveryAssembler :=
  {| ra_pending := p; ra_terminal := ra_terminal a; ra_last_lsn := ra_last_lsn a;
     ra_last_csn := ra_last_csn a |}.

Definition add_terminal txn (a : RecoveryAssembler) : RecoveryAssembler :=
  {| ra_pending := ra_pending a; ra_terminal := {[ txn ]} ∪ ra_terminal a;
     ra_last_lsn := ra_last_lsn a; ra_last_csn := ra_last_csn a |}.

Definition set_last_lsn lsn (a : RecoveryAssembler) : RecoveryAssembler :=
  {| ra_pending := ra_pending a; ra_terminal := ra_terminal a; ra_last_lsn := Some lsn;
     ra_last_csn := ra_last_csn a |}.

Definition set_last_csn csn (a : RecoveryAssembler) : RecoveryAssembler :=
  {| ra_pending := ra_pending a; ra_terminal := ra_terminal a; ra_last_lsn := ra_last_lsn a;
     ra_last_csn := Some csn |}.

(** [last.filter(|previous| actual <= *previous)] *)
Definition not_beyond (last : option Z) (actual : Z) : option Z :=
  match last with
  | Some previous => if actual <=? previous then Some previous else None
  | None => None
  end.

Definition advance_lsn (actual : Lsn) (a : RecoveryAssembler)
    : RecoveryAssembler * result unit RecoveryError :=
  match not_beyond (ra_last_lsn a) actual with
  | Some previous => (a, Err (NonMonotonicLsn previous actual))
  | None => (set_last_lsn actual a, Ok ())
  end.

(** [u32::try_from(len).unwrap_or(u32::MAX)] *)
Definition saturating_u32 (z : Z) : Z := default U32_MAX (u32_try_from z).

Section assembler.
Context `{Crc32c}.

Definition push_mutation_record (mutation : LoggedMutation) (a : RecoveryAssembler)
    : RecoveryAssembler * result (option RecoveredTransaction) RecoveryError :=
  let txn := lm_txn_id mutation in
  if txn =? 0 then (a, Err ReservedTxn)
  else if bool_decide (txn ∈ ra_terminal a) then (a, Err (RecordAfterTerminal txn))
  else
    let pending := default [] (ra_pending a !! txn) in
    let expected := saturating_u32 (len pending) in
    if negb (lm_ordinal mutation =? expected)
    then (set_pending (<[txn := pending]> (ra_pending a)) a,
          Err (MutationOrdinal txn expected (lm_ordinal mutation)))
    else (set_pending (<[txn := pending ++ [mutation]]> (ra_pending a)) a, Ok None).

Definition push_abort_record (txn : TxnId) (a : RecoveryAssembler)
    : RecoveryAssembler * result (option RecoveredTransaction) RecoveryError :=
  if txn =? 0 then (a, Err ReservedTxn)
  else if bool_decide (txn ∈ ra_terminal a) then (a, Err (RecordAfterTerminal txn))
  else
    let a := add_terminal txn a in
    (set_pending (delete txn (ra_pending a)) a, Ok None).

Definition push_commit_record (end_lsn : Lsn) (decision : CommitDecision) (a : RecoveryAssembler)
    : RecoveryAssembler * result (option RecoveredTransaction) RecoveryError :=
  let txn := cd_txn_id decision in
  let csn := cd_csn decision in
  if txn =? 0 then (a, Err ReservedTxn)
  else if csn =? 0 then (a, Err ReservedCommitSeq)
  else if bool_decide (txn ∈ ra_terminal a) then (a, Err (RecordAfterTerminal txn))
  else
    let a := add_terminal txn a in
    match not_beyond (ra_last_csn a) csn with
    | Some previous => (a, Err (NonMonotonicCommitSeq previous csn))
    | None =>
        let mutations := default [] (ra_pending a !! txn) in
        let a := set_pending (delete txn (ra_pending a)) a in
        let actual := saturating_u32 (len mutations) in
        if negb (cd_mutation_count decision =? actual)
        then (a, Err (MutationCount txn (cd_mutation_count decision) actual))
        else
          match mutation_digest mutations with
          | Err _ => (a, Err MutationEncoding)
          | Ok digest =>
              if negb (cd_mutation_digest decision =? digest)
              then (a, Err (MutationDigest txn))
              else (set_last_csn csn a,
                    Ok (Some {| rt_txn_id := txn;
                                rt_position := {| cp_csn := csn; cp_lsn := end_lsn |};
                                rt_mutations := mutations |}))
          end
    end.

Definition push (end_lsn : Lsn) (record : LogRecord) (a : RecoveryAssembler)
    : RecoveryAssembler * result (option RecoveredTransaction) RecoveryError :=
  do? (a, _) := advance_lsn end_lsn a in
  match record with
  | Mutation mutation => push_mutation_record mutation a
  | Abort txn => push_abort_record txn a
  | Commit decision => push_commit_record end_lsn decision a
  end.

(** A replay: records are pushed in order until one is rejected. *)
Fixpoint push_all (records : list (Lsn * LogRecord)) (a : RecoveryAssembler)
    : RecoveryAssembler * result (list RecoveredTransaction) RecoveryError :=
  match records with
  | [] => (a, Ok [])
  | (lsn, record) :: rest =>
      do? (a, emitted) := push lsn record a in
      do? (a, later) := push_all rest a in
      (a, Ok (option_list emitted ++ later))
  end.

Lemma push_all_app s1 s2 a :
  push_all (s1 ++ s2) a =
  do? (a1, out1) := push_all s1 a in
  do? (a2, out2) := push_all s2 a1 in
  (a2, Ok (out1 ++ out2)).
Proof.
  revert a. induction s1 as [|[lsn r] s1 IH]; intros a; cbn [push_all app].
  - destruct (push_all s2 a) as [? []]; done.
  - destruct (push lsn r a) as [a1 [e|]]; [|done]. rewrite IH.
    destruct (push_all s1 a1) as [a2 [o1|]]; [|done].
    destruct (push_all s2 a2) as [a3 [o2|]]; [|done]. by rewrite app_assoc.
Qed.
End assembler.

(** ** What a replay has seen *)
Definition mutations_of (txn : TxnId) (rs : list LogRecord) : list LoggedMutation :=
  omap (λ r, match r with
             | Mutation m => if lm_txn_id m =? txn then Some m else None
             | _ => None
             end) rs.

Definition terminal_of (r : LogRecord) : option TxnId :=
  match r with
  | Mutation _ => None
  | Commit d => Some (cd_txn_id d)
  | Abort txn => Some txn
  end.

Definition csn_of (r : LogRecord) : option CommitSeq :=
  match r with Commit d => Some (cd_csn d) | _ => None end.

(** The state after replaying [rs] without an error. *)
Definition asm_inv (rs : list LogRecord) (a : RecoveryAssembler) : Prop :=
  (∀ txn, txn ∈ ra_terminal a ↔ txn ∈ omap terminal_of rs) ∧
  (∀ txn, txn ∉ omap terminal_of rs → default [] (ra_pending a !! txn) = mutations_of txn rs) ∧
  (∀ txn, valid_stream txn 0 (mutations_of txn rs)) ∧
  ra_last_csn a = last (omap csn_of rs).

Lemma mutations_of_snoc txn rs r :
  mutations_of txn (rs ++ [r]) = mutations_of txn rs ++ mutations_of txn [r].
Proof. apply omap_app. Qed.

Lemma omap_terminal_snoc rs r txn :
  txn ∈ omap terminal_of (rs ++ [r]) ↔ txn ∈ omap terminal_of rs ∨ terminal_of r = Some txn.
Proof. rewrite !list_elem_of_omap. setoid_rewrite elem_of_app. set_solver. Qed.

Lemma length_mutations_of txn rs : (length (mutations_of txn rs) ≤ length rs)%nat.
Proof.
  unfold mutations_of. induction rs as [|r rs IH]; cbn; [lia|]. case_match; cbn; lia.
Qed.

Lemma asm_inv_new : asm_inv [] RecoveryAssembler_new.
Proof. split_and!; cbn; intros; try done; set_solver. Qed.

(** The transactions a log commits: one per decision, with the mutations logged
    for it in front of the decision. *)
Fixpoint committed (seen : list LogRecord) (records : list (Lsn * LogRecord))
    : list RecoveredTransaction :=
  match records with
  | [] => []
  | (lsn, r) :: rest =>
      match r with
      | Commit d =>
          [{| rt_txn_id := cd_txn_id d;
              rt_position := {| cp_csn := cd_csn d; cp_lsn := lsn |};
              rt_mutations := mutations_of (cd_txn_id d) seen |}]
      | _ => []
      end ++ committed (seen ++ [r]) rest
  end.

Lemma not_beyond_None last x : not_beyond last x = None ↔ ∀ p, last = Some p → p < x.
Proof.
  unfold not_beyond. destruct last as [p|]; [|naive_solver].
  destruct (x <=? p) eqn:E; bool_to_prop; split; try done; intros; simplify_eq; auto.
  exfalso. specialize (H p eq_refl). lia.
Qed.

Lemma saturating_u32_id z : z ≤ U32_MAX → saturating_u32 z = z.
Proof. intros Hz. unfold saturating_u32, u32_try_from. by rewrite (proj2 (Z.leb_le _ _) Hz). Qed.

(** No transaction has more mutations than the decision can count. *)
Definition fits (rs : list LogRecord) : Prop := ∀ txn, len (mutations_of txn rs) ≤ U32_MAX.

Lemma fits_prefix rs rs' : fits (rs ++ rs') → fits rs.
Proof.
  intros Hf txn. specialize (Hf txn). unfold mutations_of in *. rewrite omap_app, len_app in Hf.
  pose proof (len_nonneg (omap (λ r, match r with
    | Mutation m => if lm_txn_id m =? txn then Some m else None | _ => None end) rs')). lia.
Qed.

Section soundness.
Context `{Crc32c}.

Lemma push_mutation_Ok rs a m a' o :
  asm_inv rs a → fits rs → push_mutation_record m a = (a', Ok o) →
  asm_inv (rs ++ [Mutation m]) a' ∧ o = None ∧
  ra_last_lsn a' = ra_last_lsn a ∧ ra_last_csn a' = ra_last_csn a.
Proof.
  intros (Ht & Hp & Hv & Hc) Hl. unfold push_mutation_record.
  destruct (lm_txn_id m =? 0) eqn:E0; [done|]. case_bool_decide as Hin; [done|].
  rewrite Ht in Hin. rewrite (Hp _ Hin). rewrite saturating_u32_id by apply Hl.
  destruct (negb _) eqn:Eo; [done|]. bool_to_prop. intros [= <- <-].
  split; [|done]. split_and!; cbn.
  - intros txn. rewrite omap_terminal_snoc, Ht. naive_solver.
  - intros txn. rewrite omap_terminal_snoc, mutations_of_snoc. intros Hn. cbn.
    destruct (decide (lm_txn_id m = txn)) as [<-|Hne].
    + by rewrite lookup_insert_eq, Z.eqb_refl.
    + rewrite lookup_insert_ne, (proj2 (Z.eqb_neq _ _) Hne), app_nil_r by done.
      apply Hp. naive_solver.
  - intros txn. rewrite mutations_of_snoc. cbn.
    destruct (lm_txn_id m =? txn) eqn:E; bool_to_prop; [|by rewrite app_nil_r].
    subst txn. apply valid_stream_snoc. rewrite Z.add_0_l. specialize (Hl (lm_txn_id m)). unfold len in *.
    split_and!; [done|lia|done..].
  - by rewrite omap_app, app_nil_r.
Qed.

(** A terminal record moves its transaction from pending to terminal. *)
Lemma asm_inv_terminal rs a r txn :
  asm_inv rs a → terminal_of r = Some txn →
  ∀ a', a' = set_pending (delete txn (ra_pending a)) (add_terminal txn a) →
  asm_inv (rs ++ [r])
    (match csn_of r with Some csn => set_last_csn csn a' | None => a' end).
Proof.
  intros (Ht & Hp & Hv & Hc) Er a' ->.
  assert (∀ t, mutations_of t (rs ++ [r]) = mutations_of t rs) as Emut.
  { intros t. rewrite mutations_of_snoc. destruct r; [done|apply app_nil_r..]. }
  assert (∀ t, default [] (delete txn (ra_pending a) !! t) = mutations_of t rs ∨
    t ∈ omap terminal_of (rs ++ [r])) as Hdel.
  { intros t. rewrite omap_terminal_snoc. destruct (decide (t = txn)) as [->|]; [auto|].
    destruct (decide (t ∈ omap terminal_of rs)); [auto|]. left.
    rewrite lookup_delete_ne by done. auto. }
  destruct (csn_of r) eqn:Ecsn; split_and!; cbn;
    try (intros t; rewrite omap_terminal_snoc, elem_of_union, elem_of_singleton, Ht; naive_solver);
    try (intros t Hn; rewrite Emut; by destruct (Hdel t)); try (intros t; by rewrite Emut);
    rewrite omap_app; cbn; rewrite Ecsn, ?last_snoc, ?app_nil_r; done.
Qed.

Lemma push_abort_Ok rs a txn a' o :
  asm_inv rs a → push_abort_record txn a = (a', Ok o) →
  asm_inv (rs ++ [Abort txn]) a' ∧ o = None ∧
  ra_last_lsn a' = ra_last_lsn a ∧ ra_last_csn a' = ra_last_csn a.
Proof.
  intros Hi. unfold push_abort_record. destruct (txn =? 0); [done|].
  case_bool_decide; [done|]. intros [= <- <-].
  split; [by apply (asm_inv_terminal rs a (Abort txn) txn Hi)|done].
Qed.

Lemma push_commit_Ok rs a lsn d a' o :
  asm_inv rs a → fits rs → push_commit_record lsn d a = (a', Ok o) →
  asm_inv (rs ++ [Commit d]) a' ∧
  o = Some {| rt_txn_id := cd_txn_id d; rt_position := {| cp_csn := cd_csn d; cp_lsn := lsn |};
              rt_mutations := mutations_of (cd_txn_id d) rs |} ∧
  ra_last_lsn a' = ra_last_lsn a ∧ ra_last_csn a' = Some (cd_csn d) ∧
  cd_txn_id d ≠ 0 ∧ cd_csn d ≠ 0 ∧ cd_txn_id d ∉ omap terminal_of rs ∧
  (∀ p, ra_last_csn a = Some p → p < cd_csn d) ∧
  cd_mutation_count d = len (mutations_of (cd_txn_id d) rs) ∧
  mutation_digest (mutations_of (cd_txn_id d) rs) = Ok (cd_mutation_digest d).
Proof.
  intros Hi Hl. unfold push_commit_record.
  destruct (cd_txn_id d =? 0) eqn:E0; [done|]. destruct (cd_csn d =? 0) eqn:E1; [done|].
  case_bool_decide as Hin; [done|]. destruct Hi as (Ht & Hp & Hi'). rewrite Ht in Hin.
  destruct (not_beyond _ _) eqn:Enb; [done|]. cbn [ra_pending add_terminal set_pending].
  rewrite (Hp _ Hin), saturating_u32_id by apply Hl.
  destruct (negb _) eqn:Ec; [done|]. destruct (mutation_digest _) as [dg|] eqn:Ed; [|done].
  destruct (negb (_ =? dg)) eqn:Eg; [done|]. bool_to_prop. intros [= <- <-]. subst dg.
  split; [by apply (asm_inv_terminal rs a (Commit d) (cd_txn_id d))|]. rewrite not_beyond_None in Enb. done.
Qed.

Lemma push_Ok rs a lsn r a' o :
  asm_inv rs a → fits rs → push lsn r a = (a', Ok o) →
  asm_inv (rs ++ [r]) a' ∧ ra_last_lsn a' = Some lsn ∧
  (∀ p, ra_last_lsn a = Some p → p < lsn) ∧
  match r with
  | Commit d =>
      o = Some {| rt_txn_id := cd_txn_id d;
                  rt_position := {| cp_csn := cd_csn d; cp_lsn := lsn |};
                  rt_mutations := mutations_of (cd_txn_id d) rs |} ∧
      ra_last_csn a' = Some (cd_csn d) ∧
      cd_txn_id d ≠ 0 ∧ cd_txn_id d ∉ omap terminal_of rs ∧
      (∀ p, ra_last_csn a = Some p → p < cd_csn d)
  | _ => o = None ∧ ra_last_csn a' = ra_last_csn a
  end.
Proof.
  intros Hi Hl. unfold push, advance_lsn. destruct (not_beyond _ _) eqn:Enb; [done|].
  rewrite not_beyond_None in Enb. assert (asm_inv rs (set_last_lsn lsn a)) as Hi' by done.
  destruct r as [m|d|txn]; intros E.
  - apply (push_mutation_Ok rs) in E as (? & ? & ? & ?); done.
  - apply (push_commit_Ok rs) in E as (? & ? & ? & ? & ? & ? & ? & ? & ?); done.
  - apply (push_abort_Ok rs) in E as (? & ? & ? & ?); done.
Qed.

(** A transaction that a replay in state [a], after [seen], may still emit. *)
Definition admissible (seen : list LogRecord) (a : RecoveryAssembler) (t : RecoveredTransaction)
    : Prop :=
  (∀ p, ra_last_csn a = Some p → p < cp_csn (rt_position t)) ∧
  (∀ p, ra_last_lsn a = Some p → p < cp_lsn (rt_position t)) ∧
  rt_txn_id t ∉ omap terminal_of seen ∧
  ∃ fx, recovered_final_effects t = Ok fx.

Definition position_lt (t t' : RecoveredTransaction) : Prop :=
  cp_csn (rt_position t) < cp_csn (rt_position t') ∧
  cp_lsn (rt_position t) < cp_lsn (rt_position t').

Lemma admissible_step seen a a1 lsn r t :
  ra_last_lsn a1 = Some lsn → (∀ p, ra_last_lsn a = Some p → p < lsn) →
  (ra_last_csn a1 = ra_last_csn a ∨
   ∃ q, ra_last_csn a1 = Some q ∧ ∀ p, ra_last_csn a = Some p → p < q) →
  admissible (seen ++ [r]) a1 t → admissible seen a t.
Proof.
  intros Hlsn Hlt Hcsn (Hc & Hl & Hn & Hfx). split_and!; [| |by rewrite omap_terminal_snoc in Hn; auto|done].
  - destruct Hcsn as [E|(q & E & Hq)]; [by rewrite <-E|].
    intros p Hp. specialize (Hq p Hp). specialize (Hc q E). lia.
  - intros p Hp. specialize (Hlt p Hp). specialize (Hl _ Hlsn). lia.
Qed.

(** A run that has already seen [seen]. *)
Lemma push_all_sound seen records a a' outs :
  asm_inv seen a → fits (seen ++ records.*2) →
  push_all records a = (a', Ok outs) →
  outs = committed seen records ∧ StronglySorted position_lt outs ∧
  Forall (admissible seen a) outs ∧ NoDup (rt_txn_id <$> outs).
Proof.
  revert seen a outs. induction records as [|[lsn r] records IH]; intros seen a outs Hi Hl;
    cbn [push_all committed].
  { intros [= <- <-]. split_and!; constructor. }
  assert (fits ((seen ++ [r]) ++ records.*2)) as Hl' by (by rewrite <-app_assoc).
  destruct (push lsn r a) as [a1 [o|]] eqn:E; [|done].
  destruct (push_all records a1) as [a2 [later|]] eqn:E2; [|done]. intros [= <- <-].
  apply (push_Ok seen) in E as (Hi1 & Hlsn & Hlt & Hr); [|done|by eapply fits_prefix].
  apply (IH (seen ++ [r])) in E2 as (-> & Hs & Hf & Hd); [|done..].
  destruct r as [m|d|txn].
  1,3: destruct Hr as [-> Ec]; cbn [option_list app]; split_and!; [done..| |done];
    eapply Forall_impl; [exact Hf|]; intros t; apply (admissible_step _ _ _ lsn); auto.
  destruct Hr as (-> & Ec & Hd0 & Hnt & Hcs). cbn [option_list app].
  destruct Hi as (_ & _ & Hv & _).
  destruct (normalize_valid_ok (cd_txn_id d) (mutations_of (cd_txn_id d) seen) Hd0 (Hv _)) as [fx Hfx].
  split_and!; [done| | |].
  - constructor; [done|]. eapply Forall_impl; [exact Hf|]. intros t (Hc & Hl2 & _).
    split; [by apply Hc|by apply Hl2].
  - constructor; [by split_and!; eauto|].
    eapply Forall_impl; [exact Hf|]; intros t; apply (admissible_step _ _ _ lsn); eauto.
  - cbn. constructor; [|done]. intros (t & Et & Hin)%list_elem_of_fmap.
    rewrite Forall_forall in Hf. destruct (Hf t Hin) as (_ & _ & Hne & _).
    apply Hne, omap_terminal_snoc. right. cbn. congruence.
Qed.

(** C21. Recovery is sound on any log it accepts, interleaved or not, in which no
    transaction has more mutations than a 32-bit count can say: it emits one
    transaction per commit decision, with exactly the mutations logged for it in
    front of the decision, at strictly increasing commit positions, never twice
    for one transaction, and with a write set the reducer accepts. *)
Theorem recovery_sound records a outs :
  fits records.*2 →
  push_all records RecoveryAssembler_new = (a, Ok outs) →
  outs = committed [] records ∧ StronglySorted position_lt outs ∧
  NoDup (rt_txn_id <$> outs) ∧
  Forall (λ t, ∃ fx, recovered_final_effects t = Ok fx) outs.
Proof.
  intros Hl E. apply (push_all_sound []) in E as (-> & Hs & Hf & Hd); [|apply asm_inv_new|done].
  split_and!; [done..|]. eapply Forall_impl; [exact Hf|]. intros t (_ & _ & _ & Hfx). done.
Qed.
End soundness.

(** ** Completeness: the log of the append lane is accepted *)
Section completeness.
Context `{Crc32c}.

(** What makes a record acceptable after [seen]. *)
Definition accepts (seen : list LogRecord) (r : LogRecord) : Prop :=
  match r with
  | Mutation m =>
      lm_txn_id m ≠ 0 ∧ lm_txn_id m ∉ omap terminal_of seen ∧
      lm_ordinal m = len (mutations_of (lm_txn_id m) seen)
  | Commit d =>
      cd_txn_id d ≠ 0 ∧ cd_csn d ≠ 0 ∧ cd_txn_id d ∉ omap terminal_of seen ∧
      (∀ p, last (omap csn_of seen) = Some p → p < cd_csn d) ∧
      cd_mutation_count d = len (mutations_of (cd_txn_id d) seen) ∧
      mutation_digest (mutations_of (cd_txn_id d) seen) = Ok (cd_mutation_digest d)
  | Abort txn => txn ≠ 0 ∧ txn ∉ omap terminal_of seen
  end.

Lemma push_accepts seen a lsn r :
  asm_inv seen a → fits seen → accepts seen r →
  (∀ p, ra_last_lsn a = Some p → p < lsn) →
  ∃ a' o, push lsn r a = (a', Ok o).
Proof.
  intros (Ht & Hp & Hv & Hc) Hl Hacc Hlsn. unfold push, advance_lsn.
  rewrite (proj2 (not_beyond_None _ _) Hlsn). destruct r as [m|d|txn]; cbn in Hacc.
  - destruct Hacc as (H0 & Hn & Ho). unfold push_mutation_record.
    rewrite (proj2 (Z.eqb_neq _ _) H0), bool_decide_eq_false_2 by (cbn; by rewrite Ht).
    cbn [ra_pending set_last_lsn]. rewrite (Hp _ Hn).
    rewrite saturating_u32_id by apply Hl. rewrite Ho, Z.eqb_refl. cbn. eauto.
  - destruct Hacc as (H0 & H1 & Hn & Hcs & Hcount & Hdig). unfold push_commit_record.
    rewrite (proj2 (Z.eqb_neq _ _) H0), (proj2 (Z.eqb_neq _ _) H1).
    rewrite bool_decide_eq_false_2 by (cbn; by rewrite Ht). cbn.
    rewrite Hc, (proj2 (not_beyond_None _ _) Hcs), (Hp _ Hn).
    rewrite saturating_u32_id by apply Hl.
    rewrite Hcount, Z.eqb_refl, Hdig, Z.eqb_refl. cbn. eauto.
  - destruct Hacc as [H0 Hn]. unfold push_abort_record.
    rewrite (proj2 (Z.eqb_neq _ _) H0), bool_decide_eq_false_2 by (cbn; by rewrite Ht). eauto.
Qed.

(** Every record is acceptable after the ones in front of it. *)
Fixpoint accepted_log (seen rs : list LogRecord) : Prop :=
  match rs with
  | [] => True
  | r :: rs' => accepts seen r ∧ accepted_log (seen ++ [r]) rs'
  end.

Fixpoint increasing (last : option Lsn) (lsns : list Lsn) : Prop :=
  match lsns with
  | [] => True
  | l :: ls => (∀ p, last = Some p → p < l) ∧ increasing (Some l) ls
  end.

Lemma accepted_log_app seen rs rs' :
  accepted_log seen (rs ++ rs') ↔ accepted_log seen rs ∧ accepted_log (seen ++ rs) rs'.
Proof.
  revert seen. induction rs as [|r rs IH]; intros seen; cbn.
  - rewrite app_nil_r. naive_solver.
  - rewrite IH, <-app_assoc. naive_solver.
Qed.

Lemma increasing_app last l1 l2 : increasing last (l1 ++ l2) → increasing last l1.
Proof. revert last. induction l1; cbn; naive_solver. Qed.

Lemma push_all_accepts seen records a :
  asm_inv seen a → fits (seen ++ records.*2) →
  accepted_log seen records.*2 → increasing (ra_last_lsn a) records.*1 →
  ∃ a' outs, push_all records a = (a', Ok outs).
Proof.
  revert seen a. induction records as [|[lsn r] records IH]; intros seen a Hi Hl Hacc Hinc;
    cbn [push_all]; [eauto|]. cbn in Hacc, Hinc. destruct Hacc as [Ha Hacc], Hinc as [Hlt Hinc].
  destruct (push_accepts seen a lsn r) as (a1 & o & Ep); [done|by eapply fits_prefix|done..|].
  destruct (push_Ok seen a lsn r a1 o) as (Hi1 & Hl1 & _); [done|by eapply fits_prefix|done|].
  destruct (IH (seen ++ [r]) a1) as (a2 & outs & E2); [done|by rewrite <-app_assoc|done|by rewrite Hl1|].
  rewrite Ep, E2. eauto.
Qed.

(** The records of one appended transaction. *)
Definition digest_of (ms : list LoggedMutation) : Z :=
  match mutation_digest ms with Ok d => d | Err _ => 0 end.

Definition records_of (a : Appended) : list LogRecord :=
  commit_records (at_txn_id (ap_ticket a)) (at_csn (ap_ticket a)) (ap_mutations a)
    (digest_of (ap_mutations a)).

Definition appended_id (a : Appended) : TxnId := at_txn_id (ap_ticket a).

Definition recovered_of (a : Appended) : RecoveredTransaction :=
  {| rt_txn_id := at_txn_id (ap_ticket a);
     rt_position := {| cp_csn := at_csn (ap_ticket a); cp_lsn := at_decision_lsn (ap_ticket a) |};
     rt_mutations := ap_mutations a |}.

(** An appended transaction as the lane guarantees it. *)
Definition appended_ok (a : Appended) : Prop :=
  appended_id a ≠ 0 ∧ valid_stream (appended_id a) 0 (ap_mutations a) ∧
  is_ok (mutation_digest (ap_mutations a)) = true.

Lemma mutations_of_app txn rs rs' :
  mutations_of txn (rs ++ rs') = mutations_of txn rs ++ mutations_of txn rs'.
Proof. apply omap_app. Qed.

Lemma mutations_of_same txn i ms :
  valid_stream txn i ms → mutations_of txn (Mutation <$> ms) = ms.
Proof.
  revert i. induction ms as [|m ms IH]; intros i; cbn; [done|].
  intros (_ & _ & -> & Hv). rewrite Z.eqb_refl. f_equal. by eapply IH.
Qed.

Lemma mutations_of_other txn txn' i ms :
  txn ≠ txn' → valid_stream txn i ms → mutations_of txn' (Mutation <$> ms) = [].
Proof.
  intros Hne. revert i. induction ms as [|m ms IH]; intros i; cbn; [done|].
  intros (_ & _ & -> & Hv). rewrite (proj2 (Z.eqb_neq _ _) Hne). by eapply IH.
Qed.

Lemma omap_mutations {B} (f : LogRecord → option B) ms :
  (∀ m, f (Mutation m) = None) → omap f (Mutation <$> ms) = [].
Proof. intros Hf. induction ms as [|m ms IH]; cbn; [done|]. by rewrite Hf. Qed.

(** Staging: the mutations of a transaction not seen before are acceptable. *)
Lemma accepted_mutations seen txn ms1 ms2 :
  txn ≠ 0 → txn ∉ omap terminal_of seen → mutations_of txn seen = ms1 →
  valid_stream txn 0 (ms1 ++ ms2) → accepted_log seen (Mutation <$> ms2).
Proof.
  intros H0 Hn. revert seen ms1 Hn. induction ms2 as [|m ms2 IH]; intros seen ms1 Hn Hm Hv; [done|].
  change (Mutation <$> m :: ms2) with (Mutation m :: (Mutation <$> ms2)). cbn [accepted_log].
  rewrite (cons_middle m), app_assoc in Hv.
  assert (valid_stream txn 0 (ms1 ++ [m])) as Hv1.
  { clear -Hv. revert Hv. generalize (ms1 ++ [m]) as l. intros l. generalize 0 as i.
    induction l; cbn; naive_solver. }
  apply valid_stream_snoc in Hv1 as (_ & _ & Ho & Ht). rewrite Z.add_0_l in Ho.
  split; [cbn; rewrite Ht, Hm; done|]. apply (IH _ (ms1 ++ [m])); [|..|done].
  - rewrite omap_terminal_snoc. intros [?|?]; done.
  - rewrite mutations_of_snoc, Hm. cbn. by rewrite Ht, Z.eqb_refl.
Qed.

Lemma accepted_records seen a :
  appended_ok a → appended_id a ∉ omap terminal_of seen → mutations_of (appended_id a) seen = [] →
  at_csn (ap_ticket a) ≠ 0 →
  (∀ p, last (omap csn_of seen) = Some p → p < at_csn (ap_ticket a)) →
  accepted_log seen (records_of a).
Proof.
  intros (H0 & Hv & Hd) Hn Hm Hc Hlt. unfold records_of, commit_records.
  apply accepted_log_app. split; [by apply (accepted_mutations _ (appended_id a) [])|].
  split; [|done]. cbn [accepts cd_txn_id cd_csn cd_mutation_count cd_mutation_digest].
  fold (appended_id a). rewrite mutations_of_app, Hm, (mutations_of_same _ 0) by done.
  rewrite !omap_app, !omap_mutations, !app_nil_r by done.
  split_and!; try done. unfold digest_of. by destruct (mutation_digest _).
Qed.

Lemma records_of_terminal a : omap terminal_of (records_of a) = [appended_id a].
Proof. unfold records_of, commit_records. by rewrite omap_app, omap_mutations. Qed.

Lemma records_of_csn a : omap csn_of (records_of a) = [at_csn (ap_ticket a)].
Proof. unfold records_of, commit_records. by rewrite omap_app, omap_mutations. Qed.

Lemma records_of_other txn a :
  appended_ok a → appended_id a ≠ txn → mutations_of txn (records_of a) = [].
Proof.
  intros (_ & Hv & _) Hne. unfold records_of, commit_records.
  by rewrite mutations_of_app, (mutations_of_other _ _ 0 _ Hne Hv).
Qed.

(** A transaction of which a log has no trace yet. *)
Definition fresh (seen : list LogRecord) (a : Appended) : Prop :=
  appended_id a ∉ omap terminal_of seen ∧ mutations_of (appended_id a) seen = [].

Lemma fresh_after seen a h :
  appended_ok a → appended_id a ∉ appended_id <$> h →
  Forall (fresh seen) h → Forall (fresh (seen ++ records_of a)) h.
Proof.
  intros Ha Hn Hf. rewrite Forall_forall in Hf. apply Forall_forall. intros b Hb.
  destruct (Hf b Hb) as [Ht Hm].
  assert (appended_id a ≠ appended_id b) as Hne.
  { intros E. apply Hn. rewrite E. by apply list_elem_of_fmap_2. }
  split.
  - rewrite omap_app, records_of_terminal, elem_of_app, list_elem_of_singleton. naive_solver.
  - rewrite mutations_of_app, Hm, records_of_other by done. done.
Qed.

Lemma consecutive_head first a h :
  consecutive (Some first) (a :: h) → at_csn (ap_ticket a) = first ∧
  (h = [] ∨ consecutive (Some (first + 1)) h).
Proof.
  cbn. intros [[= <-] Hc]. split; [done|]. destruct h as [|b h]; [by left|right].
  cbn in *. destruct Hc as [Hb Hc]. apply checked_add_Some in Hb as [<- _]. done.
Qed.

Lemma accepted_history seen h first :
  Forall appended_ok h → NoDup (appended_id <$> h) → Forall (fresh seen) h →
  consecutive (Some first) h → 0 < first →
  (∀ p, last (omap csn_of seen) = Some p → p < first) →
  accepted_log seen (concat (records_of <$> h)).
Proof.
  revert seen first. induction h as [|a h IH]; intros seen first Hok Hnd Hf Hc Hpos Hlt; [done|].
  apply Forall_cons in Hok as [Ha Hok], Hf as [[Ht Hm] Hf].
  cbn [fmap list_fmap] in Hnd. apply NoDup_cons in Hnd as [Hn Hnd].
  apply consecutive_head in Hc as [Hc1 Hc2].
  change (concat (records_of <$> a :: h)) with (records_of a ++ concat (records_of <$> h)).
  apply accepted_log_app. split.
  - apply accepted_records; rewrite ?Hc1; done || lia.
  - destruct Hc2 as [->|Hc2]; [done|].
    apply (IH _ (first + 1)); [done..|by apply fresh_after|done|lia|].
    intros p. rewrite omap_app, records_of_csn, last_snoc. intros [= <-]. lia.
Qed.

(** The stream of one transaction as a log scan delivers it. *)
Definition placed (a : Appended) (s : list (Lsn * LogRecord)) : Prop :=
  s.*2 = records_of a ∧ fst <$> last s = Some (at_decision_lsn (ap_ticket a)).

Lemma committed_app seen s1 s2 :
  committed seen (s1 ++ s2) = committed seen s1 ++ committed (seen ++ s1.*2) s2.
Proof.
  revert seen. induction s1 as [|[l r] s1 IH]; intros seen; cbn; [by rewrite app_nil_r|].
  by rewrite IH, <-app_assoc, <-app_assoc.
Qed.

Lemma committed_mutations seen s ms : s.*2 = Mutation <$> ms → committed seen s = [].
Proof.
  revert seen ms. induction s as [|[l r] s IH]; intros seen [|m ms]; cbn; try done.
  intros [= -> E]. by eapply IH.
Qed.

Lemma committed_batch seen a s :
  appended_ok a → fresh seen a → placed a s → committed seen s = [recovered_of a].
Proof.
  intros (_ & Hv & _) [_ Hm] [Hs Hl]. unfold records_of, commit_records in Hs.
  destruct s as [|[lsn r] s' _] using rev_ind; [done|].
  rewrite fmap_app in Hs. apply app_inj_2 in Hs as [Hs1 [= ->]]; [|done].
  rewrite last_snoc in Hl. injection Hl as ->.
  rewrite committed_app, (committed_mutations _ _ _ Hs1), Hs1. cbn.
  fold (appended_id a). rewrite mutations_of_app, Hm, (mutations_of_same _ 0) by done. done.
Qed.

Lemma committed_history seen h ss rest :
  Forall appended_ok h → NoDup (appended_id <$> h) → Forall (fresh seen) h →
  Forall2 placed h ss →
  committed seen (concat ss ++ rest) =
  (recovered_of <$> h) ++ committed (seen ++ concat (records_of <$> h)) rest.
Proof.
  revert seen ss. induction h as [|a h IH]; intros seen ss Hok Hnd Hf Hp.
  - apply Forall2_nil_inv_l in Hp as ->. cbn. by rewrite app_nil_r.
  - apply Forall2_cons_inv_l in Hp as (s & ss' & Hs & Hp & ->).
    apply Forall_cons in Hok as [Ha Hok], Hf as [Hfa Hf].
    cbn [fmap list_fmap] in Hnd. apply NoDup_cons in Hnd as [Hn Hnd].
    cbn [concat]. rewrite <-app_assoc, committed_app, (committed_batch _ a) by done.
    destruct Hs as [-> _]. rewrite IH by (done || by apply fresh_after).
    change (concat (records_of <$> a :: h)) with (records_of a ++ concat (records_of <$> h)).
    by rewrite <-app_assoc.
Qed.

Lemma placed_concat h ss : Forall2 placed h ss → (concat ss).*2 = concat (records_of <$> h).
Proof.
  induction 1 as [|a s h ss [Hs _] _ IH]; [done|].
  change (concat (records_of <$> a :: h)) with (records_of a ++ concat (records_of <$> h)).
  cbn [concat]. by rewrite fmap_app, Hs, IH.
Qed.

(** A proper prefix of a transaction's stream has no decision in it. *)
Lemma placed_partial a s m :
  placed a s → (m < length s)%nat → ∃ ms, (take m s).*2 = Mutation <$> ms.
Proof.
  intros [Hs _] Hm. exists (take m (ap_mutations a)).
  assert (length s = S (length (ap_mutations a))) as Hlen.
  { rewrite <-(length_fmap snd), Hs. unfold records_of, commit_records.
    rewrite length_app, length_fmap. cbn. lia. }
  rewrite fmap_take, Hs. unfold records_of, commit_records.
  by rewrite take_app_le, fmap_take by (rewrite length_fmap; lia).
Qed.

Lemma increasing_take last ls n : increasing last ls → increasing last (take n ls).
Proof. intros Hi. apply (increasing_app _ _ (drop n ls)). by rewrite take_drop. Qed.

(** Replay of any cut of a lane history: the outcome is the transactions whose
    decision is in front of the cut. *)
(** The lane counts the mutations of every commit before it logs them. *)
Lemma fits_history h :
  NoDup (appended_id <$> h) → Forall appended_ok h → Forall (λ a, len (ap_mutations a) ≤ U32_MAX) h →
  fits (concat (records_of <$> h)).
Proof.
  intros Hnd Hok Hl txn.
  enough (mutations_of txn (concat (records_of <$> h)) = [] ∨
    txn ∈ appended_id <$> h ∧ len (mutations_of txn (concat (records_of <$> h))) ≤ U32_MAX) as [->|[_ ?]];
    [unfold len, U32_MAX; cbn; lia|done|].
  induction h as [|a h IH]; [by left|]. cbn in Hnd. apply NoDup_cons in Hnd as [Hna Hnd].
  apply Forall_cons in Hok as [(_ & Hv & _) Hok], Hl as [Ha Hl]. specialize (IH Hnd Hok Hl).
  change (concat (records_of <$> (a :: h))) with (records_of a ++ concat (records_of <$> h)).
  assert (mutations_of txn (records_of a) = mutations_of txn (Mutation <$> ap_mutations a)) as Ha'.
  { unfold records_of, commit_records. rewrite mutations_of_app. cbn. apply app_nil_r. }
  rewrite mutations_of_app, Ha'. destruct (decide (appended_id a = txn)) as [<-|Hne].
  - rewrite (mutations_of_same _ _ _ Hv). destruct IH as [->|[? _]]; [|done]. right. rewrite app_nil_r.
    split; [left|done].
  - rewrite (mutations_of_other _ _ _ _ Hne Hv). cbn. destruct IH as [?|[? ?]]; [by left|right]. split; [by right|done].
Qed.

Lemma push_all_history h ss first n :
  Forall appended_ok h → NoDup (appended_id <$> h) → consecutive (Some first) h → 0 < first →
  Forall2 placed h ss → increasing None (concat ss).*1 → fits (concat ss).*2 →
  (n ≤ length (concat ss))%nat →
  ∃ k m a, (k ≤ length h)%nat ∧ n = (length (concat (take k ss)) + m)%nat ∧
    (m = 0%nat ∨ ∃ s, ss !! k = Some s ∧ 0 < m < length s)%nat ∧
    push_all (take n (concat ss)) RecoveryAssembler_new = (a, Ok (recovered_of <$> take k h)).
Proof.
  intros Hok Hnd Hc Hpos Hp Hinc Hlen Hn.
  assert (fits (take n (concat ss)).*2) as Hcut
    by (apply (fits_prefix _ (drop n (concat ss)).*2); by rewrite <-fmap_app, take_drop).
  assert (Forall (fresh []) h) as Hfr by (apply Forall_forall; intros; split; [apply not_elem_of_nil|done]).
  pose proof (Forall2_length _ _ _ Hp) as Hhs.
  assert (accepted_log [] (take n (concat ss)).*2) as Hacc.
  { eapply (accepted_log_app _ _ (drop n (concat ss)).*2). rewrite <-fmap_app, take_drop.
    rewrite (placed_concat _ _ Hp). apply (accepted_history _ _ first); done. }
  destruct (push_all_accepts [] (take n (concat ss)) RecoveryAssembler_new) as (a & outs & E).
  { apply asm_inv_new. } { cbn. by apply Hcut. } { done. }
  { cbn. rewrite fmap_take. by apply increasing_take. }
  destruct (take_concat ss n Hn) as (k & m & Hk & Hnm & Hcase).
  exists k, m, a. split; [lia|]. split; [done|].
  assert (∀ tl, take n (concat ss) = concat (take k ss) ++ tl → (∃ ms, tl.*2 = Mutation <$> ms) →
    push_all (take n (concat ss)) RecoveryAssembler_new = (a, Ok (recovered_of <$> take k h))) as Hfin.
  { intros tl Etl [ms Hms]. rewrite E. apply (push_all_sound []) in E as (-> & _); [|apply asm_inv_new|].
    2:{ cbn. by apply Hcut. }
    rewrite Etl, (committed_history _ (take k h)).
    - by rewrite (committed_mutations _ _ _ Hms), app_nil_r.
    - by apply Forall_take.
    - rewrite fmap_take. by apply (NoDup_app _ (drop k (appended_id <$> h))); rewrite take_drop.
    - by apply Forall_take.
    - by apply Forall2_take. }
  destruct Hcase as [[-> Et]|(s & Hks & Hm & Et)].
  - split; [by left|]. apply (Hfin []); [by rewrite app_nil_r|]. by exists [].
  - split; [right; eauto|]. eapply Hfin; [exact Et|].
    destruct (Forall2_lookup_r _ _ _ _ _ Hp Hks) as (b & Hb & Hpb). apply (placed_partial b); [done|lia].
Qed.
End completeness.

(** ** A concrete replay: two interleaved transactions, one aborted *)
#[local] Existing Instance castagnoli_crc.

Definition interleaved_log : list (Lsn * LogRecord) :=
  let m7 := ordered_put 7 0 1 [u8 1] [u8 5] in
  [ (10, Mutation m7); (20, Mutation (ordered_put 8 0 1 [u8 2] [u8 6]));
    (30, Commit {| cd_txn_id := 7; cd_csn := 1; cd_mutation_count := 1;
                   cd_mutation_digest := digest_of [m7] |});
    (40, Abort 8) ].

Lemma recovery_sound_witness :
  ∃ a, push_all interleaved_log RecoveryAssembler_new = (a, Ok (committed [] interleaved_log)) ∧
    NoDup (rt_txn_id <$> committed [] interleaved_log).
Proof.
  assert (fits interleaved_log.*2) as Hl.
  { intros txn. pose proof (length_mutations_of txn interleaved_log.*2) as Hle.
    assert (length interleaved_log.*2 ≤ 100)%nat as Hn by (vm_compute; lia). unfold len, U32_MAX. lia. }
  destruct (push_all interleaved_log RecoveryAssembler_new) as [a r] eqn:E.
  assert (∃ outs, r = Ok outs) as [outs ->].
  { apply (f_equal snd) in E. vm_compute in E. subst r. eexists. reflexivity. }
  exists a. destruct (recovery_sound interleaved_log a outs Hl E) as (-> & _ & Hd & _).
  split; [reflexivity|exact Hd].
Defined.
