(* ===== verification/SegmentLog.v ===== *)
(** * The segmented WAL device

    Models [crates/seerdb/src/vnext/segment_log.rs]: the 40-byte segment header, the
    append and rotation of batches over segment files, synchronization of dirty
    segments, opening with repair of a torn final suffix, and the recovery scan.
    Segment files are the files of [Fs.v], named by their segment number; the
    directory ownership ([ComponentLease]) and the hexadecimal file names are not
    part of the model. *)
From S2P Require Import Prelude StdCollections Ids Crc Fs Log WriteSet Txn LogIo.

Local Open Scope Z_scope.
Local Open Scope seer_scope.

(** [b"OMWL"] *)
Definition WAL_HEADER_MAGIC : bytes := u8 <$> [79; 77; 87; 76].
Definition WAL_HEADER_VERSION : Z := 1.
Definition WAL_HEADER_BYTES : nat := 40.
Definition WAL_HEADER_CHECKSUM_OFFSET : nat := 36.
Definition MIN_RECORD_BYTES : nat := RECORD_HEADER_SIZE + RECORD_TRAILER_SIZE.

Record SegmentState := {
  ss_segment : Z;
  ss_offset : Z;
  ss_dirty_segments : list Z;
  ss_directory_dirty : bool
}.

(** [sl_poisoned] is the poison flag of the [state] mutex; [sl_fs] the directory. *)
Record SegmentedLog := {
  sl_store : bytes;
  sl_segment_bytes : Z;
  sl_state : SegmentState;
  sl_poisoned : bool;
  sl_fs : Fs
}.

Definition set_state (st : SegmentState) (fs : Fs) (d : SegmentedLog) : SegmentedLog :=
  {| sl_store := sl_store d; sl_segment_bytes := sl_segment_bytes d; sl_state := st;
     sl_poisoned := sl_poisoned d; sl_fs := fs |}.

Section device.
Context `{Crc32c}.

Definition encode_wal_header (incarnation : bytes) (segment : Z) : bytes :=
  let body := WAL_HEADER_MAGIC ++ [u8 WAL_HEADER_VERSION; u8 0]
                ++ u16_le (Z.of_nat WAL_HEADER_BYTES) ++ incarnation ++ u64_le segment
                ++ replicate 4 (u8 0) in
  body ++ u32_le (crc32c body).

Definition decode_wal_header (header expected_store : bytes) (expected_segment : Z)
    : result unit IoErrorKind :=
  if negb (bool_decide (length header = WAL_HEADER_BYTES)) then Err InvalidData
  else if negb (bool_decide (take 4 header = WAL_HEADER_MAGIC)) then Err InvalidData
  else if negb (byte_at header 4 =? WAL_HEADER_VERSION) then Err InvalidData
  else if negb (byte_at header 5 =? 0) then Err InvalidData
  else if negb (le_combine (take 2 (drop 6 header)) =? Z.of_nat WAL_HEADER_BYTES)
  then Err InvalidData
  else if existsb (λ b, negb (byte.unsigned b =? 0)) (take 4 (drop 32 header))
  then Err InvalidData
  else if negb (crc32c (take WAL_HEADER_CHECKSUM_OFFSET header) =?
                le_combine (drop WAL_HEADER_CHECKSUM_OFFSET header))
  then Err InvalidData
  else
    match incarnation_from_bytes (take 16 (drop 8 header)) with
    | None => Err InvalidData
    | Some actual =>
        if negb (bool_decide (actual = expected_store)) then Err InvalidData
        else
          let segment := le_combine (take 8 (drop 24 header)) in
          if U32_MAX <? segment then Err InvalidData
          else if negb (segment =? expected_segment) then Err InvalidData
          else Ok ()
    end.

Definition validate_config (segment_bytes : Z) : result unit IoErrorKind :=
  let minimum := Z.of_nat (WAL_HEADER_BYTES + MIN_RECORD_BYTES) in
  if (segment_bytes <? minimum) || (MAX_OFFSET <? segment_bytes) then Err InvalidInput else Ok ().

Definition validate_segment_header (bs store : bytes) (segment : Z) : result unit IoErrorKind :=
  if bool_decide (length bs < WAL_HEADER_BYTES)%nat then Err InvalidData
  else decode_wal_header (take WAL_HEADER_BYTES bs) store segment.

Definition read_segment (segment segment_bytes : Z) (fs : Fs) : Fs * result bytes IoErrorKind :=
  do? (fs, bs) := fs_read segment fs in
  if (segment_bytes <? len bs) || (MAX_OFFSET <? len bs) then (fs, Err InvalidData)
  else (fs, Ok bs).

Definition create_segment (store : bytes) (segment : Z) (fs : Fs) : Fs * result unit IoErrorKind :=
  do? (fs, _) := fs_create_new segment fs in
  do? (fs, _) := fs_write_at segment 0 (encode_wal_header store segment) fs in
  do? (fs, _) := fs_sync_file segment fs in
  do? (fs, _) := fs_sync_dir fs in
  fs_check fs.

Definition list_segments (fs : Fs) : list Z := (fs_files fs).*1.

Fixpoint validate_segment_sequence (segments : list Z) : result unit IoErrorKind :=
  match segments with
  | s1 :: (s2 :: _) as rest =>
      if s1 =? s2 then Err InvalidData
      else if negb (s2 =? s1 + 1) then Err InvalidData
      else validate_segment_sequence rest
  | _ => Ok ()
  end.

Definition create (store : bytes) (segment_bytes : Z) (fs : Fs)
    : Fs * result SegmentedLog IoErrorKind :=
  do? (fs, _) := (fs, validate_config segment_bytes) in
  do? (fs, _) := fs_check fs in
  do? (fs, _) := create_segment store 0 fs in
  (fs, Ok {| sl_store := store; sl_segment_bytes := segment_bytes;
             sl_state := {| ss_segment := 0; ss_offset := Z.of_nat WAL_HEADER_BYTES;
                            ss_dirty_segments := []; ss_directory_dirty := false |};
             sl_poisoned := false; sl_fs := fs |}).

(** The validation loop of [open]: the valid length of the final segment. *)
Fixpoint open_scan (store : bytes) (segment_bytes final_segment : Z) (segments : list Z)
    (final_valid_len : Z) (fs : Fs) : Fs * result Z IoErrorKind :=
  match segments with
  | [] => (fs, Ok final_valid_len)
  | segment :: rest =>
      do? (fs, bs) := read_segment segment segment_bytes fs in
      do? (fs, _) := (fs, validate_segment_header bs store segment) in
      let '(frames, status) := parse_log_prefix_frames (drop WAL_HEADER_BYTES bs) in
      match status with
      | Complete =>
          open_scan store segment_bytes final_segment rest
            (if segment =? final_segment then len bs else final_valid_len) fs
      | Incomplete =>
          if segment =? final_segment then
            open_scan store segment_bytes final_segment rest
              (Z.of_nat WAL_HEADER_BYTES + default 0 (pr_end_offset <$> last frames)) fs
          else (fs, Err InvalidData)
      | Corrupt => (fs, Err InvalidData)
      end
  end.

Definition open (store : bytes) (segment_bytes : Z) (fs : Fs)
    : Fs * result SegmentedLog IoErrorKind :=
  do? (fs, _) := (fs, validate_config segment_bytes) in
  do? (fs, _) := fs_check fs in
  let segments := list_segments fs in
  match last segments with
  | None => (fs, Err NotFound)
  | Some final_segment =>
      do? (fs, _) := (fs, validate_segment_sequence segments) in
      do? (fs, final_valid_len) := open_scan store segment_bytes final_segment segments 0 fs in
      do? (fs, bs) := fs_read final_segment fs in
      let metadata_len := len bs in
      if metadata_len <? final_valid_len then (fs, Err InvalidData)
      else
        let finish fs :=
          do? (fs, _) := fs_check fs in
          (fs, Ok {| sl_store := store; sl_segment_bytes := segment_bytes;
                     sl_state := {| ss_segment := final_segment; ss_offset := final_valid_len;
                                    ss_dirty_segments := segments; ss_directory_dirty := true |};
                     sl_poisoned := false; sl_fs := fs |}) in
        if final_valid_len <? metadata_len then
          do? (fs, _) := fs_set_len final_segment (Z.to_nat final_valid_len) fs in
          do? (fs, _) := fs_sync_file final_segment fs in
          finish fs
        else finish fs
  end.

(** The records of one segment with their end LSNs. *)
Fixpoint frame_records (segment : Z) (frames : list ParsedLogRecord)
    : result (list (Lsn * LogRecord)) IoErrorKind :=
  match frames with
  | [] => Ok []
  | frame :: rest =>
      let? lsn := ok_or (end_lsn frame segment (Z.of_nat WAL_HEADER_BYTES)) InvalidData in
      let? output := frame_records segment rest in
      Ok ((lsn, pr_record frame) :: output)
  end.

Fixpoint recover_segments (store : bytes) (segment_bytes : Z) (segments : list Z) (fs : Fs)
    : Fs * result (list (Lsn * LogRecord)) IoErrorKind :=
  match segments with
  | [] => (fs, Ok [])
  | segment :: rest =>
      do? (fs, bs) := read_segment segment segment_bytes fs in
      do? (fs, _) := (fs, validate_segment_header bs store segment) in
      let '(frames, status) := parse_log_prefix_frames (drop WAL_HEADER_BYTES bs) in
      match status with
      | Complete =>
          do? (fs, records) := (fs, frame_records segment frames) in
          do? (fs, later) := recover_segments store segment_bytes rest fs in
          (fs, Ok (records ++ later))
      | _ => (fs, Err InvalidData)
      end
  end.

Definition recover_records (d : SegmentedLog)
    : SegmentedLog * result (list (Lsn * LogRecord)) IoErrorKind :=
  let segments := list_segments (sl_fs d) in
  match validate_segment_sequence segments with
  | Err e => (d, Err e)
  | Ok _ =>
      let '(fs, r) := recover_segments (sl_store d) (sl_segment_bytes d) segments (sl_fs d) in
      (set_state (sl_state d) fs d, r)
  end.

Definition rotate (d : SegmentedLog) : SegmentedLog * result unit IoErrorKind :=
  match checked_add (ss_segment (sl_state d)) 1 with
  | None => (d, Err StorageFull)
  | Some next =>
      if U32_MAX <? next then (d, Err StorageFull)
      else
        match create_segment (sl_store d) next (sl_fs d) with
        | (fs, Err e) => (set_state (sl_state d) fs d, Err e)
        | (fs, Ok _) =>
            (set_state {| ss_segment := next; ss_offset := Z.of_nat WAL_HEADER_BYTES;
                          ss_dirty_segments := ss_dirty_segments (sl_state d);
                          ss_directory_dirty := true |} fs d, Ok ())
        end
  end.

(** [seek], [write_all] and the bookkeeping at the end of [append]. *)
Definition append_at_offset (bs : bytes) (d : SegmentedLog) : SegmentedLog * result Lsn IoErrorKind :=
  let st := sl_state d in
  let start := ss_offset st in
  match fs_check (sl_fs d) with
  | (fs, Err e) => (set_state st fs d, Err e)
  | (fs, Ok _) =>
      match fs_write_at (ss_segment st) (Z.to_nat start) bs fs with
      | (fs, Err e) => (set_state st fs d, Err e)
      | (fs, Ok _) =>
          let stop := start + len bs in
          let d := set_state {| ss_segment := ss_segment st; ss_offset := stop;
                                ss_dirty_segments :=
                                  BTreeSet.insert (ss_segment st) (ss_dirty_segments st);
                                ss_directory_dirty := ss_directory_dirty st |} fs d in
          (d, ok_or (from_wal_position (ss_segment st) stop) StorageFull)
      end
  end.

Definition segment_append (bs : bytes) (d : SegmentedLog) : SegmentedLog * result Lsn IoErrorKind :=
  if bool_decide (bs = []) then (d, Err InvalidInput)
  else
    let length := len bs in
    let capacity := sl_segment_bytes d - Z.of_nat WAL_HEADER_BYTES in
    if (capacity <? length) || (MAX_OFFSET <? length) then (d, Err InvalidInput)
    else if sl_poisoned d then (d, Err OtherIo)
    else
      match checked_add (ss_offset (sl_state d)) length with
      | None => (d, Err StorageFull)
      | Some stop =>
          if (sl_segment_bytes d <? stop) || (MAX_OFFSET <? stop) then
            do? (d, _) := rotate d in
            append_at_offset bs d
          else append_at_offset bs d
      end.

(** The data barriers of [sync_through]. *)
Fixpoint sync_targets (targets : list Z) (fs : Fs) : Fs * result unit IoErrorKind :=
  match targets with
  | [] => (fs, Ok ())
  | segment :: rest =>
      do? (fs, _) := fs_sync_file segment fs in
      sync_targets rest fs
  end.

Definition segment_sync_through (lsn : Lsn) (d : SegmentedLog)
    : SegmentedLog * result unit IoErrorKind :=
  if sl_poisoned d then (d, Err OtherIo)
  else
    let st := sl_state d in
    if (ss_segment st <? lsn_segment lsn) ||
       ((lsn_segment lsn =? ss_segment st) && (ss_offset st <? lsn_offset lsn))
    then (d, Err InvalidInput)
    else
      let targets := List.filter (λ s, s <=? lsn_segment lsn) (ss_dirty_segments st) in
      match sync_targets targets (sl_fs d) with
      | (fs, Err e) => (set_state st fs d, Err e)
      | (fs, Ok _) =>
          let st := {| ss_segment := ss_segment st; ss_offset := ss_offset st;
                       ss_dirty_segments :=
                         fold_left (λ s x, (BTreeSet.remove x s).2) targets (ss_dirty_segments st);
                       ss_directory_dirty := ss_directory_dirty st |} in
          if ss_directory_dirty st then
            match fs_sync_dir fs with
            | (fs, Err e) => (set_state st fs d, Err e)
            | (fs, Ok _) =>
                (set_state {| ss_segment := ss_segment st; ss_offset := ss_offset st;
                              ss_dirty_segments := ss_dirty_segments st;
                              ss_directory_dirty := false |} fs d, Ok ())
            end
          else (set_state st fs d, Ok ())
      end.

#[export] Instance segmented_log_device : LogDevice SegmentedLog := {
  device_append := segment_append;
  device_sync_through := segment_sync_through
}.
End device.

(** ** Header codec *)
Definition wf_store (store : bytes) : Prop :=
  length store = 16%nat ∧ incarnation_from_bytes store = Some store.

Section header.
Context `{Crc32c}.

Definition header_body (store : bytes) (segment : Z) : bytes :=
  WAL_HEADER_MAGIC ++ [u8 WAL_HEADER_VERSION; u8 0] ++ u16_le (Z.of_nat WAL_HEADER_BYTES)
    ++ store ++ u64_le segment ++ replicate 4 (u8 0).

Lemma length_header_body store segment : length store = 16%nat → length (header_body store segment) = 36%nat.
Proof.
  intros Hs. unfold header_body. rewrite !length_app, Hs, length_u16_le, length_u64_le. done.
Qed.

Lemma length_wal_header store segment :
  length store = 16%nat → length (encode_wal_header store segment) = WAL_HEADER_BYTES.
Proof.
  intros Hs. change (encode_wal_header store segment) with
    (header_body store segment ++ u32_le (crc32c (header_body store segment))).
  rewrite length_app, length_header_body, length_u32_le by done. done.
Qed.

(** The header fields of a segment's body, whatever follows it. *)
Lemma header_fields store segment tail :
  length store = 16%nat → is_u64 segment →
  let h := header_body store segment ++ tail in
  take 4 h = WAL_HEADER_MAGIC ∧ byte_at h 4 = WAL_HEADER_VERSION ∧ byte_at h 5 = 0 ∧
  le_combine (take 2 (drop 6 h)) = Z.of_nat WAL_HEADER_BYTES ∧ take 16 (drop 8 h) = store ∧
  le_combine (take 8 (drop 24 h)) = segment ∧ take 4 (drop 32 h) = replicate 4 (u8 0).
Proof.
  intros Hs Hseg h. unfold h, header_body. rewrite <-!app_assoc. cbn [app].
  repeat split; try reflexivity.
  - change (drop 8 _) with (store ++ u64_le segment ++ replicate 4 (u8 0) ++ tail).
    by rewrite take_app_length'.
  - change (drop 24 _) with (drop 16 (store ++ u64_le segment ++ replicate 4 (u8 0) ++ tail)).
    rewrite drop_app_length', take_app_length' by (rewrite ?length_u64_le; done).
    by apply le_u64_roundtrip.
  - change (drop 32 _) with (drop 24 (store ++ u64_le segment ++ replicate 4 (u8 0) ++ tail)).
    rewrite app_assoc, drop_app_length' by (by rewrite length_app, Hs, length_u64_le). done.
Qed.

Lemma decode_encode_wal_header store segment :
  wf_store store → 0 ≤ segment ≤ U32_MAX →
  decode_wal_header (encode_wal_header store segment) store segment = Ok ().
Proof.
  intros [Hs Hinc] Hseg. unfold decode_wal_header.
  rewrite length_wal_header, bool_decide_eq_true_2 by done. cbn [negb].
  change (encode_wal_header store segment) with
    (header_body store segment ++ u32_le (crc32c (header_body store segment))).
  destruct (header_fields store segment (u32_le (crc32c (header_body store segment))))
    as (-> & -> & -> & -> & -> & -> & ->); [done|unfold is_u64, U32_MAX in *; lia|].
  rewrite bool_decide_eq_true_2, !Z.eqb_refl by done. cbn [negb].
  rewrite take_app_length', drop_app_length' by (by rewrite length_header_body).
  rewrite le_u32_roundtrip, Z.eqb_refl by apply crc32c_u32.
  rewrite Hinc, bool_decide_eq_true_2 by done. cbn [negb].
  replace (existsb _ _) with false by done.
  destruct (U32_MAX <? segment) eqn:E; [bool_to_prop; lia|done].
Qed.

Lemma decode_wal_header_inv h store segment :
  decode_wal_header h store segment = Ok () → h = encode_wal_header store segment.
Proof.
  unfold decode_wal_header. repeat (case_match; [done|]).
  destruct (incarnation_from_bytes _) as [x|] eqn:Einc; [|done].
  apply incarnation_from_bytes_Some in Einc as ->.
  repeat (case_match; [done|]). intros _. bool_to_prop.
  unfold WAL_HEADER_BYTES, WAL_HEADER_CHECKSUM_OFFSET in *.
  assert (h = header_body store segment ++ drop 36 h) as Eh.
  { rewrite <-(drop_0 h) at 1.
    rewrite (drop_field h 0 4 4), (drop_byte h 4 5), (drop_byte h 5 6), (drop_field h 6 2 8),
      (drop_field h 8 16 24), (drop_field h 24 8 32), (drop_field h 32 4 36) by lia.
    rewrite drop_0. unfold header_body. rewrite <-!app_assoc. cbn [app].
    assert (length (take 4 (drop 32 h)) = 4%nat) by (rewrite length_take, length_drop; lia).
    rewrite (zero_bytes (take 4 (drop 32 h)) 4) by done.
    replace (u64_le segment) with (take 8 (drop 24 h)).
    2:{ subst segment. symmetry. apply u64_le_combine. rewrite length_take, length_drop; lia. }
    assert (u16_le (Z.of_nat WAL_HEADER_BYTES) = take 2 (drop 6 h)) as ->.
    { unfold WAL_HEADER_BYTES. match goal with E : le_combine (take 2 _) = _ |- _ => rewrite <-E end.
      apply split_le_combine'. rewrite length_take, length_drop; lia. }
    congruence. }
  change (encode_wal_header store segment) with
    (header_body store segment ++ u32_le (crc32c (header_body store segment))).
  rewrite Eh at 1. f_equal.
  assert (take 36 h = header_body store segment) as Et.
  { rewrite Eh at 1. apply take_app_length'. rewrite length_header_body; [done|].
    match goal with E : take 16 _ = store |- _ => rewrite <-E end.
    rewrite length_take, length_drop; lia. }
  rewrite <-Et. match goal with E : crc32c _ = _ |- _ => rewrite E end.
  symmetry. apply u32_le_combine. rewrite length_drop; lia.
Qed.
End header.

(** ** What a directory of segments holds *)

(** The batches of one segment with their end positions. *)
Fixpoint batch_lsns (segment offset : Z) (bs : list bytes) : list (Lsn * bytes) :=
  match bs with
  | [] => []
  | b :: bs' =>
      (segment * 2 ^ 32 + (offset + len b), b) :: batch_lsns segment (offset + len b) bs'
  end.

Definition seg_batches (s : Z * list bytes) : list (Lsn * bytes) := batch_lsns s.1 40 s.2.
Definition segs_batches (segs : list (Z * list bytes)) : list (Lsn * bytes) :=
  concat (seg_batches <$> segs).

Definition seg_ok (segment_bytes : Z) (s : Z * list bytes) : Prop :=
  0 ≤ s.1 ≤ U32_MAX ∧ 40 + len (concat s.2) ≤ segment_bytes ∧ Forall (λ b, b ≠ []) s.2.

(** Each key follows the one before it. *)
Fixpoint keys_ok (keys : list Z) : Prop :=
  match keys with
  | k :: (k' :: _) as rest => k' = k + 1 ∧ keys_ok rest
  | _ => True
  end.

Lemma lt_ord_Z (x y : Z) : lt_ord x y ↔ x < y.
Proof. unfold lt_ord. cbn. apply Z.compare_lt_iff. Qed.

Lemma batch_lsns_snoc id off bs b :
  batch_lsns id off (bs ++ [b]) =
  batch_lsns id off bs ++ [(id * 2 ^ 32 + (off + len (concat bs) + len b), b)].
Proof.
  revert off. induction bs as [|x bs IH]; intros off; cbn [batch_lsns app concat].
  - change (len []) with 0. by rewrite Z.add_0_r.
  - rewrite IH, len_app. do 4 f_equal. lia.
Qed.

Lemma batch_lsns_bound id off bs :
  Forall (λ b, b ≠ []) bs →
  Forall (λ p, id * 2 ^ 32 + off < p.1 ≤ id * 2 ^ 32 + off + len (concat bs)) (batch_lsns id off bs).
Proof.
  revert off. induction bs as [|b bs IH]; intros off Hne; cbn [batch_lsns concat]; [constructor|].
  apply Forall_cons in Hne as [Hb Hne]. rewrite len_app.
  assert (0 < len b) by (destruct b; [done|]; unfold len; cbn; lia).
  pose proof (len_nonneg (concat bs)).
  constructor; [cbn; lia|]. eapply Forall_impl; [by apply IH|]. cbn. intros p Hp. lia.
Qed.

Lemma segs_batches_app segs segs' :
  segs_batches (segs ++ segs') = segs_batches segs ++ segs_batches segs'.
Proof. unfold segs_batches. by rewrite fmap_app, concat_app. Qed.

Lemma segs_batches_bound segment_bytes segs id :
  segment_bytes ≤ U32_MAX → Forall (seg_ok segment_bytes) segs → Forall (λ s, s.1 < id) segs →
  Forall (λ p, 0 < p.1 < id * 2 ^ 32) (segs_batches segs).
Proof.
  intros Hsb Hok Hlt. apply Forall_concat, Forall_fmap. rewrite Forall_forall in Hok, Hlt.
  apply Forall_forall. intros s Hs. specialize (Hlt s Hs).
  destruct (Hok s Hs) as (Hid & Hlen & Hne). cbn. unfold seg_batches.
  eapply Forall_impl; [by apply batch_lsns_bound|]. cbn. intros p Hp.
  unfold U32_MAX in *. nia.
Qed.

Lemma keys_ok_snoc keys k :
  keys_ok (keys ++ [k]) ↔ keys_ok keys ∧ ∀ k', last keys = Some k' → k = k' + 1.
Proof.
  induction keys as [|x keys IH]; cbn [app]; [cbn; naive_solver|].
  destruct keys as [|y keys]; cbn [app] in *; [cbn; naive_solver|].
  cbn [keys_ok] in *. rewrite IH. rewrite last_cons_cons. naive_solver.
Qed.

Lemma keys_ok_bound keys k : keys_ok (k :: keys) → Forall (λ x, k < x) keys.
Proof.
  revert k. induction keys as [|y keys IH]; intros k; [constructor|].
  intros [-> Hk]. constructor; [lia|]. eapply Forall_impl; [by apply IH|]. cbn; intros; lia.
Qed.

Lemma keys_ok_lt keys k : keys_ok (keys ++ [k]) → Forall (λ x, x < k) keys.
Proof.
  induction keys as [|x keys IH]; cbn [app]; [constructor|]. intros Hk.
  constructor; [|apply IH; destruct keys; [done|apply Hk]].
  apply keys_ok_bound in Hk. rewrite Forall_app, Forall_singleton in Hk. lia.
Qed.

Lemma validate_keys keys : keys_ok keys → validate_segment_sequence keys = Ok ().
Proof.
  induction keys as [|x [|y keys] IH]; cbn [validate_segment_sequence]; [done..|].
  intros [-> Hk]. destruct (x =? x + 1) eqn:E; bool_to_prop; [lia|].
  rewrite Z.eqb_refl. by apply IH.
Qed.

Lemma wf_keys {V} (m : list (Z * V)) : keys_ok m.*1 → BTreeMap.wf m.
Proof.
  unfold BTreeMap.wf. induction m as [|[k v] m IH]; cbn [fmap list_fmap]; [constructor|].
  intros Hk. constructor.
  - apply IH. by destruct m; [|apply Hk].
  - apply keys_ok_bound in Hk. rewrite Forall_fmap in Hk. eapply Forall_impl; [exact Hk|].
    intros p. cbn. by rewrite lt_ord_Z.
Qed.

(** ** The device meets the log contract *)
Section laws.
Context `{Crc32c}.
Implicit Types (d : SegmentedLog) (segs : list (Z * list bytes)).

Definition seg_bytes (store : bytes) (s : Z * list bytes) : bytes :=
  encode_wal_header store s.1 ++ concat s.2.

Definition file_of (store : bytes) (s : Z * list bytes) (p : Z * File) : Prop :=
  p.1 = s.1 ∧ f_bytes p.2 = seg_bytes store s.

(** The directory holds exactly the segments [segs]. *)
Definition layout d segs : Prop :=
  wf_store (sl_store d) ∧ 56 ≤ sl_segment_bytes d ≤ U32_MAX ∧
  Forall (seg_ok (sl_segment_bytes d)) segs ∧ keys_ok segs.*1 ∧
  Forall2 (file_of (sl_store d)) segs (fs_files (sl_fs d)).

(** Every file has its header synchronized, and every file with unsynchronized
    bytes is in the dirty set. *)
Definition dirty_ok d : Prop :=
  BTreeSet.wf (ss_dirty_segments (sl_state d)) ∧
  ∀ k f, (k, f) ∈ fs_files (sl_fs d) →
    (WAL_HEADER_BYTES ≤ f_synced f ≤ length (f_bytes f))%nat ∧
    (f_synced f ≠ length (f_bytes f) → k ∈ ss_dirty_segments (sl_state d)).

(** The append position is the end of the last segment. *)
Definition at_end d (last_seg : Z * list bytes) : Prop :=
  ss_segment (sl_state d) = last_seg.1 ∧
  ss_offset (sl_state d) = 40 + len (concat last_seg.2).

Definition segment_repr d (bs : list (Lsn * bytes)) : Prop :=
  ∃ init s, layout d (init ++ [s]) ∧ at_end d s ∧ dirty_ok d ∧ bs = segs_batches (init ++ [s]).

Definition segment_keeps d (bs : list (Lsn * bytes)) : Prop :=
  ∃ segs, bs = segs_batches segs ∧
    ∀ s, s ∈ segs → ∃ f, BTreeMap.get s.1 (fs_files (sl_fs d)) = Some f ∧
      seg_bytes (sl_store d) s `prefix_of` f_bytes f.

Definition segment_synced d (lsn : Lsn) : Prop :=
  lsn_segment lsn ≤ ss_segment (sl_state d) ∧
  ∀ k f, (k, f) ∈ fs_files (sl_fs d) →
    (k < lsn_segment lsn → f_synced f = length (f_bytes f)) ∧
    (k = lsn_segment lsn →
       lsn_offset lsn ≤ Z.of_nat (f_synced f) ∨
       k < ss_segment (sl_state d) ∧ f_synced f = length (f_bytes f)).

Lemma layout_keys d segs : layout d segs → (fs_files (sl_fs d)).*1 = segs.*1.
Proof.
  intros (_ & _ & _ & _ & Hf). induction Hf as [|s p ? ? [E _] _ IH]; cbn; [done|]. by rewrite E, IH.
Qed.

Lemma layout_last d init s :
  layout d (init ++ [s]) →
  ∃ finit f, fs_files (sl_fs d) = finit ++ [(s.1, f)] ∧
    Forall2 (file_of (sl_store d)) init finit ∧ f_bytes f = seg_bytes (sl_store d) s ∧
    Forall (λ p, lt_ord p.1 s.1) finit ∧ Forall (λ s', s'.1 < s.1) init.
Proof.
  intros Hl. pose proof (layout_keys _ _ Hl) as Hk. destruct Hl as (_ & _ & _ & Hseq & Hf).
  apply Forall2_app_inv_l in Hf as (finit & fl & Hinit & Hlast & Hfiles).
  apply Forall2_cons_inv_l in Hlast as ([k f] & ? & [E Hb] & Hn & ->).
  apply Forall2_nil_inv_l in Hn as ->. cbn in E. subst k. exists finit, f.
  rewrite fmap_app in Hseq. cbn in Hseq. apply keys_ok_lt in Hseq.
  split_and!; [done..| |by rewrite Forall_fmap in Hseq].
  rewrite Hfiles, !fmap_app in Hk. apply app_inj_2 in Hk as [Hk _]; [|done].
  rewrite <-Hk, Forall_fmap in Hseq. eapply Forall_impl; [exact Hseq|].
  intros p. cbn. by rewrite lt_ord_Z.
Qed.

Lemma layout_keeps d segs : layout d segs → segment_keeps d (segs_batches segs).
Proof.
  intros Hl. pose proof (layout_keys _ _ Hl) as Hk. destruct Hl as (_ & _ & _ & Hseq & Hf).
  exists segs. split; [done|]. intros s Hs.
  apply list_elem_of_lookup in Hs as [i Hi].
  destruct (Forall2_lookup_l _ _ _ _ _ Hf Hi) as ([k f] & Hp & E & Hb). cbn in E, Hb. subst k.
  exists f. rewrite Hb. split; [|done]. apply BTreeMap.elem_get.
  - apply wf_keys. by rewrite Hk.
  - by eapply list_elem_of_lookup_2.
Qed.

(** Files that only grow keep what they held. *)
Lemma keeps_grow d d' bs :
  segment_keeps d bs → sl_store d' = sl_store d →
  (∀ k f, BTreeMap.get k (fs_files (sl_fs d)) = Some f →
     ∃ f', BTreeMap.get k (fs_files (sl_fs d')) = Some f' ∧ f_bytes f `prefix_of` f_bytes f') →
  segment_keeps d' bs.
Proof.
  intros (segs & -> & Hs) Hst Hg. exists segs. split; [done|]. intros s Hin.
  destruct (Hs s Hin) as (f & Hf & Hp). destruct (Hg _ _ Hf) as (f' & Hf' & Hp').
  exists f'. rewrite Hst. split; [done|]. by etrans.
Qed.

Lemma layout_snoc_batch d init s b st f finit fs :
  layout d (init ++ [s]) → b ≠ [] →
  ss_offset (sl_state d) + len b ≤ sl_segment_bytes d → at_end d s →
  Forall2 (file_of (sl_store d)) init finit → fs_files fs = finit ++ [(s.1, f)] →
  f_bytes f = seg_bytes (sl_store d) s ++ b →
  layout (set_state st fs d) (init ++ [(s.1, s.2 ++ [b])]).
Proof.
  intros (Hst & Hcfg & Hok & Hseq & _) Hb Hoff [_ Eoff] Hinit Hfs Hfb.
  apply Forall_app in Hok as [Hok [(? & Hlen & Hne) _]%Forall_cons].
  unfold layout. cbn. rewrite Hfs. do 2 (split; [done|]). split_and!.
  - apply Forall_app. split; [done|]. constructor; [|constructor]. split_and!; cbn; try lia.
    + rewrite concat_app, len_app. cbn. rewrite app_nil_r. lia.
    + apply Forall_app. split; [done|]. by constructor.
  - by rewrite fmap_app in *.
  - apply Forall2_app; [done|]. constructor; [|constructor]. split; [done|]. cbn [snd].
    rewrite Hfb. unfold seg_bytes; cbn [fst snd]. rewrite concat_app. cbn [concat].
    by rewrite app_nil_r, app_assoc.
Qed.

(** Replacing the last file: what stays synchronized and what is dirty. *)
Lemma synced_last d finit k f f' st fs lsn :
  fs_files (sl_fs d) = finit ++ [(k, f)] → fs_files fs = finit ++ [(k, f')] →
  ss_segment (sl_state d) = k → ss_segment st = k → (f_synced f ≤ f_synced f')%nat →
  segment_synced d lsn → segment_synced (set_state st fs d) lsn.
Proof.
  intros Hf Hf' Ek Est Hs [Hle Hall]. split; [cbn; lia|]. intros j g. cbn [sl_fs sl_state set_state].
  rewrite Hf', elem_of_app, list_elem_of_singleton, Est, <-Ek. intros [Hin|[= -> ->]].
  - apply Hall. rewrite Hf, elem_of_app. by left.
  - destruct (Hall k f) as [_ H2]; [rewrite Hf, elem_of_app, list_elem_of_singleton; by right|].
    split; intros Hk; [lia|]. destruct H2; [congruence|left; lia|lia].
Qed.

Lemma dirty_last d finit k f f' st fs :
  fs_files (sl_fs d) = finit ++ [(k, f)] → fs_files fs = finit ++ [(k, f')] →
  ss_dirty_segments st = BTreeSet.insert k (ss_dirty_segments (sl_state d)) →
  (WAL_HEADER_BYTES ≤ f_synced f' ≤ length (f_bytes f'))%nat →
  dirty_ok d → dirty_ok (set_state st fs d).
Proof.
  intros Hf Hf' Est Hs [Hwf Hall]. split; cbn; rewrite Est; [by apply BTreeSet.set_insert_wf|].
  intros j g. rewrite Hf', elem_of_app, list_elem_of_singleton, BTreeSet.set_elem_insert.
  intros [Hin|[= -> ->]]; [|by auto].
  destruct (Hall j g); [rewrite Hf, elem_of_app; by left|]. auto.
Qed.

(** The write at the append position. *)
Lemma append_at_offset_spec d init s b d' r :
  layout d (init ++ [s]) → at_end d s → dirty_ok d → b ≠ [] →
  ss_offset (sl_state d) + len b ≤ sl_segment_bytes d →
  append_at_offset b d = (d', r) →
  match r with
  | Ok lsn => layout d' (init ++ [(s.1, s.2 ++ [b])]) ∧ at_end d' (s.1, s.2 ++ [b]) ∧ dirty_ok d' ∧
      lsn = s.1 * 2 ^ 32 + (40 + len (concat s.2) + len b)
  | Err _ => segment_keeps d' (segs_batches (init ++ [s]))
  end ∧
  (∀ lsn, segment_synced d lsn → segment_synced d' lsn).
Proof.
  intros Hl Hend Hd Hb Hoff. unfold append_at_offset.
  destruct (layout_last _ _ _ Hl) as (finit & f & Hfiles & Hinit & Hfb & Hlt & _).
  pose proof Hl as (Hst & Hcfg & Hok & _). pose proof Hend as [Eseg Eoff].
  apply Forall_app in Hok as [_ [(Hid & Hlen & _) _]%Forall_cons].
  assert (ss_offset (sl_state d) = Z.of_nat (length (f_bytes f))) as Hpos.
  { rewrite Hfb. unfold seg_bytes. rewrite length_app, length_wal_header by apply Hst.
    rewrite Eoff. unfold len, WAL_HEADER_BYTES. lia. }
  assert ((WAL_HEADER_BYTES ≤ f_synced f ≤ length (f_bytes f))%nat) as Hsy.
  { eapply (proj2 Hd s.1 f). rewrite Hfiles, elem_of_app, list_elem_of_singleton. by right. }
  destruct (fs_check (sl_fs d)) as [fs1 [[]|e]] eqn:Ec; apply fs_check_files in Ec.
  2:{ intros [= <- <-]. split; [|intros lsn; by eapply synced_last; [..|rewrite Ec| | |]].
      eapply keeps_grow; [by apply layout_keeps|done|]. cbn. rewrite Ec. eauto. }
  destruct (fs_write_at _ _ b fs1) as [fs2 r2] eqn:Ew.
  assert (BTreeMap.get (ss_segment (sl_state d)) (fs_files fs1) = Some f) as Hget.
  { rewrite Ec, Eseg, Hfiles. by apply BTreeMap.get_snoc. }
  destruct (fs_write_at_cases _ _ _ _ _ _ _ Hget Ew) as (w & Hfs2 & Hcase).
  rewrite Hpos, Nat2Z.id, splice_end, Eseg, Ec, Hfiles, BTreeMap.insert_snoc in Hfs2 by done.
  rewrite Nat.min_l in Hfs2 by apply Hsy.
  destruct Hcase as [[-> ->]|[Hr [n ->]]].
  - intros [= <- <-]. pose proof (len_nonneg b). pose proof (len_nonneg (concat s.2)).
    replace (from_wal_position _ _) with (Some (s.1 * 2 ^ 32 + (40 + len (concat s.2) + len b))).
    2:{ symmetry. apply from_wal_position_Some; rewrite ?Eseg; lia. }
    cbn [ok_or]. split; [split_and!|intros lsn; by eapply synced_last].
    + eapply layout_snoc_batch; try done. cbn. by rewrite Hfb.
    + split; [exact Eseg|]. cbn. rewrite concat_app, len_app. cbn. rewrite app_nil_r. lia.
    + eapply dirty_last; try done; cbn; [by rewrite Eseg|]. rewrite length_app. lia.
    + done.
  - destruct r2 as [|e]; [done|]. intros [= <- <-]. split; [|intros lsn; by eapply synced_last].
    eapply keeps_grow; [by apply layout_keeps|done|]. cbn. rewrite Hfs2, Hfiles.
    intros k g Hg. rewrite <-(BTreeMap.insert_snoc s.1 f) by done.
    destruct (decide (s.1 = k)) as [<-|Hne].
    + rewrite BTreeMap.get_snoc in Hg by done. simplify_eq. rewrite BTreeMap.get_insert_eq.
      eexists. split; [done|]. cbn. by apply prefix_app_r.
    + rewrite BTreeMap.get_insert_ne by done. eauto.
Qed.

Lemma create_segment_spec store k fs fs' r :
  Forall (λ p, lt_ord p.1 k) (fs_files fs) → create_segment store k fs = (fs', r) →
  match r with
  | Ok _ => fs_files fs' = fs_files fs ++
      [(k, {| f_bytes := encode_wal_header store k;
              f_synced := length (encode_wal_header store k) |})]
  | Err _ => fs_files fs' = fs_files fs ∨ ∃ f, fs_files fs' = fs_files fs ++ [(k, f)]
  end.
Proof.
  intros Hlt. unfold create_segment.
  destruct (fs_create_new k fs) as [fs1 r1] eqn:E1.
  apply fs_create_new_cases in E1 as [[E1 Hr]|(-> & _ & E1)].
  { destruct r1; [done|]. intros [= <- <-]. by left. }
  rewrite BTreeMap.insert_last in E1 by done.
  destruct (fs_write_at k 0 _ fs1) as [fs2 r2] eqn:E2.
  eapply fs_write_at_cases in E2 as (w & E2 & Hw); [|rewrite E1; by apply BTreeMap.get_snoc].
  rewrite E1, BTreeMap.insert_snoc in E2 by done. cbn in E2. rewrite drop_nil, app_nil_r in E2.
  destruct Hw as [[-> ->]|[Hr _]]; [|destruct r2; [done|]; intros [= <- <-]; right; eauto].
  destruct (fs_sync_file k fs2) as [fs3 r3] eqn:E3.
  apply fs_sync_file_cases in E3 as [[E3 Hr]|(-> & f & Hg & E3)].
  { destruct r3; [done|]. intros [= <- <-]. right. rewrite E3, E2. eauto. }
  rewrite E2, BTreeMap.get_snoc in Hg by done. simplify_eq.
  rewrite E2, BTreeMap.insert_snoc in E3 by done. cbn in E3.
  unfold fs_sync_dir. destruct (fs_check fs3) as [fs4 [[]|]] eqn:E4; apply fs_check_files in E4.
  2:{ intros [= <- <-]. right. rewrite E4, E3. eauto. }
  destruct (fs_check fs4) as [fs5 [[]|]] eqn:E5; apply fs_check_files in E5; intros [= <- <-].
  - by rewrite E5, E4, E3.
  - right. rewrite E5, E4, E3. eauto.
Qed.

(** A file past the current segment does not disturb what is synchronized. *)
Lemma synced_new_file d k f st fs lsn :
  ss_segment (sl_state d) < k → ss_segment (sl_state d) ≤ ss_segment st →
  fs_files fs = fs_files (sl_fs d) ∨ fs_files fs = fs_files (sl_fs d) ++ [(k, f)] →
  segment_synced d lsn → segment_synced (set_state st fs d) lsn.
Proof.
  intros Hk Hst Hfs [Hle Hall]. split; [cbn; lia|]. intros j g. cbn [sl_fs sl_state set_state].
  assert ((j, g) ∈ fs_files (sl_fs d) →
    (j < lsn_segment lsn → f_synced g = length (f_bytes g)) ∧
    (j = lsn_segment lsn → lsn_offset lsn ≤ Z.of_nat (f_synced g) ∨
       j < ss_segment st ∧ f_synced g = length (f_bytes g))) as Hold.
  { intros [H1 H2]%Hall. split; [done|]. intros Hj. destruct (H2 Hj) as [?|[? ?]]; [auto|].
    right. split; [lia|done]. }
  destruct Hfs as [->| ->]; [done|].
  rewrite elem_of_app, list_elem_of_singleton. intros [Hin|[= -> ->]]; [by auto|]. lia.
Qed.

Lemma rotate_spec d init s d' r :
  layout d (init ++ [s]) → at_end d s → dirty_ok d → rotate d = (d', r) →
  match r with
  | Ok _ => layout d' ((init ++ [s]) ++ [(s.1 + 1, [])]) ∧ at_end d' (s.1 + 1, []) ∧ dirty_ok d'
  | Err _ => segment_keeps d' (segs_batches (init ++ [s]))
  end ∧ sl_store d' = sl_store d ∧ sl_segment_bytes d' = sl_segment_bytes d ∧
  (∀ lsn, segment_synced d lsn → segment_synced d' lsn).
Proof.
  intros Hl [Eseg Eoff] [Hdw Hd]. unfold rotate. rewrite Eseg.
  pose proof (layout_keeps _ _ Hl) as Hkeep.
  destruct (checked_add s.1 1) as [next|] eqn:En; [|intros [= <- <-]; done].
  apply checked_add_Some in En as [-> _].
  destruct (U32_MAX <? s.1 + 1) eqn:Emax; [intros [= <- <-]; done|]. bool_to_prop.
  pose proof (layout_keys _ _ Hl) as Hk. pose proof Hl as (Hst & Hcfg & Hok & Hseq & Hf2).
  assert (keys_ok (((init ++ [s]) ++ [(s.1 + 1, [])]).*1)) as Hseq'.
  { rewrite fmap_app. apply keys_ok_snoc. split; [done|]. intros k'.
    rewrite fmap_app. cbn. rewrite last_snoc. by intros [= <-]. }
  assert (Forall (λ p, lt_ord p.1 (s.1 + 1)) (fs_files (sl_fs d))) as Hlt.
  { rewrite fmap_app in Hseq'. apply keys_ok_lt in Hseq'. rewrite <-Hk, Forall_fmap in Hseq'.
    eapply Forall_impl; [exact Hseq'|]. intros p. cbn. by rewrite lt_ord_Z. }
  destruct (create_segment _ _ _) as [fs r1] eqn:Ec. apply create_segment_spec in Ec; [|done].
  destruct r1 as [[]|e]; intros [= <- <-].
  - split; [|split_and!; try done].
    2:{ intros lsn Hs. eapply synced_new_file; [..|by right|done]; cbn; lia. }
    split_and!; try done.
    + unfold layout. cbn. rewrite Ec. do 2 (split; [done|]). split_and!; [|done|].
      * apply Forall_app in Hok as [? Hs]. apply Forall_app. split; [by apply Forall_app|].
        apply Forall_cons in Hs as [(? & _) _].
        constructor; [|constructor]. split_and!; cbn; [lia|lia| |constructor].
        change (len []) with 0. lia.
      * apply Forall2_app; [done|]. constructor; [|constructor]. split; [done|].
        unfold seg_bytes. cbn [fst snd f_bytes]. by rewrite app_nil_r.
    + split; [done|]. intros k f. cbn [sl_fs set_state fs_files].
      rewrite Ec, elem_of_app, list_elem_of_singleton. intros [Hin|[-> ->]%pair_equal_spec]; [by apply Hd|].
      cbn [f_bytes f_synced]. rewrite length_wal_header by apply Hst. split; [lia|done].
  - split; [|split_and!; try done].
    + eapply keeps_grow; [done|done|]. cbn. intros k f Hg. exists f. split; [|done].
      destruct Ec as [->|[f' ->]]; [done|]. rewrite <-BTreeMap.insert_last by done.
      rewrite BTreeMap.get_insert_ne; [done|]. intros <-.
      by rewrite BTreeMap.get_notin_last in Hg.
    + intros lsn Hs. destruct Ec as [Ec|[f' Ec]].
      * eapply (synced_new_file d (s.1 + 1) {| f_bytes := []; f_synced := 0 |}); [lia|done|by left|done].
      * eapply synced_new_file; [|done|by right|done]; lia.
Qed.

(** The end position of a batch appended to segment [s] is past every other. *)
Lemma append_position_last sb init s (b : bytes) :
  sb ≤ U32_MAX → Forall (seg_ok sb) (init ++ [s]) → Forall (λ s', s'.1 < s.1) init → b ≠ [] →
  Forall (λ p, p.1 < s.1 * 2 ^ 32 + (40 + len (concat s.2) + len b)) (segs_batches (init ++ [s])) ∧
  0 < s.1 * 2 ^ 32 + (40 + len (concat s.2) + len b).
Proof.
  intros Hsb [Hok Hs]%Forall_app Hlt Hb. apply Forall_cons in Hs as [(Hid & Hlen & Hne) _].
  assert (0 < len b) by (destruct b; [done|]; unfold len; cbn; lia).
  pose proof (len_nonneg (concat s.2)). split; [|unfold U32_MAX in *; nia].
  rewrite segs_batches_app. apply Forall_app. split.
  - eapply Forall_impl; [by apply (segs_batches_bound sb)|]. cbn. intros p Hp. lia.
  - unfold segs_batches. cbn. rewrite app_nil_r.
    eapply Forall_impl; [by apply batch_lsns_bound|]. cbn. intros p Hp. lia.
Qed.

(** What an append does to a device that holds [bs]. *)
Definition append_result d (bs : list (Lsn * bytes)) (b : bytes) d' (r : result Lsn IoErrorKind)
    : Prop :=
  match r with
  | Ok lsn => segment_repr d' (bs ++ [(lsn, b)]) ∧ Forall (λ p, p.1 < lsn) bs ∧ 0 < lsn
  | Err _ => segment_keeps d' bs
  end ∧ ∀ lsn, segment_synced d lsn → segment_synced d' lsn.

Lemma append_at_offset_result d init s b d' r :
  layout d (init ++ [s]) → at_end d s → dirty_ok d → b ≠ [] →
  ss_offset (sl_state d) + len b ≤ sl_segment_bytes d →
  append_at_offset b d = (d', r) → append_result d (segs_batches (init ++ [s])) b d' r.
Proof.
  intros Hl Hend Hd Hb Hoff E.
  destruct (append_at_offset_spec _ _ _ _ _ _ Hl Hend Hd Hb Hoff E) as [Hr Hs].
  split; [|done]. destruct r as [lsn|e]; [|done]. destruct Hr as (Hl' & Hend' & Hd' & ->).
  destruct (layout_last _ _ _ Hl) as (_ & _ & _ & _ & _ & _ & Hlt).
  destruct Hl as (_ & Hcfg & Hok & _).
  split; [|eapply append_position_last; [|done..]; lia].
  eexists _, _. split; [done|]. split; [done|]. split; [done|].
  rewrite !segs_batches_app. unfold segs_batches. cbn. unfold seg_batches; cbn.
  by rewrite batch_lsns_snoc, !app_nil_r, app_assoc.
Qed.

(** One append, whether or not it rotates. *)
Lemma segment_append_spec d bs b d' r :
  segment_repr d bs → segment_append b d = (d', r) → append_result d bs b d' r.
Proof.
  intros (init & s & Hl & Hend & Hd & ->). unfold segment_append.
  pose proof (layout_keeps _ _ Hl) as Hkeep.
  case_bool_decide as Hb; [by intros [= <- <-]|].
  destruct (_ || _)%bool eqn:Ecap; [by intros [= <- <-]|]. bool_to_prop.
  destruct (sl_poisoned d); [by intros [= <- <-]|].
  destruct (checked_add _ _) as [stop|] eqn:Estop; [|by intros [= <- <-]].
  apply checked_add_Some in Estop as [-> _].
  destruct (_ || _)%bool eqn:Erot.
  2:{ bool_to_prop. by apply append_at_offset_result. }
  destruct (rotate d) as [d1 r1] eqn:Er.
  destruct (rotate_spec _ _ _ _ _ Hl Hend Hd Er) as (Hr & _ & Esb & Hsync).
  destruct r1 as [[]|e]; [|by intros [= <- <-]].
  destruct Hr as (Hl1 & Hend1 & Hd1). intros E.
  assert (segs_batches ((init ++ [s]) ++ [(s.1 + 1, [])]) = segs_batches (init ++ [s])) as Esegs.
  { rewrite segs_batches_app. unfold segs_batches at 2. cbn. by rewrite app_nil_r. }
  apply (append_at_offset_result d1 (init ++ [s]) (s.1 + 1, [])) in E as [Hr Hs]; [|done..|].
  - rewrite Esegs in Hr. split; [done|]. auto.
  - rewrite Esb, (proj2 Hend1). cbn. change (len []) with 0.
    change (Z.of_nat WAL_HEADER_BYTES) with 40 in *. lia.
Qed.

(** Syncing: every file keeps its bytes and a target is synchronized to its end. *)
Definition synced_files (targets : list Z) (ok : bool) (p q : Z * File) : Prop :=
  q.1 = p.1 ∧ f_bytes q.2 = f_bytes p.2 ∧
  (f_synced q.2 = f_synced p.2 ∧ (ok = true → p.1 ∉ targets) ∨
   f_synced q.2 = length (f_bytes p.2)).

Lemma sync_targets_spec targets fs fs' r :
  BTreeMap.wf (fs_files fs) → sync_targets targets fs = (fs', r) →
  Forall2 (synced_files targets (is_ok r)) (fs_files fs) (fs_files fs').
Proof.
  revert fs. induction targets as [|k targets IH]; intros fs Hwf; cbn [sync_targets].
  { intros [= <- <-]. apply Forall_Forall2_diag, Forall_forall. intros p _.
    split_and!; try done. left. split; [done|]. intros _. apply not_elem_of_nil. }
  destruct (fs_sync_file k fs) as [fs1 r1] eqn:E1.
  apply fs_sync_file_cases in E1 as [[E1 Hr]|(-> & f & Hg & E1)].
  { destruct r1; [done|]. intros [= <- <-]. rewrite E1. apply Forall_Forall2_diag, Forall_forall.
    intros p _. split_and!; try done. by left. }
  assert (BTreeMap.wf (fs_files fs1)) as Hwf1 by (rewrite E1; by apply BTreeMap.insert_wf).
  intros E%IH; [|done]. rewrite E1, (BTreeMap.insert_existing k f) in E by done.
  rewrite Forall2_fmap_l in E. clear -E Hg Hwf.
  apply Forall2_same_length_lookup. split; [by eapply Forall2_length|].
  intros i p q Hp Hq. eapply Forall2_lookup_lr in E; [|exact Hp|exact Hq].
  destruct E as (E1 & E2 & E3). destruct p as [j g]. cbn in *.
  destruct (decide (j = k)) as [->|Hne]; cbn in *.
  - assert (g = f) as ->.
    { apply (BTreeMap.elem_get k g) in Hwf; [congruence|]. by eapply list_elem_of_lookup_2. }
    split_and!; [done|done|]. right. destruct E3 as [[-> _]|]; done.
  - split_and!; [done|done|]. destruct E3 as [[-> Hn]|]; [left|by right].
    split; [done|]. intros Hok. rewrite not_elem_of_cons. auto.
Qed.

Lemma elem_remove_all (targets dirty : list Z) (x : Z) :
  BTreeSet.wf dirty →
  BTreeSet.wf (fold_left (λ s x, (BTreeSet.remove x s).2) targets dirty) ∧
  (x ∈ fold_left (λ s x, (BTreeSet.remove x s).2) targets dirty ↔ x ∈ dirty ∧ x ∉ targets).
Proof.
  revert dirty. induction targets as [|k targets IH]; intros dirty Hwf; cbn.
  - split; [done|]. split; [|naive_solver]. intros ?. split; [done|apply not_elem_of_nil].
  - destruct (IH (BTreeSet.remove k dirty).2) as [Hw Hx]; [by apply BTreeSet.set_remove_wf|].
    split; [done|]. rewrite Hx, BTreeSet.set_elem_remove, not_elem_of_cons by done. naive_solver.
Qed.

(** A sync leaves the layout; what was synchronized stays so. *)
Lemma layout_synced_files d segs targets ok st fs :
  layout d segs → Forall2 (synced_files targets ok) (fs_files (sl_fs d)) (fs_files fs) →
  layout (set_state st fs d) segs.
Proof.
  intros (Hst & Hcfg & Hok & Hseq & Hf) Hs. unfold layout. cbn. do 4 (split; [done|]).
  apply Forall2_same_length_lookup. split.
  { by rewrite (Forall2_length _ _ _ Hf), (Forall2_length _ _ _ Hs). }
  intros i s q Hsi Hq. destruct (Forall2_lookup_r _ _ _ _ _ Hs Hq) as (p & Hp & E3 & E4 & _).
  destruct (Forall2_lookup_lr _ _ _ _ _ _ Hf Hsi Hp) as [E1 E2]. split; congruence.
Qed.

Lemma synced_synced_files d targets ok st fs lsn :
  Forall2 (synced_files targets ok) (fs_files (sl_fs d)) (fs_files fs) →
  dirty_ok d → ss_segment st = ss_segment (sl_state d) →
  segment_synced d lsn → segment_synced (set_state st fs d) lsn.
Proof.
  intros Hf [_ Hd] Est [Hle Hall]. unfold segment_synced. cbn. rewrite Est. split; [done|].
  intros k g Hin. apply list_elem_of_lookup in Hin as [i Hi].
  destruct (Forall2_lookup_r _ _ _ _ _ Hf Hi) as ([j f] & Hj & E1 & E2 & E3). cbn in *. subst j.
  apply list_elem_of_lookup_2 in Hj. destruct (Hall _ _ Hj) as [H1 H2], (Hd _ _ Hj) as [H3 _].
  rewrite E2. split; intros Hk.
  - specialize (H1 Hk). destruct E3 as [[-> _]|]; done.
  - destruct E3 as [[-> _]| ->]; [by auto|]. destruct (H2 Hk) as [?|[? _]]; [left; lia|by right].
Qed.

Lemma sync_done d lsn s init targets st fs :
  layout d (init ++ [s]) → at_end d s → dirty_ok d →
  lsn_segment lsn ≤ s.1 → (lsn_segment lsn = s.1 → lsn_offset lsn ≤ ss_offset (sl_state d)) →
  targets = List.filter (λ s, s <=? lsn_segment lsn) (ss_dirty_segments (sl_state d)) →
  Forall2 (synced_files targets true) (fs_files (sl_fs d)) (fs_files fs) →
  ss_segment st = ss_segment (sl_state d) → ss_offset st = ss_offset (sl_state d) →
  ss_dirty_segments st =
    fold_left (λ s x, (BTreeSet.remove x s).2) targets (ss_dirty_segments (sl_state d)) →
  segment_repr (set_state st fs d) (segs_batches (init ++ [s])) ∧
  segment_synced (set_state st fs d) lsn.
Proof.
  intros Hl [Eseg Eoff] [Hdw Hd] Hle Hoff Htg Hf Es Eo Edirty.
  assert (∀ k g, (k, g) ∈ fs_files fs → ∃ f, (k, f) ∈ fs_files (sl_fs d) ∧
    f_bytes g = f_bytes f ∧ (WAL_HEADER_BYTES ≤ f_synced g ≤ length (f_bytes g))%nat ∧
    (f_synced g = length (f_bytes g) ∨
     f_synced g = f_synced f ∧ k ∈ ss_dirty_segments (sl_state d) ∧ k ∉ targets)) as Hfile.
  { intros k g Hin. apply list_elem_of_lookup in Hin as [i Hi].
    destruct (Forall2_lookup_r _ _ _ _ _ Hf Hi) as ([j f] & Hj & E1 & E2 & E3). cbn in *. subst j.
    apply list_elem_of_lookup_2 in Hj. exists f. destruct (Hd _ _ Hj) as [H1 H2]. rewrite E2.
    split_and!; [done|done|destruct E3 as [[-> _]|]; lia|destruct E3 as [[-> _]|]; lia|].
    destruct (decide (f_synced f = length (f_bytes f))); destruct E3 as [[E3 Hn]|E3];
      try (left; congruence). right. auto. }
  split.
  - exists init, s. split; [by eapply layout_synced_files|]. split; [split; cbn; congruence|].
    split; [|done]. split; cbn; rewrite Edirty; [by apply (elem_remove_all _ _ 0)|].
    intros k g (f & _ & _ & Hsz & Hc)%Hfile. split; [done|]. intros Hne.
    apply elem_remove_all; [done|]. by destruct Hc as [?|(_ & ? & ?)].
  - split; [cbn; lia|]. intros k g Hin. cbn in Hin. destruct (Hfile k g Hin) as (f & Hin' & Hb & _ & Hc).
    assert (k ≤ lsn_segment lsn → f_synced g = length (f_bytes g)) as Hfull.
    { intros Hk. destruct Hc as [?|(_ & Hdirty & Hn)]; [done|]. exfalso. apply Hn.
      rewrite Htg. apply list_elem_of_In, filter_In. split; [by apply list_elem_of_In|lia]. }
    split; intros Hk; [apply Hfull; lia|]. specialize (Hfull ltac:(lia)). cbn. rewrite Es, Eseg.
    destruct (decide (k < s.1)); [by right|left]. assert (k = s.1) as Ek by lia.
    destruct (layout_last _ _ _ Hl) as (finit & f' & Hfiles & _ & Hfb & Hlt & _).
    assert (f' = f) as ->.
    { rewrite Ek, Hfiles, elem_of_app, list_elem_of_singleton in Hin'. destruct Hin' as [Hx|[= ->]]; [|done].
      rewrite Forall_forall in Hlt. apply Hlt in Hx. by apply BTreeMap.lt_ord_irrefl in Hx. }
    rewrite Hfull, Hb, Hfb. unfold seg_bytes. rewrite length_app, length_wal_header by apply Hl.
    rewrite Eoff in Hoff. unfold len, WAL_HEADER_BYTES in *. lia.
Qed.

Lemma segment_sync_spec d bs lsn d' r :
  segment_repr d bs → segment_sync_through lsn d = (d', r) →
  match r with
  | Ok _ => segment_repr d' bs ∧ segment_synced d' lsn
  | Err _ => segment_keeps d' bs
  end ∧ ∀ l, segment_synced d l → segment_synced d' l.
Proof.
  intros (init & s & Hl & Hend & Hd & ->). unfold segment_sync_through.
  pose proof (layout_keeps _ _ Hl) as Hkeep. destruct (sl_poisoned d); [by intros [= <- <-]|].
  destruct (_ || _)%bool eqn:Echk; [by intros [= <- <-]|].
  apply orb_false_iff in Echk as [Hle Hoff%andb_false_iff]. bool_to_prop.
  assert (BTreeMap.wf (fs_files (sl_fs d))) as Hwf.
  { apply wf_keys. rewrite (layout_keys _ _ Hl). apply Hl. }
  destruct (sync_targets _ _) as [fs1 r1] eqn:Es. apply sync_targets_spec in Es; [|done].
  destruct r1 as [[]|e]; cbn [is_ok] in Es.
  2:{ intros [= <- <-]. split; [eapply layout_keeps, layout_synced_files; done|].
      intros l. by eapply synced_synced_files. }
  assert (∀ st fs, fs_files fs = fs_files fs1 → ss_segment st = ss_segment (sl_state d) →
    ss_offset st = ss_offset (sl_state d) → ss_dirty_segments st =
      fold_left (λ s x, (BTreeSet.remove x s).2)
        (List.filter (λ s, s <=? lsn_segment lsn) (ss_dirty_segments (sl_state d)))
        (ss_dirty_segments (sl_state d)) →
    segment_repr (set_state st fs d) (segs_batches (init ++ [s])) ∧
    segment_synced (set_state st fs d) lsn) as Hdone.
  { intros st fs E E1 E2 E3. rewrite <-E in Es.
    eapply sync_done; try done; rewrite <-(proj1 Hend); [lia|].
    intros Hseg. destruct Hoff as [Hoff|Hoff]; bool_to_prop; lia. }
  cbn [ss_directory_dirty]. destruct (ss_directory_dirty (sl_state d)).
  - unfold fs_sync_dir. destruct (fs_check fs1) as [fs2 [[]|e]] eqn:Ec; apply fs_check_files in Ec;
      intros [= <- <-]; rewrite <-Ec in Es; (split; [|intros l; by eapply synced_synced_files]).
    + by apply Hdone.
    + eapply layout_keeps, layout_synced_files; done.
  - intros [= <- <-]. split; [by apply Hdone|intros l; by eapply synced_synced_files].
Qed.

#[export] Program Instance segmented_log_laws : LogDeviceLaws SegmentedLog := {
  device_repr := segment_repr;
  device_keeps := segment_keeps;
  device_synced := segment_synced
}.
Next Obligation. intros d bs (init & s & Hl & _ & _ & ->). by apply layout_keeps. Qed.
Next Obligation. intros b bs d d' lsn Hr E. by destruct (segment_append_spec _ _ _ _ _ Hr E). Qed.
Next Obligation. intros b bs d d' e Hr E. by destruct (segment_append_spec _ _ _ _ _ Hr E). Qed.
Next Obligation. intros l bs d d' u Hr E. by destruct (segment_sync_spec _ _ _ _ _ Hr E). Qed.
Next Obligation. intros l bs d d' e Hr E. by destruct (segment_sync_spec _ _ _ _ _ Hr E). Qed.
Next Obligation.
  intros b bs d d' r lsn Hr E. destruct (segment_append_spec _ _ _ _ _ Hr E) as [_ Hs]. apply Hs.
Qed.
Next Obligation.
  intros t bs d d' r lsn Hr E. destruct (segment_sync_spec _ _ _ _ _ Hr E) as [_ Hs]. apply Hs.
Qed.
End laws.
