(* ===== verification/SegmentNames.v ===== *)
(** * Segment file names

    Models [segment_path] and [list_segments] of
    [crates/seerdb/src/vnext/segment_log.rs]: the hexadecimal file names of the log's
    segments and the scan of the log directory for them.  The files of [SegmentLog]
    are named by number; the theorem at the end shows that the scan of a directory
    that holds the segments under these names, among other files and in any order,
    returns these numbers. *)
From Stdlib Require Import Ascii.
From stdpp Require Import sorting.
From S2P Require Import Prelude StdCollections Fs SegmentLog.

Local Open Scope Z_scope.
Local Open Scope seer_scope.

(** A name is the list of its characters. *)
Definition SEGMENT_PREFIX : list ascii := ["w"; "a"; "l"; "-"]%char.
Definition SEGMENT_SUFFIX : list ascii := ["."; "s"; "e"; "g"]%char.

(** ** Writing *)
Definition hex_digit (n : Z) : ascii := ascii_of_nat (Z.to_nat (if n <? 10 then 48 + n else 87 + n)).

Fixpoint nibbles (n : nat) (z : Z) : list Z :=
  match n with O => [] | S n' => nibbles n' (z / 16) ++ [z mod 16] end.

(** Leading zeroes are dropped down to eight digits. *)
Fixpoint strip_zeroes (digits : list Z) : list Z :=
  match digits with
  | 0 :: rest => if (8 <? length digits)%nat then strip_zeroes rest else digits
  | _ => digits
  end.

(** The [{:08x}] of a [u64] *)
Definition format_08x (z : Z) : list ascii := hex_digit <$> strip_zeroes (nibbles 16 z).

Definition segment_name (segment : Z) : list ascii := SEGMENT_PREFIX ++ format_08x segment ++ SEGMENT_SUFFIX.

(** ** Reading *)
Definition digit_of (c : ascii) : option Z :=
  let n := Z.of_nat (nat_of_ascii c) in
  if (48 <=? n) && (n <=? 57) then Some (n - 48)
  else if (97 <=? n) && (n <=? 102) then Some (n - 87)
  else if (65 <=? n) && (n <=? 70) then Some (n - 55)
  else None.

Fixpoint parse_digits (acc : Z) (cs : list ascii) : option Z :=
  match cs with
  | [] => Some acc
  | c :: cs' =>
      d ← digit_of c;
      if U64_MAX <? acc * 16 + d then None else parse_digits (acc * 16 + d) cs'
  end.

(** [u64::from_str_radix(_, 16)], which accepts one leading plus sign *)
Definition from_str_radix_16 (cs : list ascii) : option Z :=
  match cs with
  | [] => None
  | c :: cs' =>
      if bool_decide (c = "+"%char) then match cs' with [] => None | _ => parse_digits 0 cs' end
      else parse_digits 0 cs
  end.

Definition is_segment_name (name : list ascii) : bool :=
  bool_decide (take 4 name = SEGMENT_PREFIX)
  && ((4 <=? length name)%nat && bool_decide (drop (length name - 4) name = SEGMENT_SUFFIX)).

(** The entries of the directory: a name, unless it is not a string, and whether the
    entry is a regular file. *)
Fixpoint scan_segments (entries : list (option (list ascii) * bool)) : result (list Z) IoErrorKind :=
  match entries with
  | [] => Ok []
  | (None, _) :: entries' => scan_segments entries'
  | (Some name, is_file) :: entries' =>
      if negb (is_segment_name name) then scan_segments entries'
      else if negb is_file then Err InvalidData
      else
        let encoded := take (length name - 8) (drop 4 name) in
        if negb (Nat.eqb (length encoded) 8) then Err InvalidData
        else
          let? segment := ok_or (from_str_radix_16 encoded) InvalidData in
          let? rest := scan_segments entries' in
          Ok (segment :: rest)
  end.

Definition list_segment_files (entries : list (option (list ascii) * bool)) : result (list Z) IoErrorKind :=
  let? segments := scan_segments entries in Ok (merge_sort Z.le segments).

(** ** The names are read back *)
Lemma nibbles_spec n z : length (nibbles n z) = n ∧ Forall (λ d, 0 ≤ d < 16) (nibbles n z).
Proof.
  revert z. induction n as [|n IH]; intros z; cbn; [by split|]. destruct (IH (z / 16)) as [Hl Hf].
  rewrite length_app, Hl. split; [cbn; lia|]. apply Forall_app_2; [done|]. constructor; [|done]. apply Z.mod_pos_bound. lia.
Qed.

Lemma nibbles_app n m z : 0 ≤ z → nibbles (n + m) z = nibbles n (z / 16 ^ Z.of_nat m) ++ nibbles m z.
Proof.
  revert z. induction m as [|m IH]; intros z Hz.
  - rewrite Nat.add_0_r. change (16 ^ Z.of_nat 0) with 1. rewrite Z.div_1_r. cbn [nibbles]. by rewrite app_nil_r.
  - rewrite Nat.add_succ_r. cbn [nibbles]. rewrite IH by (apply Z.div_pos; lia). rewrite app_assoc. do 3 f_equal.
    rewrite Z.div_div by lia. f_equal. rewrite Nat2Z.inj_succ, Z.pow_succ_r by lia. lia.
Qed.

Lemma format_08x_u32 z : 0 ≤ z < 2 ^ 32 → format_08x z = hex_digit <$> nibbles 8 z.
Proof.
  intros Hz. unfold format_08x. change 16%nat with (8 + 8)%nat. rewrite nibbles_app by lia.
  rewrite Z.div_small by (change (16 ^ Z.of_nat 8) with (2 ^ 32); lia). f_equal.
  destruct (nibbles_spec 8 z) as [Hl _]. change (nibbles 8 0) with (replicate 8 0). cbn [replicate app].
  cbn [strip_zeroes length]. rewrite !Hl. cbn [Nat.ltb Nat.leb]. destruct (nibbles 8 z) as [|d l]; [done|]. cbn [strip_zeroes].
  rewrite Hl. by destruct d.
Qed.

Lemma digit_back d : 0 ≤ d < 16 → digit_of (hex_digit d) = Some d ∧ hex_digit d ≠ "+"%char.
Proof.
  intros Hd. assert (d ∈ seqZ 0 16) as Hin by (apply elem_of_seqZ; lia). cbv in Hin.
  repeat (apply elem_of_cons in Hin as [->|Hin]; [by vm_compute|]). by apply elem_of_nil in Hin.
Qed.

Lemma parse_digits_app acc l1 l2 : parse_digits acc (l1 ++ l2) = a ← parse_digits acc l1; parse_digits a l2.
Proof.
  revert acc. induction l1 as [|c l1 IH]; intros acc; cbn; [done|]. destruct (digit_of c); cbn; [|done].
  case_match; [done|apply IH].
Qed.

Lemma parse_nibbles n z : (n ≤ 16)%nat → 0 ≤ z < 16 ^ Z.of_nat n → parse_digits 0 (hex_digit <$> nibbles n z) = Some z.
Proof.
  revert z. induction n as [|n IH]; intros z Hn Hz.
  { change (16 ^ Z.of_nat 0) with 1 in Hz. cbn. f_equal. lia. }
  cbn [nibbles]. rewrite fmap_app, parse_digits_app. rewrite Nat2Z.inj_succ, Z.pow_succ_r in Hz by lia.
  rewrite IH; [|lia|split; [apply Z.div_pos; lia|apply Z.div_lt_upper_bound; lia]]. cbn [fmap list_fmap mbind option_bind parse_digits].
  pose proof (Z.mod_pos_bound z 16 ltac:(lia)) as Hm. destruct (digit_back (z mod 16) Hm) as [-> _]. cbn [mbind option_bind].
  replace (z / 16 * 16 + z mod 16) with z by (rewrite (Z.div_mod z 16) at 1 by lia; lia).
  rewrite (proj2 (Z.ltb_ge _ _)); [done|]. assert (16 * 16 ^ Z.of_nat n ≤ 16 * 16 ^ 15) by (apply Z.mul_le_mono_nonneg_l; [lia|apply Z.pow_le_mono_r; lia]).
  unfold U64_MAX. lia.
Qed.

Lemma segment_name_back s : 0 ≤ s < 2 ^ 32 →
  is_segment_name (segment_name s) = true ∧ length (segment_name s) = 16%nat ∧
  from_str_radix_16 (take (length (segment_name s) - 8) (drop 4 (segment_name s))) = Some s.
Proof.
  intros Hs. unfold segment_name. rewrite format_08x_u32 by done. destruct (nibbles_spec 8 s) as [Hl Hf].
  pose proof (parse_nibbles 8 s ltac:(lia) ltac:(change (16 ^ Z.of_nat 8) with (2 ^ 32); lia)) as Hp.
  assert (length (hex_digit <$> nibbles 8 s) = 8%nat) as Hl' by by rewrite length_fmap.
  assert (length (SEGMENT_PREFIX ++ (hex_digit <$> nibbles 8 s) ++ SEGMENT_SUFFIX) = 16%nat) as Hlen.
  { rewrite !length_app, Hl'. done. }
  rewrite Hlen. split_and!; [|done|].
  - unfold is_segment_name. rewrite Hlen. rewrite take_app_length' by done. rewrite bool_decide_eq_true_2 by done.
    rewrite app_assoc, drop_app_length' by by rewrite length_app, Hl'. done.
  - rewrite drop_app_length' by done. rewrite take_app_length' by (rewrite Hl'; done).
    destruct (nibbles 8 s) as [|d l]; [done|]. rewrite fmap_cons in *. cbn [from_str_radix_16].
    apply Forall_cons in Hf as [Hd _]. by rewrite bool_decide_eq_false_2 by apply (digit_back d Hd).
Qed.

(** ** The scan returns the files' numbers *)
Definition segment_entry (segment : Z) : option (list ascii) * bool := (Some (segment_name segment), true).
Definition foreign_entry (e : option (list ascii) * bool) : Prop :=
  match e.1 with Some name => is_segment_name name = false | None => True end.

Definition entry_number (e : option (list ascii) * bool) : option Z :=
  name ← e.1;
  if is_segment_name name then from_str_radix_16 (take (length name - 8) (drop 4 name)) else None.

Lemma entry_number_segment s : 0 ≤ s < 2 ^ 32 → entry_number (segment_entry s) = Some s.
Proof. intros Hs. destruct (segment_name_back s Hs) as (Hn & _ & Hp). unfold entry_number, segment_entry. cbn [fst mbind option_bind]. by rewrite Hn. Qed.

Lemma entry_number_foreign e : foreign_entry e → entry_number e = None.
Proof. destruct e as [[name|] f]; [|done]. unfold foreign_entry, entry_number. cbn. by intros ->. Qed.

Lemma scan_segments_spec entries :
  Forall (λ e, foreign_entry e ∨ ∃ s, 0 ≤ s < 2 ^ 32 ∧ e = segment_entry s) entries →
  scan_segments entries = Ok (omap entry_number entries).
Proof.
  induction 1 as [|e entries [He|(s & Hs & ->)] _ IH]; [done|..]; cbn [omap list_omap].
  - rewrite (entry_number_foreign e He). destruct e as [[name|] f]; cbn [scan_segments]; [|done]. cbn in He. by rewrite He.
  - rewrite (entry_number_segment s Hs). destruct (segment_name_back s Hs) as (Hn & Hl & Hp).
    unfold segment_entry. cbn [scan_segments]. rewrite Hn. cbn [negb]. rewrite Hp, length_take, length_drop, Hl. cbn [Nat.eqb Nat.min Nat.sub negb ok_or].
    by rewrite IH.
Qed.

(** Scanning a directory that holds the segments of a log under their names, among
    other files and in any order, returns the segments in ascending order. *)
Theorem segment_files_are_listed fs entries others :
  BTreeMap.wf (fs_files fs) → Forall (λ s, 0 ≤ s < 2 ^ 32) (list_segments fs) → Forall foreign_entry others →
  entries ≡ₚ (segment_entry <$> list_segments fs) ++ others →
  list_segment_files entries = Ok (list_segments fs).
Proof.
  intros Hw Hu Ho He. unfold list_segment_files.
  rewrite scan_segments_spec.
  2:{ rewrite He. apply Forall_app_2; [|eapply Forall_impl; [exact Ho|]; by left].
      apply Forall_fmap. eapply Forall_impl; [exact Hu|]. intros s Hs. right. by exists s. }
  f_equal. apply (StronglySorted_unique Z.le).
  - apply StronglySorted_merge_sort; apply _.
  - clear -Hw. unfold list_segments. induction Hw as [|[k f] files _ IH Hf]; cbn; constructor; [done|].
    apply Forall_fmap. eapply Forall_impl; [exact Hf|]. intros [k' f'] Hlt. cbn in *. apply Z.lt_le_incl. by apply Z.compare_lt_iff.
  - rewrite merge_sort_Permutation, He, omap_app.
    assert (omap entry_number others = []) as ->.
    { clear -Ho. induction Ho as [|e others He _ IH]; [done|]. cbn. by rewrite (entry_number_foreign e He). }
    rewrite app_nil_r. clear -Hu. induction Hu as [|s l Hs _ IH]; [done|]. cbn [fmap list_fmap omap list_omap].
    rewrite (entry_number_segment s Hs). by constructor.
Qed.

(** Other spellings are read as segments too, though no segment has such a name. *)
Example plus_sign_is_a_segment :
  list_segment_files [(Some (SEGMENT_PREFIX ++ ["+"; "0"; "0"; "0"; "0"; "0"; "0"; "1"]%char ++ SEGMENT_SUFFIX), true)] = Ok [1].
Proof. vm_compute. reflexivity. Qed.
