(* ===== verification/SegmentRecovery.v ===== *)
(** * Recovery of the segmented WAL

    What [open] and [recover_records] of [segment_log.rs] return after a crash, and
    the end-to-end guarantee of the log stack: transactions appended through the
    commit lane of [commit_append.rs] come back from the assembler of
    [recovery.rs], a prefix of them in commit order that contains every
    transaction whose LSN had been synchronized. *)
From S2P Require Import Prelude StdCollections Ids Crc Fs Log WriteSet Txn LogIo CommitAppend Recovery SegmentLog.

Local Open Scope Z_scope.
Local Open Scope seer_scope.

(** ** Records of a batch and of a segment *)
Section streams.
Context `{Crc32c}.

(** Bytes that are the encoding of well-formed records. *)
Definition batch_ok (b : bytes) : Prop :=
  ∃ rs es, encode_log rs = Ok es ∧ Forall wf_record rs ∧ b = concat es.

Definition recs (b : bytes) : list LogRecord := (parse_log_prefix b).1.
Definition encs (b : bytes) : list bytes :=
  match encode_log (recs b) with Ok es => es | Err _ => [] end.

Definition seg_recs (bs : list bytes) : list LogRecord := concat (recs <$> bs).
Definition seg_encs (bs : list bytes) : list bytes := concat (encs <$> bs).

(** A record of segment [id] with the LSN after it. *)
Definition at_lsn (id : Z) (p : ParsedLogRecord) : Lsn * LogRecord :=
  (id * 2 ^ 32 + (40 + pr_end_offset p), pr_record p).

Definition seg_stream (s : Z * list bytes) : list (Lsn * LogRecord) :=
  at_lsn s.1 <$> place 0 (seg_recs s.2) (seg_encs s.2).

(** The same stream, batch by batch. *)
Fixpoint batch_streams (id off : Z) (bs : list bytes) : list (list (Lsn * LogRecord)) :=
  match bs with
  | [] => []
  | b :: bs' => (at_lsn id <$> place off (recs b) (encs b)) :: batch_streams id (off + len b) bs'
  end.

Lemma recs_encoded rs es :
  encode_log rs = Ok es → Forall wf_record rs → slice_bound (concat es) →
  recs (concat es) = rs ∧ encs (concat es) = es.
Proof.
  intros He Hwf Hb. assert (recs (concat es) = rs) as E.
  { unfold recs, parse_log_prefix. rewrite (parse_encoded rs es) by done. cbn. by apply (place_records 0). }
  split; [done|]. unfold encs. by rewrite E, He.
Qed.

Lemma batch_ok_inv b :
  batch_ok b → slice_bound b →
  encode_log (recs b) = Ok (encs b) ∧ Forall wf_record (recs b) ∧ concat (encs b) = b.
Proof.
  intros (rs & es & He & Hwf & ->) Hb. destruct (recs_encoded rs es) as [-> ->]; done.
Qed.

Lemma slice_bound_app (b1 b2 : bytes) :
  slice_bound (b1 ++ b2) → slice_bound b1 ∧ slice_bound b2.
Proof.
  unfold slice_bound. rewrite len_app. pose proof (len_nonneg b1). pose proof (len_nonneg b2). lia.
Qed.

Lemma seg_ok_inv bs :
  Forall batch_ok bs → slice_bound (concat bs) →
  encode_log (seg_recs bs) = Ok (seg_encs bs) ∧ Forall wf_record (seg_recs bs) ∧
  concat (seg_encs bs) = concat bs.
Proof.
  induction 1 as [|b bs Hb _ IH]; cbn [concat]; [done|].
  intros [H1 H2]%slice_bound_app.
  destruct (batch_ok_inv b Hb H1) as (E1 & W1 & C1), (IH H2) as (E2 & W2 & C2).
  change (seg_recs (b :: bs)) with (recs b ++ seg_recs bs).
  change (seg_encs (b :: bs)) with (encs b ++ seg_encs bs).
  split_and!; [apply encode_log_app; eauto|by apply Forall_app|by rewrite concat_app, C1, C2].
Qed.

Lemma concat_batch_streams id off bs :
  Forall batch_ok bs → slice_bound (concat bs) →
  concat (batch_streams id off bs) = at_lsn id <$> place off (seg_recs bs) (seg_encs bs).
Proof.
  intros Hok. revert off. induction Hok as [|b bs Hb _ IH]; intros off; cbn [concat batch_streams]; [done|].
  intros [H1 H2]%slice_bound_app. destruct (batch_ok_inv b Hb H1) as (E1 & _ & C1).
  change (seg_recs (b :: bs)) with (recs b ++ seg_recs bs).
  change (seg_encs (b :: bs)) with (encs b ++ seg_encs bs).
  by rewrite (place_app _ _ _ _ _ E1), fmap_app, C1, IH.
Qed.

Lemma place_bound off rs es :
  Forall (λ p, off ≤ pr_end_offset p ≤ off + len (concat es)) (place off rs es).
Proof.
  revert off es. induction rs as [|r rs IH]; intros off [|e es]; cbn [place concat]; try constructor.
  - cbn. rewrite len_app. pose proof (len_nonneg e). pose proof (len_nonneg (concat es)). lia.
  - rewrite len_app. pose proof (len_nonneg e). eapply Forall_impl; [apply IH|]. cbn. intros; lia.
Qed.

Lemma place_take k off rs es : take k (place off rs es) = place off (take k rs) (take k es).
Proof.
  revert k off es. induction rs as [|r rs IH]; intros [|k] off [|e es]; cbn; try done. by rewrite IH.
Qed.

Lemma frame_records_ok id frames :
  0 ≤ id ≤ U32_MAX → Forall (λ p, 0 ≤ pr_end_offset p ∧ 40 + pr_end_offset p ≤ U32_MAX) frames →
  frame_records id frames = Ok (at_lsn id <$> frames).
Proof.
  intros Hid. induction 1 as [|p frames [Hp Hp'] _ IH]; cbn; [done|].
  unfold end_lsn. change (Z.of_nat WAL_HEADER_BYTES) with 40.
  replace (checked_add 40 (pr_end_offset p)) with (Some (40 + pr_end_offset p))
    by (symmetry; apply checked_add_Some; unfold U64_MAX, U32_MAX in *; lia).
  cbn [mbind option_bind].
  replace (from_wal_position _ _) with (Some (id * 2 ^ 32 + (40 + pr_end_offset p)))
    by (symmetry; apply from_wal_position_Some; lia).
  cbn [ok_or]. by rewrite IH.
Qed.

Lemma encode_log_pos rs es : encode_log rs = Ok es → Forall (λ e, 0 < len e) es.
Proof.
  revert es. induction rs as [|r rs IH]; intros es; cbn; [intros [= <-]; constructor|].
  destruct (to_bytes r) as [e|] eqn:Er, (encode_log rs) eqn:E; [|done..]. intros [= <-].
  constructor; [|by apply IH]. apply to_bytes_inj_len in Er. lia.
Qed.
End streams.

(** ** Scanning segment files *)
Section scan.
Context `{Crc32c}.

Lemma read_segment_ok k sb fs f :
  fs_faults fs = [] → BTreeMap.get k (fs_files fs) = Some f →
  len (f_bytes f) ≤ sb → sb ≤ U32_MAX → read_segment k sb fs = (fs, Ok (f_bytes f)).
Proof.
  intros Hn Hg Hl Hsb. unfold read_segment. rewrite (fs_read_ok k fs f) by done.
  destruct (_ || _)%bool eqn:E; [|done]. unfold MAX_OFFSET in E.
  apply orb_prop in E as [?%Z.ltb_lt|?%Z.ltb_lt]; lia.
Qed.

Lemma validate_header_ok store id content :
  wf_store store → 0 ≤ id ≤ U32_MAX →
  validate_segment_header (encode_wal_header store id ++ content) store id = Ok ().
Proof.
  intros Hst Hid. pose proof (length_wal_header store id (proj1 Hst)) as Hl.
  unfold validate_segment_header. rewrite bool_decide_eq_false_2 by (rewrite length_app; lia).
  rewrite take_app_length' by done. by apply decode_encode_wal_header.
Qed.

Lemma drop_header store id content :
  wf_store store → drop WAL_HEADER_BYTES (encode_wal_header store id ++ content) = content.
Proof. intros [Hst _]. apply drop_app_length'. by rewrite length_wal_header. Qed.

Lemma len_seg_bytes store s : wf_store store → len (seg_bytes store s) = 40 + len (concat s.2).
Proof.
  intros [Hst _]. unfold seg_bytes, len. rewrite length_app, length_wal_header by done.
  unfold WAL_HEADER_BYTES. lia.
Qed.

(** A complete segment: what the scans read from it. *)
Definition seg_whole (store : bytes) (sb : Z) (fs : Fs) (s : Z * list bytes) : Prop :=
  seg_ok sb s ∧ Forall batch_ok s.2 ∧
  ∃ f, BTreeMap.get s.1 (fs_files fs) = Some f ∧ f_bytes f = seg_bytes store s.

Lemma small_slice_bound (b : bytes) : len b ≤ U32_MAX → slice_bound b.
Proof. unfold slice_bound, U32_MAX. lia. Qed.

Lemma seg_whole_parse store sb fs s :
  wf_store store → sb ≤ U32_MAX → fs_faults fs = [] → seg_whole store sb fs s →
  read_segment s.1 sb fs = (fs, Ok (seg_bytes store s)) ∧
  validate_segment_header (seg_bytes store s) store s.1 = Ok () ∧
  parse_log_prefix_frames (drop WAL_HEADER_BYTES (seg_bytes store s)) =
    (place 0 (seg_recs s.2) (seg_encs s.2), Complete) ∧
  frame_records s.1 (place 0 (seg_recs s.2) (seg_encs s.2)) = Ok (seg_stream s).
Proof.
  intros Hst Hsb Hn ((Hid & Hlen & _) & Hb & f & Hg & Ef).
  destruct (seg_ok_inv s.2) as (He & Hwf & Hc); [done|apply small_slice_bound; lia|].
  split_and!.
  - rewrite <-Ef. apply read_segment_ok; [done..| |done]. rewrite Ef, len_seg_bytes by done. lia.
  - by apply validate_header_ok.
  - unfold seg_bytes. rewrite drop_header, <-Hc by done. apply parse_encoded; [done..|].
    rewrite Hc. apply small_slice_bound. lia.
  - apply frame_records_ok; [done|]. eapply Forall_impl; [apply place_bound|]. cbn.
    rewrite Hc. intros p Hp. lia.
Qed.

Lemma open_scan_whole store sb final segs rest v fs :
  wf_store store → sb ≤ U32_MAX → fs_faults fs = [] → Forall (seg_whole store sb fs) segs →
  Forall (λ s, s.1 ≠ final) segs →
  open_scan store sb final (segs.*1 ++ rest) v fs = open_scan store sb final rest v fs.
Proof.
  intros Hst Hsb Hn Hall. induction Hall as [|s segs Hs _ IH]; intros Hne; cbn [fmap list_fmap app]; [done|].
  apply Forall_cons in Hne as [Hs1 Hne]. cbn [open_scan].
  destruct (seg_whole_parse _ _ _ _ Hst Hsb Hn Hs) as (-> & -> & -> & _).
  rewrite (proj2 (Z.eqb_neq _ _) Hs1). by apply IH.
Qed.

Lemma recover_segments_whole store sb segs rest fs :
  wf_store store → sb ≤ U32_MAX → fs_faults fs = [] → Forall (seg_whole store sb fs) segs →
  recover_segments store sb (segs.*1 ++ rest) fs =
  do? (fs, later) := recover_segments store sb rest fs in
  (fs, Ok (concat (seg_stream <$> segs) ++ later)).
Proof.
  intros Hst Hsb Hn. induction 1 as [|s segs Hs _ IH]; cbn [fmap list_fmap app concat].
  - by destruct (recover_segments store sb rest fs) as [? []].
  - cbn [recover_segments].
    destruct (seg_whole_parse _ _ _ _ Hst Hsb Hn Hs) as (-> & -> & -> & ->). rewrite IH.
    destruct (recover_segments store sb rest fs) as [? [later|]]; [|done].
    by rewrite <-app_assoc.
Qed.

Lemma place_last off rs es :
  encode_log rs = Ok es →
  default off (pr_end_offset <$> last (place off rs es)) = off + len (concat es).
Proof.
  revert off es. induction rs as [|r rs IH]; intros off es; cbn [encode_log].
  { intros [= <-]. cbn. unfold len; cbn; lia. }
  destruct (to_bytes r) as [e|] eqn:Er, (encode_log rs) as [es'|] eqn:E; [|done..].
  intros [= <-]. cbn [place concat]. rewrite len_app.
  specialize (IH (off + len e) es' eq_refl). rewrite last_cons.
  destruct (last (place (off + len e) rs es')); cbn in *; lia.
Qed.

(** The final segment after a crash cut its records at byte [n]. *)
Lemma open_scan_cut store sb s n v fs f :
  wf_store store → sb ≤ U32_MAX → fs_faults fs = [] → seg_ok sb s → Forall batch_ok s.2 →
  BTreeMap.get s.1 (fs_files fs) = Some f → (n ≤ length (concat s.2))%nat →
  f_bytes f = encode_wal_header store s.1 ++ take n (concat s.2) →
  ∃ k m, (k ≤ length (seg_recs s.2))%nat ∧
    n = (length (concat (take k (seg_encs s.2))) + m)%nat ∧
    (m = 0%nat ∨ ∃ e, seg_encs s.2 !! k = Some e ∧ 0 < m < length e)%nat ∧
    open_scan store sb s.1 [s.1] v fs = (fs, Ok (40 + len (concat (take k (seg_encs s.2))))).
Proof.
  intros Hst Hsb Hn (Hid & Hlen & _) Hb Hg Hcut Ef.
  destruct (seg_ok_inv s.2) as (He & Hwf & Hc); [done|apply small_slice_bound; lia|].
  rewrite <-Hc in Hcut, Ef.
  destruct (parse_cut (seg_recs s.2) (seg_encs s.2) n) as (k & m & Hk & Hnm & Hm & Hp);
    [done..|apply small_slice_bound; rewrite Hc; lia|done|].
  exists k, m. split_and!; [done..|]. cbn [open_scan].
  assert (len (f_bytes f) = 40 + Z.of_nat n) as Hfl.
  { rewrite Ef. unfold len. rewrite length_app, length_wal_header, length_take by apply Hst.
    unfold WAL_HEADER_BYTES. lia. }
  assert (Z.of_nat n ≤ len (concat s.2)) by (rewrite Hc in Hcut; unfold len; lia).
  rewrite (read_segment_ok s.1 sb fs f) by (done || lia).
  rewrite Ef, validate_header_ok, drop_header, Hp, Z.eqb_refl by done.
  destruct (decide (m = 0%nat)) as [->|Hm0].
  - rewrite <-Ef, Hfl. do 3 f_equal. unfold len. lia.
  - change (Z.of_nat WAL_HEADER_BYTES) with 40.
    pose proof (place_last 0 _ _ (encode_log_take k _ _ He)) as Hl. by rewrite Hl.
Qed.
End scan.

(** ** Opening after a crash *)
Section reopen.
Context `{Crc32c}.
Implicit Types (d : SegmentedLog).

Definition same_file (p q : Z * File) : Prop := q.1 = p.1 ∧ f_bytes q.2 = f_bytes p.2.

(** Files that are wholly synchronized come through a crash. *)
Lemma files_crash_last finit k f files' :
  files_crash (finit ++ [(k, f)]) files' →
  Forall (λ p, f_synced p.2 = length (f_bytes p.2) ∧ f_synced p.2 ≠ 0%nat) finit →
  f_synced f ≠ 0%nat →
  ∃ finit' f' n, files' = finit' ++ [(k, f')] ∧ Forall2 same_file finit finit' ∧
    f_bytes f' = take n (f_bytes f) ∧ (f_synced f ≤ n)%nat.
Proof.
  revert files'. induction finit as [|[j g] finit IH]; intros files' Hc Hf Hs; cbn [app] in Hc.
  - inversion Hc as [|? ? f' ? ? (n & Hn & Hb & _) Hrest|]; simplify_eq; try done.
    inversion Hrest; simplify_eq. exists [], f', n. by split_and!; [|constructor|..].
  - apply Forall_cons in Hf as [[Hg1 Hg2] Hf].
    inversion Hc as [|? ? g' ? ? (n & Hn & Hb & _) Hrest|]; simplify_eq; try done.
    apply IH in Hrest as (finit' & f' & n' & -> & H2 & Hf' & Hn'); [|done..].
    exists ((j, g') :: finit'), f', n'. split_and!; [done| |done..]. constructor; [|done].
    split; [done|]. cbn in *. rewrite Hb. apply take_ge. lia.
Qed.

Lemma same_file_keys l l' : Forall2 same_file l l' → l'.*1 = l.*1.
Proof. induction 1 as [|p q l l' [E _] _ IH]; cbn; [done|]. by rewrite E, IH. Qed.

(** The state of a device after [open] repaired a cut final segment. *)
Definition reopened d (fs : Fs) (offset : Z) : SegmentedLog :=
  {| sl_store := sl_store d; sl_segment_bytes := sl_segment_bytes d;
     sl_state := {| ss_segment := ss_segment (sl_state d); ss_offset := offset;
                    ss_dirty_segments := list_segments fs; ss_directory_dirty := true |};
     sl_poisoned := false; sl_fs := fs |}.

Definition final_bytes d (s : Z * list bytes) (k : nat) : bytes :=
  encode_wal_header (sl_store d) s.1 ++ concat (take k (seg_encs s.2)).

(** The files [open] leaves: whole segments, then the repaired final one. *)
Definition repaired d init (s : Z * list bytes) (k : nat) (fs : Fs) : Prop :=
  fs_faults fs = [] ∧ list_segments fs = (init ++ [s]).*1 ∧
  Forall (seg_whole (sl_store d) (sl_segment_bytes d) fs) init ∧
  ∃ f, BTreeMap.get s.1 (fs_files fs) = Some f ∧ f_bytes f = final_bytes d s k.

Lemma whole_files d init (s : Z * list bytes) finit f :
  Forall (seg_ok (sl_segment_bytes d)) init → Forall (λ s, Forall batch_ok s.2) init →
  Forall2 (file_of (sl_store d)) init finit → keys_ok (finit ++ [(s.1, f)]).*1 →
  ∀ fs, fs_files fs = finit ++ [(s.1, f)] →
  Forall (seg_whole (sl_store d) (sl_segment_bytes d) fs) init.
Proof.
  intros Hok Hb Hf Hk fs Hfs. apply Forall_lookup. intros i s' Hs'.
  destruct (Forall2_lookup_l _ _ _ _ _ Hf Hs') as ([j g] & Hg & E1 & E2). cbn in *. subst j.
  split; [exact (Forall_lookup_1 _ _ _ _ Hok Hs')|].
  split; [exact (Forall_lookup_1 _ _ _ _ Hb Hs')|].
  exists g. split; [|done]. rewrite Hfs. apply BTreeMap.elem_get; [by apply wf_keys|].
  apply elem_of_app. left. by eapply list_elem_of_lookup_2.
Qed.

Lemma file_of_same store init finit finit' :
  Forall2 (file_of store) init finit → Forall2 same_file finit finit' →
  Forall2 (file_of store) init finit'.
Proof.
  intros H1 H2. apply Forall2_same_length_lookup. split.
  { by rewrite (Forall2_length _ _ _ H1), (Forall2_length _ _ _ H2). }
  intros i s q Hs Hq. destruct (Forall2_lookup_r _ _ _ _ _ H2 Hq) as (p & Hp & E3 & E4).
  destruct (Forall2_lookup_lr _ _ _ _ _ _ H1 Hs Hp) as [E1 E2]. split; congruence.
Qed.

(** The files after a crash that found every earlier segment synchronized. *)
Lemma crash_files d init s fs' :
  layout d (init ++ [s]) → dirty_ok d →
  (∀ k f, (k, f) ∈ fs_files (sl_fs d) → k < s.1 → f_synced f = length (f_bytes f)) →
  fs_crash (sl_fs d) fs' →
  ∃ f finit' f' n, (s.1, f) ∈ fs_files (sl_fs d) ∧ (f_synced f ≤ 40 + n)%nat ∧
    (n ≤ length (concat s.2))%nat ∧ fs_files fs' = finit' ++ [(s.1, f')] ∧
    Forall2 (file_of (sl_store d)) init finit' ∧ Forall (λ p, lt_ord p.1 s.1) finit' ∧
    keys_ok (finit' ++ [(s.1, f')]).*1 ∧ (finit' ++ [(s.1, f')]).*1 = (init ++ [s]).*1 ∧
    f_bytes f' = encode_wal_header (sl_store d) s.1 ++ take n (concat s.2).
Proof.
  intros Hl [_ Hd] Hsync [Hcrash _]. pose proof (layout_keys _ _ Hl) as Hkeys.
  destruct (layout_last _ _ _ Hl) as (finit & f & Hfiles & Hinit & Hfb & Hlt & _).
  rewrite Hfiles in Hcrash, Hd, Hsync, Hkeys.
  assert ((s.1, f) ∈ finit ++ [(s.1, f)]) as Hin by (rewrite elem_of_app, list_elem_of_singleton; by right).
  destruct (Hd _ _ Hin) as [[Hh Hs] _].
  apply files_crash_last in Hcrash as (finit' & f' & n & Hf' & Hsame & Hb & Hn).
  2:{ apply Forall_forall. intros [j g] Hg. cbn.
      destruct (Hd j g) as [[? ?] _]; [by rewrite elem_of_app; left|].
      rewrite Forall_forall in Hlt. specialize (Hlt _ Hg). rewrite lt_ord_Z in Hlt.
      split; [apply (Hsync j); [by rewrite elem_of_app; left|done]|unfold WAL_HEADER_BYTES in *; lia]. }
  2:{ unfold WAL_HEADER_BYTES in *; lia. }
  assert ((finit' ++ [(s.1, f')]).*1 = (init ++ [s]).*1) as Hk'.
  { by rewrite <-Hkeys, !fmap_app, (same_file_keys _ _ Hsame). }
  exists f, finit', f', (Nat.min (n - 40) (length (concat s.2))).
  assert (length (f_bytes f) = 40 + length (concat s.2))%nat as Hfl.
  { rewrite Hfb. unfold seg_bytes. by rewrite length_app, length_wal_header by apply Hl. }
  rewrite Hfiles. unfold WAL_HEADER_BYTES in *. split_and!; try done; try lia.
  - by eapply file_of_same.
  - assert (Forall (λ k, lt_ord k s.1) finit.*1) as Hlt' by (by apply Forall_fmap).
    rewrite <-(same_file_keys _ _ Hsame) in Hlt'. by rewrite Forall_fmap in Hlt'.
  - rewrite Hk'. apply Hl.
  - rewrite Hb, Hfb. unfold seg_bytes. rewrite take_app_ge by (rewrite length_wal_header by apply Hl; unfold WAL_HEADER_BYTES; lia).
    rewrite length_wal_header by apply Hl. unfold WAL_HEADER_BYTES. f_equal.
    destruct (decide (n - 40 ≤ length (concat s.2))%nat); [by rewrite Nat.min_l|].
    by rewrite Nat.min_r, !take_ge by lia.
Qed.

(** Replacing the final file keeps the whole segments. *)
Lemma repaired_files d init s k finit f fs :
  fs_faults fs = [] → fs_files fs = finit ++ [(s.1, f)] →
  Forall (seg_ok (sl_segment_bytes d)) init → Forall (λ s, Forall batch_ok s.2) init →
  Forall2 (file_of (sl_store d)) init finit → Forall (λ p, lt_ord p.1 s.1) finit →
  keys_ok (finit ++ [(s.1, f)]).*1 → (finit ++ [(s.1, f)]).*1 = (init ++ [s]).*1 →
  f_bytes f = final_bytes d s k → repaired d init s k fs.
Proof.
  intros Hn Hfs Hok Hb Hinit Hlt Hk Hkeys Hf. split_and!; [done| | |].
  - unfold list_segments. by rewrite Hfs.
  - by eapply whole_files.
  - exists f. split; [|done]. rewrite Hfs. by apply BTreeMap.get_snoc.
Qed.

Lemma validate_config_ok sb : 56 ≤ sb ≤ U32_MAX → validate_config sb = Ok ().
Proof.
  intros Hsb. unfold validate_config, MAX_OFFSET.
  change (Z.of_nat (WAL_HEADER_BYTES + MIN_RECORD_BYTES)) with 56.
  destruct (_ || _)%bool eqn:E; [|done]. apply orb_prop in E as [?%Z.ltb_lt|?%Z.ltb_lt]; lia.
Qed.

(** [open] once the scan has found the valid length [v] of the final segment. *)
Lemma open_scanned d fs finit final f v :
  56 ≤ sl_segment_bytes d ≤ U32_MAX → ss_segment (sl_state d) = final →
  fs_faults fs = [] → fs_files fs = finit ++ [(final, f)] →
  Forall (λ p, lt_ord p.1 final) finit → keys_ok (list_segments fs) →
  open_scan (sl_store d) (sl_segment_bytes d) final (list_segments fs) 0 fs = (fs, Ok v) →
  0 ≤ v ≤ len (f_bytes f) →
  ∃ fs2 f2, open (sl_store d) (sl_segment_bytes d) fs = (fs2, Ok (reopened d fs2 v)) ∧
    fs_faults fs2 = [] ∧ fs_files fs2 = finit ++ [(final, f2)] ∧
    f_bytes f2 = take (Z.to_nat v) (f_bytes f).
Proof.
  intros Hcfg Eseg Hn Hfs Hlt Hk Hscan Hv. unfold open.
  rewrite validate_config_ok, fs_check_ok by done.
  assert (last (list_segments fs) = Some final) as ->.
  { unfold list_segments. rewrite Hfs, fmap_app. cbn. by rewrite last_snoc. }
  rewrite validate_keys, Hscan by done.
  assert (BTreeMap.get final (fs_files fs) = Some f) as Hg by (rewrite Hfs; by apply BTreeMap.get_snoc).
  rewrite (fs_read_ok final fs f) by done.
  destruct (len (f_bytes f) <? v) eqn:E1; bool_to_prop; [lia|].
  assert (∀ fs' g, fs_files fs' = finit ++ [(final, g)] → list_segments fs' = list_segments fs) as Hls.
  { intros fs' g E. unfold list_segments. by rewrite E, Hfs, !fmap_app. }
  destruct (v <? len (f_bytes f)) eqn:E2; bool_to_prop.
  - destruct (fs_set_len_ok final (Z.to_nat v) fs f) as (fs1 & -> & Hn1 & Hfs1);
      [done|done|unfold len in *; lia|].
    rewrite Hfs, BTreeMap.insert_snoc in Hfs1 by done.
    edestruct (fs_sync_file_ok final fs1) as (fs2 & -> & Hn2 & Hfs2); [done|rewrite Hfs1; by apply BTreeMap.get_snoc|].
    rewrite Hfs1, BTreeMap.insert_snoc in Hfs2 by done.
    rewrite fs_check_ok by done. eexists _, _. split_and!; [|done|exact Hfs2|done].
    unfold reopened. by rewrite Eseg, (Hls _ _ Hfs2).
  - rewrite fs_check_ok by done. exists fs, f. split_and!; [|done|done|].
    + unfold reopened. by rewrite Eseg.
    + rewrite take_ge; [done|]. unfold len in *. lia.
Qed.

Lemma open_after_crash d init s fs' :
  layout d (init ++ [s]) → at_end d s → dirty_ok d →
  Forall (λ s, Forall batch_ok s.2) (init ++ [s]) →
  (∀ k f, (k, f) ∈ fs_files (sl_fs d) → k < s.1 → f_synced f = length (f_bytes f)) →
  fs_crash (sl_fs d) fs' →
  ∃ f n k m fs, (s.1, f) ∈ fs_files (sl_fs d) ∧ (f_synced f ≤ 40 + n)%nat ∧
    (k ≤ length (seg_recs s.2))%nat ∧
    n = (length (concat (take k (seg_encs s.2))) + m)%nat ∧
    (m = 0%nat ∨ ∃ e, seg_encs s.2 !! k = Some e ∧ 0 < m < length e)%nat ∧
    open (sl_store d) (sl_segment_bytes d) fs' =
      (fs, Ok (reopened d fs (40 + len (concat (take k (seg_encs s.2)))))) ∧
    repaired d init s k fs.
Proof.
  intros Hl [Eseg _] Hd Hb Hsync Hcrash.
  destruct (crash_files _ _ _ _ Hl Hd Hsync Hcrash)
    as (f & finit & f' & n & Hin & Hsy & Hn & Hfs & Hinit & Hlt & Hkeys & Hkeq & Hfb).
  destruct Hcrash as [_ Hnf]. pose proof Hl as (Hst & Hcfg & Hok & _).
  destruct (layout_last _ _ _ Hl) as (_ & _ & _ & _ & _ & _ & Hlt2).
  apply Forall_app in Hok as [Hok Hs], Hb as [Hb Hbs].
  apply Forall_cons in Hs as [Hs _], Hbs as [Hbs _].
  destruct (seg_ok_inv s.2 Hbs) as (_ & _ & Hc); [apply small_slice_bound; destruct Hs; lia|].
  assert (BTreeMap.get s.1 (fs_files fs') = Some f') as Hg
    by (rewrite Hfs; by apply BTreeMap.get_snoc).
  destruct (open_scan_cut (sl_store d) (sl_segment_bytes d) s n 0 fs' f')
    as (k & m & Hk & Hnm & Hm & Hscan); [done|lia|done..|].
  assert (list_segments fs' = init.*1 ++ [s.1]) as Hls
    by (unfold list_segments; by rewrite Hfs, Hkeq, fmap_app).
  edestruct (open_scanned d fs' finit s.1 f') as (fs2 & f2 & Ho & Hn2 & Hfs2 & Hf2);
    [done..|unfold list_segments; by rewrite Hfs| | |].
  - rewrite Hls, open_scan_whole; [exact Hscan|done|lia|done|by eapply whole_files|].
    eapply Forall_impl; [exact Hlt2|]. cbn. intros; lia.
  - rewrite Hfb. unfold len. rewrite length_app, length_wal_header, length_take by apply Hst.
    unfold WAL_HEADER_BYTES. lia.
  - exists f, n, k, m, fs2. split_and!; [done..|].
    eapply repaired_files; try done.
    + by rewrite fmap_app in *.
    + by rewrite <-Hkeq, !fmap_app.
    + rewrite Hf2, Hfb. unfold final_bytes. rewrite take_app_ge.
      2:{ rewrite length_wal_header by apply Hst. unfold WAL_HEADER_BYTES, len. lia. }
      rewrite length_wal_header, take_take by apply Hst. f_equal.
      assert (concat s.2 = concat (take k (seg_encs s.2)) ++ concat (drop k (seg_encs s.2))) as ->
        by (by rewrite <-concat_app, take_drop).
      rewrite take_app_le.
      * rewrite take_ge; [done|]. unfold WAL_HEADER_BYTES, len. lia.
      * unfold WAL_HEADER_BYTES, len. lia.
Qed.

(** The recovery scan over repaired files: every record in front of the cut. *)
Lemma recover_repaired d init s k fs v :
  layout d (init ++ [s]) → Forall (λ s, Forall batch_ok s.2) (init ++ [s]) →
  repaired d init s k fs →
  (recover_records (reopened d fs v)).2 =
  Ok (concat (seg_stream <$> init) ++ take k (seg_stream s)).
Proof.
  intros (Hst & Hcfg & Hok & Hkeys & _) Hb (Hn & Hls & Hwh & f & Hg & Hf).
  apply Forall_app in Hok as [_ Hs], Hb as [_ Hbs].
  apply Forall_cons in Hs as [(Hid & Hlen & _) _], Hbs as [Hbs _].
  destruct (seg_ok_inv s.2 Hbs) as (He & Hwf & Hc); [apply small_slice_bound; lia|].
  unfold recover_records. cbn. rewrite Hls, validate_keys by done.
  rewrite fmap_app, recover_segments_whole by (done || lia). cbn [fmap list_fmap recover_segments].
  assert (len (concat (take k (seg_encs s.2))) ≤ len (concat s.2)) as Hle.
  { assert (concat s.2 = concat (take k (seg_encs s.2)) ++ concat (drop k (seg_encs s.2))) as ->
      by (by rewrite <-concat_app, take_drop). rewrite len_app.
    pose proof (len_nonneg (concat (drop k (seg_encs s.2)))). lia. }
  rewrite (read_segment_ok s.1 _ fs f), Hf; [|done|done| |lia].
  2:{ rewrite Hf. unfold final_bytes. rewrite len_app. unfold len at 1.
      rewrite length_wal_header by apply Hst. change (Z.of_nat WAL_HEADER_BYTES) with 40. lia. }
  unfold final_bytes. rewrite validate_header_ok, drop_header by done.
  rewrite (parse_encoded (take k (seg_recs s.2))); [|by apply encode_log_take|by apply Forall_take|].
  2:{ apply small_slice_bound. lia. }
  rewrite frame_records_ok; [|done|].
  2:{ eapply Forall_impl; [apply place_bound|]. cbn. intros p Hp. lia. }
  cbn [snd]. f_equal. rewrite app_nil_r. f_equal. unfold seg_stream. rewrite <-fmap_take. f_equal.
  symmetry. apply place_take.
Qed.
End reopen.

(** ** From the commit lane to the recovered transactions *)
Section end_to_end.
Context `{Crc32c}.

(** Where a cut falls among nonempty pieces. *)
Lemma cut_index {A} (l : list (list A)) i k m :
  Forall (λ x, x ≠ []) l → (i ≤ length l)%nat →
  (length (concat (take i l)) ≤ length (concat (take k l)) + m)%nat →
  (m = 0%nat ∨ ∃ e, l !! k = Some e ∧ m < length e)%nat → (i ≤ k)%nat.
Proof.
  intros Hne Hi Hle Hm. destruct (decide (i ≤ k)%nat) as [|Hlt]; [done|exfalso].
  destruct (lookup_lt_is_Some_2 l k) as [e He]; [lia|].
  assert (m < length e)%nat as Hme.
  { destruct Hm as [->|(e' & ? & ?)]; [|by simplify_eq].
    rewrite Forall_lookup in Hne. specialize (Hne k e He). destruct e; [done|cbn; lia]. }
  assert (take i l = take k l ++ e :: drop (S k) (take i l)) as E.
  { rewrite <-(take_drop k (take i l)) at 1. rewrite take_take, Nat.min_l by lia. f_equal.
    apply drop_S. by rewrite lookup_take_lt by lia. }
  rewrite E, concat_app, length_app in Hle. cbn in Hle. rewrite length_app in Hle. lia.
Qed.

(** What the types of the transaction's fields guarantee. *)
Definition typed_appended (a : Appended) : Prop :=
  is_u64 (appended_id a) ∧ is_u64 (at_csn (ap_ticket a)) ∧
  Forall (λ m, is_u64 (lm_object m)) (ap_mutations a).

Lemma digest_u32 ms d : mutation_digest ms = Ok d → is_u32 d.
Proof.
  unfold mutation_digest. destruct (digest_input ms); [|done]. intros [= <-]. apply crc32c_u32.
Qed.

Lemma records_of_wf a b :
  typed_appended a → encodes a b →
  Forall wf_record (records_of a) ∧ appended_ok a ∧
  ∃ es, encode_log (records_of a) = Ok es ∧ b.2 = concat es.
Proof.
  intros (Hid & Hcsn & Hobj) (_ & H0 & Hlen & Hv & digest & es & Hd & He & Hb).
  assert (digest_of (ap_mutations a) = digest) as Edig by (unfold digest_of; by rewrite Hd).
  split_and!; [| |by exists es; unfold records_of; rewrite Edig].
  - unfold records_of, commit_records. apply Forall_app. split.
    + apply Forall_fmap. pose proof (valid_stream_ordinals _ 0 _ (Z.le_refl 0) Hv) as Ho.
      rewrite Forall_forall in Ho, Hobj. apply Forall_forall. intros m Hm. cbn.
      destruct (Ho m Hm) as [? Et]. split_and!; [by rewrite Et|done|by apply Hobj].
    + constructor; [|constructor]. cbn. pose proof (len_nonneg (ap_mutations a)).
      split_and!; [done|done|unfold is_u32, U32_MAX in *; cbn; lia|].
      cbn. rewrite Edig. by eapply digest_u32.
  - split_and!; [done|done|by rewrite Hd].
Qed.

Definition seg_streams (s : Z * list bytes) : list (list (Lsn * LogRecord)) :=
  batch_streams s.1 0 s.2.

Definition all_streams (segs : list (Z * list bytes)) : list (list (Lsn * LogRecord)) :=
  concat (seg_streams <$> segs).

(** A batch and its stream. *)
Definition streamed (b : Lsn * bytes) (st : list (Lsn * LogRecord)) : Prop :=
  st.*2 = recs b.2 ∧ (recs b.2 ≠ [] → fst <$> last st = Some b.1).

Lemma batch_streamed id off bs :
  Forall batch_ok bs → slice_bound (concat bs) →
  Forall2 streamed (batch_lsns id (40 + off) bs) (batch_streams id off bs).
Proof.
  intros Hok. revert off. induction Hok as [|b bs Hb _ IH]; intros off; cbn [concat]; [constructor|].
  intros [H1 H2]%slice_bound_app. destruct (batch_ok_inv b Hb H1) as (E1 & _ & C1).
  cbn [batch_lsns batch_streams]. constructor.
  - split; cbn.
    + rewrite <-list_fmap_compose. by apply (place_records off).
    + intros Hne. pose proof (place_last off _ _ E1) as Hl. rewrite fmap_last.
      destruct (last (place off (recs b) (encs b))) as [p|] eqn:Ep; cbn in *.
      * do 2 f_equal. rewrite Hl, C1. lia.
      * apply last_None in Ep. exfalso. apply Hne. rewrite <-(place_records off _ _ E1), Ep. done.
  - rewrite <-Z.add_assoc. by apply IH.
Qed.

Lemma all_streamed sb segs :
  sb ≤ U32_MAX → Forall (seg_ok sb) segs → Forall (λ s, Forall batch_ok s.2) segs →
  Forall2 streamed (segs_batches segs) (all_streams segs) ∧
  concat (all_streams segs) = concat (seg_stream <$> segs).
Proof.
  intros Hsb. induction 1 as [|s segs (_ & Hlen & _) _ IH]; intros Hb; [by split; [constructor|]|].
  apply Forall_cons in Hb as [Hb Hbs]. destruct (IH Hbs) as [H1 H2].
  change (segs_batches (s :: segs)) with (seg_batches s ++ segs_batches segs).
  change (all_streams (s :: segs)) with (seg_streams s ++ all_streams segs).
  assert (slice_bound (concat s.2)) as Hsl by (apply small_slice_bound; lia). split.
  - apply Forall2_app; [|done]. by apply (batch_streamed s.1 0).
  - cbn [fmap list_fmap concat]. rewrite concat_app, H2. f_equal.
    unfold seg_streams, seg_stream. by rewrite concat_batch_streams.
Qed.

Lemma history_batches h bs :
  Forall2 encodes h bs → Forall typed_appended h →
  Forall appended_ok h ∧ Forall (λ b, batch_ok b.2) bs.
Proof.
  induction 1 as [|a b h bs Hab _ IH]; intros Hty; [by split|].
  apply Forall_cons in Hty as [Ha Hty]. destruct (IH Hty) as [Hok Hbo].
  destruct (records_of_wf a b Ha Hab) as (Hwf & Haok & es & He & Hb).
  split; constructor; try done. exists (records_of a), es. done.
Qed.

Lemma history_placed h bs ss :
  Forall2 encodes h bs → Forall typed_appended h → Forall2 streamed bs ss →
  Forall (λ b, slice_bound b.2) bs → Forall2 placed h ss.
Proof.
  intros Henc. revert ss. induction Henc as [|a b h bs Hab _ IH]; intros ss Hty Hst Hsl.
  - apply Forall2_nil_inv_l in Hst as ->. constructor.
  - apply Forall2_cons_inv_l in Hst as (st & ss' & [Hs1 Hs2] & Hst & ->).
    apply Forall_cons in Hty as [Ha Hty], Hsl as [Hslb Hsl]. constructor; [|by apply IH].
    destruct (records_of_wf a b Ha Hab) as (Hwf & Haok & es & He & Hb).
    rewrite Hb in Hs1, Hs2, Hslb. destruct (recs_encoded _ _ He Hwf Hslb) as [Er _].
    rewrite Er in Hs1, Hs2. split; [done|]. rewrite Hs2; [by destruct Hab as [-> _]|].
    unfold records_of, commit_records. intros [_ ?]%app_eq_nil. done.
Qed.

(** ** LSNs increase along the streams *)
Definition below (last : option Lsn) (x : Z) : Prop := ∀ p, last = Some p → p ≤ x.

Lemma increasing_place id off rs es last :
  encode_log rs = Ok es → below last (id * 2 ^ 32 + (40 + off)) →
  increasing last (at_lsn id <$> place off rs es).*1.
Proof.
  revert off es last. induction rs as [|r rs IH]; intros off es last; cbn [encode_log]; [done|].
  destruct (to_bytes r) as [e|] eqn:Er, (encode_log rs) as [es'|] eqn:E; [|done..].
  intros [= <-] Hb. apply to_bytes_inj_len in Er. cbn. split.
  - intros p Hp. specialize (Hb p Hp). lia.
  - apply IH; [done|]. intros p [= <-]. cbn. lia.
Qed.

Lemma increasing_app_intro last l1 l2 x :
  increasing last l1 → Forall (λ l, l ≤ x) l1 → below last x →
  (∀ last', below last' x → increasing last' l2) → increasing last (l1 ++ l2).
Proof.
  revert last. induction l1 as [|l l1 IH]; intros last; cbn; [auto|].
  intros [Hl Hi] [Hx Hall]%Forall_cons Hb H2. split; [done|]. apply IH; try done.
  by intros p [= <-].
Qed.

Lemma increasing_segs sb segs last :
  sb ≤ U32_MAX → Forall (seg_ok sb) segs → Forall (λ s, Forall batch_ok s.2) segs →
  keys_ok segs.*1 → (∀ s, head segs = Some s → below last (s.1 * 2 ^ 32 + 40)) →
  increasing last (concat (seg_stream <$> segs)).*1.
Proof.
  intros Hsb Hok. revert last. induction Hok as [|s segs (Hid & Hlen & _) _ IH];
    intros last Hb Hk Hh; [done|].
  apply Forall_cons in Hb as [Hb Hbs]. cbn [fmap list_fmap concat]. rewrite fmap_app.
  destruct (seg_ok_inv s.2 Hb) as (He & _ & Hc); [apply small_slice_bound; lia|].
  specialize (Hh s eq_refl). pose proof (len_nonneg (concat s.2)).
  apply (increasing_app_intro _ _ _ (s.1 * 2 ^ 32 + (40 + len (concat s.2)))).
  - apply increasing_place; [done|]. intros p Hp. specialize (Hh p Hp). lia.
  - apply Forall_fmap, Forall_fmap. eapply Forall_impl; [apply place_bound|]. cbn.
    rewrite Hc. intros p Hp. lia.
  - intros p Hp. specialize (Hh p Hp). lia.
  - intros last' Hl'. apply IH; [done|by destruct segs; [|apply Hk]|].
    intros s' Hs' p Hp. destruct segs as [|s2 segs]; [done|]. injection Hs' as <-.
    destruct Hk as [Hk _]. specialize (Hl' p Hp). unfold U32_MAX in *. lia.
Qed.

(** ** The lane keeps the typing of what it is given *)
Definition typed_op (op : LaneOp) : Prop :=
  match op with
  | LaneAppend t => is_u64 (tx_id t) ∧ Forall (λ m, is_u64 (lm_object m)) (tx_mutations t)
  | LaneSync _ => True
  end.

Lemma lane_exec_ids {D} `{LogDevice D} op (ca ca' : CommitAppender D) h :
  lane_exec op ca = (ca', h) → typed_op op →
  Forall (λ a, is_u64 (appended_id a) ∧ Forall (λ m, is_u64 (lm_object m)) (ap_mutations a)) h.
Proof.
  destruct op as [t|l]; cbn [lane_exec typed_op]; [|intros [= <- <-] _; constructor].
  destruct (append_validated ca t) as [[ca1 t1] [k|e]] eqn:E; intros [= <- <-]; [|constructor].
  apply append_validated_cases in E as (csn & batch & fx & log & _ & _ & _ & Hb & Hl & _ & _).
  apply for_commit_Ok in Hb as (_ & _ & _ & _ & _ & _ & Et & _).
  apply log_append_cases in Hl as [(_ & _ & Hc)|(_ & _ & d & [lsn|e'] & _ & _ & _ & _ & Hc)];
    [by destruct Hc as [(? & _)|(? & _)]| |by destruct Hc].
  destruct Hc as [_ [= ->]]. intros [Hid Hobj]. constructor; [|constructor].
  unfold appended_id. cbn. by rewrite Et.
Qed.

Lemma lane_run_ids {D} `{LogDevice D} ops (ca ca' : CommitAppender D) h :
  lane_run ops ca = (ca', h) → Forall typed_op ops →
  Forall (λ a, is_u64 (appended_id a) ∧ Forall (λ m, is_u64 (lm_object m)) (ap_mutations a)) h.
Proof.
  revert ca h. induction ops as [|op ops IH]; intros ca h; cbn [lane_run].
  { intros [= <- <-] _. constructor. }
  destruct (lane_exec op ca) as [ca1 h1] eqn:E1, (lane_run ops ca1) as [ca2 h2] eqn:E2.
  intros [= <- <-] [Hop Hops]%Forall_cons. apply Forall_app. split; [by eapply lane_exec_ids|by eapply IH].
Qed.

Lemma consecutive_csn first h :
  consecutive first h → (∀ x, first = Some x → is_u64 x) →
  Forall (λ a, is_u64 (at_csn (ap_ticket a))) h.
Proof.
  revert first. induction h as [|a h IH]; intros first; cbn; [constructor|].
  intros [-> Hc] Hf. specialize (Hf _ eq_refl). constructor; [done|]. apply (IH _ Hc).
  intros x [-> ?]%checked_add_Some. unfold is_u64, U64_MAX in *. lia.
Qed.

(** ** What was synchronized is in front of the cut *)
Lemma lsn_divmod l : lsn_segment l = l / 2 ^ 32 ∧ lsn_offset l = l mod 2 ^ 32.
Proof.
  unfold lsn_segment, lsn_offset, MAX_OFFSET, U32_MAX.
  replace (2 ^ 32 - 1) with (Z.ones 32) by done.
  by rewrite Z.land_ones, Z.shiftr_div_pow2 by lia.
Qed.

Lemma batch_lsns_lookup id off bs j lsn b :
  batch_lsns id off bs !! j = Some (lsn, b) →
  (j < length bs)%nat ∧ lsn = id * 2 ^ 32 + (off + len (concat (take (S j) bs))).
Proof.
  revert off j. induction bs as [|x bs IH]; intros off j; cbn [batch_lsns]; [done|].
  destruct j as [|j]; cbn.
  - intros [= <- <-]. split; [lia|]. by rewrite app_nil_r.
  - intros [? ->]%IH. split; [lia|]. cbn. rewrite len_app. lia.
Qed.

Lemma seg_encs_take j bs :
  seg_encs (take j bs) = take (length (seg_encs (take j bs))) (seg_encs bs).
Proof.
  unfold seg_encs. rewrite <-(take_drop j bs) at 3. rewrite fmap_app, concat_app.
  by rewrite take_app_length.
Qed.

Lemma batch_streams_take id off j bs :
  take j (batch_streams id off bs) = batch_streams id off (take j bs).
Proof. revert off j. induction bs as [|b bs IH]; intros off [|j]; cbn; [done..|]. by rewrite IH. Qed.

Lemma length_seg_streams sb s j :
  sb ≤ U32_MAX → seg_ok sb s → Forall batch_ok s.2 →
  length (concat (take j (seg_streams s))) = length (seg_encs (take j s.2)).
Proof.
  intros Hsb (_ & Hlen & _) Hb. unfold seg_streams. rewrite batch_streams_take.
  assert (slice_bound (concat (take j s.2))) as Hsl.
  { apply small_slice_bound. rewrite <-(take_drop j s.2), concat_app, len_app in Hlen.
    pose proof (len_nonneg (concat (drop j s.2))). lia. }
  rewrite concat_batch_streams by (done || by apply Forall_take). rewrite length_fmap.
  destruct (seg_ok_inv (take j s.2)) as (He & _ & _); [by apply Forall_take|done|].
  rewrite <-(length_fmap pr_record), (place_records 0 _ _ He). symmetry. by apply encode_log_length.
Qed.

Lemma synced_before_cut d init s f n k m i lsn b L :
  layout d (init ++ [s]) → at_end d s → Forall (λ s, Forall batch_ok s.2) (init ++ [s]) →
  (s.1, f) ∈ fs_files (sl_fs d) → (f_synced f ≤ 40 + n)%nat →
  n = (length (concat (take k (seg_encs s.2))) + m)%nat →
  (m = 0%nat ∨ ∃ e, seg_encs s.2 !! k = Some e ∧ 0 < m < length e)%nat →
  segs_batches (init ++ [s]) !! i = Some (lsn, b) → lsn ≤ L → segment_synced d L →
  (length (concat (take (S i) (all_streams (init ++ [s])))) ≤
   length (concat (seg_stream <$> init)) + k)%nat.
Proof.
  intros Hl [Eseg _] Hb Hin Hsy Hn Hm Hi HL [Hle Hsync].
  destruct Hl as (Hst & Hcfg & Hok & _ & _). apply Forall_app in Hok as [Hok Hs], Hb as [Hb Hbs].
  apply Forall_cons in Hs as [Hs _], Hbs as [Hbs _].
  destruct (all_streamed (sl_segment_bytes d) init) as [Hstr Hcat]; [lia|done..|].
  apply Forall2_length in Hstr. rewrite <-Hcat.
  assert (all_streams (init ++ [s]) = all_streams init ++ seg_streams s) as ->.
  { unfold all_streams. rewrite fmap_app, concat_app. cbn. by rewrite app_nil_r. }
  assert (segs_batches (init ++ [s]) = segs_batches init ++ seg_batches s) as E.
  { rewrite segs_batches_app. unfold segs_batches at 2. cbn. by rewrite app_nil_r. }
  rewrite E in Hi. destruct (decide (i < length (segs_batches init))%nat) as [Hlt|Hge].
  - rewrite take_app_le by lia.
    rewrite <-(take_drop (S i) (all_streams init)) at 2. rewrite concat_app, length_app. lia.
  - rewrite lookup_app_r in Hi by lia. set (j := (i - length (segs_batches init))%nat) in *.
    unfold seg_batches in Hi. apply batch_lsns_lookup in Hi as [Hj ->].
    rewrite take_app_ge by lia. replace (S i - length (all_streams init))%nat with (S j) by lia.
    rewrite concat_app, length_app, (length_seg_streams (sl_segment_bytes d)) by (done || lia).
    apply Nat.add_le_mono_l.
    destruct (seg_ok_inv (take (S j) s.2)) as (_ & _ & Hc); [by apply Forall_take|..].
    { apply small_slice_bound. destruct Hs as (_ & Hlen & _).
      rewrite <-(take_drop (S j) s.2), concat_app, len_app in Hlen.
      pose proof (len_nonneg (concat (drop (S j) s.2))). lia. }
    apply (cut_index (seg_encs s.2) _ k m).
    + destruct (seg_ok_inv s.2) as (He & _); [done|apply small_slice_bound; destruct Hs; lia|].
      eapply Forall_impl; [by eapply encode_log_pos|]. intros [] ?; [done|]. done.
    + rewrite (seg_encs_take (S j)), length_take. lia.
    + rewrite <-seg_encs_take, Hc, <-Hn.
      destruct (Hsync _ _ Hin) as [_ H2]. destruct (lsn_divmod L) as [E1 E2].
      pose proof (len_nonneg (concat (take (S j) s.2))). destruct Hs as (Hid & Hlen & _).
      rewrite E1 in *. assert (s.1 = L / 2 ^ 32) as E3.
      { apply Z.le_antisymm; [|lia]. apply Z.div_le_lower_bound; lia. }
      destruct (H2 E3) as [H3|[? _]]; [|lia]. rewrite E2 in H3.
      pose proof (Z.div_mod L (2 ^ 32) ltac:(lia)). unfold len in *. lia.
    + destruct Hm as [?|(e & ? & ?)]; [by left|right]. exists e. split; [done|lia].
Qed.

Lemma create_repr store sb fs0 fs1 d :
  wf_store store → fs_files fs0 = [] → create store sb fs0 = (fs1, Ok d) → segment_repr d [].
Proof.
  intros Hst H0. unfold create, validate_config, MAX_OFFSET.
  change (Z.of_nat (WAL_HEADER_BYTES + MIN_RECORD_BYTES)) with 56.
  destruct (_ || _)%bool eqn:Ecfg; [done|]. apply orb_false_iff in Ecfg as [?%Z.ltb_ge ?%Z.ltb_ge].
  destruct (fs_check fs0) as [fs2 [[]|]] eqn:E1; [|done]. apply fs_check_files in E1.
  destruct (create_segment store 0 fs2) as [fs3 [[]|]] eqn:E2; [|done].
  apply create_segment_spec in E2; [|by rewrite E1, H0]. rewrite E1, H0 in E2. cbn [app] in E2.
  intros [= <- <-]. exists [], (0, []). split_and!; try done.
  - unfold layout. cbn [sl_store sl_segment_bytes sl_fs app]. rewrite E2.
    split; [done|]. split; [lia|]. split_and!.
    + constructor; [|constructor]. split_and!; cbn; [lia|done| |constructor]. change (len []) with 0. lia.
    + done.
    + constructor; [|constructor]. split; [done|]. unfold seg_bytes. cbn [fst snd f_bytes]. by rewrite app_nil_r.
  - split; [constructor|]. cbn [sl_fs]. intros k f. rewrite E2, list_elem_of_singleton.
    intros [-> ->]%pair_equal_spec. cbn [f_synced f_bytes]. rewrite length_wal_header by apply Hst.
    split; [lia|done].
Qed.

Lemma batch_lsns_snd id off bs : (batch_lsns id off bs).*2 = bs.
Proof. revert off. induction bs as [|b bs IH]; intros off; cbn; [done|]. by rewrite IH. Qed.

Lemma segs_batches_snd segs : (segs_batches segs).*2 = concat segs.*2.
Proof.
  induction segs as [|s segs IH]; [done|].
  change (segs_batches (s :: segs)) with (seg_batches s ++ segs_batches segs).
  rewrite fmap_app, IH. cbn. f_equal. apply batch_lsns_snd.
Qed.

Lemma segs_batches_ok sb segs :
  sb ≤ U32_MAX → Forall (seg_ok sb) segs → Forall (λ b, batch_ok b.2) (segs_batches segs) →
  Forall (λ s, Forall batch_ok s.2) segs ∧ Forall (λ b, slice_bound b.2) (segs_batches segs).
Proof.
  intros Hsb Hok Hb.
  assert (Forall batch_ok (segs_batches segs).*2) as Hb' by (by apply Forall_fmap).
  clear Hb. rename Hb' into Hb. rewrite segs_batches_snd in Hb.
  enough (Forall slice_bound (segs_batches segs).*2) as Hs.
  { rewrite Forall_fmap in Hs. split; [|exact Hs].
    apply Forall_concat in Hb. by rewrite Forall_fmap in Hb. }
  rewrite segs_batches_snd.
  apply Forall_concat in Hb. apply Forall_concat, Forall_fmap. eapply Forall_impl; [exact Hok|].
  intros s (_ & Hlen & _). cbn. apply Forall_forall. intros b Hbs. apply small_slice_bound.
  apply list_elem_of_split in Hbs as (l1 & l2 & E).
  rewrite E, concat_app, len_app in Hlen. cbn in Hlen. rewrite len_app in Hlen.
  pose proof (len_nonneg (concat l1)). pose proof (len_nonneg (concat l2)). lia.
Qed.

Lemma placed_nonempty h ss : Forall2 placed h ss → Forall (λ st, st ≠ []) ss.
Proof.
  induction 1 as [|a st h ss [Hs _] _ IH]; constructor; [|done].
  intros ->. symmetry in Hs. unfold records_of, commit_records in Hs.
  by apply app_eq_nil in Hs as [_ ?].
Qed.

(** The recovered stream is a cut of the whole stream. *)
Lemma recovered_cut sb init s k :
  sb ≤ U32_MAX → Forall (seg_ok sb) (init ++ [s]) →
  Forall (λ s, Forall batch_ok s.2) (init ++ [s]) → (k ≤ length (seg_recs s.2))%nat →
  let N := (length (concat (seg_stream <$> init)) + k)%nat in
  concat (seg_stream <$> init) ++ take k (seg_stream s) = take N (concat (all_streams (init ++ [s]))) ∧
  (N ≤ length (concat (all_streams (init ++ [s]))))%nat.
Proof.
  intros Hsb Hok Hb Hk N. destruct (all_streamed sb (init ++ [s])) as [_ ->]; [done..|].
  apply Forall_app in Hok as [_ [(_ & Hlen & _) _]%Forall_cons], Hb as [_ [Hb _]%Forall_cons].
  rewrite fmap_app, concat_app. cbn. rewrite app_nil_r. split; [unfold N; by rewrite take_app_add|].
  rewrite length_app. unfold N. apply Nat.add_le_mono_l. unfold seg_stream. rewrite length_fmap.
  destruct (seg_ok_inv s.2 Hb) as (He & _ & _); [apply small_slice_bound; lia|].
  by rewrite <-(length_fmap pr_record), (place_records 0 _ _ He).
Qed.

(** A device that holds a lane history, after a crash. *)
Lemma device_recovery d bs h first fs' :
  segment_repr d bs → Forall2 encodes h bs → Forall typed_appended h →
  NoDup (appended_id <$> h) → consecutive (Some first) h → 0 < first →
  (∀ k f, (k, f) ∈ fs_files (sl_fs d) → k < ss_segment (sl_state d) →
     f_synced f = length (f_bytes f)) →
  fs_crash (sl_fs d) fs' →
  ∃ fs d' records k a,
    open (sl_store d) (sl_segment_bytes d) fs' = (fs, Ok d') ∧
    (recover_records d').2 = Ok records ∧
    push_all records RecoveryAssembler_new = (a, Ok (recovered_of <$> take k h)) ∧
    ∀ i x L, h !! i = Some x → at_decision_lsn (ap_ticket x) ≤ L → segment_synced d L → (i < k)%nat.
Proof.
  intros (init & s & Hl & Hend & Hd & ->) Henc Hty Hnd Hcsn Hpos Hsync Hcrash.
  destruct (history_batches _ _ Henc Hty) as [Hok Hbok].
  pose proof Hl as (Hst & Hcfg & Hsok & Hkeys & _).
  destruct (segs_batches_ok (sl_segment_bytes d) (init ++ [s])) as [Hb Hsl]; [lia|done..|].
  destruct (all_streamed (sl_segment_bytes d) (init ++ [s])) as [Hstr Hcat]; [lia|done..|].
  assert (Forall2 placed h (all_streams (init ++ [s]))) as Hp by (by eapply history_placed).
  rewrite (proj1 Hend) in Hsync.
  destruct (open_after_crash _ _ _ _ Hl Hend Hd Hb Hsync Hcrash)
    as (f & n & k0 & m & fs & Hin & Hsy & Hk0 & Hn & Hm & Hopen & Hrep).
  set (N := (length (concat (seg_stream <$> init)) + k0)%nat).
  destruct (recovered_cut (sl_segment_bytes d) init s k0) as [Hrec HNle]; [lia|done..|].
  destruct (push_all_history h (all_streams (init ++ [s])) first N) as (k & m' & a & Hk & HN & Hm' & Hpush);
    [done..| | |exact HNle|].
  { rewrite Hcat. by apply (increasing_segs (sl_segment_bytes d)); [lia|..]. }
  { rewrite (placed_concat _ _ Hp). apply fits_history; [done..|]. apply Forall_forall. intros x Hx.
    apply list_elem_of_lookup in Hx as [i Hx]. by destruct (Forall2_lookup_l _ _ _ _ _ Henc Hx) as (b & _ & _ & _ & ? & _). }
  eexists fs, _, _, k, a. split; [exact Hopen|]. split; [by apply recover_repaired|].
  rewrite Hrec. split; [exact Hpush|]. intros i x L Hi HL HsL.
  destruct (Forall2_lookup_l _ _ _ _ _ Henc Hi) as ([lsn b] & Hib & Hx). destruct Hx as [Elsn _].
  cbn in Elsn. subst lsn.
  assert (S i ≤ k)%nat; [|lia].
  apply (cut_index (all_streams (init ++ [s])) _ k m').
  - by eapply placed_nonempty.
  - rewrite <-(Forall2_length _ _ _ Hp). apply lookup_lt_Some in Hi. lia.
  - rewrite <-HN. eapply synced_before_cut; try done.
  - destruct Hm' as [?|(e & ? & ?)]; [by left|right]. exists e. split; [done|lia].
Qed.

(** The files a rotation left behind are synchronized. *)
Definition earlier_synced (d : SegmentedLog) : Prop :=
  ∀ k f, (k, f) ∈ fs_files (sl_fs d) → k < ss_segment (sl_state d) → f_synced f = length (f_bytes f).

(** A lane over a new log: what it appended, and what a crash leaves of it. *)
Lemma lane_recovery store sb fs0 fs1 d0 ops ca h :
  wf_store store → fs_files fs0 = [] → create store sb fs0 = (fs1, Ok d0) →
  Forall typed_op ops → lane_run ops (CommitAppender_new (DurableLog_new d0) 0) = (ca, h) →
  consecutive (Some 1) h ∧ Forall typed_appended h ∧
  let d := dl_device (ca_log ca) in
  ∀ fs', NoDup (appended_id <$> h) → dl_fenced (ca_log ca) = false →
  earlier_synced d → fs_crash (sl_fs d) fs' →
  ∃ fs d' records k a,
    open (sl_store d) (sl_segment_bytes d) fs' = (fs, Ok d') ∧
    (recover_records d').2 = Ok records ∧
    push_all records RecoveryAssembler_new = (a, Ok (recovered_of <$> take k h)) ∧
    ∀ i x, h !! i = Some x →
      at_decision_lsn (ap_ticket x) ≤ dl_durable_lsn (ca_log ca) → (i < k)%nat.
Proof.
  intros Hst H0 Hc Hops Hrun. pose proof (create_repr _ _ _ _ _ Hst H0 Hc) as Hr0.
  pose proof (lane_run_ids _ _ _ _ Hrun Hops) as Hids.
  apply (lane_run_spec _ _ _ _ []) in Hrun as (Hcs & _ & bs & Hholds & Henc & Hpos & _);
    [|by apply lane_holds_new].
  cbn [app ca_next_csn CommitAppender_new] in *. change (checked_add 0 1) with (Some 1) in Hcs.
  assert (Forall typed_appended h) as Hty.
  { pose proof (consecutive_csn _ _ Hcs) as Hu. rewrite Forall_forall in Hids, Hu.
    apply Forall_forall. intros x Hx. destruct (Hids x Hx). split_and!; [done| |done].
    apply Hu; [|done]. intros y [= <-]. unfold is_u64; lia. }
  split; [done|]. split; [done|]. cbv zeta. set (d := dl_device (ca_log ca)) in *. intros fs' Hnd Hf Hsync Hcrash.
  destruct Hholds as (_ & Hr & Hdur). specialize (Hr Hf).
  destruct (device_recovery d bs h 1 fs') as (fs & d' & records & k & a & Ho & Hrec & Hp & Hd);
    [done..|lia|done|done|].
  exists fs, d', records, k, a. split_and!; [done..|]. intros i x Hi Hle.
  destruct Hdur as [E|Hs]; [|by eapply Hd].
  destruct (Forall2_lookup_l _ _ _ _ _ Henc Hi) as (b & Hb & Hx & _).
  rewrite Forall_lookup in Hpos. destruct (Hpos _ _ Hb) as [Hpos' _]. lia.
Qed.

(** C4. End to end: transactions with distinct identifiers, appended through the lane
    over a newly created segmented log, survive a crash between two device calls that
    finds the log not fenced (none of its device calls has failed) and every segment
    it has rotated away from synchronized.  The log opens, its scan succeeds, the assembler accepts it, and it returns
    exactly a prefix of the appended transactions, in commit order, with their
    mutations, commit sequences and LSNs; every transaction at or below the LSN
    the log had reported durable is in it. *)
Theorem end_to_end_recovery store sb fs0 fs1 d0 ops ca h fs' :
  wf_store store → fs_files fs0 = [] → create store sb fs0 = (fs1, Ok d0) →
  Forall typed_op ops →
  lane_run ops (CommitAppender_new (DurableLog_new d0) 0) = (ca, h) →
  NoDup (appended_id <$> h) → dl_fenced (ca_log ca) = false →
  let d := dl_device (ca_log ca) in
  earlier_synced d → fs_crash (sl_fs d) fs' →
  ∃ fs d' records k a,
    open (sl_store d) (sl_segment_bytes d) fs' = (fs, Ok d') ∧
    (recover_records d').2 = Ok records ∧
    push_all records RecoveryAssembler_new = (a, Ok (recovered_of <$> take k h)) ∧
    ∀ i x, h !! i = Some x →
      at_decision_lsn (ap_ticket x) ≤ dl_durable_lsn (ca_log ca) → (i < k)%nat.
Proof.
  intros Hst H0 Hc Hops Hrun Hnd Hf d Hsync Hcrash.
  destruct (lane_recovery _ _ _ _ _ _ _ _ Hst H0 Hc Hops Hrun) as (_ & _ & Hrec). by apply Hrec.
Qed.
End end_to_end.

(** ** A concrete run: two transactions, the second in a fresh segment and cut *)
#[local] Existing Instance castagnoli_crc.

Definition demo_store : bytes := replicate 16 (u8 1).
Definition demo_disk : Fs := {| fs_files := []; fs_faults := [] |}.
Definition demo_ops : list LaneOp :=
  [LaneAppend (sample_txn 7 1); LaneSync 127; LaneAppend (sample_txn 8 2)].

Definition demo_lane (d : SegmentedLog) : CommitAppender SegmentedLog * list Appended :=
  lane_run demo_ops (CommitAppender_new (DurableLog_new d) 0).

(** Whether every file before [seg] is synchronized to its end. *)
Definition synced_below (seg : Z) (files : list (Z * File)) : bool :=
  forallb (λ p, negb (p.1 <? seg) || Nat.eqb (f_synced p.2) (length (f_bytes p.2)))%bool files.

Lemma synced_below_ok seg files k f :
  synced_below seg files = true → (k, f) ∈ files → k < seg → f_synced f = length (f_bytes f).
Proof.
  intros Hb Hin Hk. unfold synced_below in Hb. rewrite forallb_forall in Hb.
  apply list_elem_of_In, Hb in Hin. cbn in Hin. rewrite (proj2 (Z.ltb_lt _ _) Hk) in Hin.
  by apply Nat.eqb_eq.
Qed.

Lemma end_to_end_recovery_witness :
  ∃ fs1 d0 fs' fs d' records k a,
    create demo_store 130 demo_disk = (fs1, Ok d0) ∧
    open demo_store 130 fs' = (fs, Ok d') ∧
    (recover_records d').2 = Ok records ∧
    push_all records RecoveryAssembler_new = (a, Ok (recovered_of <$> take k (demo_lane d0).2)) ∧
    (0 < k)%nat.
Proof.
  destruct (create demo_store 130 demo_disk) as [fs1 [d0|]] eqn:Ec; [|by vm_compute in Ec].
  assert (d0 = match (create demo_store 130 demo_disk).2 with Ok d => d | Err _ => d0 end) as Ed
    by (by rewrite Ec).
  vm_compute in Ed.
  set (d := dl_device (ca_log (demo_lane d0).1)).
  destruct (end_to_end_recovery demo_store 130 demo_disk fs1 d0 demo_ops
    (demo_lane d0).1 (demo_lane d0).2 (crash_at 100 (sl_fs d)))
    as (fs & d' & records & k & a & Ho & Hr & Hp & Hk).
  - split; vm_compute; reflexivity.
  - reflexivity.
  - exact Ec.
  - repeat constructor; vm_compute; intros [=].
  - by rewrite <-surjective_pairing.
  - rewrite Ed. apply (bool_decide_unpack _). vm_compute. exact I.
  - rewrite Ed. vm_compute. reflexivity.
  - intros j f. apply synced_below_ok. rewrite Ed. vm_compute. reflexivity.
  - apply crash_at_crash.
  - exists fs1, d0, (crash_at 100 (sl_fs d)), fs, d', records, k, a. split_and!; try done.
    + rewrite <-Ho. f_equal; rewrite Ed; vm_compute; reflexivity.
    + apply (Hk 0%nat (nth 0 (demo_lane d0).2 (Build_Appended (Build_AppendTicket 0 0 0) [])));
        rewrite Ed; vm_compute; [reflexivity|intros [=]].
Defined.

(** A crash that cuts every file at byte 150 or what it had synchronized. *)
Definition early_crash (files : list (Z * File)) : Fs :=
  {| fs_files := (λ p, (p.1, {| f_bytes := take (Nat.max (f_synced p.2) 150) (f_bytes p.2);
                                f_synced := f_synced p.2 |})) <$> files;
     fs_faults := [] |}.

Lemma early_crash_ok files faults :
  fs_crash {| fs_files := files; fs_faults := faults |} (early_crash files).
Proof.
  split; [|done]. cbn. induction files as [|[k f] files IH]; cbn; constructor; [|done].
  exists (Nat.max (f_synced f) 150). split_and!; [lia|done..].
Qed.

Definition unsynced_ops : list LaneOp :=
  [LaneAppend (sample_txn 7 1); LaneSync 127; LaneAppend (sample_txn 8 2);
   LaneAppend (sample_txn 9 3)].

(** C40. The premise of end-to-end recovery on earlier segments is needed: rotation
    does not synchronize the segment it leaves, so after a run without any I/O
    failure, in which the first transaction was reported durable, a crash can
    leave a torn earlier segment, and [open] then refuses the whole log. *)
Theorem rotation_without_sync_can_block_open :
  ∃ fs1 d0 ca h fs', create demo_store 220 demo_disk = (fs1, Ok d0) ∧
    lane_run unsynced_ops (CommitAppender_new (DurableLog_new d0) 0) = (ca, h) ∧
    length h = 3%nat ∧ dl_fenced (ca_log ca) = false ∧ dl_durable_lsn (ca_log ca) = 127 ∧
    fs_crash (sl_fs (dl_device (ca_log ca))) fs' ∧ (open demo_store 220 fs').2 = Err InvalidData.
Proof.
  destruct (create demo_store 220 demo_disk) as [fs1 [d0|]] eqn:Ec; [|by vm_compute in Ec].
  assert (d0 = match (create demo_store 220 demo_disk).2 with Ok d => d | Err _ => d0 end) as Ed
    by (by rewrite Ec).
  vm_compute in Ed.
  destruct (lane_run unsynced_ops (CommitAppender_new (DurableLog_new d0) 0)) as [ca h] eqn:El.
  assert ((ca, h) = lane_run unsynced_ops (CommitAppender_new (DurableLog_new d0) 0)) as E2 by done.
  rewrite Ed in E2. vm_compute in E2. injection E2 as E3 E4.
  exists fs1, d0, ca, h, (early_crash (fs_files (sl_fs (dl_device (ca_log ca))))).
  split_and!; [done..| | | | |].
  - by rewrite E4.
  - by rewrite E3.
  - by rewrite E3.
  - destruct (sl_fs _). apply early_crash_ok.
  - rewrite E3. vm_compute. reflexivity.
Qed.

(** The scan of [open] stops at a segment shorter than its header. *)
Lemma open_scan_short store sb final segs k v fs f :
  fs_faults fs = [] → BTreeMap.get k (fs_files fs) = Some f →
  (length (f_bytes f) < WAL_HEADER_BYTES)%nat →
  ∃ fs' e, open_scan store sb final (segs ++ [k]) v fs = (fs', Err e).
Proof.
  intros Hn Hg Hl. revert v. induction segs as [|x segs IH]; intros v; cbn [app open_scan].
  - unfold read_segment. rewrite (fs_read_ok k fs f) by done.
    destruct (_ || _)%bool; [eauto|]. unfold validate_segment_header.
    rewrite bool_decide_eq_true_2 by done. eauto.
  - unfold read_segment, fs_read. rewrite fs_check_ok by done.
    destruct (BTreeMap.get x (fs_files fs)) as [g|]; [|eauto].
    destruct (_ || _)%bool; [eauto|]. destruct (validate_segment_header _ _ _); [|eauto].
    destruct (parse_log_prefix_frames _) as [frames []]; [apply IH| |eauto].
    destruct (x =? final); [apply IH|eauto].
Qed.

(** A segment file shorter than its header blocks [open], whatever the other
    segments hold: the crash window between creating a segment file and
    synchronizing its header makes the log unopenable. *)
Theorem short_header_blocks_open store sb fs finit k f :
  fs_faults fs = [] → fs_files fs = finit ++ [(k, f)] → Forall (λ p, p.1 < k) finit →
  (length (f_bytes f) < WAL_HEADER_BYTES)%nat →
  ∃ fs' e, open store sb fs = (fs', Err e).
Proof.
  intros Hn Hfs Hlt Hl. unfold open. destruct (validate_config sb); [|eauto].
  rewrite fs_check_ok by done.
  assert (list_segments fs = finit.*1 ++ [k]) as Hls by (unfold list_segments; by rewrite Hfs, fmap_app).
  rewrite Hls, last_snoc. destruct (validate_segment_sequence _); [|eauto].
  destruct (open_scan_short store sb k finit.*1 k 0 fs f) as (fs' & e & ->); [done| |done|eauto].
  rewrite Hfs. apply BTreeMap.get_snoc. eapply Forall_impl; [exact Hlt|]. intros p. cbn.
  by rewrite lt_ord_Z.
Qed.

Lemma short_header_blocks_open_witness :
  ∃ fs' e, open demo_store 130
    {| fs_files := [(0, {| f_bytes := encode_wal_header demo_store 0; f_synced := 40 |});
                    (1, {| f_bytes := []; f_synced := 0 |})]; fs_faults := [] |} = (fs', Err e).
Proof.
  apply (short_header_blocks_open demo_store 130 _
    [(0, {| f_bytes := encode_wal_header demo_store 0; f_synced := 40 |})] 1
    {| f_bytes := []; f_synced := 0 |}); [reflexivity|reflexivity| |vm_compute; lia].
  apply Forall_singleton. cbn. lia.
Defined.
