(* ===== verification/Shards.v ===== *)
(** * Sharded tables

    The kernel's process-local tables are arrays of 64 locks, each guarding a
    [HashMap].  A lock is its poison flag together with the map it guards; an
    operation that takes the lock and finds it poisoned reports the shard index.
    [tget] is the flat view of such a table: what is stored under a key in the
    shard the key selects. *)
From S2P Require Import Prelude.

Local Open Scope Z_scope.
Local Open Scope seer_scope.

(** One [Mutex<HashMap<K, V>>] or [RwLock<HashMap<K, V>>]. *)
Record Shard (K V : Type) `{Countable K} := {
  sh_entries : gmap K V;
  sh_poisoned : bool
}.
Arguments sh_entries {K V _ _}.
Arguments sh_poisoned {K V _ _}.

Definition SHARDS : nat := 64.

(** [(hash as usize) & (SHARDS - 1)] *)
Definition mask_shard (hash : Z) : nat := Z.to_nat (Z.land hash 63).

(** A function that selects a shard for every key. *)
Class ShardSelector (K : Type) := {
  shard_of : K → nat;
  shard_of_lt : ∀ k, (shard_of k < SHARDS)%nat
}.

Section table.
Context {K V : Type} `{Countable K}.
Abbreviation table := (list (Shard K V)).

(** [std::array::from_fn(|_| Mutex::new(HashMap::new()))] *)
Definition table_new : table :=
  replicate SHARDS {| sh_entries := ∅; sh_poisoned := false |}.

(** [self.shards[i].lock()], failing with the index of a poisoned shard. *)
Definition shard_lock (t : table) (i : nat) : result (gmap K V) nat :=
  match t !! i with
  | Some s => if sh_poisoned s then Err i else Ok (sh_entries s)
  | None => Err i
  end.

(** [self.shards[i].lock().unwrap_or_else(PoisonError::into_inner)] *)
Definition shard_lock_anyway (t : table) (i : nat) : gmap K V :=
  match t !! i with Some s => sh_entries s | None => ∅ end.

(** The map a lock guards after the critical section. *)
Definition shard_store (t : table) (i : nat) (m : gmap K V) : table :=
  alter (λ s, {| sh_entries := m; sh_poisoned := sh_poisoned s |}) i t.

Definition table_wf (t : table) : Prop := length t = SHARDS.

Definition no_poison (t : table) : Prop := Forall (λ s, sh_poisoned s = false) t.

Context `{ShardSelector K}.

Definition tget (t : table) (k : K) : option V := shard_lock_anyway t (shard_of k) !! k.

(** Two tables with the same contents and the same poisoned shards. *)
Definition table_equiv (t u : table) : Prop :=
  length t = length u ∧ (∀ i, sh_poisoned <$> t !! i = sh_poisoned <$> u !! i) ∧
  (∀ k, tget t k = tget u k).

Lemma table_new_wf : table_wf table_new.
Proof. apply length_replicate. Qed.

Lemma shard_store_wf t i m : table_wf t → table_wf (shard_store t i m).
Proof. unfold table_wf, shard_store. by rewrite length_alter. Qed.

Lemma table_new_get k : tget table_new k = None.
Proof.
  unfold tget, shard_lock_anyway, table_new.
  rewrite lookup_replicate_2 by apply shard_of_lt. apply lookup_empty.
Qed.

Lemma table_new_no_poison : no_poison table_new.
Proof. by apply Forall_replicate. Qed.

Lemma shard_lock_Ok t i m : shard_lock t i = Ok m → shard_lock_anyway t i = m.
Proof.
  unfold shard_lock, shard_lock_anyway. destruct (t !! i); [|done].
  by destruct (sh_poisoned _); intros [= ->].
Qed.

Lemma shard_lock_no_poison t k :
  table_wf t → no_poison t → shard_lock t (shard_of k) = Ok (shard_lock_anyway t (shard_of k)).
Proof.
  intros Hw Hn. unfold shard_lock, shard_lock_anyway.
  destruct (lookup_lt_is_Some_2 t (shard_of k)) as [s Hs].
  { rewrite Hw. apply shard_of_lt. }
  rewrite Hs. unfold no_poison in Hn. rewrite Forall_lookup in Hn. by rewrite (Hn _ _ Hs).
Qed.

Lemma shard_store_no_poison t i m : no_poison t → no_poison (shard_store t i m).
Proof.
  intros Hn. apply Forall_lookup. intros j s. unfold shard_store.
  destruct (decide (i = j)) as [->|].
  - rewrite list_lookup_alter_eq. unfold no_poison in Hn. rewrite Forall_lookup in Hn.
    destruct (t !! j) as [s'|] eqn:E; [|done]. intros [= <-]. cbn. eauto.
  - rewrite list_lookup_alter_ne by done. unfold no_poison in Hn. rewrite Forall_lookup in Hn. eauto.
Qed.

Lemma shard_store_poison t i m j :
  sh_poisoned <$> shard_store t i m !! j = sh_poisoned <$> t !! j.
Proof.
  unfold shard_store. destruct (decide (i = j)) as [->|].
  - rewrite list_lookup_alter_eq. by destruct (t !! j).
  - by rewrite list_lookup_alter_ne.
Qed.

(** Storing a map in the shard of [k] that differs at [k] only. *)
Lemma tget_store t k k' m :
  table_wf t →
  (∀ x, x ≠ k → m !! x = shard_lock_anyway t (shard_of k) !! x) →
  tget (shard_store t (shard_of k) m) k' = if decide (k = k') then m !! k else tget t k'.
Proof.
  intros Hw Hm. unfold tget, shard_lock_anyway, shard_store.
  destruct (lookup_lt_is_Some_2 t (shard_of k)) as [s Hs].
  { rewrite Hw. apply shard_of_lt. }
  unfold shard_lock_anyway in Hm. rewrite Hs in Hm.
  destruct (decide (shard_of k = shard_of k')) as [E|E].
  - rewrite <-E, list_lookup_alter_eq, Hs. cbn. case_decide; [by subst|]. apply Hm. congruence.
  - rewrite list_lookup_alter_ne by done. case_decide; [by subst|done].
Qed.

Lemma tget_insert t k k' v :
  table_wf t →
  tget (shard_store t (shard_of k) (<[k:=v]> (shard_lock_anyway t (shard_of k)))) k'
  = if decide (k = k') then Some v else tget t k'.
Proof.
  intros Hw. rewrite tget_store; [|done|].
  - case_decide; [|done]. by rewrite lookup_insert_eq.
  - intros x ?. by rewrite lookup_insert_ne.
Qed.

Lemma tget_delete t k k' :
  table_wf t →
  tget (shard_store t (shard_of k) (delete k (shard_lock_anyway t (shard_of k)))) k'
  = if decide (k = k') then None else tget t k'.
Proof.
  intros Hw. rewrite tget_store; [|done|].
  - case_decide; [|done]. by rewrite lookup_delete_eq.
  - intros x ?. by rewrite lookup_delete_ne.
Qed.

#[export] Instance table_equiv_equivalence : Equivalence table_equiv.
Proof.
  split.
  - done.
  - intros t u (?&?&?). by repeat split.
  - intros t u w (?&Hp&Hg) (?&Hp'&Hg'). split_and!; [congruence| |].
    + intros i. by rewrite Hp.
    + intros k. by rewrite Hg.
Qed.

Lemma table_equiv_store t k m :
  table_wf t → m = shard_lock_anyway t (shard_of k) → table_equiv (shard_store t (shard_of k) m) t.
Proof.
  intros Hw ->. split_and!.
  - unfold shard_store. apply length_alter.
  - apply shard_store_poison.
  - intros k'. rewrite tget_store by done. case_decide; [by subst|done].
Qed.
End table.

Lemma mask_shard_lt h : (mask_shard h < SHARDS)%nat.
Proof.
  unfold mask_shard, SHARDS. change 63 with (Z.ones 6). rewrite Z.land_ones by lia.
  pose proof (Z.mod_pos_bound h (2 ^ 6)). lia.
Qed.
