(* ===== verification/Mvcc.v ===== *)
(** * Logical MVCC records and transaction status

    Models [crates/seerdb/src/vnext/mvcc.rs]: the record envelope stored as the
    value of an ordered tree, its codec, the sharded transaction-status table and
    the visibility rule that resolves a record owner for a reader snapshot. *)
From S2P Require Import Prelude StdCollections Ids Log WriteSet Shards.

Local Open Scope Z_scope.
Local Open Scope seer_scope.

Definition RECORD_MAGIC : bytes := [u8 79; u8 77; u8 86; u8 49].
Definition RECORD_VERSION : Z := 2.
Definition MVCC_HEADER_SIZE : nat := 40.
Definition OWNER_TRANSACTION : Z := 1.
Definition OWNER_FROZEN : Z := 2.
Definition VALUE_INLINE : Z := 1.
Definition VALUE_TOMBSTONE : Z := 2.

(** ** Records *)
Inductive RecordOwner :=
| OwnerTransaction (txn : TxnId)
| OwnerFrozen (csn : CommitSeq).

Record InstallIdentity := { ii_txn_id : TxnId; ii_ordinal : Z }.

Inductive MvccValue :=
| Inline (value : bytes)
| Tombstone.

Record MvccRecord := {
  mr_owner : RecordOwner;
  mr_undo_head : option VersionId;
  mr_install_identity : option InstallIdentity;
  mr_value : MvccValue
}.

#[global] Instance RecordOwner_eq_dec : EqDecision RecordOwner.
Proof. solve_decision. Defined.
#[global] Instance InstallIdentity_eq_dec : EqDecision InstallIdentity.
Proof. solve_decision. Defined.
#[global] Instance MvccValue_eq_dec : EqDecision MvccValue.
Proof. solve_decision. Defined.
#[global] Instance MvccRecord_eq_dec : EqDecision MvccRecord.
Proof. solve_decision. Defined.

(** [FinalEffect::install_identity] of [write_set.rs]. *)
Definition fe_install_identity (e : FinalEffect) : InstallIdentity :=
  {| ii_txn_id := fe_txn_id e; ii_ordinal := fe_ordinal e |}.

(** [MvccRecord::new] *)
Definition MvccRecord_new (owner : RecordOwner) (undo : option VersionId) (value : MvccValue)
    : MvccRecord :=
  {| mr_owner := owner; mr_undo_head := undo; mr_install_identity := None; mr_value := value |}.

Definition installed (txn : TxnId) (ordinal : Z) (undo : option VersionId) (value : MvccValue)
    : MvccRecord :=
  {| mr_owner := OwnerTransaction txn; mr_undo_head := undo;
     mr_install_identity := Some {| ii_txn_id := txn; ii_ordinal := ordinal |};
     mr_value := value |}.

Definition with_install_identity (owner : RecordOwner) (undo : option VersionId)
    (identity : InstallIdentity) (value : MvccValue) : MvccRecord :=
  {| mr_owner := owner; mr_undo_head := undo; mr_install_identity := Some identity;
     mr_value := value |}.

Definition has_install_identity (r : MvccRecord) (identity : InstallIdentity) : bool :=
  match mr_install_identity r with
  | Some existing => (ii_txn_id existing =? ii_txn_id identity)
                     && (ii_ordinal existing =? ii_ordinal identity)
  | None => false
  end.

Inductive MvccCodecError :=
| MvccMalformed
| MvccUnsupportedFormat
| MvccReservedOwner
| MvccReservedInstallTransaction
| MvccInstallOwnerMismatch (owner install : TxnId)
| MvccValueTooLarge.

(** ** Codec *)
Definition owner_fields (o : RecordOwner) : Z * Z :=
  match o with
  | OwnerTransaction txn => (OWNER_TRANSACTION, txn)
  | OwnerFrozen csn => (OWNER_FROZEN, csn)
  end.

Definition value_fields (v : MvccValue) : Z * bytes :=
  match v with
  | Inline value => (VALUE_INLINE, value)
  | Tombstone => (VALUE_TOMBSTONE, [])
  end.

Definition encode_install_identity (r : MvccRecord) : result (Z * Z) MvccCodecError :=
  match mr_install_identity r with
  | Some identity =>
      if ii_txn_id identity =? 0 then Err MvccReservedInstallTransaction
      else
        match mr_owner r with
        | OwnerTransaction owner =>
            if negb (owner =? ii_txn_id identity)
            then Err (MvccInstallOwnerMismatch owner (ii_txn_id identity))
            else Ok (ii_txn_id identity, ii_ordinal identity)
        | OwnerFrozen _ => Ok (ii_txn_id identity, ii_ordinal identity)
        end
  | None => Ok (0, 0)
  end.

(** [MvccRecord::to_bytes] *)
Definition record_to_bytes (r : MvccRecord) : result bytes MvccCodecError :=
  let '(owner_kind, owner_id) := owner_fields (mr_owner r) in
  if owner_id =? 0 then Err MvccReservedOwner
  else
    let? (install_txn, install_ordinal) := encode_install_identity r in
    let '(value_kind, value) := value_fields (mr_value r) in
    let? value_len := ok_or (u32_try_from (len value)) MvccValueTooLarge in
    let? _ := ok_or (checked_add (Z.of_nat MVCC_HEADER_SIZE) (len value)) MvccValueTooLarge in
    Ok (RECORD_MAGIC ++ [u8 RECORD_VERSION; u8 owner_kind; u8 value_kind; u8 0]
        ++ u64_le owner_id ++ u64_le (default 0 (mr_undo_head r)) ++ u64_le install_txn
        ++ u32_le install_ordinal ++ u32_le value_len ++ value).

(** [MvccRecord::from_bytes] *)
Definition record_from_bytes (bs : bytes) : result MvccRecord MvccCodecError :=
  if bool_decide (length bs < MVCC_HEADER_SIZE)%nat
     || negb (bool_decide (take 4 bs = RECORD_MAGIC)) then Err MvccMalformed
  else if negb (byte_at bs 4 =? RECORD_VERSION) || negb (byte_at bs 7 =? 0)
  then Err MvccUnsupportedFormat
  else
    let? owner_raw := ok_or (read_u64 bs 8) MvccMalformed in
    if owner_raw =? 0 then Err MvccReservedOwner
    else
      let? owner :=
        if byte_at bs 5 =? OWNER_TRANSACTION then Ok (OwnerTransaction owner_raw)
        else if byte_at bs 5 =? OWNER_FROZEN then Ok (OwnerFrozen owner_raw)
        else Err MvccUnsupportedFormat in
      let? undo_raw := ok_or (read_u64 bs 16) MvccMalformed in
      let? install_txn_raw := ok_or (read_u64 bs 24) MvccMalformed in
      let? install_ordinal := ok_or (read_u32 bs 32) MvccMalformed in
      let? install_identity :=
        if install_txn_raw =? 0 then
          if negb (install_ordinal =? 0) then Err MvccMalformed else Ok None
        else Ok (Some {| ii_txn_id := install_txn_raw; ii_ordinal := install_ordinal |}) in
      let? _ :=
        match owner, install_identity with
        | OwnerTransaction owner_txn, Some identity =>
            if negb (owner_txn =? ii_txn_id identity)
            then Err (MvccInstallOwnerMismatch owner_txn (ii_txn_id identity)) else Ok tt
        | _, _ => Ok tt
        end in
      let? value_len := ok_or (read_u32 bs 36) MvccMalformed in
      let? expected := ok_or (checked_add (Z.of_nat MVCC_HEADER_SIZE) value_len) MvccMalformed in
      if negb (expected =? len bs) then Err MvccMalformed
      else
        let? value :=
          if byte_at bs 6 =? VALUE_INLINE then Ok (Inline (drop MVCC_HEADER_SIZE bs))
          else if byte_at bs 6 =? VALUE_TOMBSTONE then
            if value_len =? 0 then Ok Tombstone else Err MvccMalformed
          else Err MvccUnsupportedFormat in
        Ok {| mr_owner := owner;
              mr_undo_head := if negb (undo_raw =? 0) then Some undo_raw else None;
              mr_install_identity := install_identity;
              mr_value := value |}.

(** ** Transaction status *)
Inductive TransactionStatus :=
| StatusActive
| StatusCommitted (csn : CommitSeq)
| StatusAborted.

#[global] Instance TransactionStatus_eq_dec : EqDecision TransactionStatus.
Proof. solve_decision. Defined.

Inductive RecordVisibility :=
| RecordVisible
| RecordActive
| RecordAborted
| RecordNewerCommit (csn : CommitSeq).

Inductive StatusTableError :=
| StatusReservedTxn
| StatusReservedCommitSeq
| StatusDuplicateTxn (txn : TxnId)
| StatusUnknownTxn (txn : TxnId)
| StatusInvalidTransition (txn : TxnId) (current requested : TransactionStatus)
| StatusConflictingRecovery (txn : TxnId) (existing recovered : TransactionStatus)
| StatusPoisoned (shard : nat).

Definition TransactionStatusTable : Type := list (Shard TxnId TransactionStatus).

(** [TransactionStatusTable::shard] *)
#[global] Instance status_selector : ShardSelector TxnId :=
  {| shard_of := mask_shard; shard_of_lt := mask_shard_lt |}.

Definition StatusTable_new : TransactionStatusTable := table_new.

Definition status_begin (t : TransactionStatusTable) (txn : TxnId)
    : TransactionStatusTable * result unit StatusTableError :=
  if txn =? 0 then (t, Err StatusReservedTxn)
  else
    match shard_lock t (shard_of txn) with
    | Err i => (t, Err (StatusPoisoned i))
    | Ok entries =>
        if bool_decide (is_Some (entries !! txn)) then (t, Err (StatusDuplicateTxn txn))
        else (shard_store t (shard_of txn) (<[txn := StatusActive]> entries), Ok tt)
    end.

Definition status_transition (t : TransactionStatusTable) (txn : TxnId) (next : TransactionStatus)
    : TransactionStatusTable * result unit StatusTableError :=
  if txn =? 0 then (t, Err StatusReservedTxn)
  else
    match shard_lock t (shard_of txn) with
    | Err i => (t, Err (StatusPoisoned i))
    | Ok entries =>
        match entries !! txn with
        | None => (t, Err (StatusUnknownTxn txn))
        | Some status =>
            if negb (bool_decide (status = StatusActive))
            then (t, Err (StatusInvalidTransition txn status next))
            else (shard_store t (shard_of txn) (<[txn := next]> entries), Ok tt)
        end
    end.

Definition status_commit (t : TransactionStatusTable) (txn : TxnId) (csn : CommitSeq)
    : TransactionStatusTable * result unit StatusTableError :=
  if csn =? 0 then (t, Err StatusReservedCommitSeq)
  else status_transition t txn (StatusCommitted csn).

Definition status_abort (t : TransactionStatusTable) (txn : TxnId)
    : TransactionStatusTable * result unit StatusTableError :=
  status_transition t txn StatusAborted.

Definition status_recover (t : TransactionStatusTable) (txn : TxnId)
    (recovered : TransactionStatus) : TransactionStatusTable * result unit StatusTableError :=
  match shard_lock t (shard_of txn) with
  | Err i => (t, Err (StatusPoisoned i))
  | Ok entries =>
      match entries !! txn with
      | None => (shard_store t (shard_of txn) (<[txn := recovered]> entries), Ok tt)
      | Some existing =>
          if bool_decide (existing = recovered) then (t, Ok tt)
          else (t, Err (StatusConflictingRecovery txn existing recovered))
      end
  end.

Definition recover_committed (t : TransactionStatusTable) (txn : TxnId) (csn : CommitSeq)
    : TransactionStatusTable * result unit StatusTableError :=
  if txn =? 0 then (t, Err StatusReservedTxn)
  else if csn =? 0 then (t, Err StatusReservedCommitSeq)
  else status_recover t txn (StatusCommitted csn).

Definition recover_aborted (t : TransactionStatusTable) (txn : TxnId)
    : TransactionStatusTable * result unit StatusTableError :=
  if txn =? 0 then (t, Err StatusReservedTxn)
  else status_recover t txn StatusAborted.

Definition status (t : TransactionStatusTable) (txn : TxnId)
    : result (option TransactionStatus) StatusTableError :=
  let? entries := map_err StatusPoisoned (shard_lock t (shard_of txn)) in
  Ok (entries !! txn).

(** [TransactionStatusTable::visibility] *)
Definition visibility (t : TransactionStatusTable) (owner : RecordOwner) (reader : option TxnId)
    (snapshot : CommitSeq) : result RecordVisibility StatusTableError :=
  match owner with
  | OwnerFrozen csn =>
      Ok (if csn <=? snapshot then RecordVisible else RecordNewerCommit csn)
  | OwnerTransaction txn =>
      if bool_decide (reader = Some txn) then Ok RecordVisible
      else
        let? found := status t txn in
        let? s := ok_or found (StatusUnknownTxn txn) in
        match s with
        | StatusActive => Ok RecordActive
        | StatusAborted => Ok RecordAborted
        | StatusCommitted csn =>
            Ok (if csn <=? snapshot then RecordVisible else RecordNewerCommit csn)
        end
  end.

(** ** The envelope codec *)

(** Every field is in the range of its type; undo zero means no predecessor. *)
Definition wf_mvcc (r : MvccRecord) : Prop :=
  match mr_owner r with OwnerTransaction x | OwnerFrozen x => is_u64 x end ∧
  match mr_undo_head r with Some u => u ≠ 0 ∧ is_u64 u | None => True end ∧
  match mr_install_identity r with
  | Some i => is_u64 (ii_txn_id i) ∧ is_u32 (ii_ordinal i)
  | None => True
  end.

(** What [to_bytes] demands of the install identity. *)
Definition identity_ok (r : MvccRecord) : Prop :=
  match mr_install_identity r with
  | Some i => ii_txn_id i ≠ 0 ∧
      match mr_owner r with OwnerTransaction o => o = ii_txn_id i | OwnerFrozen _ => True end
  | None => True
  end.

Definition install_fields (r : MvccRecord) : Z * Z :=
  match mr_install_identity r with
  | Some i => (ii_txn_id i, ii_ordinal i)
  | None => (0, 0)
  end.

Definition mvcc_layout (r : MvccRecord) : bytes :=
  RECORD_MAGIC
  ++ [u8 RECORD_VERSION; u8 (owner_fields (mr_owner r)).1; u8 (value_fields (mr_value r)).1; u8 0]
  ++ u64_le (owner_fields (mr_owner r)).2 ++ u64_le (default 0 (mr_undo_head r))
  ++ u64_le (install_fields r).1 ++ u32_le (install_fields r).2
  ++ u32_le (len (value_fields (mr_value r)).2) ++ (value_fields (mr_value r)).2.

Lemma encode_install_identity_Ok r p :
  encode_install_identity r = Ok p ↔ identity_ok r ∧ p = install_fields r.
Proof.
  unfold encode_install_identity, identity_ok, install_fields.
  destruct (mr_install_identity r) as [i|]; [|naive_solver].
  destruct (ii_txn_id i =? 0) eqn:E; bool_to_prop; [naive_solver|].
  destruct (mr_owner r) as [o|]; [|naive_solver].
  destruct (o =? ii_txn_id i) eqn:E'; bool_to_prop; naive_solver.
Qed.

Lemma record_to_bytes_Ok r bs :
  record_to_bytes r = Ok bs ↔
  (owner_fields (mr_owner r)).2 ≠ 0 ∧ identity_ok r ∧
  len (value_fields (mr_value r)).2 ≤ U32_MAX ∧ bs = mvcc_layout r.
Proof.
  unfold record_to_bytes, mvcc_layout. destruct (owner_fields (mr_owner r)) as [ok oid]; cbn [fst snd].
  destruct (oid =? 0) eqn:E0; bool_to_prop; [naive_solver|].
  pose proof (encode_install_identity_Ok r) as Hi.
  destruct (encode_install_identity r) as [[it io]|e].
  2:{ split; [done|]. intros (_ & Hid & _).
      discriminate (proj2 (Hi (install_fields r)) (conj Hid eq_refl)). }
  destruct (proj1 (Hi _) eq_refl) as [Hid <-]. cbn [fst snd].
  destruct (value_fields (mr_value r)) as [vk v]. cbn [fst snd]. pose proof (len_nonneg v).
  unfold u32_try_from, checked_add, ok_or.
  destruct (len v <=? U32_MAX) eqn:E; bool_to_prop; [|split; [done|lia]].
  destruct (_ <=? U64_MAX) eqn:E'; bool_to_prop; [naive_solver|].
  exfalso. unfold MVCC_HEADER_SIZE, U32_MAX, U64_MAX in *. lia.
Qed.

(** The fields of a laid out record, read back at their offsets. *)
Lemma mvcc_layout_fields r :
  wf_mvcc r → len (value_fields (mr_value r)).2 ≤ U32_MAX →
  let bs := mvcc_layout r in
  take 4 bs = RECORD_MAGIC ∧ byte_at bs 4 = RECORD_VERSION ∧
  byte_at bs 5 = (owner_fields (mr_owner r)).1 ∧ byte_at bs 6 = (value_fields (mr_value r)).1 ∧
  byte_at bs 7 = 0 ∧ read_u64 bs 8 = Some (owner_fields (mr_owner r)).2 ∧
  read_u64 bs 16 = Some (default 0 (mr_undo_head r)) ∧
  read_u64 bs 24 = Some (install_fields r).1 ∧ read_u32 bs 32 = Some (install_fields r).2 ∧
  read_u32 bs 36 = Some (len (value_fields (mr_value r)).2) ∧
  drop MVCC_HEADER_SIZE bs = (value_fields (mr_value r)).2 ∧
  len bs = 40 + len (value_fields (mr_value r)).2.
Proof.
  intros (Ho & Hu & Hi) Hv bs.
  assert (is_u64 (owner_fields (mr_owner r)).2) by (by destruct (mr_owner r)).
  assert (is_u64 (default 0 (mr_undo_head r))).
  { destruct (mr_undo_head r); [by destruct Hu|by unfold is_u64]. }
  assert (is_u64 (install_fields r).1 ∧ is_u32 (install_fields r).2) as [? ?].
  { unfold install_fields. destruct (mr_install_identity r); [done|by unfold is_u64, is_u32]. }
  pose proof (len_u32 _ Hv). unfold bs, mvcc_layout. unfold RECORD_MAGIC.
  split_and!.
  - done.
  - done.
  - cbn. by destruct (mr_owner r).
  - cbn. by destruct (mr_value r).
  - done.
  - by read_field.
  - by read_field.
  - by read_field.
  - by read_field.
  - by read_field.
  - unfold MVCC_HEADER_SIZE. rewrite !app_assoc. apply drop_app_length'.
    autorewrite with seer. done.
  - unfold len. autorewrite with seer. cbn. lia.
Qed.

Lemma record_codec_forward r bs :
  wf_mvcc r → record_to_bytes r = Ok bs → record_from_bytes bs = Ok r.
Proof.
  intros Hw (Hnz & Hid & Hv & ->)%record_to_bytes_Ok.
  destruct (mvcc_layout_fields r Hw Hv) as (Hm & H4 & H5 & H6 & H7 & H8 & H16 & H24 & H32 & H36 & Hd & Hl).
  pose proof (len_nonneg (value_fields (mr_value r)).2) as Hnn.
  unfold record_from_bytes. rewrite Hm, H4, H5, H6, H7, H8, H16, H24, H32, H36, Hd, Hl.
  rewrite bool_decide_eq_false_2 by (unfold MVCC_HEADER_SIZE; unfold len in *; lia).
  rewrite bool_decide_eq_true_2 by done. cbn [orb negb ok_or]. rewrite !Z.eqb_refl. cbn [orb negb].
  rewrite (proj2 (Z.eqb_neq _ _)) by done.
  assert (checked_add (Z.of_nat MVCC_HEADER_SIZE) (len (value_fields (mr_value r)).2)
    = Some (40 + len (value_fields (mr_value r)).2)) as ->.
  { apply checked_add_Some. unfold MVCC_HEADER_SIZE. log_lia. }
  cbn [ok_or]. rewrite Z.eqb_refl. cbn [negb].
  destruct r as [o u ii v]. unfold identity_ok, wf_mvcc, install_fields in *; cbn in *.
  assert ((if negb (default 0 u =? 0) then Some (default 0 u) else None) = u) as Hu.
  { destruct u as [x|]; [|done]. destruct Hw as (_ & [? _] & _). cbn.
    by rewrite (proj2 (Z.eqb_neq _ _)). }
  destruct ii as [[it io]|]; cbn in *; [destruct Hid as [Hit Hown]|];
    rewrite ?(proj2 (Z.eqb_neq it 0)) by done; destruct o; cbn in *;
    rewrite ?Hown, ?Z.eqb_refl; cbn; destruct v; cbn; by rewrite Hu.
Qed.

(** What a decoded record says about the buffer it came from. *)
Lemma record_from_bytes_inv r bs :
  record_from_bytes bs = Ok r →
  (40 ≤ length bs)%nat ∧ take 4 bs = RECORD_MAGIC ∧ byte_at bs 4 = RECORD_VERSION ∧
  byte_at bs 7 = 0 ∧ (byte_at bs 5, (owner_fields (mr_owner r)).2) = owner_fields (mr_owner r) ∧
  (byte_at bs 6, drop 40 bs) = value_fields (mr_value r) ∧
  (owner_fields (mr_owner r)).2 ≠ 0 ∧ mr_undo_head r ≠ Some 0 ∧ identity_ok r ∧
  read_u64 bs 8 = Some (owner_fields (mr_owner r)).2 ∧
  read_u64 bs 16 = Some (default 0 (mr_undo_head r)) ∧
  read_u64 bs 24 = Some (install_fields r).1 ∧ read_u32 bs 32 = Some (install_fields r).2 ∧
  read_u32 bs 36 = Some (len bs - 40).
Proof.
  unfold record_from_bytes.
  destruct (_ || _)%bool eqn:E1; [done|]. destruct (_ || _)%bool eqn:E2 in |- *; [done|].
  destruct (read_u64 bs 8) as [own|] eqn:H8; cbn [ok_or]; [|done].
  destruct (own =? 0) eqn:E0; [done|].
  set (owner := if byte_at bs 5 =? OWNER_TRANSACTION then _ else _).
  destruct owner as [o|] eqn:Eo; [|done]. subst owner.
  destruct (read_u64 bs 16) as [undo|] eqn:H16; cbn [ok_or]; [|done].
  destruct (read_u64 bs 24) as [it|] eqn:H24; cbn [ok_or]; [|done].
  destruct (read_u32 bs 32) as [io|] eqn:H32; cbn [ok_or]; [|done].
  set (ident := if it =? 0 then _ else _). destruct ident as [ii|] eqn:Ei; [|done]. subst ident.
  set (chk := match o with OwnerTransaction _ => _ | OwnerFrozen _ => _ end).
  destruct chk as [[]|] eqn:Ec; [|done]. subst chk.
  destruct (read_u32 bs 36) as [vl|] eqn:H36; cbn [ok_or]; [|done].
  destruct (checked_add _ vl) as [ex|] eqn:Ex; cbn [ok_or]; [|done].
  apply checked_add_Some in Ex as [-> _]. destruct (negb (_ =? len bs)) eqn:E3; [done|].
  set (val := if byte_at bs 6 =? VALUE_INLINE then _ else _).
  destruct val as [v|] eqn:Ev; [|done]. subst val. intros [= <-]. cbn [mr_owner mr_undo_head
    mr_install_identity mr_value]. bool_to_prop. unfold MVCC_HEADER_SIZE in *.
  assert (vl = len bs - 40) as -> by lia. change (Z.of_nat 40) with 40 in *.
  assert (own = (owner_fields o).2 ∧ byte_at bs 5 = (owner_fields o).1) as [Hown H5].
  { destruct (byte_at bs 5 =? OWNER_TRANSACTION) eqn:E; [bool_to_prop; by simplify_eq/=|].
    destruct (byte_at bs 5 =? OWNER_FROZEN) eqn:E'; [bool_to_prop; by simplify_eq/=|done]. }
  assert ((byte_at bs 6, drop 40 bs) = value_fields v) as Hval.
  { destruct (byte_at bs 6 =? VALUE_INLINE) eqn:E.
    { bool_to_prop. injection Ev as <-. cbn [value_fields]. congruence. }
    destruct (byte_at bs 6 =? VALUE_TOMBSTONE) eqn:E'; [|done].
    destruct (len bs - 40 =? 0) eqn:E6; [|done]. bool_to_prop. injection Ev as <-.
    cbn [value_fields]. f_equal; [done|]. apply drop_ge. unfold len in *. lia. }
  split_and!; try done.
  - lia.
  - rewrite H5. by destruct (owner_fields o).
  - congruence.
  - destruct (undo =? 0) eqn:E; cbn; [done|]. bool_to_prop. congruence.
  - unfold identity_ok; cbn. destruct (it =? 0) eqn:E; [by destruct (negb _); simplify_eq|].
    bool_to_prop. simplify_eq/=. split; [done|]. destruct o; [|done].
    destruct (negb _) eqn:E' in Ec; [done|]. by bool_to_prop.
  - congruence.
  - destruct (undo =? 0) eqn:E; cbn; bool_to_prop; congruence.
  - unfold install_fields; cbn. destruct (it =? 0) eqn:E; bool_to_prop.
    + destruct (negb _) eqn:E' in Ei; [done|]. bool_to_prop. by simplify_eq/=.
    + by simplify_eq/=.
  - unfold install_fields; cbn. destruct (it =? 0) eqn:E; bool_to_prop.
    + destruct (negb _) eqn:E' in Ei; [done|]. bool_to_prop. by simplify_eq/=.
    + by simplify_eq/=.
Qed.

Lemma record_codec_backward r bs :
  record_from_bytes bs = Ok r → wf_mvcc r ∧ record_to_bytes r = Ok bs.
Proof.
  intros (Hl & Hm & H4 & H7 & H5 & Hv & Hnz & Hu & Hid & H8 & H16 & H24 & H32 & H36)%record_from_bytes_inv.
  destruct (read_u64_drop _ _ _ 16 H8 eq_refl) as [D8 U8].
  destruct (read_u64_drop _ _ _ 24 H16 eq_refl) as [D16 U16].
  destruct (read_u64_drop _ _ _ 32 H24 eq_refl) as [D24 U24].
  destruct (read_u32_drop _ _ _ 36 H32 eq_refl) as [D32 U32].
  destruct (read_u32_drop _ _ _ 40 H36 eq_refl) as [D36 U36].
  assert (len (drop 40 bs) = len bs - 40) as Hlv by (unfold len; rewrite length_drop; lia).
  rewrite record_to_bytes_Ok, <-Hv. cbn [fst snd]. split.
  { unfold wf_mvcc, install_fields in *. split_and!.
    - by destruct (mr_owner r).
    - destruct (mr_undo_head r) as [u|]; [|done]. split; [congruence|done].
    - by destruct (mr_install_identity r). }
  split_and!; [done|done|unfold is_u32, U32_MAX in *; lia|].
  rewrite <-(take_drop 4 bs) at 1.
  rewrite (drop_byte bs 4 5), (drop_byte bs 5 6), (drop_byte bs 6 7), (drop_byte bs 7 8) by lia.
  unfold mvcc_layout. rewrite D8, D16, D24, D32, D36, Hm, H4, H7, <-Hlv, <-Hv. cbn [fst snd].
  by rewrite <-(f_equal fst H5).
Qed.

(** The record envelope codec is exact: a buffer decodes to a record just when
    it is the encoding of that record and the record is well formed, so encoding
    and decoding are inverse to each other and no malformed buffer is accepted. *)
Theorem mvcc_record_codec r bs :
  record_from_bytes bs = Ok r ↔ wf_mvcc r ∧ record_to_bytes r = Ok bs.
Proof.
  split; [apply record_codec_backward|]. intros [Hw He]. by apply record_codec_forward.
Qed.

(** ** The status table as a map *)

(** The moves a status entry can make: it appears in any status, and only an
    active one changes, to a decided one. *)
Inductive status_move : option TransactionStatus → TransactionStatus → Prop :=
| move_appear s : s ≠ StatusCommitted 0 → status_move None s
| move_decide s : s ≠ StatusActive → s ≠ StatusCommitted 0 → status_move (Some StatusActive) s.

(** [t'] is [t] with the entry of [txn] moved to [s]. *)
Definition status_updated (t t' : TransactionStatusTable) (txn : TxnId) (s : TransactionStatus) : Prop :=
  txn ≠ 0 ∧ status_move (tget t txn) s ∧
  ∀ x, status t' x = if decide (txn = x) then Ok (Some s) else status t x.

Inductive StatusOp :=
| SBegin (txn : TxnId)
| SCommit (txn : TxnId) (csn : CommitSeq)
| SAbort (txn : TxnId)
| SRecoverCommitted (txn : TxnId) (csn : CommitSeq)
| SRecoverAborted (txn : TxnId).

Definition status_exec (op : StatusOp) (t : TransactionStatusTable)
    : TransactionStatusTable * result unit StatusTableError :=
  match op with
  | SBegin txn => status_begin t txn
  | SCommit txn csn => status_commit t txn csn
  | SAbort txn => status_abort t txn
  | SRecoverCommitted txn csn => recover_committed t txn csn
  | SRecoverAborted txn => recover_aborted t txn
  end.

(** The entry an operation writes when it writes one. *)
Definition op_target (op : StatusOp) : TxnId * TransactionStatus :=
  match op with
  | SBegin txn => (txn, StatusActive)
  | SCommit txn csn | SRecoverCommitted txn csn => (txn, StatusCommitted csn)
  | SAbort txn | SRecoverAborted txn => (txn, StatusAborted)
  end.

Definition status_run (ops : list StatusOp) (t : TransactionStatusTable) : TransactionStatusTable :=
  fold_left (λ t op, (status_exec op t).1) ops t.

Lemma status_Ok t txn s : status t txn = Ok s → tget t txn = s.
Proof.
  unfold status, tget, map_err. destruct (shard_lock t _) as [m|] eqn:E; [|done].
  intros [= <-]. by rewrite (shard_lock_Ok _ _ _ E).
Qed.

Lemma status_no_poison t txn : table_wf t → no_poison t → status t txn = Ok (tget t txn).
Proof. intros Hw Hn. unfold status. by rewrite shard_lock_no_poison. Qed.

Lemma status_insert t txn m s :
  table_wf t → shard_lock t (shard_of txn) = Ok m → txn ≠ 0 → status_move (tget t txn) s →
  status_updated t (shard_store t (shard_of txn) (<[txn := s]> m)) txn s.
Proof.
  intros Hw Hm H0 Hmove. split_and!; [done|done|]. intros x. unfold status.
  pose proof (shard_lock_Ok _ _ _ Hm) as Ha. unfold shard_lock, shard_lock_anyway in *.
  destruct (decide (shard_of txn = shard_of x)) as [E|E].
  - unfold shard_store. rewrite <-E, list_lookup_alter_eq.
    destruct (t !! shard_of txn) as [sh|]; [|done]. cbn. destruct (sh_poisoned sh); [done|]. cbn.
    case_decide as D; [subst; by rewrite lookup_insert_eq|].
    rewrite lookup_insert_ne by done. by simplify_eq.
  - unfold shard_store. rewrite list_lookup_alter_ne by done.
    by rewrite decide_False by congruence.
Qed.

Lemma status_move_step t txn s t' :
  status_updated t t' txn s →
  ∀ x old, status t x = Ok (Some old) → old ≠ StatusActive → status t' x = Ok (Some old).
Proof.
  intros (_ & Hm & Hs) x old Hx Hne. rewrite Hs. case_decide as D; [|done]. subst x.
  apply status_Ok in Hx. rewrite Hx in Hm. inversion Hm; congruence.
Qed.

Lemma status_transition_cases t txn next t' r :
  table_wf t → next ≠ StatusActive → next ≠ StatusCommitted 0 →
  status_transition t txn next = (t', r) →
  table_wf t' ∧ (t' = t ∨ status_updated t t' txn next ∧ r = Ok tt).
Proof.
  intros Hw Hna Hnz. unfold status_transition.
  destruct (txn =? 0) eqn:E0; [intros [= <- <-]; auto|].
  destruct (shard_lock t _) as [m|i] eqn:El; [|intros [= <- <-]; auto].
  destruct (m !! txn) as [st|] eqn:Em; [|intros [= <- <-]; auto].
  destruct (negb _) eqn:Ea; intros [= <- <-]; [auto|]. bool_to_prop.
  split; [by apply shard_store_wf|]. right. split; [|done].
  apply status_insert; [done..|]. unfold tget. rewrite (shard_lock_Ok _ _ _ El), Em. subst.
  by constructor.
Qed.

Lemma status_recover_cases t txn s t' r :
  table_wf t → txn ≠ 0 → s ≠ StatusCommitted 0 → status_recover t txn s = (t', r) →
  table_wf t' ∧ (t' = t ∧ (r = Ok tt → status t txn = Ok (Some s))
                 ∨ status_updated t t' txn s ∧ r = Ok tt).
Proof.
  intros Hw H0 Hnz. unfold status_recover.
  destruct (shard_lock t _) as [m|i] eqn:El; [|intros [= <- <-]; naive_solver].
  destruct (m !! txn) as [st|] eqn:Em.
  { case_bool_decide; intros [= <- <-]; [|naive_solver].
    split; [done|]. left. split; [done|]. intros _. unfold status. rewrite El. cbn. congruence. }
  intros [= <- <-]. split; [by apply shard_store_wf|]. right. split; [|done].
  apply status_insert; [done..|]. unfold tget. rewrite (shard_lock_Ok _ _ _ El), Em.
  by constructor.
Qed.

(** Every operation leaves the table alone or makes one move. *)
Lemma status_exec_cases op t t' r :
  table_wf t → status_exec op t = (t', r) →
  table_wf t' ∧ (t' = t ∨ status_updated t t' (op_target op).1 (op_target op).2 ∧ r = Ok tt).
Proof.
  intros Hw. destruct op as [txn|txn csn|txn|txn csn|txn]; cbn [status_exec op_target fst snd].
  - unfold status_begin. destruct (txn =? 0) eqn:E0; [intros [= <- <-]; auto|].
    destruct (shard_lock t _) as [m|i] eqn:El; [|intros [= <- <-]; auto].
    destruct (bool_decide _) eqn:Ed; intros [= <- <-]; [auto|]. bool_to_prop.
    split; [by apply shard_store_wf|]. right. split; [|done].
    apply status_insert; [done..|]. unfold tget.
    rewrite (shard_lock_Ok _ _ _ El), <-eq_None_not_Some in *. rewrite Ed. by constructor.
  - unfold status_commit. destruct (csn =? 0) eqn:E0; [intros [= <- <-]; auto|]. bool_to_prop.
    apply status_transition_cases; congruence.
  - by apply status_transition_cases.
  - unfold recover_committed. destruct (txn =? 0) eqn:Et; [intros [= <- <-]; auto|].
    destruct (csn =? 0) eqn:E0; [intros [= <- <-]; auto|]. bool_to_prop.
    intros E. apply status_recover_cases in E; naive_solver congruence.
  - unfold recover_aborted. destruct (txn =? 0) eqn:Et; [intros [= <- <-]; auto|]. bool_to_prop.
    intros E. apply status_recover_cases in E; naive_solver congruence.
Qed.

Lemma status_exec_decided op t x s :
  table_wf t → status t x = Ok (Some s) → s ≠ StatusActive →
  status (status_exec op t).1 x = Ok (Some s).
Proof.
  intros Hw Hs Hna. destruct (status_exec op t) as [t' r] eqn:E.
  destruct (status_exec_cases _ _ _ _ Hw E) as [_ [->|[Hu _]]]; [done|].
  by eapply status_move_step.
Qed.

Lemma status_exec_wf op t : table_wf t → table_wf (status_exec op t).1.
Proof.
  intros Hw. destruct (status_exec op t) as [t' r] eqn:E.
  by destruct (status_exec_cases _ _ _ _ Hw E).
Qed.

(** The entry of one transaction is set. *)
Definition status_set (t t' : TransactionStatusTable) (x : TxnId) (s : TransactionStatus) : Prop :=
  table_wf t' ∧ ∀ z, tget t' z = if decide (x = z) then Some s else tget t z.

Lemma status_set_store t x m s :
  table_wf t → shard_lock t (shard_of x) = Ok m → status_set t (shard_store t (shard_of x) (<[x := s]> m)) x s.
Proof.
  intros Hw El. split; [by apply shard_store_wf|]. intros z. rewrite <-(shard_lock_Ok _ _ _ El). by apply tget_insert.
Qed.

Lemma status_begin_outcome t x t' r :
  table_wf t → status_begin t x = (t', r) →
  match r with Ok _ => tget t x = None ∧ status_set t t' x StatusActive | Err _ => t' = t end.
Proof.
  intros Hw. unfold status_begin. destruct (x =? 0); [by intros [= <- <-]|].
  destruct (shard_lock t _) as [m|i] eqn:El; [|by intros [= <- <-]].
  case_bool_decide as Hm; intros [= <- <-]; [done|]. split; [|by apply status_set_store].
  unfold tget. rewrite (shard_lock_Ok _ _ _ El). by apply eq_None_not_Some.
Qed.

Lemma status_transition_outcome t x next t' r :
  table_wf t → status_transition t x next = (t', r) →
  match r with Ok _ => tget t x = Some StatusActive ∧ status_set t t' x next | Err _ => t' = t end.
Proof.
  intros Hw. unfold status_transition. destruct (x =? 0); [by intros [= <- <-]|].
  destruct (shard_lock t _) as [m|i] eqn:El; [|by intros [= <- <-]].
  destruct (m !! x) as [s|] eqn:Em; [|by intros [= <- <-]].
  destruct (negb _) eqn:Ea; intros [= <- <-]; [done|]. bool_to_prop. subst s.
  split; [|by apply status_set_store]. unfold tget. by rewrite (shard_lock_Ok _ _ _ El).
Qed.

Lemma status_commit_outcome t x c t' r :
  table_wf t → status_commit t x c = (t', r) →
  match r with
  | Ok _ => c ≠ 0 ∧ tget t x = Some StatusActive ∧ status_set t t' x (StatusCommitted c)
  | Err _ => t' = t
  end.
Proof.
  intros Hw. unfold status_commit. destruct (c =? 0) eqn:E; [by intros [= <- <-]|]. bool_to_prop.
  intros Ht%status_transition_outcome; [|done]. by destruct r.
Qed.

Lemma recover_committed_outcome t x c t' r :
  table_wf t → recover_committed t x c = (t', r) →
  match r with
  | Ok _ => c ≠ 0 ∧ (t' = t ∧ tget t x = Some (StatusCommitted c) ∨
      tget t x = None ∧ status_set t t' x (StatusCommitted c))
  | Err _ => t' = t
  end.
Proof.
  intros Hw. unfold recover_committed, status_recover. destruct (x =? 0); [by intros [= <- <-]|].
  destruct (c =? 0) eqn:E; [by intros [= <- <-]|]. bool_to_prop.
  destruct (shard_lock t _) as [m|i] eqn:El; [|by intros [= <- <-]].
  assert (tget t x = m !! x) as Hx by (unfold tget; by rewrite (shard_lock_Ok _ _ _ El)).
  destruct (m !! x) as [s|] eqn:Em.
  - case_bool_decide; intros [= <- <-]; [|done]. split; [done|]. left. split; congruence.
  - intros [= <- <-]. split; [done|]. right. split; [done|]. by apply status_set_store.
Qed.

(** A decided transaction keeps its outcome: after it is committed or aborted no
    sequence of begins, decisions or recoveries changes the status it reports. *)
Theorem decided_status_is_final ops t txn s :
  table_wf t → status t txn = Ok (Some s) → s ≠ StatusActive →
  status (status_run ops t) txn = Ok (Some s).
Proof.
  unfold status_run. revert t. induction ops as [|op ops IH]; intros t Hw Hs Hna; cbn; [done|].
  apply IH; [by apply status_exec_wf|by apply status_exec_decided|done].
Qed.

(** What a successful commit does to the table. *)
Lemma status_commit_updated t txn csn t' :
  table_wf t → status_commit t txn csn = (t', Ok tt) →
  table_wf t' ∧ csn ≠ 0 ∧ status t txn = Ok (Some StatusActive) ∧
  status_updated t t' txn (StatusCommitted csn).
Proof.
  intros Hw. unfold status_commit, status_transition.
  destruct (csn =? 0) eqn:Ec; [done|]. destruct (txn =? 0) eqn:E0; [done|].
  destruct (shard_lock t _) as [m|i] eqn:El; [|done].
  destruct (m !! txn) as [st|] eqn:Em; [|done].
  destruct (negb _) eqn:Ea; intros [= <-]. bool_to_prop. subst st.
  split_and!; [by apply shard_store_wf|done|unfold status; rewrite El; cbn; by rewrite Em|].
  apply status_insert; [done..|]. unfold tget. rewrite (shard_lock_Ok _ _ _ El), Em.
  constructor; congruence.
Qed.

(** Committing a transaction publishes all its records at once: for every record
    owner, reader and snapshot the answer of the visibility rule changes only for
    records the transaction owns and readers other than itself, from active to
    visible at every snapshot that covers its commit sequence. *)
Theorem commit_publishes_atomically t txn csn t' owner reader snapshot :
  table_wf t → status_commit t txn csn = (t', Ok tt) →
  if decide (owner = OwnerTransaction txn ∧ reader ≠ Some txn) then
    visibility t owner reader snapshot = Ok RecordActive ∧
    visibility t' owner reader snapshot =
      Ok (if csn <=? snapshot then RecordVisible else RecordNewerCommit csn)
  else visibility t' owner reader snapshot = visibility t owner reader snapshot.
Proof.
  intros Hw (_ & _ & Ha & _ & _ & Hs)%status_commit_updated; [|done].
  case_decide as D.
  - destruct D as [-> Hr]. unfold visibility. rewrite bool_decide_eq_false_2 by done.
    rewrite Hs, Ha, decide_True by done. done.
  - destruct owner as [x|]; [|done]. cbn. case_bool_decide as Hr; [done|].
    rewrite Hs. rewrite decide_False; [done|]. intros ->. by apply D.
Qed.

(** ** Concrete instances *)
Definition one_active : TransactionStatusTable := (status_begin StatusTable_new 7).1.

Lemma decided_status_is_final_witness :
  status (status_run [SAbort 7; SRecoverCommitted 7 9; SBegin 71]
            (status_exec (SCommit 7 3) one_active).1) 7 = Ok (Some (StatusCommitted 3)).
Proof. apply decided_status_is_final; [done|by vm_compute|done]. Defined.

Lemma commit_publishes_atomically_witness :
  visibility one_active (OwnerTransaction 7) None 5 = Ok RecordActive ∧
  visibility (status_commit one_active 7 3).1 (OwnerTransaction 7) None 5 = Ok RecordVisible.
Proof.
  assert (status_commit one_active 7 3 = ((status_commit one_active 7 3).1, Ok tt)) as E
    by (vm_compute; reflexivity).
  assert (table_wf one_active) as Hw by done.
  exact (commit_publishes_atomically one_active 7 3 _ (OwnerTransaction 7) None 5 Hw E).
Defined.
