(* ===== verification/UndoStore.v ===== *)
(** * The append-only undo store

    Models [crates/seerdb/src/vnext/undo_store.rs] over the file model of [Fs]: the
    before-image frames, append with its fence, indexed reads, the durability
    barrier, and the open-time scan that repairs an incomplete final frame.  The
    component lease of [create] and [open] is [Store]'s; the incarnation it
    carries is an argument. *)
From S2P Require Import Prelude StdCollections Ids Crc Store Fs Log WriteSet Shards Mvcc.

Local Open Scope Z_scope.
Local Open Scope seer_scope.

Definition FRAME_MAGIC : bytes := [u8 79; u8 77; u8 85; u8 49].
Definition FRAME_VERSION : Z := 2.
Definition UNDO_CHECKSUM_OFFSET : nat := 20.
Definition FRAME_HEADER_SIZE : nat := 24.
Definition FRAME_CHECKSUM_SIZE : nat := 4.
Definition MAX_UNDO_RECORD_BYTES : Z := 16 * 1024 * 1024.
Definition UNDO_HEADER_MAGIC : bytes := [u8 79; u8 77; u8 85; u8 65].
Definition UNDO_HEADER_BYTES : nat := 32.

(** [undo.log] *)
Definition UNDO_FILE : Z := 0.

Record UndoFrame := { uf_offset : Z; uf_length : Z }.

Inductive UndoIoOperation := UndoOpen | UndoAppend | UndoRead | UndoSync | UndoRepair.

(** The reason of an [UndoStoreError::Corruption]. *)
Inductive UndoCorruption :=
| CorruptMagic | CorruptVersion | CorruptHeaderChecksum | CorruptMissingId | CorruptNotContiguous
| CorruptMissingLength | CorruptSizeBound | CorruptOverflow | CorruptTruncated | CorruptIdDisagrees
| CorruptLengthDisagrees | CorruptChecksum.

Inductive UndoStoreError :=
| UndoFenced
| UndoReservedVersion
| UndoMissingVersion (id : VersionId)
| UndoInvalidPredecessor (version previous : VersionId)
| UndoVersionIdExhausted
| UndoFileOffsetExhausted
| UndoRecordTooLarge
| UndoCorrupt (reason : UndoCorruption)
| UndoStoreError_Store (e : StoreError)
| UndoCodec (e : MvccCodecError)
| UndoPoisoned
| UndoIo (operation : UndoIoOperation) (source : IoErrorKind).

Record UndoStore := {
  us_store : bytes;
  us_index : list UndoFrame;
  us_end_offset : Z;
  us_durable_version : Z;
  us_fenced : bool;
  us_poisoned : bool
}.

(** [.map_err(|source| UndoStoreError::Io { operation, source })] *)
Definition undo_io {A} (operation : UndoIoOperation) (c : Fs * result A IoErrorKind)
    : Fs * result A UndoStoreError :=
  (c.1, map_err (UndoIo operation) c.2).

(** [self.fenced.store(true)] *)
Definition undo_fence (st : UndoStore) : UndoStore :=
  {| us_store := us_store st; us_index := us_index st; us_end_offset := us_end_offset st;
     us_durable_version := us_durable_version st; us_fenced := true; us_poisoned := us_poisoned st |}.

Definition undo_ensure_open (st : UndoStore) : result unit UndoStoreError :=
  if us_fenced st then Err UndoFenced else Ok tt.

Definition version_index (id : VersionId) : result Z UndoStoreError :=
  if id =? 0 then Err UndoReservedVersion else Ok (id - 1).

Definition validate_predecessor (record : MvccRecord) (version : VersionId)
    : result unit UndoStoreError :=
  match mr_undo_head record with
  | Some previous =>
      if (previous =? 0) || (version <=? previous)
      then Err (UndoInvalidPredecessor version previous) else Ok tt
  | None => Ok tt
  end.

(** ** Frames *)
Section frames.
Context `{Crc32c}.

Definition frame_head (id : VersionId) (payload_len : Z) : bytes :=
  FRAME_MAGIC ++ [u8 FRAME_VERSION; u8 0] ++ u16_le 0 ++ u64_le id ++ u32_le payload_len.

Definition encode_frame (id : VersionId) (payload : bytes) : result bytes UndoStoreError :=
  if MAX_UNDO_RECORD_BYTES <? len payload then Err UndoRecordTooLarge
  else
    let? payload_len := ok_or (u32_try_from (len payload)) UndoRecordTooLarge in
    let? _ := ok_or (c ← checked_add (Z.of_nat FRAME_HEADER_SIZE) (len payload);
                     checked_add c (Z.of_nat FRAME_CHECKSUM_SIZE)) UndoRecordTooLarge in
    let head := frame_head id payload_len in
    let body := head ++ u32_le (crc32c head) ++ payload in
    Ok (body ++ u32_le (crc32c body)).

Definition validate_header (header : bytes) : result unit UndoStoreError :=
  if negb (bool_decide (length header = FRAME_HEADER_SIZE))
     || negb (bool_decide (take 4 header = FRAME_MAGIC)) then Err (UndoCorrupt CorruptMagic)
  else if negb (byte_at header 4 =? FRAME_VERSION) || negb (byte_at header 5 =? 0)
          || negb (bool_decide (take 2 (drop 6 header) = [u8 0; u8 0]))
  then Err (UndoCorrupt CorruptVersion)
  else if negb (bool_decide (read_u32 header UNDO_CHECKSUM_OFFSET
                             = Some (crc32c (take UNDO_CHECKSUM_OFFSET header))))
  then Err (UndoCorrupt CorruptHeaderChecksum)
  else Ok tt.

Definition validate_complete_frame (frame : bytes) (expected_id : VersionId)
    : result MvccRecord UndoStoreError :=
  if bool_decide (length frame < FRAME_HEADER_SIZE + FRAME_CHECKSUM_SIZE)%nat
  then Err (UndoCorrupt CorruptTruncated)
  else
    let header := take FRAME_HEADER_SIZE frame in
    let? _ := validate_header header in
    let? raw_id := ok_or (read_u64 header 8) (UndoCorrupt CorruptMissingId) in
    if negb (raw_id =? expected_id) then Err (UndoCorrupt CorruptIdDisagrees)
    else
      let? payload_len := ok_or (read_u32 header 16) (UndoCorrupt CorruptMissingLength) in
      let? expected_len := ok_or (c ← checked_add (Z.of_nat FRAME_HEADER_SIZE) payload_len;
                                  checked_add c (Z.of_nat FRAME_CHECKSUM_SIZE))
                             (UndoCorrupt CorruptOverflow) in
      if negb (len frame =? expected_len) then Err (UndoCorrupt CorruptLengthDisagrees)
      else
        let checksum_offset := Z.to_nat (expected_len - Z.of_nat FRAME_CHECKSUM_SIZE) in
        let stored := le_combine (drop checksum_offset frame) in
        if negb (crc32c (take checksum_offset frame) =? stored)
        then Err (UndoCorrupt CorruptChecksum)
        else
          let? record := map_err UndoCodec
            (record_from_bytes (drop FRAME_HEADER_SIZE (take checksum_offset frame))) in
          let? _ := validate_predecessor record expected_id in
          Ok record.

(** ** Opening *)
Definition undo_create (incarnation : bytes) (fs : Fs) : Fs * result UndoStore UndoStoreError :=
  do? (fs, _) := undo_io UndoOpen (fs_create_new UNDO_FILE fs) in
  let header := encode_bound_header UNDO_HEADER_MAGIC incarnation in
  do? (fs, _) := undo_io UndoOpen (fs_write_at UNDO_FILE 0 header fs) in
  do? (fs, _) := undo_io UndoOpen (fs_sync_file UNDO_FILE fs) in
  do? (fs, _) := undo_io UndoOpen (fs_sync_dir fs) in
  do? (fs, _) := undo_io UndoOpen (fs_check fs) in
  (fs, Ok {| us_store := incarnation; us_index := []; us_end_offset := Z.of_nat UNDO_HEADER_BYTES;
             us_durable_version := 0; us_fenced := false; us_poisoned := false |}).

Definition repair_tail (index : list UndoFrame) (valid_len : Z) (fs : Fs)
    : Fs * result (list UndoFrame * Z) UndoStoreError :=
  do? (fs, _) := undo_io UndoRepair (fs_set_len UNDO_FILE (Z.to_nat valid_len) fs) in
  do? (fs, _) := undo_io UndoRepair (fs_sync_file UNDO_FILE fs) in
  (fs, Ok (index, valid_len)).

(** The loop of [scan_and_repair] over the file [content]; every round consumes at
    least 28 bytes, so one round per byte is enough.  A read takes one entry of
    the fault schedule. *)
Fixpoint scan_loop (fuel : nat) (content : bytes) (offset : Z) (index : list UndoFrame) (fs : Fs)
    : Fs * result (list UndoFrame * Z) UndoStoreError :=
  match fuel with
  | O => (fs, Err (UndoCorrupt CorruptTruncated))
  | S fuel' =>
      if len content <=? offset then (fs, Ok (index, offset))
      else
        let remaining := len content - offset in
        if remaining <? Z.of_nat FRAME_HEADER_SIZE then repair_tail index offset fs
        else
          do? (fs, _) := undo_io UndoOpen (fs_check fs) in
          let header := take FRAME_HEADER_SIZE (drop (Z.to_nat offset) content) in
          match validate_header header with
          | Err e => (fs, Err e)
          | Ok _ =>
              match ok_or (read_u64 header 8) (UndoCorrupt CorruptMissingId),
                    ok_or (checked_add (len index) 1) UndoVersionIdExhausted with
              | Err e, _ => (fs, Err e)
              | _, Err e => (fs, Err e)
              | Ok raw_id, Ok expected_id =>
                  if negb (raw_id =? expected_id) then (fs, Err (UndoCorrupt CorruptNotContiguous))
                  else
                    match ok_or (read_u32 header 16) (UndoCorrupt CorruptMissingLength) with
                    | Err e => (fs, Err e)
                    | Ok payload_len =>
                        if MAX_UNDO_RECORD_BYTES <? payload_len
                        then (fs, Err (UndoCorrupt CorruptSizeBound))
                        else
                          match (c ← checked_add (Z.of_nat FRAME_HEADER_SIZE) payload_len;
                                 checked_add c (Z.of_nat FRAME_CHECKSUM_SIZE)) with
                          | None => (fs, Err (UndoCorrupt CorruptOverflow))
                          | Some frame_len =>
                              if remaining <? frame_len then repair_tail index offset fs
                              else
                                do? (fs, _) := undo_io UndoOpen (fs_check fs) in
                                let frame := take (Z.to_nat frame_len)
                                               (drop (Z.to_nat offset) content) in
                                match validate_complete_frame frame raw_id with
                                | Err e => (fs, Err e)
                                | Ok _ =>
                                    scan_loop fuel' content (offset + frame_len)
                                      (index ++ [{| uf_offset := offset; uf_length := frame_len |}]) fs
                                end
                          end
                    end
              end
          end
  end.

(** The bytes the open file descriptor sees. *)
Definition undo_content (fs : Fs) : bytes :=
  match BTreeMap.get UNDO_FILE (fs_files fs) with Some f => f_bytes f | None => [] end.

Definition scan_and_repair (fs : Fs) : Fs * result (list UndoFrame * Z) UndoStoreError :=
  do? (fs, _) := undo_io UndoOpen (fs_check fs) in
  do? (fs, _) := undo_io UndoOpen (fs_check fs) in
  scan_loop (S (length (undo_content fs))) (undo_content fs) (Z.of_nat UNDO_HEADER_BYTES) [] fs.

Definition undo_open (incarnation : bytes) (fs : Fs) : Fs * result UndoStore UndoStoreError :=
  if negb (BTreeMap.contains_key UNDO_FILE (fs_files fs)) then (fs, Err (UndoIo UndoOpen NotFound))
  else
    do? (fs, _) := undo_io UndoOpen (fs_check fs) in
    do? (fs, content) := undo_io UndoOpen (fs_read UNDO_FILE fs) in
    match decode_bound_header (take UNDO_HEADER_BYTES content) UNDO_HEADER_MAGIC with
    | Err e => (fs, Err (UndoStoreError_Store e))
    | Ok decoded =>
        if negb (bool_decide (decoded = incarnation))
        then (fs, Err (UndoStoreError_Store (StoreForeignIncarnation incarnation decoded)))
        else
          do? (fs, scanned) := scan_and_repair fs in
          do? (fs, _) := undo_io UndoOpen (fs_sync_file UNDO_FILE fs) in
          do? (fs, _) := undo_io UndoOpen (fs_check fs) in
          (fs, Ok {| us_store := incarnation; us_index := scanned.1; us_end_offset := scanned.2;
                     us_durable_version := len scanned.1; us_fenced := false;
                     us_poisoned := false |})
    end.

(** ** Operation *)
Definition undo_append (record : MvccRecord) (st : UndoStore) (fs : Fs)
    : UndoStore * Fs * result VersionId UndoStoreError :=
  let checked :=
    let? payload := map_err UndoCodec (record_to_bytes record) in
    if MAX_UNDO_RECORD_BYTES <? len payload then Err UndoRecordTooLarge
    else if us_poisoned st then Err UndoPoisoned
    else
      let? _ := undo_ensure_open st in
      let? id := ok_or (checked_add (len (us_index st)) 1) UndoVersionIdExhausted in
      if id =? 0 then Err UndoVersionIdExhausted
      else
        let? _ := validate_predecessor record id in
        let? frame := encode_frame id payload in
        let? end_offset := ok_or (checked_add (us_end_offset st) (len frame))
                             UndoFileOffsetExhausted in
        Ok (id, frame, end_offset) in
  match checked with
  | Err e => (st, fs, Err e)
  | Ok (id, frame, end_offset) =>
      let offset := us_end_offset st in
      match fs_check fs with
      | (fs, Err e) => (undo_fence st, fs, Err (UndoIo UndoAppend e))
      | (fs, Ok _) =>
          match fs_write_at UNDO_FILE (Z.to_nat offset) frame fs with
          | (fs, Err e) => (undo_fence st, fs, Err (UndoIo UndoAppend e))
          | (fs, Ok _) =>
              ({| us_store := us_store st;
                  us_index := us_index st ++ [{| uf_offset := offset; uf_length := len frame |}];
                  us_end_offset := end_offset; us_durable_version := us_durable_version st;
                  us_fenced := us_fenced st; us_poisoned := us_poisoned st |}, fs, Ok id)
          end
      end
  end.

(** [seek], then [read_exact] of the frame. *)
Definition read_frame (frame : UndoFrame) (expected_id : VersionId) (fs : Fs)
    : Fs * result MvccRecord UndoStoreError :=
  do? (fs, _) := undo_io UndoRead (fs_check fs) in
  do? (fs, content) := undo_io UndoRead (fs_read UNDO_FILE fs) in
  match slice content (Z.to_nat (uf_offset frame)) (Z.to_nat (uf_length frame)) with
  | None => (fs, Err (UndoIo UndoRead OtherIo))
  | Some bs => (fs, validate_complete_frame bs expected_id)
  end.

Definition undo_get (id : VersionId) (st : UndoStore) (fs : Fs)
    : Fs * result MvccRecord UndoStoreError :=
  match version_index id with
  | Err e => (fs, Err e)
  | Ok index =>
      if us_poisoned st then (fs, Err UndoPoisoned)
      else
        match us_index st !! Z.to_nat index with
        | None => (fs, Err (UndoMissingVersion id))
        | Some frame => read_frame frame id fs
        end
  end.

Definition undo_sync_through (id : VersionId) (st : UndoStore) (fs : Fs)
    : UndoStore * Fs * result VersionId UndoStoreError :=
  match version_index id with
  | Err e => (st, fs, Err e)
  | Ok requested =>
      if us_poisoned st then (st, fs, Err UndoPoisoned)
      else
        match undo_ensure_open st with
        | Err e => (st, fs, Err e)
        | Ok _ =>
            if len (us_index st) <=? requested then (st, fs, Err (UndoMissingVersion id))
            else if id <=? us_durable_version st then (st, fs, Ok (us_durable_version st))
            else
              match fs_sync_file UNDO_FILE fs with
              | (fs, Err e) => (undo_fence st, fs, Err (UndoIo UndoSync e))
              | (fs, Ok _) =>
                  ({| us_store := us_store st; us_index := us_index st;
                      us_end_offset := us_end_offset st;
                      us_durable_version := len (us_index st); us_fenced := us_fenced st;
                      us_poisoned := us_poisoned st |}, fs, Ok (len (us_index st)))
              end
        end
  end.

Definition undo_durable_version (st : UndoStore) : option VersionId :=
  if negb (us_durable_version st =? 0) then Some (us_durable_version st) else None.
End frames.

(** ** Frames and their records *)
Ltac undo_lia :=
  unfold MAX_UNDO_RECORD_BYTES, FRAME_HEADER_SIZE, FRAME_CHECKSUM_SIZE, UNDO_HEADER_BYTES, U64_MAX,
    U32_MAX, is_u32, is_u64 in *; lia.

Section frame_codec.
Context `{Crc32c}.

Definition frame_bytes (id : VersionId) (payload : bytes) : bytes :=
  let head := frame_head id (len payload) in
  let body := head ++ u32_le (crc32c head) ++ payload in
  body ++ u32_le (crc32c body).

(** [fr] is the frame of record [r] with version [id]. *)
Definition undo_frame (id : VersionId) (r : MvccRecord) (fr : bytes) : Prop :=
  is_u64 id ∧ wf_mvcc r ∧ validate_predecessor r id = Ok tt ∧
  ∃ p, record_to_bytes r = Ok p ∧ len p ≤ MAX_UNDO_RECORD_BYTES ∧ fr = frame_bytes id p.

Lemma encode_frame_Ok id p fr :
  encode_frame id p = Ok fr ↔ len p ≤ MAX_UNDO_RECORD_BYTES ∧ fr = frame_bytes id p.
Proof.
  unfold encode_frame. pose proof (len_nonneg p).
  destruct (_ <? len p) eqn:E; bool_to_prop; [split; [done|lia]|].
  assert (u32_try_from (len p) = Some (len p)) as -> by (apply u32_try_from_Some; undo_lia).
  assert (checked_add (Z.of_nat FRAME_HEADER_SIZE) (len p) = Some (24 + len p)) as ->
    by (apply checked_add_Some; undo_lia).
  cbn [mbind option_bind].
  assert (checked_add (24 + len p) (Z.of_nat FRAME_CHECKSUM_SIZE) = Some (28 + len p)) as ->
    by (apply checked_add_Some; undo_lia).
  cbn [ok_or]. fold (frame_bytes id p). naive_solver.
Qed.

Lemma length_frame_head id n : length (frame_head id n) = 20%nat.
Proof. unfold frame_head. by rewrite !length_app, length_u16_le, length_u64_le, length_u32_le. Qed.

Lemma length_frame_bytes id p : length (frame_bytes id p) = (28 + length p)%nat.
Proof.
  unfold frame_bytes. rewrite !length_app, length_frame_head, !length_u32_le. lia.
Qed.

(** The first 24 bytes of a frame. *)
Lemma take_frame_head id p :
  take 24 (frame_bytes id p) = frame_head id (len p) ++ u32_le (crc32c (frame_head id (len p))).
Proof.
  unfold frame_bytes. rewrite <-!app_assoc. rewrite app_assoc. apply take_app_length'.
  by rewrite length_app, length_frame_head, length_u32_le.
Qed.

Lemma frame_head_fields id n :
  is_u64 id → is_u32 n →
  let h := frame_head id n ++ u32_le (crc32c (frame_head id n)) in
  validate_header h = Ok tt ∧ read_u64 h 8 = Some id ∧ read_u32 h 16 = Some n.
Proof.
  intros Hid Hn h.
  assert (h = FRAME_MAGIC ++ [u8 FRAME_VERSION; u8 0; u8 0; u8 0] ++ u64_le id ++ u32_le n
    ++ u32_le (crc32c (frame_head id n))) as Eh.
  { unfold h, frame_head. by rewrite <-!app_assoc. }
  split_and!.
  - unfold validate_header.
    assert (length h = 24%nat) as Hl by (unfold h; by rewrite length_app, length_frame_head, length_u32_le).
    rewrite Hl. rewrite bool_decide_eq_true_2 by done.
    assert (take 4 h = FRAME_MAGIC) as -> by (by rewrite Eh).
    rewrite bool_decide_eq_true_2 by done. cbn [negb orb].
    assert (byte_at h 4 = FRAME_VERSION) as -> by (by rewrite Eh).
    assert (byte_at h 5 = 0) as -> by (by rewrite Eh).
    assert (take 2 (drop 6 h) = [u8 0; u8 0]) as -> by (by rewrite Eh).
    rewrite bool_decide_eq_true_2 by done. rewrite !Z.eqb_refl. cbn [negb orb].
    assert (take UNDO_CHECKSUM_OFFSET h = frame_head id n) as ->.
    { unfold h, UNDO_CHECKSUM_OFFSET. apply take_app_length'. by rewrite length_frame_head. }
    rewrite bool_decide_eq_true_2; [done|]. unfold read_u32, h, UNDO_CHECKSUM_OFFSET.
    rewrite (slice_app_skip _ _ _ _ 20) by (rewrite ?length_frame_head; lia).
    rewrite slice_all by (rewrite ?length_u32_le; lia). cbn.
    f_equal. apply le_u32_roundtrip, crc32c_u32.
  - rewrite Eh. unfold FRAME_MAGIC. by read_field.
  - rewrite Eh. unfold FRAME_MAGIC. by read_field.
Qed.

Lemma validate_undo_frame id r fr :
  undo_frame id r fr → validate_complete_frame fr id = Ok r.
Proof.
  intros (Hid & Hw & Hpred & p & Hp & Hmax & ->).
  assert (is_u32 (len p)) as Hlp by (pose proof (len_nonneg p); undo_lia).
  unfold validate_complete_frame. rewrite length_frame_bytes.
  rewrite bool_decide_eq_false_2 by undo_lia.
  change (take FRAME_HEADER_SIZE (frame_bytes id p)) with (take 24 (frame_bytes id p)).
  rewrite take_frame_head.
  destruct (frame_head_fields id (len p) Hid Hlp) as (-> & -> & ->). cbn [ok_or].
  rewrite Z.eqb_refl. cbn [negb].
  assert (checked_add (Z.of_nat FRAME_HEADER_SIZE) (len p) = Some (24 + len p)) as ->
    by (apply checked_add_Some; undo_lia).
  cbn [mbind option_bind].
  assert (checked_add (24 + len p) (Z.of_nat FRAME_CHECKSUM_SIZE) = Some (28 + len p)) as ->
    by (apply checked_add_Some; undo_lia).
  cbn [ok_or].
  assert (len (frame_bytes id p) = 28 + len p) as ->
    by (unfold len; rewrite length_frame_bytes; lia).
  rewrite Z.eqb_refl. cbn [negb].
  assert (Z.to_nat (28 + len p - Z.of_nat FRAME_CHECKSUM_SIZE) = (24 + length p)%nat) as ->
    by (unfold len; undo_lia).
  unfold frame_bytes. set (head := frame_head id (len p)). cbv zeta.
  set (body := head ++ u32_le (crc32c head) ++ p).
  assert (length body = (24 + length p)%nat) as Hb.
  { unfold body, head. rewrite !length_app, length_u32_le, length_frame_head. lia. }
  rewrite (take_app_length' body), (drop_app_length' body) by done.
  rewrite le_u32_roundtrip, Z.eqb_refl by apply crc32c_u32. cbn [negb].
  assert (drop FRAME_HEADER_SIZE body = p) as ->.
  { unfold body. rewrite app_assoc. apply drop_app_length'.
    unfold head. by rewrite length_app, length_u32_le, length_frame_head. }
  rewrite (record_codec_forward r p) by done. cbn [map_err]. by rewrite Hpred.
Qed.

Lemma len_undo_frame id r fr : undo_frame id r fr → 28 ≤ len fr ≤ 28 + MAX_UNDO_RECORD_BYTES.
Proof.
  intros (_ & _ & _ & p & _ & Hm & ->). unfold len in *. rewrite length_frame_bytes. lia.
Qed.

(** The frames of records with versions from [n + 1] on. *)
Fixpoint is_frames (n : Z) (recs : list MvccRecord) (frs : list bytes) : Prop :=
  match recs, frs with
  | [], [] => True
  | r :: recs', fr :: frs' => undo_frame (n + 1) r fr ∧ is_frames (n + 1) recs' frs'
  | _, _ => False
  end.

Fixpoint index_from (offset : Z) (frs : list bytes) : list UndoFrame :=
  match frs with
  | [] => []
  | fr :: frs' =>
      {| uf_offset := offset; uf_length := len fr |} :: index_from (offset + len fr) frs'
  end.

Lemma is_frames_length n recs frs : is_frames n recs frs → length recs = length frs.
Proof.
  revert n frs. induction recs as [|r recs IH]; intros n [|fr frs]; cbn; try done.
  intros [_ H']. f_equal. by eapply IH.
Qed.

Lemma is_frames_take n recs frs k :
  is_frames n recs frs → is_frames n (take k recs) (take k frs).
Proof.
  revert n frs k. induction recs as [|r recs IH]; intros n [|fr frs] [|k]; cbn; try done.
  intros [? ?]. split; [done|by apply IH].
Qed.

Lemma is_frames_lookup n recs frs k r fr :
  is_frames n recs frs → recs !! k = Some r → frs !! k = Some fr →
  undo_frame (n + Z.of_nat k + 1) r fr.
Proof.
  revert n frs k. induction recs as [|r' recs IH]; intros n [|fr' frs] [|k]; cbn; try done.
  - intros [Hf _] [= ->] [= ->]. by replace (n + Z.of_nat 0 + 1) with (n + 1) by lia.
  - intros [_ Hf] Hr Hfr. replace (n + Z.of_nat (S k) + 1) with (n + 1 + Z.of_nat k + 1) by lia.
    by eapply IH.
Qed.

Lemma is_frames_snoc n recs frs r fr :
  is_frames n recs frs → undo_frame (n + len recs + 1) r fr →
  is_frames n (recs ++ [r]) (frs ++ [fr]).
Proof.
  revert n frs. induction recs as [|r' recs IH]; intros n [|fr' frs]; cbn; try done.
  - unfold len. cbn. by rewrite Z.add_0_r.
  - intros [? ?] Hf. split; [done|]. apply IH; [done|].
    replace (n + 1 + len recs + 1) with (n + len (r' :: recs) + 1); [done|unfold len; cbn; lia].
Qed.

Lemma index_from_app o frs frs' :
  index_from o (frs ++ frs') = index_from o frs ++ index_from (o + len (concat frs)) frs'.
Proof.
  revert o. induction frs as [|fr frs IH]; intros o; cbn.
  - unfold len. cbn. by rewrite Z.add_0_r.
  - rewrite IH. rewrite len_app. by rewrite Z.add_assoc.
Qed.

Lemma index_from_length o frs : length (index_from o frs) = length frs.
Proof. revert o. induction frs as [|fr frs IH]; intros o; cbn; [done|by rewrite IH]. Qed.

Lemma index_from_lookup o frs k fr :
  frs !! k = Some fr →
  index_from o frs !! k = Some {| uf_offset := o + len (concat (take k frs)); uf_length := len fr |}.
Proof.
  revert o k. induction frs as [|fr' frs IH]; intros o [|k]; cbn; try done.
  - intros [= ->]. unfold len. cbn. by rewrite Z.add_0_r.
  - intros Hk. rewrite (IH _ _ Hk). rewrite len_app. by rewrite Z.add_assoc.
Qed.
End frame_codec.

(** ** The store as a list of records *)
Section refinement.
Context `{Crc32c}.

Definition undo_hdr (i : bytes) : bytes := encode_bound_header UNDO_HEADER_MAGIC i.
#[local] Arguments undo_hdr : simpl never.

(** The file starts with the frames of [recs], all of them indexed; [torn] is the
    record of a failed append, of whose frame the file holds any prefix. *)
Definition undo_inv (fs : Fs) (st : UndoStore) (recs torn : list MvccRecord) : Prop :=
  wf_incarnation (us_store st) ∧ (us_fenced st = false → torn = []) ∧
  ∃ f frs m,
    BTreeMap.get UNDO_FILE (fs_files fs) = Some f ∧ is_frames 0 (recs ++ torn) frs ∧
    f_bytes f = take m (undo_hdr (us_store st) ++ concat frs) ∧
    (32 + length (concat (take (length recs) frs)) ≤ m ≤ 32 + length (concat frs))%nat ∧
    us_end_offset st = 32 + len (concat (take (length recs) frs)) ∧
    us_index st = index_from 32 (take (length recs) frs) ∧
    0 ≤ us_durable_version st ≤ len recs ∧
    (32 + length (concat (take (Z.to_nat (us_durable_version st)) frs)) ≤ f_synced f)%nat.

Lemma length_undo_hdr i : wf_incarnation i → length (undo_hdr i) = 32%nat.
Proof. intros [Hl _]. by apply length_bound_header. Qed.

(** An open store has exactly the frames of its records in the file. *)
Lemma undo_inv_open fs st recs torn :
  undo_inv fs st recs torn → us_fenced st = false →
  torn = [] ∧ ∃ f frs, BTreeMap.get UNDO_FILE (fs_files fs) = Some f ∧ is_frames 0 recs frs ∧
    f_bytes f = undo_hdr (us_store st) ++ concat frs ∧
    us_end_offset st = 32 + len (concat frs) ∧ us_index st = index_from 32 frs ∧
    0 ≤ us_durable_version st ≤ len recs ∧
    (32 + length (concat (take (Z.to_nat (us_durable_version st)) frs)) ≤ f_synced f)%nat.
Proof.
  intros (Hi & Ht & f & frs & m & Hg & Hfr & Hb & Hm & He & Hx & Hd & Hs) Hf.
  specialize (Ht Hf) as ->. split; [done|]. rewrite app_nil_r in Hfr.
  pose proof (is_frames_length _ _ _ Hfr) as Hlen.
  assert (take (length recs) frs = frs) as Htake by (apply take_ge; lia). rewrite Htake in *.
  exists f, frs. rewrite take_ge in Hb by (rewrite length_app, length_undo_hdr by done; lia).
  split_and!; done || lia.
Qed.

(** What [append] has established when it reaches the file. *)
Lemma undo_append_checked st r id frame endo :
  (let? payload := map_err UndoCodec (record_to_bytes r) in
   if MAX_UNDO_RECORD_BYTES <? len payload then Err UndoRecordTooLarge
   else if us_poisoned st then Err UndoPoisoned
   else
     let? _ := undo_ensure_open st in
     let? id := ok_or (checked_add (len (us_index st)) 1) UndoVersionIdExhausted in
     if id =? 0 then Err UndoVersionIdExhausted
     else
       let? _ := validate_predecessor r id in
       let? frame := encode_frame id payload in
       let? end_offset := ok_or (checked_add (us_end_offset st) (len frame))
                            UndoFileOffsetExhausted in
       Ok (id, frame, end_offset)) = Ok (id, frame, endo) →
  wf_mvcc r →
  us_fenced st = false ∧ us_poisoned st = false ∧ id = len (us_index st) + 1 ∧
  undo_frame id r frame ∧ endo = us_end_offset st + len frame.
Proof.
  intros E Hw. destruct (record_to_bytes r) as [p|] eqn:Ep; cbn [map_err] in E; [|done].
  destruct (_ <? len p) eqn:El; [done|]. destruct (us_poisoned st); [done|].
  unfold undo_ensure_open in E. destruct (us_fenced st); [done|].
  destruct (checked_add (len _) 1) as [i|] eqn:Ei; cbn [ok_or] in E; [|done].
  apply checked_add_Some in Ei as [-> Hmax]. destruct (_ =? 0) eqn:E0; [done|].
  destruct (validate_predecessor r _) as [[]|] eqn:Ev; [|done].
  destruct (encode_frame _ p) as [fr|] eqn:Ef; [|done]. apply encode_frame_Ok in Ef as [Hlp ->].
  destruct (checked_add (us_end_offset st) _) as [e|] eqn:Ee; cbn [ok_or] in E; [|done].
  apply checked_add_Some in Ee as [-> _]. injection E as <- <- <-.
  split_and!; [done..| |done]. pose proof (len_nonneg (us_index st)).
  unfold undo_frame. split_and!; [undo_lia|done|done|by exists p].
Qed.

Lemma concat_take_le {A} k (ls : list (list A)) :
  (length (concat (take k ls)) ≤ length (concat ls))%nat.
Proof. rewrite <-(take_drop k ls) at 2. rewrite concat_app, length_app. lia. Qed.

Lemma concat_take_step {A} (ls : list (list A)) k j e :
  ls !! k = Some e → (k < j)%nat →
  (length (concat (take k ls)) + length e ≤ length (concat (take j ls)))%nat.
Proof.
  intros He Hj. rewrite <-(take_drop_middle (take j ls) k e) by (by rewrite lookup_take_lt).
  rewrite concat_app, take_take, Nat.min_l by lia. cbn [concat]. rewrite !length_app. lia.
Qed.

(** The file after [written], a prefix of the frame of [r], was put behind the
    frames of [recs]. *)
Lemma undo_inv_written fs st recs torn kept r f frs frame n :
  wf_incarnation (us_store st) → (us_fenced st = false → torn = []) →
  is_frames 0 recs frs → undo_frame (len recs + 1) r frame → (n ≤ length frame)%nat →
  BTreeMap.get UNDO_FILE (fs_files fs) = Some f →
  f_bytes f = (undo_hdr (us_store st) ++ concat frs) ++ take n frame →
  kept ++ torn = recs ++ [r] → (length recs ≤ length kept)%nat → (torn = [] → n = length frame) →
  us_index st = index_from 32 (take (length kept) (frs ++ [frame])) →
  us_end_offset st = 32 + len (concat (take (length kept) (frs ++ [frame]))) →
  0 ≤ us_durable_version st ≤ len recs →
  (32 + length (concat (take (Z.to_nat (us_durable_version st)) frs)) ≤ f_synced f)%nat →
  undo_inv fs st kept torn.
Proof.
  intros Hi Ht Hfr Hframe Hn Hg Hb Heq Hk Hfull Hx He Hd Hs. split; [done|]. split; [done|].
  pose proof (is_frames_length _ _ _ Hfr) as Hlen.
  assert (length kept + length torn = S (length recs))%nat as Hl2.
  { rewrite <-length_app, Heq, length_app. cbn. lia. }
  exists f, (frs ++ [frame]), (32 + length (concat frs) + n)%nat. rewrite Heq.
  assert (concat (frs ++ [frame]) = concat frs ++ frame) as Hcat
    by (rewrite concat_app; cbn; by rewrite app_nil_r).
  split_and!; [done|by apply is_frames_snoc| | | |done|done|lia|unfold len in *; lia|].
  - rewrite Hb, Hcat, app_assoc.
    rewrite (take_app_ge (undo_hdr (us_store st) ++ concat frs))
      by (rewrite length_app, length_undo_hdr by done; lia).
    f_equal. f_equal. rewrite length_app, length_undo_hdr by done. lia.
  - destruct (decide (length kept = length recs)) as [E|E].
    + rewrite E, Hlen, take_app_length. lia.
    + assert (torn = []) as Htn by (destruct torn; [done|cbn in Hl2; lia]).
      rewrite take_ge by (rewrite length_app; cbn; lia).
      rewrite Hcat, length_app, (Hfull Htn). lia.
  - rewrite Hcat, length_app. lia.
  - rewrite take_app_le by (unfold len in Hd; lia). done.
Qed.

Lemma undo_append_inv fs st recs torn r st' fs' res :
  undo_inv fs st recs torn → wf_mvcc r → undo_append r st fs = (st', fs', res) →
  us_store st' = us_store st ∧ us_durable_version st' = us_durable_version st ∧
  match res with
  | Ok id => id = len recs + 1 ∧ torn = [] ∧ undo_inv fs' st' (recs ++ [r]) []
  | Err _ => undo_inv fs' st' recs torn ∨ torn = [] ∧ undo_inv fs' st' recs [r]
  end.
Proof.
  intros Hinv Hw. unfold undo_append.
  destruct (let? payload := map_err UndoCodec (record_to_bytes r) in _) as [[[id frame] endo]|e] eqn:Ec.
  2:{ intros [= <- <- <-]. auto. }
  apply undo_append_checked in Ec as (Hf & Hpz & -> & Hframe & ->); [|done].
  pose proof Hinv as (Hi & _ & _).
  destruct (undo_inv_open _ _ _ _ Hinv Hf) as (-> & f & frs & Hg & Hfr & Hb & He & Hx & Hd & Hs).
  pose proof (is_frames_length _ _ _ Hfr) as Hlen.
  assert (len (us_index st) = len recs) as Hix
    by (unfold len; by rewrite Hx, index_from_length, Hlen). rewrite Hix in *.
  destruct (fs_check fs) as [fs1 [[]|e]] eqn:Ek; apply fs_check_files in Ek.
  2:{ intros [= <- <- <-]. split_and!; [done..|]. left. destruct Hinv as (_ & _ & Hex).
      split; [done|]. split; [done|]. cbn. by rewrite Ek. }
  rewrite <-Ek in Hg.
  destruct (fs_write_at _ _ frame fs1) as [fs2 rr] eqn:Ew.
  apply (fs_write_at_cases _ _ _ _ _ _ f) in Ew as (written & Hfs2 & Hres); [|done].
  assert (Z.to_nat (us_end_offset st) = length (f_bytes f)) as Hend.
  { rewrite He, Hb, length_app, length_undo_hdr by done. unfold len. lia. }
  rewrite Hend, splice_end, Hb in Hfs2.
  pose proof (concat_take_le (Z.to_nat (us_durable_version st)) frs) as Hmono.
  pose proof (length_undo_hdr _ Hi) as Hhdr.
  assert (BTreeMap.get UNDO_FILE (fs_files fs2) = Some
    {| f_bytes := (undo_hdr (us_store st) ++ concat frs) ++ written;
       f_synced := Nat.min (f_synced f) (length (undo_hdr (us_store st) ++ concat frs)) |}) as Hg2
    by (by rewrite Hfs2, BTreeMap.get_insert_eq).
  rewrite length_app, Hhdr in Hg2.
  destruct rr as [[]|e]; intros [= <- <- <-]; (split_and!; [done..|]).
  - destruct Hres as [[_ ->]|[? _]]; [|done].
    eapply (undo_inv_written _ _ recs _ _ r _ frs frame (length frame));
      [done|done|done|done|done|exact Hg2|by rewrite firstn_all|by rewrite app_nil_r
      |rewrite length_app; lia|done| | |done|cbn [f_synced us_durable_version]; lia].
    all: cbn [us_index us_end_offset]; rewrite take_ge by (rewrite !length_app; cbn; lia).
    + rewrite index_from_app. cbn [index_from]. congruence.
    + rewrite concat_app, len_app. cbn [concat]. rewrite app_nil_r. lia.
  - right. split; [done|]. destruct Hres as [[? _]|(_ & n & ->)]; [done|].
    eapply (undo_inv_written _ _ recs _ _ r _ frs frame (Nat.min n (length frame)));
      [done|done|done|done|lia|exact Hg2| |done|lia|done| | |done
      |cbn [f_synced us_durable_version undo_fence]; lia].
    + cbn [f_bytes us_store undo_fence]. f_equal.
      destruct (decide (n ≤ length frame)%nat);
        [by rewrite Nat.min_l by lia|by rewrite Nat.min_r, !take_ge by lia].
    + cbn [us_index undo_fence]. by rewrite Hlen, take_app_length.
    + cbn [us_end_offset undo_fence]. by rewrite Hlen, take_app_length.
Qed.

Lemma undo_sync_inv fs st recs torn id st' fs' res :
  undo_inv fs st recs torn → undo_sync_through id st fs = (st', fs', res) →
  us_store st' = us_store st ∧ undo_inv fs' st' recs torn ∧
  match res with Ok v => id ≤ v ∧ us_durable_version st' = v | Err _ => True end.
Proof.
  intros Hinv. unfold undo_sync_through, version_index.
  destruct (id =? 0) eqn:E0; [by intros [= <- <- <-]|].
  destruct (us_poisoned st); [by intros [= <- <- <-]|]. unfold undo_ensure_open.
  destruct (us_fenced st) eqn:Ef; [by intros [= <- <- <-]|].
  destruct (len (us_index st) <=? id - 1) eqn:El; [by intros [= <- <- <-]|].
  destruct (id <=? us_durable_version st) eqn:Ed; bool_to_prop; [by intros [= <- <- <-]|].
  pose proof Hinv as (Hi & _ & Hex).
  destruct (fs_sync_file UNDO_FILE fs) as [fs1 rr] eqn:Es. apply fs_sync_file_cases in Es.
  destruct Es as [[Hfs Hr]|(-> & f & Hg & Hfs)].
  { destruct rr as [|e]; [done|]. intros [= <- <- <-]. split; [done|]. split; [|done].
    split; [done|]. split; [done|]. cbn. by rewrite Hfs. }
  destruct (undo_inv_open _ _ _ _ Hinv Ef) as (-> & f' & frs & Hg' & Hfr & Hb & He & Hx & Hd & Hs).
  rewrite Hg in Hg'. injection Hg' as <-. pose proof (is_frames_length _ _ _ Hfr) as Hlen.
  assert (len (us_index st) = len recs) as Hix
    by (unfold len; by rewrite Hx, index_from_length, Hlen).
  intros [= <- <- <-]. split; [done|]. split; [|cbn; lia].
  split; [done|]. split; [done|].
  exists {| f_bytes := f_bytes f; f_synced := length (f_bytes f) |}, frs, (32 + length (concat frs))%nat.
  cbn [us_store us_index us_end_offset us_durable_version f_bytes f_synced].
  rewrite Hfs, BTreeMap.get_insert_eq, app_nil_r, Hix.
  rewrite (take_ge frs (length recs)), (take_ge frs (Z.to_nat (len recs))) by (unfold len; lia).
  rewrite Hb, length_app, length_undo_hdr by done.
  split_and!; [done|done| |lia|lia|done|done|apply len_nonneg|lia|lia].
  by rewrite take_ge by (rewrite length_app, length_undo_hdr by done; lia).
Qed.

(** An indexed frame lies in the file. *)
Lemma slice_at (pre fr post : bytes) m n :
  (length pre + length fr ≤ m)%nat → n = length fr →
  slice (take m (pre ++ fr ++ post)) (length pre) n = Some fr.
Proof.
  intros Hm ->. apply slice_Some. rewrite length_take, !length_app. split; [lia|].
  rewrite skipn_firstn_comm, drop_app_length, take_take, Nat.min_l, take_app_length by lia. done.
Qed.

Lemma undo_get_inv fs st recs torn id :
  undo_inv fs st recs torn → us_poisoned st = false → fs_faults fs = [] → 0 < id →
  undo_get id st fs = (fs, match recs !! Z.to_nat (id - 1) with
                           | Some r => Ok r
                           | None => Err (UndoMissingVersion id)
                           end).
Proof.
  intros (Hi & _ & f & frs & m & Hg & Hfr & Hb & Hm & _ & Hx & _) Hp Hfa Hid.
  unfold undo_get, version_index. rewrite (proj2 (Z.eqb_neq _ _)), Hp by lia.
  set (k := Z.to_nat (id - 1)). pose proof (is_frames_length _ _ _ Hfr) as Hlen.
  rewrite length_app in Hlen. destruct (recs !! k) as [r|] eqn:Er.
  2:{ rewrite (proj2 (lookup_ge_None (us_index st) k)); [done|].
      rewrite Hx, index_from_length, length_take. apply lookup_ge_None in Er. lia. }
  pose proof (lookup_lt_Some _ _ _ Er) as Hk.
  destruct (lookup_lt_is_Some_2 frs k) as [fr Hfrk]; [lia|].
  assert ((recs ++ torn) !! k = Some r) as Hall by (by rewrite lookup_app_l).
  pose proof (is_frames_lookup _ _ _ _ _ _ Hfr Hall Hfrk) as Hframe.
  replace (0 + Z.of_nat k + 1) with id in Hframe by lia.
  rewrite Hx, (index_from_lookup 32 _ k fr) by (by rewrite lookup_take_lt).
  rewrite take_take, Nat.min_l by lia. unfold read_frame, undo_io.
  rewrite fs_check_ok by done. cbn [fst snd map_err uf_offset uf_length].
  rewrite (fs_read_ok _ _ f) by done. cbn [fst snd map_err]. rewrite Hb.
  assert (concat frs = concat (take k frs) ++ fr ++ concat (drop (S k) frs)) as Hsplit.
  { rewrite <-(take_drop_middle frs k fr Hfrk) at 1. by rewrite concat_app. }
  assert (length (concat (take k frs)) + length fr ≤ length (concat (take (length recs) frs)))%nat
    as Hle.
  { by apply concat_take_step. }
  rewrite Hsplit, app_assoc.
  replace (Z.to_nat (32 + len (concat (take k frs))))
    with (length (undo_hdr (us_store st) ++ concat (take k frs)))
    by (rewrite length_app, length_undo_hdr by done; unfold len; lia).
  rewrite slice_at; [by rewrite (validate_undo_frame id r fr)| |unfold len; lia].
  rewrite length_app, length_undo_hdr by done. lia.
Qed.

Lemma undo_create_inv i fs fs' st :
  wf_incarnation i → undo_create i fs = (fs', Ok st) →
  undo_inv fs' st [] [] ∧ us_store st = i ∧ us_poisoned st = false ∧ us_fenced st = false.
Proof.
  intros Hi. unfold undo_create, undo_io.
  destruct (fs_create_new UNDO_FILE fs) as [fs1 [[]|]] eqn:E1; cbn [fst snd map_err]; [|done].
  apply fs_create_new_cases in E1 as [[_ [=]]|(_ & _ & H1)].
  destruct (fs_write_at UNDO_FILE 0 _ fs1) as [fs2 [[]|]] eqn:E2; cbn [fst snd map_err]; [|done].
  eapply fs_write_at_cases in E2 as (w & H2 & [[_ ->]|[[=] _]]);
    [|rewrite H1; apply BTreeMap.get_insert_eq].
  destruct (fs_sync_file UNDO_FILE fs2) as [fs3 [[]|]] eqn:E3; cbn [fst snd map_err]; [|done].
  apply fs_sync_file_cases in E3 as [[_ [=]]|(_ & f & Hf & H3)].
  unfold fs_sync_dir.
  destruct (fs_check fs3) as [fs4 [[]|]] eqn:E4; cbn [fst snd map_err]; [|done].
  destruct (fs_check fs4) as [fs5 [[]|]] eqn:E5; cbn [fst snd map_err]; [|done].
  apply fs_check_files in E4, E5. intros [= <- <-]. split; [|done].
  rewrite H2, BTreeMap.get_insert_eq in Hf. injection Hf as <-.
  split; [done|]. split; [done|].
  cbn [us_store us_index us_end_offset us_durable_version].
  exists {| f_bytes := undo_hdr i; f_synced := 32 |}, [], 32%nat.
  pose proof (length_undo_hdr i Hi) as Hl.
  split_and!; [|done| |done..].
  - rewrite E5, E4, H3, BTreeMap.get_insert_eq. cbn [f_bytes]. fold (undo_hdr i).
    rewrite (splice_end [] (undo_hdr i) : splice 0 _ _ = _). cbn [app]. by rewrite Hl.
  - cbn [concat f_bytes]. rewrite app_nil_r, take_ge by lia. done.
Qed.
End refinement.

(** ** Opening after a crash *)
Section reopening.
Context `{Crc32c}.

Lemma drop_pre (pre rest : bytes) : drop (Z.to_nat (len pre)) (pre ++ rest) = rest.
Proof. apply drop_app_length'. unfold len. lia. Qed.

Lemma frame_len_checked n :
  0 ≤ n ≤ MAX_UNDO_RECORD_BYTES →
  (c ← checked_add (Z.of_nat FRAME_HEADER_SIZE) n; checked_add c (Z.of_nat FRAME_CHECKSUM_SIZE))
  = Some (28 + n).
Proof.
  intros Hn. assert (checked_add (Z.of_nat FRAME_HEADER_SIZE) n = Some (24 + n)) as ->
    by (apply checked_add_Some; undo_lia).
  cbn [mbind option_bind]. apply checked_add_Some. undo_lia.
Qed.

(** A round that finds the header of the next frame, with [avail] bytes of the
    frame in the file. *)
Lemma scan_loop_header fuel pre rest index fs r fr :
  fs_faults fs = [] → undo_frame (len index + 1) r fr →
  24 ≤ len rest → take 24 rest = take 24 fr →
  scan_loop (S fuel) (pre ++ rest) (len pre) index fs =
  if len rest <? len fr then repair_tail index (len pre) fs
  else match validate_complete_frame (take (Z.to_nat (len fr)) rest) (len index + 1) with
       | Err e => (fs, Err e)
       | Ok _ => scan_loop fuel (pre ++ rest) (len pre + len fr)
                   (index ++ [{| uf_offset := len pre; uf_length := len fr |}]) fs
       end.
Proof.
  intros Hfa (Hid & _ & _ & p & _ & Hmax & ->) Hlen Htake. cbn [scan_loop].
  pose proof (len_nonneg pre). pose proof (len_nonneg p).
  rewrite (proj2 (Z.leb_gt _ _)) by (rewrite len_app; lia).
  replace (len (pre ++ rest) - len pre) with (len rest) by (rewrite len_app; lia).
  rewrite (proj2 (Z.ltb_ge _ _)) by undo_lia.
  unfold undo_io. rewrite fs_check_ok by done. cbn [fst snd map_err].
  rewrite drop_pre. change (take FRAME_HEADER_SIZE rest) with (take 24 rest).
  rewrite Htake, take_frame_head.
  destruct (frame_head_fields (len index + 1) (len p)) as (-> & -> & ->); [done|undo_lia|].
  assert (checked_add (len index) 1 = Some (len index + 1)) as ->
    by (apply checked_add_Some; undo_lia).
  cbn [ok_or]. rewrite Z.eqb_refl. cbn [negb].
  rewrite (proj2 (Z.ltb_ge _ _)) by lia. rewrite frame_len_checked by lia.
  replace (len (frame_bytes (len index + 1) p)) with (28 + len p)
    by (unfold len at 2; rewrite length_frame_bytes; unfold len; lia).
  by rewrite fs_check_ok.
Qed.

Lemma scan_loop_frame fuel pre post index fs r fr :
  fs_faults fs = [] → undo_frame (len index + 1) r fr →
  scan_loop (S fuel) (pre ++ fr ++ post) (len pre) index fs =
  scan_loop fuel (pre ++ fr ++ post) (len pre + len fr)
    (index ++ [{| uf_offset := len pre; uf_length := len fr |}]) fs.
Proof.
  intros Hfa Hf. pose proof (len_undo_frame _ _ _ Hf). pose proof (len_nonneg post).
  rewrite (scan_loop_header _ _ _ _ _ r fr); [|done|done|rewrite len_app; lia|].
  - rewrite (proj2 (Z.ltb_ge _ _)) by (rewrite len_app; lia).
    rewrite take_app_length' by (unfold len; lia). by rewrite (validate_undo_frame _ r fr).
  - rewrite take_app_le; [done|]. unfold len in *. lia.
Qed.

Lemma scan_loop_torn fuel pre index fs r fr c :
  fs_faults fs = [] → undo_frame (len index + 1) r fr → (0 < c < length fr)%nat →
  scan_loop (S fuel) (pre ++ take c fr) (len pre) index fs = repair_tail index (len pre) fs.
Proof.
  intros Hfa Hf Hc. assert (len (take c fr) = Z.of_nat c) as Hl
    by (unfold len; rewrite length_take; lia).
  destruct (decide (c < 24)%nat).
  - cbn [scan_loop]. rewrite (proj2 (Z.leb_gt _ _)) by (rewrite len_app; lia).
    rewrite (proj2 (Z.ltb_lt _ _)); [done|]. rewrite len_app. undo_lia.
  - rewrite (scan_loop_header _ _ _ _ _ r fr);
      [|done|done|lia|by rewrite take_take, Nat.min_l by lia].
    by rewrite (proj2 (Z.ltb_lt _ _)) by (unfold len in *; lia).
Qed.

(** Scanning whole frames, up to a point where [rest] remains. *)
Lemma scan_loop_frames fuel pre recs frs rest index fs :
  fs_faults fs = [] → is_frames (len index) recs frs →
  scan_loop (length frs + fuel) (pre ++ concat frs ++ rest) (len pre) index fs =
  scan_loop fuel (pre ++ concat frs ++ rest) (len pre + len (concat frs))
    (index ++ index_from (len pre) frs) fs.
Proof.
  intros Hfa. revert pre index frs. induction recs as [|r recs IH]; intros pre index [|fr frs]; try done.
  { intros _. cbn. by rewrite Z.add_0_r, app_nil_r. }
  intros [Hf Hfr]. cbn [length Nat.add concat index_from]. rewrite <-app_assoc.
  rewrite (scan_loop_frame _ pre _ _ _ r fr) by done.
  replace (len pre + len fr) with (len (pre ++ fr)) by apply len_app. rewrite (app_assoc pre fr).
  rewrite IH.
  - rewrite <-!app_assoc. cbn [app]. rewrite !len_app. by rewrite Z.add_assoc.
  - rewrite len_app. exact Hfr.
Qed.

Lemma length_concat_frames n recs frs :
  is_frames n recs frs → (length frs ≤ length (concat frs))%nat.
Proof.
  revert n frs. induction recs as [|r recs IH]; intros n [|fr frs]; cbn; try done.
  intros [Hf Hr]. apply IH in Hr. apply len_undo_frame in Hf. rewrite length_app.
  unfold len in Hf. lia.
Qed.

Definition scanned_store (i : bytes) (frs : list bytes) : UndoStore :=
  {| us_store := i; us_index := index_from 32 frs; us_end_offset := 32 + len (concat frs);
     us_durable_version := len (index_from 32 frs); us_fenced := false; us_poisoned := false |}.

Lemma scanned_inv i fs recs frs :
  wf_incarnation i → is_frames 0 recs frs →
  BTreeMap.get UNDO_FILE (fs_files fs) =
    Some {| f_bytes := undo_hdr i ++ concat frs; f_synced := length (undo_hdr i ++ concat frs) |} →
  undo_inv fs (scanned_store i frs) recs [].
Proof.
  intros Hi Hfr Hg. split; [done|]. split; [done|].
  eexists _, frs, (32 + length (concat frs))%nat. split; [exact Hg|].
  pose proof (is_frames_length _ _ _ Hfr) as Hlen. pose proof (length_undo_hdr i Hi) as Hl.
  assert (len (index_from 32 frs) = len recs) as Hix
    by (unfold len; by rewrite index_from_length, Hlen).
  unfold scanned_store.
  cbn [us_store us_index us_end_offset us_durable_version f_bytes f_synced].
  rewrite app_nil_r, (take_ge frs (length recs)), Hix, length_app, Hl by lia.
  rewrite (take_ge frs (Z.to_nat (len recs))) by (unfold len; lia).
  split_and!; [done| |lia|lia|done|done|apply len_nonneg|lia|lia].
  by rewrite take_ge by (rewrite length_app, Hl; lia).
Qed.

(** The scan keeps the whole frames and truncates what follows them. *)
Lemma scan_and_repair_spec i fs f all frs k tail :
  fs_faults fs = [] → wf_incarnation i → is_frames 0 all frs → (k ≤ length frs)%nat →
  BTreeMap.get UNDO_FILE (fs_files fs) = Some f →
  f_bytes f = undo_hdr i ++ concat (take k frs) ++ tail →
  tail = [] ∨ (∃ e c, frs !! k = Some e ∧ (0 < c < length e)%nat ∧ tail = take c e) →
  ∃ fs' s, scan_and_repair fs =
      (fs', Ok (index_from 32 (take k frs), 32 + len (concat (take k frs)))) ∧
    fs_faults fs' = [] ∧ BTreeMap.get UNDO_FILE (fs_files fs') =
      Some {| f_bytes := undo_hdr i ++ concat (take k frs); f_synced := s |}.
Proof.
  intros Hfa Hi Hfr Hk Hg Hb Htail. unfold scan_and_repair, undo_io.
  rewrite !fs_check_ok by done. cbn [fst snd map_err].
  unfold undo_content. rewrite Hg, Hb.
  pose proof (length_undo_hdr i Hi) as Hl.
  assert (len (undo_hdr i) = 32) as Hl32 by (unfold len; lia).
  pose proof (is_frames_take _ _ _ k Hfr) as Hfrk. pose proof (length_concat_frames _ _ _ Hfrk) as Hfuel.
  set (content := undo_hdr i ++ concat (take k frs) ++ tail).
  assert (∃ fuel, S (length content) = (length (take k frs) + S fuel)%nat) as [fuel ->].
  { exists (length content - length (take k frs))%nat. unfold content. rewrite !length_app. lia. }
  replace (Z.of_nat UNDO_HEADER_BYTES) with (len (undo_hdr i)) by done.
  unfold content at 1. rewrite (scan_loop_frames _ _ (take k all)) by done. cbn [app].
  rewrite <-len_app, Hl32.
  destruct Htail as [->|(e & c & He & Hc & ->)].
  - cbn [scan_loop]. rewrite (proj2 (Z.leb_le _ _)) by (rewrite app_nil_r; lia).
    exists fs, (f_synced f). rewrite len_app, Hl32. split_and!; [done|done|].
    rewrite Hg. destruct f as [fb fsn]. cbn in *. by rewrite Hb, app_nil_r.
  - pose proof (is_frames_length _ _ _ Hfr) as Hlen.
    destruct (lookup_lt_is_Some_2 all k) as [r Hr]; [apply lookup_lt_Some in He; lia|].
    pose proof (is_frames_lookup _ _ _ _ _ _ Hfr Hr He) as Hframe.
    rewrite app_assoc. rewrite (scan_loop_torn _ _ _ _ r e c); [|done| |done].
    2:{ replace (len (index_from 32 (take k frs))) with (0 + Z.of_nat k); [done|].
        unfold len. rewrite index_from_length, length_take. lia. }
    unfold repair_tail, undo_io.
    destruct (fs_set_len_ok UNDO_FILE (Z.to_nat (len (undo_hdr i ++ concat (take k frs)))) fs f)
      as (fs1 & -> & Hfa1 & Hfs1); [done|done| |].
    { rewrite Hb, !length_app. unfold len. rewrite length_app. lia. }
    cbn [fst snd map_err].
    destruct (fs_sync_file_ok UNDO_FILE fs1
      {| f_bytes := take (Z.to_nat (len (undo_hdr i ++ concat (take k frs)))) (f_bytes f);
         f_synced := Nat.min (f_synced f) (Z.to_nat (len (undo_hdr i ++ concat (take k frs)))) |})
      as (fs2 & -> & Hfa2 & Hfs2); [done|by rewrite Hfs1, BTreeMap.get_insert_eq|].
    cbn [fst snd map_err]. eexists fs2, _. rewrite len_app, Hl32. split_and!; [done|done|].
    rewrite Hfs2, BTreeMap.get_insert_eq. cbn [f_bytes]. repeat f_equal.
    rewrite Hb, app_assoc. apply take_app_length'. unfold len. lia.
Qed.

Lemma undo_open_spec i fs f all frs m :
  fs_faults fs = [] → wf_incarnation i → is_frames 0 all frs →
  BTreeMap.get UNDO_FILE (fs_files fs) = Some f →
  f_bytes f = take m (undo_hdr i ++ concat frs) → (32 ≤ m)%nat →
  ∃ fs' st k, undo_open i fs = (fs', Ok st) ∧ undo_inv fs' st (take k all) [] ∧
    us_poisoned st = false ∧ us_fenced st = false ∧ fs_faults fs' = [] ∧
    us_durable_version st = len (take k all) ∧
    ∀ j, (j ≤ length all → 32 + length (concat (take j frs)) ≤ m → j ≤ k)%nat.
Proof.
  intros Hfa Hi Hfr Hg Hb Hm. pose proof (length_undo_hdr i Hi) as Hl.
  pose proof (is_frames_length _ _ _ Hfr) as Hlen.
  rewrite take_app_ge in Hb by lia. rewrite Hl in Hb.
  destruct (take_concat frs (Nat.min (m - 32) (length (concat frs)))) as (k & c & Hk & Hc & Hcase); [lia|].
  rewrite <-(take_take (concat frs)), (take_ge (concat frs)) in Hcase by lia.
  assert (∃ tail, f_bytes f = undo_hdr i ++ concat (take k frs) ++ tail ∧
    (tail = [] ∨ ∃ e c, frs !! k = Some e ∧ (0 < c < length e)%nat ∧ tail = take c e) ∧
    (tail = [] → c = 0%nat)) as (tail & Hbt & Htail & _).
  { rewrite Hb. destruct Hcase as [[-> ->]|(e & He & Hce & ->)].
    - exists []. rewrite app_nil_r. auto.
    - exists (take c e). split; [done|]. split; [right; by exists e, c|].
      intros E%(f_equal length). rewrite length_take in E. cbn in E. lia. }
  unfold undo_open, BTreeMap.contains_key, undo_io. rewrite Hg. cbn [negb].
  rewrite fs_check_ok by done. cbn [fst snd map_err]. rewrite (fs_read_ok _ _ f) by done.
  cbn [fst snd map_err]. rewrite Hbt.
  rewrite take_app_length' by done. unfold undo_hdr at 1.
  rewrite decode_encode_bound_header by done. rewrite bool_decide_eq_true_2 by done. cbn [negb].
  destruct (scan_and_repair_spec i fs f all frs k tail) as (fs1 & sy & -> & Hfa1 & Hg1); [done..|].
  cbn [fst snd].
  destruct (fs_sync_file_ok UNDO_FILE fs1 _ Hfa1 Hg1) as (fs2 & -> & Hfa2 & Hfs2).
  cbn [fst snd map_err f_bytes] in *. rewrite fs_check_ok by done. cbn [fst snd map_err].
  exists fs2, (scanned_store i (take k frs)), k. split; [done|].
  split; [apply scanned_inv; [done|by apply is_frames_take|by rewrite Hfs2, BTreeMap.get_insert_eq]|].
  split_and!; [done..| |].
  - cbn. unfold len. rewrite index_from_length, !length_take. lia.
  - intros j Hj Hjm. destruct (decide (j ≤ k)%nat); [done|]. exfalso.
    destruct (lookup_lt_is_Some_2 frs k) as [e He]; [lia|].
    assert (0 < length e)%nat as Hpos.
    { destruct (lookup_lt_is_Some_2 all k) as [r Hr]; [lia|].
      pose proof (len_undo_frame _ _ _ (is_frames_lookup _ _ _ _ _ _ Hfr Hr He)). unfold len in *. lia. }
    pose proof (concat_take_step frs k j e He ltac:(lia)). pose proof (concat_take_le j frs).
    destruct Hcase as [[-> _]|(e' & He' & Hce & _)]; [lia|]. rewrite He in He'. injection He' as ->. lia.
Qed.

(** ** Runs *)
Inductive UndoOp :=
| UAppend (r : MvccRecord)
| USync (id : VersionId).

Definition undo_op_wf (op : UndoOp) : Prop :=
  match op with UAppend r => wf_mvcc r | USync _ => True end.

(** Runs operations whatever they return; the list is the records whose append
    returned an identity. *)
Fixpoint undo_run (ops : list UndoOp) (st : UndoStore) (fs : Fs)
    : UndoStore * Fs * list MvccRecord :=
  match ops with
  | [] => (st, fs, [])
  | UAppend r :: ops' =>
      let '(st1, fs1, res) := undo_append r st fs in
      let '(st2, fs2, recs) := undo_run ops' st1 fs1 in
      (st2, fs2, if is_ok res then r :: recs else recs)
  | USync id :: ops' =>
      let '(st1, fs1, _) := undo_sync_through id st fs in undo_run ops' st1 fs1
  end.

(** The same files with a device that works. *)
Definition quiet (fs : Fs) : Fs := {| fs_files := fs_files fs; fs_faults := [] |}.

Lemma undo_inv_files fs fs' st recs torn :
  fs_files fs' = fs_files fs → undo_inv fs st recs torn → undo_inv fs' st recs torn.
Proof. intros E. unfold undo_inv. by rewrite E. Qed.

(** Reads leave the file alone, and one that succeeds is the read of a device
    without faults. *)
Lemma undo_get_quiet id st fs fs' res :
  undo_get id st fs = (fs', res) →
  fs_files fs' = fs_files fs ∧
  match res with
  | Ok r => undo_get id st (quiet fs) = (quiet fs, Ok r)
  | Err _ => True
  end.
Proof.
  unfold undo_get. destruct (version_index id) as [ix|]; [|by intros [= <- <-]].
  destruct (us_poisoned st); [by intros [= <- <-]|].
  destruct (us_index st !! _) as [fr|]; [|by intros [= <- <-]].
  unfold read_frame, undo_io. rewrite !(fs_check_ok (quiet fs)) by done. cbn [fst snd map_err].
  destruct (fs_check fs) as [fs1 [[]|]] eqn:E1; apply fs_check_files in E1; cbn [fst snd map_err];
    [|by intros [= <- <-]].
  destruct (fs_read UNDO_FILE fs1) as [fs2 [bs|]] eqn:E2; apply fs_read_cases in E2 as [E2 Hb];
    cbn [fst snd map_err]; [|intros [= <- <-]; split; [congruence|done]].
  destruct Hb as (f & Hg & ->). rewrite (fs_read_ok UNDO_FILE (quiet fs) f); [|done|cbn [quiet fs_files]; by rewrite <-E1].
  cbn [fst snd map_err].
  destruct (slice _ _ _); intros [<- <-]%pair_equal_spec; (split; [congruence|]); [|done].
  by destruct (validate_complete_frame _ _).
Qed.

(** What a successful read returns, whatever faults the device has. *)
Lemma undo_get_Ok fs st recs torn id fs' r :
  undo_inv fs st recs torn → 0 ≤ id → undo_get id st fs = (fs', Ok r) →
  0 < id ∧ recs !! Z.to_nat (id - 1) = Some r.
Proof.
  intros Hinv Hid E. apply undo_get_quiet in E as [_ E].
  assert (undo_inv (quiet fs) st recs torn) as Hq by done.
  assert (id ≠ 0 ∧ us_poisoned st = false) as [Hnz Hp].
  { unfold undo_get, version_index in E. destruct (id =? 0) eqn:E0; [done|]. bool_to_prop.
    split; [done|]. by destruct (us_poisoned st). }
  split; [lia|]. rewrite (undo_get_inv _ _ _ _ id Hq Hp) in E by (done || lia). by destruct (recs !! _); simplify_eq.
Qed.

(** Every stored record is well formed and links to a smaller version. *)
Lemma undo_inv_lookup fs st recs torn i r :
  undo_inv fs st recs torn → recs !! i = Some r →
  is_u64 (Z.of_nat i + 1) ∧ wf_mvcc r ∧
  match mr_undo_head r with Some id => id < Z.of_nat i + 1 | None => True end.
Proof.
  intros (_ & _ & f & frs & m & _ & Hfr & _) Hr. pose proof (lookup_lt_Some _ _ _ Hr) as Hi.
  pose proof (is_frames_length _ _ _ Hfr) as Hlen. rewrite length_app in Hlen.
  destruct (lookup_lt_is_Some_2 frs i) as [fr Hf]; [lia|].
  destruct (is_frames_lookup _ _ _ i r fr Hfr) as (H64 & Hw & Hv & _); [by rewrite lookup_app_l|done|].
  split; [done|]. split; [done|]. unfold validate_predecessor in Hv. destruct (mr_undo_head r) as [id|]; [|done].
  destruct (_ || _) eqn:E in Hv; [done|]. bool_to_prop. lia.
Qed.

Lemma undo_index_length fs st recs torn :
  undo_inv fs st recs torn → length (us_index st) = length recs.
Proof.
  intros (_ & _ & f & frs & m & _ & Hfr & _ & _ & _ & Hx & _).
  rewrite Hx, index_from_length, length_take. apply is_frames_length in Hfr. rewrite length_app in Hfr. lia.
Qed.

Definition attempted (ops : list UndoOp) (torn : list MvccRecord) : Prop :=
  torn = [] ∨ ∃ r, torn = [r] ∧ UAppend r ∈ ops.

Lemma undo_append_poisoned r st fs st' fs' res :
  undo_append r st fs = (st', fs', res) → us_poisoned st' = us_poisoned st.
Proof.
  unfold undo_append. repeat case_match; intros [= <- <- <-]; done.
Qed.

Lemma undo_sync_poisoned id st fs st' fs' res :
  undo_sync_through id st fs = (st', fs', res) → us_poisoned st' = us_poisoned st.
Proof.
  unfold undo_sync_through. repeat case_match; intros [= <- <- <-]; done.
Qed.

Lemma undo_run_inv ops fs st recs torn st' fs' out :
  undo_inv fs st recs torn → Forall undo_op_wf ops → undo_run ops st fs = (st', fs', out) →
  us_store st' = us_store st ∧ us_poisoned st' = us_poisoned st ∧
  ∃ torn', undo_inv fs' st' (recs ++ out) torn' ∧ (torn' = torn ∨ attempted ops torn').
Proof.
  revert fs st recs torn out. induction ops as [|op ops IH]; intros fs st recs torn out Hinv Hw; cbn.
  { intros [= <- <- <-]. split; [done|]. split; [done|]. exists torn. rewrite app_nil_r. auto. }
  apply Forall_cons in Hw as [Hw1 Hw]. destruct op as [r|id]; cbn in Hw1.
  - destruct (undo_append r st fs) as [[st1 fs1] res] eqn:E1.
    destruct (undo_run ops st1 fs1) as [[st2 fs2] recs2] eqn:E2. intros [= <- <- <-].
    pose proof (undo_append_poisoned _ _ _ _ _ _ E1) as Hp1.
    apply (undo_append_inv _ _ recs torn) in E1 as (Hs1 & _ & Hres); [|done..].
    destruct res as [id|e]; cbn [is_ok].
    + destruct Hres as (-> & -> & Hinv1).
      destruct (IH _ _ _ _ _ Hinv1 Hw E2) as (Hs2 & Hp2 & torn' & Hinv2 & Ht).
      split; [congruence|]. split; [congruence|]. exists torn'. rewrite <-app_assoc in Hinv2.
      split; [done|]. destruct Ht as [->|[->|(r' & -> & ?)]]; [by left|by left|].
      right. right. exists r'. split; [done|by right].
    + destruct Hres as [Hinv1|[-> Hinv1]];
        destruct (IH _ _ _ _ _ Hinv1 Hw E2) as (Hs2 & Hp2 & torn' & Hinv2 & Ht);
        (split; [congruence|]); (split; [congruence|]); exists torn'; (split; [done|]);
        destruct Ht as [->|[->|(r' & -> & ?)]].
      * by left.
      * right. by left.
      * right. right. exists r'. split; [done|by right].
      * right. right. exists r. split; [done|left].
      * by left.
      * right. right. exists r'. split; [done|by right].
  - destruct (undo_sync_through id st fs) as [[st1 fs1] res] eqn:E1. intros E2.
    pose proof (undo_sync_poisoned _ _ _ _ _ _ E1) as Hp1.
    apply (undo_sync_inv _ _ recs torn) in E1 as (Hs1 & Hinv1 & _); [|done].
    destruct (IH _ _ _ _ _ Hinv1 Hw E2) as (Hs2 & Hp2 & torn' & Hinv2 & Ht).
    split; [congruence|]. split; [congruence|]. exists torn'. split; [done|].
    destruct Ht as [->|[->|(r' & -> & ?)]]; [by left|right; by left|].
    right. right. exists r'. split; [done|by right].
Qed.

(** The undo store is the list of appended before-images.  After any sequence of
    appends and syncs, with I/O failures anywhere, a version reads back as the
    record whose append returned it and any other version is missing, fenced or
    not; the versions are numbered from one in append order, and every undo link
    points to an earlier version. *)
Theorem undo_store_is_a_list i fs0 fs1 st1 ops st fs recs id :
  wf_incarnation i → undo_create i fs0 = (fs1, Ok st1) → Forall undo_op_wf ops →
  undo_run ops st1 fs1 = (st, fs, recs) → 0 < id →
  undo_get id st (quiet fs) =
    (quiet fs, match recs !! Z.to_nat (id - 1) with
               | Some r => Ok r
               | None => Err (UndoMissingVersion id)
               end) ∧
  ∀ r v, recs !! Z.to_nat (id - 1) = Some r → mr_undo_head r = Some v → 0 < v < id.
Proof.
  intros Hi (Hinv & _ & Hp & _)%undo_create_inv Hw Hr Hid; [|done].
  destruct (undo_run_inv _ _ _ _ _ _ _ _ Hinv Hw Hr) as (_ & Hp' & torn & Hinv' & _).
  cbn [app] in Hinv'. split.
  { apply (undo_get_inv _ _ recs torn); [|congruence|done|done]. exact Hinv'. }
  intros r v Hlk Hv. destruct Hinv' as (_ & _ & f & frs & m & _ & Hfr & _).
  set (k := Z.to_nat (id - 1)) in *. pose proof (is_frames_length _ _ _ Hfr) as Hlen.
  rewrite length_app in Hlen. pose proof (lookup_lt_Some _ _ _ Hlk).
  destruct (lookup_lt_is_Some_2 frs k) as [fr Hfrk]; [lia|].
  destruct (is_frames_lookup _ _ _ k r fr Hfr) as (_ & (_ & Hu & _) & Hpred & _);
    [by rewrite lookup_app_l|done|].
  unfold validate_predecessor in Hpred. rewrite Hv in Hpred, Hu. destruct Hu as [_ Hu].
  destruct (_ || _)%bool eqn:E; [done|]. bool_to_prop. undo_lia.
Qed.

(** C22. Undo recovery after a crash keeps every durable before-image: reopening the
    file as any crash left it succeeds and yields a prefix of the appended
    records, possibly with the one whose append failed, that contains every
    version the durability frontier had reached, with an incomplete final frame
    cut off; all of them read back and are durable again. *)
Theorem undo_recovery_keeps_durable i fs0 fs1 st1 ops st fs recs fs' :
  wf_incarnation i → undo_create i fs0 = (fs1, Ok st1) → Forall undo_op_wf ops →
  undo_run ops st1 fs1 = (st, fs, recs) → fs_crash fs fs' →
  ∃ fs'' st' recs' torn,
    undo_open i fs' = (fs'', Ok st') ∧ attempted ops torn ∧ recs' `prefix_of` recs ++ torn ∧
    us_durable_version st ≤ len recs' ∧ us_durable_version st' = len recs' ∧
    ∀ id, 0 < id → undo_get id st' fs'' =
      (fs'', match recs' !! Z.to_nat (id - 1) with
             | Some r => Ok r
             | None => Err (UndoMissingVersion id)
             end).
Proof.
  intros Hi (Hinv & Hst & Hp & _)%undo_create_inv Hw Hr Hc; [|done].
  destruct (undo_run_inv _ _ _ _ _ _ _ _ Hinv Hw Hr) as (Hst' & _ & torn & Hinv' & Ht).
  cbn [app] in Hinv'. rewrite Hst in Hst'.
  destruct Hinv' as (_ & _ & f & frs & m & Hg & Hfr & Hb & Hm & _ & _ & Hd & Hs).
  rewrite Hst' in Hb. pose proof Hc as [Hcf Hfa].
  destruct (files_crash_get _ _ _ _ Hcf Hg) as (f' & Hg' & n & Hn & Hb' & _); [lia|].
  assert (f_bytes f' = take (Nat.min n m) (undo_hdr i ++ concat frs)) as Hb2
    by (by rewrite Hb', Hb, take_take).
  destruct (undo_open_spec i fs' f' (recs ++ torn) frs (Nat.min n m))
    as (fs'' & st' & k & Ho & Hinv'' & Hp'' & _ & Hfa'' & Hdur & Hkeep); [done..|lia|].
  exists fs'', st', (take k (recs ++ torn)), torn. split_and!; [done| |apply prefix_take| |done|].
  - destruct Ht as [->|?]; [by left|done].
  - pose proof (is_frames_length _ _ _ Hfr) as Hlen. rewrite length_app in Hlen.
    assert (Z.to_nat (us_durable_version st) ≤ k)%nat.
    { unfold len in Hd. apply Hkeep; [rewrite length_app; lia|].
      pose proof (concat_take_le (Z.to_nat (us_durable_version st)) (take (length recs) frs)) as Hle.
      rewrite take_take, Nat.min_l in Hle by lia. lia. }
    unfold len in *. rewrite length_take, length_app. lia.
  - intros id Hid. by apply (undo_get_inv _ _ _ []).
Qed.
End reopening.

(** ** A concrete run: the second before-image is cut by the crash *)
#[local] Existing Instance castagnoli_crc.

Definition undo_demo_store : bytes := replicate 16 (u8 1).
Definition undo_demo_disk : Fs := {| fs_files := []; fs_faults := [] |}.
Definition undo_demo_ops : list UndoOp :=
  [UAppend (MvccRecord_new (OwnerFrozen 1) None (Inline [u8 5])); USync 1;
   UAppend (MvccRecord_new (OwnerFrozen 2) (Some 1) Tombstone)].
Definition undo_demo_created : Fs * result UndoStore UndoStoreError :=
  undo_create undo_demo_store undo_demo_disk.
Definition undo_demo_st : UndoStore :=
  match undo_demo_created.2 with Ok st => st | Err _ => scanned_store [] [] end.
Definition undo_demo_end : UndoStore * Fs * list MvccRecord :=
  undo_run undo_demo_ops undo_demo_st undo_demo_created.1.

Lemma undo_demo_ops_wf : Forall undo_op_wf undo_demo_ops.
Proof. repeat constructor; done. Qed.

Lemma undo_store_is_a_list_witness :
  (undo_get 2 undo_demo_end.1.1 (quiet undo_demo_end.1.2)).2
    = Ok (MvccRecord_new (OwnerFrozen 2) (Some 1) Tombstone).
Proof.
  destruct (undo_store_is_a_list undo_demo_store undo_demo_disk undo_demo_created.1 undo_demo_st
    undo_demo_ops undo_demo_end.1.1 undo_demo_end.1.2 undo_demo_end.2 2) as [Hget _].
  - split; vm_compute; reflexivity.
  - vm_compute. reflexivity.
  - exact undo_demo_ops_wf.
  - vm_compute. reflexivity.
  - reflexivity.
  - rewrite Hget. vm_compute. reflexivity.
Defined.

Lemma undo_recovery_keeps_durable_witness :
  ∃ fs'' st' recs' torn,
    undo_open undo_demo_store (crash_at 120 undo_demo_end.1.2) = (fs'', Ok st') ∧
    recs' `prefix_of` undo_demo_end.2 ++ torn ∧ 1 ≤ len recs'.
Proof.
  destruct (undo_recovery_keeps_durable undo_demo_store undo_demo_disk undo_demo_created.1
    undo_demo_st undo_demo_ops undo_demo_end.1.1 undo_demo_end.1.2 undo_demo_end.2
    (crash_at 120 undo_demo_end.1.2)) as (fs'' & st' & recs' & torn & Ho & Ht & Hpre & Hd & Hdur & _).
  - split; vm_compute; reflexivity.
  - vm_compute. reflexivity.
  - exact undo_demo_ops_wf.
  - vm_compute. reflexivity.
  - apply crash_at_crash.
  - exists fs'', st', recs', torn. split; [exact Ho|]. split; [exact Hpre|].
    replace 1 with (us_durable_version undo_demo_end.1.1) by (vm_compute; reflexivity). exact Hd.
Defined.
