(* ===== verification/Visibility.v ===== *)
(** * The contiguous visibility frontier

    Models [crates/seerdb/src/vnext/visibility.rs].  Commits may publish their
    status out of order; new snapshots observe the highest commit sequence below
    which every commit is published.  The mutex is its poison flag; the condition
    variable is the point at which [wait_visible] lets other threads run. *)
From S2P Require Import Prelude StdCollections Ids Shards Mvcc.

Local Open Scope Z_scope.
Local Open Scope seer_scope.

Inductive VisibilityError :=
| VisStatus (e : StatusTableError)
| VisPoisoned
| VisCommitSeqExhausted
| VisAlreadyVisible (visible requested : CommitSeq)
| VisRecoveryRequired (visible csn : CommitSeq).

Record VisibilityFrontier := {
  vf_visible : CommitSeq;
  vf_ready : list CommitSeq;
  vf_recovery_required : bool;
  vf_poisoned : bool
}.

(** [VisibilityFrontier::new] *)
Definition Frontier_new (initial : CommitSeq) : VisibilityFrontier :=
  {| vf_visible := initial; vf_ready := []; vf_recovery_required := false; vf_poisoned := false |}.

Definition snapshot (f : VisibilityFrontier) : CommitSeq := vf_visible f.

(** The loop of [advance_locked]; every round but the last takes one sequence out
    of [ready], so [length ready + 1] rounds are enough. *)
Fixpoint advance_loop (fuel : nat) (frontier : CommitSeq) (ready : list CommitSeq)
    : list CommitSeq * result CommitSeq VisibilityError :=
  match fuel with
  | O => (ready, Ok frontier)
  | S fuel' =>
      match checked_add frontier 1 with
      | None => (ready, Err VisCommitSeqExhausted)
      | Some next =>
          let '(removed, ready') := BTreeSet.remove next ready in
          if negb removed then (ready', Ok frontier) else advance_loop fuel' next ready'
      end
  end.

Definition advance_locked (f : VisibilityFrontier)
    : VisibilityFrontier * result CommitSeq VisibilityError :=
  match advance_loop (S (length (vf_ready f))) (vf_visible f) (vf_ready f) with
  | (ready, Err e) =>
      ({| vf_visible := vf_visible f; vf_ready := ready;
          vf_recovery_required := vf_recovery_required f; vf_poisoned := vf_poisoned f |}, Err e)
  | (ready, Ok frontier) =>
      ({| vf_visible := frontier; vf_ready := ready;
          vf_recovery_required := vf_recovery_required f; vf_poisoned := vf_poisoned f |},
       Ok frontier)
  end.

(** [mark_ready]; [seen] is the frontier loaded before the lock is taken, which
    another thread may have advanced since. *)
Definition mark_ready (seen : CommitSeq) (f : VisibilityFrontier) (csn : CommitSeq)
    : VisibilityFrontier * result CommitSeq VisibilityError :=
  if csn <=? seen then (f, Err (VisAlreadyVisible seen csn))
  else if vf_poisoned f then (f, Err VisPoisoned)
  else if vf_recovery_required f then (f, Err (VisRecoveryRequired (snapshot f) csn))
  else
    advance_locked
      {| vf_visible := vf_visible f; vf_ready := BTreeSet.insert csn (vf_ready f);
         vf_recovery_required := vf_recovery_required f; vf_poisoned := vf_poisoned f |}.

(** The frontier and the status table it publishes into. *)
Record World := { w_statuses : TransactionStatusTable; w_frontier : VisibilityFrontier }.

Definition publish_commit (seen : CommitSeq) (w : World) (txn : TxnId) (csn : CommitSeq)
    : World * result CommitSeq VisibilityError :=
  match status_commit (w_statuses w) txn csn with
  | (t, Err e) => ({| w_statuses := t; w_frontier := w_frontier w |}, Err (VisStatus e))
  | (t, Ok _) =>
      let '(f, r) := mark_ready seen (w_frontier w) csn in
      ({| w_statuses := t; w_frontier := f |}, r)
  end.

Definition publish_recovered (seen : CommitSeq) (w : World) (txn : TxnId) (csn : CommitSeq)
    : World * result CommitSeq VisibilityError :=
  match recover_committed (w_statuses w) txn csn with
  | (t, Err e) => ({| w_statuses := t; w_frontier := w_frontier w |}, Err (VisStatus e))
  | (t, Ok _) =>
      let '(f, r) := mark_ready seen (w_frontier w) csn in
      ({| w_statuses := t; w_frontier := f |}, r)
  end.

(** [require_recovery] takes the lock even when it is poisoned. *)
Definition frontier_require_recovery (f : VisibilityFrontier) : VisibilityFrontier :=
  {| vf_visible := vf_visible f; vf_ready := vf_ready f; vf_recovery_required := true;
     vf_poisoned := vf_poisoned f |}.

(** What other threads do to the frontier and the status table. *)
Inductive VisOp :=
| VStatus (op : StatusOp)
| VPublish (seen : CommitSeq) (txn : TxnId) (csn : CommitSeq)
| VRecovered (seen : CommitSeq) (txn : TxnId) (csn : CommitSeq)
| VFence.

Definition vis_exec (op : VisOp) (w : World) : World * result CommitSeq VisibilityError :=
  match op with
  | VStatus op =>
      let '(t, r) := status_exec op (w_statuses w) in
      ({| w_statuses := t; w_frontier := w_frontier w |},
       match r with Ok _ => Ok (snapshot (w_frontier w)) | Err e => Err (VisStatus e) end)
  | VPublish seen txn csn => publish_commit seen w txn csn
  | VRecovered seen txn csn => publish_recovered seen w txn csn
  | VFence =>
      ({| w_statuses := w_statuses w; w_frontier := frontier_require_recovery (w_frontier w) |},
       Ok (snapshot (w_frontier w)))
  end.

(** The commit sequence an operation publishes. *)
Definition vis_csn (op : VisOp) : option CommitSeq :=
  match op with VPublish _ _ csn | VRecovered _ _ csn => Some csn | _ => None end.

(** A run, and the commit sequences whose publication succeeded in it. *)
Fixpoint vis_run (ops : list VisOp) (w : World) : World * list CommitSeq :=
  match ops with
  | [] => (w, [])
  | op :: ops' =>
      let '(w1, r) := vis_exec op w in
      let '(w2, published) := vis_run ops' w1 in
      (w2, match r, vis_csn op with Ok _, Some csn => csn :: published | _, _ => published end)
  end.

(** One round of the loop of [wait_visible]; [None] waits on the condition
    variable. *)
Definition wait_round (f : VisibilityFrontier) (csn : CommitSeq)
    : option (result CommitSeq VisibilityError) :=
  let visible := snapshot f in
  if vf_recovery_required f then Some (Err (VisRecoveryRequired visible csn))
  else if csn <=? visible then Some (Ok visible)
  else None.

(** [wait_visible]; [env] is what other threads do before each wakeup. *)
Fixpoint wait_loop (env : list (list VisOp)) (w : World) (csn : CommitSeq)
    : World * option (result CommitSeq VisibilityError) :=
  match wait_round (w_frontier w) csn with
  | Some r => (w, Some r)
  | None =>
      match env with
      | [] => (w, None)
      | ops :: env' =>
          let w' := (vis_run ops w).1 in
          if vf_poisoned (w_frontier w') then (w', Some (Err VisPoisoned))
          else wait_loop env' w' csn
      end
  end.

Definition wait_visible (env : list (list VisOp)) (w : World) (csn : CommitSeq)
    : World * option (result CommitSeq VisibilityError) :=
  if vf_poisoned (w_frontier w) then (w, Some (Err VisPoisoned)) else wait_loop env w csn.

(** [complete_commit]; [between] is what other threads do between the publication
    and the first look at the frontier. *)
Definition complete_commit (seen : CommitSeq) (between : list VisOp) (env : list (list VisOp))
    (w : World) (txn : TxnId) (csn : CommitSeq)
    : World * option (result CommitSeq VisibilityError) :=
  match publish_commit seen w txn csn with
  | (w', Err e) => (w', Some (Err e))
  | (w', Ok _) => wait_visible env (vis_run between w').1 csn
  end.

(** ** The frontier is the longest published prefix *)
Lemma advance_loop_spec fuel f ready ready' r :
  BTreeSet.wf ready → (length ready < fuel)%nat → advance_loop fuel f ready = (ready', r) →
  BTreeSet.wf ready' ∧
  match r with
  | Ok f' => f ≤ f' ∧ (∀ c, f < c ≤ f' → c ∈ ready) ∧ f' + 1 ∉ ready ∧
      (∀ c, c ∈ ready' ↔ c ∈ ready ∧ ¬ (f < c ≤ f'))
  | Err _ => f = U64_MAX ∨ U64_MAX ∈ ready ∨ U64_MAX < f
  end.
Proof.
  revert f ready. induction fuel as [|fuel IH]; intros f ready Hw Hf; [lia|]. cbn [advance_loop].
  destruct (checked_add f 1) as [next|] eqn:En.
  2:{ intros [= <- <-]. split; [done|]. unfold checked_add in En.
      destruct (_ <=? _) eqn:E; [done|]. bool_to_prop. lia. }
  apply checked_add_Some in En as [-> Hmax].
  pose proof (BTreeSet.remove_fst (f + 1) ready) as Hr.
  pose proof (BTreeSet.set_remove_wf (f + 1) ready Hw) as Hw'.
  pose proof (λ x, BTreeSet.set_elem_remove (f + 1) ready x Hw) as He.
  pose proof (BTreeSet.remove_length (f + 1) ready) as Hlen.
  destruct (BTreeSet.remove (f + 1) ready) as [removed rest] eqn:Erm. cbn [fst snd] in *. subst removed.
  destruct (BTreeSet.contains (f + 1) ready) eqn:Ec; cbn [negb].
  - apply BTreeSet.contains_elem in Ec. intros Hl.
    destruct (IH (f + 1) rest) as [Hw2 Hspec]; [done|specialize (Hlen eq_refl); lia|done|].
    split; [done|]. destruct r as [f'|].
    2:{ destruct Hspec as [<-|[Hin|?]]; [by auto| |lia]. rewrite He in Hin. naive_solver. }
    destruct Hspec as (Hle & Hin & Hout & Hiff). split_and!; [lia| | |].
    + intros c Hc. destruct (decide (c = f + 1)) as [->|]; [done|]. apply He, Hin. lia.
    + intros Hin'. apply Hout, He. split; [done|lia].
    + intros c. rewrite Hiff, He. split; [intros [[? ?] ?]; split; [done|lia]|].
      intros [? ?]. split_and!; [done|lia|lia].
  - intros [= <- <-]. split; [done|].
    assert (f + 1 ∉ ready) as Hn by (intros Hin%BTreeSet.contains_elem; congruence).
    split_and!; [lia|lia|done|]. intros c. rewrite He. split.
    + intros [Hc _]. split; [done|lia].
    + intros [Hc _]. split; [done|]. by intros ->.
Qed.

(** The frontier after the sequences in [P] were published, starting from
    [init]. *)
Definition frontier_inv (init : CommitSeq) (P : list CommitSeq) (f : VisibilityFrontier) : Prop :=
  BTreeSet.wf (vf_ready f) ∧ init ≤ vf_visible f < U64_MAX ∧
  (∀ c, init < c ≤ vf_visible f → c ∈ P) ∧ (∀ c, c ∈ vf_ready f → c ∈ P ∧ c < U64_MAX) ∧
  (∀ c, c ∈ P → c ≤ vf_visible f ∨ c ∈ vf_ready f) ∧ vf_visible f + 1 ∉ vf_ready f.

Lemma frontier_inv_new init : init < U64_MAX → frontier_inv init [] (Frontier_new init).
Proof.
  intros Hi. split_and!; cbn.
  - constructor.
  - done.
  - done.
  - lia.
  - by intros c ?%elem_of_nil.
  - by intros c ?%elem_of_nil.
  - by intros ?%elem_of_nil.
Qed.

Lemma mark_ready_inv init P f seen csn f' r :
  frontier_inv init P f → csn < U64_MAX → mark_ready seen f csn = (f', r) →
  frontier_inv init (match r with Ok _ => P ++ [csn] | Err _ => P end) f'.
Proof.
  intros Hinv Hc. unfold mark_ready.
  destruct (csn <=? seen) eqn:E1; [by intros [= <- <-]|].
  destruct (vf_poisoned f) eqn:E2; [by intros [= <- <-]|].
  destruct (vf_recovery_required f) eqn:E3; [by intros [= <- <-]|].
  destruct Hinv as (Hw & Hv & Hpre & Hrdy & Hpub & Hnext).
  unfold advance_locked; cbn [vf_ready vf_visible vf_recovery_required vf_poisoned].
  destruct (advance_loop _ _ _) as [ready' rr] eqn:El.
  apply advance_loop_spec in El as [Hw' Hs]; [|by apply BTreeSet.set_insert_wf|lia].
  assert (∀ c, c ∈ BTreeSet.insert csn (vf_ready f) → c < U64_MAX ∧ c ∈ P ++ [csn]) as Hins.
  { intros c [->|Hin]%BTreeSet.set_elem_insert; rewrite elem_of_app, list_elem_of_singleton;
      [auto|]. apply Hrdy in Hin as [? ?]. auto. }
  destruct rr as [fr|e].
  2:{ destruct Hs as [?|[[? _]%Hins|?]]; lia. }
  destruct Hs as (Hle & Hin & Hout & Hiff). intros [= <- <-]. split_and!; cbn.
  - done.
  - lia.
  - destruct (decide (fr = vf_visible f)) as [->|]; [lia|].
    destruct (Hins fr); [apply Hin; lia|lia].
  - intros c Hc'. destruct (decide (c ≤ vf_visible f)).
    + rewrite elem_of_app. left. apply Hpre. lia.
    + apply Hins, Hin. lia.
  - intros c [Hc' _]%Hiff. destruct (Hins _ Hc'). done.
  - intros c Hc'. destruct (decide (c ≤ fr)); [auto|]. right. apply Hiff. split; [|lia].
    apply BTreeSet.set_elem_insert. rewrite elem_of_app, list_elem_of_singleton in Hc'.
    destruct Hc' as [[?|?]%Hpub|?]; [lia|auto|auto].
  - intros [Hc' _]%Hiff. done.
Qed.

(** What a successful publication does to the frontier. *)
Lemma mark_ready_Ok seen f csn f' v :
  BTreeSet.wf (vf_ready f) → mark_ready seen f csn = (f', Ok v) →
  seen < csn ∧ BTreeSet.wf (vf_ready f') ∧ vf_visible f ≤ vf_visible f' ∧
  (∀ c, c ∈ vf_ready f' → c ∈ vf_ready f ∨ c = csn) ∧
  ∀ c, vf_visible f < c ≤ vf_visible f' → c ∈ vf_ready f ∨ c = csn.
Proof.
  intros Hw. unfold mark_ready. destruct (csn <=? seen) eqn:E1; [done|]. bool_to_prop.
  destruct (vf_poisoned f); [done|]. destruct (vf_recovery_required f); [done|].
  unfold advance_locked; cbn [vf_ready vf_visible vf_recovery_required vf_poisoned].
  destruct (advance_loop _ _ _) as [ready' rr] eqn:El.
  apply advance_loop_spec in El as [Hw' Hs]; [|by apply BTreeSet.set_insert_wf|lia].
  destruct rr as [fr|e]; [|done]. destruct Hs as (Hle & Hin & _ & Hiff). intros [= <- <-]. cbn.
  split_and!; [done|done|done| |].
  - intros c [[->|?]%BTreeSet.set_elem_insert _]%Hiff; auto.
  - intros c [->|?]%Hin%BTreeSet.set_elem_insert; auto.
Qed.

(** Everything ready is then visible or still waits for a gap. *)
Lemma mark_ready_gap seen f csn f' v :
  BTreeSet.wf (vf_ready f) → mark_ready seen f csn = (f', Ok v) →
  vf_visible f' + 1 ∉ vf_ready f' ∧
  ∀ c, c ∈ vf_ready f ∨ c = csn → vf_visible f < c → c ≤ vf_visible f' ∨ c ∈ vf_ready f'.
Proof.
  intros Hw. unfold mark_ready. destruct (csn <=? seen); [done|].
  destruct (vf_poisoned f); [done|]. destruct (vf_recovery_required f); [done|].
  unfold advance_locked; cbn [vf_ready vf_visible vf_recovery_required vf_poisoned].
  destruct (advance_loop _ _ _) as [ready' rr] eqn:El.
  apply advance_loop_spec in El as [Hw' Hs]; [|by apply BTreeSet.set_insert_wf|lia].
  destruct rr as [fr|e]; [|done]. destruct Hs as (Hle & _ & Hout & Hiff). intros [= <- <-]. cbn. split.
  - by intros [? _]%Hiff.
  - intros c Hc Hlt. destruct (decide (c ≤ fr)) as [?|Hn]; [by left|right]. apply Hiff. split; [|lia].
    apply BTreeSet.set_elem_insert. tauto.
Qed.

Lemma mark_ready_Err seen f csn f' e : mark_ready seen f csn = (f', Err e) → vf_visible f' = vf_visible f.
Proof. unfold mark_ready, advance_locked. repeat case_match; by intros [= <-]. Qed.

Lemma vis_exec_inv init P w op w' r :
  frontier_inv init P (w_frontier w) → (∀ c, vis_csn op = Some c → c < U64_MAX) →
  vis_exec op w = (w', r) →
  frontier_inv init (match r, vis_csn op with Ok _, Some c => P ++ [c] | _, _ => P end)
    (w_frontier w').
Proof.
  intros Hinv Hc. destruct op as [op|seen txn csn|seen txn csn|]; cbn.
  - destruct (status_exec _ _) as [t rr]. intros [= <- <-]. by destruct rr.
  - unfold publish_commit. destruct (status_commit _ _ _) as [t [[]|e]]; [|by intros [= <- <-]].
    destruct (mark_ready _ _ _) as [f rr] eqn:Em. intros [= <- <-]. cbn.
    eapply mark_ready_inv in Em; [|done|by apply Hc]. by destruct rr.
  - unfold publish_recovered. destruct (recover_committed _ _ _) as [t [[]|e]]; [|by intros [= <- <-]].
    destruct (mark_ready _ _ _) as [f rr] eqn:Em. intros [= <- <-]. cbn.
    eapply mark_ready_inv in Em; [|done|by apply Hc]. by destruct rr.
  - intros [= <- <-]. done.
Qed.

Lemma vis_run_inv init ops P w w' published :
  frontier_inv init P (w_frontier w) → Forall (λ c, c < U64_MAX) (omap vis_csn ops) →
  vis_run ops w = (w', published) → frontier_inv init (P ++ published) (w_frontier w').
Proof.
  revert P w published. induction ops as [|op ops IH]; intros P w published Hinv Hc; cbn [vis_run].
  { intros [= <- <-]. by rewrite app_nil_r. }
  destruct (vis_exec op w) as [w1 r] eqn:E1. destruct (vis_run ops w1) as [w2 pub] eqn:E2.
  intros [= <- <-]. assert (∀ c, vis_csn op = Some c → c < U64_MAX) as Hop.
  { intros c Ec. cbn in Hc. rewrite Ec in Hc. by inversion Hc. }
  assert (Forall (λ c, c < U64_MAX) (omap vis_csn ops)) as Hc'.
  { cbn in Hc. destruct (vis_csn op); [by inversion Hc|done]. }
  pose proof (vis_exec_inv _ _ _ _ _ _ Hinv Hop E1) as Hinv1.
  specialize (IH _ _ _ Hinv1 Hc' E2).
  destruct r; [|done]. destruct (vis_csn op) as [c|]; [|done].
  by rewrite cons_middle, app_assoc.
Qed.

(** C32. The visible frontier is the longest published prefix: after any
    interleaving of begins, decisions, publications and recoveries, every commit
    sequence up to the snapshot was published and the next one was not, however
    far out of order the publications came. *)
Theorem frontier_is_longest_prefix init t ops w published :
  init < U64_MAX → Forall (λ c, c < U64_MAX) (omap vis_csn ops) →
  vis_run ops {| w_statuses := t; w_frontier := Frontier_new init |} = (w, published) →
  let s := snapshot (w_frontier w) in
  init ≤ s ∧ (∀ c, init < c ≤ s → c ∈ published) ∧ s + 1 ∉ published.
Proof.
  intros Hi Hc Hr. eapply (vis_run_inv init) in Hr as (_ & Hv & Hpre & Hrdy & Hpub & Hnext);
    [|by apply frontier_inv_new|done].
  unfold snapshot. split_and!; [lia|done|]. intros [?|?]%Hpub; [lia|done].
Qed.

(** ** Snapshots are stable *)

(** A reader at snapshot [s] sees records of this owner. *)
Definition sees (t : TransactionStatusTable) (owner : RecordOwner) (reader : option TxnId)
    (s : CommitSeq) : Prop :=
  visibility t owner reader s = Ok RecordVisible.

(** A move to a status that is not a commit the snapshot covers. *)
Lemma sees_updated t t' txn st owner reader s :
  status_updated t t' txn st → (∀ c, st = StatusCommitted c → s < c) →
  sees t' owner reader s ↔ sees t owner reader s.
Proof.
  intros (_ & Hmove & Hs) Hc. unfold sees. destruct owner as [x|c]; [|done]. cbn.
  case_bool_decide; [done|]. rewrite Hs. case_decide as D; [|done]. subst x. cbn.
  assert (∀ r, (let? found := status t txn in let? s0 := ok_or found (StatusUnknownTxn txn) in
     match s0 with
     | StatusActive => Ok RecordActive
     | StatusCommitted csn => Ok (if csn <=? s then RecordVisible else RecordNewerCommit csn)
     | StatusAborted => Ok RecordAborted
     end) = Ok r → r ≠ RecordVisible) as Hold.
  { intros r. destruct (status t txn) as [o|] eqn:Eo; [|done]. apply status_Ok in Eo.
    rewrite Eo in Hmove. inversion Hmove; subst; cbn; [done|]. by intros [= <-]. }
  split; [|intros E; by apply Hold in E].
  destruct st as [|c|]; [done| |done]. specialize (Hc c eq_refl).
  destruct (c <=? s) eqn:E; [bool_to_prop; lia|done].
Qed.

(** The status operation an operation of the frontier performs. *)
Definition vis_status (op : VisOp) : option StatusOp :=
  match op with
  | VStatus op => Some op
  | VPublish _ txn csn => Some (SCommit txn csn)
  | VRecovered _ txn csn => Some (SRecoverCommitted txn csn)
  | VFence => None
  end.

Lemma vis_exec_status op w :
  w_statuses (vis_exec op w).1 =
  match vis_status op with
  | Some sop => (status_exec sop (w_statuses w)).1
  | None => w_statuses w
  end.
Proof.
  destruct op as [op|seen txn csn|seen txn csn|]; cbn.
  - by destruct (status_exec op _).
  - unfold publish_commit. destruct (status_commit _ _ _) as [t [[]|]]; cbn; [|done].
    by destruct (mark_ready _ _ _).
  - unfold publish_recovered. destruct (recover_committed _ _ _) as [t [[]|]]; cbn; [|done].
    by destruct (mark_ready _ _ _).
  - done.
Qed.

(** Plain status operations of a run take no decision: decisions are published. *)
Definition undecided (op : VisOp) : Prop :=
  match op with
  | VStatus (SCommit _ _) | VStatus (SRecoverCommitted _ _) => False
  | _ => True
  end.

Lemma vis_exec_sees op w owner reader s :
  table_wf (w_statuses w) → undecided op → (∀ c, vis_csn op = Some c → s < c) →
  table_wf (w_statuses (vis_exec op w).1) ∧
  (sees (w_statuses (vis_exec op w).1) owner reader s ↔ sees (w_statuses w) owner reader s).
Proof.
  intros Hw Hu Hc. rewrite vis_exec_status. destruct (vis_status op) as [sop|] eqn:Es; [|done].
  destruct (status_exec sop (w_statuses w)) as [t' r] eqn:E. cbn [fst].
  destruct (status_exec_cases _ _ _ _ Hw E) as [Hw' [->|[Hup _]]]; [done|]. split; [done|].
  eapply sees_updated; [exact Hup|]. intros c Ec.
  destruct op as [[]|seen txn csn|seen txn csn|]; cbn in Hu; simplify_eq/=; auto; done.
Qed.

Lemma vis_run_sees ops w owner reader s :
  table_wf (w_statuses w) → Forall undecided ops → Forall (λ c, s < c) (omap vis_csn ops) →
  sees (w_statuses (vis_run ops w).1) owner reader s ↔ sees (w_statuses w) owner reader s.
Proof.
  revert w. induction ops as [|op ops IH]; intros w Hw Hu Hc; cbn; [done|].
  apply Forall_cons in Hu as [Hu1 Hu2].
  destruct (vis_exec_sees op w owner reader s) as [Hw1 Hs1]; [done|done| |].
  { intros c Ec. cbn in Hc. rewrite Ec in Hc. by inversion Hc. }
  specialize (IH (vis_exec op w).1 Hw1 Hu2).
  destruct (vis_exec op w) as [w1 r]. cbn [fst] in *.
  destruct (vis_run ops w1) as [w2 pub]. cbn [fst] in *.
  rewrite IH; [done|]. cbn in Hc. destruct (vis_csn op); [by inversion Hc|done].
Qed.

Lemma vis_run_published ops w c : c ∈ (vis_run ops w).2 → c ∈ omap vis_csn ops.
Proof.
  revert w. induction ops as [|op ops IH]; intros w; cbn; [done|].
  destruct (vis_exec op w) as [w1 r]. specialize (IH w1).
  destruct (vis_run ops w1) as [w2 pub]. cbn in *.
  destruct r, (vis_csn op); rewrite ?elem_of_cons; naive_solver.
Qed.

Lemma vis_run_wf ops w : table_wf (w_statuses w) → table_wf (w_statuses (vis_run ops w).1).
Proof.
  revert w. induction ops as [|op ops IH]; intros w Hw; cbn; [done|].
  pose proof (vis_exec_status op w) as Hs. destruct (vis_exec op w) as [w1 r]. cbn in Hs.
  specialize (IH w1). destruct (vis_run ops w1) as [w2 pub]. apply IH. rewrite Hs.
  destruct (vis_status op); [by apply status_exec_wf|done].
Qed.

Lemma vis_run_app ops1 ops2 w :
  vis_run (ops1 ++ ops2) w =
  ((vis_run ops2 (vis_run ops1 w).1).1, (vis_run ops1 w).2 ++ (vis_run ops2 (vis_run ops1 w).1).2).
Proof.
  revert w. induction ops1 as [|op ops1 IH]; intros w; cbn.
  { by destruct (vis_run ops2 w). }
  destruct (vis_exec op w) as [w1 r]. rewrite IH. destruct (vis_run ops1 w1) as [w2 pub]. cbn.
  by destruct r, (vis_csn op).
Qed.

(** A snapshot never changes under its reader: whatever interleaving of begins,
    aborts, out-of-order publications and recoveries follows, a record owner is
    visible at a snapshot taken earlier just when it was visible then.  Commit
    sequences are assigned once, as the append lane does. *)
Theorem snapshots_are_stable init ops1 ops2 owner reader :
  let w1 := (vis_run ops1 {| w_statuses := StatusTable_new; w_frontier := Frontier_new init |}).1 in
  init < U64_MAX → Forall undecided (ops1 ++ ops2) → NoDup (omap vis_csn (ops1 ++ ops2)) →
  Forall (λ c, init < c < U64_MAX) (omap vis_csn (ops1 ++ ops2)) →
  sees (w_statuses (vis_run ops2 w1).1) owner reader (snapshot (w_frontier w1)) ↔
  sees (w_statuses w1) owner reader (snapshot (w_frontier w1)).
Proof.
  intros w1 Hi Hu Hnd Hc. rewrite omap_app in Hnd, Hc. apply Forall_app in Hu as [_ Hu].
  apply Forall_app in Hc as [Hc1 Hc2]. apply NoDup_app in Hnd as (_ & Hdis & _).
  apply vis_run_sees; [apply vis_run_wf, table_new_wf|done|].
  assert (frontier_inv init (vis_run ops1
    {| w_statuses := StatusTable_new; w_frontier := Frontier_new init |}).2 (w_frontier w1))
    as (_ & _ & Hpre & _).
  { eapply (vis_run_inv init ops1 [] {| w_statuses := StatusTable_new; w_frontier := _ |});
      [by apply frontier_inv_new| |apply surjective_pairing].
    eapply Forall_impl; [exact Hc1|]. cbn. lia. }
  rewrite Forall_forall in Hc2. apply Forall_forall. intros c Hin. specialize (Hc2 c Hin).
  destruct (decide (snapshot (w_frontier w1) < c)); [done|]. exfalso.
  eapply Hdis; [|exact Hin]. eapply vis_run_published, Hpre. unfold snapshot in *. lia.
Qed.

(** ** Completion *)
Lemma vis_exec_decided op w x s :
  table_wf (w_statuses w) → status (w_statuses w) x = Ok (Some s) → s ≠ StatusActive →
  table_wf (w_statuses (vis_exec op w).1) ∧ status (w_statuses (vis_exec op w).1) x = Ok (Some s).
Proof.
  intros Hw Hs Hna. rewrite vis_exec_status. destruct (vis_status op) as [sop|]; [|done].
  split; [by apply status_exec_wf|by apply status_exec_decided].
Qed.

Lemma vis_run_decided ops w x s :
  table_wf (w_statuses w) → status (w_statuses w) x = Ok (Some s) → s ≠ StatusActive →
  table_wf (w_statuses (vis_run ops w).1) ∧ status (w_statuses (vis_run ops w).1) x = Ok (Some s).
Proof.
  revert w. induction ops as [|op ops IH]; intros w Hw Hs Hna; cbn; [done|].
  destruct (vis_exec_decided op w x s Hw Hs Hna) as [Hw1 Hs1].
  destruct (vis_exec op w) as [w1 r]. specialize (IH w1 Hw1 Hs1 Hna).
  by destruct (vis_run ops w1).
Qed.

Lemma wait_loop_spec env w csn txn w' r :
  table_wf (w_statuses w) → status (w_statuses w) txn = Ok (Some (StatusCommitted csn)) →
  wait_loop env w csn = (w', r) →
  status (w_statuses w') txn = Ok (Some (StatusCommitted csn)) ∧
  match r with
  | Some (Ok v) => v = snapshot (w_frontier w') ∧ csn ≤ v
  | Some (Err _) => True
  | None => snapshot (w_frontier w') < csn ∧ vf_recovery_required (w_frontier w') = false
  end.
Proof.
  revert w. induction env as [|ops env IH]; intros w Hw Hs; cbn [wait_loop];
    unfold wait_round; destruct (vf_recovery_required (w_frontier w)) eqn:Er; try (by intros [= <- <-]);
    destruct (csn <=? snapshot (w_frontier w)) eqn:Ec; bool_to_prop; try (by intros [= <- <-]).
  destruct (vis_run_decided ops w txn _ Hw Hs) as [Hw1 Hs1]; [done|].
  destruct (vf_poisoned _); [intros [= <- <-]; auto|]. by apply IH.
Qed.

(** A commit is acknowledged only when it is observable: if [complete_commit]
    returns a frontier, that frontier is the current snapshot, covers the commit
    and shows the records of the transaction to every reader; if it is still
    blocked, the commit is not covered and no recovery was demanded, so neither a
    covered commit nor a fenced runtime leaves the waiter waiting. *)
Theorem completed_commit_is_visible seen between env w txn csn w' r :
  table_wf (w_statuses w) → complete_commit seen between env w txn csn = (w', r) →
  match r with
  | Some (Ok v) => v = snapshot (w_frontier w') ∧ csn ≤ v ∧
      ∀ reader, sees (w_statuses w') (OwnerTransaction txn) reader v
  | Some (Err _) => True
  | None => snapshot (w_frontier w') < csn ∧ vf_recovery_required (w_frontier w') = false
  end.
Proof.
  intros Hw. unfold complete_commit, publish_commit.
  destruct (status_commit _ _ _) as [t [[]|e]] eqn:Es; [|by intros [= <- <-]].
  apply status_commit_updated in Es as (Hwt & _ & _ & _ & _ & Hs); [|done].
  destruct (mark_ready _ _ _) as [f [x|e]]; [|by intros [= <- <-]].
  destruct (vis_run_decided between {| w_statuses := t; w_frontier := f |} txn (StatusCommitted csn))
    as [Hw1 Hs1]; [done|cbn; by rewrite Hs, decide_True|done|].
  unfold wait_visible. destruct (vf_poisoned _); [by intros [= <- <-]|].
  intros (Hst & Hr)%(wait_loop_spec env _ csn txn); [|done..].
  destruct r as [[v|]|]; [|done..]. destruct Hr as [-> Hle]. split_and!; [done..|].
  intros reader. unfold sees, visibility. case_bool_decide; [done|]. rewrite Hst. cbn.
  by rewrite (proj2 (Z.leb_le _ _) Hle).
Qed.

(** ** Concrete runs: the second commit publishes before the first *)
Definition gap_ops : list VisOp :=
  [VStatus (SBegin 1); VStatus (SBegin 2); VPublish 0 2 2].
Definition gap_world : World :=
  (vis_run gap_ops {| w_statuses := StatusTable_new; w_frontier := Frontier_new 0 |}).1.

Lemma frontier_is_longest_prefix_witness :
  let s := snapshot (w_frontier (vis_run [VPublish 0 1 1] gap_world).1) in s = 2 ∧ s + 1 ∉ [2; 1].
Proof.
  destruct (frontier_is_longest_prefix 0 StatusTable_new (gap_ops ++ [VPublish 0 1 1])
    (vis_run [VPublish 0 1 1] gap_world).1 [2; 1]) as (_ & _ & H).
  - done.
  - repeat constructor.
  - vm_compute. reflexivity.
  - split; [vm_compute; reflexivity|exact H].
Defined.

Lemma snapshots_are_stable_witness :
  sees (w_statuses (vis_run [VPublish 0 1 1] gap_world).1) (OwnerTransaction 1) None 0 ↔
  sees (w_statuses gap_world) (OwnerTransaction 1) None 0.
Proof.
  apply (snapshots_are_stable 0 gap_ops [VPublish 0 1 1] (OwnerTransaction 1) None).
  - done.
  - repeat constructor.
  - vm_compute. repeat constructor; set_solver.
  - repeat constructor.
Defined.

Lemma completed_commit_is_visible_witness :
  ∃ w', complete_commit 0 [] [[VPublish 0 1 1]]
          (vis_run [VStatus (SBegin 1); VStatus (SBegin 2)]
             {| w_statuses := StatusTable_new; w_frontier := Frontier_new 0 |}).1 2 2
        = (w', Some (Ok 2)) ∧
    sees (w_statuses w') (OwnerTransaction 2) (Some 5) 2.
Proof.
  eexists. split; [vm_compute; reflexivity|].
  refine (proj2 (proj2 (completed_commit_is_visible 0 [] [[VPublish 0 1 1]]
    (vis_run [VStatus (SBegin 1); VStatus (SBegin 2)]
      {| w_statuses := StatusTable_new; w_frontier := Frontier_new 0 |}).1 2 2 _ (Some (Ok 2)) _ _)) _).
  - done.
  - vm_compute. reflexivity.
Defined.
