(* ===== verification/WriteIntent.v ===== *)
(** * Write intents

    Models [crates/seerdb/src/vnext/write_intent.rs]: exclusive ownership of
    logical keys by transactions, acquired in canonical order as one batch and
    released by a guard.  Keys select a shard through the standard library's
    [DefaultHasher], whose algorithm its documentation leaves open; the hash is a
    parameter. *)
From S2P Require Import Prelude StdCollections Ids Log WriteSet Shards.

Local Open Scope Z_scope.
Local Open Scope seer_scope.

(** [IntentKey], compared lexicographically by its derived order. *)
Abbreviation IntentKey := (StorageObjectId * bytes)%type.

Record IntentEntry := { ie_owner : TxnId; ie_holders : Z }.

#[global] Instance IntentEntry_eq_dec : EqDecision IntentEntry.
Proof. solve_decision. Defined.

Abbreviation WriteIntentTable := (list (Shard IntentKey IntentEntry)).

(** [DefaultHasher] applied to a key. *)
Class IntentHasher := intent_hash : IntentKey → Z.

#[global] Instance intent_selector `{IntentHasher} : ShardSelector IntentKey :=
  {| shard_of := λ k, mask_shard (intent_hash k); shard_of_lt := λ k, mask_shard_lt (intent_hash k) |}.

Inductive WriteIntentError :=
| IntentWrongTransaction (expected actual : TxnId) (ordinal : Z)
| IntentNonCanonicalOrder (object : StorageObjectId) (key : bytes)
| IntentConflict (object : StorageObjectId) (key : bytes) (owner : TxnId)
| IntentPoisoned (shard : nat)
| IntentHolderCountExhausted.

Record WriteIntentGuard := { g_txn : TxnId; g_keys : list IntentKey; g_released : bool }.

Section intents.
Context `{IntentHasher}.

(** [IntentKey::from_effect] *)
Definition intent_from_effect (e : FinalEffect) : IntentKey := (fe_object e, fe_key e).

(** [WriteIntentTable::new] *)
Definition WriteIntentTable_new : WriteIntentTable := table_new.

(** The first loop of [try_acquire]; [keys] is the vector filled so far. *)
Fixpoint collect_keys (txn : TxnId) (effects : list FinalEffect) (keys : list IntentKey)
    : result (list IntentKey) WriteIntentError :=
  match effects with
  | [] => Ok keys
  | effect :: effects' =>
      if negb (fe_txn_id effect =? txn)
      then Err (IntentWrongTransaction txn (fe_txn_id effect) (fe_ordinal effect))
      else
        let key := intent_from_effect effect in
        if match last keys with
           | Some previous => match cmp previous key with Lt => false | _ => true end
           | None => false
           end
        then Err (IntentNonCanonicalOrder key.1 key.2)
        else collect_keys txn effects' (keys ++ [key])
  end.

Definition release_key (txn : TxnId) (t : WriteIntentTable) (key : IntentKey) : WriteIntentTable :=
  let entries := shard_lock_anyway t (shard_of key) in
  match entries !! key with
  | Some entry =>
      if (ie_owner entry =? txn) && (1 <? ie_holders entry) then
        shard_store t (shard_of key)
          (<[key := {| ie_owner := ie_owner entry; ie_holders := ie_holders entry - 1 |}]> entries)
      else if ie_owner entry =? txn then shard_store t (shard_of key) (delete key entries)
      else t
  | None => t
  end.

Definition rollback (txn : TxnId) (t : WriteIntentTable) (keys : list IntentKey)
    : WriteIntentTable :=
  fold_left (release_key txn) (rev keys) t.

(** One critical section of the second loop of [try_acquire]: the lock of the
    key's shard is taken, the entry examined and updated. *)
Definition acquire_key (txn : TxnId) (t : WriteIntentTable) (key : IntentKey)
    : WriteIntentTable * result unit WriteIntentError :=
  let shard := shard_of key in
  match shard_lock t shard with
  | Err _ => (t, Err (IntentPoisoned shard))
  | Ok entries =>
      match entries !! key with
      | None =>
          (shard_store t shard (<[key := {| ie_owner := txn; ie_holders := 1 |}]> entries), Ok tt)
      | Some entry =>
          if ie_owner entry =? txn then
            match checked_add (ie_holders entry) 1 with
            | None => (t, Err IntentHolderCountExhausted)
            | Some next =>
                (shard_store t shard
                   (<[key := {| ie_owner := ie_owner entry; ie_holders := next |}]> entries), Ok tt)
            end
          else (t, Err (IntentConflict key.1 key.2 (ie_owner entry)))
      end
  end.

(** The loop; [acquired] is [keys[..acquired]], given back on any failure. *)
Fixpoint acquire_loop (txn : TxnId) (acquired rest : list IntentKey) (t : WriteIntentTable)
    : WriteIntentTable * result unit WriteIntentError :=
  match rest with
  | [] => (t, Ok tt)
  | key :: rest' =>
      match acquire_key txn t key with
      | (t', Ok _) => acquire_loop txn (acquired ++ [key]) rest' t'
      | (t', Err e) => (rollback txn t' acquired, Err e)
      end
  end.

Definition try_acquire (txn : TxnId) (effects : list FinalEffect) (t : WriteIntentTable)
    : WriteIntentTable * result WriteIntentGuard WriteIntentError :=
  match collect_keys txn effects [] with
  | Err e => (t, Err e)
  | Ok keys =>
      match acquire_loop txn [] keys t with
      | (t', Err e) => (t', Err e)
      | (t', Ok _) => (t', Ok {| g_txn := txn; g_keys := keys; g_released := false |})
      end
  end.

Definition intent_owner (t : WriteIntentTable) (object : StorageObjectId) (key : bytes)
    : result (option TxnId) WriteIntentError :=
  let? entries := map_err IntentPoisoned (shard_lock t (shard_of (object, key))) in
  Ok (ie_owner <$> entries !! (object, key)).

(** The binary search of [owns] over the strictly sorted keys of the guard. *)
Definition owns (g : WriteIntentGuard) (object : StorageObjectId) (key : bytes) : bool :=
  BTreeSet.contains (object, key) (g_keys g).

Definition release_all (g : WriteIntentGuard) (t : WriteIntentTable)
    : WriteIntentGuard * WriteIntentTable :=
  if g_released g then (g, t)
  else ({| g_txn := g_txn g; g_keys := g_keys g; g_released := true |},
        rollback (g_txn g) t (g_keys g)).

(** [release] consumes the guard, whose drop then runs [release_all] again. *)
Definition guard_release (g : WriteIntentGuard) (t : WriteIntentTable) : WriteIntentTable :=
  let '(g', t') := release_all g t in (release_all g' t').2.

(** ** Critical sections count holders

    [hs] lists the key ownerships handed out and not given back, one entry per
    acquisition.  Threads interleave at the shard locks, so any concurrent
    execution of batches and guards is a sequence of these steps. *)
Abbreviation Holding := (TxnId * IntentKey)%type.

Definition holders_of (k : IntentKey) (hs : list Holding) : list Holding :=
  filter (λ h, h.2 = k) hs.

Inductive intent_step : WriteIntentTable * list Holding → WriteIntentTable * list Holding → Prop :=
| step_acquire txn k t t' hs :
    acquire_key txn t k = (t', Ok tt) → intent_step (t, hs) (t', (txn, k) :: hs)
| step_refuse txn k t t' e hs :
    acquire_key txn t k = (t', Err e) → intent_step (t, hs) (t', hs)
| step_release txn k t hs hs' :
    hs ≡ₚ (txn, k) :: hs' → intent_step (t, hs) (release_key txn t k, hs').

(** What an entry says when [l] are the holders of its key. *)
Definition entry_of (l : list Holding) : option IntentEntry :=
  match l with
  | [] => None
  | h :: _ => Some {| ie_owner := h.1; ie_holders := len l |}
  end.

Definition same_owner (l : list Holding) : Prop :=
  ∀ h h', h ∈ l → h' ∈ l → h.1 = h'.1.

Definition intents_repr (t : WriteIntentTable) (hs : list Holding) : Prop :=
  table_wf t ∧ ∀ k, same_owner (holders_of k hs) ∧ tget t k = entry_of (holders_of k hs).

Lemma entry_of_perm l l' : l ≡ₚ l' → same_owner l → entry_of l = entry_of l'.
Proof.
  intros Hp Hs. unfold entry_of, len. rewrite (Permutation_length Hp).
  destruct l as [|h l]; [by apply Permutation_nil_l in Hp; subst|].
  destruct l' as [|h' l']; [by apply Permutation_nil_r in Hp|].
  f_equal. f_equal. apply Hs; [left|]. rewrite Hp. left.
Qed.

Lemma same_owner_perm l l' : l ≡ₚ l' → same_owner l → same_owner l'.
Proof. intros Hp Hs h h' Hh Hh'. apply Hs; by rewrite Hp. Qed.

Lemma holders_of_perm k hs hs' : hs ≡ₚ hs' → holders_of k hs ≡ₚ holders_of k hs'.
Proof. apply filter_Permutation. Qed.

Lemma holders_of_cons k h hs :
  holders_of k (h :: hs) = if decide (h.2 = k) then h :: holders_of k hs else holders_of k hs.
Proof. unfold holders_of. by rewrite filter_cons. Qed.

Lemma intents_repr_perm t hs hs' : hs ≡ₚ hs' → intents_repr t hs → intents_repr t hs'.
Proof.
  intros Hp [Hw Hk]. split; [done|]. intros k. destruct (Hk k) as [Hs Hg].
  pose proof (holders_of_perm k _ _ Hp) as Hpk.
  split; [by eapply same_owner_perm|]. rewrite Hg. by apply entry_of_perm.
Qed.

Lemma acquire_key_cases txn t k t' r :
  table_wf t → acquire_key txn t k = (t', r) →
  table_wf t' ∧ (∀ i, sh_poisoned <$> t' !! i = sh_poisoned <$> t !! i) ∧
  match r with
  | Ok _ =>
      (∀ e, tget t k = Some e → ie_owner e = txn) ∧
      ∀ x, tget t' x = if decide (k = x) then
        Some {| ie_owner := txn;
                ie_holders := match tget t k with Some e => ie_holders e + 1 | None => 1 end |}
        else tget t x
  | Err e => t' = t ∧
      ∀ o key w, e = IntentConflict o key w → w ≠ txn ∧ k = (o, key) ∧
        ie_owner <$> tget t k = Some w
  end.
Proof.
  intros Hw. unfold acquire_key.
  destruct (shard_lock t _) as [m|i] eqn:El.
  2:{ intros [<- <-]%pair_equal_spec. split_and!; [done..|]. congruence. }
  pose proof (shard_lock_Ok _ _ _ El) as <-. fold (tget t k).
  destruct (tget t k) as [e|] eqn:Ek; [destruct (ie_owner e =? txn) eqn:Eo; bool_to_prop|].
  - destruct (checked_add _ 1) as [n|] eqn:En.
    2:{ intros [<- <-]%pair_equal_spec. split_and!; [done..|]. congruence. }
    apply checked_add_Some in En as [-> _]. intros [<- <-]%pair_equal_spec.
    split_and!; [by apply shard_store_wf|apply shard_store_poison|congruence|].
    intros x. rewrite tget_insert by done. case_decide; congruence.
  - intros [<- <-]%pair_equal_spec. split_and!; [done..|]. intros o key w [= <- <- <-].
    split_and!; [done|by destruct k|done].
  - intros [<- <-]%pair_equal_spec.
    split_and!; [by apply shard_store_wf|apply shard_store_poison|congruence|].
    intros x. by rewrite tget_insert.
Qed.

Lemma release_key_cases txn t k :
  table_wf t →
  table_wf (release_key txn t k) ∧
  (∀ i, sh_poisoned <$> release_key txn t k !! i = sh_poisoned <$> t !! i) ∧
  ∀ x, tget (release_key txn t k) x = if decide (k = x) then
    match tget t k with
    | Some e =>
        if ie_owner e =? txn then
          if 1 <? ie_holders e
          then Some {| ie_owner := ie_owner e; ie_holders := ie_holders e - 1 |} else None
        else Some e
    | None => None
    end else tget t x.
Proof.
  intros Hw. unfold release_key. fold (tget t k).
  destruct (tget t k) as [e|] eqn:Ek.
  2:{ split_and!; [done..|]. intros x. case_decide; congruence. }
  destruct (ie_owner e =? txn) eqn:Eo; cbn [andb].
  2:{ split_and!; [done..|]. intros x. case_decide; congruence. }
  destruct (1 <? ie_holders e).
  - split_and!; [by apply shard_store_wf|apply shard_store_poison|].
    intros x. by rewrite tget_insert.
  - split_and!; [by apply shard_store_wf|apply shard_store_poison|].
    intros x. by rewrite tget_delete.
Qed.

Lemma same_owner_cons h l : (∀ h', h' ∈ l → h'.1 = h.1) → same_owner (h :: l).
Proof.
  intros Hl x y. rewrite !elem_of_cons. intros [->|Hx] [->|Hy]; [done| | |].
  - symmetry. by apply Hl.
  - by apply Hl.
  - by rewrite (Hl x Hx), (Hl y Hy).
Qed.

Lemma entry_of_owner l e h : same_owner l → entry_of l = Some e → h ∈ l → h.1 = ie_owner e.
Proof.
  intros Hs He Hh. destruct l as [|h' l]; [done|]. injection He as <-. cbn.
  apply Hs; [done|left].
Qed.

Lemma acquire_repr txn t k t' hs :
  intents_repr t hs → acquire_key txn t k = (t', Ok tt) → intents_repr t' ((txn, k) :: hs).
Proof.
  intros [Hw Hk] (Hw' & _ & Hown & Hget)%acquire_key_cases; [|done]. split; [done|]. intros x.
  rewrite holders_of_cons, Hget. cbn [fst snd]. destruct (Hk x) as [Hs Hg].
  case_decide as D; [subst x|by rewrite Hg].
  rewrite Hg. rewrite Hg in Hown. split.
  - apply same_owner_cons. intros h Hh. cbn.
    destruct (entry_of (holders_of k hs)) as [e|] eqn:He.
    + rewrite (entry_of_owner _ e h) by done. by apply Hown.
    + destruct (holders_of k hs); [by apply elem_of_nil in Hh|done].
  - unfold entry_of, len in *. destruct (holders_of k hs); cbn; [done|]. f_equal. f_equal. lia.
Qed.

Lemma release_repr txn t k hs :
  intents_repr t ((txn, k) :: hs) → intents_repr (release_key txn t k) hs.
Proof.
  intros [Hw Hk]. destruct (release_key_cases txn t k Hw) as (Hw' & _ & Hget).
  split; [done|]. intros x. rewrite Hget. specialize (Hk x). rewrite holders_of_cons in Hk.
  cbn [fst snd] in Hk. case_decide as D; [subst x|done].
  destruct Hk as [Hs Hg]. split.
  { intros h h' Hh Hh'. apply Hs; by right. }
  rewrite Hg. cbn [entry_of fst ie_owner ie_holders]. rewrite Z.eqb_refl.
  destruct (holders_of k hs) as [|h l] eqn:El; [done|].
  rewrite (proj2 (Z.ltb_lt _ _)) by (unfold len; cbn; lia). cbn. f_equal. f_equal.
  - apply (Hs (txn, k) h); [left|right; left].
  - unfold len. cbn. lia.
Qed.

Lemma intent_step_repr c c' :
  intent_step c c' → intents_repr c.1 c.2 → intents_repr c'.1 c'.2.
Proof.
  intros Hstep Hr. destruct Hstep as [txn k t t' hs E|txn k t t' e hs E|txn k t hs hs' Hp]; cbn in *.
  - by eapply acquire_repr.
  - destruct Hr as [Hw Hk]. apply acquire_key_cases in E as (_ & _ & -> & _); done.
  - apply release_repr. by eapply intents_repr_perm.
Qed.

Lemma intents_repr_new : intents_repr WriteIntentTable_new [].
Proof.
  split; [apply table_new_wf|]. intros k.
  split; [by intros h h' ?%elem_of_nil|]. unfold WriteIntentTable_new. by rewrite table_new_get.
Qed.

(** C33. Write intents exclude each other under any interleaving of threads at the
    shard locks: two transactions never hold the same key, the table names a key's
    holder and counts its acquisitions exactly, and a key nobody holds has no
    entry. *)
Theorem intents_are_exclusive t hs :
  rtc intent_step (WriteIntentTable_new, []) (t, hs) →
  (∀ x y k, (x, k) ∈ hs → (y, k) ∈ hs → x = y) ∧
  ∀ k, tget t k = match holders_of k hs with
                  | [] => None
                  | h :: _ => Some {| ie_owner := h.1; ie_holders := len (holders_of k hs) |}
                  end.
Proof.
  intros Hr. assert (intents_repr t hs) as [_ Hk].
  { change (intents_repr (t, hs).1 (t, hs).2).
    remember (WriteIntentTable_new, []) as c0 eqn:E0.
    assert (intents_repr c0.1 c0.2) as Hinit by (subst; apply intents_repr_new). clear E0.
    induction Hr as [|c c1 c2 Hs _ IH]; [done|]. by apply IH, (intent_step_repr c). }
  split.
  - intros x y k Hx Hy. destruct (Hk k) as [Hs _].
    apply (Hs (x, k) (y, k)); by apply list_elem_of_filter.
  - intros k. destruct (Hk k) as [_ ->]. unfold entry_of. by destruct (holders_of k hs).
Qed.

(** ** Batches and guards *)
Lemma rollback_repr txn keys t hs :
  intents_repr t (((txn,.) <$> keys) ++ hs) → intents_repr (rollback txn t keys) hs.
Proof.
  unfold rollback. revert t. induction keys as [|k keys IH] using rev_ind; intros t Hr; cbn; [done|].
  rewrite rev_app_distr. cbn. apply IH, release_repr.
  eapply intents_repr_perm; [|exact Hr]. rewrite fmap_app. cbn.
  by rewrite <-app_assoc, Permutation_middle.
Qed.

Lemma rollback_poison txn keys t i :
  table_wf t → sh_poisoned <$> rollback txn t keys !! i = sh_poisoned <$> t !! i.
Proof.
  unfold rollback. generalize (rev keys) as l. intros l. revert t.
  induction l as [|k l IH]; intros t Hw; cbn; [done|].
  destruct (release_key_cases txn t k Hw) as (Hw' & Hp & _). by rewrite IH, Hp.
Qed.

(** The holders determine the table. *)
Lemma intents_repr_equiv t t' hs :
  intents_repr t hs → intents_repr t' hs →
  (∀ i, sh_poisoned <$> t' !! i = sh_poisoned <$> t !! i) → table_equiv t' t.
Proof.
  intros [Hw Hk] [Hw' Hk'] Hp. repeat split.
  - by rewrite Hw, Hw'.
  - done.
  - intros k. destruct (Hk k) as [_ ->], (Hk' k) as [_ ->]. done.
Qed.

Lemma acquire_loop_spec txn acquired rest t hs t' r :
  intents_repr t (((txn,.) <$> acquired) ++ hs) → acquire_loop txn acquired rest t = (t', r) →
  (∀ i, sh_poisoned <$> t' !! i = sh_poisoned <$> t !! i) ∧
  match r with
  | Ok _ => intents_repr t' (((txn,.) <$> acquired ++ rest) ++ hs)
  | Err e => intents_repr t' hs ∧
      ∀ o key w, e = IntentConflict o key w → w ≠ txn ∧ (w, (o, key)) ∈ hs
  end.
Proof.
  revert acquired t. induction rest as [|k rest IH]; intros acquired t Hr; cbn.
  { intros [<- <-]%pair_equal_spec. by rewrite app_nil_r. }
  destruct (acquire_key txn t k) as [t1 [[]|e]] eqn:E.
  - intros El. pose proof (acquire_repr _ _ _ _ _ Hr E) as Hr1.
    apply acquire_key_cases in E as (_ & Hp & _); [|apply Hr].
    apply IH in El as [Hp2 Hres].
    2:{ eapply intents_repr_perm; [|exact Hr1]. rewrite fmap_app. cbn.
        rewrite <-app_assoc. apply Permutation_middle. }
    split; [intros i; by rewrite Hp2, Hp|]. by rewrite <-app_assoc in Hres.
  - intros [<- <-]%pair_equal_spec.
    apply acquire_key_cases in E as (_ & _ & -> & Hconf); [|apply Hr]. split.
    { intros i. apply rollback_poison. apply Hr. }
    split; [by apply rollback_repr|]. intros o key w Ew.
    destruct (Hconf o key w Ew) as (Hne & -> & Hown). split; [done|].
    destruct Hr as [_ Hk]. destruct (Hk (o, key)) as [_ Hg]. rewrite Hg in Hown.
    unfold entry_of in Hown. destruct (holders_of _ _) as [|h l] eqn:Eh; [done|].
    injection Hown as Hw. assert (h ∈ holders_of (o, key) (((txn,.) <$> acquired) ++ hs)) as Hin
      by (rewrite Eh; left).
    apply list_elem_of_filter in Hin as [Hk2 Hin]. destruct h as [h1 h2]. cbn in *. subst.
    apply elem_of_app in Hin as [(x & [= -> _] & _)%list_elem_of_fmap|Hin]; done.
Qed.

Lemma collect_keys_conflict txn effects keys o key w :
  collect_keys txn effects keys ≠ Err (IntentConflict o key w).
Proof.
  revert keys. induction effects as [|e effects IH]; intros keys; cbn; [done|].
  destruct (negb _); [done|]. by destruct (match last keys with Some _ => _ | None => _ end).
Qed.

Lemma collect_keys_spec txn effects keys out :
  collect_keys txn effects keys = Ok out → StronglySorted lt_ord keys →
  out = keys ++ (intent_from_effect <$> effects) ∧ StronglySorted lt_ord out ∧
  Forall (λ e, fe_txn_id e = txn) effects.
Proof.
  revert keys. induction effects as [|e effects IH]; intros keys; cbn [collect_keys fmap list_fmap].
  { intros [= <-] Hs. by rewrite app_nil_r. }
  destruct (_ =? txn) eqn:Et; cbn [negb]; [|done]. bool_to_prop.
  destruct (match last keys with Some _ => _ | None => _ end) eqn:El; [done|].
  intros E Hs. apply IH in E as (-> & Hs' & Hf).
  - rewrite <-app_assoc in Hs'. rewrite <-app_assoc. split_and!; [done..|by constructor].
  - destruct keys as [|p keys' _] using rev_ind; [cbn; repeat constructor|].
    rewrite last_snoc in El. destruct (cmp p _) eqn:Ec; [done| |done].
    apply StronglySorted_app. split_and!; [|done|repeat constructor].
    intros x y Hx ->%list_elem_of_singleton.
    apply elem_of_app in Hx as [Hx| ->%list_elem_of_singleton]; [|done].
    apply (cmp_trans _ p); [|done].
    apply StronglySorted_app in Hs as (Hlt & _). by apply Hlt; [|left].
Qed.

(** Acquiring a batch is all or nothing.  On success the guard holds exactly the
    keys of the effects, in strictly increasing order, and the table counts each
    of them once more.  On failure the table is as it was, whichever key failed,
    and a reported conflict names a transaction other than the caller that holds
    the reported key. *)
Theorem try_acquire_outcome txn effects t hs t' r :
  intents_repr t hs → try_acquire txn effects t = (t', r) →
  match r with
  | Ok g =>
      g_txn g = txn ∧ g_keys g = intent_from_effect <$> effects ∧
      StronglySorted lt_ord (g_keys g) ∧ Forall (λ e, fe_txn_id e = txn) effects ∧
      intents_repr t' (((txn,.) <$> g_keys g) ++ hs)
  | Err e =>
      table_equiv t' t ∧
      ∀ o key w, e = IntentConflict o key w → w ≠ txn ∧ (w, (o, key)) ∈ hs
  end.
Proof.
  intros Hr. unfold try_acquire.
  destruct (collect_keys txn effects []) as [keys|e] eqn:Ec.
  2:{ intros [<- <-]%pair_equal_spec. split; [done|]. intros o key w ->. exfalso.
      by eapply collect_keys_conflict. }
  apply collect_keys_spec in Ec as (-> & Hs & Hf); [|constructor]. cbn [app] in *.
  destruct (acquire_loop _ _ _ _) as [t1 [[]|e]] eqn:El; intros [<- <-]%pair_equal_spec;
    apply (acquire_loop_spec _ _ _ _ hs) in El as [Hp Hres]; [|done| |done].
  - by split_and!.
  - destruct Hres as [Hr1 Hc]. split; [by eapply intents_repr_equiv|done].
Qed.

(** Releasing a guard gives back exactly what it acquired: after it the table
    counts the other holders only, so nested guards of one transaction do not
    release each other's keys and dropping the released guard changes nothing. *)
Theorem guard_release_exact g t hs :
  g_released g = false → intents_repr t (((g_txn g,.) <$> g_keys g) ++ hs) →
  intents_repr (guard_release g t) hs.
Proof.
  intros Hg Hr. unfold guard_release, release_all. rewrite Hg. cbn. by apply rollback_repr.
Qed.
End intents.

(** ** Concrete runs: transaction 2 holds one of the keys transaction 1 wants *)
#[local] Instance object_hasher : IntentHasher := λ k, k.1.

Definition key_a : IntentKey := (1, [u8 97]).
Definition key_b : IntentKey := (2, [u8 98]).
Definition put_of (txn : TxnId) (ordinal : Z) (k : IntentKey) : FinalEffect :=
  {| fe_mutation := ordered_put txn ordinal k.1 k.2 [u8 0] |}.
Definition blocked_table : WriteIntentTable := (acquire_key 2 WriteIntentTable_new key_b).1.

Lemma blocked_step : acquire_key 2 WriteIntentTable_new key_b = (blocked_table, Ok tt).
Proof.
  assert ((acquire_key 2 WriteIntentTable_new key_b).2 = Ok tt) as E by (vm_compute; reflexivity).
  unfold blocked_table. rewrite <-E. apply surjective_pairing.
Qed.

Lemma intents_are_exclusive_witness :
  tget blocked_table key_b = Some {| ie_owner := 2; ie_holders := 1 |} ∧
  tget blocked_table key_a = None.
Proof.
  assert (rtc intent_step (WriteIntentTable_new, []) (blocked_table, [(2, key_b)])) as Hr.
  { eapply rtc_once, step_acquire, blocked_step. }
  destruct (intents_are_exclusive blocked_table [(2, key_b)] Hr) as [_ Hk].
  split; rewrite Hk; vm_compute; reflexivity.
Defined.

Lemma try_acquire_outcome_witness :
  (try_acquire 1 [put_of 1 0 key_a; put_of 1 1 key_b] blocked_table).2
    = Err (IntentConflict 2 [u8 98] 2) ∧
  table_equiv (try_acquire 1 [put_of 1 0 key_a; put_of 1 1 key_b] blocked_table).1 blocked_table.
Proof.
  set (c := try_acquire 1 [put_of 1 0 key_a; put_of 1 1 key_b] blocked_table).
  assert (c.2 = Err (IntentConflict 2 [u8 98] 2)) as E by (vm_compute; reflexivity).
  split; [exact E|].
  refine (proj1 (try_acquire_outcome 1 [put_of 1 0 key_a; put_of 1 1 key_b] blocked_table
    [(2, key_b)] c.1 (Err (IntentConflict 2 [u8 98] 2)) _ _)).
  - exact (acquire_repr _ _ _ _ _ intents_repr_new blocked_step).
  - fold c. rewrite <-E. apply surjective_pairing.
Defined.

Lemma guard_release_exact_witness :
  intents_repr (guard_release {| g_txn := 2; g_keys := [key_b]; g_released := false |} blocked_table) [].
Proof.
  apply guard_release_exact; [reflexivity|].
  exact (acquire_repr _ _ _ _ _ intents_repr_new blocked_step).
Defined.
