(* ===== verification/Admission.v ===== *)
(** * Runtime admission

    Models [crates/seerdb/src/vnext/runtime_admission.rs]: commit membership, the
    checkpoint drain and the terminal recovery fence.  The mutex is its poison
    flag; each function below is one critical section, and the drain's wait on
    the condition variable is the boundary between [checkpoint_enter] and
    [drain_round]. *)
From S2P Require Import Prelude.

Local Open Scope Z_scope.
Local Open Scope seer_scope.

Inductive RuntimeAdmissionState := AdmissionOpen | AdmissionCheckpointing | AdmissionRecoveryRequired.

Inductive RuntimeAdmissionError :=
| AdmissionCheckpointInProgress
| AdmissionErrRecoveryRequired
| AdmissionPoisoned
| AdmissionCommitCountExhausted.

Record RuntimeAdmission := {
  ra_checkpointing : bool;
  ra_active_commits : Z;
  ra_recovery_required : bool;
  ra_poisoned : bool
}.

(** [RuntimeAdmission::new] *)
Definition Admission_new : RuntimeAdmission :=
  {| ra_checkpointing := false; ra_active_commits := 0; ra_recovery_required := false;
     ra_poisoned := false |}.

Definition set_admission (s : RuntimeAdmission) (checkpointing : bool) (active : Z)
    : RuntimeAdmission :=
  {| ra_checkpointing := checkpointing; ra_active_commits := active;
     ra_recovery_required := ra_recovery_required s; ra_poisoned := ra_poisoned s |}.

Definition admission_mode (s : RuntimeAdmission) : RuntimeAdmissionState :=
  if ra_recovery_required s then AdmissionRecoveryRequired
  else if ra_checkpointing s then AdmissionCheckpointing
  else AdmissionOpen.

Definition admit_commit (s : RuntimeAdmission)
    : RuntimeAdmission * result unit RuntimeAdmissionError :=
  if ra_poisoned s then (s, Err AdmissionPoisoned)
  else
    match admission_mode s with
    | AdmissionOpen =>
        match checked_add (ra_active_commits s) 1 with
        | None => (s, Err AdmissionCommitCountExhausted)
        | Some n => (set_admission s (ra_checkpointing s) n, Ok tt)
        end
    | AdmissionCheckpointing => (s, Err AdmissionCheckpointInProgress)
    | AdmissionRecoveryRequired => (s, Err AdmissionErrRecoveryRequired)
    end.

Definition ensure_read_admission (s : RuntimeAdmission) : result unit RuntimeAdmissionError :=
  if ra_recovery_required s then Err AdmissionErrRecoveryRequired
  else if ra_poisoned s then Err AdmissionPoisoned
  else Ok tt.

(** [begin_checkpoint] up to its first wait: [Ok true] returns the guard at once,
    [Ok false] waits for the admitted commits. *)
Definition checkpoint_enter (s : RuntimeAdmission)
    : RuntimeAdmission * result bool RuntimeAdmissionError :=
  if ra_poisoned s then (s, Err AdmissionPoisoned)
  else
    match admission_mode s with
    | AdmissionOpen =>
        (set_admission s true (ra_active_commits s), Ok (ra_active_commits s =? 0))
    | AdmissionCheckpointing => (s, Err AdmissionCheckpointInProgress)
    | AdmissionRecoveryRequired => (s, Err AdmissionErrRecoveryRequired)
    end.

(** One wakeup of the drain loop. *)
Definition drain_round (s : RuntimeAdmission) : result bool RuntimeAdmissionError :=
  if ra_poisoned s then Err AdmissionPoisoned
  else if ra_recovery_required s then Err AdmissionErrRecoveryRequired
  else Ok (ra_active_commits s =? 0).

Definition admission_require_recovery (s : RuntimeAdmission) : RuntimeAdmission :=
  {| ra_checkpointing := ra_checkpointing s; ra_active_commits := ra_active_commits s;
     ra_recovery_required := true; ra_poisoned := ra_poisoned s |}.

Definition admit_visibility (s : RuntimeAdmission) : result unit RuntimeAdmissionError :=
  if ra_poisoned s then Err AdmissionPoisoned
  else if ra_recovery_required s then Err AdmissionErrRecoveryRequired
  else Ok tt.

Definition release_commit (s : RuntimeAdmission) : RuntimeAdmission :=
  if ra_poisoned s then s
  else if negb (ra_active_commits s =? 0)
  then set_admission s (ra_checkpointing s) (ra_active_commits s - 1)
  else s.

Definition finish_checkpoint (s : RuntimeAdmission) : RuntimeAdmission :=
  if ra_poisoned s then s else set_admission s false (ra_active_commits s).

(** ** Threads

    [commits] is the number of live commit guards; a checkpoint is absent, waits in
    its drain loop, holds its guard, or has failed in the loop. *)
Inductive CheckpointPhase := CheckpointNone | CheckpointDraining | CheckpointHeld | CheckpointFailed.

Record AdmissionWorld := {
  aw_state : RuntimeAdmission;
  aw_commits : nat;
  aw_checkpoint : CheckpointPhase
}.

Definition aw (s : RuntimeAdmission) (n : nat) (c : CheckpointPhase) : AdmissionWorld :=
  {| aw_state := s; aw_commits := n; aw_checkpoint := c |}.

Inductive admission_step : AdmissionWorld → AdmissionWorld → Prop :=
| step_admit s s' n c : admit_commit s = (s', Ok tt) → admission_step (aw s n c) (aw s' (S n) c)
| step_leave s n c : admission_step (aw s (S n) c) (aw (release_commit s) n c)
| step_enter s s' n drained c :
    checkpoint_enter s = (s', Ok drained) →
    admission_step (aw s n c) (aw s' n (if drained then CheckpointHeld else CheckpointDraining))
| step_drained s n :
    drain_round s = Ok true →
    admission_step (aw s n CheckpointDraining) (aw s n CheckpointHeld)
| step_drain_failed s n e :
    drain_round s = Err e →
    admission_step (aw s n CheckpointDraining) (aw s n CheckpointFailed)
| step_finish s n : admission_step (aw s n CheckpointHeld) (aw (finish_checkpoint s) n CheckpointNone)
| step_fence s n c : admission_step (aw s n c) (aw (admission_require_recovery s) n c).

Definition admission_inv (w : AdmissionWorld) : Prop :=
  let s := aw_state w in
  ra_poisoned s = false ∧ ra_active_commits s = Z.of_nat (aw_commits w) ∧
  match aw_checkpoint w with
  | CheckpointNone => ra_checkpointing s = false
  | CheckpointDraining => ra_checkpointing s = true
  | CheckpointHeld => ra_checkpointing s = true ∧ aw_commits w = 0%nat
  | CheckpointFailed => ra_checkpointing s = true ∧ ra_recovery_required s = true
  end.

Lemma admission_step_inv w w' : admission_step w w' → admission_inv w → admission_inv w'.
Proof.
  intros Hs (Hp & Ha & Hc).
  destruct Hs as [s s' n c E|s n c|s s' n d c E|s n E|s n e E|s n|s n c];
    cbn [aw aw_state aw_commits aw_checkpoint] in *.
  - unfold admit_commit, admission_mode in E. rewrite Hp in E.
    destruct (ra_recovery_required s) eqn:Er; [done|]. destruct (ra_checkpointing s) eqn:Ek; [done|].
    destruct (checked_add _ 1) as [m|] eqn:Em; [|done]. apply checked_add_Some in Em as [-> _].
    injection E as <-. split_and!; cbn; [done|lia|]. destruct c; cbn; naive_solver.
  - unfold release_commit. rewrite Hp, (proj2 (Z.eqb_neq _ _)) by lia. cbn [negb].
    split_and!; cbn; [done|lia|]. destruct c; cbn; naive_solver.
  - unfold checkpoint_enter, admission_mode in E. rewrite Hp in E.
    destruct (ra_recovery_required s) eqn:Er; [done|]. destruct (ra_checkpointing s) eqn:Ek; [done|].
    injection E as <- <-. split_and!; cbn; [done|done|].
    destruct (ra_active_commits s =? 0) eqn:E0; bool_to_prop; [|done]. split; [done|lia].
  - unfold drain_round in E. rewrite Hp in E. destruct (ra_recovery_required s); [done|].
    injection E as E%Z.eqb_eq. split_and!; [done|done|]. cbn. split; [done|lia].
  - unfold drain_round in E. rewrite Hp in E. destruct (ra_recovery_required s) eqn:Er; [|done].
    by split_and!.
  - unfold finish_checkpoint. rewrite Hp. by split_and!.
  - split_and!; [done|done|]. destruct c; cbn; naive_solver.
Qed.

Lemma admission_reachable_inv w :
  rtc admission_step (aw Admission_new 0 CheckpointNone) w → admission_inv w.
Proof.
  intros Hr. assert (admission_inv (aw Admission_new 0 CheckpointNone)) as Hi by done.
  induction Hr as [|x y z Hs _ IH]; [done|]. by apply IH, (admission_step_inv x).
Qed.

Lemma admission_nsteps_inv n w w' :
  nsteps admission_step n w w' → admission_inv w → admission_inv w'.
Proof. induction 1; [done|]. intros. eauto using admission_step_inv. Qed.

(** Once fenced, the runtime stays fenced. *)
Lemma admission_step_fenced w w' :
  admission_step w w' → ra_recovery_required (aw_state w) = true →
  ra_recovery_required (aw_state w') = true ∧ (aw_commits w' ≤ aw_commits w)%nat.
Proof.
  intros Hs Hr. destruct Hs as [s s' n c E|s n c|s s' n d c E|s n E|s n e E|s n|s n c];
    cbn [aw aw_state aw_commits] in *.
  - unfold admit_commit, admission_mode in E. rewrite Hr in E. by destruct (ra_poisoned s).
  - unfold release_commit. destruct (ra_poisoned s); [auto|]. destruct (negb _); auto.
  - unfold checkpoint_enter, admission_mode in E. rewrite Hr in E. by destruct (ra_poisoned s).
  - done.
  - done.
  - unfold finish_checkpoint. by destruct (ra_poisoned s).
  - done.
Qed.

(** C34. A checkpoint never overlaps a commit: under any interleaving of admissions,
    departures, checkpoint attempts and fences, while a checkpoint holds its guard
    no admitted commit is live and none can be admitted, and the drain waits
    exactly for the commits that were admitted. *)
Theorem checkpoint_excludes_commits w :
  rtc admission_step (aw Admission_new 0 CheckpointNone) w →
  ra_active_commits (aw_state w) = Z.of_nat (aw_commits w) ∧
  (aw_checkpoint w = CheckpointHeld → aw_commits w = 0%nat ∧
     ∀ s', admit_commit (aw_state w) ≠ (s', Ok tt)).
Proof.
  intros (Hp & Ha & Hc)%admission_reachable_inv.
  split; [done|]. intros Hh. rewrite Hh in Hc. destruct Hc as [Hc H0]. split; [done|].
  intros s'. unfold admit_commit, admission_mode. rewrite Hp, Hc.
  by destruct (ra_recovery_required _).
Qed.

(** The recovery fence is terminal: after it no sequence of steps reopens the
    runtime, admits a commit, a read or a publication, and commits only leave. *)
Theorem recovery_fence_is_terminal w w' :
  rtc admission_step w w' → ra_recovery_required (aw_state w) = true →
  (aw_commits w' ≤ aw_commits w)%nat ∧
  ensure_read_admission (aw_state w') = Err AdmissionErrRecoveryRequired ∧
  (∀ s', admit_commit (aw_state w') ≠ (s', Ok tt)) ∧ admit_visibility (aw_state w') ≠ Ok tt.
Proof.
  intros Hr Hf. assert (ra_recovery_required (aw_state w') = true ∧ (aw_commits w' ≤ aw_commits w)%nat)
    as [Hf' Hle].
  { induction Hr as [x|x y z Hs _ IH]; [done|]. destruct (admission_step_fenced _ _ Hs Hf) as [Hy Hn].
    destruct (IH Hy). split; [done|lia]. }
  split; [done|]. unfold ensure_read_admission, admit_commit, admit_visibility, admission_mode.
  rewrite Hf'. split_and!; [done| |by destruct (ra_poisoned _)]. intros s'. by destruct (ra_poisoned _).
Qed.

(** The steps a draining checkpoint waits for: the live guards are dropped one by
    one, each without help from the checkpoint. *)
Lemma drain_leaves n : ∀ s,
  admission_inv (aw s n CheckpointDraining) → ra_recovery_required s = false →
  ∃ s', nsteps admission_step n (aw s n CheckpointDraining) (aw s' 0 CheckpointDraining) ∧
        ra_recovery_required s' = false.
Proof.
  induction n as [|n IH]; intros s Hi Hf.
  { exists s. split; [constructor|done]. }
  pose proof (step_leave s n CheckpointDraining) as Hl.
  pose proof (admission_step_inv _ _ Hl Hi) as Hi'.
  destruct (IH (release_commit s) Hi') as (s' & Hn & Hf').
  { unfold release_commit. destruct (ra_poisoned s); [done|]. by destruct (negb _). }
  exists s'. split; [|done]. econstructor; [exact Hl|exact Hn].
Qed.

(** A checkpoint that waits is not overtaken: no step of the other threads admits
    a commit or ends the wait except with the guard or with a fence. *)
Lemma draining_step s n w :
  admission_inv (aw s n CheckpointDraining) → admission_step (aw s n CheckpointDraining) w →
  (aw_commits w ≤ n)%nat ∧
  (aw_checkpoint w = CheckpointDraining ∨ aw_checkpoint w = CheckpointHeld ∨
   ra_recovery_required (aw_state w) = true).
Proof.
  intros (Hp & Ha & Hc) Hs. cbn in Hp, Ha, Hc. inversion Hs; subst; cbn.
  - unfold admit_commit, admission_mode in *. rewrite Hp, Hc in *.
    by destruct (ra_recovery_required s).
  - auto.
  - unfold checkpoint_enter, admission_mode in *. rewrite Hp, Hc in *.
    by destruct (ra_recovery_required s).
  - auto.
  - unfold drain_round in *. rewrite Hp in *. destruct (ra_recovery_required s) eqn:Er; [|done]. auto.
  - auto.
Qed.

(** A draining checkpoint makes progress: from any reachable state in which a
    checkpoint drains and no fence is up, the live commits can only leave, and
    once each of the [n] of them has left, one more round of the wait loop hands
    the checkpoint its guard: at most [n + 1] steps, none of which another thread
    can disable by admitting a commit. *)
Theorem checkpoint_drain_progress s n :
  rtc admission_step (aw Admission_new 0 CheckpointNone) (aw s n CheckpointDraining) →
  ra_recovery_required s = false →
  (∃ s', nsteps admission_step (S n) (aw s n CheckpointDraining) (aw s' 0 CheckpointHeld)) ∧
  ∀ w, admission_step (aw s n CheckpointDraining) w →
    (aw_commits w ≤ n)%nat ∧
    (aw_checkpoint w = CheckpointDraining ∨ aw_checkpoint w = CheckpointHeld ∨
     ra_recovery_required (aw_state w) = true).
Proof.
  intros Hr Hf. pose proof (admission_reachable_inv _ Hr) as Hi. split.
  - destruct (drain_leaves n s Hi Hf) as (s' & Hn & Hf'). exists s'.
    apply nsteps_r with (aw s' 0 CheckpointDraining); [done|]. apply step_drained.
    destruct (admission_nsteps_inv _ _ _ Hn Hi) as (Hp & Ha & _). cbn in Hp, Ha.
    unfold drain_round. by rewrite Hp, Hf', Ha.
  - intros w. by apply draining_step.
Qed.

Lemma checkpoint_drain_progress_witness :
  ra_checkpointing (checkpoint_enter (admit_commit Admission_new).1).1 = true ∧
  ∃ s', nsteps admission_step 2
    (aw (checkpoint_enter (admit_commit Admission_new).1).1 1 CheckpointDraining)
    (aw s' 0 CheckpointHeld).
Proof.
  split; [reflexivity|]. apply checkpoint_drain_progress; [|reflexivity].
  apply (rtc_l _ _ (aw (admit_commit Admission_new).1 1 CheckpointNone)).
  - apply (step_admit Admission_new). reflexivity.
  - apply rtc_once, (step_enter (admit_commit Admission_new).1 _ 1 false CheckpointNone). reflexivity.
Defined.

Lemma checkpoint_excludes_commits_witness :
  ra_checkpointing (checkpoint_enter Admission_new).1 = true ∧
  ∀ s', admit_commit (checkpoint_enter Admission_new).1 ≠ (s', Ok tt).
Proof.
  split; [reflexivity|].
  destruct (checkpoint_excludes_commits (aw (checkpoint_enter Admission_new).1 0 CheckpointHeld))
    as [_ H].
  - apply rtc_once, (step_enter Admission_new _ 0 true CheckpointNone). reflexivity.
  - exact (proj2 (H eq_refl)).
Defined.

Lemma recovery_fence_is_terminal_witness :
  ensure_read_admission (release_commit (admission_require_recovery (admit_commit Admission_new).1))
    = Err AdmissionErrRecoveryRequired.
Proof.
  apply (recovery_fence_is_terminal
    (aw (admission_require_recovery (admit_commit Admission_new).1) 1 CheckpointNone)
    (aw (release_commit (admission_require_recovery (admit_commit Admission_new).1)) 0 CheckpointNone)).
  - apply rtc_once, step_leave.
  - reflexivity.
Defined.
