(* ===== verification/Frame.v ===== *)
(** * Buffer-frame lifecycle

    Models [crates/seerdb/src/vnext/frame.rs]: the atomic word that packs a frame's
    lifecycle state with its pin count, the incarnation counter, the optimistic
    version and the dirty flag, and every operation on them.

    The first part gives each method as it runs alone.  The second part gives the
    same methods to any number of threads, one atomic access at a time: a thread
    is where it stands inside a method, together with what it has read so far.
    The theorems are about every interleaving of those accesses. *)
From S2P Require Import Prelude Ids.

Local Open Scope Z_scope.
Local Open Scope seer_scope.

Definition STATE_BITS : Z := 3.
Definition STATE_MASK : Z := Z.shiftl 1 STATE_BITS - 1.
Definition PIN_ONE : Z := Z.shiftl 1 STATE_BITS.
Definition MAX_PINS : Z := Z.shiftr U64_MAX STATE_BITS.

Inductive FrameState := Free | Loading | Resident | Writeback | Evicting.

#[global] Instance FrameState_eq_dec : EqDecision FrameState.
Proof. solve_decision. Defined.

Definition state_raw (s : FrameState) : Z :=
  match s with Free => 0 | Loading => 1 | Resident => 2 | Writeback => 3 | Evicting => 4 end.

(** The last arm of the source is [unreachable!]; [frame_word] below shows that a
    word only ever holds one of the five states. *)
Definition state_from_raw (raw : Z) : FrameState :=
  if raw =? 0 then Free else if raw =? 1 then Loading else if raw =? 2 then Resident
  else if raw =? 3 then Writeback else Evicting.

Definition lifecycle_word (s : FrameState) (pins : Z) : Z :=
  Z.lor (Z.shiftl pins STATE_BITS) (state_raw s).
Definition lifecycle_state (word : Z) : FrameState := state_from_raw (Z.land word STATE_MASK).
Definition lifecycle_pins (word : Z) : Z := Z.shiftr word STATE_BITS.

Inductive FrameTransitionError :=
| FrameWrongState (expected actual : FrameState)
| FramePinned
| FrameDirty
| FrameClean
| FrameWriteBusy
| FrameIncarnationExhausted
| FrameMissingIncarnation.

Record FrameMeta := {
  fm_lifecycle : Z;
  fm_version : Z;
  fm_incarnation : Z;
  fm_dirty : bool
}.

(** Stores to one of the four atomics. *)
Definition with_lifecycle (m : FrameMeta) (w : Z) : FrameMeta :=
  {| fm_lifecycle := w; fm_version := fm_version m; fm_incarnation := fm_incarnation m;
     fm_dirty := fm_dirty m |}.
Definition with_version (m : FrameMeta) (v : Z) : FrameMeta :=
  {| fm_lifecycle := fm_lifecycle m; fm_version := v; fm_incarnation := fm_incarnation m;
     fm_dirty := fm_dirty m |}.
Definition with_incarnation (m : FrameMeta) (i : Z) : FrameMeta :=
  {| fm_lifecycle := fm_lifecycle m; fm_version := fm_version m; fm_incarnation := i;
     fm_dirty := fm_dirty m |}.
Definition with_dirty (m : FrameMeta) (d : bool) : FrameMeta :=
  {| fm_lifecycle := fm_lifecycle m; fm_version := fm_version m;
     fm_incarnation := fm_incarnation m; fm_dirty := d |}.

Definition new_free : FrameMeta :=
  {| fm_lifecycle := lifecycle_word Free 0; fm_version := 0; fm_incarnation := 0;
     fm_dirty := false |}.

Definition new_resident : FrameMeta :=
  {| fm_lifecycle := lifecycle_word Resident 0; fm_version := 0; fm_incarnation := 1;
     fm_dirty := false |}.

Definition frame_state (m : FrameMeta) : FrameState := lifecycle_state (fm_lifecycle m).
Definition pin_count (m : FrameMeta) : Z := lifecycle_pins (fm_lifecycle m).
Definition frame_incarnation (m : FrameMeta) : option Z := FrameIncarnation_new (fm_incarnation m).

(** [x.wrapping_add(1)] and [fetch_add(1)] on a [u64]. *)
Definition wrapping_succ (x : Z) : Z := (x + 1) mod 2 ^ 64.

(** ** The methods, run alone *)

(** What the error closure of [transition_unpinned] reports of the observed word. *)
Definition transition_error (expected : FrameState) (actual : Z) : FrameTransitionError :=
  if bool_decide (lifecycle_state actual = expected) && negb (lifecycle_pins actual =? 0)
  then FramePinned else FrameWrongState expected (lifecycle_state actual).

Definition transition_unpinned (expected next : FrameState) (m : FrameMeta)
    : FrameMeta * result unit FrameTransitionError :=
  if fm_lifecycle m =? lifecycle_word expected 0
  then (with_lifecycle m (lifecycle_word next 0), Ok tt)
  else (m, Err (transition_error expected (fm_lifecycle m))).

Definition begin_exclusive_state (next : FrameState) (m : FrameMeta)
    : FrameMeta * result unit FrameTransitionError :=
  if fm_lifecycle m =? lifecycle_word Resident 0
  then (with_lifecycle m (lifecycle_word next 0), Ok tt)
  else (m, Err (transition_error Resident (fm_lifecycle m))).

(** [current.checked_add(1).and_then(FrameIncarnation::new)] *)
Definition next_incarnation (current : Z) : option Z :=
  checked_add current 1 ≫= FrameIncarnation_new.

Definition begin_load (m : FrameMeta) : FrameMeta * result Z FrameTransitionError :=
  do? (m, _) := transition_unpinned Free Loading m in
  match next_incarnation (fm_incarnation m) with
  | None => (with_lifecycle m (lifecycle_word Free 0), Err FrameIncarnationExhausted)
  | Some next => (with_dirty (with_incarnation m next) false, Ok next)
  end.

Definition finish_load_pinned (m : FrameMeta) : FrameMeta * result Z FrameTransitionError :=
  match frame_incarnation m with
  | None => (m, Err FrameMissingIncarnation)
  | Some incarnation =>
      if fm_lifecycle m =? lifecycle_word Loading 0
      then (with_lifecycle m (lifecycle_word Resident 1), Ok incarnation)
      else (m, Err (FrameWrongState Loading (lifecycle_state (fm_lifecycle m))))
  end.

Definition finish_new_page_pinned (m : FrameMeta) : FrameMeta * result Z FrameTransitionError :=
  finish_load_pinned (with_dirty m true).

Definition abort_load (m : FrameMeta) : FrameMeta * result unit FrameTransitionError :=
  transition_unpinned Loading Free (with_dirty m false).

Definition frame_unpin (m : FrameMeta) : FrameMeta := with_lifecycle m (fm_lifecycle m - PIN_ONE).

(** Alone, the compare-and-swap succeeds and the incarnation is unchanged after it. *)
Definition try_pin (m : FrameMeta) : FrameMeta * option Z :=
  let observed := fm_lifecycle m in
  if negb (bool_decide (lifecycle_state observed = Resident)) then (m, None)
  else if lifecycle_pins observed =? MAX_PINS then (m, None)
  else
    match frame_incarnation m with
    | None => (m, None)
    | Some incarnation => (with_lifecycle m (observed + PIN_ONE), Some incarnation)
    end.

Definition try_begin_writeback (m : FrameMeta) : FrameMeta * result unit FrameTransitionError :=
  if negb (fm_dirty m) then (m, Err FrameClean) else begin_exclusive_state Writeback m.

Definition finish_writeback_to (next : FrameState) (m : FrameMeta)
    : FrameMeta * result unit FrameTransitionError :=
  let actual := frame_state m in
  if negb (bool_decide (actual = Writeback)) then (m, Err (FrameWrongState Writeback actual))
  else transition_unpinned Writeback next (with_dirty m false).

Definition finish_writeback : FrameMeta → FrameMeta * result unit FrameTransitionError :=
  finish_writeback_to Resident.
Definition finish_writeback_for_evict : FrameMeta → FrameMeta * result unit FrameTransitionError :=
  finish_writeback_to Evicting.
Definition abort_writeback : FrameMeta → FrameMeta * result unit FrameTransitionError :=
  transition_unpinned Writeback Resident.

Definition try_begin_evict (m : FrameMeta) : FrameMeta * result unit FrameTransitionError :=
  if fm_dirty m then (m, Err FrameDirty) else begin_exclusive_state Evicting m.
Definition abort_evict : FrameMeta → FrameMeta * result unit FrameTransitionError :=
  transition_unpinned Evicting Resident.
Definition finish_evict : FrameMeta → FrameMeta * result unit FrameTransitionError :=
  transition_unpinned Evicting Free.

(** *** [FramePin] and [FrameWriteLatch] *)
Definition optimistic_version (m : FrameMeta) : option Z :=
  if Z.land (fm_version m) 1 =? 0 then Some (fm_version m) else None.

Definition pin_validate (incarnation version : Z) (m : FrameMeta) : bool :=
  (Z.land version 1 =? 0) && (fm_version m =? version) &&
  bool_decide (frame_state m = Resident) && bool_decide (frame_incarnation m = Some incarnation).

Definition try_write (incarnation : Z) (m : FrameMeta)
    : FrameMeta * result Z FrameTransitionError :=
  if negb (bool_decide (frame_state m = Resident)) ||
     negb (bool_decide (frame_incarnation m = Some incarnation))
  then (m, Err (FrameWrongState Resident (frame_state m)))
  else if negb (Z.land (fm_version m) 1 =? 0) then (m, Err FrameWriteBusy)
  else
    let version := wrapping_succ (fm_version m) in
    (with_dirty (with_version m version) true, Ok version).

(** [Drop for FrameWriteLatch] *)
Definition release_latch (m : FrameMeta) : FrameMeta := with_version m (wrapping_succ (fm_version m)).

(** ** Interleaved execution

    Where a thread stands inside a method.  A value carried by a constructor is
    what the thread has read so far. *)
Inductive Thread :=
| TIdle
(* [try_pin] *)
| TPinObserved (observed : Z)
| TPinRead (observed incarnation : Z)
| TPinTaken (incarnation : Z)
| TPinStale
| TPinned (incarnation : Z)
(* [FramePin::try_write] *)
| TWriteState (incarnation : Z)
| TWriteReady (incarnation : Z)
| TWriteObserved (incarnation version : Z)
| TWriteTaken (incarnation : Z)
| TWriting (incarnation : Z)
(* [begin_load], [finish_load_pinned], [finish_new_page_pinned], [abort_load] *)
| TLoadReserved
| TLoadCounting (next : Z)
| TLoadCounted
| TLoading
| TLoadNew
| TLoadInstall (incarnation : Z)
| TLoadAbort
(* [try_begin_writeback], [finish_writeback], [abort_writeback] *)
| TWritebackSeen
| TWriteback
| TWritebackChecked (next : FrameState)
| TWritebackDone (next : FrameState)
(* [try_begin_evict], [finish_evict], [abort_evict] *)
| TEvictSeen
| TEvicting.

(** The test at the head of the loop of [try_pin]. *)
Definition pinnable (word : Z) : bool :=
  bool_decide (lifecycle_state word = Resident) && negb (lifecycle_pins word =? MAX_PINS).

(** Where the loop of [try_pin] continues with an observed word. *)
Definition pin_retry (word : Z) : Thread := if pinnable word then TPinObserved word else TIdle.

(** Where the loop of [try_write] continues with an observed version. *)
Definition write_retry (incarnation version : Z) : Thread :=
  if Z.land version 1 =? 0 then TWriteObserved incarnation version else TPinned incarnation.

(** One atomic access.  A weak compare-and-swap may also fail on the expected
    value, so its failing step has no premise. *)
Inductive thread_step : Thread → FrameMeta → Thread → FrameMeta → Prop :=
| ts_pin_load m : thread_step TIdle m (pin_retry (fm_lifecycle m)) m
| ts_pin_read o i m :
    frame_incarnation m = Some i → thread_step (TPinObserved o) m (TPinRead o i) m
| ts_pin_none o m : frame_incarnation m = None → thread_step (TPinObserved o) m TIdle m
| ts_pin_cas o i m :
    fm_lifecycle m = o → thread_step (TPinRead o i) m (TPinTaken i) (with_lifecycle m (o + PIN_ONE))
| ts_pin_cas_fail o i m : thread_step (TPinRead o i) m (pin_retry (fm_lifecycle m)) m
| ts_pin_ok i m : frame_incarnation m = Some i → thread_step (TPinTaken i) m (TPinned i) m
| ts_pin_stale i m : frame_incarnation m ≠ Some i → thread_step (TPinTaken i) m TPinStale m
| ts_pin_undo m : thread_step TPinStale m TIdle (frame_unpin m)
| ts_unpin i m : thread_step (TPinned i) m TIdle (frame_unpin m)
| ts_write_state i m : frame_state m = Resident → thread_step (TPinned i) m (TWriteState i) m
| ts_write_ready i m :
    frame_incarnation m = Some i → thread_step (TWriteState i) m (TWriteReady i) m
| ts_write_stale i m : frame_incarnation m ≠ Some i → thread_step (TWriteState i) m (TPinned i) m
| ts_write_load i m : thread_step (TWriteReady i) m (write_retry i (fm_version m)) m
| ts_write_cas i v m :
    fm_version m = v →
    thread_step (TWriteObserved i v) m (TWriteTaken i) (with_version m (wrapping_succ v))
| ts_write_cas_fail i v m : thread_step (TWriteObserved i v) m (write_retry i (fm_version m)) m
| ts_write_dirty i m : thread_step (TWriteTaken i) m (TWriting i) (with_dirty m true)
| ts_write_release i m : thread_step (TWriting i) m (TPinned i) (release_latch m)
| ts_load_reserve m :
    fm_lifecycle m = lifecycle_word Free 0 →
    thread_step TIdle m TLoadReserved (with_lifecycle m (lifecycle_word Loading 0))
| ts_load_count n m :
    next_incarnation (fm_incarnation m) = Some n → thread_step TLoadReserved m (TLoadCounting n) m
| ts_load_exhausted m :
    next_incarnation (fm_incarnation m) = None →
    thread_step TLoadReserved m TIdle (with_lifecycle m (lifecycle_word Free 0))
| ts_load_store n m : thread_step (TLoadCounting n) m TLoadCounted (with_incarnation m n)
| ts_load_clean m : thread_step TLoadCounted m TLoading (with_dirty m false)
| ts_load_new m : thread_step TLoading m TLoadNew (with_dirty m true)
| ts_load_finish i m : frame_incarnation m = Some i → thread_step TLoading m (TLoadInstall i) m
| ts_load_finish_new i m :
    frame_incarnation m = Some i → thread_step TLoadNew m (TLoadInstall i) m
| ts_load_install i m :
    fm_lifecycle m = lifecycle_word Loading 0 →
    thread_step (TLoadInstall i) m (TPinned i) (with_lifecycle m (lifecycle_word Resident 1))
| ts_load_fail m : thread_step TLoading m TLoadAbort (with_dirty m false)
| ts_load_abort m :
    fm_lifecycle m = lifecycle_word Loading 0 →
    thread_step TLoadAbort m TIdle (with_lifecycle m (lifecycle_word Free 0))
| ts_writeback_seen m : fm_dirty m = true → thread_step TIdle m TWritebackSeen m
| ts_writeback_begin m :
    fm_lifecycle m = lifecycle_word Resident 0 →
    thread_step TWritebackSeen m TWriteback (with_lifecycle m (lifecycle_word Writeback 0))
| ts_writeback_refused m :
    fm_lifecycle m ≠ lifecycle_word Resident 0 → thread_step TWritebackSeen m TIdle m
| ts_writeback_check next m :
    next = Resident ∨ next = Evicting → frame_state m = Writeback →
    thread_step TWriteback m (TWritebackChecked next) m
| ts_writeback_clean next m :
    thread_step (TWritebackChecked next) m (TWritebackDone next) (with_dirty m false)
| ts_writeback_finish next m :
    fm_lifecycle m = lifecycle_word Writeback 0 →
    thread_step (TWritebackDone next) m (if bool_decide (next = Evicting) then TEvicting else TIdle)
      (with_lifecycle m (lifecycle_word next 0))
| ts_writeback_abort m :
    fm_lifecycle m = lifecycle_word Writeback 0 →
    thread_step TWriteback m TIdle (with_lifecycle m (lifecycle_word Resident 0))
| ts_evict_seen m : fm_dirty m = false → thread_step TIdle m TEvictSeen m
| ts_evict_begin m :
    fm_lifecycle m = lifecycle_word Resident 0 →
    thread_step TEvictSeen m TEvicting (with_lifecycle m (lifecycle_word Evicting 0))
| ts_evict_refused m :
    fm_lifecycle m ≠ lifecycle_word Resident 0 → thread_step TEvictSeen m TIdle m
| ts_evict_abort m :
    fm_lifecycle m = lifecycle_word Evicting 0 →
    thread_step TEvicting m TIdle (with_lifecycle m (lifecycle_word Resident 0))
| ts_evict_finish m :
    fm_lifecycle m = lifecycle_word Evicting 0 →
    thread_step TEvicting m TIdle (with_lifecycle m (lifecycle_word Free 0)).

(** Any thread may take the next access. *)
Inductive frame_step : FrameMeta * list Thread → FrameMeta * list Thread → Prop :=
| frame_step_intro m ts i t t' m' :
    ts !! i = Some t → thread_step t m t' m' → frame_step (m, ts) (m', <[i := t']> ts).

(** A frame that [n] threads are about to use. *)
Definition frame_start (n : nat) : FrameMeta * list Thread := (new_free, replicate n TIdle).

(** *** What a thread holds *)
Definition holds_pin (t : Thread) : Z :=
  match t with
  | TPinTaken _ | TPinStale | TPinned _ | TWriteState _ | TWriteReady _ | TWriteObserved _ _
  | TWriteTaken _ | TWriting _ => 1
  | _ => 0
  end.

Definition holds_latch (t : Thread) : Z :=
  match t with TWriteTaken _ | TWriting _ => 1 | _ => 0 end.

(** The exclusive state a thread owns. *)
Definition owned_state (t : Thread) : option FrameState :=
  match t with
  | TLoadReserved | TLoadCounting _ | TLoadCounted | TLoading | TLoadNew | TLoadInstall _
  | TLoadAbort => Some Loading
  | TWriteback | TWritebackChecked _ | TWritebackDone _ => Some Writeback
  | TEvicting => Some Evicting
  | _ => None
  end.
Definition holds_state (t : Thread) : Z := if owned_state t then 1 else 0.

(** The incarnation whose bytes a thread may touch. *)
Definition protected (t : Thread) : option Z :=
  match t with
  | TPinned i | TWriteState i | TWriteReady i | TWriteObserved i _ | TWriteTaken i | TWriting i
  | TLoadInstall i => Some i
  | _ => None
  end.

(** *** The packed word *)
Lemma word_land s p : Z.land (8 * p + state_raw s) 7 = state_raw s.
Proof.
  change 7 with (Z.ones 3). rewrite Z.land_ones by lia. change (2 ^ 3) with 8.
  rewrite Z.mul_comm, Z.add_comm, Z_mod_plus_full. by destruct s.
Qed.

Lemma lifecycle_word_sum s p : lifecycle_word s p = 8 * p + state_raw s.
Proof.
  unfold lifecycle_word, STATE_BITS. rewrite Z.shiftl_mul_pow2 by lia. change (2 ^ 3) with 8.
  rewrite (Z.mul_comm 8). assert (Z.land (p * 8) (state_raw s) = 0) as H0.
  { apply Z.bits_inj'. intros n Hn. rewrite Z.land_spec, Z.bits_0.
    change 8 with (2 ^ 3). rewrite <-Z.shiftl_mul_pow2 by lia.
    destruct (decide (n < 3)) as [Hlt|Hge].
    - by rewrite Z.shiftl_spec_low.
    - rewrite andb_comm, Z.bits_above_log2; [done|by destruct s|]. destruct s; cbn; lia. }
  rewrite <-Z.lxor_lor by done. symmetry. by apply Z.add_nocarry_lxor.
Qed.

Lemma word_state s p : lifecycle_state (lifecycle_word s p) = s.
Proof.
  rewrite lifecycle_word_sum. unfold lifecycle_state. change STATE_MASK with 7.
  rewrite word_land. by destruct s.
Qed.

Lemma word_pins s p : lifecycle_pins (lifecycle_word s p) = p.
Proof.
  rewrite lifecycle_word_sum. unfold lifecycle_pins, STATE_BITS. rewrite Z.shiftr_div_pow2 by lia.
  change (2 ^ 3) with 8. rewrite Z.mul_comm, Z.div_add_l by lia.
  rewrite Z.div_small; [lia|]. by destruct s.
Qed.

Lemma word_inj s p s' p' : lifecycle_word s p = lifecycle_word s' p' → s = s' ∧ p = p'.
Proof.
  intros E. split; [by rewrite <-(word_state s p), E, word_state|].
  by rewrite <-(word_pins s p), E, word_pins.
Qed.

Lemma word_pin s p : lifecycle_word s p + PIN_ONE = lifecycle_word s (p + 1).
Proof. rewrite !lifecycle_word_sum. unfold PIN_ONE, STATE_BITS. change (Z.shiftl 1 3) with 8. lia. Qed.

Lemma word_unpin s p : lifecycle_word s p - PIN_ONE = lifecycle_word s (p - 1).
Proof. rewrite !lifecycle_word_sum. unfold PIN_ONE, STATE_BITS. change (Z.shiftl 1 3) with 8. lia. Qed.

(** *** Sums over threads *)
Fixpoint total (f : Thread → Z) (ts : list Thread) : Z :=
  match ts with [] => 0 | t :: ts' => f t + total f ts' end.

Lemma total_insert f ts i t t' :
  ts !! i = Some t → total f (<[i := t']> ts) = total f ts - f t + f t'.
Proof.
  revert i. induction ts as [|u ts IH]; intros [|i]; simpl; [done..| |].
  - intros [= ->]. lia.
  - intros Hi. rewrite (IH i Hi). lia.
Qed.

Lemma total_nonneg f ts : (∀ t, 0 ≤ f t) → 0 ≤ total f ts.
Proof. intros Hf. induction ts as [|t ts IH]; cbn; [done|]. specialize (Hf t). lia. Qed.

Lemma total_lookup f ts i t : (∀ t, 0 ≤ f t) → ts !! i = Some t → f t ≤ total f ts.
Proof.
  intros Hf. revert i. induction ts as [|u ts IH]; intros [|i]; cbn; [done..| |].
  - intros [= ->]. pose proof (total_nonneg f ts Hf). lia.
  - intros Hi%IH. specialize (Hf u). lia.
Qed.

Lemma total_two f ts i j t u :
  (∀ t, 0 ≤ f t) → i ≠ j → ts !! i = Some t → ts !! j = Some u → f t + f u ≤ total f ts.
Proof.
  intros Hf. revert i j. induction ts as [|v ts IH]; intros [|i] [|j] Hij; cbn; try done.
  - intros [= ->] Hj. pose proof (total_lookup f ts j u Hf Hj). lia.
  - intros Hi [= ->]. pose proof (total_lookup f ts i t Hf Hi). lia.
  - intros Hi Hj. specialize (Hf v). assert (f t + f u ≤ total f ts); [|lia].
    apply (IH i j); [lia|done..].
Qed.

Lemma holds_pin_nonneg t : 0 ≤ holds_pin t.
Proof. by destruct t. Qed.
Lemma holds_latch_nonneg t : 0 ≤ holds_latch t.
Proof. by destruct t. Qed.
Lemma holds_state_nonneg t : 0 ≤ holds_state t.
Proof. by destruct t. Qed.
#[local] Hint Resolve holds_pin_nonneg holds_latch_nonneg holds_state_nonneg : seer.

(** *** The invariant *)
Definition exclusive (s : FrameState) : Z :=
  match s with Free | Resident => 0 | _ => 1 end.

(** What a thread remembers of earlier reads. *)
Definition remembers (t : Thread) (m : FrameMeta) : Prop :=
  match t with
  | TPinObserved o | TPinRead o _ => pinnable o = true
  | TWriteObserved _ v => Z.land v 1 = 0
  | TLoadCounting n => next_incarnation (fm_incarnation m) = Some n
  | TWritebackChecked s | TWritebackDone s => s = Resident ∨ s = Evicting
  | _ => True
  end.

Record frame_inv (m : FrameMeta) (ts : list Thread) (st : FrameState) : Prop := {
  fi_word : fm_lifecycle m = lifecycle_word st (total holds_pin ts);
  fi_max : total holds_pin ts ≤ MAX_PINS;
  fi_pins : st ≠ Resident → total holds_pin ts = 0;
  fi_owner : total holds_state ts = exclusive st;
  fi_state : ∀ i t s, ts !! i = Some t → owned_state t = Some s → s = st;
  fi_latch : total holds_latch ts = fm_version m mod 2;
  fi_protected : ∀ i t k, ts !! i = Some t → protected t = Some k → frame_incarnation m = Some k;
  fi_remembers : ∀ i t, ts !! i = Some t → remembers t m
}.

Lemma others_unowned m ts st i t j u :
  frame_inv m ts st → ts !! i = Some t → exclusive st = holds_state t → j ≠ i →
  ts !! j = Some u → owned_state u = None.
Proof.
  intros Hi Ht He Hj Hu. pose proof (fi_owner _ _ _ Hi) as Ho.
  assert (holds_state t + holds_state u ≤ total holds_state ts) as H2
    by (apply (total_two _ _ i j); auto with seer).
  unfold holds_state in *. destruct (owned_state u); [|done]. destruct (owned_state t); lia.
Qed.

Lemma others_unprotected m ts st i t j u :
  frame_inv m ts st → ts !! i = Some t → exclusive st = holds_state t → total holds_pin ts = 0 →
  j ≠ i → ts !! j = Some u → protected u = None.
Proof.
  intros Hi Ht He Hp Hj Hu. pose proof (others_unowned _ _ _ _ _ _ _ Hi Ht He Hj Hu) as Ho.
  pose proof (total_lookup holds_pin ts j u holds_pin_nonneg Hu) as Hl. rewrite Hp in Hl.
  by destruct u.
Qed.

(** One thread's change, and what it must establish. *)
Lemma frame_inv_update m ts st i t t' m' st' :
  frame_inv m ts st → ts !! i = Some t →
  fm_lifecycle m' = lifecycle_word st' (total holds_pin ts - holds_pin t + holds_pin t') →
  total holds_pin ts - holds_pin t + holds_pin t' ≤ MAX_PINS →
  (st' ≠ Resident → total holds_pin ts - holds_pin t + holds_pin t' = 0) →
  exclusive st - holds_state t + holds_state t' = exclusive st' →
  (∀ s, owned_state t' = Some s → s = st') →
  st' = st ∨ exclusive st = holds_state t →
  fm_version m mod 2 - holds_latch t + holds_latch t' = fm_version m' mod 2 →
  (∀ k, protected t' = Some k → frame_incarnation m' = Some k) →
  fm_incarnation m' = fm_incarnation m ∨ (total holds_pin ts = 0 ∧ exclusive st = holds_state t) →
  remembers t' m' →
  frame_inv m' (<[i := t']> ts) st'.
Proof.
  intros Hi Ht Hw Hmax Hp Ho Hs Hst Hv Hpr Hinc Hr.
  pose proof (lookup_lt_Some _ _ _ Ht) as Hlt. split.
  - by rewrite (total_insert _ _ _ t).
  - by rewrite (total_insert _ _ _ t).
  - by rewrite (total_insert _ _ _ t).
  - rewrite (total_insert _ _ _ t) by done. by rewrite (fi_owner _ _ _ Hi).
  - intros j u s Hu Hu'. destruct (decide (j = i)) as [->|Hj].
    { rewrite list_lookup_insert_eq in Hu by done. injection Hu as <-. auto. }
    rewrite list_lookup_insert_ne in Hu by done. destruct Hst as [->|He].
    + by apply (fi_state _ _ _ Hi j u).
    + by rewrite (others_unowned _ _ _ _ _ _ _ Hi Ht He Hj Hu) in Hu'.
  - rewrite (total_insert _ _ _ t) by done. by rewrite (fi_latch _ _ _ Hi).
  - intros j u k Hu Hu'. destruct (decide (j = i)) as [->|Hj].
    { rewrite list_lookup_insert_eq in Hu by done. injection Hu as <-. auto. }
    rewrite list_lookup_insert_ne in Hu by done. destruct Hinc as [He|[H0 He]].
    + unfold frame_incarnation. rewrite He. by apply (fi_protected _ _ _ Hi j u).
    + by rewrite (others_unprotected _ _ _ _ _ _ _ Hi Ht He H0 Hj Hu) in Hu'.
  - intros j u Hu. destruct (decide (j = i)) as [->|Hj].
    { rewrite list_lookup_insert_eq in Hu by done. by injection Hu as <-. }
    rewrite list_lookup_insert_ne in Hu by done. pose proof (fi_remembers _ _ _ Hi j u Hu) as Hru.
    destruct Hinc as [He|[H0 He]].
    + destruct u; cbn in *; by rewrite ?He.
    + pose proof (others_unowned _ _ _ _ _ _ _ Hi Ht He Hj Hu). by destruct u.
Qed.

#[local] Arguments Z.modulo : simpl never.

Lemma succ_parity v : wrapping_succ v mod 2 = (v + 1) mod 2.
Proof.
  unfold wrapping_succ. rewrite <-Znumtheory.Zmod_div_mod; [done|lia..|].
  exists (2 ^ 63). lia.
Qed.

Lemma land_one_mod v : Z.land v 1 = v mod 2.
Proof. change 1 with (Z.ones 1) at 1. by rewrite Z.land_ones. Qed.

(** A thread that keeps what it holds and changes at most the dirty flag. *)
Lemma frame_inv_same m ts st i t t' m' :
  frame_inv m ts st → ts !! i = Some t →
  holds_pin t' = holds_pin t → holds_latch t' = holds_latch t → owned_state t' = owned_state t →
  fm_lifecycle m' = fm_lifecycle m → fm_version m' = fm_version m →
  fm_incarnation m' = fm_incarnation m →
  (∀ k, protected t' = Some k → protected t = Some k ∨ frame_incarnation m = Some k) →
  remembers t' m →
  frame_inv m' (<[i := t']> ts) st.
Proof.
  intros Hi Ht Hp Hl Ho Hw Hv Hn Hpr Hr.
  assert (holds_state t' = holds_state t) as Hs by (unfold holds_state; by rewrite Ho).
  pose proof (fi_word _ _ _ Hi) as Hword. pose proof (fi_max _ _ _ Hi) as Hmax.
  apply (frame_inv_update m ts st i t); [done..| | | | | | | | |by left|].
  - rewrite Hw, Hword. f_equal. lia.
  - lia.
  - intros Hst. pose proof (fi_pins _ _ _ Hi Hst). lia.
  - lia.
  - intros s. rewrite Ho. by apply (fi_state _ _ _ Hi i).
  - by left.
  - rewrite Hv, Hl. lia.
  - intros k Hk. unfold frame_incarnation. rewrite Hn. destruct (Hpr k Hk) as [Hk'|?]; [|done].
    by apply (fi_protected _ _ _ Hi i t).
  - destruct t'; cbn in *; by rewrite ?Hn.
Qed.

Lemma pin_retry_same m ts st i t :
  frame_inv m ts st → ts !! i = Some t → holds_pin t = 0 → holds_latch t = 0 →
  owned_state t = None → frame_inv m (<[i := pin_retry (fm_lifecycle m)]> ts) st.
Proof.
  intros Hi Ht Hp Hl Ho. unfold pin_retry.
  destruct (pinnable _) eqn:E; apply (frame_inv_same m ts st i t); cbn; auto; done.
Qed.

Lemma write_retry_same m ts st i t k :
  frame_inv m ts st → ts !! i = Some t → holds_pin t = 1 → holds_latch t = 0 →
  owned_state t = None → protected t = Some k →
  frame_inv m (<[i := write_retry k (fm_version m)]> ts) st.
Proof.
  intros Hi Ht Hp Hl Ho Hk. unfold write_retry.
  destruct (_ =? 0) eqn:E; bool_to_prop; apply (frame_inv_same m ts st i t); cbn; auto; try done;
    intros ? [= <-]; auto.
Qed.

(** The state and the pins of a known word. *)
Lemma frame_word m ts st s p :
  frame_inv m ts st → fm_lifecycle m = lifecycle_word s p → st = s ∧ total holds_pin ts = p.
Proof. intros Hi E. rewrite (fi_word _ _ _ Hi) in E. by apply word_inj in E. Qed.

(** Moving between states with no pins: the thread takes or gives up ownership. *)
Lemma frame_inv_transition m ts st s s' i t t' :
  frame_inv m ts st → ts !! i = Some t → fm_lifecycle m = lifecycle_word s 0 →
  holds_pin t = 0 → holds_pin t' = 0 → holds_latch t = 0 → holds_latch t' = 0 →
  exclusive s = holds_state t → holds_state t' = exclusive s' →
  (∀ r, owned_state t' = Some r → r = s') → protected t' = None → remembers t' m →
  frame_inv (with_lifecycle m (lifecycle_word s' 0)) (<[i := t']> ts) s'.
Proof.
  intros Hi Ht Hw Hp Hp' Hl Hl' He He' Ho Hpr Hr.
  destruct (frame_word _ _ _ _ _ Hi Hw) as [-> H0].
  apply (frame_inv_update m ts s i t); cbn; [done|done| | | | |done|by right| | |by left|].
  - rewrite H0, Hp, Hp'. done.
  - rewrite H0, Hp, Hp'. done.
  - rewrite H0, Hp, Hp'. done.
  - lia.
  - lia.
  - by rewrite Hpr.
  - by destruct t'.
Qed.

(** Giving up one pin. *)
Lemma frame_inv_unpin m ts st i t :
  frame_inv m ts st → ts !! i = Some t → holds_pin t = 1 → holds_latch t = 0 →
  owned_state t = None → frame_inv (frame_unpin m) (<[i := TIdle]> ts) st.
Proof.
  intros Hi Ht Hp Hl Ho. pose proof (fi_word _ _ _ Hi) as Hw. pose proof (fi_max _ _ _ Hi).
  pose proof (total_lookup _ _ _ _ holds_pin_nonneg Ht).
  assert (holds_state t = 0) as Hs by (unfold holds_state; by rewrite Ho).
  apply (frame_inv_update m ts st i t); cbn; [done|done| | | | |done|by left| |done|by left|done].
  - rewrite Hw, word_unpin. f_equal. lia.
  - lia.
  - intros Hst. pose proof (fi_pins _ _ _ Hi Hst). lia.
  - rewrite Hs. lia.
  - lia.
Qed.

(** A thread that owns a state owns the frame's. *)
Lemma frame_owner m ts st i t s :
  frame_inv m ts st → ts !! i = Some t → owned_state t = Some s → s ≠ Resident →
  st = s ∧ total holds_pin ts = 0 ∧ fm_lifecycle m = lifecycle_word s 0.
Proof.
  intros Hi Ht Ho Hs. pose proof (fi_state _ _ _ Hi i t s Ht Ho) as ->.
  pose proof (fi_pins _ _ _ Hi Hs) as H0. rewrite (fi_word _ _ _ Hi), H0. done.
Qed.

Lemma pinnable_word st p : pinnable (lifecycle_word st p) = true → st = Resident ∧ p ≠ MAX_PINS.
Proof. unfold pinnable. rewrite word_state, word_pins. intros H. by bool_to_prop. Qed.

(** Taking a pin and taking the write latch. *)
Lemma frame_inv_pin m ts st i k o :
  frame_inv m ts st → ts !! i = Some (TPinRead o k) → fm_lifecycle m = o →
  frame_inv (with_lifecycle m (o + PIN_ONE)) (<[i := TPinTaken k]> ts) st.
Proof.
  intros Hi Ht <-. pose proof (fi_remembers _ _ _ Hi _ _ Ht) as Hr. cbn in Hr.
  pose proof (fi_word _ _ _ Hi) as Hw. pose proof (fi_max _ _ _ Hi). rewrite Hw in Hr.
  apply pinnable_word in Hr as [-> Hr].
  apply (frame_inv_update m ts Resident i (TPinRead (fm_lifecycle m) k)); cbn;
    [done|done| |lia|done|done|done|by left|lia|done|by left|done].
  rewrite Hw, word_pin. f_equal. lia.
Qed.

Lemma frame_inv_latch m ts st i k v :
  frame_inv m ts st → ts !! i = Some (TWriteObserved k v) → fm_version m = v →
  frame_inv (with_version m (wrapping_succ v)) (<[i := TWriteTaken k]> ts) st.
Proof.
  intros Hi Ht <-. pose proof (fi_remembers _ _ _ Hi _ _ Ht) as Hr. cbn in Hr.
  pose proof (fi_max _ _ _ Hi). rewrite land_one_mod in Hr.
  apply (frame_inv_update m ts st i (TWriteObserved k (fm_version m))); cbn;
    [done|done| |lia| |unfold holds_state; cbn; lia|done|by left| | |by left|done].
  - rewrite (fi_word _ _ _ Hi). f_equal. lia.
  - intros Hs. pose proof (fi_pins _ _ _ Hi Hs) as H0. lia.
  - by rewrite succ_parity, Zplus_mod, Hr.
  - intros ? [= <-]. by apply (fi_protected _ _ _ Hi _ _ k Ht).
Qed.

Lemma frame_inv_unlatch m ts st i k :
  frame_inv m ts st → ts !! i = Some (TWriting k) →
  frame_inv (release_latch m) (<[i := TPinned k]> ts) st.
Proof.
  intros Hi Ht. pose proof (fi_max _ _ _ Hi). pose proof (fi_latch _ _ _ Hi) as Hl.
  pose proof (total_lookup _ _ _ _ holds_latch_nonneg Ht) as H1. cbn in H1.
  pose proof (Z.mod_pos_bound (fm_version m) 2 ltac:(lia)).
  apply (frame_inv_update m ts st i (TWriting k)); cbn;
    [done|done| |lia| |unfold holds_state; cbn; lia|done|by left| | |by left|done].
  - rewrite (fi_word _ _ _ Hi). f_equal. lia.
  - intros Hs. pose proof (fi_pins _ _ _ Hi Hs). lia.
  - rewrite succ_parity, Zplus_mod. assert (fm_version m mod 2 = 1) as -> by lia. done.
  - intros ? [= <-]. by apply (fi_protected _ _ _ Hi _ _ k Ht).
Qed.

(** The loading thread's own steps. *)
Lemma frame_inv_count m ts st i n :
  frame_inv m ts st → ts !! i = Some (TLoadCounting n) →
  frame_inv (with_incarnation m n) (<[i := TLoadCounted]> ts) st.
Proof.
  intros Hi Ht. destruct (frame_owner _ _ _ _ _ Loading Hi Ht) as (-> & H0 & Hw); [done..|].
  apply (frame_inv_update m ts Loading i (TLoadCounting n)); cbn; rewrite ?H0;
    [done|done|done|done|done|done|congruence|by left|lia|done|by right|done].
Qed.

Lemma frame_inv_install m ts st i k :
  frame_inv m ts st → ts !! i = Some (TLoadInstall k) →
  frame_inv (with_lifecycle m (lifecycle_word Resident 1)) (<[i := TPinned k]> ts) Resident.
Proof.
  intros Hi Ht. destruct (frame_owner _ _ _ _ _ Loading Hi Ht) as (-> & H0 & Hw); [done..|].
  apply (frame_inv_update m ts Loading i (TLoadInstall k)); cbn; rewrite ?H0;
    [done|done|done|done|done|done|done|by right|lia| |by left|done].
  intros ? [= <-]. by apply (fi_protected _ _ _ Hi _ _ k Ht).
Qed.

Lemma thread_step_inv m ts st i t t' m' :
  frame_inv m ts st → ts !! i = Some t → thread_step t m t' m' →
  ∃ st', frame_inv m' (<[i := t']> ts) st'.
Proof.
  intros Hi Ht Hs. pose proof (fi_remembers _ _ _ Hi _ _ Ht) as Hr.
  destruct Hs;
    try (exists st; first [by eapply pin_retry_same|by eapply write_retry_same|by apply frame_inv_pin
                          |by eapply frame_inv_unpin|by apply frame_inv_latch
                          |by apply frame_inv_unlatch|by apply frame_inv_count]);
    try (exists Resident; by eapply frame_inv_install);
    try (exists st; eapply frame_inv_same; cbn; eauto; by naive_solver);
    try (eexists; eapply frame_inv_transition; cbn; eauto; by naive_solver).
  exists Free. eapply (frame_inv_transition _ _ _ Loading); cbn; eauto; [|done].
  by apply (frame_owner _ _ _ _ _ Loading Hi Ht).
Qed.

Lemma frame_start_inv n : frame_inv (frame_start n).1 (frame_start n).2 Free.
Proof.
  assert (∀ f, f TIdle = 0 → total f (replicate n TIdle) = 0) as Ht.
  { intros f Hf. induction n as [|n IH]; cbn; [done|]. by rewrite Hf, IH. }
  split; cbn; rewrite ?Ht by done; try done;
    intros i t; intros; by match goal with H : _ !! _ = Some _ |- _ =>
      apply lookup_replicate in H as [-> _] end.
Qed.

Lemma frame_reachable_inv n m ts :
  rtc frame_step (frame_start n) (m, ts) → ∃ st, frame_inv m ts st.
Proof.
  intros Hr. assert (∃ st, frame_inv (frame_start n).1 (frame_start n).2 st) as H0
    by (eexists; apply frame_start_inv).
  remember (frame_start n) as c eqn:Ec. clear Ec. remember (m, ts) as c' eqn:Ec'.
  revert m ts Ec'. induction Hr as [c|c d c' Hs _ IH]; intros m ts ->; [done|].
  apply IH; [|done]. destruct Hs as [m0 ts0 i t t' m1 Ht Hs]. destruct H0 as [st Hi].
  by eapply thread_step_inv.
Qed.

(** C25. Pins, latches and exclusive states exclude each other under every
    interleaving of the atomic accesses of any number of threads: the pin count of
    the word is the number of pins held; a thread that holds a pin on an
    incarnation finds the frame resident and still that incarnation, whatever a
    stale compare-and-swap did meanwhile; a thread that loads, writes back or
    evicts finds its own state with no pin, so that its next transition cannot
    fail, and no other thread holds a pin or a state; and at most one thread holds
    the write latch. *)
Theorem frame_exclusion n m ts :
  rtc frame_step (frame_start n) (m, ts) →
  pin_count m = total holds_pin ts ∧
  (∀ i t k, ts !! i = Some t → holds_pin t = 1 → protected t = Some k →
     frame_state m = Resident ∧ frame_incarnation m = Some k) ∧
  (∀ i t s, ts !! i = Some t → owned_state t = Some s →
     fm_lifecycle m = lifecycle_word s 0 ∧
     ∀ j u, j ≠ i → ts !! j = Some u → holds_pin u = 0 ∧ owned_state u = None) ∧
  (∀ i j t u, i ≠ j → ts !! i = Some t → ts !! j = Some u → holds_latch t = 1 → holds_latch u = 0).
Proof.
  intros Hr. destruct (frame_reachable_inv _ _ _ Hr) as [st Hi]. pose proof (fi_word _ _ _ Hi) as Hw.
  split_and!.
  - unfold pin_count. by rewrite Hw, word_pins.
  - intros i t k Ht Hp Hk. split; [|by apply (fi_protected _ _ _ Hi i t)].
    unfold frame_state. rewrite Hw, word_state. destruct (decide (st = Resident)) as [|Hs]; [done|].
    pose proof (fi_pins _ _ _ Hi Hs). pose proof (total_lookup _ _ _ _ holds_pin_nonneg Ht). lia.
  - intros i t s Ht Ho. assert (s ≠ Resident) as Hs by (destruct t; cbn in Ho; congruence).
    destruct (frame_owner _ _ _ _ _ _ Hi Ht Ho Hs) as (-> & H0 & Hl). split; [done|].
    intros j u Hj Hu. split.
    + pose proof (total_lookup _ _ _ _ holds_pin_nonneg Hu). pose proof (holds_pin_nonneg u). lia.
    + eapply (others_unowned _ _ _ i t); eauto. destruct t; cbn in Ho; by simplify_eq.
  - intros i j t u Hij Ht Hu Hl. pose proof (fi_latch _ _ _ Hi) as Hv.
    pose proof (total_two _ _ _ _ _ _ holds_latch_nonneg Hij Ht Hu) as H2.
    pose proof (Z.mod_pos_bound (fm_version m) 2 ltac:(lia)). pose proof (holds_latch_nonneg u). lia.
Qed.

(** One access of thread [i] by the constructor [c]. *)
Ltac access i c :=
  eapply rtc_l;
  [eapply (frame_step_intro _ _ i); [reflexivity|eapply c; first [reflexivity|by left]]|
   vm_compute].


Lemma frame_exclusion_witness :
  frame_state (begin_load new_free).1 = Loading ∧
  ∃ m, frame_state m = Resident ∧ pin_count m = 1 ∧ frame_incarnation m = Some 1.
Proof.
  split; [reflexivity|].
  exists {| fm_lifecycle := 10; fm_version := 0; fm_incarnation := 1; fm_dirty := false |}.
  destruct (frame_exclusion 2
    {| fm_lifecycle := 10; fm_version := 0; fm_incarnation := 1; fm_dirty := false |}
    [TPinned 1; TIdle]) as (Hc & Hp & _).
  { vm_compute. access 0%nat ts_load_reserve. access 0%nat ts_load_count. access 0%nat ts_load_store.
    access 0%nat ts_load_clean. access 0%nat ts_load_finish. access 0%nat ts_load_install.
    apply rtc_refl. }
  destruct (Hp 0%nat (TPinned 1) 1) as [Hs Hk]; [reflexivity..|].
  split; [exact Hs|]. split; [exact Hc|exact Hk].
Defined.

(** *** The methods are sequences of those accesses *)
Ltac alone c := eapply rtc_l; [eapply (frame_step_intro _ _ 0); [reflexivity|eapply c; eauto]|cbn].

Lemma alone_transition expected next m m' :
  transition_unpinned expected next m = (m', Ok tt) →
  fm_lifecycle m = lifecycle_word expected 0 ∧ m' = with_lifecycle m (lifecycle_word next 0).
Proof. unfold transition_unpinned. destruct (_ =? _) eqn:E; bool_to_prop; naive_solver. Qed.

Lemma alone_exclusive next m m' :
  begin_exclusive_state next m = (m', Ok tt) →
  fm_lifecycle m = lifecycle_word Resident 0 ∧ m' = with_lifecycle m (lifecycle_word next 0).
Proof. unfold begin_exclusive_state. destruct (_ =? _) eqn:E; bool_to_prop; naive_solver. Qed.

Lemma alone_try_pin m m' k :
  try_pin m = (m', Some k) → rtc frame_step (m, [TIdle]) (m', [TPinned k]).
Proof.
  unfold try_pin. destruct (bool_decide _) eqn:E1; cbn; [|done]. destruct (_ =? MAX_PINS) eqn:E2; [done|].
  destruct (frame_incarnation m) as [i|] eqn:E3; [|done]. intros [<- [= <-]]%pair_equal_spec.
  alone ts_pin_load. unfold pin_retry, pinnable. rewrite E1, E2. cbn.
  alone ts_pin_read. alone ts_pin_cas. alone ts_pin_ok. apply rtc_refl.
Qed.

Lemma alone_try_write m m' k v :
  try_write k m = (m', Ok v) → rtc frame_step (m, [TPinned k]) (m', [TWriting k]).
Proof.
  unfold try_write. destruct (bool_decide (_ = Resident)) eqn:E1; cbn; [|done].
  destruct (bool_decide (_ = Some k)) eqn:E2; cbn; [|done]. bool_to_prop.
  destruct (_ =? 0) eqn:E3; cbn; [|done]. intros [<- _]%pair_equal_spec.
  alone ts_write_state. alone ts_write_ready. alone ts_write_load. unfold write_retry. rewrite E3.
  alone ts_write_cas. alone ts_write_dirty. apply rtc_refl.
Qed.

Lemma alone_begin_load m m' k :
  begin_load m = (m', Ok k) → rtc frame_step (m, [TIdle]) (m', [TLoading]).
Proof.
  unfold begin_load. destruct (transition_unpinned _ _ m) as [m1 [[]|]] eqn:E; [|done].
  apply alone_transition in E as [Hw ->].
  destruct (next_incarnation _) as [n|] eqn:En; [|done]. intros [<- _]%pair_equal_spec.
  alone ts_load_reserve. alone ts_load_count. alone ts_load_store. alone ts_load_clean. apply rtc_refl.
Qed.

Lemma alone_install m m' k t :
  (∀ i, frame_incarnation m = Some i → thread_step t m (TLoadInstall i) m) →
  finish_load_pinned m = (m', Ok k) → rtc frame_step (m, [t]) (m', [TPinned k]).
Proof.
  intros Ht. unfold finish_load_pinned. destruct (frame_incarnation m) as [i|] eqn:Ei; [|done].
  destruct (_ =? _) eqn:E; bool_to_prop; [|done]. intros [<- [= <-]]%pair_equal_spec.
  eapply rtc_l; [eapply (frame_step_intro _ _ 0); [reflexivity|by apply Ht]|cbn].
  alone ts_load_install. apply rtc_refl.
Qed.

(** The methods as they run alone are runs of the interleaving model: what
    [try_pin], [try_write], [begin_load], [finish_load_pinned],
    [finish_new_page_pinned], [abort_load], the writeback and the eviction methods
    do in one call, a single thread does by its atomic accesses. *)
Lemma methods_are_accesses m m' k :
  (try_pin m = (m', Some k) → rtc frame_step (m, [TIdle]) (m', [TPinned k])) ∧
  (∀ v, try_write k m = (m', Ok v) → rtc frame_step (m, [TPinned k]) (m', [TWriting k])) ∧
  (begin_load m = (m', Ok k) → rtc frame_step (m, [TIdle]) (m', [TLoading])) ∧
  (finish_load_pinned m = (m', Ok k) → rtc frame_step (m, [TLoading]) (m', [TPinned k])) ∧
  (finish_new_page_pinned m = (m', Ok k) → rtc frame_step (m, [TLoading]) (m', [TPinned k])) ∧
  (abort_load m = (m', Ok tt) → rtc frame_step (m, [TLoading]) (m', [TIdle])) ∧
  (try_begin_writeback m = (m', Ok tt) → rtc frame_step (m, [TIdle]) (m', [TWriteback])) ∧
  (finish_writeback m = (m', Ok tt) → rtc frame_step (m, [TWriteback]) (m', [TIdle])) ∧
  (finish_writeback_for_evict m = (m', Ok tt) →
     rtc frame_step (m, [TWriteback]) (m', [TEvicting])) ∧
  (try_begin_evict m = (m', Ok tt) → rtc frame_step (m, [TIdle]) (m', [TEvicting])) ∧
  (finish_evict m = (m', Ok tt) → rtc frame_step (m, [TEvicting]) (m', [TIdle])).
Proof.
  split_and!.
  - apply alone_try_pin.
  - intros v. apply alone_try_write.
  - apply alone_begin_load.
  - apply alone_install. intros i. apply ts_load_finish.
  - unfold finish_new_page_pinned. intros H. alone ts_load_new.
    apply (alone_install _ _ _ TLoadNew); [|done]. intros i. apply ts_load_finish_new.
  - unfold abort_load. intros [Hw ->]%alone_transition. alone ts_load_fail. alone ts_load_abort.
    apply rtc_refl.
  - unfold try_begin_writeback. destruct (fm_dirty m) eqn:Ed; [|done]. intros [Hw ->]%alone_exclusive.
    alone ts_writeback_seen. alone ts_writeback_begin. apply rtc_refl.
  - unfold finish_writeback, finish_writeback_to. destruct (bool_decide _) eqn:E; bool_to_prop; [|done].
    intros [Hw ->]%alone_transition. alone (ts_writeback_check Resident).
    alone ts_writeback_clean. alone ts_writeback_finish. apply rtc_refl.
  - unfold finish_writeback_for_evict, finish_writeback_to.
    destruct (bool_decide _) eqn:E; bool_to_prop; [|done].
    intros [Hw ->]%alone_transition. alone (ts_writeback_check Evicting).
    alone ts_writeback_clean. alone ts_writeback_finish. apply rtc_refl.
  - unfold try_begin_evict. destruct (fm_dirty m) eqn:Ed; [done|]. intros [Hw ->]%alone_exclusive.
    alone ts_evict_seen. alone ts_evict_begin. apply rtc_refl.
  - intros [Hw ->]%alone_transition. alone ts_evict_finish. apply rtc_refl.
Qed.
