(* ===== verification/Translation.v ===== *)
(** * Page translation

    Models [crates/seerdb/src/vnext/translation.rs]: the sharded table that claims
    a logical page for one exact frame incarnation, with the 64 shards of
    [TranslationTable::new] and the mixing function that selects one. *)
From S2P Require Import Prelude Ids Shards.

Local Open Scope Z_scope.
Local Open Scope seer_scope.

(** The failure of a poisoned shard. *)
Inductive TranslationError := ShardPoisoned.

Inductive PublishResult := Published | Existing (frame : FrameRef).

Abbreviation TranslationTable := (list (Shard PageKey FrameRef)).

(** [x.rotate_left(n)] on a [u64], for [0 < n < 64]. *)
Definition rotate_left (x n : Z) : Z :=
  Z.lor (Z.shiftl x n mod 2 ^ 64) (Z.shiftr x (64 - n)).

(** The mixing of [shard], before the mask. *)
Definition translation_mix (key : PageKey) : Z :=
  let value := Z.lxor (pk_object key) (rotate_left (pk_page key) 29) in
  let value := Z.lxor value (Z.shiftr value 33) in
  let value := (value * 0xff51afd7ed558ccd) mod 2 ^ 64 in
  Z.lxor value (Z.shiftr value 33).

Definition translation_selector : ShardSelector PageKey :=
  {| shard_of := λ k, mask_shard (translation_mix k);
     shard_of_lt := λ k, mask_shard_lt (translation_mix k) |}.
#[local] Existing Instance translation_selector.

Definition TranslationTable_new : TranslationTable := table_new.

(** [self.shards[shard].read().map_err(|_| TranslationError)] *)
Definition translation_lock (t : TranslationTable) (key : PageKey)
    : result (gmap PageKey FrameRef) TranslationError :=
  map_err (λ _, ShardPoisoned) (shard_lock t (shard_of key)).

Definition translation_get (t : TranslationTable) (key : PageKey)
    : result (option FrameRef) TranslationError :=
  let? guard := translation_lock t key in
  Ok (guard !! key).

Definition publish_if_absent (t : TranslationTable) (key : PageKey) (frame : FrameRef)
    : TranslationTable * result PublishResult TranslationError :=
  match translation_lock t key with
  | Err e => (t, Err e)
  | Ok guard =>
      match guard !! key with
      | None => (shard_store t (shard_of key) (<[key := frame]> guard), Ok Published)
      | Some existing => (t, Ok (Existing existing))
      end
  end.

Definition remove_if (t : TranslationTable) (key : PageKey) (expected : FrameRef)
    : TranslationTable * result bool TranslationError :=
  match translation_lock t key with
  | Err e => (t, Err e)
  | Ok guard =>
      if bool_decide (guard !! key = Some expected)
      then (shard_store t (shard_of key) (delete key guard), Ok true)
      else (t, Ok false)
  end.

(** [len], the [try_fold] over the shards. *)
Fixpoint translation_len_loop (shards : TranslationTable) (sum : Z) : result Z TranslationError :=
  match shards with
  | [] => Ok sum
  | s :: rest =>
      if sh_poisoned s then Err ShardPoisoned
      else translation_len_loop rest (sum + Z.of_nat (size (sh_entries s)))
  end.
Definition translation_len (t : TranslationTable) : result Z TranslationError :=
  translation_len_loop t 0.

(** ** The table as a map *)
Definition mapped (t : TranslationTable) (k : PageKey) : option FrameRef := tget t k.

Definition translation_ok (t : TranslationTable) : Prop := table_wf t ∧ no_poison t.

Lemma TranslationTable_new_ok : translation_ok TranslationTable_new.
Proof. split; [apply table_new_wf|apply table_new_no_poison]. Qed.

Lemma mapped_new k : mapped TranslationTable_new k = None.
Proof. apply table_new_get. Qed.

Lemma translation_lock_ok t k :
  translation_ok t → translation_lock t k = Ok (shard_lock_anyway t (shard_of k)).
Proof. intros [Hw Hp]. unfold translation_lock. by rewrite shard_lock_no_poison. Qed.

Lemma translation_get_ok t k : translation_ok t → translation_get t k = Ok (mapped t k).
Proof. intros H. unfold translation_get. by rewrite translation_lock_ok. Qed.

(** Publishing claims a page that nothing claims, and reports the owner otherwise. *)
Lemma publish_ok t k f :
  translation_ok t →
  ∃ t', publish_if_absent t k f =
          (t', Ok match mapped t k with None => Published | Some g => Existing g end) ∧
        translation_ok t' ∧
        ∀ k', mapped t' k' =
          if decide (k = k') then Some (default f (mapped t k)) else mapped t k'.
Proof.
  intros H. pose proof H as [Hw Hp]. unfold publish_if_absent. rewrite translation_lock_ok by done.
  change (shard_lock_anyway t (shard_of k) !! k) with (mapped t k).
  destruct (mapped t k) as [g|] eqn:E.
  - exists t. split; [done|]. split; [done|]. intros k'. case_decide; [|done]. by subst.
  - eexists. split; [done|]. split.
    + split; [by apply shard_store_wf|by apply shard_store_no_poison].
    + intros k'. unfold mapped at 1. by rewrite tget_insert.
Qed.

(** Removal takes away exactly the expected claim. *)
Lemma remove_ok t k f :
  translation_ok t →
  ∃ t', remove_if t k f = (t', Ok (bool_decide (mapped t k = Some f))) ∧ translation_ok t' ∧
        ∀ k', mapped t' k' =
          if decide (k = k' ∧ mapped t k = Some f) then None else mapped t k'.
Proof.
  intros H. pose proof H as [Hw Hp]. unfold remove_if. rewrite translation_lock_ok by done.
  change (shard_lock_anyway t (shard_of k) !! k) with (mapped t k).
  destruct (bool_decide _) eqn:E; bool_to_prop.
  - eexists. split; [done|]. split.
    + split; [by apply shard_store_wf|by apply shard_store_no_poison].
    + intros k'. unfold mapped at 1. rewrite tget_delete by done.
      repeat case_decide; try done; naive_solver.
  - exists t. split; [done|]. split; [done|]. intros k'. case_decide; [naive_solver|done].
Qed.
