(* ===== verification/PageIo.v ===== *)
(** * The logical-page I/O seam

    The [PageIo] trait of [crates/seerdb/src/vnext/buffer.rs]: what lies below the
    buffer pool.  Its implementations are the page image store, the dependency
    gate and whatever a test supplies, so it is a class with the laws its users
    rely on, and an in-memory device satisfies them. *)
From S2P Require Import Prelude Ids Fs.

Local Open Scope Z_scope.

(** [read_page] fills a destination of the page's size; a failed read may have
    changed it. *)
Class PageIo (D : Type) := {
  io_read : PageKey → bytes → D → D * bytes * result unit IoErrorKind;
  io_write : PageKey → bytes → D → D * result unit IoErrorKind
}.

(** A device holds one image per logical page: a read that succeeds returns it, a
    write that succeeds replaces it, and a write that fails leaves every other
    page alone. *)
Class PageIoLaws (D : Type) `{PageIo D} := {
  io_repr : D → gmap PageKey bytes → Prop;
  io_read_repr d m k dest d' dest' r :
    io_repr d m → io_read k dest d = (d', dest', r) →
    io_repr d' m ∧ length dest' = length dest ∧ (r = Ok tt → m !! k = Some dest');
  io_write_repr d m k src d' r :
    io_repr d m → io_write k src d = (d', r) →
    ∃ m', io_repr d' m' ∧ (∀ k', k' ≠ k → m' !! k' = m !! k') ∧ (r = Ok tt → m' !! k = Some src)
}.

(** ** An in-memory device

    [mp_faults]: whether each coming operation fails. *)
Record MemoryPages := { mp_pages : gmap PageKey bytes; mp_faults : list bool }.

Definition mp_next (d : MemoryPages) : bool * MemoryPages :=
  match mp_faults d with
  | [] => (false, d)
  | b :: rest => (b, {| mp_pages := mp_pages d; mp_faults := rest |})
  end.

#[global] Instance memory_io : PageIo MemoryPages := {
  io_read k dest d :=
    let (fail, d) := mp_next d in
    match fail, mp_pages d !! k with
    | false, Some page =>
        if decide (length page = length dest) then (d, page, Ok tt) else (d, dest, Err InvalidData)
    | _, _ => (d, dest, Err NotFound)
    end;
  io_write k src d :=
    let (fail, d) := mp_next d in
    if fail then (d, Err OtherIo)
    else ({| mp_pages := <[k := src]> (mp_pages d); mp_faults := mp_faults d |}, Ok tt)
}.

Lemma mp_next_pages d : mp_pages (mp_next d).2 = mp_pages d.
Proof. unfold mp_next. by destruct (mp_faults d). Qed.

#[global] Program Instance memory_io_laws : PageIoLaws MemoryPages := {
  io_repr d m := mp_pages d = m
}.
Next Obligation.
  intros d m k dest d' dest' r <-. cbn. pose proof (mp_next_pages d) as Hp.
  destruct (mp_next d) as [b d1]. cbn in Hp.
  destruct b; [intros [= <- <- <-]; done|].
  destruct (mp_pages d1 !! k) as [page|] eqn:E; [|intros [= <- <- <-]; done].
  destruct (decide _); intros [= <- <- <-]; [|done]. split_and!; [done|done|].
  intros _. by rewrite <-Hp.
Qed.
Next Obligation.
  intros d m k src d' r <-. cbn. pose proof (mp_next_pages d) as Hp.
  destruct (mp_next d) as [b d1]. cbn in Hp. destruct b; intros [= <- <-].
  - exists (mp_pages d). done.
  - cbn. eexists. split; [done|]. rewrite Hp. split.
    + intros k' Hk. by rewrite lookup_insert_ne.
    + intros _. by rewrite lookup_insert_eq.
Qed.
