(* ===== verification/PageDependency.v ===== *)
(** * Page dependencies and the write-ahead gate

    Models [crates/seerdb/src/vnext/page_dependency.rs]: the WAL and undo
    requirements of logical pages, the durable frontiers, and the [PageIo]
    decorator that refuses to write a page image before both frontiers cover its
    requirements.  The wrapped page device is a class; pages select a shard
    through the standard library's unspecified [DefaultHasher], a parameter. *)
From S2P Require Import Prelude StdCollections Ids Fs Shards PageIo.

Local Open Scope Z_scope.
Local Open Scope seer_scope.

Record PageDependencies := { pd_required_wal : Lsn; pd_required_undo : option VersionId }.

#[global] Instance PageDependencies_eq_dec : EqDecision PageDependencies.
Proof. solve_decision. Defined.

(** [PageDependencies::none] *)
Definition dependencies_none : PageDependencies :=
  {| pd_required_wal := 0; pd_required_undo := None |}.

Definition merged (a b : PageDependencies) : PageDependencies :=
  {| pd_required_wal := Z.max (pd_required_wal a) (pd_required_wal b);
     pd_required_undo :=
       match pd_required_undo a, pd_required_undo b with
       | Some l, Some r => Some (Z.max l r)
       | Some value, None | None, Some value => Some value
       | None, None => None
       end |}.

Definition is_satisfied_by (d : PageDependencies) (durable_wal : Lsn) (durable_undo : Z) : bool :=
  (pd_required_wal d <=? durable_wal) &&
  match pd_required_undo d with Some required => required <=? durable_undo | None => true end.

Class PageHasher := page_hash : PageKey → Z.

#[global] Instance page_selector `{PageHasher} : ShardSelector PageKey :=
  {| shard_of := λ k, mask_shard (page_hash k); shard_of_lt := λ k, mask_shard_lt (page_hash k) |}.

Record PageDependencyTable := {
  pt_shards : list (Shard PageKey PageDependencies);
  pt_durable_wal : Lsn;
  pt_durable_undo : Z
}.

Inductive PageDependencyError := DependencyPoisoned (shard : nat).

(** [PageMaterialization] names the decision LSN; the table is an argument. *)
Record PageMaterialization := { pm_required_wal : Lsn }.

(** [PageDependencyTable::new] *)
Definition DependencyTable_new : PageDependencyTable :=
  {| pt_shards := table_new; pt_durable_wal := 0; pt_durable_undo := 0 |}.

Inductive PageWriteError :=
| WriteWouldBlock
| WriteDependency (e : PageDependencyError)
| WriteInner (e : IoErrorKind).

Section dependencies.
Context `{PageHasher}.

Definition dependency_merge (t : PageDependencyTable) (key : PageKey) (required : PageDependencies)
    : PageDependencyTable * result PageDependencies PageDependencyError :=
  match shard_lock (pt_shards t) (shard_of key) with
  | Err i => (t, Err (DependencyPoisoned i))
  | Ok entries =>
      let m := merged (default dependencies_none (entries !! key)) required in
      let entries' := if bool_decide (m = dependencies_none) then delete key entries
                      else <[key := m]> entries in
      ({| pt_shards := shard_store (pt_shards t) (shard_of key) entries';
          pt_durable_wal := pt_durable_wal t; pt_durable_undo := pt_durable_undo t |}, Ok m)
  end.

Definition requirements (t : PageDependencyTable) (key : PageKey)
    : result PageDependencies PageDependencyError :=
  match shard_lock (pt_shards t) (shard_of key) with
  | Err i => Err (DependencyPoisoned i)
  | Ok entries => Ok (default dependencies_none (entries !! key))
  end.

Definition frontiers_cover (t : PageDependencyTable) (required : PageDependencies) : bool :=
  is_satisfied_by required (pt_durable_wal t) (pt_durable_undo t).

Definition checked_requirements (t : PageDependencyTable) (key : PageKey)
    : result PageDependencies PageWriteError :=
  let? required := map_err WriteDependency (requirements t key) in
  if negb (is_satisfied_by required (pt_durable_wal t) (pt_durable_undo t))
  then Err WriteWouldBlock else Ok required.

(** [fetch_max] *)
Definition advance_wal (durable : Lsn) (t : PageDependencyTable) : PageDependencyTable :=
  {| pt_shards := pt_shards t; pt_durable_wal := Z.max (pt_durable_wal t) durable;
     pt_durable_undo := pt_durable_undo t |}.

Definition advance_undo (durable : VersionId) (t : PageDependencyTable) : PageDependencyTable :=
  {| pt_shards := pt_shards t; pt_durable_wal := pt_durable_wal t;
     pt_durable_undo := Z.max (pt_durable_undo t) durable |}.

Definition dependency_durable_undo (t : PageDependencyTable) : option VersionId :=
  if negb (pt_durable_undo t =? 0) then Some (pt_durable_undo t) else None.

Definition is_eligible (t : PageDependencyTable) (key : PageKey)
    : result bool PageDependencyError :=
  let? required := requirements t key in
  Ok (is_satisfied_by required (pt_durable_wal t) (pt_durable_undo t)).

(** [DependencyCheckedPageIo::write_page] *)
Definition write_page {D} `{PageIo D} (t : PageDependencyTable) (key : PageKey) (source : bytes)
    (d : D) : D * result unit PageWriteError :=
  match checked_requirements t key with
  | Err e => (d, Err e)
  | Ok _ => let '(d', r) := io_write key source d in (d', map_err WriteInner r)
  end.

(** ** Histories *)
Inductive DepOp :=
| DMerge (key : PageKey) (required : PageDependencies)
| DAdvanceWal (durable : Lsn)
| DAdvanceUndo (durable : VersionId).

Definition dep_exec (op : DepOp) (t : PageDependencyTable) : PageDependencyTable :=
  match op with
  | DMerge key required => (dependency_merge t key required).1
  | DAdvanceWal durable => advance_wal durable t
  | DAdvanceUndo durable => advance_undo durable t
  end.

Definition dep_run (ops : list DepOp) (t : PageDependencyTable) : PageDependencyTable :=
  fold_left (λ t op, dep_exec op t) ops t.

(** Requirement [a] asks for no more than [b]. *)
Definition dep_le (a b : PageDependencies) : Prop :=
  pd_required_wal a ≤ pd_required_wal b ∧
  match pd_required_undo a, pd_required_undo b with
  | None, _ => True
  | Some x, Some y => x ≤ y
  | Some _, None => False
  end.

Definition required_of (t : PageDependencyTable) (key : PageKey) : PageDependencies :=
  default dependencies_none (tget (pt_shards t) key).

Lemma dep_le_refl a : dep_le a a.
Proof. split; [lia|]. by destruct (pd_required_undo a). Qed.

Lemma dep_le_trans a b c : dep_le a b → dep_le b c → dep_le a c.
Proof.
  intros [? Hab] [? Hbc]. split; [lia|].
  destruct (pd_required_undo a), (pd_required_undo b), (pd_required_undo c); try done; lia.
Qed.

Lemma merged_upper a b : dep_le a (merged a b) ∧ dep_le b (merged a b).
Proof.
  unfold dep_le, merged; cbn. destruct (pd_required_undo a), (pd_required_undo b);
    split; split; try lia; done.
Qed.

Lemma is_satisfied_mono a b w u : dep_le a b → is_satisfied_by b w u = true → is_satisfied_by a w u = true.
Proof.
  intros [Hw Hu] [Hb1 Hb2]%andb_prop. bool_to_prop. apply andb_true_intro. split; [apply Z.leb_le; lia|].
  destruct (pd_required_undo a), (pd_required_undo b); try done. bool_to_prop. apply Z.leb_le. lia.
Qed.

Lemma dependency_merge_Ok t key required t' m :
  table_wf (pt_shards t) → dependency_merge t key required = (t', Ok m) →
  table_wf (pt_shards t') ∧ pt_durable_wal t' = pt_durable_wal t ∧
  pt_durable_undo t' = pt_durable_undo t ∧
  ∀ k, required_of t' k = if decide (key = k) then merged (required_of t key) required
                          else required_of t k.
Proof.
  intros Hw. unfold dependency_merge.
  destruct (shard_lock _ _) as [e|] eqn:El; [|done]. intros [<- _]%pair_equal_spec.
  split; [by apply shard_store_wf|]. split; [done|]. split; [done|]. intros k.
  apply shard_lock_Ok in El as <-. unfold required_of. cbn [pt_shards].
  change (shard_lock_anyway (pt_shards t) (shard_of key) !! key) with (tget (pt_shards t) key).
  case_bool_decide as Hm.
  - rewrite tget_delete by done. case_decide; [by rewrite Hm|done].
  - rewrite tget_insert by done. by case_decide.
Qed.

(** An operation keeps the frontiers and every page's requirement from moving
    backward. *)
Lemma dep_exec_mono op t :
  table_wf (pt_shards t) →
  table_wf (pt_shards (dep_exec op t)) ∧ pt_durable_wal t ≤ pt_durable_wal (dep_exec op t) ∧
  pt_durable_undo t ≤ pt_durable_undo (dep_exec op t) ∧
  ∀ k, dep_le (required_of t k) (required_of (dep_exec op t) k).
Proof.
  intros Hw. destruct op as [key required|d|d]; cbn.
  - destruct (dependency_merge t key required) as [t' [m|e]] eqn:E; cbn.
    + apply dependency_merge_Ok in E as (Hw' & -> & -> & Hk); [|done]. split_and!; [done|lia|lia|].
      intros k. rewrite Hk. case_decide as D; [subst; apply merged_upper|apply dep_le_refl].
    + unfold dependency_merge in E. destruct (shard_lock _ _); [done|]. injection E as <- _.
      split_and!; [done|lia|lia|]. intros k. apply dep_le_refl.
  - split_and!; [done|lia|lia|]. intros k. apply dep_le_refl.
  - split_and!; [done|lia|lia|]. intros k. apply dep_le_refl.
Qed.

Lemma dep_run_mono ops t :
  table_wf (pt_shards t) →
  table_wf (pt_shards (dep_run ops t)) ∧ ∀ k, dep_le (required_of t k) (required_of (dep_run ops t) k).
Proof.
  unfold dep_run. revert t. induction ops as [|op ops IH]; intros t Hw; cbn.
  { split; [done|]. intros k. apply dep_le_refl. }
  destruct (dep_exec_mono op t Hw) as (Hw1 & _ & _ & Hk1).
  destruct (IH _ Hw1) as [Hw2 Hk2]. split; [done|]. intros k. eapply dep_le_trans; [apply Hk1|apply Hk2].
Qed.

Lemma requirements_Ok t key r : requirements t key = Ok r → r = required_of t key.
Proof.
  unfold requirements, required_of, tget. destruct (shard_lock _ _) eqn:E; [|done].
  apply shard_lock_Ok in E as <-. congruence.
Qed.

(** C24. The write-ahead gate: whatever requirements were merged and frontiers
    advanced before, a page image reaches the wrapped device only if the durable
    WAL and undo frontiers cover every requirement ever merged into that page. *)
Theorem write_gate_covers_every_merge {D} `{PageIo D} ops1 key required t1 ops2 source (d d' : D) r :
  table_wf (pt_shards t1) →
  (dependency_merge (dep_run ops1 t1) key required).2 ≠ Err (DependencyPoisoned (shard_of key)) →
  let t := dep_run ops2 (dependency_merge (dep_run ops1 t1) key required).1 in
  write_page t key source d = (d', r) →
  is_satisfied_by required (pt_durable_wal t) (pt_durable_undo t) = true ∧
    (d', r) = (let '(d2, r2) := io_write key source d in (d2, map_err WriteInner r2))
  ∨ d' = d ∧ r ≠ Ok tt.
Proof.
  intros Hw Hm t. unfold write_page, checked_requirements.
  destruct (requirements t key) as [req|e] eqn:Er; cbn [map_err].
  2:{ intros [= <- <-]. right. done. }
  destruct (is_satisfied_by req _ _) eqn:Es; cbn [negb].
  2:{ intros [= <- <-]. right. done. }
  intros E. left. split; [|done]. apply requirements_Ok in Er as ->.
  destruct (dep_run_mono ops1 t1 Hw) as [Hw1 _].
  destruct (dependency_merge (dep_run ops1 t1) key required) as [t2 [m|e]] eqn:Em; cbn [fst snd] in *.
  2:{ exfalso. apply Hm. unfold dependency_merge in Em.
      destruct (shard_lock (pt_shards (dep_run ops1 t1)) (shard_of key)) as [|i] eqn:El; [done|].
      injection Em as _ <-. f_equal. f_equal. unfold shard_lock in El.
      destruct (_ !! _) as [s|]; [destruct (sh_poisoned s)|]; congruence. }
  apply dependency_merge_Ok in Em as (Hw2 & _ & _ & Hk); [|done].
  destruct (dep_run_mono ops2 t2 Hw2) as [_ Hle]. eapply is_satisfied_mono; [|exact Es].
  eapply dep_le_trans; [|apply Hle]. rewrite Hk, decide_True by done. apply merged_upper.
Qed.
End dependencies.

(** ** A concrete gate: the page needs LSN 5 and undo version 2 *)
#[local] Instance page_number_hasher : PageHasher := λ k, pk_page k.
#[local] Instance counting_io : PageIo nat :=
  {| io_read _ dest n := (n, dest, Ok tt); io_write _ _ n := (S n, Ok tt) |}.

Definition gate_page : PageKey := {| pk_object := 1; pk_page := 3 |}.
Definition gate_need : PageDependencies := {| pd_required_wal := 5; pd_required_undo := Some 2 |}.

Lemma write_gate_covers_every_merge_witness :
  let t := dep_run [DAdvanceWal 7] (dependency_merge (dep_run [] DependencyTable_new) gate_page gate_need).1 in
  (write_page t gate_page [] 0%nat).2 = Err WriteWouldBlock ∧
  is_satisfied_by gate_need (pt_durable_wal (dep_exec (DAdvanceUndo 2) t))
    (pt_durable_undo (dep_exec (DAdvanceUndo 2) t)) = true.
Proof.
  split; [vm_compute; reflexivity|].
  destruct (write_gate_covers_every_merge [] gate_page gate_need DependencyTable_new
    [DAdvanceWal 7; DAdvanceUndo 2] [] 0%nat 1%nat (Ok tt)) as [[H _]|[H _]].
  - reflexivity.
  - vm_compute. intros [=].
  - vm_compute. reflexivity.
  - exact H.
  - discriminate H.
Defined.
