(* ===== verification/PageImage.v ===== *)
(** * Page-image envelopes

    Models [crates/seerdb/src/vnext/page_image.rs]: the header of the image arena,
    the checksummed frame that holds one page image, and the error type of the page
    store ([page_store.rs]) that the codecs share.  A frame names the store, its own
    offset, the logical page and the durability requirements of its bytes. *)
From stdpp Require Import strings.
From S2P Require Import Prelude StdCollections Ids Crc Store Fs Shards PageIo PageDependency.

Local Open Scope Z_scope.
Local Open Scope seer_scope.

(** ** Errors of the page store *)
Inductive PageStoreOperation :=
| OpCreate | OpOpen | OpRead | OpAppendImage | OpSyncImages | OpWriteMap | OpSyncMap | OpSyncDirectory
| OpRepairTail.

Inductive PageStoreError :=
| PsInvalidInput (reason : string)
| PsCorruption (reason : string)
| PsMissingPage (key : PageKey)
| PsDependenciesNotDurable (key : PageKey)
| PsMapExists (id : Z)
| PsExhausted
| PsFenced
| PsPoisoned
| PsStore (e : StoreError)
| PsIo (operation : PageStoreOperation) (source : IoErrorKind).

(** ** Geometry *)
Definition IMAGE_FILE_MAGIC : bytes := [u8 79; u8 77; u8 80; u8 65].
Definition IMAGE_FILE_VERSION : Z := 1.
Definition IMAGE_FILE_HEADER_SIZE : nat := 40.
Definition PAGE_IMAGE_MAGIC : bytes := [u8 79; u8 77; u8 80; u8 73].
Definition PAGE_IMAGE_VERSION : Z := 1.
Definition PAGE_IMAGE_HEADER_SIZE : nat := 80.
Definition PAGE_IMAGE_TRAILER_SIZE : nat := 4.

Definition page_image_bytes (page_bytes : Z) : option Z :=
  body ← checked_add (Z.of_nat PAGE_IMAGE_HEADER_SIZE) page_bytes;
  checked_add body (Z.of_nat PAGE_IMAGE_TRAILER_SIZE).

Definition is_image_offset (offset page_bytes : Z) : bool :=
  match page_image_bytes page_bytes with
  | Some slot =>
      (Z.of_nat IMAGE_FILE_HEADER_SIZE <=? offset)
      && ((offset - Z.of_nat IMAGE_FILE_HEADER_SIZE) mod slot =? 0)
  | None => false
  end.

(** ** Metadata *)
Record ImageLocation := { il_offset : Z; il_checksum : Z }.

#[global] Instance ImageLocation_eq_dec : EqDecision ImageLocation.
Proof. solve_decision. Defined.

Record PageImageMetadata := {
  im_store : bytes;
  im_key : PageKey;
  im_location : ImageLocation;
  im_page_bytes : Z;
  im_dependencies : PageDependencies
}.

Record ImageFileHeader := { fh_store : bytes; fh_page_bytes : Z }.

Record ImageHeader := {
  ih_store : bytes;
  ih_offset : Z;
  ih_key : PageKey;
  ih_page_bytes : Z;
  ih_dependencies : PageDependencies
}.

(** [header[offset..offset + n]]; the header's length has been checked. *)
Definition field (h : bytes) (offset n : nat) : bytes := take n (drop offset h).

Definition read_u16 (bs : bytes) (offset : nat) : option Z := le_combine <$> slice bs offset 2.

Definition any_nonzero (bs : bytes) : bool := existsb (λ b, negb (byte.unsigned b =? 0)) bs.

Definition read_incarnation (bs : bytes) (offset : nat) (message : string) : result bytes PageStoreError :=
  let? raw := ok_or (slice bs offset 16) (PsCorruption message) in
  ok_or (incarnation_from_bytes raw) (PsCorruption message).

(** [.filter(|size| *size != 0)] *)
Definition nonzero (o : option Z) : option Z :=
  match o with Some z => if z =? 0 then None else Some z | None => None end.

Section codec.
Context `{Crc32c}.

(** ** The arena header *)
Definition file_header_fields (store : bytes) (page_bytes : Z) : list bytes :=
  [IMAGE_FILE_MAGIC; [u8 IMAGE_FILE_VERSION]; [u8 0]; u16_le (Z.of_nat IMAGE_FILE_HEADER_SIZE);
   store; u32_le page_bytes; replicate 8 (u8 0)].

Definition encode_file_header (store : bytes) (page_bytes : Z) : bytes :=
  let body := concat (file_header_fields store page_bytes) in body ++ u32_le (crc32c body).

Definition decode_file_header (bs : bytes) : result ImageFileHeader PageStoreError :=
  let? header := ok_or (slice bs 0 IMAGE_FILE_HEADER_SIZE) (PsCorruption "truncated page-image file header") in
  if negb (bool_decide (field header 0 4 = IMAGE_FILE_MAGIC))
  then Err (PsCorruption "invalid page-image file magic")
  else if negb (byte_at header 4 =? IMAGE_FILE_VERSION)
  then Err (PsCorruption "unsupported page-image file version")
  else if negb (byte_at header 5 =? 0) then Err (PsCorruption "unsupported page-image flags")
  else if negb (bool_decide (read_u16 header 6 = Some (Z.of_nat IMAGE_FILE_HEADER_SIZE)))
  then Err (PsCorruption "invalid page-image file header size")
  else if any_nonzero (field header 28 8) then Err (PsCorruption "nonzero page-image file reserved field")
  else
    let? expected := ok_or (read_u32 header 36)
                       (PsCorruption "invalid page-image file header checksum field") in
    if negb (crc32c (field header 0 36) =? expected)
    then Err (PsCorruption "page-image file header checksum mismatch")
    else
      let? store := read_incarnation header 8 "page-image file store incarnation" in
      let? page_bytes := ok_or (nonzero (read_u32 header 24))
                           (PsCorruption "invalid page-image file page size") in
      Ok {| fh_store := store; fh_page_bytes := page_bytes |}.

(** ** Image frames *)
Definition decode_image_header (bs expected_store : bytes) (expected_page_bytes : Z)
    : result ImageHeader PageStoreError :=
  let? header := ok_or (slice bs 0 PAGE_IMAGE_HEADER_SIZE) (PsCorruption "truncated page-image header") in
  if negb (bool_decide (field header 0 4 = PAGE_IMAGE_MAGIC)) then Err (PsCorruption "invalid page-image magic")
  else if negb (byte_at header 4 =? PAGE_IMAGE_VERSION) then Err (PsCorruption "unsupported page-image version")
  else if negb (byte_at header 5 =? 0) then Err (PsCorruption "unsupported page-image flags")
  else if negb (bool_decide (read_u16 header 6 = Some (Z.of_nat PAGE_IMAGE_HEADER_SIZE)))
  then Err (PsCorruption "invalid page-image header size")
  else if any_nonzero (field header 68 8) then Err (PsCorruption "nonzero page-image reserved field")
  else
    let? header_checksum := ok_or (read_u32 header 76)
                              (PsCorruption "invalid page-image header checksum field") in
    if negb (crc32c (field header 0 76) =? header_checksum)
    then Err (PsCorruption "page-image header checksum mismatch")
    else
      let? store := read_incarnation header 8 "page-image store incarnation" in
      if negb (bool_decide (store = expected_store))
      then Err (PsCorruption "page-image store incarnation mismatch")
      else
        let? page_bytes := ok_or (nonzero (read_u32 header 64)) (PsCorruption "invalid page-image page size") in
        if negb (page_bytes =? expected_page_bytes)
        then Err (PsCorruption "page-image payload size mismatch")
        else
          let? offset := ok_or (read_u64 header 24) (PsCorruption "invalid page-image offset field") in
          let? object := ok_or (read_u64 header 32) (PsCorruption "invalid page-image object field") in
          let? page := ok_or (read_u64 header 40) (PsCorruption "invalid page-image page field") in
          let? required_wal := ok_or (read_u64 header 48)
                                 (PsCorruption "invalid page-image WAL requirement field") in
          let? required_undo := ok_or (read_u64 header 56)
                                  (PsCorruption "invalid page-image undo requirement field") in
          Ok {| ih_store := store; ih_offset := offset;
                ih_key := {| pk_object := object; pk_page := page |};
                ih_page_bytes := page_bytes;
                ih_dependencies :=
                  {| pd_required_wal := required_wal;
                     pd_required_undo := if negb (required_undo =? 0) then Some required_undo else None |} |}.

Definition decode_image (bs expected_store : bytes) (expected_page_bytes : Z)
    : result (PageImageMetadata * bytes) PageStoreError :=
  let? header := decode_image_header bs expected_store expected_page_bytes in
  let? total := ok_or (page_image_bytes (ih_page_bytes header)) PsExhausted in
  if negb (len bs =? total) then Err (PsCorruption "page-image frame length mismatch")
  else
    let trailer := Z.to_nat (total - Z.of_nat PAGE_IMAGE_TRAILER_SIZE) in
    let? frame_checksum := ok_or (read_u32 bs trailer)
                             (PsCorruption "invalid page-image frame checksum field") in
    if negb (crc32c (take trailer bs) =? frame_checksum)
    then Err (PsCorruption "page-image frame checksum mismatch")
    else
      Ok ({| im_store := ih_store header; im_key := ih_key header;
             im_location := {| il_offset := ih_offset header; il_checksum := frame_checksum |};
             im_page_bytes := ih_page_bytes header; im_dependencies := ih_dependencies header |},
          drop PAGE_IMAGE_HEADER_SIZE (take trailer bs)).

Definition image_header_fields (store : bytes) (key : PageKey) (offset page_bytes required_wal required_undo : Z)
    : list bytes :=
  [PAGE_IMAGE_MAGIC; [u8 PAGE_IMAGE_VERSION]; [u8 0]; u16_le (Z.of_nat PAGE_IMAGE_HEADER_SIZE); store;
   u64_le offset; u64_le (pk_object key); u64_le (pk_page key); u64_le required_wal; u64_le required_undo;
   u32_le page_bytes; replicate 8 (u8 0)].

Definition encode_image (store : bytes) (key : PageKey) (offset page_bytes : Z)
    (dependencies : PageDependencies) (payload : bytes) : result bytes PageStoreError :=
  if negb (len payload =? page_bytes)
  then Err (PsInvalidInput "page-image payload size does not match the configured page size")
  else
    let? _ := ok_or (page_image_bytes page_bytes) PsExhausted in
    let? required_undo :=
      match pd_required_undo dependencies with
      | Some version =>
          if negb (version =? 0) then Ok version
          else Err (PsInvalidInput "page-image undo requirement cannot be the reserved identity zero")
      | None => Ok 0
      end in
    let head := concat (image_header_fields store key offset page_bytes
                          (pd_required_wal dependencies) required_undo) in
    let body := head ++ u32_le (crc32c head) ++ payload in
    Ok (body ++ u32_le (crc32c body)).
End codec.

(** ** The codecs are exact *)
Ltac ps_lia :=
  unfold IMAGE_FILE_HEADER_SIZE, PAGE_IMAGE_HEADER_SIZE, PAGE_IMAGE_TRAILER_SIZE, U64_MAX, U32_MAX, is_u32,
    is_u64 in *; lia.

Lemma page_image_bytes_u32 pb : is_u32 pb → page_image_bytes pb = Some (84 + pb).
Proof.
  intros Hpb. unfold page_image_bytes.
  assert (checked_add (Z.of_nat PAGE_IMAGE_HEADER_SIZE) pb = Some (80 + pb)) as -> by (apply checked_add_Some; ps_lia).
  cbn [mbind option_bind]. apply checked_add_Some. ps_lia.
Qed.

Lemma slice_prefix bs n : (n ≤ length bs)%nat → slice bs 0 n = Some (take n bs).
Proof. intros Hn. apply slice_Some. rewrite drop_0. by split. Qed.

Lemma any_nonzero_zeroes n : any_nonzero (replicate n (u8 0)) = false.
Proof. unfold any_nonzero. by induction n. Qed.

Lemma read_u16_field bs o z : read_u16 bs o = Some z → take 2 (drop o bs) = u16_le z.
Proof.
  unfold read_u16. intros (x & Hx & ->)%fmap_Some. pose proof (slice_length _ _ _ _ Hx) as Hl.
  apply slice_Some in Hx as [_ <-]. symmetry. unfold u16_le. by apply split_le_combine'.
Qed.

Lemma read_incarnation_Ok bs o msg i :
  read_incarnation bs o msg = Ok i → wf_incarnation i ∧ take 16 (drop o bs) = i.
Proof.
  unfold read_incarnation. destruct (slice bs o 16) as [x|] eqn:Hx; cbn; [|done].
  destruct (incarnation_from_bytes x) as [j|] eqn:Ei; cbn; [|done]. intros [= <-].
  pose proof (incarnation_from_bytes_Some _ _ Ei) as <-. pose proof (slice_length _ _ _ _ Hx) as Hl.
  apply slice_Some in Hx as [_ ->]. done.
Qed.

Section exact.
Context `{Crc32c}.

Definition file_header_layout : list nat := [4; 1; 1; 2; 16; 4; 8; 4]%nat.
Definition image_header_layout : list nat := [4; 1; 1; 2; 16; 8; 8; 8; 8; 8; 4; 8; 4]%nat.

(** A body with its checksum, as one more field. *)
Definition sealed (fields : list bytes) : list bytes := fields ++ [u32_le (crc32c (concat fields))].

Lemma concat_sealed fields : concat (sealed fields) = concat fields ++ u32_le (crc32c (concat fields)).
Proof. unfold sealed. rewrite concat_app. cbn. by rewrite app_nil_r. Qed.

Lemma file_header_sealed store pb : encode_file_header store pb = concat (sealed (file_header_fields store pb)).
Proof. by rewrite concat_sealed. Qed.

Lemma length_file_header store pb : length store = 16%nat → length (encode_file_header store pb) = 40%nat.
Proof.
  intros Hs. rewrite file_header_sealed, length_concat_fields. cbn. by rewrite Hs.
Qed.

Lemma decode_file_header_encode store pb rest :
  wf_incarnation store → is_u32 pb → pb ≠ 0 →
  decode_file_header (encode_file_header store pb ++ rest) = Ok {| fh_store := store; fh_page_bytes := pb |}.
Proof.
  intros [Hs Hi] Hpb H0. unfold decode_file_header.
  rewrite slice_app_here by (rewrite ?length_file_header; done). cbn [ok_or].
  rewrite file_header_sealed. set (fs := sealed (file_header_fields store pb)).
  assert (length <$> fs = file_header_layout) as Hls by (cbn; by rewrite Hs).
  assert (field (concat fs) 0 4 = IMAGE_FILE_MAGIC) as -> by exact (field_layout fs _ 0 _ Hls eq_refl).
  assert (byte_at (concat fs) 4 = 1) as -> by (apply (byte_layout fs _ 1 1 Hls eq_refl); lia).
  assert (byte_at (concat fs) 5 = 0) as -> by (apply (byte_layout fs _ 2 0 Hls eq_refl); lia).
  assert (slice (concat fs) 6 2 = Some (u16_le 40)) as Hsz by exact (slice_layout fs _ 3 _ Hls eq_refl).
  assert (field (concat fs) 28 8 = replicate 8 (u8 0)) as -> by exact (field_layout fs _ 6 _ Hls eq_refl).
  assert (read_u32 (concat fs) 36 = Some (crc32c (concat (file_header_fields store pb)))) as ->
    by (apply (read_layout32 fs _ 7 _ Hls eq_refl), crc32c_u32).
  assert (field (concat fs) 0 36 = concat (file_header_fields store pb)) as -> by exact (take_layout fs _ 7 Hls).
  assert (slice (concat fs) 8 16 = Some store) as Hst by (rewrite <-Hs; exact (slice_layout fs _ 4 _ Hls eq_refl)).
  assert (read_u32 (concat fs) 24 = Some pb) as -> by (by apply (read_layout32 fs _ 5 _ Hls eq_refl)).
  unfold read_u16, read_incarnation. rewrite Hsz, Hst, any_nonzero_zeroes. cbn [ok_or]. rewrite Hi. cbn [ok_or].
  unfold nonzero. rewrite (proj2 (Z.eqb_neq pb 0)) by done. by rewrite !bool_decide_eq_true_2, !Z.eqb_refl by done.
Qed.

(** What an image is made of. *)
Record wf_image (store : bytes) (key : PageKey) (offset pb : Z) (deps : PageDependencies) : Prop := {
  wi_store : wf_incarnation store;
  wi_object : is_u64 (pk_object key);
  wi_page : is_u64 (pk_page key);
  wi_offset : is_u64 offset;
  wi_page_bytes : is_u32 pb ∧ pb ≠ 0;
  wi_wal : is_u64 (pd_required_wal deps);
  wi_undo : ∀ v, pd_required_undo deps = Some v → is_u64 v ∧ v ≠ 0
}.

Definition undo_code (deps : PageDependencies) : Z := default 0 (pd_required_undo deps).

Definition image_fields (store : bytes) (key : PageKey) (offset pb : Z) (deps : PageDependencies) : list bytes :=
  image_header_fields store key offset pb (pd_required_wal deps) (undo_code deps).

Definition image_head store key offset pb deps : bytes := concat (sealed (image_fields store key offset pb deps)).

(** The frame of an image. *)
Definition image_frame (store : bytes) (key : PageKey) (offset pb : Z) (deps : PageDependencies) (payload : bytes)
    : bytes :=
  let body := image_head store key offset pb deps ++ payload in body ++ u32_le (crc32c body).

Definition frame_checksum (store : bytes) (key : PageKey) (offset pb : Z) (deps : PageDependencies) (payload : bytes)
    : Z :=
  crc32c (image_head store key offset pb deps ++ payload).

Lemma length_image_head store key offset pb deps :
  length store = 16%nat → length (image_head store key offset pb deps) = 80%nat.
Proof. intros Hs. unfold image_head. rewrite length_concat_fields. cbn. by rewrite Hs. Qed.

Lemma length_image_frame store key offset pb deps payload :
  length store = 16%nat → length (image_frame store key offset pb deps payload) = (84 + length payload)%nat.
Proof. intros Hs. unfold image_frame. rewrite !length_app, length_image_head, length_u32_le by done. lia. Qed.

Lemma encode_image_Ok store key offset pb deps payload fr :
  is_u32 pb →
  encode_image store key offset pb deps payload = Ok fr ↔
  len payload = pb ∧ pd_required_undo deps ≠ Some 0 ∧ fr = image_frame store key offset pb deps payload.
Proof.
  intros Hpb. unfold encode_image. rewrite page_image_bytes_u32 by done.
  destruct (len payload =? pb) eqn:El; bool_to_prop; cbn [negb]; [|split; [done|by intros [? _]]]. cbn [ok_or].
  unfold image_frame, image_head, image_fields, undo_code. rewrite !concat_sealed.
  destruct (pd_required_undo deps) as [v|]; cbn [default id].
  - destruct (v =? 0) eqn:Ev; bool_to_prop; cbn [negb]; [subst v; split; [done|by intros (_ & ? & _)]|].
    cbv zeta. rewrite <-!app_assoc. split; [intros [= <-]; split_and!; [done|congruence|done]|by intros (_ & _ & ->)].
  - cbv zeta. rewrite <-!app_assoc. split; [by intros [= <-]|by intros (_ & _ & ->)].
Qed.

(** The header is read from any bytes that start with it. *)
Lemma decode_image_header_encode store key offset pb deps rest :
  wf_image store key offset pb deps →
  decode_image_header (image_head store key offset pb deps ++ rest) store pb =
    Ok {| ih_store := store; ih_offset := offset; ih_key := key; ih_page_bytes := pb; ih_dependencies := deps |}.
Proof.
  intros [[Hs Hi] Hob Hpg Hof [Hpb H0] Hw Hu]. unfold decode_image_header.
  rewrite slice_app_here by (rewrite ?length_image_head; done). cbn [ok_or].
  unfold image_head. set (fields := image_fields store key offset pb deps). set (fs := sealed fields).
  assert (length <$> fs = image_header_layout) as Hls by (cbn; by rewrite Hs).
  assert (field (concat fs) 0 4 = PAGE_IMAGE_MAGIC) as -> by exact (field_layout fs _ 0 _ Hls eq_refl).
  assert (byte_at (concat fs) 4 = 1) as -> by (apply (byte_layout fs _ 1 1 Hls eq_refl); lia).
  assert (byte_at (concat fs) 5 = 0) as -> by (apply (byte_layout fs _ 2 0 Hls eq_refl); lia).
  assert (slice (concat fs) 6 2 = Some (u16_le 80)) as Hsz by exact (slice_layout fs _ 3 _ Hls eq_refl).
  assert (field (concat fs) 68 8 = replicate 8 (u8 0)) as -> by exact (field_layout fs _ 11 _ Hls eq_refl).
  assert (read_u32 (concat fs) 76 = Some (crc32c (concat fields))) as ->
    by (apply (read_layout32 fs _ 12 _ Hls eq_refl), crc32c_u32).
  assert (field (concat fs) 0 76 = concat fields) as -> by exact (take_layout fs _ 12 Hls).
  assert (slice (concat fs) 8 16 = Some store) as Hst by (rewrite <-Hs; exact (slice_layout fs _ 4 _ Hls eq_refl)).
  assert (read_u32 (concat fs) 64 = Some pb) as -> by (by apply (read_layout32 fs _ 10 _ Hls eq_refl)).
  assert (read_u64 (concat fs) 24 = Some offset) as -> by (by apply (read_layout64 fs _ 5 _ Hls eq_refl)).
  assert (read_u64 (concat fs) 32 = Some (pk_object key)) as -> by (by apply (read_layout64 fs _ 6 _ Hls eq_refl)).
  assert (read_u64 (concat fs) 40 = Some (pk_page key)) as -> by (by apply (read_layout64 fs _ 7 _ Hls eq_refl)).
  assert (read_u64 (concat fs) 48 = Some (pd_required_wal deps)) as -> by (by apply (read_layout64 fs _ 8 _ Hls eq_refl)).
  assert (is_u64 (undo_code deps)) as Huc.
  { unfold undo_code. destruct (pd_required_undo deps) as [v|]; [by apply Hu|done]. }
  assert (read_u64 (concat fs) 56 = Some (undo_code deps)) as -> by (by apply (read_layout64 fs _ 9 _ Hls eq_refl)).
  unfold read_u16, read_incarnation. rewrite Hsz, Hst, any_nonzero_zeroes. cbn [ok_or]. rewrite Hi. cbn [ok_or].
  unfold nonzero. rewrite (proj2 (Z.eqb_neq pb 0)) by done. rewrite !bool_decide_eq_true_2, !Z.eqb_refl by done.
  cbn [negb ok_or]. rewrite !Z.eqb_refl. cbn [negb]. destruct key as [object page], deps as [wal undo]. do 2 f_equal. f_equal.
  unfold undo_code in *. cbn in *. destruct undo as [v|]; [|done]. cbn. destruct (Hu v eq_refl) as [_ Hv].
  by rewrite (proj2 (Z.eqb_neq v 0)).
Qed.

Definition image_metadata store key offset pb deps payload : PageImageMetadata :=
  {| im_store := store; im_key := key;
     im_location := {| il_offset := offset; il_checksum := frame_checksum store key offset pb deps payload |};
     im_page_bytes := pb; im_dependencies := deps |}.

Lemma decode_image_frame store key offset pb deps payload :
  wf_image store key offset pb deps → len payload = pb →
  decode_image (image_frame store key offset pb deps payload) store pb =
    Ok (image_metadata store key offset pb deps payload, payload).
Proof.
  intros Hw Hl. pose proof Hw as [[Hs _] _ _ _ [Hpb _] _ _]. unfold decode_image.
  set (head := image_head store key offset pb deps).
  assert (length head = 80%nat) as Hh by (by apply length_image_head).
  unfold image_frame. cbv zeta. fold head. rewrite <-!app_assoc.
  rewrite (decode_image_header_encode store key offset pb deps) by done. cbn [ih_page_bytes].
  rewrite page_image_bytes_u32 by done. cbn [ok_or].
  assert (len (head ++ payload ++ u32_le (crc32c (head ++ payload))) = 84 + pb) as ->.
  { rewrite !len_app. unfold len in *. rewrite Hh, length_u32_le. lia. }
  rewrite Z.eqb_refl. cbn [negb].
  assert (Z.to_nat (84 + pb - Z.of_nat PAGE_IMAGE_TRAILER_SIZE) = length (head ++ payload)) as ->.
  { rewrite length_app, Hh. unfold len in Hl. ps_lia. }
  rewrite (app_assoc head payload), take_app_length.
  unfold read_u32. rewrite (slice_app_skip _ _ _ _ _ eq_refl) by lia.
  rewrite slice_all by (rewrite ?length_u32_le; lia). cbn [fmap option_fmap option_map ok_or].
  rewrite le_u32_roundtrip by apply crc32c_u32. rewrite Z.eqb_refl. cbn [negb].
  unfold PAGE_IMAGE_HEADER_SIZE. rewrite drop_app_length' by done. done.
Qed.

(** Whatever decodes is a frame. *)
Lemma decode_image_header_inv bs store pb h :
  decode_image_header bs store pb = Ok h →
  ih_store h = store ∧ ih_page_bytes h = pb ∧ wf_image store (ih_key h) (ih_offset h) pb (ih_dependencies h) ∧
  take 80 bs = image_head store (ih_key h) (ih_offset h) pb (ih_dependencies h).
Proof.
  unfold decode_image_header. destruct (slice bs 0 _) as [hd|] eqn:Eh; cbn [ok_or]; [|done].
  pose proof (slice_length _ _ _ _ Eh) as Hlen. apply slice_Some in Eh as [_ Ehd]. rewrite drop_0 in Ehd.
  change (take 80 bs) with (take PAGE_IMAGE_HEADER_SIZE bs). rewrite <-Ehd. clear Ehd.
  repeat (case_match; [done|]). bool_to_prop.
  destruct (read_u32 hd 76) as [hc|] eqn:Ec; cbn [ok_or]; [|done]. case_match; [done|]. bool_to_prop.
  destruct (read_incarnation hd 8 _) as [st|] eqn:Est; [|done]. case_match; [done|]. bool_to_prop. subst st.
  destruct (nonzero (read_u32 hd 64)) as [pb'|] eqn:Epb; cbn [ok_or]; [|done]. case_match; [done|]. bool_to_prop. subst pb'.
  destruct (read_u64 hd 24) as [off|] eqn:E24; cbn [ok_or]; [|done].
  destruct (read_u64 hd 32) as [ob|] eqn:E32; cbn [ok_or]; [|done].
  destruct (read_u64 hd 40) as [pg|] eqn:E40; cbn [ok_or]; [|done].
  destruct (read_u64 hd 48) as [wal|] eqn:E48; cbn [ok_or]; [|done].
  destruct (read_u64 hd 56) as [un|] eqn:E56; cbn [ok_or]; [|done]. intros [= <-].
  cbn [ih_store ih_page_bytes ih_key ih_offset ih_dependencies].
  apply read_u64_field in E24 as [F24 Hoff], E32 as [F32 Hob], E40 as [F40 Hpg], E48 as [F48 Hwal], E56 as [F56 Hun].
  apply read_u32_field in Ec as [F76 _]. apply read_incarnation_Ok in Est as [Hst F8].
  assert (read_u32 hd 64 = Some pb ∧ pb ≠ 0) as [E64 Hpb0].
  { unfold nonzero in Epb. destruct (read_u32 hd 64) as [z|]; [|done]. destruct (z =? 0) eqn:Ez; bool_to_prop; [done|].
    by injection Epb as ->. }
  apply read_u32_field in E64 as [F64 Hpb].
  split; [done|]. split; [done|]. split.
  { split; try done. cbn. intros v. destruct (un =? 0) eqn:Eu; bool_to_prop; cbn; [done|]. by intros [= <-]. }
  set (deps := {| pd_required_wal := wal; pd_required_undo := if negb (un =? 0) then Some un else None |}).
  assert (undo_code deps = un) as Hcode.
  { unfold undo_code, deps. cbn. destruct (un =? 0) eqn:Eu; bool_to_prop; done. }
  rewrite (concat_cut_all image_header_layout hd) by done. unfold image_head, sealed, image_fields. rewrite Hcode. f_equal.
  set (fields := image_header_fields _ _ _ _ _ _).
  assert (cut 0 [4; 1; 1; 2; 16; 8; 8; 8; 8; 8; 4; 8]%nat hd = fields) as Hf.
  { cbn [cut plus Nat.add]. unfold fields, image_header_fields. cbn [pk_object pk_page pd_required_wal].
    rewrite !byte_field by (rewrite Hlen; unfold PAGE_IMAGE_HEADER_SIZE; lia).
    repeat f_equal; try done; try congruence.
    - by apply read_u16_field.
    - apply zero_bytes; [|done]. rewrite length_take, length_drop, Hlen. done. }
  change image_header_layout with ([4; 1; 1; 2; 16; 8; 8; 8; 8; 8; 4; 8] ++ [4])%nat.
  rewrite cut_app, Hf. f_equal.
  assert (field hd 0 76 = concat fields) as Hb by (by rewrite <-Hf, concat_cut).
  assert (crc32c (concat fields) = hc) as -> by (by rewrite <-Hb). cbn. by rewrite F76.
Qed.

Lemma decode_image_inv bs store pb md payload :
  decode_image bs store pb = Ok (md, payload) →
  let key := im_key md in let offset := il_offset (im_location md) in let deps := im_dependencies md in
  wf_image store key offset pb deps ∧ len payload = pb ∧ bs = image_frame store key offset pb deps payload ∧
  md = image_metadata store key offset pb deps payload.
Proof.
  unfold decode_image. destruct (decode_image_header bs store pb) as [h|] eqn:Eh; [|done].
  apply decode_image_header_inv in Eh as (Es & Ep & Hw & Hhd). rewrite Ep, Es.
  pose proof Hw as [[Hs _] _ _ _ [Hpb _] _ _]. rewrite page_image_bytes_u32 by done. cbn [ok_or].
  destruct (len bs =? _) eqn:El; bool_to_prop; cbn [negb]; [|done].
  set (tr := Z.to_nat (84 + pb - Z.of_nat PAGE_IMAGE_TRAILER_SIZE)).
  assert (length bs = 84 + Z.to_nat pb ∧ tr = 80 + Z.to_nat pb)%nat as [Hl Htr] by (unfold len, tr in *; ps_lia).
  destruct (read_u32 bs tr) as [fc|] eqn:Ec; cbn [ok_or]; [|done].
  destruct (crc32c (take tr bs) =? fc) eqn:Ecrc; bool_to_prop; cbn [negb]; [|done]. intros [= <- <-].
  cbn [im_key im_location il_offset im_dependencies].
  assert (take tr bs = image_head store (ih_key h) (ih_offset h) pb (ih_dependencies h) ++ drop 80 (take tr bs)) as Hb.
  { rewrite <-Hhd, <-(take_drop 80 (take tr bs)) at 1. by rewrite take_take, Nat.min_l by lia. }
  apply read_u32_field in Ec as [Ec _].
  assert (take 4 (drop tr bs) = drop tr bs) as Ed by (apply take_ge; rewrite length_drop; lia).
  split; [done|]. split; [unfold len, PAGE_IMAGE_HEADER_SIZE; rewrite length_drop, length_take; ps_lia|].
  unfold PAGE_IMAGE_HEADER_SIZE in *. split.
  - unfold image_frame. cbv zeta. rewrite <-Hb, Ecrc, <-Ec, Ed. by rewrite take_drop.
  - unfold image_metadata, frame_checksum. rewrite <-Hb. by rewrite Ecrc.
Qed.

(** The page-image codec is exact: a byte string decodes to some metadata and
    payload if and only if it is the encoding of that payload under that metadata. *)
Theorem page_image_codec bs store pb md payload :
  decode_image bs store pb = Ok (md, payload) ↔
  wf_image store (im_key md) (il_offset (im_location md)) pb (im_dependencies md) ∧
  encode_image store (im_key md) (il_offset (im_location md)) pb (im_dependencies md) payload = Ok bs ∧
  md = image_metadata store (im_key md) (il_offset (im_location md)) pb (im_dependencies md) payload.
Proof.
  split.
  - intros (Hw & Hl & Hb & Hm)%decode_image_inv. split; [done|]. split; [|done].
    pose proof Hw as [_ _ _ _ [Hpb _] _ Hu]. apply encode_image_Ok; [done|]. split_and!; [done| |done].
    intros Hz. by destruct (Hu 0 Hz).
  - intros (Hw & He & Hm). pose proof Hw as [_ _ _ _ [Hpb _] _ Hu].
    apply encode_image_Ok in He as (Hl & _ & ->); [|done]. rewrite decode_image_frame by done. by rewrite <-Hm.
Qed.
End exact.
