(* ===== verification/PageMapFile.v ===== *)
(** * Placement map files

    Models [crates/seerdb/src/vnext/page_map.rs]: the immutable, checksummed
    snapshot of which physical image serves each logical page, and its validation
    against an independently supplied reference. *)
From stdpp Require Import strings.
From S2P Require Import Prelude StdCollections Ids Crc Store Fs Shards PageIo PageDependency PageImage.

Local Open Scope Z_scope.
Local Open Scope seer_scope.

(** [#[derive(Ord)]] on [PageKey]: object, then page. *)
#[global] Program Instance PageKey_ord : Ord PageKey :=
  {| cmp := λ a b, cmp (pk_object a, pk_page a) (pk_object b, pk_page b) |}.
Next Obligation. intros [a b] [c d]. rewrite cmp_eq. cbn. split; [by intros [= -> ->]|by intros [= -> ->]]. Qed.
Next Obligation. intros x y. apply cmp_opp. Qed.
Next Obligation. intros x y z. apply cmp_trans. Qed.

Definition PAGE_MAP_MAGIC : bytes := [u8 79; u8 77; u8 80; u8 77].
Definition PAGE_MAP_VERSION : Z := 1.
Definition PAGE_MAP_HEADER_SIZE : nat := 64.
Definition PAGE_MAP_RECORD_SIZE : nat := 32.
Definition PAGE_MAP_TRAILER_SIZE : nat := 4.

(** [PageMapId::new]: the identity is a nonzero integer. *)
Definition PageMapId_new (value : Z) : option Z := if value =? 0 then None else Some value.

Record PageMapRef := { pr_id : Z; pr_file_bytes : Z; pr_checksum : Z }.

Record PageMapEntry := { me_key : PageKey; me_image : ImageLocation }.

Record PageMap := {
  pm_reference : PageMapRef;
  pm_store : bytes;
  pm_page_bytes : Z;
  pm_image_file_end : Z;
  pm_entries : list (PageKey * ImageLocation)
}.

(** [PageMap::entries] *)
Definition map_entries (m : PageMap) : list PageMapEntry :=
  (λ p, {| me_key := p.1; me_image := p.2 |}) <$> pm_entries m.

(** [PageMap::require] *)
Definition map_require (m : PageMap) (key : PageKey) : result ImageLocation PageStoreError :=
  ok_or (BTreeMap.get key (pm_entries m)) (PsMissingPage key).

Fixpoint validate_required_keys (m : PageMap) (keys : list PageKey) : result unit PageStoreError :=
  match keys with
  | [] => Ok tt
  | key :: keys' => let? _ := map_require m key in validate_required_keys m keys'
  end.

Definition checked_mul (a b : Z) : option Z := if a * b <=? U64_MAX then Some (a * b) else None.

Definition map_file_bytes (count : Z) : option Z :=
  records ← checked_mul count (Z.of_nat PAGE_MAP_RECORD_SIZE);
  with_header ← checked_add (Z.of_nat PAGE_MAP_HEADER_SIZE) records;
  checked_add with_header (Z.of_nat PAGE_MAP_TRAILER_SIZE).

(** [previous.is_some_and(|key| key >= next)] *)
Definition not_increasing (previous : option PageKey) (next : PageKey) : bool :=
  match previous with
  | Some key => match cmp key next with Lt => false | _ => true end
  | None => false
  end.

Section codec.
Context `{Crc32c}.

Definition record_fields (e : PageMapEntry) : list bytes :=
  [u64_le (pk_object (me_key e)); u64_le (pk_page (me_key e)); u64_le (il_offset (me_image e));
   u32_le (il_checksum (me_image e))].

Definition map_header_fields (id : Z) (store : bytes) (page_bytes count image_file_end : Z) : list bytes :=
  [PAGE_MAP_MAGIC; [u8 PAGE_MAP_VERSION]; [u8 0]; u16_le (Z.of_nat PAGE_MAP_HEADER_SIZE); store; u64_le id;
   u32_le page_bytes; u32_le (Z.of_nat PAGE_MAP_RECORD_SIZE); u64_le count; u64_le image_file_end;
   replicate 4 (u8 0)].

(** The loop of [encode] over the entries. *)
Fixpoint encode_records (previous : option PageKey) (placements : list Z) (entries : list PageMapEntry)
    : result bytes PageStoreError :=
  match entries with
  | [] => Ok []
  | entry :: entries' =>
      if not_increasing previous (me_key entry)
      then Err (PsInvalidInput "page-map entries must be in strictly increasing key order")
      else if bool_decide (il_offset (me_image entry) ∈ placements)
      then Err (PsInvalidInput "page-map entries must not name the same physical image twice")
      else
        let? rest := encode_records (Some (me_key entry)) (placements ++ [il_offset (me_image entry)]) entries' in
        Ok (concat (sealed (record_fields entry)) ++ rest)
  end.

(** [page_map::encode] *)
Definition encode_map (id : Z) (store : bytes) (page_bytes image_file_end : Z) (entries : list PageMapEntry)
    : result (bytes * PageMapRef) PageStoreError :=
  if page_bytes =? 0 then Err (PsInvalidInput "page-map page size is zero")
  else
    let? total := ok_or (map_file_bytes (len entries)) PsExhausted in
    let header := concat (sealed (map_header_fields id store page_bytes (len entries) image_file_end)) in
    let? records := encode_records None [] entries in
    let checksum := crc32c (header ++ records) in
    Ok ((header ++ records) ++ u32_le checksum,
        {| pr_id := id; pr_file_bytes := total; pr_checksum := checksum |}).

(** The loop of [decode]: [n] records are left, [index] have been read. *)
Fixpoint decode_records (n index : nat) (bs : bytes) (previous : option PageKey) (placements : list Z)
    (entries : list (PageKey * ImageLocation)) : result (list (PageKey * ImageLocation)) PageStoreError :=
  match n with
  | O => Ok entries
  | S n' =>
      let record := field bs (PAGE_MAP_HEADER_SIZE + index * PAGE_MAP_RECORD_SIZE) PAGE_MAP_RECORD_SIZE in
      let? record_checksum := ok_or (read_u32 record 28)
                                (PsCorruption "invalid page-map record checksum field") in
      if negb (crc32c (take 28 record) =? record_checksum)
      then Err (PsCorruption "page-map record checksum mismatch")
      else
        let? object := ok_or (read_u64 record 0) (PsCorruption "invalid page-map record object") in
        let? page := ok_or (read_u64 record 8) (PsCorruption "invalid page-map record page") in
        let? offset := ok_or (read_u64 record 16) (PsCorruption "invalid page-map record offset") in
        let? image_checksum := ok_or (read_u32 record 24)
                                 (PsCorruption "invalid page-map record image checksum") in
        let key := {| pk_object := object; pk_page := page |} in
        if not_increasing previous key
        then Err (PsCorruption "page-map records are not in strictly increasing key order")
        else if bool_decide (offset ∈ placements)
        then Err (PsCorruption "page-map names one physical image twice")
        else
          decode_records n' (S index) bs (Some key) (placements ++ [offset])
            (BTreeMap.insert key {| il_offset := offset; il_checksum := image_checksum |} entries)
  end.

(** The part of [decode] that validates the header: the page size, the number of
    records and the image boundary. *)
Definition decode_map_header (bs : bytes) (expected : PageMapRef) (expected_store : bytes)
    : result (Z * Z * Z) PageStoreError :=
  if negb (len bs =? pr_file_bytes expected) then Err (PsCorruption "page-map file length mismatch")
  else
    let? header := ok_or (slice bs 0 PAGE_MAP_HEADER_SIZE) (PsCorruption "truncated page-map header") in
    if negb (bool_decide (field header 0 4 = PAGE_MAP_MAGIC)) then Err (PsCorruption "invalid page-map magic")
    else if negb (byte_at header 4 =? PAGE_MAP_VERSION) then Err (PsCorruption "unsupported page-map version")
    else if negb (byte_at header 5 =? 0) then Err (PsCorruption "unsupported page-map flags")
    else if negb (bool_decide (read_u16 header 6 = Some (Z.of_nat PAGE_MAP_HEADER_SIZE)))
    then Err (PsCorruption "invalid page-map header size")
    else if any_nonzero (field header 56 4) then Err (PsCorruption "nonzero page-map reserved field")
    else
      let? header_checksum := ok_or (read_u32 header 60) (PsCorruption "invalid page-map header checksum field") in
      if negb (crc32c (field header 0 60) =? header_checksum)
      then Err (PsCorruption "page-map header checksum mismatch")
      else
        let? store := ok_or (incarnation_from_bytes (field header 8 16))
                        (PsCorruption "zero page-map store incarnation") in
        if negb (bool_decide (store = expected_store))
        then Err (PsCorruption "page-map store incarnation mismatch")
        else
          let? id := ok_or (v ← read_u64 header 24; PageMapId_new v) (PsCorruption "invalid page-map identity") in
          if negb (id =? pr_id expected) then Err (PsCorruption "page-map identity mismatch")
          else
            let? page_bytes := ok_or (nonzero (read_u32 header 32)) (PsCorruption "invalid page-map page size") in
            if negb (bool_decide (read_u32 header 36 = Some (Z.of_nat PAGE_MAP_RECORD_SIZE)))
            then Err (PsCorruption "invalid page-map record size")
            else
              let? count := ok_or (read_u64 header 40) (PsCorruption "invalid page-map entry count") in
              let? image_file_end := ok_or (read_u64 header 48) (PsCorruption "invalid page-map image boundary") in
              Ok (page_bytes, count, image_file_end).

(** [page_map::decode] *)
Definition decode_map (bs : bytes) (expected : PageMapRef) (expected_store : bytes)
    : result PageMap PageStoreError :=
  let? fields := decode_map_header bs expected expected_store in
  let '(page_bytes, count, image_file_end) := fields in
  let? expected_bytes := ok_or (map_file_bytes count) PsExhausted in
  if negb (expected_bytes =? pr_file_bytes expected)
  then Err (PsCorruption "page-map entry count disagrees with its file length")
  else
    let trailer := (length bs - PAGE_MAP_TRAILER_SIZE)%nat in
    let? checksum := ok_or (read_u32 bs trailer) (PsCorruption "invalid page-map checksum field") in
    if negb (crc32c (take trailer bs) =? checksum) then Err (PsCorruption "page-map checksum mismatch")
    else if negb (checksum =? pr_checksum expected) then Err (PsCorruption "page-map reference mismatch")
    else
      let? entries := decode_records (Z.to_nat count) 0 bs None [] [] in
      Ok {| pm_reference := expected; pm_store := expected_store; pm_page_bytes := page_bytes;
            pm_image_file_end := image_file_end; pm_entries := entries |}.
End codec.

(** ** The codec is exact *)
Ltac map_lia :=
  unfold PAGE_MAP_HEADER_SIZE, PAGE_MAP_RECORD_SIZE, PAGE_MAP_TRAILER_SIZE, U64_MAX, U32_MAX, is_u32, is_u64 in *; lia.

Lemma map_file_bytes_Some n t : 0 ≤ n → map_file_bytes n = Some t ↔ t = 68 + 32 * n ∧ 68 + 32 * n ≤ U64_MAX.
Proof.
  intros Hn. unfold map_file_bytes, checked_mul. destruct (_ <=? U64_MAX) eqn:E; bool_to_prop; cbn [mbind option_bind].
  2:{ split; [done|map_lia]. }
  destruct (checked_add _ _) as [h|] eqn:E1; cbn [mbind option_bind].
  - apply checked_add_Some in E1 as [-> _]. rewrite checked_add_Some. map_lia.
  - unfold checked_add in E1. destruct (_ <=? _) eqn:E2 in E1; [done|]. bool_to_prop. split; [done|map_lia].
Qed.

Section exact.
Context `{Crc32c}.

(** Entries that continue a map whose last key is [previous]. *)
Fixpoint valid_from (previous : option PageKey) (placements : list Z) (es : list PageMapEntry) : Prop :=
  match es with
  | [] => True
  | e :: es' => not_increasing previous (me_key e) = false ∧ il_offset (me_image e) ∉ placements ∧
      valid_from (Some (me_key e)) (placements ++ [il_offset (me_image e)]) es'
  end.

Definition wf_entry (e : PageMapEntry) : Prop :=
  is_u64 (pk_object (me_key e)) ∧ is_u64 (pk_page (me_key e)) ∧ is_u64 (il_offset (me_image e)) ∧
  is_u32 (il_checksum (me_image e)).

Definition record_bytes (e : PageMapEntry) : bytes := concat (sealed (record_fields e)).
Definition records_bytes (es : list PageMapEntry) : bytes := concat (record_bytes <$> es).

Lemma length_record e : length (record_bytes e) = 32%nat.
Proof. unfold record_bytes. by rewrite length_concat_fields. Qed.

Lemma records_cons e es : records_bytes (e :: es) = record_bytes e ++ records_bytes es.
Proof. done. Qed.

Lemma length_records es : length (records_bytes es) = (32 * length es)%nat.
Proof.
  induction es as [|e es IH]; [done|]. rewrite records_cons, length_app, length_record, IH. cbn [length]. lia.
Qed.

Lemma encode_records_Ok es : ∀ previous placements bs,
  encode_records previous placements es = Ok bs ↔ valid_from previous placements es ∧ bs = records_bytes es.
Proof.
  induction es as [|e es IH]; intros previous placements bs; cbn [encode_records valid_from].
  { split; [by intros [= <-]|by intros [_ ->]]. }
  destruct (not_increasing previous (me_key e)) eqn:Ei; [split; [done|by intros [[? _] _]]|].
  case_bool_decide as Hin; [split; [done|by intros [(_ & ? & _) _]]|].
  destruct (encode_records _ _ es) as [rest|err] eqn:Er.
  - apply IH in Er as [Hv ->]. split; [by intros [= <-]|by intros [_ ->]].
  - split; [done|]. intros [(_ & _ & Hv) _]. exfalso.
    pose proof (proj2 (IH _ _ _) (conj Hv eq_refl)) as E. rewrite E in Er. done.
Qed.

(** *** Records *)
Definition record_layout : list nat := [8; 8; 8; 4; 4]%nat.

(** The fields the decoder reads from a record. *)
Lemma read_record e :
  wf_entry e →
  read_u32 (record_bytes e) 28 = Some (crc32c (take 28 (record_bytes e))) ∧
  read_u64 (record_bytes e) 0 = Some (pk_object (me_key e)) ∧ read_u64 (record_bytes e) 8 = Some (pk_page (me_key e)) ∧
  read_u64 (record_bytes e) 16 = Some (il_offset (me_image e)) ∧
  read_u32 (record_bytes e) 24 = Some (il_checksum (me_image e)).
Proof.
  intros (H1 & H2 & H3 & H4). unfold record_bytes. set (fs := sealed (record_fields e)).
  assert (length <$> fs = record_layout) as Hls by done.
  assert (take 28 (concat fs) = concat (record_fields e)) as -> by exact (take_layout fs _ 4 Hls).
  split_and!.
  - apply (read_layout32 fs _ 4 _ Hls eq_refl), crc32c_u32.
  - by apply (read_layout64 fs _ 0 _ Hls eq_refl).
  - by apply (read_layout64 fs _ 1 _ Hls eq_refl).
  - by apply (read_layout64 fs _ 2 _ Hls eq_refl).
  - by apply (read_layout32 fs _ 3 _ Hls eq_refl).
Qed.

(** A record with a matching checksum is the encoding of its fields. *)
Lemma record_inv (r : bytes) object page offset checksum c :
  length r = 32%nat → read_u32 r 28 = Some c → crc32c (take 28 r) = c → read_u64 r 0 = Some object →
  read_u64 r 8 = Some page → read_u64 r 16 = Some offset → read_u32 r 24 = Some checksum →
  let e := {| me_key := {| pk_object := object; pk_page := page |};
              me_image := {| il_offset := offset; il_checksum := checksum |} |} in
  wf_entry e ∧ r = record_bytes e.
Proof.
  intros Hl [F28 _]%read_u32_field Hc [F0 H0]%read_u64_field [F8 H8]%read_u64_field [F16 H16]%read_u64_field
    [F24 H24]%read_u32_field e. split; [done|].
  rewrite (concat_cut_all record_layout r) by done. unfold record_bytes, sealed. f_equal.
  assert (cut 0 [8; 8; 8; 4]%nat r = record_fields e) as Hf.
  { cbn [cut plus Nat.add]. unfold record_fields, e. cbn. by rewrite F0, F8, F16, F24. }
  change record_layout with ([8; 8; 8; 4] ++ [4])%nat. rewrite cut_app, Hf. f_equal.
  assert (take 28 r = concat (record_fields e)) as Hb by (by rewrite <-Hf, concat_cut).
  rewrite <-Hb, Hc. cbn. by rewrite F28.
Qed.

Definition insert_all (es : list PageMapEntry) (acc : list (PageKey * ImageLocation)) :=
  fold_left (λ m e, BTreeMap.insert (me_key e) (me_image e) m) es acc.

(** The records from position [index] on. *)
Definition records_at (bs : bytes) (index : nat) (es : list PageMapEntry) : Prop :=
  ∀ i e, es !! i = Some e → field bs (PAGE_MAP_HEADER_SIZE + (index + i) * PAGE_MAP_RECORD_SIZE) PAGE_MAP_RECORD_SIZE = record_bytes e.

Lemma records_at_cons bs index e es :
  records_at bs index (e :: es) ↔
  field bs (PAGE_MAP_HEADER_SIZE + index * PAGE_MAP_RECORD_SIZE) PAGE_MAP_RECORD_SIZE = record_bytes e ∧
  records_at bs (S index) es.
Proof.
  unfold records_at. split.
  - intros Hr. split; [by rewrite <-(Hr 0%nat e eq_refl), Nat.add_0_r|]. intros i e' Hi.
    rewrite <-(Hr (S i) e' Hi). f_equal. lia.
  - intros [H0 Hr] [|i] e' Hi; cbn in Hi; [injection Hi as <-; by rewrite Nat.add_0_r|].
    rewrite <-(Hr i e' Hi). f_equal. lia.
Qed.

Lemma decode_records_encode bs es : ∀ index previous placements acc,
  valid_from previous placements es → Forall wf_entry es → records_at bs index es →
  decode_records (length es) index bs previous placements acc = Ok (insert_all es acc).
Proof.
  induction es as [|e es IH]; intros index previous placements acc Hv Hw Hr; cbn [decode_records length]; [done|].
  destruct Hv as (Hi & Hn & Hv). apply Forall_cons in Hw as [He Hw]. apply records_at_cons in Hr as [Hr0 Hr].
  rewrite Hr0. destruct (read_record e He) as (-> & -> & -> & -> & ->). cbn [ok_or]. rewrite Z.eqb_refl. cbn [negb].
  destruct e as [[object page] [offset checksum]]. cbn in *. rewrite Hi, bool_decide_eq_false_2 by done. by apply IH.
Qed.

Lemma decode_records_inv bs n : ∀ index previous placements acc out,
  (PAGE_MAP_HEADER_SIZE + (index + n) * PAGE_MAP_RECORD_SIZE ≤ length bs)%nat →
  decode_records n index bs previous placements acc = Ok out →
  ∃ es, length es = n ∧ valid_from previous placements es ∧ Forall wf_entry es ∧ records_at bs index es ∧
    out = insert_all es acc.
Proof.
  induction n as [|n IH]; intros index previous placements acc out Hl; cbn [decode_records].
  { intros [= <-]. exists []. split_and!; [done..|by intros i e|done]. }
  set (r := field bs _ _).
  assert (length r = 32%nat) as Hr.
  { unfold r, field. rewrite length_take, length_drop. map_lia. }
  destruct (read_u32 r 28) as [c|] eqn:E28; cbn [ok_or]; [|done].
  destruct (crc32c (take 28 r) =? c) eqn:Ec; bool_to_prop; cbn [negb]; [|done].
  destruct (read_u64 r 0) as [object|] eqn:E0; cbn [ok_or]; [|done].
  destruct (read_u64 r 8) as [page|] eqn:E8; cbn [ok_or]; [|done].
  destruct (read_u64 r 16) as [offset|] eqn:E16; cbn [ok_or]; [|done].
  destruct (read_u32 r 24) as [checksum|] eqn:E24; cbn [ok_or]; [|done].
  destruct (record_inv r object page offset checksum c Hr E28 Ec E0 E8 E16 E24) as [He Hre].
  destruct (not_increasing previous _) eqn:Ei; [done|]. case_bool_decide as Hin; [done|]. intros E.
  apply IH in E as (es & Hle & Hv & Hw & Hat & ->); [|map_lia].
  exists ({| me_key := {| pk_object := object; pk_page := page |};
             me_image := {| il_offset := offset; il_checksum := checksum |} |} :: es).
  cbn [length valid_from me_key me_image il_offset]. split_and!; [by rewrite Hle|exact Ei|done|done|by constructor| |done].
  apply records_at_cons. split; [exact Hre|done].
Qed.

(** *** Entries as a map *)
Definition entry_pair (e : PageMapEntry) : PageKey * ImageLocation := (me_key e, me_image e).

(** No key of [acc] is past the key the next entry is compared with. *)
Definition behind (previous : option PageKey) (acc : list (PageKey * ImageLocation)) : Prop :=
  match previous with
  | Some key => Forall (λ p, p.1 = key ∨ lt_ord p.1 key) acc
  | None => acc = []
  end.

Lemma behind_next previous acc key :
  behind previous acc → not_increasing previous key = false → Forall (λ p, lt_ord p.1 key) acc.
Proof.
  unfold behind, not_increasing. destruct previous as [k|]; [|by intros ->].
  intros Hf Hk. destruct (cmp k key) eqn:E; try done. eapply Forall_impl; [exact Hf|].
  intros p [->|Hp]; [done|]. unfold lt_ord in *. by eapply cmp_trans.
Qed.

Lemma insert_all_sorted es : ∀ previous placements acc,
  valid_from previous placements es → behind previous acc → insert_all es acc = acc ++ (entry_pair <$> es).
Proof.
  induction es as [|e es IH]; intros previous placements acc Hv Hb; cbn; [by rewrite app_nil_r|].
  destruct Hv as (Hi & _ & Hv). pose proof (behind_next _ _ _ Hb Hi) as Hlt.
  rewrite BTreeMap.insert_last by done. rewrite (IH _ _ _ Hv); [by rewrite <-app_assoc|].
  cbn. apply Forall_app. split; [|constructor; [by left|constructor]].
  eapply Forall_impl; [exact Hlt|]. intros p Hp. by right.
Qed.

Lemma valid_sorted es : ∀ previous placements acc,
  valid_from previous placements es → behind previous acc → BTreeMap.wf acc → BTreeMap.wf (acc ++ (entry_pair <$> es)).
Proof.
  intros previous placements acc Hv Hb Hw. rewrite <-(insert_all_sorted es previous placements acc) by done.
  clear Hv Hb. revert acc Hw. induction es as [|e es IH]; intros acc Hw; cbn; [done|]. by apply IH, BTreeMap.insert_wf.
Qed.

Lemma valid_offsets es : ∀ previous placements,
  valid_from previous placements es → NoDup placements → NoDup (placements ++ ((λ e, il_offset (me_image e)) <$> es)).
Proof.
  induction es as [|e es IH]; intros previous placements Hv Hn; cbn; [by rewrite app_nil_r|].
  destruct Hv as (_ & Hni & Hv). specialize (IH _ _ Hv). rewrite <-app_assoc in IH. apply IH.
  apply NoDup_app. split; [done|]. split; [|apply NoDup_singleton]. by intros x Hx ->%list_elem_of_singleton.
Qed.

(** *** The file *)
Definition map_header_layout : list nat := [4; 1; 1; 2; 16; 8; 4; 4; 8; 8; 4; 4]%nat.

Definition map_header id store pb count image_end : bytes :=
  concat (sealed (map_header_fields id store pb count image_end)).

Lemma length_map_header id store pb count image_end :
  length store = 16%nat → length (map_header id store pb count image_end) = 64%nat.
Proof. intros Hs. unfold map_header. rewrite length_concat_fields. cbn. by rewrite Hs. Qed.

(** What a map file is made of. *)
Record wf_map (id : Z) (store : bytes) (pb image_end : Z) (es : list PageMapEntry) : Prop := {
  wm_id : is_u64 id ∧ id ≠ 0;
  wm_store : wf_incarnation store;
  wm_page_bytes : is_u32 pb ∧ pb ≠ 0;
  wm_image_end : is_u64 image_end;
  wm_entries : Forall wf_entry es;
  wm_valid : valid_from None [] es;
  wm_bytes : 68 + 32 * len es ≤ U64_MAX
}.

Definition map_body id store pb image_end es : bytes := map_header id store pb (len es) image_end ++ records_bytes es.

Definition map_file id store pb image_end es : bytes :=
  map_body id store pb image_end es ++ u32_le (crc32c (map_body id store pb image_end es)).

Definition map_reference id store pb image_end es : PageMapRef :=
  {| pr_id := id; pr_file_bytes := 68 + 32 * len es; pr_checksum := crc32c (map_body id store pb image_end es) |}.

Lemma encode_map_Ok id store pb image_end es bs r :
  pb ≠ 0 →
  encode_map id store pb image_end es = Ok (bs, r) ↔
  valid_from None [] es ∧ 68 + 32 * len es ≤ U64_MAX ∧ bs = map_file id store pb image_end es ∧
  r = map_reference id store pb image_end es.
Proof.
  intros Hpb. unfold encode_map. rewrite (proj2 (Z.eqb_neq pb 0)) by done. pose proof (len_nonneg es) as Hn.
  destruct (map_file_bytes (len es)) as [t|] eqn:Et; cbn [ok_or].
  - apply map_file_bytes_Some in Et as [-> Ht]; [|done].
    destruct (encode_records None [] es) as [rs|e] eqn:Er.
    + apply encode_records_Ok in Er as [Hv ->]. split; [by intros [= <- <-]|by intros (_ & _ & -> & ->)].
    + split; [done|]. intros (Hv & _). exfalso.
      pose proof (proj2 (encode_records_Ok es None [] _) (conj Hv eq_refl)) as E. by rewrite E in Er.
  - split; [done|]. intros (_ & Ht & _). exfalso.
    pose proof (proj2 (map_file_bytes_Some (len es) _ Hn) (conj eq_refl Ht)) as E. congruence.
Qed.

Lemma length_map_file id store pb image_end es :
  length store = 16%nat → length (map_file id store pb image_end es) = (68 + 32 * length es)%nat.
Proof.
  intros Hs. unfold map_file, map_body. rewrite !length_app, length_map_header, length_records, length_u32_le by done. lia.
Qed.

Lemma decode_map_header_encode id store pb count image_end rest r :
  is_u64 id → id ≠ 0 → wf_incarnation store → is_u32 pb → pb ≠ 0 → is_u64 count → is_u64 image_end →
  pr_id r = id → len (map_header id store pb count image_end ++ rest) = pr_file_bytes r →
  decode_map_header (map_header id store pb count image_end ++ rest) r store = Ok (pb, count, image_end).
Proof.
  intros Hid Hid0 [Hs Hi] Hpb Hpb0 Hc He Hr Hl. unfold decode_map_header. rewrite Hl, Z.eqb_refl. cbn [negb].
  rewrite slice_app_here by (rewrite ?length_map_header; done). cbn [ok_or].
  unfold map_header. set (fields := map_header_fields id store pb count image_end). set (fs := sealed fields).
  assert (length <$> fs = map_header_layout) as Hls by (cbn; by rewrite Hs).
  assert (field (concat fs) 0 4 = PAGE_MAP_MAGIC) as -> by exact (field_layout fs _ 0 _ Hls eq_refl).
  assert (byte_at (concat fs) 4 = 1) as -> by (apply (byte_layout fs _ 1 1 Hls eq_refl); lia).
  assert (byte_at (concat fs) 5 = 0) as -> by (apply (byte_layout fs _ 2 0 Hls eq_refl); lia).
  assert (slice (concat fs) 6 2 = Some (u16_le 64)) as Hsz by exact (slice_layout fs _ 3 _ Hls eq_refl).
  assert (field (concat fs) 56 4 = replicate 4 (u8 0)) as -> by exact (field_layout fs _ 10 _ Hls eq_refl).
  assert (read_u32 (concat fs) 60 = Some (crc32c (concat fields))) as ->
    by (apply (read_layout32 fs _ 11 _ Hls eq_refl), crc32c_u32).
  assert (field (concat fs) 0 60 = concat fields) as -> by exact (take_layout fs _ 11 Hls).
  assert (field (concat fs) 8 16 = store) as -> by (rewrite <-Hs; exact (field_layout fs _ 4 _ Hls eq_refl)).
  assert (read_u64 (concat fs) 24 = Some id) as -> by (by apply (read_layout64 fs _ 5 _ Hls eq_refl)).
  assert (read_u32 (concat fs) 32 = Some pb) as -> by (by apply (read_layout32 fs _ 6 _ Hls eq_refl)).
  assert (read_u32 (concat fs) 36 = Some 32) as -> by (by apply (read_layout32 fs _ 7 _ Hls eq_refl)).
  assert (read_u64 (concat fs) 40 = Some count) as -> by (by apply (read_layout64 fs _ 8 _ Hls eq_refl)).
  assert (read_u64 (concat fs) 48 = Some image_end) as -> by (by apply (read_layout64 fs _ 9 _ Hls eq_refl)).
  unfold read_u16, nonzero, PageMapId_new. rewrite Hsz, Hi, any_nonzero_zeroes. cbn [ok_or mbind option_bind].
  rewrite (proj2 (Z.eqb_neq pb 0)), (proj2 (Z.eqb_neq id 0)) by done. cbn [ok_or]. rewrite Hr.
  by rewrite !bool_decide_eq_true_2, !Z.eqb_refl by done.
Qed.

Lemma decode_map_header_inv bs r store pb count image_end :
  decode_map_header bs r store = Ok (pb, count, image_end) →
  len bs = pr_file_bytes r ∧ is_u64 (pr_id r) ∧ pr_id r ≠ 0 ∧ wf_incarnation store ∧ is_u32 pb ∧ pb ≠ 0 ∧
  is_u64 count ∧ is_u64 image_end ∧ take 64 bs = map_header (pr_id r) store pb count image_end ∧ (64 ≤ length bs)%nat.
Proof.
  unfold decode_map_header. destruct (len bs =? _) eqn:El; bool_to_prop; cbn [negb]; [|done].
  destruct (slice bs 0 _) as [hd|] eqn:Eh; cbn [ok_or]; [|done].
  pose proof (slice_length _ _ _ _ Eh) as Hlen. apply slice_Some in Eh as [Hle Ehd]. rewrite drop_0 in Ehd.
  change (take 64 bs) with (take PAGE_MAP_HEADER_SIZE bs). rewrite <-Ehd. clear Ehd.
  repeat (case_match; [done|]). bool_to_prop.
  destruct (read_u32 hd 60) as [hc|] eqn:Ec; cbn [ok_or]; [|done]. case_match; [done|]. bool_to_prop.
  destruct (incarnation_from_bytes _) as [st|] eqn:Est; cbn [ok_or]; [|done]. case_match; [done|]. bool_to_prop. subst st.
  destruct (read_u64 hd 24) as [id|] eqn:E24; cbn [mbind option_bind ok_or]; [|done].
  unfold PageMapId_new. destruct (id =? 0) eqn:Eid; bool_to_prop; cbn [ok_or]; [done|]. case_match; [done|]. bool_to_prop. subst id.
  destruct (read_u32 hd 32) as [pb'|] eqn:E32; cbn [nonzero ok_or]; [|done].
  destruct (pb' =? 0) eqn:Epb; bool_to_prop; cbn [ok_or]; [done|]. case_match; [done|]. bool_to_prop.
  destruct (read_u64 hd 40) as [count'|] eqn:E40; cbn [ok_or]; [|done].
  destruct (read_u64 hd 48) as [ie|] eqn:E48; cbn [ok_or]; [|done]. intros [= -> -> ->].
  apply read_u64_field in E24 as [F24 Hid], E40 as [F40 Hcount], E48 as [F48 Hie].
  apply read_u32_field in E32 as [F32 Hpb], Ec as [F60 _].
  pose proof (incarnation_from_bytes_Some _ _ Est) as Fs.
  assert (wf_incarnation store) as Hst.
  { split; [|congruence]. rewrite Fs. unfold field. rewrite length_take, length_drop, Hlen. done. }
  split_and!; try done.
  rewrite (concat_cut_all map_header_layout hd) by done. unfold map_header, sealed. f_equal.
  set (fields := map_header_fields _ _ _ _ _).
  assert (cut 0 [4; 1; 1; 2; 16; 8; 4; 4; 8; 8; 4]%nat hd = fields) as Hf.
  { cbn [cut plus Nat.add]. unfold fields, map_header_fields.
    rewrite !byte_field by (rewrite Hlen; unfold PAGE_MAP_HEADER_SIZE; lia).
    repeat f_equal; try done; try congruence.
    - by apply read_u16_field.
    - by apply read_u32_field.
    - apply zero_bytes; [|done]. rewrite length_take, length_drop, Hlen. done. }
  change map_header_layout with ([4; 1; 1; 2; 16; 8; 4; 4; 8; 8; 4] ++ [4])%nat. rewrite cut_app, Hf. f_equal.
  assert (field hd 0 60 = concat fields) as Hb by (by rewrite <-Hf, concat_cut).
  assert (crc32c (concat fields) = hc) as -> by (by rewrite <-Hb). cbn. by rewrite F60.
Qed.

(** The records of a file follow its header. *)
Lemma records_at_file (pre rest : bytes) es :
  length pre = PAGE_MAP_HEADER_SIZE → records_at (pre ++ records_bytes es ++ rest) 0 es.
Proof.
  intros Hp i e Hi. rewrite Nat.add_0_l. unfold field. rewrite <-drop_drop, drop_app_length' by done.
  rewrite <-(take_drop_middle es i e Hi). unfold records_bytes. rewrite fmap_app, concat_app.
  rewrite <-app_assoc, drop_app_length'.
  2:{ fold (records_bytes (take i es)). rewrite length_records, length_take. apply lookup_lt_Some in Hi. map_lia. }
  rewrite fmap_cons. cbn [concat]. rewrite <-app_assoc. apply take_app_length'. by rewrite length_record.
Qed.

Lemma records_at_bytes bs es : ∀ index, records_at bs index es →
  take (32 * length es) (drop (PAGE_MAP_HEADER_SIZE + index * PAGE_MAP_RECORD_SIZE) bs) = records_bytes es.
Proof.
  induction es as [|e es IH]; intros index; [done|]. intros [H0 Hr]%records_at_cons.
  rewrite records_cons, <-(IH _ Hr), <-H0. unfold field.
  replace (PAGE_MAP_HEADER_SIZE + S index * PAGE_MAP_RECORD_SIZE)%nat
    with ((PAGE_MAP_HEADER_SIZE + index * PAGE_MAP_RECORD_SIZE) + PAGE_MAP_RECORD_SIZE)%nat by map_lia.
  generalize (PAGE_MAP_HEADER_SIZE + index * PAGE_MAP_RECORD_SIZE)%nat as o. intros o.
  rewrite <-(drop_drop bs PAGE_MAP_RECORD_SIZE o), take_take_drop. f_equal. cbn [length]. map_lia.
Qed.

Definition the_map id store pb image_end es : PageMap :=
  {| pm_reference := map_reference id store pb image_end es; pm_store := store; pm_page_bytes := pb;
     pm_image_file_end := image_end; pm_entries := entry_pair <$> es |}.

Lemma decode_map_file id store pb image_end es :
  wf_map id store pb image_end es →
  decode_map (map_file id store pb image_end es) (map_reference id store pb image_end es) store =
    Ok (the_map id store pb image_end es).
Proof.
  intros [[Hid Hid0] Hst [Hpb Hpb0] Hie Hw Hv Hb]. pose proof Hst as [Hs _]. unfold decode_map.
  pose proof (length_map_file id store pb image_end es Hs) as Hl.
  assert (is_u64 (len es)) as Hn by (pose proof (len_nonneg es); map_lia).
  unfold map_file at 1, map_body at 1. rewrite <-app_assoc.
  rewrite decode_map_header_encode; try done.
  2:{ rewrite app_assoc. fold (map_body id store pb image_end es). fold (map_file id store pb image_end es).
      unfold len. rewrite Hl. cbn. unfold len. lia. }
  rewrite (proj2 (map_file_bytes_Some (len es) (68 + 32 * len es) (len_nonneg es))) by done. cbn [ok_or pr_file_bytes].
  rewrite Z.eqb_refl, Hl. cbn [negb].
  set (body := map_body id store pb image_end es).
  assert (length body = 64 + 32 * length es)%nat as Hlb.
  { unfold body, map_body. by rewrite length_app, length_map_header, length_records. }
  replace (68 + 32 * length es - PAGE_MAP_TRAILER_SIZE)%nat with (length body) by map_lia.
  unfold map_file. fold body. rewrite take_app_length. unfold read_u32.
  rewrite (slice_app_skip _ _ _ _ _ eq_refl) by lia. rewrite slice_all by (rewrite ?length_u32_le; lia).
  cbn [fmap option_fmap option_map ok_or]. rewrite le_u32_roundtrip by apply crc32c_u32. cbn [pr_checksum].
  rewrite !Z.eqb_refl. cbn [negb]. unfold len at 1. rewrite Nat2Z.id.
  unfold body, map_body. rewrite <-app_assoc. rewrite decode_records_encode; [|done..|].
  - rewrite (insert_all_sorted es None []) by done. done.
  - apply records_at_file. by apply length_map_header.
Qed.

Lemma decode_map_inv bs r store m :
  decode_map bs r store = Ok m →
  ∃ es, wf_map (pr_id r) store (pm_page_bytes m) (pm_image_file_end m) es ∧
    bs = map_file (pr_id r) store (pm_page_bytes m) (pm_image_file_end m) es ∧
    r = map_reference (pr_id r) store (pm_page_bytes m) (pm_image_file_end m) es ∧
    m = the_map (pr_id r) store (pm_page_bytes m) (pm_image_file_end m) es.
Proof.
  unfold decode_map. destruct (decode_map_header bs r store) as [[[pb count] ie]|] eqn:Eh; [|done].
  apply decode_map_header_inv in Eh as (El & Hid & Hid0 & Hst & Hpb & Hpb0 & Hc & Hie & Hhd & H64).
  destruct (map_file_bytes count) as [t|] eqn:Et; cbn [ok_or]; [|done].
  apply map_file_bytes_Some in Et as [-> Ht]; [|apply Hc].
  destruct (_ =? pr_file_bytes r) eqn:Eb; bool_to_prop; cbn [negb]; [|done].
  set (tr := (length bs - PAGE_MAP_TRAILER_SIZE)%nat).
  assert (length bs = 68 + 32 * Z.to_nat count ∧ tr = 64 + 32 * Z.to_nat count)%nat as [Hl Htr]
    by (unfold len, tr in *; map_lia).
  destruct (read_u32 bs tr) as [c|] eqn:Ec; cbn [ok_or]; [|done].
  destruct (crc32c (take tr bs) =? c) eqn:Ecrc; bool_to_prop; cbn [negb]; [|done].
  destruct (c =? pr_checksum r) eqn:Er; bool_to_prop; cbn [negb]; [|done].
  destruct (decode_records _ 0 bs None [] []) as [out|] eqn:Ed; [|done]. intros [= <-].
  apply decode_records_inv in Ed as (es & Hle & Hv & Hw & Hat & ->); [|rewrite Hl; map_lia].
  exists es. cbn [pm_page_bytes pm_image_file_end].
  assert (count = len es) as -> by (unfold len; map_lia).
  assert (take tr bs = map_body (pr_id r) store pb ie es) as Hbody.
  { unfold map_body. rewrite <-Hhd, <-(records_at_bytes _ _ _ Hat), Hle, Htr. symmetry. exact (take_take_drop _ 64 _). }
  apply read_u32_field in Ec as [Ec _].
  assert (take 4 (drop tr bs) = drop tr bs) as Etr by (apply take_ge; rewrite length_drop; lia).
  assert (r = map_reference (pr_id r) store pb ie es) as Hr.
  { unfold map_reference. rewrite <-Hbody, Ecrc, Er, Eb. by destruct r. }
  split_and!; [split; try done; map_lia| |done|].
  - unfold map_file. rewrite <-Hbody, Ecrc, <-Ec, Etr. by rewrite take_drop.
  - unfold the_map. rewrite <-Hr. by rewrite (insert_all_sorted es None []).
Qed.

Lemma map_entries_the_map id store pb image_end es : map_entries (the_map id store pb image_end es) = es.
Proof.
  unfold map_entries, the_map. cbn. rewrite <-list_fmap_compose. rewrite <-(list_fmap_id es) at 2.
  apply list_fmap_ext. by intros i [k l] _.
Qed.

(** The placement-map codec is exact: a file decodes against a reference if and
    only if it is the encoding, with that reference, of the entries the map shows;
    the keys of a decoded map increase and no physical image serves two pages. *)
Theorem page_map_codec bs r store m :
  decode_map bs r store = Ok m ↔
  wf_map (pr_id r) store (pm_page_bytes m) (pm_image_file_end m) (map_entries m) ∧
  encode_map (pr_id r) store (pm_page_bytes m) (pm_image_file_end m) (map_entries m) = Ok (bs, r) ∧
  pm_reference m = r ∧ pm_store m = store.
Proof.
  split.
  - intros (es & Hw & Hb & Hr & Hm)%decode_map_inv.
    assert (map_entries m = es) as -> by (rewrite Hm; apply map_entries_the_map).
    split; [done|]. split; [|rewrite Hm; by split]. pose proof Hw as [_ _ [_ Hpb] _ _ Hv Hle].
    by apply encode_map_Ok.
  - intros (Hw & He & Hr & Hs). pose proof Hw as [_ _ [_ Hpb] _ _ Hv Hle].
    apply encode_map_Ok in He as (_ & _ & Eb & Er); [|done]. pose proof (decode_map_file _ _ _ _ _ Hw) as Hd.
    rewrite <-Eb, <-Er in Hd. rewrite Hd. f_equal. unfold the_map. rewrite <-Er, <-Hs.
    destruct m as [mr ms mp mi mes]. cbn [pm_reference pm_store] in *. subst mr. f_equal.
    unfold map_entries. cbn. rewrite <-list_fmap_compose. rewrite <-(list_fmap_id mes) at 2.
    apply list_fmap_ext. by intros i [k l] _.
Qed.
End exact.
