(* ===== verification/PageStore.v ===== *)
(** * The persistent page store

    Models [crates/seerdb/src/vnext/page_store.rs] over the file model of [Fs]: an
    append-only arena of page images, the working placement of each logical page,
    immutable placement maps, and reopening from a selected map.  The arena is file
    0 and the map with identity [id] is file [id]; the component lease is
    [Store]'s, and the incarnation it carries is an argument. *)
From stdpp Require Import strings.
From S2P Require Import Prelude StdCollections Ids Crc Store Fs Shards PageIo PageDependency PageImage PageMapFile.

Local Open Scope Z_scope.
Local Open Scope seer_scope.

Definition IMAGE_FILE : Z := 0.

Record PersistentPageIo := {
  ps_store : bytes;
  ps_page_bytes : Z;
  ps_dependencies : PageDependencyTable;
  ps_end_offset : Z;
  ps_working : list (PageKey * ImageLocation);
  ps_fenced : bool;
  ps_poisoned : bool;
  ps_fs : Fs
}.

(** [.map_err(|source| PageStoreError::Io { operation, source })] *)
Definition ps_io {A} (operation : PageStoreOperation) (c : Fs * result A IoErrorKind)
    : Fs * result A PageStoreError :=
  (c.1, map_err (PsIo operation) c.2).

Definition with_fs (fs : Fs) (st : PersistentPageIo) : PersistentPageIo :=
  {| ps_store := ps_store st; ps_page_bytes := ps_page_bytes st; ps_dependencies := ps_dependencies st;
     ps_end_offset := ps_end_offset st; ps_working := ps_working st; ps_fenced := ps_fenced st;
     ps_poisoned := ps_poisoned st; ps_fs := fs |}.

(** [state.fenced = true] *)
Definition ps_fence (st : PersistentPageIo) : PersistentPageIo :=
  {| ps_store := ps_store st; ps_page_bytes := ps_page_bytes st; ps_dependencies := ps_dependencies st;
     ps_end_offset := ps_end_offset st; ps_working := ps_working st; ps_fenced := true;
     ps_poisoned := ps_poisoned st; ps_fs := ps_fs st |}.

(** The table [dependencies()] shares with the coordinator. *)
Definition with_dependencies (t : PageDependencyTable) (st : PersistentPageIo) : PersistentPageIo :=
  {| ps_store := ps_store st; ps_page_bytes := ps_page_bytes st; ps_dependencies := t;
     ps_end_offset := ps_end_offset st; ps_working := ps_working st; ps_fenced := ps_fenced st;
     ps_poisoned := ps_poisoned st; ps_fs := ps_fs st |}.

(** ** File operations *)

(** A position past [i64::MAX] is refused by the system. *)
Definition seek (pos : Z) (fs : Fs) : Fs * result unit IoErrorKind :=
  do? (fs, _) := fs_check fs in
  if pos <? 2 ^ 63 then (fs, Ok tt) else (fs, Err InvalidInput).

(** [File::open] *)
Definition fs_open (k : Z) (fs : Fs) : Fs * result unit IoErrorKind :=
  do? (fs, _) := fs_check fs in
  if BTreeMap.contains_key k (fs_files fs) then (fs, Ok tt) else (fs, Err NotFound).

(** [file.metadata()?.len()] *)
Definition fs_len (k : Z) (fs : Fs) : Fs * result Z IoErrorKind :=
  do? (fs, bs) := fs_read k fs in (fs, Ok (len bs)).

(** [read_exact] of [n] bytes from [pos]. *)
Definition read_exact (k : Z) (pos n : nat) (fs : Fs) : Fs * result bytes IoErrorKind :=
  do? (fs, bs) := fs_read k fs in
  match slice bs pos n with Some x => (fs, Ok x) | None => (fs, Err OtherIo) end.

Definition read_at (offset slot : Z) (fs : Fs) : Fs * result bytes PageStoreError :=
  do? (fs, _) := ps_io OpRead (seek offset fs) in
  ps_io OpRead (read_exact IMAGE_FILE (Z.to_nat offset) (Z.to_nat slot) fs).

Definition read_exact_file (k expected_len : Z) (fs : Fs) : Fs * result bytes PageStoreError :=
  do? (fs, _) := ps_io OpOpen (fs_open k fs) in
  do? (fs, actual) := ps_io OpOpen (fs_len k fs) in
  if negb (actual =? expected_len)
  then (fs, Err (PsCorruption "page-map file length does not match its reference"))
  else ps_io OpRead (read_exact k 0 (Z.to_nat expected_len) fs).

Definition copy_payload (payload destination : bytes) : result bytes PageStoreError :=
  if negb (bool_decide (length destination = length payload))
  then Err (PsInvalidInput "page-image destination length does not match the configured page size")
  else Ok payload.

Definition image_frame_checksum (frame : bytes) : Z := le_combine (drop (length frame - 4) frame).

Definition validate_page_bytes (page_bytes : Z) : result unit PageStoreError :=
  if page_bytes =? 0 then Err (PsInvalidInput "page-store page size must be nonzero")
  else let? _ := ok_or (page_image_bytes page_bytes) PsExhausted in Ok tt.

(** [page_store_to_io] *)
Definition page_store_to_io (e : PageStoreError) : IoErrorKind :=
  match e with
  | PsMissingPage _ => NotFound
  | PsDependenciesNotDurable _ => WouldBlock
  | PsCorruption _ => InvalidData
  | PsStore (StoreBusy | StoreComponentBusy _) => WouldBlock
  | PsStore (StoreMissingLock | StoreMissingIdentity) => NotFound
  | PsStore (StoreAlreadyExists | StoreNotEmpty) => AlreadyExists
  | PsStore (StoreCorruption _ | StoreForeignIncarnation _ _ | StoreInvalidPath _) => InvalidData
  | PsStore (StoreUnsupportedPlatform | StoreInvalidRandomIncarnation | StoreRandom | StoreIo _) => OtherIo
  | PsFenced | PsPoisoned => OtherIo
  | PsInvalidInput _ | PsMapExists _ | PsExhausted | PsIo _ _ => OtherIo
  end.

Section store.
Context `{Crc32c} `{PageHasher}.
Implicit Types (st : PersistentPageIo) (fs : Fs).

(** [PersistentPageIo::create] *)
Definition page_store_create (incarnation : bytes) (page_bytes : Z) fs
    : Fs * result PersistentPageIo PageStoreError :=
  do? (fs, _) := (fs, validate_page_bytes page_bytes) in
  do? (fs, _) := ps_io OpCreate (fs_create_new IMAGE_FILE fs) in
  do? (fs, _) := ps_io OpCreate (fs_write_at IMAGE_FILE 0 (encode_file_header incarnation page_bytes) fs) in
  do? (fs, _) := ps_io OpCreate (fs_sync_file IMAGE_FILE fs) in
  do? (fs, _) := ps_io OpCreate (fs_sync_dir fs) in
  (fs, Ok {| ps_store := incarnation; ps_page_bytes := page_bytes; ps_dependencies := DependencyTable_new;
             ps_end_offset := Z.of_nat IMAGE_FILE_HEADER_SIZE; ps_working := []; ps_fenced := false;
             ps_poisoned := false; ps_fs := fs |}).

(** ** Opening *)

(** The scan of [open] over the arena: the end of the complete images and where an
    incomplete final one starts.  Every round passes one slot. *)
Fixpoint scan_images (fuel : nat) (store : bytes) (page_bytes slot file_len end_offset : Z) fs
    : Fs * result (Z * option Z) PageStoreError :=
  match fuel with
  | O => (fs, Err PsExhausted)
  | S fuel' =>
      if file_len <=? end_offset then (fs, Ok (end_offset, None))
      else
        let remaining := file_len - end_offset in
        if remaining <? Z.of_nat PAGE_IMAGE_HEADER_SIZE then (fs, Ok (end_offset, Some end_offset))
        else if remaining <? slot then
          do? (fs, header) := read_at end_offset (Z.of_nat PAGE_IMAGE_HEADER_SIZE) fs in
          do? (fs, _) := (fs, decode_image_header header store page_bytes) in
          (fs, Ok (end_offset, Some end_offset))
        else
          do? (fs, frame) := read_at end_offset slot fs in
          do? (fs, image) := (fs, decode_image frame store page_bytes) in
          if negb (il_offset (im_location image.1) =? end_offset)
          then (fs, Err (PsCorruption "page-image self-offset disagrees with its arena position"))
          else scan_images fuel' store page_bytes slot file_len (end_offset + slot) fs
  end.

(** The checks of one map entry in [open] and in [write_map]; the two report a
    reference off a slot boundary and one past the arena differently.  The sum is
    one of [u64]s. *)
Definition check_reference (off_boundary beyond : PageStoreError) (store : bytes) (page_bytes slot end_offset : Z)
    (entry : PageMapEntry) fs : Fs * result PageImageMetadata PageStoreError :=
  let location := me_image entry in
  if negb (is_image_offset (il_offset location) page_bytes) then (fs, Err off_boundary)
  else if end_offset <? (il_offset location + slot) mod 2 ^ 64 then (fs, Err beyond)
  else
    do? (fs, frame) := read_at (il_offset location) slot fs in
    do? (fs, image) := (fs, decode_image frame store page_bytes) in
    if negb (bool_decide (im_key image.1 = me_key entry))
    then (fs, Err (PsCorruption "page-map reference names the wrong logical page"))
    else if negb (il_checksum (im_location image.1) =? il_checksum location)
    then (fs, Err (PsCorruption "page-map reference expected checksum mismatch"))
    else (fs, Ok image.1).

Fixpoint restore_entries (store : bytes) (page_bytes slot end_offset : Z) (entries : list PageMapEntry)
    (restored : list (PageKey * ImageLocation)) fs
    : Fs * result (list (PageKey * ImageLocation)) PageStoreError :=
  match entries with
  | [] => (fs, Ok restored)
  | entry :: entries' =>
      do? (fs, _) := check_reference
        (PsCorruption "page-map reference is not an image slot boundary")
        (PsCorruption "page-map reference lies beyond the validated arena prefix")
        store page_bytes slot end_offset entry fs in
      restore_entries store page_bytes slot end_offset entries'
        (BTreeMap.insert (me_key entry) (me_image entry) restored) fs
  end.

(** The loop that rebuilds the requirements of the restored images. *)
Fixpoint restore_dependencies (store : bytes) (page_bytes slot : Z) (restored : list (PageKey * ImageLocation))
    (t : PageDependencyTable) fs : Fs * result PageDependencyTable PageStoreError :=
  match restored with
  | [] => (fs, Ok t)
  | (key, location) :: restored' =>
      do? (fs, frame) := read_at (il_offset location) slot fs in
      do? (fs, image) := (fs, decode_image frame store page_bytes) in
      let '(t, r) := dependency_merge t key (im_dependencies image.1) in
      do? (fs, _) := (fs, map_err (λ _, PsPoisoned) r) in
      restore_dependencies store page_bytes slot restored' t fs
  end.

Definition check_boundary (m : PageMap) (end_offset : Z) : result unit PageStoreError :=
  if negb (pm_image_file_end m =? Z.of_nat IMAGE_FILE_HEADER_SIZE)
     && negb (is_image_offset (pm_image_file_end m) (pm_page_bytes m))
  then Err (PsCorruption "page-map image boundary is not a slot boundary")
  else if end_offset <? pm_image_file_end m
  then Err (PsCorruption "page-map image boundary exceeds the validated arena prefix")
  else Ok tt.

Definition repair_arena (tail : option Z) fs : Fs * result unit PageStoreError :=
  match tail with
  | None => (fs, Ok tt)
  | Some offset =>
      do? (fs, _) := ps_io OpRepairTail (fs_set_len IMAGE_FILE (Z.to_nat offset) fs) in
      ps_io OpRepairTail (fs_sync_file IMAGE_FILE fs)
  end.

(** [open] up to the scan: the selected map, the arena header and the file length. *)
Definition open_arena (expected_store : bytes) (selected : PageMapRef) fs
    : Fs * result (PageMap * Z) PageStoreError :=
  do? (fs, map_bytes) := read_exact_file (pr_id selected) (pr_file_bytes selected) fs in
  do? (fs, map) := (fs, decode_map map_bytes selected expected_store) in
  do? (fs, _) := ps_io OpOpen (fs_open IMAGE_FILE fs) in
  do? (fs, file_len) := ps_io OpOpen (fs_len IMAGE_FILE fs) in
  do? (fs, header) := ps_io OpOpen (read_exact IMAGE_FILE 0 IMAGE_FILE_HEADER_SIZE fs) in
  do? (fs, arena) := (fs, decode_file_header header) in
  if negb (bool_decide (fh_store arena = expected_store))
  then (fs, Err (PsCorruption "page-image arena store incarnation mismatch"))
  else if negb (fh_page_bytes arena =? pm_page_bytes map)
  then (fs, Err (PsCorruption "page-image arena page size mismatch"))
  else (fs, Ok (map, file_len)).

(** [PersistentPageIo::open] *)
Definition page_store_open (expected_store : bytes) (selected : PageMapRef) fs
    : Fs * result (PersistentPageIo * PageMap) PageStoreError :=
  do? (fs, opened) := open_arena expected_store selected fs in
  let '(map, file_len) := opened in
  let page_bytes := pm_page_bytes map in
  do? (fs, slot) := (fs, ok_or (page_image_bytes page_bytes) PsExhausted) in
  do? (fs, scanned) := scan_images (S (Z.to_nat file_len)) expected_store page_bytes slot file_len
                         (Z.of_nat IMAGE_FILE_HEADER_SIZE) fs in
  let '(end_offset, tail) := scanned in
  do? (fs, restored) := restore_entries expected_store page_bytes slot end_offset (map_entries map) [] fs in
  do? (fs, _) := (fs, check_boundary map end_offset) in
  do? (fs, _) := repair_arena tail fs in
  do? (fs, _) := ps_io OpOpen (fs_sync_file IMAGE_FILE fs) in
  do? (fs, _) := ps_io OpSyncDirectory (fs_sync_dir fs) in
  do? (fs, t) := restore_dependencies expected_store page_bytes slot restored DependencyTable_new fs in
  (fs, Ok ({| ps_store := expected_store; ps_page_bytes := page_bytes; ps_dependencies := t;
              ps_end_offset := end_offset; ps_working := restored; ps_fenced := false; ps_poisoned := false;
              ps_fs := fs |}, map)).

(** ** Operation *)
Definition write_image (key : PageKey) (source : bytes) st : PersistentPageIo * result ImageLocation PageStoreError :=
  let checked :=
    if negb (len source =? ps_page_bytes st)
    then Err (PsInvalidInput "page-image payload size does not match the configured page size")
    else
      let? required := map_err (λ e, match e with
                                     | WriteWouldBlock => PsDependenciesNotDurable key
                                     | _ => PsPoisoned
                                     end) (checked_requirements (ps_dependencies st) key) in
      if ps_poisoned st then Err PsPoisoned
      else if ps_fenced st then Err PsFenced
      else encode_image (ps_store st) key (ps_end_offset st) (ps_page_bytes st) required source in
  match checked with
  | Err e => (st, Err e)
  | Ok frame =>
      let offset := ps_end_offset st in
      let location := {| il_offset := offset; il_checksum := image_frame_checksum frame |} in
      let '(fs, r) := do? (fs, _) := seek offset (ps_fs st) in fs_write_at IMAGE_FILE (Z.to_nat offset) frame fs in
      match r with
      | Err e => (ps_fence (with_fs fs st), Err (PsIo OpAppendImage e))
      | Ok _ =>
          ({| ps_store := ps_store st; ps_page_bytes := ps_page_bytes st; ps_dependencies := ps_dependencies st;
              ps_end_offset := offset + len frame; ps_working := BTreeMap.insert key location (ps_working st);
              ps_fenced := ps_fenced st; ps_poisoned := ps_poisoned st; ps_fs := fs |}, Ok location)
      end
  end.

Definition placement (key : PageKey) st : result ImageLocation PageStoreError :=
  if ps_poisoned st then Err PsPoisoned else ok_or (BTreeMap.get key (ps_working st)) (PsMissingPage key).

(** The loop of [write_map] over the selected entries. *)
Fixpoint select_entries (store : bytes) (page_bytes slot end_offset : Z) (t : PageDependencyTable)
    (previous : option PageKey) (placements : list ImageLocation) (selected : list (PageKey * ImageLocation))
    (entries : list PageMapEntry) fs : Fs * result (list (PageKey * ImageLocation)) PageStoreError :=
  match entries with
  | [] => (fs, Ok selected)
  | entry :: entries' =>
      if not_increasing previous (me_key entry)
      then (fs, Err (PsInvalidInput "page-map entries must be in strictly increasing key order"))
      else if bool_decide (me_image entry ∈ placements)
      then (fs, Err (PsInvalidInput "page-map entries must not name the same physical image twice"))
      else
        do? (fs, metadata) := check_reference
          (PsInvalidInput "page-map reference is not an image slot boundary")
          (PsCorruption "page-map reference lies beyond the complete arena prefix")
          store page_bytes slot end_offset entry fs in
        if negb (frontiers_cover t (im_dependencies metadata))
        then (fs, Err (PsDependenciesNotDurable (me_key entry)))
        else select_entries store page_bytes slot end_offset t (Some (me_key entry)) (placements ++ [me_image entry])
               (BTreeMap.insert (me_key entry) (me_image entry) selected) entries' fs
  end.

(** [write_all], [sync_all] and [fsync_dir] of a new map file. *)
Definition persist_map (id : Z) (bs : bytes) fs : Fs * result unit IoErrorKind :=
  do? (fs, _) := fs_write_at id 0 bs fs in
  do? (fs, _) := fs_sync_file id fs in
  fs_sync_dir fs.

Definition write_map (id : Z) (entries : list PageMapEntry) st : PersistentPageIo * result PageMap PageStoreError :=
  if ps_poisoned st then (st, Err PsPoisoned)
  else if ps_fenced st then (st, Err PsFenced)
  else
    match page_image_bytes (ps_page_bytes st) with
    | None => (st, Err PsExhausted)
    | Some slot =>
        match select_entries (ps_store st) (ps_page_bytes st) slot (ps_end_offset st) (ps_dependencies st)
                None [] [] entries (ps_fs st) with
        | (fs, Err e) => (with_fs fs st, Err e)
        | (fs, Ok selected) =>
            match fs_sync_file IMAGE_FILE fs with
            | (fs, Err e) => (ps_fence (with_fs fs st), Err (PsIo OpSyncImages e))
            | (fs, Ok _) =>
                match encode_map id (ps_store st) (ps_page_bytes st) (ps_end_offset st) entries with
                | Err e => (with_fs fs st, Err e)
                | Ok (bs, reference) =>
                    match fs_create_new id fs with
                    | (fs, Err AlreadyExists) => (with_fs fs st, Err (PsMapExists id))
                    | (fs, Err e) => (ps_fence (with_fs fs st), Err (PsIo OpWriteMap e))
                    | (fs, Ok _) =>
                        match persist_map id bs fs with
                        | (fs, Err e) => (ps_fence (with_fs fs st), Err (PsIo OpSyncMap e))
                        | (fs, Ok _) =>
                            (with_fs fs st,
                             Ok {| pm_reference := reference; pm_store := ps_store st;
                                   pm_page_bytes := ps_page_bytes st; pm_image_file_end := ps_end_offset st;
                                   pm_entries := selected |})
                        end
                    end
                end
            end
        end
    end.

(** [PersistentPageIo::read_frame] *)
Definition image_read_frame (offset : Z) st : PersistentPageIo * result (PageImageMetadata * bytes) PageStoreError :=
  match page_image_bytes (ps_page_bytes st) with
  | None => (st, Err PsExhausted)
  | Some slot =>
      if ps_poisoned st then (st, Err PsPoisoned)
      else
        let '(fs, r) := read_at offset slot (ps_fs st) in
        (with_fs fs st, let? frame := r in decode_image frame (ps_store st) (ps_page_bytes st))
  end.

(** The destination is the last argument and is returned. *)
Definition read_mapped_page (m : PageMap) (key : PageKey) (destination : bytes) st
    : PersistentPageIo * bytes * result PageImageMetadata PageStoreError :=
  if negb (bool_decide (pm_store m = ps_store st))
  then (st, destination, Err (PsCorruption "page-map belongs to another store incarnation"))
  else if negb (pm_page_bytes m =? ps_page_bytes st)
  then (st, destination, Err (PsCorruption "page-map page size disagrees with the page store"))
  else
    match map_require m key with
    | Err e => (st, destination, Err e)
    | Ok location =>
        match image_read_frame (il_offset location) st with
        | (st, Err e) => (st, destination, Err e)
        | (st, Ok (metadata, payload)) =>
            if negb (bool_decide (im_key metadata = key))
            then (st, destination, Err (PsCorruption "page-map reference names the wrong logical page"))
            else if negb (il_checksum (im_location metadata) =? il_checksum location)
            then (st, destination, Err (PsCorruption "page-map reference expected checksum mismatch"))
            else
              match copy_payload payload destination with
              | Err e => (st, destination, Err e)
              | Ok page => (st, page, Ok metadata)
              end
        end
    end.

(** The [PageIo] implementation. *)
Definition store_read_page (key : PageKey) (destination : bytes) st
    : PersistentPageIo * bytes * result unit IoErrorKind :=
  match placement key st with
  | Err e => (st, destination, Err (page_store_to_io e))
  | Ok location =>
      match image_read_frame (il_offset location) st with
      | (st, Err e) => (st, destination, Err (page_store_to_io e))
      | (st, Ok (metadata, payload)) =>
          if negb (bool_decide (im_key metadata = key)) then (st, destination, Err InvalidData)
          else
            match copy_payload payload destination with
            | Err e => (st, destination, Err (page_store_to_io e))
            | Ok page => (st, page, Ok tt)
            end
      end
  end.

Definition store_write_page (key : PageKey) (source : bytes) st : PersistentPageIo * result unit IoErrorKind :=
  let '(st, r) := write_image key source st in
  (st, match r with Ok _ => Ok tt | Err e => Err (page_store_to_io e) end).

#[global] Instance store_io : PageIo PersistentPageIo :=
  {| io_read := store_read_page; io_write := store_write_page |}.
End store.
