(* ===== verification/PageArena.v ===== *)
(** * The image arena as a list of images

    What [page-images] holds: a header and one frame per image, in slots of equal
    size.  Reading a slot yields the image, and the scan of [open] over an arena
    that was cut anywhere finds exactly the images that are still complete. *)
From S2P Require Import Prelude StdCollections Ids Crc Store Fs Shards PageIo PageDependency PageImage PageMapFile PageStore.

Local Open Scope Z_scope.
Local Open Scope seer_scope.

(** An image, less its position. *)
Record Img := { g_key : PageKey; g_deps : PageDependencies; g_page : bytes }.

Definition slot_offset (pb : Z) (i : nat) : Z := 40 + (84 + pb) * Z.of_nat i.

Lemma is_image_offset_iff off pb :
  is_u32 pb → is_image_offset off pb = true ↔ ∃ i, off = slot_offset pb i.
Proof.
  intros Hpb. unfold is_image_offset, slot_offset. rewrite page_image_bytes_u32 by done.
  assert (0 < 84 + pb) as Hp by ps_lia. split.
  - intros [H1 H2]%andb_prop. bool_to_prop. exists (Z.to_nat ((off - 40) / (84 + pb))).
    pose proof (Z.div_mod (off - 40) (84 + pb)) as Hd. change (Z.of_nat IMAGE_FILE_HEADER_SIZE) with 40 in *.
    rewrite Z2Nat.id; [nia|]. apply Z.div_pos; lia.
  - intros [i ->]. apply andb_true_intro. change (Z.of_nat IMAGE_FILE_HEADER_SIZE) with 40. split.
    + apply Z.leb_le. nia.
    + apply Z.eqb_eq. replace (40 + (84 + pb) * Z.of_nat i - 40) with (Z.of_nat i * (84 + pb)) by ring.
      apply Z.mod_mul. lia.
Qed.

Lemma slot_offset_inj pb i j : is_u32 pb → slot_offset pb i = slot_offset pb j → i = j.
Proof. unfold slot_offset. intros Hpb E. assert (0 < 84 + pb) by ps_lia. nia. Qed.

Lemma slot_offset_mono pb i j : is_u32 pb → (i ≤ j)%nat → slot_offset pb i ≤ slot_offset pb j.
Proof. unfold slot_offset. intros Hpb Hij. assert (0 < 84 + pb) by ps_lia. nia. Qed.

Lemma slot_offset_S pb i : slot_offset pb (S i) = slot_offset pb i + (84 + pb).
Proof. unfold slot_offset. lia. Qed.

Section arena.
Context `{Crc32c}.
Variables (store : bytes) (pb : Z).
Implicit Types (imgs : list Img) (g : Img) (fs : Fs).

Definition frame_of (i : nat) g : bytes := image_frame store (g_key g) (slot_offset pb i) pb (g_deps g) (g_page g).

Definition location_of (i : nat) g : ImageLocation :=
  {| il_offset := slot_offset pb i;
     il_checksum := frame_checksum store (g_key g) (slot_offset pb i) pb (g_deps g) (g_page g) |}.

Definition metadata_of (i : nat) g : PageImageMetadata :=
  image_metadata store (g_key g) (slot_offset pb i) pb (g_deps g) (g_page g).

(** A slot is only written where the system can seek. *)
Definition wf_img (i : nat) g : Prop :=
  wf_image store (g_key g) (slot_offset pb i) pb (g_deps g) ∧ len (g_page g) = pb ∧ slot_offset pb i < 2 ^ 63.

Definition wf_imgs imgs : Prop := ∀ i g, imgs !! i = Some g → wf_img i g.

Definition frames imgs : bytes := concat (imap frame_of imgs).
Definition arena imgs : bytes := encode_file_header store pb ++ frames imgs.

Hypothesis Hstore : wf_incarnation store.
Hypothesis Hpb : is_u32 pb.
Hypothesis Hpb0 : pb ≠ 0.

Lemma wf_imgs_snoc imgs g : wf_imgs (imgs ++ [g]) ↔ wf_imgs imgs ∧ wf_img (length imgs) g.
Proof.
  unfold wf_imgs. split.
  - intros Hw. split; [intros i x Hi; apply Hw; by apply lookup_app_l_Some|].
    apply Hw. by rewrite lookup_app_r, Nat.sub_diag by lia.
  - intros [Hw Hg] i x [Hi|[Hl Hi]]%lookup_app_Some; [by apply Hw|].
    apply list_lookup_singleton_Some in Hi as [Hi <-]. by replace i with (length imgs) by lia.
Qed.

Lemma wf_imgs_take n imgs : wf_imgs imgs → wf_imgs (take n imgs).
Proof. intros Hw i g [Hi _]%lookup_take_Some. by apply Hw. Qed.

Lemma frames_snoc imgs g : frames (imgs ++ [g]) = frames imgs ++ frame_of (length imgs) g.
Proof. unfold frames. rewrite imap_app, concat_app. cbn. by rewrite Nat.add_0_r, app_nil_r. Qed.

Lemma arena_snoc imgs g : arena (imgs ++ [g]) = arena imgs ++ frame_of (length imgs) g.
Proof. unfold arena. by rewrite frames_snoc, app_assoc. Qed.

Lemma length_frame i g : wf_img i g → Z.of_nat (length (frame_of i g)) = 84 + pb.
Proof.
  intros (_ & Hl & _). unfold frame_of. rewrite length_image_frame by apply Hstore. unfold len in Hl. lia.
Qed.

Lemma arena_nil : arena [] = encode_file_header store pb.
Proof. unfold arena. apply app_nil_r. Qed.

Lemma length_arena imgs : wf_imgs imgs → Z.of_nat (length (arena imgs)) = slot_offset pb (length imgs).
Proof.
  induction imgs as [|g imgs IH] using rev_ind.
  - intros _. rewrite arena_nil, length_file_header by apply Hstore. unfold slot_offset. cbn [length]. lia.
  - intros [Hw Hg]%wf_imgs_snoc. rewrite arena_snoc, length_app, Nat2Z.inj_add, (length_frame _ _ Hg), (IH Hw).
    rewrite length_app. cbn. unfold slot_offset. lia.
Qed.

(** The slot of an image within the arena. *)
Lemma arena_split imgs i g :
  imgs !! i = Some g → ∃ rest, arena imgs = arena (take i imgs) ++ frame_of i g ++ rest.
Proof.
  intros Hi. exists (concat (imap (λ n, frame_of (length (take (S i) imgs) + n)) (drop (S i) imgs))).
  rewrite <-(take_drop (S i) imgs) at 1. unfold arena, frames. rewrite imap_app, concat_app.
  rewrite (take_S_r _ _ _ Hi). fold (frames (take i imgs ++ [g])). rewrite frames_snoc.
  assert (length (take i imgs) = i) as -> by (apply length_take_le; apply lookup_lt_Some in Hi; lia).
  by rewrite <-!app_assoc.
Qed.

Lemma slice_arena imgs i g tail :
  wf_imgs imgs → imgs !! i = Some g →
  slice (arena imgs ++ tail) (Z.to_nat (slot_offset pb i)) (Z.to_nat (84 + pb)) = Some (frame_of i g).
Proof.
  intros Hw Hi. destruct (arena_split imgs i g Hi) as [rest ->]. rewrite <-!app_assoc.
  pose proof (length_arena _ (wf_imgs_take i _ Hw)) as Hl.
  rewrite length_take_le in Hl by (apply lookup_lt_Some in Hi; lia).
  rewrite (slice_app_skip _ _ _ _ _ eq_refl) by lia.
  apply slice_app_here; [lia|]. pose proof (length_frame _ _ (Hw _ _ Hi)). lia.
Qed.

(** Cutting an arena leaves complete images and a strict prefix of the next. *)
Lemma arena_cut imgs n :
  wf_imgs imgs → (40 ≤ n)%nat →
  ∃ k tail, take n (arena imgs) = arena (take k imgs) ++ tail ∧
    (k = length imgs ∧ tail = [] ∨ ∃ g m, imgs !! k = Some g ∧ tail = take m (frame_of k g) ∧ (m < length (frame_of k g))%nat).
Proof.
  intros Hw Hn. induction imgs as [|g imgs IH] using rev_ind.
  - exists 0%nat, []. rewrite take_nil, arena_nil, app_nil_r. split; [|by left].
    apply take_ge. by rewrite length_file_header by apply Hstore.
  - apply wf_imgs_snoc in Hw as [Hw Hg]. rewrite arena_snoc. destruct (decide (n < length (arena imgs)))%nat as [Hlt|Hge].
    + rewrite take_app_le by lia. destruct (IH Hw) as (k & tail & -> & Hk). exists k, tail.
      destruct Hk as [[-> ->]|(g' & m & Hg' & Hm)].
      * rewrite take_app_length, firstn_all. split; [done|]. right.
        exists g, 0%nat. rewrite lookup_app_r, Nat.sub_diag by lia. split_and!; [done..|].
        pose proof (length_frame _ _ Hg). ps_lia.
      * pose proof (lookup_lt_Some _ _ _ Hg') as Hlk. rewrite take_app_le by lia. split; [done|]. right.
        exists g', m. split; [by apply lookup_app_l_Some|done].
    + rewrite take_app_ge by lia. set (m := (n - length (arena imgs))%nat).
      destruct (decide (m < length (frame_of (length imgs) g)))%nat as [Hm|Hm].
      * exists (length imgs), (take m (frame_of (length imgs) g)). rewrite take_app_length. split; [done|]. right.
        exists g, m. by rewrite lookup_app_r, Nat.sub_diag by lia.
      * exists (length (imgs ++ [g])), []. rewrite take_ge by lia. rewrite firstn_all, arena_snoc, app_nil_r.
        split; [done|by left].
Qed.

(** ** Reading *)
Lemma read_at_cases off slot fs fs' r :
  read_at off slot fs = (fs', r) →
  fs_files fs' = fs_files fs ∧
  ∀ fr, r = Ok fr → off < 2 ^ 63 ∧ ∃ f, BTreeMap.get IMAGE_FILE (fs_files fs) = Some f ∧
    slice (f_bytes f) (Z.to_nat off) (Z.to_nat slot) = Some fr.
Proof.
  unfold read_at, seek, ps_io, read_exact.
  destruct (fs_check fs) as [fs1 [[]|e]] eqn:E1; apply fs_check_files in E1; cbn; [|by intros [= <- <-]].
  destruct (off <? 2 ^ 63) eqn:Eo; bool_to_prop; cbn; [|by intros [= <- <-]].
  destruct (fs_read IMAGE_FILE fs1) as [fs2 r2] eqn:E2. apply fs_read_cases in E2 as [E2 Hr].
  rewrite E1 in E2. destruct r2 as [bs|e]; cbn; [|by intros [= <- <-]].
  destruct Hr as (f & Hf & ->). rewrite E1 in Hf.
  destruct (slice _ _ _) as [x|] eqn:Es; cbn; intros [= <- <-]; split; try done. intros fr [= <-]. eauto.
Qed.

Lemma read_at_ok off slot fs f fr :
  fs_faults fs = [] → off < 2 ^ 63 → BTreeMap.get IMAGE_FILE (fs_files fs) = Some f →
  slice (f_bytes f) (Z.to_nat off) (Z.to_nat slot) = Some fr → read_at off slot fs = (fs, Ok fr).
Proof.
  intros Hn Ho Hf Hs. unfold read_at, seek, ps_io, read_exact. rewrite fs_check_ok by done.
  rewrite (proj2 (Z.ltb_lt _ _)) by done. cbn. rewrite (fs_read_ok _ _ _ Hn Hf). cbn. by rewrite Hs.
Qed.

Lemma decode_slot i g : wf_img i g → decode_image (frame_of i g) store pb = Ok (metadata_of i g, g_page g).
Proof. intros (Hw & Hl & _). exact (decode_image_frame _ _ _ _ _ _ Hw Hl). Qed.

Section file.
Variables (imgs : list Img) (tail : bytes) (f : File).
Hypothesis Himgs : wf_imgs imgs.
Hypothesis Hbytes : f_bytes f = arena imgs ++ tail.

Definition entry_of (i : nat) g : PageMapEntry := {| me_key := g_key g; me_image := location_of i g |}.

(** What a successful check of a map entry means. *)
Lemma check_reference_cases e1 e2 entry fs fs' r :
  BTreeMap.get IMAGE_FILE (fs_files fs) = Some f →
  check_reference e1 e2 store pb (84 + pb) (slot_offset pb (length imgs)) entry fs = (fs', r) →
  fs_files fs' = fs_files fs ∧
  ∀ md, r = Ok md → ∃ i g, imgs !! i = Some g ∧ entry = entry_of i g ∧ md = metadata_of i g.
Proof.
  intros Hf. unfold check_reference. destruct (is_image_offset _ pb) eqn:Eo; cbn [negb]; [|by intros [= <- <-]].
  apply is_image_offset_iff in Eo as [i Ei]; [|done]. rewrite Ei.
  destruct (_ <? _) eqn:Eb; bool_to_prop; [by intros [= <- <-]|].
  destruct (read_at _ _ fs) as [fs1 [fr|e]] eqn:Er; apply read_at_cases in Er as [Hfs Hr]; [|by intros [= <- <-]].
  destruct (Hr fr eq_refl) as (Hlt & f' & Hf' & Hs). replace f' with f in Hs by congruence. rewrite Hbytes in Hs.
  rewrite Z.mod_small in Eb by (unfold slot_offset in *; ps_lia).
  destruct (lookup_lt_is_Some_2 imgs i) as [g Hg].
  { unfold slot_offset in Eb. assert (0 < 84 + pb) by ps_lia. nia. }
  rewrite (slice_arena imgs i g tail Himgs Hg) in Hs. injection Hs as <-.
  rewrite (decode_slot i g (Himgs _ _ Hg)). cbn [fst metadata_of image_metadata im_key im_location il_checksum].
  case_bool_decide as Hk; cbn [negb]; [|by intros [= <- <-]].
  destruct (_ =? _) eqn:Ec; bool_to_prop; cbn [negb]; intros [= <- <-]; (split; [done|]); [|done].
  intros md [= <-]. exists i, g. split_and!; [done| |done].
  destruct entry as [key [o c]]. unfold entry_of, location_of. cbn in *. congruence.
Qed.

Lemma check_reference_ok e1 e2 i g fs :
  fs_faults fs = [] → BTreeMap.get IMAGE_FILE (fs_files fs) = Some f → imgs !! i = Some g →
  check_reference e1 e2 store pb (84 + pb) (slot_offset pb (length imgs)) (entry_of i g) fs = (fs, Ok (metadata_of i g)).
Proof.
  intros Hn Hf Hg. pose proof (Himgs _ _ Hg) as (Hwi & _ & Hlt). unfold check_reference. cbn [entry_of me_key me_image location_of il_offset il_checksum].
  rewrite (proj2 (is_image_offset_iff _ _ Hpb)) by eauto. cbn [negb]. pose proof (lookup_lt_Some _ _ _ Hg) as Hil.
  rewrite Z.mod_small by (unfold slot_offset in *; ps_lia).
  rewrite (proj2 (Z.ltb_ge _ _)) by (unfold slot_offset; assert (0 < 84 + pb) by ps_lia; nia).
  rewrite (read_at_ok _ _ _ f (frame_of i g)); [|done..|rewrite Hbytes; by apply slice_arena].
  rewrite (decode_slot i g (Himgs _ _ Hg)). cbn [fst metadata_of image_metadata im_key im_location il_checksum].
  by rewrite bool_decide_eq_true_2, Z.eqb_refl by done.
Qed.

(** ** The scan

    The tail is nothing, or less than a frame of the next image. *)
Definition torn : Prop :=
  tail = [] ∨ ∃ g m, wf_img (length imgs) g ∧ tail = take m (frame_of (length imgs) g) ∧
    (0 < m < length (frame_of (length imgs) g))%nat.

Definition tail_offset : option Z :=
  match tail with [] => None | _ => Some (slot_offset pb (length imgs)) end.

Lemma scan_end fs fuel :
  fs_faults fs = [] → BTreeMap.get IMAGE_FILE (fs_files fs) = Some f → torn →
  scan_images (S fuel) store pb (84 + pb) (len (f_bytes f)) (slot_offset pb (length imgs)) fs =
    (fs, Ok (slot_offset pb (length imgs), tail_offset)).
Proof.
  intros Hn Hf Ht. pose proof (length_arena imgs Himgs) as Hl.
  assert (len (f_bytes f) = slot_offset pb (length imgs) + len tail) as Hlen.
  { rewrite Hbytes, len_app. unfold len at 1. lia. }
  cbn [scan_images]. rewrite Hlen. destruct Ht as [Ht|(g & m & Hg & Htl & Hm)].
  { unfold tail_offset. rewrite Ht. by rewrite (proj2 (Z.leb_le _ _)) by (unfold len; cbn; lia). }
  pose proof (length_frame _ _ Hg) as Hfl. assert (length tail = m) as Hlm by (rewrite Htl; apply length_take_le; lia).
  assert (tail_offset = Some (slot_offset pb (length imgs))) as -> by (unfold tail_offset; by destruct tail; [cbn in Hlm; lia|]).
  rewrite (proj2 (Z.leb_gt _ _)) by (unfold len; lia).
  replace (slot_offset pb (length imgs) + len tail - slot_offset pb (length imgs)) with (Z.of_nat m) by (unfold len; lia).
  destruct (Z.of_nat m <? Z.of_nat PAGE_IMAGE_HEADER_SIZE) eqn:E80; bool_to_prop; [done|].
  rewrite (proj2 (Z.ltb_lt _ _)) by lia. pose proof Hg as (Hw & Hpl & Hlt).
  assert (length (image_head store (g_key g) (slot_offset pb (length imgs)) pb (g_deps g)) = 80%nat) as Hh
    by apply length_image_head, Hstore.
  rewrite (read_at_ok _ _ _ f (image_head store (g_key g) (slot_offset pb (length imgs)) pb (g_deps g))); [|done..|].
  - rewrite <-(app_nil_r (image_head _ _ _ _ _)). by rewrite decode_image_header_encode.
  - rewrite Hbytes, (slice_app_skip _ _ _ _ _ eq_refl) by lia. apply slice_Some. rewrite Hlm. split; [ps_lia|].
    replace (_ - _)%nat with 0%nat by lia. rewrite drop_0, Htl, take_take, Nat.min_l by ps_lia.
    unfold frame_of, image_frame. cbv zeta. rewrite <-!app_assoc. symmetry. apply take_app_length'. rewrite Hh. ps_lia.
Qed.

Lemma scan_images_ok fs k fuel :
  fs_faults fs = [] → BTreeMap.get IMAGE_FILE (fs_files fs) = Some f → torn →
  (k ≤ length imgs)%nat → (length imgs - k < fuel)%nat →
  scan_images fuel store pb (84 + pb) (len (f_bytes f)) (slot_offset pb k) fs =
    (fs, Ok (slot_offset pb (length imgs), tail_offset)).
Proof.
  intros Hn Hf Ht. revert k. induction fuel as [|fuel IH]; intros k Hk Hfu; [lia|].
  destruct (decide (k = length imgs)) as [->|Hne]; [by apply scan_end|].
  destruct (lookup_lt_is_Some_2 imgs k) as [g Hg]; [lia|]. pose proof (Himgs _ _ Hg) as Hw.
  cbn [scan_images]. pose proof (length_arena imgs Himgs) as Hl.
  assert (slot_offset pb k + (84 + pb) ≤ len (f_bytes f)) as Hle.
  { rewrite Hbytes, len_app. pose proof (len_nonneg tail). unfold len at 1. rewrite Hl. unfold slot_offset.
    assert (0 < 84 + pb) by ps_lia. nia. }
  rewrite (proj2 (Z.leb_gt _ _)) by ps_lia. cbv zeta.
  rewrite (proj2 (Z.ltb_ge _ (Z.of_nat PAGE_IMAGE_HEADER_SIZE))) by ps_lia.
  rewrite (proj2 (Z.ltb_ge _ (84 + pb))) by lia.
  rewrite (read_at_ok _ _ _ f (frame_of k g)); [|done|apply Hw|done|rewrite Hbytes; by apply slice_arena].
  rewrite decode_slot by done. cbn [fst metadata_of image_metadata im_location il_offset].
  rewrite Z.eqb_refl. cbn [negb].
  replace (slot_offset pb k + (84 + pb)) with (slot_offset pb (S k)) by (unfold slot_offset; lia).
  apply IH; lia.
Qed.
End file.
End arena.
