(* ===== verification/PageStoreSpec.v ===== *)
(** * The page store keeps what it is given

    The invariant of [PersistentPageIo] over the images in its arena.  With it the
    store is a [PageIo] device in the sense the buffer pool relies on, and a
    published placement map outlives every later operation, crash and reopening:
    reopening from it succeeds and reads back the bytes that were written. *)
From S2P Require Import Prelude StdCollections Ids Crc Store Fs Shards PageIo PageDependency PageImage PageMapFile PageStore PageArena.

Local Open Scope Z_scope.
Local Open Scope seer_scope.

(** ** Fields are written modulo their width *)
Definition norm_key (k : PageKey) : PageKey :=
  {| pk_object := pk_object k mod 2 ^ 64; pk_page := pk_page k mod 2 ^ 64 |}.

Definition norm_deps (d : PageDependencies) : PageDependencies :=
  {| pd_required_wal := pd_required_wal d mod 2 ^ 64;
     pd_required_undo :=
       match pd_required_undo d with
       | Some v => if v mod 2 ^ 64 =? 0 then None else Some (v mod 2 ^ 64)
       | None => None
       end |}.

Lemma u64_le_mod z : u64_le (z mod 2 ^ 64) = u64_le z.
Proof. unfold u64_le. exact (eq_sym (LittleEndianList.le_split_mod z 8)). Qed.

Lemma mod_u64 z : is_u64 (z mod 2 ^ 64).
Proof. pose proof (Z.mod_pos_bound z (2 ^ 64)). unfold is_u64, U64_MAX. lia. Qed.

Lemma norm_key_u64 k : is_u64 (pk_object k) → is_u64 (pk_page k) → norm_key k = k.
Proof.
  unfold is_u64, U64_MAX, norm_key. intros H1 H2. rewrite !Z.mod_small by lia. by destruct k.
Qed.

Lemma undo_code_norm d : undo_code (norm_deps d) = undo_code d mod 2 ^ 64.
Proof.
  unfold undo_code, norm_deps. cbn [pd_required_undo]. destruct (pd_required_undo d) as [v|]; cbn [default id]; [|done].
  destruct (v mod 2 ^ 64 =? 0) eqn:E; bool_to_prop; cbn; congruence.
Qed.

Section spec.
Context `{Crc32c} `{PageHasher}.
Implicit Types (st : PersistentPageIo) (fs : Fs) (imgs : list Img).

Lemma image_head_norm store key off pb deps :
  image_head store (norm_key key) off pb (norm_deps deps) = image_head store key off pb deps.
Proof.
  unfold image_head. do 2 f_equal. unfold image_fields, image_header_fields. rewrite undo_code_norm.
  cbn [norm_key norm_deps pk_object pk_page pd_required_wal]. by rewrite !u64_le_mod.
Qed.

Lemma wf_image_norm store key off pb deps :
  wf_incarnation store → is_u64 off → is_u32 pb → pb ≠ 0 →
  wf_image store (norm_key key) off pb (norm_deps deps).
Proof.
  intros Hs Ho Hp Hp0. split; try done; try apply mod_u64. cbn [norm_deps pd_required_undo].
  intros v. destruct (pd_required_undo deps) as [u|]; [|done]. destruct (_ =? 0) eqn:E; bool_to_prop; [done|].
  intros [= <-]. split; [apply mod_u64|done].
Qed.

(** ** The invariant *)
Record ps_inv st imgs : Prop := {
  pi_store : wf_incarnation (ps_store st);
  pi_page_bytes : is_u32 (ps_page_bytes st) ∧ ps_page_bytes st ≠ 0;
  pi_imgs : wf_imgs (ps_store st) (ps_page_bytes st) imgs;
  pi_end : ps_end_offset st = slot_offset (ps_page_bytes st) (length imgs);
  pi_arena : ∃ f tail, BTreeMap.get IMAGE_FILE (fs_files (ps_fs st)) = Some f ∧
    f_bytes f = arena (ps_store st) (ps_page_bytes st) imgs ++ tail ∧ (40 ≤ f_synced f)%nat ∧
    (tail = [] ∨ ps_fenced st = true ∧ ∃ g m, wf_img (ps_store st) (ps_page_bytes st) (length imgs) g ∧
       tail = take m (frame_of (ps_store st) (ps_page_bytes st) (length imgs) g));
  pi_working key loc : BTreeMap.get key (ps_working st) = Some loc →
    ∃ i g, imgs !! i = Some g ∧ g_key g = norm_key key ∧ loc = location_of (ps_store st) (ps_page_bytes st) i g
}.

(** What later states keep: map files, and the images a sync has covered. *)
Definition durable (pb : Z) fs (k : nat) : Prop :=
  ∃ f, BTreeMap.get IMAGE_FILE (fs_files fs) = Some f ∧ slot_offset pb k ≤ Z.of_nat (f_synced f).

Definition files_kept fs fs' : Prop :=
  ∀ id f, id ≠ IMAGE_FILE → BTreeMap.get id (fs_files fs) = Some f → f_synced f = length (f_bytes f) →
    f_synced f ≠ 0%nat → BTreeMap.get id (fs_files fs') = Some f.

Definition extends (pb : Z) fs imgs fs' imgs' : Prop :=
  files_kept fs fs' ∧
  ∀ k, (k ≤ length imgs)%nat → durable pb fs k →
    durable pb fs' k ∧ (k ≤ length imgs')%nat ∧ take k imgs' = take k imgs.

Lemma extends_trans pb fs1 imgs1 fs2 imgs2 fs3 imgs3 :
  extends pb fs1 imgs1 fs2 imgs2 → extends pb fs2 imgs2 fs3 imgs3 → extends pb fs1 imgs1 fs3 imgs3.
Proof.
  intros [F1 E1] [F2 E2]. split.
  - intros id f Hid Hg Hs Hs0. by apply F2; [|apply F1|..].
  - intros k Hk Hd. destruct (E1 k Hk Hd) as (Hd2 & Hk2 & Ht2). destruct (E2 k Hk2 Hd2) as (Hd3 & Hk3 & Ht3).
    split_and!; [done..|congruence].
Qed.

Lemma extends_same pb fs fs' imgs : fs_files fs' = fs_files fs → extends pb fs imgs fs' imgs.
Proof. intros E. unfold extends, files_kept, durable. rewrite E. split; [done|]. intros k Hk Hd. done. Qed.

(** A change of state that only reads, or only touches the dependency table. *)
Lemma ps_inv_same st st' imgs :
  ps_inv st imgs → ps_store st' = ps_store st → ps_page_bytes st' = ps_page_bytes st →
  ps_end_offset st' = ps_end_offset st → ps_working st' = ps_working st →
  (ps_fenced st = true → ps_fenced st' = true) → fs_files (ps_fs st') = fs_files (ps_fs st) → ps_inv st' imgs.
Proof.
  intros [I1 I2 I3 I4 (f & tail & Hf & Hb & Hs & Ht) I6] E1 E2 E3 E4 E5 E6.
  split; rewrite ?E1, ?E2, ?E3, ?E4, ?E6; try done. exists f, tail. split_and!; try done.
  destruct Ht as [->|(Hfe & Ht)]; [by left|right]. split; [by apply E5|done].
Qed.

Lemma page_store_create_inv incarnation pb fs fs' st :
  wf_incarnation incarnation → is_u32 pb → page_store_create incarnation pb fs = (fs', Ok st) →
  ps_inv st [] ∧ ps_store st = incarnation ∧ ps_page_bytes st = pb ∧ ps_fs st = fs'.
Proof.
  intros Hi Hpb. unfold page_store_create, validate_page_bytes. rewrite page_image_bytes_u32 by done.
  destruct (pb =? 0) eqn:E0; bool_to_prop; cbn [ok_or]; [done|]. unfold ps_io, fs_sync_dir.
  destruct (fs_create_new IMAGE_FILE fs) as [fs1 [[]|e]] eqn:E1; cbn [fst snd map_err]; [|done].
  apply fs_create_new_cases in E1 as [[_ ?]|(_ & _ & F1)]; [done|].
  destruct (fs_write_at _ _ _ fs1) as [fs2 [[]|e]] eqn:E2; cbn [fst snd map_err]; [|done].
  eapply fs_write_at_cases in E2 as (w & F2 & [[_ ->]|[? _]]); [|done|rewrite F1; apply BTreeMap.get_insert_eq].
  destruct (fs_sync_file _ fs2) as [fs3 [[]|e]] eqn:E3; cbn [fst snd map_err]; [|done].
  apply fs_sync_file_cases in E3 as [[_ ?]|(_ & f & Hf & F3)]; [done|].
  rewrite F2, BTreeMap.get_insert_eq in Hf. injection Hf as <-.
  destruct (fs_check fs3) as [fs4 [[]|e]] eqn:E4; cbn [fst snd map_err]; [|done]. intros [= <- <-].
  apply fs_check_files in E4. split; [|done].
  split; cbn [ps_store ps_page_bytes ps_end_offset ps_fs ps_fenced ps_working length];
    [done|done|by intros i g Hg; rewrite lookup_nil in Hg|unfold slot_offset, IMAGE_FILE_HEADER_SIZE; lia| |].
  - eexists _, []. rewrite E4, F3, BTreeMap.get_insert_eq. split; [done|]. cbn [f_bytes f_synced].
    rewrite (splice_end []), app_nil_r, app_nil_l, arena_nil, length_file_header by apply Hi. split_and!; [done|lia|by left].
  - done.
Qed.

(** ** Appending an image *)
Lemma image_frame_checksum_frame store key off pb deps payload :
  image_frame_checksum (image_frame store key off pb deps payload) = frame_checksum store key off pb deps payload.
Proof.
  unfold image_frame_checksum, image_frame, frame_checksum. cbv zeta.
  rewrite length_app, length_u32_le. replace (_ + 4 - 4)%nat with (length (image_head store key off pb deps ++ payload)) by lia.
  rewrite drop_app_length. apply le_u32_roundtrip, crc32c_u32.
Qed.

Lemma frame_of_norm store pb i key deps page :
  frame_of store pb i {| g_key := norm_key key; g_deps := norm_deps deps; g_page := page |} =
    image_frame store key (slot_offset pb i) pb deps page.
Proof. unfold frame_of, image_frame. cbn [g_key g_deps g_page]. by rewrite image_head_norm. Qed.

Lemma location_of_norm store pb i key deps page :
  location_of store pb i {| g_key := norm_key key; g_deps := norm_deps deps; g_page := page |} =
    {| il_offset := slot_offset pb i; il_checksum := frame_checksum store key (slot_offset pb i) pb deps page |}.
Proof. unfold location_of, frame_checksum. cbn [g_key g_deps g_page]. by rewrite image_head_norm. Qed.

(** A write at the end of the arena leaves a prefix of the frame behind. *)
Lemma append_image_cases st imgs frame fs r :
  ps_inv st imgs → ps_fenced st = false →
  (do? (fs, _) := seek (ps_end_offset st) (ps_fs st) in
   fs_write_at IMAGE_FILE (Z.to_nat (ps_end_offset st)) frame fs) = (fs, r) →
  ∃ f f', BTreeMap.get IMAGE_FILE (fs_files (ps_fs st)) = Some f ∧
    f_bytes f = arena (ps_store st) (ps_page_bytes st) imgs ∧ (40 ≤ f_synced f)%nat ∧
    BTreeMap.get IMAGE_FILE (fs_files fs) = Some f' ∧
    (∀ k, k ≠ IMAGE_FILE → BTreeMap.get k (fs_files fs) = BTreeMap.get k (fs_files (ps_fs st))) ∧
    (Nat.min (f_synced f) (length (f_bytes f)) ≤ f_synced f')%nat ∧
    ∃ m, f_bytes f' = f_bytes f ++ take m frame ∧
      (r = Ok tt → m = length frame ∧ ps_end_offset st < 2 ^ 63) ∧ (m ≠ 0%nat → ps_end_offset st < 2 ^ 63).
Proof.
  intros [I1 [I2 I2'] I3 I4 (f & tail & Hf & Hb & Hs & Ht) I6] Hfe. destruct Ht as [->|[? _]]; [|congruence].
  rewrite app_nil_r in Hb. pose proof (length_arena _ _ I1 imgs I3) as Hl. rewrite <-I4, <-Hb in Hl. unfold seek.
  destruct (fs_check (ps_fs st)) as [fs1 [[]|e]] eqn:E1; apply fs_check_files in E1; cbn.
  2:{ intros [= <- <-]. exists f, f. rewrite E1. split_and!; try done; [lia|]. exists 0%nat. by rewrite app_nil_r. }
  destruct (ps_end_offset st <? 2 ^ 63) eqn:Eo; bool_to_prop; cbn.
  2:{ intros [= <- <-]. exists f, f. rewrite E1. split_and!; try done; [lia|]. exists 0%nat. by rewrite app_nil_r. }
  intros (w & F & Hw)%(fs_write_at_cases _ _ _ _ _ _ f); [|by rewrite E1]. rewrite E1 in F.
  eexists f, _. rewrite F, BTreeMap.get_insert_eq. split_and!; try done.
  - intros k Hk. by rewrite BTreeMap.get_insert_ne.
  - cbn [f_synced]. lia.
  - cbn [f_bytes]. replace (Z.to_nat (ps_end_offset st)) with (length (f_bytes f)) by lia. rewrite splice_end.
    destruct Hw as [[-> ->]|[Hr [n ->]]].
    + exists (length frame). rewrite firstn_all. done.
    + exists n. split; [done|]. split; [by intros ->|done].
Qed.

(** Appends keep every other file and what was synchronized. *)
Lemma append_extends st imgs imgs' fs f f' :
  BTreeMap.get IMAGE_FILE (fs_files (ps_fs st)) = Some f → BTreeMap.get IMAGE_FILE (fs_files fs) = Some f' →
  (∀ k, k ≠ IMAGE_FILE → BTreeMap.get k (fs_files fs) = BTreeMap.get k (fs_files (ps_fs st))) →
  (Nat.min (f_synced f) (length (f_bytes f)) ≤ f_synced f')%nat →
  Z.of_nat (length (f_bytes f)) = slot_offset (ps_page_bytes st) (length imgs) → is_u32 (ps_page_bytes st) →
  imgs `prefix_of` imgs' → extends (ps_page_bytes st) (ps_fs st) imgs fs imgs'.
Proof.
  intros Hf Hf' Ho Hs Hl Hpb [more ->]. split; [intros id x Hid Hg _ _; by rewrite Ho|].
  intros k Hk (x & Hx & Hd). replace x with f in Hd by congruence. split_and!.
  - exists f'. split; [done|]. unfold slot_offset in *. assert (0 < 84 + ps_page_bytes st) by ps_lia. nia.
  - rewrite length_app. lia.
  - by rewrite take_app_le.
Qed.

Lemma write_image_inv key source st imgs st' r :
  ps_inv st imgs → write_image key source st = (st', r) →
  ps_store st' = ps_store st ∧ ps_page_bytes st' = ps_page_bytes st ∧ ps_dependencies st' = ps_dependencies st ∧
  ∃ imgs', ps_inv st' imgs' ∧ extends (ps_page_bytes st) (ps_fs st) imgs (ps_fs st') imgs' ∧
  match r with
  | Err _ => imgs' = imgs ∧ ps_working st' = ps_working st
  | Ok loc => ∃ deps, let g := {| g_key := norm_key key; g_deps := norm_deps deps; g_page := source |} in
      checked_requirements (ps_dependencies st) key = Ok deps ∧ imgs' = imgs ++ [g] ∧
      loc = location_of (ps_store st) (ps_page_bytes st) (length imgs) g ∧
      ps_working st' = BTreeMap.insert key loc (ps_working st)
  end.
Proof.
  intros Hinv. pose proof Hinv as [I1 [I2 I2'] I3 I4 _ I6]. unfold write_image.
  set (checked := if negb _ then _ else _). cbv zeta.
  destruct checked as [frame|e] eqn:Ec; unfold checked in Ec; clear checked.
  2:{ intros [= <- <-]. split_and!; [done..|]. exists imgs. split_and!; [done|by apply extends_same|done..]. }
  destruct (len source =? ps_page_bytes st) eqn:El; bool_to_prop; cbn [negb] in Ec; [|done].
  destruct (checked_requirements _ key) as [deps|e] eqn:Ed; cbn [map_err] in Ec; [|by destruct e].
  destruct (ps_poisoned st); [done|]. destruct (ps_fenced st) eqn:Efe; [done|].
  apply encode_image_Ok in Ec as (_ & _ & ->); [|done]. rewrite I4. rewrite image_frame_checksum_frame.
  set (g := {| g_key := norm_key key; g_deps := norm_deps deps; g_page := source |}).
  rewrite <-(location_of_norm (ps_store st) (ps_page_bytes st) (length imgs) key deps source). fold g.
  rewrite <-(frame_of_norm (ps_store st) (ps_page_bytes st) (length imgs) key deps source). fold g. rewrite <-I4.
  destruct (do? (fs, _) := _ in _) as [fs w] eqn:Ew.
  apply (append_image_cases st imgs) in Ew as (f & f' & Hf & Hb & Hs & Hf' & Ho & Hsy & m & Hb' & Hok & Hm); [|done..].
  pose proof (length_arena _ _ I1 imgs I3) as Hla. rewrite <-Hb in Hla.
  assert (40 ≤ f_synced f')%nat as Hs'.
  { unfold slot_offset in Hla. assert (0 < 84 + ps_page_bytes st) by ps_lia. nia. }
  assert (ps_end_offset st < 2 ^ 63 → wf_img (ps_store st) (ps_page_bytes st) (length imgs) g) as Hwg.
  { intros Hlt. rewrite I4 in Hlt. split; [|by split]. apply wf_image_norm; try done.
    unfold slot_offset in *. ps_lia. }
  destruct w as [[]|e]; intros [= <- <-]; (split_and!; [done..|]).
  - destruct (Hok eq_refl) as [-> Hlt]. exists (imgs ++ [g]). split; [|split].
    + specialize (Hwg Hlt). rewrite firstn_all, Hb, <-arena_snoc in Hb'.
      split; cbn [ps_store ps_page_bytes ps_end_offset ps_fs ps_fenced ps_working]; try done.
      * by apply wf_imgs_snoc.
      * unfold len. rewrite I4, (length_frame _ _ I1 _ _ Hwg), length_app. unfold slot_offset. cbn [length]. lia.
      * exists f', []. rewrite app_nil_r. split_and!; [done..|by left].
      * intros k loc. rewrite (BTreeMap.get_insert key k). case_decide as Hk.
        -- intros [= <-]. subst k. exists (length imgs), g. by rewrite lookup_app_r, Nat.sub_diag by lia.
        -- intros (i & g' & Hi & Hgk & ->)%I6. exists i, g'. split; [by apply lookup_app_l_Some|done].
    + eapply append_extends; try done. by apply prefix_app_r.
    + exists deps. by split_and!.
  - exists imgs. split; [|split]; [|by eapply append_extends|done].
    split; cbn [ps_fence with_fs ps_store ps_page_bytes ps_end_offset ps_fs ps_fenced ps_working]; try done.
    exists f', (take m (frame_of (ps_store st) (ps_page_bytes st) (length imgs) g)). rewrite Hb', Hb. split_and!; try done.
    destruct (decide (m = 0%nat)) as [->|Hm0]; [by left|right]. split; [done|]. exists g, m. split; [auto|done].
Qed.

(** ** Reading *)
Definition only_read st st' : Prop := ∃ fs, st' = with_fs fs st ∧ fs_files fs = fs_files (ps_fs st).

Lemma only_read_refl st : only_read st st.
Proof. exists (ps_fs st). by destruct st. Qed.

Lemma only_read_inv st st' imgs : only_read st st' → ps_inv st imgs → ps_inv st' imgs.
Proof. intros (fs & -> & Hfs) Hinv. by eapply ps_inv_same. Qed.

Lemma image_read_frame_cases off st st' r :
  image_read_frame off st = (st', r) →
  only_read st st' ∧
  ∀ imgs i g, ps_inv st imgs → imgs !! i = Some g → off = slot_offset (ps_page_bytes st) i →
    ∀ out, r = Ok out → out = (metadata_of (ps_store st) (ps_page_bytes st) i g, g_page g).
Proof.
  unfold image_read_frame. destruct (page_image_bytes _) as [slot|] eqn:Es; [|intros [= <- <-]; split; [apply only_read_refl|done]].
  destruct (ps_poisoned st); [intros [= <- <-]; split; [apply only_read_refl|done]|].
  destruct (read_at off slot (ps_fs st)) as [fs rd] eqn:Er. apply read_at_cases in Er as [Hfs Hr].
  intros [= <- <-]. split; [by exists fs|]. intros imgs i g [I1 [I2 I2'] I3 I4 (f & tail & Hf & Hb & _) _] Hi -> out.
  rewrite page_image_bytes_u32 in Es by done. injection Es as <-.
  destruct rd as [fr|e]; [|done]. destruct (Hr fr eq_refl) as (_ & f' & Hf' & Hsl).
  replace f' with f in Hsl by congruence. rewrite Hb in Hsl.
  rewrite (slice_arena _ _ I1 I2' imgs i g) in Hsl by done. injection Hsl as <-.
  rewrite (decode_slot _ _ i g (I3 _ _ Hi)). by intros [= <-].
Qed.

(** Without faults a read of an image succeeds. *)
Lemma image_read_frame_ok st imgs i g :
  ps_inv st imgs → imgs !! i = Some g → fs_faults (ps_fs st) = [] → ps_poisoned st = false →
  image_read_frame (slot_offset (ps_page_bytes st) i) st =
    (st, Ok (metadata_of (ps_store st) (ps_page_bytes st) i g, g_page g)).
Proof.
  intros [I1 [I2 I2'] I3 I4 (f & tail & Hf & Hb & _) _] Hi Hn Hp. unfold image_read_frame.
  rewrite page_image_bytes_u32, Hp by done.
  rewrite (read_at_ok _ _ _ f (frame_of (ps_store st) (ps_page_bytes st) i g)); [|done| |done|].
  - rewrite (decode_slot _ _ i g (I3 _ _ Hi)). by destruct st.
  - apply (I3 _ _ Hi).
  - rewrite Hb. by apply slice_arena.
Qed.

Lemma copy_payload_Ok payload destination out :
  copy_payload payload destination = Ok out ↔ out = payload ∧ length destination = length payload.
Proof. unfold copy_payload. case_bool_decide; cbn; naive_solver. Qed.

Lemma store_read_page_cases key dest st st' dest' r :
  store_read_page key dest st = (st', dest', r) →
  only_read st st' ∧ length dest' = length dest ∧
  ∀ imgs, ps_inv st imgs → r = Ok tt → ∃ i g, imgs !! i = Some g ∧ g_page g = dest' ∧
    BTreeMap.get key (ps_working st) = Some (location_of (ps_store st) (ps_page_bytes st) i g).
Proof.
  unfold store_read_page, placement.
  destruct (ps_poisoned st); [intros [= <- <- <-]; split; [apply only_read_refl|done]|].
  destruct (BTreeMap.get key (ps_working st)) as [loc|] eqn:Ew; cbn [ok_or];
    [|intros [= <- <- <-]; split; [apply only_read_refl|done]].
  destruct (image_read_frame _ st) as [st1 [[md payload]|e]] eqn:Er; apply image_read_frame_cases in Er as [Ho Hr];
    [|by intros [= <- <- <-]].
  case_bool_decide; cbn [negb]; [|by intros [= <- <- <-]].
  destruct (copy_payload payload dest) as [page|e] eqn:Ec; intros [= <- <- <-]; (split; [done|]); [|done].
  apply copy_payload_Ok in Ec as [-> Hl]. split; [done|]. intros imgs Hinv _.
  destruct (pi_working _ _ Hinv _ _ Ew) as (i & g & Hi & _ & ->). exists i, g.
  by specialize (Hr imgs i g Hinv Hi eq_refl _ eq_refl) as [= _ ->].
Qed.

Lemma read_mapped_page_only_read m key dest st : only_read st (read_mapped_page m key dest st).1.1.
Proof.
  unfold read_mapped_page. repeat (case_match; try apply only_read_refl).
  all: match goal with E : image_read_frame _ _ = _ |- _ => by apply image_read_frame_cases in E as [? _] end.
Qed.

(** ** The store is a page device *)
Definition store_repr st (m : gmap PageKey bytes) : Prop :=
  ∃ imgs, ps_inv st imgs ∧
    ∀ key page, m !! key = Some page ↔ ∃ i g, imgs !! i = Some g ∧ g_page g = page ∧
      BTreeMap.get key (ps_working st) = Some (location_of (ps_store st) (ps_page_bytes st) i g).

Lemma store_read_repr st m key dest st' dest' r :
  store_repr st m → store_read_page key dest st = (st', dest', r) →
  store_repr st' m ∧ length dest' = length dest ∧ (r = Ok tt → m !! key = Some dest').
Proof.
  intros (imgs & Hinv & Hm) (Ho & Hl & Hr)%store_read_page_cases. split; [|split; [done|]].
  - exists imgs. split; [by eapply only_read_inv|]. by destruct Ho as (fs & -> & _).
  - intros ->. apply Hm. by apply Hr.
Qed.

Lemma location_of_inj store pb imgs i j g g' :
  is_u32 pb → imgs !! i = Some g → imgs !! j = Some g' → location_of store pb i g = location_of store pb j g' →
  i = j ∧ g = g'.
Proof.
  intros Hpb Hi Hj [= E _]. apply slot_offset_inj in E as ->; [|done]. split; congruence.
Qed.

Lemma store_write_repr st m key source st' r :
  store_repr st m → store_write_page key source st = (st', r) →
  ∃ m', store_repr st' m' ∧ (∀ k, k ≠ key → m' !! k = m !! k) ∧ (r = Ok tt → m' !! key = Some source).
Proof.
  intros (imgs & Hinv & Hm). unfold store_write_page. destruct (write_image key source st) as [st1 w] eqn:Ew.
  apply (write_image_inv _ _ _ _ _ _ Hinv) in Ew as (Es & Ep & _ & imgs' & Hinv' & _ & Hw).
  pose proof (pi_page_bytes _ _ Hinv) as [Hpb _].
  destruct w as [loc|e]; cbn; intros [= <- <-].
  - destruct Hw as (deps & _ & -> & -> & Ewk). set (g0 := {| g_page := source |}) in *.
    assert ((imgs ++ [g0]) !! length imgs = Some g0) as Hg0 by (by apply list_lookup_middle).
    exists (<[key := source]> m). split; [|split].
    + exists (imgs ++ [g0]). split; [exact Hinv'|]. intros k page. rewrite Es, Ep, Ewk, (BTreeMap.get_insert key k).
      rewrite lookup_insert. case_decide as Hk.
      * split; [intros [= <-]; by exists (length imgs), g0|]. intros (i & g & Hi & <- & Hloc). apply (inj Some) in Hloc.
        apply (location_of_inj _ _ (imgs ++ [g0]) (length imgs) i g0 g) in Hloc as [_ <-]; done.
      * rewrite Hm. split; intros (i & g & Hi & <- & Hloc).
        -- exists i, g. split; [by apply lookup_app_l_Some|done].
        -- destruct (pi_working _ _ Hinv _ _ Hloc) as (j & g' & Hj & _ & E). exists j, g'.
           apply (location_of_inj _ _ (imgs ++ [g0]) i j g g') in E as [-> ->]; [done..|].
           by apply lookup_app_l_Some.
    + intros k Hk. by rewrite lookup_insert_ne.
    + intros _. by rewrite lookup_insert_eq.
  - destruct Hw as [-> Ewk]. exists m. split; [|done]. exists imgs. split; [done|]. by rewrite Es, Ep, Ewk.
Qed.

(** A write that fails leaves every page alone, its own included. *)
Lemma store_write_failed st m key source st' e :
  store_repr st m → store_write_page key source st = (st', Err e) → store_repr st' m.
Proof.
  intros (imgs & Hinv & Hm). unfold store_write_page. destruct (write_image key source st) as [st1 w] eqn:Ew.
  apply (write_image_inv _ _ _ _ _ _ Hinv) in Ew as (Es & Ep & _ & imgs' & Hinv' & _ & Hw).
  destruct w as [loc|x]; [done|]. intros [= <- _]. destruct Hw as [-> Ewk]. exists imgs. split; [done|]. by rewrite Es, Ep, Ewk.
Qed.

(** Without faults a page that is there is read. *)
Lemma store_read_succeeds st m key page dest :
  store_repr st m → m !! key = Some page → fs_faults (ps_fs st) = [] → ps_poisoned st = false →
  is_u64 (pk_object key) → is_u64 (pk_page key) → len dest = ps_page_bytes st →
  store_read_page key dest st = (st, page, Ok tt).
Proof.
  intros (imgs & Hinv & Hm) (i & g & Hi & <- & Hloc)%Hm Hn Hp H1 H2 Hd. unfold store_read_page, placement.
  rewrite Hp, Hloc. cbn [ok_or location_of il_offset]. rewrite (image_read_frame_ok st imgs i g) by done.
  destruct (pi_working _ _ Hinv _ _ Hloc) as (j & g' & Hj & Hk & E).
  apply (location_of_inj _ _ imgs i j g g') in E as [-> ->]; [|apply (pi_page_bytes _ _ Hinv)|done..].
  cbn [metadata_of image_metadata im_key]. rewrite Hk, norm_key_u64, bool_decide_eq_true_2 by done. cbn [negb].
  destruct (pi_imgs _ _ Hinv _ _ Hi) as (_ & Hl & _).
  by rewrite (proj2 (copy_payload_Ok (g_page g') dest (g_page g'))) by (unfold len in *; split; [done|lia]).
Qed.

(** ** Histories of page operations *)
Inductive DeviceOp :=
| DWrite (key : PageKey) (source : bytes)
| DRead (key : PageKey) (destination : bytes)
| DDependency (o : DepOp).

(** The state after the operations, and the last page written to each key. *)
Fixpoint device_run (ops : list DeviceOp) st (m : gmap PageKey bytes) : PersistentPageIo * gmap PageKey bytes :=
  match ops with
  | [] => (st, m)
  | DWrite key source :: ops' =>
      match store_write_page key source st with
      | (st', Ok _) => device_run ops' st' (<[key := source]> m)
      | (st', Err _) => device_run ops' st' m
      end
  | DRead key dest :: ops' => device_run ops' (store_read_page key dest st).1.1 m
  | DDependency o :: ops' => device_run ops' (with_dependencies (dep_exec o (ps_dependencies st)) st) m
  end.

Lemma device_run_repr ops : ∀ st m st' m',
  store_repr st m → device_run ops st m = (st', m') →
  store_repr st' m' ∧ ps_page_bytes st' = ps_page_bytes st.
Proof.
  induction ops as [|[key source|key dest|o] ops IH]; intros st m st' m' Hr; cbn [device_run].
  - by intros [= <- <-].
  - destruct (store_write_page key source st) as [st1 w] eqn:Ew.
    assert (ps_page_bytes st1 = ps_page_bytes st) as Ep.
    { destruct Hr as (imgs & Hinv & _). unfold store_write_page in Ew.
      destruct (write_image key source st) as [st2 x] eqn:E. injection Ew as <- _.
      by apply (write_image_inv _ _ _ _ _ _ Hinv) in E as (_ & ? & _). }
    destruct w as [[]|e]; intros E; rewrite <-Ep.
    + apply (store_write_repr _ _ _ _ _ _ Hr) in Ew as (m1 & Hr1 & Hne & Heq).
      replace (<[key := source]> m) with m1 in E; [by eapply IH|]. apply map_eq. intros k.
      destruct (decide (key = k)) as [<-|Hk]; [by rewrite lookup_insert_eq, Heq|by rewrite lookup_insert_ne, Hne].
    + eapply IH; [by eapply store_write_failed|done].
  - destruct (store_read_page key dest st) as [[st1 d1] w] eqn:Er. cbn [fst]. intros E.
    pose proof Er as ((fs & -> & _) & _)%store_read_page_cases. apply (store_read_repr _ _ _ _ _ _ _ Hr) in Er as [Hr1 _].
    by apply (IH _ _ _ _ Hr1) in E.
  - intros E. apply (IH _ _ _ _) in E; [done|]. destruct Hr as (imgs & Hinv & Hm). exists imgs. split; [|done]. by eapply ps_inv_same.
Qed.

(** C9. The page store is a page map: after any reads, writes and dependency
    changes on a new store, with any faults of the device on the way, a page read
    that succeeds returns what was last written under that key, a key never
    written is not read, and once the device works again every page written is
    read back. *)
Theorem page_store_is_a_page_map incarnation pb fs0 fs1 st0 ops st m key dest :
  wf_incarnation incarnation → is_u32 pb → page_store_create incarnation pb fs0 = (fs1, Ok st0) →
  device_run ops st0 ∅ = (st, m) →
  (∀ st' dest', store_read_page key dest st = (st', dest', Ok tt) → m !! key = Some dest') ∧
  (∀ page, m !! key = Some page → fs_faults (ps_fs st) = [] → ps_poisoned st = false →
     is_u64 (pk_object key) → is_u64 (pk_page key) → len dest = pb → store_read_page key dest st = (st, page, Ok tt)).
Proof.
  intros Hi Hpb (I0 & _ & <- & _)%page_store_create_inv Hrun; [|done..].
  assert (store_repr st0 ∅) as R0.
  { exists []. split; [done|]. intros k page. rewrite lookup_empty. split; [done|].
    intros (i & g & Hg & _). by rewrite lookup_nil in Hg. }
  destruct (device_run_repr _ _ _ _ _ R0 Hrun) as [Hr Ep]. split.
  - intros st' dest' E. apply (store_read_repr _ _ _ _ _ _ _ Hr) in E as (_ & _ & Hd). by apply Hd.
  - intros page Hp Hn Hpo H1 H2 Hd. eapply store_read_succeeds; try done. by rewrite Ep.
Qed.

#[global] Instance store_io_laws : PageIoLaws PersistentPageIo :=
  {| io_repr := store_repr; io_read_repr := store_read_repr; io_write_repr := store_write_repr |}.
End spec.

(** ** A write refused by the gate, one that fails and one that succeeds *)
Definition device_demo_crc : Crc32c := castagnoli_crc.
#[local] Existing Instance device_demo_crc.
Definition device_demo_hasher : PageHasher := λ k, pk_page k.
#[local] Existing Instance device_demo_hasher.

Definition device_demo_store : bytes := replicate 16 (u8 7).
Definition device_demo_key : PageKey := {| pk_object := 3; pk_page := 1 |}.
Definition device_demo_disk : Fs := {| fs_files := []; fs_faults := replicate 6 None ++ [Some 0%nat; None] |}.
Definition device_demo_new : PersistentPageIo :=
  match (page_store_create device_demo_store 4 device_demo_disk).2 with
  | Ok st => st
  | Err _ =>
      {| ps_store := []; ps_page_bytes := 0; ps_dependencies := DependencyTable_new; ps_end_offset := 0;
         ps_working := []; ps_fenced := true; ps_poisoned := true; ps_fs := device_demo_disk |}
  end.

(** The second write waits for the log, the third one fails at its seek. *)
Definition device_demo_ops : list DeviceOp :=
  [DWrite device_demo_key (replicate 4 (u8 1));
   DDependency (DMerge device_demo_key {| pd_required_wal := 9; pd_required_undo := None |});
   DWrite device_demo_key (replicate 4 (u8 2)); DDependency (DAdvanceWal 9);
   DWrite device_demo_key (replicate 4 (u8 3)); DRead device_demo_key (replicate 4 (u8 0))].
Definition device_demo_end : PersistentPageIo * gmap PageKey bytes := device_run device_demo_ops device_demo_new ∅.

Lemma page_store_is_a_page_map_witness :
  ps_fenced device_demo_end.1 = true ∧
  store_read_page device_demo_key (replicate 4 (u8 0)) device_demo_end.1 =
    (device_demo_end.1, replicate 4 (u8 1), Ok tt).
Proof.
  split; [vm_compute; reflexivity|].
  destruct (page_store_is_a_page_map device_demo_store 4 device_demo_disk
              (page_store_create device_demo_store 4 device_demo_disk).1 device_demo_new device_demo_ops
              device_demo_end.1 device_demo_end.2 device_demo_key (replicate 4 (u8 0))) as [_ Hread].
  - by split.
  - by split.
  - rewrite (surjective_pairing (page_store_create _ _ _)) at 1. apply pair_equal_spec.
    split; [reflexivity|vm_compute; reflexivity].
  - exact (surjective_pairing device_demo_end).
  - apply Hread; [vm_compute; reflexivity|vm_compute; reflexivity|vm_compute; reflexivity|by split|by split|reflexivity].
Defined.
