(* ===== verification/PageRecovery.v ===== *)
(** * Published maps survive

    Publication, crashes and reopening of the page store.  A placement map that
    [write_map] returned names images that were complete, synchronized and covered
    by the durable frontiers; no later operation, crash or reopening changes the
    map file or those images, and [open] from its reference restores them. *)
From stdpp Require Import strings.
From S2P Require Import Prelude StdCollections Ids Crc Store Fs Shards PageIo PageDependency PageImage PageMapFile PageStore PageArena PageStoreSpec.

Local Open Scope Z_scope.
Local Open Scope seer_scope.

Section recovery.
Context `{Crc32c} `{PageHasher}.
Implicit Types (st : PersistentPageIo) (fs : Fs) (imgs : list Img).

(** ** Changes that leave the arena's bytes alone *)
Definition same_arena fs fs' : Prop :=
  ∃ f f', BTreeMap.get IMAGE_FILE (fs_files fs) = Some f ∧ BTreeMap.get IMAGE_FILE (fs_files fs') = Some f' ∧
    f_bytes f' = f_bytes f ∧ (f_synced f' = f_synced f ∨ f_synced f' = length (f_bytes f)).

Lemma same_arena_trans fs1 fs2 fs3 : same_arena fs1 fs2 → same_arena fs2 fs3 → same_arena fs1 fs3.
Proof.
  intros (f & f' & H1 & H2 & H3 & H4) (x & y & G1 & G2 & G3 & G4). replace x with f' in * by congruence.
  exists f, y. rewrite G3, H3. split_and!; [done..|]. rewrite H3 in G4. destruct G4, H4; (left + right); congruence.
Qed.

Lemma files_kept_trans fs1 fs2 fs3 : files_kept fs1 fs2 → files_kept fs2 fs3 → files_kept fs1 fs3.
Proof. intros F1 F2 id f Hid Hg Hs Hs0. by apply F2; [|apply F1|..]. Qed.

(** What [write_map] may do to the files, whatever its outcome. *)
Definition harmless fs fs' : Prop := same_arena fs fs' ∧ files_kept fs fs'.

Lemma harmless_trans fs1 fs2 fs3 : harmless fs1 fs2 → harmless fs2 fs3 → harmless fs1 fs3.
Proof. intros [A1 F1] [A2 F2]. split; [by eapply same_arena_trans|by eapply files_kept_trans]. Qed.

Lemma harmless_files fs fs' f :
  BTreeMap.get IMAGE_FILE (fs_files fs) = Some f → fs_files fs' = fs_files fs → harmless fs fs'.
Proof.
  intros Hf E. split.
  - exists f, f. rewrite E. split_and!; [done..|by left].
  - intros id x Hid Hg _ _. by rewrite E.
Qed.

(** A harmless change keeps the invariant, fenced or not. *)
Lemma harmless_inv st imgs fs :
  ps_inv st imgs → harmless (ps_fs st) fs →
  ps_inv (with_fs fs st) imgs ∧ ps_inv (ps_fence (with_fs fs st)) imgs ∧
  extends (ps_page_bytes st) (ps_fs st) imgs fs imgs.
Proof.
  intros Hinv [(f & f' & Hf & Hf' & Hb & Hs) Hk].
  pose proof Hinv as [I1 [I2 I2'] I3 I4 (x & tail & Hx & Hxb & Hxs & Ht) I6]. replace x with f in * by congruence.
  pose proof (length_arena _ _ I1 imgs I3) as Hl.
  assert (slot_offset (ps_page_bytes st) (length imgs) ≤ Z.of_nat (length (f_bytes f))) as Hle.
  { rewrite Hxb, length_app. lia. }
  assert (0 < 84 + ps_page_bytes st) as Hp by ps_lia.
  assert (40 ≤ f_synced f')%nat as Hs' by (unfold slot_offset in Hle; destruct Hs as [->| ->]; nia).
  split_and!.
  - split; cbn; try done. exists f', tail. rewrite Hb. by split_and!.
  - split; cbn; try done. exists f', tail. rewrite Hb. split_and!; try done. destruct Ht as [?|[_ ?]]; auto.
  - split; [done|]. intros k Hk' (y & Hy & Hd). replace y with f in Hd by congruence. split_and!; [|done..].
    exists f'. split; [done|]. destruct Hs as [->| ->]; [done|]. unfold slot_offset in *. nia.
Qed.

(** ** Publishing a map *)
Lemma select_entries_cases store pb imgs tail f t es :
  wf_incarnation store → is_u32 pb → pb ≠ 0 → wf_imgs store pb imgs → f_bytes f = arena store pb imgs ++ tail →
  ∀ previous placements selected fs fs' r,
  BTreeMap.get IMAGE_FILE (fs_files fs) = Some f →
  select_entries store pb (84 + pb) (slot_offset pb (length imgs)) t previous placements selected es fs = (fs', r) →
  fs_files fs' = fs_files fs ∧
  ∀ out, r = Ok out → out = insert_all es selected ∧
    Forall (λ e, ∃ i g, imgs !! i = Some g ∧ e = entry_of store pb i g ∧ frontiers_cover t (g_deps g) = true) es.
Proof.
  intros Hs Hp Hp0 Hw Hb. induction es as [|e es IH]; intros previous placements selected fs fs' r Hf; cbn [select_entries].
  { intros [= <- <-]. split; [done|]. by intros out [= <-]. }
  destruct (not_increasing _ _); [by intros [= <- <-]|]. destruct (bool_decide _); [by intros [= <- <-]|].
  destruct (check_reference _ _ _ _ _ _ e fs) as [fs1 [md|err]] eqn:Ec;
    eapply (check_reference_cases store pb Hs Hp Hp0 imgs tail f) in Ec as [E1 Hmd]; try done; [|by intros [= <- <-]].
  destruct (Hmd md eq_refl) as (i & g & Hi & He & ->). cbn [metadata_of image_metadata im_dependencies].
  destruct (frontiers_cover t (g_deps g)) eqn:Ef; cbn [negb]; [|by intros [= <- <-]].
  intros E. apply IH in E as [E2 Hout]; [|by rewrite E1]. split; [congruence|]. intros out Hr.
  destruct (Hout out Hr) as [-> Hall]. split; [done|]. constructor; [by exists i, g|done].
Qed.

Lemma persist_map_cases id bs fs fs' r f :
  BTreeMap.get id (fs_files fs) = Some f → f_bytes f = [] → persist_map id bs fs = (fs', r) →
  (∀ k, k ≠ id → BTreeMap.get k (fs_files fs') = BTreeMap.get k (fs_files fs)) ∧
  (r = Ok tt → BTreeMap.get id (fs_files fs') = Some {| f_bytes := bs; f_synced := length bs |}).
Proof.
  intros Hf He. unfold persist_map, fs_sync_dir.
  destruct (fs_write_at id 0 bs fs) as [fs1 w] eqn:E1. eapply fs_write_at_cases in E1 as (wr & F1 & Hw); [|done].
  rewrite He, (splice_end []), app_nil_l in F1.
  assert (∀ k, k ≠ id → BTreeMap.get k (fs_files fs1) = BTreeMap.get k (fs_files fs)) as O1.
  { intros k Hk. by rewrite F1, BTreeMap.get_insert_ne. }
  destruct w as [[]|e]; [|by intros [= <- <-]]. destruct Hw as [[_ ->]|[? _]]; [|done].
  destruct (fs_sync_file id fs1) as [fs2 s] eqn:E2. apply fs_sync_file_cases in E2.
  destruct E2 as [[F2 Hs]|(-> & f2 & Hf2 & F2)]; [destruct s; [done|]; intros [= <- <-]; by rewrite F2|].
  rewrite F1, BTreeMap.get_insert_eq in Hf2. injection Hf2 as <-. cbn [f_bytes] in F2. intros E3%fs_check_files.
  rewrite E3, F2, BTreeMap.get_insert_eq. split; [|done]. intros k Hk. by rewrite BTreeMap.get_insert_ne, O1.
Qed.

(** A map file on disk, and the images it names. *)
Record published (store : bytes) (pb : Z) fs imgs (id : Z) (es : list PageMapEntry) (k : nat) : Prop := {
  pu_wf : wf_map id store pb (slot_offset pb k) es;
  pu_file : let bs := map_file id store pb (slot_offset pb k) es in
    BTreeMap.get id (fs_files fs) = Some {| f_bytes := bs; f_synced := length bs |};
  pu_count : (k ≤ length imgs)%nat;
  pu_durable : durable pb fs k;
  pu_entries : Forall (λ e, ∃ i g, (i < k)%nat ∧ imgs !! i = Some g ∧ e = entry_of store pb i g) es
}.

Lemma published_lookup store pb fs imgs fs' imgs' id es k i :
  published store pb fs imgs id es k → extends pb fs imgs fs' imgs' → (i < k)%nat → imgs' !! i = imgs !! i.
Proof.
  intros [_ _ P3 P4 _] [_ Hext] Hi. destruct (Hext k P3 P4) as (_ & _ & Ht).
  by rewrite <-(lookup_take_lt imgs' k i), Ht, lookup_take_lt.
Qed.

Lemma published_extends store pb fs imgs fs' imgs' id es k :
  published store pb fs imgs id es k → extends pb fs imgs fs' imgs' → published store pb fs' imgs' id es k.
Proof.
  intros Hp He. pose proof (λ i, published_lookup _ _ _ _ _ _ _ _ _ i Hp He) as Hl.
  destruct Hp as [P1 P2 P3 P4 P5], He as [Hkept Hext]. destruct (Hext k P3 P4) as (Hd & Hk & Ht). pose proof P1 as [[_ Hid] [Hs _] _ _ _ _ _].
  split; try done.
  - by apply Hkept.
  - eapply Forall_impl; [exact P5|]. intros e (i & g & Hi & Hg & He). exists i, g. split_and!; try done.
    by rewrite Hl.
Qed.

Lemma sync_harmless fs fs' r f :
  BTreeMap.get IMAGE_FILE (fs_files fs) = Some f → fs_sync_file IMAGE_FILE fs = (fs', r) →
  harmless fs fs' ∧ (r = Ok tt → BTreeMap.get IMAGE_FILE (fs_files fs') =
    Some {| f_bytes := f_bytes f; f_synced := length (f_bytes f) |}).
Proof.
  intros Hf [[F E]|(-> & f' & Hf' & F)]%fs_sync_file_cases.
  - split; [by eapply harmless_files|by intros ->].
  - replace f' with f in * by congruence. rewrite F, BTreeMap.get_insert_eq. split; [|done]. split.
    + eexists f, _. rewrite F, BTreeMap.get_insert_eq. split_and!; [done..|by right].
    + intros id x Hid Hg _ _. by rewrite F, BTreeMap.get_insert_ne.
Qed.

(** The files other than a new one are as before. *)
Lemma new_file_harmless fs fs' id f :
  BTreeMap.get IMAGE_FILE (fs_files fs) = Some f → BTreeMap.get id (fs_files fs) = None →
  (∀ k, k ≠ id → BTreeMap.get k (fs_files fs') = BTreeMap.get k (fs_files fs)) → harmless fs fs'.
Proof.
  intros Hf Hid Ho. split.
  - exists f, f. rewrite Ho by congruence. split_and!; [done..|by left].
  - intros k x Hk Hg _ _. rewrite Ho by congruence. done.
Qed.

(** The end of the arena stays a [u64]. *)
Lemma slot_end_u64 store pb imgs : is_u32 pb → wf_imgs store pb imgs → is_u64 (slot_offset pb (length imgs)).
Proof.
  intros Hp Hw. destruct imgs as [|g imgs _] using rev_ind; [unfold slot_offset; cbn; ps_lia|].
  apply wf_imgs_snoc in Hw as [_ (_ & _ & Hlt)]. rewrite length_app. unfold slot_offset in *. cbn [length]. ps_lia.
Qed.

Lemma entry_of_wf store pb i g : wf_img store pb i g → wf_entry (entry_of store pb i g).
Proof.
  intros ([_ Ho Hp Hof _ _ _] & _ & _). unfold wf_entry. cbn [entry_of me_key me_image location_of il_offset il_checksum].
  split_and!; [done..|apply crc32c_u32].
Qed.

Lemma new_published store pb fs imgs id es f :
  wf_incarnation store → is_u32 pb → pb ≠ 0 → wf_imgs store pb imgs → is_u64 id → id ≠ 0 →
  valid_from None [] es → 68 + 32 * len es ≤ U64_MAX →
  BTreeMap.get IMAGE_FILE (fs_files fs) = Some f → Z.of_nat (f_synced f) = Z.of_nat (length (arena store pb imgs)) →
  (let bs := map_file id store pb (slot_offset pb (length imgs)) es in
   BTreeMap.get id (fs_files fs) = Some {| f_bytes := bs; f_synced := length bs |}) →
  Forall (λ e, ∃ i g, imgs !! i = Some g ∧ e = entry_of store pb i g) es →
  published store pb fs imgs id es (length imgs).
Proof.
  intros Hs Hp Hp0 Hw Hid Hid0 Hv Hl Hf Hsy Hm Hes. split; try done.
  - split; try done; [by eapply slot_end_u64|]. eapply Forall_impl; [exact Hes|]. intros e (i & g & Hi & ->).
    by apply entry_of_wf, Hw.
  - exists f. split; [done|]. rewrite Hsy, (length_arena _ _ Hs) by done. lia.
  - eapply Forall_impl; [exact Hes|]. intros e (i & g & Hi & ->). exists i, g. split; [by eapply lookup_lt_Some|done].
Qed.

(** What a successful [write_map] leaves behind. *)
Definition publishes st imgs st' (id : Z) (es : list PageMapEntry) (m : PageMap) : Prop :=
  m = the_map id (ps_store st) (ps_page_bytes st) (ps_end_offset st) es ∧
  published (ps_store st) (ps_page_bytes st) (ps_fs st') imgs id es (length imgs) ∧
  Forall (λ e, ∃ i g, imgs !! i = Some g ∧ e = entry_of (ps_store st) (ps_page_bytes st) i g ∧
            frontiers_cover (ps_dependencies st) (g_deps g) = true) es.

Lemma write_map_inv id es st imgs st' r :
  ps_inv st imgs → write_map id es st = (st', r) →
  ps_store st' = ps_store st ∧ ps_page_bytes st' = ps_page_bytes st ∧ ps_inv st' imgs ∧
  extends (ps_page_bytes st) (ps_fs st) imgs (ps_fs st') imgs ∧
  ∀ m, r = Ok m → is_u64 id → id ≠ 0 → publishes st imgs st' id es m.
Proof.
  intros Hinv Hw. pose proof Hinv as [I1 [I2 I2'] I3 I4 (f & tail & Hf & Hb & Hs & Ht) I6].
  set (P := λ s : PersistentPageIo, ps_store s = ps_store st ∧ ps_page_bytes s = ps_page_bytes st ∧ ps_inv s imgs ∧
    extends (ps_page_bytes st) (ps_fs st) imgs (ps_fs s) imgs).
  assert (P st) as P0 by (split_and!; [done..|by apply extends_same]).
  assert (∀ fs, harmless (ps_fs st) fs → P (with_fs fs st) ∧ P (ps_fence (with_fs fs st))) as Pfs.
  { intros fs (? & ? & ?)%(harmless_inv st imgs); [|done]. by split. }
  enough (P st' ∧ ∀ m, r = Ok m → is_u64 id → id ≠ 0 → publishes st imgs st' id es m) by (unfold P in *; naive_solver).
  revert Hw. unfold write_map. destruct (ps_poisoned st); [by intros [= <- <-]|]. destruct (ps_fenced st) eqn:Efe; [by intros [= <- <-]|].
  destruct Ht as [->|[? _]]; [|congruence].
  rewrite page_image_bytes_u32 by done. rewrite I4.
  destruct (select_entries _ _ _ _ _ _ _ _ _ _) as [fs1 sel] eqn:Esel.
  eapply (select_entries_cases _ _ imgs [] f) in Esel as [F1 Hsel]; try done.
  pose proof (harmless_files _ fs1 f Hf F1) as G1. destruct sel as [selected|e].
  2:{ intros [= <- <-]. by split; [apply Pfs|]. }
  destruct (Hsel selected eq_refl) as [-> Hes]. clear Hsel.
  destruct (fs_sync_file IMAGE_FILE fs1) as [fs2 sy] eqn:Esy.
  eapply sync_harmless in Esy as [G2 Hf2]; [|by rewrite F1]. pose proof (harmless_trans _ _ _ G1 G2) as G12.
  destruct sy as [[]|e]; [|intros [= <- <-]; by split; [apply Pfs|]]. specialize (Hf2 eq_refl).
  destruct (encode_map _ _ _ _ _) as [[bs reference]|e] eqn:Een; [|intros [= <- <-]; by split; [apply Pfs|]].
  apply encode_map_Ok in Een as (Hv & Hlen & -> & ->); [|done].
  destruct (fs_create_new id fs2) as [fs3 cr] eqn:Ecr. apply fs_create_new_cases in Ecr.
  destruct Ecr as [[F3 Hcr]|(-> & Hnone & F3)].
  { assert (harmless (ps_fs st) fs3) as G3 by (eapply harmless_trans; [exact G12|by eapply harmless_files]).
    destruct cr as [[]|x]; [done|]. destruct x; intros [= <- <-]; by split; [apply Pfs|]. }
  destruct (persist_map id _ fs3) as [fs4 pe] eqn:Epe.
  eapply persist_map_cases in Epe as [Ho Hok]; [|rewrite F3; apply BTreeMap.get_insert_eq|done].
  assert (harmless (ps_fs st) fs4) as G4.
  { eapply harmless_trans; [exact G12|]. eapply new_file_harmless; [exact Hf2|exact Hnone|].
    intros k Hk. by rewrite Ho, F3, BTreeMap.get_insert_ne. }
  destruct pe as [[]|e]; intros [= <- <-]; (split; [by apply Pfs|]); [|done]. specialize (Hok eq_refl).
  intros m [= <-] Hid Hid0. split_and!.
  - unfold the_map. rewrite I4. f_equal. rewrite (insert_all_sorted es None []) by done. done.
  - eapply new_published; try done.
    + cbn [ps_fs with_fs]. rewrite Ho, F3, BTreeMap.get_insert_ne by congruence. exact Hf2.
    + cbn. by rewrite Hb, app_nil_r.
    + eapply Forall_impl; [exact Hes|]. intros e (i & g & Hi & He & _). eauto.
  - done.
Qed.
(** ** Crashes *)
Lemma crash_files_kept fs fs' : fs_crash fs fs' → files_kept fs fs'.
Proof.
  intros [Hc _] id f _ Hg Hs Hs0. destruct (files_crash_get _ _ _ _ Hc Hg Hs0) as (f' & Hf' & n & Hn & Hb & Hs').
  rewrite Hf'. destruct f, f'. cbn in *. rewrite take_ge in Hb by lia. by subst.
Qed.

(** Whatever the tail, the arena's file is a prefix of some arena. *)
Lemma arena_prefix st imgs :
  ps_inv st imgs →
  ∃ f more c, BTreeMap.get IMAGE_FILE (fs_files (ps_fs st)) = Some f ∧ (40 ≤ f_synced f)%nat ∧
    wf_imgs (ps_store st) (ps_page_bytes st) (imgs ++ more) ∧
    f_bytes f = take c (arena (ps_store st) (ps_page_bytes st) (imgs ++ more)) ∧
    (length (arena (ps_store st) (ps_page_bytes st) imgs) ≤ c)%nat.
Proof.
  intros [I1 [I2 I2'] I3 I4 (f & tail & Hf & Hb & Hs & Ht) I6]. exists f. destruct Ht as [->|(_ & g & m & Hg & ->)].
  - exists [], (length (arena (ps_store st) (ps_page_bytes st) imgs)). rewrite app_nil_r, firstn_all.
    rewrite app_nil_r in Hb. by split_and!.
  - exists [g], (length (arena (ps_store st) (ps_page_bytes st) imgs) + m)%nat. rewrite arena_snoc.
    split_and!; try done; [by apply wf_imgs_snoc| |lia]. rewrite take_app_ge by lia. rewrite Hb. do 2 f_equal. lia.
Qed.

(** A cut past the first [j] images leaves them. *)
Lemma cut_count store pb all c k tail j :
  wf_incarnation store → is_u32 pb → wf_imgs store pb all → (j ≤ length all)%nat → slot_offset pb j ≤ Z.of_nat c →
  take c (arena store pb all) = arena store pb (take k all) ++ tail →
  (k = length all ∧ tail = [] ∨ ∃ g m, all !! k = Some g ∧ tail = take m (frame_of store pb k g) ∧
    (m < length (frame_of store pb k g))%nat) →
  (j ≤ k)%nat.
Proof.
  intros Hs Hp Hw Hj Hc Hcut [[-> _]|(g & m & Hg & -> & Hm)]; [done|].
  pose proof (lookup_lt_Some _ _ _ Hg) as Hlt. pose proof (length_frame store pb Hs _ _ (Hw _ _ Hg)) as Hl.
  apply (f_equal length) in Hcut. rewrite length_app, !length_take in Hcut.
  pose proof (length_arena store pb Hs _ Hw) as L1. pose proof (length_arena store pb Hs _ (wf_imgs_take _ _ k _ Hw)) as L2.
  rewrite length_take_le in L2 by lia. pose proof (slot_offset_mono pb j _ Hp Hj).
  destruct (decide (j ≤ k)%nat) as [|Hn]; [done|].
  pose proof (slot_offset_mono pb (S k) j Hp ltac:(lia)) as Hsk. rewrite slot_offset_S in Hsk. lia.
Qed.

Lemma crash_inv st imgs fs :
  ps_inv st imgs → fs_crash (ps_fs st) fs →
  let store := ps_store st in let pb := ps_page_bytes st in
  ∃ imgs' f tail, wf_imgs store pb imgs' ∧ BTreeMap.get IMAGE_FILE (fs_files fs) = Some f ∧
    f_bytes f = arena store pb imgs' ++ tail ∧ torn store pb imgs' tail ∧ (40 ≤ f_synced f)%nat ∧
    extends pb (ps_fs st) imgs fs imgs'.
Proof.
  intros Hinv Hc store pb. pose proof Hinv as [I1 [I2 I2'] I3 _ _ _].
  destruct (arena_prefix st imgs Hinv) as (f & more & c & Hf & Hs & Hw & Hb & Hlc). fold store pb in Hw, Hb, Hlc, I1, I2, I2', I3.
  destruct (files_crash_get _ _ _ _ (proj1 Hc) Hf) as (f' & Hf' & n & Hn & Hb' & Hs'); [lia|].
  rewrite Hb, take_take in Hb'. pose proof (length_arena store pb I1 imgs I3) as Hla.
  assert (0 < 84 + pb) as Hp by ps_lia.
  assert (40 ≤ Nat.min n c)%nat as Hnc by (unfold slot_offset in Hla; nia).
  destruct (arena_cut store pb I1 I2 I2' (imgs ++ more) (Nat.min n c) Hw Hnc) as (k & tail & Hcut & Hk).
  pose proof (wf_imgs_take store pb k _ Hw) as Hwk.
  exists (take k (imgs ++ more)), f', tail. split_and!; try done; [congruence| |lia|].
  - destruct Hk as [[_ ->]|(g & m & Hg & Htl & Hm)]; [by left|]. pose proof (lookup_lt_Some _ _ _ Hg) as Hlt.
    destruct (decide (m = 0%nat)) as [->|Hm0]; [left; by rewrite Htl|]. right. exists g, m.
    rewrite length_take_le by lia. split_and!; [by apply Hw|done|lia|done].
  - split; [by apply crash_files_kept|]. intros j Hj (x & Hx & Hd). replace x with f in Hd by congruence.
    assert (j ≤ k)%nat as Hjk.
    { apply (cut_count store pb (imgs ++ more) (Nat.min n c) k tail j); try done; [rewrite length_app; lia|].
      pose proof (slot_offset_mono pb j _ I2 Hj). lia. }
    split_and!.
    + exists f'. by rewrite Hs'.
    + rewrite length_take, length_app. lia.
    + rewrite take_take, Nat.min_l by lia. by rewrite take_app_le.
Qed.
(** A new table takes every requirement. *)
Lemma restore_dependencies_ok store pb imgs f fs (restored : list (PageKey * ImageLocation)) : ∀ t,
  wf_incarnation store → pb ≠ 0 → wf_imgs store pb imgs → f_bytes f = arena store pb imgs →
  BTreeMap.get IMAGE_FILE (fs_files fs) = Some f → fs_faults fs = [] →
  Forall (λ p, ∃ i g, imgs !! i = Some g ∧ p = (g_key g, location_of store pb i g)) restored →
  table_wf (pt_shards t) → no_poison (pt_shards t) →
  ∃ t', restore_dependencies store pb (84 + pb) restored t fs = (fs, Ok t').
Proof.
  induction restored as [|[key loc] restored IH]; intros t Hs Hp0 Himgs Hbytes Hf Hn Hr Hw Hnp;
    cbn [restore_dependencies]; [by eexists|].
  apply Forall_cons in Hr as [(i & g & Hi & [= -> ->]) Hr]. cbn [location_of il_offset].
  rewrite (read_at_ok _ _ _ f (frame_of store pb i g)); [|done|apply (Himgs _ _ Hi)|done|rewrite Hbytes, <-(app_nil_r (arena _ _ _)); by apply slice_arena].
  rewrite (decode_slot _ _ i g (Himgs _ _ Hi)). cbn [fst].
  unfold dependency_merge. rewrite shard_lock_no_poison by done. cbn [map_err].
  apply IH; [done..|by apply shard_store_wf|by apply shard_store_no_poison].
Qed.

(** ** Reopening

    On a device without faults, over an arena that a crash may have torn. *)
Section open.
Variables (store : bytes) (pb : Z) (imgs : list Img) (tail : bytes) (f : File) (fs : Fs).
Hypothesis Hstore : wf_incarnation store.
Hypothesis Hpb : is_u32 pb.
Hypothesis Hpb0 : pb ≠ 0.
Hypothesis Himgs : wf_imgs store pb imgs.
Hypothesis Hf : BTreeMap.get IMAGE_FILE (fs_files fs) = Some f.
Hypothesis Hbytes : f_bytes f = arena store pb imgs ++ tail.
Hypothesis Htorn : torn store pb imgs tail.
Hypothesis Hn : fs_faults fs = [].

Lemma fs_read_quiet k :
  fs_read k fs = (fs, match BTreeMap.get k (fs_files fs) with Some x => Ok (f_bytes x) | None => Err NotFound end).
Proof. unfold fs_read. rewrite fs_check_ok by done. by destruct (BTreeMap.get k (fs_files fs)). Qed.

Lemma read_exact_file_quiet k n :
  read_exact_file k n fs =
    (fs, match BTreeMap.get k (fs_files fs) with
         | None => Err (PsIo OpOpen NotFound)
         | Some x => if len (f_bytes x) =? n then Ok (f_bytes x)
                     else Err (PsCorruption "page-map file length does not match its reference")
         end).
Proof.
  unfold read_exact_file, ps_io, fs_open, fs_len, read_exact, BTreeMap.contains_key.
  rewrite fs_check_ok by done. destruct (BTreeMap.get k (fs_files fs)) as [x|] eqn:E; cbn [fst snd map_err]; [|done].
  rewrite !fs_read_quiet, E. cbn [fst snd map_err]. destruct (len (f_bytes x) =? n) eqn:En; bool_to_prop; cbn [negb]; [|done].
  rewrite fs_read_quiet, E. rewrite slice_all; [done|done|]. unfold len in En. lia.
Qed.

(** The part of [open] before the scan, with the map's file still to be read. *)
Lemma open_arena_quiet sel :
  open_arena store sel fs =
    (fs, let? bs := (read_exact_file (pr_id sel) (pr_file_bytes sel) fs).2 in
         let? m := decode_map bs sel store in
         if negb (pb =? pm_page_bytes m) then Err (PsCorruption "page-image arena page size mismatch")
         else Ok (m, len (f_bytes f))).
Proof.
  unfold open_arena. rewrite read_exact_file_quiet. cbn [snd].
  destruct (BTreeMap.get (pr_id sel) (fs_files fs)) as [x|]; [|done]. destruct (len (f_bytes x) =? _); [|done].
  destruct (decode_map (f_bytes x) sel store) as [m|e]; [|done].
  unfold ps_io, fs_open, fs_len, read_exact, BTreeMap.contains_key. rewrite fs_check_ok, Hf by done. cbn [fst snd map_err].
  rewrite fs_read_quiet, Hf. cbn [fst snd map_err]. rewrite fs_read_quiet, Hf. cbn [fst snd map_err]. 
  assert (slice (f_bytes f) 0 IMAGE_FILE_HEADER_SIZE = Some (encode_file_header store pb)) as ->.
  { rewrite Hbytes. unfold arena. rewrite <-app_assoc. apply slice_app_here; [done|].
    by rewrite length_file_header by apply Hstore. }
  cbn [fst snd map_err].
  rewrite <-(app_nil_r (encode_file_header _ _)). rewrite decode_file_header_encode by done. cbn [fh_store fh_page_bytes].
  rewrite bool_decide_eq_true_2 by done. cbn [negb]. by destruct (pb =? pm_page_bytes m).
Qed.

(** A loop over the entries only reads. *)
Lemma check_reference_quiet e1 e2 slot end_offset entry : (check_reference e1 e2 store pb slot end_offset entry fs).1 = fs.
Proof.
  unfold check_reference, read_at, seek, ps_io, read_exact. rewrite fs_check_ok by done.
  destruct (negb _); [done|]. destruct (_ <? _); [done|]. destruct (_ <? _); [|done]. cbn [fst snd map_err].
  rewrite fs_read_quiet, Hf. destruct (slice _ _ _); [|done]. cbn [fst snd map_err].
  destruct (decode_image _ _ _); [|done]. by repeat case_match.
Qed.

Lemma restore_entries_quiet es : ∀ restored fs' r,
  restore_entries store pb (84 + pb) (slot_offset pb (length imgs)) es restored fs = (fs', r) →
  fs' = fs ∧ ∀ out, r = Ok out → out = insert_all es restored ∧
    Forall (λ e, ∃ i g, imgs !! i = Some g ∧ e = entry_of store pb i g) es.
Proof.
  induction es as [|e es IH]; intros restored fs' r; cbn [restore_entries].
  { intros [= <- <-]. split; [done|]. by intros out [= <-]. }
  destruct (check_reference _ _ _ _ _ _ e fs) as [fs1 c] eqn:Ec.
  assert (fs1 = fs) as -> by (apply (f_equal fst) in Ec; by rewrite check_reference_quiet in Ec).
  apply (check_reference_cases store pb Hstore Hpb Hpb0 imgs tail f Himgs Hbytes) in Ec as [_ Hc]; [|done].
  destruct c as [md|err]; [|by intros [= <- <-]]. intros [-> Hout]%IH. split; [done|]. intros out Hr.
  destruct (Hout out Hr) as [-> Hall]. split; [done|]. constructor; [|done].
  destruct (Hc md eq_refl) as (i & g & Hi & -> & _). eauto.
Qed.

Lemma restore_entries_ok es : ∀ restored,
  Forall (λ e, ∃ i g, imgs !! i = Some g ∧ e = entry_of store pb i g) es →
  restore_entries store pb (84 + pb) (slot_offset pb (length imgs)) es restored fs = (fs, Ok (insert_all es restored)).
Proof.
  induction es as [|e es IH]; intros restored Hes; cbn [restore_entries]; [done|].
  apply Forall_cons in Hes as [(i & g & Hi & ->) Hes].
  rewrite (check_reference_ok store pb Hstore Hpb Hpb0 imgs tail f Himgs Hbytes) by done. by rewrite IH.
Qed.

(** The fuel of the scan is enough: every round passes a slot. *)
Lemma scan_all :
  scan_images (S (Z.to_nat (len (f_bytes f)))) store pb (84 + pb) (len (f_bytes f)) (Z.of_nat IMAGE_FILE_HEADER_SIZE) fs =
    (fs, Ok (slot_offset pb (length imgs), tail_offset pb imgs tail)).
Proof.
  pose proof (length_arena store pb Hstore imgs Himgs) as Hl. change (Z.of_nat IMAGE_FILE_HEADER_SIZE) with 40.
  replace 40 with (slot_offset pb 0) by (unfold slot_offset; lia).
  apply (scan_images_ok store pb Hstore Hpb Hpb0 imgs tail f Himgs Hbytes); try done; [lia|].
  rewrite Hbytes, len_app. pose proof (len_nonneg tail). unfold len at 1. rewrite Hl. unfold slot_offset.
  assert (0 < 84 + pb) by ps_lia. nia.
Qed.

(** The repair cuts the incomplete append off. *)
Lemma repair_arena_ok :
  ∃ fs1 f1, repair_arena (tail_offset pb imgs tail) fs = (fs1, Ok tt) ∧ fs_faults fs1 = [] ∧
    BTreeMap.get IMAGE_FILE (fs_files fs1) = Some f1 ∧ f_bytes f1 = arena store pb imgs ∧
    ∀ k, k ≠ IMAGE_FILE → BTreeMap.get k (fs_files fs1) = BTreeMap.get k (fs_files fs).
Proof.
  unfold repair_arena, tail_offset. destruct tail as [|b rest] eqn:Et.
  { exists fs, f. rewrite app_nil_r in Hbytes. by split_and!. }
  pose proof (length_arena store pb Hstore imgs Himgs) as Hl.
  destruct (fs_set_len_ok IMAGE_FILE (Z.to_nat (slot_offset pb (length imgs))) fs f Hn Hf) as (fs1 & E1 & N1 & F1).
  { rewrite Hbytes, length_app. lia. }
  unfold ps_io. rewrite E1. cbn [fst snd map_err].
  destruct (fs_sync_file_ok IMAGE_FILE fs1 _ N1 ltac:(rewrite F1; apply BTreeMap.get_insert_eq)) as (fs2 & E2 & N2 & F2).
  rewrite E2. eexists fs2, _. rewrite F2, BTreeMap.get_insert_eq. split_and!; [done..| |].
  - cbn [f_bytes]. rewrite Hbytes. apply take_app_length'. lia.
  - intros k Hk. by rewrite BTreeMap.get_insert_ne, F1, BTreeMap.get_insert_ne.
Qed.

Definition sound_entries (es : list PageMapEntry) : Prop :=
  Forall (λ e, ∃ i g, imgs !! i = Some g ∧ e = entry_of store pb i g) es.

(** What is restored are placements of images. *)
Lemma insert_all_sound es : ∀ restored,
  sound_entries es → Forall (λ p, ∃ i g, imgs !! i = Some g ∧ p = (g_key g, location_of store pb i g)) restored →
  Forall (λ p, ∃ i g, imgs !! i = Some g ∧ p = (g_key g, location_of store pb i g)) (insert_all es restored).
Proof.
  induction es as [|e es IH]; intros restored Hes Hr; cbn; [done|]. apply Forall_cons in Hes as [(i & g & Hi & ->) Hes].
  apply IH; [done|]. apply Forall_forall. intros p [->|Hp]%BTreeMap.elem_insert; [by exists i, g|].
  by apply (proj1 (Forall_forall _ _) Hr).
Qed.

(** A state [open] returns. *)
Record opened st : Prop := {
  op_inv : ps_inv st imgs;
  op_extends : extends pb fs imgs (ps_fs st) imgs;
  op_store : ps_store st = store;
  op_page_bytes : ps_page_bytes st = pb;
  op_faults : fs_faults (ps_fs st) = [];
  op_poisoned : ps_poisoned st = false
}.

Lemma opened_intro f1 st :
  ps_store st = store → ps_page_bytes st = pb → ps_end_offset st = slot_offset pb (length imgs) →
  fs_faults (ps_fs st) = [] → ps_poisoned st = false → f_bytes f1 = arena store pb imgs →
  BTreeMap.get IMAGE_FILE (fs_files (ps_fs st)) = Some {| f_bytes := f_bytes f1; f_synced := length (f_bytes f1) |} →
  Forall (λ p, ∃ i g, imgs !! i = Some g ∧ p = (g_key g, location_of store pb i g)) (ps_working st) →
  (∀ k, k ≠ IMAGE_FILE → BTreeMap.get k (fs_files (ps_fs st)) = BTreeMap.get k (fs_files fs)) → opened st.
Proof.
  intros E1 E2 E3 E4 E5 Hb Hf1 Hr Ho. pose proof (length_arena store pb Hstore imgs Himgs) as Hl.
  assert (0 < 84 + pb) as Hp by ps_lia. split; try done.
  - split; rewrite ?E1, ?E2; try done.
    + eexists _, []. split; [exact Hf1|]. cbn [f_bytes f_synced]. rewrite app_nil_r, Hb. split_and!; [done| |by left].
      unfold slot_offset in Hl. nia.
    + intros key loc Hg%BTreeMap.get_elem. apply (proj1 (Forall_forall _ _) Hr) in Hg as (i & g & Hi & [= -> ->]).
      exists i, g. split_and!; [done| |done]. destruct (Himgs _ _ Hi) as ([_ Ho1 Ho2 _ _ _ _] & _). by rewrite norm_key_u64.
  - split; [intros id x Hid Hg _ _; by rewrite Ho|]. intros k Hk _. split_and!; [|done..].
    eexists. split; [exact Hf1|]. cbn [f_synced]. rewrite Hb, Hl. by apply slot_offset_mono.
Qed.

Lemma page_store_open_ok sel m :
  (open_arena store sel fs).2 = Ok (m, len (f_bytes f)) → pm_page_bytes m = pb → sound_entries (map_entries m) →
  check_boundary m (slot_offset pb (length imgs)) = Ok tt →
  ∃ st, page_store_open store sel fs = (ps_fs st, Ok (st, m)) ∧ opened st.
Proof.
  intros Ho Hm Hes Hcb. unfold page_store_open.
  rewrite open_arena_quiet in *. cbn [snd] in Ho. rewrite Ho, Hm, page_image_bytes_u32 by done. cbn [ok_or]. rewrite scan_all.
  rewrite restore_entries_ok, Hcb by done.
  destruct repair_arena_ok as (fs1 & f1 & -> & N1 & Hf1 & Hb1 & O1). unfold ps_io at 1.
  destruct (fs_sync_file_ok IMAGE_FILE fs1 f1 N1 Hf1) as (fs2 & -> & N2 & F2). cbn [fst snd map_err].
  unfold ps_io, fs_sync_dir. rewrite fs_check_ok by done. cbn [fst snd map_err].
  pose proof (insert_all_sound _ [] Hes (Forall_nil_2 _)) as Hr.
  assert (BTreeMap.get IMAGE_FILE (fs_files fs2) = Some {| f_bytes := f_bytes f1; f_synced := length (f_bytes f1) |}) as Hf2
    by (rewrite F2; apply BTreeMap.get_insert_eq).
  destruct (restore_dependencies_ok store pb imgs {| f_bytes := f_bytes f1; f_synced := length (f_bytes f1) |} fs2 _ DependencyTable_new Hstore Hpb0 Himgs Hb1 Hf2 N2 Hr
              table_new_wf table_new_no_poison) as [t ->].
  eexists {| ps_fs := fs2 |}. split; [reflexivity|].
  apply opened_intro with f1; try done. intros k Hk. cbn [ps_fs]. by rewrite F2, BTreeMap.get_insert_ne, O1.
Qed.

(** Whatever map was selected, a store that opens holds the arena's images. *)
Lemma page_store_open_inv sel fs' st m :
  page_store_open store sel fs = (fs', Ok (st, m)) → opened st ∧ ps_fs st = fs'.
Proof.
  intros E. enough (∃ m0 st0, page_store_open store sel fs = (ps_fs st0, Ok (st0, m0)) ∧ opened st0) as (m0 & st0 & E0 & Hop).
  { rewrite E0 in E. by injection E as <- <-. }
  revert E. unfold page_store_open at 1. destruct (open_arena store sel fs) as [fs1 [[m0 n]|e]] eqn:Eo; [|done].
  pose proof Eo as Eo'. rewrite open_arena_quiet in Eo'. injection Eo' as <- Eo'.
  destruct (read_exact_file _ _ fs).2 as [bs|]; [|done]. destruct (decode_map bs sel store) as [m1|]; [|done].
  destruct (pb =? pm_page_bytes m1) eqn:Ep; bool_to_prop; cbn [negb] in Eo'; [|done]. injection Eo' as <- <-. rewrite <-Ep.
  rewrite page_image_bytes_u32 by done. cbn [ok_or]. rewrite scan_all.
  destruct (restore_entries _ _ _ _ _ _ _) as [fs2 rs] eqn:Er. apply restore_entries_quiet in Er as [-> Hout].
  destruct rs as [restored|e]; [|done]. destruct (Hout restored eq_refl) as [_ Hes].
  destruct (check_boundary m1 _) as [[]|] eqn:Ecb; [|done]. intros _.
  exists m1. apply page_store_open_ok; try done. by rewrite Eo.
Qed.

(** A published map opens. *)
Lemma published_opens id es k :
  published store pb fs imgs id es k →
  ∃ st, page_store_open store (map_reference id store pb (slot_offset pb k) es) fs =
          (ps_fs st, Ok (st, the_map id store pb (slot_offset pb k) es)) ∧ opened st.
Proof.
  intros [P1 P2 P3 P4 P5]. pose proof P1 as [_ [Hs _] _ _ _ _ _]. apply page_store_open_ok.
  - rewrite open_arena_quiet, read_exact_file_quiet. cbn [snd map_reference pr_id pr_file_bytes] in P2 |- *. rewrite P2.
    cbn [f_bytes]. unfold len at 1. rewrite length_map_file by done.
    rewrite (proj2 (Z.eqb_eq _ _)) by (unfold len; lia). fold (map_reference id store pb (slot_offset pb k) es).
    rewrite decode_map_file by done. cbn [the_map pm_page_bytes]. by rewrite Z.eqb_refl.
  - done.
  - rewrite map_entries_the_map. eapply Forall_impl; [exact P5|]. intros e (i & g & _ & Hi & ->). eauto.
  - unfold check_boundary. cbn [the_map pm_image_file_end pm_page_bytes].
    rewrite (proj2 (is_image_offset_iff _ _ Hpb)) by eauto. rewrite andb_false_r.
    by rewrite (proj2 (Z.ltb_ge _ _)) by (by apply slot_offset_mono).
Qed.
End open.

(** ** Histories

    What callers and the coordinator do to an open store, and restarts. *)
Inductive store_op : PersistentPageIo → PersistentPageIo → Prop :=
| op_write_image key source st : store_op st (write_image key source st).1
| op_write_map id es st : store_op st (write_map id es st).1
| op_read_page key dest st : store_op st (store_read_page key dest st).1.1
| op_read_mapped m key dest st : store_op st (read_mapped_page m key dest st).1.1
| op_dependency o st : store_op st (with_dependencies (dep_exec o (ps_dependencies st)) st).

Inductive store_step : PersistentPageIo → PersistentPageIo → Prop :=
| step_operation st st' : store_op st st' → store_step st st'
| step_restart st selected fs fs' st' m :
    fs_crash (ps_fs st) fs → page_store_open (ps_store st) selected fs = (fs', Ok (st', m)) → store_step st st'.

(** The state [st'] continues [st]. *)
Definition continues st imgs st' imgs' : Prop :=
  ps_inv st' imgs' ∧ ps_store st' = ps_store st ∧ ps_page_bytes st' = ps_page_bytes st ∧
  extends (ps_page_bytes st) (ps_fs st) imgs (ps_fs st') imgs'.

Lemma continues_trans st1 imgs1 st2 imgs2 st3 imgs3 :
  continues st1 imgs1 st2 imgs2 → continues st2 imgs2 st3 imgs3 → continues st1 imgs1 st3 imgs3.
Proof.
  intros (_ & S2 & B2 & E2) (I3 & S3 & B3 & E3). split_and!; [done|congruence..|]. rewrite B2 in E3. by eapply extends_trans.
Qed.

Lemma only_read_continues st st' imgs : ps_inv st imgs → only_read st st' → continues st imgs st' imgs.
Proof.
  intros Hinv Ho. split; [by eapply only_read_inv|]. destruct Ho as (fs & -> & Hfs). split_and!; [done..|]. by apply extends_same.
Qed.

Lemma store_op_continues st st' imgs :
  store_op st st' → ps_inv st imgs → ∃ imgs', imgs `prefix_of` imgs' ∧ continues st imgs st' imgs'.
Proof.
  intros Hop Hinv. destruct Hop as [key source st|id es st|key dest st|m key dest st|o st].
  - destruct (write_image key source st) as [st' r] eqn:E. cbn.
    apply (write_image_inv _ _ _ _ _ _ Hinv) in E as (Es & Ep & _ & imgs' & I' & E' & Hr).
    exists imgs'. split; [|by split_and!]. destruct r as [loc|e]; [|by destruct Hr as [-> _]].
    destruct Hr as (deps & _ & -> & _). by apply prefix_app_r.
  - destruct (write_map id es st) as [st' r] eqn:E. cbn.
    apply (write_map_inv _ _ _ _ _ _ Hinv) in E as (Es & Ep & I' & E' & _). by exists imgs.
  - destruct (store_read_page key dest st) as [[st' dest'] r] eqn:E. apply store_read_page_cases in E as [Ho _].
    exists imgs. split; [done|by apply only_read_continues].
  - exists imgs. split; [done|]. apply only_read_continues; [done|apply read_mapped_page_only_read].
  - exists imgs. split; [done|]. split; [by eapply ps_inv_same|]. split_and!; [done..|]. by apply extends_same.
Qed.

Lemma store_ops_continue st st' imgs :
  rtc store_op st st' → ps_inv st imgs → ∃ imgs', imgs `prefix_of` imgs' ∧ continues st imgs st' imgs'.
Proof.
  intros Hr. revert imgs. induction Hr as [st|st st1 st' Hop _ IH]; intros imgs Hinv.
  - exists imgs. split; [done|]. split_and!; [done..|]. by apply extends_same.
  - destruct (store_op_continues _ _ _ Hop Hinv) as (imgs1 & Hp & Hc1). destruct (IH imgs1) as (imgs' & Hp' & Hc2); [apply Hc1|].
    exists imgs'. split; [by etrans|by eapply continues_trans].
Qed.

Lemma store_step_continues st st' imgs : store_step st st' → ps_inv st imgs → ∃ imgs', continues st imgs st' imgs'.
Proof.
  intros [st0 st1 Hop|st0 sel fs fs' st1 m Hc Ho] Hinv; [destruct (store_op_continues _ _ _ Hop Hinv) as (? & _ & ?); eauto|].
  pose proof Hinv as [I1 [I2 I2'] _ _ _ _].
  destruct (crash_inv _ _ _ Hinv Hc) as (imgs' & f & tail & Hw & Hf & Hb & Ht & _ & Hext).
  eapply page_store_open_inv in Ho as [[O1 O2 O3 O4 _ _] _]; try done; [|apply Hc].
  exists imgs'. split_and!; [done..|by eapply extends_trans].
Qed.

Lemma store_steps_continue st st' imgs : rtc store_step st st' → ps_inv st imgs → ∃ imgs', continues st imgs st' imgs'.
Proof.
  intros Hr. revert imgs. induction Hr as [st|st st1 st' Hs _ IH]; intros imgs Hinv.
  - exists imgs. split_and!; [done..|]. by apply extends_same.
  - destruct (store_step_continues _ _ _ Hs Hinv) as (imgs1 & Hc1). destruct (IH imgs1) as (imgs' & Hc2); [apply Hc1|].
    exists imgs'. by eapply continues_trans.
Qed.

(** Reading a page of a published map. *)
Lemma read_mapped_page_ok st imgs id image_end es i g dest :
  ps_inv st imgs → fs_faults (ps_fs st) = [] → ps_poisoned st = false → imgs !! i = Some g →
  valid_from None [] es → entry_of (ps_store st) (ps_page_bytes st) i g ∈ es → len dest = ps_page_bytes st →
  read_mapped_page (the_map id (ps_store st) (ps_page_bytes st) image_end es) (g_key g) dest st =
    (st, g_page g, Ok (metadata_of (ps_store st) (ps_page_bytes st) i g)).
Proof.
  intros Hinv Hn Hp Hi Hv He Hd. unfold read_mapped_page, map_require. cbn [the_map pm_store pm_page_bytes pm_entries].
  rewrite bool_decide_eq_true_2, Z.eqb_refl by done. cbn [negb].
  rewrite (BTreeMap.elem_get (g_key g) (location_of (ps_store st) (ps_page_bytes st) i g)).
  - cbn [ok_or location_of il_offset il_checksum]. rewrite (image_read_frame_ok st imgs i g) by done.
    cbn [metadata_of image_metadata im_key im_location il_checksum]. rewrite bool_decide_eq_true_2, Z.eqb_refl by done. cbn [negb].
    destruct (pi_imgs _ _ Hinv _ _ Hi) as (_ & Hl & _).
    by rewrite (proj2 (copy_payload_Ok (g_page g) dest (g_page g))) by (unfold len in *; split; [done|lia]).
  - apply (valid_sorted es None [] []); [done|done|constructor].
  - apply list_elem_of_fmap. by exists (entry_of (ps_store st) (ps_page_bytes st) i g).
Qed.

(** C7. A published page survives.  Take any history of a page store, restarts
    included, in which an image was appended and a map naming it was published
    without a restart in between.  Then after any further operations and restarts
    and a crash, opening the store from that map's reference succeeds, gives the
    map back, and reading the page through it returns the bytes that were written;
    and when the map was published the durable frontiers covered the image's
    requirements. *)
Theorem published_pages_survive incarnation pb fs0 fs1 st0 sta key source stb loc stc id es std m ste fs :
  wf_incarnation incarnation → is_u32 pb → is_u64 id → id ≠ 0 →
  page_store_create incarnation pb fs0 = (fs1, Ok st0) →
  rtc store_step st0 sta →
  write_image key source sta = (stb, Ok loc) →
  rtc store_op stb stc →
  write_map id es stc = (std, Ok m) →
  {| me_key := key; me_image := loc |} ∈ es →
  rtc store_step std ste →
  fs_crash (ps_fs ste) fs →
  ∃ st md, page_store_open incarnation (pm_reference m) fs = (ps_fs st, Ok (st, m)) ∧
    frontiers_cover (ps_dependencies stc) (im_dependencies md) = true ∧
    ∀ dest, len dest = pb → read_mapped_page m key dest st = (st, source, Ok md).
Proof.
  intros Hinc Hpb Hid Hid0 Hcr Ha Hw Hb Hm He Hc Hcrash.
  apply page_store_create_inv in Hcr as (I0 & <- & <- & _); [|done..].
  destruct (store_steps_continue _ _ _ Ha I0) as (ia & Ia & Sa & Ba & _).
  apply (write_image_inv _ _ _ _ _ _ Ia) in Hw as (Sb & Bb & _ & ib & Ib & _ & deps & _ & -> & -> & _).
  set (g := {| g_page := source |}) in *.
  destruct (store_ops_continue _ _ _ Hb Ib) as (ic & Hp & Ic & Sc & Bc & _).
  assert (ic !! length ia = Some g) as Hg by (eapply prefix_lookup_Some; [by apply list_lookup_middle|done]).
  apply (write_map_inv _ _ _ _ _ _ Ic) in Hm as (Sd & Bd & Id & _ & Hpub).
  destruct (Hpub m eq_refl Hid Hid0) as (-> & Hpu & Hes). clear Hpub.
  destruct (proj1 (Forall_forall _ _) Hes _ He) as (i & g' & Hi & He' & Hcov).
  rewrite Sc, Sb, Sa, Bc, Bb, Ba in *. pose proof He' as [= Ek Eo _]. apply slot_offset_inj in Eo; [|done]. subst i.
  assert (g' = g) as -> by congruence. rewrite He' in He.
  destruct (store_steps_continue _ _ _ Hc Id) as (ie & Ie & Se & Be & Ee). rewrite Sd in Se. rewrite Bd in Be, Ee.
  pose proof (published_lookup _ _ _ _ _ _ _ _ _ _ Hpu Ee (lookup_lt_Some _ _ _ Hi)) as L1.
  pose proof (published_extends _ _ _ _ _ _ _ _ _ Hpu Ee) as Hpue.
  destruct (crash_inv _ _ _ Ie Hcrash) as (iz & f & tail & Hwz & Hf & Hbz & Ht & _ & Ez). rewrite Se, Be in *.
  pose proof (published_lookup _ _ _ _ _ _ _ _ _ _ Hpue Ez (lookup_lt_Some _ _ _ Hi)) as L2.
  pose proof (published_extends _ _ _ _ _ _ _ _ _ Hpue Ez) as Hpuz.
  pose proof (pi_page_bytes _ _ I0) as [_ Hpb0].
  destruct (published_opens _ _ iz tail f fs Hinc Hpb Hpb0 Hwz Hf Hbz Ht (proj2 Hcrash) _ _ _ Hpuz) as (st & Hop & [O1 _ O3 O4 O5 O6]).
  exists st, (metadata_of (ps_store st0) (ps_page_bytes st0) (length ia) g).
  rewrite (pi_end _ _ Ic), Bc. split; [exact Hop|]. split; [done|]. intros dest Hd. rewrite Ek, <-O3, <-O4.
  apply (read_mapped_page_ok st iz); try done; [congruence|apply (wm_valid _ _ _ _ _ (pu_wf _ _ _ _ _ _ _ Hpuz))|by rewrite O3, O4|by rewrite O4].
Qed.
End recovery.

(** ** A torn append after a publication *)
Local Instance ps_demo_crc : Crc32c := castagnoli_crc.
Local Instance ps_demo_hasher : PageHasher := λ k, pk_page k.

Definition ps_demo_store : bytes := replicate 16 (u8 7).
Definition ps_demo_key (page : Z) : PageKey := {| pk_object := 3; pk_page := page |}.
Definition ps_demo_page (b : Z) : bytes := replicate 8 (u8 b).

(** The write of the second image is the fifteenth operation; it stops after 90 bytes. *)
Definition ps_demo_disk : Fs := {| fs_files := []; fs_faults := replicate 14 None ++ [Some 90%nat] |}.

Definition ps_demo_new : PersistentPageIo :=
  match (page_store_create ps_demo_store 8 ps_demo_disk).2 with
  | Ok st => st
  | Err _ =>
      {| ps_store := []; ps_page_bytes := 0; ps_dependencies := DependencyTable_new; ps_end_offset := 0;
         ps_working := []; ps_fenced := true; ps_poisoned := true; ps_fs := ps_demo_disk |}
  end.

Definition ps_demo_location : ImageLocation :=
  match (write_image (ps_demo_key 1) (ps_demo_page 65) ps_demo_new).2 with
  | Ok loc => loc
  | Err _ => {| il_offset := 0; il_checksum := 0 |}
  end.
Definition ps_demo_written : PersistentPageIo := (write_image (ps_demo_key 1) (ps_demo_page 65) ps_demo_new).1.
Definition ps_demo_entries : list PageMapEntry := [{| me_key := ps_demo_key 1; me_image := ps_demo_location |}].
Definition ps_demo_map : PageMap :=
  match (write_map 1 ps_demo_entries ps_demo_written).2 with
  | Ok m => m
  | Err _ => the_map 0 [] 0 0 []
  end.
Definition ps_demo_published : PersistentPageIo := (write_map 1 ps_demo_entries ps_demo_written).1.
Definition ps_demo_torn : PersistentPageIo := (write_image (ps_demo_key 2) (ps_demo_page 66) ps_demo_published).1.

Lemma published_pages_survive_witness :
  (ps_fenced ps_demo_torn = true ∧
   length <$> (f_bytes <$> BTreeMap.get IMAGE_FILE (fs_files (crash_at 300 (ps_fs ps_demo_torn)))) = Some 222%nat) ∧
  ∃ st md, page_store_open ps_demo_store (pm_reference ps_demo_map) (crash_at 300 (ps_fs ps_demo_torn)) =
             (ps_fs st, Ok (st, ps_demo_map)) ∧
    frontiers_cover (ps_dependencies ps_demo_written) (im_dependencies md) = true ∧
    ∀ dest, len dest = 8 → read_mapped_page ps_demo_map (ps_demo_key 1) dest st = (st, ps_demo_page 65, Ok md).
Proof.
  split; [vm_compute; by split|].
  apply (published_pages_survive ps_demo_store 8 ps_demo_disk (page_store_create ps_demo_store 8 ps_demo_disk).1
           ps_demo_new ps_demo_new (ps_demo_key 1) (ps_demo_page 65) ps_demo_written ps_demo_location ps_demo_written
           1 ps_demo_entries ps_demo_published ps_demo_map ps_demo_torn).
  - by split.
  - by split.
  - by split.
  - done.
  - rewrite (surjective_pairing (page_store_create _ _ _)) at 1. apply pair_equal_spec. split; [reflexivity|vm_compute; reflexivity].
  - constructor.
  - rewrite (surjective_pairing (write_image _ _ _)) at 1. apply pair_equal_spec. split; [reflexivity|vm_compute; reflexivity].
  - constructor.
  - rewrite (surjective_pairing (write_map _ _ _)) at 1. apply pair_equal_spec. split; [reflexivity|vm_compute; reflexivity].
  - by left.
  - apply rtc_once. constructor. constructor.
  - apply crash_at_crash.
Defined.
