(* ===== verification/Buffer.v ===== *)
(** * Buffer pool

    Models [crates/seerdb/src/vnext/buffer.rs]: fixed frames, the translation of
    logical pages to frame incarnations, loading, creation, writeback and clock
    eviction over a page device.  An operation runs without another thread
    between its steps; [Frame.v] has the interleavings of a single frame.  The
    diagnostic counters are left out, and the frame-local locks are never
    poisoned, since nothing that runs under them panics.

    The refinement at the end: whatever is loaded, evicted, written back or fails,
    the pool together with its device is one map from pages to images, which only
    a page write or a page creation changes. *)
From S2P Require Import Prelude Ids Fs Shards Frame Translation PageIo.

Local Open Scope Z_scope.
Local Open Scope seer_scope.

Inductive PageIoOperation := PageRead | PageWrite.

Inductive BufferError :=
| EmptyPool
| InvalidPageSize
| PageSizeMismatch (expected actual : Z)
| PageAlreadyClaimed (key : PageKey)
| FrameOutOfRange (frame : FrameId)
| NoVictim
| MissingIdentity (frame : FrameId)
| BufferPoisoned (frame : FrameId)
| FrameTransition (frame : FrameId) (source : FrameTransitionError)
| BufferTranslation (e : TranslationError)
| BufferIo (key : PageKey) (operation : PageIoOperation) (source : IoErrorKind).

Record FrameSlot := {
  sl_meta : FrameMeta;
  sl_page : option PageKey;
  sl_bytes : bytes;
  sl_referenced : bool
}.

(** [FrameSlot::new] *)
Definition FrameSlot_new (page_size : Z) : FrameSlot :=
  {| sl_meta := new_free; sl_page := None; sl_bytes := replicate (Z.to_nat page_size) (u8 0);
     sl_referenced := false |}.

Inductive PinAttempt := AttemptPinned | AttemptBusy | AttemptLoading | AttemptStale.

Inductive WritebackTarget := TargetResident | TargetEvicting.

(** The logical page and the frame incarnation a [PageGuard] protects. *)
Record PageGuard := { pg_key : PageKey; pg_ref : FrameRef }.

(** A reserved frame and, once claimed, its logical-page load. *)
Record ReservedLoad := { rl_slot : nat; rl_key : PageKey; rl_ref : FrameRef; rl_owns_mapping : bool }.

Section pool.
Context {D : Type} `{PageIo D}.

Record BufferPool := {
  bp_frames : list FrameSlot;
  bp_translation : TranslationTable;
  bp_io : D;
  bp_clock : Z;
  bp_page_size : Z
}.

Definition BufferPool_new (frame_count page_size : Z) (io : D) : result BufferPool BufferError :=
  if frame_count =? 0 then Err EmptyPool
  else if page_size =? 0 then Err InvalidPageSize
  else Ok {| bp_frames := replicate (Z.to_nat frame_count) (FrameSlot_new page_size);
             bp_translation := TranslationTable_new; bp_io := io; bp_clock := 0;
             bp_page_size := page_size |}.

(** Updates of one component. *)
Definition set_frames (bp : BufferPool) (fs : list FrameSlot) : BufferPool :=
  {| bp_frames := fs; bp_translation := bp_translation bp; bp_io := bp_io bp;
     bp_clock := bp_clock bp; bp_page_size := bp_page_size bp |}.
Definition set_translation (bp : BufferPool) (t : TranslationTable) : BufferPool :=
  {| bp_frames := bp_frames bp; bp_translation := t; bp_io := bp_io bp;
     bp_clock := bp_clock bp; bp_page_size := bp_page_size bp |}.
Definition set_io (bp : BufferPool) (io : D) : BufferPool :=
  {| bp_frames := bp_frames bp; bp_translation := bp_translation bp; bp_io := io;
     bp_clock := bp_clock bp; bp_page_size := bp_page_size bp |}.
Definition set_clock (bp : BufferPool) (c : Z) : BufferPool :=
  {| bp_frames := bp_frames bp; bp_translation := bp_translation bp; bp_io := bp_io bp;
     bp_clock := c; bp_page_size := bp_page_size bp |}.

Definition set_slot (bp : BufferPool) (i : nat) (s : FrameSlot) : BufferPool :=
  set_frames bp (<[i := s]> (bp_frames bp)).
Definition slot_meta (s : FrameSlot) (m : FrameMeta) : FrameSlot :=
  {| sl_meta := m; sl_page := sl_page s; sl_bytes := sl_bytes s; sl_referenced := sl_referenced s |}.
Definition slot_page (s : FrameSlot) (p : option PageKey) : FrameSlot :=
  {| sl_meta := sl_meta s; sl_page := p; sl_bytes := sl_bytes s; sl_referenced := sl_referenced s |}.
Definition slot_bytes (s : FrameSlot) (b : bytes) : FrameSlot :=
  {| sl_meta := sl_meta s; sl_page := sl_page s; sl_bytes := b; sl_referenced := sl_referenced s |}.
Definition slot_referenced (s : FrameSlot) (r : bool) : FrameSlot :=
  {| sl_meta := sl_meta s; sl_page := sl_page s; sl_bytes := sl_bytes s; sl_referenced := r |}.

(** [slot]: a frame of this pool. *)
Definition pool_slot (bp : BufferPool) (frame : FrameId) : result FrameSlot BufferError :=
  ok_or (bp_frames bp !! Z.to_nat frame) (FrameOutOfRange frame).

Definition try_pin_reference (reference : FrameRef) (bp : BufferPool)
    : BufferPool * result PinAttempt BufferError :=
  match pool_slot bp (fr_frame reference) with
  | Err e => (bp, Err e)
  | Ok slot =>
      let i := Z.to_nat (fr_frame reference) in
      if negb (bool_decide (frame_incarnation (sl_meta slot) = Some (fr_incarnation reference)))
      then (bp, Ok AttemptStale)
      else
        match try_pin (sl_meta slot) with
        | (meta, Some incarnation) =>
            if incarnation =? fr_incarnation reference
            then (set_slot bp i (slot_meta slot meta), Ok AttemptPinned)
            else (set_slot bp i (slot_meta slot (frame_unpin meta)), Ok AttemptStale)
        | (_, None) =>
            match frame_state (sl_meta slot) with
            | Writeback | Resident => (bp, Ok AttemptBusy)
            | Loading => (bp, Ok AttemptLoading)
            | Free | Evicting => (bp, Ok AttemptStale)
            end
        end
  end.

Definition guard_from_pin (key : PageKey) (reference : FrameRef) (bp : BufferPool)
    : BufferPool * PageGuard :=
  let i := Z.to_nat (fr_frame reference) in
  (match bp_frames bp !! i with
   | Some slot => set_slot bp i (slot_referenced slot true)
   | None => bp
   end, {| pg_key := key; pg_ref := reference |}).

(** [writeback] of the frame [i]. *)
Definition writeback (i : nat) (target : WritebackTarget) (bp : BufferPool)
    : BufferPool * result unit BufferError :=
  match bp_frames bp !! i with
  | None => (bp, Err (FrameOutOfRange (Z.of_nat i)))
  | Some slot =>
      let transition := FrameTransition (Z.of_nat i) in
      match try_begin_writeback (sl_meta slot) with
      | (_, Err source) => (bp, Err (transition source))
      | (meta, Ok _) =>
          let abort bp := set_slot bp i (slot_meta slot (abort_writeback meta).1) in
          match sl_page slot with
          | None => (abort bp, Err (MissingIdentity (Z.of_nat i)))
          | Some key =>
              match io_write key (sl_bytes slot) (bp_io bp) with
              | (io, Err source) => (abort (set_io bp io), Err (BufferIo key PageWrite source))
              | (io, Ok _) =>
                  let finished := match target with
                                  | TargetResident => finish_writeback meta
                                  | TargetEvicting => finish_writeback_for_evict meta
                                  end in
                  (set_slot (set_io bp io) i (slot_meta slot finished.1),
                   map_err transition finished.2)
              end
          end
      end
  end.

Definition detach_evicted (i : nat) (bp : BufferPool) : BufferPool * result unit BufferError :=
  match bp_frames bp !! i with
  | None => (bp, Err (FrameOutOfRange (Z.of_nat i)))
  | Some slot =>
      match sl_page slot with
      | None => (bp, Err (MissingIdentity (Z.of_nat i)))
      | Some key =>
          match frame_incarnation (sl_meta slot) with
          | None => (bp, Err (MissingIdentity (Z.of_nat i)))
          | Some incarnation =>
              let reference := {| fr_frame := Z.of_nat i; fr_incarnation := incarnation |} in
              match remove_if (bp_translation bp) key reference with
              | (t, Err e) => (set_translation bp t, Err (BufferTranslation e))
              | (t, Ok _) => (set_slot (set_translation bp t) i (slot_page slot None), Ok tt)
              end
          end
      end
  end.

(** Replaces the metadata of the frame [i] by what a frame method leaves. *)
Definition meta_step {A} (i : nat) (f : FrameMeta → FrameMeta * result A FrameTransitionError)
    (bp : BufferPool) : BufferPool * result A BufferError :=
  match bp_frames bp !! i with
  | None => (bp, Err (FrameOutOfRange (Z.of_nat i)))
  | Some slot =>
      let (meta, r) := f (sl_meta slot) in
      (set_slot bp i (slot_meta slot meta), map_err (FrameTransition (Z.of_nat i)) r)
  end.

(** What one turn of the clock does with the frame it points at. *)
Inductive ReserveTurn :=
| TurnReserved (incarnation : Z)
| TurnContinue
| TurnFailed (e : BufferError).

(** What follows once the frame is in [Evicting]: it leaves the translation and is
    reserved for the load at hand. *)
Definition reuse_evicted (i : nat) (bp : BufferPool) : BufferPool * ReserveTurn :=
  match detach_evicted i bp with
  | (bp, Err e) => ((meta_step i abort_evict bp).1, TurnFailed e)
  | (bp, Ok _) =>
      match meta_step i finish_evict bp with
      | (bp, Err e) => (bp, TurnFailed e)
      | (bp, Ok _) =>
          match meta_step i begin_load bp with
          | (bp, Ok incarnation) => (bp, TurnReserved incarnation)
          | (bp, Err (FrameTransition _ (FrameWrongState _ _))) => (bp, TurnContinue)
          | (bp, Err e) => (bp, TurnFailed e)
          end
      end
  end.

(** The eviction of a resident frame whose reference bit is clear. *)
Definition evict_frame (i : nat) (slot : FrameSlot) (bp : BufferPool) : BufferPool * ReserveTurn :=
  let begun :=
    if fm_dirty (sl_meta slot) then
      match writeback i TargetEvicting bp with
      | (bp, Ok _) => (bp, None)
      | (bp, Err (FrameTransition _ FramePinned))
      | (bp, Err (FrameTransition _ (FrameWrongState _ _))) => (bp, Some TurnContinue)
      | (bp, Err e) => (bp, Some (TurnFailed e))
      end
    else
      match meta_step i try_begin_evict bp with
      | (bp, Ok _) => (bp, None)
      | (bp, Err (FrameTransition _ FramePinned))
      | (bp, Err (FrameTransition _ (FrameWrongState _ _))) => (bp, Some TurnContinue)
      | (bp, Err e) => (bp, Some (TurnFailed e))
      end in
  match begun with
  | (bp, Some turn) => (bp, turn)
  | (bp, None) => reuse_evicted i bp
  end.

Definition reserve_turn (i : nat) (bp : BufferPool) : BufferPool * ReserveTurn :=
  match bp_frames bp !! i with
  | None => (bp, TurnContinue)
  | Some slot =>
      match frame_state (sl_meta slot) with
      | Free =>
          match meta_step i begin_load bp with
          | (bp, Ok incarnation) => (bp, TurnReserved incarnation)
          | (bp, Err _) => (bp, TurnContinue)
          end
      | Resident =>
          if sl_referenced slot then (set_slot bp i (slot_referenced slot false), TurnContinue)
          else evict_frame i slot bp
      | _ => (bp, TurnContinue)
      end
  end.

Fixpoint reserve_loop (attempts : nat) (bp : BufferPool)
    : BufferPool * result (nat * Z) BufferError :=
  match attempts with
  | O => (bp, Err NoVictim)
  | S attempts =>
      let i := Z.to_nat (bp_clock bp mod len (bp_frames bp)) in
      let bp := set_clock bp (wrapping_succ (bp_clock bp)) in
      match reserve_turn i bp with
      | (bp, TurnReserved incarnation) => (bp, Ok (i, incarnation))
      | (bp, TurnContinue) => reserve_loop attempts bp
      | (bp, TurnFailed e) => (bp, Err e)
      end
  end.

(** Two turns of the clock over every frame. *)
Definition reserve_for_load (bp : BufferPool) : BufferPool * result (nat * Z) BufferError :=
  reserve_loop (2 * length (bp_frames bp)) bp.

Definition abort_loading (i : nat) (bp : BufferPool) : BufferPool :=
  match bp_frames bp !! i with
  | None => bp
  | Some slot =>
      set_slot bp i (slot_meta (slot_page slot None) (abort_load (sl_meta slot)).1)
  end.

(** [Drop for ReservedLoad], of a load that did not finish. *)
Definition drop_reserved (rl : ReservedLoad) (bp : BufferPool) : BufferPool :=
  let bp :=
    if rl_owns_mapping rl
    then set_translation bp (remove_if (bp_translation bp) (rl_key rl) (rl_ref rl)).1
    else bp in
  abort_loading (rl_slot rl) bp.

(** [ReservedLoad::finish] *)
Definition finish_reserved (rl : ReservedLoad) (dirty : bool) (bp : BufferPool)
    : BufferPool * result PageGuard BufferError :=
  match meta_step (rl_slot rl) (if dirty then finish_new_page_pinned else finish_load_pinned) bp with
  | (bp, Err e) => (drop_reserved rl bp, Err e)
  | (bp, Ok _) => let (bp, g) := guard_from_pin (rl_key rl) (rl_ref rl) bp in (bp, Ok g)
  end.

(** [BufferError::Translation] by the [?] operator. *)
Definition pool_get (key : PageKey) (bp : BufferPool) : result (option FrameRef) BufferError :=
  map_err BufferTranslation (translation_get (bp_translation bp) key).

Definition reserve_page (key : PageKey) (bp : BufferPool)
    : BufferPool * result (option ReservedLoad) BufferError :=
  match pool_get key bp with
  | Err e => (bp, Err e)
  | Ok (Some _) => (bp, Ok None)
  | Ok None =>
      match reserve_for_load bp with
      | (bp, Err NoVictim) =>
          match pool_get key bp with
          | Err e => (bp, Err e)
          | Ok (Some _) => (bp, Ok None)
          | Ok None => (bp, Err NoVictim)
          end
      | (bp, Err e) => (bp, Err e)
      | (bp, Ok (i, incarnation)) =>
          let reference := {| fr_frame := Z.of_nat i; fr_incarnation := incarnation |} in
          let loading owns :=
            {| rl_slot := i; rl_key := key; rl_ref := reference; rl_owns_mapping := owns |} in
          match publish_if_absent (bp_translation bp) key reference with
          | (t, Err e) =>
              (drop_reserved (loading false) (set_translation bp t), Err (BufferTranslation e))
          | (t, Ok Published) => (set_translation bp t, Ok (Some (loading true)))
          | (t, Ok (Existing _)) =>
              (drop_reserved (loading false) (set_translation bp t), Ok None)
          end
      end
  end.

(** [set_page_identity] *)
Definition set_page_identity (i : nat) (key : PageKey) (bp : BufferPool) : BufferPool :=
  match bp_frames bp !! i with
  | None => bp
  | Some slot => set_slot bp i (slot_page slot (Some key))
  end.

(** The bytes of the frame [i] become [b]. *)
Definition set_bytes (i : nat) (b : bytes) (bp : BufferPool) : BufferPool :=
  match bp_frames bp !! i with
  | None => bp
  | Some slot => set_slot bp i (slot_bytes slot b)
  end.

Definition frame_bytes_of (i : nat) (bp : BufferPool) : bytes :=
  match bp_frames bp !! i with None => [] | Some slot => sl_bytes slot end.

Definition initialize_slot (i : nat) (key : PageKey) (image : bytes) (bp : BufferPool) : BufferPool :=
  set_page_identity i key (set_bytes i image bp).

Definition load_miss (key : PageKey) (bp : BufferPool)
    : BufferPool * result (option PageGuard) BufferError :=
  match reserve_page key bp with
  | (bp, Err e) => (bp, Err e)
  | (bp, Ok None) => (bp, Ok None)
  | (bp, Ok (Some loading)) =>
      let i := rl_slot loading in
      match io_read key (frame_bytes_of i bp) (bp_io bp) with
      | (io, dest, Err source) =>
          (drop_reserved loading (set_bytes i dest (set_io bp io)), Err (BufferIo key PageRead source))
      | (io, dest, Ok _) =>
          let bp := set_page_identity i key (set_bytes i dest (set_io bp io)) in
          match finish_reserved loading false bp with
          | (bp, Err e) => (bp, Err e)
          | (bp, Ok g) => (bp, Ok (Some g))
          end
      end
  end.

(** One round of the loop of [pin]: a guard, an error, or another round. *)
Definition pin_round (key : PageKey) (bp : BufferPool)
    : BufferPool * option (result PageGuard BufferError) :=
  match pool_get key bp with
  | Err e => (bp, Some (Err e))
  | Ok (Some reference) =>
      match try_pin_reference reference bp with
      | (bp, Err e) => (bp, Some (Err e))
      | (bp, Ok AttemptPinned) =>
          let (bp, g) := guard_from_pin key reference bp in (bp, Some (Ok g))
      | (bp, Ok AttemptBusy) | (bp, Ok AttemptLoading) => (bp, None)
      | (bp, Ok AttemptStale) =>
          match remove_if (bp_translation bp) key reference with
          | (t, Err e) => (set_translation bp t, Some (Err (BufferTranslation e)))
          | (t, Ok _) => (set_translation bp t, None)
          end
      end
  | Ok None =>
      match load_miss key bp with
      | (bp, Err e) => (bp, Some (Err e))
      | (bp, Ok (Some g)) => (bp, Some (Ok g))
      | (bp, Ok None) => (bp, None)
      end
  end.

(** [None] when the fuel ends before the loop does. *)
Fixpoint buffer_pin (fuel : nat) (key : PageKey) (bp : BufferPool)
    : BufferPool * option (result PageGuard BufferError) :=
  match fuel with
  | O => (bp, None)
  | S fuel =>
      match pin_round key bp with
      | (bp, Some r) => (bp, Some r)
      | (bp, None) => buffer_pin fuel key bp
      end
  end.

Definition create_page (key : PageKey) (image : bytes) (bp : BufferPool)
    : BufferPool * result PageGuard BufferError :=
  if negb (len image =? bp_page_size bp)
  then (bp, Err (PageSizeMismatch (bp_page_size bp) (len image)))
  else
    match pool_get key bp with
    | Err e => (bp, Err e)
    | Ok (Some _) => (bp, Err (PageAlreadyClaimed key))
    | Ok None =>
        match reserve_page key bp with
        | (bp, Err e) => (bp, Err e)
        | (bp, Ok None) => (bp, Err (PageAlreadyClaimed key))
        | (bp, Ok (Some loading)) =>
            finish_reserved loading true (initialize_slot (rl_slot loading) key image bp)
        end
    end.

Definition flush_page (key : PageKey) (bp : BufferPool) : BufferPool * result bool BufferError :=
  match pool_get key bp with
  | Err e => (bp, Err e)
  | Ok None => (bp, Ok false)
  | Ok (Some reference) =>
      match pool_slot bp (fr_frame reference) with
      | Err e => (bp, Err e)
      | Ok slot =>
          if negb (bool_decide (frame_incarnation (sl_meta slot) = Some (fr_incarnation reference))) ||
             negb (bool_decide (frame_state (sl_meta slot) = Resident)) ||
             negb (fm_dirty (sl_meta slot))
          then (bp, Ok false)
          else
            match writeback (Z.to_nat (fr_frame reference)) TargetResident bp with
            | (bp, Err e) => (bp, Err e)
            | (bp, Ok _) => (bp, Ok true)
            end
      end
  end.

(** *** [PageGuard] and [PageWriteGuard] *)
Definition guard_slot (g : PageGuard) : nat := Z.to_nat (fr_frame (pg_ref g)).

Definition guard_read (g : PageGuard) (bp : BufferPool) : result bytes BufferError :=
  Ok (frame_bytes_of (guard_slot g) bp).

(** [write], when no other guard holds the latch of the frame; with a busy latch the
    call waits for it. *)
Definition guard_write (g : PageGuard) (bp : BufferPool) : BufferPool * result unit BufferError :=
  match meta_step (guard_slot g) (try_write (fr_incarnation (pg_ref g))) bp with
  | (bp, Ok _) => (bp, Ok tt)
  | (bp, Err e) => (bp, Err e)
  end.

(** [copy_from_slice] through the write guard. *)
Definition guard_put (g : PageGuard) (b : bytes) (bp : BufferPool) : BufferPool :=
  set_bytes (guard_slot g) b bp.

(** Dropping the write guard and dropping the pin. *)
Definition guard_unlatch (g : PageGuard) (bp : BufferPool) : BufferPool :=
  (meta_step (guard_slot g) (λ m, (release_latch m, Ok tt)) bp).1.
Definition guard_drop (g : PageGuard) (bp : BufferPool) : BufferPool :=
  (meta_step (guard_slot g) (λ m, (frame_unpin m, Ok tt)) bp).1.
End pool.
Arguments BufferPool D : clear implicits.

(** ** Frame methods on a known word *)
Lemma exclusive_ok next m :
  fm_lifecycle m = lifecycle_word Resident 0 →
  begin_exclusive_state next m = (with_lifecycle m (lifecycle_word next 0), Ok tt).
Proof. intros Hw. unfold begin_exclusive_state. by rewrite Hw, Z.eqb_refl. Qed.

Lemma exclusive_pinned next m p :
  fm_lifecycle m = lifecycle_word Resident p → p ≠ 0 →
  begin_exclusive_state next m = (m, Err FramePinned).
Proof.
  intros Hw Hp. unfold begin_exclusive_state. rewrite Hw. destruct (_ =? _) eqn:E; bool_to_prop.
  { by apply word_inj in E as [_ ?]. }
  unfold transition_error. rewrite word_state, word_pins, bool_decide_true by done.
  by rewrite (proj2 (Z.eqb_neq _ _)).
Qed.

Lemma transition_ok expected next m :
  fm_lifecycle m = lifecycle_word expected 0 →
  transition_unpinned expected next m = (with_lifecycle m (lifecycle_word next 0), Ok tt).
Proof. intros Hw. unfold transition_unpinned. by rewrite Hw, Z.eqb_refl. Qed.

Lemma frame_incarnation_Some m i : frame_incarnation m = Some i ↔ fm_incarnation m = i ∧ i ≠ 0.
Proof.
  unfold frame_incarnation, FrameIncarnation_new. destruct (_ =? 0) eqn:E; bool_to_prop; naive_solver.
Qed.

Lemma next_incarnation_Some c n : next_incarnation c = Some n → n = c + 1 ∧ n ≠ 0.
Proof.
  unfold next_incarnation. destruct (checked_add c 1) as [x|] eqn:E; [|done]. cbn.
  apply checked_add_Some in E as [-> _]. unfold FrameIncarnation_new.
  destruct (_ =? 0) eqn:E; bool_to_prop; naive_solver.
Qed.

Lemma begin_load_free m m' r :
  fm_lifecycle m = lifecycle_word Free 0 → begin_load m = (m', r) →
  fm_version m' = fm_version m ∧
  match r with
  | Ok i => fm_lifecycle m' = lifecycle_word Loading 0 ∧ frame_incarnation m' = Some i
  | Err e => m' = m ∧ e = FrameIncarnationExhausted
  end.
Proof.
  intros Hw. unfold begin_load. rewrite (transition_ok Free Loading m Hw). cbn [fm_incarnation with_lifecycle].
  destruct (next_incarnation _) as [n|] eqn:En; intros [<- <-]%pair_equal_spec.
  - split; [done|]. split; [done|]. apply next_incarnation_Some in En as [-> Hn].
    by apply frame_incarnation_Some.
  - split; [done|]. split; [|done]. destruct m; cbn in *. by rewrite <-Hw.
Qed.

(** ** The invariant

    [pages] is what the device holds, [gs] the live guards, [ls] the pages whose
    write latch is held, and [hole] a frame reserved for a load. *)
Definition pins (gs : list PageGuard) (i : nat) : Z :=
  len (filter (λ g, guard_slot g = i) gs).

Definition version_parity (latched : bool) : Z := if latched then 1 else 0.

Definition slot_inv (page_size : Z) (t : TranslationTable) (pages : gmap PageKey bytes)
    (gs : list PageGuard) (ls : gset PageKey) (hole : option nat) (i : nat) (s : FrameSlot) : Prop :=
  len (sl_bytes s) = page_size ∧
  match sl_page s with
  | None =>
      fm_lifecycle (sl_meta s) = lifecycle_word (if decide (hole = Some i) then Loading else Free) 0 ∧
      fm_version (sl_meta s) mod 2 = 0
  | Some k =>
      hole ≠ Some i ∧
      fm_lifecycle (sl_meta s) = lifecycle_word Resident (pins gs i) ∧
      mapped t k = Some {| fr_frame := Z.of_nat i; fr_incarnation := fm_incarnation (sl_meta s) |} ∧
      fm_incarnation (sl_meta s) ≠ 0 ∧
      (fm_dirty (sl_meta s) = false → pages !! k = Some (sl_bytes s) ∧ k ∉ ls) ∧
      fm_version (sl_meta s) mod 2 = version_parity (bool_decide (k ∈ ls)) ∧
      (pins gs i = 0 → k ∉ ls)
  end.

(** A reference that names the page [k] of a frame. *)
Definition names (frames : list FrameSlot) (r : FrameRef) (k : PageKey) : Prop :=
  0 ≤ fr_frame r ∧
  ∃ s, frames !! Z.to_nat (fr_frame r) = Some s ∧ sl_page s = Some k ∧
       frame_incarnation (sl_meta s) = Some (fr_incarnation r).

Section refinement.
Context {D : Type} `{Dio : PageIo D} `{Dlaws : !PageIoLaws D}.
Implicit Types bp : BufferPool D.

Record buf_inv bp (pages : gmap PageKey bytes) (gs : list PageGuard) (ls : gset PageKey)
    (hole : option nat) : Prop := {
  bi_io : io_repr (bp_io bp) pages;
  bi_tr : translation_ok (bp_translation bp);
  bi_slot i s : bp_frames bp !! i = Some s →
    slot_inv (bp_page_size bp) (bp_translation bp) pages gs ls hole i s;
  bi_mapped k r : mapped (bp_translation bp) k = Some r → names (bp_frames bp) r k;
  bi_guard g : g ∈ gs → names (bp_frames bp) (pg_ref g) (pg_key g);
  bi_latched k : k ∈ ls → mapped (bp_translation bp) k ≠ None
}.

(** What a reader of the page [k] gets. *)
Definition buf_view bp (pages : gmap PageKey bytes) (k : PageKey) : option bytes :=
  match mapped (bp_translation bp) k with
  | Some r => Some (frame_bytes_of (Z.to_nat (fr_frame r)) bp)
  | None => pages !! k
  end.

(** The pool and its device are the page map [V]. *)
Definition buf_repr bp (V : gmap PageKey bytes) (gs : list PageGuard) (ls : gset PageKey) : Prop :=
  ∃ pages, buf_inv bp pages gs ls None ∧ ∀ k, buf_view bp pages k = V !! k.

(** One frame changes, with what that may touch elsewhere. *)
Lemma buf_inv_update bp bp' pages pages' gs gs' ls ls' hole hole' i s s' :
  buf_inv bp pages gs ls hole → bp_frames bp !! i = Some s →
  bp_frames bp' = <[i := s']> (bp_frames bp) → bp_page_size bp' = bp_page_size bp →
  io_repr (bp_io bp') pages' → translation_ok (bp_translation bp') →
  (∀ k, sl_page s ≠ Some k → sl_page s' ≠ Some k →
     mapped (bp_translation bp') k = mapped (bp_translation bp) k ∧ pages' !! k = pages !! k ∧
     (k ∈ ls' ↔ k ∈ ls)) →
  (∀ k, sl_page s' = Some k → sl_page s = Some k ∨ mapped (bp_translation bp) k = None) →
  (∀ j, j ≠ i → pins gs' j = pins gs j) →
  (∀ g, g ∈ gs' → guard_slot g ≠ i → g ∈ gs) →
  (hole = None ∨ hole = Some i) → (hole' = None ∨ hole' = Some i) →
  slot_inv (bp_page_size bp) (bp_translation bp') pages' gs' ls' hole' i s' →
  (∀ k r, sl_page s = Some k ∨ sl_page s' = Some k → mapped (bp_translation bp') k = Some r →
     r = {| fr_frame := Z.of_nat i; fr_incarnation := fm_incarnation (sl_meta s') |} ∧
     sl_page s' = Some k ∧ fm_incarnation (sl_meta s') ≠ 0) →
  (∀ g, g ∈ gs' → guard_slot g = i →
     names [s'] {| fr_frame := 0; fr_incarnation := fr_incarnation (pg_ref g) |} (pg_key g) ∧
     0 ≤ fr_frame (pg_ref g)) →
  (∀ k, sl_page s = Some k → sl_page s' ≠ Some k → k ∉ ls') →
  buf_inv bp' pages' gs' ls' hole'.
Proof.
  intros Hi Hs Hf Hsz Hio Htr Hsame Hnew Hpins Hgs Hh Hh' Hslot Hmap Hg Hla.
  pose proof (lookup_lt_Some _ _ _ Hs) as Hlt.
  assert (∀ j u k, j ≠ i → bp_frames bp !! j = Some u → sl_page u = Some k →
            sl_page s ≠ Some k ∧ sl_page s' ≠ Some k) as Hother.
  { intros j u k Hj Hu Hk. destruct (bi_slot _ _ _ _ _ Hi j u Hu) as [_ Hu']. rewrite Hk in Hu'.
    destruct Hu' as (_ & _ & Hm & _).
    assert (sl_page s ≠ Some k) as Hn.
    { intros Hsk. destruct (bi_slot _ _ _ _ _ Hi i s Hs) as [_ Hs']. rewrite Hsk in Hs'.
      destruct Hs' as (_ & _ & Hm' & _). rewrite Hm in Hm'. injection Hm'. lia. }
    split; [done|]. intros Hk'. destruct (Hnew k Hk') as [?|?]; congruence. }
  assert (∀ r k, (Z.to_nat (fr_frame r) ≠ i) → names (bp_frames bp) r k →
            names (bp_frames bp') r k) as Hnames.
  { intros r k Hr (H0 & u & Hu & Hk & Hin). split; [done|]. exists u. rewrite Hf.
    by rewrite list_lookup_insert_ne. }
  split; [done|done| | | |].
  - intros j u. rewrite Hf, Hsz. destruct (decide (j = i)) as [->|Hj].
    { rewrite list_lookup_insert_eq by done. by intros [= <-]. }
    rewrite list_lookup_insert_ne by done. intros Hu.
    destruct (bi_slot _ _ _ _ _ Hi j u Hu) as [Hl Hu']. split; [done|].
    destruct (sl_page u) as [k|] eqn:Hk.
    + destruct (Hother j u k Hj Hu Hk) as [Hk1 Hk2]. destruct (Hsame k Hk1 Hk2) as (Hm & Hp & Hls).
      destruct Hu' as (? & ? & ? & ? & ? & ? & ?). rewrite Hm, Hp, (Hpins j Hj).
      rewrite (bool_decide_ext (k ∈ ls') (k ∈ ls)) by done. rewrite Hls.
      split_and!; try done. destruct Hh' as [-> | ->]; congruence.
    + destruct Hu' as [Hw ?]. split; [|done]. rewrite Hw.
      by destruct Hh as [-> | ->], Hh' as [-> | ->]; repeat case_decide; simplify_eq.
  - intros k r Hk. destruct (decide (sl_page s = Some k ∨ sl_page s' = Some k)) as [Ho|Ho].
    + destruct (Hmap k r Ho Hk) as (-> & Hk' & Hn). split; [cbn; lia|]. exists s'. cbn.
      rewrite Nat2Z.id, Hf, list_lookup_insert_eq by done. split_and!; [done|done|].
      by apply frame_incarnation_Some.
    + apply Decidable.not_or in Ho as [Ho1 Ho2]. destruct (Hsame k Ho1 Ho2) as (Hm & _).
      rewrite Hm in Hk. pose proof (bi_mapped _ _ _ _ _ Hi k r Hk) as Hn. apply Hnames; [|done].
      destruct Hn as (_ & u & Hu & Hku & _). intros <-. congruence.
  - intros g Hgi. destruct (decide (guard_slot g = i)) as [He|He].
    + destruct (Hg g Hgi He) as [(_ & u & Hu & Hku & Hin) H0]. cbn in Hu. injection Hu as <-.
      split; [done|]. exists s'. unfold guard_slot in He.
      by rewrite He, Hf, list_lookup_insert_eq.
    + apply Hnames; [done|]. apply (bi_guard _ _ _ _ _ Hi), Hgs; done.
  - intros k Hk. destruct (decide (sl_page s' = Some k)) as [Hk'|Hk'].
    + destruct Hslot as [_ Hslot]. rewrite Hk' in Hslot. destruct Hslot as (_ & _ & Hm & _). congruence.
    + destruct (decide (sl_page s = Some k)) as [Hk2|Hk2]; [by apply (Hla k) in Hk|].
      destruct (Hsame k Hk2 Hk') as (Hm & _ & Hls). rewrite Hm. by apply (bi_latched _ _ _ _ _ Hi), Hls.
Qed.

(** Steps that keep the page map. *)
Definition keeps_view bp (pages : gmap PageKey bytes) bp' (pages' : gmap PageKey bytes) : Prop :=
  bp_page_size bp' = bp_page_size bp ∧ length (bp_frames bp') = length (bp_frames bp) ∧
  (∀ k, mapped (bp_translation bp) k = None → mapped (bp_translation bp') k = None) ∧
  ∀ k, buf_view bp' pages' k = buf_view bp pages k.

Lemma keeps_view_refl bp pages : keeps_view bp pages bp pages.
Proof. done. Qed.

Lemma keeps_view_trans bp1 p1 bp2 p2 bp3 p3 :
  keeps_view bp1 p1 bp2 p2 → keeps_view bp2 p2 bp3 p3 → keeps_view bp1 p1 bp3 p3.
Proof.
  intros (? & ? & Hm & Hv) (? & ? & Hm' & Hv'). split_and!; [congruence..|auto|].
  intros k. by rewrite Hv', Hv.
Qed.

Lemma frame_bytes_insert bp fs i s' j :
  bp_frames bp = fs →
  frame_bytes_of j (set_frames bp (<[i := s']> fs)) =
    if decide (j = i ∧ (i < length fs)%nat) then sl_bytes s' else frame_bytes_of j bp.
Proof.
  intros <-. unfold frame_bytes_of. cbn. case_decide as Hd.
  - destruct Hd as [-> Hl]. by rewrite list_lookup_insert_eq.
  - destruct (decide (j = i)) as [->|Hj]; [|by rewrite list_lookup_insert_ne].
    rewrite list_insert_ge by naive_solver lia. done.
Qed.

(** The view after one frame changed. *)
Lemma buf_view_update bp bp' (pages pages' : gmap PageKey bytes) i s' k :
  bp_frames bp' = <[i := s']> (bp_frames bp) → (i < length (bp_frames bp))%nat →
  buf_view bp' pages' k =
    match mapped (bp_translation bp') k with
    | Some r => Some (if decide (Z.to_nat (fr_frame r) = i) then sl_bytes s'
                      else frame_bytes_of (Z.to_nat (fr_frame r)) bp)
    | None => pages' !! k
    end.
Proof.
  intros Hf Hl. unfold buf_view. destruct (mapped _ k) as [r|]; [|done]. f_equal.
  unfold frame_bytes_of. rewrite Hf. case_decide as Hd.
  - by rewrite Hd, list_lookup_insert_eq.
  - by rewrite list_lookup_insert_ne.
Qed.

(** The page of a frame is the one mapped to it. *)
Lemma buf_slot_page bp pages gs ls hole i s k :
  buf_inv bp pages gs ls hole → bp_frames bp !! i = Some s → sl_page s = Some k →
  mapped (bp_translation bp) k =
    Some {| fr_frame := Z.of_nat i; fr_incarnation := fm_incarnation (sl_meta s) |} ∧
  buf_view bp pages k = Some (sl_bytes s).
Proof.
  intros Hi Hs Hk. destruct (bi_slot _ _ _ _ _ Hi i s Hs) as [_ Hs']. rewrite Hk in Hs'.
  destruct Hs' as (_ & _ & Hm & _). split; [done|]. unfold buf_view. rewrite Hm. cbn.
  unfold frame_bytes_of. by rewrite Nat2Z.id, Hs.
Qed.

Lemma buf_slot_mapped bp pages gs ls hole k r :
  buf_inv bp pages gs ls hole → mapped (bp_translation bp) k = Some r →
  ∃ i s, bp_frames bp !! i = Some s ∧ sl_page s = Some k ∧ fr_frame r = Z.of_nat i ∧
         fr_incarnation r = fm_incarnation (sl_meta s) ∧ fm_incarnation (sl_meta s) ≠ 0.
Proof.
  intros Hi Hm. destruct (bi_mapped _ _ _ _ _ Hi k r Hm) as (H0 & s & Hs & Hk & Hin).
  apply frame_incarnation_Some in Hin as [Hin Hn]. exists (Z.to_nat (fr_frame r)), s.
  split_and!; [done|done|lia|done|congruence].
Qed.

(** A frame that keeps its page and its place keeps the view. *)
Lemma buf_inv_same_page bp bp' pages pages' gs gs' ls ls' i s s' k :
  buf_inv bp pages gs ls None → bp_frames bp !! i = Some s → sl_page s = Some k →
  bp_frames bp' = <[i := s']> (bp_frames bp) → bp_page_size bp' = bp_page_size bp →
  bp_translation bp' = bp_translation bp →
  io_repr (bp_io bp') pages' → (∀ k', k' ≠ k → pages' !! k' = pages !! k') →
  sl_page s' = Some k → sl_bytes s' = sl_bytes s → fm_incarnation (sl_meta s') = fm_incarnation (sl_meta s) →
  (∀ j, j ≠ i → pins gs' j = pins gs j) →
  (∀ g, g ∈ gs' → g ∈ gs ∨ (guard_slot g = i ∧ pg_key g = k ∧ 0 ≤ fr_frame (pg_ref g) ∧
                            fr_incarnation (pg_ref g) = fm_incarnation (sl_meta s))) →
  (∀ k', k' ≠ k → (k' ∈ ls' ↔ k' ∈ ls)) →
  fm_lifecycle (sl_meta s') = lifecycle_word Resident (pins gs' i) →
  (fm_dirty (sl_meta s') = false → pages' !! k = Some (sl_bytes s) ∧ k ∉ ls') →
  fm_version (sl_meta s') mod 2 = version_parity (bool_decide (k ∈ ls')) →
  (pins gs' i = 0 → k ∉ ls') →
  buf_inv bp' pages' gs' ls' None ∧ keeps_view bp pages bp' pages'.
Proof.
  intros Hi Hs Hk Hf Hsz Htr Hio Hpg Hk' Hb Hin Hpins Hg Hls Hw Hd Hv H0.
  pose proof (lookup_lt_Some _ _ _ Hs) as Hlt.
  destruct (bi_slot _ _ _ _ _ Hi i s Hs) as [Hlen Hs']. rewrite Hk in Hs'.
  destruct Hs' as (_ & _ & Hm & Hn & _). split.
  - eapply (buf_inv_update bp bp' pages pages' gs gs' ls ls' None None i s s');
      [done..| |by rewrite Htr; apply (bi_tr _ _ _ _ _ Hi)| |by left; congruence|done| |by left|by left| | | |].
    + done.
    + intros k2 Hk2 _. rewrite Htr. split; [done|]. assert (k2 ≠ k) by congruence. auto.
    + intros g Hgi Hne. destruct (Hg g Hgi) as [?|[? _]]; done.
    + split; [by rewrite Hb|]. rewrite Hk', Htr, Hb, Hin. by split_and!.
    + intros k2 r Ho. assert (k2 = k) as -> by (destruct Ho; congruence). rewrite Htr, Hm, Hin.
      by intros [= <-].
    + intros g Hgi He. assert (0 ≤ fr_frame (pg_ref g) ∧ pg_key g = k ∧
        fr_incarnation (pg_ref g) = fm_incarnation (sl_meta s)) as (Ha & Hgk & Hgi').
      { destruct (Hg g Hgi) as [Hold|(_ & ? & ? & ?)]; [|done].
        destruct (bi_guard _ _ _ _ _ Hi g Hold) as (Ha & u & Hu & Hku & Hiu).
        unfold guard_slot in He. rewrite He, Hs in Hu. injection Hu as <-.
        apply frame_incarnation_Some in Hiu as [? _]. split_and!; [done|congruence|done]. }
      split; [|done]. split; [done|]. exists s'. cbn. split_and!; [done|congruence|].
      apply frame_incarnation_Some. rewrite Hin, Hgi'. done.
    + congruence.
  - split; [done|]. split; [by rewrite Hf, length_insert|]. split; [by rewrite Htr|]. intros k2.
    rewrite (buf_view_update bp bp' pages pages' i s' k2) by done. rewrite Htr. unfold buf_view.
    destruct (mapped (bp_translation bp) k2) as [r|] eqn:Er.
    + destruct (decide (Z.to_nat (fr_frame r) = i)) as [He|He]; [|reflexivity].
      rewrite He, Hb. unfold frame_bytes_of. by rewrite Hs.
    + apply Hpg. congruence.
Qed.

(** *** Writeback *)
Definition target_state (t : WritebackTarget) : FrameState :=
  match t with TargetResident => Resident | TargetEvicting => Evicting end.

Lemma meta_restore m : fm_lifecycle m = lifecycle_word Resident 0 →
  with_lifecycle (with_lifecycle m (lifecycle_word Writeback 0)) (lifecycle_word Resident 0) = m.
Proof. destruct m. cbn. by intros ->. Qed.

Lemma slot_meta_id s : slot_meta s (sl_meta s) = s.
Proof. by destruct s. Qed.

Lemma writeback_run i target bp s k :
  bp_frames bp !! i = Some s → sl_page s = Some k → fm_dirty (sl_meta s) = true →
  fm_lifecycle (sl_meta s) = lifecycle_word Resident 0 →
  writeback i target bp =
    match io_write k (sl_bytes s) (bp_io bp) with
    | (io, Err e) => (set_slot (set_io bp io) i s, Err (BufferIo k PageWrite e))
    | (io, Ok _) =>
        (set_slot (set_io bp io) i
           (slot_meta s (with_lifecycle (with_dirty (sl_meta s) false)
                           (lifecycle_word (target_state target) 0))), Ok tt)
    end.
Proof.
  intros Hs Hk Hd Hw. unfold writeback. rewrite Hs. unfold try_begin_writeback. rewrite Hd. cbn [negb].
  rewrite (exclusive_ok Writeback _ Hw), Hk.
  destruct (io_write k (sl_bytes s) (bp_io bp)) as [io [[]|e]].
  - f_equal; destruct target; cbn [target_state];
      unfold finish_writeback, finish_writeback_for_evict, finish_writeback_to, frame_state;
      cbn [with_lifecycle fm_lifecycle]; rewrite word_state, bool_decide_true by done; cbn [negb];
      rewrite transition_ok by done; done.
  - do 2 f_equal. unfold abort_writeback. rewrite transition_ok by done. cbn [fst].
    by rewrite meta_restore, slot_meta_id.
Qed.

Lemma writeback_pinned i target bp s p :
  bp_frames bp !! i = Some s → fm_dirty (sl_meta s) = true →
  fm_lifecycle (sl_meta s) = lifecycle_word Resident p → p ≠ 0 →
  writeback i target bp = (bp, Err (FrameTransition (Z.of_nat i) FramePinned)).
Proof.
  intros Hs Hd Hw Hp. unfold writeback. rewrite Hs. unfold try_begin_writeback. rewrite Hd. cbn [negb].
  by rewrite (exclusive_pinned _ _ p).
Qed.

Lemma set_slot_same bp i s : bp_frames bp !! i = Some s → set_slot bp i s = bp.
Proof. intros Hs. unfold set_slot, set_frames. rewrite list_insert_id by done. by destruct bp. Qed.

Lemma set_slot_twice bp i s s' : set_slot (set_slot bp i s) i s' = set_slot bp i s'.
Proof. unfold set_slot, set_frames. cbn. by rewrite list_insert_insert_eq. Qed.

Lemma set_slot_lookup bp i s s' :
  bp_frames bp !! i = Some s → bp_frames (set_slot bp i s') !! i = Some s'.
Proof. intros Hs. apply list_lookup_insert_eq. by eapply lookup_lt_Some. Qed.

(** Failed or standalone writeback of a dirty frame: the page map is the same. *)
Lemma writeback_resident bp pages gs ls i s k bp' r :
  buf_inv bp pages gs ls None → bp_frames bp !! i = Some s → sl_page s = Some k →
  fm_dirty (sl_meta s) = true → writeback i TargetResident bp = (bp', r) →
  ∃ pages', (buf_inv bp' pages' gs ls None ∧ keeps_view bp pages bp' pages') ∧
            (r = Ok tt → pages' !! k = Some (sl_bytes s)).
Proof.
  intros Hi Hs Hk Hd. destruct (bi_slot _ _ _ _ _ Hi i s Hs) as [Hlen Hs']. rewrite Hk in Hs'.
  destruct Hs' as (_ & Hw & Hm & Hn & _ & Hv & Hp0).
  destruct (decide (pins gs i = 0)) as [Hp|Hp].
  - rewrite Hp in Hw. rewrite (writeback_run i _ bp s k) by done.
    destruct (io_write k (sl_bytes s) (bp_io bp)) as [io [[]|e]] eqn:Eio;
      intros [<- <-]%pair_equal_spec;
      destruct (io_write_repr _ _ _ _ _ _ (bi_io _ _ _ _ _ Hi) Eio) as (pages' & Hio & Hpg & Hok);
      exists pages'; (split;
        [eapply (buf_inv_same_page bp _ pages pages' gs gs ls ls i s); try done; auto; cbn|]).
    + by rewrite Hp.
    + intros _. by rewrite Hok.
    + by rewrite Hp.
    + congruence.
    + done.
  - rewrite (writeback_pinned i _ bp s (pins gs i)) by done. intros [<- <-]%pair_equal_spec.
    exists pages. split; [split; [done|apply keeps_view_refl]|done].
Qed.

(** *** Eviction *)

(** What a turn of the clock leaves. *)
Definition turn_ok bp pages bp' (gs : list PageGuard) (ls : gset PageKey) (i : nat)
    (t : ReserveTurn) : Prop :=
  ∃ pages', keeps_view bp pages bp' pages' ∧
    match t with
    | TurnReserved incarnation =>
        buf_inv bp' pages' gs ls (Some i) ∧
        ∃ s, bp_frames bp' !! i = Some s ∧ sl_page s = None ∧
             frame_incarnation (sl_meta s) = Some incarnation
    | _ => buf_inv bp' pages' gs ls None
    end.

(** A frame without guards has none among the guards of the pool. *)
Lemma pins_zero gs i g : pins gs i = 0 → g ∈ gs → guard_slot g ≠ i.
Proof.
  unfold pins, len. intros Hp Hg He. assert (g ∈ filter (λ g, guard_slot g = i) gs) as Hf.
  { by apply list_elem_of_filter. }
  destruct (filter _ gs) as [|x l]; [by apply not_elem_of_nil in Hf|]. cbn in Hp. lia.
Qed.

(** A frame that lost its page and its mapping, for the pages of [k] stored below. *)
Lemma buf_inv_detached bp bp' pages pages' gs ls i s s' k hole :
  buf_inv bp pages gs ls None → bp_frames bp !! i = Some s → sl_page s = Some k →
  pins gs i = 0 →
  bp_frames bp' = <[i := s']> (bp_frames bp) → bp_page_size bp' = bp_page_size bp →
  io_repr (bp_io bp') pages' → (∀ k', k' ≠ k → pages' !! k' = pages !! k') →
  pages' !! k = Some (sl_bytes s) →
  translation_ok (bp_translation bp') →
  (∀ k', mapped (bp_translation bp') k' =
     if decide (k = k') then None else mapped (bp_translation bp) k') →
  sl_page s' = None → sl_bytes s' = sl_bytes s →
  fm_version (sl_meta s') = fm_version (sl_meta s) →
  (hole = None ∨ hole = Some i) →
  fm_lifecycle (sl_meta s') = lifecycle_word (if decide (hole = Some i) then Loading else Free) 0 →
  buf_inv bp' pages' gs ls hole ∧ keeps_view bp pages bp' pages'.
Proof.
  intros Hi Hs Hk Hp0 Hf Hsz Hio Hpg Hpk Htr Hmap Hs'p Hs'b Hv Hh Hw.
  destruct (bi_slot _ _ _ _ _ Hi i s Hs) as [Hlen Hs']. rewrite Hk in Hs'.
  destruct Hs' as (_ & _ & Hm & _ & _ & Hvp & Hnl). specialize (Hnl Hp0).
  pose proof (lookup_lt_Some _ _ _ Hs) as Hlt. split.
  - eapply (buf_inv_update bp bp' pages pages' gs gs ls ls None hole i s s');
      [done..| | |done|auto|by left|done| | | |].
    + intros k2 Hk2 _. rewrite Hmap. assert (k ≠ k2) by congruence.
      rewrite decide_False by done. split_and!; auto.
    + congruence.
    + split; [by rewrite Hs'b|]. rewrite Hs'p. split; [done|].
      rewrite Hv, Hvp, bool_decide_false by done. done.
    + intros k2 r [Ho|Ho]; [|congruence]. assert (k2 = k) as -> by congruence.
      rewrite Hmap, decide_True by done. done.
    + intros g Hg He. by apply (pins_zero gs i g Hp0) in Hg.
    + congruence.
  - split; [done|]. split; [by rewrite Hf, length_insert|].
    split; [intros k2 Hk2; rewrite Hmap; by destruct (decide (k = k2))|]. intros k2.
    rewrite (buf_view_update bp bp' pages pages' i s' k2) by done. rewrite Hmap.
    destruct (decide (k = k2)) as [<-|Hne].
    + rewrite Hpk. unfold buf_view. rewrite Hm. cbn. unfold frame_bytes_of. by rewrite Nat2Z.id, Hs.
    + unfold buf_view. destruct (mapped (bp_translation bp) k2) as [r|] eqn:Er; [|by apply Hpg].
      destruct (decide (Z.to_nat (fr_frame r) = i)) as [He|He]; [|reflexivity].
      exfalso. destruct (buf_slot_mapped _ _ _ _ _ _ _ Hi Er) as (j & u & Hu & Hku & Hj & _).
      assert (j = i) as -> by lia. congruence.
Qed.

Lemma detach_run bp i s k :
  translation_ok (bp_translation bp) → bp_frames bp !! i = Some s → sl_page s = Some k →
  mapped (bp_translation bp) k =
    Some {| fr_frame := Z.of_nat i; fr_incarnation := fm_incarnation (sl_meta s) |} →
  fm_incarnation (sl_meta s) ≠ 0 →
  ∃ t, detach_evicted i bp = (set_slot (set_translation bp t) i (slot_page s None), Ok tt) ∧
       translation_ok t ∧
       ∀ k', mapped t k' = if decide (k = k') then None else mapped (bp_translation bp) k'.
Proof.
  intros Ht Hs Hk Hm Hn. unfold detach_evicted. rewrite Hs, Hk.
  rewrite (proj2 (frame_incarnation_Some (sl_meta s) (fm_incarnation (sl_meta s)))) by done.
  destruct (remove_ok (bp_translation bp) k
    {| fr_frame := Z.of_nat i; fr_incarnation := fm_incarnation (sl_meta s) |} Ht)
    as (t & Er & Ht' & Hmap).
  rewrite Er. exists t. split; [done|]. split; [done|]. intros k'. rewrite Hmap.
  repeat case_decide; naive_solver.
Qed.

(** From [Evicting] to the reserved frame. *)
Lemma reuse_evicted_spec bp pages pages' io gs ls i s k m bp' t :
  buf_inv bp pages gs ls None → bp_frames bp !! i = Some s → sl_page s = Some k → pins gs i = 0 →
  io_repr io pages' → (∀ k', k' ≠ k → pages' !! k' = pages !! k') →
  pages' !! k = Some (sl_bytes s) →
  fm_lifecycle m = lifecycle_word Evicting 0 → fm_incarnation m = fm_incarnation (sl_meta s) →
  fm_version m = fm_version (sl_meta s) →
  reuse_evicted i (set_slot (set_io bp io) i (slot_meta s m)) = (bp', t) →
  turn_ok bp pages bp' gs ls i t.
Proof.
  intros Hi Hs Hk Hp0 Hio Hpg Hpk Hw Hin Hv. unfold reuse_evicted.
  destruct (buf_slot_page _ _ _ _ _ _ _ _ Hi Hs Hk) as [Hm _].
  destruct (bi_slot _ _ _ _ _ Hi i s Hs) as [_ Hs']. rewrite Hk in Hs'. destruct Hs' as (_ & _ & _ & Hn & _).
  destruct (detach_run (set_slot (set_io bp io) i (slot_meta s m)) i (slot_meta s m) k)
    as (t1 & Ed & Ht1 & Hmap).
  { apply (bi_tr _ _ _ _ _ Hi). } { by eapply set_slot_lookup. } { done. }
  { cbn [slot_meta sl_meta]. by rewrite Hin. } { cbn [slot_meta sl_meta]. by rewrite Hin. }
  rewrite Ed. change (bp_translation (set_slot (set_io bp io) i (slot_meta s m)))
    with (bp_translation bp) in Hmap.
  cbv beta iota. unfold meta_step at 1. erewrite set_slot_lookup by (by eapply set_slot_lookup).
  unfold finish_evict. cbn [slot_page slot_meta sl_meta]. rewrite transition_ok by done.
  cbn [map_err]. unfold meta_step. erewrite set_slot_lookup by (by do 2 eapply set_slot_lookup).
  cbn [slot_page slot_meta sl_meta].
  destruct (begin_load (with_lifecycle m (lifecycle_word Free 0))) as [m2 r] eqn:Eb.
  apply begin_load_free in Eb as [Hv2 Hr]; [|done]. cbn [with_lifecycle fm_version] in Hv2.
  rewrite !set_slot_twice.
  assert (∀ hole, (hole = None ∨ hole = Some i) →
    fm_lifecycle m2 = lifecycle_word (if decide (hole = Some i) then Loading else Free) 0 →
    let bp2 := set_slot (set_translation (set_slot (set_io bp io) i (slot_meta s m)) t1) i
      (slot_meta (slot_meta (slot_page (slot_meta s m) None)
        (with_lifecycle m (lifecycle_word Free 0))) m2) in
    buf_inv bp2 pages' gs ls hole ∧ keeps_view bp pages bp2 pages') as Hfin.
  { intros hole Hh Hwm. eapply (buf_inv_detached bp _ pages pages' gs ls i s
      (slot_meta (slot_meta (slot_page (slot_meta s m) None)
        (with_lifecycle m (lifecycle_word Free 0))) m2) k); try done.
    - apply list_insert_insert_eq.
    - cbn. congruence. }
  destruct r as [inc|e]; cbn [map_err].
  - destruct Hr as [Hwm Hinc]. intros [<- <-]%pair_equal_spec.
    destruct (Hfin (Some i)) as [Hb Hkv]; [by right|by case_decide|].
    exists pages'. split; [done|]. split; [done|]. eexists.
    split; [by do 2 eapply set_slot_lookup|done].
  - destruct Hr as [-> ->]. intros [<- <-]%pair_equal_spec.
    destruct (Hfin None) as [Hb Hkv]; [by left|done|]. exists pages'. split; [done|done].
Qed.

Lemma turn_same bp pages gs ls i : buf_inv bp pages gs ls None → turn_ok bp pages bp gs ls i TurnContinue.
Proof. intros Hi. exists pages. split; [apply keeps_view_refl|done]. Qed.

Lemma evict_frame_spec bp pages gs ls i s bp' t :
  buf_inv bp pages gs ls None → bp_frames bp !! i = Some s → frame_state (sl_meta s) = Resident →
  evict_frame i s bp = (bp', t) → turn_ok bp pages bp' gs ls i t.
Proof.
  intros Hi Hs Hr. destruct (bi_slot _ _ _ _ _ Hi i s Hs) as [Hlen Hs'].
  destruct (sl_page s) as [k|] eqn:Hk; cycle 1.
  { destruct Hs' as [Hw _]. unfold frame_state in Hr. rewrite Hw, word_state in Hr. by case_decide. }
  destruct Hs' as (_ & Hw & Hm & Hn & Hc & Hv & Hl). unfold evict_frame.
  destruct (fm_dirty (sl_meta s)) eqn:Hd; (destruct (decide (pins gs i = 0)) as [Hp|Hp]).
  - rewrite Hp in Hw. rewrite (writeback_run i _ bp s k) by done.
    destruct (io_write k (sl_bytes s) (bp_io bp)) as [io [[]|e]] eqn:Eio;
      destruct (io_write_repr _ _ _ _ _ _ (bi_io _ _ _ _ _ Hi) Eio) as (pages' & Hio & Hpg & Hok).
    + apply (reuse_evicted_spec bp pages pages' io gs ls i s k); try done. by apply Hok.
    + intros [<- <-]%pair_equal_spec. exists pages'.
      destruct (buf_inv_same_page bp (set_slot (set_io bp io) i s) pages pages' gs gs ls ls i s s k)
        as [? ?]; try done; auto; [by rewrite Hp|congruence].
  - rewrite (writeback_pinned i _ bp s (pins gs i)) by done. intros [<- <-]%pair_equal_spec.
    by apply turn_same.
  - rewrite Hp in Hw. unfold meta_step. rewrite Hs. unfold try_begin_evict. rewrite Hd.
    rewrite (exclusive_ok Evicting _ Hw). cbn [map_err].
    assert (set_slot bp i (slot_meta s (with_lifecycle (sl_meta s) (lifecycle_word Evicting 0))) =
            set_slot (set_io bp (bp_io bp)) i
              (slot_meta s (with_lifecycle (sl_meta s) (lifecycle_word Evicting 0)))) as -> by done.
    apply (reuse_evicted_spec bp pages pages (bp_io bp) gs ls i s k); try done.
    + apply (bi_io _ _ _ _ _ Hi).
    + by apply Hc.
  - unfold meta_step. rewrite Hs. unfold try_begin_evict. rewrite Hd.
    rewrite (exclusive_pinned _ _ (pins gs i)) by done. cbn [map_err].
    rewrite slot_meta_id, set_slot_same by done. intros [<- <-]%pair_equal_spec. by apply turn_same.
Qed.

(** A free frame is reserved. *)
Lemma reserve_free_spec bp pages gs ls i s m r :
  buf_inv bp pages gs ls None → bp_frames bp !! i = Some s → frame_state (sl_meta s) = Free →
  begin_load (sl_meta s) = (m, r) →
  turn_ok bp pages (set_slot bp i (slot_meta s m)) gs ls i
    (match r with Ok inc => TurnReserved inc | Err _ => TurnContinue end).
Proof.
  intros Hi Hs Hr Hb. destruct (bi_slot _ _ _ _ _ Hi i s Hs) as [Hlen Hs'].
  pose proof (lookup_lt_Some _ _ _ Hs) as Hlt.
  destruct (sl_page s) as [k|] eqn:Hk.
  { destruct Hs' as (_ & Hw & _). unfold frame_state in Hr. by rewrite Hw, word_state in Hr. }
  destruct Hs' as [Hw Hv]. rewrite decide_False in Hw by done.
  apply begin_load_free in Hb as [Hv2 Hb]; [|done]. destruct r as [inc|e].
  - destruct Hb as [Hw2 Hinc]. exists pages. split; [|split].
    + split; [done|]. split; [apply length_insert|]. split; [done|]. intros k2.
      rewrite (buf_view_update bp (set_slot bp i (slot_meta s m)) pages pages i (slot_meta s m) k2) by done.
      unfold buf_view. cbn [bp_translation set_slot set_frames].
      destruct (mapped _ k2) as [r|] eqn:Er; [|done].
      destruct (decide _) as [He|He]; [|reflexivity].
      rewrite He. unfold frame_bytes_of. by rewrite Hs.
    + eapply (buf_inv_update bp _ pages pages gs gs ls ls None (Some i) i s (slot_meta s m));
        [done..| | | | |done|auto|by left|by right| | | |]; cbn [bp_translation bp_io set_slot set_frames].
      * apply (bi_io _ _ _ _ _ Hi).
      * apply (bi_tr _ _ _ _ _ Hi).
      * done.
      * cbn [slot_meta sl_page]. congruence.
      * split; [done|]. cbn [slot_meta sl_page sl_meta]. rewrite Hk. case_decide; [|done].
        split; [done|congruence].
      * intros k2 r [Ho|Ho]; cbn [slot_meta sl_page] in Ho; congruence.
      * intros g Hg He. destruct (bi_guard _ _ _ _ _ Hi g Hg) as (_ & u & Hu & Hku & _).
        unfold guard_slot in He. rewrite He in Hu. congruence.
      * congruence.
    + exists (slot_meta s m). split; [by eapply set_slot_lookup|done].
  - destruct Hb as [-> _]. rewrite slot_meta_id, set_slot_same by done. by apply turn_same.
Qed.

Lemma reserve_turn_spec bp pages gs ls i bp' t :
  buf_inv bp pages gs ls None → reserve_turn i bp = (bp', t) → turn_ok bp pages bp' gs ls i t.
Proof.
  intros Hi. unfold reserve_turn. destruct (bp_frames bp !! i) as [s|] eqn:Hs; cycle 1.
  { intros [<- <-]%pair_equal_spec. by apply turn_same. }
  destruct (frame_state (sl_meta s)) eqn:Hst; try (intros [<- <-]%pair_equal_spec; by apply turn_same).
  - unfold meta_step. rewrite Hs. destruct (begin_load (sl_meta s)) as [m r] eqn:Eb.
    pose proof (reserve_free_spec _ _ _ _ _ _ _ _ Hi Hs Hst Eb) as Ht.
    destruct r; cbn [map_err]; by intros [<- <-]%pair_equal_spec.
  - destruct (sl_referenced s) eqn:Hr; [|by apply evict_frame_spec].
    intros [<- <-]%pair_equal_spec. exists pages.
    destruct (bi_slot _ _ _ _ _ Hi i s Hs) as [Hlen Hs']. destruct (sl_page s) as [k|] eqn:Hk; cycle 1.
    { destruct Hs' as [Hw _]. unfold frame_state in Hst. rewrite Hw, word_state in Hst. by case_decide. }
    destruct Hs' as (_ & Hw & Hm & Hn & Hc & Hv & Hl).
    destruct (buf_inv_same_page bp (set_slot bp i (slot_referenced s false)) pages pages gs gs ls ls
                i s (slot_referenced s false) k) as [? ?]; try done; auto.
    apply (bi_io _ _ _ _ _ Hi).
Qed.

Lemma buf_inv_clock bp c pages gs ls hole :
  buf_inv bp pages gs ls hole → buf_inv (set_clock bp c) pages gs ls hole.
Proof. intros [? ? ? ? ?]. by split. Qed.

Lemma reserve_loop_spec n : ∀ bp pages gs ls bp' r,
  buf_inv bp pages gs ls None → reserve_loop n bp = (bp', r) →
  ∃ pages', keeps_view bp pages bp' pages' ∧
    match r with
    | Ok (i, incarnation) =>
        buf_inv bp' pages' gs ls (Some i) ∧
        ∃ s, bp_frames bp' !! i = Some s ∧ sl_page s = None ∧
             frame_incarnation (sl_meta s) = Some incarnation
    | Err _ => buf_inv bp' pages' gs ls None
    end.
Proof.
  induction n as [|n IH]; intros bp pages gs ls bp' r Hi.
  { intros [<- <-]%pair_equal_spec. exists pages. split; [apply keeps_view_refl|done]. }
  cbn [reserve_loop]. destruct (reserve_turn _ _) as [bp1 t] eqn:Et.
  apply (reserve_turn_spec _ pages gs ls) in Et as (pages1 & Hk & Ht); [|by apply buf_inv_clock].
  assert (keeps_view bp pages bp1 pages1) as Hk1 by exact Hk.
  destruct t as [inc| |e].
  - intros [<- <-]%pair_equal_spec. exists pages1. done.
  - intros Er. destruct (IH _ _ _ _ _ _ Ht Er) as (pages' & Hk2 & Hr). exists pages'.
    split; [by eapply keeps_view_trans|done].
  - intros [<- <-]%pair_equal_spec. exists pages1. done.
Qed.

(** *** Loads in progress

    The state between the claim of a page and the end of its load: without the
    claim it would be a pool with a reserved frame. *)
Definition claimed bp (view : PageKey → option bytes) (gs : list PageGuard) (ls : gset PageKey)
    (rl : ReservedLoad) (pages : gmap PageKey bytes) : Prop :=
  ∃ t s, buf_inv (set_translation bp t) pages gs ls (Some (rl_slot rl)) ∧
    (∀ k, buf_view (set_translation bp t) pages k = view k) ∧
    bp_frames bp !! rl_slot rl = Some s ∧ sl_page s = None ∧
    frame_incarnation (sl_meta s) = Some (fr_incarnation (rl_ref rl)) ∧
    fr_frame (rl_ref rl) = Z.of_nat (rl_slot rl) ∧
    mapped t (rl_key rl) = None ∧ translation_ok (bp_translation bp) ∧
    ∀ k, mapped (bp_translation bp) k = if decide (rl_key rl = k) then Some (rl_ref rl) else mapped t k.

(** Abandoning a reserved frame, in which any bytes may have been left. *)
Lemma abort_hole bp pages gs ls i s b :
  buf_inv bp pages gs ls (Some i) → bp_frames bp !! i = Some s → len b = bp_page_size bp →
  let bp' := abort_loading i (set_slot bp i (slot_bytes s b)) in
  buf_inv bp' pages gs ls None ∧ keeps_view bp pages bp' pages.
Proof.
  intros Hi Hs Hb. pose proof (lookup_lt_Some _ _ _ Hs) as Hlt.
  destruct (bi_slot _ _ _ _ _ Hi i s Hs) as [Hlen Hs'].
  destruct (sl_page s) as [k|] eqn:Hk; [by destruct Hs' as [? _]|]. destruct Hs' as [Hw Hv].
  rewrite decide_True in Hw by done. unfold abort_loading. erewrite set_slot_lookup by done.
  rewrite set_slot_twice. unfold abort_load. cbn [slot_bytes sl_meta].
  rewrite transition_ok by done. cbn [fst]. set (s' := slot_meta _ _). split.
  - eapply (buf_inv_update bp _ pages pages gs gs ls ls (Some i) None i s s');
      [done..| | | | |done|auto|by right|by left| | | |].
    + apply (bi_io _ _ _ _ _ Hi).
    + apply (bi_tr _ _ _ _ _ Hi).
    + done.
    + done.
    + split; [done|]. by split.
    + intros k2 r [Ho|Ho]; [congruence|done].
    + intros g Hg He. destruct (bi_guard _ _ _ _ _ Hi g Hg) as (_ & u & Hu & Hku & _).
      unfold guard_slot in He. rewrite He in Hu. congruence.
    + congruence.
  - split; [done|]. split; [apply length_insert|]. split; [done|]. intros k2.
    rewrite (buf_view_update bp (set_slot bp i s') pages pages i s' k2) by done. unfold buf_view.
    change (bp_translation (set_slot bp i s')) with (bp_translation bp).
    destruct (mapped _ k2) as [r|] eqn:Er; [|done]. destruct (decide _) as [He|He]; [|reflexivity].
    exfalso. destruct (buf_slot_mapped _ _ _ _ _ _ _ Hi Er) as (j & u & Hu & Hku & Hj & _).
    assert (j = i) as -> by lia. congruence.
Qed.

(** Installing an image in the claimed frame. *)
Lemma install_claimed bp view gs ls rl pages bp' s' b :
  claimed bp view gs ls rl pages →
  bp_frames bp' = <[rl_slot rl := s']> (bp_frames bp) → bp_page_size bp' = bp_page_size bp →
  bp_translation bp' = bp_translation bp → io_repr (bp_io bp') pages →
  sl_page s' = Some (rl_key rl) → sl_bytes s' = b → len b = bp_page_size bp →
  fm_lifecycle (sl_meta s') = lifecycle_word Resident 1 →
  frame_incarnation (sl_meta s') = Some (fr_incarnation (rl_ref rl)) →
  (∀ s, bp_frames bp !! rl_slot rl = Some s → fm_version (sl_meta s') = fm_version (sl_meta s)) →
  (fm_dirty (sl_meta s') = false → pages !! rl_key rl = Some b) → rl_key rl ∉ ls →
  buf_inv bp' pages ({| pg_key := rl_key rl; pg_ref := rl_ref rl |} :: gs) ls None ∧
  ∀ k, buf_view bp' pages k = if decide (rl_key rl = k) then Some b else view k.
Proof.
  intros (t & s & Hi & Hview & Hs & Hsp & Hinc & Hfr & Hnone & Htr & Hmap) Hf Hsz Ht Hio Hp Hb Hlen
    Hw Hin Hver Hd Hls.
  pose proof (lookup_lt_Some _ _ _ Hs) as Hlt. set (i := rl_slot rl) in *.
  destruct (bi_slot _ _ _ _ _ Hi i s Hs) as [_ Hs']. rewrite Hsp in Hs'. destruct Hs' as [_ Hv].
  apply frame_incarnation_Some in Hin as [Hin Hn0].
  assert (∀ g, g ∈ gs → guard_slot g ≠ i) as Hng.
  { intros g Hg He. destruct (bi_guard _ _ _ _ _ Hi g Hg) as (_ & u & Hu & Hku & _).
    unfold guard_slot in He. rewrite He in Hu. cbn in Hu. congruence. }
  assert (pins gs i = 0) as Hp0.
  { unfold pins. destruct (filter _ gs) as [|g l] eqn:E; [done|]. exfalso.
    assert (g ∈ filter (λ g, guard_slot g = i) gs) as Hg by (rewrite E; constructor).
    apply list_elem_of_filter in Hg as [He Hg]. by apply (Hng g). }
  set (g0 := {| pg_key := rl_key rl; pg_ref := rl_ref rl |}).
  assert (guard_slot g0 = i) as Hg0 by (unfold guard_slot; cbn; rewrite Hfr; lia).
  split.
  - eapply (buf_inv_update (set_translation bp t) bp' pages pages gs (g0 :: gs) ls ls (Some i) None i s s');
      [done..| | | | | |by right|by left| | | |].
    + by rewrite Ht.
    + intros k Hk1 Hk2. rewrite Ht, Hmap. cbn. rewrite decide_False by congruence. done.
    + intros k Hk. right. cbn. congruence.
    + intros j Hj. unfold pins. rewrite filter_cons_False by congruence. done.
    + intros g Hg He. apply elem_of_cons in Hg as [-> | Hg]; [done|done].
    + split; [by rewrite Hb|]. rewrite Hp, Ht, Hmap, decide_True by done. cbn [bp_page_size].
      assert (pins (g0 :: gs) i = 1) as Hp1.
      { unfold pins in *. rewrite filter_cons_True by done. unfold len in *. cbn. lia. }
      rewrite Hp1, Hb, Hin, <-Hfr, (Hver s Hs), Hv, bool_decide_false by done.
      split_and!; try done; [by destruct (rl_ref rl)|]. intros Hdf. by split; [apply Hd|].
    + intros k r [Ho|Ho]; [congruence|]. assert (k = rl_key rl) as -> by congruence.
      rewrite Ht, Hmap, decide_True by done. intros [= <-]. rewrite <-Hfr, Hin. split_and!; try done.
      by destruct (rl_ref rl).
    + intros g Hg He. apply elem_of_cons in Hg as [-> | Hg]; [|by apply Hng in Hg].
      cbn. rewrite Hfr. split; [|lia]. split; [done|]. exists s'. split_and!; [done|done|].
      by apply frame_incarnation_Some.
    + congruence.
  - intros k. rewrite (buf_view_update bp bp' pages pages i s' k) by done.
    rewrite Ht, Hmap. case_decide as Hk.
    + rewrite Hfr, decide_True by lia. by rewrite Hb.
    + rewrite <-Hview. unfold buf_view. cbn [bp_translation set_translation].
      destruct (mapped t k) as [r|] eqn:Er; [|done]. destruct (decide _) as [He|He]; [|reflexivity].
      exfalso. destruct (buf_slot_mapped _ _ _ _ _ _ _ Hi Er) as (j & u & Hu & Hku & Hj & _).
      assert (j = i) as -> by lia. cbn in Hu. congruence.
Qed.

(** Only the contents of the translation matter. *)
Lemma buf_inv_translation bp bp' pages gs ls hole :
  buf_inv bp pages gs ls hole → bp_frames bp' = bp_frames bp → bp_page_size bp' = bp_page_size bp →
  io_repr (bp_io bp') pages → translation_ok (bp_translation bp') →
  (∀ k, mapped (bp_translation bp') k = mapped (bp_translation bp) k) →
  buf_inv bp' pages gs ls hole ∧ keeps_view bp pages bp' pages.
Proof.
  intros [Hio Htr Hs Hm Hg Hl] Hf Hsz Hio' Htr' Hmap. split.
  - split; [done|done| | | |]; rewrite ?Hf, ?Hsz.
    + intros i s His. destruct (Hs i s His) as [Hlen Hs']. split; [done|].
      destruct (sl_page s) as [k|]; [|done]. by rewrite Hmap.
    + intros k r. rewrite Hmap. apply Hm.
    + done.
    + intros k. rewrite Hmap. apply Hl.
  - split_and!; [done|by rewrite Hf|intros k; by rewrite Hmap|]. intros k. unfold buf_view, frame_bytes_of.
    by rewrite Hmap, Hf.
Qed.

Lemma pool_get_ok bp pages gs ls hole key :
  buf_inv bp pages gs ls hole → pool_get key bp = Ok (mapped (bp_translation bp) key).
Proof. intros Hi. unfold pool_get. by rewrite translation_get_ok by apply (bi_tr _ _ _ _ _ Hi). Qed.

(** What [reserve_page] leaves. *)
Definition reserve_ok bp pages bp' (gs : list PageGuard) (ls : gset PageKey) (key : PageKey)
    (r : result (option ReservedLoad) BufferError) : Prop :=
  bp_page_size bp' = bp_page_size bp ∧
  ∃ pages', match r with
    | Ok (Some rl) =>
        claimed bp' (buf_view bp pages) gs ls rl pages' ∧ rl_key rl = key ∧
        rl_owns_mapping rl = true ∧ mapped (bp_translation bp) key = None
    | Ok None => mapped (bp_translation bp) key ≠ None ∧ bp' = bp
    | Err _ => buf_inv bp' pages' gs ls None ∧ keeps_view bp pages bp' pages'
    end.

Lemma reserve_page_spec bp pages gs ls key bp' r :
  buf_inv bp pages gs ls None → reserve_page key bp = (bp', r) →
  reserve_ok bp pages bp' gs ls key r.
Proof.
  intros Hi. unfold reserve_page. rewrite (pool_get_ok _ _ _ _ _ _ Hi).
  destruct (mapped (bp_translation bp) key) as [r0|] eqn:Em.
  { intros [<- <-]%pair_equal_spec. split; [done|]. exists pages. by rewrite Em. }
  destruct (reserve_for_load bp) as [bp1 r1] eqn:Er.
  apply (reserve_loop_spec _ _ pages gs ls) in Er as (pages1 & Hk & Hr1); [|done].
  pose proof Hk as (Hsz & _ & Hmn & Hv). destruct r1 as [[i inc]|e].
  - destruct Hr1 as (Hi1 & s & Hs & Hsp & Hin).
    destruct (publish_ok (bp_translation bp1) key {| fr_frame := Z.of_nat i; fr_incarnation := inc |})
      as (t & Ep & Ht & Hmap); [apply (bi_tr _ _ _ _ _ Hi1)|].
    pose proof (Hmn key Em) as Em1. rewrite Em1 in Ep, Hmap. rewrite Ep.
    intros [<- <-]%pair_equal_spec. split; [done|]. exists pages1. split_and!; [|done|done|done].
    exists (bp_translation bp1), s. cbn [rl_slot rl_key rl_ref fr_frame fr_incarnation].
    assert (set_translation (set_translation bp1 t) (bp_translation bp1) = bp1) as -> by (by destruct bp1).
    by split_and!.
  - assert (∀ e', reserve_ok bp pages bp1 gs ls key (Err e')) as Hfail.
    { intros e'. split; [done|]. by exists pages1. }
    destruct e; try (intros [<- <-]%pair_equal_spec; apply Hfail).
    rewrite (pool_get_ok _ _ _ _ _ _ Hr1), (Hmn key Em). intros [<- <-]%pair_equal_spec. apply Hfail.
Qed.

(** A load that fails leaves the page map as it was. *)
Lemma drop_claimed bp view gs ls rl pages io b :
  claimed bp view gs ls rl pages → rl_owns_mapping rl = true → io_repr io pages →
  len b = bp_page_size bp →
  let bp' := drop_reserved rl (set_bytes (rl_slot rl) b (set_io bp io)) in
  buf_inv bp' pages gs ls None ∧ bp_page_size bp' = bp_page_size bp ∧
  ∀ k, buf_view bp' pages k = view k.
Proof.
  intros (t & s & Hi & Hview & Hs & Hsp & Hinc & Hfr & Hnone & Htr & Hmap) Hown Hio Hb.
  cbn zeta. unfold drop_reserved. rewrite Hown. unfold set_bytes. cbn [bp_frames set_io].
  rewrite Hs. cbn [bp_translation set_slot set_frames set_io].
  destruct (remove_ok (bp_translation bp) (rl_key rl) (rl_ref rl) Htr) as (t' & Er & Ht' & Hmap').
  rewrite Er. cbn [fst].
  destruct (buf_inv_translation (set_translation bp t) (set_translation (set_io bp io) t')
              pages gs ls (Some (rl_slot rl))) as [Hi' Hk']; try done.
  { intros k. cbn [bp_translation set_translation]. rewrite Hmap', !Hmap.
    rewrite (decide_True (P:=rl_key rl = rl_key rl)) by done.
    destruct (decide (rl_key rl = k)) as [<-|Hne]; [|by rewrite decide_False by naive_solver].
    by rewrite decide_True, Hnone by done. }
  destruct (abort_hole _ _ _ _ _ s b Hi') as [Hi2 Hk2]; [done|done|].
  assert (set_slot (set_translation (set_io bp io) t') (rl_slot rl) (slot_bytes s b) =
          set_translation (set_slot (set_io bp io) (rl_slot rl) (slot_bytes s b)) t') as E by done.
  rewrite E in Hi2, Hk2. split; [done|]. destruct Hk2 as (Hsz & _ & _ & Hv2). split; [done|].
  intros k. rewrite Hv2, <-Hview. apply Hk'.
Qed.

(** The end of a load whose frame is initialized. *)
Lemma finish_run bp rl dirty s :
  bp_frames bp !! rl_slot rl = Some s → fm_lifecycle (sl_meta s) = lifecycle_word Loading 0 →
  frame_incarnation (sl_meta s) = Some (fr_incarnation (rl_ref rl)) →
  fr_frame (rl_ref rl) = Z.of_nat (rl_slot rl) →
  finish_reserved rl dirty bp =
    (set_slot bp (rl_slot rl)
       (slot_referenced (slot_meta s
          (with_lifecycle (with_dirty (sl_meta s) (dirty || fm_dirty (sl_meta s)))
             (lifecycle_word Resident 1))) true),
     Ok {| pg_key := rl_key rl; pg_ref := rl_ref rl |}).
Proof.
  intros Hs Hw Hin Hfr. unfold finish_reserved, meta_step. rewrite Hs.
  assert ((if dirty then finish_new_page_pinned else finish_load_pinned) (sl_meta s) =
    (with_lifecycle (with_dirty (sl_meta s) (dirty || fm_dirty (sl_meta s))) (lifecycle_word Resident 1),
     Ok (fr_incarnation (rl_ref rl)))) as ->.
  { destruct dirty; unfold finish_new_page_pinned, finish_load_pinned; cbn [orb].
    - change (frame_incarnation (with_dirty (sl_meta s) true)) with (frame_incarnation (sl_meta s)).
      rewrite Hin. cbn [fm_lifecycle with_dirty]. by rewrite Hw, Z.eqb_refl.
    - rewrite Hin, Hw, Z.eqb_refl. by destruct (sl_meta s). }
  cbn [map_err]. unfold guard_from_pin. rewrite Hfr, Nat2Z.id. erewrite set_slot_lookup by done.
  by rewrite set_slot_twice.
Qed.

Lemma hole_slot bp view gs ls rl pages :
  claimed bp view gs ls rl pages →
  ∃ s, bp_frames bp !! rl_slot rl = Some s ∧ len (sl_bytes s) = bp_page_size bp ∧
       fm_lifecycle (sl_meta s) = lifecycle_word Loading 0 ∧
       frame_incarnation (sl_meta s) = Some (fr_incarnation (rl_ref rl)) ∧
       fr_frame (rl_ref rl) = Z.of_nat (rl_slot rl) ∧ io_repr (bp_io bp) pages ∧ rl_key rl ∉ ls ∧
       view (rl_key rl) = pages !! rl_key rl.
Proof.
  intros (t & s & Hi & Hview & Hs & Hsp & Hinc & Hfr & Hnone & Htr & Hmap). exists s.
  destruct (bi_slot _ _ _ _ _ Hi _ s Hs) as [Hlen Hs']. rewrite Hsp in Hs'. destruct Hs' as [Hw _].
  rewrite decide_True in Hw by done. split_and!; try done.
  - apply (bi_io _ _ _ _ _ Hi).
  - intros Hl. by apply (bi_latched _ _ _ _ _ Hi) in Hl.
  - rewrite <-Hview. unfold buf_view. cbn [bp_translation set_translation]. by rewrite Hnone.
Qed.

(** What a step leaves of a pool that was the page map [V]. *)
Definition page_map bp (gs : list PageGuard) (ls : gset PageKey) (view : PageKey → option bytes) : Prop :=
  ∃ pages, buf_inv bp pages gs ls None ∧ ∀ k, buf_view bp pages k = view k.

Lemma initialize_run i key b bp s :
  bp_frames bp !! i = Some s →
  initialize_slot i key b bp = set_slot bp i (slot_page (slot_bytes s b) (Some key)).
Proof.
  intros Hs. unfold initialize_slot, set_bytes. rewrite Hs. unfold set_page_identity.
  erewrite set_slot_lookup by done. by rewrite set_slot_twice.
Qed.

(** Initializing and finishing the claimed load. *)
Lemma finish_claimed bp view gs ls rl pages io b dirty bp' r :
  claimed bp view gs ls rl pages → io_repr io pages → len b = bp_page_size bp →
  (dirty = false → pages !! rl_key rl = Some b) →
  finish_reserved rl dirty (initialize_slot (rl_slot rl) (rl_key rl) b (set_io bp io)) = (bp', r) →
  bp_page_size bp' = bp_page_size bp ∧ r = Ok {| pg_key := rl_key rl; pg_ref := rl_ref rl |} ∧
  page_map bp' ({| pg_key := rl_key rl; pg_ref := rl_ref rl |} :: gs) ls
    (λ k, if decide (rl_key rl = k) then Some b else view k).
Proof.
  intros Hcl Hio Hb Hd.
  destruct (hole_slot _ _ _ _ _ _ Hcl) as (s & Hs & Hlen & Hw & Hin & Hfr & _ & Hls & _).
  rewrite (initialize_run _ _ _ _ s) by done.
  rewrite (finish_run _ rl dirty (slot_page (slot_bytes s b) (Some (rl_key rl))));
    [|by eapply set_slot_lookup|done..].
  cbn [slot_page slot_bytes sl_meta]. rewrite set_slot_twice. intros [<- <-]%pair_equal_spec.
  split; [done|]. split; [done|]. exists pages.
  eapply (install_claimed bp view gs ls rl pages); try done.
  - cbn. intros s0. rewrite Hs. by intros [= <-].
  - cbn. intros [-> _]%orb_false_iff. by apply Hd.
Qed.

Lemma load_miss_spec bp pages gs ls key bp' r :
  buf_inv bp pages gs ls None → mapped (bp_translation bp) key = None →
  load_miss key bp = (bp', r) →
  bp_page_size bp' = bp_page_size bp ∧
  match r with
  | Ok (Some g) => page_map bp' (g :: gs) ls (buf_view bp pages) ∧ pg_key g = key
  | Ok None => False
  | Err _ => page_map bp' gs ls (buf_view bp pages)
  end.
Proof.
  intros Hi Hm. unfold load_miss. destruct (reserve_page key bp) as [bp1 r1] eqn:Er.
  apply (reserve_page_spec _ pages gs ls) in Er as [Hsz [pages1 Hr]]; [|done].
  destruct r1 as [[rl|]|e].
  - destruct Hr as (Hcl & Hkey & Hown & _).
    destruct (hole_slot _ _ _ _ _ _ Hcl) as (s & Hs & Hlen & Hw & Hin & Hfr & Hio & Hls & Hvk).
    assert (frame_bytes_of (rl_slot rl) bp1 = sl_bytes s) as Hb by (unfold frame_bytes_of; by rewrite Hs).
    rewrite Hb. destruct (io_read key (sl_bytes s) (bp_io bp1)) as [[io dest] [[]|e]] eqn:Eio;
      destruct (io_read_repr _ _ _ _ _ _ _ Hio Eio) as (Hio' & Hd & Hok).
    + rewrite <-Hkey. destruct (finish_reserved _ _ _) as [bp2 r2] eqn:Ef.
      eapply (finish_claimed _ _ _ _ _ _ io dest false) in Ef as (Hsz2 & -> & pages2 & Hi2 & Hv2);
        [|done|done|unfold len in *; by rewrite Hd|intros _; rewrite Hkey; by apply Hok].
      intros [<- <-]%pair_equal_spec. split; [by rewrite Hsz2|]. split; [|done]. exists pages2.
      split; [done|]. intros k. rewrite Hv2. destruct (decide _) as [<-|]; [|done].
      rewrite Hvk, Hkey. symmetry. by apply Hok.
    + intros [<- <-]%pair_equal_spec.
      destruct (drop_claimed bp1 _ _ _ _ _ io dest Hcl Hown Hio') as (Hi2 & Hsz2 & Hv2).
      { unfold len in *. by rewrite Hd. }
      split; [by rewrite Hsz2|]. by exists pages1.
  - by destruct Hr.
  - intros [<- <-]%pair_equal_spec. split; [done|]. destruct Hr as [Hi2 (_ & _ & _ & Hv2)].
    by exists pages1.
Qed.

(** *** Pins *)
Lemma pins_cons g gs i : pins (g :: gs) i = (if decide (guard_slot g = i) then 1 else 0) + pins gs i.
Proof.
  unfold pins, len. destruct (decide (guard_slot g = i)).
  - rewrite filter_cons_True by done. cbn [length]. lia.
  - by rewrite filter_cons_False.
Qed.

Lemma pins_le gs i : 0 ≤ pins gs i ≤ len gs.
Proof. unfold pins, len. pose proof (length_filter (λ g, guard_slot g = i) gs). lia. Qed.

Lemma pin_mapped_spec bp pages gs ls key r bp' t :
  buf_inv bp pages gs ls None → mapped (bp_translation bp) key = Some r → len gs < MAX_PINS →
  try_pin_reference r bp = (bp', t) →
  t = Ok AttemptPinned ∧ bp_page_size bp' = bp_page_size bp ∧
  let g := {| pg_key := key; pg_ref := r |} in
  page_map (guard_from_pin key r bp').1 (g :: gs) ls (buf_view bp pages).
Proof.
  intros Hi Hm Hmax. destruct (buf_slot_mapped _ _ _ _ _ _ _ Hi Hm) as (i & s & Hs & Hk & Hfr & Hin & Hn).
  destruct (bi_slot _ _ _ _ _ Hi i s Hs) as [Hlen Hs']. rewrite Hk in Hs'.
  destruct Hs' as (_ & Hw & Hm' & _ & Hc & Hv & Hl). pose proof (pins_le gs i) as Hpl.
  assert (frame_incarnation (sl_meta s) = Some (fr_incarnation r)) as Hinc
    by (by apply frame_incarnation_Some; rewrite Hin).
  unfold try_pin_reference, pool_slot. rewrite Hfr, Nat2Z.id, Hs. cbn [ok_or].
  rewrite Hinc, bool_decide_true by done. cbn [negb]. unfold try_pin.
  rewrite Hw, word_state, word_pins, bool_decide_true by done. cbn [negb].
  rewrite (proj2 (Z.eqb_neq _ _)) by lia. rewrite Hinc, Z.eqb_refl, word_pin.
  intros [<- <-]%pair_equal_spec. split; [done|]. split; [done|]. cbn zeta.
  unfold guard_from_pin. cbn [fst]. rewrite Hfr, Nat2Z.id. erewrite set_slot_lookup by done.
  rewrite set_slot_twice. exists pages.
  set (g := {| pg_key := key; pg_ref := r |}).
  assert (guard_slot g = i) as Hg by (unfold guard_slot; cbn; lia).
  assert (pins (g :: gs) i = pins gs i + 1) as Hp1 by (rewrite pins_cons, decide_True by done; lia).
  match goal with |- buf_inv ?b _ _ _ _ ∧ _ =>
    destruct (buf_inv_same_page bp b pages pages gs (g :: gs) ls ls i s
      (slot_referenced (slot_meta s (with_lifecycle (sl_meta s)
        (lifecycle_word Resident (pins gs i + 1)))) true) key) as [? (_ & _ & _ & ?)]; try done
  end.
  - apply (bi_io _ _ _ _ _ Hi).
  - intros j Hj. rewrite pins_cons, decide_False by congruence. done.
  - intros g' [-> | Hg']%elem_of_cons; [|by left]. right. cbn. split_and!; [done|done|lia|done].
  - by rewrite Hp1.
  - lia.
Qed.

Lemma pin_round_spec bp pages gs ls key bp' r :
  buf_inv bp pages gs ls None → len gs < MAX_PINS → pin_round key bp = (bp', r) →
  bp_page_size bp' = bp_page_size bp ∧
  match r with
  | Some (Ok g) => page_map bp' (g :: gs) ls (buf_view bp pages) ∧ pg_key g = key
  | Some (Err _) => page_map bp' gs ls (buf_view bp pages)
  | None => False
  end.
Proof.
  intros Hi Hmax. unfold pin_round. rewrite (pool_get_ok _ _ _ _ _ _ Hi).
  destruct (mapped (bp_translation bp) key) as [ref|] eqn:Hm.
  - destruct (try_pin_reference ref bp) as [bp1 t] eqn:Et.
    destruct (pin_mapped_spec _ _ _ _ _ _ _ _ Hi Hm Hmax Et) as (-> & Hsz & Hp).
    destruct (guard_from_pin key ref bp1) as [bp2 g] eqn:Eg.
    assert (g = {| pg_key := key; pg_ref := ref |}) as -> by (unfold guard_from_pin in Eg; by simplify_eq).
    intros [<- <-]%pair_equal_spec. split; [|split; [exact Hp|done]].
    unfold guard_from_pin in Eg. destruct (bp_frames bp1 !! _); by simplify_eq.
  - destruct (load_miss key bp) as [bp1 t] eqn:El.
    destruct (load_miss_spec _ _ _ _ _ _ _ Hi Hm El) as [Hsz Ht].
    by destruct t as [[g|]|e]; intros [<- <-]%pair_equal_spec.
Qed.

Lemma create_page_spec bp pages gs ls key image bp' r :
  buf_inv bp pages gs ls None → create_page key image bp = (bp', r) →
  bp_page_size bp' = bp_page_size bp ∧
  match r with
  | Ok g => len image = bp_page_size bp ∧ pg_key g = key ∧
            page_map bp' (g :: gs) ls (λ k, if decide (key = k) then Some image else buf_view bp pages k)
  | Err _ => page_map bp' gs ls (buf_view bp pages)
  end.
Proof.
  intros Hi. unfold create_page. destruct (len image =? bp_page_size bp) eqn:El; bool_to_prop; cbn [negb]; cycle 1.
  { intros [<- <-]%pair_equal_spec. split; [done|]. by exists pages. }
  rewrite (pool_get_ok _ _ _ _ _ _ Hi). destruct (mapped (bp_translation bp) key) as [ref|] eqn:Hm.
  { intros [<- <-]%pair_equal_spec. split; [done|]. by exists pages. }
  destruct (reserve_page key bp) as [bp1 r1] eqn:Er.
  apply (reserve_page_spec _ pages gs ls) in Er as [Hsz [pages1 Hr]]; [|done].
  destruct r1 as [[rl|]|e].
  - destruct Hr as (Hcl & Hkey & Hown & _). intros Ef.
    assert (set_io bp1 (bp_io bp1) = bp1) as Hid by (by destruct bp1).
    rewrite <-Hid, <-Hkey in Ef.
    eapply (finish_claimed _ _ _ _ _ _ (bp_io bp1) image true) in Ef as (Hsz2 & -> & Hp); [|done| |by rewrite Hsz|done].
    + rewrite Hsz2. split; [done|]. split; [done|]. split; [done|]. by rewrite <-Hkey.
    + by destruct (hole_slot _ _ _ _ _ _ Hcl) as (s & _ & _ & _ & _ & _ & ? & _).
  - by destruct Hr.
  - intros [<- <-]%pair_equal_spec. split; [done|]. destruct Hr as [Hi2 (_ & _ & _ & Hv2)].
    by exists pages1.
Qed.

Lemma flush_page_spec bp pages gs ls key bp' r :
  buf_inv bp pages gs ls None → flush_page key bp = (bp', r) →
  ∃ pages', buf_inv bp' pages' gs ls None ∧ keeps_view bp pages bp' pages' ∧
    (r = Ok true → pages' !! key = buf_view bp pages key).
Proof.
  intros Hi. unfold flush_page. rewrite (pool_get_ok _ _ _ _ _ _ Hi).
  assert ((bp, Ok false) = (bp', r) → ∃ pages', buf_inv bp' pages' gs ls None ∧
    keeps_view bp pages bp' pages' ∧ (r = Ok true → pages' !! key = buf_view bp pages key)) as Hno.
  { intros [<- <-]%pair_equal_spec. exists pages. split_and!; [done|apply keeps_view_refl|done]. }
  destruct (mapped (bp_translation bp) key) as [ref|] eqn:Hm;
    [|exact Hno].
  destruct (buf_slot_mapped _ _ _ _ _ _ _ Hi Hm) as (i & s & Hs & Hk & Hfr & Hin & Hn).
  unfold pool_slot. rewrite Hfr, Nat2Z.id, Hs. cbn [ok_or].
  destruct (_ || _ || negb (fm_dirty (sl_meta s))) eqn:Eb;
    [exact Hno|]. bool_to_prop.
  destruct (writeback i TargetResident bp) as [bp1 r1] eqn:Ew.
  destruct (writeback_resident _ _ _ _ _ _ _ bp1 r1 Hi Hs Hk) as (pages' & [Hi2 Hk2] & Hok); [done|done|].
  destruct (buf_slot_page _ _ _ _ _ _ _ _ Hi Hs Hk) as [_ Hv].
  destruct r1 as [[]|e]; intros [<- <-]%pair_equal_spec; exists pages'; split_and!; try done.
  intros _. rewrite Hv. by apply Hok.
Qed.

(** *** Guards *)
Lemma pins_perm gs gs' i : gs ≡ₚ gs' → pins gs i = pins gs' i.
Proof. intros Hp. unfold pins, len. by rewrite Hp. Qed.

Lemma buf_inv_perm bp pages gs gs' ls hole :
  gs ≡ₚ gs' → buf_inv bp pages gs ls hole → buf_inv bp pages gs' ls hole.
Proof.
  intros Hp [Hio Htr Hs Hm Hg Hl]. split; [done|done| |done| |done].
  - intros i s His. destruct (Hs i s His) as [Hlen Hs']. split; [done|].
    destruct (sl_page s) as [k|]; [|done]. by rewrite <-(pins_perm gs gs' i Hp).
  - intros g Hgi. apply Hg. by rewrite Hp.
Qed.

(** The frame of a live guard. *)
Lemma guard_frame bp pages gs ls g :
  buf_inv bp pages gs ls None → g ∈ gs →
  ∃ s, bp_frames bp !! guard_slot g = Some s ∧ sl_page s = Some (pg_key g) ∧
       len (sl_bytes s) = bp_page_size bp ∧
       fm_incarnation (sl_meta s) = fr_incarnation (pg_ref g) ∧
       fm_incarnation (sl_meta s) ≠ 0 ∧
       fm_lifecycle (sl_meta s) = lifecycle_word Resident (pins gs (guard_slot g)) ∧
       mapped (bp_translation bp) (pg_key g) =
         Some {| fr_frame := Z.of_nat (guard_slot g); fr_incarnation := fm_incarnation (sl_meta s) |} ∧
       fm_version (sl_meta s) mod 2 = version_parity (bool_decide (pg_key g ∈ ls)) ∧
       (fm_dirty (sl_meta s) = false → pages !! pg_key g = Some (sl_bytes s) ∧ pg_key g ∉ ls) ∧
       1 ≤ pins gs (guard_slot g).
Proof.
  intros Hi Hg. destruct (bi_guard _ _ _ _ _ Hi g Hg) as (H0 & s & Hs & Hk & Hin).
  apply frame_incarnation_Some in Hin as [Hin Hn]. exists s.
  destruct (bi_slot _ _ _ _ _ Hi _ s Hs) as [Hlen Hs']. rewrite Hk in Hs'.
  destruct Hs' as (_ & Hw & Hm & _ & Hc & Hv & _). split_and!; try done; try congruence.
  pose proof (pins_zero gs (guard_slot g) g) as Hz. pose proof (pins_le gs (guard_slot g)).
  destruct (decide (pins gs (guard_slot g) = 0)); [by destruct Hz|lia].
Qed.

Lemma guard_read_spec bp pages gs ls g :
  buf_inv bp pages gs ls None → g ∈ gs →
  ∃ b, guard_read g bp = Ok b ∧ buf_view bp pages (pg_key g) = Some b ∧ len b = bp_page_size bp.
Proof.
  intros Hi Hg. destruct (guard_frame _ _ _ _ _ Hi Hg) as (s & Hs & Hk & Hlen & _).
  exists (sl_bytes s). unfold guard_read, frame_bytes_of. rewrite Hs. split; [done|].
  split; [|done]. by apply (buf_slot_page _ _ _ _ _ _ _ _ Hi Hs Hk).
Qed.

Lemma guard_write_spec bp pages gs ls g :
  buf_inv bp pages gs ls None → g ∈ gs → pg_key g ∉ ls →
  ∃ bp', guard_write g bp = (bp', Ok tt) ∧ buf_inv bp' pages gs ({[pg_key g]} ∪ ls) None ∧
         keeps_view bp pages bp' pages.
Proof.
  intros Hi Hg Hl.
  destruct (guard_frame _ _ _ _ _ Hi Hg) as (s & Hs & Hk & Hlen & Hin & Hn & Hw & Hm & Hv & Hc & Hp).
  unfold guard_write, meta_step. rewrite Hs. unfold try_write, frame_state.
  rewrite Hw, word_state, bool_decide_true by done.
  rewrite (bool_decide_true (frame_incarnation _ = _)) by (by apply frame_incarnation_Some; rewrite Hin in *).
  cbn [negb orb]. rewrite land_one_mod, Hv, bool_decide_false by done. cbn [version_parity Z.eqb negb map_err].
  eexists. split; [done|].
  eapply (buf_inv_same_page bp _ pages pages gs gs ls ({[pg_key g]} ∪ ls) (guard_slot g) s); try done.
  - apply (bi_io _ _ _ _ _ Hi).
  - auto.
  - set_solver.
  - cbn [slot_meta sl_meta with_dirty with_version fm_version].
    rewrite succ_parity, Zplus_mod, Hv, bool_decide_false, bool_decide_true by set_solver. done.
  - lia.
Qed.

Lemma guard_unlatch_spec bp pages gs ls g :
  buf_inv bp pages gs ls None → g ∈ gs → pg_key g ∈ ls →
  buf_inv (guard_unlatch g bp) pages gs (ls ∖ {[pg_key g]}) None ∧
  keeps_view bp pages (guard_unlatch g bp) pages.
Proof.
  intros Hi Hg Hl.
  destruct (guard_frame _ _ _ _ _ Hi Hg) as (s & Hs & Hk & Hlen & Hin & Hn & Hw & Hm & Hv & Hc & Hp).
  unfold guard_unlatch, meta_step. rewrite Hs. cbn [fst].
  eapply (buf_inv_same_page bp _ pages pages gs gs ls (ls ∖ {[pg_key g]}) (guard_slot g) s); try done.
  - apply (bi_io _ _ _ _ _ Hi).
  - auto.
  - set_solver.
  - intros Hd. split; [by apply Hc|set_solver].
  - cbn [slot_meta sl_meta release_latch with_version fm_version].
    rewrite succ_parity, Zplus_mod, Hv, bool_decide_true, bool_decide_false by set_solver. done.
  - lia.
Qed.

Lemma guard_drop_spec bp pages gs ls g :
  buf_inv bp pages (g :: gs) ls None → pg_key g ∉ ls →
  buf_inv (guard_drop g bp) pages gs ls None ∧ keeps_view bp pages (guard_drop g bp) pages.
Proof.
  intros Hi Hl. assert (g ∈ g :: gs) as Hg by constructor.
  destruct (guard_frame _ _ _ _ _ Hi Hg) as (s & Hs & Hk & Hlen & Hin & Hn & Hw & Hm & Hv & Hc & Hp).
  unfold guard_drop, meta_step. rewrite Hs. cbn [fst].
  eapply (buf_inv_same_page bp _ pages pages (g :: gs) gs ls ls (guard_slot g) s); try done.
  - apply (bi_io _ _ _ _ _ Hi).
  - intros j Hj. rewrite pins_cons, decide_False by done. done.
  - intros g' Hg'. left. by right.
  - cbn [slot_meta sl_meta frame_unpin with_lifecycle fm_lifecycle]. rewrite Hw, word_unpin.
    rewrite pins_cons, decide_True by done. f_equal. lia.
Qed.

(** Storing an image through a held write guard changes that page alone. *)
Lemma guard_put_spec bp pages gs ls g b :
  buf_inv bp pages gs ls None → g ∈ gs → pg_key g ∈ ls → len b = bp_page_size bp →
  buf_inv (guard_put g b bp) pages gs ls None ∧
  bp_page_size (guard_put g b bp) = bp_page_size bp ∧
  ∀ k, buf_view (guard_put g b bp) pages k =
    if decide (pg_key g = k) then Some b else buf_view bp pages k.
Proof.
  intros Hi Hg Hl Hb.
  destruct (guard_frame _ _ _ _ _ Hi Hg) as (s & Hs & Hk & Hlen & Hin & Hn & Hw & Hm & Hv & Hc & Hp).
  assert (fm_dirty (sl_meta s) = true) as Hd.
  { destruct (fm_dirty (sl_meta s)); [done|]. by destruct Hc. }
  unfold guard_put, set_bytes. rewrite Hs.
  pose proof (lookup_lt_Some _ _ _ Hs) as Hlt. set (i := guard_slot g) in *.
  split; [|split; [done|]].
  - eapply (buf_inv_update bp _ pages pages gs gs ls ls None None i s (slot_bytes s b));
      [done..| | | | |done|auto|by left|by left| | | |].
    + apply (bi_io _ _ _ _ _ Hi).
    + apply (bi_tr _ _ _ _ _ Hi).
    + done.
    + intros k Hk'. left. exact Hk'.
    + split; [done|]. cbn [slot_bytes sl_page sl_meta sl_bytes]. rewrite Hk. split_and!; try done.
      * congruence.
      * lia.
    + intros k r Ho. assert (k = pg_key g) as -> by (destruct Ho; cbn in *; congruence).
      change (bp_translation (set_slot bp i (slot_bytes s b))) with (bp_translation bp).
      rewrite Hm. by intros [= <-].
    + intros g' Hg' He. destruct (bi_guard _ _ _ _ _ Hi g' Hg') as (H0 & u & Hu & Hku & Hiu).
      unfold guard_slot in He. rewrite He, Hs in Hu. injection Hu as <-. split; [|done].
      split; [done|]. by exists (slot_bytes s b).
    + cbn [slot_bytes sl_page]. congruence.
  - intros k. rewrite (buf_view_update bp _ pages pages i (slot_bytes s b) k) by done.
    change (bp_translation (set_slot bp i (slot_bytes s b))) with (bp_translation bp).
    destruct (decide (pg_key g = k)) as [<-|Hne].
    + rewrite Hm. cbn [fr_frame]. by rewrite decide_True by lia.
    + unfold buf_view. destruct (mapped (bp_translation bp) k) as [r|] eqn:Er; [|done].
      destruct (decide (Z.to_nat (fr_frame r) = i)) as [He|He]; [|reflexivity]. exfalso.
      destruct (buf_slot_mapped _ _ _ _ _ _ _ Hi Er) as (j & u & Hu & Hku & Hj & _).
      assert (j = i) as -> by lia. congruence.
Qed.

(** ** Sequences of operations *)
Inductive BufOp :=
| BPin (key : PageKey)
| BDrop (n : nat)
| BStore (n : nat) (image : bytes)
| BCreate (key : PageKey) (image : bytes)
| BFlush (key : PageKey).

(** The [n]-th live guard is used; a store takes the write guard, copies an image
    of the page size and drops it.  The result lists the images stored. *)
Definition buf_exec (op : BufOp) bp (gs : list PageGuard)
    : BufferPool D * list PageGuard * list (PageKey * bytes) :=
  match op with
  | BPin key =>
      match buffer_pin 1 key bp with
      | (bp, Some (Ok g)) => (bp, g :: gs, [])
      | (bp, _) => (bp, gs, [])
      end
  | BDrop n =>
      match gs !! n with
      | Some g => (guard_drop g bp, delete n gs, [])
      | None => (bp, gs, [])
      end
  | BStore n image =>
      match gs !! n with
      | Some g =>
          if len image =? bp_page_size bp then
            match guard_write g bp with
            | (bp, Ok _) => (guard_unlatch g (guard_put g image bp), gs, [(pg_key g, image)])
            | (bp, Err _) => (bp, gs, [])
            end
          else (bp, gs, [])
      | None => (bp, gs, [])
      end
  | BCreate key image =>
      match create_page key image bp with
      | (bp, Ok g) => (bp, g :: gs, [(key, image)])
      | (bp, Err _) => (bp, gs, [])
      end
  | BFlush key => ((flush_page key bp).1, gs, [])
  end.

Fixpoint buf_run (ops : list BufOp) bp (gs : list PageGuard)
    : BufferPool D * list PageGuard * list (PageKey * bytes) :=
  match ops with
  | [] => (bp, gs, [])
  | op :: ops =>
      let '(bp, gs, ws) := buf_exec op bp gs in
      let '(bp, gs, ws') := buf_run ops bp gs in
      (bp, gs, ws ++ ws')
  end.

Definition store_all (ws : list (PageKey * bytes)) (V : gmap PageKey bytes) : gmap PageKey bytes :=
  foldl (λ V w, <[w.1 := w.2]> V) V ws.

Lemma page_map_repr bp gs ls view V :
  page_map bp gs ls view → (∀ k, view k = V !! k) → buf_repr bp V gs ls.
Proof. intros (pages & Hi & Hv) HV. exists pages. split; [done|]. intros k. by rewrite Hv. Qed.

Lemma BufferPool_new_repr n size io bp V :
  BufferPool_new n size io = Ok bp → 0 ≤ size → io_repr io V → buf_repr bp V [] ∅.
Proof.
  intros Hn H0 Hio. unfold BufferPool_new in Hn. destruct (n =? 0); [done|].
  destruct (size =? 0); [done|]. injection Hn as <-. exists V. split.
  - split; cbn.
    + done.
    + apply TranslationTable_new_ok.
    + intros i s. intros [-> _]%lookup_replicate. split; cbn.
      * unfold len. rewrite length_replicate. lia.
      * done.
    + intros k r. by rewrite mapped_new.
    + intros g Hg. by apply not_elem_of_nil in Hg.
    + set_solver.
  - intros k. unfold buf_view. cbn. by rewrite mapped_new.
Qed.

Lemma buffer_pin_repr bp V gs ls key bp' r :
  buf_repr bp V gs ls → len gs < MAX_PINS → buffer_pin 1 key bp = (bp', r) →
  match r with
  | Some (Ok g) => buf_repr bp' V (g :: gs) ls ∧ pg_key g = key
  | Some (Err _) => buf_repr bp' V gs ls
  | None => False
  end ∧ bp_page_size bp' = bp_page_size bp.
Proof.
  intros (pages & Hi & HV) Hmax. cbn [buffer_pin]. destruct (pin_round key bp) as [bp1 r1] eqn:Er.
  destruct (pin_round_spec _ _ _ _ _ _ _ Hi Hmax Er) as [Hsz Hr].
  destruct r1 as [[g|e]|]; [| |done]; intros [<- <-]%pair_equal_spec; (split; [|done]).
  - destruct Hr as [Hr ?]. split; [|done]. by eapply page_map_repr.
  - by eapply page_map_repr.
Qed.

Lemma create_page_repr bp V gs ls key image bp' r :
  buf_repr bp V gs ls → create_page key image bp = (bp', r) →
  match r with
  | Ok g => buf_repr bp' (<[key := image]> V) (g :: gs) ls ∧ pg_key g = key ∧
            len image = bp_page_size bp
  | Err _ => buf_repr bp' V gs ls
  end ∧ bp_page_size bp' = bp_page_size bp.
Proof.
  intros (pages & Hi & HV) Hc. destruct (create_page_spec _ _ _ _ _ _ _ _ Hi Hc) as [Hsz Hr].
  split; [|done]. destruct r as [g|e].
  - destruct Hr as (? & ? & Hr). split_and!; [|done|done]. eapply page_map_repr; [done|].
    intros k. cbn beta. destruct (decide (key = k)) as [<-|].
    + by rewrite lookup_insert_eq.
    + by rewrite lookup_insert_ne, HV.
  - by eapply page_map_repr.
Qed.

Lemma guard_read_repr bp V gs ls g :
  buf_repr bp V gs ls → g ∈ gs →
  ∃ b, guard_read g bp = Ok b ∧ V !! pg_key g = Some b ∧ len b = bp_page_size bp.
Proof.
  intros (pages & Hi & HV) Hg. destruct (guard_read_spec _ _ _ _ _ Hi Hg) as (b & ? & Hb & ?).
  exists b. by rewrite <-HV.
Qed.

Lemma guard_write_repr bp V gs ls g :
  buf_repr bp V gs ls → g ∈ gs → pg_key g ∉ ls →
  ∃ bp', guard_write g bp = (bp', Ok tt) ∧ buf_repr bp' V gs ({[pg_key g]} ∪ ls) ∧
         bp_page_size bp' = bp_page_size bp.
Proof.
  intros (pages & Hi & HV) Hg Hl. destruct (guard_write_spec _ _ _ _ _ Hi Hg Hl) as (bp' & ? & Hi' & Hk).
  exists bp'. split; [done|]. split; [|by apply Hk]. exists pages. split; [done|].
  intros k. rewrite <-HV. apply Hk.
Qed.

Lemma guard_put_repr bp V gs ls g b :
  buf_repr bp V gs ls → g ∈ gs → pg_key g ∈ ls → len b = bp_page_size bp →
  buf_repr (guard_put g b bp) (<[pg_key g := b]> V) gs ls ∧
  bp_page_size (guard_put g b bp) = bp_page_size bp.
Proof.
  intros (pages & Hi & HV) Hg Hl Hb. destruct (guard_put_spec _ _ _ _ _ _ Hi Hg Hl Hb) as (Hi' & Hsz & Hv).
  split; [|done]. exists pages. split; [done|]. intros k. rewrite Hv.
  destruct (decide (pg_key g = k)) as [<-|].
  - by rewrite lookup_insert_eq.
  - by rewrite lookup_insert_ne, HV.
Qed.

Lemma guard_unlatch_repr bp V gs ls g :
  buf_repr bp V gs ls → g ∈ gs → pg_key g ∈ ls →
  buf_repr (guard_unlatch g bp) V gs (ls ∖ {[pg_key g]}) ∧
  bp_page_size (guard_unlatch g bp) = bp_page_size bp.
Proof.
  intros (pages & Hi & HV) Hg Hl. destruct (guard_unlatch_spec _ _ _ _ _ Hi Hg Hl) as [Hi' Hk].
  split; [|by apply Hk]. exists pages. split; [done|]. intros k. rewrite <-HV. apply Hk.
Qed.

Lemma guard_drop_repr bp V gs ls g :
  buf_repr bp V (g :: gs) ls → pg_key g ∉ ls →
  buf_repr (guard_drop g bp) V gs ls ∧ bp_page_size (guard_drop g bp) = bp_page_size bp.
Proof.
  intros (pages & Hi & HV) Hl. destruct (guard_drop_spec _ _ _ _ _ Hi Hl) as [Hi' Hk].
  split; [|by apply Hk]. exists pages. split; [done|]. intros k. rewrite <-HV. apply Hk.
Qed.

Lemma buf_repr_perm bp V gs gs' ls : gs ≡ₚ gs' → buf_repr bp V gs ls → buf_repr bp V gs' ls.
Proof. intros Hp (pages & Hi & HV). exists pages. split; [by eapply buf_inv_perm|done]. Qed.

Lemma buf_exec_repr op bp V gs bp' gs' ws :
  buf_repr bp V gs ∅ → len gs < MAX_PINS → buf_exec op bp gs = (bp', gs', ws) →
  buf_repr bp' (store_all ws V) gs' ∅ ∧ len gs' ≤ len gs + 1.
Proof.
  intros Hr Hmax. destruct op as [key|n|n image|key image|key]; cbn [buf_exec].
  - destruct (buffer_pin 1 key bp) as [bp1 r] eqn:Ep.
    destruct (buffer_pin_repr _ _ _ _ _ _ _ Hr Hmax Ep) as [Hp _].
    destruct r as [[g|e]|]; [| |done]; intros [= <- <- <-]; unfold len in *; cbn [length];
      (split; [try apply Hp|lia]).
  - destruct (gs !! n) as [g|] eqn:Eg; intros [= <- <- <-]; [|split; [done|lia]].
    pose proof (delete_Permutation gs n g Eg) as Hp. split.
    + apply guard_drop_repr; [|set_solver]. by eapply buf_repr_perm.
    + apply Permutation_length in Hp. unfold len. cbn in Hp. lia.
  - destruct (gs !! n) as [g|] eqn:Eg; [|intros [= <- <- <-]; split; [done|lia]].
    apply list_elem_of_lookup_2 in Eg.
    destruct (len image =? bp_page_size bp) eqn:El; bool_to_prop;
      [|intros [= <- <- <-]; split; [done|lia]].
    destruct (guard_write_repr _ _ _ _ _ Hr Eg) as (bp1 & Ew & Hr1 & Hsz1); [set_solver|].
    rewrite Ew. intros [= <- <- <-]. split; [|lia].
    destruct (guard_put_repr _ _ _ _ g image Hr1 Eg) as [Hr2 Hsz2]; [set_solver|congruence|].
    destruct (guard_unlatch_repr _ _ _ _ g Hr2 Eg) as [Hr3 _]; [set_solver|].
    cbn. replace ∅ with (({[pg_key g]} ∪ ∅) ∖ {[pg_key g]} : gset PageKey) by set_solver. done.
  - destruct (create_page key image bp) as [bp1 r] eqn:Ec.
    destruct (create_page_repr _ _ _ _ _ _ _ _ Hr Ec) as [Hp _].
    destruct r as [g|e]; intros [= <- <- <-]; unfold len in *; cbn [length];
      (split; [try apply Hp|lia]).
  - destruct (flush_page key bp) as [bp1 r] eqn:Ef. intros [= <- <- <-]. split; [|lia].
    destruct Hr as (pages & Hi & HV). destruct (flush_page_spec _ _ _ _ _ _ _ Hi Ef) as (pages' & Hi' & Hk & _).
    exists pages'. split; [done|]. intros k. cbn. rewrite <-HV. apply Hk.
Qed.

Lemma store_all_app ws ws' V : store_all (ws ++ ws') V = store_all ws' (store_all ws V).
Proof. apply foldl_app. Qed.

Lemma buf_run_repr ops : ∀ bp V gs bp' gs' ws,
  buf_repr bp V gs ∅ → len gs + len ops < MAX_PINS → buf_run ops bp gs = (bp', gs', ws) →
  buf_repr bp' (store_all ws V) gs' ∅ ∧ len gs' ≤ len gs + len ops.
Proof.
  induction ops as [|op ops IH]; intros bp V gs bp' gs' ws Hr Hmax; cbn [buf_run].
  { intros [= <- <- <-]. split; [done|]. unfold len. cbn. lia. }
  destruct (buf_exec op bp gs) as [[bp1 gs1] ws1] eqn:Ee.
  destruct (buf_run ops bp1 gs1) as [[bp2 gs2] ws2] eqn:Er. intros [= <- <- <-].
  assert (len (op :: ops) = 1 + len ops) as Hl by (unfold len; cbn [length]; lia).
  pose proof (len_nonneg ops). rewrite Hl in *.
  destruct (buf_exec_repr _ _ _ _ _ _ _ Hr ltac:(lia) Ee) as [Hr1 Hg1].
  destruct (IH _ _ _ _ _ _ Hr1 ltac:(lia) Er) as [Hr2 Hg2]. rewrite store_all_app.
  split; [done|]. lia.
Qed.

(** C8. The buffer pool with its device is one map from pages to images.  After any
    sequence of pins, guard drops, page stores, creations and flushes over a
    device that fails whenever it likes, with any frames evicted and reloaded on
    the way, a live guard and a fresh pin read exactly the image last stored or
    created for their page, or the device's original one; a pin never waits; and
    a flush that reports a written page has put that image on the device. *)
Theorem buffer_is_a_page_map n size io bp0 V0 ops bp gs ws :
  BufferPool_new n size io = Ok bp0 → 0 ≤ size → io_repr io V0 → len ops < MAX_PINS →
  buf_run ops bp0 [] = (bp, gs, ws) →
  let V := store_all ws V0 in
  (∀ g, g ∈ gs → ∃ b, guard_read g bp = Ok b ∧ V !! pg_key g = Some b) ∧
  (∀ key bp' r, len gs < MAX_PINS → buffer_pin 1 key bp = (bp', r) →
     match r with
     | Some (Ok g) => ∃ b, guard_read g bp' = Ok b ∧ V !! key = Some b
     | Some (Err _) => buf_repr bp' V gs ∅
     | None => False
     end) ∧
  (∀ key bp', flush_page key bp = (bp', Ok true) →
     ∃ pages, io_repr (bp_io bp') pages ∧ pages !! key = V !! key).
Proof.
  intros Hn H0 Hio Hops Hrun. pose proof (BufferPool_new_repr _ _ _ _ _ Hn H0 Hio) as Hr0.
  destruct (buf_run_repr ops bp0 V0 [] bp gs ws Hr0 Hops Hrun) as [Hr _]. cbn zeta. split_and!.
  - intros g Hg. destruct (guard_read_repr _ _ _ _ _ Hr Hg) as (b & ? & ? & _). eauto.
  - intros key bp' r Hmax Hp. destruct (buffer_pin_repr _ _ _ _ _ _ _ Hr Hmax Hp) as [Hr' _].
    destruct r as [[g|e]|]; [|done|done]. destruct Hr' as [Hr' <-].
    destruct (guard_read_repr _ _ _ _ g Hr') as (b & ? & ? & _); [constructor|]. eauto.
  - intros key bp' Hf. destruct Hr as (pages & Hi & HV).
    destruct (flush_page_spec _ _ _ _ _ _ _ Hi Hf) as (pages' & Hi' & _ & Hok).
    exists pages'. split; [apply (bi_io _ _ _ _ _ Hi')|]. rewrite <-HV. by apply Hok.
Qed.
End refinement.

(** ** A run with an eviction

    One frame of two bytes over a device that holds page 1: page 7 is created,
    dropped and evicted to load page 1. *)
Definition demo_key (p : Z) : PageKey := {| pk_object := 1; pk_page := p |}.
Definition demo_pages : MemoryPages :=
  {| mp_pages := {[demo_key 1 := [u8 1; u8 2]]}; mp_faults := [] |}.
Definition demo_pool : BufferPool MemoryPages :=
  {| bp_frames := [FrameSlot_new 2]; bp_translation := TranslationTable_new; bp_io := demo_pages;
     bp_clock := 0; bp_page_size := 2 |}.
Definition demo_ops : list BufOp :=
  [BCreate (demo_key 7) [u8 7; u8 7]; BStore 0 [u8 8; u8 8]; BDrop 0; BPin (demo_key 1); BDrop 0].

Lemma buffer_is_a_page_map_witness :
  store_all (buf_run demo_ops demo_pool []).2 (mp_pages demo_pages) !! demo_key 7 =
    Some [u8 8; u8 8] ∧
  (∀ bp' r, buffer_pin 1 (demo_key 7) (buf_run demo_ops demo_pool []).1.1 = (bp', r) → r ≠ None).
Proof.
  split; [vm_compute; reflexivity|]. intros bp' r Hp ->.
  destruct (buffer_is_a_page_map 1 2 demo_pages demo_pool (mp_pages demo_pages) demo_ops
    (buf_run demo_ops demo_pool []).1.1 (buf_run demo_ops demo_pool []).1.2
    (buf_run demo_ops demo_pool []).2) as (_ & H & _).
  - reflexivity.
  - lia.
  - reflexivity.
  - reflexivity.
  - by destruct (buf_run demo_ops demo_pool []) as [[? ?] ?].
  - apply (H _ _ _ eq_refl Hp).
Defined.
