(* ===== verification/PageBuffer.v ===== *)
(** * What an access method relies on of the buffer pool

    The operations of [BufferPool] and [PageGuard] that
    [crates/seerdb/src/vnext/btree/tree_v4.rs] calls, as a class with laws: pages
    are one map, which only a store through a held write guard and a page creation
    change.  The pool of [Buffer.v] is an instance. *)
From S2P Require Import Prelude Ids Fs Shards Frame Translation PageIo Buffer.

Local Open Scope Z_scope.
Local Open Scope seer_scope.

Class PageBuffer (B G : Type) := {
  pb_page_size : B → Z;
  pb_pin : PageKey → B → B * result G BufferError;
  pb_read : G → B → result bytes BufferError;
  pb_write : G → B → B * result unit BufferError;
  pb_put : G → bytes → B → B;
  pb_unlatch : G → B → B;
  pb_drop : G → B → B;
  pb_create : PageKey → bytes → B → B * result G BufferError
}.

(** [pb_repr b V gs ls]: the pages are [V], the guards [gs] are live, and the write
    guards of the pages [ls] are held. *)
Class PageBufferLaws (B G : Type) `{PageBuffer B G} := {
  pb_key : G → PageKey;
  pb_repr : B → gmap PageKey bytes → list G → gset PageKey → Prop;
  pb_perm b V gs gs' ls : gs ≡ₚ gs' → pb_repr b V gs ls → pb_repr b V gs' ls;
  pb_pin_repr b V gs ls k b' r :
    pb_repr b V gs ls → len gs < MAX_PINS → pb_pin k b = (b', r) →
    match r with
    | Ok g => pb_repr b' V (g :: gs) ls ∧ pb_key g = k
    | Err _ => pb_repr b' V gs ls
    end ∧ pb_page_size b' = pb_page_size b;
  pb_read_repr b V gs ls g :
    pb_repr b V gs ls → g ∈ gs →
    ∃ x, pb_read g b = Ok x ∧ V !! pb_key g = Some x ∧ len x = pb_page_size b;
  pb_write_repr b V gs ls g :
    pb_repr b V gs ls → g ∈ gs → pb_key g ∉ ls →
    ∃ b', pb_write g b = (b', Ok tt) ∧ pb_repr b' V gs ({[pb_key g]} ∪ ls) ∧
          pb_page_size b' = pb_page_size b;
  pb_put_repr b V gs ls g x :
    pb_repr b V gs ls → g ∈ gs → pb_key g ∈ ls → len x = pb_page_size b →
    pb_repr (pb_put g x b) (<[pb_key g := x]> V) gs ls ∧
    pb_page_size (pb_put g x b) = pb_page_size b;
  pb_unlatch_repr b V gs ls g :
    pb_repr b V gs ls → g ∈ gs → pb_key g ∈ ls →
    pb_repr (pb_unlatch g b) V gs (ls ∖ {[pb_key g]}) ∧
    pb_page_size (pb_unlatch g b) = pb_page_size b;
  pb_drop_repr b V gs ls g :
    pb_repr b V (g :: gs) ls → pb_key g ∉ ls →
    pb_repr (pb_drop g b) V gs ls ∧ pb_page_size (pb_drop g b) = pb_page_size b;
  pb_create_repr b V gs ls k x b' r :
    pb_repr b V gs ls → pb_create k x b = (b', r) →
    match r with
    | Ok g => pb_repr b' (<[k := x]> V) (g :: gs) ls ∧ pb_key g = k ∧ len x = pb_page_size b
    | Err _ => pb_repr b' V gs ls
    end ∧ pb_page_size b' = pb_page_size b
}.

(** ** The pool

    [buffer_pin_repr] shows that one round of the loop of [pin] ends it while fewer
    guards than [MAX_PINS] are live, so the last arm is not taken. *)
#[global] Instance pool_buffer {D} `{PageIo D} : PageBuffer (BufferPool D) PageGuard := {
  pb_page_size := bp_page_size;
  pb_pin k b :=
    match buffer_pin 1 k b with (b, Some r) => (b, r) | (b, None) => (b, Err NoVictim) end;
  pb_read := guard_read;
  pb_write := guard_write;
  pb_put := guard_put;
  pb_unlatch := guard_unlatch;
  pb_drop := guard_drop;
  pb_create := create_page
}.

#[global] Program Instance pool_buffer_laws {D} `{PageIoLaws D} :
    PageBufferLaws (BufferPool D) PageGuard := {
  pb_key := pg_key;
  pb_repr := buf_repr
}.
Next Obligation. intros. by eapply buf_repr_perm. Qed.
Next Obligation.
  intros D ? ? b V gs ls k b' r Hr Hmax. cbn -[buffer_pin]. destruct (buffer_pin 1 k b) as [b1 r1] eqn:E.
  destruct (buffer_pin_repr _ _ _ _ _ _ _ Hr Hmax E) as [Hp Hs].
  destruct r1 as [r1|]; [|done]. by intros [<- <-]%pair_equal_spec.
Qed.
Next Obligation. intros. by eapply guard_read_repr. Qed.
Next Obligation. intros. by apply guard_write_repr. Qed.
Next Obligation. intros. by apply guard_put_repr. Qed.
Next Obligation. intros. by apply guard_unlatch_repr. Qed.
Next Obligation. intros. by apply guard_drop_repr. Qed.
Next Obligation. intros. by apply create_page_repr. Qed.
