(* ===== verification/PageV4.v ===== *)
(** * B-tree pages

    Models [crates/seerdb/src/vnext/btree/page_v4.rs] byte for byte: the slotted
    page with its header, slot array and heap, the cached key heads, the B-link
    high fence and right sibling, the builders, in-place insertion and removal,
    compaction and the split choice.  An error is the message the source gives it,
    since the tree tells errors apart by their text.

    Offsets and lengths are [usize] values below [2 ^ 33], so the checked sums and
    products of the source do not overflow on the 64-bit target. *)
From Stdlib Require Import String.
From S2P Require Import Prelude StdCollections Ids.

Local Open Scope string_scope.
Local Open Scope list_scope.
Local Open Scope Z_scope.
Local Open Scope seer_scope.

Definition MAGIC : Z := 0x4f4d4234.
Definition VERSION : Z := 4.
Definition HEADER_SIZE : Z := 64.
Definition SLOT_SIZE : Z := 12.
Definition NONE_PAGE : Z := U64_MAX.
Definition FLAG_HIGH_FENCE : Z := 1.
Definition TAG_INLINE : Z := 0.
Definition TAG_BLOB : Z := 1.
Definition TAG_TOMBSTONE : Z := 2.
Definition BLOB_SIZE : Z := 16.
Definition U16_MAX : Z := 2 ^ 16 - 1.

Inductive PageKind := KindInternal | KindLeaf.

#[global] Instance PageKind_eq_dec : EqDecision PageKind.
Proof. solve_decision. Defined.

Definition kind_raw (k : PageKind) : Z := match k with KindInternal => 1 | KindLeaf => 2 end.

Abbreviation PageError := string.

(** [BlobPointer] of [btree/node/page_format.rs]. *)
Record BlobPointer := { bl_file_id : Z; bl_offset : Z; bl_length : Z }.

#[global] Instance BlobPointer_eq_dec : EqDecision BlobPointer.
Proof. solve_decision. Defined.

Definition blob_to_bytes (b : BlobPointer) : bytes :=
  u32_le (bl_file_id b) ++ u64_le (bl_offset b) ++ u32_le (bl_length b).

Record Header := {
  h_kind : PageKind;
  h_flags : Z;
  h_count : Z;
  h_lower : Z;
  h_upper : Z;
  h_prefix_offset : Z;
  h_prefix_len : Z;
  h_high_offset : Z;
  h_high_len : Z;
  h_right_sibling : option PageId;
  h_leftmost_child : option PageId
}.

Inductive LeafValue :=
| LeafInline (value : bytes)
| LeafBlob (pointer : BlobPointer)
| LeafTombstone.

#[global] Instance LeafValue_eq_dec : EqDecision LeafValue.
Proof. solve_decision. Defined.

(** [LeafEntryOwned] and [InternalEntryOwned]. *)
Abbreviation LeafEntry := (bytes * LeafValue)%type.
Abbreviation InternalEntry := (bytes * PageId)%type.

Inductive InsertResult := Inserted | Duplicate | Full | InsertFollowRight (page : PageId).
Inductive RemoveResult := Removed | Missing | RemoveFollowRight (page : PageId).

Record Slot := { s_offset : Z; s_key_len : Z; s_payload_len : Z; s_head : Z }.

Record PageRef := { pr_data : bytes; pr_header : Header }.

(** ** Byte access *)

(** [data.get(start..start.checked_add(len)?)] *)
Definition checked_slice (d : bytes) (start n : Z) : option bytes :=
  if start + n <=? len d then Some (take (Z.to_nat n) (drop (Z.to_nat start) d)) else None.

Definition page_u16 (d : bytes) (start : Z) : option Z := le_combine <$> checked_slice d start 2.
Definition page_u32 (d : bytes) (start : Z) : option Z := le_combine <$> checked_slice d start 4.
Definition page_u64 (d : bytes) (start : Z) : option Z := le_combine <$> checked_slice d start 8.

(** [data.get(i)] of a byte. *)
Definition page_u8 (d : bytes) (i : Z) : option Z := byte.unsigned <$> d !! Z.to_nat i.

(** [data[start..start + src.len()].copy_from_slice(src)], in range. *)
Definition put (d : bytes) (start : Z) (src : bytes) : bytes :=
  take (Z.to_nat start) d ++ src ++ drop (Z.to_nat (start + len src)) d.

(** Writes change the page in place; a write out of range changes nothing. *)
Definition page_write (what : PageError) (d : bytes) (start : Z) (src : bytes)
    : bytes * result unit PageError :=
  if start + len src <=? len d then (put d start src, Ok tt) else (d, Err what).
Definition write_u16 (d : bytes) (start value : Z) : bytes * result unit PageError :=
  page_write "u16 write exceeds page" d start (u16_le value).
Definition write_u32 (d : bytes) (start value : Z) : bytes * result unit PageError :=
  page_write "u32 write exceeds page" d start (u32_le value).
Definition write_u64 (d : bytes) (start value : Z) : bytes * result unit PageError :=
  page_write "u64 write exceeds page" d start (u64_le value).

(** A page under construction is given up on an error. *)
Definition written (w : bytes * result unit PageError) : result bytes PageError :=
  match w with (d, Ok _) => Ok d | (_, Err e) => Err e end.

(** [data.copy_within(from..to, dest)], in range. *)
Definition copy_within (d : bytes) (from to dest : Z) : bytes :=
  put d dest (take (Z.to_nat (to - from)) (drop (Z.to_nat from) d)).

(** The first four bytes of a key, padded with zeros, as a big-endian integer. *)
Definition key_head (key : bytes) : Z :=
  byte_at key 0 * 2 ^ 24 + byte_at key 1 * 2 ^ 16 + byte_at key 2 * 2 ^ 8 + byte_at key 3.

(** Lexicographic order of keys. *)
Definition key_cmp (a b : bytes) : comparison := cmp a b.

Definition compare_concat (pre suffix key : bytes) : comparison := key_cmp (pre ++ suffix) key.

(** [key.starts_with(prefix)] *)
Fixpoint starts_with (key pre : bytes) : bool :=
  match pre, key with
  | [], _ => true
  | _ :: _, [] => false
  | p :: pre, k :: key => bool_decide (p = k) && starts_with key pre
  end.

(** ** [PageRef] *)
Definition page_parse (d : bytes) : result PageRef PageError :=
  if (len d <? HEADER_SIZE) || (U32_MAX <? len d) then Err "page size is outside v4 bounds"
  else if negb (bool_decide (page_u32 d 0 = Some MAGIC)) ||
          negb (bool_decide (page_u16 d 4 = Some VERSION))
  then Err "invalid v4 page magic/version"
  else
    let? raw_kind := ok_or (page_u8 d 6) "missing page kind" in
    let? kind := (if raw_kind =? 1 then Ok KindInternal
                  else if raw_kind =? 2 then Ok KindLeaf
                  else Err "invalid page kind") in
    let? flags := ok_or (page_u8 d 7) "missing page flags" in
    let? count := ok_or (page_u32 d 8) "missing slot count" in
    let? lower := ok_or (page_u32 d 12) "missing lower bound" in
    let? upper := ok_or (page_u32 d 16) "missing upper bound" in
    let? prefix_offset := ok_or (page_u32 d 20) "missing prefix offset" in
    let? prefix_len := ok_or (page_u32 d 24) "missing prefix length" in
    let? high_offset := ok_or (page_u32 d 28) "missing high-fence offset" in
    let? high_len := ok_or (page_u32 d 32) "missing high-fence length" in
    let? right_raw := ok_or (page_u64 d 36) "missing right sibling" in
    let? leftmost_raw := ok_or (page_u64 d 44) "missing leftmost child" in
    let expected_lower := HEADER_SIZE + count * SLOT_SIZE in
    if negb (lower =? expected_lower) || (upper <? lower) || (len d <? upper)
    then Err "invalid page free-space bounds"
    else
      let has_high := negb (Z.land flags FLAG_HIGH_FENCE =? 0) in
      if negb (Bool.eqb has_high (negb (right_raw =? NONE_PAGE)))
      then Err "high fence and right sibling disagree"
      else
        let? _ := (if has_high then
                     let? _ := ok_or (checked_slice d high_offset high_len)
                                 "high fence lies outside page" in Ok tt
                   else if negb (high_offset =? 0) || negb (high_len =? 0)
                   then Err "unused high-fence fields are nonzero" else Ok tt) in
        let? _ := (if negb (prefix_len =? 0) then
                     let? _ := ok_or (checked_slice d prefix_offset prefix_len)
                                 "prefix lies outside page" in Ok tt
                   else if negb (prefix_offset =? 0)
                   then Err "unused prefix offset is nonzero" else Ok tt) in
        if bool_decide (kind = KindLeaf) && negb (leftmost_raw =? NONE_PAGE)
        then Err "leaf page has a leftmost child"
        else if bool_decide (kind = KindInternal) && (leftmost_raw =? NONE_PAGE)
        then Err "internal page lacks a leftmost child"
        else
          Ok {| pr_data := d;
                pr_header :=
                  {| h_kind := kind; h_flags := flags; h_count := count; h_lower := lower;
                     h_upper := upper; h_prefix_offset := prefix_offset;
                     h_prefix_len := prefix_len; h_high_offset := high_offset;
                     h_high_len := high_len;
                     h_right_sibling := if right_raw =? NONE_PAGE then None else Some right_raw;
                     h_leftmost_child :=
                       if leftmost_raw =? NONE_PAGE then None else Some leftmost_raw |} |}.

Definition is_leaf (p : PageRef) : bool := bool_decide (h_kind (pr_header p) = KindLeaf).
Definition page_count (p : PageRef) : Z := h_count (pr_header p).
Definition right_sibling (p : PageRef) : option PageId := h_right_sibling (pr_header p).
Definition leftmost_child (p : PageRef) : option PageId := h_leftmost_child (pr_header p).

Definition high_fence (p : PageRef) : result (option bytes) PageError :=
  if Z.land (h_flags (pr_header p)) FLAG_HIGH_FENCE =? 0 then Ok None
  else
    let? high := ok_or (checked_slice (pr_data p) (h_high_offset (pr_header p))
                          (h_high_len (pr_header p))) "high fence is malformed" in
    Ok (Some high).

Definition page_prefix (p : PageRef) : result bytes PageError :=
  if h_prefix_len (pr_header p) =? 0 then Ok []
  else ok_or (checked_slice (pr_data p) (h_prefix_offset (pr_header p)) (h_prefix_len (pr_header p)))
         "prefix is malformed".

Definition follow_right (p : PageRef) (key : bytes) : result (option PageId) PageError :=
  let? high := high_fence p in
  match high with
  | None => Ok None
  | Some high =>
      match key_cmp key high with
      | Lt => Ok None
      | _ =>
          match h_right_sibling (pr_header p) with
          | Some sibling => Ok (Some sibling)
          | None => Err "high fence has no right sibling"
          end
      end
  end.

Definition page_slot (p : PageRef) (index : Z) : result Slot PageError :=
  if h_count (pr_header p) <=? index then Err "slot index out of bounds"
  else
    let start := HEADER_SIZE + index * SLOT_SIZE in
    let? offset := ok_or (page_u32 (pr_data p) start) "slot offset missing" in
    let? key_len := ok_or (page_u16 (pr_data p) (start + 4)) "slot key length missing" in
    let? payload_len := ok_or (page_u16 (pr_data p) (start + 6)) "slot payload length missing" in
    let? head := ok_or (page_u32 (pr_data p) (start + 8)) "slot head missing" in
    Ok {| s_offset := offset; s_key_len := key_len; s_payload_len := payload_len; s_head := head |}.

Definition compare_key (p : PageRef) (index : Z) (key : bytes) : result comparison PageError :=
  let? pre := page_prefix p in
  let? slot := page_slot p index in
  let? suffix := ok_or (checked_slice (pr_data p) (s_offset slot) (s_key_len slot))
                   "key suffix exceeds page" in
  let search_head := key_head (drop (length pre) key) in
  if starts_with key pre && negb (s_head slot =? search_head)
  then Ok (s_head slot ?= search_head)
  else Ok (compare_concat pre suffix key).

Definition full_key (p : PageRef) (index : Z) : result bytes PageError :=
  let? pre := page_prefix p in
  let? slot := page_slot p index in
  let? suffix := ok_or (checked_slice (pr_data p) (s_offset slot) (s_key_len slot))
                   "key suffix exceeds page" in
  Ok (pre ++ suffix).

(** The bisection of [search]: [hi - lo] halves, so [count] rounds are enough. *)
Fixpoint search_loop (fuel : nat) (p : PageRef) (key : bytes) (lo hi : Z) (found : option Z)
    : result (Z * option Z) PageError :=
  match fuel with
  | O => Ok (lo, found)
  | S fuel =>
      if lo <? hi then
        let mid := lo + (hi - lo) / 2 in
        let? o := compare_key p mid key in
        match o with
        | Lt => search_loop fuel p key (mid + 1) hi found
        | Eq => search_loop fuel p key lo mid (Some mid)
        | Gt => search_loop fuel p key lo mid found
        end
      else Ok (lo, found)
  end.

(** [Ok(index)] of an equal key is [inl], the insertion point of a missing one [inr]. *)
Definition search (p : PageRef) (key : bytes) : result (Z + Z) PageError :=
  let count := h_count (pr_header p) in
  let? r := search_loop (Z.to_nat count) p key 0 count None in
  Ok (match r.2 with Some index => inl index | None => inr r.1 end).

Definition page_child (p : PageRef) (index : Z) : result PageId PageError :=
  if negb (bool_decide (h_kind (pr_header p) = KindInternal)) then Err "leaf page has no child pointer"
  else
    let? slot := page_slot p index in
    if negb (s_payload_len slot =? 8) then Err "internal child payload length is invalid"
    else
      let? child := ok_or (page_u64 (pr_data p) (s_offset slot + s_key_len slot))
                      "child pointer is missing" in
      if child =? NONE_PAGE then Err "reserved page id used as child" else Ok child.

(** The loop of [child_for_key] over equal separators. *)
Fixpoint upper_equal (fuel : nat) (p : PageRef) (key : bytes) (upper : Z) : result Z PageError :=
  match fuel with
  | O => Ok upper
  | S fuel =>
      if upper <? h_count (pr_header p) then
        let? o := compare_key p upper key in
        match o with Eq => upper_equal fuel p key (upper + 1) | _ => Ok upper end
      else Ok upper
  end.

Definition child_for_key (p : PageRef) (key : bytes) : result PageId PageError :=
  if negb (bool_decide (h_kind (pr_header p) = KindInternal))
  then Err "leaf page cannot route to a child"
  else
    let? found := search p key in
    let? insertion :=
      match found with
      | inl index => upper_equal (Z.to_nat (h_count (pr_header p))) p key (index + 1)
      | inr index => Ok index
      end in
    if insertion =? 0 then
      ok_or (h_leftmost_child (pr_header p)) "internal page lacks leftmost child"
    else page_child p (insertion - 1).

Definition page_value (p : PageRef) (index : Z) : result LeafValue PageError :=
  if negb (bool_decide (h_kind (pr_header p) = KindLeaf)) then Err "internal page has no leaf value"
  else
    let? slot := page_slot p index in
    let payload_start := s_offset slot + s_key_len slot in
    let? tag := ok_or (page_u8 (pr_data p) payload_start) "leaf value tag is missing" in
    let? value := ok_or (checked_slice (pr_data p) (payload_start + 1) (s_payload_len slot))
                    "leaf value exceeds page" in
    if tag =? TAG_INLINE then Ok (LeafInline value)
    else if (tag =? TAG_BLOB) && (len value =? BLOB_SIZE) then
      let? file_id := ok_or (page_u32 value 0) "blob file id missing" in
      let? offset := ok_or (page_u64 value 4) "blob offset missing" in
      let? blob_length := ok_or (page_u32 value 12) "blob length missing" in
      Ok (LeafBlob {| bl_file_id := file_id; bl_offset := offset; bl_length := blob_length |})
    else if (tag =? TAG_TOMBSTONE) && (len value =? 0) then Ok LeafTombstone
    else Err "invalid leaf value encoding".

(** [(0..count).map(f).collect()], stopping at the first error. *)
Fixpoint try_range {A} (f : Z → result A PageError) (fuel : nat) (index : Z)
    : result (list A) PageError :=
  match fuel with
  | O => Ok []
  | S fuel =>
      let? a := f index in
      let? rest := try_range f fuel (index + 1) in
      Ok (a :: rest)
  end.

Definition leaf_entries_owned (p : PageRef) : result (list LeafEntry) PageError :=
  if negb (bool_decide (h_kind (pr_header p) = KindLeaf)) then Err "internal page has no leaf entries"
  else
    try_range (λ index,
      let? key := full_key p index in
      let? value := page_value p index in
      Ok (key, value)) (Z.to_nat (h_count (pr_header p))) 0.

Definition internal_entries_owned (p : PageRef) : result (list InternalEntry) PageError :=
  if negb (bool_decide (h_kind (pr_header p) = KindInternal)) then Err "leaf page has no internal entries"
  else
    try_range (λ index,
      let? key := full_key p index in
      let? child := page_child p index in
      Ok (key, child)) (Z.to_nat (h_count (pr_header p))) 0.

(** *** [validate_full] *)
Definition entry_span (p : PageRef) (slot : Slot) : Z * Z :=
  let entry_len := if bool_decide (h_kind (pr_header p) = KindLeaf)
                   then s_key_len slot + 1 + s_payload_len slot else s_key_len slot + 8 in
  (s_offset slot, s_offset slot + entry_len).

Fixpoint validate_loop (fuel : nat) (p : PageRef) (index : Z) (previous : option bytes)
    (spans : list (Z * Z)) : result (list (Z * Z)) PageError :=
  match fuel with
  | O => Ok spans
  | S fuel =>
      let? slot := page_slot p index in
      let span := entry_span p slot in
      if (s_offset slot <? h_upper (pr_header p)) || (len (pr_data p) <? span.2)
      then Err "entry lies outside heap"
      else
        let? key := full_key p index in
        if match previous with
           | Some prev => match key_cmp prev key with Gt => true | _ => false end
           | None => false
           end
        then Err "page keys are not sorted"
        else
          let? _ := (if bool_decide (h_kind (pr_header p) = KindLeaf)
                     then let? _ := page_value p index in Ok tt
                     else let? _ := page_child p index in Ok tt) in
          validate_loop fuel p (index + 1) (Some key) (spans ++ [span])
  end.

Definition span_le (a b : Z * Z) : Prop := a.1 < b.1 ∨ (a.1 = b.1 ∧ a.2 ≤ b.2).
#[global] Instance span_le_dec a b : Decision (span_le a b).
Proof. unfold span_le. apply _. Defined.

(** [spans.windows(2).any(|pair| pair[0].1 > pair[1].0)] *)
Fixpoint spans_overlap (spans : list (Z * Z)) : bool :=
  match spans with
  | a :: ((b :: _) as rest) => (b.1 <? a.2) || spans_overlap rest
  | _ => false
  end.

Definition validate_full (p : PageRef) : result unit PageError :=
  let h := pr_header p in
  let? spans := validate_loop (Z.to_nat (h_count h)) p 0 None [] in
  let spans := if negb (h_prefix_len h =? 0)
               then spans ++ [(h_prefix_offset h, h_prefix_offset h + h_prefix_len h)] else spans in
  let spans := if negb (Z.land (h_flags h) FLAG_HIGH_FENCE =? 0)
               then spans ++ [(h_high_offset h, h_high_offset h + h_high_len h)] else spans in
  if spans_overlap (merge_sort span_le spans) then Err "heap objects overlap" else Ok tt.

(** ** Builders *)
Inductive EncodedPayload := EncodedLeaf (v : LeafValue) | EncodedChild (child : PageId).

(** [u16::try_from] of a length. *)
Definition u16_try_from (z : Z) : option Z := if z <=? U16_MAX then Some z else None.

Definition write_slot (d : bytes) (index : Z) (slot : Slot) : bytes * result unit PageError :=
  let start := HEADER_SIZE + index * SLOT_SIZE in
  match u32_try_from (s_offset slot) with
  | None => (d, Err "slot offset exceeds u32")
  | Some offset =>
      do? (d, _) := write_u32 d start offset in
      match u16_try_from (s_key_len slot) with
      | None => (d, Err "key length exceeds u16")
      | Some key_len =>
          do? (d, _) := write_u16 d (start + 4) key_len in
          match u16_try_from (s_payload_len slot) with
          | None => (d, Err "payload length exceeds u16")
          | Some payload_len =>
              do? (d, _) := write_u16 d (start + 6) payload_len in
              write_u32 d (start + 8) (s_head slot)
          end
      end
  end.

(** The tag and the payload bytes of an entry. *)
Definition encode_payload (payload : EncodedPayload) : result (option Z * bytes) PageError :=
  match payload with
  | EncodedLeaf (LeafInline value) => Ok (Some TAG_INLINE, value)
  | EncodedLeaf (LeafBlob pointer) => Ok (Some TAG_BLOB, blob_to_bytes pointer)
  | EncodedLeaf LeafTombstone => Ok (Some TAG_TOMBSTONE, [])
  | EncodedChild child =>
      if child =? NONE_PAGE then Err "reserved page id used as child" else Ok (None, u64_le child)
  end.

Definition tag_bytes (tag : option Z) : bytes := match tag with Some t => [u8 t] | None => [] end.

(** The loop of [build_page] over the entries. *)
Fixpoint build_loop (entries : list (bytes * EncodedPayload)) (count lower : Z) (index : Z)
    (d : bytes) (upper : Z) : result (bytes * Z * Z) PageError :=
  match entries with
  | [] => Ok (d, upper, index)
  | (key, payload) :: entries =>
      if (count <=? index) || (U16_MAX <? len key)
      then Err "entry count/key length exceeds page metadata"
      else
        let? encoded := encode_payload payload in
        let '(tag, payload) := encoded in
        if U16_MAX <? len payload then Err "entry payload exceeds slot length"
        else
          let entry := key ++ tag_bytes tag ++ payload in
          if upper <? len entry then Err "entry heap does not fit page"
          else
            let upper := upper - len entry in
            if upper <? lower then Err "page does not fit encoded entries"
            else
              let d := put d upper entry in
              let? d := written (write_slot d index
                          {| s_offset := upper; s_key_len := len key; s_payload_len := len payload;
                             s_head := key_head key |}) in
              build_loop entries count lower (index + 1) d upper
  end.

Definition option_page (o : option PageId) : Z := match o with Some p => p | None => NONE_PAGE end.

(** The header fields, once the heap is laid out. *)
Definition write_header (d : bytes) (kind : PageKind) (flags count lower upper high_offset high_len : Z)
    (right_sibling leftmost_child : option PageId) : bytes * result unit PageError :=
  do? (d, _) := write_u32 d 0 MAGIC in
  do? (d, _) := write_u16 d 4 VERSION in
  let d := put d 6 [u8 (kind_raw kind)] in
  let d := put d 7 [u8 flags] in
  do? (d, _) := write_u32 d 8 count in
  do? (d, _) := write_u32 d 12 lower in
  do? (d, _) := write_u32 d 16 upper in
  do? (d, _) := write_u32 d 20 0 in
  do? (d, _) := write_u32 d 24 0 in
  do? (d, _) := write_u32 d 28 high_offset in
  do? (d, _) := write_u32 d 32 high_len in
  do? (d, _) := write_u64 d 36 (option_page right_sibling) in
  write_u64 d 44 (option_page leftmost_child).

(** The shared prefix is always empty, so its two fields are zero. *)
Definition build_page (page_size : Z) (kind : PageKind) (leftmost_child : option PageId)
    (high_fence : option bytes) (right_sibling : option PageId)
    (entries : list (bytes * EncodedPayload)) : result bytes PageError :=
  let count := len entries in
  if (page_size <? HEADER_SIZE + SLOT_SIZE) || (U32_MAX <? page_size)
  then Err "page size is outside v4 bounds"
  else if negb (Bool.eqb (bool_decide (is_Some high_fence)) (bool_decide (is_Some right_sibling)))
  then Err "high fence and right sibling must appear together"
  else
    let d := replicate (Z.to_nat page_size) (u8 0) in
    let? fence :=
      match high_fence with
      | Some high =>
          if page_size <? len high then Err "high fence does not fit page"
          else
            let upper := page_size - len high in
            Ok (put d upper high, upper, upper, len high, FLAG_HIGH_FENCE)
      | None => Ok (d, page_size, 0, 0, 0)
      end in
    let '(d, upper, high_offset, high_len, flags) := fence in
    let lower := HEADER_SIZE + count * SLOT_SIZE in
    if upper <? lower then Err "slot array does not fit page"
    else
      let? built := build_loop entries count lower 0 d upper in
      let '(d, upper, actual_count) := built in
      if negb (actual_count =? count) then Err "entry iterator count disagrees with header"
      else
        let? d := written (write_header d kind flags count lower upper high_offset high_len
                             right_sibling leftmost_child) in
        let? p := page_parse d in
        let? _ := validate_full p in
        Ok d.

Definition build_leaf (page_size : Z) (high_fence : option bytes) (right_sibling : option PageId)
    (entries : list LeafEntry) : result bytes PageError :=
  build_page page_size KindLeaf None high_fence right_sibling
    (map (λ e, (e.1, EncodedLeaf e.2)) entries).

Definition empty_leaf (page_size : Z) : result bytes PageError := build_leaf page_size None None [].

Definition build_internal (page_size : Z) (high_fence : option bytes) (right_sibling : option PageId)
    (leftmost_child : PageId) (entries : list InternalEntry) : result bytes PageError :=
  if leftmost_child =? NONE_PAGE then Err "reserved page id used as leftmost child"
  else build_page page_size KindInternal (Some leftmost_child) high_fence right_sibling
         (map (λ e, (e.1, EncodedChild e.2)) entries).

(** ** In-place changes *)
Definition page_compact (d : bytes) : result bytes PageError :=
  let? p := page_parse d in
  let? high := high_fence p in
  if is_leaf p then
    let? entries := leaf_entries_owned p in
    build_leaf (len d) high (right_sibling p) entries
  else
    let? leftmost := ok_or (leftmost_child p) "internal page lacks leftmost child" in
    let? entries := internal_entries_owned p in
    build_internal (len d) high (right_sibling p) leftmost entries.

Definition has_contiguous_space (d : bytes) (entry_len : Z) : result bool PageError :=
  let? p := page_parse d in
  let needed_lower := h_lower (pr_header p) + SLOT_SIZE in
  Ok (if h_upper (pr_header p) <? entry_len then false
      else needed_lower <=? h_upper (pr_header p) - entry_len).

(** What [insert_slot_and_entry] and [insert_internal_slot] share after their
    guards: the slots from [insertion] on move up, the entry goes below the heap,
    and the header counts one more. *)
Definition insert_entry (underflow : PageError) (p : PageRef) (d : bytes) (insertion : Z)
    (suffix rest : bytes) (payload_len : Z) : bytes * result unit PageError :=
  let count := page_count p in
  let lower := h_lower (pr_header p) in
  let upper := h_upper (pr_header p) in
  let entry_len := len suffix + len rest in
  if upper <? entry_len then (d, Err underflow)
  else
    let entry_offset := upper - entry_len in
    let slot_start := HEADER_SIZE + insertion * SLOT_SIZE in
    let d := if slot_start <? lower then copy_within d slot_start lower (slot_start + SLOT_SIZE)
             else d in
    let d := put d entry_offset (suffix ++ rest) in
    do? (d, _) := write_slot d insertion
                    {| s_offset := entry_offset; s_key_len := len suffix;
                       s_payload_len := payload_len; s_head := key_head suffix |} in
    do? (d, _) := write_u32 d 8 (count + 1) in
    do? (d, _) := write_u32 d 12 (lower + SLOT_SIZE) in
    write_u32 d 16 entry_offset.

Definition insert_slot_and_entry (d : bytes) (insertion : Z) (suffix : bytes) (tag : Z)
    (payload : bytes) : bytes * result unit PageError :=
  match page_parse d with
  | Err e => (d, Err e)
  | Ok p =>
      if (page_count p <? insertion) || (U16_MAX <? len suffix) || (U16_MAX <? len payload)
      then (d, Err "leaf insertion metadata exceeds slot bounds")
      else insert_entry "leaf entry offset underflow" p d insertion suffix (u8 tag :: payload)
             (len payload)
  end.

Definition insert_internal_slot (d : bytes) (insertion : Z) (suffix : bytes) (child : PageId)
    : bytes * result unit PageError :=
  match page_parse d with
  | Err e => (d, Err e)
  | Ok p =>
      if (page_count p <? insertion) || (U16_MAX <? len suffix)
      then (d, Err "internal insertion metadata exceeds slot bounds")
      else insert_entry "internal entry offset underflow" p d insertion suffix (u64_le child) 8
  end.

(** Runs [compact] when the entry does not fit the gap, and tells whether it then does. *)
Definition make_space (d : bytes) (entry_len : Z) : bytes * result bool PageError :=
  match has_contiguous_space d entry_len with
  | Err e => (d, Err e)
  | Ok true => (d, has_contiguous_space d entry_len)
  | Ok false =>
      match page_compact d with
      | Err e => (d, Err e)
      | Ok d => (d, has_contiguous_space d entry_len)
      end
  end.

(** How an insertion into a page of either kind goes on once the key was not found. *)
Definition insert_missing (d : bytes) (entry_len : Z) (insert : bytes → bytes * result unit PageError)
    : bytes * result InsertResult PageError :=
  do? (d, fits) := make_space d entry_len in
  if negb fits then (d, Ok Full)
  else
    do? (d, _) := insert d in
    (d, Ok Inserted).

Definition try_insert_inline (d : bytes) (key value : bytes) : bytes * result InsertResult PageError :=
  let checked :=
    let? p := page_parse d in
    if negb (is_leaf p) then Err "inline insert targeted an internal page"
    else
      let? follow := follow_right p key in
      match follow with
      | Some page => Ok (inl (InsertFollowRight page))
      | None =>
          let? found := search p key in
          match found with
          | inl _ => Ok (inl Duplicate)
          | inr insertion =>
              let? pre := page_prefix p in
              if negb (starts_with key pre) then Err "inserted key does not share page prefix"
              else if U16_MAX <? len value then Err "inline value exceeds v4 slot length"
              else if U16_MAX <? len key - len pre then Err "key suffix exceeds v4 slot length"
              else Ok (inr (insertion, drop (length pre) key))
          end
      end in
  match checked with
  | Err e => (d, Err e)
  | Ok (inl r) => (d, Ok r)
  | Ok (inr (insertion, suffix)) =>
      insert_missing d (len suffix + 1 + len value)
        (λ d, insert_slot_and_entry d insertion suffix TAG_INLINE value)
  end.

Definition try_insert_internal (d : bytes) (key : bytes) (child : PageId)
    : bytes * result InsertResult PageError :=
  let checked :=
    if child =? NONE_PAGE then Err "reserved page id used as child"
    else
      let? p := page_parse d in
      if is_leaf p then Err "separator insert targeted a leaf"
      else
        let? follow := follow_right p key in
        match follow with
        | Some page => Ok (inl (InsertFollowRight page))
        | None =>
            let? found := search p key in
            match found with
            | inl _ => Ok (inl Duplicate)
            | inr insertion =>
                let? pre := page_prefix p in
                if negb (starts_with key pre) then Err "separator does not share page prefix"
                else if U16_MAX <? len key - len pre then Err "separator suffix exceeds v4 slot length"
                else Ok (inr (insertion, drop (length pre) key))
            end
        end in
  match checked with
  | Err e => (d, Err e)
  | Ok (inl r) => (d, Ok r)
  | Ok (inr (insertion, suffix)) =>
      insert_missing d (len suffix + 8) (λ d, insert_internal_slot d insertion suffix child)
  end.

(** The slots after [index] move down over it. *)
Definition remove_slot (d : bytes) (index count : Z) : bytes * result RemoveResult PageError :=
  let start := HEADER_SIZE + index * SLOT_SIZE in
  let stop := HEADER_SIZE + count * SLOT_SIZE in
  let d := if start + SLOT_SIZE <? stop then copy_within d (start + SLOT_SIZE) stop start else d in
  let d := put d (stop - SLOT_SIZE) (replicate 12 (u8 0)) in
  do? (d, _) := write_u32 d 8 (count - 1) in
  do? (d, _) := write_u32 d 12 (HEADER_SIZE + (count - 1) * SLOT_SIZE) in
  (d, Ok Removed).

Definition remove_leaf (d : bytes) (key : bytes) : bytes * result RemoveResult PageError :=
  let checked :=
    let? p := page_parse d in
    if negb (is_leaf p) then Err "leaf removal targeted an internal page"
    else
      let? follow := follow_right p key in
      match follow with
      | Some page => Ok (inl (RemoveFollowRight page))
      | None =>
          let? found := search p key in
          match found with
          | inr _ => Ok (inl Missing)
          | inl index => Ok (inr (index, page_count p))
          end
      end in
  match checked with
  | Err e => (d, Err e)
  | Ok (inl r) => (d, Ok r)
  | Ok (inr (index, count)) => remove_slot d index count
  end.

(** ** The split choice *)
Fixpoint split_total (costs : list Z) (sum : Z) : result Z PageError :=
  match costs with
  | [] => Ok sum
  | c :: costs =>
      let? sum := ok_or (checked_add sum c) "split cost overflow" in
      split_total costs sum
  end.

(** The loop over the candidates from [candidate] on; [costs] starts with the entry
    before it. *)
Fixpoint split_loop (costs : list Z) (candidate count total left_cost best best_distance : Z)
    : result Z PageError :=
  match costs with
  | [] => Ok best
  | c :: costs =>
      if candidate <? count then
        let? left_cost := ok_or (checked_add left_cost c) "split cost overflow" in
        let distance := Z.abs (left_cost - (total - left_cost)) in
        if distance <? best_distance
        then split_loop costs (candidate + 1) count total left_cost candidate distance
        else split_loop costs (candidate + 1) count total left_cost best best_distance
      else Ok best
  end.

Definition choose_split (costs : list Z) : result Z PageError :=
  let count := len costs in
  if count <? 2 then Err "cannot split fewer than two entries"
  else
    let? total := split_total costs 0 in
    split_loop costs 1 count total 0 1 U64_MAX.

Definition leaf_entry_cost (e : LeafEntry) : result Z PageError :=
  let payload := match e.2 with
                 | LeafInline value => len value
                 | LeafBlob _ => BLOB_SIZE
                 | LeafTombstone => 0
                 end in
  ok_or (checked_add SLOT_SIZE (len e.1) ≫= λ l, checked_add l (1 + payload))
    "leaf entry cost overflow".

Definition choose_leaf_split (entries : list LeafEntry) : result Z PageError :=
  choose_split (map (λ e, match leaf_entry_cost e with Ok c => c | Err _ => U64_MAX end) entries).

Definition choose_internal_split (entries : list InternalEntry) : result Z PageError :=
  choose_split (map (λ e, SLOT_SIZE + len e.1 + 8) entries).
