(* ===== verification/PageSpec.v ===== *)
(** * What B-tree pages hold

    A page image of [PageV4.v] stands for an abstract page: its kind, its fence and
    links, and a sorted list of entries.  The lemmas show that building gives an
    image of exactly the entries it was given, that reading, searching and routing
    answer as the entry list does although they bisect over cached key heads, and
    that insertion, compaction and removal in place change the list accordingly. *)
From Stdlib Require Import String.
From S2P Require Import Prelude StdCollections Ids PageV4.

Local Open Scope string_scope.
Local Open Scope list_scope.
Local Open Scope Z_scope.
Local Open Scope seer_scope.

(** ** Bytes at an offset *)
Definition holds (d : bytes) (o : Z) (b : bytes) : Prop := 0 ≤ o ∧ checked_slice d o (len b) = Some b.

Lemma checked_slice_Some d o n x :
  checked_slice d o n = Some x ↔ o + n ≤ len d ∧ x = take (Z.to_nat n) (drop (Z.to_nat o) d).
Proof. unfold checked_slice. destruct (_ <=? _) eqn:E; bool_to_prop; naive_solver lia. Qed.

Lemma holds_spec d o b :
  holds d o b ↔ 0 ≤ o ∧ ∃ l r, d = l ++ b ++ r ∧ len l = o.
Proof.
  unfold holds. rewrite checked_slice_Some. unfold len. rewrite Nat2Z.id. split.
  - intros (Ho & Hl & Hb). split; [done|].
    exists (take (Z.to_nat o) d), (drop (Z.to_nat o + length b) d). split.
    + rewrite Hb at 1. rewrite <-drop_drop, take_drop, take_drop. done.
    + rewrite length_take. lia.
  - intros (Ho & l & r & -> & Hl). split; [done|]. rewrite !length_app. split; [lia|].
    replace (Z.to_nat o) with (length l) by lia. by rewrite drop_app_length, take_app_length.
Qed.

Lemma len_put d o b : 0 ≤ o → o + len b ≤ len d → len (put d o b) = len d.
Proof.
  intros Ho Hb. unfold put, len in *. rewrite !length_app, length_take, length_drop. lia.
Qed.

Lemma holds_put_same d o b : 0 ≤ o → o + len b ≤ len d → holds (put d o b) o b.
Proof.
  intros Ho Hb. apply holds_spec. split; [done|]. unfold put. eexists _, _. split; [done|].
  unfold len in *. rewrite length_take. lia.
Qed.

Lemma holds_put_other d o b o' b' :
  0 ≤ o → o + len b ≤ len d → o' + len b' ≤ o ∨ o + len b ≤ o' →
  holds d o' b' → holds (put d o b) o' b'.
Proof.
  unfold holds. rewrite !checked_slice_Some. intros Ho Hb Hd (Ho' & Hl & Hb').
  split; [done|]. rewrite len_put by done. split; [done|]. rewrite Hb' at 1. unfold put, len in *.
  rewrite Nat2Z.id in *. set (n' := length b') in *. destruct Hd as [Hd|Hd].
  - rewrite drop_app_le by (rewrite length_take; lia).
    rewrite take_app_le by (rewrite length_drop, length_take; lia).
    rewrite !skipn_firstn_comm, take_take. f_equal. lia.
  - rewrite app_assoc, drop_app_ge by (rewrite length_app, length_take; lia).
    rewrite length_app, length_take, drop_drop. do 2 f_equal. lia.
Qed.

Lemma holds_len d o b : holds d o b → 0 ≤ o ∧ o + len b ≤ len d.
Proof. intros [? (? & _)%checked_slice_Some]. done. Qed.

Lemma holds_app d o a b : holds d o (a ++ b) ↔ holds d o a ∧ holds d (o + len a) b.
Proof.
  rewrite !holds_spec. split.
  - intros (Ho & l & r & -> & Hl). split.
    + split; [done|]. exists l, (b ++ r). by rewrite <-!app_assoc.
    + split; [pose proof (len_nonneg a); lia|]. exists (l ++ a), r.
      rewrite <-!app_assoc, len_app. split; [done|lia].
  - intros [(Ho & l & r & -> & Hl) (_ & l' & r' & E & Hl')]. split; [done|]. exists l.
    assert (l' = l ++ a ∧ b ++ r' = r) as [-> <-].
    { rewrite app_assoc in E. symmetry in E. apply app_inj_1 in E as [? ?]; [done|].
      rewrite length_app. unfold len in *. lia. }
    exists r'. by rewrite <-!app_assoc.
Qed.

Lemma holds_u16 d o v : holds d o (u16_le v) → 0 ≤ v < 2 ^ 16 → page_u16 d o = Some v.
Proof.
  intros [_ H] Hv. unfold page_u16. unfold len in H. rewrite length_u16_le in H.
  change (Z.of_nat 2) with 2 in H. rewrite H. cbn [fmap option_fmap option_map].
  f_equal. by apply (le_combine_le_split 2).
Qed.

Lemma holds_u32 d o v : holds d o (u32_le v) → is_u32 v → page_u32 d o = Some v.
Proof.
  intros [_ H] Hv. unfold page_u32. unfold len in H. rewrite length_u32_le in H.
  change (Z.of_nat 4) with 4 in H. rewrite H. cbn [fmap option_fmap option_map].
  by rewrite le_u32_roundtrip.
Qed.

Lemma holds_u64 d o v : holds d o (u64_le v) → is_u64 v → page_u64 d o = Some v.
Proof.
  intros [_ H] Hv. unfold page_u64. unfold len in H. rewrite length_u64_le in H.
  change (Z.of_nat 8) with 8 in H. rewrite H. cbn [fmap option_fmap option_map].
  by rewrite le_u64_roundtrip.
Qed.

Lemma holds_u8 d o v : holds d o [u8 v] → 0 ≤ v < 256 → page_u8 d o = Some v.
Proof.
  rewrite holds_spec. intros (Ho & l & r & -> & Hl) Hv. unfold page_u8, len in *.
  rewrite lookup_app_r by lia. replace (Z.to_nat o - length l)%nat with 0%nat by lia.
  cbn. by rewrite unsigned_u8.
Qed.

Lemma holds_slice d o b n : holds d o b → n = len b → checked_slice d o n = Some b.
Proof. by intros [_ H] ->. Qed.

Lemma len_u16 v : len (u16_le v) = 2.
Proof. unfold len. by rewrite length_u16_le. Qed.
Lemma len_u32_le v : len (u32_le v) = 4.
Proof. unfold len. by rewrite length_u32_le. Qed.
Lemma len_u64 v : len (u64_le v) = 8.
Proof. unfold len. by rewrite length_u64_le. Qed.
Lemma len_cons {A} (x : A) l : len (x :: l) = 1 + len l.
Proof. unfold len. cbn [length]. lia. Qed.
Lemma len_nil {A} : len (@nil A) = 0.
Proof. done. Qed.
#[export] Hint Rewrite len_u16 len_u32_le len_u64 @len_cons @len_nil : seer.

(** ** Abstract pages *)
Record Page := {
  p_kind : PageKind;
  p_leftmost : option PageId;
  p_high : option bytes;
  p_right : option PageId;
  p_entries : list (bytes * EncodedPayload)
}.

Definition page_id_ok (p : PageId) : Prop := is_u64 p ∧ p ≠ NONE_PAGE.

Definition payload_ok (kind : PageKind) (pl : EncodedPayload) : Prop :=
  match kind, pl with
  | KindLeaf, EncodedLeaf (LeafInline v) => len v ≤ U16_MAX
  | KindLeaf, EncodedLeaf (LeafBlob b) =>
      is_u32 (bl_file_id b) ∧ is_u64 (bl_offset b) ∧ is_u32 (bl_length b)
  | KindLeaf, EncodedLeaf LeafTombstone => True
  | KindInternal, EncodedChild c => page_id_ok c
  | _, _ => False
  end.

Definition links_ok (P : Page) : Prop :=
  match p_kind P, p_leftmost P with
  | KindLeaf, None => True
  | KindInternal, Some c => page_id_ok c
  | _, _ => False
  end ∧
  match p_high P, p_right P with
  | Some _, Some r => page_id_ok r
  | None, None => True
  | _, _ => False
  end.

Definition high_len (P : Page) : Z := match p_high P with Some hi => len hi | None => 0 end.
Definition flags_of (P : Page) : Z := match p_high P with Some _ => FLAG_HIGH_FENCE | None => 0 end.
Definition lower_of (P : Page) : Z := HEADER_SIZE + len (p_entries P) * SLOT_SIZE.

Definition header_fields (P : Page) (upper ho : Z) : list (Z * bytes) :=
  [(0, u32_le MAGIC); (4, u16_le VERSION); (6, [u8 (kind_raw (p_kind P))]); (7, [u8 (flags_of P)]);
   (8, u32_le (len (p_entries P))); (12, u32_le (lower_of P)); (16, u32_le upper);
   (20, u32_le 0); (24, u32_le 0); (28, u32_le ho); (32, u32_le (high_len P));
   (36, u64_le (option_page (p_right P))); (44, u64_le (option_page (p_leftmost P)))].

Definition header_of (P : Page) (upper ho : Z) : Header :=
  {| h_kind := p_kind P; h_flags := flags_of P; h_count := len (p_entries P);
     h_lower := lower_of P; h_upper := upper; h_prefix_offset := 0; h_prefix_len := 0;
     h_high_offset := ho; h_high_len := high_len P; h_right_sibling := p_right P;
     h_leftmost_child := p_leftmost P |}.

(** The bytes of an entry of the heap and of its slot. *)
Definition payload_bytes (pl : EncodedPayload) : bytes :=
  match encode_payload pl with Ok (_, body) => body | Err _ => [] end.
Definition entry_bytes (key : bytes) (pl : EncodedPayload) : bytes :=
  key ++ match encode_payload pl with Ok (tag, body) => tag_bytes tag ++ body | Err _ => [] end.
Definition slot_bytes (off : Z) (key : bytes) (pl : EncodedPayload) : bytes :=
  u32_le off ++ u16_le (len key) ++ u16_le (len (payload_bytes pl)) ++ u32_le (key_head key).
Definition slot_at (index : Z) : Z := HEADER_SIZE + index * SLOT_SIZE.

Definition entry_at (d : bytes) (upper index : Z) (key : bytes) (pl : EncodedPayload) : Prop :=
  ∃ off, upper ≤ off ∧ holds d (slot_at index) (slot_bytes off key pl) ∧
         holds d off (entry_bytes key pl).

(** The bytes the heap needs. *)
Fixpoint heap_entries (es : list (bytes * EncodedPayload)) : Z :=
  match es with [] => 0 | e :: es => len (entry_bytes e.1 e.2) + heap_entries es end.
Definition heap_size (P : Page) : Z := high_len P + heap_entries (p_entries P).

Record page_at (d : bytes) (P : Page) (upper ho : Z) : Prop := {
  pa_size : HEADER_SIZE + SLOT_SIZE ≤ len d ≤ U32_MAX;
  pa_fields : Forall (λ f, holds d f.1 f.2) (header_fields P upper ho);
  pa_bounds : lower_of P ≤ upper ≤ len d;
  pa_links : links_ok P;
  pa_payloads : Forall (λ e, len e.1 ≤ U16_MAX ∧ payload_ok (p_kind P) e.2) (p_entries P);
  pa_high : match p_high P with Some hi => upper ≤ ho ∧ holds d ho hi | None => ho = 0 end;
  pa_entries i key pl : p_entries P !! i = Some (key, pl) → entry_at d upper (Z.of_nat i) key pl;
  pa_heap : upper + heap_size P ≤ len d
}.

Lemma lower_of_ge P : 64 ≤ lower_of P.
Proof. unfold lower_of, HEADER_SIZE, SLOT_SIZE. pose proof (len_nonneg (p_entries P)). lia. Qed.

Lemma page_parse_at d P upper ho :
  page_at d P upper ho → page_parse d = Ok {| pr_data := d; pr_header := header_of P upper ho |}.
Proof.
  intros [Hsz Hf [Hb1 Hb2] [Hl Hr] Hp Hh He _]. pose proof (lower_of_ge P) as H64.
  pose proof (len_nonneg (p_entries P)) as Hn.
  assert (U32_MAX = 2 ^ 32 - 1) as HU by done.
  assert (is_u32 (len (p_entries P)) ∧ is_u32 (lower_of P) ∧ is_u32 upper) as (U1 & U2 & U3).
  { unfold lower_of, HEADER_SIZE, SLOT_SIZE, is_u32 in *. lia. }
  assert (is_u32 ho ∧ is_u32 (high_len P) ∧
          (p_high P = None → ho = 0 ∧ high_len P = 0) ∧
          (∀ hi, p_high P = Some hi → checked_slice d ho (high_len P) = Some hi)) as (U4 & U5 & Hno & Hhi).
  { unfold high_len. destruct (p_high P) as [hi|].
    - destruct Hh as [_ Hh]. pose proof (holds_len _ _ _ Hh). pose proof (len_nonneg hi).
      unfold is_u32. split_and!; try lia; [done|]. intros ? [= <-]. apply Hh.
    - subst. unfold is_u32. split_and!; try lia; done. }
  assert (is_u64 (option_page (p_right P)) ∧ is_u64 (option_page (p_leftmost P))) as [U6 U7].
  { assert (is_u64 NONE_PAGE) by (by unfold is_u64). split.
    - destruct (p_high P), (p_right P); cbn; try done; by destruct Hr.
    - destruct (p_kind P), (p_leftmost P); cbn; try done; by destruct Hl. }
  unfold header_fields in Hf. rewrite !Forall_cons in Hf. cbn [fst snd] in Hf.
  destruct Hf as (F0 & F4 & F6 & F7 & F8 & F12 & F16 & F20 & F24 & F28 & F32 & F36 & F44 & _).
  unfold page_parse.
  rewrite (proj2 (Z.ltb_ge (len d) HEADER_SIZE)), (proj2 (Z.ltb_ge U32_MAX (len d)))
    by (unfold HEADER_SIZE; lia).
  rewrite (holds_u32 _ _ _ F0), (holds_u16 _ _ _ F4) by (unfold is_u32, MAGIC, VERSION; lia).
  rewrite !bool_decide_true by done. cbn [negb orb].
  rewrite (holds_u8 _ _ _ F6) by (by destruct (p_kind P)). cbn [ok_or].
  rewrite (holds_u8 _ _ _ F7) by (unfold flags_of; by destruct (p_high P)).
  rewrite (holds_u32 _ _ _ F8), (holds_u32 _ _ _ F12), (holds_u32 _ _ _ F16) by done.
  rewrite (holds_u32 _ _ _ F20), (holds_u32 _ _ _ F24) by (unfold is_u32; lia).
  rewrite (holds_u32 _ _ _ F28), (holds_u32 _ _ _ F32) by done.
  rewrite (holds_u64 _ _ _ F36), (holds_u64 _ _ _ F44) by done. cbn [ok_or].
  fold (lower_of P). rewrite Z.eqb_refl, (proj2 (Z.ltb_ge upper (lower_of P))),
    (proj2 (Z.ltb_ge (len d) upper)) by lia. cbn [negb orb].
  unfold header_of, links_ok in *. destruct P as [kind leftmost high right entries].
  cbn [p_kind p_leftmost p_high p_right p_entries] in *. unfold flags_of in *. cbn [p_high] in *.
  destruct high as [hi|], right as [r|]; try done; cbn [option_page] in *.
  - rewrite (Hhi hi eq_refl). destruct Hr as [_ Hr]. rewrite (proj2 (Z.eqb_neq r _)) by done.
    change (Z.land FLAG_HIGH_FENCE FLAG_HIGH_FENCE =? 0) with false. cbn [negb Bool.eqb ok_or Z.eqb].
    destruct kind, leftmost as [c|]; try done; cbn [option_page kind_raw Z.eqb];
      rewrite ?(proj2 (Z.eqb_neq c _)) by (by destruct Hl); by rewrite ?Z.eqb_refl.
  - destruct (Hno eq_refl) as [-> Hhl]. rewrite Hhl, Z.eqb_refl.
    change (Z.land 0 FLAG_HIGH_FENCE =? 0) with true. cbn [negb Bool.eqb ok_or Z.eqb orb].
    destruct kind, leftmost as [c|]; try done; cbn [option_page kind_raw Z.eqb];
      rewrite ?(proj2 (Z.eqb_neq c _)) by (by destruct Hl); by rewrite ?Z.eqb_refl.
Qed.

(** ** Cached key heads

    [head_of n] reads the first [n] bytes of a key, padded with zeros. *)
Fixpoint head_of (n : nat) (key : bytes) : Z :=
  match n with
  | O => 0
  | S n => match key with
           | [] => 0
           | b :: key => byte.unsigned b * 256 ^ Z.of_nat n + head_of n key
           end
  end.

Lemma head_of_bound n key : 0 ≤ head_of n key < 256 ^ Z.of_nat n.
Proof.
  revert key. induction n as [|n IH]; intros key; [cbn; lia|]. destruct key as [|b key]; cbn [head_of]; [lia|].
  specialize (IH key). pose proof (byte.unsigned_range b) as Hb. rewrite Nat2Z.inj_succ, Z.pow_succ_r by lia. nia.
Qed.

Lemma head_of_lt n a b : head_of n a < head_of n b → key_cmp a b = Lt.
Proof.
  revert a b. induction n as [|n IH]; intros a b; [cbn; lia|].
  destruct a as [|x a], b as [|y b]; cbn [head_of]; [lia|done| |].
  - pose proof (head_of_bound n a). pose proof (byte.unsigned_range x). nia.
  - intros Hlt. pose proof (head_of_bound n a). pose proof (head_of_bound n b).
    unfold key_cmp in *. cbn. destruct (Z.compare_spec (byte.unsigned x) (byte.unsigned y)) as [E| |E].
    + apply IH. rewrite E in Hlt. lia.
    + done.
    + nia.
Qed.

Lemma key_head_of key : key_head key = head_of 4 key.
Proof.
  unfold key_head, byte_at.
  destruct key as [|b0 [|b1 [|b2 [|b3 key]]]]; cbn [lookup list_lookup head_of];
    change (Z.of_nat 3) with 3; change (Z.of_nat 2) with 2; change (Z.of_nat 1) with 1;
    change (Z.of_nat 0) with 0; lia.
Qed.

Lemma key_head_u32 key : is_u32 (key_head key).
Proof. rewrite key_head_of. pose proof (head_of_bound 4 key). unfold is_u32. lia. Qed.

(** Comparing heads first gives the order of the keys. *)
Lemma head_compare a b :
  key_head a ≠ key_head b → (key_head a ?= key_head b) = key_cmp a b.
Proof.
  rewrite !key_head_of. intros Hne. destruct (Z.compare_spec (head_of 4 a) (head_of 4 b)) as [E|E|E];
    [done|symmetry; by eapply head_of_lt|].
  apply head_of_lt in E. unfold key_cmp in *. rewrite cmp_opp, E. done.
Qed.

(** ** Reading *)
Section reading.
Context (d : bytes) (P : Page) (upper ho : Z) (Hat : page_at d P upper ho).
#[local] Abbreviation pr := ({| pr_data := d; pr_header := header_of P upper ho |}).

Lemma prefix_at : page_prefix pr = Ok [].
Proof. done. Qed.

Lemma payload_at i key pl :
  p_entries P !! i = Some (key, pl) → len key ≤ U16_MAX ∧ payload_ok (p_kind P) pl.
Proof.
  intros Hi. pose proof (pa_payloads _ _ _ _ Hat) as Hp. rewrite Forall_lookup in Hp.
  exact (Hp i (key, pl) Hi).
Qed.

Lemma payload_len_ok kind pl : payload_ok kind pl → len (payload_bytes pl) ≤ U16_MAX.
Proof.
  unfold payload_bytes. destruct kind, pl as [[v|b|]|c]; cbn; try done.
  intros [_ Hc]. rewrite (proj2 (Z.eqb_neq c _)) by done. rewrite len_u64. done.
Qed.

Lemma page_slot_off i key pl off :
  p_entries P !! i = Some (key, pl) → holds d (slot_at (Z.of_nat i)) (slot_bytes off key pl) →
  holds d off (entry_bytes key pl) →
  page_slot pr (Z.of_nat i) =
    Ok {| s_offset := off; s_key_len := len key; s_payload_len := len (payload_bytes pl);
          s_head := key_head key |}.
Proof.
  intros Hi Hs Hb. destruct (payload_at i key pl Hi) as [Hk Hp%payload_len_ok].
  pose proof (lookup_lt_Some _ _ _ Hi) as Hlt. unfold page_slot. cbn [pr_header header_of h_count].
  rewrite (proj2 (Z.leb_gt _ _)) by (unfold len; lia). cbn [pr_data].
  unfold slot_bytes in Hs. rewrite !holds_app, !len_u32_le, !len_u16 in Hs.
  destruct Hs as (F1 & F2 & F3 & F4). fold (slot_at (Z.of_nat i)).
  pose proof (holds_len _ _ _ Hb) as Ho. pose proof (pa_size _ _ _ _ Hat).
  pose proof (len_nonneg (entry_bytes key pl)). pose proof (len_nonneg key).
  pose proof (len_nonneg (payload_bytes pl)). unfold U16_MAX, U32_MAX in *.
  rewrite (holds_u32 _ _ _ F1) by (unfold is_u32; lia). cbn [ok_or].
  rewrite (holds_u16 _ _ _ F2) by lia. cbn [ok_or].
  replace (slot_at (Z.of_nat i) + 6) with (slot_at (Z.of_nat i) + 4 + 2) by lia.
  rewrite (holds_u16 _ _ _ F3) by lia. cbn [ok_or].
  replace (slot_at (Z.of_nat i) + 8) with (slot_at (Z.of_nat i) + 4 + 2 + 2) by lia.
  rewrite (holds_u32 _ _ _ F4) by apply key_head_u32. done.
Qed.

Lemma page_slot_at i key pl :
  p_entries P !! i = Some (key, pl) →
  ∃ off, page_slot pr (Z.of_nat i) =
           Ok {| s_offset := off; s_key_len := len key; s_payload_len := len (payload_bytes pl);
                 s_head := key_head key |} ∧
         upper ≤ off ∧ holds d off (entry_bytes key pl).
Proof.
  intros Hi. destruct (pa_entries _ _ _ _ Hat i key pl Hi) as (off & Hu & Hs & Hb).
  exists off. split; [|done]. by apply page_slot_off.
Qed.

Lemma full_key_at i key pl :
  p_entries P !! i = Some (key, pl) → full_key pr (Z.of_nat i) = Ok key.
Proof.
  intros Hi. destruct (page_slot_at i key pl Hi) as (off & Hs & _ & Hb). unfold full_key.
  rewrite prefix_at, Hs. cbn [s_offset s_key_len pr_data]. unfold entry_bytes in Hb.
  apply holds_app in Hb as [Hb _]. by rewrite (holds_slice _ _ _ _ Hb).
Qed.

Lemma compare_key_at i key pl k :
  p_entries P !! i = Some (key, pl) → compare_key pr (Z.of_nat i) k = Ok (key_cmp key k).
Proof.
  intros Hi. destruct (page_slot_at i key pl Hi) as (off & Hs & _ & Hb). unfold compare_key.
  rewrite prefix_at, Hs. cbn [s_offset s_key_len s_head pr_data]. unfold entry_bytes in Hb.
  apply holds_app in Hb as [Hb _]. rewrite (holds_slice _ _ _ _ Hb) by done. cbn [ok_or length].
  rewrite drop_0. destruct (key_head key =? key_head k) eqn:E; bool_to_prop; cbn [negb].
  - by rewrite andb_false_r.
  - assert (starts_with k [] = true) as -> by (by destruct k). cbn. f_equal. by apply head_compare.
Qed.

Lemma high_fence_at : high_fence pr = Ok (p_high P).
Proof.
  pose proof (pa_high _ _ _ _ Hat) as Hh. unfold high_fence, high_len, flags_of.
  cbn [pr_header header_of h_flags h_high_offset h_high_len pr_data]. unfold flags_of, high_len.
  destruct (p_high P) as [hi|] eqn:E; [|done]. destruct Hh as [_ Hh].
  change (Z.land FLAG_HIGH_FENCE FLAG_HIGH_FENCE =? 0) with false. cbn [negb].
  by rewrite (holds_slice _ _ _ _ Hh).
Qed.

(** Where a key beyond the fence is. *)
Definition right_of (P : Page) (key : bytes) : option PageId :=
  match p_high P with
  | Some hi => match key_cmp key hi with Lt => None | _ => p_right P end
  | None => None
  end.

Lemma follow_right_at key : follow_right pr key = Ok (right_of P key).
Proof.
  unfold follow_right, right_of. rewrite high_fence_at. pose proof (pa_links _ _ _ _ Hat) as [_ Hr].
  destruct (p_high P) as [hi|]; [|done]. cbn [pr_header header_of h_right_sibling].
  destruct (p_right P) as [r|]; [|done]. by destruct (key_cmp key hi).
Qed.

Lemma page_child_at i key c :
  p_entries P !! i = Some (key, EncodedChild c) → p_kind P = KindInternal →
  page_child pr (Z.of_nat i) = Ok c.
Proof.
  intros Hi Hk. destruct (page_slot_at i key _ Hi) as (off & Hs & _ & Hb).
  destruct (payload_at i key _ Hi) as [_ Hp]. rewrite Hk in Hp. destruct Hp as [Hc Hn].
  unfold page_child. cbn [pr_header header_of h_kind]. rewrite Hk, bool_decide_true by done.
  cbn [negb]. rewrite Hs. cbn [s_payload_len s_offset s_key_len pr_data].
  unfold payload_bytes, entry_bytes in *. cbn [encode_payload] in *.
  rewrite (proj2 (Z.eqb_neq c _)) in Hb |- * by done. rewrite len_u64. cbn [Z.eqb Pos.eqb negb].
  apply holds_app in Hb as [_ Hb]. cbn [tag_bytes app] in Hb. rewrite (holds_u64 _ _ _ Hb) by done.
  cbn [ok_or]. by rewrite (proj2 (Z.eqb_neq c _)) by done.
Qed.

Lemma page_value_at i key v :
  p_entries P !! i = Some (key, EncodedLeaf v) → p_kind P = KindLeaf →
  page_value pr (Z.of_nat i) = Ok v.
Proof.
  intros Hi Hk. destruct (page_slot_at i key _ Hi) as (off & Hs & _ & Hb).
  destruct (payload_at i key _ Hi) as [_ Hp]. rewrite Hk in Hp.
  unfold page_value. cbn [pr_header header_of h_kind]. rewrite Hk, bool_decide_true by done.
  cbn [negb]. rewrite Hs. cbn [s_payload_len s_offset s_key_len pr_data].
  assert (∃ tag body, encode_payload (EncodedLeaf v) = Ok (Some tag, body) ∧ 0 ≤ tag < 256) as
    (tag & body & Ee & Htag) by (destruct v; cbn; by eexists _, _).
  unfold payload_bytes, entry_bytes in *. rewrite Ee in *.
  apply holds_app in Hb as [_ Hb]. apply holds_app in Hb as [Ht Hbody].
  cbn [tag_bytes] in Ht, Hbody. rewrite len_cons, len_nil in Hbody.
  rewrite (holds_u8 _ _ _ Ht) by done. cbn [ok_or]. rewrite Z.add_0_r in Hbody.
  rewrite (holds_slice _ _ _ _ Hbody) by done. cbn [ok_or].
  destruct v as [v|b|]; cbn in Ee; injection Ee as <- <-; cbn [Z.eqb TAG_INLINE TAG_BLOB TAG_TOMBSTONE andb].
  - done.
  - destruct Hp as (U1 & U2 & U3).
    assert (holds (blob_to_bytes b) 0 (blob_to_bytes b)) as Hall.
    { apply holds_spec. split; [done|]. exists [], []. by rewrite app_nil_r. }
    assert (len (blob_to_bytes b) = BLOB_SIZE) as Hlen by (unfold blob_to_bytes; by autorewrite with seer).
    rewrite Hlen. change (TAG_BLOB =? TAG_INLINE) with false. cbn [andb Z.eqb Pos.eqb BLOB_SIZE].
    unfold blob_to_bytes in Hall at 2. rewrite !holds_app, len_u32_le, len_u64 in Hall.
    destruct Hall as (B1 & B2 & B3). change (0 + 4) with 4 in *. change (4 + 8) with 12 in *.
    change (TAG_BLOB =? TAG_BLOB) with true. change (BLOB_SIZE =? BLOB_SIZE) with true. cbn [andb].
    rewrite (holds_u32 _ _ _ B1), (holds_u64 _ _ _ B2), (holds_u32 _ _ _ B3) by done. cbn [ok_or].
    by destruct b.
  - done.
Qed.
End reading.

(** ** Searching *)
(** The entries of a page are a sorted map from keys. *)
Abbreviation keys_sorted := BTreeMap.wf.

Lemma sorted_lookup_lt {A} (R : relation A) l i j a b :
  StronglySorted R l → l !! i = Some a → l !! j = Some b → (i < j)%nat → R a b.
Proof.
  intros Hs. revert i j. induction Hs as [|x l _ IH Hx]; intros i j; [done|].
  destruct i as [|i], j as [|j]; cbn; [lia| |lia|].
  - intros [= <-] Hj _. rewrite Forall_lookup in Hx. eauto.
  - intros Hi Hj Hij. eapply IH; eauto. lia.
Qed.

Lemma keys_sorted_lt {A} (es : list (bytes * A)) i j a b :
  keys_sorted es → es !! i = Some a → es !! j = Some b → (i < j)%nat → lt_ord a.1 b.1.
Proof. intros Hs. by apply (sorted_lookup_lt _ es i j a b Hs). Qed.

(** [n] splits the entries into those below [k] and those above. *)
Definition splits_at {A} (es : list (bytes * A)) (k : bytes) (n : nat) : Prop :=
  (n ≤ length es)%nat ∧
  ∀ m e, es !! m = Some e → ((m < n)%nat → lt_ord e.1 k) ∧ ((n ≤ m)%nat → lt_ord k e.1).

Lemma try_range_at {A} (f : Z → result A PageError) (l : list A) base :
  (∀ i x, l !! i = Some x → f (base + Z.of_nat i) = Ok x) → try_range f (length l) base = Ok l.
Proof.
  revert base. induction l as [|x l IH]; intros base Hf; [done|]. cbn [length try_range].
  pose proof (Hf 0%nat x eq_refl) as H0. rewrite Z.add_0_r in H0. rewrite H0, IH; [done|].
  intros i y Hy. rewrite <-(Hf (S i) y Hy). f_equal. lia.
Qed.

Section search.
Context (d : bytes) (P : Page) (upper ho : Z) (Hat : page_at d P upper ho).
#[local] Abbreviation pr := ({| pr_data := d; pr_header := header_of P upper ho |}).
Context (Hsorted : keys_sorted (p_entries P)).

Lemma entry_index (i : Z) :
  0 ≤ i < len (p_entries P) → ∃ key pl, p_entries P !! Z.to_nat i = Some (key, pl).
Proof.
  intros Hi. destruct (lookup_lt_is_Some_2 (p_entries P) (Z.to_nat i)) as [[key pl] He];
    [unfold len in Hi; lia|eauto].
Qed.

(** What the bisection keeps true. *)
Definition search_inv (k : bytes) (lo hi : Z) (found : option Z) : Prop :=
  0 ≤ lo ≤ hi ∧ hi ≤ len (p_entries P) ∧
  (∀ m e, p_entries P !! m = Some e → Z.of_nat m < lo → lt_ord e.1 k) ∧
  match found with
  | Some f => 0 ≤ f ∧ ∃ pl, p_entries P !! Z.to_nat f = Some (k, pl)
  | None => ∀ m e, p_entries P !! m = Some e → hi ≤ Z.of_nat m → lt_ord k e.1
  end.

Lemma search_loop_at k fuel : ∀ lo hi found,
  search_inv k lo hi found → hi - lo ≤ Z.of_nat fuel →
  ∃ lo' found', search_loop fuel pr k lo hi found = Ok (lo', found') ∧
                search_inv k lo' lo' found' .
Proof.
  induction fuel as [|fuel IH]; intros lo hi found (Hlo & Hhi & Hbelow & Hfound) Hf.
  { exists lo, found. assert (hi = lo) as -> by lia. done. }
  cbn [search_loop]. destruct (lo <? hi) eqn:E; bool_to_prop; cycle 1.
  { exists lo, found. assert (hi = lo) as -> by lia. done. }
  set (mid := lo + (hi - lo) / 2).
  assert (lo ≤ mid < hi) as Hmid.
  { subst mid. pose proof (Z.div_pos (hi - lo) 2). pose proof (Z.div_lt_upper_bound (hi - lo) 2 (hi - lo)). lia. }
  destruct (entry_index mid) as (key & pl & He); [lia|].
  pose proof (compare_key_at _ _ _ _ Hat (Z.to_nat mid) key pl k He) as Hc.
  rewrite Z2Nat.id in Hc by lia. rewrite Hc.
  assert (∀ m e, p_entries P !! m = Some e → Z.of_nat m < mid → lt_ord e.1 key) as Hlt.
  { intros m e Hm Hmm. eapply (keys_sorted_lt _ m (Z.to_nat mid) e (key, pl)); [done..|lia]. }
  assert (∀ m e, p_entries P !! m = Some e → mid < Z.of_nat m → lt_ord key e.1) as Hgt.
  { intros m e Hm Hmm. eapply (keys_sorted_lt _ (Z.to_nat mid) m (key, pl) e); [done..|lia]. }
  assert (∀ m e, p_entries P !! m = Some e → Z.of_nat m = mid → e.1 = key) as Heq.
  { intros m e Hm Hmm. assert (m = Z.to_nat mid) as -> by lia. rewrite He in Hm.
    by injection Hm as <-. }
  destruct (key_cmp key k) eqn:Ecmp; apply IH; try lia; (split; [lia|]); (split; [lia|]).
  - apply cmp_eq in Ecmp as ->. split.
    + intros m e Hm Hmm. apply (Hbelow m e Hm Hmm).
    + split; [lia|]. eauto.
  - split; [|done]. intros m e Hm Hmm. destruct (decide (Z.of_nat m = mid)) as [Hm'|Hm'].
    + rewrite (Heq m e Hm Hm'). exact Ecmp.
    + eapply cmp_trans; [apply (Hlt m e Hm); lia|exact Ecmp].
  - assert (lt_ord k key) as Hk by (unfold lt_ord, key_cmp in *; by rewrite cmp_opp, Ecmp).
    split; [done|]. destruct found as [f|]; [done|]. intros m e Hm Hmm.
    destruct (decide (Z.of_nat m = mid)) as [Hm'|Hm'].
    + by rewrite (Heq m e Hm Hm').
    + eapply cmp_trans; [exact Hk|]. apply (Hgt m e Hm). lia.
Qed.

(** [search] finds a key that is there, and where to insert one that is not. *)
Lemma search_at k :
  ∃ r, search pr k = Ok r ∧
    match r with
    | inl i => ∃ n pl, i = Z.of_nat n ∧ p_entries P !! n = Some (k, pl)
    | inr i => ∃ n, i = Z.of_nat n ∧ splits_at (p_entries P) k n
    end.
Proof.
  destruct (search_loop_at k (Z.to_nat (len (p_entries P))) 0 (len (p_entries P)) None) as (lo & found & Hl & Hi).
  { split; [pose proof (len_nonneg (p_entries P)); lia|]. split; [done|]. split; [lia|].
    intros m e Hm. apply lookup_lt_Some in Hm. unfold len. lia. }
  { pose proof (len_nonneg (p_entries P)). lia. }
  unfold search. cbn [pr_header header_of h_count]. rewrite Hl. cbn [snd fst].
  destruct Hi as (Hlo & Hhi & Hbelow & Hf). eexists. split; [done|]. destruct found as [f|].
  - destruct Hf as [Hf0 [pl Hpl]]. exists (Z.to_nat f), pl. split; [lia|done].
  - exists (Z.to_nat lo). split; [lia|]. split; [unfold len in Hhi; lia|]. intros m e Hm.
    split; intros Hmm; [apply (Hbelow m e Hm)|apply (Hf m e Hm)]; lia.
Qed.
End search.

(** ** Entry lists of leaves and of internal pages *)
Definition leaf_page (high : option bytes) (right : option PageId) (es : list LeafEntry) : Page :=
  {| p_kind := KindLeaf; p_leftmost := None; p_high := high; p_right := right;
     p_entries := map (λ e, (e.1, EncodedLeaf e.2)) es |}.
Definition internal_page (high : option bytes) (right : option PageId) (leftmost : PageId)
    (es : list InternalEntry) : Page :=
  {| p_kind := KindInternal; p_leftmost := Some leftmost; p_high := high; p_right := right;
     p_entries := map (λ e, (e.1, EncodedChild e.2)) es |}.

Lemma map_sorted {A B} (f : A → B) (es : list (bytes * A)) :
  keys_sorted (map (λ e, (e.1, f e.2)) es) ↔ keys_sorted es.
Proof.
  unfold BTreeMap.wf. split.
  - induction es as [|e es IH]; [constructor|]. cbn. intros Hs. inversion_clear Hs as [|? ? Hs' Hx].
    constructor; [by apply IH|]. apply Forall_forall. intros x Hx'. rewrite Forall_forall in Hx.
    apply (Hx (x.1, f x.2)), list_elem_of_fmap. by exists x.
  - induction 1 as [|e es Hs IH Hx]; [constructor|]. cbn. constructor; [done|].
    apply Forall_forall. intros ? (x & -> & Hx')%list_elem_of_fmap. rewrite Forall_forall in Hx.
    by apply (Hx x).
Qed.

Lemma leaf_entries_at d upper ho high right es :
  page_at d (leaf_page high right es) upper ho →
  leaf_entries_owned {| pr_data := d; pr_header := header_of (leaf_page high right es) upper ho |} = Ok es.
Proof.
  intros Hat. unfold leaf_entries_owned. cbn [pr_header header_of h_kind p_kind leaf_page h_count p_entries].
  rewrite bool_decide_true by done. cbn [negb]. unfold len. rewrite length_map, Nat2Z.id.
  apply try_range_at. intros i [k v] Hi. rewrite Z.add_0_l.
  assert (p_entries (leaf_page high right es) !! i = Some (k, EncodedLeaf v)) as He.
  { cbn. by rewrite list_lookup_fmap, Hi. }
  rewrite (full_key_at _ _ _ _ Hat i k _ He), (page_value_at _ _ _ _ Hat i k v He) by done. done.
Qed.

Lemma internal_entries_at d upper ho high right leftmost es :
  page_at d (internal_page high right leftmost es) upper ho →
  internal_entries_owned
    {| pr_data := d; pr_header := header_of (internal_page high right leftmost es) upper ho |} = Ok es.
Proof.
  intros Hat. unfold internal_entries_owned.
  cbn [pr_header header_of h_kind p_kind internal_page h_count p_entries].
  rewrite bool_decide_true by done. cbn [negb]. unfold len. rewrite length_map, Nat2Z.id.
  apply try_range_at. intros i [k c] Hi. rewrite Z.add_0_l.
  assert (p_entries (internal_page high right leftmost es) !! i = Some (k, EncodedChild c)) as He.
  { cbn. by rewrite list_lookup_fmap, Hi. }
  rewrite (full_key_at _ _ _ _ Hat i k _ He), (page_child_at _ _ _ _ Hat i k c He) by done. done.
Qed.

(** The child for a key: the one of the last separator that is not above it. *)
Fixpoint route (leftmost : PageId) (es : list InternalEntry) (key : bytes) : PageId :=
  match es with
  | [] => leftmost
  | (k, c) :: es => match key_cmp key k with Lt => leftmost | _ => route c es key end
  end.

Lemma route_nth leftmost es key n :
  keys_sorted es → (n ≤ length es)%nat →
  (∀ m e, es !! m = Some e → (m < n)%nat → ¬ lt_ord key e.1) →
  (∀ m e, es !! m = Some e → (n ≤ m)%nat → lt_ord key e.1) →
  route leftmost es key = match n with O => leftmost | S m => default leftmost (snd <$> es !! m) end.
Proof.
  revert leftmost n. induction es as [|[k c] es IH]; intros leftmost n Hs Hn Hlow Hhigh; cbn [route].
  { by destruct n; cbn in *; [|lia]. }
  destruct n as [|n].
  { pose proof (Hhigh 0%nat (k, c) eq_refl ltac:(lia)) as Hk. unfold key_cmp. cbn in Hk.
    by rewrite Hk. }
  pose proof (Hlow 0%nat (k, c) eq_refl ltac:(lia)) as Hk. cbn in Hk. unfold lt_ord in Hk.
  assert (route c es key = match n with O => c | S m => default c (snd <$> es !! m) end) as Hr.
  { apply IH.
    - by inversion_clear Hs.
    - cbn in Hn. lia.
    - intros m e Hm Hmn. apply (Hlow (S m) e Hm). lia.
    - intros m e Hm Hmn. apply (Hhigh (S m) e Hm). lia. }
  assert (match key_cmp key k with Lt => leftmost | _ => route c es key end = route c es key) as ->.
  { unfold key_cmp. by destruct (cmp key k). }
  rewrite Hr. destruct n as [|n]; [done|]. change (((k, c) :: es) !! S n) with (es !! n). cbn in Hn.
  destruct (lookup_lt_is_Some_2 es n) as [x Hx]; [lia|]. by rewrite Hx.
Qed.

Lemma upper_equal_stop d P upper ho n k fuel :
  page_at d P upper ho → keys_sorted (p_entries P) →
  (∃ pl, p_entries P !! n = Some (k, pl)) →
  upper_equal fuel {| pr_data := d; pr_header := header_of P upper ho |} k (Z.of_nat n + 1) =
    Ok (Z.of_nat n + 1).
Proof.
  intros Hat Hs [pl Hn]. destruct fuel as [|fuel]; [done|]. cbn [upper_equal pr_header header_of h_count].
  destruct (_ <? _) eqn:E; bool_to_prop; [|done].
  destruct (lookup_lt_is_Some_2 (p_entries P) (S n)) as [[k' pl'] Hk']; [unfold len in E; lia|].
  replace (Z.of_nat n + 1) with (Z.of_nat (S n)) by lia.
  rewrite (compare_key_at _ _ _ _ Hat (S n) k' pl' k Hk').
  pose proof (keys_sorted_lt _ n (S n) _ _ Hs Hn Hk' ltac:(lia)) as Hlt. cbn in Hlt.
  unfold key_cmp, lt_ord in *. rewrite cmp_opp, Hlt. done.
Qed.

Lemma child_for_key_at d upper ho high right leftmost es key :
  page_at d (internal_page high right leftmost es) upper ho → keys_sorted es →
  child_for_key {| pr_data := d; pr_header := header_of (internal_page high right leftmost es) upper ho |} key
    = Ok (route leftmost es key).
Proof.
  intros Hat Hs. set (P := internal_page high right leftmost es) in *.
  assert (keys_sorted (p_entries P)) as HsP by (by apply map_sorted).
  assert (∀ m k c, es !! m = Some (k, c) → p_entries P !! m = Some (k, EncodedChild c)) as Hlk.
  { intros m k c Hm. cbn. by rewrite list_lookup_fmap, Hm. }
  unfold child_for_key. cbn [pr_header header_of h_kind].
  rewrite bool_decide_true by done. cbn [negb].
  destruct (search_at _ _ _ _ Hat HsP key) as (r & Hr & Hspec). rewrite Hr.
  destruct r as [i|i].
  - destruct Hspec as (n & pl & -> & Hn). rewrite (upper_equal_stop _ _ _ _ n key) by eauto.
    rewrite (proj2 (Z.eqb_neq _ _)) by lia. replace (Z.of_nat n + 1 - 1) with (Z.of_nat n) by lia.
    cbn in Hn. rewrite list_lookup_fmap in Hn. destruct (es !! n) as [[k c]|] eqn:En; [|done].
    cbn in Hn. injection Hn as -> <-. rewrite (page_child_at _ _ _ _ Hat n key c) by auto.
    rewrite (route_nth leftmost es key (S n)); [by rewrite En|done| | |].
    + apply lookup_lt_Some in En. lia.
    + intros m e Hm Hmn Hlt. destruct (decide (m = n)) as [->|Hne].
      * rewrite En in Hm. injection Hm as <-. by apply BTreeMap.lt_ord_irrefl in Hlt.
      * pose proof (keys_sorted_lt es m n e _ Hs Hm En ltac:(lia)) as Hlt'. cbn in Hlt'.
        pose proof (cmp_trans _ _ _ Hlt' Hlt) as Hc. by apply BTreeMap.lt_ord_irrefl in Hc.
    + intros m e Hm Hmn. apply (keys_sorted_lt es n m _ _ Hs En Hm). lia.
  - destruct Hspec as (n & -> & Hn & Hsp).
    cbn in Hn. rewrite length_map in Hn.
    assert (∀ m e, es !! m = Some e → ((m < n)%nat → lt_ord e.1 key) ∧ ((n ≤ m)%nat → lt_ord key e.1)) as Hes.
    { intros m [k c] Hm. exact (Hsp m (k, EncodedChild c) (Hlk m k c Hm)). }
    rewrite (route_nth leftmost es key n); [|done|done| |].
    + destruct n as [|n]; [done|]. rewrite (proj2 (Z.eqb_neq _ _)) by lia.
      replace (Z.of_nat (S n) - 1) with (Z.of_nat n) by lia.
      destruct (lookup_lt_is_Some_2 es n) as [[k c] En]; [lia|]. rewrite En. cbn.
      by rewrite (page_child_at _ _ _ _ Hat n k c) by auto.
    + intros m e Hm Hmn Hlt. destruct (Hes m e Hm) as [H1 _].
      pose proof (cmp_trans _ _ _ (H1 Hmn) Hlt) as Hc. by apply BTreeMap.lt_ord_irrefl in Hc.
    + intros m e Hm. apply (Hes m e Hm).
Qed.

(** ** Building *)
Lemma heap_entries_nonneg es : 0 ≤ heap_entries es.
Proof.
  induction es as [|e es IH]; cbn; [lia|]. pose proof (len_nonneg (entry_bytes e.1 e.2)). lia.
Qed.

Lemma heap_entries_app l1 l2 : heap_entries (l1 ++ l2) = heap_entries l1 + heap_entries l2.
Proof. induction l1 as [|e l1 IH]; cbn; lia. Qed.

Lemma put_app d o a b :
  0 ≤ o → o + len a + len b ≤ len d → put (put d o a) (o + len a) b = put d o (a ++ b).
Proof.
  intros Ho Hl. unfold put, len in *. rewrite !length_app.
  rewrite (app_assoc (take _ d)), take_app_le by (rewrite length_app, length_take; lia).
  rewrite (take_ge (take _ d ++ a)) by (rewrite length_app, length_take; lia).
  rewrite drop_app_ge by (rewrite length_app, length_take; lia).
  rewrite drop_drop, length_app, length_take, <-!app_assoc. do 4 f_equal. lia.
Qed.

Lemma page_write_at what d o b : o + len b ≤ len d → page_write what d o b = (put d o b, Ok tt).
Proof. intros H. unfold page_write. by rewrite (proj2 (Z.leb_le _ _)). Qed.

Lemma len_slot_bytes off key pl : len (slot_bytes off key pl) = 12.
Proof. unfold slot_bytes. rewrite !len_app. by autorewrite with seer. Qed.

Lemma write_slot_at d index off key pl :
  0 ≤ index → slot_at index + 12 ≤ len d → 0 ≤ off ≤ U32_MAX → len key ≤ U16_MAX →
  len (payload_bytes pl) ≤ U16_MAX →
  write_slot d index {| s_offset := off; s_key_len := len key; s_payload_len := len (payload_bytes pl);
                        s_head := key_head key |} =
    (put d (slot_at index) (slot_bytes off key pl), Ok tt).
Proof.
  intros Hi Hl Ho Hk Hp. assert (0 ≤ slot_at index) as H0 by (unfold slot_at, HEADER_SIZE, SLOT_SIZE; lia).
  unfold write_slot, u16_try_from, write_u16, write_u32. cbn [s_offset s_key_len s_payload_len s_head].
  fold (slot_at index). unfold u32_try_from.
  rewrite (proj2 (Z.leb_le off _)), (proj2 (Z.leb_le (len key) _)), (proj2 (Z.leb_le (len (payload_bytes pl)) _)) by lia.
  unfold slot_bytes. set (a := u32_le off). set (b := u16_le (len key)).
  set (c := u16_le (len (payload_bytes pl))). set (e := u32_le (key_head key)).
  assert (len a = 4 ∧ len b = 2 ∧ len c = 2 ∧ len e = 4) as (La & Lb & Lc & Le).
  { subst a b c e. by rewrite !len_u32_le, !len_u16. }
  rewrite (page_write_at _ d) by lia.
  replace (slot_at index + 4) with (slot_at index + len a) by lia.
  rewrite page_write_at by (rewrite len_put; lia). rewrite put_app by lia.
  replace (slot_at index + 6) with (slot_at index + len (a ++ b)) by (rewrite len_app; lia).
  rewrite page_write_at by (rewrite len_put; rewrite ?len_app; lia).
  rewrite put_app by (rewrite ?len_app; lia).
  replace (slot_at index + 8) with (slot_at index + len ((a ++ b) ++ c)) by (rewrite !len_app; lia).
  rewrite page_write_at by (rewrite len_put; rewrite ?len_app; lia).
  rewrite put_app by (rewrite ?len_app; lia). by rewrite <-!app_assoc.
Qed.

Lemma encode_ok kind pl :
  payload_ok kind pl →
  ∃ tag, encode_payload pl = Ok (tag, payload_bytes pl) ∧
         ∀ key, entry_bytes key pl = key ++ tag_bytes tag ++ payload_bytes pl.
Proof.
  unfold entry_bytes, payload_bytes. destruct kind, pl as [[v|b|]|c]; cbn; try done; try (by eexists).
  intros [_ Hc]. rewrite (proj2 (Z.eqb_neq c _)) by done. by eexists.
Qed.

Definition offset_of (top : Z) (es : list (bytes * EncodedPayload)) (j : nat) : Z :=
  top - heap_entries (take (S j) es).

Lemma build_loop_at kind count lower : ∀ es index d top,
  len d ≤ U32_MAX → Forall (λ e, len e.1 ≤ U16_MAX ∧ payload_ok kind e.2) es →
  0 ≤ index → count = index + len es → lower = slot_at count → lower ≤ top ≤ len d →
  if decide (lower + heap_entries es ≤ top)
  then ∃ d', build_loop es count lower index d top = Ok (d', top - heap_entries es, count) ∧
       len d' = len d ∧
       (∀ o b, o + len b ≤ slot_at index ∨ top ≤ o → holds d o b → holds d' o b) ∧
       ∀ j key pl, es !! j = Some (key, pl) →
         holds d' (slot_at (index + Z.of_nat j)) (slot_bytes (offset_of top es j) key pl) ∧
         holds d' (offset_of top es j) (entry_bytes key pl)
  else ∃ e, build_loop es count lower index d top = Err e ∧
            (e = "entry heap does not fit page" ∨ e = "page does not fit encoded entries").
Proof.
  induction es as [|[k pl] es IH]; intros index d top Hd Hes Hi Hc Hlow Hb.
  { rewrite decide_True by (cbn; lia). exists d. cbn. rewrite len_nil in Hc.
    rewrite Z.add_0_r in Hc. subst count. rewrite Z.sub_0_r. by split_and!. }
  rewrite len_cons in Hc. pose proof (len_nonneg es) as Hnn. apply Forall_cons in Hes as [[Hk Hp] Hes].
  cbn [fst snd] in Hk, Hp. destruct (encode_ok _ _ Hp) as (tag & Henc & Heb).
  pose proof (payload_len_ok _ _ Hp) as Hpl. pose proof (heap_entries_nonneg es) as Hhn.
  cbn [build_loop heap_entries fst snd]. rewrite (proj2 (Z.leb_gt count index)), (proj2 (Z.ltb_ge U16_MAX (len k))) by lia.
  cbn [orb]. rewrite Henc, (proj2 (Z.ltb_ge U16_MAX _)) by done. rewrite <-Heb.
  set (eb := entry_bytes k pl) in *. pose proof (len_nonneg eb) as Heb0.
  destruct (top <? len eb) eqn:E1; bool_to_prop.
  { rewrite decide_False by (unfold slot_at, HEADER_SIZE, SLOT_SIZE in *; lia). eauto. }
  destruct (top - len eb <? lower) eqn:E2; bool_to_prop.
  { rewrite decide_False by lia. eauto. }
  assert (slot_at index + 12 = slot_at (index + 1)) as Hnext by (unfold slot_at, SLOT_SIZE; lia).
  assert (slot_at (index + 1) ≤ lower) as Hle by (subst lower count; unfold slot_at, SLOT_SIZE; lia).
  assert (0 ≤ slot_at index) as Hs0 by (unfold slot_at, HEADER_SIZE, SLOT_SIZE; lia).
  assert (len (put d (top - len eb) eb) = len d) as L1 by (apply len_put; lia).
  rewrite write_slot_at by (rewrite ?L1; lia). cbn [written].
  set (d2 := put (put d (top - len eb) eb) (slot_at index) (slot_bytes (top - len eb) k pl)).
  assert (len d2 = len d) as L2 by (subst d2; rewrite len_put; rewrite ?len_slot_bytes; lia).
  specialize (IH (index + 1) d2 (top - len eb)).
  assert (∀ o b, o + len b ≤ slot_at index ∨ top ≤ o → holds d o b → holds d2 o b) as Hkeep.
  { intros o b Ho Hh. apply holds_put_other; [done|rewrite len_slot_bytes; lia|rewrite len_slot_bytes; lia|].
    apply holds_put_other; [lia|lia|lia|done]. }
  assert (holds d2 (slot_at index) (slot_bytes (top - len eb) k pl)) as Hslot.
  { apply holds_put_same; [done|rewrite len_slot_bytes; lia]. }
  assert (holds d2 (top - len eb) eb) as Hent.
  { apply holds_put_other; [done|rewrite len_slot_bytes; lia|rewrite len_slot_bytes; lia|].
    apply holds_put_same; lia. }
  destruct (decide (lower + heap_entries es ≤ top - len eb)) as [Hfit|Hfit].
  - rewrite decide_True by lia. destruct IH as (d' & Hb' & Hl' & Hk' & He'); [lia || done..|].
    exists d'. rewrite Hb'. split; [do 3 f_equal; lia|]. split; [lia|]. split.
    { intros o b Ho Hh. apply Hk'; [lia|]. by apply Hkeep. }
    intros j key pl' Hj. destruct j as [|j].
    + cbn in Hj. injection Hj as <- <-. unfold offset_of. cbn [take heap_entries fst snd].
      fold eb. rewrite !Z.add_0_r. split; apply Hk'; try done; [left; rewrite len_slot_bytes|]; lia.
    + destruct (He' j key pl' Hj) as [H1 H2]. unfold offset_of in *. cbn [take heap_entries fst snd] in *.
      fold eb. replace (top - (len eb + _)) with (top - len eb - heap_entries (take (S j) es)) by (cbn [take]; lia).
      replace (index + Z.of_nat (S j)) with (index + 1 + Z.of_nat j) by lia. done.
  - rewrite decide_False by lia. apply IH; lia || done.
Qed.

(** Fields written one after the other. *)
Definition puts (d : bytes) (fs : list (Z * bytes)) : bytes := foldl (λ d f, put d f.1 f.2) d fs.

Fixpoint fields_in (from to : Z) (fs : list (Z * bytes)) : Prop :=
  match fs with
  | [] => from ≤ to
  | f :: fs => from ≤ f.1 ∧ fields_in (f.1 + len f.2) to fs
  end.

Lemma fields_in_le from to fs : fields_in from to fs → from ≤ to.
Proof.
  revert from. induction fs as [|f fs IH]; intros from; [done|]. cbn. intros [H1 H2%IH].
  pose proof (len_nonneg f.2). lia.
Qed.

Lemma fields_in_elem from to fs f : fields_in from to fs → f ∈ fs → from ≤ f.1 ∧ f.1 + len f.2 ≤ to.
Proof.
  revert from. induction fs as [|g fs IH]; intros from; [by intros _ ?%elem_of_nil|]. cbn.
  intros [H1 H2] [->|Hin]%elem_of_cons; [by apply fields_in_le in H2|].
  pose proof (len_nonneg g.2). destruct (IH _ H2 Hin). lia.
Qed.

Lemma puts_at d from to fs :
  fields_in from to fs → 0 ≤ from → to ≤ len d →
  len (puts d fs) = len d ∧
  (∀ o b, o + len b ≤ from ∨ to ≤ o → holds d o b → holds (puts d fs) o b) ∧
  Forall (λ f, holds (puts d fs) f.1 f.2) fs.
Proof.
  revert d from. induction fs as [|f fs IH]; intros d from Hf H0 Hto; [done|].
  destruct Hf as [Hf1 Hf2]. pose proof (fields_in_le _ _ _ Hf2) as Hle. pose proof (len_nonneg f.2).
  destruct (IH (put d f.1 f.2) _ Hf2) as (Hl & Hk & Ha); [lia|rewrite len_put; lia|].
  cbn [puts foldl]. fold (puts (put d f.1 f.2) fs). split; [|split].
  - rewrite Hl. apply len_put; lia.
  - intros o b Ho Hh. apply Hk; [lia|]. apply holds_put_other; lia || done.
  - constructor; [|done]. apply Hk; [lia|]. apply holds_put_same; lia.
Qed.

Lemma header_fields_in P upper ho : fields_in 0 HEADER_SIZE (header_fields P upper ho).
Proof.
  unfold header_fields. cbn [fields_in fst snd]. autorewrite with seer. unfold HEADER_SIZE. lia.
Qed.

Lemma write_header_at d P upper ho :
  HEADER_SIZE ≤ len d →
  written (write_header d (p_kind P) (flags_of P) (len (p_entries P)) (lower_of P) upper ho (high_len P)
             (p_right P) (p_leftmost P)) = Ok (puts d (header_fields P upper ho)).
Proof.
  unfold HEADER_SIZE. intros Hd. unfold write_header, write_u16, write_u32, write_u64, header_fields, puts.
  cbn [foldl fst snd].
  repeat (first [rewrite (page_write_at _ d) by (autorewrite with seer; lia)|idtac];
    match goal with
    | Hd : _ ≤ len d |- context [put d ?o ?b] =>
        let d' := fresh "d" in
        set (d' := put d o b);
        assert (52 ≤ len d') by (subst d'; rewrite len_put; autorewrite with seer; lia);
        clearbody d'; clear Hd d; rename d' into d
    end). done.
Qed.

(** *** The final check

    Entries laid out downwards from [top] do not overlap. *)
Fixpoint heap_spans (top : Z) (es : list (bytes * EncodedPayload)) : list (Z * Z) :=
  match es with
  | [] => []
  | e :: es => let o := top - len (entry_bytes e.1 e.2) in (o, top) :: heap_spans o es
  end.

#[local] Instance span_le_trans : Transitive span_le.
Proof. intros a b c. unfold span_le. lia. Qed.
#[local] Instance span_le_antisymm : AntiSymm (=) span_le.
Proof. intros [a1 a2] [b1 b2]. unfold span_le. cbn. intros ??. f_equal; lia. Qed.
#[local] Instance span_le_total : Total span_le.
Proof. intros a b. unfold span_le. lia. Qed.

Definition spans_from (top : Z) (tail : list (Z * Z)) : Prop :=
  Sorted span_le tail ∧ spans_overlap tail = false ∧
  match tail with [] => True | a :: _ => top ≤ a.1 ≤ a.2 end.

Lemma heap_spans_from top es tail :
  spans_from top tail → ∃ low, spans_from low (reverse (heap_spans top es) ++ tail).
Proof.
  revert top tail. induction es as [|e es IH]; intros top tail Ht; [by exists top|].
  cbn [heap_spans]. rewrite reverse_cons, <-app_assoc. apply IH.
  pose proof (len_nonneg (entry_bytes e.1 e.2)) as Hl. destruct Ht as (Hs & Ho & Ht). cbn [app].
  split; [|split; [|cbn; lia]].
  - constructor; [done|]. destruct tail as [|a tail]; constructor. unfold span_le. cbn. lia.
  - cbn. destruct tail as [|a tail]; [done|]. rewrite Ho, orb_false_r. apply Z.ltb_ge. cbn. lia.
Qed.

Lemma heap_spans_disjoint top es tail :
  spans_from top tail → spans_overlap (merge_sort span_le (heap_spans top es ++ tail)) = false.
Proof.
  intros Ht. destruct (heap_spans_from top es tail Ht) as (low & Hs & Ho & _). rewrite <-Ho. f_equal.
  apply (Sorted_unique span_le); [apply (Sorted_merge_sort span_le); apply _|done|].
  by rewrite merge_sort_Permutation, reverse_Permutation.
Qed.

Lemma entry_len_ok kind key pl :
  payload_ok kind pl →
  len (entry_bytes key pl) =
    if bool_decide (kind = KindLeaf) then len key + 1 + len (payload_bytes pl) else len key + 8.
Proof.
  unfold entry_bytes, payload_bytes. destruct kind, pl as [[v|b|]|c]; cbn; try done;
    try (intros _; rewrite bool_decide_true, len_app, len_cons by done; lia).
  intros [_ Hc]. by rewrite (proj2 (Z.eqb_neq c _)), bool_decide_false, !len_app, len_u64 by done.
Qed.

Lemma validate_loop_at d P upper ho top :
  page_at d P upper ho → keys_sorted (p_entries P) →
  (∀ j key pl, p_entries P !! j = Some (key, pl) →
     holds d (slot_at (Z.of_nat j)) (slot_bytes (offset_of top (p_entries P) j) key pl) ∧
     holds d (offset_of top (p_entries P) j) (entry_bytes key pl) ∧
     upper ≤ offset_of top (p_entries P) j) →
  ∀ l1 l2 spans, p_entries P = l1 ++ l2 →
  validate_loop (length l2) {| pr_data := d; pr_header := header_of P upper ho |} (len l1)
    (fst <$> last l1) spans = Ok (spans ++ heap_spans (top - heap_entries l1) l2).
Proof.
  intros Hat Hs Hoff l1 l2. revert l1. induction l2 as [|[k pl] l2 IH]; intros l1 spans HP.
  { cbn. by rewrite app_nil_r. }
  assert (p_entries P !! length l1 = Some (k, pl)) as He.
  { rewrite HP, lookup_app_r, Nat.sub_diag by done. done. }
  destruct (Hoff _ _ _ He) as (Hslot & Hent & Hup). destruct (payload_at _ _ _ _ Hat _ _ _ He) as [Hk Hp].
  assert (offset_of top (p_entries P) (length l1) = top - heap_entries l1 - len (entry_bytes k pl)) as Ho.
  { unfold offset_of. rewrite HP, take_app, take_ge, heap_entries_app by lia.
    replace (S (length l1) - length l1)%nat with 1%nat by lia. cbn [take heap_entries fst snd]. change (take 0 l2) with (@nil (bytes * EncodedPayload)). cbn [heap_entries]. lia. }
  cbn [length validate_loop]. change (len l1) with (Z.of_nat (length l1)).
  rewrite (page_slot_off _ _ _ _ Hat _ _ _ _ He Hslot Hent). unfold entry_span.
  cbn [pr_header header_of h_kind h_upper s_offset s_key_len s_payload_len pr_data fst snd].
  rewrite <-(entry_len_ok _ k _ Hp). pose proof (holds_len _ _ _ Hent) as Hl.
  rewrite (proj2 (Z.ltb_ge _ upper)), (proj2 (Z.ltb_ge (len d) _)) by lia. cbn [orb].
  rewrite (full_key_at _ _ _ _ Hat _ _ _ He).
  assert (match fst <$> last l1 with
          | Some prev => match key_cmp prev k with Gt => true | _ => false end
          | None => false end = false) as ->.
  { destruct (last l1) as [[k' pl']|] eqn:El; [|done]. cbn [fmap option_fmap option_map fst].
    apply last_Some in El as [l1' ->]. rewrite <-app_assoc in HP.
    pose proof (keys_sorted_lt _ (length l1') (length (l1' ++ [(k', pl')])) (k', pl') (k, pl) Hs) as Hlt.
    cbn [fst] in Hlt. unfold key_cmp. rewrite Hlt; [done| |done|rewrite length_app; cbn; lia].
    by rewrite HP, lookup_app_r, Nat.sub_diag by done. }
  assert ((if bool_decide (p_kind P = KindLeaf)
           then let? _ := page_value {| pr_data := d; pr_header := header_of P upper ho |} (Z.of_nat (length l1)) in Ok tt
           else let? _ := page_child {| pr_data := d; pr_header := header_of P upper ho |} (Z.of_nat (length l1)) in Ok tt)
          = Ok (E:=PageError) tt) as ->.
  { destruct (p_kind P) eqn:Ek, pl as [v|c]; cbn in Hp; try done.
    - by rewrite (page_child_at _ _ _ _ Hat _ _ _ He).
    - by rewrite (page_value_at _ _ _ _ Hat _ _ _ He). }
  specialize (IH (l1 ++ [(k, pl)]) (spans ++ [(offset_of top (p_entries P) (length l1),
    offset_of top (p_entries P) (length l1) + len (entry_bytes k pl))])).
  rewrite last_snoc, len_app, heap_entries_app in IH. cbn [fmap option_fmap option_map fst snd heap_entries] in IH.
  rewrite len_cons, len_nil in IH. change (1 + 0) with 1 in IH. unfold len in IH at 1. rewrite IH by (by rewrite <-app_assoc).
  rewrite <-app_assoc. cbn [app heap_spans fst snd]. rewrite Ho. do 3 f_equal; [f_equal; lia|].
  f_equal. lia.
Qed.

Definition page_wf (P : Page) : Prop :=
  links_ok P ∧ Forall (λ e, len e.1 ≤ U16_MAX ∧ payload_ok (p_kind P) e.2) (p_entries P) ∧
  keys_sorted (p_entries P).

Definition page_fits (size : Z) (P : Page) : Prop :=
  HEADER_SIZE + SLOT_SIZE ≤ size ≤ U32_MAX ∧ lower_of P + heap_size P ≤ size.
#[global] Instance page_fits_dec size P : Decision (page_fits size P).
Proof. unfold page_fits. apply _. Defined.

Definition fence_offset (size : Z) (P : Page) : Z :=
  match p_high P with Some hi => size - len hi | None => 0 end.

(** The page the fence is laid out in. *)
Definition fenced (size : Z) (P : Page) : bytes :=
  let d := replicate (Z.to_nat size) (u8 0) in
  match p_high P with Some hi => put d (size - len hi) hi | None => d end.

Lemma fenced_at size P :
  0 ≤ size → high_len P ≤ size →
  len (fenced size P) = size ∧
  match p_high P with
  | Some hi => holds (fenced size P) (fence_offset size P) hi
  | None => fence_offset size P = 0
  end.
Proof.
  intros Hs Hh. unfold fenced, fence_offset, high_len in *.
  assert (len (replicate (Z.to_nat size) (u8 0)) = size) as Hl by (unfold len; rewrite length_replicate; lia).
  destruct (p_high P) as [hi|]; [|done]. split; [rewrite len_put; lia|]. apply holds_put_same; lia.
Qed.

(** The header over a laid out heap makes a page. *)
Lemma built_page_at size P d :
  page_wf P → page_fits size P → len d = size →
  (∀ j key pl, p_entries P !! j = Some (key, pl) →
     holds d (slot_at (Z.of_nat j)) (slot_bytes (offset_of (size - high_len P) (p_entries P) j) key pl) ∧
     holds d (offset_of (size - high_len P) (p_entries P) j) (entry_bytes key pl)) →
  match p_high P with Some hi => holds d (fence_offset size P) hi | None => fence_offset size P = 0 end →
  let upper := size - heap_size P in
  let d' := puts d (header_fields P upper (fence_offset size P)) in
  page_at d' P upper (fence_offset size P) ∧ len d' = size ∧
  validate_full {| pr_data := d'; pr_header := header_of P upper (fence_offset size P) |} = Ok tt.
Proof.
  intros (Hlk & Hp & Hsort) [Hsz Hfit] Hl He Hf upper d'.
  destruct (puts_at d 0 HEADER_SIZE (header_fields P upper (fence_offset size P))) as (Hl' & Hk & Ha);
    [apply header_fields_in|lia|unfold HEADER_SIZE, SLOT_SIZE in *; lia|]. fold d' in Hl', Hk, Ha.
  pose proof (heap_entries_nonneg (p_entries P)) as Hnn. pose proof (lower_of_ge P) as H64.
  assert (∀ j key pl, p_entries P !! j = Some (key, pl) →
    holds d' (slot_at (Z.of_nat j)) (slot_bytes (offset_of (size - high_len P) (p_entries P) j) key pl) ∧
    holds d' (offset_of (size - high_len P) (p_entries P) j) (entry_bytes key pl) ∧
    upper ≤ offset_of (size - high_len P) (p_entries P) j) as He'.
  { intros j key pl Hj. destruct (He j key pl Hj) as [H1 H2].
    assert (upper ≤ offset_of (size - high_len P) (p_entries P) j) as Hup.
    { unfold offset_of, upper, heap_size. rewrite <-(take_drop (S j) (p_entries P)) at 1.
      rewrite heap_entries_app. pose proof (heap_entries_nonneg (drop (S j) (p_entries P))). lia. }
    split_and!; [apply Hk; [|done]..|done]; right.
    - unfold slot_at, HEADER_SIZE, SLOT_SIZE in *. lia.
    - unfold HEADER_SIZE. subst upper. lia. }
  assert (page_at d' P upper (fence_offset size P)) as Hat.
  { split; try done.
    - lia.
    - subst upper. unfold heap_size in *. unfold high_len in *. pose proof (len_nonneg (default [] (p_high P))).
      destruct (p_high P); cbn in *; lia.
    - unfold heap_size, high_len, fence_offset in *. destruct (p_high P) as [hi|]; [|done].
      split; [subst upper; lia|]. apply Hk; [|done]. unfold HEADER_SIZE. lia.
    - intros i key pl Hi. destruct (He' i key pl Hi) as (H1 & H2 & H3). by eexists.
    - subst upper. lia. }
  split; [done|]. split; [lia|]. unfold validate_full. cbn [pr_header header_of h_count h_prefix_len h_flags].
  pose proof (validate_loop_at _ _ _ _ (size - high_len P) Hat Hsort He' [] (p_entries P) [] eq_refl) as Hv.
  unfold len at 1. rewrite Nat2Z.id. cbn [app last fmap option_fmap option_map heap_entries] in Hv.
  rewrite Z.sub_0_r in Hv. rewrite len_nil in Hv. rewrite Hv. cbn [Z.eqb negb h_high_offset h_high_len].
  unfold flags_of, high_len, fence_offset. destruct (p_high P) as [hi|] eqn:Eh.
  - change (Z.land FLAG_HIGH_FENCE FLAG_HIGH_FENCE =? 0) with false. cbn [negb].
    rewrite heap_spans_disjoint; [done|]. split; [by repeat constructor|]. split; [done|]. cbn.
    unfold high_len. rewrite Eh. pose proof (len_nonneg hi). lia.
  - change (Z.land 0 FLAG_HIGH_FENCE =? 0) with true. cbn [negb].
    rewrite <-(app_nil_r (heap_spans _ _)), heap_spans_disjoint; [done|]. split; [constructor|done].
Qed.

Definition build (size : Z) (P : Page) : result bytes PageError :=
  build_page size (p_kind P) (p_leftmost P) (p_high P) (p_right P) (p_entries P).

(** What a page says that is too small. *)
Definition capacity_error (size : Z) (P : Page) (e : PageError) : Prop :=
  e = "slot array does not fit page" ∨ e = "entry heap does not fit page" ∨
  e = "page does not fit encoded entries" ∨ (e = "high fence does not fit page" ∧ size < high_len P).

(** Building succeeds exactly when the entries fit. *)
Lemma build_page_at size P :
  page_wf P →
  if decide (page_fits size P)
  then ∃ d, build size P = Ok d ∧ len d = size ∧
            page_at d P (size - heap_size P) (fence_offset size P)
  else ∃ e, build size P = Err e ∧ (HEADER_SIZE + SLOT_SIZE ≤ size ≤ U32_MAX → capacity_error size P e).
Proof.
  intros Hwf. pose proof Hwf as ([_ Hlk] & Hp & Hsort). unfold build, build_page.
  pose proof (heap_entries_nonneg (p_entries P)) as Hnn. pose proof (lower_of_ge P) as H64.
  destruct ((size <? HEADER_SIZE + SLOT_SIZE) || (U32_MAX <? size)) eqn:E1.
  { rewrite decide_False by (intros [? _]; apply orb_true_iff in E1; bool_to_prop; lia).
    eexists. split; [done|]. intros ?. apply orb_true_iff in E1. bool_to_prop. lia. }
  apply orb_false_iff in E1 as [E1a E1b]. bool_to_prop.
  assert (Bool.eqb (bool_decide (is_Some (p_high P))) (bool_decide (is_Some (p_right P))) = true) as ->.
  { by destruct (p_high P), (p_right P). }
  cbn [negb]. fold (lower_of P).
  assert (0 ≤ high_len P) as Hh0 by (unfold high_len; destruct (p_high P); [apply len_nonneg|done]).
  destruct (decide (high_len P ≤ size)) as [Hh|Hh]; cycle 1.
  { rewrite decide_False by (intros [_ ?]; unfold heap_size in *; lia).
    pose proof Hh as Hh'. unfold high_len in Hh'. destruct (p_high P) as [hi|]; [|unfold HEADER_SIZE, SLOT_SIZE in *; lia].
    rewrite (proj2 (Z.ltb_lt _ _)) by lia. eexists. split; [done|]. intros _. right. right. right.
    split; [done|lia]. }
  assert (match p_high P with
          | Some high => if size <? len high then Err "high fence does not fit page" else
              Ok (put (replicate (Z.to_nat size) (u8 0)) (size - len high) high, size - len high,
                  size - len high, len high, FLAG_HIGH_FENCE)
          | None => Ok (replicate (Z.to_nat size) (u8 0), size, 0, 0, 0)
          end = Ok (E:=PageError) (fenced size P, size - high_len P, fence_offset size P, high_len P, flags_of P)) as ->.
  { unfold fenced, high_len, fence_offset, flags_of in *. destruct (p_high P) as [hi|].
    - by rewrite (proj2 (Z.ltb_ge _ _)) by lia.
    - by rewrite Z.sub_0_r. }
  destruct (size - high_len P <? lower_of P) eqn:E2; bool_to_prop.
  { rewrite decide_False by (intros [_ ?]; unfold heap_size in *; lia). eexists. split; [done|]. by left. }
  destruct (fenced_at size P) as [Hfl Hfh]; [unfold HEADER_SIZE, SLOT_SIZE in *; lia|done|].
  pose proof (build_loop_at (p_kind P) (len (p_entries P)) (lower_of P) (p_entries P) 0 (fenced size P)
    (size - high_len P) ltac:(lia) Hp ltac:(lia) ltac:(lia) eq_refl ltac:(lia)) as Hb.
  destruct (decide (lower_of P + heap_entries (p_entries P) ≤ size - high_len P)) as [Hd|Hd].
  - destruct Hb as (d' & -> & Hl' & Hk' & He'). assert (page_fits size P) as Hfit by (split; unfold heap_size; lia).
    rewrite decide_True by done. rewrite Z.eqb_refl. cbn [negb].
    replace (size - high_len P - heap_entries (p_entries P)) with (size - heap_size P) by (unfold heap_size; lia).
    rewrite write_header_at by (unfold HEADER_SIZE, SLOT_SIZE in *; lia).
    destruct (built_page_at size P d') as (Hat & Hl & Hv); [done|done|lia|done| |].
    { unfold fence_offset, high_len in *. destruct (p_high P); [|done]. apply Hk'; [lia|done]. }
    rewrite (page_parse_at _ _ _ _ Hat), Hv. by eexists.
  - destruct Hb as (e & -> & He). rewrite decide_False by (intros [_ ?]; unfold heap_size in *; lia).
    exists e. split; [done|]. unfold capacity_error. tauto.
Qed.

(** ** Changes in place *)
Definition with_entries (P : Page) (es : list (bytes * EncodedPayload)) : Page :=
  {| p_kind := p_kind P; p_leftmost := p_leftmost P; p_high := p_high P; p_right := p_right P;
     p_entries := es |}.

(** A write beside [b] leaves [b]; the new bytes are where they were written. *)
Ltac keep_bytes := apply holds_put_other; [autorewrite with seer; lia..|].
Ltac new_bytes := apply holds_put_same; autorewrite with seer; lia.

Lemma count_update d P es upper ho :
  HEADER_SIZE ≤ len d → Forall (λ f, holds d f.1 f.2) (header_fields P upper ho) →
  Forall (λ f, holds (put (put d 8 (u32_le (len es))) 12 (u32_le (HEADER_SIZE + len es * SLOT_SIZE))) f.1 f.2)
    (header_fields (with_entries P es) upper ho).
Proof.
  unfold HEADER_SIZE. intros Hd Hf. unfold header_fields in *. rewrite !Forall_cons in *. cbn [fst snd] in *.
  destruct Hf as (F0 & F4 & F6 & F7 & F8 & F12 & F16 & F20 & F24 & F28 & F32 & F36 & F44 & _).
  assert (len (put d 8 (u32_le (len es))) = len d) as Hl by (apply len_put; autorewrite with seer; lia).
  split_and!; try (by repeat keep_bytes); [|new_bytes]. keep_bytes. new_bytes.
Qed.

Lemma upper_update d P upper upper' ho :
  HEADER_SIZE ≤ len d → Forall (λ f, holds d f.1 f.2) (header_fields P upper ho) →
  Forall (λ f, holds (put d 16 (u32_le upper')) f.1 f.2) (header_fields P upper' ho).
Proof.
  unfold HEADER_SIZE. intros Hd Hf. unfold header_fields in *. rewrite !Forall_cons in *. cbn [fst snd] in *.
  destruct Hf as (F0 & F4 & F6 & F7 & F8 & F12 & F16 & F20 & F24 & F28 & F32 & F36 & F44 & _).
  split_and!; try (by repeat keep_bytes). new_bytes.
Qed.

Lemma len_copy_within d from to dest :
  0 ≤ from ≤ to → to ≤ len d → 0 ≤ dest → dest + (to - from) ≤ len d →
  len (take (Z.to_nat (to - from)) (drop (Z.to_nat from) d)) = to - from ∧
  len (copy_within d from to dest) = len d.
Proof.
  intros Hf Ht Hd Hl.
  assert (len (take (Z.to_nat (to - from)) (drop (Z.to_nat from) d)) = to - from) as Hb.
  { unfold len in *. rewrite length_take, length_drop. lia. }
  split; [done|]. apply len_put; [done|]. by rewrite Hb.
Qed.

Lemma copy_within_other d from to dest o b :
  0 ≤ from ≤ to → to ≤ len d → 0 ≤ dest → dest + (to - from) ≤ len d →
  o + len b ≤ dest ∨ dest + (to - from) ≤ o → holds d o b → holds (copy_within d from to dest) o b.
Proof.
  intros Hf Ht Hd Hl Ho Hh. destruct (len_copy_within d from to dest) as [Hb _]; [done..|].
  apply holds_put_other; rewrite ?Hb; done.
Qed.

Lemma copy_within_same d from to dest o b :
  0 ≤ from ≤ to → to ≤ len d → 0 ≤ dest → dest + (to - from) ≤ len d →
  from ≤ o → o + len b ≤ to → holds d o b → holds (copy_within d from to dest) (o - from + dest) b.
Proof.
  intros Hf Ht Hd Hl Ho1 Ho2 Hh. destruct (len_copy_within d from to dest) as [Hb _]; [done..|].
  apply holds_spec in Hh as (_ & l & r & -> & Hlen).
  assert (holds (copy_within (l ++ b ++ r) from to dest) dest
            (take (Z.to_nat (to - from)) (drop (Z.to_nat from) (l ++ b ++ r)))) as Hs.
  { apply holds_put_same; rewrite ?Hb; lia. }
  assert (take (Z.to_nat (to - from)) (drop (Z.to_nat from) (l ++ b ++ r)) =
          drop (Z.to_nat from) l ++ b ++ take (Z.to_nat (to - o - len b)) r) as E.
  { unfold len in *. rewrite drop_app_le by lia. rewrite take_app_ge by (rewrite length_drop; lia).
    rewrite length_drop, take_app_ge by lia. do 3 f_equal. lia. }
  rewrite E, holds_app, holds_app in Hs. destruct Hs as (_ & Hs & _).
  replace (o - from + dest) with (dest + len (drop (Z.to_nat from) l)); [done|].
  unfold len in *. rewrite length_drop. lia.
Qed.

Definition insert_at {A} (n : nat) (x : A) (l : list A) : list A := take n l ++ x :: drop n l.

Lemma insert_at_lookup {A} (n : nat) (x : A) l i y :
  (n ≤ length l)%nat → insert_at n x l !! i = Some y →
  (i < n)%nat ∧ l !! i = Some y ∨ i = n ∧ y = x ∨ (n < i)%nat ∧ l !! (i - 1)%nat = Some y.
Proof.
  intros Hn. unfold insert_at. destruct (decide (i < n)%nat) as [Hi|Hi].
  - rewrite lookup_app_l by (rewrite length_take; lia). rewrite lookup_take_lt by done. naive_solver.
  - rewrite lookup_app_r by (rewrite length_take; lia). rewrite length_take, Nat.min_l by done.
    destruct (decide (i = n)) as [->|Hne].
    + rewrite Nat.sub_diag. cbn. naive_solver.
    + replace (i - n)%nat with (S (i - n - 1)) by lia.
      change ((x :: drop n l) !! S (i - n - 1)) with (drop n l !! (i - n - 1)%nat). rewrite lookup_drop.
      replace (n + (i - n - 1))%nat with (i - 1)%nat by lia. intros ?. right. right. split; [lia|done].
Qed.

Lemma len_insert_at {A} (n : nat) (x : A) l : len (insert_at n x l) = len l + 1.
Proof.
  unfold insert_at. rewrite len_app, len_cons. rewrite <-(take_drop n l) at 3. rewrite len_app. lia.
Qed.

Lemma heap_insert_at n e es :
  heap_entries (insert_at n e es) = heap_entries es + len (entry_bytes e.1 e.2).
Proof.
  unfold insert_at. rewrite heap_entries_app. cbn [heap_entries].
  rewrite <-(take_drop n es) at 3. rewrite heap_entries_app. lia.
Qed.

Lemma Forall_insert_at {A} (R : A → Prop) n x l : Forall R l → R x → Forall R (insert_at n x l).
Proof. intros Hl Hx. apply Forall_app_2; [by apply Forall_take|]. constructor; [done|by apply Forall_drop]. Qed.

(** The bytes an insertion keeps: the heap, and every slot, moved up from [n] on. *)
Definition slot_moved (n : Z) (i : Z) : Z := if i <? n then slot_at i else slot_at (i + 1).

Definition shifted (d : bytes) (n lower : Z) : bytes :=
  if slot_at n <? lower then copy_within d (slot_at n) lower (slot_at n + SLOT_SIZE) else d.

Lemma shifted_at d n count lower :
  0 ≤ n ≤ count → lower = slot_at count → lower + SLOT_SIZE ≤ len d →
  len (shifted d n lower) = len d ∧
  (∀ o b, o + len b ≤ slot_at n ∨ lower + SLOT_SIZE ≤ o → holds d o b → holds (shifted d n lower) o b) ∧
  (∀ i b, 0 ≤ i < count → len b = SLOT_SIZE → holds d (slot_at i) b →
          holds (shifted d n lower) (slot_moved n i) b).
Proof.
  intros Hn -> Hl. unfold shifted.
  assert (0 ≤ slot_at n ≤ slot_at count) as Hs by (unfold slot_at, HEADER_SIZE, SLOT_SIZE; lia).
  unfold SLOT_SIZE in *. destruct (slot_at n <? slot_at count) eqn:E; bool_to_prop.
  - split; [apply len_copy_within; lia|]. split.
    + intros o b Ho Hh. apply copy_within_other; lia || done.
    + intros i b Hi Hb Hh. unfold slot_moved. destruct (i <? n) eqn:Ei; bool_to_prop.
      * apply copy_within_other; try lia; [|done]. left. unfold slot_at, SLOT_SIZE in *. lia.
      * replace (slot_at (i + 1)) with (slot_at i - slot_at n + (slot_at n + 12))
          by (unfold slot_at, SLOT_SIZE; lia).
        apply copy_within_same; try done; unfold slot_at, SLOT_SIZE in *; lia.
  - split; [done|]. split; [done|]. intros i b Hi Hb Hh. unfold slot_moved.
    rewrite (proj2 (Z.ltb_lt i n)); [done|]. unfold slot_at, SLOT_SIZE in *. lia.
Qed.

Lemma counts_written d P es upper ho :
  HEADER_SIZE ≤ len d → Forall (λ f, holds d f.1 f.2) (header_fields P upper ho) →
  ∃ d1 d', write_u32 d 8 (len es) = (d1, Ok tt) ∧
        write_u32 d1 12 (HEADER_SIZE + len es * SLOT_SIZE) = (d', Ok tt) ∧ len d' = len d ∧ Forall (λ f, holds d' f.1 f.2) (header_fields (with_entries P es) upper ho) ∧
        ∀ o b, HEADER_SIZE ≤ o → holds d o b → holds d' o b.
Proof.
  intros Hd Hf. unfold write_u32. pose proof Hd as Hd'. unfold HEADER_SIZE in Hd'.
  rewrite (page_write_at _ d) by (rewrite len_u32_le; lia).
  assert (len (put d 8 (u32_le (len es))) = len d) as Hl by (rewrite len_put; autorewrite with seer; lia).
  eexists _, _. split; [done|]. rewrite page_write_at by (rewrite Hl, len_u32_le; lia). split; [done|].
  split; [rewrite len_put; rewrite ?Hl; autorewrite with seer; lia|]. split; [by apply count_update|].
  unfold HEADER_SIZE. intros o b Ho Hh.
  apply holds_put_other; [lia|rewrite Hl, len_u32_le; lia|rewrite len_u32_le; lia|]. by keep_bytes.
Qed.

Lemma upper_written d P upper upper' ho :
  HEADER_SIZE ≤ len d → Forall (λ f, holds d f.1 f.2) (header_fields P upper ho) →
  ∃ d', write_u32 d 16 upper' = (d', Ok tt) ∧
        len d' = len d ∧ Forall (λ f, holds d' f.1 f.2) (header_fields P upper' ho) ∧
        ∀ o b, HEADER_SIZE ≤ o → holds d o b → holds d' o b.
Proof.
  intros Hd Hf. unfold write_u32. pose proof Hd as Hd'. unfold HEADER_SIZE in Hd'.
  rewrite (page_write_at _ d) by (rewrite len_u32_le; lia). eexists. split; [done|].
  split; [rewrite len_put; autorewrite with seer; lia|]. split; [by eapply upper_update|].
  unfold HEADER_SIZE. intros o b Ho Hh. by keep_bytes.
Qed.

(** The page image before the header is updated: the entry is in the heap and in slot [n]. *)
Definition placed (d : bytes) (n lower upper : Z) (key : bytes) (pl : EncodedPayload) : bytes :=
  let off := upper - len (entry_bytes key pl) in
  put (put (shifted d n lower) off (entry_bytes key pl)) (slot_at n) (slot_bytes off key pl).

Lemma placed_at d n count lower upper key pl :
  0 ≤ n ≤ count → lower = slot_at count → upper ≤ len d →
  lower + SLOT_SIZE ≤ upper - len (entry_bytes key pl) →
  let d' := placed d n lower upper key pl in
  let off := upper - len (entry_bytes key pl) in
  len d' = len d ∧ holds d' off (entry_bytes key pl) ∧ holds d' (slot_at n) (slot_bytes off key pl) ∧
  (∀ o b, o + len b ≤ HEADER_SIZE ∨ upper ≤ o → holds d o b → holds d' o b) ∧
  (∀ i b, 0 ≤ i < count → len b = SLOT_SIZE → holds d (slot_at i) b → holds d' (slot_moved n i) b).
Proof.
  intros Hn Hlow Hup Hfit d' off. pose proof (len_nonneg (entry_bytes key pl)) as Heb.
  destruct (shifted_at d n count lower) as (Hl1 & Hk1 & Hs1); [done|done|unfold SLOT_SIZE in *; lia|].
  unfold SLOT_SIZE in *. subst d'. unfold placed. fold off. set (d1 := shifted d n lower) in *.
  assert (HEADER_SIZE ≤ slot_at n ∧ slot_at n + 12 ≤ lower + 12 ∧ 0 ≤ slot_at n) as (Hs0 & Hs2 & Hs3).
  { subst lower. unfold slot_at, HEADER_SIZE, SLOT_SIZE. lia. }
  pose proof (len_slot_bytes off key pl) as Lsb. set (sb := slot_bytes off key pl) in *.
  set (eb := entry_bytes key pl) in *.
  assert (len (put d1 off eb) = len d) as Hl2 by (rewrite len_put; lia).
  split; [rewrite len_put; lia|]. split; [|split; [apply holds_put_same; lia|split]].
  - apply holds_put_other; try lia. apply holds_put_same; lia.
  - intros o b Ho Hh. apply holds_put_other; try lia. apply holds_put_other; try lia. apply Hk1; [lia|done].
  - intros i b Hi Hb Hh. assert (slot_moved n i + 12 ≤ slot_at n ∨ slot_at n + 12 ≤ slot_moved n i) as Hm.
    { unfold slot_moved. destruct (i <? n) eqn:E; bool_to_prop; unfold slot_at, SLOT_SIZE; lia. }
    assert (slot_moved n i + 12 ≤ lower + 12) as Hm2.
    { subst lower. unfold slot_moved. destruct (i <? n); unfold slot_at, SLOT_SIZE; lia. }
    apply holds_put_other; try lia. apply holds_put_other; try lia. by apply Hs1.
Qed.

Lemma insert_entries_at d upper n key pl es :
  (n ≤ length es)%nat → entry_at d upper (Z.of_nat n) key pl →
  (∀ j key' pl', es !! j = Some (key', pl') →
     ∃ off, upper ≤ off ∧ holds d (slot_moved (Z.of_nat n) (Z.of_nat j)) (slot_bytes off key' pl') ∧
            holds d off (entry_bytes key' pl')) →
  ∀ i key' pl', insert_at n (key, pl) es !! i = Some (key', pl') → entry_at d upper (Z.of_nat i) key' pl'.
Proof.
  intros Hn Hnew Hold i key' pl' Hi.
  apply insert_at_lookup in Hi as [[Hi Hlk]|[[-> [= -> ->]]|[Hi Hlk]]]; [..|done].
  - destruct (Hold i key' pl' Hlk) as (off & Ho & Hs & Hb). exists off. split_and!; [done| |done].
    unfold slot_moved in Hs. by rewrite (proj2 (Z.ltb_lt _ _)) in Hs by lia.
  - done.
  - destruct (Hold _ key' pl' Hlk) as (off & Ho & Hs & Hb). exists off. split_and!; [done| |done].
    unfold slot_moved in Hs. rewrite (proj2 (Z.ltb_ge _ _)) in Hs by lia.
    by replace (Z.of_nat (i - 1) + 1) with (Z.of_nat i) in Hs by lia.
Qed.

Lemma insert_entry_at msg d P upper ho n key pl rest :
  page_at d P upper ho → (n ≤ length (p_entries P))%nat →
  len key ≤ U16_MAX → payload_ok (p_kind P) pl → key ++ rest = entry_bytes key pl →
  lower_of P + SLOT_SIZE ≤ upper - len (entry_bytes key pl) →
  ∃ d', insert_entry msg {| pr_data := d; pr_header := header_of P upper ho |} d (Z.of_nat n) key rest
          (len (payload_bytes pl)) = (d', Ok tt) ∧ len d' = len d ∧
        page_at d' (with_entries P (insert_at n (key, pl) (p_entries P)))
          (upper - len (entry_bytes key pl)) ho.
Proof.
  intros Hat Hn Hk Hp Hrest Hfit. pose proof Hat as [Hsz Hf [Hb1 Hb2] Hl Hps Hh He Hhp].
  pose proof (lower_of_ge P) as H64. pose proof (len_nonneg (entry_bytes key pl)) as Heb.
  destruct (placed_at d (Z.of_nat n) (len (p_entries P)) (lower_of P) upper key pl)
    as (Hl3 & Hent & Hslot & Hkeep & Hslots); [unfold len; lia|done|lia|done|].
  unfold insert_entry, page_count. cbn [pr_header header_of h_count h_lower h_upper].
  rewrite <-len_app, Hrest. set (eb := entry_bytes key pl) in *. unfold SLOT_SIZE in Hfit.
  rewrite (proj2 (Z.ltb_ge upper _)) by lia. fold (slot_at (Z.of_nat n)).
  fold (shifted d (Z.of_nat n) (lower_of P)).
  destruct (shifted_at d (Z.of_nat n) (len (p_entries P)) (lower_of P)) as (Hl1 & _ & _);
    [unfold len; lia|done|unfold SLOT_SIZE; lia|].
  rewrite write_slot_at; [|lia|rewrite len_put by lia; unfold lower_of, slot_at, SLOT_SIZE, len in *; lia
    |lia|done|by eapply payload_len_ok].
  change (put _ (slot_at (Z.of_nat n)) _) with (placed d (Z.of_nat n) (lower_of P) upper key pl).
  set (d3 := placed d (Z.of_nat n) (lower_of P) upper key pl) in *. set (es' := insert_at n (key, pl) (p_entries P)).
  assert (len (p_entries P) + 1 = len es') as -> by (subst es'; by rewrite len_insert_at).
  assert (lower_of P + SLOT_SIZE = HEADER_SIZE + len es' * SLOT_SIZE) as ->.
  { subst es'. rewrite len_insert_at. unfold lower_of. lia. }
  assert (Forall (λ f, holds d3 f.1 f.2) (header_fields P upper ho)) as Hf3.
  { pose proof (header_fields_in P upper ho) as Hin. apply Forall_forall. intros f Hfin.
    rewrite Forall_forall in Hf. apply Hkeep; [left|by apply Hf]. by apply (fields_in_elem _ _ _ _ Hin Hfin). }
  destruct (counts_written d3 P es' upper ho) as (d4 & d5 & -> & -> & Hl5 & Hf5 & Hk5); [unfold HEADER_SIZE; lia|done|].
  destruct (upper_written d5 _ upper (upper - len eb) ho ltac:(unfold HEADER_SIZE; lia) Hf5) as (d6 & -> & Hl6 & Hf6 & Hk6).
  exists d6. split; [done|]. split; [lia|].
  assert (∀ o b, HEADER_SIZE ≤ o → holds d3 o b → holds d6 o b) as Hk36 by auto.
  assert (HEADER_SIZE = 64) as H64' by done. subst es'. split; try done.
  - lia.
  - unfold lower_of, SLOT_SIZE in *. cbn [p_entries with_entries]. rewrite len_insert_at. lia.
  - by apply Forall_insert_at.
  - cbn [p_high with_entries]. destruct (p_high P); [|done]. destruct Hh as [Hh1 Hh2].
    split; [lia|]. apply Hk36; [lia|]. apply Hkeep; [lia|done].
  - cbn [p_entries with_entries]. apply insert_entries_at; [done|..].
    + by exists (upper - len eb); split_and!; [lia|apply Hk36; [unfold slot_at, SLOT_SIZE; lia|]|apply Hk36; [lia|]].
    + intros j key' pl' Hj. destruct (He j key' pl' Hj) as (off & Ho & Hs & Hb). apply lookup_lt_Some in Hj.
      exists off. split_and!; [lia| |apply Hk36; [lia|]; apply Hkeep; [lia|done]].
      apply Hk36; [unfold slot_moved; destruct (_ <? _); unfold slot_at, SLOT_SIZE; lia|].
      apply Hslots; [unfold len; lia|apply len_slot_bytes|done].
  - unfold heap_size in *. cbn [p_entries with_entries]. rewrite heap_insert_at. unfold high_len in *.
    cbn [p_high with_entries fst snd]. fold eb. lia.
Qed.

Lemma page_at_wf d P upper ho :
  page_at d P upper ho → keys_sorted (p_entries P) → page_wf P.
Proof. intros Hat Hs. split_and!; [apply Hat..|done]. Qed.

Lemma page_forms P :
  page_wf P → (∃ high right es, P = leaf_page high right es) ∨
              (∃ high right leftmost es, P = internal_page high right leftmost es).
Proof.
  intros ([Hl _] & Hp & _). destruct P as [kind leftmost high right entries]. cbn in *.
  destruct kind, leftmost as [c|]; try done.
  - right. assert (∃ es, entries = map (λ e, (e.1, EncodedChild e.2)) es) as [es ->]; [|by eexists _, _, _, _].
    induction Hp as [|[k [v|c']] entries [_ Hp] _ IH]; [by exists []|done|].
    destruct IH as [es ->]. by exists ((k, c') :: es).
  - left. assert (∃ es, entries = map (λ e, (e.1, EncodedLeaf e.2)) es) as [es ->]; [|by eexists _, _, _].
    induction Hp as [|[k [v|c']] entries [_ Hp] _ IH]; [by exists []| |done].
    destruct IH as [es ->]. by exists ((k, v) :: es).
Qed.

(** Compaction always succeeds: the heap only gets tighter. *)
Lemma page_compact_at d P upper ho :
  page_at d P upper ho → keys_sorted (p_entries P) →
  ∃ d', page_compact d = Ok d' ∧ len d' = len d ∧
        page_at d' P (len d - heap_size P) (fence_offset (len d) P).
Proof.
  intros Hat Hs. pose proof (page_at_wf _ _ _ _ Hat Hs) as Hwf.
  assert (page_fits (len d) P) as Hfit.
  { split; [apply Hat|]. pose proof (pa_bounds _ _ _ _ Hat). pose proof (pa_heap _ _ _ _ Hat). lia. }
  pose proof (build_page_at (len d) P Hwf) as Hb. rewrite decide_True in Hb by done.
  destruct Hb as (d' & Hb & Hl & Hat'). exists d'. split; [|done].
  unfold page_compact. rewrite (page_parse_at _ _ _ _ Hat), (high_fence_at _ _ _ _ Hat).
  destruct (page_forms P Hwf) as [(high & right & es & ->)|(high & right & c & es & ->)];
    unfold is_leaf, right_sibling, leftmost_child; cbn [pr_header header_of h_kind h_leftmost_child h_right_sibling].
  - rewrite bool_decide_true by done. rewrite (leaf_entries_at _ _ _ _ _ _ Hat). exact Hb.
  - rewrite bool_decide_false by done. cbn [p_leftmost internal_page ok_or].
    rewrite (internal_entries_at _ _ _ _ _ _ _ Hat). unfold build_internal.
    destruct Hwf as ([[_ Hc] _] & _). rewrite (proj2 (Z.eqb_neq c _)) by done. exact Hb.
Qed.

Lemma has_space_at d P upper ho n :
  page_at d P upper ho → 0 ≤ n →
  has_contiguous_space d n = Ok (bool_decide (lower_of P + SLOT_SIZE ≤ upper - n)).
Proof.
  intros Hat Hn. unfold has_contiguous_space. rewrite (page_parse_at _ _ _ _ Hat).
  cbn [pr_header header_of h_lower h_upper]. pose proof (lower_of_ge P). unfold SLOT_SIZE. f_equal.
  destruct (upper <? n) eqn:E; bool_to_prop.
  - symmetry. apply bool_decide_eq_false. lia.
  - destruct (_ <=? _) eqn:E2; bool_to_prop; symmetry; [apply bool_decide_eq_true|apply bool_decide_eq_false]; lia.
Qed.

(** [make_space] finds the room whenever the entries would fit a fresh page. *)
Lemma make_space_at d P upper ho n :
  page_at d P upper ho → keys_sorted (p_entries P) → 0 ≤ n →
  ∃ d' upper' ho', len d' = len d ∧ page_at d' P upper' ho' ∧
    if decide (lower_of P + SLOT_SIZE + heap_size P + n ≤ len d)
    then make_space d n = (d', Ok true) ∧ lower_of P + SLOT_SIZE ≤ upper' - n
    else make_space d n = (d', Ok false).
Proof.
  intros Hat Hs Hn. unfold make_space. rewrite (has_space_at _ _ _ _ n Hat Hn).
  pose proof (pa_heap _ _ _ _ Hat) as Hh.
  case_bool_decide as Hc.
  - exists d, upper, ho. split; [done|]. split; [done|]. rewrite decide_True by lia. done.
  - destruct (page_compact_at _ _ _ _ Hat Hs) as (d' & -> & Hl & Hat').
    rewrite (has_space_at _ _ _ _ n Hat' Hn). exists d', (len d - heap_size P), (fence_offset (len d) P).
    split; [done|]. split; [done|]. destruct (decide _) as [Hd|Hd].
    + rewrite bool_decide_true by lia. split; [done|lia].
    + by rewrite bool_decide_false by lia.
Qed.
