(* ===== verification/PageUpdate.v ===== *)
(** * Operations on B-tree pages

    The operations of [PageV4.v] as operations on sorted maps: looking up,
    inserting in place, removing, and choosing where to split, each with every
    outcome it can have. *)
From Stdlib Require Import String.
From S2P Require Import Prelude StdCollections Ids PageV4 PageSpec.

Local Open Scope string_scope.
Local Open Scope list_scope.
Local Open Scope Z_scope.
Local Open Scope seer_scope.

(** ** Positions and maps *)
Section positions.
Context {V : Type}.
Implicit Types es : list (bytes * V).

Lemma splits_at_map {W} (f : V → W) es k n :
  splits_at (map (λ e, (e.1, f e.2)) es) k n → splits_at es k n.
Proof.
  intros [Hn Hsp]. rewrite length_map in Hn. split; [done|]. intros m e Hm.
  apply (Hsp m (e.1, f e.2)). by rewrite list_lookup_fmap, Hm.
Qed.

Lemma get_lookup es n k v : keys_sorted es → es !! n = Some (k, v) → BTreeMap.get k es = Some v.
Proof. intros Hs Hn. apply BTreeMap.elem_get; [done|]. by eapply list_elem_of_lookup_2. Qed.

Lemma splits_at_get es k n : splits_at es k n → BTreeMap.get k es = None.
Proof.
  intros [_ Hsp]. destruct (BTreeMap.get k es) as [v|] eqn:E; [|done].
  apply BTreeMap.get_elem, list_elem_of_lookup_1 in E as [m Hm]. destruct (Hsp m _ Hm) as [H1 H2].
  cbn in *. destruct (decide (m < n)%nat) as [Hlt|Hge].
  - specialize (H1 Hlt). by apply BTreeMap.lt_ord_irrefl in H1.
  - specialize (H2 ltac:(lia)). by apply BTreeMap.lt_ord_irrefl in H2.
Qed.

Lemma splits_at_cons e es k n :
  splits_at (e :: es) k (S n) → lt_ord e.1 k ∧ splits_at es k n.
Proof.
  intros [Hn Hsp]. split; [apply (Hsp 0%nat e eq_refl); lia|]. split; [cbn in Hn; lia|].
  intros m e' Hm. destruct (Hsp (S m) e' Hm) as [H1 H2]. split; intros ?; [apply H1|apply H2]; lia.
Qed.

Lemma splits_at_insert es k v n :
  splits_at es k n → BTreeMap.insert k v es = insert_at n (k, v) es.
Proof.
  revert n. induction es as [|[k' v'] es IH]; intros n Hsp.
  { destruct Hsp as [Hn _]. cbn in Hn. by replace n with 0%nat by lia. }
  cbn [BTreeMap.insert]. destruct n as [|n].
  - destruct Hsp as [_ Hsp]. destruct (Hsp 0%nat _ eq_refl) as [_ H2]. cbn in H2.
    specialize (H2 ltac:(lia)). unfold lt_ord in H2. by rewrite H2.
  - destruct (splits_at_cons _ _ _ _ Hsp) as [Hlt Hsp']. cbn in Hlt. unfold lt_ord in Hlt.
    rewrite cmp_opp, Hlt. cbn. by rewrite (IH n Hsp').
Qed.

Lemma map_insert_at {W} (f : V → W) es n e :
  map (λ e, (e.1, f e.2)) (insert_at n e es) = insert_at n (e.1, f e.2) (map (λ e, (e.1, f e.2)) es).
Proof. unfold insert_at. rewrite map_app. cbn [map]. by rewrite <-firstn_map, <-skipn_map. Qed.
End positions.

(** ** Insertion *)
Lemma insert_missing_at d P upper ho n key pl rest msg insert :
  page_at d P upper ho → keys_sorted (p_entries P) → (n ≤ length (p_entries P))%nat →
  len key ≤ U16_MAX → payload_ok (p_kind P) pl → key ++ rest = entry_bytes key pl →
  (∀ d' upper' ho', page_at d' P upper' ho' →
     insert d' = insert_entry msg {| pr_data := d'; pr_header := header_of P upper' ho' |} d' (Z.of_nat n)
                   key rest (len (payload_bytes pl))) →
  let P' := with_entries P (insert_at n (key, pl) (p_entries P)) in
  ∃ d' upper' ho', len d' = len d ∧
    if decide (page_fits (len d) P')
    then insert_missing d (len (entry_bytes key pl)) insert = (d', Ok Inserted) ∧ page_at d' P' upper' ho'
    else insert_missing d (len (entry_bytes key pl)) insert = (d', Ok Full) ∧ page_at d' P upper' ho'.
Proof.
  intros Hat Hs Hn Hk Hp Hrest Hins P'. unfold insert_missing.
  destruct (make_space_at d P upper ho (len (entry_bytes key pl)) Hat Hs (len_nonneg _))
    as (d1 & upper1 & ho1 & Hl1 & Hat1 & Hm).
  assert (page_fits (len d) P' ↔ lower_of P + SLOT_SIZE + heap_size P + len (entry_bytes key pl) ≤ len d) as Hiff.
  { pose proof (pa_size _ _ _ _ Hat) as Hsz. subst P'. unfold page_fits, lower_of, heap_size, high_len.
    cbn [with_entries p_entries p_high]. rewrite len_insert_at, heap_insert_at. cbn [fst snd]. lia. }
  destruct (decide (lower_of P + _ + _ + _ ≤ len d)) as [Hd|Hd].
  - destruct Hm as [-> Hfit]. cbn [negb]. rewrite (Hins _ _ _ Hat1).
    destruct (insert_entry_at msg d1 P upper1 ho1 n key pl rest) as (d2 & -> & Hl2 & Hat2); [done..|].
    exists d2, (upper1 - len (entry_bytes key pl)), ho1. rewrite decide_True by tauto. split; [lia|]. done.
  - rewrite Hm. exists d1, upper1, ho1. rewrite decide_False by tauto. split; [lia|]. done.
Qed.

(** Every outcome of an in-place leaf insertion: the key belongs to the right
    sibling, it is there already, its record is too long for a slot, the page is
    full, or the page now holds the old map with the key inserted.  [Full] is only
    answered when the records would not fit a freshly built page either. *)
Theorem try_insert_inline_spec d high right es upper ho key value :
  page_at d (leaf_page high right es) upper ho → keys_sorted es →
  let P' := leaf_page high right (BTreeMap.insert key (LeafInline value) es) in
  match right_of (leaf_page high right es) key, BTreeMap.get key es with
  | Some page, _ => try_insert_inline d key value = (d, Ok (InsertFollowRight page))
  | None, Some _ => try_insert_inline d key value = (d, Ok Duplicate)
  | None, None =>
      if decide (len key ≤ U16_MAX ∧ len value ≤ U16_MAX)
      then ∃ d' upper' ho', len d' = len d ∧
             if decide (page_fits (len d) P')
             then try_insert_inline d key value = (d', Ok Inserted) ∧ page_at d' P' upper' ho'
             else try_insert_inline d key value = (d', Ok Full) ∧
                  page_at d' (leaf_page high right es) upper' ho'
      else ∃ e, try_insert_inline d key value = (d, Err e)
  end.
Proof.
  intros Hat Hs P'. set (P := leaf_page high right es) in *.
  assert (keys_sorted (p_entries P)) as HsP by (by apply map_sorted).
  unfold try_insert_inline. rewrite (page_parse_at _ _ _ _ Hat). unfold is_leaf. cbn [pr_header header_of h_kind].
  rewrite bool_decide_true by done. cbn [negb]. rewrite (follow_right_at _ _ _ _ Hat).
  destruct (right_of P key) as [page|]; [done|].
  destruct (search_at _ _ _ _ Hat HsP key) as ([i|i] & -> & Hr).
  { destruct Hr as (n & pl & -> & Hn). cbn in Hn. rewrite list_lookup_fmap in Hn.
    destruct (es !! n) as [[k v]|] eqn:En; [|done]. injection Hn as -> <-.
    by rewrite (get_lookup _ _ _ _ Hs En). }
  destruct Hr as (n & -> & Hsp). pose proof (splits_at_map EncodedLeaf es key n Hsp) as Hsp'.
  rewrite (splits_at_get _ _ _ Hsp'), (prefix_at _ _ _ _). cbn [starts_with negb length].
  assert (starts_with key [] = true) as -> by (by destruct key). cbn [negb]. rewrite len_nil, Z.sub_0_r, drop_0.
  destruct (U16_MAX <? len value) eqn:Ev; bool_to_prop.
  { rewrite decide_False by lia. eauto. }
  destruct (U16_MAX <? len key) eqn:Ek; bool_to_prop.
  { rewrite decide_False by lia. eauto. }
  rewrite decide_True by done.
  destruct (insert_missing_at d P upper ho n key (EncodedLeaf (LeafInline value)) (u8 TAG_INLINE :: value)
    "leaf entry offset underflow" (λ d, insert_slot_and_entry d (Z.of_nat n) key TAG_INLINE value))
    as (d' & upper' & ho' & Hl & Hres); [done..|apply Hsp|done|done|done| |].
  { intros d' upper' ho' Hat'. unfold insert_slot_and_entry. rewrite (page_parse_at _ _ _ _ Hat').
    unfold page_count. cbn [pr_header header_of h_count]. destruct Hsp as [Hn _].
    rewrite (proj2 (Z.ltb_ge (len (p_entries P)) _)), (proj2 (Z.ltb_ge U16_MAX (len key))),
      (proj2 (Z.ltb_ge U16_MAX (len value))) by (unfold len in *; lia). done. }
  assert (with_entries P (insert_at n (key, EncodedLeaf (LeafInline value)) (p_entries P)) = P') as HP'.
  { subst P'. rewrite (splits_at_insert _ _ _ _ Hsp'). unfold leaf_page, with_entries. by rewrite map_insert_at. }
  rewrite HP' in Hres. exists d', upper', ho'. split; [done|].
  replace (len key + 1 + len value) with (len (entry_bytes key (EncodedLeaf (LeafInline value)))); [done|].
  rewrite (entry_len_ok KindLeaf) by done. done.
Qed.

(** The same for a separator of an internal page. *)
Theorem try_insert_internal_spec d high right leftmost es upper ho key child :
  page_at d (internal_page high right leftmost es) upper ho → keys_sorted es → page_id_ok child →
  let P' := internal_page high right leftmost (BTreeMap.insert key child es) in
  match right_of (internal_page high right leftmost es) key, BTreeMap.get key es with
  | Some page, _ => try_insert_internal d key child = (d, Ok (InsertFollowRight page))
  | None, Some _ => try_insert_internal d key child = (d, Ok Duplicate)
  | None, None =>
      if decide (len key ≤ U16_MAX)
      then ∃ d' upper' ho', len d' = len d ∧
             if decide (page_fits (len d) P')
             then try_insert_internal d key child = (d', Ok Inserted) ∧ page_at d' P' upper' ho'
             else try_insert_internal d key child = (d', Ok Full) ∧
                  page_at d' (internal_page high right leftmost es) upper' ho'
      else ∃ e, try_insert_internal d key child = (d, Err e)
  end.
Proof.
  intros Hat Hs Hc P'. set (P := internal_page high right leftmost es) in *.
  assert (keys_sorted (p_entries P)) as HsP by (by apply map_sorted).
  unfold try_insert_internal. rewrite (proj2 (Z.eqb_neq child _)) by apply Hc.
  rewrite (page_parse_at _ _ _ _ Hat). unfold is_leaf. cbn [pr_header header_of h_kind].
  rewrite bool_decide_false by done. rewrite (follow_right_at _ _ _ _ Hat).
  destruct (right_of P key) as [page|]; [done|].
  destruct (search_at _ _ _ _ Hat HsP key) as ([i|i] & -> & Hr).
  { destruct Hr as (n & pl & -> & Hn). cbn in Hn. rewrite list_lookup_fmap in Hn.
    destruct (es !! n) as [[k v]|] eqn:En; [|done]. injection Hn as -> <-.
    by rewrite (get_lookup _ _ _ _ Hs En). }
  destruct Hr as (n & -> & Hsp). pose proof (splits_at_map EncodedChild es key n Hsp) as Hsp'.
  rewrite (splits_at_get _ _ _ Hsp'), (prefix_at _ _ _ _). cbn [starts_with negb length].
  assert (starts_with key [] = true) as -> by (by destruct key). cbn [negb]. rewrite len_nil, Z.sub_0_r, drop_0.
  destruct (U16_MAX <? len key) eqn:Ek; bool_to_prop.
  { rewrite decide_False by lia. eauto. }
  rewrite decide_True by done.
  assert (payload_bytes (EncodedChild child) = u64_le child ∧
          entry_bytes key (EncodedChild child) = key ++ u64_le child) as [Hpb Heb].
  { unfold payload_bytes, entry_bytes. cbn. by rewrite (proj2 (Z.eqb_neq child _)) by apply Hc. }
  destruct (insert_missing_at d P upper ho n key (EncodedChild child) (u64_le child)
    "internal entry offset underflow" (λ d, insert_internal_slot d (Z.of_nat n) key child))
    as (d' & upper' & ho' & Hl & Hres); [done..|apply Hsp|done|done|done| |].
  { intros d' upper' ho' Hat'. unfold insert_internal_slot. rewrite (page_parse_at _ _ _ _ Hat').
    unfold page_count. cbn [pr_header header_of h_count]. destruct Hsp as [Hn _].
    rewrite (proj2 (Z.ltb_ge (len (p_entries P)) _)), (proj2 (Z.ltb_ge U16_MAX (len key))) by (unfold len in *; lia).
    by rewrite Hpb, len_u64. }
  assert (with_entries P (insert_at n (key, EncodedChild child) (p_entries P)) = P') as HP'.
  { subst P'. rewrite (splits_at_insert _ _ _ _ Hsp'). unfold internal_page, with_entries. by rewrite map_insert_at. }
  rewrite HP' in Hres. exists d', upper', ho'. split; [done|].
  replace (len key + 8) with (len (entry_bytes key (EncodedChild child))); [done|].
  by rewrite Heb, len_app, len_u64.
Qed.

(** ** Removal *)
Lemma remove_delete {V} (es : list (bytes * V)) n k v :
  keys_sorted es → es !! n = Some (k, v) → BTreeMap.remove k es = delete n es.
Proof.
  intros Hs. revert n. induction Hs as [|[k' v'] es Hs IH Hx]; intros n Hn; [done|].
  cbn [BTreeMap.remove]. destruct n as [|n].
  - cbn in Hn. injection Hn as -> ->. by rewrite BTreeMap.cmp_refl.
  - change (es !! n = Some (k, v)) in Hn. rewrite Forall_lookup in Hx. specialize (Hx _ _ Hn). cbn in Hx.
    unfold lt_ord in Hx. rewrite cmp_opp, Hx. cbn. by rewrite (IH n Hn).
Qed.

Lemma heap_delete es n : heap_entries (delete n es) ≤ heap_entries es.
Proof.
  revert n. induction es as [|e es IH]; intros n; [done|].
  pose proof (len_nonneg (entry_bytes e.1 e.2)). destruct n as [|n]; cbn; [lia|]. specialize (IH n).
  cbn in IH. unfold delete in *. lia.
Qed.

Lemma len_delete {A} (l : list A) n x : l !! n = Some x → len (delete n l) = len l - 1.
Proof. intros Hn. pose proof (lookup_lt_Some _ _ _ Hn). unfold len. rewrite length_delete by eauto. lia. Qed.

(** The slots after the removed one move down, and the last is cleared. *)
Definition closed_up (d : bytes) (n count : Z) : bytes :=
  let d := if slot_at n + SLOT_SIZE <? slot_at count
           then copy_within d (slot_at n + SLOT_SIZE) (slot_at count) (slot_at n) else d in
  put d (slot_at count - SLOT_SIZE) (replicate 12 (u8 0)).

Lemma closed_up_at d n count :
  0 ≤ n < count → slot_at count ≤ len d →
  len (closed_up d n count) = len d ∧
  (∀ o b, o + len b ≤ slot_at n ∨ slot_at count ≤ o → holds d o b → holds (closed_up d n count) o b) ∧
  (∀ i b, n < i < count → len b = SLOT_SIZE → holds d (slot_at i) b →
          holds (closed_up d n count) (slot_at (i - 1)) b).
Proof.
  intros Hn Hl. unfold closed_up.
  assert (len (replicate 12 (u8 0)) = 12) as Lz by done. set (z := replicate 12 (u8 0)) in *.
  assert (0 ≤ slot_at n ∧ slot_at n + 12 ≤ slot_at count) as [Hs0 Hs] by (unfold slot_at, HEADER_SIZE, SLOT_SIZE; lia).
  unfold SLOT_SIZE in *. destruct (slot_at n + 12 <? slot_at count) eqn:E; bool_to_prop.
  - destruct (len_copy_within d (slot_at n + 12) (slot_at count) (slot_at n)) as [_ Hl1]; [lia..|].
    split; [rewrite len_put; lia|]. split.
    + intros o b Ho Hh. apply holds_put_other; try lia. apply copy_within_other; lia || done.
    + intros i b Hi Hb Hh. apply holds_put_other; try lia.
      { left. unfold slot_at, SLOT_SIZE in *. lia. }
      replace (slot_at (i - 1)) with (slot_at i - (slot_at n + 12) + slot_at n) by (unfold slot_at, SLOT_SIZE; lia).
      apply copy_within_same; try done; unfold slot_at, SLOT_SIZE in *; lia.
  - split; [rewrite len_put; lia|]. split.
    + intros o b Ho Hh. apply holds_put_other; lia || done.
    + intros i b Hi. unfold slot_at, SLOT_SIZE in *. lia.
Qed.

Lemma remove_slot_at d P upper ho n key pl :
  page_at d P upper ho → p_entries P !! n = Some (key, pl) →
  ∃ d', remove_slot d (Z.of_nat n) (len (p_entries P)) = (d', Ok Removed) ∧ len d' = len d ∧
        page_at d' (with_entries P (delete n (p_entries P))) upper ho.
Proof.
  intros Hat Hn. pose proof Hat as [Hsz Hf [Hb1 Hb2] Hl Hps Hh He Hhp].
  pose proof (lookup_lt_Some _ _ _ Hn) as Hlt. pose proof (lower_of_ge P) as H64.
  assert (HEADER_SIZE = 64) as H64' by done. assert (lower_of P = slot_at (len (p_entries P))) as Hlow by done.
  destruct (closed_up_at d (Z.of_nat n) (len (p_entries P))) as (Hl1 & Hk1 & Hs1); [unfold len; lia|lia|].
  unfold remove_slot. fold (slot_at (Z.of_nat n)) (slot_at (len (p_entries P))).
  change (put _ (slot_at (len (p_entries P)) - SLOT_SIZE) _) with (closed_up d (Z.of_nat n) (len (p_entries P))).
  set (d1 := closed_up d (Z.of_nat n) (len (p_entries P))) in *.
  rewrite <-(len_delete _ _ _ Hn). set (es' := delete n (p_entries P)).
  assert (HEADER_SIZE ≤ slot_at (Z.of_nat n)) as Hsn by (unfold slot_at, SLOT_SIZE; lia).
  assert (Forall (λ f, holds d1 f.1 f.2) (header_fields P upper ho)) as Hf1.
  { apply Forall_forall. intros f Hin. rewrite Forall_forall in Hf. apply Hk1; [left|by apply Hf].
    pose proof (fields_in_elem _ _ _ _ (header_fields_in P upper ho) Hin). lia. }
  destruct (counts_written d1 P es' upper ho) as (d2 & d3 & -> & -> & Hl3 & Hf3 & Hk3); [lia|done|].
  exists d3. split; [done|]. split; [lia|].
  assert (len es' = len (p_entries P) - 1) as Hle by (by apply (len_delete _ _ (key, pl))).
  split; try done.
  - lia.
  - unfold lower_of, SLOT_SIZE in *. cbn [p_entries with_entries]. lia.
  - by apply Forall_delete.
  - cbn [p_high with_entries]. destruct (p_high P); [|done]. destruct Hh as [Hh1 Hh2].
    split; [done|]. apply Hk3; [lia|]. apply Hk1; [lia|done].
  - cbn [p_entries with_entries]. intros i key' pl' Hi. subst es'. destruct (decide (i < n)%nat) as [Hin|Hin].
    + rewrite list_lookup_delete_lt in Hi by done. destruct (He i key' pl' Hi) as (off & Ho & Hs & Hb).
      exists off. split_and!; [done|apply Hk3, Hk1|apply Hk3, Hk1]; try done; try lia;
        rewrite ?len_slot_bytes; unfold slot_at, SLOT_SIZE; lia.
    + rewrite list_lookup_delete_ge in Hi by lia. destruct (He _ key' pl' Hi) as (off & Ho & Hs & Hb).
      apply lookup_lt_Some in Hi. exists off. split_and!; [done|apply Hk3|apply Hk3, Hk1]; try done; try lia.
      { unfold slot_at, SLOT_SIZE. lia. }
      replace (Z.of_nat i) with (Z.of_nat (S i) - 1) by lia.
      apply Hs1; [unfold len; lia|apply len_slot_bytes|done].
  - unfold heap_size, high_len in *. cbn [p_entries with_entries p_high]. pose proof (heap_delete (p_entries P) n).
    subst es'. lia.
Qed.

(** Every outcome of a leaf removal. *)
Theorem remove_leaf_spec d high right es upper ho key :
  page_at d (leaf_page high right es) upper ho → keys_sorted es →
  match right_of (leaf_page high right es) key, BTreeMap.get key es with
  | Some page, _ => remove_leaf d key = (d, Ok (RemoveFollowRight page))
  | None, None => remove_leaf d key = (d, Ok Missing)
  | None, Some _ =>
      ∃ d', remove_leaf d key = (d', Ok Removed) ∧ len d' = len d ∧
            page_at d' (leaf_page high right (BTreeMap.remove key es)) upper ho
  end.
Proof.
  intros Hat Hs. set (P := leaf_page high right es) in *.
  assert (keys_sorted (p_entries P)) as HsP by (by apply map_sorted).
  unfold remove_leaf. rewrite (page_parse_at _ _ _ _ Hat). unfold is_leaf. cbn [pr_header header_of h_kind].
  rewrite bool_decide_true by done. cbn [negb]. rewrite (follow_right_at _ _ _ _ Hat).
  destruct (right_of P key) as [page|]; [done|].
  destruct (search_at _ _ _ _ Hat HsP key) as ([i|i] & -> & Hr).
  - destruct Hr as (n & pl & -> & Hn). destruct (remove_slot_at _ _ _ _ _ _ _ Hat Hn) as (d' & Hd' & Hl & Hat').
    cbn in Hn. rewrite list_lookup_fmap in Hn. destruct (es !! n) as [[k v]|] eqn:En; [|done].
    injection Hn as -> <-. rewrite (get_lookup _ _ _ _ Hs En). exists d'. split; [exact Hd'|]. split; [done|].
    rewrite (remove_delete _ _ _ _ Hs En). unfold leaf_page in *. unfold with_entries in Hat'.
    cbn [p_kind p_leftmost p_high p_right p_entries P] in Hat'. by rewrite <-list_fmap_delete in Hat'.
  - destruct Hr as (n & -> & Hsp). pose proof (splits_at_map EncodedLeaf es key n Hsp) as Hsp'.
    by rewrite (splits_at_get _ _ _ Hsp').
Qed.

(** ** The split choice *)
Fixpoint sum_costs (costs : list Z) : Z :=
  match costs with [] => 0 | c :: costs => c + sum_costs costs end.

(** How uneven the halves before and from [at] are. *)
Definition imbalance (costs : list Z) (at' : nat) : Z :=
  Z.abs (sum_costs (take at' costs) - sum_costs (drop at' costs)).

Lemma sum_costs_app l1 l2 : sum_costs (l1 ++ l2) = sum_costs l1 + sum_costs l2.
Proof. induction l1 as [|c l1 IH]; cbn; lia. Qed.

Lemma sum_costs_nonneg costs : Forall (λ c, 0 ≤ c) costs → 0 ≤ sum_costs costs.
Proof. induction 1; cbn; lia. Qed.

Lemma split_total_ok costs sum :
  Forall (λ c, 0 ≤ c) costs →
  split_total costs sum =
    if decide (sum + sum_costs costs ≤ U64_MAX) then Ok (sum + sum_costs costs)
    else match costs with [] => Ok sum | _ => Err "split cost overflow" end.
Proof.
  intros Hc. revert sum. induction Hc as [|c costs Hc Hcs IH]; intros sum; cbn [split_total sum_costs].
  { by destruct (decide _); rewrite ?Z.add_0_r. }
  pose proof (sum_costs_nonneg _ Hcs). unfold checked_add. destruct (_ <=? _) eqn:E; bool_to_prop; cbn [ok_or].
  - rewrite IH. destruct costs as [|c' costs]; cbn [sum_costs] in *.
    + rewrite !decide_True by lia. f_equal. lia.
    + destruct (decide (sum + c + _ ≤ _)); [rewrite decide_True by lia; f_equal; lia|by rewrite decide_False by lia].
  - by rewrite decide_False by lia.
Qed.

Lemma split_loop_ok costs : ∀ l2 l1 best bd,
  Forall (λ c, 0 ≤ c) costs → sum_costs costs ≤ U64_MAX → costs = l1 ++ l2 → l2 ≠ [] →
  (1 ≤ best < length costs)%nat → imbalance costs best ≤ bd →
  (∀ c, (1 ≤ c ≤ length l1)%nat → bd ≤ imbalance costs c) →
  ∃ s, split_loop l2 (len l1 + 1) (len costs) (sum_costs costs) (sum_costs l1) (Z.of_nat best) bd = Ok (Z.of_nat s) ∧
       (1 ≤ s < length costs)%nat ∧
       ∀ c, (1 ≤ c < length costs)%nat → imbalance costs s ≤ imbalance costs c.
Proof.
  induction l2 as [|x l2 IH]; intros l1 best bd Hnn Hmax Hc Hne Hb Hbd Hall; [done|].
  assert (costs = (l1 ++ [x]) ++ l2) as Hc' by (by rewrite <-app_assoc).
  assert (length costs = (length l1 + 1 + length l2)%nat) as Hlen by (rewrite Hc'; rewrite !length_app; cbn; lia).
  cbn [split_loop]. destruct (_ <? _) eqn:E; bool_to_prop; cycle 1.
  { exists best. split; [done|]. split; [done|]. intros c Hcc. etrans; [done|]. apply Hall.
    unfold len in E. lia. }
  assert (l2 ≠ []) as Hne2.
  { intros ->. unfold len in E. cbn in Hlen. lia. }
  assert (take (S (length l1)) costs = l1 ++ [x] ∧ drop (S (length l1)) costs = l2) as [Ht Hd].
  { rewrite Hc'. replace (S (length l1)) with (length (l1 ++ [x])) by (rewrite length_app; cbn; lia).
    by rewrite take_app_length, drop_app_length. }
  assert (sum_costs costs = sum_costs l1 + x + sum_costs l2 ∧ 0 ≤ sum_costs l2) as [Hsum Hs2].
  { rewrite Hc' in Hnn |- *. rewrite !sum_costs_app. cbn. apply Forall_app in Hnn as [_ Hnn].
    split; [lia|by apply sum_costs_nonneg]. }
  unfold checked_add. rewrite (proj2 (Z.leb_le _ _)) by lia. cbn [ok_or].
  assert (sum_costs (l1 ++ [x]) = sum_costs l1 + x) as Hs1 by (rewrite sum_costs_app; cbn; lia).
  assert (imbalance costs (S (length l1)) = Z.abs (sum_costs l1 + x - (sum_costs costs - (sum_costs l1 + x)))) as Hi.
  { unfold imbalance. rewrite Ht, Hd, Hs1. f_equal. lia. }
  rewrite <-Hi, <-Hs1. replace (len l1 + 1 + 1) with (len (l1 ++ [x]) + 1) by (rewrite len_app; done).
  assert (length (l1 ++ [x]) = S (length l1)) as Hl1 by (rewrite length_app; cbn; lia).
  destruct (_ <? bd) eqn:Ed; bool_to_prop.
  - replace (len l1 + 1) with (Z.of_nat (S (length l1))) by (unfold len; lia).
    apply IH; [done..|unfold len in E; lia|done|]. rewrite Hl1. intros c Hcc.
    destruct (decide (c = S (length l1))) as [->|]; [done|]. specialize (Hall c ltac:(lia)). lia.
  - apply IH; [done..|]. rewrite Hl1. intros c Hcc.
    destruct (decide (c = S (length l1))) as [->|]; [done|]. apply Hall. lia.
Qed.

(** [choose_split] answers for two or more entries whose total cost is
    representable; both halves are non-empty, and no other split is more even. *)
Theorem choose_split_balanced costs :
  Forall (λ c, 0 ≤ c) costs →
  if decide ((2 ≤ length costs)%nat ∧ sum_costs costs ≤ U64_MAX)
  then ∃ s, choose_split costs = Ok (Z.of_nat s) ∧ (1 ≤ s < length costs)%nat ∧
            ∀ c, (1 ≤ c < length costs)%nat → imbalance costs s ≤ imbalance costs c
  else ∃ e, choose_split costs = Err e.
Proof.
  intros Hnn. unfold choose_split. destruct (len costs <? 2) eqn:E; bool_to_prop.
  { rewrite decide_False by (unfold len in E; lia). eauto. }
  rewrite split_total_ok by done. rewrite Z.add_0_l.
  destruct (decide (sum_costs costs ≤ U64_MAX)) as [Hs|Hs].
  - rewrite decide_True by (unfold len in E; split; [lia|done]).
    apply (split_loop_ok costs costs [] 1); try done.
    + intros ->. done.
    + unfold len in E. lia.
    + assert (0 ≤ sum_costs (take 1 costs) ∧ 0 ≤ sum_costs (drop 1 costs)) as [H1 H2].
      { split; apply sum_costs_nonneg; [by apply Forall_take|by apply Forall_drop]. }
      pose proof (sum_costs_app (take 1 costs) (drop 1 costs)) as Ha. rewrite take_drop in Ha.
      unfold imbalance. lia.
    + cbn. lia.
  - rewrite decide_False by tauto. destruct costs; [done|]. eauto.
Qed.
