(* ===== verification/PageMap.v ===== *)
(** * Leaf pages as bounded maps: theorems

    The claims about [PageV4.v] on its own: reading back what was built, in-place
    changes against a sorted map with the capacity of the page, and split points. *)
From Stdlib Require Import String.
From S2P Require Import Prelude StdCollections Ids PageV4 PageSpec PageUpdate.

Local Open Scope string_scope.
Local Open Scope list_scope.
Local Open Scope Z_scope.
Local Open Scope seer_scope.

Inductive LeafOp := LInsert (key value : bytes) | LRemove (key : bytes).
Inductive LeafAnswer := LInserted (r : InsertResult) | LRemoved (r : RemoveResult) | LRefused.

Definition leaf_exec (d : bytes) (op : LeafOp) : bytes * LeafAnswer :=
  match op with
  | LInsert key value =>
      match try_insert_inline d key value with (d, Ok r) => (d, LInserted r) | (d, Err _) => (d, LRefused) end
  | LRemove key =>
      match remove_leaf d key with (d, Ok r) => (d, LRemoved r) | (d, Err _) => (d, LRefused) end
  end.

Fixpoint leaf_run (d : bytes) (ops : list LeafOp) : bytes * list LeafAnswer :=
  match ops with
  | [] => (d, [])
  | op :: ops => let '(d, a) := leaf_exec d op in let '(d, rest) := leaf_run d ops in (d, a :: rest)
  end.

(** The map of a leaf of [size] bytes with a given fence and right sibling. *)
Definition map_exec (size : Z) (high : option bytes) (right : option PageId) (es : list LeafEntry) (op : LeafOp)
    : list LeafEntry * LeafAnswer :=
  match op with
  | LInsert key value =>
      let es' := BTreeMap.insert key (LeafInline value) es in
      match right_of (leaf_page high right es) key, BTreeMap.get key es with
      | Some page, _ => (es, LInserted (InsertFollowRight page))
      | None, Some _ => (es, LInserted Duplicate)
      | None, None =>
          if decide (len key ≤ U16_MAX ∧ len value ≤ U16_MAX)
          then if decide (page_fits size (leaf_page high right es')) then (es', LInserted Inserted)
               else (es, LInserted Full)
          else (es, LRefused)
      end
  | LRemove key =>
      match right_of (leaf_page high right es) key, BTreeMap.get key es with
      | Some page, _ => (es, LRemoved (RemoveFollowRight page))
      | None, None => (es, LRemoved Missing)
      | None, Some _ => (BTreeMap.remove key es, LRemoved Removed)
      end
  end.

Fixpoint map_execs (size : Z) (high : option bytes) (right : option PageId) (es : list LeafEntry) (ops : list LeafOp)
    : list LeafEntry * list LeafAnswer :=
  match ops with
  | [] => (es, [])
  | op :: ops =>
      let '(es, a) := map_exec size high right es op in
      let '(es, rest) := map_execs size high right es ops in (es, a :: rest)
  end.

Lemma leaf_exec_at d high right es upper ho op :
  page_at d (leaf_page high right es) upper ho → keys_sorted es →
  let '(es', a) := map_exec (len d) high right es op in
  ∃ d' upper' ho', leaf_exec d op = (d', a) ∧ len d' = len d ∧
    page_at d' (leaf_page high right es') upper' ho' ∧ keys_sorted es'.
Proof.
  intros Hat Hs. destruct op as [key value|key]; cbn [map_exec leaf_exec].
  - pose proof (try_insert_inline_spec d high right es upper ho key value Hat Hs) as H. cbn zeta in H.
    destruct (right_of _ key) as [page|]; [rewrite H; by eexists _, _, _|].
    destruct (BTreeMap.get key es); [rewrite H; by eexists _, _, _|].
    destruct (decide _); cycle 1. { destruct H as [e ->]. by eexists _, _, _. }
    destruct H as (d' & u' & ho' & Hl & H). destruct (decide (page_fits _ _)); destruct H as [-> H];
      eexists _, _, _; split_and!; try done. by apply BTreeMap.insert_wf.
  - pose proof (remove_leaf_spec d high right es upper ho key Hat Hs) as H.
    destruct (right_of _ key) as [page|]; [rewrite H; by eexists _, _, _|].
    destruct (BTreeMap.get key es); cycle 1. { rewrite H. by eexists _, _, _. }
    destruct H as (d' & -> & Hl & H). eexists _, _, _. split_and!; try done. by apply BTreeMap.remove_wf.
Qed.

Lemma leaf_run_at high right ops : ∀ d es upper ho,
  page_at d (leaf_page high right es) upper ho → keys_sorted es →
  let '(es', answers) := map_execs (len d) high right es ops in
  ∃ d' upper' ho', leaf_run d ops = (d', answers) ∧ page_at d' (leaf_page high right es') upper' ho'.
Proof.
  induction ops as [|op ops IH]; intros d es upper ho Hat Hs; cbn [map_execs leaf_run].
  { by eexists _, _, _. }
  pose proof (leaf_exec_at d high right es upper ho op Hat Hs) as H1.
  destruct (map_exec _ high right es op) as [es1 a]. destruct H1 as (d1 & u1 & ho1 & -> & Hl & Hat1 & Hs1).
  specialize (IH d1 es1 u1 ho1 Hat1 Hs1). rewrite Hl in IH.
  destruct (map_execs _ high right es1 ops) as [es2 rest]. destruct IH as (d2 & u2 & ho2 & -> & Hat2).
  by eexists _, _, _.
Qed.

(** Building a leaf succeeds exactly when the entries, fence and slots fit the page,
    and the image reads back as the same entries, fence and right sibling. *)
Theorem leaf_page_roundtrip size high right es :
  page_wf (leaf_page high right es) →
  match build_leaf size high right es with
  | Ok d => page_fits size (leaf_page high right es) ∧ len d = size ∧
      ∃ p, page_parse d = Ok p ∧ high_fence p = Ok high ∧ right_sibling p = right ∧
           leaf_entries_owned p = Ok es
  | Err _ => ¬ page_fits size (leaf_page high right es)
  end.
Proof.
  intros Hwf. pose proof (build_page_at size _ Hwf) as Hb.
  change (build_leaf size high right es) with (build size (leaf_page high right es)).
  destruct (decide (page_fits size (leaf_page high right es))) as [Hf|Hf].
  - destruct Hb as (d & -> & Hl & Hat). split; [done|]. split; [done|]. eexists.
    split; [apply (page_parse_at _ _ _ _ Hat)|]. split; [apply (high_fence_at _ _ _ _ Hat)|].
    split; [done|]. apply (leaf_entries_at _ _ _ _ _ _ Hat).
  - by destruct Hb as (e & -> & _).
Qed.

(** C26. A leaf page is a sorted map of bounded size: any sequence of in-place insertions
    and removals on a built image answers exactly as the map does, compaction
    included; [Full] is answered only when a freshly built page could not hold the
    records either, and the final image decodes to the final map. *)
Theorem leaf_is_a_bounded_map size high right es d ops :
  page_wf (leaf_page high right es) → build_leaf size high right es = Ok d →
  let '(es', answers) := map_execs size high right es ops in
  ∃ d' p, leaf_run d ops = (d', answers) ∧ page_parse d' = Ok p ∧ leaf_entries_owned p = Ok es' ∧
          high_fence p = Ok high ∧ right_sibling p = right.
Proof.
  intros Hwf Hb. pose proof (build_page_at size _ Hwf) as Hbuilt.
  change (build size (leaf_page high right es)) with (build_leaf size high right es) in Hbuilt.
  rewrite Hb in Hbuilt. destruct (decide _); [|by destruct Hbuilt as (? & ? & _)].
  destruct Hbuilt as (d0 & [= <-] & <- & Hat).
  pose proof (leaf_run_at high right ops _ _ _ _ Hat ltac:(by apply (map_sorted EncodedLeaf es), Hwf)) as H.
  destruct (map_execs _ high right es ops) as [es' answers]. destruct H as (d' & u & ho & -> & Hat').
  eexists _, _. split; [done|]. split; [apply (page_parse_at _ _ _ _ Hat')|].
  split; [apply (leaf_entries_at _ _ _ _ _ _ Hat')|]. split; [apply (high_fence_at _ _ _ _ Hat')|done].
Qed.

(** ** Concrete pages *)
Definition demo_leaf : list LeafEntry := [([u8 1], LeafInline [u8 10]); ([u8 5], LeafTombstone)].

Lemma demo_leaf_wf : page_wf (leaf_page (Some [u8 9]) (Some 4) demo_leaf).
Proof. by split; [|split; repeat constructor]. Qed.

Lemma leaf_page_roundtrip_witness :
  page_fits 128 (leaf_page (Some [u8 9]) (Some 4) demo_leaf) ∧
  ∃ d p, build_leaf 128 (Some [u8 9]) (Some 4) demo_leaf = Ok d ∧ page_parse d = Ok p ∧
         leaf_entries_owned p = Ok demo_leaf.
Proof.
  split; [unfold page_fits; vm_compute; repeat split; discriminate|].
  pose proof (leaf_page_roundtrip 128 (Some [u8 9]) (Some 4) demo_leaf demo_leaf_wf) as H.
  destruct (build_leaf 128 (Some [u8 9]) (Some 4) demo_leaf) as [d|e] eqn:E; [|vm_compute in E; discriminate].
  destruct H as (_ & _ & p & Hp & _ & _ & He). exists d, p. split; [reflexivity|]. split; assumption.
Defined.

(** A key beyond the fence, one already there, and a second value that no longer fits. *)
Definition demo_leaf_ops : list LeafOp :=
  [LInsert [u8 9] []; LInsert [u8 5] []; LInsert [u8 3] [u8 1; u8 2]; LInsert [u8 4] (replicate 40 (u8 0));
   LRemove [u8 1]; LRemove [u8 2]].

Lemma leaf_is_a_bounded_map_witness :
  map_execs 128 (Some [u8 9]) (Some 4) demo_leaf demo_leaf_ops =
    ([([u8 3], LeafInline [u8 1; u8 2]); ([u8 5], LeafTombstone)],
     [LInserted (InsertFollowRight 4); LInserted Duplicate; LInserted Inserted; LInserted Full;
      LRemoved Removed; LRemoved Missing]) ∧
  ∃ d d' p, build_leaf 128 (Some [u8 9]) (Some 4) demo_leaf = Ok d ∧ (leaf_run d demo_leaf_ops).1 = d' ∧
    page_parse d' = Ok p ∧ leaf_entries_owned p = Ok [([u8 3], LeafInline [u8 1; u8 2]); ([u8 5], LeafTombstone)].
Proof.
  assert (map_execs 128 (Some [u8 9]) (Some 4) demo_leaf demo_leaf_ops =
    ([([u8 3], LeafInline [u8 1; u8 2]); ([u8 5], LeafTombstone)],
     [LInserted (InsertFollowRight 4); LInserted Duplicate; LInserted Inserted; LInserted Full;
      LRemoved Removed; LRemoved Missing])) as Hm by (vm_compute; reflexivity).
  split; [exact Hm|].
  destruct (build_leaf 128 (Some [u8 9]) (Some 4) demo_leaf) as [d|e] eqn:E; [|vm_compute in E; discriminate].
  pose proof (leaf_is_a_bounded_map 128 (Some [u8 9]) (Some 4) demo_leaf d demo_leaf_ops demo_leaf_wf E) as H.
  rewrite Hm in H. destruct H as (d' & p & Hr & Hp & He & _). exists d, d', p. rewrite Hr. repeat split; assumption.
Defined.

(** C37. The split point of a page of two or more entries leaves entries on both sides
    and no other point splits their cost more evenly; fewer entries, or a cost that
    overflows, are refused. *)
Theorem split_point_is_most_even costs :
  Forall (λ c, 0 ≤ c) costs →
  if decide ((2 ≤ length costs)%nat ∧ sum_costs costs ≤ U64_MAX)
  then ∃ s, choose_split costs = Ok (Z.of_nat s) ∧ (1 ≤ s < length costs)%nat ∧
            ∀ c, (1 ≤ c < length costs)%nat →
              Z.abs (sum_costs (take s costs) - sum_costs (drop s costs)) ≤
              Z.abs (sum_costs (take c costs) - sum_costs (drop c costs))
  else ∃ e, choose_split costs = Err e.
Proof. apply choose_split_balanced. Qed.

Lemma split_point_is_most_even_witness :
  choose_split [5; 1; 1; 9] = Ok 3 ∧
  ∃ s, choose_split [5; 1; 1; 9] = Ok (Z.of_nat s) ∧ (1 ≤ s < 4)%nat.
Proof.
  split; [reflexivity|].
  pose proof (split_point_is_most_even [5; 1; 1; 9] ltac:(repeat constructor; lia)) as H.
  rewrite decide_True in H by (cbn; unfold U64_MAX; lia). destruct H as (s & Hs & Hr & _). by exists s.
Defined.
