(* ===== verification/KeyOrder.v ===== *)
(** * The order of keys

    Keys are byte strings in lexicographic order; the empty key is the least.  The
    [order] tactic of the standard library decides the facts the access methods
    need about it. *)
From Stdlib Require Import Orders OrdersTac.
From S2P Require Import Prelude StdCollections Ids PageV4.

Local Open Scope Z_scope.

Definition klt (a b : bytes) : Prop := key_cmp a b = Lt.
Definition kle (a b : bytes) : Prop := key_cmp a b ≠ Gt.

#[global] Instance klt_dec a b : Decision (klt a b).
Proof. unfold klt. apply _. Defined.
#[global] Instance kle_dec a b : Decision (kle a b).
Proof. unfold kle. apply _. Defined.

Lemma key_cmp_refl a : key_cmp a a = Eq.
Proof. apply BTreeMap.cmp_refl. Qed.
Lemma key_cmp_eq a b : key_cmp a b = Eq → a = b.
Proof. apply cmp_eq. Qed.
Lemma key_cmp_gt a b : key_cmp a b = Gt ↔ klt b a.
Proof. unfold klt, key_cmp. rewrite (cmp_opp b a). destruct (cmp b a); cbn; split; congruence. Qed.

Module KeysTotal <: TotalOrder.
Definition t := bytes.
Definition eq := @Logic.eq bytes.
Definition lt := klt.
Definition le := kle.
#[global] Instance eq_equiv : Equivalence eq.
Proof. apply _. Qed.
#[global] Instance lt_strorder : StrictOrder lt.
Proof.
  split.
  - intros a Ha. unfold lt, klt in Ha. by rewrite key_cmp_refl in Ha.
  - intros a b c. apply cmp_trans.
Qed.
#[global] Instance lt_compat : Proper (eq ==> eq ==> iff) lt.
Proof. by intros a ? <- b ? <-. Qed.
Lemma le_lteq a b : le a b ↔ lt a b ∨ eq a b.
Proof.
  unfold le, lt, kle, klt, eq. split.
  - destruct (key_cmp a b) eqn:E; [right; by apply key_cmp_eq|by left|done].
  - intros [->| ->]; [done|by rewrite key_cmp_refl].
Qed.
Lemma lt_total a b : lt a b ∨ eq a b ∨ lt b a.
Proof.
  destruct (key_cmp a b) eqn:E; [right; left; by apply key_cmp_eq|by left|].
  right. right. by apply key_cmp_gt.
Qed.
End KeysTotal.
Module KeysTac := MakeOrderTac KeysTotal KeysTotal.

(** Decides goals about [klt], [kle] and equality of keys. *)
Ltac korder :=
  change klt with KeysTotal.lt in *; change kle with KeysTotal.le in *; KeysTac.order.

Lemma kle_nil a : kle [] a.
Proof. unfold kle. by destruct a. Qed.

Lemma kle_not_klt a b : kle a b ↔ ¬ klt b a.
Proof. split; [intros ?; korder|]. intros ?. destruct (KeysTotal.lt_total a b) as [H1|[H1|H1]]; unfold KeysTotal.eq in *; korder. Qed.
