(* ===== verification/Packed.v ===== *)
(** * Packed ranges

    Models [src/packed.rs] and [src/fault.rs] of the OmenDB crate: sorted entries
    packed into immutable checksummed pages of 4096 bytes, written to one file, and
    searched by key.  Faults are injected through a class; the file is one of
    [Fs]. *)
From stdpp Require Import strings.
From S2P Require Import Prelude StdCollections Ids Crc Fs PageImage PageV4 KeyOrder.

Local Open Scope Z_scope.
Local Open Scope seer_scope.

(** ** Faults *)
Inductive FaultPoint :=
| BeforeWalAppend | AfterWalAppend | WalSync | AfterWalSync | DataSync | PackedPageSync | ManifestMirrorSync
| SchemaJournalSync | ManifestSync | AfterManifestPublish | WalTruncate | DuringRecovery | DuringCompaction
| ShortWrite | TornWrite.

#[global] Instance FaultPoint_eq_dec : EqDecision FaultPoint.
Proof. solve_decision. Defined.

(** The errors of this module. *)
Inductive DbError :=
| DbIo (operation : string) (source : IoErrorKind)
| DbCorruption (artifact reason : string)
| DbInjectedFailure (point : FaultPoint)
| DbInvalidState (reason : string)
| DbValueTooLarge (length : Z).

Class FaultInjector (F : Type) := fault_check : FaultPoint → F → F * result unit DbError.

Record NoFaults := {}.
#[global] Instance no_faults : FaultInjector NoFaults := λ _ f, (f, Ok tt).

(** The sets are lists without repetitions. *)
Record FailOnce := { fo_armed : list FaultPoint; fo_fired : list FaultPoint }.
Definition FailOnce_at (points : list FaultPoint) : FailOnce := {| fo_armed := remove_dups points; fo_fired := [] |}.
#[global] Instance fail_once : FaultInjector FailOnce := λ point f,
  if bool_decide (point ∈ fo_armed f) && negb (bool_decide (point ∈ fo_fired f))
  then ({| fo_armed := fo_armed f; fo_fired := point :: fo_fired f |}, Err (DbInjectedFailure point))
  else (f, Ok tt).

(** ** Pages *)
Definition PACKED_PAGE_BYTES : nat := 4096.
Definition PACKED_HEADER_BYTES : nat := 64.
Definition PAYLOAD_BYTES : nat := PACKED_PAGE_BYTES - PACKED_HEADER_BYTES.
Definition ENTRY_HEADER_BYTES : nat := 21.
Definition PACKED_MAGIC : bytes := [u8 68; u8 66; u8 82; u8 80].
Definition PACKED_VERSION : Z := 1.

(** A key is an array of 16 bytes, compared lexicographically. *)
Definition Entry : Type := bytes * bytes.

Record PackBudget := { max_pages : Z; max_entries : Z; max_bytes : Z }.
Definition budget_unlimited : PackBudget := {| max_pages := U64_MAX; max_entries := U64_MAX; max_bytes := U64_MAX |}.
Definition is_bounded (b : PackBudget) : bool :=
  negb (max_pages b =? U64_MAX) && negb (max_entries b =? U64_MAX) && negb (max_bytes b =? U64_MAX).

Record PackReport := { rp_pages : Z; rp_entries : Z; rp_bytes : Z }.

Record PackedPage := { pp_bytes : bytes }.

Definition page_entry_count (p : PackedPage) : Z := le_combine (field (pp_bytes p) 20 2).
Definition page_first_key (p : PackedPage) : bytes := field (pp_bytes p) 24 16.
Definition page_last_key (p : PackedPage) : bytes := field (pp_bytes p) 40 16.
Definition payload_length (bs : bytes) : Z := le_combine (field bs 22 2).

Definition corruption_error (reason : string) : DbError := DbCorruption "packed range page" reason.

Definition stored_checksum (page : bytes) : Z := le_combine (field page 56 4).

Record PackedRange := {
  pk_generation : Z;
  pk_pages : list PackedPage;
  pk_report : PackReport;
  pk_checksum : Z
}.

(** [a >= b] on keys. *)
Definition key_ge (a b : bytes) : bool := match key_cmp a b with Lt => false | _ => true end.

(** [previous.is_some_and(|candidate| candidate >= key)] *)
Definition out_of_order (previous : option bytes) (key : bytes) : bool :=
  match previous with Some candidate => key_ge candidate key | None => false end.

(** The loop of [validate_entries] with the check after it: [n] entries are left.
    Every index is below [payload_end], which is at most the page size. *)
Fixpoint validate_packed (n cursor payload_end : nat) (previous : option bytes) (bs : bytes)
    : result (nat * option bytes) DbError :=
  match n with
  | O => Ok (cursor, previous)
  | S n' =>
      let header_end := (cursor + ENTRY_HEADER_BYTES)%nat in
      if (payload_end <? header_end)%nat then Err (corruption_error "packed entry header exceeds payload")
      else
        let key := field bs cursor 16 in
        if out_of_order previous key then Err (corruption_error "packed keys are not strictly ordered")
        else
          let length := le_combine (field bs (cursor + 16) 4) in
          let? stop := ok_or (checked_add (Z.of_nat header_end) length) (corruption_error "packed value length overflow") in
          if negb (byte_at bs (cursor + 20) =? 1) || (Z.of_nat payload_end <? stop)
          then Err (corruption_error "packed value exceeds payload")
          else validate_packed n' (Z.to_nat stop) payload_end (Some key) bs
  end.

Definition validate_entries (p : PackedPage) (payload_len : Z) : result unit DbError :=
  let count := page_entry_count p in
  let payload_end := (PACKED_HEADER_BYTES + Z.to_nat payload_len)%nat in
  let? scanned := validate_packed (Z.to_nat count) PACKED_HEADER_BYTES payload_end None (pp_bytes p) in
  let '(cursor, previous) := scanned in
  if negb (Nat.eqb cursor payload_end)
     || ((0 <? count) && (negb (key_ge (page_last_key p) (page_first_key p))
                          || negb (bool_decide (previous = Some (page_last_key p)))))
  then Err (corruption_error "packed page range metadata mismatch")
  else Ok tt.

(** The loop of [PackedPage::entries]. *)
Fixpoint read_entries (n cursor : nat) (bs : bytes) : list Entry :=
  match n with
  | O => []
  | S n' =>
      let length := Z.to_nat (le_combine (field bs (cursor + 16) 4)) in
      (field bs cursor 16, field bs (cursor + ENTRY_HEADER_BYTES) length)
        :: read_entries n' (cursor + ENTRY_HEADER_BYTES + length) bs
  end.

Definition page_entries (p : PackedPage) : result (list Entry) DbError :=
  let? _ := validate_entries p (payload_length (pp_bytes p)) in
  Ok (read_entries (Z.to_nat (page_entry_count p)) PACKED_HEADER_BYTES (pp_bytes p)).

(** The bytes of one entry in a page. *)
Definition entry_fields (e : Entry) : list bytes := [e.1; u32_le (len e.2); [u8 1]; e.2].

(** The loop of [from_entries]: what it writes from [cursor] on. *)
Fixpoint pack_entries (cursor : Z) (entries : list Entry) : result bytes DbError :=
  match entries with
  | [] => Ok []
  | (key, value) :: entries' =>
      let? stop := ok_or (header ← checked_add cursor (Z.of_nat ENTRY_HEADER_BYTES); checked_add header (len value))
                     (DbValueTooLarge (len value)) in
      if Z.of_nat PACKED_PAGE_BYTES <? stop then Err (DbValueTooLarge (len value))
      else
        let? _ := ok_or (u32_try_from (len value)) (DbValueTooLarge (len value)) in
        let? rest := pack_entries stop entries' in
        Ok (concat (entry_fields (key, value)) ++ rest)
  end.

Section packed.
Context `{Crc32c}.

Definition page_checksum (page : bytes) : Z := crc32c (take 56 page ++ drop 60 page).

Definition packed_fields (generation ordinal count payload_len : Z) (first last : bytes) : list bytes :=
  [PACKED_MAGIC; u16_le PACKED_VERSION; replicate 2 (u8 0); u64_le generation; u32_le ordinal; u16_le count;
   u16_le payload_len; first; last].

(** [PackedPage::from_entries]: the array is zero where nothing is written. *)
Definition from_entries (generation ordinal : Z) (entries : list Entry) : result PackedPage DbError :=
  match entries with
  | [] => Err (DbInvalidState "packed page cannot be empty")
  | first :: _ =>
      if 2 ^ 16 - 1 <? len entries then Err (DbInvalidState "packed page has too many entries")
      else
        let? payload := pack_entries (Z.of_nat PACKED_HEADER_BYTES) entries in
        let head := concat (packed_fields generation ordinal (len entries) (len payload) first.1
                              (default first (last entries)).1) in
        let tail := replicate 4 (u8 0) ++ payload ++ replicate (PAYLOAD_BYTES - length payload) (u8 0) in
        Ok {| pp_bytes := head ++ u32_le (crc32c (head ++ tail)) ++ tail |}
  end.

(** [PackedPage::decode] *)
Definition page_decode (bs : bytes) (expected_generation expected_ordinal : Z) : result PackedPage DbError :=
  if negb (bool_decide (length bs = PACKED_PAGE_BYTES)) then Err (corruption_error "packed page has the wrong size")
  else if negb (bool_decide (field bs 0 4 = PACKED_MAGIC))
    || negb (le_combine (field bs 4 2) =? PACKED_VERSION)
    || negb (le_combine (field bs 8 8) =? expected_generation)
    || negb (le_combine (field bs 16 4) =? expected_ordinal)
  then Err (corruption_error "packed page identity mismatch")
  else if (Z.of_nat PAYLOAD_BYTES <? payload_length bs) || negb (page_checksum bs =? stored_checksum bs)
  then Err (corruption_error "packed page checksum or payload mismatch")
  else
    let? _ := validate_entries {| pp_bytes := bs |} (payload_length bs) in
    Ok {| pp_bytes := bs |}.

(** ** Ranges *)
Definition range_checksum (pages : list PackedPage) : Z := crc32c (concat (pp_bytes <$> pages)).

Definition entry_bytes (e : Entry) : Z := Z.of_nat ENTRY_HEADER_BYTES + len e.2.

(** [(a + b).min(usize::MAX)] *)
Definition saturating_add (a b : Z) : Z := Z.min (a + b) U64_MAX.

Definition push_page (generation : Z) (pages : list PackedPage) (current : list Entry)
    : result (list PackedPage) DbError :=
  let? ordinal := ok_or (u32_try_from (len pages)) (DbInvalidState "too many packed pages") in
  let? page := from_entries generation ordinal current in
  Ok (pages ++ [page]).

(** The loop of [pack_sorted]; [previous] is the key before [position]. *)
Fixpoint pack_loop (generation : Z) (budget : PackBudget) (position : Z) (previous : option bytes)
    (pages : list PackedPage) (current : list Entry) (used_bytes : Z) (entries : list Entry)
    : result (list PackedPage * list Entry) DbError :=
  match entries with
  | [] => Ok (pages, current)
  | (key, value) :: entries' =>
      if out_of_order previous key then Err (DbInvalidState "packed input is not strictly ordered")
      else
        let? size := ok_or (checked_add (Z.of_nat ENTRY_HEADER_BYTES) (len value)) (DbValueTooLarge (len value)) in
        if Z.of_nat PAYLOAD_BYTES <? size then Err (DbValueTooLarge (len value))
        else if max_entries budget <=? position then Err (DbInvalidState "packed entry budget exceeded")
        else if match checked_add used_bytes size with None => true | Some bs => max_bytes budget <? bs end
        then Err (DbInvalidState "packed byte budget exceeded")
        else
          let? placed :=
            if negb (bool_decide (current = []))
               && (Z.of_nat PAYLOAD_BYTES <? saturating_add (foldr Z.add 0 (entry_bytes <$> current)) size)
            then
              let? pages := push_page generation pages current in
              if max_pages budget <=? len pages then Err (DbInvalidState "packed page budget exceeded")
              else Ok (pages, [])
            else Ok (pages, current) in
          let '(pages, current) := placed in
          pack_loop generation budget (position + 1) (Some key) pages (current ++ [(key, value)])
            (used_bytes + size) entries'
  end.

Definition pack_sorted (generation : Z) (entries : list Entry) (budget : PackBudget) : result PackedRange DbError :=
  if (max_pages budget =? 0) || (max_entries budget =? 0) || (max_bytes budget <? Z.of_nat PACKED_PAGE_BYTES)
  then Err (DbInvalidState "invalid packed-range budget")
  else
    let? looped := pack_loop generation budget 0 None [] [] 0 entries in
    let '(pages, current) := looped in
    let? pages := if bool_decide (current = []) then Ok pages else push_page generation pages current in
    Ok {| pk_generation := generation; pk_pages := pages;
          pk_report := {| rp_pages := len pages; rp_entries := len entries;
                          rp_bytes := len pages * Z.of_nat PACKED_PAGE_BYTES |};
          pk_checksum := range_checksum pages |}.

(** [PackedRange::entries] *)
Fixpoint pages_entries (pages : list PackedPage) : result (list Entry) DbError :=
  match pages with
  | [] => Ok []
  | page :: pages' =>
      let? here := page_entries page in
      let? rest := pages_entries pages' in
      Ok (here ++ rest)
  end.

Definition range_entries (r : PackedRange) : result (list Entry) DbError := pages_entries (pk_pages r).

(** The comparison of [get]: where the page lies from the key. *)
Definition page_side (key : bytes) (page : PackedPage) : comparison :=
  match key_cmp key (page_first_key page) with
  | Lt => Gt
  | _ => match key_cmp key (page_last_key page) with Gt => Lt | _ => Eq end
  end.

(** [binary_search_by(..).ok()] between [lo] and [lo + size]; every round halves
    the part that is left. *)
Fixpoint page_search (fuel lo size : nat) (key : bytes) (pages : list PackedPage) : option PackedPage :=
  match fuel with
  | O => None
  | S fuel' =>
      match size with
      | O => None
      | _ =>
          let half := Nat.div2 size in
          match pages !! (lo + half)%nat with
          | None => None
          | Some page =>
              match page_side key page with
              | Eq => Some page
              | Lt => page_search fuel' (lo + half + 1) (size - half - 1) key pages
              | Gt => page_search fuel' lo half key pages
              end
          end
      end
  end.

(** [find_map(|(candidate, value)| (candidate == key).then_some(value))] *)
Fixpoint find_entry (key : bytes) (entries : list Entry) : option bytes :=
  match entries with
  | [] => None
  | (candidate, value) :: entries' => if bool_decide (candidate = key) then Some value else find_entry key entries'
  end.

(** [PackedRange::get] *)
Definition range_get (r : PackedRange) (key : bytes) : result (option bytes) DbError :=
  match page_search (S (length (pk_pages r))) 0 (length (pk_pages r)) key (pk_pages r) with
  | None => Ok None
  | Some page => let? entries := page_entries page in Ok (find_entry key entries)
  end.

(** ** The file *)

(** [File::create]: an existing file is emptied. *)
Definition fs_create (k : Z) (fs : Fs) : Fs * result unit IoErrorKind :=
  do? (fs, _) := fs_check fs in
  (set_files (BTreeMap.insert k {| f_bytes := []; f_synced := 0 |} (fs_files fs)) fs, Ok tt).

Definition db_io {A} (operation : string) (c : Fs * result A IoErrorKind) : Fs * result A DbError :=
  (c.1, map_err (DbIo operation) c.2).

(** The loop of [PackedRange::write]; the file cursor is at [pos]. *)
Fixpoint write_pages {F} `{FaultInjector F} (k : Z) (pos : nat) (pages : list PackedPage) (f : F) (fs : Fs)
    : Fs * F * result unit DbError :=
  match pages with
  | [] => (fs, f, Ok tt)
  | page :: pages' =>
      match fault_check ShortWrite f with
      | (f, Err error) =>
          let '(fs, r) := db_io "write partial packed range" (fs_write_at k pos (take 7 (pp_bytes page)) fs) in
          (fs, f, let? _ := r in Err error)
      | (f, Ok _) =>
          match fault_check TornWrite f with
          | (f, Err error) =>
              let '(fs, r) := db_io "write torn packed range"
                                (fs_write_at k pos (take (Nat.div2 PACKED_PAGE_BYTES) (pp_bytes page)) fs) in
              (fs, f, let? _ := r in Err error)
          | (f, Ok _) =>
              match db_io "write packed range" (fs_write_at k pos (pp_bytes page) fs) with
              | (fs, Err error) => (fs, f, Err error)
              | (fs, Ok _) => write_pages k (pos + PACKED_PAGE_BYTES) pages' f fs
              end
          end
      end
  end.

(** [PackedRange::write] *)
Definition range_write {F} `{FaultInjector F} (r : PackedRange) (k : Z) (f : F) (fs : Fs)
    : Fs * F * result Z DbError :=
  match db_io "create packed range" (fs_create k fs) with
  | (fs, Err error) => (fs, f, Err error)
  | (fs, Ok _) =>
      match write_pages k 0 (pk_pages r) f fs with
      | (fs, f, Err error) => (fs, f, Err error)
      | (fs, f, Ok _) =>
          match fault_check PackedPageSync f with
          | (f, Err error) => (fs, f, Err error)
          | (f, Ok _) =>
              let '(fs, s) := db_io "sync packed range" (fs_sync_file k fs) in
              (fs, f, let? _ := s in Ok (rp_bytes (pk_report r)))
          end
      end
  end.

(** The loop of [PackedRange::read] over the chunks from [ordinal] on. *)
Fixpoint decode_pages (n : nat) (ordinal : nat) (generation : Z) (previous_last : option bytes) (bs : bytes)
    : result (list PackedPage) DbError :=
  match n with
  | O => Ok []
  | S n' =>
      let? number := ok_or (u32_try_from (Z.of_nat ordinal)) (DbInvalidState "too many packed pages") in
      let? page := page_decode (field bs (ordinal * PACKED_PAGE_BYTES) PACKED_PAGE_BYTES) generation number in
      if out_of_order previous_last (page_first_key page)
      then Err (corruption_error "packed page ranges are not ordered")
      else
        let? rest := decode_pages n' (S ordinal) generation (Some (page_last_key page)) bs in
        Ok (page :: rest)
  end.

Definition decode_range (bs : bytes) (generation : Z) : result PackedRange DbError :=
  if negb (Nat.eqb (length bs mod PACKED_PAGE_BYTES) 0) then Err (corruption_error "packed range is not page aligned")
  else
    let? pages := decode_pages (length bs / PACKED_PAGE_BYTES) 0 generation None bs in
    Ok {| pk_generation := generation; pk_pages := pages;
          pk_report := {| rp_pages := len pages; rp_entries := foldr Z.add 0 (page_entry_count <$> pages);
                          rp_bytes := len bs |};
          pk_checksum := crc32c bs |}.

(** [PackedRange::read] *)
Definition range_read (k : Z) (generation : Z) (fs : Fs) : Fs * result PackedRange DbError :=
  do? (fs, _) := db_io "open packed range"
                   (do? (fs, _) := fs_check fs in
                    if BTreeMap.contains_key k (fs_files fs) then (fs, Ok tt) else (fs, Err NotFound)) in
  do? (fs, bs) := db_io "read packed range" (fs_read k fs) in
  (fs, decode_range bs generation).
End packed.
