(* ===== verification/PackedSpec.v ===== *)
(** * Packed ranges are sorted maps

    What [Packed.v] builds: pages whose images are the concatenation of their
    fields, and ranges whose pages hold consecutive groups of the input.  A packed
    range answers [entries] and [get] as the input list does, and a range that was
    written is read back after a crash. *)
From stdpp Require Import strings.
From S2P Require Import Prelude StdCollections Ids Crc Fs PageImage PageV4 KeyOrder Packed.

Local Open Scope Z_scope.
Local Open Scope seer_scope.

Ltac packed_lia :=
  unfold PAYLOAD_BYTES, PACKED_PAGE_BYTES, PACKED_HEADER_BYTES, ENTRY_HEADER_BYTES, U64_MAX, U32_MAX, is_u32, is_u64, len in *;
  cbn [length] in *; lia.

(** ** Entries *)
Definition wf_key (k : bytes) : Prop := length k = 16%nat.
Definition wf_entries (es : list Entry) : Prop := Forall (λ e, wf_key e.1) es.

Definition entry_image (e : Entry) : bytes := concat (entry_fields e).
Definition payload (es : list Entry) : bytes := concat (entry_image <$> es).

Lemma length_entry_image e : wf_key e.1 → Z.of_nat (length (entry_image e)) = entry_bytes e.
Proof.
  intros Hk. unfold entry_image, entry_bytes, entry_fields. cbn [concat]. autorewrite with seer.
  unfold wf_key in Hk. packed_lia.
Qed.

Lemma payload_cons e es : payload (e :: es) = entry_image e ++ payload es.
Proof. done. Qed.

Lemma payload_app es es' : payload (es ++ es') = payload es ++ payload es'.
Proof. unfold payload. by rewrite fmap_app, concat_app. Qed.

Lemma length_payload es : wf_entries es → len (payload es) = foldr Z.add 0 (entry_bytes <$> es).
Proof.
  induction 1 as [|e es He Hes IH]; [done|]. rewrite payload_cons, len_app, IH, fmap_cons.
  cbn [foldr]. by rewrite <-(length_entry_image e He).
Qed.

Lemma payload_count es : wf_entries es → 21 * len es ≤ len (payload es).
Proof.
  induction 1 as [|e es He Hes IH]; [done|]. rewrite payload_cons, len_app.
  pose proof (length_entry_image e He) as Hl. unfold entry_bytes in Hl. pose proof (len_nonneg e.2). packed_lia.
Qed.

Lemma pack_entries_Ok es : ∀ cursor bs,
  wf_entries es → 0 ≤ cursor ≤ 4096 →
  pack_entries cursor es = Ok bs ↔ bs = payload es ∧ cursor + len (payload es) ≤ 4096.
Proof.
  induction es as [|[key value] es IH]; intros cursor bs Hw Hc.
  { cbn [pack_entries]. change (payload []) with ([] : bytes). split; [intros [= <-]; split; [done|packed_lia]|by intros [-> _]]. }
  apply Forall_cons in Hw as [Hk Hw]. cbn [pack_entries]. rewrite payload_cons, len_app.
  pose proof (length_entry_image (key, value) Hk) as Hl. unfold entry_bytes in Hl. cbn [snd] in Hl.
  pose proof (len_nonneg value) as Hv. pose proof (len_nonneg (payload es)) as Hp.
  destruct (header ← checked_add cursor _; checked_add header (len value)) as [stop|] eqn:Es; cbn [ok_or].
  - destruct (checked_add cursor _) as [h|] eqn:Eh; [|done]. cbn [mbind option_bind] in Es.
    apply checked_add_Some in Eh as [-> _], Es as [-> _].
    destruct (_ <? _) eqn:Eb; bool_to_prop; [split; [done|packed_lia]|].
    assert (u32_try_from (len value) = Some (len value)) as -> by (apply u32_try_from_Some; packed_lia). cbn [ok_or].
    destruct (pack_entries _ es) as [rest|e] eqn:Ep.
    + apply IH in Ep as [-> Hb]; [|done|packed_lia].
      split; [intros [= <-]|intros [-> _]; done]. split; [done|]. packed_lia.
    + split; [done|]. intros [_ Hb]. exfalso.
      pose proof (proj2 (IH (cursor + Z.of_nat ENTRY_HEADER_BYTES + len value) (payload es) Hw ltac:(packed_lia))) as E.
      rewrite E in Ep; [done|]. split; [done|packed_lia].
  - split; [done|]. intros [_ Hb]. exfalso. revert Es.
    assert (checked_add cursor (Z.of_nat ENTRY_HEADER_BYTES) = Some (cursor + Z.of_nat ENTRY_HEADER_BYTES)) as ->
      by (apply checked_add_Some; packed_lia). cbn [mbind option_bind].
    by rewrite (proj2 (checked_add_Some _ _ _)) by (split; [reflexivity|packed_lia]).
Qed.

(** ** Order *)
Fixpoint sorted_from (previous : option bytes) (es : list Entry) : Prop :=
  match es with
  | [] => True
  | e :: es' => out_of_order previous e.1 = false ∧ sorted_from (Some e.1) es'
  end.

Definition entries_sorted (es : list Entry) : Prop := StronglySorted (λ a b, klt a.1 b.1) es.

Lemma key_ge_false a b : key_ge a b = false ↔ klt a b.
Proof. unfold key_ge, klt. by destruct (key_cmp a b). Qed.

Lemma key_ge_true a b : key_ge a b = true ↔ kle b a.
Proof.
  rewrite kle_not_klt, <-key_ge_false. by destruct (key_ge a b).
Qed.

Lemma sorted_from_sorted es : ∀ previous,
  sorted_from previous es ↔ entries_sorted es ∧ match previous with Some p => Forall (λ e, klt p e.1) es | None => True end.
Proof.
  induction es as [|e es IH]; intros previous; cbn [sorted_from].
  { split; [|done]. intros _. split; [constructor|]. by destruct previous. }
  rewrite IH. split.
  - intros (Ho & Hs & Hf). split; [by constructor|]. destruct previous as [p|]; [|done]. cbn in Ho. apply key_ge_false in Ho.
    constructor; [done|]. eapply Forall_impl; [exact Hf|]. cbn. intros x Hx. korder.
  - intros [Hs Hp]. apply StronglySorted_inv in Hs as [Hs Hf]. split_and!; [|done..].
    destruct previous as [p|]; [|done]. cbn. apply key_ge_false. by apply Forall_cons in Hp as [? _].
Qed.

(** ** Pages *)
Section pages.
Context `{Crc32c}.

Definition first_key (es : list Entry) : bytes := default [] (fst <$> head es).
Definition last_key (es : list Entry) : bytes := default [] (fst <$> last es).

Definition head_fields (generation ordinal : Z) (es : list Entry) : list bytes :=
  packed_fields generation ordinal (len es) (len (payload es)) (first_key es) (last_key es).
Definition tail_fields (es : list Entry) : list bytes :=
  [replicate 4 (u8 0); payload es; replicate (PAYLOAD_BYTES - length (payload es)) (u8 0)].
Definition packed_checksum (generation ordinal : Z) (es : list Entry) : Z :=
  crc32c (concat (head_fields generation ordinal es ++ tail_fields es)).
Definition page_fields (generation ordinal : Z) (es : list Entry) : list bytes :=
  head_fields generation ordinal es ++ [u32_le (packed_checksum generation ordinal es)] ++ tail_fields es.
Definition the_page (generation ordinal : Z) (es : list Entry) : PackedPage :=
  {| pp_bytes := concat (page_fields generation ordinal es) |}.

(** What a page can hold. *)
Definition fits (es : list Entry) : Prop := es ≠ [] ∧ wf_entries es ∧ len (payload es) ≤ 4032.

Lemma fits_count es : fits es → 0 < len es < 2 ^ 16.
Proof.
  intros (Hne & Hw & Hp). pose proof (payload_count es Hw). destruct es; [done|]. packed_lia.
Qed.

Lemma from_entries_Ok generation ordinal es p :
  wf_entries es → from_entries generation ordinal es = Ok p ↔ fits es ∧ p = the_page generation ordinal es.
Proof.
  intros Hw. unfold from_entries, fits. destruct es as [|e es]; [split; [done|by intros [[? _] _]]|].
  set (all := e :: es). pose proof (payload_count all Hw) as Hc.
  destruct (pack_entries _ all) as [bs|err] eqn:Ep.
  - apply pack_entries_Ok in Ep as [-> Hb]; [|done|packed_lia].
    rewrite (proj2 (Z.ltb_ge _ _)) by packed_lia. cbv zeta.
    assert ((default e (last all)).1 = last_key all) as Hlast.
    { unfold last_key, all. destruct (last (e :: es)) eqn:El; [done|]. by apply last_None in El. }
    rewrite Hlast. change e.1 with (first_key all). fold (head_fields generation ordinal all).
    assert (concat (page_fields generation ordinal all) =
      concat (head_fields generation ordinal all) ++
      u32_le (crc32c (concat (head_fields generation ordinal all) ++
        replicate 4 (u8 0) ++ payload all ++ replicate (PAYLOAD_BYTES - length (payload all)) (u8 0))) ++
      replicate 4 (u8 0) ++ payload all ++ replicate (PAYLOAD_BYTES - length (payload all)) (u8 0)) as Hpage.
    { unfold page_fields, packed_checksum, tail_fields. rewrite !concat_app. cbn [concat]. by rewrite !app_nil_r. }
    rewrite <-Hpage. split; [|by intros [_ ->]]. intros [= <-]. split; [|done]. split_and!; [done..|packed_lia].
  - split; [by case_match|]. intros [(_ & _ & Hb) _]. exfalso.
    rewrite (proj2 (pack_entries_Ok all (Z.of_nat PACKED_HEADER_BYTES) (payload all) Hw ltac:(packed_lia))) in Ep; [done|].
    split; [done|packed_lia].
Qed.

Definition page_layout (es : list Entry) : list nat :=
  [4; 2; 2; 8; 4; 2; 2; 16; 16; 4; 4; length (payload es); (PAYLOAD_BYTES - length (payload es))]%nat.

Lemma fits_keys es : fits es → wf_key (first_key es) ∧ wf_key (last_key es).
Proof.
  intros (Hne & Hw & _). unfold first_key, last_key. destruct es as [|e rest]; [done|]. split.
  - by apply Forall_cons in Hw as [? _].
  - destruct (last (e :: rest)) as [x|] eqn:El; [|by apply last_None in El]. apply last_Some_elem_of in El.
    by apply (proj1 (Forall_forall _ _) Hw) in El.
Qed.

Lemma page_lengths generation ordinal es : fits es → length <$> page_fields generation ordinal es = page_layout es.
Proof.
  intros Hfits. destruct (fits_keys es Hfits) as [Hf Hl]. unfold wf_key in *.
  unfold page_fields, head_fields, tail_fields, packed_fields, page_layout. cbn [app fmap list_fmap].
  by rewrite Hf, Hl, !length_replicate, length_u16_le, length_u32_le, length_u64_le.
Qed.

Lemma length_the_page generation ordinal es : fits es → length (pp_bytes (the_page generation ordinal es)) = PACKED_PAGE_BYTES.
Proof.
  intros Hf. cbn [the_page pp_bytes]. rewrite length_concat_fields, page_lengths by done.
  destruct Hf as (_ & _ & Hp). unfold page_layout, sum_list. cbn [sum_list_with]. unfold id. packed_lia.
Qed.

(** The fields of an entry at [cursor]. *)
Lemma entry_at (bs rest : bytes) cursor (e : Entry) :
  wf_key e.1 → len e.2 ≤ U32_MAX → drop cursor bs = entry_image e ++ rest →
  field bs cursor 16 = e.1 ∧ le_combine (field bs (cursor + 16) 4) = len e.2 ∧ byte_at bs (cursor + 20) = 1 ∧
  field bs (cursor + ENTRY_HEADER_BYTES) (length e.2) = e.2 ∧
  drop (cursor + ENTRY_HEADER_BYTES + length e.2) bs = rest.
Proof.
  intros Hk Hl Hd. unfold field. unfold entry_image, entry_fields in Hd. cbn [concat] in Hd. rewrite app_nil_r, <-!app_assoc in Hd.
  assert (∀ n, drop (cursor + n) bs = drop n (e.1 ++ u32_le (len e.2) ++ [u8 1] ++ e.2 ++ rest)) as Hn.
  { intros n. by rewrite <-Hd, drop_drop. }
  unfold wf_key in Hk. split_and!.
  - rewrite Hd. by apply take_app_length'.
  - rewrite Hn, drop_app_length' by done. rewrite take_app_length' by done.
    apply le_u32_roundtrip. pose proof (len_nonneg e.2). packed_lia.
  - unfold byte_at. rewrite <-(Nat.add_0_r (cursor + 20)), <-lookup_drop, Hn.
    rewrite drop_app_ge by lia. rewrite Hk, drop_app_length' by done. done.
  - rewrite Hn. unfold ENTRY_HEADER_BYTES. rewrite drop_app_ge by lia. rewrite Hk.
    rewrite drop_app_ge by (rewrite length_u32_le; lia). rewrite length_u32_le. cbn [Nat.sub app drop]. apply take_app_length.
  - rewrite <-Nat.add_assoc, Hn. unfold ENTRY_HEADER_BYTES. rewrite drop_app_ge by lia. rewrite Hk.
    rewrite drop_app_ge by (rewrite length_u32_le; lia). rewrite length_u32_le.
    replace (21 + length e.2 - 16 - 4)%nat with (S (length e.2)) by lia. cbn [app drop]. apply drop_app_length.
Qed.

Definition last_or (previous : option bytes) (es : list Entry) : option bytes :=
  match last es with Some e => Some e.1 | None => previous end.

Lemma last_or_cons previous e es : last_or previous (e :: es) = last_or (Some e.1) es.
Proof.
  unfold last_or. destruct es as [|e' es]; [done|]. rewrite last_cons_cons.
  destruct (last (e' :: es)) eqn:E; [done|]. by apply last_None in E.
Qed.

Lemma validate_packed_ok es : ∀ cursor previous rest bs payload_end,
  wf_entries es → sorted_from previous es → drop cursor bs = payload es ++ rest →
  (cursor + length (payload es) ≤ payload_end)%nat → (payload_end ≤ 4096)%nat →
  validate_packed (length es) cursor payload_end previous bs = Ok ((cursor + length (payload es))%nat, last_or previous es).
Proof.
  induction es as [|e es IH]; intros cursor previous rest bs payload_end Hw Hs Hd He Hp; cbn [validate_packed length].
  { change (payload []) with ([] : bytes). by rewrite Nat.add_0_r. }
  apply Forall_cons in Hw as [Hk Hw]. destruct Hs as [Ho Hs]. rewrite payload_cons in *. rewrite <-app_assoc in Hd.
  rewrite length_app in *. pose proof (length_entry_image e Hk) as Hl. unfold entry_bytes in Hl.
  destruct (entry_at bs (payload es ++ rest) cursor e Hk ltac:(packed_lia) Hd) as (E1 & E2 & E3 & _ & E5).
  rewrite E1, E2, E3, Ho. rewrite (proj2 (Nat.ltb_ge _ _)) by packed_lia.
  assert (checked_add (Z.of_nat (cursor + ENTRY_HEADER_BYTES)) (len e.2) =
    Some (Z.of_nat (cursor + ENTRY_HEADER_BYTES + length e.2))) as -> by (apply checked_add_Some; packed_lia).
  cbn [ok_or]. rewrite (proj2 (Z.ltb_ge _ _)) by packed_lia. cbn [Z.eqb negb orb]. rewrite Nat2Z.id.
  rewrite (IH _ _ rest _ _ Hw Hs E5) by packed_lia. rewrite last_or_cons. do 2 f_equal. packed_lia.
Qed.

Lemma read_entries_ok es : ∀ cursor rest bs,
  wf_entries es → len (payload es) ≤ 4096 → drop cursor bs = payload es ++ rest → read_entries (length es) cursor bs = es.
Proof.
  induction es as [|e es IH]; intros cursor rest bs Hw Hl Hd; cbn [read_entries length]; [done|].
  apply Forall_cons in Hw as [Hk Hw]. rewrite payload_cons, <-app_assoc in Hd. rewrite payload_cons, len_app in Hl.
  pose proof (length_entry_image e Hk) as Hle. unfold entry_bytes in Hle. pose proof (len_nonneg (payload es)).
  destruct (entry_at bs (payload es ++ rest) cursor e Hk ltac:(packed_lia) Hd) as (E1 & E2 & _ & E4 & E5).
  rewrite E1, E2. unfold len. rewrite Nat2Z.id, E4. rewrite (IH _ rest _ Hw) by (done || packed_lia). by destruct e.
Qed.

(** Reading a page back. *)
Section back.
Variables (generation ordinal : Z) (es : list Entry).
Hypothesis Hgen : is_u64 generation.
Hypothesis Hord : is_u32 ordinal.
Hypothesis Hfits : fits es.
Hypothesis Hsorted : entries_sorted es.
Local Abbreviation fields := (page_fields generation ordinal es).
Local Abbreviation page := (the_page generation ordinal es).

Lemma le_u16_roundtrip z : 0 ≤ z < 2 ^ 16 → le_combine (u16_le z) = z.
Proof. intros Hz. by apply le_combine_le_split. Qed.

Lemma page_field i n x : fields !! i = Some x → length x = n → field (pp_bytes page) (sum_list (take i (page_layout es))) n = x.
Proof. intros Hi <-. unfold field. exact (field_layout fields _ i x (page_lengths _ _ _ Hfits) Hi). Qed.

Lemma page_count_back : page_entry_count page = len es.
Proof.
  unfold page_entry_count. rewrite (page_field 5 2 (u16_le (len es)) eq_refl eq_refl : field (pp_bytes page) 20 2 = _).
  apply le_u16_roundtrip. pose proof (fits_count es Hfits). lia.
Qed.

Lemma payload_length_back : payload_length (pp_bytes page) = len (payload es).
Proof.
  unfold payload_length. rewrite (page_field 6 2 (u16_le (len (payload es))) eq_refl eq_refl : field (pp_bytes page) 22 2 = _).
  apply le_u16_roundtrip. destruct Hfits as (_ & _ & ?). pose proof (len_nonneg (payload es)). lia.
Qed.

Lemma first_key_back : page_first_key page = first_key es.
Proof. exact (page_field 7 16 (first_key es) eq_refl (proj1 (fits_keys es Hfits))). Qed.

Lemma last_key_back : page_last_key page = last_key es.
Proof. exact (page_field 8 16 (last_key es) eq_refl (proj2 (fits_keys es Hfits))). Qed.

Lemma payload_back : ∃ rest, drop 64 (pp_bytes page) = payload es ++ rest.
Proof.
  exists (replicate (PAYLOAD_BYTES - length (payload es)) (u8 0)).
  pose proof (take_layout fields _ 11 (page_lengths _ _ _ Hfits)) as Ht. change (sum_list _) with 64%nat in Ht.
  assert (concat fields = concat (take 11 fields) ++ concat (drop 11 fields)) as Hs.
  { by rewrite <-concat_app, take_drop. }
  cbn [the_page pp_bytes]. rewrite Hs, <-Ht, drop_app_length'.
  - unfold page_fields, head_fields, tail_fields, packed_fields. cbn [app drop concat]. by rewrite app_nil_r.
  - symmetry. apply length_take_le. pose proof (length_the_page generation ordinal es Hfits) as Hl. cbn [the_page pp_bytes] in Hl.
    rewrite Hl. packed_lia.
Qed.

Lemma keys_in_range e : e ∈ es → kle (first_key es) e.1 ∧ kle e.1 (last_key es).
Proof.
  intros He. destruct Hfits as (Hne & _ & _). unfold first_key, last_key. split.
  - destruct es as [|x rest]; [done|]. apply elem_of_cons in He as [->|He]; [cbn; korder|].
    apply StronglySorted_inv in Hsorted as [_ Hf]. apply (proj1 (Forall_forall _ _) Hf) in He. cbn in *. korder.
  - destruct (last es) as [x|] eqn:El; [|by apply last_None in El]. apply last_Some in El as [l ->]. cbn.
    apply elem_of_app in He as [He|He%list_elem_of_singleton]; [|subst; korder].
    apply StronglySorted_app in Hsorted as (Hc & _). specialize (Hc e x He ltac:(by apply list_elem_of_singleton)). korder.
Qed.

Lemma validate_entries_back : validate_entries page (len (payload es)) = Ok tt.
Proof.
  pose proof Hfits as (Hne & Hw & Hp). destruct payload_back as [rest Hd]. unfold validate_entries.
  rewrite page_count_back, last_key_back, first_key_back.
  assert (Z.to_nat (len es) = length es ∧ Z.to_nat (len (payload es)) = length (payload es)) as [-> ->]
    by (unfold len; by rewrite !Nat2Z.id).
  rewrite (validate_packed_ok es PACKED_HEADER_BYTES None rest) by
    (done || packed_lia || (by apply sorted_from_sorted)).
  rewrite Nat.eqb_refl. cbn [negb orb].
  assert (∃ e, last es = Some e) as [e El] by (destruct (last es) eqn:E; [eauto|by apply last_None in E]).
  unfold last_or. rewrite El. assert (last_key es = e.1) as Hk by (unfold last_key; by rewrite El). rewrite Hk.
  rewrite bool_decide_eq_true_2 by done. cbn [negb orb]. rewrite orb_false_r.
  assert (key_ge e.1 (first_key es) = true) as ->.
  { apply key_ge_true. rewrite <-Hk. destruct (keys_in_range e); [by apply last_Some_elem_of|]. rewrite Hk in *. korder. }
  by rewrite andb_false_r.
Qed.

Lemma page_entries_back : page_entries page = Ok es.
Proof.
  pose proof Hfits as (Hne & Hw & Hp). destruct payload_back as [rest Hd]. unfold page_entries.
  rewrite payload_length_back, validate_entries_back, page_count_back. unfold len. rewrite Nat2Z.id.
  by rewrite (read_entries_ok es PACKED_HEADER_BYTES rest) by (done || packed_lia).
Qed.

Lemma page_checksum_back : page_checksum (pp_bytes page) = packed_checksum generation ordinal es.
Proof.
  unfold page_checksum, packed_checksum. f_equal. rewrite concat_app. f_equal.
  - exact (take_layout fields _ 9 (page_lengths _ _ _ Hfits)).
  - pose proof (take_layout fields _ 10 (page_lengths _ _ _ Hfits)) as Ht. change (sum_list _) with 60%nat in Ht.
    assert (concat fields = concat (take 10 fields) ++ concat (drop 10 fields)) as Hs by (by rewrite <-concat_app, take_drop).
    cbn [the_page pp_bytes]. rewrite Hs, <-Ht, drop_app_length'; [done|]. symmetry. apply length_take_le.
    pose proof (length_the_page generation ordinal es Hfits) as Hl. cbn [the_page pp_bytes] in Hl. rewrite Hl. packed_lia.
Qed.

Lemma page_decode_back : page_decode (pp_bytes page) generation ordinal = Ok page.
Proof.
  unfold page_decode. rewrite length_the_page, bool_decide_eq_true_2 by done. cbn [negb].
  rewrite (page_field 0 4 PACKED_MAGIC eq_refl eq_refl : field (pp_bytes page) 0 4 = _), bool_decide_eq_true_2 by done.
  rewrite (page_field 1 2 (u16_le PACKED_VERSION) eq_refl eq_refl : field (pp_bytes page) 4 2 = _).
  rewrite (page_field 3 8 (u64_le generation) eq_refl eq_refl : field (pp_bytes page) 8 8 = _), le_u64_roundtrip by done.
  rewrite (page_field 4 4 (u32_le ordinal) eq_refl eq_refl : field (pp_bytes page) 16 4 = _), le_u32_roundtrip by done.
  rewrite !Z.eqb_refl. cbn [negb orb]. rewrite payload_length_back, page_checksum_back. unfold stored_checksum.
  rewrite (page_field 9 4 (u32_le (packed_checksum generation ordinal es)) eq_refl eq_refl : field (pp_bytes page) 56 4 = _).
  rewrite le_u32_roundtrip by apply crc32c_u32. rewrite Z.eqb_refl. cbn [negb]. destruct Hfits as (_ & _ & Hp).
  rewrite (proj2 (Z.ltb_ge _ _)) by packed_lia. cbn [orb].
  change {| pp_bytes := pp_bytes page |} with page. by rewrite validate_entries_back.
Qed.

Lemma page_decode_stale other number :
  other ≠ generation → page_decode (pp_bytes page) other number = Err (corruption_error "packed page identity mismatch").
Proof.
  intros Hne. unfold page_decode. rewrite length_the_page, bool_decide_eq_true_2 by done. cbn [negb].
  rewrite (page_field 3 8 (u64_le generation) eq_refl eq_refl : field (pp_bytes page) 8 8 = _), le_u64_roundtrip by done.
  rewrite (proj2 (Z.eqb_neq generation other)) by done. cbn [negb]. by rewrite orb_true_r.
Qed.
End back.

(** ** Groups *)
Definition pages_of (generation : Z) (gss : list (list Entry)) : list PackedPage :=
  imap (λ i g, the_page generation (Z.of_nat i) g) gss.

Lemma pages_of_snoc generation gss g :
  pages_of generation (gss ++ [g]) = pages_of generation gss ++ [the_page generation (Z.of_nat (length gss)) g].
Proof. unfold pages_of. rewrite imap_app. cbn. by rewrite Nat.add_0_r. Qed.

Lemma length_pages_of generation gss : len (pages_of generation gss) = len gss.
Proof. unfold len, pages_of. by rewrite length_imap. Qed.

Lemma push_page_Ok generation gss current pages :
  wf_entries current →
  push_page generation (pages_of generation gss) current = Ok pages ↔
  fits current ∧ len gss ≤ U32_MAX ∧ pages = pages_of generation (gss ++ [current]).
Proof.
  intros Hw. unfold push_page. rewrite length_pages_of, pages_of_snoc.
  destruct (u32_try_from (len gss)) as [o|] eqn:Eo; cbn [ok_or].
  - apply u32_try_from_Some in Eo as [-> Ho]. unfold len at 1.
    destruct (from_entries generation _ current) as [p|e] eqn:Ef.
    + apply from_entries_Ok in Ef as [Hf ->]; [|done]. split; [intros [= <-]; done|by intros (_ & _ & ->)].
    + split; [done|]. intros (Hf & _). exfalso.
      pose proof (proj2 (from_entries_Ok generation (Z.of_nat (length gss)) current _ Hw) (conj Hf eq_refl)) as E. congruence.
  - split; [done|]. intros (_ & Hl & _). unfold u32_try_from in Eo. rewrite (proj2 (Z.leb_le _ _)) in Eo by done. done.
Qed.
(** ** Packing *)
Definition room (current : list Entry) : Prop := current = [] ∨ fits current.

Lemma room_snoc current e : room current → wf_key e.1 → len (payload current) + entry_bytes e ≤ 4032 → fits (current ++ [e]).
Proof.
  intros Hr Hk Hl. split; [by destruct current|]. split.
  - apply Forall_app. split; [|by constructor]. destruct Hr as [->|(_ & ? & _)]; [constructor|done].
  - rewrite payload_app, len_app. unfold payload at 2. cbn [fmap list_fmap concat]. rewrite app_nil_r.
    pose proof (length_entry_image e Hk). unfold len at 2. lia.
Qed.

Lemma room_payload current : room current → len (payload current) = foldr Z.add 0 (entry_bytes <$> current).
Proof. intros [->|(_ & Hw & _)]; [done|by apply length_payload]. Qed.

(** One round: the page of the current group is closed when the entry has no room. *)
Lemma place_entry generation budget gss current e pages' current' :
  Forall fits gss → room current → wf_key e.1 → entry_bytes e ≤ 4032 → len gss ≤ 2 ^ 32 → len gss < max_pages budget →
  (if negb (bool_decide (current = []))
      && (Z.of_nat PAYLOAD_BYTES <? saturating_add (foldr Z.add 0 (entry_bytes <$> current)) (entry_bytes e))
   then let? pages := push_page generation (pages_of generation gss) current in
        if max_pages budget <=? len pages then Err (DbInvalidState "packed page budget exceeded") else Ok (pages, [])
   else Ok (pages_of generation gss, current)) = Ok (pages', current') →
  ∃ gss', pages' = pages_of generation gss' ∧ Forall fits gss' ∧ concat gss' ++ current' = concat gss ++ current ∧
    len gss' ≤ 2 ^ 32 ∧ len gss' < max_pages budget ∧ len gss' ≤ len gss + 1 ∧ fits (current' ++ [e]).
Proof.
  intros Hg Hr Hk He H0 Hm. rewrite <-room_payload by done.
  destruct (negb _ && _) eqn:Ec.
  - apply andb_prop in Ec as [Ene _]. bool_to_prop. destruct Hr as [?|Hf]; [done|].
    destruct (push_page _ _ current) as [pages|err] eqn:Ep; [|done].
    apply push_page_Ok in Ep as (_ & Hu & ->); [|apply Hf]. rewrite length_pages_of.
    destruct (_ <=? _) eqn:El; bool_to_prop; [done|]. intros [= <- <-]. exists (gss ++ [current]).
    split_and!; [done|by apply Forall_app_2; [|constructor]| |rewrite len_app; packed_lia|done|rewrite len_app; packed_lia|].
    + rewrite concat_app. cbn. by rewrite !app_nil_r.
    + by apply room_snoc; [left| |].
  - intros [= <- <-]. exists gss. split_and!; [done..|lia|]. apply room_snoc; [done..|].
    apply andb_false_iff in Ec as [Ec|Ec]; bool_to_prop.
    + subst current. unfold payload. cbn. packed_lia.
    + unfold saturating_add in Ec. packed_lia.
Qed.

Lemma pack_loop_spec generation budget es : ∀ position previous gss current used pages' current',
  Forall fits gss → room current → wf_entries es → len gss ≤ 2 ^ 32 → len gss < max_pages budget →
  position ≤ max_entries budget →
  pack_loop generation budget position previous (pages_of generation gss) current used es = Ok (pages', current') →
  ∃ gss', pages' = pages_of generation gss' ∧ Forall fits gss' ∧ room current' ∧
    concat gss' ++ current' = concat gss ++ current ++ es ∧ sorted_from previous es ∧
    len gss' ≤ 2 ^ 32 ∧ len gss' < max_pages budget ∧ position + len es ≤ max_entries budget.
Proof.
  induction es as [|[key value] es IH]; intros position previous gss current used pages' current' Hg Hr Hw H0 Hm Hpos;
    cbn [pack_loop].
  { intros [= <- <-]. exists gss. rewrite app_nil_r. split_and!; try done. packed_lia. }
  apply Forall_cons in Hw as [Hk Hw]. cbn [fst] in Hk.
  destruct (out_of_order previous key) eqn:Eo; [done|].
  destruct (checked_add _ (len value)) as [size|] eqn:Es; cbn [ok_or]; [|done]. apply checked_add_Some in Es as [-> _].
  destruct (_ <? _) eqn:Eb; bool_to_prop; [done|]. destruct (_ <=? position) eqn:Ep; bool_to_prop; [done|].
  destruct (match checked_add used _ with None => true | Some bs => _ end); [done|].
  set (e := (key, value)). change (Z.of_nat ENTRY_HEADER_BYTES + len value) with (entry_bytes e) in *.
  destruct (if negb _ && _ then _ else _) as [[pages1 current1]|err] eqn:Epl; [|done].
  apply place_entry in Epl as (gss1 & -> & Hg1 & Hc1 & Hu1 & Hm1 & _ & Hf1); [|done..|packed_lia|done|done].
  intros E. apply IH in E as (gss' & -> & Hg' & Hr' & Hc' & Hs' & Hu' & Hm' & Hp'); [|done|by right|done..|lia].
  exists gss'. split_and!; try done; [|packed_lia].
  rewrite Hc', <-!app_assoc. cbn [app]. rewrite app_assoc, Hc1, <-app_assoc. done.
Qed.

Record wf_budget (b : PackBudget) : Prop := {
  wb_pages : is_u64 (max_pages b);
  wb_entries : is_u64 (max_entries b);
  wb_bytes : is_u64 (max_bytes b)
}.

(** The range a packing returns. *)
Definition packed_range (generation : Z) (gss : list (list Entry)) : PackedRange :=
  let pages := pages_of generation gss in
  {| pk_generation := generation; pk_pages := pages;
     pk_report := {| rp_pages := len gss; rp_entries := len (concat gss); rp_bytes := len gss * Z.of_nat PACKED_PAGE_BYTES |};
     pk_checksum := range_checksum pages |}.

Lemma pack_sorted_spec generation es budget r :
  wf_entries es → wf_budget budget → pack_sorted generation es budget = Ok r →
  ∃ gss, r = packed_range generation gss ∧ Forall fits gss ∧ concat gss = es ∧ entries_sorted es ∧ len gss ≤ 2 ^ 32 ∧
    len gss ≤ max_pages budget ∧ len es ≤ max_entries budget.
Proof.
  intros Hw [B1 B2 B3]. unfold pack_sorted. destruct (_ || _) eqn:Eb; [done|].
  apply orb_false_iff in Eb as [Eb _]. apply orb_false_iff in Eb as [Ep _]. bool_to_prop.
  destruct (pack_loop _ _ _ _ _ _ _ es) as [[pages current]|err] eqn:El; [|done].
  apply (pack_loop_spec generation budget es 0 None []) in El as (gss & -> & Hg & Hr & Hc & Hs & Hu & Hm & Hn);
    [|constructor|by left|done|packed_lia..].
  apply sorted_from_sorted in Hs as [Hs _]. cbn [concat app] in Hc.
  case_bool_decide as Hcur.
  - intros [= <-]. subst current. rewrite app_nil_r in Hc. exists gss. unfold packed_range. rewrite length_pages_of, Hc.
    split_and!; try done; lia.
  - destruct Hr as [?|Hf]; [done|]. destruct (push_page _ _ current) as [pages|err] eqn:Ep'; [|done].
    apply push_page_Ok in Ep' as (_ & Hl & ->); [|apply Hf]. intros [= <-]. exists (gss ++ [current]).
    assert (concat (gss ++ [current]) = es) as Hall by (rewrite concat_app; cbn; by rewrite app_nil_r).
    unfold packed_range. rewrite length_pages_of, Hall, len_app. split_and!; try done; [|packed_lia..].
    by apply Forall_app_2; [|constructor].
Qed.

(** ** Looking up *)
Lemma groups_sorted gss i g : entries_sorted (concat gss) → gss !! i = Some g → entries_sorted g.
Proof.
  revert i. induction gss as [|h gss IH]; intros [|i] Hs Hi; try done; cbn in *;
    apply StronglySorted_app in Hs as (_ & Hs1 & Hs2); [by injection Hi as <-|by eapply IH].
Qed.

Lemma groups_separated gss i j g h x y :
  entries_sorted (concat gss) → (i < j)%nat → gss !! i = Some g → gss !! j = Some h → x ∈ g → y ∈ h → klt x.1 y.1.
Proof.
  revert i j. induction gss as [|f gss IH]; intros [|i] [|j] Hs Hij Hi Hj Hx Hy; try done; try lia; cbn in *;
    apply StronglySorted_app in Hs as (Hc & Hs1 & Hs2).
  - injection Hi as ->. apply Hc; [done|]. apply list_elem_of_In, in_concat. exists h.
    split; apply list_elem_of_In; [by eapply list_elem_of_lookup_2|done].
  - eapply (IH i j); try done. lia.
Qed.

Lemma find_entry_Some key es v : entries_sorted es → find_entry key es = Some v ↔ (key, v) ∈ es.
Proof.
  induction 1 as [|[k w] es Hs IH Hf]; cbn [find_entry]; [split; [done|by intros ?%elem_of_nil]|].
  case_bool_decide as Hk.
  - subst k. split; [intros [= <-]; apply elem_of_cons; by left|]. intros [[= ->]|Hin]%elem_of_cons; [done|].
    apply (proj1 (Forall_forall _ _) Hf) in Hin. cbn in Hin. korder.
  - rewrite IH, elem_of_cons. naive_solver.
Qed.

Section lookup.
Variables (generation : Z) (gss : list (list Entry)).
Hypothesis Hfits : Forall fits gss.
Hypothesis Hsorted : entries_sorted (concat gss).
Local Abbreviation pages := (pages_of generation gss).

Lemma page_of_group i p : pages !! i = Some p → ∃ g, gss !! i = Some g ∧ p = the_page generation (Z.of_nat i) g ∧ fits g ∧ entries_sorted g.
Proof.
  intros (g & Hi & ->)%list_lookup_imap_Some. exists g. split_and!; try done.
  - exact (Forall_lookup_1 _ _ _ _ Hfits Hi).
  - by eapply groups_sorted.
Qed.

Lemma pages_entries_back : pages_entries pages = Ok (concat gss).
Proof.
  assert (∀ ps gs, Forall2 (λ p g, page_entries p = Ok g) ps gs → pages_entries ps = Ok (concat gs)) as Hall.
  { induction 1 as [|p g ps gs Hp _ IH]; cbn; [done|]. by rewrite Hp, IH. }
  apply Hall, Forall2_same_length_lookup_2; [unfold pages_of; by rewrite length_imap|].
  intros i p g Hp Hg. apply page_of_group in Hp as (g' & Hg' & -> & Hf & Hs). replace g' with g in * by congruence.
  by apply page_entries_back.
Qed.

(** Where a key lies from the page of a group. *)
Lemma page_side_group key o g :
  fits g → entries_sorted g →
  match page_side key (the_page generation o g) with
  | Lt => klt (last_key g) key
  | Eq => kle (first_key g) key ∧ kle key (last_key g)
  | Gt => klt key (first_key g)
  end.
Proof.
  intros Hf Hs. unfold page_side. rewrite first_key_back, last_key_back by done.
  destruct (key_cmp key (first_key g)) eqn:E1; [apply key_cmp_eq in E1; subst key|done|].
  - destruct (key_cmp (first_key g) (last_key g)) eqn:E2; [|unfold klt, kle in *..].
    + apply key_cmp_eq in E2. split; korder.
    + split; [by rewrite key_cmp_refl|by rewrite E2].
    + by apply key_cmp_gt.
  - apply key_cmp_gt in E1. destruct (key_cmp key (last_key g)) eqn:E2.
    + apply key_cmp_eq in E2. subst key. split; korder.
    + split; [korder|]. unfold kle. by rewrite E2.
    + by apply key_cmp_gt.
Qed.

(** The first and the last key of a group belong to entries of it. *)
Lemma group_ends g : fits g → (∃ x, x ∈ g ∧ x.1 = first_key g) ∧ ∃ y, y ∈ g ∧ y.1 = last_key g.
Proof.
  intros (Hne & _ & _). unfold first_key, last_key. split.
  - destruct g as [|x g]; [done|]. exists x. split; [apply elem_of_cons; by left|done].
  - destruct (last g) as [y|] eqn:E; [|by apply last_None in E]. exists y. split; [by apply last_Some_elem_of|done].
Qed.

Lemma groups_ordered i j g h : (i < j)%nat → gss !! i = Some g → gss !! j = Some h → klt (last_key g) (first_key h).
Proof.
  intros Hij Hi Hj. destruct (group_ends g) as [_ (x & Hx & <-)]; [exact (Forall_lookup_1 _ _ _ _ Hfits Hi)|].
  destruct (group_ends h) as [(y & Hy & <-) _]; [exact (Forall_lookup_1 _ _ _ _ Hfits Hj)|]. by eapply groups_separated.
Qed.

Lemma group_order g : fits g → entries_sorted g → kle (first_key g) (last_key g).
Proof.
  intros Hf Hs. destruct (group_ends g Hf) as [(x & Hx & <-) _]. by apply (keys_in_range g Hf Hs).
Qed.

(** Left of a page that is left of the key all pages are, and dually. *)
Lemma page_side_mono key i j p q :
  (i < j)%nat → pages !! i = Some p → pages !! j = Some q →
  (page_side key q = Lt → page_side key p = Lt) ∧ (page_side key p = Gt → page_side key q = Gt).
Proof.
  intros Hij (g & Hg & -> & Fg & Sg)%page_of_group (h & Hh & -> & Fh & Sh)%page_of_group.
  pose proof (groups_ordered i j g h Hij Hg Hh) as Ho. pose proof (group_order g Fg Sg). pose proof (group_order h Fh Sh).
  pose proof (page_side_group key (Z.of_nat i) g Fg Sg) as Pg. pose proof (page_side_group key (Z.of_nat j) h Fh Sh) as Ph.
  split; intros E; rewrite E in *; [destruct (page_side key (the_page generation (Z.of_nat i) g))|
    destruct (page_side key (the_page generation (Z.of_nat j) h))]; try done; exfalso; destruct_and?; korder.
Qed.

Lemma page_search_spec key fuel : ∀ lo size,
  (lo + size ≤ length pages)%nat → (size < fuel)%nat →
  (∀ i p, (i < lo)%nat → pages !! i = Some p → page_side key p = Lt) →
  (∀ i p, (lo + size ≤ i)%nat → pages !! i = Some p → page_side key p = Gt) →
  match page_search fuel lo size key pages with
  | Some p => p ∈ pages ∧ page_side key p = Eq
  | None => ∀ p, p ∈ pages → page_side key p ≠ Eq
  end.
Proof.
  induction fuel as [|fuel IH]; intros lo size Hb Hf Hlo Hhi; [lia|]. cbn [page_search].
  destruct size as [|size']; [intros p [i Hi]%list_elem_of_lookup|].
  { destruct (decide (i < lo)%nat) as [Hlt|Hge]; [by rewrite (Hlo i p)|rewrite (Hhi i p); [done|lia|done]]. }
  set (size := S size') in *. set (half := Nat.div2 size). assert (half < size)%nat as Hh.
  { unfold half, size. apply Nat.lt_div2. lia. }
  destruct (lookup_lt_is_Some_2 pages (lo + half)%nat) as [p Hp]; [lia|]. rewrite Hp.
  destruct (page_side key p) eqn:Ep.
  - split; [by eapply list_elem_of_lookup_2|done].
  - apply IH; [lia|lia| |].
    + intros i q Hi Hq. destruct (decide (i = lo + half)%nat) as [->|Hne]; [congruence|].
      eapply (proj1 (page_side_mono key i (lo + half)%nat q p ltac:(lia) Hq Hp)); done.
    + intros i q Hi Hq. apply (Hhi i q); [lia|done].
  - apply IH; [lia|lia|done|]. intros i q Hi Hq. destruct (decide (i = lo + half)%nat) as [->|Hne]; [congruence|].
    eapply (proj2 (page_side_mono key (lo + half)%nat i p q ltac:(lia) Hp Hq)); done.
Qed.

(** A key inside the range of one page is in no other group. *)
Lemma only_group key i j g h v :
  i ≠ j → gss !! i = Some g → gss !! j = Some h → kle (first_key g) key → kle key (last_key g) → (key, v) ∉ h.
Proof.
  intros Hne Hg Hh H1 H2 Hv.
  destruct (keys_in_range h (Forall_lookup_1 _ _ _ _ Hfits Hh) (groups_sorted _ _ _ Hsorted Hh) _ Hv) as [H3 H4]. cbn in H3, H4.
  destruct (Nat.lt_trichotomy i j) as [Hlt|[->|Hlt]]; [|done|].
  - pose proof (groups_ordered i j g h Hlt Hg Hh). korder.
  - pose proof (groups_ordered j i h g Hlt Hh Hg). korder.
Qed.

Lemma range_get_back key : range_get (packed_range generation gss) key = Ok (find_entry key (concat gss)).
Proof.
  unfold range_get. cbn [packed_range pk_pages].
  pose proof (page_search_spec key (S (length pages)) 0 (length pages) ltac:(lia) ltac:(lia)
                ltac:(intros; lia) ltac:(intros i p Hi Hp; apply lookup_lt_Some in Hp; lia)) as Hsearch.
  assert (∀ v, (key, v) ∈ concat gss → ∃ i g p, gss !! i = Some g ∧ (key, v) ∈ g ∧ pages !! i = Some p ∧ page_side key p = Eq) as Hin.
  { intros v (g & Hg & Hv)%list_elem_of_In%in_concat. apply list_elem_of_In in Hg as Hg', Hv. apply list_elem_of_lookup in Hg' as [i Hi].
    pose proof (Forall_lookup_1 _ _ _ _ Hfits Hi) as Fg. pose proof (groups_sorted _ _ _ Hsorted Hi) as Sg.
    exists i, g, (the_page generation (Z.of_nat i) g). split_and!; [done..| |].
    - apply list_lookup_imap_Some. eauto.
    - pose proof (page_side_group key (Z.of_nat i) g Fg Sg) as Hs. destruct (keys_in_range g Fg Sg _ Hv) as [H1 H2]. cbn in H1, H2.
      destruct (page_side key _); [done|exfalso; korder..]. }
  destruct (page_search _ _ _ _ _) as [p|].
  - destruct Hsearch as [[i Hp]%list_elem_of_lookup He]. pose proof Hp as (g & Hg & -> & Fg & Sg)%page_of_group.
    rewrite page_entries_back by done. f_equal. apply option_eq. intros v. rewrite !find_entry_Some by done. split.
    + intros Hv. apply list_elem_of_In, in_concat. exists g. split; apply list_elem_of_In; [by eapply list_elem_of_lookup_2|done].
    + intros (j & h & q & Hh & Hv & _)%Hin. pose proof (page_side_group key (Z.of_nat i) g Fg Sg) as Hs. rewrite He in Hs.
      destruct (decide (i = j)) as [->|Hne]; [by replace g with h by congruence|].
      destruct (only_group key i j g h v Hne Hg Hh (proj1 Hs) (proj2 Hs) Hv).
  - f_equal. destruct (find_entry key (concat gss)) as [v|] eqn:E; [|done]. exfalso.
    apply find_entry_Some in E; [|done]. apply Hin in E as (i & g & p & _ & _ & Hp & Hs).
    by apply (Hsearch p); [eapply list_elem_of_lookup_2|].
Qed.

(** ** The file *)
Hypothesis Hgen : is_u64 generation.
Hypothesis Hcount : len gss ≤ 2 ^ 32.
Local Abbreviation image := (concat (pp_bytes <$> pages)).

Lemma length_pages_bytes : length <$> (pp_bytes <$> pages) = replicate (length gss) PACKED_PAGE_BYTES.
Proof.
  apply list_eq. intros i. rewrite !list_lookup_fmap. destruct (pages !! i) as [p|] eqn:Hp; cbn [fmap option_fmap option_map].
  - pose proof Hp as (g & Hg & -> & Fg & _)%page_of_group. rewrite length_the_page by done.
    rewrite lookup_replicate_2; [done|by eapply lookup_lt_Some].
  - apply lookup_ge_None in Hp. unfold pages_of in Hp. rewrite length_imap in Hp. symmetry. apply lookup_ge_None. by rewrite length_replicate.
Qed.

Lemma sum_replicate n k : sum_list (replicate n k) = (n * k)%nat.
Proof.
  induction n as [|n IH]; [done|]. change (k + sum_list (replicate n k) = S n * k)%nat. rewrite IH. lia.
Qed.

Lemma chunk i p : pages !! i = Some p → field image (i * PACKED_PAGE_BYTES) PACKED_PAGE_BYTES = pp_bytes p.
Proof.
  intros Hp. pose proof Hp as (g & Hg & E & Fg & _)%page_of_group. apply lookup_lt_Some in Hg as Hi.
  pose proof (field_layout (pp_bytes <$> pages) _ i (pp_bytes p) length_pages_bytes) as Hl.
  rewrite list_lookup_fmap, Hp in Hl. specialize (Hl eq_refl). rewrite take_replicate, sum_replicate in Hl.
  rewrite Nat.min_l in Hl by lia. rewrite E, length_the_page in Hl by done. by rewrite E.
Qed.

Lemma decode_pages_back n : ∀ ordinal previous,
  (ordinal + n)%nat = length gss →
  (∀ key g, previous = Some key → gss !! ordinal = Some g → klt key (first_key g)) →
  decode_pages n ordinal generation previous image = Ok (drop ordinal pages).
Proof.
  induction n as [|n IH]; intros ordinal previous Hn Hprev; cbn [decode_pages].
  { rewrite drop_ge; [done|]. unfold pages_of. rewrite length_imap. lia. }
  destruct (lookup_lt_is_Some_2 gss ordinal) as [g Hg]; [lia|].
  assert (pages !! ordinal = Some (the_page generation (Z.of_nat ordinal) g)) as Hp by (apply list_lookup_imap_Some; eauto).
  pose proof Hp as (g' & Hg' & _ & Fg & Sg)%page_of_group. replace g' with g in * by congruence.
  assert (is_u32 (Z.of_nat ordinal)) as Ho by packed_lia.
  assert (u32_try_from (Z.of_nat ordinal) = Some (Z.of_nat ordinal)) as -> by (apply u32_try_from_Some; packed_lia). cbn [ok_or].
  rewrite (chunk _ _ Hp), page_decode_back, first_key_back, last_key_back by done.
  assert (out_of_order previous (first_key g) = false) as ->.
  { destruct previous as [key|]; [|done]. cbn. apply key_ge_false. by apply Hprev. }
  rewrite IH; [|lia|].
  - by rewrite <-(drop_S _ _ _ Hp).
  - intros key h [= <-] Hh. eapply groups_ordered; [|done..]. lia.
Qed.

Lemma decode_range_back : decode_range image generation = Ok (packed_range generation gss).
Proof.
  assert (length image = length gss * PACKED_PAGE_BYTES)%nat as Hl.
  { by rewrite length_concat_fields, length_pages_bytes, sum_replicate. }
  unfold decode_range. rewrite Hl, Nat.Div0.mod_mul, Nat.div_mul by done. cbn [Nat.eqb negb].
  rewrite decode_pages_back by (done || lia). rewrite drop_0. unfold packed_range. rewrite length_pages_of. do 2 f_equal.
  - f_equal; [|unfold len at 1; rewrite Hl; packed_lia].
    assert (∀ ps (gs : list (list Entry)), Forall2 (λ p g, page_entry_count p = len g) ps gs → foldr Z.add 0 (page_entry_count <$> ps) = len (concat gs)) as Hall.
    { induction 1 as [|p g ps gs Hp _ IH]; cbn; [done|]. by rewrite Hp, IH, len_app. }
    apply Hall, Forall2_same_length_lookup_2; [unfold pages_of; by rewrite length_imap|].
    intros i p g Hp Hg. apply page_of_group in Hp as (g' & Hg' & -> & Hf & Hs). replace g' with g in * by congruence.
    by apply page_count_back.
Qed.

Lemma decode_range_stale other :
  gss ≠ [] → other ≠ generation →
  decode_range image other = Err (corruption_error "packed page identity mismatch").
Proof.
  intros Hne Ho. assert (length image = length gss * PACKED_PAGE_BYTES)%nat as Hl.
  { by rewrite length_concat_fields, length_pages_bytes, sum_replicate. }
  unfold decode_range. rewrite Hl, Nat.Div0.mod_mul, Nat.div_mul by done. cbn [Nat.eqb negb].
  destruct (pages !! 0%nat) as [p|] eqn:Hp.
  2:{ apply lookup_ge_None in Hp. unfold pages_of in Hp. rewrite length_imap in Hp. destruct gss; [done|cbn in Hp; lia]. }
  replace (length gss) with (S (pred (length gss))) by (destruct gss; [done|cbn; lia]). cbn [decode_pages].
  rewrite (chunk 0 p) by done. apply page_of_group in Hp as (g & Hg & -> & Hf & Hs).
  change (ok_or (u32_try_from (Z.of_nat 0)) (DbInvalidState "too many packed pages")) with (Ok 0 : result Z DbError).
  cbv beta match. by rewrite page_decode_stale.
Qed.
End lookup.

Lemma pages_full generation gss :
  Forall fits gss → Forall (λ p, length (pp_bytes p) = PACKED_PAGE_BYTES) (pages_of generation gss).
Proof.
  intros Hf. apply Forall_lookup_2. intros i p (g & Hi & ->)%list_lookup_imap_Some.
  apply length_the_page. exact (Forall_lookup_1 _ _ _ _ Hf Hi).
Qed.

(** ** Packing succeeds *)
Lemma fold_entry_bytes es : 0 ≤ foldr Z.add 0 (entry_bytes <$> es).
Proof.
  induction es as [|e es IH]; [done|]. rewrite fmap_cons. cbn [foldr]. unfold entry_bytes at 1. pose proof (len_nonneg e.2). packed_lia.
Qed.

Lemma pack_loop_total generation budget es : ∀ position previous gss current used,
  room current → Forall fits gss → wf_entries es → Forall (λ e, entry_bytes e ≤ 4032) es → sorted_from previous es →
  position + len es ≤ max_entries budget → 0 ≤ used → used + foldr Z.add 0 (entry_bytes <$> es) ≤ max_bytes budget →
  max_bytes budget ≤ U64_MAX → len gss + len es < max_pages budget → len gss + len es ≤ U32_MAX →
  is_ok (pack_loop generation budget position previous (pages_of generation gss) current used es) = true.
Proof.
  induction es as [|[key value] es IH]; intros position previous gss current used Hr Hg Hw Hsz Hs Hpos Hu Hb Hm Hp H32;
    cbn [pack_loop]; [done|].
  apply Forall_cons in Hw as [Hk Hw], Hsz as [He Hsz]. destruct Hs as [Ho Hs]. cbn [fst] in Ho. rewrite Ho.
  rewrite fmap_cons in Hb. cbn [foldr] in Hb. pose proof (fold_entry_bytes es) as Hf.
  set (e := (key, value)) in *. change (entry_bytes e) with (Z.of_nat ENTRY_HEADER_BYTES + len value) in *.
  pose proof (len_nonneg value) as Hv.
  rewrite (proj2 (checked_add_Some _ (len value) _)) by (split; [reflexivity|packed_lia]). cbn [ok_or].
  rewrite (proj2 (Z.ltb_ge _ _)) by packed_lia. rewrite (proj2 (Z.leb_gt _ _)) by packed_lia.
  rewrite (proj2 (checked_add_Some used _ _)) by (split; [reflexivity|lia]).
  rewrite (proj2 (Z.ltb_ge _ _)) by lia. change (Z.of_nat ENTRY_HEADER_BYTES + len value) with (entry_bytes e).
  destruct (if negb _ && _ then _ else _) as [[pages1 current1]|err] eqn:Epl.
  - apply place_entry in Epl as (gss1 & -> & Hg1 & _ & _ & _ & Hl1 & Hf1); [|done..|exact He|packed_lia|packed_lia].
    change (entry_bytes e) with (Z.of_nat ENTRY_HEADER_BYTES + len value).
    apply IH; try done; [by right|packed_lia..].
  - exfalso. revert Epl. destruct (negb _ && _) eqn:Ec; [|done]. apply andb_prop in Ec as [Ec _]. bool_to_prop.
    destruct Hr as [?|Hfc]; [done|].
    rewrite (proj2 (push_page_Ok generation gss current _ (proj1 (proj2 Hfc)))) by (split_and!; [done|packed_lia|reflexivity]).
    rewrite length_pages_of, len_app. by rewrite (proj2 (Z.leb_gt _ _)) by packed_lia.
Qed.

Lemma length_groups gss : Forall fits gss → len gss ≤ len (concat gss).
Proof.
  induction 1 as [|g gss (Hne & _ & _) _ IH]; [done|]. cbn [concat]. rewrite len_app. destruct g; [done|]. packed_lia.
Qed.

Lemma pack_sorted_total generation es :
  wf_entries es → entries_sorted es → Forall (λ e, entry_bytes e ≤ 4032) es → len es ≤ U32_MAX →
  ∃ r, pack_sorted generation es budget_unlimited = Ok r.
Proof.
  intros Hw Hs Hsz Hl. unfold pack_sorted. cbn [budget_unlimited max_pages max_entries max_bytes].
  rewrite (proj2 (Z.ltb_ge _ _)) by packed_lia. cbn [Z.eqb orb U64_MAX].
  assert (foldr Z.add 0 (entry_bytes <$> es) ≤ 4032 * len es) as Hsum.
  { clear -Hsz. induction Hsz as [|e es He _ IH]; [done|]. rewrite fmap_cons. cbn [foldr]. packed_lia. }
  pose proof (pack_loop_total generation budget_unlimited es 0 None [] [] 0 ltac:(by left) ltac:(constructor) Hw Hsz
    ltac:(by apply sorted_from_sorted)) as Ht. cbn [budget_unlimited max_pages max_entries max_bytes pages_of imap] in Ht.
  destruct (pack_loop generation _ 0 None [] [] 0 es) as [[pages current]|e] eqn:El.
  2:{ exfalso. discriminate Ht; cbn [app]; packed_lia. }
  change (@nil PackedPage) with (pages_of generation []) in El.
  apply pack_loop_spec in El as (gss & -> & Hg & Hr & Hc & _ & _ & _ & _);
    [|constructor|by left|done|cbn; packed_lia..].
  case_bool_decide as Hcur; [by eexists|]. destruct Hr as [?|Hf]; [done|].
  erewrite (proj2 (push_page_Ok generation gss current _ (proj1 (proj2 Hf)))); [by eexists|]. split_and!; [done| |reflexivity].
  pose proof (length_groups gss Hg) as Hlg. cbn [concat app] in Hc. rewrite <-Hc, len_app in Hl. packed_lia.
Qed.
End pages.

(** ** The file *)
Section file.
Context {F : Type} `{FaultInjector F}.
Implicit Types (faults : F).

Lemma db_io_inv {A} operation (c : Fs * result A IoErrorKind) fs r :
  db_io operation c = (fs, r) → ∃ r', c = (fs, r') ∧ is_ok r = is_ok r'.
Proof. destruct c as [fs' [a|e]]; intros [= <- <-]; by eexists. Qed.

(** A write at the end of the file appends a prefix of its bytes, all of them when
    it succeeds. *)
Lemma page_append_cases k bs fs fs' r f :
  BTreeMap.get k (fs_files fs) = Some f → fs_write_at k (length (f_bytes f)) bs fs = (fs', r) →
  ∃ f' written, BTreeMap.get k (fs_files fs') = Some f' ∧ f_bytes f' = f_bytes f ++ written ∧ written `prefix_of` bs ∧
    (is_ok r = true → written = bs).
Proof.
  intros Hg Hw. apply (fs_write_at_cases _ _ _ _ _ _ _ Hg) in Hw as (written & -> & Hr). eexists _, written.
  rewrite BTreeMap.get_insert_eq. split_and!; [done|apply splice_end|destruct Hr as [[-> ->]|[Hr [n ->]]]..]; try done.
  - apply prefix_take.
  - by rewrite Hr.
Qed.

Lemma short_write k bs n pages operation fs fs' r (error : DbError) f :
  BTreeMap.get k (fs_files fs) = Some f →
  db_io operation (fs_write_at k (length (f_bytes f)) (take n bs) fs) = (fs', r) →
  ∃ f' written, BTreeMap.get k (fs_files fs') = Some f' ∧ f_bytes f' = f_bytes f ++ written ∧
    written `prefix_of` bs ++ pages ∧ (is_ok (let? _ := r in Err error : result unit DbError) = true → written = bs ++ pages).
Proof.
  intros Hg (r' & Hw & Hr)%db_io_inv. apply page_append_cases in Hw as (f' & written & Hg' & Hf' & Hp & _); [|done].
  exists f', written. split_and!; try done.
  - etrans; [exact Hp|]. etrans; [apply prefix_take|by apply prefix_app_r].
  - by destruct r.
Qed.

(** Whatever fails, the file holds a prefix of the pages, all of them when the loop
    succeeds. *)
Lemma write_pages_cases k pages : ∀ faults fs faults' fs' r f,
  Forall (λ p, length (pp_bytes p) = PACKED_PAGE_BYTES) pages → BTreeMap.get k (fs_files fs) = Some f →
  write_pages k (length (f_bytes f)) pages faults fs = (fs', faults', r) →
  ∃ f' written, BTreeMap.get k (fs_files fs') = Some f' ∧ f_bytes f' = f_bytes f ++ written ∧
    written `prefix_of` concat (pp_bytes <$> pages) ∧ (is_ok r = true → written = concat (pp_bytes <$> pages)).
Proof.
  induction pages as [|page pages IH]; intros faults fs faults' fs' r f Hl Hg; cbn [write_pages].
  { intros [= <- <- <-]. exists f, []. by rewrite app_nil_r. }
  apply Forall_cons in Hl as [Hp Hl]. rewrite fmap_cons. cbn [concat].
  destruct (fault_check ShortWrite faults) as [faults1 [[]|error]].
  2:{ destruct (db_io _ _) as [fs1 r1] eqn:Ew. intros [= <- <- <-]. by eapply short_write. }
  destruct (fault_check TornWrite faults1) as [faults2 [[]|error]].
  2:{ destruct (db_io _ _) as [fs1 r1] eqn:Ew. intros [= <- <- <-]. by eapply short_write. }
  destruct (db_io _ _) as [fs1 r1] eqn:Ew. apply db_io_inv in Ew as (r' & Ew & Hr).
  apply page_append_cases in Ew as (f1 & w1 & Hg1 & Hf1 & Hp1 & Hw1); [|done]. rewrite <-Hr in Hw1. destruct r1 as [[]|error].
  - rewrite (Hw1 eq_refl) in Hf1. rewrite <-Hp, <-length_app, <-Hf1. intros Ht.
    apply IH in Ht as (f' & written & Hg' & Hf' & Hpre & Hall); [|done..]. exists f', (pp_bytes page ++ written).
    rewrite Hf', Hf1, <-app_assoc. split_and!; try done; [by apply prefix_app|]. intros Hok. by rewrite (Hall Hok).
  - intros [= <- <- <-]. exists f1, w1. split_and!; try done. by apply prefix_app_r.
Qed.

Lemma fs_create_cases k fs fs' r :
  fs_create k fs = (fs', r) →
  fs_files fs' = fs_files fs ∧ is_ok r = false ∨ BTreeMap.get k (fs_files fs') = Some {| f_bytes := []; f_synced := 0 |} ∧ r = Ok ().
Proof.
  unfold fs_create. destruct (fs_check fs) as [fs1 [[]|e]] eqn:E; apply fs_check_files in E; intros [= <- <-]; [right|by left].
  cbn. by rewrite BTreeMap.get_insert_eq.
Qed.

Lemma range_write_cases r k faults fs faults' fs' res :
  Forall (λ p, length (pp_bytes p) = PACKED_PAGE_BYTES) (pk_pages r) →
  range_write r k faults fs = (fs', faults', res) →
  match res with
  | Ok n => n = rp_bytes (pk_report r) ∧ ∃ f, BTreeMap.get k (fs_files fs') = Some f ∧
      f_bytes f = concat (pp_bytes <$> pk_pages r) ∧ f_synced f = length (f_bytes f)
  | Err _ => fs_files fs' = fs_files fs ∨
      ∃ f, BTreeMap.get k (fs_files fs') = Some f ∧ f_bytes f `prefix_of` concat (pp_bytes <$> pk_pages r)
  end.
Proof.
  intros Hl. unfold range_write. destruct (db_io _ (fs_create k fs)) as [fs1 r1] eqn:Ec.
  apply db_io_inv in Ec as (r' & Ec & Hr). apply fs_create_cases in Ec as [[Hf Hr']|[Hg ->]].
  { rewrite Hr' in Hr. destruct r1; [done|]. intros [= <- <- <-]. by left. }
  destruct r1 as [[]|]; [|done]. destruct (write_pages _ _ _ _ _) as [[fs2 faults2] r2] eqn:Ew.
  apply (write_pages_cases _ _ _ _ _ _ _ _ Hl Hg) in Ew as (f2 & w & Hg2 & Hf2 & Hp & Hw). cbn [f_bytes app] in Hf2. subst w.
  destruct r2 as [[]|]; [|intros [= <- <- <-]; right; by exists f2]. specialize (Hw eq_refl).
  destruct (fault_check PackedPageSync faults2) as [faults3 [[]|error]]; [|intros [= <- <- <-]; right; by exists f2].
  destruct (db_io _ _) as [fs3 r3] eqn:Es. apply db_io_inv in Es as (r' & Es & Hr3).
  apply fs_sync_file_cases in Es as [[Hf Hr']|[-> (f & Hg3 & Hf)]].
  - rewrite Hr' in Hr3. destruct r3; [done|]. intros [= <- <- <-]. right. exists f2. by rewrite Hf.
  - destruct r3 as [[]|]; [|done]. intros [= <- <- <-]. split; [done|]. rewrite Hf, BTreeMap.get_insert_eq.
    eexists. split; [done|]. rewrite Hg2 in Hg3. injection Hg3 as ->. by split.
Qed.
End file.

(** ** The properties *)
Section properties.
Context `{Crc32c}.

(** C27. A packed range is the map of its entries.  Packing under any budget, when it
    succeeds, was given keys in strictly increasing order and returns a range whose
    pages hold exactly these entries in this order; a lookup by key, through the
    binary search over the pages' key ranges, finds the value of the key or nothing;
    and the report counts the entries and keeps the page and entry budgets.  Without
    a budget, packing succeeds on every sorted input whose entries fit a page. *)
Theorem packed_range_is_a_map generation es budget :
  wf_entries es → wf_budget budget →
  (∀ r, pack_sorted generation es budget = Ok r →
     entries_sorted es ∧ range_entries r = Ok es ∧
     (∀ key, ∃ found, range_get r key = Ok found ∧ ∀ v, found = Some v ↔ (key, v) ∈ es) ∧
     rp_entries (pk_report r) = len es ∧ len es ≤ max_entries budget ∧
     rp_pages (pk_report r) = len (pk_pages r) ∧ len (pk_pages r) ≤ max_pages budget) ∧
  (entries_sorted es → Forall (λ e, entry_bytes e ≤ 4032) es → len es ≤ U32_MAX →
   ∃ r, pack_sorted generation es budget_unlimited = Ok r).
Proof.
  intros Hw Hb. split; [|by intros; apply pack_sorted_total].
  intros r (gss & -> & Hf & <- & Hs & Hc & Hp & He)%pack_sorted_spec; [|done..].
  split_and!; try done; cbn [packed_range pk_pages pk_report rp_pages]; rewrite ?length_pages_of; try done.
  - by apply pages_entries_back.
  - intros key. exists (find_entry key (concat gss)). split; [by apply range_get_back|].
    intros v. by apply find_entry_Some.
Qed.

(** C36. A packed range survives its file.  Whatever fails or is injected while a range
    is written, the file is left alone or holds a prefix of the range's pages.  When
    the write reports success, a crash that keeps the file's directory entry keeps
    the whole range: reading it under its generation returns the range that was
    packed, with its report and checksum, and reading it under another generation is
    refused unless it has no pages. *)
Theorem packed_range_survives {F} `{FaultInjector F} generation es budget r k faults fs fs' faults' res :
  wf_entries es → wf_budget budget → is_u64 generation →
  pack_sorted generation es budget = Ok r →
  range_write r k faults fs = (fs', faults', res) →
  match res with
  | Ok n =>
      n = rp_bytes (pk_report r) ∧
      ∃ f, BTreeMap.get k (fs_files fs') = Some f ∧
        ∀ f2 fs2, file_crash f f2 → BTreeMap.get k (fs_files fs2) = Some f2 → fs_faults fs2 = [] →
          range_read k generation fs2 = (fs2, Ok r) ∧
          ∀ other, other ≠ generation → pk_pages r ≠ [] →
            range_read k other fs2 = (fs2, Err (corruption_error "packed page identity mismatch"))
  | Err _ =>
      fs_files fs' = fs_files fs ∨
      ∃ f, BTreeMap.get k (fs_files fs') = Some f ∧ f_bytes f `prefix_of` concat (pp_bytes <$> pk_pages r)
  end.
Proof.
  intros Hw Hb Hgen (gss & -> & Hf & <- & Hs & Hc & _ & _)%pack_sorted_spec Hwr; [|done..].
  apply range_write_cases in Hwr; [|by apply pages_full]. destruct res as [n|e]; [|done].
  destruct Hwr as (-> & f & Hg & Hbs & Hsy). split; [done|]. exists f. split; [done|].
  intros f2 fs2 (m & Hm & Hb2 & _) Hg2 Hfl. rewrite take_ge in Hb2 by lia.
  assert (∀ g, range_read k g fs2 = (fs2, decode_range (f_bytes f2) g)) as Hread.
  { intros g. unfold range_read. rewrite fs_check_ok by done. unfold BTreeMap.contains_key. rewrite Hg2. cbn.
    by rewrite (fs_read_ok _ _ _ Hfl Hg2). }
  rewrite Hb2, Hbs in Hread. split; [rewrite Hread; f_equal; by apply decode_range_back|].
  intros other Ho Hne. rewrite Hread. f_equal. apply decode_range_stale; try done. by intros ->.
Qed.
End properties.

(** An armed point fails at its first check and never again. *)
Lemma fail_once_fires point points (f : FailOnce) :
  point ∈ points →
  (fault_check point (FailOnce_at points)).2 = Err (DbInjectedFailure point) ∧
  (point ∈ fo_fired f → fault_check point f = (f, Ok tt)).
Proof.
  intros Hp. unfold fault_check, fail_once. split.
  - rewrite bool_decide_eq_true_2 by by apply elem_of_remove_dups. by rewrite bool_decide_eq_false_2 by apply not_elem_of_nil.
  - intros Hf. rewrite (bool_decide_eq_true_2 (point ∈ fo_fired f)) by done. by rewrite andb_false_r.
Qed.

(** ** Examples: two pages, a file that existed before, a short write *)
Definition pk_demo_entry (k : Z) (n : nat) : Entry := (replicate 16 (u8 k), replicate n (u8 7)).
Definition pk_demo_entries : list Entry := [pk_demo_entry 1 2000; pk_demo_entry 2 2000].
Definition pk_demo_budget : PackBudget := {| max_pages := 2; max_entries := 2; max_bytes := 4096 |}.
Definition pk_demo_range : PackedRange :=
  match pack_sorted (H := castagnoli_crc) 5 pk_demo_entries pk_demo_budget with
  | Ok r => r
  | Err _ => {| pk_generation := 0; pk_pages := []; pk_report := {| rp_pages := 0; rp_entries := 0; rp_bytes := 0 |}; pk_checksum := 0 |}
  end.
Definition pk_demo_disk : Fs := {| fs_files := [(3, {| f_bytes := [u8 9]; f_synced := 1 |})]; fs_faults := [] |}.
Definition pk_demo_written : Fs := (range_write pk_demo_range 3 Build_NoFaults pk_demo_disk).1.1.

Lemma pk_demo_packed : pack_sorted (H := castagnoli_crc) 5 pk_demo_entries pk_demo_budget = Ok pk_demo_range.
Proof. vm_compute. reflexivity. Qed.

Lemma pk_demo_write : range_write pk_demo_range 3 Build_NoFaults pk_demo_disk = (pk_demo_written, Build_NoFaults, Ok 8192).
Proof. vm_compute. reflexivity. Qed.

Lemma pk_demo_wf : wf_entries pk_demo_entries ∧ wf_budget pk_demo_budget.
Proof. split; [repeat constructor|split; cbn; unfold is_u64; lia]. Qed.

Lemma packed_range_is_a_map_witness :
  len (pk_pages pk_demo_range) = 2 ∧ range_entries pk_demo_range = Ok pk_demo_entries.
Proof.
  split; [vm_compute; reflexivity|].
  destruct (packed_range_is_a_map (H := castagnoli_crc) 5 pk_demo_entries pk_demo_budget) as [Hp _];
    [apply pk_demo_wf..|]. apply (Hp _ pk_demo_packed).
Defined.

Lemma packed_range_survives_witness :
  is_ok (range_write pk_demo_range 3 Build_NoFaults pk_demo_disk).2 = true ∧
  range_read (H := castagnoli_crc) 3 5 pk_demo_written = (pk_demo_written, Ok pk_demo_range).
Proof.
  split; [vm_compute; reflexivity|].
  pose proof (packed_range_survives (H := castagnoli_crc) 5 pk_demo_entries pk_demo_budget pk_demo_range 3 Build_NoFaults
    pk_demo_disk pk_demo_written Build_NoFaults (Ok 8192) (proj1 pk_demo_wf) (proj2 pk_demo_wf)
    ltac:(unfold is_u64; lia) pk_demo_packed pk_demo_write) as (_ & f & Hf & Hr).
  apply (Hr f); [|done|vm_compute; reflexivity]. exists (Nat.max (f_synced f) (length (f_bytes f))).
  split_and!; [lia|by rewrite take_ge by lia|done].
Defined.

(** The byte budget bounds the entries and not the pages.  Two entries of 2021
    bytes keep a budget of 4096 bytes, the least [pack_sorted] accepts, and pack into
    two pages: the report says 8192 bytes. *)
Theorem byte_budget_is_not_kept :
  ∃ r, pack_sorted (H := castagnoli_crc) 5 pk_demo_entries pk_demo_budget = Ok r ∧
    max_bytes pk_demo_budget = Z.of_nat PACKED_PAGE_BYTES ∧ rp_bytes (pk_report r) = 2 * max_bytes pk_demo_budget ∧
    foldr Z.add 0 (entry_bytes <$> pk_demo_entries) ≤ max_bytes pk_demo_budget.
Proof. exists pk_demo_range. split; [apply pk_demo_packed|]. by vm_compute. Qed.
