(* ===== verification/TreeShape.v ===== *)
(** * The shape of a B-link tree

    The abstract tree behind the pages of [TreeV4.v]: nodes with a level and a lower
    bound, which no page stores, and the fence, link and entries each page does.
    Parents may lack separators for recently split children; right links still
    reach them.  The lemmas show that the invariant survives every page the code
    writes: a leaf update, either half of a split, a separator added to a parent
    and a promoted root. *)
From Stdlib Require Import String.
From S2P Require Import Prelude StdCollections Ids PageV4 PageSpec PageUpdate KeyOrder.

Local Open Scope list_scope.
Local Open Scope Z_scope.
Local Open Scope seer_scope.

Inductive NodeBody :=
| LeafBody (es : list LeafEntry)
| InternalBody (leftmost : PageId) (es : list InternalEntry).

Record Node := {
  n_level : nat;
  n_low : bytes;
  n_high : option bytes;
  n_right : option PageId;
  n_body : NodeBody
}.

Definition node_page (N : Node) : Page :=
  match n_body N with
  | LeafBody es => leaf_page (n_high N) (n_right N) es
  | InternalBody leftmost es => internal_page (n_high N) (n_right N) leftmost es
  end.

Definition below (key : bytes) (high : option bytes) : Prop :=
  match high with Some h => klt key h | None => True end.
Definition covers (N : Node) (key : bytes) : Prop := kle (n_low N) key ∧ below key (n_high N).

#[global] Instance below_dec key high : Decision (below key high).
Proof. unfold below. destruct high; apply _. Defined.
#[global] Instance covers_dec N key : Decision (covers N key).
Proof. unfold covers. apply _. Defined.

Definition node_keys (N : Node) : list bytes :=
  match n_body N with LeafBody es => es.*1 | InternalBody _ es => es.*1 end.

(** Children with the lower bound each must have. *)
Definition node_children (N : Node) : list (bytes * PageId) :=
  match n_body N with
  | LeafBody _ => []
  | InternalBody leftmost es => (n_low N, leftmost) :: es
  end.

Abbreviation Tree := (gmap PageId Node).

(** Page [p] exists at [level] with lower bound [low]. *)
Definition node_at (T : Tree) (p : PageId) (level : nat) (low : bytes) : Prop :=
  ∃ N, T !! p = Some N ∧ n_level N = level ∧ n_low N = low.

Record node_wf (T : Tree) (N : Node) : Prop := {
  nw_page : page_wf (node_page N);
  nw_level : match n_body N with LeafBody _ => n_level N = 0%nat | InternalBody _ _ => n_level N ≠ 0%nat end;
  nw_keys : Forall (covers N) (node_keys N);
  nw_right : match n_high N, n_right N with
             | Some h, Some r => klt (n_low N) h ∧ node_at T r (n_level N) h
             | None, None => True
             | _, _ => False
             end;
  nw_children : Forall (λ kc, ∃ l, n_level N = S l ∧ node_at T kc.2 l kc.1) (node_children N)
}.

Definition before (A B : Node) : Prop := ∃ h, n_high A = Some h ∧ kle h (n_low B).

Record tree_wf (T : Tree) (root next : PageId) : Prop := {
  tw_nodes p N : T !! p = Some N → node_wf T N ∧ 0 ≤ p < next;
  tw_next : next ≤ U64_MAX;
  tw_root : ∃ N, T !! root = Some N ∧ n_low N = [] ∧
                 ∀ p N', T !! p = Some N' → (n_level N' ≤ n_level N)%nat;
  tw_disjoint p q A B : T !! p = Some A → T !! q = Some B → n_level A = n_level B → p ≠ q →
                        before A B ∨ before B A
}.

(** ** Searching *)
Section searching.
Context (T : Tree) (root next : PageId) (Hwf : tree_wf T root next).

Lemma low_below p N : T !! p = Some N → below (n_low N) (n_high N).
Proof.
  intros Hp. destruct (tw_nodes _ _ _ Hwf p N Hp) as [[_ _ _ Hr _] _]. unfold below.
  destruct (n_high N), (n_right N); try done. tauto.
Qed.

Lemma before_not_covers A B key : before A B → covers A key → covers B key → False.
Proof.
  intros (h & Hh & Hle) [_ H1] [H2 _]. unfold below in H1. rewrite Hh in H1. korder.
Qed.

Lemma covers_unique p q A B key :
  T !! p = Some A → T !! q = Some B → n_level A = n_level B → covers A key → covers B key → p = q.
Proof.
  intros Hp Hq Hl Ha Hb. destruct (decide (p = q)) as [|Hne]; [done|]. exfalso.
  destruct (tw_disjoint _ _ _ Hwf p q A B Hp Hq Hl Hne) as [H|H]; eapply before_not_covers in H; eauto.
Qed.

Lemma covers_low p N : T !! p = Some N → covers N (n_low N).
Proof. intros Hp. split; [korder|]. by eapply low_below. Qed.

Lemma right_node p N h r key :
  T !! p = Some N → n_high N = Some h → n_right N = Some r → kle h key →
  ∃ R, T !! r = Some R ∧ n_level R = n_level N ∧ n_low R = h ∧ klt (n_low N) (n_low R).
Proof.
  intros Hp Hh Hr Hk. destruct (tw_nodes _ _ _ Hwf p N Hp) as [[_ _ _ Hright _] _].
  rewrite Hh, Hr in Hright. destruct Hright as (Hlt & R & HR & Hl & Hlow).
  exists R. split_and!; [done..|]. by rewrite Hlow.
Qed.

Lemma route_node leftmost es key low :
  keys_sorted es → kle low key →
  ∃ k, (k, route leftmost es key) ∈ (low, leftmost) :: es ∧ kle k key.
Proof.
  revert leftmost low. induction es as [|[k c] es IH]; intros leftmost low Hs Hlow; cbn [route].
  { exists low. split; [by constructor|done]. }
  destruct (key_cmp key k) eqn:E.
  - apply key_cmp_eq in E as ->. destruct (IH c k) as (k' & Hin & Hk'); [by inversion_clear Hs|korder|].
    exists k'. split; [by constructor|done].
  - exists low. split; [by constructor|done].
  - apply key_cmp_gt in E. destruct (IH c k) as (k' & Hin & Hk'); [by inversion_clear Hs|korder|].
    exists k'. split; [by constructor|done].
Qed.

Lemma child_node p N leftmost es key :
  T !! p = Some N → n_body N = InternalBody leftmost es → covers N key →
  ∃ C, T !! route leftmost es key = Some C ∧ n_level N = S (n_level C) ∧ kle (n_low C) key.
Proof.
  intros Hp Hb [Hlow _]. destruct (tw_nodes _ _ _ Hwf p N Hp) as [[(_ & _ & Hs) _ _ _ Hc] _].
  unfold node_page, node_children in *. rewrite Hb in *. cbn [p_entries internal_page] in Hs.
  apply map_sorted in Hs. destruct (route_node leftmost es key (n_low N) Hs Hlow) as (k & Hin & Hk).
  rewrite Forall_forall in Hc. destruct (Hc _ Hin) as (l & Hl & C & HC & HCl & HClow). cbn [fst snd] in *.
  exists C. split_and!; [done|congruence|congruence].
Qed.

(** A child's range lies within that of any parent-level page covering one of its keys. *)
Lemma nested p q A B key s :
  T !! p = Some A → T !! q = Some B → n_level A = S (n_level B) → covers A key → covers B key →
  covers B s → covers A s.
Proof.
  intros Hp Hq Hl Ha Hb Hs. destruct (tw_nodes _ _ _ Hwf p A Hp) as [HA _].
  assert (∀ C r, T !! r = Some C → n_level C = n_level B → kle (n_low C) key → kle (n_low C) s) as Hlow.
  { intros C r HC HCl HCk. destruct (decide (r = q)) as [->|Hne].
    { rewrite Hq in HC. injection HC as <-. apply Hs. }
    destruct (tw_disjoint _ _ _ Hwf r q C B HC Hq HCl Hne) as [(h & Hh & Hle)|(h & Hh & Hle)].
    - pose proof (low_below r C HC) as HCb. rewrite Hh in HCb. destruct Hs as [Hs1 _]. cbn in HCb. korder.
    - destruct Hb as [_ Hb]. rewrite Hh in Hb. cbn in Hb. korder. }
  assert (∀ C r, T !! r = Some C → n_level C = n_level B → klt key (n_low C) → klt s (n_low C)) as Hhigh.
  { intros C r HC HCl HCk. destruct (decide (r = q)) as [->|Hne].
    { rewrite Hq in HC. injection HC as <-. destruct Hb as [Hb _]. korder. }
    destruct (tw_disjoint _ _ _ Hwf r q C B HC Hq HCl Hne) as [(h & Hh & Hle)|(h & Hh & Hle)].
    - pose proof (low_below r C HC) as HCb. rewrite Hh in HCb. destruct Hb as [Hb _]. cbn in HCb. korder.
    - destruct Hs as [_ Hs]. rewrite Hh in Hs. cbn in Hs. korder. }
  assert (∀ N r, T !! r = Some N → n_level N = S (n_level B) →
            ∃ C c, T !! c = Some C ∧ n_level C = n_level B ∧ n_low C = n_low N) as Hfirst.
  { intros N r HN HNl. destruct (tw_nodes _ _ _ Hwf r N HN) as [[_ Hlv _ _ Hc] _].
    unfold node_children in Hc. destruct (n_body N) as [es|leftmost es]; [lia|].
    apply Forall_cons in Hc as [(l & Hl' & C & HC & HCl & HClow) _]. cbn [fst snd] in *.
    exists C, leftmost. split_and!; [done|lia|done]. }
  split.
  - destruct (Hfirst A p Hp Hl) as (C & c & HC & HCl & HClow). rewrite <-HClow. apply (Hlow C c HC HCl).
    rewrite HClow. apply Ha.
  - destruct HA as [_ _ _ Hr _]. destruct (n_high A) as [h|] eqn:Eh; [|done]. destruct (n_right A) as [r|]; [|done].
    destruct Hr as (_ & R & HR & HRl & HRlow). destruct (Hfirst R r HR ltac:(lia)) as (C & c & HC & HCl & HClow).
    unfold below. rewrite <-HRlow, <-HClow. apply (Hhigh C c HC HCl). destruct Ha as [_ Ha]. rewrite Eh in Ha.
    cbn in Ha. by rewrite HClow, HRlow.
Qed.
End searching.

(** ** Changes *)

(** Everything a page refers to is still where it was. *)
Definition shape_le (T T' : Tree) : Prop :=
  ∀ p N, T !! p = Some N → node_at T' p (n_level N) (n_low N).

Lemma node_at_mono T T' p l low : shape_le T T' → node_at T p l low → node_at T' p l low.
Proof. intros Hle (N & HN & <- & <-). by apply Hle. Qed.

Lemma node_wf_mono T T' N : shape_le T T' → node_wf T N → node_wf T' N.
Proof.
  intros Hle [H1 H2 H3 H4 H5]. split; try done.
  - destruct (n_high N), (n_right N); try done. destruct H4. split; [done|by eapply node_at_mono].
  - eapply Forall_impl; [exact H5|]. cbn. intros kc (l & Hl & Hat). exists l. split; [done|by eapply node_at_mono].
Qed.

(** The same page with other entries. *)
Definition with_body (N : Node) (body : NodeBody) : Node :=
  {| n_level := n_level N; n_low := n_low N; n_high := n_high N; n_right := n_right N; n_body := body |}.

Lemma update_shape T p N N' :
  T !! p = Some N → n_level N' = n_level N → n_low N' = n_low N → shape_le T (<[p := N']> T).
Proof.
  intros Hp Hl Hlow q M Hq. unfold node_at. destruct (decide (p = q)) as [->|Hne].
  - rewrite Hp in Hq. injection Hq as <-. exists N'. by rewrite lookup_insert_eq.
  - exists M. by rewrite lookup_insert_ne.
Qed.

Lemma update_wf T root next p N body :
  tree_wf T root next → T !! p = Some N → node_wf T (with_body N body) →
  tree_wf (<[p := with_body N body]> T) root next.
Proof.
  intros Hwf Hp Hn. pose proof (update_shape T p N (with_body N body) Hp eq_refl eq_refl) as Hle.
  assert (∀ q M, <[p := with_body N body]> T !! q = Some M →
            ∃ M0, T !! q = Some M0 ∧ n_level M0 = n_level M ∧ n_low M0 = n_low M ∧ n_high M0 = n_high M) as Hback.
  { intros q M. destruct (decide (p = q)) as [->|Hne].
    - rewrite lookup_insert_eq. intros [= <-]. by exists N.
    - rewrite lookup_insert_ne by done. intros Hq. by exists M. }
  split.
  - intros q M Hq. destruct (decide (p = q)) as [->|Hne].
    + rewrite lookup_insert_eq in Hq. injection Hq as <-. split; [by eapply node_wf_mono|].
      apply (tw_nodes _ _ _ Hwf q N Hp).
    + rewrite lookup_insert_ne in Hq by done. destruct (tw_nodes _ _ _ Hwf q M Hq). split; [by eapply node_wf_mono|done].
  - apply Hwf.
  - destruct (tw_root _ _ _ Hwf) as (R & HR & Hlow & Hmax). destruct (Hle _ _ HR) as (R' & HR' & HRl & HRlow).
    exists R'. split_and!; [done|congruence|]. intros q M Hq. destruct (Hback q M Hq) as (M0 & HM0 & HMl & _).
    rewrite HRl, <-HMl. by eapply Hmax.
  - intros q r A B HA HB Hl Hne. destruct (Hback q A HA) as (A0 & HA0 & HAl & HAlow & HAh).
    destruct (Hback r B HB) as (B0 & HB0 & HBl & HBlow & HBh).
    destruct (tw_disjoint _ _ _ Hwf q r A0 B0 HA0 HB0) as [H|H]; [congruence|done|left|right];
      unfold before in *; rewrite ?HAlow, ?HBlow, ?HAh, ?HBh in H; done.
Qed.

(** What concerns a page's own entries. *)
Definition body_wf (T : Tree) (N : Node) : Prop :=
  page_wf (node_page N) ∧
  match n_body N with LeafBody _ => n_level N = 0%nat | InternalBody _ _ => n_level N ≠ 0%nat end ∧
  Forall (covers N) (node_keys N) ∧
  Forall (λ kc, ∃ l, n_level N = S l ∧ node_at T kc.2 l kc.1) (node_children N).

Lemma body_wf_node T T' N :
  shape_le T T' → body_wf T N →
  match n_high N, n_right N with
  | Some h, Some r => klt (n_low N) h ∧ node_at T' r (n_level N) h
  | None, None => True
  | _, _ => False
  end → node_wf T' N.
Proof.
  intros Hle (H1 & H2 & H3 & H4) Hr. split; try done.
  eapply Forall_impl; [exact H4|]. cbn. intros kc (l & Hl & Hat). exists l. split; [done|by eapply node_at_mono].
Qed.

(** The halves of a split at [s]; the new page is [r]. *)
Definition left_half (N : Node) (s : bytes) (r : PageId) (body : NodeBody) : Node :=
  {| n_level := n_level N; n_low := n_low N; n_high := Some s; n_right := Some r; n_body := body |}.
Definition right_half (N : Node) (s : bytes) (body : NodeBody) : Node :=
  {| n_level := n_level N; n_low := s; n_high := n_high N; n_right := n_right N; n_body := body |}.

Definition split_tree (T : Tree) (p : PageId) (N : Node) (s : bytes) (r : PageId) (bl br : NodeBody) : Tree :=
  <[r := right_half N s br]> (<[p := left_half N s r bl]> T).

Section split.
Context (T : Tree) (root next p : PageId) (N : Node) (s : bytes) (bl br : NodeBody).
Hypothesis Hwf : tree_wf T root next.
Hypothesis Hp : T !! p = Some N.
Hypothesis Hs : klt (n_low N) s ∧ below s (n_high N).
#[local] Abbreviation T' := (split_tree T p N s next bl br).

Lemma next_fresh : T !! next = None.
Proof. destruct (T !! next) as [M|] eqn:E; [|done]. apply (tw_nodes _ _ _ Hwf) in E as [_ ?]. lia. Qed.

Lemma split_lookup q M :
  T' !! q = Some M →
  q = next ∧ M = right_half N s br ∨ q = p ∧ M = left_half N s next bl ∨ q ≠ p ∧ q ≠ next ∧ T !! q = Some M.
Proof.
  clear Hwf Hp Hs. unfold split_tree. destruct (decide (q = next)) as [->|H1]; [rewrite lookup_insert_eq; naive_solver|].
  rewrite lookup_insert_ne by done. destruct (decide (q = p)) as [->|H2]; [rewrite lookup_insert_eq; naive_solver|].
  rewrite lookup_insert_ne by done. tauto.
Qed.

Lemma split_shape : shape_le T T'.
Proof.
  intros q M Hq. unfold node_at, split_tree. destruct (decide (q = next)) as [->|H1].
  { by rewrite next_fresh in Hq. }
  rewrite lookup_insert_ne by done. destruct (decide (q = p)) as [->|H2].
  - rewrite Hp in Hq. injection Hq as <-. exists (left_half N s next bl). by rewrite lookup_insert_eq.
  - exists M. by rewrite lookup_insert_ne.
Qed.

(** A page that is disjoint from [N] is disjoint from both halves. *)
Lemma before_halves M :
  (before N M → before (left_half N s next bl) M ∧ before (right_half N s br) M) ∧
  (before M N → before M (left_half N s next bl) ∧ before M (right_half N s br)).
Proof.
  destruct Hs as [Hs1 Hs2]. unfold before. cbn. split.
  - intros (h & Hh & Hle). rewrite Hh in Hs2. cbn in Hs2. split; [exists s; split; [done|korder]|by exists h].
  - intros (h & Hh & Hle). split; exists h; (split; [done|]); korder.
Qed.

Lemma split_wf :
  next < U64_MAX → body_wf T (left_half N s next bl) → body_wf T (right_half N s br) →
  tree_wf T' root (next + 1).
Proof.
  intros Hnext HL HR. pose proof split_shape as Hle. destruct (tw_nodes _ _ _ Hwf p N Hp) as [HN Hpn].
  assert (T' !! next = Some (right_half N s br)) as HnR by (unfold split_tree; by rewrite lookup_insert_eq).
  split.
  - intros q M [[-> ->]|[[-> ->]|(H1 & H2 & Hq)]]%split_lookup.
    + split; [|lia]. eapply body_wf_node; [done|done|]. cbn. destruct HN as [_ _ _ Hr _].
      destruct (n_high N) as [h|], (n_right N) as [r|]; try done. destruct Hr as [_ Hr].
      split; [apply Hs|by eapply node_at_mono].
    + split; [|lia]. eapply body_wf_node; [done|done|]. cbn. split; [apply Hs|]. by exists (right_half N s br).
    + destruct (tw_nodes _ _ _ Hwf q M Hq) as [HM ?]. split; [by eapply node_wf_mono|lia].
  - lia.
  - destruct (tw_root _ _ _ Hwf) as (R & HRt & Hlow & Hmax). destruct (Hle _ _ HRt) as (R' & HR' & HRl & HRlow).
    exists R'. split_and!; [done|congruence|]. rewrite HRl.
    intros q M [[-> ->]|[[-> ->]|(H1 & H2 & Hq)]]%split_lookup; cbn; [by eapply Hmax..|by eapply Hmax].
  - assert (∀ q M, q ≠ p → T !! q = Some M → n_level M = n_level N →
              (before (left_half N s next bl) M ∧ before (right_half N s br) M) ∨
              (before M (left_half N s next bl) ∧ before M (right_half N s br))) as Hother.
    { intros q M Hqp Hq Hl. destruct (before_halves M) as [Hb1 Hb2].
      destruct (tw_disjoint _ _ _ Hwf q p M N Hq Hp Hl Hqp) as [H|H]; tauto. }
    assert (before (left_half N s next bl) (right_half N s br)) as Hlr by (exists s; split; [done|cbn; korder]).
    intros q r A B [[-> ->]|[[-> ->]|(Hq1 & Hq2 & Hq)]]%split_lookup
      [[-> ->]|[[-> ->]|(Hr1 & Hr2 & Hr)]]%split_lookup Hl Hne; try done; try tauto.
    + destruct (Hother r B Hr1 Hr); [by cbn in Hl|tauto..].
    + destruct (Hother r B Hr1 Hr); [by cbn in Hl|tauto..].
    + destruct (Hother q A Hq1 Hq); [by cbn in Hl|tauto..].
    + destruct (Hother q A Hq1 Hq); [by cbn in Hl|tauto..].
    + by eapply (tw_disjoint _ _ _ Hwf q r).
Qed.
End split.

(** *** A promoted root *)
Definition root_node (level : nat) (root : PageId) (s : bytes) (right_id : PageId) : Node :=
  {| n_level := S level; n_low := []; n_high := None; n_right := None;
     n_body := InternalBody root [(s, right_id)] |}.

Lemma promote_wf T root next R s right_id :
  tree_wf T root next → next < U64_MAX → T !! root = Some R → node_at T right_id (n_level R) s →
  page_wf (node_page (root_node (n_level R) root s right_id)) →
  tree_wf (<[next := root_node (n_level R) root s right_id]> T) next (next + 1).
Proof.
  intros Hwf Hnext HR Hat Hpage. pose proof (next_fresh _ _ _ Hwf) as Hfresh.
  destruct (tw_root _ _ _ Hwf) as (R' & HR' & Hlow & Hmax). rewrite HR in HR'. injection HR' as <-.
  assert (shape_le T (<[next := root_node (n_level R) root s right_id]> T)) as Hle.
  { intros q M Hq. exists M. rewrite lookup_insert_ne by congruence. done. }
  destruct (tw_nodes _ _ _ Hwf root R HR) as [_ Hrn].
  split.
  - intros q M Hq. destruct (decide (next = q)) as [<-|Hne].
    + rewrite lookup_insert_eq in Hq. injection Hq as <-. split; [|lia].
      split; [done|done| |done|].
      * cbn. constructor; [|constructor]. split; [apply kle_nil|done].
      * cbn. constructor; [|constructor; [|constructor]]; exists (n_level R); (split; [done|]).
        -- destruct (Hle _ _ HR) as (M & HM & HMl & HMlow). exists M. cbn. by rewrite HMlow.
        -- by eapply node_at_mono.
    + rewrite lookup_insert_ne in Hq by done. destruct (tw_nodes _ _ _ Hwf q M Hq) as [HM ?].
      split; [by eapply node_wf_mono|lia].
  - lia.
  - exists (root_node (n_level R) root s right_id). rewrite lookup_insert_eq. split_and!; [done..|].
    intros q M Hq. destruct (decide (next = q)) as [<-|Hne].
    + rewrite lookup_insert_eq in Hq. by injection Hq as <-.
    + rewrite lookup_insert_ne in Hq by done. apply Hmax in Hq. cbn. lia.
  - assert (∀ q M, T !! q = Some M → n_level M ≠ S (n_level R)) as Hlev.
    { intros q M Hq%Hmax. lia. }
    intros q r A B Hq Hr Hl Hne. destruct (decide (next = q)) as [<-|H1], (decide (next = r)) as [<-|H2]; [done| | |].
    + rewrite lookup_insert_eq in Hq. injection Hq as <-. rewrite lookup_insert_ne in Hr by done. apply Hlev in Hr.
      cbn in Hl. congruence.
    + rewrite lookup_insert_eq in Hr. injection Hr as <-. rewrite lookup_insert_ne in Hq by done. apply Hlev in Hq.
      cbn in Hl. congruence.
    + rewrite lookup_insert_ne in Hq, Hr by done. by eapply (tw_disjoint _ _ _ Hwf q r).
Qed.

(** *** Entries of halves *)
Lemma wf_app {V} (l1 l2 : list (bytes * V)) :
  keys_sorted (l1 ++ l2) ↔
  keys_sorted l1 ∧ keys_sorted l2 ∧ ∀ a b, a ∈ l1 → b ∈ l2 → klt a.1 b.1.
Proof.
  unfold BTreeMap.wf. induction l1 as [|x l1 IH]; cbn [app].
  { split; [intros H; split_and!; [constructor|done|]|tauto]. intros a b []%elem_of_nil. }
  split.
  - intros Hs. inversion_clear Hs as [|? ? Hs' Hx]. apply IH in Hs' as (H1 & H2 & H3).
    apply Forall_app in Hx as [Hx1 Hx2]. split_and!; [by constructor|done|].
    intros a b [->|Ha]%elem_of_cons Hb; [|by apply H3]. rewrite Forall_forall in Hx2. by apply Hx2.
  - intros (H1 & H2 & H3). inversion_clear H1 as [|? ? H1' Hx]. constructor.
    + apply IH. split_and!; [done..|]. intros a b Ha Hb. apply H3; [by constructor|done].
    + apply Forall_app. split; [done|]. apply Forall_forall. intros b Hb. apply H3; [by constructor|done].
Qed.

Lemma head_above {V} (l1 l2 : list (bytes * V)) low k v :
  keys_sorted (l1 ++ (k, v) :: l2) → l1 ≠ [] → Forall (λ e, kle low e.1) l1 → klt low k.
Proof.
  intros (_ & _ & Hlt)%wf_app Hne Hlow. destruct l1 as [|e l1]; [done|].
  apply Forall_cons in Hlow as [Hlow _].
  pose proof (Hlt e (k, v) ltac:(by constructor) ltac:(by constructor)). cbn in *. korder.
Qed.

(** The keys of the halves lie in their ranges. *)
Lemma half_keys {V} (N : Node) (l1 l2 : list (bytes * V)) k v r bl br :
  keys_sorted (l1 ++ (k, v) :: l2) → Forall (covers N) (l1 ++ (k, v) :: l2).*1 →
  Forall (covers (left_half N k r bl)) l1.*1 ∧ Forall (covers (right_half N k br)) (k :: l2.*1).
Proof.
  intros (_ & Hs2 & Hlt)%wf_app. rewrite fmap_app, Forall_app, fmap_cons, Forall_cons. cbn [fst].
  intros (Hc1 & Hck & Hc2). split.
  - apply Forall_forall. intros x (e & -> & He)%list_elem_of_fmap. rewrite Forall_forall in Hc1.
    destruct (Hc1 e.1) as [H1 _]; [by apply list_elem_of_fmap_2|]. split; [done|].
    apply (Hlt e (k, v) He). by constructor.
  - constructor; [split; [cbn; korder|apply Hck]|]. apply Forall_forall.
    intros x (e & -> & He)%list_elem_of_fmap. rewrite Forall_forall in Hc2.
    destruct (Hc2 e.1) as [_ H2]; [by apply list_elem_of_fmap_2|]. split; [|done]. cbn.
    inversion_clear Hs2 as [|? ? _ Hx]. rewrite Forall_forall in Hx. specialize (Hx e He). cbn in Hx.
    change (klt k e.1) in Hx. korder.
Qed.

Section halves.
Context (T : Tree) (N : Node) (next : PageId).
Hypothesis Hnext : page_id_ok next.

Lemma links_right N' : page_wf (node_page N') →
  match n_high N', n_right N' with
  | Some _, Some r => page_id_ok r
  | None, None => True
  | _, _ => False
  end.
Proof. intros ([_ Hr] & _). unfold node_page in Hr. by destruct (n_body N'). Qed.

Lemma leaf_halves l1 k v l2 :
  node_wf T (with_body N (LeafBody (l1 ++ (k, v) :: l2))) → l1 ≠ [] →
  (klt (n_low N) k ∧ below k (n_high N)) ∧
  body_wf T (left_half N k next (LeafBody l1)) ∧ body_wf T (right_half N k (LeafBody ((k, v) :: l2))).
Proof.
  intros [Hpg Hlv Hk _ _] Hne. pose proof (links_right _ Hpg) as Hr.
  destruct Hpg as (_ & Hp & Hs). cbn in Hp, Hs, Hlv. apply map_sorted in Hs.
  unfold node_keys in Hk. cbn [n_body with_body] in Hk.
  destruct (half_keys N l1 l2 k v next (LeafBody l1) (LeafBody ((k, v) :: l2)) Hs Hk) as [Hk1 Hk2].
  pose proof Hk as Hk'. rewrite fmap_app, Forall_app in Hk'. destruct Hk' as [Hlow Hk'].
  rewrite map_app, Forall_app in Hp. destruct Hp as [Hp1 Hp2].
  split; [split|].
  - eapply head_above; [done..|]. apply Forall_forall. intros e He. rewrite Forall_forall in Hlow.
    apply (Hlow e.1). by apply list_elem_of_fmap_2.
  - apply Forall_cons in Hk' as [[_ Hk'] _]. done.
  - apply wf_app in Hs as (Hs1 & Hs2 & _). split; (split; [|split; [done|split; [done|constructor]]]).
    + split; [done|]. split; [done|]. by apply map_sorted.
    + split; [done|]. split; [done|]. by apply (map_sorted EncodedLeaf ((k, v) :: l2)).
Qed.

Lemma internal_halves c0 l1 k c l2 :
  node_wf T (with_body N (InternalBody c0 (l1 ++ (k, c) :: l2))) → l1 ≠ [] →
  (klt (n_low N) k ∧ below k (n_high N)) ∧
  body_wf T (left_half N k next (InternalBody c0 l1)) ∧ body_wf T (right_half N k (InternalBody c l2)).
Proof.
  intros [Hpg Hlv Hk _ Hc] Hne. pose proof (links_right _ Hpg) as Hr.
  destruct Hpg as ([Hl0 _] & Hp & Hs). cbn in Hp, Hs, Hlv, Hl0. apply map_sorted in Hs.
  unfold node_keys, node_children in *. cbn [n_body with_body n_low n_level] in *.
  destruct (half_keys N l1 l2 k c next (InternalBody c0 l1) (InternalBody c l2) Hs Hk) as [Hk1 Hk2].
  apply Forall_cons in Hk2 as [_ Hk2].
  pose proof Hk as Hk'. rewrite fmap_app, Forall_app in Hk'. destruct Hk' as [Hlow Hk'].
  rewrite map_app, Forall_app in Hp. destruct Hp as [Hp1 [[_ Hpc] Hp2]%Forall_cons].
  apply Forall_cons in Hc as [Hc0 [Hc1 [Hcc Hc2]%Forall_cons]%Forall_app].
  split; [split|].
  - eapply head_above; [done..|]. apply Forall_forall. intros e He. rewrite Forall_forall in Hlow.
    apply (Hlow e.1). by apply list_elem_of_fmap_2.
  - apply Forall_cons in Hk' as [[_ Hk'] _]. done.
  - apply wf_app in Hs as (Hs1 & Hs2 & _). split; (split; [|split; [done|split; [done|by constructor]]]).
    + split; [done|]. split; [done|]. by apply map_sorted.
    + split; [done|]. split; [done|]. apply (map_sorted EncodedChild l2). by inversion_clear Hs2.
Qed.
End halves.

(** *** New entries *)
Lemma insert_Forall {V} (R : bytes * V → Prop) k v es :
  Forall R es → R (k, v) → Forall R (BTreeMap.insert k v es).
Proof.
  intros He Hk. apply Forall_forall. intros p [->|Hp]%BTreeMap.elem_insert; [done|]. rewrite Forall_forall in He. auto.
Qed.

Lemma leaf_insert_wf T N es key v :
  node_wf T N → n_body N = LeafBody es → covers N key → len key ≤ U16_MAX → payload_ok KindLeaf (EncodedLeaf v) →
  node_wf T (with_body N (LeafBody (BTreeMap.insert key v es))).
Proof.
  intros [(Hlk & Hp & Hs) Hlv Hk Hr _] Hb Hc Hkl Hpl. unfold node_page, node_keys in *. rewrite Hb in *.
  cbn in Hp, Hs. apply map_sorted in Hs. split; [split; [done|split]| | | |]; cbn; try done.
  - rewrite Forall_map in Hp |- *. by apply insert_Forall.
  - apply map_sorted. by apply BTreeMap.insert_wf.
  - rewrite Forall_fmap in Hk |- *. by apply insert_Forall.
Qed.

Lemma leaf_remove_wf T N es key :
  node_wf T N → n_body N = LeafBody es → node_wf T (with_body N (LeafBody (BTreeMap.remove key es))).
Proof.
  intros [(Hlk & Hp & Hs) Hlv Hk Hr _] Hb. unfold node_page, node_keys in *. rewrite Hb in *.
  cbn in Hp, Hs. apply map_sorted in Hs.
  assert (∀ R : LeafEntry → Prop, Forall R es → Forall R (BTreeMap.remove key es)) as Hrm.
  { intros R HR. rewrite Forall_forall in HR |- *. intros p Hp'%BTreeMap.elem_remove. auto. }
  split; [split; [done|split]| | | |]; cbn; try done.
  - rewrite Forall_map in Hp |- *. by apply Hrm.
  - apply map_sorted. by apply BTreeMap.remove_wf.
  - rewrite Forall_fmap in Hk |- *. by apply Hrm.
Qed.

Lemma separator_wf T N c0 es s right_id l :
  node_wf T N → n_body N = InternalBody c0 es → covers N s → len s ≤ U16_MAX →
  page_id_ok right_id → n_level N = S l → node_at T right_id l s →
  node_wf T (with_body N (InternalBody c0 (BTreeMap.insert s right_id es))).
Proof.
  intros [(Hlk & Hp & Hs) Hlv Hk Hr Hc] Hb Hcs Hsl Hid Hl Hat. unfold node_page, node_keys, node_children in *.
  rewrite Hb in *. cbn in Hp, Hs. apply map_sorted in Hs. split; [split; [done|split]| | | |]; cbn; try done.
  - rewrite Forall_map in Hp |- *. by apply insert_Forall.
  - apply map_sorted. by apply BTreeMap.insert_wf.
  - rewrite Forall_fmap in Hk |- *. by apply insert_Forall.
  - apply Forall_cons in Hc as [Hc0 Hc]. constructor; [done|]. apply insert_Forall; [done|]. exists l. done.
Qed.

(** ** The map a tree stands for *)
Definition in_leaf (T : Tree) (key : bytes) (v : LeafValue) : Prop :=
  ∃ p N es, T !! p = Some N ∧ n_body N = LeafBody es ∧ BTreeMap.get key es = Some v.

Definition tree_map (T : Tree) (m : list LeafEntry) : Prop :=
  keys_sorted m ∧ ∀ key v, BTreeMap.get key m = Some v ↔ in_leaf T key v.

Lemma get_covers T root next p N es key v :
  tree_wf T root next → T !! p = Some N → n_body N = LeafBody es → BTreeMap.get key es = Some v → covers N key.
Proof.
  intros Hwf Hp Hb Hg. destruct (tw_nodes _ _ _ Hwf p N Hp) as [[_ _ Hk _ _] _]. unfold node_keys in Hk. rewrite Hb in Hk.
  rewrite Forall_forall in Hk. apply Hk. apply BTreeMap.get_elem in Hg. by apply (list_elem_of_fmap_2 fst) in Hg.
Qed.

Lemma leaf_level T root next p N es :
  tree_wf T root next → T !! p = Some N → n_body N = LeafBody es → n_level N = 0%nat.
Proof. intros Hwf Hp Hb. destruct (tw_nodes _ _ _ Hwf p N Hp) as [[_ Hl _ _ _] _]. by rewrite Hb in Hl. Qed.

(** A leaf that covers a key knows about it. *)
Lemma tree_map_leaf T root next m p N es key :
  tree_wf T root next → tree_map T m → T !! p = Some N → n_body N = LeafBody es → covers N key →
  BTreeMap.get key m = BTreeMap.get key es.
Proof.
  intros Hwf [_ Hm] Hp Hb Hc. destruct (BTreeMap.get key es) as [v|] eqn:Eg.
  { apply Hm. by exists p, N, es. }
  destruct (BTreeMap.get key m) as [v|] eqn:Em; [|done]. apply Hm in Em as (q & M & es' & Hq & Hb' & Hg).
  pose proof (get_covers _ _ _ _ _ _ _ _ Hwf Hq Hb' Hg) as Hc'.
  assert (p = q) as <-.
  { eapply covers_unique; [done..| |done|done]. by rewrite (leaf_level _ _ _ _ _ _ Hwf Hp Hb), (leaf_level _ _ _ _ _ _ Hwf Hq Hb'). }
  rewrite Hp in Hq. injection Hq as <-. rewrite Hb in Hb'. injection Hb' as <-. congruence.
Qed.

Lemma in_leaf_update T p N es es' key v :
  T !! p = Some N → n_body N = LeafBody es →
  in_leaf (<[p := with_body N (LeafBody es')]> T) key v ↔
  BTreeMap.get key es' = Some v ∨ ∃ q M es0, q ≠ p ∧ T !! q = Some M ∧ n_body M = LeafBody es0 ∧ BTreeMap.get key es0 = Some v.
Proof.
  intros Hp Hb. unfold in_leaf. split.
  - intros (q & M & es0 & Hq & HM & Hg). destruct (decide (p = q)) as [<-|Hne].
    + rewrite lookup_insert_eq in Hq. injection Hq as <-. cbn in HM. injection HM as <-. by left.
    + rewrite lookup_insert_ne in Hq by done. right. by eexists q, M, es0.
  - intros [Hg|(q & M & es0 & Hne & Hq & HM & Hg)].
    + exists p, (with_body N (LeafBody es')), es'. by rewrite lookup_insert_eq.
    + exists q, M, es0. by rewrite lookup_insert_ne.
Qed.

(** The entries the other leaves hold are not about a key [p] covers. *)
Lemma other_leaf T root next p q N M es es0 key v :
  tree_wf T root next → T !! p = Some N → n_body N = LeafBody es → covers N key →
  T !! q = Some M → n_body M = LeafBody es0 → BTreeMap.get key es0 = Some v → p = q.
Proof.
  intros Hwf Hp Hb Hc Hq Hb0 Hg. eapply covers_unique; [done..| |done|].
  - by rewrite (leaf_level _ _ _ _ _ _ Hwf Hp Hb), (leaf_level _ _ _ _ _ _ Hwf Hq Hb0).
  - by eapply get_covers.
Qed.

(** Changing what a leaf says about one key changes the map there. *)
Lemma update_map T root next m m' p N es es' key :
  tree_wf T root next → tree_map T m → T !! p = Some N → n_body N = LeafBody es → covers N key →
  keys_sorted m' → BTreeMap.get key m' = BTreeMap.get key es' →
  (∀ k, k ≠ key → BTreeMap.get k m' = BTreeMap.get k m ∧ BTreeMap.get k es' = BTreeMap.get k es) →
  tree_map (<[p := with_body N (LeafBody es')]> T) m'.
Proof.
  intros Hwf Hm Hp Hb Hc Hs' Hkey Hother. split; [done|]. intros k v. rewrite (in_leaf_update _ _ _ _ _ _ _ Hp Hb).
  destruct (decide (k = key)) as [->|Hne].
  - rewrite Hkey. split; [by left|]. intros [|(q & M & es0 & Hqp & Hq & Hb0 & Hg)]; [done|].
    exfalso. apply Hqp. symmetry. by eapply (other_leaf T root next p q).
  - destruct (Hother k Hne) as [-> ->]. destruct Hm as [_ Hm]. rewrite Hm. unfold in_leaf. split.
    + intros (q & M & es0 & Hq & Hb0 & Hg). destruct (decide (q = p)) as [->|]; [|right; by exists q, M, es0].
      rewrite Hp in Hq. injection Hq as <-. rewrite Hb in Hb0. injection Hb0 as <-. by left.
    + intros [Hg|(q & M & es0 & _ & Hq & Hb0 & Hg)]; [by exists p, N, es|by exists q, M, es0].
Qed.

Lemma leaf_insert_map T root next m p N es key v :
  tree_wf T root next → tree_map T m → T !! p = Some N → n_body N = LeafBody es → covers N key →
  tree_map (<[p := with_body N (LeafBody (BTreeMap.insert key v es))]> T) (BTreeMap.insert key v m).
Proof.
  intros Hwf Hm Hp Hb Hc. eapply update_map; try done.
  - apply BTreeMap.insert_wf, Hm.
  - by rewrite !BTreeMap.get_insert_eq.
  - intros k Hne. by rewrite !BTreeMap.get_insert_ne by done.
Qed.

Lemma leaf_remove_map T root next m p N es key :
  tree_wf T root next → tree_map T m → T !! p = Some N → n_body N = LeafBody es → covers N key →
  tree_map (<[p := with_body N (LeafBody (BTreeMap.remove key es))]> T) (BTreeMap.remove key m).
Proof.
  intros Hwf Hm Hp Hb Hc. assert (keys_sorted es) as Hs.
  { destruct (tw_nodes _ _ _ Hwf p N Hp) as [[(_ & _ & Hs) _ _ _ _] _]. unfold node_page in Hs. rewrite Hb in Hs.
    by apply map_sorted in Hs. }
  eapply update_map; try done.
  - apply BTreeMap.remove_wf, Hm.
  - rewrite !BTreeMap.get_remove_eq; [done|done|apply Hm].
  - intros k Hne. by rewrite !BTreeMap.get_remove_ne by done.
Qed.

Lemma tree_map_ext T T' m :
  (∀ k v, in_leaf T k v ↔ in_leaf T' k v) → tree_map T m → tree_map T' m.
Proof. intros He [Hs Hm]. split; [done|]. intros k v. by rewrite Hm. Qed.

Lemma get_app {V} (l1 l2 : list (bytes * V)) k :
  BTreeMap.get k (l1 ++ l2) = match BTreeMap.get k l1 with Some v => Some v | None => BTreeMap.get k l2 end.
Proof. induction l1 as [|[k' v'] l1 IH]; [done|]. cbn [app BTreeMap.get]. by destruct (cmp k k'). Qed.

Lemma split_map T root next m p N s l1 l2 :
  tree_wf T root next → T !! p = Some N → n_body N = LeafBody (l1 ++ l2) → keys_sorted (l1 ++ l2) →
  tree_map T m → tree_map (split_tree T p N s next (LeafBody l1) (LeafBody l2)) m.
Proof.
  intros Hwf Hp Hb Hs. pose proof (next_fresh _ _ _ Hwf) as Hf. apply tree_map_ext. intros k v.
  assert (BTreeMap.get k (l1 ++ l2) = Some v ↔ BTreeMap.get k l1 = Some v ∨ BTreeMap.get k l2 = Some v) as Hg.
  { rewrite get_app. destruct (BTreeMap.get k l1) as [v1|] eqn:E1; [|naive_solver].
    split; [by left|]. intros [|E2]; [done|]. exfalso. apply wf_app in Hs as (_ & _ & Hlt).
    apply BTreeMap.get_elem in E1, E2. specialize (Hlt _ _ E1 E2). cbn in Hlt. korder. }
  assert (p ≠ next) as Hpn by congruence.
  unfold in_leaf, split_tree. split.
  - intros (q & M & es & Hq & HM & Hgk). destruct (decide (q = p)) as [->|Hqp].
    + rewrite Hp in Hq. injection Hq as <-. rewrite Hb in HM. injection HM as <-.
      apply Hg in Hgk as [Hgk|Hgk].
      * exists p, (left_half N s next (LeafBody l1)), l1. by rewrite lookup_insert_ne, lookup_insert_eq.
      * exists next, (right_half N s (LeafBody l2)), l2. by rewrite lookup_insert_eq.
    + exists q, M, es. by rewrite !lookup_insert_ne by congruence.
  - intros (q & M & es & Hq & HM & Hgk). apply split_lookup in Hq as [[-> ->]|[[-> ->]|(H1 & H2 & Hq)]]; cbn in HM.
    + injection HM as <-. exists p, N, (l1 ++ l2). naive_solver.
    + injection HM as <-. exists p, N, (l1 ++ l2). naive_solver.
    + by exists q, M, es.
Qed.

(** Changes above the leaves leave the map alone. *)
Lemma insert_internal_map T m p N c es :
  (∀ M es', T !! p = Some M → n_body M ≠ LeafBody es') → n_body N = InternalBody c es →
  tree_map T m → tree_map (<[p := N]> T) m.
Proof.
  intros Hp HN. apply tree_map_ext. intros k v. unfold in_leaf. split.
  - intros (q & M & es' & Hq & HM & Hg). exists q, M, es'. rewrite lookup_insert_ne; [done|]. intros <-. by eapply Hp.
  - intros (q & M & es' & Hq & HM & Hg). exists q, M, es'. destruct (decide (p = q)) as [<-|Hne].
    + rewrite lookup_insert_eq in Hq. congruence.
    + by rewrite lookup_insert_ne in Hq.
Qed.
