(* ===== verification/TreeV4.v ===== *)
(** * The B-link tree

    Models [crates/seerdb/src/vnext/btree/tree_v4.rs], [btree/preflight.rs] and
    [btree/cursor_v4.rs] over the buffer-pool interface of [PageBuffer.v].  An
    operation threads the pool, the object's metadata and the page dependency
    table; guards are released where Rust drops them.  Retry loops take fuel and
    answer [None] when it runs out; [TreeSpec.v] shows that one round is enough
    while no other thread changes the tree.  The binary searches of the source over
    an entry vector are [BTreeMap] operations, which they agree with on the sorted
    vectors pages hold. *)
From Stdlib Require Import String.
From S2P Require Import Prelude StdCollections Ids Buffer PageBuffer PageDependency PageV4.

Local Open Scope string_scope.
Local Open Scope list_scope.
Local Open Scope Z_scope.
Local Open Scope seer_scope.

Definition MAX_ROUTING_DEPTH : nat := 128.
Definition RESERVED_PAGE_ID : PageId := U64_MAX.

Inductive BTreeLookup :=
| LookupFound (value : bytes)
| LookupBlob (pointer : BlobPointer)
| LookupDeleted
| LookupNotFound.

Inductive BTreeError :=
| BTreeBuffer (e : BufferError)
| BTreePageDependency (e : PageDependencyError)
| BTreeCorruption (page : PageId) (reason : PageError)
| RoutingDepthExceeded
| DuplicateKey
| PageIdExhausted
| InvalidObjectMetadata (root next_page : PageId)
| StructuralLockPoisoned
| EntryTooLarge.

Record ObjectMetadata := { om_root : PageId; om_next_page : PageId }.

(** [bt_poisoned]: whether the structural mutex is poisoned. *)
Record BTreeObject := {
  bt_descriptor : StorageObjectDescriptor;
  bt_root : PageId;
  bt_next_page : PageId;
  bt_poisoned : bool
}.

Definition page_error {A} (page : PageId) (r : result A PageError) : result A BTreeError :=
  map_err (BTreeCorruption page) r.

(** [str::contains] *)
Definition str_contains (needle s : string) : bool :=
  match String.index 0 needle s with Some _ => true | None => false end.

Definition map_build_error (page : PageId) (e : PageError) : BTreeError :=
  if str_contains "does not fit" e || str_contains "slot length" e then EntryTooLarge
  else BTreeCorruption page e.

Definition leaf_capacity_error (e : PageError) : bool :=
  String.eqb e "slot array does not fit page" || String.eqb e "entry heap does not fit page"
  || String.eqb e "page does not fit encoded entries".

Definition validate_inline_entry (key value : bytes) : result unit BTreeError :=
  if (U16_MAX <? len key) || (U16_MAX <? len value) then Err EntryTooLarge else Ok tt.

Definition page_key (t : BTreeObject) (page : PageId) : PageKey :=
  {| pk_object := od_id (bt_descriptor t); pk_page := page |}.

(** [BTreeObject::open] *)
Definition tree_open (descriptor : StorageObjectDescriptor) (root next_page : PageId)
    : result BTreeObject BTreeError :=
  if (root =? RESERVED_PAGE_ID) || (next_page =? RESERVED_PAGE_ID) then Err PageIdExhausted
  else if next_page <=? root then Err (InvalidObjectMetadata root next_page)
  else Ok {| bt_descriptor := descriptor; bt_root := root; bt_next_page := next_page;
             bt_poisoned := false |}.

Definition tree_metadata (t : BTreeObject) : ObjectMetadata :=
  {| om_root := bt_root t; om_next_page := bt_next_page t |}.

(** What a value in a leaf looks like to a reader. *)
Definition leaf_lookup (v : LeafValue) : BTreeLookup :=
  match v with
  | LeafInline value => LookupFound value
  | LeafBlob pointer => LookupBlob pointer
  | LeafTombstone => LookupDeleted
  end.

Definition lookup_value (page_id : PageId) (p : PageRef) (index : Z) : result BTreeLookup BTreeError :=
  let? v := page_error page_id (page_value p index) in
  Ok (leaf_lookup v).

(** [upsert_leaf_entry] *)
Definition upsert_leaf_entry (entries : list LeafEntry) (key value : bytes) : list LeafEntry :=
  BTreeMap.insert key (LeafInline value) entries.

(** ** Operations *)
(** The pool, the object and the dependency table an operation works on. *)
Record World (B : Type) := { w_buffer : B; w_tree : BTreeObject; w_deps : PageDependencyTable }.
Arguments w_buffer {B} _.
Arguments w_tree {B} _.
Arguments w_deps {B} _.

Section tree.
Context {B G : Type} `{Hpb : PageBuffer B G} `{Hph : PageHasher}.
#[local] Abbreviation World := (World B).

Definition with_buffer (b : B) (w : World) : World :=
  {| w_buffer := b; w_tree := w_tree w; w_deps := w_deps w |}.
Definition with_deps (s : PageDependencyTable) (w : World) : World :=
  {| w_buffer := w_buffer w; w_tree := w_tree w; w_deps := s |}.
Definition with_tree (t : BTreeObject) (w : World) : World :=
  {| w_buffer := w_buffer w; w_tree := t; w_deps := w_deps w |}.

(** A buffer operation whose error is converted by [?]. *)
Definition on_buffer {A} (f : B → B * result A BufferError) (w : World) : World * result A BTreeError :=
  let '(b, r) := f (w_buffer w) in (with_buffer b w, map_err BTreeBuffer r).

Definition drop_guards (gs : list G) (w : World) : World :=
  with_buffer (fold_left (λ b g, pb_drop g b) gs (w_buffer w)) w.

(** [let guard = buffer.pin(key)?; let bytes = guard.read()?; ...] *)
Definition read_page {A} (page : PageId) (f : bytes → result A BTreeError) (w : World)
    : World * result A BTreeError :=
  do? (w, g) := on_buffer (pb_pin (page_key (w_tree w) page)) w in
  (drop_guards [g] w, let? bytes := map_err BTreeBuffer (pb_read g (w_buffer w)) in f bytes).

(** [let guard = buffer.pin(key)?; let mut bytes = guard.write()?; ...]; the body
    answers with the guards that are dropped between [bytes] and [guard]. *)
Definition update_page {A} (page : PageId)
    (body : G → bytes → World → World * list G * result A BTreeError) (w : World)
    : World * result A BTreeError :=
  do? (w, g) := on_buffer (pb_pin (page_key (w_tree w) page)) w in
  match on_buffer (pb_write g) w with
  | (w, Err e) => (drop_guards [g] w, Err e)
  | (w, Ok _) =>
      let '(w, gs, r) :=
        match pb_read g (w_buffer w) with
        | Ok bytes => body g bytes w
        | Err e => (w, [], Err (BTreeBuffer e))
        end in
      (drop_guards (gs ++ [g]) (with_buffer (pb_unlatch g (w_buffer w)) w), r)
  end.

(** [bytes.copy_from_slice(image)], or the end of an in-place change. *)
Definition store (g : G) (image : bytes) (w : World) : World :=
  with_buffer (pb_put g image (w_buffer w)) w.

Definition allocate_page (w : World) : World * result PageId BTreeError :=
  let t := w_tree w in
  let observed := bt_next_page t in
  if observed =? RESERVED_PAGE_ID then (w, Err PageIdExhausted)
  else
    match checked_add observed 1 with
    | None => (w, Err PageIdExhausted)
    | Some next =>
        (with_tree {| bt_descriptor := bt_descriptor t; bt_root := bt_root t; bt_next_page := next;
                      bt_poisoned := bt_poisoned t |} w, Ok observed)
    end.

Definition set_root (root : PageId) (w : World) : World :=
  let t := w_tree w in
  with_tree {| bt_descriptor := bt_descriptor t; bt_root := root; bt_next_page := bt_next_page t;
               bt_poisoned := bt_poisoned t |} w.

Definition merge_dependency (page : PageId) (required : PageDependencies) (w : World)
    : World * result PageDependencies BTreeError :=
  let '(s, r) := dependency_merge (w_deps w) (page_key (w_tree w) page) required in
  (with_deps s w, map_err BTreePageDependency r).

Definition page_requirements (page : PageId) (w : World) : result PageDependencies BTreeError :=
  map_err BTreePageDependency (requirements (w_deps w) (page_key (w_tree w) page)).

Definition attach_operation_dependency (dependency : option PageDependencies) (page : PageId)
    (w : World) : World * result (option PageDependencies) BTreeError :=
  match dependency with
  | None => (w, Ok None)
  | Some required =>
      do? (w, m) := merge_dependency page required w in
      (w, Ok (Some m))
  end.

(** [BTreeObject::create] *)
Definition tree_create (descriptor : StorageObjectDescriptor) (b : B)
    : B * result BTreeObject BTreeError :=
  match page_error 0 (empty_leaf (pb_page_size b)) with
  | Err e => (b, Err e)
  | Ok image =>
      match pb_create {| pk_object := od_id descriptor; pk_page := 0 |} image b with
      | (b, Err e) => (b, Err (BTreeBuffer e))
      | (b, Ok g) => (pb_drop g b, Ok {| bt_descriptor := descriptor; bt_root := 0;
                                         bt_next_page := 1; bt_poisoned := false |})
      end
  end.

(** [lookup]: one page of the descent; [inl] goes on, [inr] answers. *)
Definition lookup_turn (key : bytes) (current : PageId) (image : bytes)
    : result (PageId + BTreeLookup) BTreeError :=
  let? p := page_error current (page_parse image) in
  let? follow := page_error current (follow_right p key) in
  match follow with
  | Some sibling => Ok (inl sibling)
  | None =>
      if is_leaf p then
        let? found := page_error current (search p key) in
        match found with
        | inl index => let? v := lookup_value current p index in Ok (inr v)
        | inr _ => Ok (inr LookupNotFound)
        end
      else
        let? child := page_error current (child_for_key p key) in
        Ok (inl child)
  end.

Fixpoint lookup_loop (fuel : nat) (key : bytes) (current : PageId) (w : World)
    : World * result BTreeLookup BTreeError :=
  match fuel with
  | O => (w, Err RoutingDepthExceeded)
  | S fuel =>
      do? (w, next) := read_page current (lookup_turn key current) w in
      match next with
      | inl page => lookup_loop fuel key page w
      | inr v => (w, Ok v)
      end
  end.

Definition tree_lookup (key : bytes) (w : World) : World * result BTreeLookup BTreeError :=
  lookup_loop MAX_ROUTING_DEPTH key (bt_root (w_tree w)) w.

(** [find_leaf_path]; the path is a stack, its top the last page pushed. *)
Inductive DescendTurn := GoRight (page : PageId) | AtLeaf | GoDown (child : PageId).

Definition descend_turn (key : bytes) (current : PageId) (image : bytes)
    : result DescendTurn BTreeError :=
  let? p := page_error current (page_parse image) in
  let? follow := page_error current (follow_right p key) in
  match follow with
  | Some sibling => Ok (GoRight sibling)
  | None =>
      if is_leaf p then Ok AtLeaf
      else
        let? child := page_error current (child_for_key p key) in
        Ok (GoDown child)
  end.

Fixpoint find_leaf_loop (fuel : nat) (key : bytes) (current : PageId) (path : list PageId)
    (w : World) : World * result (PageId * list PageId) BTreeError :=
  match fuel with
  | O => (w, Err RoutingDepthExceeded)
  | S fuel =>
      do? (w, turn) := read_page current (descend_turn key current) w in
      match turn with
      | GoRight sibling => find_leaf_loop fuel key sibling path w
      | AtLeaf => (w, Ok (current, path))
      | GoDown child => find_leaf_loop fuel key child (current :: path) w
      end
  end.

Definition find_leaf_path (key : bytes) (w : World)
    : World * result (PageId * list PageId) BTreeError :=
  find_leaf_loop MAX_ROUTING_DEPTH key (bt_root (w_tree w)) [] w.

(** *** Splits *)

(** The step of an operation that has no effect. *)
#[local] Abbreviation pure w r := (w, r).

(** The requirements a split leaf and its new sibling get. *)
Definition attach_leaf_split (dependency : option PageDependencies) (leaf right_id : PageId) (w : World)
    : World * result unit BTreeError :=
  match dependency with
  | None => (w, Ok tt)
  | Some required =>
      do? (w, inherited) := pure w (page_requirements leaf w) in
      let split_required := merged inherited required in
      do? (w, _) := merge_dependency leaf split_required w in
      do? (w, _) := merge_dependency right_id split_required w in
      (w, Ok tt)
  end.

(** The two halves of a leaf: both images are built before anything is published.
    [entries[split]] is in range, see [choose_split_balanced]. *)
Definition split_leaf (dependency : option PageDependencies) (leaf : PageId) (high : option bytes)
    (right_sibling : option PageId) (entries : list LeafEntry) (g : G) (w : World)
    : World * result (bytes * PageId * G) BTreeError :=
  do? (w, split) := pure w (page_error leaf (choose_leaf_split entries)) in
  let separator := default [] (fst <$> entries !! Z.to_nat split) in
  let right_entries := drop (Z.to_nat split) entries in
  let entries := take (Z.to_nat split) entries in
  do? (w, right_id) := allocate_page w in
  let page_size := pb_page_size (w_buffer w) in
  do? (w, left_image) := pure w (map_err (map_build_error leaf)
    (build_leaf page_size (Some separator) (Some right_id) entries)) in
  do? (w, right_image) := pure w (map_err (map_build_error right_id)
    (build_leaf page_size high right_sibling right_entries)) in
  do? (w, _) := attach_leaf_split dependency leaf right_id w in
  do? (w, right_guard) := on_buffer (pb_create (page_key (w_tree w) right_id) right_image) w in
  (store g left_image w, Ok (separator, right_id, right_guard)).

(** A split step as the body of [update_page]: the new page's guard is dropped
    after the write guard of the old one. *)
Definition split_done {A} (s : World * result (A * G) BTreeError) : World * list G * result A BTreeError :=
  match s with
  | (w, Ok (a, right_guard)) => (w, [right_guard], Ok a)
  | (w, Err e) => (w, [], Err e)
  end.

(** The halves of a full internal page with the separator added; the middle entry
    moves up. [entries.pop()] finds it, since [split_off] left [split + 1] entries. *)
Definition split_internal (dependency parent_required : option PageDependencies) (parent_id : PageId)
    (separator : bytes) (right_id : PageId) (image : bytes) (g : G) (w : World)
    : World * result (bytes * PageId * G) BTreeError :=
  do? (w, p) := pure w (page_error parent_id (page_parse image)) in
  do? (w, old_high) := pure w (page_error parent_id (high_fence p)) in
  let old_right := PageV4.right_sibling p in
  do? (w, old_leftmost) := pure w (page_error parent_id
    (ok_or (leftmost_child p) "internal page lacks leftmost child")) in
  do? (w, entries) := pure w (page_error parent_id (internal_entries_owned p)) in
  if BTreeMap.contains_key separator entries
  then (w, Err (BTreeCorruption parent_id "duplicate separator during internal split"))
  else
    let entries := BTreeMap.insert separator right_id entries in
    do? (w, split) := pure w (page_error parent_id (choose_internal_split entries)) in
    let right_entries := drop (Z.to_nat split + 1) entries in
    let entries := take (Z.to_nat split + 1) entries in
    do? (w, promoted_entry) := pure w (page_error parent_id
      (ok_or (last entries) "internal split lost promoted entry")) in
    let entries := removelast entries in
    let '(promoted, right_leftmost) := promoted_entry in
    do? (w, new_right_id) := allocate_page w in
    let page_size := pb_page_size (w_buffer w) in
    do? (w, left_image) := pure w (map_err (map_build_error parent_id)
      (build_internal page_size (Some promoted) (Some new_right_id) old_leftmost entries)) in
    do? (w, right_image) := pure w (map_err (map_build_error new_right_id)
      (build_internal page_size old_high old_right right_leftmost right_entries)) in
    do? (w, _) :=
      match dependency, parent_required with
      | Some _, Some parent_required =>
          do? (w, _) := merge_dependency new_right_id parent_required w in (w, Ok tt)
      | _, _ => (w, Ok tt)
      end in
    do? (w, new_right_guard) :=
      on_buffer (pb_create (page_key (w_tree w) new_right_id) right_image) w in
    (store g left_image w, Ok (promoted, new_right_id, new_right_guard)).

(** One parent of [propagate_split]: [None] when the separator is in. *)
Definition propagate_turn (dependency : option PageDependencies) (parent_id : PageId)
    (separator : bytes) (right_id : PageId) (g : G) (image : bytes) (w : World)
    : World * list G * result (option (bytes * PageId)) BTreeError :=
  match attach_operation_dependency dependency parent_id w with
  | (w, Err e) => (w, [], Err e)
  | (w, Ok parent_required) =>
      let '(image, inserted) := try_insert_internal image separator right_id in
      let w := store g image w in
      match inserted with
      | Err e => (w, [], Err (BTreeCorruption parent_id e))
      | Ok Inserted => (w, [], Ok None)
      | Ok Duplicate =>
          (w, [], Err (BTreeCorruption parent_id "duplicate separator during split propagation"))
      | Ok (InsertFollowRight _) =>
          (w, [], Err (BTreeCorruption parent_id "structural path routed outside parent fence"))
      | Ok Full =>
          let '(w, gs, r) :=
            split_done (split_internal dependency parent_required parent_id separator right_id image g w) in
          (w, gs, let? up := r in Ok (Some up))
      end
  end.

(** The requirements of a new root. *)
Definition attach_root (dependency : option PageDependencies) (root_leftmost right_id new_root : PageId)
    (w : World) : World * result unit BTreeError :=
  match dependency with
  | None => (w, Ok tt)
  | Some required =>
      do? (w, left_required) := pure w (page_requirements root_leftmost w) in
      do? (w, right_required) := pure w (page_requirements right_id w) in
      do? (w, _) := merge_dependency new_root (merged (merged required left_required) right_required) w in
      (w, Ok tt)
  end.

Definition promote_root (dependency : option PageDependencies) (separator : bytes) (right_id : PageId)
    (w : World) : World * result unit BTreeError :=
  let root_leftmost := bt_root (w_tree w) in
  do? (w, new_root) := allocate_page w in
  do? (w, root_image) := pure w (map_err (map_build_error new_root)
    (build_internal (pb_page_size (w_buffer w)) None None root_leftmost [(separator, right_id)])) in
  do? (w, _) := attach_root dependency root_leftmost right_id new_root w in
  do? (w, g) := on_buffer (pb_create (page_key (w_tree w) new_root) root_image) w in
  (set_root new_root (drop_guards [g] w), Ok tt).

Fixpoint propagate_split (dependency : option PageDependencies) (path : list PageId)
    (separator : bytes) (right_id : PageId) (w : World) : World * result unit BTreeError :=
  match path with
  | [] => promote_root dependency separator right_id w
  | parent_id :: path =>
      do? (w, up) := update_page parent_id (propagate_turn dependency parent_id separator right_id) w in
      match up with
      | None => (w, Ok tt)
      | Some (separator, right_id) => propagate_split dependency path separator right_id w
      end
  end.
(** *** Insertion *)
Inductive InsertTurn :=
| TurnDone
| TurnContinue
| TurnFull
| TurnSplit (separator : bytes) (right_id : PageId).

Definition insert_turn (key value : bytes) (leaf : PageId) (g : G) (image : bytes) (w : World)
    : World * list G * result InsertTurn BTreeError :=
  let '(image, r) := try_insert_inline image key value in
  (store g image w, [],
   let? inserted := page_error leaf r in
   match inserted with
   | Inserted => Ok TurnDone
   | Duplicate => Err DuplicateKey
   | InsertFollowRight _ => Ok TurnContinue
   | Full => Ok TurnFull
   end).

(** The body of [insert_with_split]'s loop. *)
Definition insert_split_turn (key value : bytes) (leaf : PageId) (g : G) (image : bytes) (w : World)
    : World * list G * result InsertTurn BTreeError :=
  let '(w, gs, r) := insert_turn key value leaf g image w in
  match r with
  | Ok TurnFull =>
      let image := (try_insert_inline image key value).1 in
      match
        let? p := page_error leaf (page_parse image) in
        let? old_high := page_error leaf (high_fence p) in
        let? entries := page_error leaf (leaf_entries_owned p) in
        if BTreeMap.contains_key key entries then Err DuplicateKey
        else Ok (old_high, PageV4.right_sibling p, BTreeMap.insert key (LeafInline value) entries)
      with
      | Err e => (w, gs, Err e)
      | Ok (old_high, old_right, entries) =>
          let '(w, gs, r) := split_done (split_leaf None leaf old_high old_right entries g w) in
          (w, gs, let? split := r in Ok (TurnSplit split.1 split.2))
      end
  | r => (w, gs, r)
  end.

Fixpoint insert_split_loop (fuel : nat) (key value : bytes) (w : World)
    : World * option (result unit BTreeError) :=
  match fuel with
  | O => (w, None)
  | S fuel =>
      match find_leaf_path key w with
      | (w, Err e) => (w, Some (Err e))
      | (w, Ok (leaf, path)) =>
          match update_page leaf (insert_split_turn key value leaf) w with
          | (w, Err e) => (w, Some (Err e))
          | (w, Ok TurnDone) => (w, Some (Ok tt))
          | (w, Ok (TurnSplit separator right_id)) =>
              let '(w, r) := propagate_split None path separator right_id w in (w, Some r)
          | (w, Ok _) => insert_split_loop fuel key value w
          end
      end
  end.

Definition insert_with_split (fuel : nat) (key value : bytes) (w : World)
    : World * option (result unit BTreeError) :=
  if bt_poisoned (w_tree w) then (w, Some (Err StructuralLockPoisoned))
  else insert_split_loop fuel key value w.

(** The first loop of [insert]; [Some true] when it found room. *)
Fixpoint insert_loop (fuel : nat) (key value : bytes) (w : World)
    : World * option (result bool BTreeError) :=
  match fuel with
  | O => (w, None)
  | S fuel =>
      match find_leaf_path key w with
      | (w, Err e) => (w, Some (Err e))
      | (w, Ok (leaf, _)) =>
          match update_page leaf (insert_turn key value leaf) w with
          | (w, Err e) => (w, Some (Err e))
          | (w, Ok TurnDone) => (w, Some (Ok true))
          | (w, Ok TurnFull) => (w, Some (Ok false))
          | (w, Ok _) => insert_loop fuel key value w
          end
      end
  end.

Definition tree_insert (fuel : nat) (key value : bytes) (w : World)
    : World * option (result unit BTreeError) :=
  match validate_inline_entry key value with
  | Err e => (w, Some (Err e))
  | Ok _ =>
      match insert_loop fuel key value w with
      | (w, Some (Ok true)) => (w, Some (Ok tt))
      | (w, Some (Ok false)) => insert_with_split fuel key value w
      | (w, Some (Err e)) => (w, Some (Err e))
      | (w, None) => (w, None)
      end
  end.

(** *** Replacement *)

(** What both loops of an upsert do with a leaf: [inl] when the key has moved on,
    [inr] with the fence, link and entries of the candidate. *)
Definition upsert_candidate (key value : bytes) (leaf : PageId) (image : bytes)
    : result (unit + option bytes * option PageId * list LeafEntry) BTreeError :=
  let? p := page_error leaf (page_parse image) in
  let? follow := page_error leaf (follow_right p key) in
  match follow with
  | Some _ => Ok (inl tt)
  | None =>
      let? old_high := page_error leaf (high_fence p) in
      let? entries := page_error leaf (leaf_entries_owned p) in
      Ok (inr (old_high, PageV4.right_sibling p, upsert_leaf_entry entries key value))
  end.

(** The candidate is built beside the page and copied over it; [full] is what
    happens when it does not fit. *)
Definition upsert_turn (dependency : option PageDependencies) (key value : bytes) (leaf : PageId)
    (full : option bytes → option PageId → list LeafEntry → G → World →
            World * list G * result InsertTurn BTreeError)
    (g : G) (image : bytes) (w : World) : World * list G * result InsertTurn BTreeError :=
  match upsert_candidate key value leaf image with
  | Err e => (w, [], Err e)
  | Ok (inl _) => (w, [], Ok TurnContinue)
  | Ok (inr (old_high, old_right, entries)) =>
      match build_leaf (pb_page_size (w_buffer w)) old_high old_right entries with
      | Ok candidate =>
          match attach_operation_dependency dependency leaf w with
          | (w, Err e) => (w, [], Err e)
          | (w, Ok _) => (store g candidate w, [], Ok TurnDone)
          end
      | Err e =>
          if leaf_capacity_error e then full old_high old_right entries g w
          else (w, [], Err (map_build_error leaf e))
      end
  end.

Definition upsert_full (_ : option bytes) (_ : option PageId) (_ : list LeafEntry) (_ : G) (w : World)
    : World * list G * result InsertTurn BTreeError :=
  (w, [], Ok TurnFull).

Definition upsert_split (dependency : option PageDependencies) (leaf : PageId) (old_high : option bytes)
    (old_right : option PageId) (entries : list LeafEntry) (g : G) (w : World)
    : World * list G * result InsertTurn BTreeError :=
  if len entries <? 2 then (w, [], Err EntryTooLarge)
  else
    let '(w, gs, r) := split_done (split_leaf dependency leaf old_high old_right entries g w) in
    (w, gs, let? split := r in Ok (TurnSplit split.1 split.2)).

Fixpoint upsert_split_loop (fuel : nat) (dependency : option PageDependencies) (key value : bytes)
    (w : World) : World * option (result unit BTreeError) :=
  match fuel with
  | O => (w, None)
  | S fuel =>
      match find_leaf_path key w with
      | (w, Err e) => (w, Some (Err e))
      | (w, Ok (leaf, path)) =>
          match update_page leaf
                  (upsert_turn dependency key value leaf (upsert_split dependency leaf)) w with
          | (w, Err e) => (w, Some (Err e))
          | (w, Ok TurnDone) => (w, Some (Ok tt))
          | (w, Ok (TurnSplit separator right_id)) =>
              let '(w, r) := propagate_split dependency path separator right_id w in (w, Some r)
          | (w, Ok _) => upsert_split_loop fuel dependency key value w
          end
      end
  end.

Definition upsert_with_split (fuel : nat) (dependency : option PageDependencies) (key value : bytes)
    (w : World) : World * option (result unit BTreeError) :=
  if bt_poisoned (w_tree w) then (w, Some (Err StructuralLockPoisoned))
  else upsert_split_loop fuel dependency key value w.

Fixpoint upsert_loop (fuel : nat) (dependency : option PageDependencies) (key value : bytes)
    (w : World) : World * option (result bool BTreeError) :=
  match fuel with
  | O => (w, None)
  | S fuel =>
      match find_leaf_path key w with
      | (w, Err e) => (w, Some (Err e))
      | (w, Ok (leaf, _)) =>
          match update_page leaf (upsert_turn dependency key value leaf upsert_full) w with
          | (w, Err e) => (w, Some (Err e))
          | (w, Ok TurnDone) => (w, Some (Ok true))
          | (w, Ok TurnFull) => (w, Some (Ok false))
          | (w, Ok _) => upsert_loop fuel dependency key value w
          end
      end
  end.

Definition upsert_inner (fuel : nat) (dependency : option PageDependencies) (key value : bytes)
    (w : World) : World * option (result unit BTreeError) :=
  match validate_inline_entry key value with
  | Err e => (w, Some (Err e))
  | Ok _ =>
      match upsert_loop fuel dependency key value w with
      | (w, Some (Ok true)) => (w, Some (Ok tt))
      | (w, Some (Ok false)) => upsert_with_split fuel dependency key value w
      | (w, Some (Err e)) => (w, Some (Err e))
      | (w, None) => (w, None)
      end
  end.

Definition tree_upsert (fuel : nat) (key value : bytes) (w : World)
    : World * option (result unit BTreeError) :=
  upsert_inner fuel None key value w.

Definition upsert_with_dependencies (fuel : nat) (key value : bytes) (required : PageDependencies)
    (w : World) : World * option (result unit BTreeError) :=
  upsert_inner fuel (Some required) key value w.
(** *** Removal *)
Definition delete_turn (key : bytes) (leaf : PageId) (g : G) (image : bytes) (w : World)
    : World * list G * result RemoveResult BTreeError :=
  let '(image, r) := remove_leaf image key in
  (store g image w, [], page_error leaf r).

Fixpoint tree_delete (fuel : nat) (key : bytes) (w : World) : World * option (result bool BTreeError) :=
  match fuel with
  | O => (w, None)
  | S fuel =>
      match find_leaf_path key w with
      | (w, Err e) => (w, Some (Err e))
      | (w, Ok (leaf, _)) =>
          match update_page leaf (delete_turn key leaf) w with
          | (w, Err e) => (w, Some (Err e))
          | (w, Ok Removed) => (w, Some (Ok true))
          | (w, Ok Missing) => (w, Some (Ok false))
          | (w, Ok (RemoveFollowRight _)) => tree_delete fuel key w
          end
      end
  end.

(** *** Ranges *)

(** The loop over a leaf's entries; [inl] is the whole answer. *)
Fixpoint range_scan (start stop : bytes) (limit : Z) (entries : list LeafEntry)
    (output : list (bytes * BTreeLookup))
    : list (bytes * BTreeLookup) + list (bytes * BTreeLookup) :=
  match entries with
  | [] => inr output
  | (key, value) :: entries =>
      match key_cmp key start with
      | Lt => range_scan start stop limit entries output
      | _ =>
          match key_cmp key stop with
          | Lt =>
              let output := output ++ [(key, leaf_lookup value)] in
              if len output =? limit then inl output
              else range_scan start stop limit entries output
          | _ => inl output
          end
      end
  end.

(** One leaf of a range; [inr] carries the next leaf and the rows so far. *)
Definition range_turn (start stop : bytes) (limit : Z) (current : PageId)
    (output : list (bytes * BTreeLookup)) (image : bytes)
    : result (list (bytes * BTreeLookup) + PageId * list (bytes * BTreeLookup)) BTreeError :=
  let? p := page_error current (page_parse image) in
  if negb (is_leaf p) then Err (BTreeCorruption current "range reached an internal page")
  else
    let? follow := page_error current (follow_right p start) in
    match follow with
    | Some sibling => Ok (inr (sibling, output))
    | None =>
        let? entries := page_error current (leaf_entries_owned p) in
        match range_scan start stop limit entries output with
        | inl output => Ok (inl output)
        | inr output =>
            match PageV4.right_sibling p with
            | None => Ok (inl output)
            | Some sibling =>
                let? high := page_error current (high_fence p) in
                if match high with
                   | Some high => match key_cmp high stop with Lt => false | _ => true end
                   | None => false
                   end
                then Ok (inl output) else Ok (inr (sibling, output))
            end
        end
    end.

Fixpoint range_loop (fuel : nat) (start stop : bytes) (limit : Z) (current : PageId)
    (output : list (bytes * BTreeLookup)) (w : World)
    : World * result (list (bytes * BTreeLookup)) BTreeError :=
  match fuel with
  | O => (w, Err RoutingDepthExceeded)
  | S fuel =>
      do? (w, turn) := read_page current (range_turn start stop limit current output) w in
      match turn with
      | inl output => (w, Ok output)
      | inr (sibling, output) => range_loop fuel start stop limit sibling output w
      end
  end.

Definition RANGE_LEAVES : nat := (MAX_ROUTING_DEPTH * 1024)%nat.

Definition tree_range (start stop : bytes) (limit : Z) (w : World)
    : World * result (list (bytes * BTreeLookup)) BTreeError :=
  if match key_cmp start stop with Lt => false | _ => true end || (limit =? 0) then (w, Ok [])
  else
    do? (w, found) := find_leaf_path start w in
    range_loop RANGE_LEAVES start stop limit found.1 [] w.

(** ** [preflight.rs] *)
Definition preflight_inline_upsert (key value : bytes) (b : B) : result unit BTreeError :=
  if (U16_MAX <? len key) || (U16_MAX <? len value) then Err EntryTooLarge
  else
    match build_leaf (pb_page_size b) None None [(key, LeafInline value)] with
    | Ok _ => Ok tt
    | Err _ => Err EntryTooLarge
    end.
End tree.

(** ** [cursor_v4.rs] *)
Record RangeCursor := {
  rc_start : bytes;
  rc_end : bytes;
  rc_last_emitted : option bytes;
  rc_done : bool
}.

Definition RangeCursor_new (start stop : bytes) : RangeCursor :=
  {| rc_start := start; rc_end := stop; rc_last_emitted := None;
     rc_done := match key_cmp start stop with Lt => false | _ => true end |}.

Definition range_cursor (start stop : bytes) : RangeCursor := RangeCursor_new start stop.

(** What a batch does with the rows [range] returned. *)
Definition cursor_rows (c : RangeCursor) (limit : Z) (rows : list (bytes * BTreeLookup))
    : RangeCursor * list (bytes * BTreeLookup) :=
  let fetch_limit := match rc_last_emitted c with
                     | Some _ => saturating_add limit 1 | None => limit end in
  let raw_len := len rows in
  let rows := match rc_last_emitted c with
              | Some l => filter (λ row, key_cmp row.1 l = Gt) rows
              | None => rows
              end in
  let rows := if limit <? len rows then take (Z.to_nat limit) rows else rows in
  let last_emitted := match last rows with Some row => Some row.1 | None => rc_last_emitted c end in
  let done := if bool_decide (rows = []) || (raw_len <? fetch_limit) then true else rc_done c in
  ({| rc_start := rc_start c; rc_end := rc_end c; rc_last_emitted := last_emitted; rc_done := done |},
   rows).

Definition next_batch {B G} `{PageBuffer B G} (c : RangeCursor) (limit : Z) (w : World B)
    : World B * RangeCursor * result (list (bytes * BTreeLookup)) BTreeError :=
  if rc_done c || (limit =? 0) then (w, c, Ok [])
  else
    let seek := default (rc_start c) (rc_last_emitted c) in
    let fetch_limit := match rc_last_emitted c with
                       | Some _ => saturating_add limit 1 | None => limit end in
    match tree_range seek (rc_end c) fetch_limit w with
    | (w, Err e) => (w, c, Err e)
    | (w, Ok rows) => let '(c, rows) := cursor_rows c limit rows in (w, c, Ok rows)
    end.
