(* ===== verification/TreeSpec.v ===== *)
(** * The B-link tree is a sorted map

    Every operation of [TreeV4.v] over any buffer pool that satisfies the interface
    of [PageBuffer.v], against the abstract trees of [TreeShape.v]: lookups and
    ranges answer as the map does, updates change it accordingly, and an operation
    that fails leaves a tree that stands for the old map or the new one. *)
From Stdlib Require Import String.
From S2P Require Import Prelude StdCollections Ids Shards Frame Buffer PageBuffer PageDependency PageV4 PageSpec PageUpdate KeyOrder TreeShape TreeV4.

Local Open Scope string_scope.
Local Open Scope list_scope.
Local Open Scope Z_scope.
Local Open Scope seer_scope.

#[local] Opaque MAX_ROUTING_DEPTH.

(** ** Turns over one page *)
Definition beyond (N : Node) (key : bytes) : option PageId :=
  match n_high N with
  | Some h => match key_cmp key h with Lt => None | _ => n_right N end
  | None => None
  end.

Lemma right_of_node N key : right_of (node_page N) key = beyond N key.
Proof. unfold right_of, beyond, node_page. by destruct (n_body N). Qed.

Lemma beyond_covers T N key :
  node_wf T N → kle (n_low N) key →
  match beyond N key with
  | Some r => ∃ h, n_high N = Some h ∧ n_right N = Some r ∧ kle h key
  | None => covers N key
  end.
Proof.
  intros [_ _ _ Hr _] Hlow. unfold beyond, covers, below in *.
  destruct (n_high N) as [h|], (n_right N) as [r|]; try done.
  destruct (key_cmp key h) eqn:E; [exists h| |exists h]; (split; [done|]).
  - apply key_cmp_eq in E as ->. split; [done|korder].
  - done.
  - apply key_cmp_gt in E. split; [done|korder].
Qed.

Lemma node_sorted T N : node_wf T N → keys_sorted (p_entries (node_page N)).
Proof. intros [(_ & _ & Hs) _ _ _ _]. done. Qed.

Lemma descend_turn_at T d N u ho key current :
  node_wf T N → page_at d (node_page N) u ho →
  descend_turn key current d =
    Ok match beyond N key with
       | Some r => GoRight r
       | None => match n_body N with
                 | LeafBody _ => AtLeaf
                 | InternalBody c es => GoDown (route c es key)
                 end
       end.
Proof.
  intros HN Hat. pose proof (node_sorted _ _ HN) as Hs. unfold descend_turn, page_error.
  rewrite (page_parse_at _ _ _ _ Hat). cbn [map_err]. rewrite (follow_right_at _ _ _ _ Hat), right_of_node.
  cbn [map_err]. destruct (beyond N key) as [r|]; [done|]. unfold is_leaf. cbn [pr_header header_of h_kind].
  unfold node_page in *. destruct (n_body N) as [es|c es].
  - by rewrite bool_decide_true.
  - rewrite bool_decide_false by done. rewrite (child_for_key_at _ _ _ _ _ _ _ _ Hat); [done|].
    by apply (map_sorted EncodedChild es).
Qed.

(** What a map says about a key. *)
Definition map_lookup (m : list LeafEntry) (key : bytes) : BTreeLookup :=
  match BTreeMap.get key m with Some v => leaf_lookup v | None => LookupNotFound end.

Lemma lookup_turn_at T d N u ho key current :
  node_wf T N → page_at d (node_page N) u ho →
  lookup_turn key current d =
    Ok match beyond N key with
       | Some r => inl r
       | None => match n_body N with
                 | LeafBody es => inr (map_lookup es key)
                 | InternalBody c es => inl (route c es key)
                 end
       end.
Proof.
  intros HN Hat. pose proof (node_sorted _ _ HN) as Hs. unfold lookup_turn, page_error.
  rewrite (page_parse_at _ _ _ _ Hat). cbn [map_err]. rewrite (follow_right_at _ _ _ _ Hat), right_of_node.
  cbn [map_err]. destruct (beyond N key) as [r|]; [done|]. unfold is_leaf. cbn [pr_header header_of h_kind].
  destruct (search_at _ _ _ _ Hat Hs key) as (found & Hf & Hspec).
  unfold node_page in *. destruct (n_body N) as [es|c es].
  - rewrite bool_decide_true by done. rewrite Hf. cbn [map_err]. unfold map_lookup. destruct found as [i|i].
    + destruct Hspec as (n & pl & -> & Hn). pose proof Hn as Hn'. cbn in Hn. rewrite list_lookup_fmap in Hn.
      destruct (es !! n) as [[k v]|] eqn:En; [|done]. injection Hn as -> <-.
      unfold lookup_value, page_error. rewrite (page_value_at _ _ _ _ Hat n key v Hn') by done. cbn [map_err].
      rewrite (get_lookup es n key v); [done|by apply (map_sorted EncodedLeaf es)|done].
    + destruct Hspec as (n & -> & Hsp). by rewrite (splits_at_get es key n) by (by apply (splits_at_map EncodedLeaf)).
  - rewrite bool_decide_false by done. rewrite (child_for_key_at _ _ _ _ _ _ _ _ Hat); [done|].
    by apply (map_sorted EncodedChild es).
Qed.

(** ** Building and splitting *)
Lemma build_node size P :
  page_wf P → HEADER_SIZE + SLOT_SIZE ≤ size ≤ U32_MAX →
  (page_fits size P ∧ ∃ d u ho, build size P = Ok d ∧ len d = size ∧ page_at d P u ho) ∨
  (¬ page_fits size P ∧ ∃ e, build size P = Err e ∧ (∀ p, map_build_error p e = EntryTooLarge) ∧
     (high_len P ≤ size → leaf_capacity_error e = true)).
Proof.
  intros Hwf Hsz. pose proof (build_page_at size P Hwf) as Hb. destruct (decide (page_fits size P)) as [Hf|Hf].
  - left. split; [done|]. destruct Hb as (d & Hb & Hl & Hat). by eexists _, _, _.
  - right. split; [done|]. destruct Hb as (e & Hb & Hc). exists e. split; [done|]. specialize (Hc Hsz).
    destruct Hc as [->|[->|[->|[-> ?]]]]; (split; [intros p; reflexivity|]); intros ?; [reflexivity..|lia].
Qed.

Definition few_entries : PageError := "cannot split fewer than two entries".

Lemma choose_split_at (costs : list Z) bound :
  Forall (λ c, 0 ≤ c ≤ bound) costs → len costs * bound ≤ U64_MAX →
  if decide (2 ≤ length costs)%nat
  then ∃ i, choose_split costs = Ok (Z.of_nat i) ∧ (1 ≤ i < length costs)%nat
  else choose_split costs = Err few_entries.
Proof.
  intros Hc Hmax. assert (sum_costs costs ≤ len costs * bound) as Hsum.
  { clear Hmax. induction Hc as [|c costs Hc _ IH]; [done|]. rewrite len_cons. cbn. lia. }
  pose proof (choose_split_balanced costs) as Hb. destruct (decide (2 ≤ length costs)%nat) as [H2|H2].
  - rewrite decide_True in Hb by (split; [done|lia]).
    destruct Hb as (i & Hi & Hr & _); [eapply Forall_impl; [done|cbn; lia]|]. by exists i.
  - unfold choose_split. rewrite (proj2 (Z.ltb_lt _ _)); [done|]. unfold len. lia.
Qed.

Definition MANY : Z := 2 ^ 30.

Lemma choose_leaf_split_at es :
  Forall (λ e, len e.1 ≤ U16_MAX ∧ payload_ok KindLeaf (EncodedLeaf e.2)) es → len es ≤ MANY →
  if decide (2 ≤ length es)%nat
  then ∃ i, choose_leaf_split es = Ok (Z.of_nat i) ∧ (1 ≤ i < length es)%nat
  else choose_leaf_split es = Err few_entries.
Proof.
  intros He Hn. unfold choose_leaf_split.
  rewrite <-(length_map (λ e, match leaf_entry_cost e with Ok c => c | Err _ => U64_MAX end) es).
  apply (choose_split_at _ (2 ^ 18)).
  - apply Forall_map. eapply Forall_impl; [done|]. cbn. intros [k v] [Hk Hv]. unfold leaf_entry_cost, checked_add.
    cbn [fst snd] in *. pose proof (len_nonneg k). unfold SLOT_SIZE, U16_MAX, U64_MAX in *.
    rewrite (proj2 (Z.leb_le _ _)) by lia. cbn [mbind option_bind].
    destruct v as [v|b|]; cbn in Hv; [pose proof (len_nonneg v)|..];
      rewrite (proj2 (Z.leb_le _ _)) by (unfold BLOB_SIZE; lia); cbn [ok_or]; unfold BLOB_SIZE; lia.
  - unfold len in *. rewrite length_map. unfold MANY, U64_MAX in *. lia.
Qed.

Lemma choose_internal_split_at es :
  Forall (λ e, len e.1 ≤ U16_MAX) es → len es ≤ MANY →
  if decide (2 ≤ length es)%nat
  then ∃ i, choose_internal_split es = Ok (Z.of_nat i) ∧ (1 ≤ i < length es)%nat
  else choose_internal_split es = Err few_entries.
Proof.
  intros He Hn. unfold choose_internal_split. rewrite <-(length_map (λ e, SLOT_SIZE + len e.1 + 8) es).
  apply (choose_split_at _ (2 ^ 18)).
  - apply Forall_map. eapply Forall_impl; [done|]. cbn. intros [k v] Hk. cbn in Hk. pose proof (len_nonneg k).
    unfold SLOT_SIZE, U16_MAX in *. cbn. lia.
  - unfold len in *. rewrite length_map. unfold MANY, U64_MAX in *. lia.
Qed.

Lemma entries_bound d P u ho : page_at d P u ho → len (p_entries P) + 1 ≤ MANY.
Proof.
  intros Hat. pose proof (pa_bounds _ _ _ _ Hat) as Hb. pose proof (pa_size _ _ _ _ Hat) as Hs.
  unfold lower_of, HEADER_SIZE, SLOT_SIZE, U32_MAX, MANY in *. lia.
Qed.

Lemma insert_len {V} k v (es : list (bytes * V)) : len (BTreeMap.insert k v es) ≤ len es + 1.
Proof.
  induction es as [|[k' v'] es IH]; [done|]. cbn [BTreeMap.insert].
  destruct (cmp k k'); rewrite ?len_cons in *; lia.
Qed.

(** ** How far a descent can go *)
Definition further (N : Node) (e : PageId * Node) : Prop :=
  (n_level e.2 < n_level N)%nat ∨ n_level e.2 = n_level N ∧ klt (n_low N) (n_low e.2).
#[global] Instance further_dec N e : Decision (further N e).
Proof. unfold further. apply _. Defined.

Definition rank (T : Tree) (N : Node) : nat := size (filter (further N) T).

Lemma rank_lt T p N M :
  T !! p = Some M → further N (p, M) → (rank T M < rank T N)%nat.
Proof.
  intros HM Hf. unfold rank. apply map_subset_size. split.
  - apply map_subseteq_spec. intros q Q. rewrite !map_lookup_filter_Some. intros [HQ Hq]. split; [done|].
    unfold further in *. cbn in *. destruct Hq as [H|[H1 H2]], Hf as [Hf|[Hf1 Hf2]]; [left; lia..|].
    right. split; [lia|korder].
  - intros Hsub. assert (filter (further N) T !! p = Some M) as HM' by (by apply map_lookup_filter_Some).
    apply (lookup_weaken _ _ _ _ HM') in Hsub. apply map_lookup_filter_Some in Hsub as [_ Hq].
    unfold further in Hq. cbn in Hq. destruct Hq as [Hq|[_ Hq]]; [lia|korder].
Qed.

Lemma rank_bound T p N : T !! p = Some N → (rank T N < size T)%nat.
Proof.
  intros HN. unfold rank. apply map_subset_size. split; [apply map_filter_subseteq|].
  intros Hsub. apply (lookup_weaken _ _ _ _ HN) in Hsub. apply map_lookup_filter_Some in Hsub as [_ Hq].
  unfold further in Hq. cbn in Hq. destruct Hq as [Hq|[_ Hq]]; [lia|korder].
Qed.

(** ** The invariant of an operation

    [V0] are the pages and the page size when the operation began; every page it has changed since
    belongs to the object and carries the operation's requirement. *)
Section refinement.
Context {B G : Type} `{Hpb : PageBuffer B G} `{Hlaws : !PageBufferLaws B G} `{Hph : PageHasher}.
#[local] Abbreviation World := (World B).

Definition images (w : World) (V : gmap PageKey bytes) (T : Tree) : Prop :=
  ∀ p N, T !! p = Some N →
  ∃ d u ho, V !! page_key (w_tree w) p = Some d ∧ len d = pb_page_size (w_buffer w) ∧
            page_at d (node_page N) u ho.

Context (dep : option PageDependencies) (V0 : gmap PageKey bytes * Z).

Definition attached (w : World) (k : PageKey) : Prop :=
  ∀ required, dep = Some required → dep_le required (required_of (w_deps w) k).

Record op_inv (w : World) (V : gmap PageKey bytes) (T : Tree) (gs : list G) (ls : gset PageKey) : Prop := {
  oi_repr : pb_repr (w_buffer w) V gs ls;
  oi_images : images w V T;
  oi_wf : tree_wf T (bt_root (w_tree w)) (bt_next_page (w_tree w));
  oi_table : table_wf (pt_shards (w_deps w));
  oi_changed k : V !! k ≠ V0.1 !! k → pk_object k = od_id (bt_descriptor (w_tree w)) ∧ attached w k;
  oi_size : pb_page_size (w_buffer w) = V0.2
}.

(** The same object, table and page size. *)
Definition same (w w' : World) : Prop :=
  w_tree w' = w_tree w ∧ w_deps w' = w_deps w ∧ pb_page_size (w_buffer w') = pb_page_size (w_buffer w).

Lemma same_refl w : same w w.
Proof. done. Qed.
Lemma same_trans w w' w'' : same w w' → same w' w'' → same w w''.
Proof. intros (?&?&?) (?&?&?). split_and!; congruence. Qed.

Lemma op_inv_same w w' V T gs ls gs' ls' :
  same w w' → pb_repr (w_buffer w') V gs' ls' → op_inv w V T gs ls → op_inv w' V T gs' ls'.
Proof.
  intros (Ht & Hd & Hz) Hr [_ Hi Hw Hdt Hc Hsz]. split; [done| |by rewrite Ht|by rewrite Hd| |congruence].
  - intros p N Hp. destruct (Hi p N Hp) as (d & u & ho & H1 & H2 & H3). exists d, u, ho.
    by rewrite Ht, Hz.
  - intros k Hk. unfold attached. rewrite Ht, Hd. by apply Hc.
Qed.

(** *** Guards *)
Lemma pin_inv w V T gs ls k w' r :
  op_inv w V T gs ls → len gs < MAX_PINS → on_buffer (pb_pin k) w = (w', r) →
  same w w' ∧ match r with
              | Ok g => op_inv w' V T (g :: gs) ls ∧ pb_key g = k
              | Err e => op_inv w' V T gs ls ∧ ∃ be, e = BTreeBuffer be
              end.
Proof.
  intros Hi Hl. unfold on_buffer. destruct (pb_pin k (w_buffer w)) as [b r0] eqn:E.
  intros [<- <-]%pair_equal_spec. destruct (pb_pin_repr _ _ _ _ _ _ _ (oi_repr _ _ _ _ _ Hi) Hl E) as [Hr Hz].
  assert (same w (with_buffer b w)) as Hs by done. split; [done|]. destruct r0 as [g|e]; cbn [map_err].
  - destruct Hr as [Hr Hk]. split; [|done]. by eapply op_inv_same.
  - split; [by eapply op_inv_same|]. by eexists.
Qed.

Lemma drop_inv w V T gs gs' :
  op_inv w V T (gs ++ gs') ∅ → same w (drop_guards gs w) ∧ op_inv (drop_guards gs w) V T gs' ∅.
Proof.
  intros Hi. unfold drop_guards. assert (∀ b, pb_repr b V (gs ++ gs') ∅ →
    pb_repr (fold_left (λ b g, pb_drop g b) gs b) V gs' ∅ ∧
    pb_page_size (fold_left (λ b g, pb_drop g b) gs b) = pb_page_size b) as Hf.
  { clear Hi. induction gs as [|g gs IH]; intros b Hb; [done|]. cbn [fold_left].
    destruct (pb_drop_repr _ _ _ _ _ Hb ltac:(set_solver)) as [Hb' Hz].
    destruct (IH _ Hb') as [H1 H2]. split; [done|congruence]. }
  destruct (Hf _ (oi_repr _ _ _ _ _ Hi)) as [Hr Hz].
  assert (same w (with_buffer (fold_left (λ b g, pb_drop g b) gs (w_buffer w)) w)) as Hs by done.
  split; [done|]. by apply (op_inv_same _ _ _ _ _ _ _ _ Hs Hr Hi).
Qed.

Lemma page_key_same w w' p : same w w' → page_key (w_tree w') p = page_key (w_tree w) p.
Proof. by intros (-> & _). Qed.

(** *** Reading a page *)
Lemma read_page_inv {A} w V T p N (f : bytes → result A BTreeError) w' r :
  op_inv w V T [] ∅ → T !! p = Some N → read_page p f w = (w', r) →
  same w w' ∧ op_inv w' V T [] ∅ ∧
  ((∃ be, r = Err (BTreeBuffer be)) ∨ ∃ d u ho, page_at d (node_page N) u ho ∧ r = f d).
Proof.
  intros Hi Hp. unfold read_page.
  destruct (on_buffer (pb_pin _) w) as [w1 [g|e]] eqn:E;
    destruct (pin_inv _ _ _ _ _ _ _ _ Hi ltac:(done) E) as [Hs Hr].
  - destruct Hr as [Hi1 Hk]. intros [<- <-]%pair_equal_spec.
    destruct (drop_inv w1 V T [g] [] Hi1) as [Hs2 Hi2]. split; [by eapply same_trans|]. split; [done|]. right.
    destruct (pb_read_repr _ _ _ _ g (oi_repr _ _ _ _ _ Hi1)) as (x & Hx & HV & Hlen); [by constructor|].
    destruct (oi_images _ _ _ _ _ Hi p N Hp) as (d & u & ho & Hd & _ & Hat).
    rewrite Hk, Hd in HV. injection HV as ->. exists x, u, ho. split; [done|]. by rewrite Hx.
  - destruct Hr as [Hi1 [be ->]]. intros [<- <-]%pair_equal_spec. split_and!; [done..|left; by eexists].
Qed.

(** *** Descents *)
Lemma step_right T root next p N key r :
  tree_wf T root next → T !! p = Some N → kle (n_low N) key → beyond N key = Some r →
  ∃ R, T !! r = Some R ∧ n_level R = n_level N ∧ kle (n_low R) key ∧ (rank T R < rank T N)%nat.
Proof.
  intros Hwf Hp Hlow Hb. destruct (tw_nodes _ _ _ Hwf p N Hp) as [HN _].
  pose proof (beyond_covers _ _ _ HN Hlow) as Hc. rewrite Hb in Hc. destruct Hc as (h & Hh & Hr & Hle).
  destruct (right_node _ _ _ Hwf p N h r key Hp Hh Hr Hle) as (R & HR & Hl & HRlow & Hlt).
  exists R. split_and!; [done|done|by rewrite HRlow|]. apply (rank_lt T r N R HR). right. done.
Qed.

Lemma step_down T root next p N key c es :
  tree_wf T root next → T !! p = Some N → kle (n_low N) key → beyond N key = None →
  n_body N = InternalBody c es →
  covers N key ∧
  ∃ C, T !! route c es key = Some C ∧ n_level N = S (n_level C) ∧ kle (n_low C) key ∧ (rank T C < rank T N)%nat.
Proof.
  intros Hwf Hp Hlow Hb Hbody. destruct (tw_nodes _ _ _ Hwf p N Hp) as [HN _].
  pose proof (beyond_covers _ _ _ HN Hlow) as Hc. rewrite Hb in Hc. split; [done|].
  destruct (child_node _ _ _ Hwf p N c es key Hp Hbody Hc) as (C & HC & Hl & HClow).
  exists C. split_and!; [done..|]. apply (rank_lt T _ N C HC). left. cbn. lia.
Qed.

(** What can go wrong on the way down. *)
Definition descent_error (T : Tree) (fuel : nat) (e : BTreeError) : Prop :=
  (∃ be, e = BTreeBuffer be) ∨ e = RoutingDepthExceeded ∧ (fuel < size T)%nat.

Lemma lookup_loop_inv m key : ∀ fuel current N w V T w' r,
  op_inv w V T [] ∅ → tree_map T m → T !! current = Some N → kle (n_low N) key →
  lookup_loop fuel key current w = (w', r) →
  same w w' ∧ op_inv w' V T [] ∅ ∧
  match r with
  | Ok v => v = map_lookup m key
  | Err e => (∃ be, e = BTreeBuffer be) ∨ e = RoutingDepthExceeded ∧ (fuel ≤ rank T N)%nat
  end.
Proof.
  induction fuel as [|fuel IH]; intros current N w V T w' r Hi Hm Hp Hlow; cbn [lookup_loop].
  { intros [<- <-]%pair_equal_spec. split_and!; [done..|]. right. split; [done|lia]. }
  pose proof (oi_wf _ _ _ _ _ Hi) as Hwf. destruct (tw_nodes _ _ _ Hwf _ _ Hp) as [HN _].
  destruct (read_page current _ w) as [w1 r1] eqn:E.
  destruct (read_page_inv _ _ _ _ _ _ _ _ Hi Hp E) as (Hs & Hi1 & [[be ->]|(d & u & ho & Hat & ->)]).
  { intros [<- <-]%pair_equal_spec. split_and!; [done..|]. left. by eexists. }
  rewrite (lookup_turn_at T d N u ho) by done. destruct (beyond N key) as [r'|] eqn:Eb.
  - destruct (step_right _ _ _ _ _ _ _ Hwf Hp Hlow Eb) as (R & HR & _ & HRlow & Hrank). intros Hl.
    destruct (IH r' R w1 V T w' r Hi1 Hm HR HRlow Hl) as (Hs' & Hi' & Hres).
    split_and!; [by eapply same_trans|done|]. destruct r as [v|e]; [done|]. destruct Hres as [Hres|[-> Hres]]; [by left|right].
    split; [done|lia].
  - destruct (n_body N) as [es|c es] eqn:Ebody.
    + intros [<- <-]%pair_equal_spec. split_and!; [done..|]. unfold map_lookup.
      pose proof (beyond_covers _ _ _ HN Hlow) as Hc. rewrite Eb in Hc.
      by rewrite (tree_map_leaf _ _ _ _ _ _ _ _ Hwf Hm Hp Ebody Hc).
    + destruct (step_down _ _ _ _ _ _ _ _ Hwf Hp Hlow Eb Ebody) as (_ & C & HC & _ & HClow & Hrank). intros Hl.
      destruct (IH _ C w1 V T w' r Hi1 Hm HC HClow Hl) as (Hs' & Hi' & Hres).
      split_and!; [by eapply same_trans|done|]. destruct r as [v|e]; [done|]. destruct Hres as [Hres|[-> Hres]]; [by left|right].
      split; [done|lia].
Qed.

(** The pages of a path cover the key and sit on consecutive levels up to the root's. *)
Fixpoint path_ok (T : Tree) (root : PageId) (key : bytes) (l : nat) (path : list PageId) : Prop :=
  match path with
  | [] => ∃ R, T !! root = Some R ∧ S (n_level R) = l
  | p :: path => (∃ N, T !! p = Some N ∧ n_level N = l ∧ covers N key) ∧ path_ok T root key (S l) path
  end.

Lemma find_leaf_loop_inv key : ∀ fuel current N path w V T w' r,
  op_inv w V T [] ∅ → T !! current = Some N → kle (n_low N) key →
  path_ok T (bt_root (w_tree w)) key (S (n_level N)) path →
  find_leaf_loop fuel key current path w = (w', r) →
  same w w' ∧ op_inv w' V T [] ∅ ∧
  match r with
  | Ok (leaf, path') => path_ok T (bt_root (w_tree w)) key 1 path' ∧
      ∃ L es, T !! leaf = Some L ∧ n_body L = LeafBody es ∧ covers L key
  | Err e => (∃ be, e = BTreeBuffer be) ∨ e = RoutingDepthExceeded ∧ (fuel ≤ rank T N)%nat
  end.
Proof.
  induction fuel as [|fuel IH]; intros current N path w V T w' r Hi Hp Hlow Hpath; cbn [find_leaf_loop].
  { intros [<- <-]%pair_equal_spec. split_and!; [done..|]. right. split; [done|lia]. }
  pose proof (oi_wf _ _ _ _ _ Hi) as Hwf. destruct (tw_nodes _ _ _ Hwf _ _ Hp) as [HN _].
  destruct (read_page current _ w) as [w1 r1] eqn:E.
  destruct (read_page_inv _ _ _ _ _ _ _ _ Hi Hp E) as (Hs & Hi1 & [[be ->]|(d & u & ho & Hat & ->)]).
  { intros [<- <-]%pair_equal_spec. split_and!; [done..|]. left. by eexists. }
  rewrite (descend_turn_at T d N u ho) by done.
  assert (bt_root (w_tree w1) = bt_root (w_tree w)) as Hroot by (by destruct Hs as (-> & _)).
  destruct (beyond N key) as [r'|] eqn:Eb.
  - destruct (step_right _ _ _ _ _ _ _ Hwf Hp Hlow Eb) as (R & HR & HRl & HRlow & Hrank). intros Hl.
    destruct (IH r' R path w1 V T w' r Hi1 HR HRlow) as (Hs' & Hi' & Hres); [by rewrite HRl, Hroot|done|].
    split_and!; [by eapply same_trans|done|]. rewrite Hroot in Hres. destruct r as [[lf path']|e]; [done|].
    destruct Hres as [Hres|[-> Hres]]; [by left|right]. split; [done|lia].
  - destruct (n_body N) as [es|c es] eqn:Ebody.
    + intros [<- <-]%pair_equal_spec. split; [done|]. split; [done|]. split.
      * by rewrite (leaf_level _ _ _ _ _ _ Hwf Hp Ebody) in Hpath.
      * pose proof (beyond_covers _ _ _ HN Hlow) as Hc. rewrite Eb in Hc. by exists N, es.
    + destruct (step_down _ _ _ _ _ _ _ _ Hwf Hp Hlow Eb Ebody) as (Hc & C & HC & HCl & HClow & Hrank). intros Hl.
      destruct (IH _ C (current :: path) w1 V T w' r Hi1 HC HClow) as (Hs' & Hi' & Hres); [|done|].
      { cbn. rewrite Hroot, <-HCl. split; [by exists N|done]. }
      split_and!; [by eapply same_trans|done|]. rewrite Hroot in Hres. destruct r as [[lf path']|e]; [done|].
      destruct Hres as [Hres|[-> Hres]]; [by left|right]. split; [done|lia].
Qed.

Lemma root_node_at w V T gs ls :
  op_inv w V T gs ls → ∃ R, T !! bt_root (w_tree w) = Some R ∧ n_low R = [].
Proof. intros Hi. destruct (tw_root _ _ _ (oi_wf _ _ _ _ _ Hi)) as (R & HR & Hlow & _). by exists R. Qed.

Lemma find_leaf_path_inv key w V T w' r :
  op_inv w V T [] ∅ → find_leaf_path key w = (w', r) →
  same w w' ∧ op_inv w' V T [] ∅ ∧
  match r with
  | Ok (leaf, path) => path_ok T (bt_root (w_tree w)) key 1 path ∧
      ∃ L es, T !! leaf = Some L ∧ n_body L = LeafBody es ∧ covers L key
  | Err e => descent_error T MAX_ROUTING_DEPTH e
  end.
Proof.
  intros Hi Hf. destruct (root_node_at _ _ _ _ _ Hi) as (R & HR & Hlow).
  destruct (find_leaf_loop_inv key MAX_ROUTING_DEPTH _ R [] w V T w' r Hi HR) as (Hs & Hi' & Hres);
    [rewrite Hlow; apply kle_nil|by exists R|exact Hf|].
  split_and!; [done..|]. destruct r as [[lf path]|e]; [done|]. destruct Hres as [?|[-> Hres]]; [by left|right].
  split; [done|]. pose proof (rank_bound _ _ _ HR). lia.
Qed.

Lemma tree_lookup_inv m key w V T w' r :
  op_inv w V T [] ∅ → tree_map T m → tree_lookup key w = (w', r) →
  same w w' ∧ op_inv w' V T [] ∅ ∧
  match r with Ok v => v = map_lookup m key | Err e => descent_error T MAX_ROUTING_DEPTH e end.
Proof.
  intros Hi Hm Hf. destruct (root_node_at _ _ _ _ _ Hi) as (R & HR & Hlow).
  destruct (lookup_loop_inv m key MAX_ROUTING_DEPTH _ R w V T w' r Hi Hm HR) as (Hs & Hi' & Hres);
    [rewrite Hlow; apply kle_nil|exact Hf|].
  split_and!; [done..|]. destruct r as [v|e]; [done|]. destruct Hres as [?|[-> Hres]]; [by left|right].
  split; [done|]. pose proof (rank_bound _ _ _ HR). lia.
Qed.

(** *** Changing a page *)
Lemma unlatch_inv w V T gs g :
  op_inv w V T (gs ++ [g]) {[pb_key g]} →
  let w' := drop_guards (gs ++ [g]) (with_buffer (pb_unlatch g (w_buffer w)) w) in
  same w w' ∧ op_inv w' V T [] ∅.
Proof.
  intros Hi. destruct (pb_unlatch_repr _ _ _ _ g (oi_repr _ _ _ _ _ Hi)) as [Hr Hz]; [set_solver..|].
  assert (same w (with_buffer (pb_unlatch g (w_buffer w)) w)) as Hs by done.
  rewrite difference_diag_L in Hr. pose proof (op_inv_same _ _ _ _ _ _ _ _ Hs Hr Hi) as Hi1.
  rewrite <-(app_nil_r (gs ++ [g])) in Hi1. destruct (drop_inv _ _ _ _ _ Hi1) as [Hs2 Hi2].
  split; [by eapply same_trans|done].
Qed.

(** The page as the body of [update_page] finds it. *)
Lemma update_page_inv {A} w V T p N body w' (r : result A BTreeError) :
  op_inv w V T [] ∅ → T !! p = Some N → update_page p body w = (w', r) →
  (same w w' ∧ op_inv w' V T [] ∅ ∧ ∃ be, r = Err (BTreeBuffer be)) ∨
  ∃ g d u ho w1 w2 gs,
    pb_key g = page_key (w_tree w) p ∧ len d = pb_page_size (w_buffer w) ∧ page_at d (node_page N) u ho ∧
    same w w1 ∧ op_inv w1 V T [g] {[pb_key g]} ∧ body g d w1 = (w2, gs, r) ∧
    w' = drop_guards (gs ++ [g]) (with_buffer (pb_unlatch g (w_buffer w2)) w2).
Proof.
  intros Hi Hp. unfold update_page.
  destruct (on_buffer (pb_pin _) w) as [w1 [g|e]] eqn:E;
    destruct (pin_inv _ _ _ _ _ _ _ _ Hi ltac:(done) E) as [Hs Hr].
  2:{ destruct Hr as [Hi1 [be ->]]. intros [<- <-]%pair_equal_spec. left. split_and!; [done..|by eexists]. }
  destruct Hr as [Hi1 Hk].
  destruct (pb_write_repr _ _ _ _ g (oi_repr _ _ _ _ _ Hi1)) as (b & Hb & Hrb & Hz); [set_solver..|].
  unfold on_buffer at 1. rewrite Hb. cbn [map_err].
  assert (same w1 (with_buffer b w1)) as Hs1 by done. rewrite union_empty_r_L in Hrb.
  pose proof (op_inv_same _ _ _ _ _ _ _ _ Hs1 Hrb Hi1) as Hi2.
  destruct (pb_read_repr _ _ _ _ g Hrb) as (x & Hx & HV & Hlen); [by constructor|].
  cbn [w_buffer with_buffer]. rewrite Hx. destruct (body g x _) as [[w2 gs] r2] eqn:Eb.
  intros [<- <-]%pair_equal_spec. right.
  destruct (oi_images _ _ _ _ _ Hi p N Hp) as (d & u & ho & Hd & Hdl & Hat).
  rewrite Hk, Hd in HV. injection HV as ->.
  exists g, x, u, ho, (with_buffer b w1), w2, gs. split_and!; try done. by eapply same_trans.
Qed.

(** Storing an image of page [p] moves the tree to [T']. *)
Lemma store_inv w V T T' gs ls g p N' d u ho :
  op_inv w V T gs ls → g ∈ gs → pb_key g = page_key (w_tree w) p → pb_key g ∈ ls →
  attached w (pb_key g) → len d = pb_page_size (w_buffer w) → page_at d (node_page N') u ho →
  T' !! p = Some N' → (∀ q M, q ≠ p → T' !! q = Some M → ∃ d u ho,
     V !! page_key (w_tree w) q = Some d ∧ len d = pb_page_size (w_buffer w) ∧ page_at d (node_page M) u ho) →
  tree_wf T' (bt_root (w_tree w)) (bt_next_page (w_tree w)) →
  op_inv (store g d w) (<[pb_key g := d]> V) T' gs ls ∧ w_tree (store g d w) = w_tree w ∧
  w_deps (store g d w) = w_deps w ∧ pb_page_size (w_buffer (store g d w)) = pb_page_size (w_buffer w).
Proof.
  intros [Hr Hi Hw Ht Hc Hsz] Hg Hk Hls Hatt Hd Hat Hp Hother Hwf.
  destruct (pb_put_repr _ _ _ _ g d Hr Hg Hls Hd) as [Hr' Hz]. split; [|done].
  split; [done| |done|done| |cbn; congruence].
  - intros q M Hq. destruct (decide (q = p)) as [->|Hne].
    + rewrite Hp in Hq. injection Hq as <-. exists d, u, ho. cbn. rewrite Hk, lookup_insert_eq. by rewrite Hz.
    + destruct (Hother q M Hne Hq) as (d' & u' & ho' & H1 & H2 & H3). exists d', u', ho'. cbn.
      rewrite Hk, lookup_insert_ne, Hz; [done|]. unfold page_key. congruence.
  - intros k Hkk. destruct (decide (pb_key g = k)) as [<-|Hne].
    + split; [by rewrite Hk|done].
    + rewrite lookup_insert_ne in Hkk by done. by apply Hc.
Qed.

(** *** Requirements *)
Definition steady (w w' : World) : Prop :=
  w_tree w' = w_tree w ∧ w_buffer w' = w_buffer w ∧
  ∀ k, dep_le (required_of (w_deps w) k) (required_of (w_deps w') k).

Lemma steady_refl w : steady w w.
Proof. split_and!; [done..|]. intros k. apply dep_le_refl. Qed.
Lemma steady_trans w w' w'' : steady w w' → steady w' w'' → steady w w''.
Proof. intros (?&?&H1) (?&?&H2). split_and!; [congruence..|]. intros k. by eapply dep_le_trans. Qed.

Lemma steady_attached w w' k : steady w w' → attached w k → attached w' k.
Proof. intros (_ & _ & Hle) Ha required Hd. eapply dep_le_trans; [by apply Ha|apply Hle]. Qed.

Lemma op_inv_steady w w' V T gs ls :
  steady w w' → table_wf (pt_shards (w_deps w')) → op_inv w V T gs ls → op_inv w' V T gs ls.
Proof.
  intros Hs Ht [Hr Hi Hw _ Hc Hsz]. pose proof Hs as (Htr & Hb & _). split; [by rewrite Hb| |by rewrite Htr|done| |congruence].
  - intros p N Hp. destruct (Hi p N Hp) as (d & u & ho & H1 & H2 & H3). exists d, u, ho. by rewrite Htr, Hb.
  - intros k Hk. rewrite Htr. destruct (Hc k Hk). split; [done|by eapply steady_attached].
Qed.

Lemma merge_inv w V T gs ls p required w' r :
  op_inv w V T gs ls → merge_dependency p required w = (w', r) →
  steady w w' ∧ op_inv w' V T gs ls ∧
  match r with
  | Ok m => m = required_of (w_deps w') (page_key (w_tree w) p) ∧ dep_le required m
  | Err e => ∃ de, e = BTreePageDependency de
  end.
Proof.
  intros Hi. unfold merge_dependency. destruct (dependency_merge _ _ _) as [s r0] eqn:E.
  intros [<- <-]%pair_equal_spec. pose proof (oi_table _ _ _ _ _ Hi) as Ht.
  pose proof (dep_exec_mono (DMerge (page_key (w_tree w) p) required) (w_deps w) Ht) as (Ht' & _ & _ & Hm).
  cbn [dep_exec] in Ht', Hm. rewrite E in Ht', Hm. cbn [fst] in Ht', Hm.
  assert (steady w (with_deps s w)) as Hs by done. split; [done|]. split; [by eapply op_inv_steady|].
  destruct r0 as [m|de]; cbn [map_err]; [|by eexists].
  pose proof (dependency_merge_Ok _ _ _ _ _ Ht E) as (_ & _ & _ & Hk). specialize (Hk (page_key (w_tree w) p)).
  rewrite decide_True in Hk by done. cbn [w_deps with_deps]. rewrite Hk.
  assert (m = merged (required_of (w_deps w) (page_key (w_tree w) p)) required) as ->.
  { unfold dependency_merge in E. destruct (shard_lock _ _) as [es|] eqn:El; [|done]. injection E as _ <-.
    unfold required_of. f_equal. apply shard_lock_Ok in El as <-. done. }
  split; [done|]. apply merged_upper.
Qed.

Lemma attach_inv w V T gs ls p w' r :
  op_inv w V T gs ls → attach_operation_dependency dep p w = (w', r) →
  steady w w' ∧ op_inv w' V T gs ls ∧
  match r with
  | Ok m => attached w' (page_key (w_tree w) p) ∧
            ∀ required, dep = Some required → ∃ d, m = Some d ∧ dep_le required d
  | Err e => ∃ de, e = BTreePageDependency de
  end.
Proof.
  intros Hi. unfold attach_operation_dependency, attached. destruct dep as [required|] eqn:Ed.
  - destruct (merge_dependency p required w) as [w1 [m|e]] eqn:E; intros [<- <-]%pair_equal_spec;
      destruct (merge_inv _ _ _ _ _ _ _ _ _ Hi E) as (Hs & Hi1 & Hm); split; [done| |done|]; (split; [done|]); [|done].
    destruct Hm as [-> Hm]. split; intros ? [= <-]; [done|by eexists].
  - intros [<- <-]%pair_equal_spec. split; [apply steady_refl|]. split; [done|]. done.
Qed.

Lemma attach_leaf_split_inv w V T gs ls leaf right_id w' r :
  op_inv w V T gs ls → attach_leaf_split dep leaf right_id w = (w', r) →
  steady w w' ∧ op_inv w' V T gs ls ∧
  match r with
  | Ok _ => attached w' (page_key (w_tree w) leaf) ∧ attached w' (page_key (w_tree w) right_id)
  | Err e => ∃ de, e = BTreePageDependency de
  end.
Proof.
  intros Hi. unfold attach_leaf_split, attached. destruct dep as [required|] eqn:Ed.
  2:{ intros [<- <-]%pair_equal_spec. split; [apply steady_refl|]. split; [done|]. done. }
  unfold page_requirements. destruct (requirements _ _) as [inherited|e] eqn:Er; cbn [map_err].
  2:{ intros [<- <-]%pair_equal_spec. split; [apply steady_refl|]. split; [done|]. by eexists. }
  pose proof (merged_upper inherited required) as [_ Hup].
  destruct (merge_dependency leaf _ w) as [w1 [m1|e1]] eqn:E1;
    destruct (merge_inv _ _ _ _ _ _ _ _ _ Hi E1) as (Hs1 & Hi1 & Hm1).
  2:{ intros [<- <-]%pair_equal_spec. done. }
  destruct (merge_dependency right_id _ w1) as [w2 [m2|e2]] eqn:E2;
    destruct (merge_inv _ _ _ _ _ _ _ _ _ Hi1 E2) as (Hs2 & Hi2 & Hm2); intros [<- <-]%pair_equal_spec;
    (split; [by eapply steady_trans|]); (split; [done|]); [|done].
  pose proof Hs1 as (Ht1 & _). rewrite Ht1 in Hm2. destruct Hm1 as [-> Hm1], Hm2 as [-> Hm2].
  split; intros ? [= <-].
  - eapply dep_le_trans; [apply Hup|]. eapply dep_le_trans; [apply Hm1|]. apply Hs2.
  - eapply dep_le_trans; [apply Hup|apply Hm2].
Qed.

Lemma attach_root_inv w V T gs ls root right_id new_root w' r :
  op_inv w V T gs ls → attach_root dep root right_id new_root w = (w', r) →
  steady w w' ∧ op_inv w' V T gs ls ∧
  match r with
  | Ok _ => attached w' (page_key (w_tree w) new_root)
  | Err e => ∃ de, e = BTreePageDependency de
  end.
Proof.
  intros Hi. unfold attach_root, attached. destruct dep as [required|] eqn:Ed.
  2:{ intros [<- <-]%pair_equal_spec. split; [apply steady_refl|]. split; [done|]. done. }
  unfold page_requirements. destruct (requirements _ (page_key _ root)) as [r1|e1]; cbn [map_err].
  2:{ intros [<- <-]%pair_equal_spec. split; [apply steady_refl|]. split; [done|]. by eexists. }
  destruct (requirements _ (page_key _ right_id)) as [r2|e2]; cbn [map_err].
  2:{ intros [<- <-]%pair_equal_spec. split; [apply steady_refl|]. split; [done|]. by eexists. }
  destruct (merge_dependency new_root _ w) as [w1 [m1|e1]] eqn:E1;
    destruct (merge_inv _ _ _ _ _ _ _ _ _ Hi E1) as (Hs1 & Hi1 & Hm1); intros [<- <-]%pair_equal_spec;
    (split; [done|]); (split; [done|]); [|done].
  destruct Hm1 as [-> Hm1]. intros ? [= <-].
  eapply dep_le_trans; [|exact Hm1].
  eapply dep_le_trans; [apply (merged_upper required r1)|apply (merged_upper (merged required r1) r2)].
Qed.

(** *** New pages *)
Lemma allocate_inv w V T gs ls w' r :
  op_inv w V T gs ls → allocate_page w = (w', r) →
  match r with
  | Ok id => id = bt_next_page (w_tree w) ∧ 0 ≤ id < U64_MAX ∧ w_buffer w' = w_buffer w ∧ w_deps w' = w_deps w ∧
             bt_next_page (w_tree w') = id + 1 ∧ bt_root (w_tree w') = bt_root (w_tree w) ∧
             bt_descriptor (w_tree w') = bt_descriptor (w_tree w) ∧
             bt_poisoned (w_tree w') = bt_poisoned (w_tree w) ∧ op_inv w' V T gs ls
  | Err e => w' = w ∧ e = PageIdExhausted
  end.
Proof.
  intros [Hr Hi Hw Ht Hc Hsz]. unfold allocate_page, RESERVED_PAGE_ID, checked_add.
  assert (0 ≤ bt_next_page (w_tree w) ≤ U64_MAX) as Hn.
  { destruct (tw_root _ _ _ Hw) as (R & HR & _). apply (tw_nodes _ _ _ Hw) in HR as [_ ?].
    pose proof (tw_next _ _ _ Hw). lia. }
  destruct (_ =? _) eqn:E; bool_to_prop.
  { by intros [<- <-]%pair_equal_spec. }
  rewrite (proj2 (Z.leb_le _ _)) by lia. intros [<- <-]%pair_equal_spec. split_and!; try done; [lia..|].
  split; try done. split.
  - intros p N Hp. destruct (tw_nodes _ _ _ Hw p N Hp). split; [done|cbn; lia].
  - cbn. lia.
  - apply Hw.
  - apply Hw.
Qed.

Lemma create_inv w V T gs ls p d w' r :
  op_inv w V T gs ls → T !! p = None → attached w (page_key (w_tree w) p) →
  on_buffer (pb_create (page_key (w_tree w) p) d) w = (w', r) →
  same w w' ∧
  match r with
  | Ok g => op_inv w' (<[page_key (w_tree w) p := d]> V) T (g :: gs) ls ∧ pb_key g = page_key (w_tree w) p
  | Err e => op_inv w' V T gs ls ∧ ∃ be, e = BTreeBuffer be
  end.
Proof.
  intros Hi Hp Hatt. unfold on_buffer. destruct (pb_create _ d (w_buffer w)) as [b r0] eqn:E.
  intros [<- <-]%pair_equal_spec. destruct (pb_create_repr _ _ _ _ _ _ _ _ (oi_repr _ _ _ _ _ Hi) E) as [Hr Hz].
  assert (same w (with_buffer b w)) as Hs by done. split; [done|]. destruct r0 as [g|e]; cbn [map_err].
  - destruct Hr as (Hr & Hk & Hd). split; [|done]. destruct Hi as [_ Hi Hw Ht Hc Hsz]. split; [done| |done|done| |cbn; congruence].
    + intros q M Hq. destruct (Hi q M Hq) as (d' & u & ho & H1 & H2 & H3). exists d', u, ho. cbn.
      rewrite lookup_insert_ne, Hz; [done|]. unfold page_key. intros [= ->]. congruence.
    + intros k Hkk. destruct (decide (page_key (w_tree w) p = k)) as [<-|Hne]; [done|].
      rewrite lookup_insert_ne in Hkk by done. by apply Hc.
  - split; [by eapply op_inv_same|by eexists].
Qed.

Lemma size_bounds w V T gs ls :
  op_inv w V T gs ls → HEADER_SIZE + SLOT_SIZE ≤ pb_page_size (w_buffer w) ≤ U32_MAX.
Proof.
  intros Hi. destruct (root_node_at _ _ _ _ _ Hi) as (R & HR & _).
  destruct (oi_images _ _ _ _ _ Hi _ _ HR) as (d & u & ho & _ & <- & Hat). apply Hat.
Qed.

(** What keeps a structural change from finishing. *)
Definition structural_error (e : BTreeError) : Prop :=
  (∃ be, e = BTreeBuffer be) ∨ (∃ de, e = BTreePageDependency de) ∨ e = PageIdExhausted ∨
  e = EntryTooLarge ∨ ∃ p, e = BTreeCorruption p few_entries.

(** Publishing a split: the right half is created first, the left half stored over
    the old page. *)
Lemma publish_split w V T g p N s bl br right_id dr dl w' r ur hor ul hol :
  op_inv w V T [g] {[pb_key g]} → pb_key g = page_key (w_tree w) p → T !! p = Some N →
  tree_wf T (bt_root (w_tree w)) right_id → bt_next_page (w_tree w) = right_id + 1 → right_id < U64_MAX →
  klt (n_low N) s ∧ below s (n_high N) →
  body_wf T (left_half N s right_id bl) → body_wf T (right_half N s br) →
  attached w (pb_key g) → attached w (page_key (w_tree w) right_id) →
  len dr = pb_page_size (w_buffer w) → page_at dr (node_page (right_half N s br)) ur hor →
  len dl = pb_page_size (w_buffer w) → page_at dl (node_page (left_half N s right_id bl)) ul hol →
  (do? (w, right_guard) := on_buffer (pb_create (page_key (w_tree w) right_id) dr) w in
   (store g dl w, Ok (s, right_id, right_guard))) = (w', r) →
  w_tree w' = w_tree w ∧ w_deps w' = w_deps w ∧
  match r with
  | Ok (s', r', rg) => s' = s ∧ r' = right_id ∧
      ∃ V', op_inv w' V' (split_tree T p N s right_id bl br) [rg; g] {[pb_key g]}
  | Err e => op_inv w' V T [g] {[pb_key g]} ∧ structural_error e
  end.
Proof.
  intros Hi Hk Hp Hwf Hnext Hlt Hs HL HR Ha1 Ha2 Hdr Hatr Hdl Hatl.
  pose proof (next_fresh _ _ _ Hwf) as Hf.
  destruct (on_buffer (pb_create _ dr) w) as [w1 [rg|e]] eqn:E;
    destruct (create_inv _ _ _ _ _ _ _ _ _ Hi Hf Ha2 E) as [Hsame Hc]; pose proof Hsame as (Ht & Hd & Hz);
    intros [<- <-]%pair_equal_spec; cycle 1.
  { destruct Hc as [Hc [be ->]]. split_and!; [done..|by left; eexists]. }
  destruct Hc as [Hi1 Hkr]. assert (p ≠ right_id) as Hne by congruence.
  destruct (store_inv w1 _ _ (split_tree T p N s right_id bl br) [rg; g] {[pb_key g]} g p
    (left_half N s right_id bl) dl ul hol Hi1) as (Hi2 & Ht2 & Hd2 & Hz2); try done.
  - set_solver.
  - by rewrite Ht.
  - set_solver.
  - unfold attached. by rewrite Hd.
  - by rewrite Hz.
  - unfold split_tree. by rewrite lookup_insert_ne, lookup_insert_eq.
  - intros q M Hqp [[-> ->]|[[-> _]|(_ & Hq2 & Hq)]]%split_lookup; [|done|].
    + exists dr, ur, hor. rewrite Ht, lookup_insert_eq, Hz. done.
    + destruct (oi_images _ _ _ _ _ Hi q M Hq) as (d & u & ho & H1 & H2 & H3). exists d, u, ho.
      rewrite Ht, lookup_insert_ne, Hz; [done|]. unfold page_key. congruence.
  - rewrite Ht, Hnext. by apply split_wf.
  - split_and!; [congruence..|]. by eexists.
Qed.

(** Both splits from the allocation on: [mkl] and [mkr] build the halves and [att]
    gives them their requirements. *)
Lemma halves_inv (att : PageId → World → World * result unit BTreeError) mkl mkr w V T g p N s bl br w' r :
  op_inv w V T [g] {[pb_key g]} → pb_key g = page_key (w_tree w) p → T !! p = Some N →
  (∀ id, page_id_ok id → (klt (n_low N) s ∧ below s (n_high N)) ∧
     body_wf T (left_half N s id bl) ∧ body_wf T (right_half N s br)) →
  (∀ id z, mkl id z = build z (node_page (left_half N s id bl))) →
  (∀ z, mkr z = build z (node_page (right_half N s br))) →
  (∀ id w1 w2 r, op_inv w1 V T [g] {[pb_key g]} → w_deps w1 = w_deps w →
     bt_descriptor (w_tree w1) = bt_descriptor (w_tree w) → att id w1 = (w2, r) →
     steady w1 w2 ∧ op_inv w2 V T [g] {[pb_key g]} ∧
     match r with
     | Ok _ => attached w2 (pb_key g) ∧ attached w2 (page_key (w_tree w1) id)
     | Err e => ∃ de, e = BTreePageDependency de
     end) →
  (do? (w, id) := allocate_page w in
   do? (w, li) := (w, map_err (map_build_error p) (mkl id (pb_page_size (w_buffer w)))) in
   do? (w, ri) := (w, map_err (map_build_error id) (mkr (pb_page_size (w_buffer w)))) in
   do? (w, _) := att id w in
   do? (w, right_guard) := on_buffer (pb_create (page_key (w_tree w) id) ri) w in
   (store g li w, Ok (s, id, right_guard))) = (w', r) →
  bt_root (w_tree w') = bt_root (w_tree w) ∧ bt_descriptor (w_tree w') = bt_descriptor (w_tree w) ∧
  match r with
  | Ok (s', id, rg) => s' = s ∧ id = bt_next_page (w_tree w) ∧ id < U64_MAX ∧
      ∃ V', op_inv w' V' (split_tree T p N s id bl br) [rg; g] {[pb_key g]}
  | Err e => op_inv w' V T [g] {[pb_key g]} ∧ structural_error e
  end.
Proof.
  intros Hi Hk Hp Hhalves Hmkl Hmkr Hatts. pose proof (size_bounds _ _ _ _ _ Hi) as Hsz.
  destruct (allocate_page w) as [w1 [id|e]] eqn:Ea; pose proof (allocate_inv _ _ _ _ _ _ _ Hi Ea) as Hal.
  2:{ destruct Hal as [-> ->]. intros [<- <-]%pair_equal_spec. split_and!; [done..|]. by do 2 right; left. }
  destruct Hal as (Hid & Hidb & Hb1 & Hd1 & Hn1 & Hr1 & Hds1 & _ & Hi3).
  assert (page_id_ok id) as Hidok by (unfold page_id_ok, is_u64, NONE_PAGE, U64_MAX in *; lia).
  assert (∀ q, page_key (w_tree w1) q = page_key (w_tree w) q) as Hpk by (intros q; unfold page_key; by rewrite Hds1).
  destruct (Hhalves id Hidok) as (Hrange & HL & HR). rewrite Hb1, Hmkl, Hmkr.
  destruct (build_node (pb_page_size (w_buffer w)) _ (proj1 HL) Hsz) as [(_ & dl & ul & hol & Hbl & Hdl & Hatl)|(_ & e & Hbl & He & _)];
    rewrite Hbl; cbn [map_err]; cycle 1.
  { rewrite He. intros [<- <-]%pair_equal_spec. split_and!; [done..|]. by do 3 right; left. }
  destruct (build_node (pb_page_size (w_buffer w)) _ (proj1 HR) Hsz) as [(_ & dr & ur & hor & Hbr & Hdr & Hatr)|(_ & e & Hbr & He & _)];
    rewrite Hbr; cbn [map_err]; cycle 1.
  { rewrite He. intros [<- <-]%pair_equal_spec. split_and!; [done..|]. by do 3 right; left. }
  destruct (att id w1) as [w2 [[]|e]] eqn:Eat;
    pose proof (Hatts _ _ _ _ Hi3 Hd1 Hds1 Eat) as ((Ht2 & Hb2 & _) & Hi4 & Hat); cycle 1.
  { intros [<- <-]%pair_equal_spec. rewrite Ht2. split_and!; [done..|]. right. left. done. }
  destruct Hat as [Hat1 Hat2]. intros Hpub.
  destruct (publish_split w2 V T g p N s bl br id dr dl w' r ur hor ul hol Hi4) as (Ht3 & _ & Hres);
    try done; try (by rewrite Ht2, ?Hpk); try (by rewrite Hb2, Hb1);
    [by rewrite Ht2, Hr1, Hid; apply Hi|lia|by rewrite Ht2|].
  rewrite Ht3, Ht2. split; [done|]. split; [done|]. destruct r as [[[s' id'] rg]|e]; [|done].
  destruct Hres as (-> & -> & V' & Hinv). split_and!; [done..|lia|by exists V'].
Qed.

Lemma split_leaf_inv w V T g p N es w' r :
  op_inv w V T [g] {[pb_key g]} → pb_key g = page_key (w_tree w) p → T !! p = Some N →
  node_wf T (with_body N (LeafBody es)) → len es ≤ MANY →
  split_leaf dep p (n_high N) (n_right N) es g w = (w', r) →
  bt_root (w_tree w') = bt_root (w_tree w) ∧ bt_descriptor (w_tree w') = bt_descriptor (w_tree w) ∧
  match r with
  | Ok (s, right_id, rg) =>
      ∃ V' l1 v l2, es = l1 ++ (s, v) :: l2 ∧ l1 ≠ [] ∧ right_id = bt_next_page (w_tree w) ∧ right_id < U64_MAX ∧
        op_inv w' V' (split_tree T p N s right_id (LeafBody l1) (LeafBody ((s, v) :: l2))) [rg; g] {[pb_key g]}
  | Err e => op_inv w' V T [g] {[pb_key g]} ∧ structural_error e
  end.
Proof.
  intros Hi Hk Hp Hnw Hmany. unfold split_leaf, page_error.
  pose proof (nw_page _ _ Hnw) as (_ & Hpl & _). cbn in Hpl. rewrite Forall_map in Hpl.
  pose proof (choose_leaf_split_at es Hpl Hmany) as Hch. destruct (decide (2 ≤ length es)%nat) as [H2|H2]; cycle 1.
  { rewrite Hch. cbn [map_err]. intros [<- <-]%pair_equal_spec. split_and!; [done..|].
    do 4 right. by eexists. }
  destruct Hch as (i & -> & Hi1 & Hi2). cbn [map_err]. rewrite Nat2Z.id.
  destruct (lookup_lt_is_Some_2 es i Hi2) as [[s v] Hs]. rewrite Hs.
  pose proof (take_drop_middle es i (s, v) Hs) as Hes. cbn [fmap option_fmap option_map fst from_option id].
  rewrite (drop_S es (s, v) i Hs). set (l1 := take i es) in *. set (l2 := drop (S i) es) in *.
  assert (l1 ≠ []) as Hl1 by (subst l1; intros Hn%(f_equal length); rewrite length_take in Hn; cbn in Hn; lia).
  rewrite <-Hes in Hnw. intros Hrun.
  destruct (halves_inv (λ id, attach_leaf_split dep p id)
    (λ id z, build_leaf z (Some s) (Some id) l1) (λ z, build_leaf z (n_high N) (n_right N) ((s, v) :: l2))
    w V T g p N s (LeafBody l1) (LeafBody ((s, v) :: l2)) w' r Hi Hk Hp) as (Hr & Hd & Hres); try done.
  - intros id Hid. by apply leaf_halves.
  - intros id w1 w2 r' Hi1' Hd1 Hds Hat. destruct (attach_leaf_split_inv _ _ _ _ _ _ _ _ _ Hi1' Hat) as (H1 & H3 & H4).
    split; [done|]. split; [done|]. destruct r' as [[]|]; [|done]. rewrite Hk.
    replace (page_key (w_tree w) p) with (page_key (w_tree w1) p); [done|]. unfold page_key. by rewrite Hds.
  - split; [done|]. split; [done|]. destruct r as [[[s' id'] rg]|e]; [|done].
    destruct Hres as (-> & -> & Hlt & V' & Hinv). by exists V', l1, v, l2.
Qed.

(** The requirements of the new half of an internal page. *)
Lemma attach_half_inv parent_required w V T gs ls id w' r :
  op_inv w V T gs ls →
  (∀ required, dep = Some required → ∃ d, parent_required = Some d ∧ dep_le required d) →
  match dep, parent_required with
  | Some _, Some parent_required =>
      do? (w, _) := merge_dependency id parent_required w in (w, Ok tt)
  | _, _ => (w, Ok tt)
  end = (w', r) →
  steady w w' ∧ op_inv w' V T gs ls ∧
  match r with
  | Ok _ => attached w' (page_key (w_tree w) id)
  | Err e => ∃ de, e = BTreePageDependency de
  end.
Proof.
  intros Hi Hpr. unfold attached. destruct dep as [required|] eqn:Ed.
  2:{ intros [<- <-]%pair_equal_spec. split; [apply steady_refl|]. done. }
  destruct (Hpr required eq_refl) as (d & -> & Hle).
  destruct (merge_dependency id d w) as [w1 [m|e]] eqn:E; intros [<- <-]%pair_equal_spec;
    destruct (merge_inv _ _ _ _ _ _ _ _ _ Hi E) as (Hs & Hi1 & Hm); (split; [done|]); (split; [done|]); [|done].
  destruct Hm as [-> Hm]. intros ? [= <-]. by eapply dep_le_trans.
Qed.

Lemma split_internal_inv parent_required w V T g p N c0 es s right_id d u ho w' r :
  op_inv w V T [g] {[pb_key g]} → pb_key g = page_key (w_tree w) p → T !! p = Some N →
  n_body N = InternalBody c0 es → page_at d (node_page N) u ho →
  node_wf T (with_body N (InternalBody c0 (BTreeMap.insert s right_id es))) → BTreeMap.get s es = None →
  len (BTreeMap.insert s right_id es) ≤ MANY → attached w (pb_key g) →
  (∀ required, dep = Some required → ∃ d, parent_required = Some d ∧ dep_le required d) →
  split_internal dep parent_required p s right_id d g w = (w', r) →
  bt_root (w_tree w') = bt_root (w_tree w) ∧ bt_descriptor (w_tree w') = bt_descriptor (w_tree w) ∧
  match r with
  | Ok (k, id, rg) =>
      ∃ V' l1 c l2, BTreeMap.insert s right_id es = l1 ++ (k, c) :: l2 ∧ l1 ≠ [] ∧
        id = bt_next_page (w_tree w) ∧ id < U64_MAX ∧
        op_inv w' V' (split_tree T p N k id (InternalBody c0 l1) (InternalBody c l2)) [rg; g] {[pb_key g]}
  | Err e => op_inv w' V T [g] {[pb_key g]} ∧ structural_error e
  end.
Proof.
  intros Hi Hk Hp Hbody Hatd Hnw Hget Hmany Hatt Hpr. unfold split_internal, page_error.
  pose proof (size_bounds _ _ _ _ _ Hi) as Hsz. rewrite (page_parse_at _ _ _ _ Hatd). cbn [map_err].
  rewrite (high_fence_at _ _ _ _ Hatd). cbn [map_err]. unfold leftmost_child, PageV4.right_sibling.
  cbn [pr_header header_of h_leftmost_child h_right_sibling].
  assert (p_high (node_page N) = n_high N ∧ p_right (node_page N) = n_right N ∧
          node_page N = internal_page (n_high N) (n_right N) c0 es) as (-> & -> & HP).
  { unfold node_page. by rewrite Hbody. }
  rewrite HP in *. cbn [p_leftmost internal_page ok_or map_err].
  rewrite (internal_entries_at _ _ _ _ _ _ _ Hatd). cbn [map_err].
  unfold BTreeMap.contains_key. rewrite Hget. set (es' := BTreeMap.insert s right_id es) in *.
  pose proof (nw_page _ _ Hnw) as (_ & Hpl & _). cbn in Hpl. rewrite Forall_map in Hpl.
  assert (Forall (λ e, len e.1 ≤ U16_MAX) es') as Hkl by (eapply Forall_impl; [exact Hpl|cbn; tauto]).
  pose proof (choose_internal_split_at es' Hkl Hmany) as Hch. destruct (decide (2 ≤ length es')%nat) as [H2|H2]; cycle 1.
  { rewrite Hch. cbn [map_err]. intros [<- <-]%pair_equal_spec. split_and!; [done..|]. do 4 right. by eexists. }
  destruct Hch as (i & -> & Hi1 & Hi2). cbn [map_err]. rewrite Nat2Z.id, Nat.add_1_r.
  destruct (lookup_lt_is_Some_2 es' i Hi2) as [[k c] Hkc].
  pose proof (take_drop_middle es' i (k, c) Hkc) as Hes. rewrite (take_S_r es' i (k, c) Hkc).
  set (l1 := take i es') in *. set (l2 := drop (S i) es') in *.
  rewrite last_snoc, removelast_last. cbn [ok_or map_err].
  assert (l1 ≠ []) as Hl1 by (subst l1; intros Hn%(f_equal length); rewrite length_take in Hn; cbn in Hn; lia).
  assert (c0 ≠ NONE_PAGE ∧ c ≠ NONE_PAGE) as [Hc0 Hc].
  { pose proof (nw_page _ _ Hnw) as ([Hl0 _] & _). split; [apply Hl0|]. rewrite <-Hes in Hpl.
    apply Forall_app in Hpl as [_ [[_ Hpc] _]%Forall_cons]. apply Hpc. }
  rewrite <-Hes in Hnw. intros Hrun.
  destruct (halves_inv (λ id w, match dep, parent_required with
      | Some _, Some parent_required => do? (w, _) := merge_dependency id parent_required w in (w, Ok tt)
      | _, _ => (w, Ok tt) end)
    (λ id z, build_internal z (Some k) (Some id) c0 l1) (λ z, build_internal z (n_high N) (n_right N) c l2)
    w V T g p N k (InternalBody c0 l1) (InternalBody c l2) w' r Hi Hk Hp) as (Hr & Hd & Hres).
  - intros id Hid. by apply internal_halves.
  - intros id z. unfold build_internal. by rewrite (proj2 (Z.eqb_neq c0 _)).
  - intros z. unfold build_internal. by rewrite (proj2 (Z.eqb_neq c _)).
  - intros id w1 w2 r' Hi1' Hd1 Hds Hat.
    destruct (attach_half_inv parent_required _ _ _ _ _ _ _ _ Hi1' Hpr Hat) as (H1 & H3 & H4).
    split; [done|]. split; [done|]. destruct r' as [[]|]; [|done]. split; [|done].
    eapply steady_attached; [done|]. unfold attached. by rewrite Hd1.
  - exact Hrun.
  - split; [done|]. split; [done|]. destruct r as [[[s' id'] rg]|e]; [|done].
    destruct Hres as (-> & -> & Hlt & V' & Hinv). by exists V', l1, c, l2.
Qed.

(** *** Propagation *)
Definition orphan (T : Tree) (id : PageId) : Prop :=
  ∀ p N, T !! p = Some N → id ∉ (node_children N).*2.

Lemma separator_new T root next p N c0 es s id l :
  tree_wf T root next → T !! p = Some N → n_body N = InternalBody c0 es → n_level N = S l →
  node_at T id l s → orphan T id → BTreeMap.get s es = None.
Proof.
  intros Hwf Hp Hb Hl (R & HR & HRl & HRlow) Ho. destruct (BTreeMap.get s es) as [c|] eqn:E; [|done]. exfalso.
  apply BTreeMap.get_elem in E. destruct (tw_nodes _ _ _ Hwf p N Hp) as [[_ _ _ _ Hc] _].
  assert ((s, c) ∈ node_children N) as Hin by (unfold node_children; rewrite Hb; by constructor).
  rewrite Forall_forall in Hc. destruct (Hc _ Hin) as (l' & Hl' & C & HC & HCl & HClow). cbn [fst snd] in *.
  assert (c = id) as ->.
  { eapply (covers_unique _ _ _ Hwf c id C R s HC HR); [lia| |].
    - rewrite <-HClow. by eapply covers_low.
    - rewrite <-HRlow. by eapply covers_low. }
  apply (Ho p N Hp). by apply (list_elem_of_fmap_2 snd) in Hin.
Qed.

Lemma store_same w V T g p N d u ho :
  op_inv w V T [g] {[pb_key g]} → pb_key g = page_key (w_tree w) p → T !! p = Some N → attached w (pb_key g) →
  len d = pb_page_size (w_buffer w) → page_at d (node_page N) u ho →
  ∃ V', op_inv (store g d w) V' T [g] {[pb_key g]} ∧ same w (store g d w).
Proof.
  intros Hi Hk Hp Ha Hd Hat. destruct (store_inv w V T T [g] {[pb_key g]} g p N d u ho Hi) as (Hi' & H1 & H2 & H3); try done.
  - set_solver.
  - set_solver.
  - intros q M _ Hq. by apply (oi_images _ _ _ _ _ Hi).
  - apply Hi.
  - by eexists.
Qed.

Lemma store_body w V T g p N body d u ho :
  op_inv w V T [g] {[pb_key g]} → pb_key g = page_key (w_tree w) p → T !! p = Some N → attached w (pb_key g) →
  len d = pb_page_size (w_buffer w) → page_at d (node_page (with_body N body)) u ho → node_wf T (with_body N body) →
  ∃ V', op_inv (store g d w) V' (<[p := with_body N body]> T) [g] {[pb_key g]} ∧ same w (store g d w).
Proof.
  intros Hi Hk Hp Ha Hd Hat Hnw.
  destruct (store_inv w V T (<[p := with_body N body]> T) [g] {[pb_key g]} g p (with_body N body) d u ho Hi)
    as (Hi' & H1 & H2 & H3); try done.
  - set_solver.
  - set_solver.
  - by rewrite lookup_insert_eq.
  - intros q M Hne Hq. rewrite lookup_insert_ne in Hq by done. by apply (oi_images _ _ _ _ _ Hi).
  - apply update_wf; [apply Hi|done|done].
  - by eexists.
Qed.

Lemma propagate_turn_inv w V T g p N l s right_id d u ho w' gs r :
  op_inv w V T [g] {[pb_key g]} → pb_key g = page_key (w_tree w) p → T !! p = Some N →
  len d = pb_page_size (w_buffer w) → page_at d (node_page N) u ho →
  n_level N = S l → covers N s → node_at T right_id l s → page_id_ok right_id → len s ≤ U16_MAX → orphan T right_id →
  propagate_turn dep p s right_id g d w = (w', gs, r) →
  bt_root (w_tree w') = bt_root (w_tree w) ∧ bt_descriptor (w_tree w') = bt_descriptor (w_tree w) ∧
  ∃ V' c0 es, n_body N = InternalBody c0 es ∧
  match r with
  | Ok None => gs = [] ∧
      op_inv w' V' (<[p := with_body N (InternalBody c0 (BTreeMap.insert s right_id es))]> T) [g] {[pb_key g]}
  | Ok (Some (k, id)) =>
      ∃ rg l1 c l2, gs = [rg] ∧ BTreeMap.insert s right_id es = l1 ++ (k, c) :: l2 ∧ l1 ≠ [] ∧
        id = bt_next_page (w_tree w) ∧ id < U64_MAX ∧
        op_inv w' V' (split_tree T p N k id (InternalBody c0 l1) (InternalBody c l2)) [rg; g] {[pb_key g]}
  | Err e => gs = [] ∧ op_inv w' V' T [g] {[pb_key g]} ∧ structural_error e
  end.
Proof.
  intros Hi Hk Hp Hd Hat Hl Hcov Hright Hid Hsl Horph. pose proof (oi_wf _ _ _ _ _ Hi) as Hwf.
  destruct (tw_nodes _ _ _ Hwf p N Hp) as [HN _].
  assert (∃ c0 es, n_body N = InternalBody c0 es) as (c0 & es & Hb).
  { pose proof (nw_level _ _ HN) as Hlv. destruct (n_body N) as [es|c0 es]; [congruence|by eexists _, _]. }
  pose proof (separator_new _ _ _ _ _ _ _ _ _ _ Hwf Hp Hb Hl Hright Horph) as Hget.
  pose proof (separator_wf _ _ _ _ _ _ _ HN Hb Hcov Hsl Hid Hl Hright) as Hnw.
  assert (node_page N = internal_page (n_high N) (n_right N) c0 es) as HP by (unfold node_page; by rewrite Hb).
  assert (keys_sorted es) as Hs.
  { pose proof (node_sorted _ _ HN) as Hs. rewrite HP in Hs. by apply (map_sorted EncodedChild es). }
  unfold propagate_turn. destruct (attach_operation_dependency dep p w) as [w1 [m|e]] eqn:Ea;
    destruct (attach_inv _ _ _ _ _ _ _ _ Hi Ea) as ((Ht1 & Hb1 & Hle1) & Hi1 & Hm); cycle 1.
  { intros [[<- <-]%pair_equal_spec <-]%pair_equal_spec. rewrite Ht1. split; [done|]. split; [done|].
    exists V, c0, es. split; [done|]. split_and!; [done..|]. right. by left. }
  destruct Hm as [Hatt Hpr]. rewrite <-Hk in Hatt.
  rewrite HP in Hat. pose proof (try_insert_internal_spec d _ _ _ _ u ho s right_id Hat Hs Hid) as Hins.
  rewrite <-HP in Hins. rewrite right_of_node in Hins.
  assert (beyond N s = None) as Hbey.
  { unfold beyond. destruct Hcov as [_ Hcov]. destruct (n_high N) as [h|]; [|done]. cbn in Hcov. unfold klt in Hcov. by rewrite Hcov. }
  rewrite Hbey, Hget, decide_True in Hins by done. destruct Hins as (d' & u' & ho' & Hd' & Hins).
  assert (pb_key g = page_key (w_tree w1) p) as Hk1 by (by rewrite Ht1).
  assert (len d' = pb_page_size (w_buffer w1)) as Hdl by (by rewrite Hb1, Hd').
  destruct (decide (page_fits _ _)) as [Hf|Hf]; destruct Hins as [-> Hat'].
  - intros [[<- <-]%pair_equal_spec <-]%pair_equal_spec.
    destruct (store_body w1 V T g p N (InternalBody c0 (BTreeMap.insert s right_id es)) d' u' ho' Hi1) as (V' & Hi2 & Ht2 & _); try done.
    rewrite Ht2, Ht1. split; [done|]. split; [done|]. by exists V', c0, es.
  - destruct (store_same w1 V T g p N d' u' ho' Hi1) as (V' & Hi2 & Ht2 & Hd2 & Hz2); try done.
    destruct (split_internal dep m p s right_id d' g (store g d' w1)) as [w2 r2] eqn:Es.
    destruct (split_internal_inv m _ V' T g p N c0 es s right_id d' u' ho' w2 r2 Hi2) as (Hr & Hds & Hres); try done.
    { pose proof (insert_len s right_id es). pose proof (entries_bound _ _ _ _ Hat) as He. cbn in He.
      unfold len in He. rewrite length_map in He. unfold len in *. lia. }
    rewrite Ht2, Ht1 in Hr, Hds. destruct r2 as [[[k id] rg]|e]; cbn [split_done];
      intros [[<- <-]%pair_equal_spec <-]%pair_equal_spec; (split; [done|]); (split; [done|]).
    + destruct Hres as (V2 & l1 & c & l2 & H1 & H2 & H3 & H4 & H5). exists V2, c0, es. split; [done|].
      exists rg, l1, c, l2. rewrite Ht2, Ht1 in H3. done.
    + exists V', c0, es. destruct Hres. done.
Qed.

Lemma root_page_wf l root s right_id :
  page_id_ok root → page_id_ok right_id → len s ≤ U16_MAX → page_wf (node_page (root_node l root s right_id)).
Proof.
  intros Hr Hid Hs. unfold node_page. cbn. split; [done|]. split; [by constructor|]. repeat constructor.
Qed.

Lemma set_root_inv w V T R s id right_id d u ho :
  op_inv w V T [] ∅ → bt_next_page (w_tree w) = id + 1 → id < U64_MAX →
  tree_wf T (bt_root (w_tree w)) id → T !! bt_root (w_tree w) = Some R → node_at T right_id (n_level R) s →
  page_wf (node_page (root_node (n_level R) (bt_root (w_tree w)) s right_id)) →
  V !! page_key (w_tree w) id = Some d → len d = pb_page_size (w_buffer w) →
  page_at d (node_page (root_node (n_level R) (bt_root (w_tree w)) s right_id)) u ho →
  op_inv (set_root id w) V (<[id := root_node (n_level R) (bt_root (w_tree w)) s right_id]> T) [] ∅.
Proof.
  intros [Hr Hi Hw Ht Hc Hsz] Hn Hid Hwf HR Hat Hpw HV Hd Hpat. split; [done| | |done|done|done].
  - intros q M Hq. destruct (decide (id = q)) as [<-|Hne].
    + rewrite lookup_insert_eq in Hq. injection Hq as <-. by exists d, u, ho.
    + rewrite lookup_insert_ne in Hq by done. by apply Hi.
  - cbn. rewrite Hn. by apply promote_wf.
Qed.

Lemma promote_root_inv w V T m R s right_id w' r :
  op_inv w V T [] ∅ → tree_map T m → T !! bt_root (w_tree w) = Some R → node_at T right_id (n_level R) s →
  page_id_ok right_id → len s ≤ U16_MAX → promote_root dep s right_id w = (w', r) →
  ∃ V' T', op_inv w' V' T' [] ∅ ∧ tree_map T' m ∧ bt_descriptor (w_tree w') = bt_descriptor (w_tree w) ∧
           match r with Ok _ => True | Err e => structural_error e end.
Proof.
  intros Hi Hm HR Hat Hid Hsl. unfold promote_root. pose proof (size_bounds _ _ _ _ _ Hi) as Hsz.
  pose proof (oi_wf _ _ _ _ _ Hi) as Hwf. destruct (tw_nodes _ _ _ Hwf _ _ HR) as [_ Hrn].
  assert (page_id_ok (bt_root (w_tree w))) as Hrok.
  { pose proof (tw_next _ _ _ Hwf). unfold page_id_ok, is_u64, NONE_PAGE, U64_MAX in *. lia. }
  pose proof (root_page_wf (n_level R) _ s right_id Hrok Hid Hsl) as Hpw.
  destruct (allocate_page w) as [w1 [id|e]] eqn:Ea; pose proof (allocate_inv _ _ _ _ _ _ _ Hi Ea) as Hal.
  2:{ destruct Hal as [-> ->]. intros [<- <-]%pair_equal_spec. exists V, T. split_and!; [done..|]. by do 2 right; left. }
  destruct Hal as (Hide & Hidb & Hb1 & Hd1 & Hn1 & Hr1 & Hds1 & _ & Hi1).
  assert (build_internal (pb_page_size (w_buffer w1)) None None (bt_root (w_tree w)) [(s, right_id)] =
          build (pb_page_size (w_buffer w)) (node_page (root_node (n_level R) (bt_root (w_tree w)) s right_id))) as ->.
  { unfold build_internal. rewrite (proj2 (Z.eqb_neq _ _)) by apply Hrok. by rewrite Hb1. }
  destruct (build_node (pb_page_size (w_buffer w)) _ Hpw Hsz) as [(_ & d & u & ho & Hbd & Hd & Hatd)|(_ & e & Hbd & He & _)];
    rewrite Hbd; cbn [map_err]; cycle 1.
  { rewrite He. intros [<- <-]%pair_equal_spec. exists V, T. split_and!; [done..|]. by do 3 right; left. }
  destruct (attach_root dep _ right_id id w1) as [w2 [[]|e]] eqn:Eat;
    destruct (attach_root_inv _ _ _ _ _ _ _ _ _ _ Hi1 Eat) as ((Ht2 & Hb2 & _) & Hi2 & Hatt); cycle 1.
  { intros [<- <-]%pair_equal_spec. exists V, T. rewrite Ht2. split_and!; [done..|]. right. by left. }
  assert (tree_wf T (bt_root (w_tree w)) id) as Hwf' by (by rewrite Hide).
  pose proof (next_fresh _ _ _ Hwf') as Hf. rewrite <-Ht2 in Hatt.
  destruct (on_buffer (pb_create _ d) w2) as [w3 [g|e]] eqn:Ec;
    destruct (create_inv _ _ _ _ _ _ _ _ _ Hi2 Hf Hatt Ec) as [(Ht3 & Hd3 & Hz3) Hc];
    intros [<- <-]%pair_equal_spec; cycle 1.
  { destruct Hc as [Hi3 [be ->]]. exists V, T. rewrite Ht3, Ht2. split_and!; [done..|]. left. by eexists. }
  destruct Hc as [Hi3 Hkg]. destruct (drop_inv w3 _ _ [g] [] Hi3) as [(Ht4 & Hd4 & Hz4) Hi4].
  exists (<[page_key (w_tree w2) id := d]> V), (<[id := root_node (n_level R) (bt_root (w_tree w)) s right_id]> T).
  assert (bt_root (w_tree (drop_guards [g] w3)) = bt_root (w_tree w)) as Hroot by (by rewrite Ht4, Ht3, Ht2).
  split; [|split; [|split; [|done]]].
  - rewrite <-Hroot. apply (set_root_inv _ _ _ _ _ _ _ d u ho); rewrite ?Hroot; try done; try lia.
    + by rewrite Ht4, Ht3, Ht2.
    + by rewrite Ht4, Ht3, lookup_insert_eq.
    + by rewrite Hz4, Hz3, Hb2, Hb1.
  - eapply insert_internal_map; [|done|done]. intros M es' HM. congruence.
  - cbn. by rewrite Ht3, Ht2.
Qed.

(** Levels above a change are as they were. *)
Lemma path_ok_mono T T' root key l path :
  shape_le T T' → (∀ q M, T !! q = Some M → (l ≤ n_level M)%nat → T' !! q = Some M) →
  path_ok T root key l path → path_ok T' root key l path.
Proof.
  intros Hle. revert l. induction path as [|p path IH]; intros l Hsame; cbn [path_ok].
  - intros (R & HR & Hl). destruct (Hle _ _ HR) as (R' & HR' & HRl & _). exists R'. split; [done|]. by rewrite HRl.
  - intros [(N & HN & Hl & Hc) Hpath]. split.
    + exists N. split_and!; [|done..]. apply Hsame; [done|lia].
    + apply IH; [|done]. intros q M Hq HM. apply Hsame; [done|lia].
Qed.

Lemma split_range T root next p N k id bl br :
  tree_wf (split_tree T p N k id bl br) root next → p ≠ id → covers N k.
Proof.
  intros Hwf Hne. unfold covers, split_tree in *.
  destruct (tw_nodes _ _ _ Hwf p (left_half N k id bl)) as [[_ _ _ Hr _] _].
  { by rewrite lookup_insert_ne, lookup_insert_eq. }
  pose proof (low_below _ _ _ Hwf id (right_half N k br)) as Hb. rewrite lookup_insert_eq in Hb.
  cbn in Hr, Hb. split; [|by apply Hb]. destruct Hr as [Hr _]. korder.
Qed.

Lemma orphan_split T root p N c0 es s right_id l1 k c l2 id :
  tree_wf T root id → T !! p = Some N → n_body N = InternalBody c0 es → is_Some (T !! right_id) →
  BTreeMap.insert s right_id es = l1 ++ (k, c) :: l2 →
  orphan (split_tree T p N k id (InternalBody c0 l1) (InternalBody c l2)) id.
Proof.
  intros Hwf Hp Hb Hright Hins. pose proof (next_fresh _ _ _ Hwf) as Hf.
  assert (∀ q M kc, T !! q = Some M → kc ∈ node_children M → kc.2 ≠ id) as Hch.
  { intros q M kc HM Hin. destruct (tw_nodes _ _ _ Hwf q M HM) as [[_ _ _ _ Hc] _].
    rewrite Forall_forall in Hc. destruct (Hc _ Hin) as (l & _ & C & HC & _). intros Heq. rewrite Heq in HC. congruence. }
  assert (∀ kc, kc ∈ l1 ++ (k, c) :: l2 → kc.2 ≠ id) as Hall.
  { intros kc Hin. rewrite <-Hins in Hin. apply BTreeMap.elem_insert in Hin as [->|Hin]; cbn.
    - intros ->. rewrite Hf in Hright. by destruct Hright.
    - apply (Hch p N kc Hp). unfold node_children. rewrite Hb. by constructor. }
  assert (c0 ≠ id) as Hc0.
  { apply (Hch p N (n_low N, c0) Hp). unfold node_children. rewrite Hb. by constructor. }
  intros q M Hq Hin. apply list_elem_of_fmap in Hin as (kc & Hkc & Hin).
  apply split_lookup in Hq as [[-> ->]|[[-> ->]|(H1 & H2 & Hq)]].
  - cbn in Hin. apply elem_of_cons in Hin as [->|Hin]; cbn in Hkc.
    + apply (Hall (k, c)); [set_solver|done].
    + apply (Hall kc); [set_solver|done].
  - cbn in Hin. apply elem_of_cons in Hin as [->|Hin]; cbn in Hkc; [congruence|].
    apply (Hall kc); [set_solver|done].
  - by apply (Hch q M kc Hq Hin).
Qed.

Lemma propagate_split_inv m key : ∀ path l s right_id w V T w' r,
  op_inv w V T [] ∅ → tree_map T m → path_ok T (bt_root (w_tree w)) key (S l) path →
  node_at T right_id l s → page_id_ok right_id → len s ≤ U16_MAX → orphan T right_id →
  match path with [] => True | p :: _ => ∃ N, T !! p = Some N ∧ covers N s end →
  propagate_split dep path s right_id w = (w', r) →
  ∃ V' T', op_inv w' V' T' [] ∅ ∧ tree_map T' m ∧ bt_descriptor (w_tree w') = bt_descriptor (w_tree w) ∧
           match r with Ok _ => True | Err e => structural_error e end.
Proof.
  induction path as [|p path IH]; intros l s right_id w V T w' r Hi Hm Hpath Hright Hid Hsl Horph Hcov;
    cbn [propagate_split].
  { destruct Hpath as (R & HR & [= Hl]). intros Hr. eapply promote_root_inv; try done. by rewrite Hl. }
  destruct Hpath as [(N & HN & Hl & Hkey) Hpath]. destruct Hcov as (N' & HN' & Hcov).
  rewrite HN in HN'. injection HN' as <-. pose proof (oi_wf _ _ _ _ _ Hi) as Hwf.
  destruct (update_page p _ w) as [w1 r1] eqn:E.
  destruct (update_page_inv _ _ _ _ _ _ _ _ Hi HN E)
    as [(Hs & Hi1 & be & ->)|(g & d & u & ho & w2 & w3 & gs & Hk & Hd & Hat & Hs & Hi2 & Hbody & ->)].
  { intros [<- <-]%pair_equal_spec. exists V, T. destruct Hs as (Ht & _). rewrite Ht. split_and!; [done..|].
    left. by eexists. }
  destruct Hs as (Ht2 & Hd2 & Hz2).
  destruct (propagate_turn_inv w2 V T g p N l s right_id d u ho w3 gs r1 Hi2) as (Hr3 & Hds3 & V3 & c0 & es & Hb & Hres);
    try done; [by rewrite Ht2|by rewrite Hz2|]. rewrite Ht2 in Hr3, Hds3.
  destruct (tw_nodes _ _ _ Hwf p N HN) as [HNw Hpn].
  destruct r1 as [[[k id]|]|e].
  - destruct Hres as (rg & l1 & c & l2 & -> & Hins & Hl1 & Hide & Hidb & Hi3). rewrite Ht2 in Hide.
    destruct (unlatch_inv w3 V3 _ [rg] g Hi3) as [(Ht4 & _ & _) Hi4]. intros Hrun.
    set (T' := split_tree T p N k id (InternalBody c0 l1) (InternalBody c l2)) in *.
    set (w4 := drop_guards _ _) in *. rewrite <-Ht4 in Hr3, Hds3.
    assert (tree_wf T (bt_root (w_tree w)) id) as Hwf' by (by rewrite Hide).
    pose proof (next_fresh _ _ _ Hwf') as Hf. assert (p ≠ id) as Hpid by congruence.
    pose proof (split_range _ _ _ _ _ _ _ _ _ (oi_wf _ _ _ _ _ Hi4) Hpid) as Hck.
    assert (shape_le T T') as Hle by (by eapply split_shape).
    assert (∀ q M, T !! q = Some M → (S (S l) ≤ n_level M)%nat → T' !! q = Some M) as Hup.
    { intros q M Hq HM. unfold T', split_tree. assert (p ≠ q) by (intros <-; rewrite HN in Hq; injection Hq as <-; lia).
      by rewrite !lookup_insert_ne by congruence. }
    rewrite <-Hds3. apply (IH (S l) k id w4 V3 T' w' r Hi4); try done.
    + unfold T', split_tree. eapply insert_internal_map; [|done|eapply insert_internal_map; [|done|done]].
      * intros M es' HM. rewrite lookup_insert_ne in HM by done. congruence.
      * intros M es' HM. rewrite HN in HM. injection HM as <-. congruence.
    + rewrite Hr3. by eapply path_ok_mono.
    + exists (right_half N k (InternalBody c l2)). unfold T', split_tree. by rewrite lookup_insert_eq.
    + unfold page_id_ok, is_u64, NONE_PAGE, U64_MAX in *. lia.
    + destruct (nw_page _ _ HNw) as (_ & Hp & _). unfold node_page in Hp. rewrite Hb in Hp. cbn in Hp.
      rewrite Forall_map in Hp. assert (Forall (λ e, len e.1 ≤ U16_MAX) (BTreeMap.insert s right_id es)) as Hkl.
      { apply insert_Forall; [|done]. eapply Forall_impl; [done|]. cbn. tauto. }
      rewrite Hins, Forall_app, Forall_cons in Hkl. apply Hkl.
    + destruct Hright as (R & HR & _). by eapply orphan_split.
    + destruct path as [|p2 path]; [done|]. destruct Hpath as [(N2 & HN2 & Hl2 & Hkey2) _].
      exists N2. split; [apply Hup; [done|lia]|]. eapply (nested _ _ _ Hwf p2 p N2 N key k); try done. lia.
  - destruct Hres as [-> Hi3]. intros [<- <-]%pair_equal_spec.
    destruct (unlatch_inv w3 V3 _ [] g Hi3) as [(Ht4 & _ & _) Hi4]. eexists _, _. split; [exact Hi4|].
    split; [|split; [by rewrite Ht4|done]]. eapply insert_internal_map; [|done|done].
    intros M es' HM. rewrite HN in HM. injection HM as <-. congruence.
  - destruct Hres as (-> & Hi3 & He). intros [<- <-]%pair_equal_spec.
    destruct (unlatch_inv w3 V3 _ [] g Hi3) as [(Ht4 & _ & _) Hi4]. eexists _, _. split; [exact Hi4|].
    split_and!; [done|by rewrite Ht4|done].
Qed.

(** *** Replacement *)
Lemma covers_beyond N key : covers N key → beyond N key = None.
Proof.
  intros [_ H]. unfold beyond. destruct (n_high N) as [h|]; [|done]. cbn in H. unfold klt in H. by rewrite H.
Qed.

Lemma upsert_candidate_at T d N es u ho key value p :
  node_wf T N → n_body N = LeafBody es → page_at d (node_page N) u ho → covers N key →
  upsert_candidate key value p d =
    Ok (inr (n_high N, n_right N, BTreeMap.insert key (LeafInline value) es)).
Proof.
  intros HN Hb Hat Hc. unfold upsert_candidate, page_error. rewrite (page_parse_at _ _ _ _ Hat). cbn [map_err].
  rewrite (follow_right_at _ _ _ _ Hat), right_of_node, (covers_beyond _ _ Hc). cbn [map_err].
  rewrite (high_fence_at _ _ _ _ Hat). cbn [map_err].
  assert (node_page N = leaf_page (n_high N) (n_right N) es) as HP by (unfold node_page; by rewrite Hb).
  rewrite HP in Hat |- *. by rewrite (leaf_entries_at _ _ _ _ _ _ Hat).
Qed.

Lemma upsert_turn_inv full w V T g p N es d u ho key value w' gs r :
  op_inv w V T [g] {[pb_key g]} → pb_key g = page_key (w_tree w) p → T !! p = Some N → n_body N = LeafBody es →
  page_at d (node_page N) u ho → len d = pb_page_size (w_buffer w) →
  covers N key → len key ≤ U16_MAX → len value ≤ U16_MAX →
  upsert_turn dep key value p full g d w = (w', gs, r) →
  let es' := BTreeMap.insert key (LeafInline value) es in
  let N' := with_body N (LeafBody es') in
  node_wf T N' ∧ len es' ≤ MANY ∧
  (¬ page_fits (pb_page_size (w_buffer w)) (node_page N') ∧ full (n_high N) (n_right N) es' g w = (w', gs, r) ∨
   gs = [] ∧ w_tree w' = w_tree w ∧
   ∃ V', match r with
         | Ok TurnDone => op_inv w' V' (<[p := N']> T) [g] {[pb_key g]}
         | Ok _ => False
         | Err e => op_inv w' V' T [g] {[pb_key g]} ∧ ∃ de, e = BTreePageDependency de
         end).
Proof.
  intros Hi Hk Hp Hb Hat Hd Hc Hkl Hvl Hrun es' N'. pose proof (oi_wf _ _ _ _ _ Hi) as Hwf.
  destruct (tw_nodes _ _ _ Hwf p N Hp) as [HN _]. unfold upsert_turn in Hrun.
  rewrite (upsert_candidate_at T _ _ _ _ _ _ _ _ HN Hb Hat Hc) in Hrun.
  assert (node_wf T N') as HN' by (by apply leaf_insert_wf). split; [done|].
  assert (node_page N = leaf_page (n_high N) (n_right N) es) as HP by (unfold node_page; by rewrite Hb).
  split.
  { pose proof (insert_len key (LeafInline value) es). pose proof (entries_bound _ _ _ _ Hat) as He.
    rewrite HP in He. cbn in He. unfold len in He. rewrite length_map in He. unfold es', len in *. lia. }
  change (build_leaf ?z (n_high N) (n_right N) _) with (build z (node_page N')) in Hrun.
  destruct (build_node (pb_page_size (w_buffer w)) (node_page N') (nw_page _ _ HN') (size_bounds _ _ _ _ _ Hi))
    as [(_ & d' & u' & ho' & Hbd & Hd' & Hat')|(Hnf & e & Hbd & He & Hcap)]; rewrite Hbd in Hrun.
  - right. destruct (attach_operation_dependency dep p w) as [w1 [m|e]] eqn:Ea;
      destruct (attach_inv _ _ _ _ _ _ _ _ Hi Ea) as ((Ht1 & Hb1 & Hle1) & Hi1 & Hm);
      apply pair_equal_spec in Hrun as [[<- <-]%pair_equal_spec <-]; cycle 1.
    { split; [done|]. split; [done|]. by exists V. }
    destruct Hm as [Hatt _]. rewrite <-Hk in Hatt.
    destruct (store_body w1 V T g p N (LeafBody es') d' u' ho' Hi1) as (V' & Hi2 & Ht2 & _); try done;
      [by rewrite Ht1|by rewrite Hb1|]. split; [done|]. split; [by rewrite Ht2, Ht1|]. by exists V'.
  - left. split; [done|]. rewrite Hcap in Hrun; [done|].
    pose proof (pa_bounds _ _ _ _ Hat) as Hbd'. pose proof (pa_heap _ _ _ _ Hat) as Hheap. rewrite Hd in Hheap.
    pose proof (lower_of_ge (node_page N)). pose proof (heap_entries_nonneg (p_entries (node_page N))).
    unfold heap_size in Hheap. unfold N', node_page in *. rewrite Hb in *. cbn [n_body with_body] in *.
    unfold high_len in *. cbn [p_high leaf_page with_body n_high] in *. lia.
Qed.

Lemma leaf_orphan T root p N s id l1 l2 :
  tree_wf T root id → orphan (split_tree T p N s id (LeafBody l1) (LeafBody l2)) id.
Proof.
  intros Hwf q M Hq Hin. pose proof (next_fresh _ _ _ Hwf) as Hf. apply list_elem_of_fmap in Hin as (kc & -> & Hin).
  apply split_lookup in Hq as [[-> ->]|[[-> ->]|(H1 & H2 & Hq)]]; cbn in Hin; [set_solver..|].
  destruct (tw_nodes _ _ _ Hwf q M Hq) as [[_ _ _ _ Hc] _]. rewrite Forall_forall in Hc.
  destruct (Hc _ Hin) as (l & _ & C & HC & _). congruence.
Qed.

Lemma split_tree_update T p N body s id bl br :
  split_tree (<[p := with_body N body]> T) p (with_body N body) s id bl br = split_tree T p N s id bl br.
Proof. unfold split_tree. by rewrite insert_insert_eq. Qed.

(** A published leaf split, and its propagation. *)
Lemma leaf_split_inv m key w V T p N es s v l1 l2 id path w' r :
  op_inv w V (split_tree T p N s id (LeafBody l1) (LeafBody ((s, v) :: l2))) [] ∅ →
  tree_wf T (bt_root (w_tree w)) id → 0 ≤ id < U64_MAX → T !! p = Some N → n_body N = LeafBody es → covers N key →
  node_wf T (with_body N (LeafBody (l1 ++ (s, v) :: l2))) →
  tree_map (<[p := with_body N (LeafBody (l1 ++ (s, v) :: l2))]> T) m →
  path_ok T (bt_root (w_tree w)) key 1 path →
  propagate_split dep path s id w = (w', r) →
  ∃ V' T', op_inv w' V' T' [] ∅ ∧ tree_map T' m ∧ bt_descriptor (w_tree w') = bt_descriptor (w_tree w) ∧
           match r with Ok _ => True | Err e => structural_error e end.
Proof.
  intros Hi Hwf Hid Hp Hb Hkey Hnw Hm Hpath Hrun. pose proof (next_fresh _ _ _ Hwf) as Hf.
  pose proof (update_wf _ _ _ _ _ _ Hwf Hp Hnw) as Hwf1.
  set (N1 := with_body N (LeafBody (l1 ++ (s, v) :: l2))) in *.
  assert (p ≠ id) as Hpid by congruence.
  pose proof (split_range _ _ _ _ _ _ _ _ _ (oi_wf _ _ _ _ _ Hi) Hpid) as Hcs.
  assert (∀ q M, T !! q = Some M → (1 ≤ n_level M)%nat →
    split_tree T p N s id (LeafBody l1) (LeafBody ((s, v) :: l2)) !! q = Some M) as Hup.
  { intros q M Hq HM. pose proof (leaf_level _ _ _ _ _ _ Hwf Hp Hb).
    assert (p ≠ q) by (intros <-; rewrite Hp in Hq; injection Hq as <-; lia).
    unfold split_tree. by rewrite !lookup_insert_ne by congruence. }
  assert (keys_sorted (l1 ++ (s, v) :: l2)) as Hsort.
  { destruct (nw_page _ _ Hnw) as (_ & _ & Hsort). cbn in Hsort. by apply map_sorted in Hsort. }
  eapply (propagate_split_inv m key path 0 s id w V _ w' r Hi); try done.
  - rewrite <-(split_tree_update T p N (LeafBody (l1 ++ (s, v) :: l2))). fold N1.
    eapply (split_map _ _ _ m p N1 s l1 ((s, v) :: l2) Hwf1); [by rewrite lookup_insert_eq|done..].
  - eapply (path_ok_mono T); [by eapply split_shape|done|done].
  - exists (right_half N s (LeafBody ((s, v) :: l2))). unfold split_tree. rewrite lookup_insert_eq.
    split_and!; [done| |done]. exact (leaf_level _ _ _ _ _ _ Hwf Hp Hb).
  - unfold page_id_ok, is_u64, NONE_PAGE, U64_MAX in *. lia.
  - destruct (nw_page _ _ Hnw) as (_ & Hpl & _). cbn in Hpl. rewrite map_app, Forall_app in Hpl. cbn in Hpl.
    rewrite Forall_cons in Hpl. apply Hpl.
  - by eapply leaf_orphan.
  - destruct path as [|p2 path]; [done|]. destruct Hpath as [(N2 & HN2 & Hl2 & Hkey2) _]. exists N2.
    split; [apply Hup; [done|lia]|]. eapply (nested _ _ _ Hwf p2 p N2 N key s); try done.
    by rewrite Hl2, (leaf_level _ _ _ _ _ _ Hwf Hp Hb).
Qed.

(** Why an update can fail. *)
Definition update_error (T : Tree) (e : BTreeError) : Prop :=
  descent_error T MAX_ROUTING_DEPTH e ∨ structural_error e ∨ e = StructuralLockPoisoned.

Lemma upsert_loop_inv fuel key value m w V T w' o :
  op_inv w V T [] ∅ → tree_map T m → len key ≤ U16_MAX → len value ≤ U16_MAX →
  upsert_loop (S fuel) dep key value w = (w', o) →
  ∃ r V' T', o = Some r ∧ op_inv w' V' T' [] ∅ ∧ bt_descriptor (w_tree w') = bt_descriptor (w_tree w) ∧
    match r with
    | Ok true => tree_map T' (BTreeMap.insert key (LeafInline value) m)
    | Ok false => T' = T
    | Err e => T' = T ∧ update_error T e
    end.
Proof.
  intros Hi Hm Hkl Hvl. cbn [upsert_loop].
  destruct (find_leaf_path key w) as [w1 [[p path]|e]] eqn:Ef;
    destruct (find_leaf_path_inv _ _ _ _ _ _ Hi Ef) as ((Ht1 & _ & _) & Hi1 & Hres); cycle 1.
  { intros [<- <-]%pair_equal_spec. exists (Err e), V, T. rewrite Ht1. split_and!; try done. by left. }
  destruct Hres as (Hpath & N & es & Hp & Hb & Hc). pose proof (oi_wf _ _ _ _ _ Hi) as Hwf.
  destruct (update_page p _ w1) as [w2 r2] eqn:E.
  destruct (update_page_inv _ _ _ _ _ _ _ _ Hi1 Hp E)
    as [((Ht2 & _) & Hi2 & be & ->)|(g & d & u & ho & w3 & w4 & gs & Hk & Hd & Hat & (Ht3 & Hd3 & Hz3) & Hi3 & Hbody & ->)].
  { intros [<- <-]%pair_equal_spec. exists (Err (BTreeBuffer be)), V, T. rewrite Ht2, Ht1. split_and!; try done. right. left. left. by eexists. }
  destruct (upsert_turn_inv upsert_full w3 V T g p N es d u ho key value w4 gs r2 Hi3) as (HN' & _ & Hres);
    try done; [by rewrite Ht3|by rewrite Hz3|].
  destruct Hres as [(Hnf & Hfull)|(-> & Ht4 & V4 & Hres)].
  - apply pair_equal_spec in Hfull as [[<- <-]%pair_equal_spec <-].
    destruct (unlatch_inv w3 V T [] g Hi3) as [(Ht5 & _ & _) Hi5]. intros [<- <-]%pair_equal_spec.
    exists (Ok false), V, T. rewrite Ht5, Ht3, Ht1. done.
  - destruct r2 as [[| | |]|e]; try done.
    + destruct (unlatch_inv w4 V4 _ [] g Hres) as [(Ht5 & _ & _) Hi5]. intros [<- <-]%pair_equal_spec.
      eexists _, V4, _. split; [done|]. split; [exact Hi5|]. rewrite Ht5, Ht4, Ht3, Ht1. split; [done|].
      by eapply leaf_insert_map.
    + destruct Hres as [Hi4 [de ->]]. destruct (unlatch_inv w4 V4 _ [] g Hi4) as [(Ht5 & _ & _) Hi5].
      intros [<- <-]%pair_equal_spec. exists (Err (BTreePageDependency de)), V4, T. rewrite Ht5, Ht4, Ht3, Ht1. split_and!; try done.
      right. left. right. left. by eexists.
Qed.

Lemma upsert_split_loop_inv fuel key value m w V T w' o :
  op_inv w V T [] ∅ → tree_map T m → len key ≤ U16_MAX → len value ≤ U16_MAX →
  upsert_split_loop (S fuel) dep key value w = (w', o) →
  ∃ r V' T', o = Some r ∧ op_inv w' V' T' [] ∅ ∧ bt_descriptor (w_tree w') = bt_descriptor (w_tree w) ∧
    match r with
    | Ok _ => tree_map T' (BTreeMap.insert key (LeafInline value) m)
    | Err e => (tree_map T' m ∨ tree_map T' (BTreeMap.insert key (LeafInline value) m)) ∧ update_error T e
    end.
Proof.
  intros Hi Hm Hkl Hvl. cbn [upsert_split_loop].
  destruct (find_leaf_path key w) as [w1 [[p path]|e]] eqn:Ef;
    destruct (find_leaf_path_inv _ _ _ _ _ _ Hi Ef) as ((Ht1 & _ & _) & Hi1 & Hres); cycle 1.
  { intros [<- <-]%pair_equal_spec. exists (Err e), V, T. rewrite Ht1. split_and!; try done; by left. }
  destruct Hres as (Hpath & N & es & Hp & Hb & Hc). pose proof (oi_wf _ _ _ _ _ Hi) as Hwf.
  destruct (update_page p _ w1) as [w2 r2] eqn:E.
  destruct (update_page_inv _ _ _ _ _ _ _ _ Hi1 Hp E)
    as [((Ht2 & _) & Hi2 & be & ->)|(g & d & u & ho & w3 & w4 & gs & Hk & Hd & Hat & (Ht3 & Hd3 & Hz3) & Hi3 & Hbody & ->)].
  { intros [<- <-]%pair_equal_spec. exists (Err (BTreeBuffer be)), V, T. rewrite Ht2, Ht1. split_and!; try done; [by left|].
    right. left. left. by eexists. }
  destruct (upsert_turn_inv (upsert_split dep p) w3 V T g p N es d u ho key value w4 gs r2 Hi3) as (HN' & Hmany & Hres);
    try done; [by rewrite Ht3|by rewrite Hz3|]. set (es' := BTreeMap.insert key (LeafInline value) es) in *.
  pose proof (leaf_insert_map _ _ _ _ _ _ _ _ (LeafInline value) Hwf Hm Hp Hb Hc) as Hm'.
  destruct Hres as [(Hnf & Hsplit)|(-> & Ht4 & V4 & Hres)]; cycle 1.
  { destruct r2 as [[| | |]|e]; try done.
    - destruct (unlatch_inv w4 V4 _ [] g Hres) as [(Ht5 & _ & _) Hi5]. intros [<- <-]%pair_equal_spec.
      eexists _, V4, _. split; [done|]. split; [exact Hi5|]. by rewrite Ht5, Ht4, Ht3, Ht1.
    - destruct Hres as [Hi4 [de ->]]. destruct (unlatch_inv w4 V4 _ [] g Hi4) as [(Ht5 & _ & _) Hi5].
      intros [<- <-]%pair_equal_spec. exists (Err (BTreePageDependency de)), V4, T. rewrite Ht5, Ht4, Ht3, Ht1. split_and!; try done; [by left|].
      right. left. right. left. by eexists. }
  unfold upsert_split in Hsplit. destruct (len es' <? 2) eqn:El.
  { apply pair_equal_spec in Hsplit as [[<- <-]%pair_equal_spec <-].
    destruct (unlatch_inv w3 V T [] g Hi3) as [(Ht5 & _ & _) Hi5]. intros [<- <-]%pair_equal_spec.
    exists (Err EntryTooLarge), V, T. rewrite Ht5, Ht3, Ht1. split_and!; try done; [by left|]. right. left. by do 3 right; left. }
  destruct (split_leaf dep p _ _ es' g w3) as [w5 r5] eqn:Es.
  destruct (split_leaf_inv w3 V T g p N es' w5 r5 Hi3) as (Hr5 & Hds5 & Hres); try done; [by rewrite Ht3|].
  rewrite Ht3, Ht1 in Hr5, Hds5. destruct r5 as [[[s id] rg]|e]; cbn [split_done] in Hsplit;
    apply pair_equal_spec in Hsplit as [[<- <-]%pair_equal_spec <-]; cycle 1.
  { destruct Hres as [Hi5 He]. destruct (unlatch_inv w5 V T [] g Hi5) as [(Ht6 & _ & _) Hi6].
    intros [<- <-]%pair_equal_spec. exists (Err e), V, T. rewrite Ht6. split_and!; try done; [by left|]. right. by left. }
  destruct Hres as (V5 & l1 & v & l2 & Hes & Hl1 & Hid & Hidb & Hi5).
  destruct (unlatch_inv w5 V5 _ [rg] g Hi5) as [(Ht6 & _ & _) Hi6]. cbn [fst snd].
  destruct (propagate_split dep path s id _) as [w7 r7] eqn:Ep. intros [<- <-]%pair_equal_spec.
  rewrite Ht3, Ht1 in Hid. destruct (tw_nodes _ _ _ Hwf p N Hp) as [_ Hpn].
  fold es' in Hm'. rewrite Hes in HN', Hm'.
  destruct (leaf_split_inv (BTreeMap.insert key (LeafInline value) m) key _ V5 T p N es s v l1 l2 id path w7 r7 Hi6)
    as (V7 & T7 & Hi7 & Hm7 & Hds7 & He7); try done; rewrite ?Ht6, ?Hr5; try done.
  { by rewrite Hid. }
  { lia. }
  exists r7, V7, T7. rewrite Hds7, Ht6. split_and!; try done. destruct r7; [done|]. split; [by right|]. right. by left.
Qed.

Lemma upsert_inner_inv fuel key value m w V T w' o :
  op_inv w V T [] ∅ → tree_map T m → upsert_inner (S fuel) dep key value w = (w', o) →
  ∃ r V' T', o = Some r ∧ op_inv w' V' T' [] ∅ ∧ bt_descriptor (w_tree w') = bt_descriptor (w_tree w) ∧
    match r with
    | Ok _ => tree_map T' (BTreeMap.insert key (LeafInline value) m)
    | Err e => (tree_map T' m ∨ tree_map T' (BTreeMap.insert key (LeafInline value) m)) ∧ update_error T e
    end.
Proof.
  intros Hi Hm. unfold upsert_inner, validate_inline_entry.
  destruct ((U16_MAX <? len key) || (U16_MAX <? len value)) eqn:Ev.
  { intros [<- <-]%pair_equal_spec. exists (Err EntryTooLarge), V, T. split_and!; try done; [by left|]. right. left. by do 3 right; left. }
  apply orb_false_iff in Ev as [Ev1%Z.ltb_ge Ev2%Z.ltb_ge].
  destruct (upsert_loop (S fuel) dep key value w) as [w1 o1] eqn:El.
  destruct (upsert_loop_inv _ _ _ _ _ _ _ _ _ Hi Hm Ev1 Ev2 El) as (r1 & V1 & T1 & -> & Hi1 & Hd1 & Hres).
  destruct r1 as [[|]|e].
  - intros [<- <-]%pair_equal_spec. by eexists _, V1, T1.
  - subst T1. unfold upsert_with_split. destruct (bt_poisoned (w_tree w1)).
    + intros [<- <-]%pair_equal_spec. exists (Err StructuralLockPoisoned), V1, T. split_and!; try done; [by left|]. by right; right.
    + rewrite <-Hd1. intros Hs. by eapply upsert_split_loop_inv.
  - destruct Hres as [-> He]. intros [<- <-]%pair_equal_spec. exists (Err e), V1, T. split_and!; try done. by left.
Qed.
End refinement.
