(* ===== verification/TreeOps.v ===== *)
(** * The operations of the B-link tree

    What callers of [TreeV4.v] rely on: every operation against the sorted map the
    tree stands for, with its error outcomes, and the interplay with page
    dependencies. *)
From Stdlib Require Import String.
From S2P Require Import Prelude StdCollections Ids Shards Frame PageIo Buffer PageBuffer PageDependency PageV4 PageSpec PageUpdate KeyOrder TreeShape TreeV4 TreeSpec.

Local Open Scope string_scope.
Local Open Scope list_scope.
Local Open Scope Z_scope.
Local Open Scope seer_scope.

#[local] Opaque MAX_ROUTING_DEPTH.

Section operations.
Context {B G : Type} `{Hpb : PageBuffer B G} `{Hlaws : !PageBufferLaws B G} `{Hph : PageHasher}.
#[local] Abbreviation World := (World B).

(** The pages [V] hold the tree [T], which stands for the map [m]; no guard is live. *)
Record tree_repr (w : World) (V : gmap PageKey bytes) (T : Tree) (m : list LeafEntry) : Prop := {
  tr_buffer : pb_repr (w_buffer w) V [] ∅;
  tr_images : images w V T;
  tr_wf : tree_wf T (bt_root (w_tree w)) (bt_next_page (w_tree w));
  tr_table : table_wf (pt_shards (w_deps w));
  tr_map : tree_map T m
}.

Lemma repr_op_inv dep w V T m :
  tree_repr w V T m → op_inv dep (V, pb_page_size (w_buffer w)) w V T [] ∅ ∧ tree_map T m.
Proof. intros []. split; [|done]. by split. Qed.

Lemma op_inv_repr dep V0 w V T m : op_inv dep V0 w V T [] ∅ → tree_map T m → tree_repr w V T m.
Proof. intros []. by split. Qed.

(** ** Creation *)
Lemma tree_create_repr descriptor b V s b' t :
  pb_repr b V [] ∅ → table_wf (pt_shards s) → tree_create descriptor b = (b', Ok t) →
  ∃ V' T, tree_repr {| w_buffer := b'; w_tree := t; w_deps := s |} V' T [].
Proof.
  intros Hr Hs. unfold tree_create, empty_leaf.
  assert (page_wf (leaf_page None None [])) as Hwf by (split; [done|split; constructor]).
  pose proof (build_page_at (pb_page_size b) _ Hwf) as Hb.
  change (build_leaf (pb_page_size b) None None []) with (build (pb_page_size b) (leaf_page None None [])).
  destruct (decide (page_fits _ _)) as [Hf|Hf]; cycle 1.
  { destruct Hb as (e & -> & _). done. }
  destruct Hb as (d & -> & Hd & Hat). cbn [page_error map_err].
  destruct (pb_create _ d b) as [b1 [g|e]] eqn:Ec; [|done].
  destruct (pb_create_repr _ _ _ _ _ _ _ _ Hr Ec) as [(Hr1 & Hk & _) Hz].
  destruct (pb_drop_repr _ _ _ _ _ Hr1 ltac:(set_solver)) as [Hr2 Hz2]. intros [<- [= <-]]%pair_equal_spec.
  set (N := {| n_level := 0; n_low := []; n_high := None; n_right := None; n_body := LeafBody [] |}).
  eexists _, {[0 := N]}. split; [exact Hr2| | |done|].
  - intros p M HM. apply lookup_singleton_Some in HM as [<- <-]. eexists d, _, _. cbn.
    rewrite lookup_insert_eq, Hz2, Hz. done.
  - split; cbn.
    + intros p M HM. apply lookup_singleton_Some in HM as [<- <-]. split; [|done].
      by split; [..|constructor|done|constructor].
    + done.
    + exists N. rewrite lookup_singleton_eq. split_and!; [done..|]. intros p M HM.
      apply lookup_singleton_Some in HM as [<- <-]. done.
    + intros p q A B' HA HB _ Hne. apply lookup_singleton_Some in HA as [<- _], HB as [<- _]. done.
  - split; [constructor|]. intros k v. split; [done|]. intros (p & M & es & HM & HB & Hg).
    apply lookup_singleton_Some in HM as [<- <-]. cbn in HB. by injection HB as <-.
Qed.

(** ** Lookup *)
Lemma lookup_repr w V T m key w' r :
  tree_repr w V T m → tree_lookup key w = (w', r) →
  tree_repr w' V T m ∧ same w w' ∧
  match r with Ok v => v = map_lookup m key | Err e => descent_error T MAX_ROUTING_DEPTH e end.
Proof.
  intros [Hi Hm]%(repr_op_inv None) Hl.
  destruct (tree_lookup_inv _ _ _ _ _ _ _ _ _ Hi Hm Hl) as (Hs & Hi' & Hres).
  split; [by eapply op_inv_repr|done].
Qed.

(** ** Replacement *)
Lemma upsert_repr dep fuel key value w V T m w' o :
  tree_repr w V T m → upsert_inner (S fuel) dep key value w = (w', o) →
  ∃ r V' T' m', o = Some r ∧ tree_repr w' V' T' m' ∧
    match r with
    | Ok _ => m' = BTreeMap.insert key (LeafInline value) m
    | Err e => (m' = m ∨ m' = BTreeMap.insert key (LeafInline value) m) ∧ update_error T e
    end ∧
    (∀ k, V' !! k ≠ V !! k → pk_object k = od_id (bt_descriptor (w_tree w)) ∧
      ∀ required, dep = Some required → dep_le required (required_of (w_deps w') k)) ∧
    bt_descriptor (w_tree w') = bt_descriptor (w_tree w) ∧
    pb_page_size (w_buffer w') = pb_page_size (w_buffer w).
Proof.
  intros [Hi Hm]%(repr_op_inv dep) Hu.
  destruct (upsert_inner_inv _ _ _ _ _ _ _ _ _ _ _ Hi Hm Hu) as (r & V' & T' & -> & Hi' & Hd & Hres).
  assert (∀ k, V' !! k ≠ V !! k → pk_object k = od_id (bt_descriptor (w_tree w)) ∧
      ∀ required, dep = Some required → dep_le required (required_of (w_deps w') k)) as Hch.
  { intros k Hk. rewrite <-Hd. by apply (oi_changed _ _ _ _ _ _ _ Hi'). }
  pose proof (oi_size _ _ _ _ _ _ _ Hi') as Hsz.
  destruct r as [[]|e].
  - eexists _, V', T', _. split; [done|]. split; [by eapply op_inv_repr|]. done.
  - destruct Hres as [[Hm'|Hm'] He]; eexists _, V', T', _; (split; [done|]); (split; [by eapply op_inv_repr|]);
      (split; [|done]); (split; [|done]); [by left|by right].
Qed.

(** ** Removal *)
Lemma no_requirement (w : World) k : attached None w k.
Proof. done. Qed.

Lemma leaf_page_of N es : n_body N = LeafBody es → node_page N = leaf_page (n_high N) (n_right N) es.
Proof. unfold node_page. by intros ->. Qed.

Lemma leaf_sorted T N es : node_wf T N → n_body N = LeafBody es → keys_sorted es.
Proof.
  intros HN Hb. pose proof (node_sorted _ _ HN) as Hs. rewrite (leaf_page_of _ _ Hb) in Hs.
  by apply (map_sorted EncodedLeaf es).
Qed.

Lemma delete_repr fuel key w V T m w' o :
  tree_repr w V T m → tree_delete (S fuel) key w = (w', o) →
  ∃ r V' T' m', o = Some r ∧ tree_repr w' V' T' m' ∧
    match r with
    | Ok true => BTreeMap.get key m ≠ None ∧ m' = BTreeMap.remove key m
    | Ok false => BTreeMap.get key m = None ∧ m' = m
    | Err e => m' = m ∧ descent_error T MAX_ROUTING_DEPTH e
    end.
Proof.
  intros [Hi Hm]%(repr_op_inv None). cbn [tree_delete].
  destruct (find_leaf_path key w) as [w1 [[p path]|e]] eqn:Ef;
    destruct (find_leaf_path_inv _ _ _ _ _ _ _ _ Hi Ef) as (Hs1 & Hi1 & Hres); cycle 1.
  { intros [<- <-]%pair_equal_spec. exists (Err e), V, T, m. split; [done|]. split; [by eapply op_inv_repr|done]. }
  destruct Hres as (_ & N & es & Hp & Hb & Hc). pose proof (oi_wf _ _ _ _ _ _ _ Hi) as Hwf.
  destruct (tw_nodes _ _ _ Hwf p N Hp) as [HN _]. pose proof (leaf_sorted _ _ _ HN Hb) as Hs.
  destruct (update_page p _ w1) as [w2 r2] eqn:E.
  destruct (update_page_inv _ _ _ _ _ _ _ _ _ _ Hi1 Hp E)
    as [(_ & Hi2 & be & ->)|(g & d & u & ho & w3 & w4 & gs & Hk & Hd & Hat & Hs3 & Hi3 & Hbody & ->)].
  { intros [<- <-]%pair_equal_spec. exists (Err (BTreeBuffer be)), V, T, m. split; [done|].
    split; [by eapply op_inv_repr|]. split; [done|]. left. by eexists. }
  unfold delete_turn in Hbody. rewrite (leaf_page_of _ _ Hb) in Hat.
  pose proof (remove_leaf_spec d _ _ es u ho key Hat Hs) as Hrem.
  rewrite <-(leaf_page_of _ _ Hb), right_of_node, (covers_beyond _ _ Hc) in Hrem.
  pose proof (tree_map_leaf _ _ _ _ _ _ _ _ Hwf Hm Hp Hb Hc) as Hget.
  pose proof Hs3 as (Ht3 & _ & Hz3). rewrite <-Ht3 in Hk. rewrite <-Hz3 in Hd.
  destruct (BTreeMap.get key es) as [v|] eqn:Eg.
  - destruct Hrem as (d' & Hrem & Hd' & Hat'). rewrite Hrem in Hbody. cbn [page_error map_err] in Hbody.
    apply pair_equal_spec in Hbody as [[<- <-]%pair_equal_spec <-].
    destruct (store_body None _ w3 V T g p N (LeafBody (BTreeMap.remove key es)) d' u ho Hi3 Hk Hp) as (V' & Hi4 & _);
      [done|by rewrite Hd'|done|by apply leaf_remove_wf|].
    destruct (unlatch_inv _ _ _ _ _ [] g Hi4) as [_ Hi5]. intros [<- <-]%pair_equal_spec.
    eexists (Ok true), V', _, _. split; [done|]. split; [eapply op_inv_repr; [exact Hi5|]|].
    + by eapply leaf_remove_map.
    + split; [by rewrite Hget|done].
  - rewrite Hrem in Hbody. cbn [page_error map_err] in Hbody.
    apply pair_equal_spec in Hbody as [[<- <-]%pair_equal_spec <-]. rewrite <-(leaf_page_of _ _ Hb) in Hat.
    destruct (store_same None _ w3 V T g p N d u ho Hi3 Hk Hp) as (V' & Hi4 & _); [done..|].
    destruct (unlatch_inv _ _ _ _ _ [] g Hi4) as [_ Hi5]. intros [<- <-]%pair_equal_spec.
    eexists (Ok false), V', _, _. split; [done|]. split; [by eapply op_inv_repr|]. by rewrite Hget.
Qed.

(** ** Insertion *)

(** What [insert] does to the leaf of the key: every outcome of the in-place try. *)
Lemma insert_turn_inv key value w V0 V T m p N es g d u ho w' gs r :
  op_inv None V0 w V T [g] {[pb_key g]} → pb_key g = page_key (w_tree w) p → tree_map T m →
  T !! p = Some N → n_body N = LeafBody es → covers N key →
  page_at d (node_page N) u ho → len d = pb_page_size (w_buffer w) → len key ≤ U16_MAX → len value ≤ U16_MAX →
  insert_turn key value p g d w = (w', gs, r) →
  gs = [] ∧ same w w' ∧ ∃ V',
  match r with
  | Ok TurnDone => BTreeMap.get key es = None ∧
      op_inv None V0 w' V' (<[p := with_body N (LeafBody (BTreeMap.insert key (LeafInline value) es))]> T) [g] {[pb_key g]}
  | Ok TurnFull => BTreeMap.get key es = None ∧ op_inv None V0 w' V' T [g] {[pb_key g]} ∧
      ∃ d' u' ho', (try_insert_inline d key value).1 = d' ∧ page_at d' (node_page N) u' ho'
  | Err e => e = DuplicateKey ∧ BTreeMap.get key es ≠ None ∧ op_inv None V0 w' V' T [g] {[pb_key g]}
  | _ => False
  end.
Proof.
  intros Hi Hk Hm Hp Hb Hc Hat Hd Hkl Hvl. pose proof (oi_wf _ _ _ _ _ _ _ Hi) as Hwf.
  destruct (tw_nodes _ _ _ Hwf p N Hp) as [HN _]. pose proof (leaf_sorted _ _ _ HN Hb) as Hs.
  unfold insert_turn. pose proof Hat as Hat0. rewrite (leaf_page_of _ _ Hb) in Hat.
  pose proof (try_insert_inline_spec d _ _ es u ho key value Hat Hs) as Hins.
  rewrite <-(leaf_page_of _ _ Hb), right_of_node, (covers_beyond _ _ Hc) in Hins.
  destruct (BTreeMap.get key es) as [v|] eqn:Eg.
  - rewrite Hins. intros [[<- <-]%pair_equal_spec <-]%pair_equal_spec. split; [done|].
    destruct (store_same None V0 w V T g p N d u ho Hi Hk Hp) as (V' & Hi4 & Hs4); [done..|]. split; [done|].
    by exists V'.
  - rewrite decide_True in Hins by done. destruct Hins as (d' & u' & ho' & Hd' & Hins).
    destruct (decide (page_fits _ _)) as [Hf|Hf]; destruct Hins as [Hr Hat']; rewrite Hr;
      intros [[<- <-]%pair_equal_spec <-]%pair_equal_spec; (split; [done|]).
    + destruct (store_body None V0 w V T g p N (LeafBody (BTreeMap.insert key (LeafInline value) es)) d' u' ho' Hi Hk Hp)
        as (V' & Hi4 & Hs4); [done|by rewrite Hd'|done|by apply leaf_insert_wf|]. split; [done|]. by exists V'.
    + destruct (store_same None V0 w V T g p N d' u' ho' Hi Hk Hp) as (V' & Hi4 & Hs4); [done|by rewrite Hd'|done|].
      split; [done|]. exists V'. split_and!; [done..|]. by exists d', u', ho'.
Qed.

(** The outcome of an insertion. *)
Definition insert_outcome (key value : bytes) (T : Tree) (m m' : list LeafEntry) (r : result unit BTreeError) : Prop :=
  match r with
  | Ok _ => BTreeMap.get key m = None ∧ m' = BTreeMap.insert key (LeafInline value) m
  | Err DuplicateKey => BTreeMap.get key m ≠ None ∧ m' = m
  | Err e => (m' = m ∨ BTreeMap.get key m = None ∧ m' = BTreeMap.insert key (LeafInline value) m) ∧ update_error T e
  end.

Lemma insert_failed key value T m e :
  update_error T e → insert_outcome key value T m m (Err e).
Proof.
  intros He. unfold insert_outcome. destruct e; try (split; [by left|done]).
  exfalso. destruct He as [[[? [=]]|[[=] _]]|[He|[=]]].
  destruct He as [[? [=]]|[[? [=]]|[[=]|[[=]|[? [=]]]]]].
Qed.

Lemma insert_loop_repr fuel key value w V T m w' o :
  tree_repr w V T m → len key ≤ U16_MAX → len value ≤ U16_MAX → insert_loop (S fuel) key value w = (w', o) →
  ∃ r V' T' m', o = Some r ∧ tree_repr w' V' T' m' ∧ bt_poisoned (w_tree w') = bt_poisoned (w_tree w) ∧
    match r with
    | Ok true => insert_outcome key value T m m' (Ok tt)
    | Ok false => BTreeMap.get key m = None ∧ m' = m ∧ T' = T
    | Err e => insert_outcome key value T m m' (Err e)
    end.
Proof.
  intros [Hi Hm]%(repr_op_inv None) Hkl Hvl. cbn [insert_loop].
  destruct (find_leaf_path key w) as [w1 [[p path]|e]] eqn:Ef;
    destruct (find_leaf_path_inv _ _ _ _ _ _ _ _ Hi Ef) as ((Ht1 & _) & Hi1 & Hres); cycle 1.
  { intros [<- <-]%pair_equal_spec. exists (Err e), V, T, m. rewrite Ht1.
    split_and!; [done|by eapply op_inv_repr|done|]. apply insert_failed. by left. }
  destruct Hres as (_ & N & es & Hp & Hb & Hc). pose proof (oi_wf _ _ _ _ _ _ _ Hi) as Hwf.
  pose proof (tree_map_leaf _ _ _ _ _ _ _ _ Hwf Hm Hp Hb Hc) as Hget.
  destruct (update_page p _ w1) as [w2 r2] eqn:E.
  destruct (update_page_inv _ _ _ _ _ _ _ _ _ _ Hi1 Hp E)
    as [((Ht2 & _) & Hi2 & be & ->)|(g & d & u & ho & w3 & w4 & gs & Hk & Hd & Hat & (Ht3 & Hd3 & Hz3) & Hi3 & Hbody & ->)].
  { intros [<- <-]%pair_equal_spec. exists (Err (BTreeBuffer be)), V, T, m. rewrite Ht2, Ht1.
    split_and!; [done|by eapply op_inv_repr|done|]. apply insert_failed. right. left. left. by eexists. }
  rewrite <-Ht3 in Hk. rewrite <-Hz3 in Hd.
  destruct (insert_turn_inv key value w3 _ V T m p N es g d u ho w4 gs r2 Hi3 Hk Hm Hp Hb Hc Hat Hd Hkl Hvl Hbody)
    as (-> & (Ht4 & _) & V4 & Hres).
  destruct r2 as [[| | |]|e]; try done.
  - destruct Hres as [Hg Hi4]. destruct (unlatch_inv _ _ _ _ _ [] g Hi4) as [(Ht5 & _) Hi5].
    intros [<- <-]%pair_equal_spec. eexists (Ok true), V4, _, _. rewrite Ht5, Ht4, Ht3, Ht1.
    split; [done|]. split; [eapply op_inv_repr; [exact Hi5|by eapply leaf_insert_map]|]. split; [done|]. by rewrite <-Hget in Hg.
  - destruct Hres as (Hg & Hi4 & _). destruct (unlatch_inv _ _ _ _ _ [] g Hi4) as [(Ht5 & _) Hi5].
    intros [<- <-]%pair_equal_spec. exists (Ok false), V4, T, m. rewrite Ht5, Ht4, Ht3, Ht1.
    split; [done|]. split; [by eapply op_inv_repr|]. split; [done|]. by rewrite Hget.
  - destruct Hres as (-> & Hg & Hi4). destruct (unlatch_inv _ _ _ _ _ [] g Hi4) as [(Ht5 & _) Hi5].
    intros [<- <-]%pair_equal_spec. exists (Err DuplicateKey), V4, T, m. rewrite Ht5, Ht4, Ht3, Ht1.
    split; [done|]. split; [by eapply op_inv_repr|]. split; [done|]. by rewrite <-Hget in Hg.
Qed.

(** The body of [insert_with_split]'s loop when the leaf is full. *)
Lemma insert_split_turn_full key value w p N es g d w1 gs d' u ho T :
  n_body N = LeafBody es → BTreeMap.get key es = None →
  insert_turn key value p g d w = (w1, gs, Ok TurnFull) →
  (try_insert_inline d key value).1 = d' → page_at d' (node_page N) u ho → node_wf T N →
  insert_split_turn key value p g d w =
    let '(w, gs, r) := split_done (split_leaf None p (n_high N) (n_right N)
                         (BTreeMap.insert key (LeafInline value) es) g w1) in
    (w, gs, let? split := r in Ok (TurnSplit split.1 split.2)).
Proof.
  intros Hb Hg Hturn <- Hat HN. unfold insert_split_turn. rewrite Hturn. unfold page_error.
  rewrite (page_parse_at _ _ _ _ Hat). cbn [map_err]. rewrite (high_fence_at _ _ _ _ Hat). cbn [map_err].
  rewrite (leaf_page_of _ _ Hb) in Hat |- *. rewrite (leaf_entries_at _ _ _ _ _ _ Hat). cbn [map_err].
  unfold BTreeMap.contains_key. by rewrite Hg.
Qed.

Lemma insert_split_loop_repr fuel key value w V T m w' o :
  tree_repr w V T m → len key ≤ U16_MAX → len value ≤ U16_MAX → insert_split_loop (S fuel) key value w = (w', o) →
  ∃ r V' T' m', o = Some r ∧ tree_repr w' V' T' m' ∧ insert_outcome key value T m m' r.
Proof.
  intros [Hi Hm]%(repr_op_inv None) Hkl Hvl. cbn [insert_split_loop].
  destruct (find_leaf_path key w) as [w1 [[p path]|e]] eqn:Ef;
    destruct (find_leaf_path_inv _ _ _ _ _ _ _ _ Hi Ef) as ((Ht1 & _) & Hi1 & Hres); cycle 1.
  { intros [<- <-]%pair_equal_spec. exists (Err e), V, T, m. split_and!; [done|by eapply op_inv_repr|].
    apply insert_failed. by left. }
  destruct Hres as (Hpath & N & es & Hp & Hb & Hc). pose proof (oi_wf _ _ _ _ _ _ _ Hi) as Hwf.
  destruct (tw_nodes _ _ _ Hwf p N Hp) as [HN Hpn].
  pose proof (tree_map_leaf _ _ _ _ _ _ _ _ Hwf Hm Hp Hb Hc) as Hget.
  destruct (update_page p _ w1) as [w2 r2] eqn:E.
  destruct (update_page_inv _ _ _ _ _ _ _ _ _ _ Hi1 Hp E)
    as [(_ & Hi2 & be & ->)|(g & d & u & ho & w3 & w4 & gs & Hk & Hd & Hat & (Ht3 & Hd3 & Hz3) & Hi3 & Hbody & ->)].
  { intros [<- <-]%pair_equal_spec. exists (Err (BTreeBuffer be)), V, T, m.
    split_and!; [done|by eapply op_inv_repr|]. apply insert_failed. right. left. left. by eexists. }
  rewrite <-Ht3 in Hk. rewrite <-Hz3 in Hd. destruct (insert_turn key value p g d w3) as [[w5 gs5] r5] eqn:E5.
  destruct (insert_turn_inv key value w3 _ V T m p N es g d u ho w5 gs5 r5 Hi3 Hk Hm Hp Hb Hc Hat Hd Hkl Hvl E5)
    as (-> & (Ht5 & Hd5 & Hz5) & V5 & Hres).
  destruct r5 as [[| | |]|e]; try done.
  - unfold insert_split_turn in Hbody. rewrite E5 in Hbody. apply pair_equal_spec in Hbody as [[<- <-]%pair_equal_spec <-].
    destruct Hres as [Hg Hi4]. destruct (unlatch_inv _ _ _ _ _ [] g Hi4) as [_ Hi5].
    intros [<- <-]%pair_equal_spec. eexists (Ok tt), V5, _, _. split; [done|].
    split; [eapply op_inv_repr; [exact Hi5|by eapply leaf_insert_map]|]. by rewrite <-Hget in Hg.
  - destruct Hres as (Hg & Hi5 & d' & u' & ho' & Hd' & Hat').
    rewrite (insert_split_turn_full _ _ _ _ _ _ _ _ _ _ _ _ _ T Hb Hg E5 Hd' Hat' HN) in Hbody.
    set (es' := BTreeMap.insert key (LeafInline value) es) in *.
    assert (node_wf T (with_body N (LeafBody es'))) as HN' by (by apply leaf_insert_wf).
    pose proof (leaf_insert_map _ _ _ _ _ _ _ _ (LeafInline value) Hwf Hm Hp Hb Hc) as Hm'. fold es' in Hm'.
    destruct (split_leaf None p _ _ es' g w5) as [w6 r6] eqn:Es.
    destruct (split_leaf_inv None _ w5 V5 T g p N es' w6 r6 Hi5) as (Hr6 & Hds6 & Hres); try done.
    { by rewrite Ht5. }
    { pose proof (insert_len key (LeafInline value) es). pose proof (entries_bound _ _ _ _ Hat) as He.
      rewrite (leaf_page_of _ _ Hb) in He. cbn in He. unfold len in He. rewrite length_map in He. unfold es', len in *. lia. }
    rewrite Ht5, Ht3, Ht1 in Hr6. destruct r6 as [[[s0 id] rg]|e]; cbn [split_done] in Hbody;
      apply pair_equal_spec in Hbody as [[<- <-]%pair_equal_spec <-]; cycle 1.
    { destruct Hres as [Hi6 He]. destruct (unlatch_inv _ _ _ _ _ [] g Hi6) as [_ Hi7].
      intros [<- <-]%pair_equal_spec. exists (Err e), V5, T, m. split_and!; [done|by eapply op_inv_repr|].
      apply insert_failed. right. by left. }
    destruct Hres as (V6 & l1 & v & l2 & Hes & Hl1 & Hid & Hidb & Hi6).
    destruct (unlatch_inv _ _ _ _ _ [rg] g Hi6) as [(Ht7 & _) Hi7]. cbn [fst snd].
    destruct (propagate_split None path s0 id _) as [w8 r8] eqn:Ep. intros [<- <-]%pair_equal_spec.
    rewrite Ht5, Ht3, Ht1 in Hid. rewrite Hes in HN', Hm'.
    destruct (leaf_split_inv None _ (BTreeMap.insert key (LeafInline value) m) key _ V6 T p N es s0 v l1 l2 id path w8 r8 Hi7)
      as (V8 & T8 & Hi8 & Hm8 & _ & He8); try done; rewrite ?Ht7, ?Hr6; try done; [by rewrite Hid|lia|].
    rewrite <-Hget in Hg. eexists r8, V8, T8, _. split; [done|]. split; [by eapply op_inv_repr|].
    destruct r8 as [[]|e]; [done|]. assert (update_error T e) as Hue by (right; by left).
    destruct e; cbn; try (split; [by right|done]). exfalso.
    destruct He8 as [[? [=]]|[[? [=]]|[[=]|[[=]|[? [=]]]]]].
  - destruct Hres as (-> & Hg & Hi4). unfold insert_split_turn in Hbody. rewrite E5 in Hbody.
    apply pair_equal_spec in Hbody as [[<- <-]%pair_equal_spec <-]. destruct (unlatch_inv _ _ _ _ _ [] g Hi4) as [_ Hi5].
    intros [<- <-]%pair_equal_spec. exists (Err DuplicateKey), V5, T, m.
    split; [done|]. split; [by eapply op_inv_repr|]. by rewrite <-Hget in Hg.
Qed.

Lemma insert_repr fuel key value w V T m w' o :
  tree_repr w V T m → tree_insert (S fuel) key value w = (w', o) →
  ∃ r V' T' m', o = Some r ∧ tree_repr w' V' T' m' ∧ insert_outcome key value T m m' r.
Proof.
  intros Hr. unfold tree_insert, validate_inline_entry.
  destruct ((U16_MAX <? len key) || (U16_MAX <? len value)) eqn:Ev.
  { intros [<- <-]%pair_equal_spec. exists (Err EntryTooLarge), V, T, m. split_and!; try done.
    apply (insert_failed key value T m EntryTooLarge). right. left. by do 3 right; left. }
  apply orb_false_iff in Ev as [Ev1%Z.ltb_ge Ev2%Z.ltb_ge].
  destruct (insert_loop (S fuel) key value w) as [w1 o1] eqn:El.
  destruct (insert_loop_repr _ _ _ _ _ _ _ _ _ Hr Ev1 Ev2 El) as (r1 & V1 & T1 & m1 & -> & Hr1 & Hpo & Hres).
  destruct r1 as [[|]|e].
  - intros [<- <-]%pair_equal_spec. by eexists _, V1, T1, m1.
  - destruct Hres as (Hg & -> & ->). unfold insert_with_split. destruct (bt_poisoned (w_tree w1)).
    + intros [<- <-]%pair_equal_spec. exists (Err StructuralLockPoisoned), V1, T, m. split_and!; try done.
      apply (insert_failed key value T m StructuralLockPoisoned). by right; right.
    + intros Hs. by eapply insert_split_loop_repr.
  - intros [<- <-]%pair_equal_spec. by exists (Err e), V1, T1, m1.
Qed.
End operations.
