(* ===== verification/TreeRange.v ===== *)
(** * Ranges over the B-link tree

    A range walks leaf right links and answers with the rows of the sorted map in
    [[start, stop)], cut at the limit; the resumable cursor built on it emits the
    same rows in batches. *)
From Stdlib Require Import String.
From S2P Require Import Prelude StdCollections Ids Shards Frame PageIo Buffer PageBuffer PageDependency PageV4 PageSpec PageUpdate KeyOrder TreeShape TreeV4 TreeSpec TreeOps.

Local Open Scope string_scope.
Local Open Scope list_scope.
Local Open Scope Z_scope.
Local Open Scope seer_scope.

#[local] Opaque MAX_ROUTING_DEPTH RANGE_LEAVES.

(** ** Rows *)
Lemma filter_none {A} (P : A → Prop) `{∀ x, Decision (P x)} (l : list A) :
  Forall (λ x, ¬ P x) l → filter P l = [].
Proof. induction 1 as [|x l Hx _ IH]; [done|]. by rewrite filter_cons_False. Qed.

Lemma filter_all {A} (P : A → Prop) `{∀ x, Decision (P x)} (l : list A) : Forall P l → filter P l = l.
Proof. induction 1 as [|x l Hx _ IH]; [done|]. by rewrite filter_cons_True, IH. Qed.

Definition in_range (start stop : bytes) (e : LeafEntry) : Prop := kle start e.1 ∧ klt e.1 stop.
#[global] Instance in_range_dec start stop e : Decision (in_range start stop e).
Proof. unfold in_range. apply _. Defined.

Definition rows_of (es : list LeafEntry) : list (bytes * BTreeLookup) := map (λ e, (e.1, leaf_lookup e.2)) es.

(** The rows of a map in a range. *)
Definition map_range (start stop : bytes) (m : list LeafEntry) : list (bytes * BTreeLookup) :=
  rows_of (filter (in_range start stop) m).

Lemma map_range_app start stop l1 l2 :
  map_range start stop (l1 ++ l2) = map_range start stop l1 ++ map_range start stop l2.
Proof. unfold map_range, rows_of. by rewrite filter_app, map_app. Qed.

Lemma map_range_nil start stop l :
  Forall (λ e, ¬ in_range start stop e) l → map_range start stop l = [].
Proof.
  intros Hl. unfold map_range. by rewrite filter_none.
Qed.

Lemma range_scan_cons start stop limit k v es output :
  range_scan start stop limit ((k, v) :: es) output =
    if decide (klt k start) then range_scan start stop limit es output
    else if decide (klt k stop)
         then let output := output ++ [(k, leaf_lookup v)] in
              if len output =? limit then inl output else range_scan start stop limit es output
         else inl output.
Proof.
  cbn [range_scan]. unfold klt. destruct (decide _) as [->|H1]; [done|].
  destruct (decide (key_cmp k stop = Lt)) as [->|H2]; destruct (key_cmp k start); try done;
    destruct (key_cmp k stop); done.
Qed.

(** What a scan answers after the rows [output] and with the entries [es] before it. *)
Definition scanned (start stop : bytes) (limit : Z) (es : list LeafEntry) (output : list (bytes * BTreeLookup))
    (r : list (bytes * BTreeLookup) + list (bytes * BTreeLookup)) : Prop :=
  let rows := output ++ map_range start stop es in
  match r with
  | inl out => out = take (Z.to_nat limit) rows ∧ (limit ≤ len rows ∨ Exists (λ e, kle stop e.1) es)
  | inr out => out = rows ∧ len out < limit
  end.

Lemma range_scan_spec start stop limit : ∀ es output,
  keys_sorted es → len output < limit →
  scanned start stop limit es output (range_scan start stop limit es output).
Proof.
  induction es as [|[k v] es IH]; intros output Hs Ho.
  { unfold scanned, map_range. cbn. by rewrite app_nil_r. }
  inversion_clear Hs as [|? ? Hs' Hx]. rewrite range_scan_cons.
  assert (∀ out r, scanned start stop limit es out r → out ++ map_range start stop es = output ++ map_range start stop ((k, v) :: es) →
            scanned start stop limit ((k, v) :: es) output r) as Hmono.
  { unfold scanned. intros out r. destruct r as [x|x]; intros H1 H2; rewrite <-H2; [|done].
    destruct H1 as [-> [?|?]]; (split; [done|]); [by left|right; by apply Exists_cons_tl]. }
  destruct (decide (klt k start)) as [H1|H1].
  { apply (Hmono output); [by apply IH|]. unfold map_range. rewrite filter_cons_False; [done|].
    unfold in_range. cbn. intros []. korder. }
  destruct (decide (klt k stop)) as [H2|H2].
  - assert (map_range start stop ((k, v) :: es) = [(k, leaf_lookup v)] ++ map_range start stop es) as Hrow.
    { unfold map_range. rewrite filter_cons_True; [done|]. split; [by apply kle_not_klt|done]. }
    cbn zeta. destruct (_ =? _) eqn:El; bool_to_prop; rewrite len_app, len_cons, len_nil in El.
    + unfold scanned. rewrite Hrow, app_assoc. split.
      * rewrite take_app_le, take_ge by (rewrite length_app; cbn; unfold len in *; lia). done.
      * left. rewrite !len_app, len_cons, len_nil. pose proof (len_nonneg (map_range start stop es)). lia.
    + apply (Hmono (output ++ [(k, leaf_lookup v)])); [|by rewrite Hrow, app_assoc].
      apply IH; [done|]. rewrite len_app, len_cons, len_nil. lia.
  - unfold scanned. rewrite (map_range_nil start stop ((k, v) :: es)).
    + rewrite app_nil_r. split; [rewrite take_ge; [done|unfold len in Ho; lia]|].
      right. apply Exists_cons_hd. by apply kle_not_klt.
    + constructor; [unfold in_range; cbn; tauto|]. eapply Forall_impl; [exact Hx|]. cbn. intros [k' v'] Hk'.
      unfold in_range. cbn in *. change (klt k k') in Hk'. intros []. apply H2. korder.
Qed.

(** ** Leaves are segments of the map *)
Lemma sorted_split (m : list LeafEntry) b :
  keys_sorted m → m = filter (λ e, klt e.1 b) m ++ filter (λ e, kle b e.1) m.
Proof.
  induction 1 as [|e m Hs IH Hx]; [done|]. destruct (decide (klt e.1 b)) as [He|He].
  - rewrite filter_cons_True, filter_cons_False by (done || rewrite kle_not_klt; tauto). cbn. by rewrite <-IH.
  - assert (filter (λ e, klt e.1 b) m = []) as Hn.
    { apply filter_none. eapply Forall_impl; [exact Hx|]. cbn. intros x Hx'. change (klt e.1 x.1) in Hx'.
      intros Hxb. apply He. korder. }
    rewrite filter_cons_False, filter_cons_True by (done || by apply kle_not_klt).
    rewrite Hn in IH |- *. cbn in *. by rewrite <-IH.
Qed.

Lemma filter_sorted {V} (P : bytes * V → Prop) `{∀ x, Decision (P x)} (m : list (bytes * V)) : keys_sorted m → keys_sorted (filter P m).
Proof.
  induction 1 as [|e m Hs IH Hx]; [constructor|]. rewrite filter_cons. case_decide; [|done].
  constructor; [done|]. rewrite Forall_forall in Hx |- *. intros x Hx'%list_elem_of_filter. apply Hx, Hx'.
Qed.

Lemma get_filter (P : LeafEntry → Prop) `{∀ x, Decision (P x)} m k :
  keys_sorted m → (∀ v v', P (k, v) ↔ P (k, v')) →
  BTreeMap.get k (filter P m) = match BTreeMap.get k m with Some v => if decide (P (k, v)) then Some v else None | None => None end.
Proof.
  intros Hs HP. induction Hs as [|[k' v'] m Hs IH Hx]; [done|]. rewrite filter_cons. cbn [BTreeMap.get].
  destruct (cmp k k') eqn:E.
  - apply cmp_eq in E as ->. case_decide as Hd; [by cbn [BTreeMap.get]; rewrite BTreeMap.cmp_refl|].
    rewrite IH. destruct (BTreeMap.get k' m) as [v|] eqn:Eg; [|done]. exfalso.
    apply BTreeMap.get_elem in Eg. rewrite Forall_forall in Hx. specialize (Hx _ Eg). by apply BTreeMap.lt_ord_irrefl in Hx.
  - case_decide; [cbn [BTreeMap.get]; by rewrite E|done].
  - case_decide; [cbn [BTreeMap.get]; by rewrite E|done].
Qed.

Section segments.
Context (T : Tree) (root next : PageId) (m : list LeafEntry) (p : PageId) (N : Node) (es : list LeafEntry).
Hypothesis Hwf : tree_wf T root next.
Hypothesis Hm : tree_map T m.
Hypothesis Hp : T !! p = Some N.
Hypothesis Hb : n_body N = LeafBody es.

Lemma leaf_is_filter : es = filter (λ e, covers N e.1) m.
Proof.
  destruct (tw_nodes _ _ _ Hwf p N Hp) as [HN _]. pose proof (leaf_sorted _ _ _ HN Hb) as Hs. destruct Hm as [Hms _].
  apply BTreeMap.map_eq; [done|by apply filter_sorted|]. intros k. rewrite get_filter by done. cbn [fst].
  destruct (decide (covers N k)) as [Hc|Hc].
  - rewrite (tree_map_leaf _ _ _ _ _ _ _ _ Hwf Hm Hp Hb Hc). by destruct (BTreeMap.get k es).
  - destruct (BTreeMap.get k es) as [v|] eqn:Eg; [by apply (get_covers _ _ _ _ _ _ _ _ Hwf Hp Hb) in Eg|].
    by destruct (BTreeMap.get k m).
Qed.

(** Before, in and after the leaf's range. *)
Lemma leaf_segment :
  m = filter (λ e, klt e.1 (n_low N)) m ++ es ++
      match n_high N with Some h => filter (λ e, kle h e.1) m | None => [] end.
Proof.
  destruct Hm as [Hms _]. rewrite (sorted_split m (n_low N) Hms) at 1. f_equal. rewrite leaf_is_filter.
  pose proof (low_below _ _ _ Hwf p N Hp) as Hlow. destruct (n_high N) as [h|] eqn:Eh.
  - rewrite (sorted_split (filter (λ e, kle (n_low N) e.1) m) h) at 1 by (by apply filter_sorted).
    rewrite !list_filter_filter. f_equal; apply list_filter_iff; intros e; unfold covers, below; rewrite ?Eh; [tauto|].
    cbn in Hlow. split; [tauto|]. intros ?. split; [done|korder].
  - rewrite app_nil_r. apply list_filter_iff. intros e. unfold covers, below. rewrite Eh. tauto.
Qed.

Lemma next_segment h :
  n_high N = Some h → filter (λ e, klt e.1 h) m = filter (λ e, klt e.1 (n_low N)) m ++ es.
Proof.
  intros Hh. pose proof (low_below _ _ _ Hwf p N Hp) as Hlow. rewrite Hh in Hlow. cbn in Hlow.
  rewrite leaf_segment at 1. rewrite Hh, !filter_app. rewrite (filter_all _ (filter _ m)), (filter_all _ es), (filter_none _ (filter (λ e, kle h e.1) m)).
  - by rewrite app_nil_r.
  - apply Forall_forall. intros e [He _]%list_elem_of_filter. korder.
  - rewrite leaf_is_filter. apply Forall_forall. intros e [[_ He] _]%list_elem_of_filter. by rewrite Hh in He.
  - apply Forall_forall. intros e [He _]%list_elem_of_filter. korder.
Qed.
End segments.

(** ** The walk *)
Lemma range_turn_at T d N es u ho start stop limit current output :
  node_wf T N → n_body N = LeafBody es → page_at d (node_page N) u ho → below start (n_high N) →
  range_turn start stop limit current output d =
    Ok match range_scan start stop limit es output with
       | inl out => inl out
       | inr out =>
           match n_right N with
           | None => inl out
           | Some r => if match n_high N with Some h => negb (bool_decide (klt h stop)) | None => false end
                       then inl out else inr (r, out)
           end
       end.
Proof.
  intros HN Hb Hat Hbelow. unfold range_turn, page_error. rewrite (page_parse_at _ _ _ _ Hat). cbn [map_err].
  rewrite (follow_right_at _ _ _ _ Hat), right_of_node. cbn [map_err].
  assert (beyond N start = None) as ->.
  { unfold beyond. destruct (n_high N) as [h|]; [|done]. cbn in Hbelow. unfold klt in Hbelow. by rewrite Hbelow. }
  rewrite (high_fence_at _ _ _ _ Hat). rewrite (leaf_page_of _ _ Hb) in Hat |- *. unfold is_leaf.
  cbn [pr_header header_of h_kind p_kind leaf_page p_high]. rewrite bool_decide_true by done. cbn [negb].
  rewrite (leaf_entries_at _ _ _ _ _ _ Hat). cbn [map_err]. destruct (range_scan _ _ _ _ _) as [out|out]; [done|].
  unfold PageV4.right_sibling. cbn [pr_header header_of h_right_sibling p_right leaf_page].
  destruct (n_right N) as [r|]; [|done]. cbn [map_err]. destruct (n_high N) as [h|]; [|done].
  case_bool_decide as Hk; unfold klt in Hk; [by rewrite Hk|]. by destruct (key_cmp h stop).
Qed.

Section walk.
Context {B G : Type} `{Hpb : PageBuffer B G} `{Hlaws : !PageBufferLaws B G} `{Hph : PageHasher}.
Context (m : list LeafEntry) (start stop : bytes) (limit : Z).

(** When a leaf ends the walk. *)
Lemma scan_ends T root next p N es output out :
  tree_wf T root next → tree_map T m → T !! p = Some N → n_body N = LeafBody es →
  output = map_range start stop (filter (λ e, klt e.1 (n_low N)) m) → len output < limit →
  match range_scan start stop limit es output with
  | inl out' => out' = out
  | inr out' => out' = out ∧ match n_high N with Some h => kle stop h | None => True end
  end → out = take (Z.to_nat limit) (map_range start stop m).
Proof.
  intros Hwf Hm Hp Hb -> Hlen Hr. destruct (tw_nodes _ _ _ Hwf p N Hp) as [HN _].
  pose proof (range_scan_spec start stop limit es _ (leaf_sorted _ _ _ HN Hb) Hlen) as Hs. unfold scanned in Hs.
  rewrite (leaf_segment _ _ _ _ _ _ _ Hwf Hm Hp Hb) at 1. rewrite !map_range_app, app_assoc.
  set (rows := _ ++ map_range start stop es) in *.
  assert (∀ h, n_high N = Some h → Exists (λ e, kle stop e.1) es ∨ kle stop h →
            map_range start stop (filter (λ e, kle h e.1) m) = []) as Hrest.
  { intros h Hh Hst. assert (kle stop h) as Hsh.
    { destruct Hst as [Hst|]; [|done]. apply Exists_exists in Hst as (e & He & Hse).
      rewrite (leaf_is_filter _ _ _ _ _ _ _ Hwf Hm Hp Hb) in He. apply list_elem_of_filter in He as [[_ He] _].
      rewrite Hh in He. cbn in He. korder. }
    apply map_range_nil. apply Forall_forall. intros e [He _]%list_elem_of_filter [_ Hlt]. korder. }
  destruct (range_scan start stop limit es _) as [out'|out'].
  - subst out'. destruct Hs as [-> [Hfull|Hst]].
    + symmetry. apply take_app_le. unfold len in Hfull. lia.
    + f_equal. destruct (n_high N) as [h|]; [rewrite (Hrest h) by auto|]; by rewrite app_nil_r.
  - destruct Hr as [-> Hst], Hs as [-> Hlt]. assert (rows = take (Z.to_nat limit) rows) as E by (rewrite take_ge; [done|unfold len in Hlt; lia]).
    rewrite E at 1. f_equal. destruct (n_high N) as [h|]; [rewrite (Hrest h) by auto|]; by rewrite app_nil_r.
Qed.

Lemma range_loop_inv V0 : ∀ fuel current N es output (w : World B) V T w' r,
  op_inv None V0 w V T [] ∅ → tree_map T m → T !! current = Some N → n_body N = LeafBody es →
  below start (n_high N) → output = map_range start stop (filter (λ e, klt e.1 (n_low N)) m) → len output < limit →
  range_loop fuel start stop limit current output w = (w', r) →
  same w w' ∧ op_inv None V0 w' V T [] ∅ ∧
  match r with
  | Ok rows => rows = take (Z.to_nat limit) (map_range start stop m)
  | Err e => (∃ be, e = BTreeBuffer be) ∨ e = RoutingDepthExceeded ∧ (fuel ≤ rank T N)%nat
  end.
Proof.
  induction fuel as [|fuel IH]; intros current N es output w V T w' r Hi Hm Hp Hb Hbelow Hout Hlen; cbn [range_loop].
  { intros [<- <-]%pair_equal_spec. split_and!; [done..|]. right. split; [done|lia]. }
  pose proof (oi_wf _ _ _ _ _ _ _ Hi) as Hwf. destruct (tw_nodes _ _ _ Hwf _ _ Hp) as [HN _].
  destruct (read_page current _ w) as [w1 r1] eqn:E.
  destruct (read_page_inv _ _ _ _ _ _ _ _ _ _ Hi Hp E) as (Hs & Hi1 & [[be ->]|(d & u & ho & Hat & ->)]).
  { intros [<- <-]%pair_equal_spec. split_and!; [done..|]. left. by eexists. }
  rewrite (range_turn_at T d N es u ho) by done.
  pose proof (λ out, scan_ends _ _ _ _ _ _ output out Hwf Hm Hp Hb Hout Hlen) as Hend.
  pose proof (range_scan_spec start stop limit es output (leaf_sorted _ _ _ HN Hb) Hlen) as Hsc. unfold scanned in Hsc.
  destruct (range_scan start stop limit es output) as [out|out].
  { intros [<- <-]%pair_equal_spec. split; [done|]. split; [done|]. by apply Hend. }
  destruct Hsc as [Hsc1 Hsc2]. pose proof (nw_right _ _ HN) as Hright.
  destruct (n_high N) as [h|] eqn:Eh, (n_right N) as [rid|] eqn:Er; try done.
  2:{ intros [<- <-]%pair_equal_spec. split; [done|]. split; [done|]. by apply Hend. }
  case_bool_decide as Hst; cbn [negb]; cycle 1.
  { intros [<- <-]%pair_equal_spec. split; [done|]. split; [done|]. apply Hend. split; [done|].
    by apply kle_not_klt. }
  destruct Hright as (Hlt & R & HR & HRl & HRlow).
  assert (∃ es', n_body R = LeafBody es') as [es' Hb'].
  { destruct (tw_nodes _ _ _ Hwf _ _ HR) as [[_ HRlv _ _ _] _]. rewrite HRl, (leaf_level _ _ _ _ _ _ Hwf Hp Hb) in HRlv.
    destruct (n_body R); [by eexists|done]. }
  intros Hrun. destruct (IH rid R es' out w1 V T w' r Hi1 Hm HR Hb') as (Hs' & Hi' & Hres); try done.
  - pose proof (low_below _ _ _ Hwf rid R HR) as HRb. rewrite HRlow in HRb. unfold below in *. cbn in Hbelow.
    destruct (n_high R); [korder|done].
  - rewrite HRlow, (next_segment _ _ _ _ _ _ _ Hwf Hm Hp Hb h Eh), map_range_app, <-Hout. done.
  - split_and!; [by eapply same_trans|done|]. destruct r as [rows|e]; [done|].
    destruct Hres as [?|[-> Hres]]; [by left|right]. split; [done|].
    assert (rank T R < rank T N)%nat; [|lia]. apply (rank_lt T rid N R HR). right. cbn. rewrite HRlow. done.
Qed.

Lemma range_repr (w : World B) V T w' r :
  tree_repr w V T m → 0 ≤ limit → tree_range start stop limit w = (w', r) →
  tree_repr w' V T m ∧ same w w' ∧
  match r with
  | Ok rows => rows = take (Z.to_nat limit) (map_range start stop m)
  | Err e => descent_error T MAX_ROUTING_DEPTH e ∨ descent_error T RANGE_LEAVES e
  end.
Proof.
  intros Hr Hlim. unfold tree_range. destruct (_ || _) eqn:Eg.
  { intros [<- <-]%pair_equal_spec. split; [done|]. split; [done|]. apply orb_true_iff in Eg as [Eg|Eg].
    - rewrite map_range_nil; [by rewrite take_nil|]. apply Forall_forall. intros e _ [H1 H2].
      assert (klt start stop) as H3 by korder. unfold klt in H3. by rewrite H3 in Eg.
    - apply Z.eqb_eq in Eg as ->. done. }
  apply orb_false_iff in Eg as [Eg1 Eg2%Z.eqb_neq]. destruct (repr_op_inv None _ _ _ _ Hr) as [Hi Hm].
  destruct (find_leaf_path start w) as [w1 [[p path]|e]] eqn:Ef;
    destruct (find_leaf_path_inv _ _ _ _ _ _ _ _ Hi Ef) as (Hs1 & Hi1 & Hres); cycle 1.
  { intros [<- <-]%pair_equal_spec. split; [by eapply op_inv_repr|]. split; [done|]. by left. }
  destruct Hres as (_ & N & es & Hp & Hb & Hc). cbn [fst]. intros Hrun.
  destruct (range_loop_inv (V, pb_page_size (w_buffer w)) RANGE_LEAVES p N es [] w1 V T w' r Hi1 Hm Hp Hb) as (Hs2 & Hi2 & Hres); try done.
  - apply Hc.
  - rewrite map_range_nil; [done|]. apply Forall_forall. intros e [He _]%list_elem_of_filter [H1 _].
    destruct Hc as [Hc _]. korder.
  - rewrite len_nil. lia.
  - split; [by eapply op_inv_repr|]. split; [by eapply same_trans|]. destruct r as [rows|e]; [done|]. right.
    destruct Hres as [?|[-> Hres]]; [by left|]. right. split; [done|]. pose proof (rank_bound _ _ _ Hp). lia.
Qed.
End walk.

(** ** The cursor *)
Abbreviation Row := (bytes * BTreeLookup)%type.

Lemma map_range_sorted start stop m : keys_sorted m → keys_sorted (map_range start stop m).
Proof. intros Hm. unfold map_range, rows_of. apply (map_sorted leaf_lookup). by apply filter_sorted. Qed.

Lemma sorted_take_drop (rows : list Row) n row :
  keys_sorted rows → last (take n rows) = Some row →
  filter (λ r, klt row.1 r.1) rows = drop n rows.
Proof.
  intros Hs Hl. apply last_Some in Hl as [l Hl]. rewrite <-(take_drop n rows) in Hs |- * at 1. rewrite Hl in Hs |- *.
  rewrite <-app_assoc in Hs |- *. apply wf_app in Hs as (_ & Hs & Hlt). rewrite !filter_app.
  rewrite (filter_none _ l), (filter_none _ [row]), (filter_all _ (drop n rows)); [done| | |].
  - inversion_clear Hs as [|? ? _ Hx]. exact Hx.
  - repeat constructor. korder.
  - apply Forall_forall. intros x Hx. specialize (Hlt x row Hx ltac:(set_solver)). korder.
Qed.

(** What a cursor has still to emit. *)
Definition after (o : option bytes) (rows : list Row) : list Row :=
  match o with Some l => filter (λ r, klt l r.1) rows | None => rows end.

Definition remaining (c : RangeCursor) (m : list LeafEntry) : list Row :=
  if rc_done c then [] else after (rc_last_emitted c) (map_range (rc_start c) (rc_end c) m).

Definition cursor_ok (c : RangeCursor) : Prop :=
  ∀ l, rc_last_emitted c = Some l → kle (rc_start c) l.

(** The rows after a key are those a range from that key gives, without it. *)
Lemma after_seek start stop l m :
  kle start l → filter (λ r : Row, klt l r.1) (map_range start stop m) = filter (λ r, klt l r.1) (map_range l stop m).
Proof.
  intros Hl. unfold map_range, rows_of. induction m as [|e m IH]; [done|]. rewrite !filter_cons.
  destruct (decide (in_range start stop e)) as [H1|H1], (decide (in_range l stop e)) as [H2|H2];
    cbn [map]; rewrite ?filter_cons; cbn [fst]; try done; unfold in_range in *.
  - destruct (decide (klt l e.1)); [by rewrite IH|done].
  - rewrite decide_False; [done|]. intros ?. apply H2. split; [korder|tauto].
  - exfalso. destruct H2. apply H1. split; [korder|done].
Qed.

Lemma filter_gt (l : bytes) (rows : list Row) :
  filter (λ row, key_cmp row.1 l = Gt) rows = filter (λ r, klt l r.1) rows.
Proof. apply list_filter_iff. intros r. apply key_cmp_gt. Qed.

(** Dropping the inclusive restart key costs at most one row. *)
Lemma filter_restart (l : bytes) (rows : list Row) :
  keys_sorted rows → Forall (λ r, kle l r.1) rows →
  filter (λ r, klt l r.1) rows = rows ∨ ∃ r, rows = r :: filter (λ r, klt l r.1) rows.
Proof.
  intros Hs Hl. destruct rows as [|r rows]; [by left|]. apply Forall_cons in Hl as [Hr Hl].
  inversion_clear Hs as [|? ? Hs' Hx]. rewrite filter_cons. rewrite (filter_all _ rows).
  - case_decide; [by left|right; by exists r].
  - eapply Forall_impl; [exact Hx|]. cbn. intros x Hrx. change (klt r.1 x.1) in Hrx. korder.
Qed.

Lemma restart_row l (r0 : Row) X :
  keys_sorted X → X = r0 :: filter (λ r, klt l r.1) X → ¬ klt l r0.1.
Proof.
  intros HX Hr0 Hlt. assert (r0 ∈ filter (λ r : Row, klt l r.1) X) as Hin.
  { apply list_elem_of_filter. split; [done|]. rewrite Hr0. by constructor. }
  rewrite Hr0 in HX. inversion_clear HX as [|? ? _ Hx]. rewrite Forall_forall in Hx. specialize (Hx r0 Hin).
  by apply BTreeMap.lt_ord_irrefl in Hx.
Qed.

(** What a batch fetches, against the rows [Y] left. *)
Definition fetch_limit (c : RangeCursor) (limit : Z) : Z :=
  match rc_last_emitted c with Some _ => saturating_add limit 1 | None => limit end.

Lemma fetched_rows c m limit rows :
  keys_sorted m → cursor_ok c → 0 < limit < U64_MAX →
  rows = take (Z.to_nat (fetch_limit c limit)) (map_range (default (rc_start c) (rc_last_emitted c)) (rc_end c) m) →
  let Y := after (rc_last_emitted c) (map_range (rc_start c) (rc_end c) m) in
  keys_sorted Y ∧ Forall (λ r, kle (rc_start c) r.1) Y ∧
  take (Z.to_nat limit) (after (rc_last_emitted c) rows) = take (Z.to_nat limit) Y ∧
  (len rows < fetch_limit c limit → len Y ≤ limit) ∧ (fetch_limit c limit ≤ len rows → limit ≤ len Y).
Proof.
  intros Hm Hok Hlim Hrows. unfold fetch_limit in *.
  set (X := map_range (default (rc_start c) (rc_last_emitted c)) (rc_end c) m) in *.
  assert (keys_sorted X) as HX by (by apply map_range_sorted).
  assert (Forall (λ r : Row, kle (default (rc_start c) (rc_last_emitted c)) r.1) X) as HXl.
  { subst X. unfold map_range, rows_of. apply Forall_map, Forall_forall. intros e [[He _] _]%list_elem_of_filter. done. }
  destruct (rc_last_emitted c) as [l|] eqn:El; cbn [after default from_option id] in *; cycle 1.
  { split; [done|]. split; [done|]. subst rows. rewrite take_take, Nat.min_id. split; [done|].
    fold X. unfold len. rewrite length_take. lia. }
  pose proof (Hok l El) as Hl. rewrite (after_seek _ _ _ _ Hl). fold X.
  assert (saturating_add limit 1 = limit + 1) as Hsat by (unfold saturating_add; lia). rewrite Hsat in *.
  assert (Z.to_nat (limit + 1) = S (Z.to_nat limit)) as HS by lia. rewrite HS in Hrows. cbn zeta.
  split; [by apply filter_sorted|].
  split; [apply Forall_forall; intros r [Hr _]%list_elem_of_filter; korder|].
  assert (∀ n, Forall (λ r : Row, klt l r.1) (take n (filter (λ r, klt l r.1) X))) as Hgt.
  { intros n. apply Forall_take, Forall_forall. intros r [Hr _]%list_elem_of_filter. done. }
  destruct (filter_restart l X HX HXl) as [Hall|[r0 Hr0]].
  - subst rows. rewrite <-Hall at 1. rewrite filter_all by apply Hgt. rewrite Hall, take_take, Nat.min_l by lia.
    split; [done|]. unfold len. rewrite length_take. lia.
  - set (Y := filter (λ r : Row, klt l r.1) X) in *. subst rows. rewrite Hr0. cbn [take].
    rewrite filter_cons_False by (by apply (restart_row l r0 X)). rewrite filter_all by apply Hgt.
    rewrite take_take, Nat.min_id. split; [done|]. rewrite len_cons. unfold len. rewrite length_take. lia.
Qed.

Lemma cursor_rows_spec c m limit rows :
  keys_sorted m → cursor_ok c → rc_done c = false → 0 < limit < U64_MAX →
  rows = take (Z.to_nat (fetch_limit c limit)) (map_range (default (rc_start c) (rc_last_emitted c)) (rc_end c) m) →
  let '(c', out) := cursor_rows c limit rows in
  out = take (Z.to_nat limit) (remaining c m) ∧ remaining c' m = drop (Z.to_nat limit) (remaining c m) ∧ cursor_ok c'.
Proof.
  intros Hm Hok Hnd Hlim Hrows. destruct (fetched_rows c m limit rows Hm Hok Hlim Hrows) as (HYs & HYl & Htake & Hless & Hfull).
  unfold cursor_rows, remaining. rewrite Hnd. fold (fetch_limit c limit).
  set (Y := after _ (map_range _ _ m)) in *. cbn [rc_done rc_last_emitted rc_start rc_end].
  assert (match rc_last_emitted c with Some l => filter (λ row, key_cmp row.1 l = Gt) rows | None => rows end =
          after (rc_last_emitted c) rows) as -> by (unfold after; destruct (rc_last_emitted c); [apply filter_gt|done]).
  set (F := after (rc_last_emitted c) rows) in *.
  assert ((if limit <? len F then take (Z.to_nat limit) F else F) = take (Z.to_nat limit) Y) as ->.
  { rewrite <-Htake. destruct (_ <? _) eqn:E; bool_to_prop; [done|]. rewrite take_ge; [done|unfold len in E; lia]. }
  split; [done|]. destruct (last (take (Z.to_nat limit) Y)) as [row|] eqn:El; cycle 1.
  { apply last_None in El. rewrite El. rewrite bool_decide_true by done. cbn [orb]. split; [|done].
    apply (f_equal length) in El. rewrite length_take in El. cbn in El. symmetry. apply nil_length_inv.
    rewrite length_drop. lia. }
  assert (row ∈ Y) as Hin.
  { apply last_Some in El as [l El]. rewrite <-(take_drop (Z.to_nat limit) Y), El. set_solver. }
  split.
  - rewrite bool_decide_false by (intros Hn; by rewrite Hn in El). cbn [orb]. destruct (len rows <? fetch_limit c limit) eqn:E; bool_to_prop.
    + symmetry. apply nil_length_inv. rewrite length_drop. specialize (Hless E). unfold len in Hless. lia.
    + rewrite <-(sorted_take_drop Y _ row HYs El). cbn [after]. subst Y. unfold after in Hin |- *.
      destruct (rc_last_emitted c) as [l|]; [|done]. apply list_elem_of_filter in Hin as [Hlr _].
      rewrite list_filter_filter. apply list_filter_iff. intros r. split; [|tauto]. intros ?. split; [done|korder].
  - intros l [= <-]. rewrite Forall_forall in HYl. by apply HYl.
Qed.

(** One batch of a cursor: the next rows the map has in the range, and after it the
    cursor stands behind them. *)
Lemma next_batch_repr {B G} `{Hpb : PageBuffer B G} `{Hlaws : !PageBufferLaws B G} `{Hph : PageHasher}
    c limit (w : World B) V T m w' c' r :
  tree_repr w V T m → cursor_ok c → 0 < limit < U64_MAX → next_batch c limit w = (w', c', r) →
  tree_repr w' V T m ∧ same w w' ∧ cursor_ok c' ∧
  match r with
  | Ok rows => rows = take (Z.to_nat limit) (remaining c m) ∧
               remaining c' m = drop (Z.to_nat limit) (remaining c m)
  | Err e => c' = c ∧ (descent_error T MAX_ROUTING_DEPTH e ∨ descent_error T RANGE_LEAVES e)
  end.
Proof.
  intros Hr Hok Hlim. unfold next_batch. destruct (rc_done c) eqn:Ed; cbn [orb].
  { intros [[<- <-]%pair_equal_spec <-]%pair_equal_spec. split_and!; try done; unfold remaining; rewrite Ed; [by rewrite take_nil|by rewrite drop_nil]. }
  rewrite (proj2 (Z.eqb_neq limit 0)) by lia. fold (fetch_limit c limit).
  destruct (tree_range _ (rc_end c) _ w) as [w1 [rows|e]] eqn:E.
  - assert (0 ≤ fetch_limit c limit) as Hf by (unfold fetch_limit, saturating_add; destruct (rc_last_emitted c); lia).
    destruct (range_repr m _ _ _ _ _ _ _ _ Hr Hf E) as (Hr1 & Hs1 & Hrows).
    pose proof (cursor_rows_spec c m limit rows (proj1 (tr_map _ _ _ _ Hr)) Hok Ed Hlim Hrows) as Hs.
    destruct (cursor_rows c limit rows) as [c1 out]. intros [[<- <-]%pair_equal_spec <-]%pair_equal_spec. tauto.
  - assert (0 ≤ fetch_limit c limit) as Hf by (unfold fetch_limit, saturating_add; destruct (rc_last_emitted c); lia).
    destruct (range_repr m _ _ _ _ _ _ _ _ Hr Hf E) as (Hr1 & Hs1 & He).
    intros [[<- <-]%pair_equal_spec <-]%pair_equal_spec. tauto.
Qed.
