(* ===== verification/TreeMap.v ===== *)
(** * The B-link tree as a map: theorems

    The claims about [TreeV4.v] as a whole, over the buffer pool of [Buffer.v] with
    any page device, and concrete runs. *)
From Stdlib Require Import String.
From S2P Require Import Prelude StdCollections Ids Shards Frame Translation PageIo Buffer PageBuffer PageDependency PageV4 PageSpec PageUpdate KeyOrder TreeShape TreeV4 TreeSpec TreeOps TreeRange.

Local Open Scope string_scope.
Local Open Scope list_scope.
Local Open Scope Z_scope.
Local Open Scope seer_scope.

(** ** Runs *)
Inductive TreeOp :=
| TLookup (key : bytes)
| TInsert (key value : bytes)
| TUpsert (required : option PageDependencies) (key value : bytes)
| TDelete (key : bytes)
| TRange (start stop : bytes) (limit : Z).

Inductive TreeAnswer :=
| ALookup (r : result BTreeLookup BTreeError)
| AUnit (r : option (result unit BTreeError))
| ABool (r : option (result bool BTreeError))
| ARows (r : result (list Row) BTreeError).

Section runs.
Context {B G : Type} `{Hpb : PageBuffer B G} `{Hlaws : !PageBufferLaws B G} `{Hph : PageHasher}.
#[local] Abbreviation World := (World B).

(** Retry loops get one round. *)
Definition tree_exec (op : TreeOp) (w : World) : World * TreeAnswer :=
  match op with
  | TLookup key => let '(w, r) := tree_lookup key w in (w, ALookup r)
  | TInsert key value => let '(w, r) := tree_insert 1 key value w in (w, AUnit r)
  | TUpsert required key value => let '(w, r) := upsert_inner 1 required key value w in (w, AUnit r)
  | TDelete key => let '(w, r) := tree_delete 1 key w in (w, ABool r)
  | TRange start stop limit => let '(w, r) := tree_range start stop limit w in (w, ARows r)
  end.

Fixpoint tree_run (ops : list TreeOp) (w : World) : World * list TreeAnswer :=
  match ops with
  | [] => (w, [])
  | op :: ops =>
      let '(w, a) := tree_exec op w in
      let '(w, rest) := tree_run ops w in
      (w, a :: rest)
  end.

(** The errors a well-formed tree reports: the device or the pool failed, the tree is
    deeper than the routing limit, identifiers ran out, a lock is poisoned, or a
    page cannot hold what it must. *)
Definition tree_failure (e : BTreeError) : Prop :=
  match e with
  | BTreeBuffer _ | BTreePageDependency _ | RoutingDepthExceeded | PageIdExhausted
  | StructuralLockPoisoned | EntryTooLarge => True
  | BTreeCorruption _ reason => reason = few_entries
  | DuplicateKey | InvalidObjectMetadata _ _ => False
  end.

(** What a sorted map allows an operation to answer. *)
Definition map_allows (op : TreeOp) (m : list LeafEntry) (a : TreeAnswer) (m' : list LeafEntry) : Prop :=
  match op, a with
  | TLookup key, ALookup (Ok v) => m' = m ∧ v = map_lookup m key
  | TRange start stop limit, ARows (Ok rows) => m' = m ∧ rows = take (Z.to_nat limit) (map_range start stop m)
  | TInsert key value, AUnit (Some (Ok _)) =>
      BTreeMap.get key m = None ∧ m' = BTreeMap.insert key (LeafInline value) m
  | TInsert key value, AUnit (Some (Err DuplicateKey)) => BTreeMap.get key m ≠ None ∧ m' = m
  | TUpsert _ key value, AUnit (Some (Ok _)) => m' = BTreeMap.insert key (LeafInline value) m
  | TDelete key, ABool (Some (Ok true)) => BTreeMap.get key m ≠ None ∧ m' = BTreeMap.remove key m
  | TDelete key, ABool (Some (Ok false)) => BTreeMap.get key m = None ∧ m' = m
  | (TInsert key value | TUpsert _ key value), AUnit (Some (Err e)) =>
      tree_failure e ∧ (m' = m ∨ m' = BTreeMap.insert key (LeafInline value) m)
  | TLookup _, ALookup (Err e) | TRange _ _ _, ARows (Err e) | TDelete _, ABool (Some (Err e)) =>
      tree_failure e ∧ m' = m
  | _, _ => False
  end.

Inductive map_run : list TreeOp → list LeafEntry → list TreeAnswer → list LeafEntry → Prop :=
| run_nil m : map_run [] m [] m
| run_cons op ops m a m1 rest m2 :
    map_allows op m a m1 → map_run ops m1 rest m2 → map_run (op :: ops) m (a :: rest) m2.

Lemma descent_failure T fuel e : descent_error T fuel e → tree_failure e.
Proof. by intros [[? ->]|[-> _]]. Qed.

Lemma update_failure T e : update_error T e → tree_failure e.
Proof.
  intros [?%descent_failure|[He| ->]]; [done| |done].
  destruct He as [[? ->]|[[? ->]|[->|[->|[? ->]]]]]; done.
Qed.

Definition limits_ok (ops : list TreeOp) : Prop :=
  Forall (λ op, match op with TRange _ _ limit => 0 ≤ limit | _ => True end) ops.

Lemma tree_exec_repr op w V T m w' a :
  tree_repr w V T m → match op with TRange _ _ limit => 0 ≤ limit | _ => True end → tree_exec op w = (w', a) →
  ∃ V' T' m', tree_repr w' V' T' m' ∧ map_allows op m a m'.
Proof.
  intros Hr Hlim. destruct op as [key|key value|required key value|key|start stop limit]; cbn [tree_exec].
  - destruct (tree_lookup key w) as [w1 r] eqn:E. intros [<- <-]%pair_equal_spec.
    destruct (lookup_repr _ _ _ _ _ _ _ Hr E) as (Hr' & _ & Hres). exists V, T, m. split; [done|].
    destruct r; [done|]. split; [by eapply descent_failure|done].
  - destruct (tree_insert 1 key value w) as [w1 o] eqn:E. intros [<- <-]%pair_equal_spec.
    destruct (insert_repr 0 _ _ _ _ _ _ _ _ Hr E) as (r & V' & T' & m' & -> & Hr' & Hres). exists V', T', m'.
    split; [done|]. destruct r as [[]|e]; [done|]. unfold insert_outcome in Hres. cbn.
    destruct e; try done; destruct Hres as [Hm He]; apply update_failure in He; (split; [done|]); tauto.
  - destruct (upsert_inner 1 required key value w) as [w1 o] eqn:E. intros [<- <-]%pair_equal_spec.
    destruct (upsert_repr _ 0 _ _ _ _ _ _ _ _ Hr E) as (r & V' & T' & m' & -> & Hr' & Hres & _). exists V', T', m'.
    split; [done|]. destruct r as [[]|e]; [done|]. destruct Hres as [Hm He%update_failure]. done.
  - destruct (tree_delete 1 key w) as [w1 o] eqn:E. intros [<- <-]%pair_equal_spec.
    destruct (delete_repr 0 _ _ _ _ _ _ _ Hr E) as (r & V' & T' & m' & -> & Hr' & Hres). exists V', T', m'.
    split; [done|]. destruct r as [[|]|e]; [done..|]. destruct Hres as [-> He%descent_failure]. done.
  - destruct (tree_range start stop limit w) as [w1 r] eqn:E. intros [<- <-]%pair_equal_spec.
    destruct (range_repr m _ _ _ _ _ _ _ _ Hr Hlim E) as (Hr' & _ & Hres). exists V, T, m. split; [done|].
    destruct r; [done|]. split; [|done]. by destruct Hres; eapply descent_failure.
Qed.

Lemma tree_run_repr ops w V T m w' answers :
  tree_repr w V T m → limits_ok ops → tree_run ops w = (w', answers) →
  ∃ V' T' m', tree_repr w' V' T' m' ∧ map_run ops m answers m'.
Proof.
  revert w V T m answers. induction ops as [|op ops IH]; intros w V T m answers Hr Hok; cbn [tree_run].
  { intros [<- <-]%pair_equal_spec. exists V, T, m. split; [done|constructor]. }
  apply Forall_cons in Hok as [Hop Hok]. destruct (tree_exec op w) as [w1 a] eqn:E1.
  destruct (tree_run ops w1) as [w2 rest] eqn:E2. intros [<- <-]%pair_equal_spec.
  destruct (tree_exec_repr _ _ _ _ _ _ _ Hr Hop E1) as (V1 & T1 & m1 & Hr1 & Ha).
  destruct (IH _ _ _ _ _ Hr1 Hok E2) as (V2 & T2 & m2 & Hr2 & Hrun). exists V2, T2, m2. split; [done|].
  by econstructor.
Qed.
End runs.

(** C5. The B-link tree is a sorted map.  Over a fresh buffer pool and any page device,
    however it fails, create a tree and run any sequence of lookups, insertions,
    upserts with or without page dependencies, removals and ranges: every answer is
    one the sorted map allows, retry loops end in their first round, a failed update
    has left the old map or the new one, and corruption is never reported but for a
    page that is too small to be split. *)
Theorem btree_is_a_map {D} `{PageIoLaws D} `{PageHasher} n size (io : D) V0 bp0 descriptor bp1 t deps ops w answers :
  BufferPool_new n size io = Ok bp0 → 0 ≤ size → io_repr io V0 → table_wf (pt_shards deps) →
  tree_create descriptor bp0 = (bp1, Ok t) → limits_ok ops →
  tree_run ops {| w_buffer := bp1; w_tree := t; w_deps := deps |} = (w, answers) →
  ∃ m, map_run ops [] answers m.
Proof.
  intros Hn Hsz Hio Hd Hc Hok Hrun. pose proof (BufferPool_new_repr _ _ _ _ _ Hn Hsz Hio) as Hr0.
  destruct (tree_create_repr (Hlaws := pool_buffer_laws) descriptor bp0 V0 deps bp1 t Hr0 Hd Hc) as (V & T & Hr).
  destruct (tree_run_repr _ _ _ _ _ _ _ Hr Hok Hrun) as (_ & _ & m & _ & Hm). by exists m.
Qed.

(** ** A tree of three levels on pages of 160 bytes *)
#[local] Instance page_id_hasher : PageHasher := λ k, pk_page k.

Definition demo_io : MemoryPages := {| mp_pages := ∅; mp_faults := [] |}.
Definition demo_frames : BufferPool MemoryPages :=
  {| bp_frames := repeat (FrameSlot_new 160) 7; bp_translation := TranslationTable_new; bp_io := demo_io;
     bp_clock := 0; bp_page_size := 160 |}.
Definition demo_object : StorageObjectDescriptor := {| od_id := 1; od_authority := Authoritative |}.
Definition demo_tree : BTreeObject :=
  {| bt_descriptor := demo_object; bt_root := 0; bt_next_page := 1; bt_poisoned := false |}.
Definition demo_world : World (BufferPool MemoryPages) :=
  {| w_buffer := (tree_create demo_object demo_frames).1; w_tree := demo_tree; w_deps := DependencyTable_new |}.
Definition filled (n : nat) (z : Z) : bytes := repeat (u8 z) n.
Definition demo_upserts : list TreeOp :=
  map (λ z, TUpsert None (filled 20 z) (filled 20 0)) [5; 1; 9; 7; 8; 3; 6; 13; 23; 15].

Lemma demo_created : tree_create demo_object demo_frames = (w_buffer demo_world, Ok demo_tree).
Proof.
  rewrite (surjective_pairing (tree_create demo_object demo_frames)) at 1.
  apply pair_equal_spec. split; [reflexivity|vm_compute; reflexivity].
Qed.

Lemma demo_repr : ∃ V T, tree_repr demo_world V T [].
Proof.
  apply (tree_create_repr (Hlaws := pool_buffer_laws) demo_object demo_frames ∅);
    [|reflexivity|apply demo_created].
  apply (BufferPool_new_repr 7 160 demo_io); [reflexivity|lia|reflexivity].
Qed.

Definition demo_ops : list TreeOp :=
  demo_upserts ++ [TInsert (filled 20 9) []; TDelete (filled 20 5); TLookup (filled 20 5); TRange [] (filled 1 2) 6].

Lemma btree_is_a_map_witness :
  drop 10 (tree_run demo_ops demo_world).2 =
    [AUnit (Some (Err DuplicateKey)); ABool (Some (Ok true)); ALookup (Ok LookupNotFound);
     ARows (Ok [(filled 20 1, LookupFound (filled 20 0))])] ∧
  bt_next_page (w_tree (tree_run demo_ops demo_world).1) = 18 ∧
  ∃ m, map_run demo_ops [] (tree_run demo_ops demo_world).2 m.
Proof.
  split; [vm_compute; reflexivity|]. split; [vm_compute; reflexivity|].
  apply (btree_is_a_map 7 160 demo_io ∅ demo_frames demo_object (w_buffer demo_world) demo_tree
    DependencyTable_new demo_ops (tree_run demo_ops demo_world).1).
  - reflexivity.
  - lia.
  - reflexivity.
  - reflexivity.
  - apply demo_created.
  - unfold limits_ok, demo_ops. apply Forall_app. split; [|by repeat constructor].
    by repeat constructor.
  - apply surjective_pairing.
Defined.

(** C23. Write-ahead order: every page an upsert with dependencies changes, splits and
    new roots included and also when the upsert fails half way, belongs to the
    object and has the requirement merged into its entry of the dependency table. *)
Theorem upsert_changes_are_gated {B G} `{Hpb : PageBuffer B G} `{Hlaws : !PageBufferLaws B G} `{PageHasher}
    fuel required key value (w : World B) V T m w' o :
  tree_repr w V T m → upsert_with_dependencies (S fuel) key value required w = (w', o) →
  ∃ V', pb_repr (w_buffer w') V' [] ∅ ∧
    ∀ k, V' !! k ≠ V !! k →
      pk_object k = od_id (bt_descriptor (w_tree w)) ∧ dep_le required (required_of (w_deps w') k).
Proof.
  intros Hr Hu. destruct (upsert_repr _ _ _ _ _ _ _ _ _ _ Hr Hu) as (_ & V' & T' & m' & _ & Hr' & _ & Hc & _).
  exists V'. split; [apply Hr'|]. intros k Hk. destruct (Hc k Hk) as [Ho Hd]. split; [done|]. by apply Hd.
Qed.

Definition demo_required : PageDependencies := {| pd_required_wal := 9; pd_required_undo := Some 4 |}.

Lemma upsert_changes_are_gated_witness :
  let w' := (upsert_with_dependencies 1 [u8 1] [u8 2] demo_required demo_world).1 in
  required_of (w_deps w') (page_key demo_tree 0) = demo_required ∧
  ∃ V V' : gmap PageKey bytes, pb_repr (w_buffer w') V' [] ∅ ∧
    ∀ k, V' !! k ≠ V !! k → pk_object k = 1 ∧ dep_le demo_required (required_of (w_deps w') k).
Proof.
  cbn zeta. split; [vm_compute; reflexivity|]. destruct demo_repr as (V & T & Hr). exists V.
  apply (upsert_changes_are_gated 0 demo_required [u8 1] [u8 2] demo_world V T [] _
    (upsert_with_dependencies 1 [u8 1] [u8 2] demo_required demo_world).2 Hr).
  apply surjective_pairing.
Defined.

Lemma size_le_next T root next : tree_wf T root next → Z.of_nat (size T) ≤ next.
Proof.
  intros Hwf. destruct (tw_root _ _ _ Hwf) as (N & HN & _). destruct (tw_nodes _ _ _ Hwf _ _ HN) as [_ Hp].
  assert (dom T ⊆ (list_to_set (seqZ 0 next) : gset Z)) as Hsub.
  { intros p [M HM]%elem_of_dom. apply elem_of_list_to_set, elem_of_seqZ.
    destruct (tw_nodes _ _ _ Hwf _ _ HM) as [_ ?]. lia. }
  apply subseteq_size in Hsub. rewrite size_dom, size_list_to_set, length_seqZ in Hsub by apply NoDup_seqZ. lia.
Qed.

(** C28. Routing terminates within its limit: while at most [MAX_ROUTING_DEPTH] pages
    were ever allocated a lookup visits no page twice on its way right and down, so
    it answers what the map holds unless the buffer pool fails. *)
Theorem routing_depth_suffices {B G} `{Hpb : PageBuffer B G} `{Hlaws : !PageBufferLaws B G} `{PageHasher}
    key (w : World B) V T m w' r :
  tree_repr w V T m → bt_next_page (w_tree w) ≤ Z.of_nat MAX_ROUTING_DEPTH → tree_lookup key w = (w', r) →
  r = Ok (map_lookup m key) ∨ ∃ e, r = Err (BTreeBuffer e).
Proof.
  intros Hr Hn Hl. destruct (lookup_repr _ _ _ _ _ _ _ Hr Hl) as (_ & _ & Hres).
  destruct r as [v|e]; [left; by f_equal|right]. destruct Hres as [[be ->]|[_ Hlt]]; [eauto|].
  pose proof (size_le_next _ _ _ (tr_wf _ _ _ _ Hr)). lia.
Qed.

Lemma routing_depth_suffices_witness :
  (tree_lookup [u8 1] demo_world).2 = Ok LookupNotFound ∧
  ((tree_lookup [u8 1] demo_world).2 = Ok (map_lookup [] [u8 1]) ∨
   ∃ e, (tree_lookup [u8 1] demo_world).2 = Err (BTreeBuffer e)).
Proof.
  split; [vm_compute; reflexivity|]. destruct demo_repr as (V & T & Hr).
  apply (routing_depth_suffices [u8 1] demo_world V T [] (tree_lookup [u8 1] demo_world).1 _ Hr).
  - vm_compute. discriminate.
  - apply surjective_pairing.
Defined.

(** ** Cursors

    A client asks for batches of the given limits, and asks again after an error. *)
Section cursors.
Context {B G : Type} `{Hpb : PageBuffer B G} `{Hlaws : !PageBufferLaws B G} `{Hph : PageHasher}.

Fixpoint cursor_run (limits : list Z) (c : RangeCursor) (w : World B)
    : World B * RangeCursor * list (Z * result (list Row) BTreeError) :=
  match limits with
  | [] => (w, c, [])
  | limit :: limits =>
      let '(w, c, r) := next_batch c limit w in
      let '(w, c, rest) := cursor_run limits c w in
      (w, c, (limit, r) :: rest)
  end.

(** The rows handed out, and how many were asked for in the calls that succeeded. *)
Fixpoint batches (answers : list (Z * result (list Row) BTreeError)) : list Row * Z :=
  match answers with
  | [] => ([], 0)
  | (limit, Ok rows) :: rest => let '(out, n) := batches rest in (rows ++ out, limit + n)
  | (_, Err _) :: rest => batches rest
  end.

Lemma batches_nonneg answers : Forall (λ a, 0 < a.1) answers → 0 ≤ (batches answers).2.
Proof.
  induction 1 as [|[limit [rows|e]] rest Hl _ IH]; cbn in *; [lia| |done].
  destruct (batches rest). cbn in *. lia.
Qed.

Lemma cursor_run_limits limits : ∀ c w w' c' answers,
  cursor_run limits c w = (w', c', answers) → map fst answers = limits.
Proof.
  induction limits as [|limit limits IH]; intros c w w' c' answers; cbn [cursor_run].
  { by intros [_ <-]%pair_equal_spec. }
  destruct (next_batch c limit w) as [[w1 c1] r]. destruct (cursor_run limits c1 w1) as [[w2 c2] rest] eqn:E.
  intros [_ <-]%pair_equal_spec. cbn. f_equal. by eapply IH.
Qed.

Lemma cursor_run_repr limits : ∀ c w V T m w' c' answers,
  tree_repr w V T m → cursor_ok c → Forall (λ l, 0 < l < U64_MAX) limits →
  cursor_run limits c w = (w', c', answers) →
  (batches answers).1 = take (Z.to_nat (batches answers).2) (remaining c m).
Proof.
  induction limits as [|limit limits IH]; intros c w V T m w' c' answers Hr Hok Hlim; cbn [cursor_run].
  { by intros [_ <-]%pair_equal_spec. }
  apply Forall_cons in Hlim as [Hl Hlim]. destruct (next_batch c limit w) as [[w1 c1] r] eqn:E1.
  destruct (cursor_run limits c1 w1) as [[w2 c2] rest] eqn:E2. intros [_ <-]%pair_equal_spec.
  destruct (next_batch_repr _ _ _ _ _ _ _ _ _ Hr Hok Hl E1) as (Hr1 & _ & Hok1 & Hres).
  pose proof (IH _ _ _ _ _ _ _ _ Hr1 Hok1 Hlim E2) as Hrest.
  assert (0 ≤ (batches rest).2) as Hn.
  { apply batches_nonneg. apply Forall_map with (f := fst) (P := λ l, 0 < l).
    rewrite (cursor_run_limits _ _ _ _ _ _ E2). eapply Forall_impl; [exact Hlim|]. by intros l [? _]. }
  cbn [batches]. destruct r as [rows|e]; cycle 1. { by destruct Hres as [-> _]. }
  destruct Hres as [-> Hrem], (batches rest) as [out n]. cbn [fst snd] in *. rewrite Hrest, Hrem.
  rewrite Z2Nat.inj_add, <-take_take_drop by lia. done.
Qed.
End cursors.

(** A range cursor hands out each row of the range once and in order: the batches
    that succeed, of whatever limits and with failed calls between them, concatenate
    to the first rows of the range, as many as were asked for. *)
Theorem cursor_batches_are_the_range {B G} `{Hpb : PageBuffer B G} `{Hlaws : !PageBufferLaws B G} `{PageHasher}
    start stop limits (w : World B) V T m w' c' answers :
  tree_repr w V T m → Forall (λ l, 0 < l < U64_MAX) limits →
  cursor_run limits (range_cursor start stop) w = (w', c', answers) →
  (batches answers).1 = take (Z.to_nat (batches answers).2) (map_range start stop m).
Proof.
  intros Hr Hlim Hc. assert (cursor_ok (range_cursor start stop)) as Hok by (intros l; done).
  rewrite (cursor_run_repr _ _ _ _ _ _ _ _ _ Hr Hok Hlim Hc).
  f_equal. unfold remaining, range_cursor, RangeCursor_new. cbn [rc_done rc_last_emitted rc_start rc_end after].
  destruct (key_cmp start stop) eqn:E; [|done|]; symmetry; apply map_range_nil, Forall_true; intros e [? ?].
  - apply key_cmp_eq in E as ->. korder.
  - apply key_cmp_gt in E. korder.
Qed.

(** Four rows in batches of two and three. *)
Definition demo_four : World (BufferPool MemoryPages) :=
  (tree_run (map (λ z, TUpsert None (filled 20 z) (filled 20 0)) [5; 1; 9; 7]) demo_world).1.

Lemma cursor_batches_are_the_range_witness :
  let run := cursor_run [2; 3] (range_cursor [u8 0] [u8 200]) demo_four in
  map (λ a, match a.2 with Ok rows => map fst rows | Err _ => [] end) run.2 =
    [[filled 20 1; filled 20 5]; [filled 20 7; filled 20 9]] ∧
  ∃ m, (batches run.2).1 = take 5 (map_range [u8 0] [u8 200] m).
Proof.
  cbn zeta. split; [vm_compute; reflexivity|]. destruct demo_repr as (V & T & Hr).
  destruct (tree_run_repr (map (λ z, TUpsert None (filled 20 z) (filled 20 0)) [5; 1; 9; 7]) _ _ _ _ _ _ Hr
    ltac:(by repeat constructor) (surjective_pairing _)) as (V' & T' & m & Hr' & _).
  exists m. change 5%nat with (Z.to_nat 5).
  replace 5 with (batches (cursor_run [2; 3] (range_cursor [u8 0] [u8 200]) demo_four).2).2
    by (vm_compute; reflexivity).
  apply (cursor_batches_are_the_range [u8 0] [u8 200] [2; 3] demo_four V' T' m
    (cursor_run [2; 3] (range_cursor [u8 0] [u8 200]) demo_four).1.1
    (cursor_run [2; 3] (range_cursor [u8 0] [u8 200]) demo_four).1.2 _ Hr').
  - by repeat constructor.
  - by destruct (cursor_run [2; 3] (range_cursor [u8 0] [u8 200]) demo_four) as [[? ?] ?].
Defined.

(** ** Capacity checks *)

(** The bytes a record takes in a leaf of its own: the header, its slot, the key, the
    tag and the value. *)
Definition lone_record (key value : bytes) : Z := HEADER_SIZE + SLOT_SIZE + len key + 1 + len value.

Lemma lone_page_fits size key value :
  page_fits size (leaf_page None None [(key, LeafInline value)]) ↔ lone_record key value ≤ size ≤ U32_MAX.
Proof.
  unfold page_fits, lower_of, heap_size, high_len, lone_record, entry_bytes. cbn. rewrite len_app, !len_cons, !len_nil.
  unfold HEADER_SIZE, SLOT_SIZE. pose proof (len_nonneg key). pose proof (len_nonneg value). lia.
Qed.

Lemma heap_entries_elem es e : e ∈ es → len (entry_bytes e.1 e.2) ≤ heap_entries es.
Proof.
  intros (l1 & l2 & ->)%list_elem_of_split. rewrite heap_entries_app. cbn [heap_entries].
  pose proof (heap_entries_nonneg l1). pose proof (heap_entries_nonneg l2). lia.
Qed.

Section capacity.
Context {B G : Type} `{Hpb : PageBuffer B G} `{Hlaws : !PageBufferLaws B G} `{Hph : PageHasher}.

Lemma preflight_cases key value (b : B) :
  preflight_inline_upsert key value b =
    if decide (len key ≤ U16_MAX ∧ len value ≤ U16_MAX ∧ lone_record key value ≤ pb_page_size b ≤ U32_MAX)
    then Ok tt else Err EntryTooLarge.
Proof.
  unfold preflight_inline_upsert. destruct (_ || _) eqn:E.
  { rewrite decide_False; [done|]. apply orb_true_iff in E. bool_to_prop. lia. }
  apply orb_false_iff in E as [Ek Ev]. bool_to_prop.
  assert (page_wf (leaf_page None None [(key, LeafInline value)])) as Hwf.
  { split; [done|]. split; repeat constructor; cbn; lia. }
  pose proof (build_page_at (pb_page_size b) _ Hwf) as Hb.
  change (build ?s (leaf_page None None ?es)) with (build_leaf s None None es) in Hb.
  case_decide as Hf; rewrite lone_page_fits in Hf.
  - destruct Hb as (d & -> & _). by rewrite decide_True.
  - destruct Hb as (e & -> & _). rewrite decide_False; [done|]. by intros (_ & _ & ?).
Qed.

(** What a tree holds fits a leaf alone. *)
Lemma stored_record_fits (w : World B) V T m key value :
  tree_repr w V T m → BTreeMap.get key m = Some (LeafInline value) →
  preflight_inline_upsert key value (w_buffer w) = Ok tt.
Proof.
  intros Hr Hg. apply (tr_map _ _ _ _ Hr) in Hg as (p & N & es & Hp & Hb & Hes).
  destruct (tr_images _ _ _ _ Hr _ _ Hp) as (d & u & ho & _ & Hd & Hat).
  unfold node_page in Hat. rewrite Hb in Hat. set (P := leaf_page (n_high N) (n_right N) es) in *.
  assert ((key, EncodedLeaf (LeafInline value)) ∈ p_entries P) as Hin.
  { apply list_elem_of_fmap. exists (key, LeafInline value). split; [done|]. by apply BTreeMap.get_elem. }
  destruct (proj1 (Forall_forall _ _) (pa_payloads _ _ _ _ Hat) _ Hin) as [Hk Hv]. cbn in Hk, Hv.
  pose proof (heap_entries_elem _ _ Hin) as Hh. unfold entry_bytes in Hh.
  cbn [fst snd encode_payload tag_bytes app] in Hh. rewrite len_app, len_cons in Hh.
  assert (1 ≤ len (p_entries P)) as Hlen.
  { apply list_elem_of_lookup in Hin as [i Hi]. apply lookup_lt_Some in Hi. unfold len. lia. }
  pose proof (pa_bounds _ _ _ _ Hat). pose proof (pa_heap _ _ _ _ Hat). pose proof (pa_size _ _ _ _ Hat).
  assert (0 ≤ high_len P) by (unfold high_len; destruct (p_high P); [apply len_nonneg|done]).
  unfold lower_of, heap_size, HEADER_SIZE, SLOT_SIZE in *.
  rewrite preflight_cases, decide_True; [done|]. unfold lone_record, HEADER_SIZE, SLOT_SIZE. lia.
Qed.

Lemma page_size_bound (w : World B) V T m : tree_repr w V T m → pb_page_size (w_buffer w) ≤ U32_MAX.
Proof.
  intros Hr. destruct (tw_root _ _ _ (tr_wf _ _ _ _ Hr)) as (N & HN & _).
  destruct (tr_images _ _ _ _ Hr _ _ HN) as (d & u & ho & _ & <- & Hat). apply (pa_size _ _ _ _ Hat).
Qed.
End capacity.

(** C39. The preflight check of an upsert is exact for a leaf of its own and refuses
    nothing the tree could take: it answers Ok exactly when the key and the value have
    16-bit lengths and the record fits an empty leaf of the page size, and
    [EntryTooLarge] otherwise; and an upsert of a record it refuses fails in every
    state of the tree, and leaves the map as it was. *)
Theorem preflight_refuses_only_what_never_fits {B G} `{Hpb : PageBuffer B G} `{Hlaws : !PageBufferLaws B G} `{PageHasher}
    key value (w : World B) V T m :
  tree_repr w V T m →
  (preflight_inline_upsert key value (w_buffer w) = Ok tt ↔
     len key ≤ U16_MAX ∧ len value ≤ U16_MAX ∧ lone_record key value ≤ pb_page_size (w_buffer w)) ∧
  (preflight_inline_upsert key value (w_buffer w) ≠ Ok tt →
     preflight_inline_upsert key value (w_buffer w) = Err EntryTooLarge ∧
     ∀ fuel required w' r, upsert_inner (S fuel) required key value w = (w', r) →
       ∃ e V' T', r = Some (Err e) ∧ tree_failure e ∧ tree_repr w' V' T' m).
Proof.
  intros Hr. pose proof (page_size_bound _ _ _ _ Hr) as Hsz. split.
  { rewrite preflight_cases. case_decide as Hd; split; [lia|done|done|]. intros ?. exfalso. apply Hd. lia. }
  intros Hno. split; [rewrite preflight_cases in *; by case_decide|]. intros fuel required w' o Hu.
  destruct (upsert_repr _ _ _ _ _ _ _ _ _ _ Hr Hu) as (r & V' & T' & m' & -> & Hr' & Hres & _ & _ & Eps).
  assert (m' ≠ BTreeMap.insert key (LeafInline value) m) as Hm.
  { intros ->. apply Hno. pose proof (stored_record_fits _ _ _ _ key value Hr') as Hs.
    rewrite preflight_cases in Hs |- *. rewrite <-Eps. apply Hs. by rewrite BTreeMap.get_insert_eq. }
  destruct r as [[]|e]; [done|]. destruct Hres as [[->|?] He]; [|done]. exists e, V', T'.
  split; [done|]. split; [by eapply update_failure|done].
Qed.

Lemma preflight_refuses_only_what_never_fits_witness :
  preflight_inline_upsert [u8 1] (filled 83 0) (w_buffer demo_world) = Err EntryTooLarge ∧
  preflight_inline_upsert [u8 1] (filled 82 0) (w_buffer demo_world) = Ok tt ∧
  ∃ e V' T', (upsert_inner 1 None [u8 1] (filled 83 0) demo_world).2 = Some (Err e) ∧ tree_failure e ∧
    tree_repr (upsert_inner 1 None [u8 1] (filled 83 0) demo_world).1 V' T' [].
Proof.
  assert (preflight_inline_upsert [u8 1] (filled 83 0) (w_buffer demo_world) = Err EntryTooLarge) as E
    by (vm_compute; reflexivity).
  split; [exact E|]. split; [vm_compute; reflexivity|]. destruct demo_repr as (V & T & Hr).
  refine (proj2 (proj2 (preflight_refuses_only_what_never_fits [u8 1] (filled 83 0) demo_world V T [] Hr) _) 0%nat None
    _ _ (surjective_pairing _)).
  rewrite E. discriminate.
Defined.

(** The check is not sufficient: with two entries in a leaf, a third between them that
    fits an empty leaf is refused by the upsert with [EntryTooLarge], since a leaf is
    split in two and no cut of the three entries leaves two pages that fit. *)
Lemma preflight_does_not_admit :
  let leaf := [([u8 1], LeafInline (filled 32 0)); ([u8 2], LeafInline (filled 47 0)); ([u8 3], LeafInline (filled 32 0))] in
  let w := (tree_run [TUpsert None [u8 1] (filled 32 0); TUpsert None [u8 3] (filled 32 0)] demo_world).1 in
  preflight_inline_upsert [u8 2] (filled 47 0) (w_buffer w) = Ok tt ∧
  (upsert_inner 1 None [u8 2] (filled 47 0) w).2 = Some (Err EntryTooLarge) ∧
  ∀ n high right, (0 < n < 3)%nat →
    ¬ (page_fits 160 (leaf_page (Some high) right (take n leaf)) ∧ page_fits 160 (leaf_page None None (drop n leaf))).
Proof.
  split; [vm_compute; reflexivity|]. split; [vm_compute; reflexivity|]. intros n high right Hn.
  assert (n = 1%nat ∨ n = 2%nat) as [-> | ->] by lia.
  - intros [_ [_ Hf]]. vm_compute in Hf. by apply Hf.
  - intros [[_ Hf] _]. unfold heap_size, high_len in Hf. cbn [p_high leaf_page] in Hf. pose proof (len_nonneg high).
    match type of Hf with ?a + (_ + ?b) ≤ _ => assert (160 < a + b) by (vm_compute; reflexivity) end. lia.
Qed.

(** A record too large for any leaf is reported as corruption by [insert] into an
    empty tree, whose split finds a single entry, and as [EntryTooLarge] by [upsert]. *)
Theorem oversized_insert_reports_corruption :
  (tree_insert 1 [u8 1] (filled 160 0) demo_world).2 = Some (Err (BTreeCorruption 0 few_entries)) ∧
  (upsert_inner 1 None [u8 1] (filled 160 0) demo_world).2 = Some (Err EntryTooLarge).
Proof. split; vm_compute; reflexivity. Qed.
