(* ===== verification/ObjectStore.v ===== *)
(** * Ordered objects over one buffer pool

    What the transaction layer ([ordered_mvcc.rs], [ordered_commit.rs],
    [ordered_recovery.rs]) asks of the trees: an interface of lookups, upserts,
    preflight checks and cursors on a number of objects, and its implementation by
    B-link trees that share a buffer pool and a dependency table. *)
From Stdlib Require Import String.
From S2P Require Import Prelude StdCollections Ids Shards Frame PageIo Buffer PageBuffer PageDependency PageV4 PageSpec PageUpdate KeyOrder TreeShape TreeV4 TreeSpec TreeOps TreeRange.

Local Open Scope list_scope.
Local Open Scope Z_scope.
Local Open Scope seer_scope.

(** ** The interface

    A handle is the position of a tree among the objects; it stands for the
    [&BTreeObject] the code passes around. *)
Class ObjectStore (W : Type) := {
  os_descriptor : nat → W → StorageObjectDescriptor;
  os_lookup : nat → bytes → W → W * result BTreeLookup BTreeError;
  os_upsert : nat → option PageDependencies → bytes → bytes → W → W * result unit BTreeError;
  os_preflight : nat → bytes → bytes → W → result unit BTreeError;
  os_next_batch : nat → RangeCursor → Z → W → W * RangeCursor * result (list Row) BTreeError;
  os_deps : W → PageDependencyTable;
  os_set_deps : PageDependencyTable → W → W
}.

Abbreviation Objects := (list (StorageObjectDescriptor * list LeafEntry)).

(** [objects] after an upsert. *)
Definition put_entry (h : nat) (key value : bytes) (M : Objects) : Objects :=
  alter (λ o, (o.1, BTreeMap.insert key (LeafInline value) o.2)) h M.

(** The store stands for one sorted map per object; a failed upsert has left the
    old map or the new one. *)
Class ObjectStoreLaws (W : Type) `{ObjectStore W} := {
  os_repr : W → Objects → Prop;
  os_sorted w M h o : os_repr w M → M !! h = Some o → keys_sorted o.2;
  os_ids w M : os_repr w M → NoDup (map (λ o, od_id o.1) M);
  os_descriptor_repr w M h o : os_repr w M → M !! h = Some o → os_descriptor h w = o.1;
  os_lookup_repr w M h o key w' r :
    os_repr w M → M !! h = Some o → os_lookup h key w = (w', r) →
    os_repr w' M ∧ os_deps w' = os_deps w ∧
    match r with Ok v => v = map_lookup o.2 key | Err _ => True end;
  os_upsert_repr w M h o dep key value w' r :
    os_repr w M → M !! h = Some o → os_upsert h dep key value w = (w', r) →
    match r with
    | Ok _ => os_repr w' (put_entry h key value M)
    | Err _ => os_repr w' M ∨ os_repr w' (put_entry h key value M)
    end;
  os_next_batch_repr w M h o c limit w' c' r :
    os_repr w M → M !! h = Some o → cursor_ok c → 0 < limit < U64_MAX →
    os_next_batch h c limit w = (w', c', r) →
    os_repr w' M ∧ os_deps w' = os_deps w ∧ cursor_ok c' ∧
    match r with
    | Ok rows => rows = take (Z.to_nat limit) (remaining c o.2) ∧
                 remaining c' o.2 = drop (Z.to_nat limit) (remaining c o.2)
    | Err _ => c' = c
    end;
  os_deps_wf w M : os_repr w M → table_wf (pt_shards (os_deps w));
  os_set_deps_repr w M s :
    os_repr w M → table_wf (pt_shards s) → os_repr (os_set_deps s w) M ∧ os_deps (os_set_deps s w) = s
}.

(** [dependencies.advance_wal] and [advance_undo]. *)
Definition os_advance_wal {W} `{ObjectStore W} (lsn : Lsn) (w : W) : W :=
  os_set_deps (advance_wal lsn (os_deps w)) w.
Definition os_advance_undo {W} `{ObjectStore W} (version : VersionId) (w : W) : W :=
  os_set_deps (advance_undo version (os_deps w)) w.

Lemma os_advance_wal_repr {W} `{ObjectStoreLaws W} (lsn : Lsn) (w : W) M :
  os_repr w M → os_repr (os_advance_wal lsn w) M.
Proof. intros Hr. apply os_set_deps_repr; [done|]. exact (os_deps_wf w M Hr). Qed.
Lemma os_advance_undo_repr {W} `{ObjectStoreLaws W} (v : VersionId) (w : W) M :
  os_repr w M → os_repr (os_advance_undo v w) M.
Proof. intros Hr. apply os_set_deps_repr; [done|]. exact (os_deps_wf w M Hr). Qed.

Lemma put_entry_lookup h key value (M : Objects) h' :
  put_entry h key value M !! h' =
    if decide (h = h') then (λ o, (o.1, BTreeMap.insert key (LeafInline value) o.2)) <$> M !! h' else M !! h'.
Proof.
  unfold put_entry. destruct (decide (h = h')) as [->|Hne].
  - apply list_lookup_alter_eq.
  - by rewrite list_lookup_alter_ne.
Qed.

Lemma put_entry_insert h key value (M : Objects) o :
  M !! h = Some o → put_entry h key value M = <[h := (o.1, BTreeMap.insert key (LeafInline value) o.2)]> M.
Proof.
  intros Ho. apply list_eq. intros i. rewrite put_entry_lookup. destruct (decide (h = i)) as [<-|Hne].
  - rewrite Ho. cbn. symmetry. apply list_lookup_insert_eq. by eapply lookup_lt_Some.
  - by rewrite list_lookup_insert_ne.
Qed.

(** ** The forest *)
Record Forest (B : Type) := { f_buffer : B; f_trees : list BTreeObject; f_deps : PageDependencyTable }.
Arguments f_buffer {B} _.
Arguments f_trees {B} _.
Arguments f_deps {B} _.

(** What a handle that names no tree would read; no reference is one. *)
Definition no_tree : BTreeObject :=
  {| bt_descriptor := {| od_id := 0; od_authority := Derived |}; bt_root := 0; bt_next_page := 0;
     bt_poisoned := true |}.

Section forest.
Context {B G : Type} `{Hpb : PageBuffer B G} `{Hph : PageHasher}.

Definition tree_at (h : nat) (f : Forest B) : World B :=
  {| w_buffer := f_buffer f; w_tree := default no_tree (f_trees f !! h); w_deps := f_deps f |}.

Definition put_tree (h : nat) (w : World B) (f : Forest B) : Forest B :=
  {| f_buffer := w_buffer w; f_trees := <[h := w_tree w]> (f_trees f); f_deps := w_deps w |}.

(** An upsert ends in its first round, see [upsert_repr]. *)
#[global] Instance forest_store : ObjectStore (Forest B) := {
  os_descriptor h f := bt_descriptor (w_tree (tree_at h f));
  os_lookup h key f := let '(w, r) := tree_lookup key (tree_at h f) in (put_tree h w f, r);
  os_upsert h dep key value f :=
    match upsert_inner 1 dep key value (tree_at h f) with
    | (w, Some r) => (put_tree h w f, r)
    | (w, None) => (put_tree h w f, Err RoutingDepthExceeded)
    end;
  os_preflight h key value f := preflight_inline_upsert key value (f_buffer f);
  os_next_batch h c limit f :=
    let '(w, c, r) := next_batch c limit (tree_at h f) in (put_tree h w f, c, r);
  os_deps := f_deps;
  os_set_deps s f := {| f_buffer := f_buffer f; f_trees := f_trees f; f_deps := s |}
}.
End forest.

(** ** The forest stands for its maps *)
Section forest_laws.
Context {B G : Type} `{Hpb : PageBuffer B G} `{Hlaws : !PageBufferLaws B G} `{Hph : PageHasher}.

(** A tree is not disturbed by changes to the pages of other objects. *)
Lemma tree_repr_frame (w : World B) V T m b V' s :
  tree_repr w V T m → pb_repr b V' [] ∅ → pb_page_size b = pb_page_size (w_buffer w) →
  table_wf (pt_shards s) →
  (∀ k, pk_object k = od_id (bt_descriptor (w_tree w)) → V' !! k = V !! k) →
  tree_repr {| w_buffer := b; w_tree := w_tree w; w_deps := s |} V' T m.
Proof.
  intros [Hb Hi Hw Ht Hm] Hb' Hz Hs HV. split; try done. intros p N Hp.
  destruct (Hi p N Hp) as (d & u & ho & Hd & Hl & Hat). exists d, u, ho. cbn. rewrite Hz. split; [|done].
  rewrite <-Hd. by apply HV.
Qed.

Definition holds_object (f : Forest B) (V : gmap PageKey bytes) (t : BTreeObject)
    (o : StorageObjectDescriptor * list LeafEntry) : Prop :=
  bt_descriptor t = o.1 ∧
  ∃ T, tree_repr {| w_buffer := f_buffer f; w_tree := t; w_deps := f_deps f |} V T o.2.

Definition forest_repr (f : Forest B) (M : Objects) : Prop :=
  NoDup (map (λ o, od_id o.1) M) ∧
  ∃ V, pb_repr (f_buffer f) V [] ∅ ∧ table_wf (pt_shards (f_deps f)) ∧ Forall2 (holds_object f V) (f_trees f) M.

Lemma holds_tree_at f V M h o :
  Forall2 (holds_object f V) (f_trees f) M → M !! h = Some o →
  bt_descriptor (w_tree (tree_at h f)) = o.1 ∧ ∃ T, tree_repr (tree_at h f) V T o.2.
Proof.
  intros Hf Ho. destruct (Forall2_lookup_r _ _ _ _ _ Hf Ho) as (t & Ht & Hh).
  unfold tree_at. rewrite Ht. exact Hh.
Qed.

(** One operation on the tree [h]: what it leaves of the others. *)
Lemma put_tree_repr f V M h o w' V' T' m' :
  NoDup (map (λ o, od_id o.1) M) → Forall2 (holds_object f V) (f_trees f) M → M !! h = Some o →
  tree_repr w' V' T' m' → bt_descriptor (w_tree w') = o.1 →
  pb_page_size (w_buffer w') = pb_page_size (f_buffer f) →
  (∀ k, V' !! k ≠ V !! k → pk_object k = od_id o.1) →
  forest_repr (put_tree h w' f) (<[h := (o.1, m')]> M).
Proof.
  intros Hnd Hf Ho Hr Hd Hz HV. split.
  { rewrite list_fmap_insert. cbn. rewrite list_insert_id; [done|]. by rewrite list_lookup_fmap, Ho. }
  exists V'. split; [apply Hr|]. split; [apply Hr|]. apply Forall2_same_length_lookup.
  cbn [put_tree f_trees]. rewrite !length_insert. split; [by eapply Forall2_length|]. intros i t o' Ht Ho'.
  destruct (decide (h = i)) as [<-|Hne].
  - pose proof (lookup_lt_Some _ _ _ Ho). pose proof (Forall2_length _ _ _ Hf).
    rewrite list_lookup_insert_eq in Ht by lia.
    rewrite list_lookup_insert_eq in Ho' by lia. simplify_eq. split; [done|]. exists T'. by destruct w'.
  - rewrite list_lookup_insert_ne in Ht by done. rewrite list_lookup_insert_ne in Ho' by done.
    destruct (Forall2_lookup_lr _ _ _ _ _ _ Hf Ht Ho') as [Hdt [T HT]]. split; [done|]. exists T.
    apply (tree_repr_frame _ _ _ _ _ _ _ HT); [apply Hr|done|apply Hr|]. intros k Hk. cbn in Hk.
    destruct (decide (V' !! k = V !! k)) as [|Hne']; [done|]. exfalso. apply HV in Hne'. apply Hne.
    eapply (NoDup_lookup _ h i _ Hnd); rewrite list_lookup_fmap; [by rewrite Ho|]. rewrite Ho'. cbn. congruence.
Qed.

Lemma put_tree_same f V M h o w' V' T' :
  NoDup (map (λ o, od_id o.1) M) → Forall2 (holds_object f V) (f_trees f) M → M !! h = Some o →
  tree_repr w' V' T' o.2 → bt_descriptor (w_tree w') = o.1 →
  pb_page_size (w_buffer w') = pb_page_size (f_buffer f) →
  (∀ k, V' !! k ≠ V !! k → pk_object k = od_id o.1) →
  forest_repr (put_tree h w' f) M.
Proof.
  intros Hnd Hf Ho Hr Hd Hz HV. rewrite <-(list_insert_id M h o) at 1 by done. destruct o as [d m].
  by apply (put_tree_repr f V M h (d, m) w' V' T' m).
Qed.

#[global] Program Instance forest_laws : ObjectStoreLaws (Forest B) := { os_repr := forest_repr }.
Next Obligation.
  intros f M h o (_ & V & _ & _ & Hf) Ho. destruct (holds_tree_at _ _ _ _ _ Hf Ho) as (_ & T & HT).
  apply (tr_map _ _ _ _ HT).
Qed.
Next Obligation. intros f M [Hnd _]. done. Qed.
Next Obligation.
  intros f M h o (_ & V & _ & _ & Hf) Ho. apply (holds_tree_at _ _ _ _ _ Hf Ho).
Qed.
Next Obligation.
  intros f M h o key f' r (Hnd & V & _ & _ & Hf) Ho. cbn -[tree_lookup].
  destruct (tree_lookup key (tree_at h f)) as [w r'] eqn:E. intros [<- <-]%pair_equal_spec.
  destruct (holds_tree_at _ _ _ _ _ Hf Ho) as (Hd & T & HT).
  destruct (lookup_repr _ _ _ _ _ _ _ HT E) as (Hr & (Ht & Hdp & Hz) & Hres). split.
  { eapply put_tree_same; try done. by rewrite Ht. }
  split; [done|]. by destruct r'.
Qed.
Next Obligation.
  intros f M h o dep key value f' r (Hnd & V & _ & _ & Hf) Ho. cbn -[upsert_inner].
  destruct (holds_tree_at _ _ _ _ _ Hf Ho) as (Hd & T & HT).
  destruct (upsert_inner 1 dep key value (tree_at h f)) as [w o'] eqn:E.
  destruct (upsert_repr _ 0 _ _ _ _ _ _ _ _ HT E) as (r' & V' & T' & m' & -> & Hr & Hres & Hch & Hd' & Hz).
  intros [<- <-]%pair_equal_spec. rewrite Hd in Hd', Hch.
  assert (forest_repr (put_tree h w f) (<[h := (o.1, m')]> M)) as Hfr.
  { eapply put_tree_repr; try done. intros k Hk. by apply Hch. }
  assert (put_entry h key value M = <[h := (o.1, BTreeMap.insert key (LeafInline value) o.2)]> M) as Hput.
  { by apply put_entry_insert. }
  destruct r' as [[]|e].
  - subst m'. by rewrite Hput.
  - destruct Hres as [[->| ->] _]; [left|right; by rewrite Hput]. destruct o. by rewrite list_insert_id in Hfr.
Qed.
Next Obligation.
  intros f M h o c limit f' c' r (Hnd & V & _ & _ & Hf) Ho Hc Hl. cbn -[next_batch].
  destruct (next_batch c limit (tree_at h f)) as [[w c1] r'] eqn:E.
  intros [[<- <-]%pair_equal_spec <-]%pair_equal_spec.
  destruct (holds_tree_at _ _ _ _ _ Hf Ho) as (Hd & T & HT).
  destruct (next_batch_repr _ _ _ _ _ _ _ _ _ HT Hc Hl E) as (Hr & (Ht & Hdp & Hz) & Hok & Hres). split.
  { eapply put_tree_same; try done. by rewrite Ht. }
  split; [done|]. split; [done|]. destruct r' as [rows|e]; [done|tauto].
Qed.
Next Obligation. intros f M (_ & V & _ & Ht & _). done. Qed.
Next Obligation.
  intros f M s (Hnd & V & Hb & _ & Hf) Hs. split; [|done]. split; [done|]. exists V. split; [done|]. split; [done|].
  eapply Forall2_impl; [exact Hf|]. intros t o (Hd & T & HT). split; [done|]. exists T.
  by apply (tree_repr_frame _ _ _ _ _ _ _ HT).
Qed.
End forest_laws.
