(* ===== verification/OrderedMvcc.v ===== *)
(** * Installing records in the ordered objects

    Models [crates/seerdb/src/vnext/ordered_mvcc.rs]: the installer that validates
    the predecessor of a final effect, appends its before-image to the undo store
    and later replaces the current record.  The trees are reached through the
    [ObjectStore] interface, a tree reference being its handle; the installer's
    borrow of the status table is an argument. *)
From S2P Require Import Prelude StdCollections Ids Crc Fs Log WriteSet Shards Mvcc UndoStore WriteIntent Buffer PageDependency TreeV4 ObjectStore.

Local Open Scope Z_scope.
Local Open Scope seer_scope.

Inductive InstallContext :=
| Live (snapshot : CommitSeq)
| Recovery (commit : CommitSeq).

Inductive InstallEffectResult :=
| Installed (undo_head appended_undo : option VersionId)
| AlreadyInstalled (undo_head : option VersionId).

Inductive PreparedPredecessor :=
| PredecessorAbsent
| PredecessorPresent (record : MvccRecord).

#[global] Instance PreparedPredecessor_eq_dec : EqDecision PreparedPredecessor.
Proof. solve_decision. Defined.

Record PreparedOrderedMvccEffect := {
  pe_effect : FinalEffect;
  pe_context : InstallContext;
  pe_predecessor : PreparedPredecessor;
  pe_current : MvccRecord;
  pe_appended_undo : option VersionId
}.

Inductive PrepareEffectResult :=
| PrepareReady (prepared : PreparedOrderedMvccEffect)
| PrepareAlreadyInstalled (undo_head : option VersionId).

Definition pe_required_undo (p : PreparedOrderedMvccEffect) : option VersionId :=
  mr_undo_head (pe_current p).

(** [PrepareEffectResult::required_undo] *)
Definition required_undo (r : PrepareEffectResult) : option VersionId :=
  match r with
  | PrepareReady prepared => pe_required_undo prepared
  | PrepareAlreadyInstalled undo_head => undo_head
  end.

Inductive OrderedMvccInstallError :=
| InstallBTree (e : BTreeError)
| InstallCodec (e : MvccCodecError)
| InstallStatus (e : StatusTableError)
| InstallUndo (e : UndoStoreError)
| InstallObjectMismatch (tree effect : StorageObjectId)
| InstallIntentNotHeld (txn : TxnId) (object : StorageObjectId)
| InstallWriterStatus (txn : TxnId) (actual : option TransactionStatus)
| InstallReservedCommitSeq
| ActiveWriterConflict (owner : TxnId)
| UnknownCurrentOwner (owner : TxnId)
| DifferentEffectBySameTransaction (txn : TxnId)
| IdentityContentMismatch (txn : TxnId) (ordinal : Z)
| PreparedPredecessorChanged (txn : TxnId) (object : StorageObjectId)
| SnapshotConflict (predecessor snapshot : CommitSeq)
| ReplayOrderConflict (predecessor replay : CommitSeq)
| InstallUnexpectedBlob
| InstallUnexpectedTombstone.

(** What the installer works on: the trees with their buffer pool and dependency
    table, and the undo store with its file. *)
Record Engine (W : Type) := { e_objects : W; e_undo : UndoStore; e_fs : Fs }.
Arguments e_objects {W} _.
Arguments e_undo {W} _.
Arguments e_fs {W} _.

Definition intended_value (effect : FinalEffect) : MvccValue :=
  match fe_kind effect with
  | OrderedPut => Inline (fe_value effect)
  | OrderedDelete => Tombstone
  end.

Definition require_predecessor_order (predecessor : CommitSeq) (context : InstallContext)
    : result unit OrderedMvccInstallError :=
  match context with
  | Live snapshot =>
      if snapshot <? predecessor then Err (SnapshotConflict predecessor snapshot) else Ok tt
  | Recovery commit =>
      if commit <=? predecessor then Err (ReplayOrderConflict predecessor commit) else Ok tt
  end.

Definition predecessor_changed (p : PreparedOrderedMvccEffect) : OrderedMvccInstallError :=
  PreparedPredecessorChanged (fe_txn_id (pe_effect p)) (fe_object (pe_effect p)).

(** The plan [prepare] returns for a predecessor and the undo head it leaves. *)
Definition prepared_effect (effect : FinalEffect) (context : InstallContext)
    (predecessor : PreparedPredecessor) (undo_head appended : option VersionId)
    : PreparedOrderedMvccEffect :=
  {| pe_effect := effect; pe_context := context; pe_predecessor := predecessor;
     pe_current := installed (fe_txn_id effect) (fe_ordinal effect) undo_head (intended_value effect);
     pe_appended_undo := appended |}.

Section installer.
Context {W : Type} `{ObjectStore W} `{Crc32c}.
Implicit Types (s : Engine W) (tree : nat) (statuses : TransactionStatusTable)
  (intents : WriteIntentGuard) (effect : FinalEffect) (context : InstallContext).

(** The calls into the tree and the undo store. *)
Definition with_objects (w : W) s : Engine W := {| e_objects := w; e_undo := e_undo s; e_fs := e_fs s |}.

Definition engine_lookup tree (key : bytes) s : Engine W * result BTreeLookup BTreeError :=
  let '(w, r) := os_lookup tree key (e_objects s) in (with_objects w s, r).

Definition engine_upsert tree (required : option PageDependencies) (key value : bytes) s
    : Engine W * result unit BTreeError :=
  let '(w, r) := os_upsert tree required key value (e_objects s) in (with_objects w s, r).

Definition engine_append (record : MvccRecord) s : Engine W * result VersionId UndoStoreError :=
  let '(u, fs, r) := undo_append record (e_undo s) (e_fs s) in
  ({| e_objects := e_objects s; e_undo := u; e_fs := fs |}, r).

Definition engine_sync (version : VersionId) s : Engine W * result VersionId UndoStoreError :=
  let '(u, fs, r) := undo_sync_through version (e_undo s) (e_fs s) in
  ({| e_objects := e_objects s; e_undo := u; e_fs := fs |}, r).

Definition engine_get (version : VersionId) s : Engine W * result MvccRecord UndoStoreError :=
  let '(fs, r) := undo_get version (e_undo s) (e_fs s) in
  ({| e_objects := e_objects s; e_undo := e_undo s; e_fs := fs |}, r).

Definition engine_advance_wal (lsn : Lsn) s : Engine W := with_objects (os_advance_wal lsn (e_objects s)) s.
Definition engine_advance_undo (v : VersionId) s : Engine W := with_objects (os_advance_undo v (e_objects s)) s.

Definition validate_call statuses tree intents effect context s : result unit OrderedMvccInstallError :=
  let id := od_id (os_descriptor tree (e_objects s)) in
  if negb (id =? fe_object effect) then Err (InstallObjectMismatch id (fe_object effect))
  else if negb (g_txn intents =? fe_txn_id effect) || negb (owns intents (fe_object effect) (fe_key effect))
  then Err (InstallIntentNotHeld (fe_txn_id effect) (fe_object effect))
  else
    let? actual := map_err InstallStatus (status statuses (fe_txn_id effect)) in
    let refused := Err (InstallWriterStatus (fe_txn_id effect) actual) in
    match context, actual with
    | Live _, Some StatusActive => Ok tt
    | Live _, _ => refused
    | Recovery commit, Some (StatusCommitted csn) =>
        if negb (commit =? 0) && (csn =? commit) then Ok tt
        else if commit =? 0 then Err InstallReservedCommitSeq else refused
    | Recovery commit, _ => if commit =? 0 then Err InstallReservedCommitSeq else refused
    end.

(** The before-image of a predecessor committed at [csn] goes to the undo store. *)
Definition displace effect context (current : MvccRecord) (csn : CommitSeq) s
    : Engine W * result PrepareEffectResult OrderedMvccInstallError :=
  do? (s, _) := (s, require_predecessor_order csn context) in
  let '(s, r) := engine_append current s in
  do? (s, version) := (s, map_err InstallUndo r) in
  (s, Ok (PrepareReady
            (prepared_effect effect context (PredecessorPresent current) (Some version) (Some version)))).

Definition prepare statuses tree intents effect context s
    : Engine W * result PrepareEffectResult OrderedMvccInstallError :=
  do? (s, _) := (s, validate_call statuses tree intents effect context s) in
  let '(s, found) := engine_lookup tree (fe_key effect) s in
  do? (s, lookup) := (s, map_err InstallBTree found) in
  match lookup with
  | LookupNotFound =>
      (s, Ok (PrepareReady (prepared_effect effect context PredecessorAbsent None None)))
  | LookupFound bs =>
      do? (s, current) := (s, map_err InstallCodec (record_from_bytes bs)) in
      if has_install_identity current (fe_install_identity effect) then
        (s, if bool_decide (mr_value current = intended_value effect)
            then Ok (PrepareAlreadyInstalled (mr_undo_head current))
            else Err (IdentityContentMismatch (fe_txn_id effect) (fe_ordinal effect)))
      else
        match mr_owner current with
        | OwnerTransaction owner =>
            if owner =? fe_txn_id effect then (s, Err (DifferentEffectBySameTransaction owner))
            else
              do? (s, known) := (s, map_err InstallStatus (status statuses owner)) in
              do? (s, st) := (s, ok_or known (UnknownCurrentOwner owner)) in
              match st with
              | StatusActive => (s, Err (ActiveWriterConflict owner))
              | StatusAborted =>
                  (s, Ok (PrepareReady (prepared_effect effect context (PredecessorPresent current)
                                          (mr_undo_head current) None)))
              | StatusCommitted csn => displace effect context current csn s
              end
        | OwnerFrozen csn => displace effect context current csn s
        end
  | LookupBlob _ => (s, Err InstallUnexpectedBlob)
  | LookupDeleted => (s, Err InstallUnexpectedTombstone)
  end.

Definition validate_prepared_predecessor tree (p : PreparedOrderedMvccEffect) s
    : Engine W * result (option InstallEffectResult) OrderedMvccInstallError :=
  let '(s, found) := engine_lookup tree (fe_key (pe_effect p)) s in
  do? (s, lookup) := (s, map_err InstallBTree found) in
  match lookup with
  | LookupNotFound =>
      (s, if bool_decide (pe_predecessor p = PredecessorAbsent) then Ok None
          else Err (predecessor_changed p))
  | LookupFound bs =>
      do? (s, current) := (s, map_err InstallCodec (record_from_bytes bs)) in
      if has_install_identity current (fe_install_identity (pe_effect p)) then
        (s, if bool_decide (mr_value current = mr_value (pe_current p))
            then Ok (Some (AlreadyInstalled (mr_undo_head current)))
            else Err (IdentityContentMismatch (fe_txn_id (pe_effect p)) (fe_ordinal (pe_effect p))))
      else
        (s, match pe_predecessor p with
            | PredecessorPresent expected =>
                if bool_decide (expected = current) then Ok None else Err (predecessor_changed p)
            | PredecessorAbsent => Err (predecessor_changed p)
            end)
  | LookupBlob _ => (s, Err InstallUnexpectedBlob)
  | LookupDeleted => (s, Err InstallUnexpectedTombstone)
  end.

Definition apply_prepared_inner statuses tree intents (p : PreparedOrderedMvccEffect)
    (dependency : option PageMaterialization) s
    : Engine W * result InstallEffectResult OrderedMvccInstallError :=
  do? (s, _) := (s, validate_call statuses tree intents (pe_effect p) (pe_context p) s) in
  do? (s, already) := validate_prepared_predecessor tree p s in
  match already with
  | Some r => (s, Ok r)
  | None =>
      do? (s, encoded) := (s, map_err InstallCodec (record_to_bytes (pe_current p))) in
      let required := (λ m, {| pd_required_wal := pm_required_wal m;
                               pd_required_undo := mr_undo_head (pe_current p) |}) <$> dependency in
      let '(s, r) := engine_upsert tree required (fe_key (pe_effect p)) encoded s in
      do? (s, _) := (s, map_err InstallBTree r) in
      (s, Ok (Installed (mr_undo_head (pe_current p)) (pe_appended_undo p)))
  end.

Definition apply_prepared statuses tree intents p s := apply_prepared_inner statuses tree intents p None s.

Definition apply_prepared_with_dependencies statuses tree intents p (materialization : PageMaterialization) s :=
  apply_prepared_inner statuses tree intents p (Some materialization) s.

Definition install statuses tree intents effect context s
    : Engine W * result InstallEffectResult OrderedMvccInstallError :=
  do? (s, r) := prepare statuses tree intents effect context s in
  match r with
  | PrepareAlreadyInstalled undo_head => (s, Ok (AlreadyInstalled undo_head))
  | PrepareReady prepared => apply_prepared statuses tree intents prepared s
  end.

(** The barrier of [install_with_dependencies] on the undo version a record
    refers to. *)
Definition sync_required (version : option VersionId) s : Engine W * result unit OrderedMvccInstallError :=
  match version with
  | None => (s, Ok tt)
  | Some version =>
      let '(s, r) := engine_sync version s in
      do? (s, durable) := (s, map_err InstallUndo r) in
      (engine_advance_undo durable s, Ok tt)
  end.

Definition install_with_dependencies statuses tree intents effect context
    (materialization : PageMaterialization) s
    : Engine W * result InstallEffectResult OrderedMvccInstallError :=
  do? (s, r) := prepare statuses tree intents effect context s in
  match r with
  | PrepareAlreadyInstalled undo_head =>
      do? (s, _) := sync_required undo_head s in
      (s, Ok (AlreadyInstalled undo_head))
  | PrepareReady prepared =>
      do? (s, _) := sync_required (pe_required_undo prepared) s in
      apply_prepared_with_dependencies statuses tree intents prepared materialization s
  end.
End installer.
