(* ===== verification/OrderedRead.v ===== *)
(** * Snapshot reads of the ordered objects

    Models [crates/seerdb/src/vnext/ordered_mvcc_read.rs] (snapshot resolution of
    point and range reads) and [ordered_txn_read.rs] (reads through a transaction's
    staged overlay).  The reader's borrows of the admission state and the status
    table are arguments; the undo store and the trees are the [Engine]. *)
From S2P Require Import Prelude StdCollections Ids Crc Fs Log WriteSet Txn Shards Mvcc UndoStore Admission PageDependency PageV4 KeyOrder TreeV4 ObjectStore OrderedMvcc.

Local Open Scope Z_scope.
Local Open Scope seer_scope.

Inductive MvccLookup :=
| MvccFound (value : bytes)
| MvccDeleted
| MvccNotFound.

Inductive OrderedMvccReadError :=
| ReadAdmission (e : RuntimeAdmissionError)
| ReadBTree (e : BTreeError)
| ReadCodec (e : MvccCodecError)
| ReadStatus (e : StatusTableError)
| ReadUndo (e : UndoStoreError)
| NonDecreasingUndo (current next : VersionId)
| ReadUnexpectedBlob
| ReadUnexpectedTombstone.

Abbreviation OrderedKeyValueBatch := (list (bytes * bytes)).

Record OrderedMvccRangeCursor := {
  mc_raw : RangeCursor;
  mc_reader : option TxnId;
  mc_snapshot : CommitSeq
}.

Inductive PrivateRangeValue :=
| PrivatePut (value : bytes)
| PrivateDelete.

Record OrderedTransactionRangeCursor := {
  tc_base : OrderedMvccRangeCursor;
  tc_staged : list (bytes * PrivateRangeValue);
  tc_staged_index : nat;
  tc_base_pending : OrderedKeyValueBatch
}.

(** [OrderedMvccReader] borrows these two. *)
Record OrderedMvccReader := { rd_admission : RuntimeAdmission; rd_statuses : TransactionStatusTable }.

Definition mvcc_value_lookup (v : MvccValue) : MvccLookup :=
  match v with Inline value => MvccFound value | Tombstone => MvccDeleted end.

Definition reader_admission (rd : OrderedMvccReader) : result unit OrderedMvccReadError :=
  map_err ReadAdmission (ensure_read_admission (rd_admission rd)).

Section reader.
Context {W : Type} `{ObjectStore W} `{Crc32c}.
Implicit Types (s : Engine W) (tree : nat) (rd : OrderedMvccReader)
  (reader : option TxnId) (snapshot : CommitSeq).

(** One round of the loop of [resolve]: an answer, or the next record of the chain
    with the version it was read from. *)
Definition resolve_round rd reader snapshot (record : MvccRecord) (containing_undo : option VersionId) s
    : Engine W * result (MvccLookup + MvccRecord * VersionId) OrderedMvccReadError :=
  do? (s, _) := (s, reader_admission rd) in
  do? (s, v) := (s, map_err ReadStatus (visibility (rd_statuses rd) (mr_owner record) reader snapshot)) in
  match v with
  | RecordVisible => (s, Ok (inl (mvcc_value_lookup (mr_value record))))
  | RecordActive | RecordAborted | RecordNewerCommit _ =>
      match mr_undo_head record with
      | None => (s, Ok (inl MvccNotFound))
      | Some next =>
          match containing_undo with
          | Some current =>
              if current <=? next then (s, Err (NonDecreasingUndo current next))
              else let '(s, r) := engine_get next s in
                   do? (s, record) := (s, map_err ReadUndo r) in (s, Ok (inr (record, next)))
          | None => let '(s, r) := engine_get next s in
                    do? (s, record) := (s, map_err ReadUndo r) in (s, Ok (inr (record, next)))
          end
      end
  end.

(** [None]: the fuel was too small, which [Versions.resolve_loop_spec] excludes. *)
Fixpoint resolve_loop (fuel : nat) rd reader snapshot (record : MvccRecord) (containing_undo : option VersionId) s
    : Engine W * option (result MvccLookup OrderedMvccReadError) :=
  match fuel with
  | O => (s, None)
  | S fuel' =>
      match resolve_round rd reader snapshot record containing_undo s with
      | (s, Err e) => (s, Some (Err e))
      | (s, Ok (inl answer)) => (s, Some (Ok answer))
      | (s, Ok (inr (record, next))) => resolve_loop fuel' rd reader snapshot record (Some next) s
      end
  end.

(** Undo links decrease strictly and stay inside the undo store, so two rounds
    more than it has versions are enough. *)
Definition resolve rd (record : MvccRecord) reader snapshot s
    : Engine W * result MvccLookup OrderedMvccReadError :=
  let '(s, r) := resolve_loop (2 + length (us_index (e_undo s))) rd reader snapshot record None s in
  (s, default (Err (NonDecreasingUndo 0 0)) r).

Definition resolve_lookup rd (lookup : BTreeLookup) reader snapshot s
    : Engine W * result MvccLookup OrderedMvccReadError :=
  do? (s, _) := (s, reader_admission rd) in
  match lookup with
  | LookupNotFound => (s, Ok MvccNotFound)
  | LookupFound bs =>
      do? (s, current) := (s, map_err ReadCodec (record_from_bytes bs)) in
      resolve rd current reader snapshot s
  | LookupBlob _ => (s, Err ReadUnexpectedBlob)
  | LookupDeleted => (s, Err ReadUnexpectedTombstone)
  end.

(** [OrderedMvccReader::lookup] *)
Definition mvcc_lookup rd tree (key : bytes) reader snapshot s
    : Engine W * result MvccLookup OrderedMvccReadError :=
  do? (s, _) := (s, reader_admission rd) in
  let '(s, r) := engine_lookup tree key s in
  do? (s, lookup) := (s, map_err ReadBTree r) in
  resolve_lookup rd lookup reader snapshot s.

(** ** Range reads *)

(** [OrderedMvccReader::range_cursor] *)
Definition mvcc_range_cursor (start stop : bytes) reader snapshot : OrderedMvccRangeCursor :=
  {| mc_raw := RangeCursor_new start stop; mc_reader := reader; mc_snapshot := snapshot |}.

Definition with_raw (raw : RangeCursor) (c : OrderedMvccRangeCursor) : OrderedMvccRangeCursor :=
  {| mc_raw := raw; mc_reader := mc_reader c; mc_snapshot := mc_snapshot c |}.

Definition mvcc_is_done (c : OrderedMvccRangeCursor) : bool := rc_done (mc_raw c).

(** The inner loop of [next_batch] over the rows of one raw batch. *)
Fixpoint resolve_rows rd reader snapshot (rows : list (bytes * BTreeLookup))
    (visible : OrderedKeyValueBatch) s : Engine W * result OrderedKeyValueBatch OrderedMvccReadError :=
  match rows with
  | [] => (s, Ok visible)
  | (key, lookup) :: rows' =>
      do? (s, answer) := resolve_lookup rd lookup reader snapshot s in
      resolve_rows rd reader snapshot rows'
        (match answer with MvccFound value => visible ++ [(key, value)] | _ => visible end) s
  end.

(** The outer loop; [None]: the fuel was too small. *)
Fixpoint mvcc_batch_loop (fuel : nat) rd tree (c : OrderedMvccRangeCursor) (limit : Z)
    (visible : OrderedKeyValueBatch) s
    : Engine W * OrderedMvccRangeCursor * option (result OrderedKeyValueBatch OrderedMvccReadError) :=
  match fuel with
  | O => (s, c, None)
  | S fuel' =>
      if negb (len visible <? limit) || mvcc_is_done c then (s, c, Some (Ok visible))
      else
        match reader_admission rd with
        | Err e => (s, c, Some (Err e))
        | Ok _ =>
            let '(w, raw, r) := os_next_batch tree (mc_raw c) (limit - len visible) (e_objects s) in
            let s := with_objects w s in
            let c := with_raw raw c in
            match r with
            | Err e => (s, c, Some (Err (ReadBTree e)))
            | Ok [] => (s, c, Some (Ok visible))
            | Ok rows =>
                match resolve_rows rd (mc_reader c) (mc_snapshot c) rows visible s with
                | (s, Err e) => (s, c, Some (Err e))
                | (s, Ok visible) => mvcc_batch_loop fuel' rd tree c limit visible s
                end
            end
        end
  end.

(** [OrderedMvccRangeCursor::next_batch] *)
Definition mvcc_next_batch (fuel : nat) rd tree (c : OrderedMvccRangeCursor) (limit : Z) s
    : Engine W * OrderedMvccRangeCursor * option (result OrderedKeyValueBatch OrderedMvccReadError) :=
  match reader_admission rd with
  | Err e => (s, c, Some (Err e))
  | Ok _ =>
      if (limit =? 0) || mvcc_is_done c then (s, c, Some (Ok []))
      else mvcc_batch_loop fuel rd tree c limit [] s
  end.

(** ** Reads of a transaction *)
Definition lookup_transaction rd tree (transaction : Transaction) (key : bytes) s
    : Engine W * result MvccLookup OrderedMvccReadError :=
  do? (s, _) := (s, reader_admission rd) in
  match staged_ordered_lookup (od_id (os_descriptor tree (e_objects s))) key transaction with
  | StagedPut value => (s, Ok (MvccFound value))
  | StagedDelete => (s, Ok MvccDeleted)
  | Unchanged => mvcc_lookup rd tree key (Some (tx_id transaction)) (tx_snapshot transaction) s
  end.

(** The staged mutations of one object in [start, end), the last one of each key. *)
Definition private_value (m : LoggedMutation) : PrivateRangeValue :=
  match lm_kind m with OrderedPut => PrivatePut (lm_value m) | OrderedDelete => PrivateDelete end.

Definition staged_overlay (object : StorageObjectId) (start stop : bytes) (ms : list LoggedMutation)
    : list (bytes * PrivateRangeValue) :=
  fold_left (λ staged m,
    if negb (lm_object m =? object) || bool_decide (klt (lm_key m) start) || bool_decide (kle stop (lm_key m))
    then staged else BTreeMap.insert (lm_key m) (private_value m) staged) ms [].

Definition range_cursor_transaction tree (transaction : Transaction) (start stop : bytes) s
    : OrderedTransactionRangeCursor :=
  {| tc_base := mvcc_range_cursor start stop (Some (tx_id transaction)) (tx_snapshot transaction);
     tc_staged := staged_overlay (od_id (os_descriptor tree (e_objects s))) start stop
                    (tx_mutations transaction);
     tc_staged_index := 0;
     tc_base_pending := [] |}.

(** [OrderedTransactionRangeCursor::is_done] *)
Definition txn_cursor_is_done (c : OrderedTransactionRangeCursor) : bool :=
  mvcc_is_done (tc_base c) && bool_decide (tc_base_pending c = [])
  && bool_decide (length (tc_staged c) ≤ tc_staged_index c)%nat.

Definition with_pending (base : OrderedMvccRangeCursor) (pending : OrderedKeyValueBatch)
    (c : OrderedTransactionRangeCursor) : OrderedTransactionRangeCursor :=
  {| tc_base := base; tc_staged := tc_staged c; tc_staged_index := tc_staged_index c;
     tc_base_pending := pending |}.

Definition consume_staged (c : OrderedTransactionRangeCursor) (output : OrderedKeyValueBatch)
    : OrderedTransactionRangeCursor * OrderedKeyValueBatch :=
  match tc_staged c !! tc_staged_index c with
  | None => (c, output)
  | Some (key, value) =>
      ({| tc_base := tc_base c; tc_staged := tc_staged c; tc_staged_index := S (tc_staged_index c);
          tc_base_pending := tc_base_pending c |},
       match value with PrivatePut value => output ++ [(key, value)] | PrivateDelete => output end)
  end.

(** The [match] of [next_batch] on the two heads; [None] breaks the loop. *)
Definition merge_round (c : OrderedTransactionRangeCursor) (rows : OrderedKeyValueBatch)
    : option (OrderedTransactionRangeCursor * OrderedKeyValueBatch) :=
  match tc_base_pending c, tc_staged c !! tc_staged_index c with
  | [], None => None
  | row :: pending, None => Some (with_pending (tc_base c) pending c, rows ++ [row])
  | [], Some _ => Some (consume_staged c rows)
  | row :: pending, Some (private, _) =>
      match key_cmp row.1 private with
      | Lt => Some (with_pending (tc_base c) pending c, rows ++ [row])
      | Eq => Some (consume_staged (with_pending (tc_base c) pending c) rows)
      | Gt => Some (consume_staged c rows)
      end
  end.

(** The prefetch of [next_batch]. *)
Definition refill (fuel : nat) rd tree (c : OrderedTransactionRangeCursor) (wanted : Z) s
    : Engine W * OrderedTransactionRangeCursor * option (result unit OrderedMvccReadError) :=
  if bool_decide (tc_base_pending c = []) && negb (mvcc_is_done (tc_base c)) then
    match mvcc_next_batch fuel rd tree (tc_base c) (Z.max wanted 16) s with
    | (s, base, None) => (s, with_pending base (tc_base_pending c) c, None)
    | (s, base, Some (Err e)) => (s, with_pending base (tc_base_pending c) c, Some (Err e))
    | (s, base, Some (Ok rows)) => (s, with_pending base (tc_base_pending c ++ rows) c, Some (Ok tt))
    end
  else (s, c, Some (Ok tt)).

Fixpoint txn_batch_loop (fuel : nat) rd tree (c : OrderedTransactionRangeCursor) (limit : Z)
    (rows : OrderedKeyValueBatch) s
    : Engine W * OrderedTransactionRangeCursor * option (result OrderedKeyValueBatch OrderedMvccReadError) :=
  match fuel with
  | O => (s, c, None)
  | S fuel' =>
      if negb (len rows <? limit) then (s, c, Some (Ok rows))
      else
        match reader_admission rd with
        | Err e => (s, c, Some (Err e))
        | Ok _ =>
            match refill fuel rd tree c (limit - len rows) s with
            | (s, c, None) => (s, c, None)
            | (s, c, Some (Err e)) => (s, c, Some (Err e))
            | (s, c, Some (Ok _)) =>
                match merge_round c rows with
                | None => (s, c, Some (Ok rows))
                | Some (c, rows) => txn_batch_loop fuel' rd tree c limit rows s
                end
            end
        end
  end.

(** [OrderedTransactionRangeCursor::next_batch] *)
Definition txn_next_batch (fuel : nat) rd tree (c : OrderedTransactionRangeCursor) (limit : Z) s
    : Engine W * OrderedTransactionRangeCursor * option (result OrderedKeyValueBatch OrderedMvccReadError) :=
  match reader_admission rd with
  | Err e => (s, c, Some (Err e))
  | Ok _ =>
      if (limit =? 0) || txn_cursor_is_done c then (s, c, Some (Ok []))
      else txn_batch_loop fuel rd tree c limit [] s
  end.
End reader.
