(* ===== verification/OrderedCommit.v ===== *)
(** * The commit coordinator of the ordered objects

    Models [crates/seerdb/src/vnext/ordered_commit.rs]: write admission, abort, and
    the durable-decision-first commit.  [commit] is split at the points where the
    code calls into a shared component, so that the same stages make the whole call
    and the interleavings of several callers.  Leaving the function drops its
    locals in reverse order: the unresolved responsibility fences, then the intent
    guard and the commit membership are given back. *)
From S2P Require Import Prelude StdCollections Ids Crc Fs Log WriteSet Txn LogIo CommitAppend Shards Mvcc UndoStore Visibility WriteIntent Admission Buffer PageDependency TreeV4 ObjectStore OrderedMvcc.

Local Open Scope Z_scope.
Local Open Scope seer_scope.

Inductive OrderedCommitError :=
| CommitFenced
| CommitWrongPhase (actual : TransactionPhase)
| CommitDuplicateObject (object : StorageObjectId)
| CommitMissingObject (object : StorageObjectId)
| CommitDerivedObject (object : StorageObjectId)
| CommitWriterStatus (txn : TxnId) (actual : option TransactionStatus)
| CommitAdmission (e : RuntimeAdmissionError)
| CommitWriteSet (e : FinalWriteSetError)
| CommitIntent (e : WriteIntentError)
| CommitBTree (e : BTreeError)
| CommitCodec (e : MvccCodecError)
| CommitStatus (e : StatusTableError)
| CommitAppendFailed (e : CommitAppendError)
| CommitLog (e : DurableLogError)
| CommitTransaction (e : TransactionError)
| CommitInstall (e : OrderedMvccInstallError)
| CommitUndo (e : UndoStoreError)
| CommitVisibility (e : VisibilityError).

(** What the coordinator borrows; [k_dependencies] is whether it was given the page
    dependency table. *)
Record Kernel (D W : Type) := {
  k_admission : RuntimeAdmission;
  k_appender : CommitAppender D;
  k_statuses : TransactionStatusTable;
  k_frontier : VisibilityFrontier;
  k_intents : WriteIntentTable;
  k_dependencies : bool;
  k_engine : Engine W
}.
Arguments k_admission {D W} _.
Arguments k_appender {D W} _.
Arguments k_statuses {D W} _.
Arguments k_frontier {D W} _.
Arguments k_intents {D W} _.
Arguments k_dependencies {D W} _.
Arguments k_engine {D W} _.

(** The locals of [commit] once the attempt is admitted. *)
Record Attempt := {
  a_guard : WriteIntentGuard;
  a_objects : gmap StorageObjectId nat;
  a_effects : list FinalEffect
}.

(** [prepared_effects] and [max_required_undo]. *)
Abbreviation Plans := (list (nat * PreparedOrderedMvccEffect) * option VersionId)%type.

Definition max_version (current : option VersionId) (candidate : VersionId) : VersionId :=
  match current with
  | Some current => if candidate <=? current then current else candidate
  | None => candidate
  end.

Definition prepare_failure_requires_fence (error : OrderedMvccInstallError) : bool :=
  match error with
  | SnapshotConflict _ _ | ActiveWriterConflict _ | InstallBTree (BTreeBuffer NoVictim) => false
  | _ => true
  end.

Section coordinator.
Context `{Crc32c} {D : Type} `{LogDevice D} {W : Type} `{ObjectStore W} `{IntentHasher}.
Implicit Types (k : Kernel D W) (t : Transaction).

Definition with_admission (a : RuntimeAdmission) k : Kernel D W :=
  {| k_admission := a; k_appender := k_appender k; k_statuses := k_statuses k; k_frontier := k_frontier k;
     k_intents := k_intents k; k_dependencies := k_dependencies k; k_engine := k_engine k |}.
Definition with_appender (ca : CommitAppender D) k : Kernel D W :=
  {| k_admission := k_admission k; k_appender := ca; k_statuses := k_statuses k; k_frontier := k_frontier k;
     k_intents := k_intents k; k_dependencies := k_dependencies k; k_engine := k_engine k |}.
Definition with_statuses (st : TransactionStatusTable) k : Kernel D W :=
  {| k_admission := k_admission k; k_appender := k_appender k; k_statuses := st; k_frontier := k_frontier k;
     k_intents := k_intents k; k_dependencies := k_dependencies k; k_engine := k_engine k |}.
Definition with_frontier (f : VisibilityFrontier) k : Kernel D W :=
  {| k_admission := k_admission k; k_appender := k_appender k; k_statuses := k_statuses k; k_frontier := f;
     k_intents := k_intents k; k_dependencies := k_dependencies k; k_engine := k_engine k |}.
Definition with_intents (i : WriteIntentTable) k : Kernel D W :=
  {| k_admission := k_admission k; k_appender := k_appender k; k_statuses := k_statuses k;
     k_frontier := k_frontier k; k_intents := i; k_dependencies := k_dependencies k; k_engine := k_engine k |}.
Definition with_engine (e : Engine W) k : Kernel D W :=
  {| k_admission := k_admission k; k_appender := k_appender k; k_statuses := k_statuses k;
     k_frontier := k_frontier k; k_intents := k_intents k; k_dependencies := k_dependencies k; k_engine := e |}.

(** [OrderedCommitCoordinator::with_page_dependencies] *)
Definition with_page_dependencies k : Kernel D W :=
  let e := match durable_lsn (ca_log (k_appender k)) with
           | Some lsn => engine_advance_wal lsn (k_engine k)
           | None => k_engine k
           end in
  let e := match undo_durable_version (e_undo e) with
           | Some version => engine_advance_undo version e
           | None => e
           end in
  {| k_admission := k_admission k; k_appender := k_appender k; k_statuses := k_statuses k;
     k_frontier := k_frontier k; k_intents := k_intents k; k_dependencies := true; k_engine := e |}.

(** ** Admission and fences *)
Definition is_fenced k : bool :=
  match ensure_read_admission (k_admission k) with Ok _ => false | Err _ => true end.

Definition ensure_open k : result unit OrderedCommitError :=
  if is_fenced k then Err CommitFenced
  else map_err CommitAdmission (ensure_read_admission (k_admission k)).

Definition fence_admission k : Kernel D W :=
  with_frontier (frontier_require_recovery (k_frontier k))
    (with_admission (admission_require_recovery (k_admission k)) k).

Definition fence_unresolved t k : Kernel D W * Transaction :=
  (fence_admission k,
   if bool_decide (tx_phase t = RecoveryRequired) then t else (mark_recovery_required t).1).

Definition begin_write (txn_id : TxnId) k : Kernel D W * result Transaction OrderedCommitError :=
  do? (k, _) := (k, ensure_open k) in
  let '(st, r) := status_begin (k_statuses k) txn_id in
  do? (k, _) := (with_statuses st k, map_err CommitStatus r) in
  (k, Ok (Transaction_new txn_id (snapshot (k_frontier k)))).

(** [OrderedCommitCoordinator::abort] *)
Definition coordinator_abort t k : Kernel D W * Transaction * result unit OrderedCommitError :=
  match tx_phase t with
  | Active | Validating | Prepared =>
      match status_abort (k_statuses k) (tx_id t) with
      | (st, Err e) => (with_statuses st k, t, Err (CommitStatus e))
      | (st, Ok _) =>
          match abort t with
          | (t, Err e) => (fence_admission (with_statuses st k), t, Err (CommitTransaction e))
          | (t, Ok _) => (with_statuses st k, t, Ok tt)
          end
      end
  | actual => (k, t, Err (CommitWrongPhase actual))
  end.

(** ** Before the decision *)
Fixpoint preflight_objects (trees : list nat) (objects : gmap StorageObjectId nat) k
    : result (gmap StorageObjectId nat) OrderedCommitError :=
  match trees with
  | [] => Ok objects
  | tree :: trees' =>
      let descriptor := os_descriptor tree (e_objects (k_engine k)) in
      if negb (requires_commit_recovery (od_authority descriptor))
      then Err (CommitDerivedObject (od_id descriptor))
      else if bool_decide (is_Some (objects !! od_id descriptor))
      then Err (CommitDuplicateObject (od_id descriptor))
      else preflight_objects trees' (<[od_id descriptor := tree]> objects) k
  end.

Fixpoint preflight_effects (txn : TxnId) (objects : gmap StorageObjectId nat) (effects : list FinalEffect) k
    : result unit OrderedCommitError :=
  match effects with
  | [] => Ok tt
  | effect :: effects' =>
      let? tree := ok_or (objects !! fe_object effect) (CommitMissingObject (fe_object effect)) in
      let? encoded := map_err CommitCodec
        (record_to_bytes (installed txn (fe_ordinal effect) None (intended_value effect))) in
      let? _ := map_err CommitBTree (os_preflight tree (fe_key effect) encoded (e_objects (k_engine k))) in
      preflight_effects txn objects effects' k
  end.

Definition preflight t (trees : list nat) (effects : list FinalEffect) k
    : result (gmap StorageObjectId nat) OrderedCommitError :=
  let? objects := preflight_objects trees ∅ k in
  let? _ := preflight_effects (tx_id t) objects effects k in
  Ok objects.

Definition require_active_status (txn : TxnId) k : result unit OrderedCommitError :=
  let? actual := map_err CommitStatus (status (k_statuses k) txn) in
  if bool_decide (actual = Some StatusActive) then Ok tt else Err (CommitWriterStatus txn actual).

(** The drops of the commit membership and of the intent guard. *)
Definition leave k : Kernel D W := with_admission (release_commit (k_admission k)) k.
Definition drop_guard (g : WriteIntentGuard) k : Kernel D W :=
  with_intents (release_all g (k_intents k)).2 k.
Definition abandon (a : Attempt) k : Kernel D W := leave (drop_guard (a_guard a) k).

(** [commit] up to the first call of the installer. *)
Definition commit_enter t (trees : list nat) k : Kernel D W * result Attempt OrderedCommitError :=
  do? (k, _) := (k, ensure_open k) in
  let '(adm, r) := admit_commit (k_admission k) in
  do? (k, _) := (with_admission adm k, map_err CommitAdmission r) in
  if negb (bool_decide (tx_phase t = Active)) then (leave k, Err (CommitWrongPhase (tx_phase t)))
  else
    match final_effects t with
    | Err e => (leave k, Err (CommitWriteSet e))
    | Ok effects =>
        match try_acquire (tx_id t) effects (k_intents k) with
        | (i, Err e) => (leave (with_intents i k), Err (CommitIntent e))
        | (i, Ok guard) =>
            let k := with_intents i k in
            match preflight t trees effects k with
            | Err e => (leave (drop_guard guard k), Err e)
            | Ok objects =>
                match require_active_status (tx_id t) k with
                | Err e => (leave (drop_guard guard k), Err e)
                | Ok _ => (k, Ok {| a_guard := guard; a_objects := objects; a_effects := effects |})
                end
            end
        end
    end.

(** One round of the preparation loop. *)
Definition prepare_one t (a : Attempt) (effect : FinalEffect) (plans : Plans) k
    : Kernel D W * result Plans OrderedCommitError :=
  match a_objects a !! fe_object effect with
  | None => (k, Err (CommitMissingObject (fe_object effect)))
  | Some tree =>
      match prepare (k_statuses k) tree (a_guard a) effect (Live (tx_snapshot t)) (k_engine k) with
      | (e, Err error) =>
          let k := with_engine e k in
          (if prepare_failure_requires_fence error then fence_admission k else k, Err (CommitInstall error))
      | (e, Ok prepared) =>
          let max := match required_undo prepared with
                     | Some version => Some (max_version plans.2 version)
                     | None => plans.2
                     end in
          (with_engine e k,
           Ok (match prepared with
               | PrepareReady p => (plans.1 ++ [(tree, p)], max)
               | PrepareAlreadyInstalled _ => (plans.1, max)
               end))
      end
  end.

Fixpoint prepare_effects t (a : Attempt) (effects : list FinalEffect) (plans : Plans) k
    : Kernel D W * result Plans OrderedCommitError :=
  match effects with
  | [] => (k, Ok plans)
  | effect :: effects' =>
      do? (k, plans) := prepare_one t a effect plans k in
      prepare_effects t a effects' plans k
  end.

(** ** The decision *)
Definition cleanup_clean_append_failure t k : Kernel D W * Transaction * result unit OrderedCommitError :=
  match status_abort (k_statuses k) (tx_id t) with
  | (st, Err e) => (with_statuses st k, t, Err (CommitStatus e))
  | (st, Ok _) =>
      if bool_decide (tx_phase t = Aborted) then (with_statuses st k, t, Ok tt)
      else
        match abort t with
        | (t, Err e) => (with_statuses st k, t, Err (CommitTransaction e))
        | (t, Ok _) => (with_statuses st k, t, Ok tt)
        end
  end.

Definition commit_append t k : Kernel D W * Transaction * result AppendTicket OrderedCommitError :=
  match begin_validation t with
  | (t, Err e) => (k, t, Err (CommitTransaction e))
  | (t, Ok _) =>
      match append_validated (k_appender k) t with
      | (ca, t, Ok ticket) => (with_appender ca k, t, Ok ticket)
      | (ca, t, Err error) =>
          let k := with_appender ca k in
          if bool_decide (tx_phase t = RecoveryRequired) then
            (fence_unresolved t k, Err (CommitAppendFailed error))
          else
            match cleanup_clean_append_failure t k with
            | (k, t, Ok _) => (k, t, Err (CommitAppendFailed error))
            | (k, t, Err e) => (fence_unresolved t k, Err e)
            end
      end
  end.

(** The log barrier, the durable decision and the undo barrier. *)
Definition commit_harden (ticket : AppendTicket) (required : option VersionId) t k
    : Kernel D W * Transaction * result CommitPosition OrderedCommitError :=
  match appender_sync_through (at_decision_lsn ticket) (k_appender k) with
  | (ca, Err e) => (fence_unresolved t (with_appender ca k), Err (CommitLog e))
  | (ca, Ok _) =>
      let k := with_appender ca k in
      let k := if k_dependencies k
               then with_engine (engine_advance_wal (at_decision_lsn ticket) (k_engine k)) k else k in
      match mark_durable (at_decision_lsn ticket) t with
      | (t, Err e) => (fence_unresolved t k, Err (CommitTransaction e))
      | (t, Ok position) =>
          match required with
          | None => (k, t, Ok position)
          | Some version =>
              match engine_sync version (k_engine k) with
              | (e, Err error) => (fence_unresolved t (with_engine e k), Err (CommitUndo error))
              | (e, Ok durable) =>
                  (with_engine (if k_dependencies k then engine_advance_undo durable e else e) k, t, Ok position)
              end
          end
      end
  end.

(** One round of the application loop. *)
Definition apply_one (lsn : Lsn) (a : Attempt) (plan : nat * PreparedOrderedMvccEffect) t k
    : Kernel D W * Transaction * result unit OrderedCommitError :=
  let '(e, r) :=
    if k_dependencies k
    then apply_prepared_with_dependencies (k_statuses k) plan.1 (a_guard a) plan.2
           {| pm_required_wal := lsn |} (k_engine k)
    else apply_prepared (k_statuses k) plan.1 (a_guard a) plan.2 (k_engine k) in
  match r with
  | Ok _ => (with_engine e k, t, Ok tt)
  | Err error => (fence_unresolved t (with_engine e k), Err (CommitInstall error))
  end.

Fixpoint apply_effects (lsn : Lsn) (a : Attempt) (plans : list (nat * PreparedOrderedMvccEffect)) t k
    : Kernel D W * Transaction * result unit OrderedCommitError :=
  match plans with
  | [] => (k, t, Ok tt)
  | plan :: plans' =>
      match apply_one lsn a plan t k with
      | (k, t, Ok _) => apply_effects lsn a plans' t k
      | failed => failed
      end
  end.

(** Publication under a visibility admission; no other call runs in between. *)
Definition commit_publish (csn : CommitSeq) t k : Kernel D W * Transaction * result unit OrderedCommitError :=
  match admit_visibility (k_admission k) with
  | Err e => (fence_unresolved t k, Err (CommitAdmission e))
  | Ok _ =>
      let '(w, r) := publish_commit (snapshot (k_frontier k))
                       {| w_statuses := k_statuses k; w_frontier := k_frontier k |} (tx_id t) csn in
      let k := with_frontier (w_frontier w) (with_statuses (w_statuses w) k) in
      match r with
      | Ok _ => (k, t, Ok tt)
      | Err e => (fence_unresolved t k, Err (CommitVisibility e))
      end
  end.

(** The answer of [wait_visible] as the frontier stands; [None] waits. *)
Definition commit_wait (csn : CommitSeq) t k : Kernel D W * Transaction * option (result unit OrderedCommitError) :=
  match (wait_visible [] {| w_statuses := k_statuses k; w_frontier := k_frontier k |} csn).2 with
  | None => (k, t, None)
  | Some (Ok _) => (k, t, Some (Ok tt))
  | Some (Err e) => (fence_unresolved t k, Some (Err (CommitVisibility e)))
  end.

(** The acknowledgement. *)
Definition commit_complete t k : Kernel D W * Transaction * result unit OrderedCommitError :=
  match admit_visibility (k_admission k) with
  | Err e => (fence_unresolved t k, Err (CommitAdmission e))
  | Ok _ =>
      match mark_visible t with
      | (t, Err e) => (fence_unresolved t k, Err (CommitTransaction e))
      | (t, Ok _) =>
          match release t with
          | (t, Err e) => (fence_unresolved t k, Err (CommitTransaction e))
          | (t, Ok _) => (k, t, Ok tt)
          end
      end
  end.

(** The stages from the durable decision to the acknowledgement. *)
Definition commit_finish (a : Attempt) (ticket : AppendTicket) (plans : Plans) (position : CommitPosition) t k
    : Kernel D W * Transaction * option (result CommitPosition OrderedCommitError) :=
  match apply_effects (at_decision_lsn ticket) a plans.1 t k with
  | (k, t, Err e) => (abandon a k, t, Some (Err e))
  | (k, t, Ok _) =>
  match commit_publish (at_csn ticket) t k with
  | (k, t, Err e) => (abandon a k, t, Some (Err e))
  | (k, t, Ok _) =>
  match commit_wait (at_csn ticket) t k with
  | (k, t, None) => (k, t, None)
  | (k, t, Some (Err e)) => (abandon a k, t, Some (Err e))
  | (k, t, Some (Ok _)) =>
  match commit_complete t k with
  | (k, t, Err e) => (abandon a k, t, Some (Err e))
  | (k, t, Ok _) => (leave (with_intents (guard_release (a_guard a) (k_intents k)) k), t, Some (Ok position))
  end
  end
  end
  end.

(** [None]: the call waits for an earlier commit to become visible. *)
Definition commit t (trees : list nat) k
    : Kernel D W * Transaction * option (result CommitPosition OrderedCommitError) :=
  match commit_enter t trees k with
  | (k, Err e) => (k, t, Some (Err e))
  | (k, Ok a) =>
  match prepare_effects t a (a_effects a) ([], None) k with
  | (k, Err e) => (abandon a k, t, Some (Err e))
  | (k, Ok plans) =>
  match commit_append t k with
  | (k, t, Err e) => (abandon a k, t, Some (Err e))
  | (k, t, Ok ticket) =>
  match commit_harden ticket plans.2 t k with
  | (k, t, Err e) => (abandon a k, t, Some (Err e))
  | (k, t, Ok position) => commit_finish a ticket plans position t k
  end
  end
  end
  end.
End coordinator.
