(* ===== verification/OrderedRecovery.v ===== *)
(** * Replaying recovered transactions into the ordered objects

    Models [crates/seerdb/src/vnext/ordered_recovery.rs]: the sequential applicator
    that installs each validated committed transaction after the recovery frontier,
    and shows that a replay rebuilds the committed history. *)
From S2P Require Import Prelude StdCollections Ids Crc Fs Log WriteSet Txn Recovery Shards Mvcc UndoStore Visibility WriteIntent Admission Buffer PageDependency PageV4 KeyOrder TreeV4 TreeRange ObjectStore OrderedMvcc OrderedRead OrderedCommit.

Local Open Scope Z_scope.
Local Open Scope seer_scope.

Inductive RecoveryApplyResult := Applied | AlreadyApplied.

Inductive OrderedRecoveryError :=
| ReplayFenced
| ReplayPoisoned
| ReplayCommitSeqExhausted
| NonContiguousCommit (visible expected actual : CommitSeq)
| AlreadyVisibleIdentity (visible : CommitSeq) (txn : TxnId) (requested : CommitSeq)
    (actual : option TransactionStatus)
| WalFrontierBehind (required durable : Lsn)
| ReplayDuplicateObject (object : StorageObjectId)
| ReplayMissingObject (object : StorageObjectId)
| ReplayDerivedObject (object : StorageObjectId)
| ReplayWriteSet (e : FinalWriteSetError)
| ReplayIntent (e : WriteIntentError)
| ReplayBTree (e : BTreeError)
| ReplayCodec (e : MvccCodecError)
| ReplayStatus (e : StatusTableError)
| ReplayInstall (e : OrderedMvccInstallError)
| ReplayUndo (e : UndoStoreError)
| ReplayVisibility (e : VisibilityError).

(** The applicator and what it borrows; [ap_poisoned] is the poison flag of its
    [lane] mutex. *)
Record OrderedRecoveryApplier (W : Type) := {
  ap_statuses : TransactionStatusTable;
  ap_frontier : VisibilityFrontier;
  ap_intents : WriteIntentTable;
  ap_dependencies : bool;
  ap_poisoned : bool;
  ap_fenced : bool;
  ap_engine : Engine W
}.
Arguments ap_statuses {W} _.
Arguments ap_frontier {W} _.
Arguments ap_intents {W} _.
Arguments ap_dependencies {W} _.
Arguments ap_poisoned {W} _.
Arguments ap_fenced {W} _.
Arguments ap_engine {W} _.

Section applier.
Context `{Crc32c} {W : Type} `{ObjectStore W} `{IntentHasher}.
Implicit Types (p : OrderedRecoveryApplier W).

Definition ap_update (st : TransactionStatusTable) (f : VisibilityFrontier) (i : WriteIntentTable)
    (e : Engine W) p : OrderedRecoveryApplier W :=
  {| ap_statuses := st; ap_frontier := f; ap_intents := i; ap_dependencies := ap_dependencies p;
     ap_poisoned := ap_poisoned p; ap_fenced := ap_fenced p; ap_engine := e |}.

Definition ap_with_engine (e : Engine W) p := ap_update (ap_statuses p) (ap_frontier p) (ap_intents p) e p.
Definition ap_with_intents (i : WriteIntentTable) p := ap_update (ap_statuses p) (ap_frontier p) i (ap_engine p) p.

(** [self.fenced.store(true)] *)
Definition ap_fence p : OrderedRecoveryApplier W :=
  {| ap_statuses := ap_statuses p; ap_frontier := ap_frontier p; ap_intents := ap_intents p;
     ap_dependencies := ap_dependencies p; ap_poisoned := ap_poisoned p; ap_fenced := true;
     ap_engine := ap_engine p |}.

(** [OrderedRecoveryApplier::fail], on the way out of [apply]. *)
Definition fail {A} (error : OrderedRecoveryError) p : OrderedRecoveryApplier W * result A OrderedRecoveryError :=
  (ap_fence p, Err error).

Definition ap_ensure_open p : result unit OrderedRecoveryError :=
  if ap_fenced p then Err ReplayFenced else Ok tt.

(** [OrderedRecoveryApplier::with_page_dependencies] *)
Definition ap_with_page_dependencies p : OrderedRecoveryApplier W :=
  {| ap_statuses := ap_statuses p; ap_frontier := ap_frontier p; ap_intents := ap_intents p;
     ap_dependencies := true; ap_poisoned := ap_poisoned p; ap_fenced := ap_fenced p;
     ap_engine := match undo_durable_version (e_undo (ap_engine p)) with
                  | Some version => engine_advance_undo version (ap_engine p)
                  | None => ap_engine p
                  end |}.

Fixpoint replay_objects (trees : list nat) (objects : gmap StorageObjectId nat) p
    : result (gmap StorageObjectId nat) OrderedRecoveryError :=
  match trees with
  | [] => Ok objects
  | tree :: trees' =>
      let descriptor := os_descriptor tree (e_objects (ap_engine p)) in
      if negb (requires_commit_recovery (od_authority descriptor))
      then Err (ReplayDerivedObject (od_id descriptor))
      else if bool_decide (is_Some (objects !! od_id descriptor))
      then Err (ReplayDuplicateObject (od_id descriptor))
      else replay_objects trees' (<[od_id descriptor := tree]> objects) p
  end.

Fixpoint replay_effects (txn : TxnId) (objects : gmap StorageObjectId nat) (effects : list FinalEffect) p
    : result unit OrderedRecoveryError :=
  match effects with
  | [] => Ok tt
  | effect :: effects' =>
      let? tree := ok_or (objects !! fe_object effect) (ReplayMissingObject (fe_object effect)) in
      let? encoded := map_err ReplayCodec
        (record_to_bytes (installed txn (fe_ordinal effect) None (intended_value effect))) in
      let? _ := map_err ReplayBTree (os_preflight tree (fe_key effect) encoded (e_objects (ap_engine p))) in
      replay_effects txn objects effects' p
  end.

(** [OrderedRecoveryApplier::preflight] *)
Definition replay_preflight (txn : TxnId) (trees : list nat) (effects : list FinalEffect) p
    : result (gmap StorageObjectId nat) OrderedRecoveryError :=
  let? objects := replay_objects trees ∅ p in
  let? _ := replay_effects txn objects effects p in
  Ok objects.

(** The preparation loop. *)
Fixpoint replay_prepare (csn : CommitSeq) (guard : WriteIntentGuard) (objects : gmap StorageObjectId nat)
    (effects : list FinalEffect) (plans : Plans) p
    : OrderedRecoveryApplier W * result Plans OrderedRecoveryError :=
  match effects with
  | [] => (p, Ok plans)
  | effect :: effects' =>
      match objects !! fe_object effect with
      | None => (p, Err (ReplayMissingObject (fe_object effect)))
      | Some tree =>
          match prepare (ap_statuses p) tree guard effect (Recovery csn) (ap_engine p) with
          | (e, Err error) => (ap_with_engine e p, Err (ReplayInstall error))
          | (e, Ok prepared) =>
              let max := match required_undo prepared with
                         | Some version => Some (max_version plans.2 version)
                         | None => plans.2
                         end in
              replay_prepare csn guard objects effects'
                (match prepared with
                 | PrepareReady plan => (plans.1 ++ [(tree, plan)], max)
                 | PrepareAlreadyInstalled _ => (plans.1, max)
                 end) (ap_with_engine e p)
          end
      end
  end.

(** The grouped undo barrier. *)
Definition replay_sync (required : option VersionId) p
    : OrderedRecoveryApplier W * result unit OrderedRecoveryError :=
  match required with
  | None => (p, Ok tt)
  | Some version =>
      match engine_sync version (ap_engine p) with
      | (e, Err error) => (ap_with_engine e p, Err (ReplayUndo error))
      | (e, Ok durable) =>
          (ap_with_engine (if ap_dependencies p then engine_advance_undo durable e else e) p, Ok tt)
      end
  end.

(** The application loop. *)
Fixpoint replay_apply (lsn : Lsn) (guard : WriteIntentGuard)
    (plans : list (nat * PreparedOrderedMvccEffect)) p
    : OrderedRecoveryApplier W * result unit OrderedRecoveryError :=
  match plans with
  | [] => (p, Ok tt)
  | plan :: plans' =>
      let '(e, r) :=
        if ap_dependencies p
        then apply_prepared_with_dependencies (ap_statuses p) plan.1 guard plan.2
               {| pm_required_wal := lsn |} (ap_engine p)
        else apply_prepared (ap_statuses p) plan.1 guard plan.2 (ap_engine p) in
      match r with
      | Ok _ => replay_apply lsn guard plans' (ap_with_engine e p)
      | Err error => (ap_with_engine e p, Err (ReplayInstall error))
      end
  end.

(** [apply] with the intents held: preflight, status, installation, publication.
    Every failure here fences. *)
Definition replay_installed (recovered : RecoveredTransaction) (trees : list nat)
    (effects : list FinalEffect) (guard : WriteIntentGuard) p
    : OrderedRecoveryApplier W * result unit OrderedRecoveryError :=
  let txn := rt_txn_id recovered in
  let csn := cp_csn (rt_position recovered) in
  do? (p, objects) := (p, replay_preflight txn trees effects p) in
  let '(st, r) := recover_committed (ap_statuses p) txn csn in
  do? (p, _) := (ap_update st (ap_frontier p) (ap_intents p) (ap_engine p) p, map_err ReplayStatus r) in
  do? (p, plans) := replay_prepare csn guard objects effects ([], None) p in
  do? (p, _) := replay_sync plans.2 p in
  do? (p, _) := replay_apply (cp_lsn (rt_position recovered)) guard plans.1 p in
  let '(w, r) := publish_recovered (snapshot (ap_frontier p))
                   {| w_statuses := ap_statuses p; w_frontier := ap_frontier p |} txn csn in
  do? (p, _) := (ap_update (w_statuses w) (w_frontier w) (ap_intents p) (ap_engine p) p,
                 map_err ReplayVisibility r) in
  (p, Ok tt).

(** [OrderedRecoveryApplier::apply] *)
Definition replay (recovered : RecoveredTransaction) (trees : list nat) p
    : OrderedRecoveryApplier W * result RecoveryApplyResult OrderedRecoveryError :=
  do? (p, _) := (p, ap_ensure_open p) in
  if ap_poisoned p then (ap_fence p, Err ReplayPoisoned)
  else
  do? (p, _) := (p, ap_ensure_open p) in
  let txn := rt_txn_id recovered in
  let csn := cp_csn (rt_position recovered) in
  let visible := snapshot (ap_frontier p) in
  if csn <=? visible then
    do? (p, actual) := (p, map_err ReplayStatus (status (ap_statuses p) txn)) in
    if bool_decide (actual = Some (StatusCommitted csn)) then (p, Ok AlreadyApplied)
    else fail (AlreadyVisibleIdentity visible txn csn actual) p
  else
    match checked_add visible 1 with
    | None => (p, Err ReplayCommitSeqExhausted)
    | Some expected =>
        if negb (csn =? expected) then fail (NonContiguousCommit visible expected csn) p
        else if ap_dependencies p
                && (pt_durable_wal (os_deps (e_objects (ap_engine p))) <? cp_lsn (rt_position recovered))
        then fail (WalFrontierBehind (cp_lsn (rt_position recovered))
                     (pt_durable_wal (os_deps (e_objects (ap_engine p))))) p
        else
          match recovered_final_effects recovered with
          | Err e => fail (ReplayWriteSet e) p
          | Ok effects =>
              match try_acquire txn effects (ap_intents p) with
              | (i, Err e) => fail (ReplayIntent e) (ap_with_intents i p)
              | (i, Ok guard) =>
                  match replay_installed recovered trees effects guard (ap_with_intents i p) with
                  | (p, Err e) =>
                      fail e (ap_with_intents (release_all guard (ap_intents p)).2 p)
                  | (p, Ok _) => (ap_with_intents (guard_release guard (ap_intents p)) p, Ok Applied)
                  end
              end
          end
    end.
End applier.
