(* ===== verification/Versions.v ===== *)
(** * Version chains

    What the records of [Mvcc.v] and the undo store mean: the current record of a
    key and the undo links behind it spell the committed versions of the key,
    newest first.  The reader of [OrderedRead.v] is shown to pick the version a
    snapshot calls for. *)
From S2P Require Import Prelude StdCollections Ids Crc Fs Log WriteSet Txn Shards Mvcc UndoStore Admission PageDependency KeyOrder TreeV4 ObjectStore OrderedMvcc OrderedRead.

Local Open Scope Z_scope.
Local Open Scope seer_scope.

Abbreviation Version := (CommitSeq * MvccValue)%type.
Abbreviation Statuses := (TxnId → option TransactionStatus).

(** The commit sequence of a record owner, if it has one. *)
Definition owner_csn (S : Statuses) (o : RecordOwner) : option CommitSeq :=
  match o with
  | OwnerFrozen c => Some c
  | OwnerTransaction x => match S x with Some (StatusCommitted c) => Some c | _ => None end
  end.

Definition owner_known (S : Statuses) (o : RecordOwner) : Prop :=
  match o with OwnerFrozen _ => True | OwnerTransaction x => is_Some (S x) end.

Definition own_version (S : Statuses) (r : MvccRecord) : list Version :=
  match owner_csn S (mr_owner r) with Some c => [(c, mr_value r)] | None => [] end.

(** The record an undo link of [r] leads to. *)
Definition undo_link (R : list MvccRecord) (r : MvccRecord) (next : option MvccRecord) : Prop :=
  match mr_undo_head r with
  | None => next = None
  | Some id => 0 < id ∧ is_Some next ∧ R !! Z.to_nat (id - 1) = next
  end.

Definition newer_than (vs h : list Version) : Prop := ∀ v w, v ∈ vs → w ∈ h → w.1 < v.1.

(** A record and its undo chain spell the versions [h]; owners that did not commit
    contribute none. *)
Inductive chain (S : Statuses) (R : list MvccRecord) : option MvccRecord → list Version → Prop :=
| chain_end : chain S R None []
| chain_record r next h :
    owner_known S (mr_owner r) → undo_link R r next → newer_than (own_version S r) h →
    chain S R next h → chain S R (Some r) (own_version S r ++ h).

(** The version a snapshot sees. *)
Definition as_of (h : list Version) (s : CommitSeq) : option Version := List.find (λ v, v.1 <=? s) h.

Definition snapshot_lookup (h : list Version) (s : CommitSeq) : MvccLookup :=
  match as_of h s with Some v => mvcc_value_lookup v.2 | None => MvccNotFound end.

(** ** How chains change *)
Lemma chain_none_inv S R h : chain S R None h → h = [].
Proof. by inversion 1. Qed.

Lemma chain_some_inv S R r h :
  chain S R (Some r) h →
  ∃ next h', h = own_version S r ++ h' ∧ owner_known S (mr_owner r) ∧ undo_link R r next ∧
    newer_than (own_version S r) h' ∧ chain S R next h'.
Proof. inversion 1; subst. eauto 8. Qed.

Lemma undo_link_grow R R' r next : undo_link R r next → undo_link (R ++ R') r next.
Proof.
  unfold undo_link. destruct (mr_undo_head r) as [id|]; [|done]. intros (? & [x ->] & Hl).
  split_and!; [done|by eexists|]. by apply lookup_app_l_Some.
Qed.

(** Appending to the undo store keeps every chain. *)
Lemma chain_grow S R R' cur h : chain S R cur h → chain S (R ++ R') cur h.
Proof. induction 1; [constructor|]. econstructor; eauto using undo_link_grow. Qed.

(** Only the statuses of the owners in the chain matter. *)
Lemma own_version_ext S S' r :
  owner_csn S' (mr_owner r) = owner_csn S (mr_owner r) → own_version S' r = own_version S r.
Proof. unfold own_version. by intros ->. Qed.

Definition same_csn (S S' : Statuses) (r : MvccRecord) : Prop :=
  owner_csn S' (mr_owner r) = owner_csn S (mr_owner r) ∧
  (owner_known S (mr_owner r) → owner_known S' (mr_owner r)).

Lemma chain_statuses S S' R cur h :
  (∀ r, Some r = cur → same_csn S S' r) → Forall (same_csn S S') R →
  chain S R cur h → chain S' R cur h.
Proof.
  intros Hcur HR Hc. revert Hcur. induction Hc as [|r next h Hk Hl Hn Hc IH]; intros Hcur; [constructor|].
  destruct (Hcur r eq_refl) as [Hcsn Hkn].
  rewrite <-(own_version_ext S S') in * by done. econstructor; [by apply Hkn|done|done|].
  apply IH. intros r' <-. unfold undo_link in Hl. destruct (mr_undo_head r) as [id|]; [|done].
  destruct Hl as (_ & _ & Hl). by eapply Forall_lookup_1.
Qed.

(** A status entry that appears, or decides without committing, changes no csn. *)
Lemma same_csn_quiet S S' x st r :
  (∀ y, y ≠ x → S' y = S y) → S' x = Some st → (S x = None ∨ S x = Some StatusActive) →
  (∀ c, st ≠ StatusCommitted c) → same_csn S S' r.
Proof.
  intros Hother Hx Hold Hst. unfold same_csn, owner_csn, owner_known.
  destruct (mr_owner r) as [y|c]; [|done]. destruct (decide (y = x)) as [->|Hne].
  - rewrite Hx. split; [|by eexists]. destruct Hold as [-> | ->], st; naive_solver.
  - by rewrite Hother.
Qed.

(** A commit of [x] changes no csn of the owners other than [x]. *)
Lemma same_csn_other S S' x r :
  (∀ y, y ≠ x → S' y = S y) → mr_owner r ≠ OwnerTransaction x → same_csn S S' r.
Proof.
  intros Hother Hne. unfold same_csn, owner_csn, owner_known.
  destruct (mr_owner r) as [y|c]; [|done]. rewrite Hother; [done|]. by intros ->.
Qed.

(** When its owner commits, the head of a chain becomes the newest version. *)
Lemma chain_commit S S' R x c r h :
  (∀ y, y ≠ x → S' y = S y) → S x = Some StatusActive → S' x = Some (StatusCommitted c) →
  mr_owner r = OwnerTransaction x → Forall (λ u, mr_owner u ≠ OwnerTransaction x) R →
  (∀ v, v ∈ h → v.1 < c) → chain S R (Some r) h → chain S' R (Some r) ((c, mr_value r) :: h).
Proof.
  intros Hother HS HS' Ho HR Hlt (next & h' & -> & Hk & Hl & Hn & Hc)%chain_some_inv.
  assert (own_version S r = []) as E. { unfold own_version. by rewrite Ho; cbn; rewrite HS. }
  assert (own_version S' r = [(c, mr_value r)]) as E'. { unfold own_version. by rewrite Ho; cbn; rewrite HS'. }
  rewrite E in *. cbn [app] in *. change ((c, mr_value r) :: h') with ([(c, mr_value r)] ++ h'). rewrite <-E'.
  econstructor; [rewrite Ho; cbn; rewrite HS'; by eexists|done| |].
  - rewrite E'. intros v w ->%list_elem_of_singleton Hw. by apply Hlt.
  - eapply chain_statuses; [| |exact Hc].
    + intros r' <-. unfold undo_link in Hl. destruct (mr_undo_head r) as [id|]; [|done].
      destruct Hl as (_ & _ & Hl). eapply same_csn_other; [done|].
      exact (Forall_lookup_1 _ _ _ _ HR Hl).
    + eapply Forall_impl; [exact HR|]. intros u Hu. by eapply same_csn_other.
Qed.

(** The versions of a chain decrease strictly. *)
Lemma chain_sorted S R cur h : chain S R cur h → StronglySorted (λ v w : Version, w.1 < v.1) h.
Proof.
  induction 1 as [|r next h _ _ Hn _ IH]; [constructor|]. unfold own_version in *.
  destruct (owner_csn S (mr_owner r)) as [c|]; [|done]. cbn. constructor; [done|].
  apply Forall_forall. intros w Hw. apply Hn; [by apply list_elem_of_singleton|done].
Qed.

Lemma chain_head_csn S R r h c :
  chain S R (Some r) h → owner_csn S (mr_owner r) = Some c → ∃ h', h = (c, mr_value r) :: h' ∧ ∀ v, v ∈ h' → v.1 < c.
Proof.
  intros (next & h' & -> & _ & _ & Hn & _)%chain_some_inv Hc. unfold own_version in *. rewrite Hc in *.
  exists h'. split; [done|]. intros v Hv. by apply (Hn (c, mr_value r) v); [apply list_elem_of_singleton|].
Qed.

(** ** Snapshots *)
Lemma as_of_newer h s c v : s < c → as_of ((c, v) :: h) s = as_of h s.
Proof. intros Hs. unfold as_of. cbn. by rewrite (proj2 (Z.leb_gt _ _) Hs). Qed.

Lemma as_of_spec h s v :
  StronglySorted (λ v w : Version, w.1 < v.1) h →
  as_of h s = Some v ↔ v ∈ h ∧ v.1 ≤ s ∧ ∀ w, w ∈ h → w.1 ≤ s → w.1 ≤ v.1.
Proof.
  induction h as [|x h IH]; intros Hs; unfold as_of; cbn.
  { split; [done|]. by intros [?%elem_of_nil _]. }
  apply StronglySorted_inv in Hs as [Hs Hx]. rewrite Forall_forall in Hx.
  destruct (x.1 <=? s) eqn:E; bool_to_prop.
  - split.
    + intros [= <-]. split; [left|]. split; [done|]. intros w [->|Hw]%elem_of_cons _; [done|].
      specialize (Hx w Hw). lia.
    + intros (Hin & Hle & Hmax). f_equal. apply elem_of_cons in Hin as [->|Hin]; [done|].
      specialize (Hx v Hin). specialize (Hmax x ltac:(left) E). lia.
  - fold (as_of h s). rewrite IH by done. split.
    + intros (Hin & Hle & Hmax). split; [by right|]. split; [done|]. intros w [->|Hw]%elem_of_cons Hw'; [lia|auto].
    + intros (Hin & Hle & Hmax). apply elem_of_cons in Hin as [->|Hin]; [lia|]. split; [done|]. split; [done|].
      intros w Hw. apply Hmax. by right.
Qed.

(** ** The reader *)
Section reader.
Context {W : Type} `{ObjectStore W} `{Crc32c}.
Implicit Types (s : Engine W) (rd : OrderedMvccReader).

(** Nothing stands in the way of a read. *)
Definition readable rd s : Prop :=
  reader_admission rd = Ok tt ∧ table_wf (rd_statuses rd) ∧ no_poison (rd_statuses rd) ∧
  us_poisoned (e_undo s) = false ∧ fs_faults (e_fs s) = [].

(** Reads change nothing but the fault schedule of the device. *)
Definition read_only s s' : Prop :=
  e_objects s' = e_objects s ∧ e_undo s' = e_undo s ∧ fs_files (e_fs s') = fs_files (e_fs s) ∧
  (fs_faults (e_fs s) = [] → fs_faults (e_fs s') = []).

Lemma read_only_refl s : read_only s s.
Proof. done. Qed.
Lemma read_only_trans s1 s2 s3 : read_only s1 s2 → read_only s2 s3 → read_only s1 s3.
Proof. intros (?&?&?&?) (?&?&?&?). split_and!; [congruence..|auto]. Qed.
Lemma read_only_readable rd s s' : read_only s s' → readable rd s → readable rd s'.
Proof. intros (_ & Hu & _ & Hf) (? & ? & ? & ? & ?). split_and!; try done; [by rewrite Hu|auto]. Qed.
Lemma read_only_undo s s' R torn :
  read_only s s' → undo_inv (e_fs s) (e_undo s) R torn → undo_inv (e_fs s') (e_undo s') R torn.
Proof. intros (_ & -> & Hf & _). by apply undo_inv_files. Qed.

(** The visibility rule in terms of commit sequences. *)
Lemma visibility_csn T o reader snap v :
  visibility T o reader snap = Ok v → (∀ x, reader = Some x → o ≠ OwnerTransaction x) →
  owner_known (tget T) o ∧
  match owner_csn (tget T) o with
  | Some c => v = if c <=? snap then RecordVisible else RecordNewerCommit c
  | None => v = RecordActive ∨ v = RecordAborted
  end.
Proof.
  unfold visibility, owner_known, owner_csn. destruct o as [x|c]; intros E Hr; [|by injection E as <-].
  rewrite bool_decide_eq_false_2 in E by (intros ->; by eapply Hr).
  destruct (status T x) as [st|] eqn:Es; [|done]. apply status_Ok in Es. rewrite Es.
  destruct st as [[|c|]|]; cbn in E; simplify_eq; eauto.
Qed.

Lemma visibility_total T o reader snap :
  table_wf T → no_poison T → owner_known (tget T) o → is_ok (visibility T o reader snap) = true.
Proof.
  intros Hw Hn Hk. unfold visibility. destruct o as [x|c]; [|done]. case_bool_decide; [done|].
  rewrite status_no_poison by done. cbn in Hk. destruct Hk as [st ->]. cbn. by destruct st.
Qed.

(** ** Reads leave the store alone *)
Lemma engine_get_read_only id s s' r : engine_get id s = (s', r) → read_only s s'.
Proof.
  unfold engine_get. destruct (undo_get id (e_undo s) (e_fs s)) as [fs r'] eqn:E.
  intros [<- <-]%pair_equal_spec. pose proof (undo_get_quiet _ _ _ _ _ E) as [Hf _].
  split_and!; [done..|]. intros Hq. cbn [e_fs]. revert E. unfold undo_get, read_frame, undo_io, fs_read.
  rewrite (fs_check_ok _ Hq). cbn [fst snd map_err]. rewrite (fs_check_ok _ Hq). intros E.
  repeat (case_match; simplify_eq/=; try done).
Qed.

Lemma resolve_round_read_only rd reader snap rec containing s s' r :
  resolve_round rd reader snap rec containing s = (s', r) → read_only s s'.
Proof.
  assert (∀ id, (let '(s, r) := engine_get id s in do? (s, record) := (s, map_err ReadUndo r) in
    (s, Ok (inr (record, id)))) = (s', r) → read_only s s') as Hget.
  { intros id. destruct (engine_get id s) as [s1 r1] eqn:E. apply engine_get_read_only in E.
    destruct r1; by intros [= <- <-]. }
  unfold resolve_round. destruct (reader_admission rd) as [[]|]; [|by intros [= <- <-]].
  destruct (map_err ReadStatus _) as [v|]; [|by intros [= <- <-]].
  destruct v; try (by intros [= <- <-]); (destruct (mr_undo_head rec) as [next|]; [|by intros [= <- <-]]);
    (destruct containing as [cur|]; [|by apply Hget]);
    (destruct (cur <=? next); [by intros [= <- <-]|by apply Hget]).
Qed.

Lemma resolve_loop_read_only rd reader snap fuel : ∀ rec containing s s' r,
  resolve_loop fuel rd reader snap rec containing s = (s', r) → read_only s s'.
Proof.
  induction fuel as [|fuel IH]; intros rec containing s s' r; cbn [resolve_loop]; [by intros [= <- <-]|].
  destruct (resolve_round rd reader snap rec containing s) as [s1 r1] eqn:E. apply resolve_round_read_only in E.
  destruct r1 as [[v|[rec' id]]|e]; [by intros [= <- <-]| |by intros [= <- <-]].
  intros Hl%IH. by eapply read_only_trans.
Qed.

Lemma resolve_lookup_read_only rd lookup reader snap s s' r :
  resolve_lookup rd lookup reader snap s = (s', r) → read_only s s'.
Proof.
  unfold resolve_lookup. destruct (reader_admission rd) as [[]|]; [|by intros [= <- <-]].
  destruct lookup as [bs|b| |]; try (by intros [= <- <-]).
  destruct (map_err ReadCodec _) as [rec|]; [|by intros [= <- <-]]. unfold resolve.
  destruct (resolve_loop _ _ _ _ _ _ _) as [s1 r1] eqn:E. apply resolve_loop_read_only in E. by intros [= <- <-].
Qed.

Lemma resolve_rows_read_only rd reader snap : ∀ rows visible s s' r,
  resolve_rows rd reader snap rows visible s = (s', r) → read_only s s'.
Proof.
  induction rows as [|[key lookup] rows IH]; intros visible s s' r; cbn [resolve_rows]; [by intros [= <- <-]|].
  destruct (resolve_lookup rd lookup reader snap s) as [s1 [v|e]] eqn:E; apply resolve_lookup_read_only in E;
    [|by intros [= <- <-]]. intros Hl%IH. by eapply read_only_trans.
Qed.

(** A read of an undo version. *)
Lemma engine_get_spec id s s' res R torn :
  undo_inv (e_fs s) (e_undo s) R torn → 0 < id → engine_get id s = (s', res) →
  read_only s s' ∧
  match res with
  | Ok r => R !! Z.to_nat (id - 1) = Some r
  | Err _ => us_poisoned (e_undo s) = false → fs_faults (e_fs s) = [] → R !! Z.to_nat (id - 1) = None
  end.
Proof.
  intros Hu Hid E. split; [by eapply engine_get_read_only|]. revert E.
  unfold engine_get. destruct (undo_get id (e_undo s) (e_fs s)) as [fs r] eqn:E.
  intros [<- <-]%pair_equal_spec. destruct r as [r|e].
  - destruct (undo_get_Ok _ _ _ _ _ _ _ Hu (Z.lt_le_incl _ _ Hid) E). done.
  - intros Hp Hq. rewrite (undo_get_inv _ _ _ _ _ Hu Hp Hq Hid) in E. by destruct (R !! _).
Qed.

(** The records of the chain are not the reader's own. *)
Definition foreign (reader : option TxnId) (r : MvccRecord) : Prop :=
  ∀ x, reader = Some x → mr_owner r ≠ OwnerTransaction x.

Section resolve.
Variables (rd : OrderedMvccReader) (reader : option TxnId) (snap : CommitSeq)
  (R torn : list MvccRecord).
Hypothesis HR : Forall (foreign reader) R.
Local Abbreviation St := (tget (rd_statuses rd)).

(** One round answers for the whole chain, or passes on to the rest of it. *)
Lemma resolve_round_spec rec containing h s s' res :
  undo_inv (e_fs s) (e_undo s) R torn → chain St R (Some rec) h → foreign reader rec →
  match containing with Some cur => 0 < cur ∧ R !! Z.to_nat (cur - 1) = Some rec | None => True end →
  resolve_round rd reader snap rec containing s = (s', res) →
  read_only s s' ∧
  match res with
  | Ok (inl v) => v = snapshot_lookup h snap
  | Ok (inr (rec', id)) => 0 < id ∧ R !! Z.to_nat (id - 1) = Some rec' ∧
      match containing with Some cur => id < cur | None => True end ∧
      ∃ h', chain St R (Some rec') h' ∧ snapshot_lookup h' snap = snapshot_lookup h snap
  | Err _ => ¬ readable rd s
  end.
Proof.
  intros Hu Hc Hf Hcont. unfold resolve_round.
  destruct (reader_admission rd) as [[]|e] eqn:Ea.
  2:{ intros [= <- <-]. split; [done|]. intros (? & _). congruence. }
  apply chain_some_inv in Hc as (next & h' & -> & Hk & Hl & Hn & Hc).
  destruct (visibility _ _ _ _) as [v|e] eqn:Ev; cbn [map_err].
  2:{ intros [= <- <-]. split; [done|]. intros (_ & Hw & Hp & _).
      pose proof (visibility_total _ (mr_owner rec) reader snap Hw Hp Hk) as Ht. by rewrite Ev in Ht. }
  destruct (visibility_csn _ _ _ _ _ Ev Hf) as [_ Hcsn].
  assert ((v = RecordVisible ∧ ∃ c, owner_csn St (mr_owner rec) = Some c ∧ c ≤ snap)
    ∨ v ≠ RecordVisible ∧ snapshot_lookup (own_version St rec ++ h') snap = snapshot_lookup h' snap) as Hv.
  { unfold own_version, snapshot_lookup. destruct (owner_csn St (mr_owner rec)) as [c|].
    - subst v. destruct (c <=? snap) eqn:E; bool_to_prop; [left; eauto|]. right.
      cbn [app]. by rewrite as_of_newer by lia.
    - right. by destruct Hcsn as [-> | ->]. }
  destruct Hv as [(-> & c & Ec & Hle)|[Hnv Hsame]].
  { intros [= <- <-]. split; [done|]. unfold snapshot_lookup, own_version, as_of. rewrite Ec. cbn.
    by rewrite (proj2 (Z.leb_le _ _) Hle). }
  unfold undo_link in Hl. rewrite Hsame.
  assert (∀ id, mr_undo_head rec = Some id →
    match containing with Some cur => id < cur | None => True end) as Hdec.
  { intros id Hid. destruct containing as [cur|]; [|done]. destruct Hcont as [Hpos Hcur].
    pose proof (undo_inv_lookup _ _ _ _ _ _ Hu Hcur) as (_ & _ & Hlt). rewrite Hid in Hlt. lia. }
  assert (∀ id, mr_undo_head rec = Some id →
    (let '(s, r) := engine_get id s in do? (s, record) := (s, map_err ReadUndo r) in (s, Ok (inr (record, id))))
      = (s', res) →
    read_only s s' ∧ match res with
      | Ok (inl v) => v = snapshot_lookup h' snap
      | Ok (inr (rec', id)) => 0 < id ∧ R !! Z.to_nat (id - 1) = Some rec' ∧
          match containing with Some cur => id < cur | None => True end ∧
          ∃ h'', chain St R (Some rec') h'' ∧ snapshot_lookup h'' snap = snapshot_lookup h' snap
      | Err _ => ¬ readable rd s end) as Hget.
  { intros id Hid. rewrite Hid in Hl. destruct Hl as (Hpos & [rec' ->] & Hl).
    destruct (engine_get id s) as [s1 r] eqn:Eg.
    apply (engine_get_spec id s s1 r R torn Hu Hpos) in Eg as [Hro Hr].
    destruct r as [r|e]; intros [= <- <-]; (split; [done|]).
    - rewrite Hl in Hr. injection Hr as <-. split_and!; [done..|by apply Hdec|]. eauto.
    - intros (_ & _ & _ & Hp & Hq). rewrite Hl in Hr. by specialize (Hr Hp Hq). }
  destruct (mr_undo_head rec) as [id|] eqn:Eu.
  2:{ subst next. apply chain_none_inv in Hc as ->. by destruct v; intros [= <- <-]. }
  specialize (Hdec id eq_refl). specialize (Hget id eq_refl).
  destruct containing as [cur|]; [rewrite (proj2 (Z.leb_gt _ _) Hdec)|]; by destruct v.
Qed.

(** Enough rounds are given: every round follows a link to a smaller version. *)
Lemma resolve_loop_spec : ∀ fuel rec containing h s,
  undo_inv (e_fs s) (e_undo s) R torn → chain St R (Some rec) h → foreign reader rec →
  match containing with Some cur => 0 < cur ∧ R !! Z.to_nat (cur - 1) = Some rec | None => True end →
  (match containing with Some cur => Z.to_nat cur | None => S (length R) end < fuel)%nat →
  ∃ s' r, resolve_loop fuel rd reader snap rec containing s = (s', Some r) ∧ read_only s s' ∧
    match r with Ok v => v = snapshot_lookup h snap | Err _ => ¬ readable rd s end.
Proof.
  induction fuel as [|fuel IH]; intros rec containing h s Hu Hc Hf Hcont Hfuel; [lia|]. cbn [resolve_loop].
  destruct (resolve_round rd reader snap rec containing s) as [s1 res] eqn:E.
  destruct (resolve_round_spec _ _ _ _ _ _ Hu Hc Hf Hcont E) as [Hro Hres].
  destruct res as [[v|[rec' id]]|e]; [by eauto 6| |by eauto 6].
  destruct Hres as (Hpos & Hl & Hdec & h' & Hc' & Hsame).
  destruct (IH rec' (Some id) h' s1) as (s' & r & El & Hro' & Hr).
  - by eapply read_only_undo.
  - done.
  - exact (Forall_lookup_1 _ _ _ _ HR Hl).
  - done.
  - apply lookup_lt_Some in Hl. destruct containing; lia.
  - exists s', r. rewrite El. split; [done|]. split; [by eapply read_only_trans|].
    destruct r; [congruence|]. intros Hn. apply Hr. by eapply read_only_readable.
Qed.

(** [resolve] answers with the version the snapshot sees. *)
Lemma resolve_spec rec h s s' r :
  undo_inv (e_fs s) (e_undo s) R torn → chain St R (Some rec) h → foreign reader rec →
  resolve rd rec reader snap s = (s', r) →
  read_only s s' ∧ match r with Ok v => v = snapshot_lookup h snap | Err _ => ¬ readable rd s end.
Proof.
  intros Hu Hc Hf. unfold resolve. rewrite (undo_index_length _ _ _ _ Hu).
  destruct (resolve_loop_spec (2 + length R) rec None h s) as (s1 & r1 & -> & Hro & Hr); [done..|lia|].
  by intros [= <- <-].
Qed.
End resolve.
End reader.
