(* ===== verification/InstallSpec.v ===== *)
(** * What the installer does to the version chains

    The objects, the undo store and the statuses stand for one chain of committed
    versions per key.  Preparing an effect keeps every chain and yields a record
    that extends the chain of its key; applying it puts that record in front. *)
From S2P Require Import Prelude StdCollections Ids Crc Fs Log WriteSet Txn Shards Mvcc UndoStore WriteIntent Admission Buffer PageDependency PageV4 KeyOrder TreeV4 TreeSpec TreeRange ObjectStore OrderedMvcc OrderedRead Versions.

Local Open Scope Z_scope.
Local Open Scope seer_scope.

Abbreviation SlotKey := (StorageObjectId * bytes)%type.
Abbreviation Currents := (SlotKey → option MvccRecord).
Abbreviation Histories := (SlotKey → list Version).

Definition slot_of (e : FinalEffect) : SlotKey := (fe_object e, fe_key e).

(** The entry of a key holds the current record. *)
Definition decodes (l : BTreeLookup) (cur : option MvccRecord) : Prop :=
  match l, cur with
  | LookupNotFound, None => True
  | LookupFound bs, Some r => record_from_bytes bs = Ok r
  | _, _ => False
  end.

Definition put {A} (k : SlotKey) (a : A) (f : SlotKey → A) : SlotKey → A :=
  λ k', if decide (k' = k) then a else f k'.

Lemma put_eq {A} k (a : A) f : put k a f k = a.
Proof. unfold put. by rewrite decide_True. Qed.
Lemma put_ne {A} k k' (a : A) f : k' ≠ k → put k a f k' = f k'.
Proof. intros. unfold put. by rewrite decide_False. Qed.

Section spec.
Context {W : Type} `{Hos : ObjectStore W} `{Hlaws : !ObjectStoreLaws W} `{Hcrc : Crc32c}.
Implicit Types (s : Engine W) (S : Statuses) (R : list MvccRecord) (C : Currents) (H : Histories).

(** [Ds]: the descriptors of the objects; [R]: the records of the undo store. *)
Record engine_repr S s (Ds : list StorageObjectDescriptor) R C H : Prop := {
  er_slots : ∃ M, os_repr (e_objects s) M ∧ M.*1 = Ds ∧
    ∀ i o key, M !! i = Some o → decodes (map_lookup o.2 key) (C (od_id o.1, key));
  er_undo : undo_inv (e_fs s) (e_undo s) R [];
  er_chains : ∀ k, chain S R (C k) (H k);
  er_committed : Forall (λ r, is_Some (owner_csn S (mr_owner r))) R;
  er_ids : NoDup (od_id <$> Ds)
}.

(** The engine's state changed in a way the objects and the undo records do not
    show. *)
Lemma engine_repr_objects S s Ds R C H w :
  engine_repr S s Ds R C H → (∀ M, os_repr (e_objects s) M → os_repr w M) →
  engine_repr S (with_objects w s) Ds R C H.
Proof. intros [(M & Hr & Hm & Hd) Hu Hc Ho Hi] Hw. split; try done. exists M. auto. Qed.

Lemma engine_repr_read_only S s s' Ds R C H :
  engine_repr S s Ds R C H → read_only s s' → engine_repr S s' Ds R C H.
Proof.
  intros [Hs Hu Hc Ho Hi] Hro. split; try done; [|by eapply read_only_undo].
  destruct Hro as (-> & _). done.
Qed.

Lemma engine_advance_wal_repr S s Ds R C H lsn :
  engine_repr S s Ds R C H → engine_repr S (engine_advance_wal lsn s) Ds R C H.
Proof. intros He. eapply engine_repr_objects; [done|]. intros M. apply os_advance_wal_repr. Qed.
Lemma engine_advance_undo_repr S s Ds R C H v :
  engine_repr S s Ds R C H → engine_repr S (engine_advance_undo v s) Ds R C H.
Proof. intros He. eapply engine_repr_objects; [done|]. intros M. apply os_advance_undo_repr. Qed.

(** The statuses changed without a commit of a record owner. *)
Lemma engine_repr_statuses S S' s Ds R C H :
  engine_repr S s Ds R C H → (∀ k r, C k = Some r → same_csn S S' r) → Forall (same_csn S S') R →
  engine_repr S' s Ds R C H.
Proof.
  intros [Hs Hu Hc Ho Hi] Hcur HR. split; try done.
  - intros k. eapply chain_statuses; [|done|done]. intros r E. by apply (Hcur k).
  - eapply Forall_impl; [apply Forall_and; split; [exact Ho|exact HR]|]. intros r [? [-> _]]. done.
Qed.

Lemma engine_repr_ext S s Ds R C H H' :
  engine_repr S s Ds R C H → (∀ k, H' k = H k) → engine_repr S s Ds R C H'.
Proof. intros [Hs Hu Hc Ho Hi] HH. split; try done. intros k. by rewrite HH. Qed.

(** The undo barrier. *)
Lemma engine_sync_repr S s Ds R C H v s' r :
  engine_repr S s Ds R C H → engine_sync v s = (s', r) → engine_repr S s' Ds R C H.
Proof.
  intros [Hs Hu Hc Ho Hi]. unfold engine_sync.
  destruct (undo_sync_through v (e_undo s) (e_fs s)) as [[u fs] r'] eqn:E. intros [= <- <-].
  apply (undo_sync_inv _ _ _ _ _ _ _ _ Hu) in E as (_ & Hu' & _). by split.
Qed.

(** A lookup through the engine. *)
Lemma engine_lookup_repr S s Ds R C H tree d key s' r :
  engine_repr S s Ds R C H → Ds !! tree = Some d → engine_lookup tree key s = (s', r) →
  engine_repr S s' Ds R C H ∧ match r with Ok l => decodes l (C (od_id d, key)) | Err _ => True end.
Proof.
  intros [(M & Hr & Hm & Hd) Hu Hc Ho Hi] Hds. unfold engine_lookup.
  destruct (os_lookup tree key (e_objects s)) as [w r'] eqn:E. intros [<- <-]%pair_equal_spec.
  rewrite <-Hm in Hds. apply list_lookup_fmap_Some in Hds as (o & -> & Hlk).
  destruct (os_lookup_repr _ _ _ _ _ _ _ Hr Hlk E) as (Hr' & _ & Hv). split.
  - split; try done. by exists M.
  - destruct r'; [|done]. subst a. by apply (Hd tree).
Qed.

Lemma engine_descriptor S s Ds R C H tree d :
  engine_repr S s Ds R C H → Ds !! tree = Some d → os_descriptor tree (e_objects s) = d.
Proof.
  intros [(M & Hr & <- & _)] Hds. apply list_lookup_fmap_Some in Hds as (o & -> & Hlk).
  by apply (os_descriptor_repr _ M).
Qed.

(** An upsert of the encoding of [r]. *)
Lemma engine_upsert_repr S s Ds R C H tree d dep key r bs s' :
  engine_repr S s Ds R C H → Ds !! tree = Some d → record_from_bytes bs = Ok r →
  engine_upsert tree dep key bs s = (s', Ok tt) →
  ∀ h, chain S R (Some r) h →
  engine_repr S s' Ds R (put (od_id d, key) (Some r) C) (put (od_id d, key) h H).
Proof.
  intros [(M & Hr & Hm & Hd) Hu Hc Ho Hi] Hds Hb. unfold engine_upsert.
  destruct (os_upsert tree dep key bs (e_objects s)) as [w r'] eqn:E. intros [<- ->]%pair_equal_spec h Hch.
  pose proof Hds as Hds'. rewrite <-Hm in Hds'. apply list_lookup_fmap_Some in Hds' as (o & -> & Hlk).
  pose proof (os_upsert_repr _ _ _ _ _ _ _ _ _ Hr Hlk E) as Hr'. cbn in Hr'. split; try done.
  - exists (put_entry tree key bs M). split; [done|]. split.
    + rewrite (put_entry_insert _ _ _ _ o Hlk). rewrite list_fmap_insert. cbn. by rewrite Hm, list_insert_id.
    + intros i o' key' Hlk'. rewrite put_entry_lookup in Hlk'. case_decide as Di.
      * subst i. rewrite Hlk in Hlk'. injection Hlk' as <-. cbn [fst snd].
        destruct (decide (key' = key)) as [->|Hne].
        -- rewrite put_eq. unfold map_lookup. by rewrite BTreeMap.get_insert_eq.
        -- rewrite put_ne by congruence. unfold map_lookup. rewrite BTreeMap.get_insert_ne by done.
           by apply (Hd tree).
      * rewrite put_ne; [by apply (Hd i)|]. intros [= Heq _]. apply Di.
        eapply (NoDup_lookup _ tree i _ Hi); rewrite list_lookup_fmap; [by rewrite Hds|].
        rewrite <-Hm, list_lookup_fmap, Hlk'. cbn. by rewrite Heq.
  - intros k. unfold put. by case_decide.
Qed.

(** ** Preparation *)

(** The commit sequence does not stand in the way of the writer. *)
Definition in_order (context : InstallContext) (c : CommitSeq) : Prop :=
  match context with Live snap => c ≤ snap | Recovery commit => c < commit end.

(** The head of a slot belongs to nobody who aborted. *)
Definition not_aborted S (cur : option MvccRecord) : Prop :=
  ∀ r x, cur = Some r → mr_owner r = OwnerTransaction x → S x ≠ Some StatusAborted.

(** A plan for [effect] that still fits the slot. *)
Record plan_ok S R C H (effect : FinalEffect) (context : InstallContext)
    (p : PreparedOrderedMvccEffect) : Prop := {
  pl_effect : pe_effect p = effect;
  pl_context : pe_context p = context;
  pl_predecessor : pe_predecessor p = match C (slot_of effect) with
                                      | None => PredecessorAbsent
                                      | Some r => PredecessorPresent r
                                      end;
  pl_current : ∃ undo, pe_current p = installed (fe_txn_id effect) (fe_ordinal effect) undo (intended_value effect)
                 ∧ match undo with Some u => u ≠ 0 ∧ is_u64 u | None => True end;
  pl_chain : chain S R (Some (pe_current p)) (own_version S (pe_current p) ++ H (slot_of effect));
  pl_order : ∀ v, v ∈ H (slot_of effect) → in_order context v.1
}.

(** The writer is active, or recovered as committed. *)
Definition writer_ok S (txn : TxnId) (context : InstallContext) : Prop :=
  match context with
  | Live _ => S txn = Some StatusActive
  | Recovery commit => commit ≠ 0 ∧ S txn = Some (StatusCommitted commit)
  end.

Lemma validate_call_Ok T tree intents effect context s :
  validate_call T tree intents effect context s = Ok tt →
  od_id (os_descriptor tree (e_objects s)) = fe_object effect ∧ g_txn intents = fe_txn_id effect ∧
  owns intents (fe_object effect) (fe_key effect) = true ∧ writer_ok (tget T) (fe_txn_id effect) context.
Proof.
  unfold validate_call. destruct (_ =? fe_object effect) eqn:E1; cbn [negb]; [|done]. bool_to_prop.
  destruct (_ =? fe_txn_id effect) eqn:E2; cbn [negb orb]; [|done]. bool_to_prop.
  destruct (owns _ _ _) eqn:E3; cbn [negb]; [|done].
  destruct (status T (fe_txn_id effect)) as [st|] eqn:Es; cbn [map_err]; [|done]. apply status_Ok in Es.
  intros E. split_and!; try done. unfold writer_ok. rewrite Es. destruct context as [snap|commit].
  - by destruct st as [[]|].
  - destruct st as [[|c|]|]; cbn in E;
      [by destruct (commit =? 0)| |by destruct (commit =? 0)..].
    destruct (commit =? 0) eqn:E0; cbn in E; [done|]. destruct (c =? commit) eqn:Ec; [|done].
    bool_to_prop. by subst.
Qed.

Lemma own_version_writer S txn ord u v context :
  writer_ok S txn context →
  own_version S (installed txn ord u v) =
    match context with Live _ => [] | Recovery commit => [(commit, v)] end.
Proof. unfold own_version, writer_ok, owner_csn. cbn. destruct context; [by intros -> | by intros [_ ->]]. Qed.

(** The plan over a predecessor [next] whose chain is [H]. *)
Lemma prepared_effect_ok S R C H effect context undo next :
  writer_ok S (fe_txn_id effect) context →
  undo_link R (installed (fe_txn_id effect) (fe_ordinal effect) undo (intended_value effect)) next →
  match undo with Some u => u ≠ 0 ∧ is_u64 u | None => True end →
  chain S R next (H (slot_of effect)) → (∀ v, v ∈ H (slot_of effect) → in_order context v.1) →
  ∀ pred appended,
  pred = match C (slot_of effect) with None => PredecessorAbsent | Some r => PredecessorPresent r end →
  plan_ok S R C H effect context (prepared_effect effect context pred undo appended).
Proof.
  intros Hw Hl Hu Hc Ho pred appended Hp. split; try done; [by eexists|].
  cbn [prepared_effect pe_current]. econstructor; [|exact Hl| |exact Hc].
  - cbn. unfold writer_ok in Hw. destruct context; [by eexists|]. destruct Hw as [_ ->]. by eexists.
  - rewrite (own_version_writer _ _ _ _ _ context Hw). intros v w. destruct context; [by intros ?%elem_of_nil|].
    intros ->%list_elem_of_singleton Hin. by apply Ho.
Qed.

(** Displacing a committed predecessor. *)
Lemma displace_spec S s Ds R C H effect context cur c s' res :
  engine_repr S s Ds R C H → writer_ok S (fe_txn_id effect) context →
  C (slot_of effect) = Some cur → owner_csn S (mr_owner cur) = Some c → wf_mvcc cur →
  displace effect context cur c s = (s', res) →
  match res with
  | Err (InstallUndo _) => True
  | Err _ => engine_repr S s' Ds R C H
  | Ok (PrepareReady p) => ∃ R', engine_repr S s' Ds (R ++ R') C H ∧ plan_ok S (R ++ R') C H effect context p
  | Ok (PrepareAlreadyInstalled _) => False
  end.
Proof.
  intros He Hw Hcur Hcsn Hwf. unfold displace.
  destruct (require_predecessor_order c context) as [[]|e] eqn:Eo.
  2:{ intros [= <- <-]. unfold require_predecessor_order in Eo. destruct context;
        [destruct (_ <? _)|destruct (_ <=? _)]; by simplify_eq. }
  unfold engine_append. destruct (undo_append cur (e_undo s) (e_fs s)) as [[u fs] r] eqn:E.
  pose proof He as [Hs Hu Hc Ho Hi].
  apply (undo_append_inv _ _ _ _ _ _ _ _ Hu Hwf) in E as (_ & _ & Hr).
  destruct r as [id|e]; [|by intros [= <- <-]]. cbn [map_err]. intros [= <- <-].
  destruct Hr as (-> & _ & Hu'). exists [cur].
  assert ((R ++ [cur]) !! length R = Some cur) as Hlast by (by rewrite lookup_app_r, Nat.sub_diag).
  pose proof (undo_inv_lookup _ _ _ _ _ _ Hu' Hlast) as (H64 & _ & _).
  pose proof (Hc (slot_of effect)) as Hch. rewrite Hcur in Hch.
  split.
  - split; try done.
    + intros k. by apply chain_grow.
    + apply Forall_app. split; [done|]. constructor; [by eexists|constructor].
  - eapply (prepared_effect_ok _ _ _ _ _ _ _ (Some cur)).
    + done.
    + cbn. unfold len. split; [lia|]. split; [by eexists|]. rewrite <-Hlast. f_equal. lia.
    + unfold len. split; [lia|done].
    + by apply chain_grow.
    + destruct (chain_head_csn _ _ _ _ _ Hch Hcsn) as (h' & Hh & Hlt). rewrite Hh.
      assert (in_order context c) as Hin.
      { unfold require_predecessor_order in Eo. destruct context; cbn;
          [destruct (_ <? _) eqn:E in Eo|destruct (_ <=? _) eqn:E in Eo]; bool_to_prop; (done || lia). }
      intros v [->|Hv]%elem_of_cons; [done|]. specialize (Hlt v Hv). destruct context; cbn in *; lia.
    + by rewrite Hcur.
Qed.

(** Preparing keeps the objects and every chain, and refuses a predecessor that is
    out of order.  Only a failed append can leave the undo store changed. *)
Lemma prepare_spec T s Ds R C H tree d intents effect context s' res :
  engine_repr (tget T) s Ds R C H → Ds !! tree = Some d → not_aborted (tget T) (C (slot_of effect)) →
  prepare T tree intents effect context s = (s', res) →
  match res with
  | Err (InstallUndo _) => True
  | Err _ => engine_repr (tget T) s' Ds R C H
  | Ok (PrepareReady p) => ∃ R', engine_repr (tget T) s' Ds (R ++ R') C H ∧
      plan_ok (tget T) (R ++ R') C H effect context p
  | Ok (PrepareAlreadyInstalled undo) => engine_repr (tget T) s' Ds R C H ∧
      ∃ r, C (slot_of effect) = Some r ∧ has_install_identity r (fe_install_identity effect) = true ∧
        mr_value r = intended_value effect ∧ undo = mr_undo_head r
  end.
Proof.
  intros He Hds Hna. unfold prepare.
  destruct (validate_call T tree intents effect context s) as [[]|e] eqn:Ev.
  2:{ intros [= <- <-]. destruct e; done. }
  apply validate_call_Ok in Ev as (Hid & _ & _ & Hw).
  destruct (engine_lookup tree (fe_key effect) s) as [s1 found] eqn:El.
  rewrite (engine_descriptor _ _ _ _ _ _ _ _ He Hds) in Hid.
  apply (engine_lookup_repr _ _ _ _ _ _ _ _ _ _ _ He Hds) in El as [He1 Hf].
  rewrite Hid in Hf. change (fe_object effect, fe_key effect) with (slot_of effect) in Hf.
  destruct found as [l|e]; cbn [map_err]; [|by intros [= <- <-]].
  pose proof (er_chains _ _ _ _ _ _ He1 (slot_of effect)) as Hch.
  destruct l as [bs|b| |], (C (slot_of effect)) as [cur|] eqn:Ecur; try done; cbn [decodes] in Hf.
  2:{ intros [= <- <-]. exists []. rewrite app_nil_r. split; [done|].
      apply (prepared_effect_ok _ _ _ _ _ _ _ None); [done..| |by rewrite Ecur].
      apply chain_none_inv in Hch as ->. by intros v ?%elem_of_nil. }
  rewrite Hf. cbn [map_err]. destruct (has_install_identity cur _) eqn:Ei.
  { case_bool_decide as Ev; intros [= <- <-]; [|done]. split; [done|]. eauto 6. }
  apply record_codec_backward in Hf as [Hwf _].
  destruct (mr_owner cur) as [owner|c] eqn:Eo.
  2:{ intros E. eapply displace_spec in E; [|done..|by rewrite Eo|done]. by destruct res as [[]|[]]. }
  destruct (owner =? fe_txn_id effect); [by intros [= <- <-]|].
  destruct (status T owner) as [st|] eqn:Es; cbn [map_err]; [|by intros [= <- <-]]. apply status_Ok in Es.
  destruct st as [[|c|]|]; cbn [ok_or]; [by intros [= <- <-]| | |by intros [= <- <-]].
  - intros E. eapply displace_spec in E; [|done..|by rewrite Eo; cbn; rewrite Es|done]. by destruct res as [[]|[]].
  - by destruct (Hna cur owner).
Qed.

(** ** Application *)
Definition effect_wf (e : FinalEffect) : Prop := is_u64 (fe_txn_id e) ∧ is_u32 (fe_ordinal e).

Lemma plan_codec S R C H effect context p bs :
  effect_wf effect → plan_ok S R C H effect context p → record_to_bytes (pe_current p) = Ok bs →
  record_from_bytes bs = Ok (pe_current p).
Proof.
  intros [H64 H32] Hp. destruct (pl_current _ _ _ _ _ _ _ Hp) as (undo & -> & Hu).
  apply record_codec_forward. split_and!; done.
Qed.

(** A plan that fits passes its second look at the predecessor. *)
Lemma validate_prepared_spec S s Ds R C H tree d effect context p s' res :
  engine_repr S s Ds R C H → Ds !! tree = Some d → od_id d = fe_object effect →
  plan_ok S R C H effect context p →
  (∀ r, C (slot_of effect) = Some r → has_install_identity r (fe_install_identity effect) = false) →
  validate_prepared_predecessor tree p s = (s', res) →
  engine_repr S s' Ds R C H ∧ match res with Ok already => already = None | Err _ => True end.
Proof.
  intros He Hds Hid Hp Hfresh. unfold validate_prepared_predecessor.
  rewrite (pl_effect _ _ _ _ _ _ _ Hp), (pl_predecessor _ _ _ _ _ _ _ Hp).
  destruct (engine_lookup tree (fe_key effect) s) as [s1 found] eqn:El.
  apply (engine_lookup_repr _ _ _ _ _ _ _ _ _ _ _ He Hds) in El as [He1 Hf].
  rewrite Hid in Hf. change (fe_object effect, fe_key effect) with (slot_of effect) in Hf.
  destruct found as [l|e]; cbn [map_err]; [|by intros [= <- <-]].
  destruct l as [bs|b| |], (C (slot_of effect)) as [cur|] eqn:Ecur; try done; cbn [decodes] in Hf.
  - rewrite Hf. cbn [map_err]. rewrite (Hfresh cur), bool_decide_eq_true_2 by done. by intros [= <- <-].
  - by intros [= <- <-].
Qed.

(** A plan that fits installs its record in front of the chain of its key. *)
Lemma apply_spec T s Ds R C H tree d intents effect context p dep s' res :
  engine_repr (tget T) s Ds R C H → Ds !! tree = Some d → effect_wf effect →
  plan_ok (tget T) R C H effect context p →
  (∀ r, C (slot_of effect) = Some r → has_install_identity r (fe_install_identity effect) = false) →
  apply_prepared_inner T tree intents p dep s = (s', res) →
  match res with
  | Ok _ => engine_repr (tget T) s' Ds R (put (slot_of effect) (Some (pe_current p)) C)
      (put (slot_of effect) (own_version (tget T) (pe_current p) ++ H (slot_of effect)) H)
  | Err _ => True
  end.
Proof.
  intros He Hds Hwf Hp Hfresh. unfold apply_prepared_inner. rewrite (pl_effect _ _ _ _ _ _ _ Hp).
  destruct (validate_call T tree intents effect _ s) as [[]|e] eqn:Ev; [|by intros [= <- <-]].
  apply validate_call_Ok in Ev as (Hid & _).
  rewrite (engine_descriptor _ _ _ _ _ _ _ _ He Hds) in Hid.
  destruct (validate_prepared_predecessor tree p s) as [s1 [already|e]] eqn:Evp; [|by intros [= <- <-]].
  apply (validate_prepared_spec _ _ _ _ _ _ _ _ _ _ _ _ _ He Hds Hid Hp Hfresh) in Evp as [He1 ->].
  destruct (record_to_bytes (pe_current p)) as [bs|e] eqn:Eb; cbn [map_err]; [|by intros [= <- <-]].
  destruct (engine_upsert _ _ _ _ _) as [s2 [[]|e]] eqn:Eu; intros [= <- <-]; [|done].
  pose proof (engine_upsert_repr _ _ _ _ _ _ _ _ _ _ _ _ _ He1 Hds (plan_codec _ _ _ _ _ _ _ _ Hwf Hp Eb) Eu
    _ (pl_chain _ _ _ _ _ _ _ Hp)) as Hres.
  by rewrite Hid in Hres.
Qed.

(** A plan made by [prepare] is not disturbed by what happens to other slots. *)
Lemma plan_ok_stable S S' R R' C C' H H' effect context p :
  plan_ok S R C H effect context p → C' (slot_of effect) = C (slot_of effect) →
  H' (slot_of effect) = H (slot_of effect) → same_csn S S' (pe_current p) → Forall (same_csn S S') R →
  plan_ok S' (R ++ R') C' H' effect context p.
Proof.
  intros [He Hx Hp Hc Hch Ho] HC HH Hs HR. split; try done; [by rewrite HC| |by rewrite HH].
  rewrite HH. rewrite (own_version_ext S S') by apply Hs. apply chain_grow.
  eapply chain_statuses; [|done|done]. by intros r [= ->].
Qed.

(** ** Publication *)

(** The histories once [x] is committed at [c]. *)
Definition published (x : TxnId) (c : CommitSeq) C H : Histories := λ k,
  match C k with
  | Some r => if decide (mr_owner r = OwnerTransaction x) then (c, mr_value r) :: H k else H k
  | None => H k
  end.

(** Committing a transaction turns the records it installed into versions. *)
Lemma engine_repr_commit S S' s Ds R C H x c :
  engine_repr S s Ds R C H → (∀ y, y ≠ x → S' y = S y) → S x = Some StatusActive →
  S' x = Some (StatusCommitted c) →
  (∀ k r v, C k = Some r → mr_owner r = OwnerTransaction x → v ∈ H k → v.1 < c) →
  engine_repr S' s Ds R C (published x c C H).
Proof.
  intros [Hs Hu Hc Ho Hi] Hother Hx Hx' Hlt.
  assert (Forall (λ u, mr_owner u ≠ OwnerTransaction x) R) as HR.
  { eapply Forall_impl; [exact Ho|]. intros u [c' Hu'] Eu. rewrite Eu in Hu'. cbn in Hu'. by rewrite Hx in Hu'. }
  assert (Forall (same_csn S S') R) as HR'.
  { eapply Forall_impl; [exact HR|]. intros u. by apply same_csn_other. }
  split; try done.
  - intros k. unfold published. specialize (Hc k). destruct (C k) as [r|] eqn:Ek.
    + case_decide as D.
      * eapply chain_commit; try done. intros v. by apply (Hlt k r).
      * eapply chain_statuses; [|done|done]. intros r' [= ->]. by eapply same_csn_other.
    + eapply chain_statuses; [|done|done]. done.
  - eapply Forall_impl; [apply Forall_and; split; [exact Ho|exact HR']|]. intros r [? [-> _]]. done.
Qed.

(** ** Reads *)
Lemma mvcc_lookup_repr S s Ds R C H rd tree d key reader snap s' r :
  engine_repr S s Ds R C H → Ds !! tree = Some d → mvcc_lookup rd tree key reader snap s = (s', r) →
  engine_repr S s' Ds R C H.
Proof.
  intros He Hd. unfold mvcc_lookup. destruct (reader_admission rd) as [[]|]; [|by intros [= <- <-]].
  destruct (engine_lookup tree key s) as [s1 r1] eqn:El.
  apply (engine_lookup_repr _ _ _ _ _ _ _ _ _ _ _ He Hd) in El as [He1 _].
  destruct (map_err ReadBTree r1); [|by intros [= <- <-]]. intros E%resolve_lookup_read_only.
  by eapply engine_repr_read_only.
Qed.

Lemma mvcc_batch_repr S Ds R C H rd tree d limit : ∀ fuel s c visible s' c' r,
  engine_repr S s Ds R C H → Ds !! tree = Some d → cursor_ok (mc_raw c) → limit < U64_MAX →
  mvcc_batch_loop fuel rd tree c limit visible s = (s', c', r) →
  engine_repr S s' Ds R C H ∧ cursor_ok (mc_raw c').
Proof.
  induction fuel as [|fuel IH]; intros s c visible s' c' r He Hd Hc Hlim; cbn [mvcc_batch_loop];
    [by intros [= <- <- <-]|].
  destruct (len visible <? limit) eqn:El; cbn [negb orb]; [|by intros [= <- <- <-]]. bool_to_prop.
  destruct (mvcc_is_done c); [by intros [= <- <- <-]|].
  destruct (reader_admission rd) as [[]|]; [|by intros [= <- <- <-]].
  destruct (os_next_batch tree (mc_raw c) _ _) as [[w raw] rb] eqn:Eb.
  pose proof He as [(M & Hr & Hm & Hdec) _ _ _ _]. rewrite <-Hm in Hd.
  apply list_lookup_fmap_Some in Hd as (o & -> & Hlk). 
  assert (0 < limit - len visible < U64_MAX) as Hlim' by (pose proof (len_nonneg visible); lia).
  destruct (os_next_batch_repr _ _ _ _ _ _ _ _ _ Hr Hlk Hc Hlim' Eb) as (Hr' & _ & Hc' & _).
  assert (engine_repr S (with_objects w s) Ds R C H) as He'.
  { destruct He as [_ Hu Hch Hco Hi]. split; try done. by exists M. }
  destruct rb as [[|row rows]|e]; [by intros [= <- <- <-]| |by intros [= <- <- <-]].
  destruct (resolve_rows _ _ _ _ _ _) as [s2 [visible2|e]] eqn:Er; apply resolve_rows_read_only in Er;
    pose proof (engine_repr_read_only _ _ _ _ _ _ _ He' Er) as He2; [|by intros [= <- <- <-]].
  apply IH; try done. by rewrite <-Hm, list_lookup_fmap, Hlk.
Qed.

(** A raw answer of the tree resolves to the version the snapshot sees. *)
Lemma resolve_lookup_spec S s R rd l cur h reader snap s' r :
  S = tget (rd_statuses rd) → undo_inv (e_fs s) (e_undo s) R [] → chain S R cur h → decodes l cur →
  (∀ rec, cur = Some rec → foreign reader rec) → Forall (foreign reader) R →
  resolve_lookup rd l reader snap s = (s', r) →
  match r with Ok v => v = snapshot_lookup h snap | Err _ => ¬ readable rd s end.
Proof.
  intros -> Hu Hch Hdec Hcur HR. unfold resolve_lookup. destruct (reader_admission rd) as [[]|e] eqn:Ea.
  2:{ intros [= <- <-] [? _]. congruence. }
  destruct l as [bs|b| |], cur as [rec|]; try done; cbn [decodes] in Hdec.
  - rewrite Hdec. cbn [map_err]. intros E.
    by apply (resolve_spec rd reader snap R [] HR _ _ _ _ _ Hu Hch (Hcur _ eq_refl)) in E as [_ Hr].
  - intros [= <- <-]. by apply chain_none_inv in Hch as ->.
Qed.

(** A lookup answers with the version its snapshot sees; it fails only when the tree
    does or something stands in the way of reading. *)
Lemma mvcc_lookup_spec s Ds R C H rd tree d key reader snap s' r :
  engine_repr (tget (rd_statuses rd)) s Ds R C H → Ds !! tree = Some d →
  (∀ rec, C (od_id d, key) = Some rec → foreign reader rec) → Forall (foreign reader) R →
  mvcc_lookup rd tree key reader snap s = (s', r) →
  match r with
  | Ok v => v = snapshot_lookup (H (od_id d, key)) snap
  | Err (ReadBTree _) => True
  | Err _ => ¬ readable rd s
  end.
Proof.
  intros He Hd Hcur HR. unfold mvcc_lookup. destruct (reader_admission rd) as [[]|e] eqn:Ea.
  2:{ intros [= <- <-]. assert (¬ readable rd s) by (intros [? _]; congruence). by destruct e. }
  destruct (engine_lookup tree key s) as [s1 r1] eqn:El.
  assert (readable rd s → readable rd s1) as Hread.
  { unfold engine_lookup in El. destruct (os_lookup _ _ _). by injection El as <- <-. }
  apply (engine_lookup_repr _ _ _ _ _ _ _ _ _ _ _ He Hd) in El as [He1 Hdec].
  destruct r1 as [l|e]; cbn [map_err]; [|by intros [= <- <-]]. intros E.
  apply (resolve_lookup_spec _ _ R _ _ _ _ _ _ _ _ eq_refl (er_undo _ _ _ _ _ _ He1)
    (er_chains _ _ _ _ _ _ He1 (od_id d, key)) Hdec Hcur HR) in E.
  destruct r as [v|e]; [done|]. assert (¬ readable rd s) by tauto. by destruct e.
Qed.
End spec.
