(* ===== verification/Interleaving.v ===== *)
(** * Concurrent callers of the coordinator

    Threads call [begin_write], stage mutations, read, [commit] and [abort] at the
    same time.  A thread inside [commit] is a [Task] at one of the stages of
    [OrderedCommit.v], each stage is one step, and tasks take their steps in any
    order.  The stages are coarser than the calls they make: the preparation of one
    effect reads the tree and appends its undo record, the hardening is the log
    barrier, the durable mark and the undo barrier, and a lookup, a batch or a call
    into a tree is atomic.  [commit] run alone is one such interleaving. *)
From S2P Require Import Prelude StdCollections Ids Crc Fs Log WriteSet Txn LogIo CommitAppend Shards Mvcc UndoStore Visibility WriteIntent Admission Buffer PageDependency PageV4 KeyOrder TreeV4 TreeRange ObjectStore OrderedMvcc OrderedRead OrderedCommit.

Local Open Scope Z_scope.
Local Open Scope seer_scope.

(** A transaction handle and where its thread is. *)
Inductive Task :=
| TaskIdle (t : Transaction)
| TaskPreparing (t : Transaction) (a : Attempt) (rest : list FinalEffect) (plans : Plans)
| TaskAppended (t : Transaction) (a : Attempt) (plans : Plans) (ticket : AppendTicket)
| TaskApplying (t : Transaction) (a : Attempt) (ticket : AppendTicket) (position : CommitPosition)
    (todo : list (nat * PreparedOrderedMvccEffect))
| TaskWaiting (t : Transaction) (a : Attempt) (ticket : AppendTicket) (position : CommitPosition)
| TaskCompleting (t : Transaction) (a : Attempt) (ticket : AppendTicket) (position : CommitPosition).

Definition task_txn (task : Task) : Transaction :=
  match task with
  | TaskIdle t | TaskPreparing t _ _ _ | TaskAppended t _ _ _ | TaskApplying t _ _ _ _
  | TaskWaiting t _ _ _ | TaskCompleting t _ _ _ => t
  end.

(** The commit sequence of a decision that is not published yet. *)
Definition task_csn (task : Task) : option CommitSeq :=
  match task with
  | TaskAppended _ _ _ ticket | TaskApplying _ _ ticket _ _ => Some (at_csn ticket)
  | _ => None
  end.

(** A commit whose publication succeeded; the list of them is a history variable,
    no code reads it. *)
Record Publication := {
  pb_txn : TxnId;
  pb_csn : CommitSeq;
  pb_snapshot : CommitSeq;
  pb_effects : list FinalEffect
}.

Record Sys (D W : Type) := {
  sy_kernel : Kernel D W;
  sy_tasks : gmap TxnId Task;
  sy_published : list Publication
}.
Arguments sy_kernel {D W} _.
Arguments sy_tasks {D W} _.
Arguments sy_published {D W} _.

Section machine.
Context `{Crc32c} {D : Type} `{LogDevice D} {W : Type} `{ObjectStore W} `{IntentHasher}.
Implicit Types (k : Kernel D W) (t : Transaction).

Definition publication t (a : Attempt) (ticket : AppendTicket) : Publication :=
  {| pb_txn := tx_id t; pb_csn := at_csn ticket; pb_snapshot := tx_snapshot t; pb_effects := a_effects a |}.

(** The next step of a thread inside [commit]; [None] when it is not inside, or
    waits. *)
Definition task_step (task : Task) k : option (Kernel D W * Task * list Publication) :=
  match task with
  | TaskIdle _ => None
  | TaskPreparing t a (effect :: rest) plans =>
      match prepare_one t a effect plans k with
      | (k, Err _) => Some (abandon a k, TaskIdle t, [])
      | (k, Ok plans) => Some (k, TaskPreparing t a rest plans, [])
      end
  | TaskPreparing t a [] plans =>
      match commit_append t k with
      | (k, t, Err _) => Some (abandon a k, TaskIdle t, [])
      | (k, t, Ok ticket) => Some (k, TaskAppended t a plans ticket, [])
      end
  | TaskAppended t a plans ticket =>
      match commit_harden ticket plans.2 t k with
      | (k, t, Err _) => Some (abandon a k, TaskIdle t, [])
      | (k, t, Ok position) => Some (k, TaskApplying t a ticket position plans.1, [])
      end
  | TaskApplying t a ticket position (plan :: todo) =>
      match apply_one (at_decision_lsn ticket) a plan t k with
      | (k, t, Err _) => Some (abandon a k, TaskIdle t, [])
      | (k, t, Ok _) => Some (k, TaskApplying t a ticket position todo, [])
      end
  | TaskApplying t a ticket position [] =>
      match commit_publish (at_csn ticket) t k with
      | (k, t, Err _) => Some (abandon a k, TaskIdle t, [])
      | (k, t, Ok _) => Some (k, TaskWaiting t a ticket position, [publication t a ticket])
      end
  | TaskWaiting t a ticket position =>
      match commit_wait (at_csn ticket) t k with
      | (_, _, None) => None
      | (k, t, Some (Err _)) => Some (abandon a k, TaskIdle t, [])
      | (k, t, Some (Ok _)) => Some (k, TaskCompleting t a ticket position, [])
      end
  | TaskCompleting t a ticket position =>
      match commit_complete t k with
      | (k, t, Err _) => Some (abandon a k, TaskIdle t, [])
      | (k, t, Ok _) => Some (leave (with_intents (guard_release (a_guard a) (k_intents k)) k), TaskIdle t, [])
      end
  end.

(** The answers a reader can get from the engine. *)
Definition reader_of k : OrderedMvccReader :=
  {| rd_admission := k_admission k; rd_statuses := k_statuses k |}.

(** The new state of a thread and what it published. *)
Definition run_task (x : TxnId) (k : Kernel D W) (task : Task) (pubs : list Publication) (y : Sys D W) : Sys D W :=
  {| sy_kernel := k; sy_tasks := <[x := task]> (sy_tasks y); sy_published := pubs ++ sy_published y |}.

Definition with_kernel (k : Kernel D W) (y : Sys D W) : Sys D W :=
  {| sy_kernel := k; sy_tasks := sy_tasks y; sy_published := sy_published y |}.

(** The number of objects: the handles below it are the trees that exist. *)
Variable objects : nat.

Inductive sys_step (y : Sys D W) : Sys D W → Prop :=
| sys_begin x k t :
    is_u64 x → begin_write x (sy_kernel y) = (k, Ok t) → sys_step y (run_task x k (TaskIdle t) [] y)
| sys_begin_refused x k e :
    begin_write x (sy_kernel y) = (k, Err e) → sys_step y (with_kernel k y)
| sys_put x t object key value :
    sy_tasks y !! x = Some (TaskIdle t) → is_u64 (od_id object) →
    sys_step y (run_task x (sy_kernel y) (TaskIdle (stage_ordered_put object key value t).1) [] y)
| sys_delete x t object key :
    sy_tasks y !! x = Some (TaskIdle t) → is_u64 (od_id object) →
    sys_step y (run_task x (sy_kernel y) (TaskIdle (stage_ordered_delete object key t).1) [] y)
| sys_enter x t trees k a :
    sy_tasks y !! x = Some (TaskIdle t) → Forall (λ h, (h < objects)%nat) trees →
    commit_enter t trees (sy_kernel y) = (k, Ok a) →
    sys_step y (run_task x k (TaskPreparing t a (a_effects a) ([], None)) [] y)
| sys_enter_refused x t trees k e :
    sy_tasks y !! x = Some (TaskIdle t) → Forall (λ h, (h < objects)%nat) trees →
    commit_enter t trees (sy_kernel y) = (k, Err e) →
    sys_step y (with_kernel k y)
| sys_task x task k task' pubs :
    sy_tasks y !! x = Some task → task_step task (sy_kernel y) = Some (k, task', pubs) →
    sys_step y (run_task x k task' pubs y)
| sys_abort x t k t' r :
    sy_tasks y !! x = Some (TaskIdle t) → coordinator_abort t (sy_kernel y) = (k, t', r) →
    sys_step y (run_task x k (TaskIdle t') [] y)
| sys_lookup tree key reader snap e r :
    (tree < objects)%nat →
    mvcc_lookup (reader_of (sy_kernel y)) tree key reader snap (k_engine (sy_kernel y)) = (e, r) →
    sys_step y (with_kernel (with_engine e (sy_kernel y)) y)
| sys_batch fuel tree c limit e c' r :
    (tree < objects)%nat → cursor_ok (mc_raw c) → 0 ≤ limit < U64_MAX →
    mvcc_next_batch fuel (reader_of (sy_kernel y)) tree c limit (k_engine (sy_kernel y)) = (e, c', r) →
    sys_step y (with_kernel (with_engine e (sy_kernel y)) y).

(** ** Fences *)
Definition fenced k : Prop := ra_recovery_required (k_admission k) = true.

Lemma fenced_fence k : fenced (fence_admission k).
Proof. done. Qed.

Lemma fenced_unresolved t k : fenced (fence_unresolved t k).1.
Proof. done. Qed.

Lemma fenced_leave k : fenced k → fenced (leave k).
Proof.
  unfold fenced, leave, release_commit. cbn. intros Hf. destruct (ra_poisoned _); [done|].
  by destruct (negb _).
Qed.

Lemma fenced_abandon a k : fenced k → fenced (abandon a k).
Proof. intros Hf. by apply fenced_leave. Qed.

(** ** What the stages leave of the transaction *)
Lemma append_frozen (ca : CommitAppender D) t ca' t' r :
  append_validated ca t = (ca', t', r) → tx_id t' = tx_id t ∧ tx_snapshot t' = tx_snapshot t.
Proof.
  unfold append_validated, mark_prepared, mark_wal_appended, mark_recovery_required, abort, transition.
  intros E. repeat (case_match; simplify_eq/=; try done).
Qed.

(** The outcomes of the append for the coordinator. *)
Lemma append_cases (ca : CommitAppender D) t ca' t' r :
  tx_phase t = Validating → append_validated ca t = (ca', t', r) →
  tx_id t' = tx_id t ∧ tx_snapshot t' = tx_snapshot t ∧
  match r with
  | Ok ticket => ∃ n, ca_next_csn ca = Some n ∧ ca_next_csn ca' = checked_add n 1 ∧ at_csn ticket = n ∧
      tx_phase t' = WalAppended ∧ tx_commit_seq t' = Some n ∧ tx_decision_lsn t' = Some (at_decision_lsn ticket)
  | Err _ => tx_phase t' = RecoveryRequired ∨
      ca_next_csn ca' = ca_next_csn ca ∧ (tx_phase t' = Aborted ∨ tx_phase t' = Validating)
  end.
Proof.
  intros Hp E. destruct (append_frozen _ _ _ _ _ E) as [Hi Hs]. split; [done|]. split; [done|].
  apply append_validated_cases in E. destruct r as [ticket|e].
  - destruct E as (n & batch & fx & log & _ & _ & Hn & Hb & Hl & -> & ->). exists n. split_and!; try done.
    apply for_commit_Ok in Hb as (digest & es & _ & _ & _ & _ & _ & Hc).
    apply log_append_cases in Hl as [(_ & _ & [[? _]|[? _]])|(_ & _ & d & [lsn|e] & _ & _ & _ & _ & _ & Hr)]; try done.
    by injection Hr as ->.
  - destruct e; try done; try (destruct E as [-> ->]; by right; auto).
    + destruct E as (batch & log & _ & _ & -> & Ha). right. auto.
    + destruct E as (csn & batch & log & op & src & _ & _ & _ & _ & _ & _ & _ & Hr). by left.
Qed.

Lemma mark_durable_cases lsn t t' r :
  mark_durable lsn t = (t', r) →
  tx_id t' = tx_id t ∧ tx_snapshot t' = tx_snapshot t ∧ tx_commit_seq t' = tx_commit_seq t ∧
  match r with
  | Ok position => tx_phase t' = DurableDecision ∧ tx_commit_seq t = Some (cp_csn position)
  | Err _ => True
  end.
Proof.
  unfold mark_durable. intros E. repeat (case_match; simplify_eq/=; try done).
  by destruct (tx_commit_seq t); simplify_eq/=.
Qed.

(** The transaction and its commit sequence through the decision. *)
Lemma append_ok_txn t k k' t' ticket :
  tx_phase t = Active → commit_append t k = (k', t', Ok ticket) →
  tx_id t' = tx_id t ∧ tx_snapshot t' = tx_snapshot t ∧ tx_commit_seq t' = Some (at_csn ticket).
Proof.
  intros Hp. unfold commit_append, begin_validation.
  destruct (transition_cases Active Validating t) as [[-> _]|[_ ?]]; [|done].
  destruct (append_validated _ _) as [[ca t1] [tk|e]] eqn:E.
  - intros [= <- <- <-]. apply append_cases in E as (Hi & Hs & n & _ & _ & Hc & _ & Hcs & _); [|done].
    split_and!; [done..|congruence].
  - case_bool_decide; [done|]. by destruct (cleanup_clean_append_failure _ _) as [[? ?] []].
Qed.

Lemma harden_ok_txn ticket required t k k' t' position :
  commit_harden ticket required t k = (k', t', Ok position) →
  tx_id t' = tx_id t ∧ tx_snapshot t' = tx_snapshot t ∧ tx_commit_seq t = Some (cp_csn position).
Proof.
  unfold commit_harden. destruct (appender_sync_through _ _) as [ca [[]|]]; [|done].
  destruct (mark_durable _ t) as [t1 [p|]] eqn:E; [|done]. apply mark_durable_cases in E as (Hi & Hs & _ & _ & Hc).
  destruct required as [v|]; [destruct (engine_sync v _) as [e [d|]]; [|done]|]; by intros [= <- <- <-].
Qed.

Lemma commit_complete_fenced t k k' t' e : commit_complete t k = (k', t', Err e) → fenced k'.
Proof.
  unfold commit_complete. destruct (admit_visibility _); [|by intros [= <- <- <-]].
  destruct (mark_visible t) as [t1 [[]|]]; [|by intros [= <- <- <-]].
  destruct (release t1) as [t2 [[]|]]; by intros [= <- <- <-].
Qed.

Lemma apply_effects_txn lsn a : ∀ plans t k k' t',
  apply_effects lsn a plans t k = (k', t', Ok tt) → t' = t.
Proof.
  induction plans as [|plan plans IH]; intros t k k' t'; cbn [apply_effects]; [by intros [= <- <-]|].
  destruct (apply_one lsn a plan t k) as [[k1 t1] [[]|e]] eqn:E; [|done]. intros ->%IH.
  unfold apply_one in E. destruct (if k_dependencies k then _ else _) as [e [r|err]]; [|done]. by injection E as <- <-.
Qed.

Lemma publish_txn csn t k k' t' : commit_publish csn t k = (k', t', Ok tt) → t' = t.
Proof.
  unfold commit_publish. destruct (admit_visibility _); [|done].
  destruct (publish_commit _ _ _ _) as [w [v|e]]; [|done]. by intros [= <- <-].
Qed.

(** ** [commit] run alone *)
Lemma run_task_twice x k task pubs k' task' pubs' y :
  run_task x k' task' pubs' (run_task x k task pubs y) = run_task x k' task' (pubs' ++ pubs) y.
Proof. unfold run_task. cbn. by rewrite insert_insert_eq, app_assoc. Qed.

(** Steps of the thread [x] only. *)
Definition thread_step (x : TxnId) (y z : Sys D W) : Prop :=
  ∃ task k task' pubs, sy_tasks y !! x = Some task ∧ task_step task (sy_kernel y) = Some (k, task', pubs) ∧
    z = run_task x k task' pubs y.

Lemma thread_steps_sys x y z : rtc (thread_step x) y z → rtc sys_step y z.
Proof.
  induction 1 as [|y z u (task & k & task' & pubs & Ht & Hs & ->) _ IH]; [done|].
  eapply rtc_l; [by eapply sys_task|done].
Qed.

(** One more step of a thread that just moved. *)
Lemma thread_run x k task pubs k' task' pubs' y z :
  task_step task k = Some (k', task', pubs') →
  rtc (thread_step x) (run_task x k' task' (pubs' ++ pubs) y) z →
  rtc (thread_step x) (run_task x k task pubs y) z.
Proof.
  intros Hs Hr. eapply rtc_l; [|exact Hr]. exists task, k', task', pubs'. cbn.
  rewrite lookup_insert_eq. split_and!; [done..|]. by rewrite run_task_twice.
Qed.

Lemma prepare_run x t a y : ∀ effects plans pubs k k' r,
  prepare_effects t a effects plans k = (k', r) →
  match r with
  | Ok plans' => rtc (thread_step x) (run_task x k (TaskPreparing t a effects plans) pubs y)
                   (run_task x k' (TaskPreparing t a [] plans') pubs y)
  | Err _ => rtc (thread_step x) (run_task x k (TaskPreparing t a effects plans) pubs y)
               (run_task x (abandon a k') (TaskIdle t) pubs y)
  end.
Proof.
  induction effects as [|effect effects IH]; intros plans pubs k k' r; cbn [prepare_effects].
  { by intros [= <- <-]. }
  destruct (prepare_one t a effect plans k) as [k1 [plans1|e]] eqn:E.
  - intros Hr. apply (IH _ pubs) in Hr. destruct r;
      (eapply (thread_run _ _ _ _ _ _ []); [cbn; by rewrite E|done]).
  - intros [= <- <-]. eapply (thread_run _ _ _ _ _ _ []); [cbn; by rewrite E|done].
Qed.

Lemma apply_run x a ticket position y : ∀ todo pubs t k k' t' r,
  apply_effects (at_decision_lsn ticket) a todo t k = (k', t', r) →
  match r with
  | Ok _ => rtc (thread_step x) (run_task x k (TaskApplying t a ticket position todo) pubs y)
              (run_task x k' (TaskApplying t' a ticket position []) pubs y)
  | Err _ => rtc (thread_step x) (run_task x k (TaskApplying t a ticket position todo) pubs y)
               (run_task x (abandon a k') (TaskIdle t') pubs y)
  end.
Proof.
  induction todo as [|plan todo IH]; intros pubs t k k' t' r; cbn [apply_effects].
  { by intros [= <- <- <-]. }
  destruct (apply_one _ a plan t k) as [[k1 t1] [[]|e]] eqn:E.
  - intros Hr. apply (IH pubs) in Hr. destruct r;
      (eapply (thread_run _ _ _ _ _ _ []); [cbn; by rewrite E|done]).
  - intros [= <- <- <-]. eapply (thread_run _ _ _ _ _ _ []); [cbn; by rewrite E|done].
Qed.

(** Where a call of [commit] ends: back in the caller, or waiting. *)
Definition call_end (r : option (result CommitPosition OrderedCommitError)) (t : Transaction) (task : Task) : Prop :=
  match r with
  | Some _ => task = TaskIdle t
  | None => ∃ a ticket position, task = TaskWaiting t a ticket position
  end.

Lemma commit_finish_run x a ticket plans position t k k' t' r y :
  commit_finish a ticket plans position t k = (k', t', r) →
  ∃ task pubs, call_end r t' task ∧
    rtc (thread_step x) (run_task x k (TaskApplying t a ticket position plans.1) [] y) (run_task x k' task pubs y) ∧
    match r with
    | Some (Ok p) => p = position ∧ pubs = [publication t a ticket]
    | Some (Err _) => pubs = [] ∨ fenced k'
    | None => pubs = [publication t a ticket]
    end.
Proof.
  unfold commit_finish.
  destruct (apply_effects _ a plans.1 t k) as [[k1 t1] r1] eqn:E1.
  pose proof (apply_run x a ticket position y _ [] _ _ _ _ _ E1) as Hr1.
  destruct r1 as [[]|e]; [|intros [= <- <- <-]; exists (TaskIdle t1), []; split_and!; [done|exact Hr1|by left]].
  apply apply_effects_txn in E1 as ->.
  destruct (commit_publish _ t k1) as [[k2 t2] [[]|e]] eqn:E2.
  2:{ intros [= <- <- <-]. exists (TaskIdle t2), []. split; [done|]. split; [|by left]. etrans; [exact Hr1|].
      eapply (thread_run _ _ _ _ _ _ []); [cbn; by rewrite E2|done]. }
  pose proof (publish_txn _ _ _ _ _ E2) as ->.
  assert (rtc (thread_step x) (run_task x k (TaskApplying t a ticket position plans.1) [] y)
    (run_task x k2 (TaskWaiting t a ticket position) [publication t a ticket] y)) as Hr2.
  { etrans; [exact Hr1|]. eapply (thread_run _ _ _ _ _ _ [publication t a ticket]); [cbn; by rewrite E2|done]. }
  destruct (commit_wait _ t k2) as [[k3 t3] r3] eqn:E3. pose proof E3 as W3. unfold commit_wait in W3.
  destruct (_.2) as [[v|e]|] in W3; injection W3 as <- <- <-.
  - destruct (commit_complete t k2) as [[k4 t4] [[]|e]] eqn:E4; intros [= <- <- <-]; eexists _, _; (split; [done|]);
      (split; [etrans; [exact Hr2|]; (eapply (thread_run _ _ _ _ _ _ []); [cbn; by rewrite E3|]);
        (eapply (thread_run _ _ _ _ _ _ []); [cbn; by rewrite E4|done])|]); [done|].
    right. apply fenced_abandon. by eapply commit_complete_fenced.
  - intros [= <- <- <-]. eexists _, _. split; [done|]. split.
    + etrans; [exact Hr2|]. eapply (thread_run _ _ _ _ _ _ []); [cbn; by rewrite E3|done].
    + right. by apply fenced_abandon.
  - intros [= <- <- <-]. eexists _, _. split; [by eexists _, _, _|]. done.
Qed.

(** What a call published. *)
Definition published_by t (pubs : list Publication) (csn : CommitSeq) : Prop :=
  ∃ p, pubs = [p] ∧ pb_txn p = tx_id t ∧ pb_snapshot p = tx_snapshot t ∧ pb_csn p = csn ∧
    final_effects t = Ok (pb_effects p).

Lemma enter_effects t trees k k' a : commit_enter t trees k = (k', Ok a) → final_effects t = Ok (a_effects a) ∧ tx_phase t = Active.
Proof.
  unfold commit_enter. intros E. repeat (case_match; simplify_eq/=; try done). by bool_to_prop.
Qed.

(** The whole call is a run of its thread; it publishes its final effects when it is
    acknowledged, and nothing unless it ends fenced. *)
Lemma commit_run x t trees k' t' r y :
  sy_tasks y !! x = Some (TaskIdle t) → Forall (λ h, (h < objects)%nat) trees →
  commit t trees (sy_kernel y) = (k', t', r) →
  ∃ task pubs, call_end r t' task ∧ rtc sys_step y (run_task x k' task pubs y) ∧
    match r with
    | Some (Ok position) => published_by t pubs (cp_csn position)
    | Some (Err _) => pubs = [] ∨ fenced k'
    | None => ∃ csn, published_by t pubs csn
    end.
Proof.
  intros Hx Htrees. unfold commit.
  destruct (commit_enter t trees (sy_kernel y)) as [k1 [a|e]] eqn:E1.
  2:{ intros [= <- <- <-]. exists (TaskIdle t), []. split; [done|]. split; [|by left].
      replace (run_task x k1 (TaskIdle t) [] y) with (with_kernel k1 y)
        by (unfold run_task, with_kernel; cbn; by rewrite insert_id).
      apply rtc_once. by eapply sys_enter_refused. }
  assert (sys_step y (run_task x k1 (TaskPreparing t a (a_effects a) ([], None)) [] y)) as Hs1
    by (by eapply sys_enter).
  apply enter_effects in E1 as [Hfx Hact].
  destruct (prepare_effects t a (a_effects a) ([], None) k1) as [k2 r2] eqn:E2.
  apply (prepare_run x t a y _ _ []) in E2.
  destruct r2 as [plans|e]; apply thread_steps_sys in E2.
  2:{ intros [= <- <- <-]. exists (TaskIdle t), []. split; [done|]. split; [by eapply rtc_l|by left]. }
  assert (rtc sys_step y (run_task x k2 (TaskPreparing t a [] plans) [] y)) as Hs2 by (by eapply rtc_l).
  destruct (commit_append t k2) as [[k3 t3] [ticket|e]] eqn:E3.
  2:{ intros [= <- <- <-]. exists (TaskIdle t3), []. split; [done|]. split; [|by left]. etrans; [exact Hs2|].
      eapply thread_steps_sys, (thread_run _ _ _ _ _ _ []); [cbn; by rewrite E3|done]. }
  destruct (commit_harden ticket plans.2 t3 k3) as [[k4 t4] [position|e]] eqn:E4.
  2:{ intros [= <- <- <-]. exists (TaskIdle t4), []. split; [done|]. split; [|by left]. etrans; [exact Hs2|].
      eapply thread_steps_sys, (thread_run _ _ _ _ _ _ []); [cbn; by rewrite E3|].
      eapply (thread_run _ _ _ _ _ _ []); [cbn; by rewrite E4|done]. }
  intros (task & pubs & Hend & Hr & Hp)%(commit_finish_run x _ _ _ _ _ _ _ _ _ y).
  exists task, pubs. split; [done|]. split.
  - etrans; [exact Hs2|]. eapply thread_steps_sys.
    eapply (thread_run _ _ _ _ _ _ []); [cbn; by rewrite E3|].
    eapply (thread_run _ _ _ _ _ _ []); [cbn; by rewrite E4|exact Hr].
  - apply append_ok_txn in E3 as (Hi3 & Hs3 & Hc3); [|done]. apply harden_ok_txn in E4 as (Hi4 & Hs4 & Hc4).
    assert (published_by t [publication t4 a ticket] (cp_csn position)) as Hpub
      by (eexists; split; [done|]; cbn; split_and!; congruence).
    destruct r as [[p|e]|]; [by destruct Hp as [-> ->]|done|subst pubs; eauto].
Qed.
End machine.
