(* ===== verification/Demo.v ===== *)
(** * A runtime to compute with

    Scripts of the callers' steps that evaluate, and a small runtime: one ordered
    object in a B-link tree over a buffer pool of eight frames, a new undo store and
    a new segmented log.  The examples of the later files run on it. *)
From S2P Require Import Prelude StdCollections Ids Crc Store Fs Log WriteSet Txn LogIo CommitAppend Recovery SegmentLog SegmentRecovery Shards Mvcc UndoStore Visibility WriteIntent Admission Frame Translation PageIo Buffer PageBuffer PageDependency PageV4 KeyOrder TreeShape TreeV4 TreeSpec TreeOps TreeRange TreeMap ObjectStore OrderedMvcc OrderedRead OrderedCommit OrderedRecovery Interleaving.

Local Open Scope Z_scope.
Local Open Scope seer_scope.

Lemma triple_eta {A B C} (p : A * B * C) : p = (p.1.1, p.1.2, p.2).
Proof. by destruct p as [[a b] c]. Qed.

(** ** Scripts *)
Inductive Act :=
| ActBegin (x : TxnId)
| ActPut (x : TxnId) (object : StorageObjectDescriptor) (key value : bytes)
| ActDelete (x : TxnId) (object : StorageObjectDescriptor) (key : bytes)
| ActEnter (x : TxnId) (trees : list nat)
| ActStep (x : TxnId) (times : nat).

Section scripts.
Context `{Crc32c} {D : Type} `{LogDevice D} {W : Type} `{ObjectStore W} `{IntentHasher}.
Implicit Types (y z : Sys D W).
Variable objects : nat.

(** At most [times] steps of the thread [x]. *)
Fixpoint act_steps (x : TxnId) (times : nat) y : Sys D W :=
  match times with
  | O => y
  | S times' =>
      match sy_tasks y !! x with
      | Some task =>
          match task_step task (sy_kernel y) with
          | Some (k, task', pubs) => act_steps x times' (run_task x k task' pubs y)
          | None => y
          end
      | None => y
      end
  end.

(** An action, or nothing where it does not apply. *)
Definition act (a : Act) y : Sys D W :=
  match a with
  | ActBegin x =>
      match begin_write x (sy_kernel y) with
      | (k, Ok t) => if decide (is_u64 x) then run_task x k (TaskIdle t) [] y else y
      | (k, Err _) => with_kernel k y
      end
  | ActPut x object key value =>
      match sy_tasks y !! x with
      | Some (TaskIdle t) =>
          if decide (is_u64 (od_id object))
          then run_task x (sy_kernel y) (TaskIdle (stage_ordered_put object key value t).1) [] y else y
      | _ => y
      end
  | ActDelete x object key =>
      match sy_tasks y !! x with
      | Some (TaskIdle t) =>
          if decide (is_u64 (od_id object))
          then run_task x (sy_kernel y) (TaskIdle (stage_ordered_delete object key t).1) [] y else y
      | _ => y
      end
  | ActEnter x trees =>
      match sy_tasks y !! x with
      | Some (TaskIdle t) =>
          if decide (Forall (λ h, (h < objects)%nat) trees) then
            match commit_enter t trees (sy_kernel y) with
            | (k, Ok a) => run_task x k (TaskPreparing t a (a_effects a) ([], None)) [] y
            | (k, Err _) => with_kernel k y
            end
          else y
      | _ => y
      end
  | ActStep x times => act_steps x times y
  end.

Definition acts (l : list Act) y : Sys D W := fold_left (λ y a, act a y) l y.

Lemma act_steps_run x times y : rtc (sys_step objects) y (act_steps x times y).
Proof.
  revert y. induction times as [|times IH]; intros y; cbn; [done|].
  destruct (sy_tasks y !! x) as [task|] eqn:Hx; [|done].
  destruct (task_step task (sy_kernel y)) as [[[k task'] pubs]|] eqn:E; [|done].
  eapply rtc_l; [by eapply sys_task|apply IH].
Qed.

Lemma act_run a y : rtc (sys_step objects) y (act a y).
Proof.
  destruct a as [x|x o key value|x o key|x trees|x times]; cbn [act]; [..|apply act_steps_run].
  - destruct (begin_write x (sy_kernel y)) as [k [t|e]] eqn:E; [|apply rtc_once; by eapply sys_begin_refused].
    destruct (decide _); [|done]. apply rtc_once. by eapply sys_begin.
  - destruct (sy_tasks y !! x) as [[t| | | | |]|] eqn:Hx; try done. destruct (decide _); [|done].
    apply rtc_once. by eapply sys_put.
  - destruct (sy_tasks y !! x) as [[t| | | | |]|] eqn:Hx; try done. destruct (decide _); [|done].
    apply rtc_once. by eapply sys_delete.
  - destruct (sy_tasks y !! x) as [[t| | | | |]|] eqn:Hx; try done. destruct (decide _); [|done].
    destruct (commit_enter t trees (sy_kernel y)) as [k [a|e]] eqn:E; apply rtc_once;
      [by eapply sys_enter|by eapply sys_enter_refused].
Qed.

Lemma acts_run l y : rtc (sys_step objects) y (acts l y).
Proof.
  revert y. induction l as [|a l IH]; intros y; cbn; [done|]. etrans; [apply act_run|apply IH].
Qed.
End scripts.

(** ** The runtime *)
Definition Forest8 := Forest (BufferPool MemoryPages).

#[global] Instance demo_crc : Crc32c := castagnoli_crc.
#[global] Instance demo_page_hasher : PageHasher := λ k, pk_page k.
#[global] Instance demo_intent_hasher : IntentHasher := λ k, k.1.

Definition demo_pool : BufferPool MemoryPages :=
  {| bp_frames := repeat (FrameSlot_new 256) 8; bp_translation := TranslationTable_new; bp_io := demo_io;
     bp_clock := 0; bp_page_size := 256 |}.
Definition demo_forest : Forest8 :=
  {| f_buffer := (tree_create demo_object demo_pool).1; f_trees := [demo_tree]; f_deps := DependencyTable_new |}.

Definition demo_objects : list StorageObjectDescriptor := [demo_object].

Definition demo_engine : Engine Forest8 :=
  {| e_objects := demo_forest; e_undo := undo_demo_st; e_fs := undo_demo_created.1 |}.

Definition demo_log : SegmentedLog :=
  match (create demo_store 4096 demo_disk).2 with
  | Ok d => d
  | Err _ =>
      {| sl_store := []; sl_segment_bytes := 0; sl_poisoned := true; sl_fs := demo_disk;
         sl_state := {| ss_segment := 0; ss_offset := 0; ss_dirty_segments := []; ss_directory_dirty := false |} |}
  end.

Definition demo_kernel : Kernel SegmentedLog Forest8 :=
  {| k_admission := Admission_new; k_appender := CommitAppender_new (DurableLog_new demo_log) 0;
     k_statuses := StatusTable_new; k_frontier := Frontier_new 0; k_intents := WriteIntentTable_new;
     k_dependencies := true; k_engine := demo_engine |}.

Definition demo_start : Sys SegmentedLog Forest8 :=
  {| sy_kernel := demo_kernel; sy_tasks := ∅; sy_published := [] |}.

Definition demo_applier : OrderedRecoveryApplier Forest8 :=
  {| ap_statuses := StatusTable_new; ap_frontier := Frontier_new 0; ap_intents := WriteIntentTable_new;
     ap_dependencies := false; ap_poisoned := false; ap_fenced := false; ap_engine := demo_engine |}.

(** ** It is well-formed *)
Lemma demo_pool_created : tree_create demo_object demo_pool = (f_buffer demo_forest, Ok demo_tree).
Proof.
  rewrite (surjective_pairing (tree_create demo_object demo_pool)) at 1.
  apply pair_equal_spec. split; [reflexivity|vm_compute; reflexivity].
Qed.

Lemma demo_forest_repr : forest_repr demo_forest [(demo_object, [])].
Proof.
  split; [apply NoDup_singleton|].
  assert (pb_repr demo_pool ∅ [] ∅) as H0 by (apply (BufferPool_new_repr 8 256 demo_io); [reflexivity|lia|reflexivity]).
  assert (∃ V T, tree_repr {| w_buffer := f_buffer demo_forest; w_tree := demo_tree; w_deps := DependencyTable_new |} V T [])
    as (V & T & Hr).
  { apply (tree_create_repr (Hlaws := pool_buffer_laws) demo_object demo_pool ∅);
      [done|reflexivity|apply demo_pool_created]. }
  exists V. split; [apply Hr|]. split; [apply Hr|]. constructor; [|constructor]. split; [reflexivity|by exists T].
Qed.

Lemma demo_undo_inv : undo_inv (e_fs demo_engine) (e_undo demo_engine) [] [].
Proof.
  apply (undo_create_inv undo_demo_store undo_demo_disk); [done|].
  rewrite (surjective_pairing (undo_create undo_demo_store undo_demo_disk)).
  apply pair_equal_spec. split; [reflexivity|vm_compute; reflexivity].
Qed.

Lemma demo_log_created : create demo_store 4096 demo_disk = ((create demo_store 4096 demo_disk).1, Ok demo_log).
Proof.
  rewrite (surjective_pairing (create demo_store 4096 demo_disk)) at 1.
  apply pair_equal_spec. split; [reflexivity|vm_compute; reflexivity].
Qed.

(** ** Two writers, the second published first; then a third over the first's key *)
Definition demo_script_wait : list Act :=
  [ActBegin 7; ActPut 7 demo_object [u8 1] [u8 10]; ActBegin 8; ActPut 8 demo_object [u8 2] [u8 20];
   ActEnter 7 [0%nat]; ActStep 7 2; ActEnter 8 [0%nat]; ActStep 8 9].
Definition demo_script_done : list Act := [ActStep 7 9; ActStep 8 9].
Definition demo_script_third : list Act :=
  [ActBegin 9; ActPut 9 demo_object [u8 1] [u8 11]; ActBegin 10].
Definition demo_script_last : list Act := [ActEnter 9 [0%nat]; ActStep 9 9].

Local Abbreviation demo_acts := (acts (length demo_objects)).
Definition demo_waiting : Sys SegmentedLog Forest8 := demo_acts demo_script_wait demo_start.
Definition demo_settled : Sys SegmentedLog Forest8 := demo_acts demo_script_done demo_waiting.
Definition demo_reading : Sys SegmentedLog Forest8 := demo_acts demo_script_third demo_settled.
Definition demo_end : Sys SegmentedLog Forest8 := demo_acts demo_script_last demo_reading.

(** ** A replay of the first two commits *)
Definition demo_recovered (x : TxnId) (csn : CommitSeq) (key value : Z) : RecoveredTransaction :=
  {| rt_txn_id := x; rt_position := {| cp_csn := csn; cp_lsn := 100 * csn |};
     rt_mutations := [ordered_put x 0 1 [u8 key] [u8 value]] |}.

Definition demo_replay_one : OrderedRecoveryApplier Forest8 :=
  (replay (demo_recovered 7 1 1 10) [0%nat] demo_applier).1.
