(* ===== verification/Settling.v ===== *)
(** * What the steps of the callers leave of the frontier

    Only a publication moves the visible frontier; every other step leaves it, or
    fences the runtime and marks it for recovery.  A fence is never lifted. *)
From S2P Require Import Prelude StdCollections Ids Crc Log WriteSet Txn LogIo CommitAppend Shards Mvcc UndoStore Visibility WriteIntent Admission Buffer PageDependency PageV4 KeyOrder TreeV4 TreeRange ObjectStore OrderedMvcc OrderedRead OrderedCommit Interleaving.

Local Open Scope Z_scope.
Local Open Scope seer_scope.

Section settling.
Context `{Crc32c} {D : Type} `{LogDevice D} {W : Type} `{ObjectStore W} `{IntentHasher}.
Implicit Types (k : Kernel D W) (t : Transaction) (y z : Sys D W).
Local Abbreviation vis k := (vf_visible (k_frontier k)).

Lemma ensure_open_fenced k : fenced k → ensure_open k = Err CommitFenced.
Proof. unfold fenced, ensure_open, is_fenced, ensure_read_admission. by intros ->. Qed.

Lemma admit_fenced k : fenced k → is_ok (admit_visibility (k_admission k)) = false.
Proof. unfold fenced, admit_visibility. intros ->. by destruct (ra_poisoned _). Qed.

(** [k'] is [k] as far as the frontier shows, or newly fenced. *)
Definition settled k k' : Prop :=
  k_frontier k' = k_frontier k ∧ ra_recovery_required (k_admission k') = ra_recovery_required (k_admission k) ∨
  fenced k' ∧ vis k' = vis k ∧ vf_recovery_required (k_frontier k') = true.

Lemma settled_vis k k' : settled k k' → vis k' = vis k.
Proof. by intros [[-> _]|(_ & ? & _)]. Qed.

Lemma settled_fenced k k' : settled k k' → fenced k → fenced k'.
Proof. unfold fenced. by intros [[_ ->]|(? & _)]. Qed.

Lemma settled_refl k : settled k k.
Proof. by left. Qed.

Lemma settled_fence k k0 : k_frontier k0 = k_frontier k → settled k (fence_admission k0).
Proof. intros E. right. unfold fence_admission. cbn. by rewrite E. Qed.

Lemma settled_trans k1 k2 k3 : settled k1 k2 → settled k2 k3 → settled k1 k3.
Proof.
  intros [[E1 F1]|(F1 & V1 & R1)] [[E2 F2]|(F2 & V2 & R2)].
  - left. split; congruence.
  - right. rewrite <-E1 at 1. done.
  - right. unfold fenced in *. rewrite E2. split_and!; congruence.
  - right. split_and!; [done|congruence|done].
Qed.

Lemma settled_leave k : settled k (leave k).
Proof.
  left. split; [done|]. unfold leave, release_commit. cbn. destruct (ra_poisoned _); [done|]. by destruct (negb _).
Qed.

Lemma settled_abandon a k k' : settled k k' → settled k (abandon a k').
Proof. intros Hs. eapply settled_trans; [exact Hs|]. exact (settled_leave (drop_guard (a_guard a) k')). Qed.

Lemma apply_one_dep lsn a plan t k :
  apply_one lsn a plan t k =
    match apply_prepared_inner (k_statuses k) plan.1 (a_guard a) plan.2
            (if k_dependencies k then Some {| pm_required_wal := lsn |} else None) (k_engine k) with
    | (e, Ok _) => (with_engine e k, t, Ok tt)
    | (e, Err error) => (fence_unresolved t (with_engine e k), Err (CommitInstall error))
    end.
Proof. unfold apply_one, apply_prepared_with_dependencies, apply_prepared. by destruct (k_dependencies k). Qed.

Lemma prepare_one_settled t a e plans k k' r : prepare_one t a e plans k = (k', r) → settled k k'.
Proof.
  unfold prepare_one. destruct (_ !! _); [|by intros [= <- <-]; left].
  destruct (prepare _ _ _ _ _ _) as [s [p|err]]; [by intros [= <- <-]; left|].
  destruct (prepare_failure_requires_fence err); intros [= <- <-]; [by apply settled_fence|by left].
Qed.

Lemma append_settled t k k' t' r : commit_append t k = (k', t', r) → settled k k'.
Proof.
  unfold commit_append. destruct (begin_validation t) as [t1 [[]|e]]; [|by intros [= <- <- <-]; left].
  destruct (append_validated _ _) as [[ca t2] [ticket|e]]; [by intros [= <- <- <-]; left|].
  case_bool_decide; [intros [= <- <- <-]; by apply settled_fence|]. unfold cleanup_clean_append_failure.
  destruct (status_abort _ _) as [st [[]|e']]; [|intros [= <- <- <-]; by apply settled_fence].
  case_bool_decide; [by intros [= <- <- <-]; left|].
  destruct (abort t2) as [t3 [[]|e']]; intros [= <- <- <-]; [by left|by apply settled_fence].
Qed.

Lemma harden_settled ticket required t k k' t' r : commit_harden ticket required t k = (k', t', r) → settled k k'.
Proof.
  unfold commit_harden.
  destruct (appender_sync_through _ _) as [ca [l|e]]; [|intros [= <- <- <-]; by apply settled_fence].
  set (k1 := if k_dependencies (with_appender ca k) then _ else _).
  assert (k_frontier k1 = k_frontier k ∧ k_admission k1 = k_admission k) as [Ef Ea]
    by (unfold k1; by destruct (k_dependencies _)).
  clearbody k1. destruct (mark_durable _ _) as [t1 [position|e]]; [|intros [= <- <- <-]; by apply settled_fence].
  destruct required as [version|]; [|intros [= <- <- <-]; left; by rewrite Ef, Ea].
  destruct (engine_sync _ _) as [e' [durable|error]]; intros [= <- <- <-]; [|by apply settled_fence].
  left. cbn. by rewrite Ef, Ea.
Qed.

Lemma apply_one_settled lsn a plan t k k' t' r : apply_one lsn a plan t k = (k', t', r) → settled k k'.
Proof.
  rewrite apply_one_dep.
  destruct (apply_prepared_inner _ _ _ _ _ _) as [s [r'|err]]; intros [= <- <- <-]; [by left|by apply settled_fence].
Qed.

Lemma publish_err_settled csn t k k' t' e : commit_publish csn t k = (k', t', Err e) → settled k k'.
Proof.
  unfold commit_publish, publish_commit. cbn [w_statuses w_frontier].
  destruct (admit_visibility _); [|intros [= <- <- <-]; by apply settled_fence].
  destruct (status_commit _ _ _) as [st [[]|e']]; [|intros [= <- <- <-]; by apply settled_fence].
  destruct (mark_ready _ _ _) as [f [v|e']] eqn:Em; [done|]. apply mark_ready_Err in Em.
  intros [= <- <- <-]. right. cbn. by rewrite Em.
Qed.

Lemma wait_settled csn t k k' t' r : commit_wait csn t k = (k', t', r) → settled k k'.
Proof. unfold commit_wait. destruct (_.2) as [[]|]; intros [= <- <- <-]; [by left|by apply settled_fence|by left]. Qed.

Lemma complete_settled t k k' t' r : commit_complete t k = (k', t', r) → settled k k'.
Proof.
  unfold commit_complete. destruct (admit_visibility _); [|intros [= <- <- <-]; by apply settled_fence].
  destruct (mark_visible t) as [t1 [[]|e]]; [|intros [= <- <- <-]; by apply settled_fence].
  destruct (release t1) as [t2 [[]|e]]; intros [= <- <- <-]; [by left|by apply settled_fence].
Qed.

Lemma drop_settled g k0 k : k_frontier k0 = k_frontier k → k_admission k0 = k_admission k → settled k (leave (drop_guard g k0)).
Proof. intros Ef Ea. eapply settled_trans; [|apply settled_leave]. left. cbn. by rewrite Ef, Ea. Qed.

Lemma begin_settled x k k' r : begin_write x k = (k', r) → settled k k'.
Proof.
  unfold begin_write. destruct (ensure_open k) as [[]|]; [|by intros [= <- <-]; left].
  destruct (status_begin _ _) as [st [[]|e]]; by intros [= <- <-]; left.
Qed.

Lemma abort_settled t k k' t' r : coordinator_abort t k = (k', t', r) → settled k k'.
Proof.
  unfold coordinator_abort. destruct (tx_phase t); try (by intros [= <- <- <-]; left);
    (destruct (status_abort _ _) as [st [[]|e]]; [|by intros [= <- <- <-]; left]);
    (destruct (abort t) as [t1 [[]|e]]; intros [= <- <- <-]; [by left|by apply settled_fence]).
Qed.

Lemma admit_commit_keeps adm adm' r :
  admit_commit adm = (adm', r) → ra_recovery_required adm' = ra_recovery_required adm.
Proof. unfold admit_commit. repeat case_match; by intros [= <- <-]. Qed.

Lemma enter_settled t trees k k' r : commit_enter t trees k = (k', r) → settled k k'.
Proof.
  unfold commit_enter. destruct (ensure_open k) as [[]|]; [|by intros [= <- <-]; left].
  destruct (admit_commit (k_admission k)) as [adm ra] eqn:Ea.
  assert (settled k (with_admission adm k)) as Hs by (left; split; [done|]; by eapply admit_commit_keeps).
  destruct (map_err CommitAdmission ra) as [[]|e]; [|by intros [= <- <-]].
  assert (∀ i, settled k (leave (with_intents i (with_admission adm k)))) as Hl
    by (intros i; eapply settled_trans; [|apply settled_leave]; exact Hs).
  destruct (negb _); [intros [= <- <-]; exact (Hl (k_intents k))|].
  destruct (final_effects t) as [effects|e]; [|intros [= <- <-]; exact (Hl (k_intents k))].
  destruct (try_acquire (tx_id t) effects _) as [i [g|e]]; [|by intros [= <- <-]].
  destruct (preflight t trees effects _) as [objects|e]; [|intros [= <- <-]; apply Hl].
  destruct (require_active_status (tx_id t) _) as [[]|e]; intros [= <- <-]; [exact Hs|apply Hl].
Qed.

(** A step inside [commit] publishes nothing and settles, or it is the publication. *)
Lemma task_publishes task k k' task' new :
  task_step task k = Some (k', task', new) →
  new = [] ∧ settled k k' ∨
  ∃ t a ticket position, task = TaskApplying t a ticket position [] ∧
    commit_publish (at_csn ticket) t k = (k', t, Ok tt) ∧
    task' = TaskWaiting t a ticket position ∧ new = [publication t a ticket].
Proof.
  intros E.
  destruct task as [t|t a [|e rest] plans|t a plans ticket|t a ticket pos [|plan todo]|t a ticket pos|t a ticket pos];
    cbn [task_step] in E; [done|..].
  - destruct (commit_append t k) as [[k1 t1] [ticket|e]] eqn:Eh; injection E as <- <- <-;
      apply append_settled in Eh; left; auto using settled_abandon.
  - destruct (prepare_one t a e plans k) as [k1 [p|err]] eqn:Eh; injection E as <- <- <-;
      apply prepare_one_settled in Eh; left; auto using settled_abandon.
  - destruct (commit_harden ticket plans.2 t k) as [[k1 t1] [position|e]] eqn:Eh; injection E as <- <- <-;
      apply harden_settled in Eh; left; auto using settled_abandon.
  - destruct (commit_publish _ t k) as [[k1 t1] [[]|e]] eqn:Eh; injection E as <- <- <-.
    + pose proof (publish_txn _ _ _ _ _ Eh) as ->. right. by exists t, a, ticket, pos.
    + left. split; [done|]. apply settled_abandon. by eapply publish_err_settled.
  - destruct (apply_one _ a plan t k) as [[k1 t1] [[]|e]] eqn:Eh; injection E as <- <- <-;
      apply apply_one_settled in Eh; left; auto using settled_abandon.
  - destruct (commit_wait _ t k) as [[k1 t1] [[]|]] eqn:Eh; [..|done]; injection E as <- <- <-;
      apply wait_settled in Eh; left; auto using settled_abandon.
  - destruct (commit_complete t k) as [[k1 t1] [[]|e]] eqn:Eh; injection E as <- <- <-;
      apply complete_settled in Eh; left; (split; [done|]); [|by apply settled_abandon].
    eapply settled_trans; [|apply settled_leave]. exact Eh.
Qed.

(** A step of the machine publishes nothing and settles, or it is a publication. *)
Lemma step_publishes n y z :
  sys_step n y z →
  sy_published z = sy_published y ∧ settled (sy_kernel y) (sy_kernel z) ∨
  ∃ x t a ticket position, sy_tasks y !! x = Some (TaskApplying t a ticket position []) ∧
    commit_publish (at_csn ticket) t (sy_kernel y) = (sy_kernel z, t, Ok tt) ∧
    z = run_task x (sy_kernel z) (TaskWaiting t a ticket position) [publication t a ticket] y.
Proof.
  intros Hs. destruct Hs as [x k t H64 E|x k e E|x t o key value Hx|x t o key Hx|x t trees k a Hx Htr E
    |x t trees k e Hx Htr E|x task k task' new Hx E|x t k t' r Hx E|tree key reader snap e r Hd E
    |fuel tree c limit e c' r Hd Hc Hl E]; cbn; try (by left; split; [|left]).
  - left. by apply begin_settled in E.
  - left. by apply begin_settled in E.
  - left. by apply enter_settled in E.
  - left. by apply enter_settled in E.
  - apply task_publishes in E as [[-> ?]|(t & a & ticket & position & -> & Hp & -> & ->)]; [by left|].
    right. by exists x, t, a, ticket, position.
  - left. by apply abort_settled in E.
Qed.

(** A fence is never lifted, and stops the publications. *)
Lemma sys_step_fenced n y z :
  fenced (sy_kernel y) → sys_step n y z →
  fenced (sy_kernel z) ∧ sy_published z = sy_published y ∧ vis (sy_kernel z) = vis (sy_kernel y).
Proof.
  intros Hf [[Hp Hs]|(x & t & a & ticket & position & _ & Hp & _)]%step_publishes.
  - split; [by eapply settled_fenced|]. split; [done|]. by apply settled_vis.
  - unfold commit_publish in Hp. pose proof (admit_fenced _ Hf). by destruct (admit_visibility _).
Qed.

Lemma sys_steps_fenced n y z :
  fenced (sy_kernel y) → rtc (sys_step n) y z → fenced (sy_kernel z) ∧ sy_published z = sy_published y.
Proof.
  intros Hf Hs. induction Hs as [y|y u z Hu _ IH]; [done|].
  destruct (sys_step_fenced _ _ _ Hf Hu) as (Hfu & <- & _). by apply IH.
Qed.
End settling.
