(* ===== verification/LaneStages.v ===== *)
(** * The stages of a commit and the append lane

    What each step of a caller keeps of its transaction and does to the lane: two
    stages call it, the append and the log barrier, and the others leave it. *)
From S2P Require Import Prelude StdCollections Ids Crc Log WriteSet Txn LogIo CommitAppend Shards Mvcc UndoStore Visibility WriteIntent Admission Buffer PageDependency PageV4 KeyOrder TreeV4 TreeRange ObjectStore OrderedMvcc OrderedRead OrderedCommit Interleaving Settling.

Local Open Scope Z_scope.
Local Open Scope seer_scope.

Section stages.
Context `{Crc32c} {D : Type} `{LogDevice D} {W : Type} `{ObjectStore W} `{IntentHasher}.
Implicit Types (k : Kernel D W) (ca : CommitAppender D) (h : list Appended).
Local Abbreviation durable ca := (dl_durable_lsn (ca_log ca)).

(** ** What the stages keep of a transaction *)
Definition keeps (t t' : Transaction) : Prop :=
  tx_id t' = tx_id t ∧ tx_mutations t' = tx_mutations t ∧ (tx_phase t' = Active → tx_phase t = Active).

Lemma keeps_refl t : keeps t t.
Proof. done. Qed.

Lemma keeps_trans t1 t2 t3 : keeps t1 t2 → keeps t2 t3 → keeps t1 t3.
Proof. intros (? & ? & ?) (? & ? & ?). split_and!; [congruence..|auto]. Qed.

Lemma keeps_phase t p : p ≠ Active → keeps t (with_phase p t).
Proof. by intros Hp. Qed.

Lemma recovery_keeps t : keeps t (mark_recovery_required t).1.
Proof. unfold mark_recovery_required. destruct (tx_phase t) eqn:E; done. Qed.

Lemma unresolved_keeps t :
  keeps t (if bool_decide (tx_phase t = RecoveryRequired) then t else (mark_recovery_required t).1).
Proof. case_bool_decide; [done|]. apply recovery_keeps. Qed.

Lemma transition_keeps expected next t : next ≠ Active → keeps t (transition expected next t).1.
Proof. intros Hn. unfold transition. by destruct (require_phase _ _). Qed.

Lemma mark_durable_keeps lsn t : keeps t (mark_durable lsn t).1.
Proof. unfold mark_durable. repeat (case_match; simplify_eq/=; try done). Qed.

Lemma append_validated_keeps ca t ca' t' r : append_validated ca t = (ca', t', r) → keeps t t'.
Proof.
  unfold append_validated, mark_prepared, mark_wal_appended, mark_recovery_required, abort, transition.
  intros E. repeat (case_match; simplify_eq/=; try done).
Qed.

(** ** The stages and the lane *)
Lemma append_ticket ca t ca' t' ticket :
  append_validated ca t = (ca', t', Ok ticket) → at_txn_id ticket = tx_id t ∧ tx_phase t' = WalAppended.
Proof.
  intros (csn & batch & fx & log & _ & _ & _ & Hb & Hl & _ & ->)%append_validated_cases.
  apply for_commit_Ok in Hb as (_ & _ & _ & _ & _ & _ & Et & _).
  apply log_append_cases in Hl as [(_ & _ & [[? _]|[? _]])|(_ & _ & d & [lsn|e] & _ & _ & _ & _ & _ & Hr)]; try done.
  injection Hr as ->. done.
Qed.

Lemma lane_durable op ca ca' h : lane_exec op ca = (ca', h) → durable ca ≤ durable ca'.
Proof.
  destruct op as [t|lsn]; cbn.
  - destruct (append_validated ca t) as [[ca1 t1] r] eqn:E. apply append_validated_cases in E.
    assert (durable ca ≤ durable ca1); [|destruct r; by intros [= <- <-]].
    assert (∀ batch log rl, log_append batch (ca_log ca) = (log, rl) →
      durable ca ≤ dl_durable_lsn log) as Hlog.
    { intros batch log rl [(_ & -> & _)|(_ & _ & d & r' & _ & _ & -> & _)]%log_append_cases; lia. }
    destruct r as [ticket|[]]; try done; try (destruct E as [-> _]; lia).
    + destruct E as (csn & batch & fx & log & _ & _ & _ & _ & Hl & -> & _). by apply Hlog in Hl.
    + destruct E as (batch & log & Hl & _ & -> & _). by apply Hlog in Hl.
    + destruct E as (csn & batch & log & op & src & _ & _ & _ & Hl & _ & _ & -> & _). by apply Hlog in Hl.
  - intros [= <- <-]. unfold appender_sync_through. destruct (log_sync_through lsn _) as [log r] eqn:E. cbn.
    apply log_sync_cases in E as [(_ & -> & _)|(_ & _ & d & [[]|e] & _ & _ & _ & E)]; [lia| |];
      destruct E as (_ & _ & ->); lia.
Qed.

Lemma append_stage t k k' t' r :
  tx_phase t = Active → commit_append t k = (k', t', r) →
  keeps t t' ∧ ∃ t1, tx_id t1 = tx_id t ∧ tx_mutations t1 = tx_mutations t ∧
  lane_exec (LaneAppend t1) (k_appender k) = (k_appender k',
    match r with Ok ticket => [{| ap_ticket := ticket; ap_mutations := tx_mutations t |}] | Err _ => [] end) ∧
  ∀ ticket, r = Ok ticket → at_txn_id ticket = tx_id t ∧ tx_phase t' ≠ Active.
Proof.
  intros Hp. unfold commit_append, begin_validation.
  destruct (transition_cases Active Validating t) as [[-> _]|[_ ?]]; [|done].
  destruct (append_validated _ _) as [[ca t1] ra] eqn:E. pose proof (append_validated_keeps _ _ _ _ _ E) as Hk.
  assert (keeps t t1) as Hk1 by (by eapply keeps_trans; [|exact Hk]).
  intros Er. enough (keeps t t' ∧ k_appender k' = ca ∧ match ra with Ok ticket => r = Ok ticket ∧ t' = t1 | Err _ => ∃ e, r = Err e end)
    as (Hkeep & -> & Hr).
  { split; [done|]. exists (with_phase Validating t). cbn [lane_exec]. rewrite E.
    destruct ra as [ticket|e]; [|destruct Hr as [e' ->]; done]. destruct Hr as [-> ->]. split_and!; try done.
    intros tk [= <-]. apply append_ticket in E as [? ->]. done. }
  destruct ra as [ticket|e]; [by injection Er as <- <- <-|]. revert Er. case_bool_decide.
  { intros [= <- <- <-]. split_and!; [by eapply keeps_trans, unresolved_keeps|done|eauto]. }
  unfold cleanup_clean_append_failure. destruct (status_abort _ _) as [st [[]|e']].
  2:{ intros [= <- <- <-]. split_and!; [by eapply keeps_trans, unresolved_keeps|done|eauto]. }
  case_bool_decide; [intros [= <- <- <-]; split_and!; [done..|eauto]|].
  unfold abort. destruct (tx_phase t1) eqn:Ep1; intros [= <- <- <-]; (split_and!; [|done|by eauto]);
    eapply keeps_trans; try exact Hk1; try done; apply unresolved_keeps.
Qed.

Lemma harden_stage ticket required t k k' t' r :
  commit_harden ticket required t k = (k', t', r) →
  keeps t t' ∧ lane_exec (LaneSync (at_decision_lsn ticket)) (k_appender k) = (k_appender k', []) ∧
  ∀ position, r = Ok position → at_decision_lsn ticket ≤ durable (k_appender k').
Proof.
  unfold commit_harden. cbn [lane_exec]. unfold appender_sync_through.
  destruct (log_sync_through _ _) as [log rl] eqn:El. apply log_sync_cases in El. cbn [fst].
  destruct rl as [[]|e]; [|intros [= <- <- <-]; split_and!; [apply unresolved_keeps|done..]].
  assert (at_decision_lsn ticket ≤ dl_durable_lsn log) as Hle.
  { destruct El as [(_ & _ & ? & _)|(_ & _ & d & [[]|e] & _ & _ & _ & E)]; [done| |by destruct E as (_ & ? & _)].
    destruct E as (_ & _ & ->). lia. }
  set (k1 := if k_dependencies (with_appender _ k) then _ else _).
  assert (k_appender k1 = with_log log (k_appender k)) as Hk1 by (unfold k1; by destruct (k_dependencies _)).
  clearbody k1. pose proof (mark_durable_keeps (at_decision_lsn ticket) t) as Hk.
  destruct (mark_durable _ t) as [t1 [position|e]]; cbn [fst] in Hk.
  2:{ intros [= <- <- <-]. cbn. rewrite Hk1. split_and!; [by eapply keeps_trans, unresolved_keeps|done..]. }
  destruct required as [v|]; [|intros [= <- <- <-]; rewrite Hk1; by split_and!].
  destruct (engine_sync v _) as [e [d|err]]; intros [= <- <- <-]; cbn; rewrite Hk1; [by split_and!|].
  split_and!; [by eapply keeps_trans, unresolved_keeps|done..].
Qed.

(** The stages that do not call the lane. *)
Definition off_lane (task : Task) : Prop :=
  match task with
  | TaskPreparing _ _ [] _ | TaskAppended _ _ _ _ => False
  | _ => True
  end.

Lemma complete_stage t k k' t' r :
  commit_complete t k = (k', t', r) → keeps t t' ∧ k_appender k' = k_appender k.
Proof.
  unfold commit_complete. destruct (admit_visibility _); [|intros [= <- <- <-]; split; [apply unresolved_keeps|done]].
  pose proof (transition_keeps DurableDecision Visible t ltac:(done)) as Hv. unfold mark_visible.
  destruct (transition _ _ t) as [t1 [[]|e]]; cbn [fst] in Hv;
    [|intros [= <- <- <-]; split; [by eapply keeps_trans, unresolved_keeps|done]].
  unfold release. destruct (tx_phase t1) eqn:Ep; intros [= <- <- <-]; (split; [|done]);
    (eapply keeps_trans; [exact Hv|]); try done; apply unresolved_keeps.
Qed.

Lemma off_lane_step task k k' task' new :
  off_lane task → task_step task k = Some (k', task', new) →
  keeps (task_txn task) (task_txn task') ∧ k_appender k' = k_appender k.
Proof.
  intros Ho E.
  destruct task as [t|t a [|e rest] plans|t a plans ticket|t a ticket pos [|plan todo]|t a ticket pos|t a ticket pos];
    cbn [task_step] in E; try done.
  - unfold prepare_one in E. repeat (case_match; simplify_eq/=; try done).
  - unfold commit_publish in E. destruct (admit_visibility _).
    + destruct (publish_commit _ _ _ _) as [w [v|e]]; injection E as <- <- <-; [done|]. split; [apply unresolved_keeps|done].
    + injection E as <- <- <-. split; [apply unresolved_keeps|done].
  - rewrite apply_one_dep in E. destruct (apply_prepared_inner _ _ _ _ _ _) as [s [r|err]]; injection E as <- <- <-;
      [done|]. split; [apply unresolved_keeps|done].
  - unfold commit_wait in E. destruct (_.2) as [[v|e]|]; [| |done]; injection E as <- <- <-; [done|].
    split; [apply unresolved_keeps|done].
  - destruct (commit_complete t k) as [[k1 t1] [[]|e]] eqn:Eh; apply complete_stage in Eh; by injection E as <- <- <-.
Qed.

Lemma enter_appender t trees k k' r : commit_enter t trees k = (k', r) → k_appender k' = k_appender k.
Proof. unfold commit_enter. intros E. repeat (case_match; simplify_eq/=; try done). Qed.

Lemma begin_appender x k k' r : begin_write x k = (k', r) → k_appender k' = k_appender k.
Proof. unfold begin_write. intros E. repeat (case_match; simplify_eq/=; try done). Qed.

Lemma abort_stage t k k' t' r : coordinator_abort t k = (k', t', r) → keeps t t' ∧ k_appender k' = k_appender k.
Proof.
  unfold coordinator_abort, abort. intros E.
  repeat (case_match; simplify_eq/=; try (by split; [|done]); try (by split; [apply unresolved_keeps|])).
Qed.

End stages.
