(* ===== verification/IsolationInv.v ===== *)
(** * The invariant of concurrent callers

    What holds between any two steps of the threads of [Interleaving.v] as long as
    the runtime is not fenced: the published commits spell the chains of the
    store, every record belongs to a commit or to a thread that is applying its
    effects, and every thread's plans still fit. *)
From S2P Require Import Prelude StdCollections Ids Crc Fs Log WriteSet Txn LogIo CommitAppend Shards Mvcc UndoStore Visibility WriteIntent Admission Buffer PageDependency PageV4 KeyOrder TreeV4 TreeRange ObjectStore OrderedMvcc OrderedRead OrderedCommit Versions InstallSpec Interleaving Settling.

Local Open Scope Z_scope.
Local Open Scope seer_scope.

(** ** The abstract store

    The published commits, newest first, spell the history of every key. *)
Definition effect_value (k : SlotKey) (es : list FinalEffect) : option MvccValue :=
  intended_value <$> List.find (λ e, bool_decide (slot_of e = k)) es.

Definition history (pubs : list Publication) : Histories := λ k,
  omap (λ c, (λ v, (pb_csn c, v)) <$> effect_value k (pb_effects c)) pubs.

Lemma effect_value_Some k es v :
  effect_value k es = Some v → ∃ e, e ∈ es ∧ slot_of e = k ∧ v = intended_value e.
Proof.
  unfold effect_value. destruct (List.find _ es) as [e|] eqn:E; [|done]. intros [= <-].
  apply List.find_some in E as [Hin Hk]. apply bool_decide_eq_true in Hk. exists e.
  by rewrite list_elem_of_In.
Qed.

Lemma effect_value_None k es : effect_value k es = None ↔ k ∉ slot_of <$> es.
Proof.
  unfold effect_value. rewrite fmap_None. split.
  - intros E (e & -> & Hin)%list_elem_of_fmap. rewrite list_elem_of_In in Hin.
    apply (List.find_none _ _ E) in Hin. by rewrite bool_decide_eq_true_2 in Hin.
  - intros Hk. destruct (List.find _ es) as [e|] eqn:E; [|done]. exfalso.
    apply List.find_some in E as [Hin He]. apply bool_decide_eq_true in He. apply Hk.
    apply list_elem_of_fmap. exists e. by rewrite list_elem_of_In.
Qed.

Lemma effect_value_unique k es e :
  NoDup (slot_of <$> es) → e ∈ es → slot_of e = k → effect_value k es = Some (intended_value e).
Proof.
  intros Hnd Hin Hk. destruct (effect_value k es) as [v|] eqn:E.
  - apply effect_value_Some in E as (e' & Hin' & Hk' & ->). f_equal. f_equal.
    apply list_elem_of_lookup in Hin as [i Hi], Hin' as [j Hj].
    assert (i = j) as ->; [|congruence].
    eapply (NoDup_lookup _ i j k Hnd); rewrite list_lookup_fmap; [rewrite Hi|rewrite Hj]; cbn; congruence.
  - apply effect_value_None in E. exfalso. apply E. rewrite <-Hk. by apply list_elem_of_fmap_2.
Qed.

Lemma history_cons p pubs k :
  history (p :: pubs) k = match effect_value k (pb_effects p) with
                          | Some v => (pb_csn p, v) :: history pubs k
                          | None => history pubs k
                          end.
Proof. unfold history. cbn. by destruct (effect_value k (pb_effects p)). Qed.

Lemma history_csn pubs k v : v ∈ history pubs k → ∃ p, p ∈ pubs ∧ v.1 = pb_csn p ∧ k ∈ slot_of <$> pb_effects p.
Proof.
  intros (p & Hp & Hv)%list_elem_of_omap. exists p. split; [done|].
  destruct (effect_value k (pb_effects p)) as [w|] eqn:E; [|done]. injection Hv as <-. split; [done|].
  apply effect_value_Some in E as (e & He & <- & _). by apply list_elem_of_fmap_2.
Qed.

(** ** What the threads know *)
Record View := {
  v_statuses : Statuses;
  v_undo : list MvccRecord;
  v_current : Currents;
  v_history : Histories;
  v_visible : CommitSeq;
  v_next : option CommitSeq;
  v_csns : list CommitSeq
}.

Definition task_attempt (task : Task) : option Attempt :=
  match task with
  | TaskIdle _ => None
  | TaskPreparing _ a _ _ | TaskAppended _ a _ _ | TaskApplying _ a _ _ _
  | TaskWaiting _ a _ _ | TaskCompleting _ a _ _ => Some a
  end.

(** The keys a task holds write intents on. *)
Definition held (task : Task) : list IntentKey :=
  match task_attempt task with Some a => g_keys (a_guard a) | None => [] end.

(** The effects whose records are in the trees, not published yet. *)
Definition applied (task : Task) : list FinalEffect :=
  match task with
  | TaskApplying _ a _ _ todo => take (length (a_effects a) - length todo) (a_effects a)
  | _ => []
  end.

Definition holdings (tasks : gmap TxnId Task) : list (TxnId * IntentKey) :=
  map_to_list tasks ≫= λ p, (p.1,.) <$> held p.2.

Section isolation.
Context (Ds : list StorageObjectDescriptor).
Implicit Types (V : View) (x : TxnId) (t : Transaction) (task : Task).

Record attempt_ok x t (a : Attempt) : Prop := {
  ao_id : tx_id t = x;
  ao_txn : g_txn (a_guard a) = x;
  ao_keys : g_keys (a_guard a) = slot_of <$> a_effects a;
  ao_held : g_released (a_guard a) = false;
  ao_sorted : StronglySorted lt_ord (slot_of <$> a_effects a);
  ao_effects : Forall (λ e, effect_wf e ∧ fe_txn_id e = x) (a_effects a);
  ao_objects : ∀ o h, a_objects a !! o = Some h → is_Some (Ds !! h)
}.

Definition plan_for V t (e : FinalEffect) (plan : nat * PreparedOrderedMvccEffect) : Prop :=
  is_Some (Ds !! plan.1) ∧
  plan_ok (v_statuses V) (v_undo V) (v_current V) (v_history V) e (Live (tx_snapshot t)) plan.2.

(** The decision is in the log and not published. *)
Definition decision_ok V t (ticket : AppendTicket) : Prop :=
  tx_commit_seq t = Some (at_csn ticket) ∧ tx_snapshot t < at_csn ticket ∧
  at_csn ticket ∉ v_csns V ∧ ∀ n, v_next V = Some n → at_csn ticket < n.

Definition applied_ok V x t (e : FinalEffect) : Prop :=
  (∃ ord u, v_current V (slot_of e) = Some (installed x ord u (intended_value e))) ∧
  ∀ v, v ∈ v_history V (slot_of e) → v.1 ≤ tx_snapshot t.

Definition task_ok V x task : Prop :=
  is_u64 x ∧ tx_snapshot (task_txn task) ≤ v_visible V ∧ is_Some (v_statuses V x) ∧
  match task with
  | TaskIdle t => tx_id t = x ∧ (tx_phase t = Active → v_statuses V x = Some StatusActive) ∧
      (tx_phase t = Released → ∀ c, tx_commit_seq t = Some c → c ≤ v_visible V ∧ c ∈ v_csns V)
  | TaskPreparing t a rest plans => attempt_ok x t a ∧ tx_phase t = Active ∧
      v_statuses V x = Some StatusActive ∧
      ∃ done, a_effects a = done ++ rest ∧ Forall2 (plan_for V t) done plans.1
  | TaskAppended t a plans ticket => attempt_ok x t a ∧ tx_phase t = WalAppended ∧
      v_statuses V x = Some StatusActive ∧ decision_ok V t ticket ∧
      Forall2 (plan_for V t) (a_effects a) plans.1
  | TaskApplying t a ticket position todo => attempt_ok x t a ∧ tx_phase t = DurableDecision ∧
      v_statuses V x = Some StatusActive ∧ decision_ok V t ticket ∧
      ∃ done rest, a_effects a = done ++ rest ∧ Forall (applied_ok V x t) done ∧
        Forall2 (plan_for V t) rest todo
  | TaskWaiting t a ticket position => attempt_ok x t a ∧ tx_phase t = DurableDecision ∧
      v_statuses V x = Some (StatusCommitted (at_csn ticket)) ∧
      tx_commit_seq t = Some (at_csn ticket) ∧ at_csn ticket ∈ v_csns V
  | TaskCompleting t a ticket position => attempt_ok x t a ∧ tx_phase t = DurableDecision ∧
      v_statuses V x = Some (StatusCommitted (at_csn ticket)) ∧
      tx_commit_seq t = Some (at_csn ticket) ∧ at_csn ticket ∈ v_csns V ∧
      at_csn ticket ≤ v_visible V
  end.

(** What a step of [x], touching the slots [ks] and publishing [extra], may change
    for the others. *)
Record view_step x (ks : list SlotKey) (extra : option CommitSeq) V V' : Prop := {
  vs_statuses : ∀ z, z ≠ x → v_statuses V' z = v_statuses V z;
  vs_known : is_Some (v_statuses V x) → is_Some (v_statuses V' x);
  vs_undo : ∃ R, v_undo V' = v_undo V ++ R;
  vs_csn : Forall (same_csn (v_statuses V) (v_statuses V')) (v_undo V);
  vs_slots : ∀ k, k ∉ ks → v_current V' k = v_current V k ∧ v_history V' k = v_history V k;
  vs_visible : v_visible V ≤ v_visible V';
  vs_next : ∀ n, v_next V' = Some n → ∃ m, v_next V = Some m ∧ m ≤ n;
  vs_csns : ∀ c, c ∈ v_csns V' ↔ c ∈ v_csns V ∨ extra = Some c
}.

Lemma plan_for_other x ks extra V V' t e plan :
  view_step x ks extra V V' → fe_txn_id e ≠ x → slot_of e ∉ ks → plan_for V t e plan → plan_for V' t e plan.
Proof.
  intros Hv Hne Hk [Hd Hp]. split; [done|]. destruct (vs_undo _ _ _ _ _ Hv) as [R ->].
  destruct (vs_slots _ _ _ _ _ Hv _ Hk) as [HC HH].
  eapply plan_ok_stable; try done; [|apply (vs_csn _ _ _ _ _ Hv)].
  destruct (pl_current _ _ _ _ _ _ _ Hp) as (u & -> & _). eapply same_csn_other; [apply (vs_statuses _ _ _ _ _ Hv)|].
  cbn. congruence.
Qed.

Lemma plans_other x ks extra V V' t es plans :
  view_step x ks extra V V' → (∀ e, e ∈ es → fe_txn_id e ≠ x ∧ slot_of e ∉ ks) →
  Forall2 (plan_for V t) es plans → Forall2 (plan_for V' t) es plans.
Proof.
  intros Hv He Hf. induction Hf as [|e plan es plans Hp Hf IH]; [constructor|]. constructor.
  - destruct (He e) as [Ht Hk]; [left|]. by eapply plan_for_other.
  - apply IH. intros e' Hin. apply He. by right.
Qed.

Lemma decision_other x ks extra V V' t ticket :
  view_step x ks extra V V' → (∀ c, extra = Some c → at_csn ticket ≠ c) →
  decision_ok V t ticket → decision_ok V' t ticket.
Proof.
  intros Hv He (Hc & Hs & Hn & Hlt). split_and!; [done..| |].
  - rewrite (vs_csns _ _ _ _ _ Hv). intros [?|E]; [done|]. by apply (He _ E).
  - intros n Hn'. destruct (vs_next _ _ _ _ _ Hv _ Hn') as (m & Hm & Hle). specialize (Hlt _ Hm). lia.
Qed.

(** The others are not disturbed. *)
Lemma task_ok_other x ks extra V V' y task :
  view_step x ks extra V V' → y ≠ x → task_ok V y task → (∀ k, k ∈ held task → k ∉ ks) →
  (∀ c, extra = Some c → task_csn task ≠ Some c) → task_ok V' y task.
Proof.
  intros Hv Hne (H64 & Hs & Hk & Ht) Hks Hex.
  assert (∀ a t, task_attempt task = Some a → attempt_ok y t a →
    ∀ e, e ∈ a_effects a → fe_txn_id e ≠ x ∧ slot_of e ∉ ks) as Heff.
  { intros a t Ea Ha e He. pose proof (ao_effects _ _ _ Ha) as Hf. rewrite Forall_forall in Hf.
    destruct (Hf e He) as [_ ->]. split; [done|]. apply Hks. unfold held. rewrite Ea, (ao_keys _ _ _ Ha).
    by apply list_elem_of_fmap_2. }
  pose proof (vs_visible _ _ _ _ _ Hv) as Hvis. pose proof (vs_statuses _ _ _ _ _ Hv y Hne) as HS.
  assert (∀ c, c ∈ v_csns V → c ∈ v_csns V') as Hcs by (intros c ?; apply (vs_csns _ _ _ _ _ Hv); by left).
  split; [done|]. split; [lia|]. rewrite HS. split; [done|].
  destruct task as [t|t a rest plans|t a plans ticket|t a ticket pos todo|t a ticket pos|t a ticket pos].
  - destruct Ht as (Hid & Ha & Hr). split_and!; [done..|]. intros Hp c Hc. destruct (Hr Hp c Hc). split; [lia|auto].
  - destruct Ht as (Ha & Hp & Hst & done & Heq & Hf). split_and!; [done..|]. exists done. split; [done|].
    eapply plans_other; [done| |done]. intros e He. apply (Heff a t); [done..|]. rewrite Heq. apply elem_of_app. by left.
  - destruct Ht as (Ha & Hp & Hst & Hd & Hf). split_and!; [done..| |].
    + eapply decision_other; [done| |done]. intros c Ec E. apply (Hex c Ec). cbn. by rewrite E.
    + eapply plans_other; [done| |done]. intros e He. by apply (Heff a t).
  - destruct Ht as (Ha & Hp & Hst & Hd & done & rest & Heq & Happ & Hf). split_and!; [done..| |].
    + eapply decision_other; [done| |done]. intros c Ec E. apply (Hex c Ec). cbn. by rewrite E.
    + exists done, rest. split; [done|]. split.
      * rewrite Forall_forall in Happ |- *. intros e He. destruct (Happ e He) as [Hcur Hhist].
        destruct (Heff a t eq_refl Ha e) as [_ Hnk]; [rewrite Heq; apply elem_of_app; by left|].
        destruct (vs_slots _ _ _ _ _ Hv _ Hnk) as [HC HH]. split; [by rewrite HC|by rewrite HH].
      * eapply plans_other; [done| |done]. intros e He. apply (Heff a t); [done..|]. rewrite Heq. apply elem_of_app. by right.
  - destruct Ht as (Ha & Hp & Hst & Hc & Hin). split_and!; auto.
  - destruct Ht as (Ha & Hp & Hst & Hc & Hin & Hle). split_and!; auto. lia.
Qed.
End isolation.

(** ** Intents of the tasks *)
Lemma holdings_insert tasks x task :
  holdings (<[x := task]> tasks) ≡ₚ ((x,.) <$> held task) ++ holdings (delete x tasks).
Proof.
  unfold holdings. rewrite <-insert_delete_eq.
  rewrite (map_to_list_insert (delete x tasks) x task) by apply lookup_delete_eq. done.
Qed.

Lemma holdings_lookup tasks x task :
  tasks !! x = Some task → holdings tasks ≡ₚ ((x,.) <$> held task) ++ holdings (delete x tasks).
Proof. intros Hx. rewrite <-(insert_id tasks x task) at 1 by done. apply holdings_insert. Qed.

Lemma holdings_elem tasks x task k : tasks !! x = Some task → k ∈ held task → (x, k) ∈ holdings tasks.
Proof.
  intros Hx Hk. rewrite (holdings_lookup _ _ _ Hx). apply elem_of_app. left. by apply list_elem_of_fmap_2.
Qed.

Lemma holdings_none tasks x : tasks !! x = None → holdings tasks = holdings (delete x tasks).
Proof. intros Hx. by rewrite delete_id. Qed.

Section exclusive.
Context `{IntentHasher}.

Lemma held_exclusive i tasks x y tx ty k :
  intents_repr i (holdings tasks) → tasks !! x = Some tx → tasks !! y = Some ty →
  k ∈ held tx → k ∈ held ty → x = y.
Proof.
  intros [_ Hi] Hx Hy Hkx Hky. destruct (Hi k) as [Hs _].
  apply (Hs (x, k) (y, k)); apply list_elem_of_filter; (split; [done|]); by eapply holdings_elem.
Qed.

(** A task moves and keeps its intents, or takes or drops them all. *)
Lemma holdings_keep i tasks x task task' :
  tasks !! x = Some task → held task' = held task → intents_repr i (holdings tasks) →
  intents_repr i (holdings (<[x := task']> tasks)).
Proof.
  intros Hx Hh. apply intents_repr_perm. by rewrite holdings_insert, Hh, (holdings_lookup _ _ _ Hx).
Qed.

Lemma holdings_drop i tasks x task t (g : WriteIntentGuard) :
  tasks !! x = Some task → held task = g_keys g → g_txn g = x → g_released g = false →
  intents_repr i (holdings tasks) →
  intents_repr (release_all g i).2 (holdings (<[x := TaskIdle t]> tasks)).
Proof.
  intros Hx Hh Hg Hr Hi. unfold release_all. rewrite Hr. cbn [snd]. rewrite Hg.
  eapply intents_repr_perm; [symmetry; apply holdings_insert|]. cbn [held task_attempt fmap list_fmap app].
  apply rollback_repr. eapply intents_repr_perm; [|exact Hi]. by rewrite <-Hh, (holdings_lookup _ _ _ Hx).
Qed.

Lemma guard_release_all g i : guard_release g i = (release_all g i).2.
Proof. unfold guard_release, release_all. by destruct (g_released g) eqn:E; cbn; rewrite ?E. Qed.
End exclusive.

(** ** The invariant *)
Definition pubs_ok (pubs : list Publication) : Prop :=
  StronglySorted (λ later earlier, ∀ k, k ∈ slot_of <$> pb_effects later → k ∈ slot_of <$> pb_effects earlier →
    pb_csn earlier ≤ pb_snapshot later) pubs ∧
  Forall (λ p, pb_snapshot p < pb_csn p) pubs.

Section invariant.
Context (Ds : list StorageObjectDescriptor) (init : CommitSeq).
Context `{Hcrc : Crc32c} {D : Type} `{Hld : LogDevice D} {W : Type} `{Hos : ObjectStore W}
  `{Hlaws : !ObjectStoreLaws W} `{Hih : IntentHasher}.
Implicit Types (k : Kernel D W) (tasks : gmap TxnId Task) (pubs : list Publication) (y : Sys D W)
  (R : list MvccRecord) (C : Currents).

Definition view_of k pubs R C : View :=
  {| v_statuses := tget (k_statuses k); v_undo := R; v_current := C; v_history := history pubs;
     v_visible := vf_visible (k_frontier k); v_next := ca_next_csn (k_appender k);
     v_csns := pb_csn <$> pubs |}.

(** The record of a slot was installed by a transaction that committed, or that is
    applying its effects. *)
Definition head_ok (S : Statuses) tasks (key : SlotKey) (r : MvccRecord) : Prop :=
  ∃ x ord u v, r = installed x ord u v ∧
    ((∃ c, S x = Some (StatusCommitted c)) ∨
     S x = Some StatusActive ∧ ∃ task, tasks !! x = Some task ∧ key ∈ slot_of <$> applied task).

(** The frontier covers published commits only. *)
Definition frontier_ok k pubs : Prop :=
  let f := k_frontier k in
  BTreeSet.wf (vf_ready f) ∧ (∀ c, c ∈ vf_ready f → c ∈ pb_csn <$> pubs) ∧ init ≤ vf_visible f ∧
  (∀ c, init < c ≤ vf_visible f → c ∈ pb_csn <$> pubs) ∧
  (∀ n, ca_next_csn (k_appender k) = Some n → init < n ∧ ∀ c, c ∈ pb_csn <$> pubs → c < n).

Record good k tasks pubs R C : Prop := {
  gd_engine : engine_repr (tget (k_statuses k)) (k_engine k) Ds R C (history pubs);
  gd_statuses : table_wf (k_statuses k);
  gd_intents : intents_repr (k_intents k) (holdings tasks);
  gd_heads : ∀ key r, C key = Some r → head_ok (tget (k_statuses k)) tasks key r;
  gd_tasks : ∀ x task, tasks !! x = Some task → task_ok Ds (view_of k pubs R C) x task;
  gd_flight : ∀ x z tx tz c, tasks !! x = Some tx → tasks !! z = Some tz →
    task_csn tx = Some c → task_csn tz = Some c → x = z;
  gd_frontier : frontier_ok k pubs;
  gd_csns : NoDup (pb_csn <$> pubs);
  gd_pubs : pubs_ok pubs
}.

Definition kernel_inv y : Prop :=
  fenced (sy_kernel y) ∨ ∃ R C, good (sy_kernel y) (sy_tasks y) (sy_published y) R C.

(** The snapshot of a task is behind the next commit sequence. *)
Lemma visible_next k pubs n :
  frontier_ok k pubs → ca_next_csn (k_appender k) = Some n → vf_visible (k_frontier k) < n.
Proof.
  intros (_ & _ & Hi & Hc & Hn) En. destruct (Hn n En) as [Hin Hlt].
  destruct (decide (vf_visible (k_frontier k) = init)) as [->|]; [done|]. apply Hlt, Hc. lia.
Qed.

(** The thread [x] is at [task], or takes up its first one. *)
Definition moves tasks x (task : Task) : Prop :=
  tasks !! x = Some task ∨ tasks !! x = None ∧ held task = [] ∧ task_csn task = None.

(** One task moves: what it has to establish for the invariant to hold again. *)
Lemma good_update k tasks pubs R C x task k' task' pubs' R' C' ks extra :
  good k tasks pubs R C → moves tasks x task →
  view_step x ks extra (view_of k pubs R C) (view_of k' pubs' R' C') →
  (∀ key, key ∈ ks → key ∈ held task) → (∀ c, extra = Some c → task_csn task = Some c) →
  (∀ c, task_csn task' = Some c → task_csn task = Some c ∨ ∀ z tz, tasks !! z = Some tz → task_csn tz ≠ Some c) →
  engine_repr (tget (k_statuses k')) (k_engine k') Ds R' C' (history pubs') →
  table_wf (k_statuses k') → intents_repr (k_intents k') (holdings (<[x := task']> tasks)) →
  (∀ key r, C' key = Some r → head_ok (tget (k_statuses k')) (<[x := task']> tasks) key r) →
  task_ok Ds (view_of k' pubs' R' C') x task' → frontier_ok k' pubs' → NoDup (pb_csn <$> pubs') → pubs_ok pubs' →
  good k' (<[x := task']> tasks) pubs' R' C'.
Proof.
  intros Hg Hx Hv Hks Hextra Hcsn He Hst Hint Hheads Ht Hf Hnd Hp. split; try done.
  - intros z tz. destruct (decide (x = z)) as [<-|Hne].
    { rewrite lookup_insert_eq. by intros [= <-]. }
    rewrite lookup_insert_ne by done. intros Hz.
    eapply (task_ok_other Ds x ks extra); [done|done|by apply (gd_tasks _ _ _ _ _ Hg)| |].
    + intros key Hk Hkx%Hks. destruct Hx as [Hx|(_ & Hx & _)]; [|rewrite Hx in Hkx; by apply elem_of_nil in Hkx].
      apply Hne. by eapply held_exclusive; [apply (gd_intents _ _ _ _ _ Hg)|..].
    + intros c Ec%Hextra Ez. destruct Hx as [Hx|(_ & _ & Hx)]; [|congruence].
      apply Hne. by eapply (gd_flight _ _ _ _ _ Hg).
  - assert (∀ z tz c, z ≠ x → tasks !! z = Some tz → task_csn task' = Some c → task_csn tz = Some c → False) as Hx'.
    { intros z tz c Hne Hz Ec Ez. destruct (Hcsn c Ec) as [Ec'|Hfresh]; [|by eapply Hfresh].
      destruct Hx as [Hx|(_ & _ & Hx)]; [|congruence]. apply Hne. by eapply (gd_flight _ _ _ _ _ Hg). }
    intros z1 z2 t1 t2 c. destruct (decide (x = z1)) as [<-|H1], (decide (x = z2)) as [<-|H2];
      rewrite ?lookup_insert_eq, ?lookup_insert_ne by done; [done| | |by apply (gd_flight _ _ _ _ _ Hg)].
    + intros [= <-] Hz E1 E2. exfalso. by eapply (Hx' z2).
    + intros Hz [= <-] E1 E2. exfalso. by eapply (Hx' z1).
Qed.

(** ** Changes that no thread sees *)
Lemma view_step_refl x ks V : view_step x ks None V V.
Proof.
  split; try done.
  - exists []. by rewrite app_nil_r.
  - by apply Forall_forall.
  - naive_solver.
  - intros c. naive_solver.
Qed.

Lemma view_step_undo x ks k pubs R R1 C :
  view_step x ks None (view_of k pubs R C) (view_of k pubs (R ++ R1) C).
Proof.
  split; try done; cbn.
  - by exists R1.
  - by apply Forall_forall.
  - naive_solver.
  - intros c. naive_solver.
Qed.

(** The kernel changed in its admission, its intents or its engine. *)
Lemma good_same k k' tasks pubs R C :
  good k tasks pubs R C → k_statuses k' = k_statuses k → k_frontier k' = k_frontier k →
  ca_next_csn (k_appender k') = ca_next_csn (k_appender k) →
  intents_repr (k_intents k') (holdings tasks) →
  engine_repr (tget (k_statuses k)) (k_engine k') Ds R C (history pubs) →
  good k' tasks pubs R C.
Proof.
  intros [He Hst Hi Hh Ht Hfl Hf Hn Hp] Es Ef En Hi' He'.
  assert (view_of k' pubs R C = view_of k pubs R C) as Ev by (unfold view_of; by rewrite Es, Ef, En).
  split; try done.
  - by rewrite Es.
  - by rewrite Es.
  - intros key r. rewrite Es. apply Hh.
  - rewrite Ev. done.
  - unfold frontier_ok in *. by rewrite Ef, En.
Qed.

(** Heads stay in order when a task moves without losing applied effects. *)
Lemma heads_keep S tasks x task task' key r :
  moves tasks x task → slot_of <$> applied task ⊆ slot_of <$> applied task' →
  head_ok S tasks key r → head_ok S (<[x := task']> tasks) key r.
Proof.
  intros Hx Hsub (z & ord & u & v & -> & Hst). exists z, ord, u, v. split; [done|].
  destruct Hst as [?|(Ha & tz & Hz & Hk)]; [by left|right]. split; [done|].
  destruct (decide (x = z)) as [<-|Hne].
  - exists task'. rewrite lookup_insert_eq. split; [done|]. destruct Hx as [Hx|(Hx & _)]; [|congruence].
    rewrite Hx in Hz. injection Hz as <-. by apply Hsub.
  - exists tz. by rewrite lookup_insert_ne.
Qed.

(** The holdings after a new idle task, or one that moved and keeps its keys. *)
Lemma holdings_moves i tasks x task task' :
  moves tasks x task → held task' = held task → intents_repr i (holdings tasks) →
  intents_repr i (holdings (<[x := task']> tasks)).
Proof.
  intros [Hx|(Hx & Hh & _)] Hk Hi; [by eapply holdings_keep|].
  eapply intents_repr_perm; [|exact Hi]. rewrite holdings_insert, Hk, Hh. cbn.
  by rewrite <-(holdings_none tasks x).
Qed.

(** A task moves where nobody else looks. *)
Lemma good_move k k' tasks pubs R C x task task' :
  good k tasks pubs R C → moves tasks x task → k_statuses k' = k_statuses k →
  k_frontier k' = k_frontier k → ca_next_csn (k_appender k') = ca_next_csn (k_appender k) →
  engine_repr (tget (k_statuses k)) (k_engine k') Ds R C (history pubs) →
  intents_repr (k_intents k') (holdings (<[x := task']> tasks)) →
  slot_of <$> applied task ⊆ slot_of <$> applied task' →
  (task_csn task' = task_csn task ∨ task_csn task' = None) →
  task_ok Ds (view_of k pubs R C) x task' → good k' (<[x := task']> tasks) pubs R C.
Proof.
  intros Hg Hx Es Ef En He Hi Hsub Hc Ht.
  assert (view_of k' pubs R C = view_of k pubs R C) as Ev by (unfold view_of; by rewrite Es, Ef, En).
  eapply (good_update _ _ _ _ _ x task _ _ _ _ _ [] None).
  - exact Hg.
  - exact Hx.
  - rewrite Ev. apply view_step_refl.
  - by intros key ?%elem_of_nil.
  - done.
  - intros c Ec. left. destruct Hc as [Hc|Hc]; congruence.
  - by rewrite Es.
  - rewrite Es. apply (gd_statuses _ _ _ _ _ Hg).
  - done.
  - intros key r Hr. rewrite Es. eapply heads_keep; [done..|]. by apply (gd_heads _ _ _ _ _ Hg).
  - by rewrite Ev.
  - pose proof (gd_frontier _ _ _ _ _ Hg) as Hf. unfold frontier_ok in *. by rewrite Ef, En.
  - apply (gd_csns _ _ _ _ _ Hg).
  - apply (gd_pubs _ _ _ _ _ Hg).
Qed.

(** An attempt is given up: its intents and its membership are returned. *)
Lemma good_abandon k tasks pubs R C x task t a :
  good k tasks pubs R C → tasks !! x = Some task → task_attempt task = Some a → applied task = [] →
  attempt_ok Ds x (task_txn task) a → task_ok Ds (view_of k pubs R C) x (TaskIdle t) →
  good (abandon a k) (<[x := TaskIdle t]> tasks) pubs R C.
Proof.
  intros Hg Hx Ha Happ Hao Ht. eapply (good_move k _ _ _ _ _ x task); try done.
  - by left.
  - apply (gd_engine _ _ _ _ _ Hg).
  - cbn. eapply holdings_drop; [done| |by apply Hao..|apply (gd_intents _ _ _ _ _ Hg)].
    unfold held. by rewrite Ha.
  - rewrite Happ. cbn. set_solver.
  - by right.
Qed.
End invariant.
