(* ===== verification/IsolationSteps.v ===== *)
(** * Every step keeps the invariant

    One lemma per call of [Interleaving.v]: the invariant of [IsolationInv.v] holds
    again after it, or the runtime is fenced. *)
From S2P Require Import Prelude StdCollections Ids Crc Fs Log WriteSet Txn LogIo CommitAppend Shards Mvcc UndoStore Visibility WriteIntent Admission Buffer PageDependency PageV4 KeyOrder TreeV4 TreeRange ObjectStore OrderedMvcc OrderedRead OrderedCommit Versions InstallSpec Interleaving Settling IsolationInv.

Local Open Scope Z_scope.
Local Open Scope seer_scope.

Section steps.
Context (Ds : list StorageObjectDescriptor) (init : CommitSeq).
Context `{Hcrc : Crc32c} {D : Type} `{Hld : LogDevice D} {W : Type} `{Hos : ObjectStore W}
  `{Hlaws : !ObjectStoreLaws W} `{Hih : IntentHasher}.
Implicit Types (k : Kernel D W) (tasks : gmap TxnId Task) (pubs : list Publication) (y : Sys D W)
  (R : list MvccRecord) (C : Currents).
Local Abbreviation good := (good Ds init).
Local Abbreviation task_ok := (task_ok Ds).
Local Abbreviation attempt_ok := (attempt_ok Ds).

(** ** Status moves *)

(** The status of [x] appears or is decided without a commit. *)
Lemma view_step_status k st pubs R C x s :
  engine_repr (tget (k_statuses k)) (k_engine k) Ds R C (history pubs) →
  tget (k_statuses k) x = None ∨ tget (k_statuses k) x = Some StatusActive →
  status_set (k_statuses k) st x s → (∀ c, s ≠ StatusCommitted c) →
  view_step x [] None (view_of k pubs R C) (view_of (with_statuses st k) pubs R C) ∧
  engine_repr (tget st) (k_engine k) Ds R C (history pubs).
Proof.
  intros He Hold [_ Hget] Hnc.
  assert (∀ r, same_csn (tget (k_statuses k)) (tget st) r) as Hs.
  { intros r. apply (same_csn_quiet _ _ x s); [|by rewrite Hget, decide_True|done..].
    intros z Hz. by rewrite Hget, decide_False. }
  split.
  - split; cbn; try done.
    + intros z Hz. by rewrite Hget, decide_False.
    + intros _. rewrite Hget, decide_True by done. by eexists.
    + exists []. by rewrite app_nil_r.
    + by apply Forall_forall.
    + naive_solver.
    + intros c. naive_solver.
  - eapply engine_repr_statuses; [done|by intros|by apply Forall_forall].
Qed.

(** Such a move of a transaction that owns no record. *)
Lemma good_status k tasks pubs R C x task task' st s :
  good k tasks pubs R C → moves tasks x task → applied task = [] → task_csn task' = None → held task' = held task →
  tget (k_statuses k) x = None ∨ tget (k_statuses k) x = Some StatusActive →
  status_set (k_statuses k) st x s → (∀ c, s ≠ StatusCommitted c) →
  task_ok (view_of (with_statuses st k) pubs R C) x task' →
  good (with_statuses st k) (<[x := task']> tasks) pubs R C.
Proof.
  intros Hg Hx Happ Hc Hh Hold Hset Hnc Ht.
  destruct (view_step_status _ _ _ _ _ _ _ (gd_engine _ _ _ _ _ _ _ Hg) Hold Hset Hnc) as [Hv He].
  eapply (good_update Ds init _ _ _ _ _ x task _ _ _ _ _ [] None); try done.
  - by intros key ?%elem_of_nil.
  - by rewrite Hc.
  - apply Hset.
  - cbn. eapply holdings_moves; [done..|apply (gd_intents _ _ _ _ _ _ _ Hg)].
  - intros key r Hr. pose proof (gd_heads _ _ _ _ _ _ _ Hg key r Hr) as Hhead.
    eapply heads_keep; [done|by rewrite Happ; cbn; set_solver|].
    destruct Hhead as (z & ord & u & v & -> & Hst). exists z, ord, u, v. split; [done|].
    destruct Hset as [_ Hget]. cbn. rewrite Hget. case_decide as D0; [subst z|done]. exfalso.
    destruct Hst as [[c Ec]|(_ & tz & Hz & Hk)]; [by destruct Hold; congruence|].
    destruct Hx as [Hx|(Hx & _)]; [|congruence]. rewrite Hx in Hz. injection Hz as <-.
    rewrite Happ in Hk. by apply elem_of_nil in Hk.
  - apply (gd_frontier _ _ _ _ _ _ _ Hg).
  - apply (gd_csns _ _ _ _ _ _ _ Hg).
  - apply (gd_pubs _ _ _ _ _ _ _ Hg).
Qed.

(** ** Calls outside [commit] *)
Lemma begin_inv k tasks pubs R C x k' t :
  good k tasks pubs R C → is_u64 x → begin_write x k = (k', Ok t) →
  good k' (<[x := TaskIdle t]> tasks) pubs R C.
Proof.
  intros Hg H64. unfold begin_write. destruct (ensure_open k) as [[]|e]; [|done].
  destruct (status_begin (k_statuses k) x) as [st [[]|e]] eqn:Es; cbn [map_err]; [|done]. intros [= <- <-].
  apply (status_begin_outcome _ _ _ _ (gd_statuses _ _ _ _ _ _ _ Hg)) in Es as [Hnone Hset].
  assert (tasks !! x = None) as Hx.
  { destruct (tasks !! x) as [task|] eqn:Et; [|done].
    destruct (gd_tasks _ _ _ _ _ _ _ Hg x task Et) as (_ & _ & [s Hs] & _). cbn in Hs. congruence. }
  eapply (good_status _ _ _ _ _ x (TaskIdle (Transaction_new x (snapshot (k_frontier k))))); try done; [right; done|by left|].
  destruct Hset as [_ Hget]. split; [done|]. split; [done|]. cbn. rewrite Hget, decide_True by done.
  split; [by eexists|]. done.
Qed.

(** A transaction that begins has no thread yet. *)
Lemma begin_new k tasks pubs R C x k' t :
  good k tasks pubs R C → begin_write x k = (k', Ok t) → tasks !! x = None.
Proof.
  intros Hg E. unfold begin_write in E. destruct (ensure_open k) as [[]|e]; [|done].
  destruct (status_begin (k_statuses k) x) as [st [[]|e]] eqn:Es; [|done].
  apply (status_begin_outcome _ _ _ _ (gd_statuses _ _ _ _ _ _ _ Hg)) in Es as [Hnone _].
  apply eq_None_not_Some. intros [task Ht].
  destruct (gd_tasks _ _ _ _ _ _ _ Hg _ _ Ht) as (_ & _ & [s Hs] & _). cbn in Hs. congruence.
Qed.

Lemma begin_refused_inv k tasks pubs R C x k' e :
  good k tasks pubs R C → begin_write x k = (k', Err e) → good k' tasks pubs R C.
Proof.
  intros Hg. unfold begin_write. destruct (ensure_open k) as [[]|e']; [|by intros [= <- <-]].
  destruct (status_begin (k_statuses k) x) as [st [[]|e']] eqn:Es; cbn [map_err]; [done|]. intros [= <- <-].
  apply (status_begin_outcome _ _ _ _ (gd_statuses _ _ _ _ _ _ _ Hg)) in Es as ->.
  by eapply (good_same Ds init k); [|..|apply Hg|apply Hg].
Qed.

(** Staging changes neither the identity nor the phase of a transaction. *)
Lemma stage_inv k tasks pubs R C x t t' :
  good k tasks pubs R C → tasks !! x = Some (TaskIdle t) →
  tx_id t' = tx_id t → tx_phase t' = tx_phase t → tx_snapshot t' = tx_snapshot t →
  tx_commit_seq t' = tx_commit_seq t → good k (<[x := TaskIdle t']> tasks) pubs R C.
Proof.
  intros Hg Hx Ei Ep Es Ec. eapply (good_move Ds init k _ _ _ _ _ x (TaskIdle t)); try done.
  - by left.
  - apply (gd_engine _ _ _ _ _ _ _ Hg).
  - eapply holdings_keep; [done..|apply (gd_intents _ _ _ _ _ _ _ Hg)].
  - by left.
  - destruct (gd_tasks _ _ _ _ _ _ _ Hg x _ Hx) as (H64 & Hs & Hk & Hid & Ha & Hr). cbn in Hs.
    split; [done|]. split; [cbn; by rewrite Es|]. split; [done|]. by rewrite Ei, Ep, Ec.
Qed.

Lemma put_inv k tasks pubs R C x t object key value :
  good k tasks pubs R C → tasks !! x = Some (TaskIdle t) →
  good k (<[x := TaskIdle (stage_ordered_put object key value t).1]> tasks) pubs R C.
Proof.
  intros Hg Hx. destruct (stage_cases object (λ o, ordered_put (tx_id t) o (od_id object) key value) t _ eq_refl)
    as [[E _]|(E & _)]; unfold stage_ordered_put; rewrite E; by eapply stage_inv.
Qed.

Lemma delete_inv k tasks pubs R C x t object key :
  good k tasks pubs R C → tasks !! x = Some (TaskIdle t) →
  good k (<[x := TaskIdle (stage_ordered_delete object key t).1]> tasks) pubs R C.
Proof.
  intros Hg Hx. destruct (stage_cases object (λ o, ordered_delete (tx_id t) o (od_id object) key) t _ eq_refl)
    as [[E _]|(E & _)]; unfold stage_ordered_delete; rewrite E; by eapply stage_inv.
Qed.

Lemma abort_inv k tasks pubs R C x t k' t' r :
  good k tasks pubs R C → tasks !! x = Some (TaskIdle t) → coordinator_abort t k = (k', t', r) →
  fenced k' ∨ good k' (<[x := TaskIdle t']> tasks) pubs R C.
Proof.
  intros Hg Hx. pose proof (gd_tasks _ _ _ _ _ _ _ Hg x _ Hx) as (H64 & Hs & Hk & Hid & Ha & Hr). cbn in Hs.
  assert (good k (<[x := TaskIdle t]> tasks) pubs R C) as Hsame by (by eapply stage_inv).
  unfold coordinator_abort. destruct (tx_phase t) eqn:Ep; try (by intros [= <- <- <-]; right).
  all: destruct (status_abort (k_statuses k) (tx_id t)) as [st [[]|e]] eqn:Es;
    apply (status_transition_outcome _ _ _ _ _ (gd_statuses _ _ _ _ _ _ _ Hg)) in Es; cbn in Es.
  all: try (intros [= <- <- <-]; right; subst st; eapply (good_same Ds init k); done || apply Hsame).
  all: destruct Es as [Hact Hset]; rewrite Hid in Hact, Hset; unfold abort; rewrite Ep; intros [= <- <- <-]; right.
  all: eapply (good_status _ _ _ _ _ x (TaskIdle t)); try done; [by left|by right|].
  all: destruct Hset as [_ Hget]; split; [done|]; split; [done|]; cbn; rewrite Hget, decide_True by done.
  all: split; [by eexists|]; done.
Qed.

(** ** Entering [commit] *)
Lemma try_acquire_repr x effects i hs i' r :
  intents_repr i hs → try_acquire x effects i = (i', r) →
  match r with
  | Ok g => g_txn g = x ∧ g_keys g = slot_of <$> effects ∧ g_released g = false ∧
      StronglySorted lt_ord (slot_of <$> effects) ∧ Forall (λ e, fe_txn_id e = x) effects ∧
      intents_repr i' (((x,.) <$> g_keys g) ++ hs)
  | Err _ => intents_repr i' hs
  end.
Proof.
  intros Hi. unfold try_acquire. destruct (collect_keys x effects []) as [keys|e] eqn:Ek; [|by intros [= <- <-]].
  apply collect_keys_spec in Ek as (-> & Hs & Hf); [|constructor].
  destruct (acquire_loop x [] _ i) as [i1 r1] eqn:Ea.
  apply (acquire_loop_spec x [] _ i hs) in Ea as [_ Hr]; [|done].
  destruct r1 as [[]|e]; intros [<- <-]%pair_equal_spec; [|apply Hr]. cbn. by split_and!.
Qed.

Lemma preflight_objects_trees k : ∀ trees objects objects' o h,
  preflight_objects trees objects k = Ok objects' → objects' !! o = Some h → h ∈ trees ∨ objects !! o = Some h.
Proof.
  induction trees as [|tree trees IH]; intros objects objects' o h; cbn [preflight_objects].
  { intros [= ->]. by right. }
  destruct (negb _); [done|]. case_bool_decide; [done|]. intros E Ho.
  destruct (IH _ _ _ _ E Ho) as [?|Hin]; [left; by right|].
  apply lookup_insert_Some in Hin as [[_ <-]|[_ ?]]; [left; by left|by right].
Qed.

(** What a call of [commit_enter] does to the parts the invariant reads. *)
Lemma enter_cases x t trees k k' r :
  tx_id t = x → is_u64 x → commit_enter t trees k = (k', r) →
  k_statuses k' = k_statuses k ∧ k_frontier k' = k_frontier k ∧ k_appender k' = k_appender k ∧
  k_engine k' = k_engine k ∧
  ∀ hs, intents_repr (k_intents k) hs →
  match r with
  | Ok a => tx_phase t = Active ∧ tget (k_statuses k) x = Some StatusActive ∧
      (Forall (λ h, is_Some (Ds !! h)) trees → attempt_ok x t a) ∧
      intents_repr (k_intents k') (((x,.) <$> g_keys (a_guard a)) ++ hs)
  | Err _ => intents_repr (k_intents k') hs
  end.
Proof.
  intros Hid H64. unfold commit_enter. destruct (ensure_open k) as [[]|e]; [|by intros [= <- <-]].
  destruct (admit_commit (k_admission k)) as [adm ra]. destruct (map_err CommitAdmission ra) as [[]|e];
    [|by intros [= <- <-]].
  destruct (negb _) eqn:Ep; [by intros [= <- <-]|]. bool_to_prop.
  destruct (final_effects t) as [effects|e] eqn:Ef; [|by intros [= <- <-]].
  destruct (try_acquire (tx_id t) effects _) as [i rg] eqn:Ea.
  assert (∀ hs, intents_repr (k_intents k) hs → _) as Hacq
    by (intros hs Hi; exact (try_acquire_repr _ _ _ _ _ _ Hi Ea)).
  destruct rg as [g|e]; [|by intros [= <- <-]].
  assert (∀ hs, intents_repr (k_intents k) hs → intents_repr (release_all g i).2 hs) as Hdrop.
  { intros hs (Eg & _ & Er & _ & _ & Hi)%Hacq. unfold release_all. rewrite Er. cbn [snd].
    apply rollback_repr. by rewrite Eg. }
  destruct (preflight t trees effects _) as [objects|e] eqn:Epf; [|by intros [= <- <-]].
  destruct (require_active_status (tx_id t) _) as [[]|e] eqn:Est; [|by intros [= <- <-]].
  intros [= <- <-]. split_and!; [done..|]. intros hs Hi. apply Hacq in Hi as (Eg & Ek & Er & Hs & Hf & Hi).
  split; [done|]. split; [|split; [|by rewrite <-Hid]].
  - unfold require_active_status in Est. cbn in Est. rewrite Hid in Est.
    destruct (status (k_statuses k) x) as [st|] eqn:Es; cbn in Est; [|done].
    case_bool_decide; [|done]. subst st. by apply status_Ok in Es.
  - intros Htrees. split; cbn [a_guard a_effects a_objects]; try done; [congruence| |].
    + apply normalize_effects_wf in Ef. eapply Forall_impl; [exact Ef|]. intros e [Ho Ht].
      unfold effect_wf. rewrite Ht, Hid. done.
    + intros o h Ho. unfold preflight in Epf. destruct (preflight_objects trees ∅ _) as [objs|] eqn:Eo; [|done].
      destruct (preflight_effects _ _ _ _); [|done]. injection Epf as ->.
      destruct (preflight_objects_trees _ _ _ _ _ _ Eo Ho) as [Hin|?]; [|done].
      rewrite Forall_forall in Htrees. by apply Htrees.
Qed.

Lemma enter_inv k tasks pubs R C x t trees k' a :
  good k tasks pubs R C → tasks !! x = Some (TaskIdle t) → Forall (λ h, (h < length Ds)%nat) trees →
  commit_enter t trees k = (k', Ok a) →
  good k' (<[x := TaskPreparing t a (a_effects a) ([], None)]> tasks) pubs R C.
Proof.
  intros Hg Hx Htr E. destruct (gd_tasks _ _ _ _ _ _ _ Hg x _ Hx) as (H64 & Hs & Hk & Hid & Ha & Hr). cbn in Hs.
  destruct (enter_cases _ _ _ _ _ _ Hid H64 E) as (Es & Ef & Eap & Ee & Hin).
  destruct (Hin _ (gd_intents _ _ _ _ _ _ _ Hg)) as (Hp & Hact & Hao & Hi).
  assert (attempt_ok x t a) as Hatt.
  { apply Hao. eapply Forall_impl; [exact Htr|]. intros h. by rewrite lookup_lt_is_Some. }
  eapply (good_move Ds init k _ _ _ _ _ x (TaskIdle t)); try done.
  - by left.
  - by rewrite Eap.
  - rewrite Ee. apply (gd_engine _ _ _ _ _ _ _ Hg).
  - eapply intents_repr_perm; [|exact Hi]. by rewrite holdings_insert, (holdings_lookup _ _ _ Hx).
  - by left.
  - split; [done|]. split; [done|]. split; [done|]. split_and!; try done. exists []. split; [done|constructor].
Qed.

Lemma enter_refused_inv k tasks pubs R C x t trees k' e :
  good k tasks pubs R C → tasks !! x = Some (TaskIdle t) → commit_enter t trees k = (k', Err e) →
  good k' tasks pubs R C.
Proof.
  intros Hg Hx E. destruct (gd_tasks _ _ _ _ _ _ _ Hg x _ Hx) as (H64 & _ & _ & Hid & _).
  destruct (enter_cases _ _ _ _ _ _ Hid H64 E) as (Es & Ef & Eap & Ee & Hin).
  eapply (good_same Ds init k); try done.
  - by rewrite Eap.
  - apply Hin, Hg.
  - rewrite Ee. apply Hg.
Qed.

(** ** Preparation *)
Lemma not_aborted_heads k tasks pubs R C key :
  good k tasks pubs R C → not_aborted (tget (k_statuses k)) (C key).
Proof.
  intros Hg r z Hr Ho Ez. destruct (gd_heads _ _ _ _ _ _ _ Hg key r Hr) as (w & ord & u & v & -> & Hst).
  injection Ho as ->. destruct Hst as [[c Ec]|[Ea _]]; congruence.
Qed.

(** A record with the identity of an effect was installed by its transaction. *)
Lemma head_identity k tasks pubs R C x task key r e :
  good k tasks pubs R C → tasks !! x = Some task → tget (k_statuses k) x = Some StatusActive →
  C key = Some r → fe_txn_id e = x → has_install_identity r (fe_install_identity e) = true →
  key ∈ slot_of <$> applied task.
Proof.
  intros Hg Hx Ha Hr He Hi. destruct (gd_heads _ _ _ _ _ _ _ Hg key r Hr) as (z & ord & u & v & -> & Hst).
  cbn in Hi. apply andb_true_iff in Hi as [Hi _]. bool_to_prop. rewrite He in Hi. subst z.
  destruct Hst as [[c Ec]|(_ & task' & Hx' & Hk)]; congruence.
Qed.

Lemma prepare_one_inv k tasks pubs R C x t a e rest plans k' task' :
  good k tasks pubs R C → tasks !! x = Some (TaskPreparing t a (e :: rest) plans) →
  task_step (TaskPreparing t a (e :: rest) plans) k = Some (k', task', []) →
  fenced k' ∨ ∃ R', good k' (<[x := task']> tasks) pubs R' C.
Proof.
  intros Hg Hx. pose proof (gd_tasks _ _ _ _ _ _ _ Hg x _ Hx) as (H64 & Hs & Hk & Hatt & Hp & Hact & dn & Heq & Hf).
  cbn in Hs, Hk, Hact.
  assert (∀ R1 k1, good k1 tasks pubs R1 C → k_statuses k1 = k_statuses k → k_frontier k1 = k_frontier k →
    good (abandon a k1) (<[x := TaskIdle t]> tasks) pubs R1 C) as Hgive.
  { intros R1 k1 Hg1 Es Ef. eapply (good_abandon Ds init k1 _ _ _ _ x); [done..|].
    split; [done|]. split; [cbn; by rewrite Ef|]. split; [cbn; by rewrite Es|].
    split; [apply Hatt|]. cbn. rewrite Es. split; [done|]. congruence. }
  unfold task_step, prepare_one. destruct (a_objects a !! fe_object e) as [tree|] eqn:Eo.
  2:{ intros [= <- <-]. right. exists R. by apply Hgive. }
  destruct (ao_objects _ _ _ _ Hatt _ _ Eo) as [d Hd].
  destruct (prepare _ tree (a_guard a) e (Live (tx_snapshot t)) (k_engine k)) as [s' res] eqn:E.
  apply (prepare_spec _ _ _ _ _ _ _ _ _ _ _ _ _ (gd_engine _ _ _ _ _ _ _ Hg) Hd
    (not_aborted_heads _ _ _ _ _ _ Hg)) in E.
  destruct res as [[p|u]|error].
  - destruct E as (R1 & He & Hpl). intros [= <- <-]. right. exists (R ++ R1).
    eapply (good_update Ds init _ _ _ _ _ x _ _ _ _ _ _ [] None);
      [exact Hg|by left|exact (view_step_undo x [] k pubs R R1 C)|by intros key ?%elem_of_nil|done|done|exact He| | | | | | |];
      try apply (gd_statuses _ _ _ _ _ _ _ Hg).
    + cbn. eapply holdings_keep; [done|done|apply (gd_intents _ _ _ _ _ _ _ Hg)].
    + intros key r Hr. eapply heads_keep; [by left|done|]. by apply (gd_heads _ _ _ _ _ _ _ Hg).
    + split; [done|]. split; [done|]. split; [done|]. split; [done|]. split; [done|]. split; [done|].
      exists (dn ++ [e]). split; [by rewrite <-app_assoc|]. cbn [fst]. apply Forall2_app.
      * eapply Forall2_impl; [exact Hf|]. intros e' plan [Hd' Hp']. split; [done|]. cbn.
        eapply plan_ok_stable; [exact Hp'|done..| |]; [done|by apply Forall_forall].
      * constructor; [|constructor]. split; [by eexists|]. exact Hpl.
    + apply (gd_frontier _ _ _ _ _ _ _ Hg).
    + apply (gd_csns _ _ _ _ _ _ _ Hg).
    + apply (gd_pubs _ _ _ _ _ _ _ Hg).
  - destruct E as (_ & r & Hr & Hi & _). exfalso.
    assert (fe_txn_id e = x) as He.
    { pose proof (ao_effects _ _ _ _ Hatt) as Hall. rewrite Heq, Forall_app, Forall_cons in Hall.
      apply Hall. }
    apply (head_identity _ _ _ _ _ _ _ _ _ _ Hg Hx Hact Hr He) in Hi. by apply elem_of_nil in Hi.
  - destruct (prepare_failure_requires_fence error) eqn:Efence.
    + intros [= <- <-]. left. by apply fenced_abandon.
    + intros [= <- <-]. right. exists R. apply Hgive; [|done..].
      eapply (good_same Ds init k); try done; [apply Hg|]. by destruct error.
Qed.

(** ** The decision *)
Lemma attempt_ok_txn x t t' a : attempt_ok x t a → tx_id t' = tx_id t → attempt_ok x t' a.
Proof. intros [] E. split; try done. congruence. Qed.

Lemma append_ok_inv k tasks pubs R C x t a plans k' t' ca' ticket :
  good k tasks pubs R C → tasks !! x = Some (TaskPreparing t a [] plans) →
  append_validated (k_appender k) (with_phase Validating t) = (ca', t', Ok ticket) → k' = with_appender ca' k →
  good k' (<[x := TaskAppended t' a plans ticket]> tasks) pubs R C.
Proof.
  intros Hg Hx E ->. pose proof (gd_tasks _ _ _ _ _ _ _ Hg x _ Hx) as (H64 & Hs & Hk & Hatt & Hp & Hact & dn & Heq & Hf).
  cbn in Hs, Hk, Hact. rewrite app_nil_r in Heq. subst dn.
  apply append_cases in E as (Hi & Hsn & n & Hn & Hn' & Hc & Hp' & Hcs & Hl); [|done]. cbn in Hi, Hsn.
  pose proof (visible_next init k pubs n (gd_frontier _ _ _ _ _ _ _ Hg) Hn) as Hvis.
  pose proof (gd_frontier _ _ _ _ _ _ _ Hg) as (Hw & Hrdy & Hini & Hpre & Hnx).
  destruct (Hnx n Hn) as [Hin Hlt].
  assert (∀ m, checked_add n 1 = Some m → m = n + 1) as Hadd by (by intros m [-> _]%checked_add_Some).
  eapply (good_update Ds init _ _ _ _ _ x _ _ _ _ _ _ [] None);
    [exact Hg|by left| |by intros key ?%elem_of_nil|done| |apply (gd_engine _ _ _ _ _ _ _ Hg)
    |apply (gd_statuses _ _ _ _ _ _ _ Hg)| | | | |apply (gd_csns _ _ _ _ _ _ _ Hg)|apply (gd_pubs _ _ _ _ _ _ _ Hg)].
  - split; cbn; try done.
    + exists []. by rewrite app_nil_r.
    + by apply Forall_forall.
    + rewrite Hn'. intros m ->%Hadd. exists n. split; [done|lia].
    + intros c. naive_solver.
  - cbn. intros c [= <-]. right. intros z tz Hz Ez.
    pose proof (gd_tasks _ _ _ _ _ _ _ Hg z _ Hz) as (_ & _ & _ & Ht).
    assert (at_csn ticket < n); [|lia]. unfold task_csn in Ez.
    destruct tz as [| |tt ta tp tk|tt ta tk tpos ttodo| |]; try done; injection Ez as <-.
    + destruct Ht as (_ & _ & _ & (_ & _ & _ & Hd) & _). by apply Hd.
    + destruct Ht as (_ & _ & _ & (_ & _ & _ & Hd) & _). by apply Hd.
  - cbn. eapply holdings_keep; [done|done|apply (gd_intents _ _ _ _ _ _ _ Hg)].
  - intros key r Hr. eapply heads_keep; [by left|done|]. by apply (gd_heads _ _ _ _ _ _ _ Hg).
  - split; [done|]. split; [cbn; by rewrite Hsn|]. split; [done|]. split; [by eapply attempt_ok_txn|].
    split; [done|]. split; [done|]. split.
    + split; [by rewrite Hc|]. rewrite Hsn, Hc. split; [lia|]. split; [intros Hin'%Hlt; lia|].
      cbn. rewrite Hn'. intros m ->%Hadd. lia.
    + unfold plan_for in *. by rewrite Hsn.
  - unfold frontier_ok. cbn. split_and!; try done. rewrite Hn'. intros m ->%Hadd. split; [lia|].
    intros c Hc'%Hlt. lia.
Qed.

(** A refused append aborts the transaction, or fences. *)
Lemma append_err_inv k tasks pubs R C x t a plans k' t' e :
  good k tasks pubs R C → tasks !! x = Some (TaskPreparing t a [] plans) →
  commit_append t k = (k', t', Err e) → fenced (abandon a k') ∨ good (abandon a k') (<[x := TaskIdle t']> tasks) pubs R C.
Proof.
  intros Hg Hx. pose proof (gd_tasks _ _ _ _ _ _ _ Hg x _ Hx) as (H64 & Hs & Hk & Hatt & Hp & Hact & dn & Heq & Hf).
  cbn in Hs, Hk, Hact. unfold commit_append, begin_validation.
  destruct (transition_cases Active Validating t) as [[-> _]|[_ ?]]; [|done].
  destruct (append_validated _ _) as [[ca t1] [ticket|error]] eqn:Ea; [done|].
  apply append_cases in Ea as (Hi & Hsn & Hcase); [|done]. cbn in Hi, Hsn.
  case_bool_decide as Erec; [intros [= <- <- <-]; left; by apply fenced_abandon|].
  destruct Hcase as [?|[Hn Hph]]; [done|]. unfold cleanup_clean_append_failure.
  destruct (status_abort _ _) as [st [[]|e']] eqn:Es; [|intros [= <- <- <-]; left; by apply fenced_abandon].
  apply status_transition_outcome in Es as [_ Hset]; [|apply (gd_statuses _ _ _ _ _ _ _ Hg)].
  rewrite Hi, (ao_id _ _ _ _ Hatt) in Hset. cbn [k_statuses with_appender] in Hset.
  assert (good (abandon a (with_appender ca k)) (<[x := TaskIdle t]> tasks) pubs R C) as Hg1.
  { eapply (good_abandon Ds init _ _ _ _ _ x (TaskPreparing t a [] plans)); try done.
    - by eapply (good_same Ds init k); [|..|apply Hg|apply Hg].
    - split; [done|]. split; [done|]. split; [done|]. split; [apply Hatt|]. split; [done|]. congruence. }
  assert (∀ t2, tx_id t2 = tx_id t → tx_snapshot t2 = tx_snapshot t → tx_phase t2 = Aborted →
    good (abandon a (with_statuses st (with_appender ca k))) (<[x := TaskIdle t2]> tasks) pubs R C) as Hg2.
  { intros t2 Ei Esn Eph. rewrite <-(insert_insert_eq tasks x (TaskIdle t2) (TaskIdle t)).
    eapply (good_status (abandon a (with_appender ca k)) _ _ _ _ x (TaskIdle t)); try done.
    - left. apply lookup_insert_eq.
    - by right.
    - destruct Hset as [_ Hget]. split; [done|]. split; [cbn; by rewrite Esn|]. cbn. rewrite Hget, decide_True by done.
      split; [by eexists|]. split; [rewrite Ei; apply Hatt|]. by rewrite Eph. }
  destruct Hph as [Hph|Hph]; rewrite Hph.
  - rewrite bool_decide_eq_true_2 by done. intros [= <- <- <-]. right. by apply Hg2.
  - rewrite bool_decide_eq_false_2 by done. unfold abort. rewrite Hph. intros [= <- <- <-]. right. by apply Hg2.
Qed.

(** ** After the decision *)
Lemma harden_inv k tasks pubs R C x t a plans ticket k' t' r :
  good k tasks pubs R C → tasks !! x = Some (TaskAppended t a plans ticket) →
  commit_harden ticket plans.2 t k = (k', t', r) →
  match r with
  | Ok position => good k' (<[x := TaskApplying t' a ticket position plans.1]> tasks) pubs R C
  | Err _ => fenced k'
  end.
Proof.
  intros Hg Hx. pose proof (gd_tasks _ _ _ _ _ _ _ Hg x _ Hx) as (H64 & Hs & Hk & Hatt & Hp & Hact & Hd & Hf).
  cbn in Hs, Hk, Hact. unfold commit_harden.
  destruct (appender_sync_through _ _) as [ca [[]|e]] eqn:Es; [|by intros [= <- <- <-]].
  assert (ca_next_csn ca = ca_next_csn (k_appender k)) as Hn.
  { unfold appender_sync_through in Es. destruct (log_sync_through _ _). by simplify_eq. }
  set (k1 := if k_dependencies (with_appender ca k) then _ else _).
  assert (engine_repr (tget (k_statuses k)) (k_engine k1) Ds R C (history pubs)) as He1.
  { pose proof (gd_engine _ _ _ _ _ _ _ Hg) as He. unfold k1. destruct (k_dependencies _); [|done].
    by apply engine_advance_wal_repr. }
  assert (k_statuses k1 = k_statuses k ∧ k_frontier k1 = k_frontier k ∧
    ca_next_csn (k_appender k1) = ca_next_csn (k_appender k) ∧ k_intents k1 = k_intents k) as (E1 & E2 & E3 & E4)
    by (unfold k1; by destruct (k_dependencies _)).
  destruct (mark_durable _ t) as [t1 [position|e]] eqn:Em; [|by intros [= <- <- <-]].
  apply mark_durable_cases in Em as (Mi & Ms & Mc & Mp & _).
  assert (∀ e2, engine_repr (tget (k_statuses k)) e2 Ds R C (history pubs) →
    good (with_engine e2 k1) (<[x := TaskApplying t1 a ticket position plans.1]> tasks) pubs R C) as Hdone.
  { intros e2 He2. eapply (good_move Ds init k _ _ _ _ _ x (TaskAppended t a plans ticket)); try done.
    - by left.
    - cbn. rewrite E4. eapply holdings_keep; [done|done|apply (gd_intents _ _ _ _ _ _ _ Hg)].
    - cbn. set_solver.
    - by left.
    - split; [done|]. split; [cbn; by rewrite Ms|]. split; [done|]. split; [by eapply attempt_ok_txn|].
      split; [done|]. split; [done|]. split.
      + destruct Hd as (Hc & Hlt & Hnin & Hnx). unfold decision_ok. by rewrite Mc, Ms.
      + exists [], (a_effects a). split; [done|]. split; [constructor|]. unfold plan_for in *. by rewrite Ms. }
  destruct plans.2 as [version|].
  - destruct (engine_sync version (k_engine k1)) as [e2 [durable|e]] eqn:Ey; [|by intros [= <- <- <-]].
    apply (engine_sync_repr _ _ _ _ _ _ _ _ _ He1) in Ey.
    intros [= <- <- <-]. apply Hdone. destruct (k_dependencies k1); [by apply engine_advance_undo_repr|done].
  - intros [= <- <- <-]. specialize (Hdone _ He1). by destruct k1.
Qed.

(** The records of an attempt go to different slots. *)
Lemma slots_nodup x t a : attempt_ok x t a → NoDup (slot_of <$> a_effects a).
Proof.
  intros Ha. pose proof (ao_sorted _ _ _ _ Ha) as Hs. induction Hs as [|key keys Hs IH Hf]; [constructor|].
  constructor; [|done]. intros Hin. rewrite Forall_forall in Hf. specialize (Hf key Hin). by apply BTreeMap.lt_ord_irrefl in Hf.
Qed.

Lemma applied_done t a ticket position todo dn rest :
  a_effects a = dn ++ rest → length rest = length todo → applied (TaskApplying t a ticket position todo) = dn.
Proof.
  intros Heq Hl. cbn. rewrite Heq, length_app, Hl. rewrite Nat.add_sub. apply take_app_length.
Qed.

(** With and without the dependency table. *)
Lemma apply_one_inv k tasks pubs R C x t a ticket position plan todo k' t' :
  good k tasks pubs R C → tasks !! x = Some (TaskApplying t a ticket position (plan :: todo)) →
  apply_one (at_decision_lsn ticket) a plan t k = (k', t', Ok tt) →
  ∃ C', good k' (<[x := TaskApplying t' a ticket position todo]> tasks) pubs R C'.
Proof.
  intros Hg Hx. pose proof (gd_tasks _ _ _ _ _ _ _ Hg x _ Hx)
    as (H64 & Hs & Hk & Hatt & Hp & Hact & Hd & dn & rest & Heq & Happ & Hf).
  cbn in Hs, Hk, Hact. apply Forall2_cons_inv_r in Hf as (e & rest' & [[d Hds] Hplan] & Hf & ->).
  destruct plan as [tree p]. cbn [fst snd] in *.
  pose proof (slots_nodup _ _ _ Hatt) as Hnd. rewrite Heq, fmap_app, fmap_cons in Hnd.
  apply NoDup_app in Hnd as (_ & Hdis & Hnd). apply NoDup_cons in Hnd as [Hnin _].
  assert (∀ e', e' ∈ dn → slot_of e' ≠ slot_of e) as Hdn.
  { intros e' He' E. apply (Hdis (slot_of e')); [by apply list_elem_of_fmap_2|]. rewrite E. left. }
  assert (∀ e', e' ∈ rest' → slot_of e' ≠ slot_of e) as Hrest.
  { intros e' He' E. apply Hnin. rewrite <-E. by apply list_elem_of_fmap_2. }
  pose proof (ao_effects _ _ _ _ Hatt) as Heff. rewrite Heq, Forall_app, Forall_cons in Heff.
  destruct Heff as (_ & [Hwf Htx] & _).
  assert (length (e :: rest') = length ((tree, p) :: todo)) as Hlen by (cbn; f_equal; by eapply Forall2_length).
  assert (applied (TaskApplying t a ticket position ((tree, p) :: todo)) = dn) as Hap by (by eapply applied_done).
  assert (∀ t0, applied (TaskApplying t0 a ticket position todo) = dn ++ [e]) as Hap'.
  { intros t0. eapply (applied_done _ _ _ _ _ _ rest'); [by rewrite <-app_assoc|cbn in Hlen; lia]. }
  assert (∀ r, C (slot_of e) = Some r → has_install_identity r (fe_install_identity e) = false) as Hfresh.
  { intros r Hr. destruct (has_install_identity r _) eqn:Ei; [|done].
    apply (head_identity _ _ _ _ _ _ _ _ _ _ Hg Hx Hact Hr Htx) in Ei. rewrite Hap in Ei.
    apply list_elem_of_fmap in Ei as (e' & E & He'). by apply Hdn in He'. }
  rewrite apply_one_dep. cbn [fst snd].
  destruct (apply_prepared_inner _ _ _ _ _ _) as [s' res] eqn:E.
  apply (apply_spec _ _ _ _ _ _ _ _ _ _ _ _ _ _ _ (gd_engine _ _ _ _ _ _ _ Hg) Hds Hwf Hplan Hfresh) in E.
  destruct res as [res|error]; [|done]. intros [= <- <-].
  destruct (pl_current _ _ _ _ _ _ _ Hplan) as (u & Hcur & _).
  rewrite Hcur, Htx in E. rewrite (own_version_writer _ _ _ _ _ (Live 0)) in E by done. cbn [app] in E.
  set (cur := installed x (fe_ordinal e) u (intended_value e)) in *.
  apply (engine_repr_ext _ _ _ _ _ _ (history pubs)) in E.
  2:{ intros key. unfold put. case_decide; by subst. }
  exists (put (slot_of e) (Some cur) C).
  assert (∀ e', slot_of e' ≠ slot_of e → put (slot_of e) (Some cur) C (slot_of e') = C (slot_of e')) as Hput
    by (intros e' Hne; by apply put_ne).
  eapply (good_update Ds init _ _ _ _ _ x _ _ _ _ _ _ [slot_of e] None);
    [exact Hg|by left| | |done| |exact E
    |apply (gd_statuses _ _ _ _ _ _ _ Hg)| | | |apply (gd_frontier _ _ _ _ _ _ _ Hg)
    |apply (gd_csns _ _ _ _ _ _ _ Hg)|apply (gd_pubs _ _ _ _ _ _ _ Hg)].
  - split; cbn; try done.
    + exists []. by rewrite app_nil_r.
    + by apply Forall_forall.
    + intros key Hkey. split; [|done]. apply put_ne. by intros ->; apply Hkey; left.
    + naive_solver.
    + intros c. naive_solver.
  - intros key ->%list_elem_of_singleton. unfold held. cbn. rewrite (ao_keys _ _ _ _ Hatt), Heq, fmap_app, fmap_cons.
    apply elem_of_app. right. left.
  - cbn. intros c Ec. by left.
  - cbn. eapply holdings_keep; [done|done|apply (gd_intents _ _ _ _ _ _ _ Hg)].
  - intros key r Hr. unfold put in Hr. case_decide as Dk.
    + injection Hr as <-. subst key. eexists x, _, _, _. split; [done|]. right. split; [done|].
      eexists. rewrite lookup_insert_eq. split; [done|]. rewrite Hap', fmap_app. apply elem_of_app. right. left.
    + eapply heads_keep; [by left| |by apply (gd_heads _ _ _ _ _ _ _ Hg)].
      rewrite Hap, Hap', fmap_app. set_solver.
  - split; [done|]. split; [done|]. split; [done|]. split; [done|]. split; [done|]. split; [done|]. split; [done|].
    exists (dn ++ [e]), rest'. split; [by rewrite <-app_assoc|]. split.
    + apply Forall_app. split.
      * rewrite Forall_forall in Happ |- *. intros e' He'. destruct (Happ e' He') as [Hc1 Hc2]. split; [|done].
        cbn. rewrite Hput by auto. done.
      * constructor; [|constructor]. split; [cbn; rewrite put_eq; by eexists _, _|].
        intros v Hv. by apply (pl_order _ _ _ _ _ _ _ Hplan) in Hv.
    + clear -Hf Hrest Hput. induction Hf as [|e' plan' rest' todo [Hd' Hp'] Hf IH]; [constructor|]. constructor.
      * split; [done|]. destruct Hp'. split; try done. cbn. rewrite Hput by (apply Hrest; left). done.
      * apply IH. intros e2 He2. apply Hrest. by right.
Qed.

(** ** Publication *)

(** A transaction that applied all its effects owns the records of their slots and
    no others. *)
Lemma owned_slots k tasks pubs R C x t a ticket position key :
  good k tasks pubs R C → tasks !! x = Some (TaskApplying t a ticket position []) →
  match effect_value key (a_effects a) with
  | Some v => (∃ ord u, C key = Some (installed x ord u v)) ∧ ∀ w, w ∈ history pubs key → w.1 ≤ tx_snapshot t
  | None => ∀ r, C key = Some r → mr_owner r ≠ OwnerTransaction x
  end.
Proof.
  intros Hg Hx. pose proof (gd_tasks _ _ _ _ _ _ _ Hg x _ Hx)
    as (_ & _ & _ & _ & _ & Hact & _ & dn & rest & Heq & Happ & Hf).
  apply Forall2_nil_inv_r in Hf as ->. rewrite app_nil_r in Heq. subst dn.
  destruct (effect_value key (a_effects a)) as [v|] eqn:Ev.
  - apply effect_value_Some in Ev as (e & He & <- & ->). rewrite Forall_forall in Happ. by apply Happ.
  - apply effect_value_None in Ev. intros r Hr Ho.
    destruct (gd_heads _ _ _ _ _ _ _ Hg key r Hr) as (z & ord & u & v & -> & Hst). injection Ho as ->.
    cbn in Hact. destruct Hst as [[c Ec]|(_ & task & Hx' & Hkey)]; [congruence|].
    rewrite Hx in Hx'. injection Hx' as <-.
    rewrite (applied_done _ _ _ _ _ (a_effects a) []) in Hkey; [done|by rewrite app_nil_r|done].
Qed.

Lemma published_history k tasks pubs R C x t a ticket position key :
  good k tasks pubs R C → tasks !! x = Some (TaskApplying t a ticket position []) →
  history (publication t a ticket :: pubs) key = published x (at_csn ticket) C (history pubs) key.
Proof.
  intros Hg Hx. pose proof (owned_slots _ _ _ _ _ _ _ _ _ _ key Hg Hx) as Hown.
  rewrite history_cons. cbn [publication pb_effects pb_csn]. unfold published.
  destruct (effect_value key (a_effects a)) as [v|].
  - destruct Hown as [(ord & u & ->) _]. by rewrite decide_True.
  - destruct (C key) as [r|]; [|done]. rewrite decide_False; [done|by apply Hown].
Qed.

(** First committer wins, for one more publication. *)
Lemma publication_ok k tasks pubs R C x t a ticket position :
  good k tasks pubs R C → tasks !! x = Some (TaskApplying t a ticket position []) →
  pubs_ok (publication t a ticket :: pubs) ∧ NoDup (pb_csn <$> publication t a ticket :: pubs).
Proof.
  intros Hg Hx. pose proof (gd_tasks _ _ _ _ _ _ _ Hg x _ Hx) as (_ & _ & _ & Hatt & _ & _ & (_ & Hlt & Hnin & _) & _).
  destruct (gd_pubs _ _ _ _ _ _ _ Hg) as [Hs Hf]. split; [split|].
  - constructor; [done|]. apply Forall_forall. intros p Hp key Hk Hk'. cbn in Hk.
    pose proof (owned_slots _ _ _ _ _ _ _ _ _ _ key Hg Hx) as Hown.
    destruct (effect_value key (a_effects a)) as [v|] eqn:Ev; [|by apply effect_value_None in Ev].
    destruct Hown as [_ Hle]. cbn.
    destruct (effect_value key (pb_effects p)) as [w|] eqn:Ew; [|by apply effect_value_None in Ew].
    apply (Hle (pb_csn p, w)). apply list_elem_of_omap. exists p. by rewrite Ew.
  - by constructor.
  - rewrite fmap_cons. constructor; [done|]. apply (gd_csns _ _ _ _ _ _ _ Hg).
Qed.

Lemma publish_inv k tasks pubs R C x t a ticket position k' t' r :
  good k tasks pubs R C → tasks !! x = Some (TaskApplying t a ticket position []) →
  commit_publish (at_csn ticket) t k = (k', t', r) →
  match r with
  | Ok _ => t' = t ∧ good k' (<[x := TaskWaiting t a ticket position]> tasks) (publication t a ticket :: pubs) R C
  | Err _ => fenced k'
  end.
Proof.
  intros Hg Hx. pose proof (gd_tasks _ _ _ _ _ _ _ Hg x _ Hx)
    as (H64 & Hs & Hk & Hatt & Hp & Hact & (Hcs & Hlt & Hnin & Hnx) & dn & rest & Heq & Happ & Hf).
  cbn in Hs, Hk, Hact. unfold commit_publish. destruct (admit_visibility _) as [[]|e]; [|by intros [= <- <- <-]].
  unfold publish_commit. cbn [w_statuses w_frontier]. rewrite (ao_id _ _ _ _ Hatt).
  destruct (status_commit _ _ _) as [st [[]|e]] eqn:Es; [|by intros [= <- <- <-]].
  apply (status_commit_outcome _ _ _ _ _ (gd_statuses _ _ _ _ _ _ _ Hg)) in Es as (_ & _ & Hw & Hget).
  destruct (mark_ready _ _ _) as [f [v|e]] eqn:Em; [|by intros [= <- <- <-]]. intros [= <- <- <-]. split; [done|].
  pose proof (gd_frontier _ _ _ _ _ _ _ Hg) as (Hrw & Hrdy & Hini & Hpre & Hnext).
  apply (mark_ready_Ok _ _ _ _ _ Hrw) in Em as (Hseen & Hrw' & Hvis & Hrdy' & Hnew).
  assert (∀ z, z ≠ x → tget st z = tget (k_statuses k) z) as Hother by (intros z ?; by rewrite Hget, decide_False).
  assert (tget st x = Some (StatusCommitted (at_csn ticket))) as Hcom by (by rewrite Hget, decide_True).
  destruct (publication_ok _ _ _ _ _ _ _ _ _ _ Hg Hx) as [Hpok Hnd].
  assert (engine_repr (tget st) (k_engine k) Ds R C (history (publication t a ticket :: pubs))) as He.
  { eapply engine_repr_ext; [eapply (engine_repr_commit _ (tget st) _ _ _ _ _ x (at_csn ticket))|];
      [apply (gd_engine _ _ _ _ _ _ _ Hg)|done..| |intros key; by eapply published_history].
    intros key r w Hr Ho Hin. pose proof (owned_slots _ _ _ _ _ _ _ _ _ _ key Hg Hx) as Hown.
    destruct (effect_value key (a_effects a)) as [v'|]; [|by apply Hown in Hr].
    destruct Hown as [_ Hle]. specialize (Hle w Hin). lia. }
  eapply (good_update Ds init _ _ _ _ _ x _ _ _ _ _ _ (slot_of <$> a_effects a) (Some (at_csn ticket)));
    [exact Hg|by left| | |by intros c [= <-]|done|exact He|exact Hw| | | | |exact Hnd|exact Hpok].
  - split; cbn; try done.
    + by exists [];  rewrite app_nil_r.
    + eapply Forall_impl; [apply (er_committed _ _ _ _ _ _ (gd_engine _ _ _ _ _ _ _ Hg))|].
      intros r [c Hc]. eapply same_csn_other; [done|]. intros Eo. rewrite Eo in Hc. cbn in Hc. by rewrite Hact in Hc.
    + intros key Hkey. split; [done|].
      change (history (publication t a ticket :: pubs) key = history pubs key).
      rewrite history_cons. cbn [publication pb_effects]. by apply effect_value_None in Hkey as ->.
    + naive_solver.
    + intros c. rewrite elem_of_cons. naive_solver.
  - intros key. unfold held. cbn. by rewrite (ao_keys _ _ _ _ Hatt).
  - cbn. eapply holdings_keep; [done|done|apply (gd_intents _ _ _ _ _ _ _ Hg)].
  - intros key r Hr. destruct (gd_heads _ _ _ _ _ _ _ Hg key r Hr) as (z & ord & u & w & -> & Hst).
    exists z, ord, u, w. split; [done|]. cbn. destruct (decide (z = x)) as [->|Hne]; [left; by eexists|].
    rewrite Hother by done. by rewrite lookup_insert_ne by done.
  - split; [done|]. split; [cbn; lia|]. cbn. rewrite Hcom. split; [by eexists|]. split_and!; try done. left.
  - unfold frontier_ok. cbn. split_and!; [done| |lia| |].
    + intros c [?%Hrdy| ->]%Hrdy'; [by right|left].
    + intros c Hc. destruct (decide (c ≤ vf_visible (k_frontier k))) as [|Hgt]; [right; apply Hpre; lia|].
      destruct (Hnew c) as [?%Hrdy| ->]; [lia|by right|left].
    + intros n Hn. destruct (Hnext n Hn) as [? Hall]. split; [done|]. intros c [->|?]%elem_of_cons; [by apply Hnx|auto].
Qed.

(** A publication is beyond the frontier of its time. *)
Lemma publish_frontier k tasks pubs R C x t a ticket position k' t' :
  good k tasks pubs R C → tasks !! x = Some (TaskApplying t a ticket position []) →
  commit_publish (at_csn ticket) t k = (k', t', Ok tt) →
  vf_visible (k_frontier k) ≤ vf_visible (k_frontier k') ∧ vf_visible (k_frontier k) < at_csn ticket.
Proof.
  intros Hg Hx. unfold commit_publish. destruct (admit_visibility _); [|done].
  unfold publish_commit. cbn [w_statuses w_frontier].
  destruct (status_commit _ _ _) as [st [[]|e]]; [|done].
  destruct (mark_ready _ _ _) as [f [v|e]] eqn:Em; [|done]. intros [= <- <-].
  apply mark_ready_Ok in Em as (Hseen & _ & Hvis & _); [|apply (gd_frontier _ _ _ _ _ _ _ Hg)]. done.
Qed.

(** ** Acknowledgement *)
Lemma wait_inv k tasks pubs R C x t a ticket position k' t' r :
  good k tasks pubs R C → tasks !! x = Some (TaskWaiting t a ticket position) →
  commit_wait (at_csn ticket) t k = (k', t', Some r) →
  match r with
  | Ok _ => good k' (<[x := TaskCompleting t' a ticket position]> tasks) pubs R C
  | Err _ => fenced k'
  end.
Proof.
  intros Hg Hx. pose proof (gd_tasks _ _ _ _ _ _ _ Hg x _ Hx) as (H64 & Hs & Hk & Hatt & Hp & Hst & Hcs & Hin).
  unfold commit_wait. destruct (_.2) as [[v|e]|] eqn:Ew; [| |done]; [|by intros [= <- <- <-]]. intros [= <- <- <-].
  assert (at_csn ticket ≤ vf_visible (k_frontier k)) as Hle.
  { unfold wait_visible in Ew. cbn in Ew. destruct (vf_poisoned _); [done|]. unfold wait_round in Ew. cbn in Ew.
    destruct (vf_recovery_required _); [done|]. unfold snapshot in Ew.
    destruct (_ <=? _) eqn:E in Ew; [|done]. by bool_to_prop. }
  eapply (good_move Ds init k _ _ _ _ _ x (TaskWaiting t a ticket position)); try done.
  - by left.
  - apply (gd_engine _ _ _ _ _ _ _ Hg).
  - eapply holdings_keep; [done|done|apply (gd_intents _ _ _ _ _ _ _ Hg)].
  - by left.
Qed.

Lemma complete_inv k tasks pubs R C x t a ticket position k' t' r :
  good k tasks pubs R C → tasks !! x = Some (TaskCompleting t a ticket position) →
  commit_complete t k = (k', t', r) →
  match r with
  | Ok _ => good (leave (with_intents (guard_release (a_guard a) (k_intents k')) k')) (<[x := TaskIdle t']> tasks) pubs R C
  | Err _ => fenced k'
  end.
Proof.
  intros Hg Hx. pose proof (gd_tasks _ _ _ _ _ _ _ Hg x _ Hx) as (H64 & Hs & Hk & Hatt & Hp & Hst & Hcs & Hin & Hle).
  unfold commit_complete. destruct (admit_visibility _) as [[]|e]; [|by intros [= <- <- <-]].
  unfold mark_visible. destruct (transition_cases DurableDecision Visible t) as [[-> _]|[-> _]]; [|by intros [= <- <- <-]].
  cbn. intros [= <- <- <-]. rewrite guard_release_all.
  apply (good_abandon Ds init k tasks pubs R C x (TaskCompleting t a ticket position)); try done.
  split; [done|]. split; [done|]. split; [done|]. split; [apply Hatt|]. split; [done|]. intros _ c Hc.
  cbn in Hc. rewrite Hcs in Hc. by injection Hc as <-.
Qed.

(** ** All steps *)
Lemma task_inv k tasks pubs R C x task k' task' new :
  good k tasks pubs R C → tasks !! x = Some task → task_step task k = Some (k', task', new) →
  fenced k' ∨ ∃ R' C', good k' (<[x := task']> tasks) (new ++ pubs) R' C'.
Proof.
  intros Hg Hx E.
  destruct task as [t|t a [|e rest] plans|t a plans ticket|t a ticket pos [|plan todo]|t a ticket pos|t a ticket pos];
    cbn [task_step] in E; [done|..].
  - destruct (commit_append t k) as [[k1 t1] [ticket|e]] eqn:Ea; injection E as <- <- <-.
    + right. exists R, C. unfold commit_append in Ea.
      destruct (begin_validation t) as [t2 [[]|e]] eqn:Eb; [|done].
      destruct (append_validated _ t2) as [[ca t3] [tk|e]] eqn:Ev.
      2:{ case_bool_decide; [done|]. by destruct (cleanup_clean_append_failure _ _) as [[] []]. }
      injection Ea as <- <- <-. unfold begin_validation in Eb.
      destruct (transition_cases Active Validating t) as [[Et _]|[Et _]]; rewrite Et in Eb; [|done].
      injection Eb as <-. by eapply append_ok_inv.
    + apply (append_err_inv _ _ _ _ _ _ _ _ _ _ _ _ Hg Hx) in Ea as [?|?]; [by left|right; by exists R, C].
  - assert (new = []) as ->.
    { unfold prepare_one in E. repeat (case_match; simplify_eq/=; try done). }
    apply (prepare_one_inv _ _ _ _ _ _ _ _ _ _ _ _ _ Hg Hx) in E as [?|[R' ?]]; [by left|right; by exists R', C].
  - destruct (commit_harden ticket plans.2 t k) as [[k1 t1] [position|e]] eqn:Eh;
      apply (harden_inv _ _ _ _ _ _ _ _ _ _ _ _ _ Hg Hx) in Eh; injection E as <- <- <-;
      [right; by exists R, C|left; by apply fenced_abandon].
  - destruct (commit_publish _ t k) as [[k1 t1] [[]|e]] eqn:Eh;
      apply (publish_inv _ _ _ _ _ _ _ _ _ _ _ _ _ Hg Hx) in Eh; injection E as <- <- <-;
      [destruct Eh as [-> ?]; right; by exists R, C|left; by apply fenced_abandon].
  - destruct (apply_one _ a plan t k) as [[k1 t1] [[]|e]] eqn:Eh; injection E as <- <- <-.
    + right. destruct (apply_one_inv _ _ _ _ _ _ _ _ _ _ _ _ _ _ Hg Hx Eh) as [C' ?]. by exists R, C'.
    + left. apply fenced_abandon. rewrite apply_one_dep in Eh.
      destruct (apply_prepared_inner _ _ _ _ _ _) as [s [r|err]]; [done|]. by injection Eh as <- <- <-.
  - destruct (commit_wait _ t k) as [[k1 t1] [r|]] eqn:Eh; [|done].
    apply (wait_inv _ _ _ _ _ _ _ _ _ _ _ _ _ Hg Hx) in Eh.
    destruct r; injection E as <- <- <-; [right; by exists R, C|left; by apply fenced_abandon].
  - destruct (commit_complete t k) as [[k1 t1] [[]|e]] eqn:Eh;
      apply (complete_inv _ _ _ _ _ _ _ _ _ _ _ _ _ Hg Hx) in Eh; injection E as <- <- <-;
      [right; by exists R, C|left; by apply fenced_abandon].
Qed.

Lemma sys_step_good y z R C :
  good (sy_kernel y) (sy_tasks y) (sy_published y) R C → sys_step (length Ds) y z → kernel_inv Ds init z.
Proof.
  intros Hg Hs. destruct Hs as [x k t H64 E|x k e E|x t o key value Hx|x t o key Hx|x t trees k a Hx Htr E
    |x t trees k e Hx Htr E|x task k task' new Hx E|x t k t' r Hx E|tree key reader snap e r Hd E
    |fuel tree c limit e c' r Hd Hc Hl E].
  - right. exists R, C. by eapply begin_inv.
  - right. exists R, C. by eapply begin_refused_inv.
  - right. exists R, C. by apply put_inv.
  - right. exists R, C. by apply delete_inv.
  - right. exists R, C. by eapply enter_inv.
  - right. exists R, C. by eapply enter_refused_inv.
  - apply (task_inv _ _ _ _ _ _ _ _ _ _ Hg Hx) in E as [?|(R' & C' & ?)]; [by left|right; eauto].
  - apply (abort_inv _ _ _ _ _ _ _ _ _ _ Hg Hx) in E as [?|?]; [by left|right; eauto].
  - right. exists R, C. apply lookup_lt_is_Some in Hd as [d Hd].
    apply (mvcc_lookup_repr _ _ _ _ _ _ _ _ _ _ _ _ _ _ (gd_engine _ _ _ _ _ _ _ Hg) Hd) in E.
    by eapply (good_same Ds init (sy_kernel y)); [|..|apply Hg|].
  - right. exists R, C. apply lookup_lt_is_Some in Hd as [d Hd].
    assert (engine_repr (tget (k_statuses (sy_kernel y))) e Ds R C (history (sy_published y))) as He.
    { pose proof (gd_engine _ _ _ _ _ _ _ Hg) as He. unfold mvcc_next_batch in E.
      destruct (reader_admission _) as [[]|]; [|by injection E as <-].
      destruct (_ || _); [by injection E as <-|].
      by apply (mvcc_batch_repr _ _ _ _ _ _ _ _ _ _ _ _ _ _ _ _ He Hd Hc (proj2 Hl)) in E as [? _]. }
    by eapply (good_same Ds init (sy_kernel y)); [|..|apply Hg|].
Qed.

(** A fenced runtime stays fenced and publishes nothing. *)

Lemma sys_step_inv y z : kernel_inv Ds init y → sys_step (length Ds) y z → kernel_inv Ds init z.
Proof.
  intros [Hf|(R & C & Hg)] Hs; [left; by eapply sys_step_fenced|by eapply sys_step_good].
Qed.

Lemma sys_steps_inv y z : kernel_inv Ds init y → rtc (sys_step (length Ds)) y z → kernel_inv Ds init z.
Proof. intros Hi Hs. induction Hs; eauto using sys_step_inv. Qed.

End steps.
