(* ===== verification/ReplaySpec.v ===== *)
(** * Replay rebuilds the committed history

    The applicator of [OrderedRecovery.v], applied to the recovered transactions in
    commit order, leaves a store whose version chains spell exactly those
    transactions. *)
From S2P Require Import Prelude StdCollections Ids Crc Fs Log WriteSet Txn Recovery Shards Mvcc UndoStore Visibility WriteIntent Admission Buffer PageDependency PageV4 KeyOrder TreeV4 TreeRange ObjectStore OrderedMvcc OrderedRead OrderedCommit Versions InstallSpec Interleaving Settling IsolationInv IsolationSteps OrderedRecovery.

Local Open Scope Z_scope.
Local Open Scope seer_scope.

(** A replayed transaction as a commit that saw all earlier ones. *)
Definition replayed (r : RecoveredTransaction) (effects : list FinalEffect) : Publication :=
  {| pb_txn := rt_txn_id r; pb_csn := cp_csn (rt_position r); pb_snapshot := cp_csn (rt_position r) - 1;
     pb_effects := effects |}.

(** [H] with one more version at [c] for every effect. *)
Definition extend (c : CommitSeq) (es : list FinalEffect) (H : Histories) : Histories := λ k,
  match effect_value k es with Some v => (c, v) :: H k | None => H k end.

Lemma extend_history r es pubs k :
  history (replayed r es :: pubs) k = extend (cp_csn (rt_position r)) es (history pubs) k.
Proof. by rewrite history_cons. Qed.

Lemma extend_cons c e es H k :
  slot_of e ∉ slot_of <$> es →
  extend c es (put (slot_of e) ((c, intended_value e) :: H (slot_of e)) H) k = extend c (e :: es) H k.
Proof.
  intros Hnin. unfold extend, put, effect_value at 2. cbn. case_bool_decide as D; cbn.
  - subst k. rewrite (proj2 (effect_value_None _ _) Hnin). by rewrite decide_True.
  - rewrite decide_False by done. done.
Qed.

Section replay.
Context (Ds : list StorageObjectDescriptor) (init : CommitSeq).
Context `{Hcrc : Crc32c} {W : Type} `{Hos : ObjectStore W} `{Hlaws : !ObjectStoreLaws W} `{Hih : IntentHasher}.
Implicit Types (p : OrderedRecoveryApplier W) (R : list MvccRecord) (C : Currents) (H : Histories).

Definition replay_plan (S : Statuses) R C H (csn : CommitSeq) (e : FinalEffect)
    (plan : nat * PreparedOrderedMvccEffect) : Prop :=
  is_Some (Ds !! plan.1) ∧ plan_ok S R C H e (Recovery csn) plan.2.

(** No record of the slot carries the identity of the effect. *)
Definition unclaimed C (e : FinalEffect) : Prop :=
  ∀ r, C (slot_of e) = Some r → has_install_identity r (fe_install_identity e) = false.

Lemma replay_prepare_inv csn guard objects C H : ∀ effects plans p R dn p' plans',
  engine_repr (tget (ap_statuses p)) (ap_engine p) Ds R C H →
  (∀ o h, objects !! o = Some h → is_Some (Ds !! h)) →
  Forall (λ e, unclaimed C e ∧ not_aborted (tget (ap_statuses p)) (C (slot_of e))) effects →
  Forall2 (replay_plan (tget (ap_statuses p)) R C H csn) dn plans.1 →
  replay_prepare csn guard objects effects plans p = (p', Ok plans') →
  ∃ R', engine_repr (tget (ap_statuses p)) (ap_engine p') Ds (R ++ R') C H ∧
    Forall2 (replay_plan (tget (ap_statuses p)) (R ++ R') C H csn) (dn ++ effects) plans'.1 ∧
    p' = ap_with_engine (ap_engine p') p.
Proof.
  induction effects as [|e effects IH]; intros plans p R dn p' plans' He Hob Hf Hd; cbn [replay_prepare].
  { intros [= <- <-]. exists []. rewrite !app_nil_r. by destruct p. }
  apply Forall_cons in Hf as [[Hun Hna] Hf].
  destruct (objects !! fe_object e) as [tree|] eqn:Eo; [|done]. destruct (Hob _ _ Eo) as [d Hds].
  destruct (prepare _ tree guard e (Recovery csn) (ap_engine p)) as [s' [[plan|u]|error]] eqn:E; [| |done];
    apply (prepare_spec _ _ _ _ _ _ _ _ _ _ _ _ _ He Hds Hna) in E.
  - destruct E as (R1 & He1 & Hplan). intros Er.
    apply (IH _ _ (R ++ R1) (dn ++ [e])) in Er as (R2 & He2 & Hd2 & Hp2); [|done..|].
    + exists (R1 ++ R2). rewrite app_assoc. split; [done|]. split; [by rewrite <-(app_assoc dn) in Hd2|]. exact Hp2.
    + cbn [fst]. apply Forall2_app.
      * eapply Forall2_impl; [exact Hd|]. intros e' plan' [Hd' Hp']. split; [done|].
        eapply plan_ok_stable; [exact Hp'|done..| |]; [done|by apply Forall_forall].
      * constructor; [|constructor]. split; [by eexists|exact Hplan].
  - destruct E as (_ & r & Hr & Hi & _). by rewrite (Hun r Hr) in Hi.
Qed.

Lemma replay_apply_inv csn lsn guard R : ∀ es plans p C H p',
  engine_repr (tget (ap_statuses p)) (ap_engine p) Ds R C H → csn ≠ 0 →
  Forall2 (replay_plan (tget (ap_statuses p)) R C H csn) es plans → NoDup (slot_of <$> es) →
  Forall (λ e, effect_wf e ∧ unclaimed C e ∧ tget (ap_statuses p) (fe_txn_id e) = Some (StatusCommitted csn)) es →
  replay_apply lsn guard plans p = (p', Ok tt) →
  p' = ap_with_engine (ap_engine p') p ∧
  ∃ C', engine_repr (tget (ap_statuses p)) (ap_engine p') Ds R C' (extend csn es H) ∧
    ∀ k r, C' k = Some r → C k = Some r ∨
      ∃ e u, e ∈ es ∧ r = installed (fe_txn_id e) (fe_ordinal e) u (intended_value e).
Proof.
  induction es as [|e es IH]; intros plans p C H p' He Hnz Hpl Hnd Hf.
  { apply Forall2_nil_inv_l in Hpl as ->. intros [= <-]. split; [by destruct p|]. exists C. auto. }
  apply Forall2_cons_inv_l in Hpl as (plan & plans' & [[d Hds] Hplan] & Hpl & ->). cbn [replay_apply].
  apply Forall_cons in Hf as [(Hwf & Hun & Hst) Hf]. rewrite fmap_cons in Hnd. apply NoDup_cons in Hnd as [Hnin Hnd].
  set (dep := if ap_dependencies p then Some {| pm_required_wal := lsn |} else None).
  replace (if ap_dependencies p then _ else _) with
    (apply_prepared_inner (ap_statuses p) plan.1 guard plan.2 dep (ap_engine p))
    by (unfold dep, apply_prepared_with_dependencies, apply_prepared; by destruct (ap_dependencies p)).
  destruct (apply_prepared_inner _ _ _ _ _ _) as [s' [res|error]] eqn:E; [|done].
  apply (apply_spec _ _ _ _ _ _ _ _ _ _ _ _ _ _ _ He Hds Hwf Hplan Hun) in E.
  destruct (pl_current _ _ _ _ _ _ _ Hplan) as (u & Hcur & _). rewrite Hcur in E.
  rewrite (own_version_writer _ _ _ _ _ (Recovery csn)) in E by done. cbn [app] in E.
  set (cur := installed (fe_txn_id e) (fe_ordinal e) u (intended_value e)) in *.
  assert (∀ e', e' ∈ es → slot_of e' ≠ slot_of e) as Hne.
  { intros e' He' Eq. apply Hnin. rewrite <-Eq. by apply list_elem_of_fmap_2. }
  intros Er. eapply (IH plans' (ap_with_engine s' p)) in Er as [Hp' (C' & He' & HC')]; [|exact E|done| |done|].
  - split; [done|]. exists C'. split.
    + eapply engine_repr_ext; [exact He'|]. intros k. symmetry. by apply extend_cons.
    + intros k r Hr. destruct (HC' k r Hr) as [Hr'|(e' & u' & He1 & ->)].
      * unfold put in Hr'. case_decide; [|by left]. injection Hr' as <-. right. exists e, u. split; [left|done].
      * right. exists e', u'. split; [by right|done].
  - clear -Hpl Hne. induction Hpl as [|e' plan' es' plans'' [Hd' Hp'] Hf IH]; [constructor|]. constructor.
    + split; [done|]. rewrite <-(app_nil_r R). eapply plan_ok_stable; [exact Hp'| | |done|by apply Forall_forall].
      * apply put_ne, Hne. left.
      * apply put_ne, Hne. left.
    + apply IH. intros e2 He2. apply Hne. by right.
  - rewrite Forall_forall in Hf |- *. intros e' He'. destruct (Hf e' He') as (? & Hun' & ?). split_and!; [done| |done].
    intros r Hr. rewrite put_ne in Hr by (by apply Hne). by apply Hun'.
Qed.

(** ** The replayed store *)
Record rgood p (pubs : list Publication) R C : Prop := {
  rg_engine : engine_repr (tget (ap_statuses p)) (ap_engine p) Ds R C (history pubs);
  rg_statuses : table_wf (ap_statuses p);
  rg_intents : intents_repr (ap_intents p) [];
  rg_heads : ∀ key r, C key = Some r → ∃ x ord u v c, r = installed x ord u v ∧
    tget (ap_statuses p) x = Some (StatusCommitted c);
  rg_commits : ∀ x st, tget (ap_statuses p) x = Some st →
    ∃ pub, pub ∈ pubs ∧ pb_txn pub = x ∧ st = StatusCommitted (pb_csn pub);
  rg_ready : vf_ready (ap_frontier p) = [];
  rg_visible : init ≤ vf_visible (ap_frontier p);
  rg_csns : ∀ c, c ∈ pb_csn <$> pubs ↔ init < c ≤ vf_visible (ap_frontier p);
  rg_nodup : NoDup (pb_csn <$> pubs);
  rg_pubs : pubs_ok pubs
}.

Lemma replay_objects_trees p : ∀ trees objects objects' o h,
  replay_objects trees objects p = Ok objects' → objects' !! o = Some h → h ∈ trees ∨ objects !! o = Some h.
Proof.
  induction trees as [|tree trees IH]; intros objects objects' o h; cbn [replay_objects].
  { intros [= ->]. by right. }
  destruct (negb _); [done|]. case_bool_decide; [done|]. intros E Ho.
  destruct (IH _ _ _ _ E Ho) as [?|Hin]; [left; by right|].
  apply lookup_insert_Some in Hin as [[_ <-]|[_ ?]]; [left; by left|by right].
Qed.

(** One contiguous publication moves the frontier by one. *)
Lemma mark_ready_next f f' v :
  vf_ready f = [] → mark_ready (vf_visible f) f (vf_visible f + 1) = (f', Ok v) →
  vf_visible f' = vf_visible f + 1 ∧ vf_ready f' = [].
Proof.
  intros Hr. unfold mark_ready. destruct (_ <=? _) eqn:E; [bool_to_prop; lia|].
  destruct (vf_poisoned f); [done|]. destruct (vf_recovery_required f); [done|].
  unfold advance_locked. cbn [vf_ready vf_visible]. rewrite Hr. cbn [BTreeSet.insert length advance_loop].
  destruct (checked_add (vf_visible f) 1) as [n|] eqn:En; [|done]. apply checked_add_Some in En as [-> _].
  cbn [BTreeSet.remove]. rewrite BTreeMap.cmp_refl. cbn [negb advance_loop].
  destruct (checked_add (vf_visible f + 1) 1) as [n|]; [|done]. cbn. by intros [= <- <-].
Qed.

Lemma replay_sync_inv S R C H required p p' :
  engine_repr S (ap_engine p) Ds R C H → replay_sync required p = (p', Ok tt) →
  engine_repr S (ap_engine p') Ds R C H ∧ p' = ap_with_engine (ap_engine p') p.
Proof.
  intros He. unfold replay_sync. destruct required as [v|]; [|intros [= <-]; by destruct p].
  destruct (engine_sync v (ap_engine p)) as [e [d|err]] eqn:Es; [|done].
  apply (engine_sync_repr _ _ _ _ _ _ _ _ _ He) in Es. intros [= <-]. split; [|done]. cbn.
  destruct (ap_dependencies p); [by apply engine_advance_undo_repr|done].
Qed.

(** The store before the transaction [x] and with its status recovered. *)
Lemma recovered_status p pubs R C x c st :
  rgood p pubs R C → tget (ap_statuses p) x = None → status_set (ap_statuses p) st x (StatusCommitted c) →
  engine_repr (tget st) (ap_engine p) Ds R C (history pubs) ∧
  ∀ key r, C key = Some r → ∃ z ord u v c', r = installed z ord u v ∧ z ≠ x ∧ tget st z = Some (StatusCommitted c').
Proof.
  intros Hg Hnone [_ Hget].
  assert (∀ z, z ≠ x → tget st z = tget (ap_statuses p) z) as Hother by (intros z ?; by rewrite Hget, decide_False).
  assert (∀ key r, C key = Some r → ∃ z ord u v c', r = installed z ord u v ∧ z ≠ x ∧
    tget st z = Some (StatusCommitted c')) as Hheads.
  { intros key r Hr. destruct (rg_heads _ _ _ _ Hg key r Hr) as (z & ord & u & v & c' & -> & Hz).
    exists z, ord, u, v, c'. assert (z ≠ x) as Hne by congruence. by rewrite Hother. }
  split; [|done]. eapply engine_repr_statuses; [apply (rg_engine _ _ _ _ Hg)| |].
  - intros key r Hr. destruct (Hheads key r Hr) as (z & ord & u & v & c' & -> & Hne & _).
    eapply same_csn_other; [done|]. cbn. congruence.
  - eapply Forall_impl; [apply (er_committed _ _ _ _ _ _ (rg_engine _ _ _ _ Hg))|].
    intros r [c' Hc']. eapply same_csn_other; [done|]. intros Eo. rewrite Eo in Hc'. cbn in Hc'. by rewrite Hnone in Hc'.
Qed.

Lemma replayed_pubs_ok pubs r es visible :
  pubs_ok pubs → (∀ c, c ∈ pb_csn <$> pubs ↔ init < c ≤ visible) → cp_csn (rt_position r) = visible + 1 →
  pubs_ok (replayed r es :: pubs).
Proof.
  intros [Hs Hf] Hc Hr. split; [constructor; [done|]|constructor; [cbn; lia|done]].
  apply Forall_forall. intros q Hq k _ _. cbn. assert (pb_csn q ∈ pb_csn <$> pubs) as Hin%Hc
    by (by apply list_elem_of_fmap_2). lia.
Qed.

(** Publication of a status that is recovered already. *)
Lemma publish_recovered_next T f x w v :
  table_wf T → tget T x = Some (StatusCommitted (vf_visible f + 1)) → vf_ready f = [] →
  publish_recovered (snapshot f) {| w_statuses := T; w_frontier := f |} x (vf_visible f + 1) = (w, Ok v) →
  w_statuses w = T ∧ vf_visible (w_frontier w) = vf_visible f + 1 ∧ vf_ready (w_frontier w) = [].
Proof.
  intros Hw Hx Hr. unfold publish_recovered. cbn [w_statuses w_frontier].
  destruct (recover_committed T x _) as [st [[]|e]] eqn:Es; [|done].
  apply recover_committed_outcome in Es as [_ [[-> _]|[? _]]]; [|congruence|done].
  destruct (mark_ready _ _ _) as [f' rr] eqn:Em. intros [= <- ->]. split; [done|]. by eapply mark_ready_next.
Qed.

(** What the engine and the statuses are once all effects are installed. *)
Lemma replay_installed_inv p pubs R C r trees es guard p' i :
  rgood p pubs R C → cp_csn (rt_position r) = vf_visible (ap_frontier p) + 1 →
  Forall (λ h, (h < length Ds)%nat) trees → StronglySorted lt_ord (slot_of <$> es) →
  Forall (λ e, effect_wf e ∧ fe_txn_id e = rt_txn_id r) es →
  replay_installed r trees es guard (ap_with_intents i p) = (p', Ok tt) →
  ap_intents p' = i ∧ ∃ R' C', ∀ i', intents_repr i' [] → rgood (ap_with_intents i' p') (replayed r es :: pubs) R' C'.
Proof.
  intros Hg Hcsn Htrees Hsort Hes. unfold replay_installed. rewrite Hcsn.
  destruct (replay_preflight _ _ _ _) as [objects|e] eqn:Epf; [|done].
  destruct (recover_committed _ _ _) as [st [[]|e]] eqn:Es; cbn [map_err]; [|done]. cbn [ap_statuses ap_with_intents ap_update] in Es.
  apply (recover_committed_outcome _ _ _ _ _ (rg_statuses _ _ _ _ Hg)) in Es as [Hnz Hcase].
  set (x := rt_txn_id r) in *. set (c := vf_visible (ap_frontier p) + 1) in *.
  assert (tget (ap_statuses p) x = None ∧ status_set (ap_statuses p) st x (StatusCommitted c)) as [Hnone Hset].
  { destruct Hcase as [[_ Hx]|?]; [|done]. exfalso. destruct (rg_commits _ _ _ _ Hg x _ Hx) as (pub & Hin & _ & Hc).
    injection Hc as Hc. assert (pb_csn pub ∈ pb_csn <$> pubs) as Hin'%(rg_csns _ _ _ _ Hg) by (by apply list_elem_of_fmap_2).
    lia. }
  destruct (recovered_status _ _ _ _ _ _ _ Hg Hnone Hset) as [He Hheads]. destruct Hset as [Hw Hget].
  assert (tget st x = Some (StatusCommitted c)) as Hx by (by rewrite Hget, decide_True).
  set (p1 := ap_update st _ _ _ _). destruct (replay_prepare _ _ _ _ _ p1) as [p2 [plans|e]] eqn:Ep; [|done].
  assert (∀ e, e ∈ es → unclaimed C e) as Hun.
  { intros e Hin r' Hr'. destruct (Hheads _ _ Hr') as (z & ord & u & v & c' & -> & Hne & _). cbn.
    rewrite Forall_forall in Hes. destruct (Hes e Hin) as [_ ->]. by rewrite (proj2 (Z.eqb_neq _ _) Hne). }
  apply (replay_prepare_inv _ _ _ C (history pubs) es _ p1 R []) in Ep as (R1 & He1 & Hpl & Hp2); [|done| | |constructor].
  2:{ intros o h Ho. unfold replay_preflight in Epf. destruct (replay_objects trees ∅ _) as [objs|] eqn:Eo; [|done].
      destruct (replay_effects _ _ _ _); [|done]. injection Epf as ->.
      destruct (replay_objects_trees _ _ _ _ _ _ Eo Ho) as [Hin|?]; [|done].
      rewrite Forall_forall in Htrees. by apply lookup_lt_is_Some, Htrees. }
  2:{ apply Forall_forall. intros e Hin. split; [by apply Hun|]. intros r' z Hr' Ho.
      destruct (Hheads _ _ Hr') as (z' & ord & u & v & c' & -> & _ & Hz). injection Ho as <-. cbn. congruence. }
  destruct (replay_sync plans.2 p2) as [p3 [[]|e]] eqn:Ey; [|done].
  apply (replay_sync_inv _ _ _ _ _ _ _ He1) in Ey as [He2 Hp3].
  destruct (replay_apply _ guard plans.1 p3) as [p4 [[]|e]] eqn:Ea; [|done].
  assert (ap_statuses p3 = st ∧ ap_frontier p3 = ap_frontier p ∧ ap_intents p3 = i) as (E1 & E2 & E3)
    by (rewrite Hp3, Hp2; done).
  apply (replay_apply_inv c _ _ (R ++ R1) es _ p3 C (history pubs)) in Ea as [Hp4 (C' & He3 & HC')].
  2:{ rewrite E1. exact He2. }
  2:{ done. }
  2:{ rewrite E1. exact Hpl. }
  2:{ clear -Hsort. induction Hsort as [|key keys Hs IH Hf]; [constructor|]. constructor; [|done].
      intros Hin. rewrite Forall_forall in Hf. by apply Hf, BTreeMap.lt_ord_irrefl in Hin. }
  2:{ rewrite E1. rewrite Forall_forall in Hes |- *. intros e Hin. destruct (Hes e Hin) as [Hwf ->]. by auto. }
  assert (ap_statuses p4 = st ∧ ap_frontier p4 = ap_frontier p ∧ ap_intents p4 = i) as (F1 & F2 & F3)
    by (rewrite Hp4; done).
  rewrite E1 in He3. rewrite F1, F2.
  destruct (publish_recovered _ _ _ _) as [w [v|e]] eqn:Eq; cbn [map_err]; [|done].
  apply publish_recovered_next in Eq as (Q1 & Q2 & Q3); [|done|done|apply (rg_ready _ _ _ _ Hg)].
  intros [= <-]. split; [exact F3|]. exists (R ++ R1), C'. intros i' Hi'.
  split; cbn [ap_statuses ap_with_intents ap_update ap_engine ap_intents ap_frontier]; rewrite ?Q1; try done.
  - eapply engine_repr_ext; [exact He3|]. intros k. rewrite extend_history. by rewrite Hcsn.
  - intros key r' Hr'. destruct (HC' key r' Hr') as [Hold|(e & u & Hin & ->)].
    + destruct (Hheads _ _ Hold) as (z & ord & u & v' & c' & -> & _ & Hz). eauto 8.
    + rewrite Forall_forall in Hes. destruct (Hes e Hin) as [_ ->]. eauto 8.
  - intros z st' Hz. rewrite Hget in Hz. case_decide as Dz.
    + injection Hz as <-. eexists. split; [left|]. cbn. by rewrite Hcsn.
    + destruct (rg_commits _ _ _ _ Hg z _ Hz) as (pub & Hin & Hpx & Hpc). exists pub. split; [by right|done].
  - rewrite Q2. pose proof (rg_visible _ _ _ _ Hg). lia.
  - intros c'. rewrite fmap_cons, elem_of_cons, (rg_csns _ _ _ _ Hg), Q2. cbn. rewrite Hcsn.
    pose proof (rg_visible _ _ _ _ Hg). unfold c. lia.
  - rewrite fmap_cons. constructor; [|apply (rg_nodup _ _ _ _ Hg)]. rewrite (rg_csns _ _ _ _ Hg). cbn. rewrite Hcsn. lia.
  - eapply replayed_pubs_ok; [apply Hg|apply (rg_csns _ _ _ _ Hg)|done].
Qed.

(** Every call of [apply]: the transaction after the frontier is added to the
    history, one the frontier covers is recognised, anything else changes nothing
    or fences. *)
Lemma replay_inv p pubs R C r trees p' res :
  rgood p pubs R C → is_u64 (rt_txn_id r) → Forall (λ h, (h < length Ds)%nat) trees →
  replay r trees p = (p', res) →
  match res with
  | Ok Applied => ∃ es R' C', recovered_final_effects r = Ok es ∧
      cp_csn (rt_position r) = vf_visible (ap_frontier p) + 1 ∧ rgood p' (replayed r es :: pubs) R' C'
  | Ok AlreadyApplied => p' = p ∧ ∃ pub, pub ∈ pubs ∧ pb_txn pub = rt_txn_id r ∧ pb_csn pub = cp_csn (rt_position r)
  | Err _ => ap_fenced p' = true ∨ p' = p
  end.
Proof.
  intros Hg H64 Htr. unfold replay. destruct (ap_ensure_open p) as [[]|e]; [|intros [= <- <-]; by right].
  destruct (ap_poisoned p); [intros [= <- <-]; by left|].
  destruct (_ <=? _) eqn:Evis.
  { destruct (status _ _) as [st|e] eqn:Es; cbn [map_err]; [|intros [= <- <-]; by right].
    case_bool_decide; intros [= <- <-]; [|by left]. subst st. apply status_Ok in Es. split; [done|].
    destruct (rg_commits _ _ _ _ Hg _ _ Es) as (pub & Hin & Hx & Hc). injection Hc as Hc. eauto. }
  bool_to_prop. destruct (checked_add _ 1) as [expected|] eqn:Ex; [|intros [= <- <-]; by right].
  apply checked_add_Some in Ex as [-> _].
  destruct (_ =? _) eqn:Ec; cbn [negb]; [|intros [= <- <-]; by left]. bool_to_prop.
  destruct (_ && _); [intros [= <- <-]; by left|].
  destruct (recovered_final_effects r) as [es|e] eqn:Efx; [|intros [= <- <-]; by left].
  destruct (try_acquire _ es _) as [i [g|e]] eqn:Ea; [|intros [= <- <-]; by left].
  apply (try_acquire_repr _ _ _ _ _ _ (rg_intents _ _ _ _ Hg)) in Ea as (Eg & Ek & Er & Hs & Hf & Hi).
  destruct (replay_installed r trees es g _) as [p1 [[]|e]] eqn:Ei; [|intros [= <- <-]; by left].
  intros [= <- <-]. apply (replay_installed_inv p pubs R C) in Ei as [Hi1 (R' & C' & Hgood)]; try done.
  - exists es, R', C'. split; [done|]. split; [done|]. apply Hgood.
    rewrite Hi1, guard_release_all. unfold release_all. rewrite Er. cbn [snd].
    apply rollback_repr. by rewrite app_nil_r, Eg in *.
  - unfold recovered_final_effects in Efx. apply normalize_effects_wf in Efx.
    eapply Forall_impl; [exact Efx|]. intros e [Ho Ht]. unfold effect_wf. by rewrite Ht.
Qed.

(** A sequence of calls that were all applied. *)
Inductive replays (trees : list nat) : OrderedRecoveryApplier W → list RecoveredTransaction → OrderedRecoveryApplier W → Prop :=
| replays_nil p : replays trees p [] p
| replays_cons p r p1 rs p2 :
    replay r trees p = (p1, Ok Applied) → replays trees p1 rs p2 → replays trees p (r :: rs) p2.

(** The publications of a replay, newest first. *)
Definition replay_history (rs : list RecoveredTransaction) (pubs : list Publication) : Prop :=
  Forall2 (λ r pub, ∃ es, recovered_final_effects r = Ok es ∧ pub = replayed r es) rs (rev pubs).

Lemma replay_history_inj rs pubs pubs' : replay_history rs pubs → replay_history rs pubs' → pubs = pubs'.
Proof.
  unfold replay_history. intros H1 H2. rewrite <-(rev_involutive pubs), <-(rev_involutive pubs'). f_equal.
  revert H1 H2. generalize (rev pubs), (rev pubs'). intros l1 l2 H1. revert l2.
  induction H1 as [|r p1 rs l1 (es & E & ->) _ IH]; intros l2 H2.
  - by apply Forall2_nil_inv_l in H2.
  - apply Forall2_cons_inv_l in H2 as (p2 & l2' & (es' & E' & ->) & H2 & ->). f_equal; [congruence|by apply IH].
Qed.

Lemma replays_inv trees rs p p' : replays trees p rs p' → ∀ done pubs R C,
  Forall (λ h, (h < length Ds)%nat) trees → Forall (λ r, is_u64 (rt_txn_id r)) rs →
  rgood p pubs R C → replay_history done pubs →
  ∃ pubs' R' C', rgood p' pubs' R' C' ∧ replay_history (done ++ rs) pubs'.
Proof.
  induction 1 as [p|p r p1 rs p2 E _ IH]; intros dn pubs R C Htr H64 Hg Hh.
  { exists pubs, R, C. by rewrite app_nil_r. }
  apply Forall_cons in H64 as [Hr H64].
  destruct (replay_inv _ _ _ _ _ _ _ _ Hg Hr Htr E) as (es & R' & C' & Hfx & _ & Hg').
  destruct (IH (dn ++ [r]) (replayed r es :: pubs) R' C') as (pubs' & R2 & C2 & Hg2 & Hh2); try done.
  - unfold replay_history. cbn. apply Forall2_app; [done|]. constructor; [eauto|constructor].
  - exists pubs', R2, C2. by rewrite <-app_assoc in Hh2.
Qed.
End replay.
