(* ===== verification/SnapshotIsolation.v ===== *)
(** * Snapshot isolation

    What the invariant of the concurrent callers gives: reads return the version
    their snapshot calls for, a transaction commits over no version it did not see,
    snapshots are stable and cover every acknowledged commit, and a replay of the
    log opens the same history.  Once the runtime is fenced nothing is published
    and nothing is answered. *)
From S2P Require Import Prelude StdCollections Ids Crc Store Fs Log WriteSet Txn LogIo CommitAppend Recovery SegmentLog SegmentRecovery Shards Mvcc UndoStore Visibility WriteIntent Admission PageIo Buffer PageBuffer PageDependency PageV4 KeyOrder TreeV4 TreeRange TreeMap ObjectStore OrderedMvcc OrderedRead OrderedCommit OrderedRecovery Versions InstallSpec Interleaving Demo Settling IsolationInv IsolationSteps ReplaySpec.

Local Open Scope Z_scope.
Local Open Scope seer_scope.

Section isolation.
Context (Ds : list StorageObjectDescriptor) (init : CommitSeq).
Context `{Hcrc : Crc32c} {D : Type} `{Hld : LogDevice D} {W : Type} `{Hos : ObjectStore W}
  `{Hlaws : !ObjectStoreLaws W} `{Hih : IntentHasher}.
Implicit Types (k : Kernel D W) (y z : Sys D W).
Local Abbreviation step := (sys_step (length Ds)).

(** ** Opening the runtime *)

(** Objects without entries and an undo store without records. *)
Definition empty_engine (e : Engine W) : Prop :=
  os_repr (e_objects e) ((λ d, (d, [])) <$> Ds) ∧ undo_inv (e_fs e) (e_undo e) [] [].

Definition fresh (p : OrderedRecoveryApplier W) : Prop :=
  empty_engine (ap_engine p) ∧ ap_statuses p = StatusTable_new ∧ ap_frontier p = Frontier_new init ∧
  ap_intents p = WriteIntentTable_new.

(** The runtime after a replay of [rs] into a fresh store: the coordinator takes over
    what the applicator built, and the lane continues after the last commit. *)
Record opened (rs : list RecoveredTransaction) y : Prop := {
  op_replay : ∃ trees p0 p, Forall (λ h, (h < length Ds)%nat) trees ∧ fresh p0 ∧ replays trees p0 rs p ∧
    k_statuses (sy_kernel y) = ap_statuses p ∧ k_frontier (sy_kernel y) = ap_frontier p ∧
    k_intents (sy_kernel y) = ap_intents p ∧ k_engine (sy_kernel y) = ap_engine p ∧
    ca_next_csn (k_appender (sy_kernel y)) = checked_add (vf_visible (ap_frontier p)) 1;
  op_typed : Forall (λ r, is_u64 (rt_txn_id r)) rs;
  op_history : replay_history rs (sy_published y);
  op_tasks : sy_tasks y = ∅
}.

Lemma fresh_good p : fresh p → rgood Ds init p [] [] (λ _, None).
Proof.
  intros ([Hr Hu] & Es & Ef & Ei).
  assert (∀ x, tget StatusTable_new x = None) as Hnone by (intros x; apply table_new_get).
  split; rewrite ?Es, ?Ef, ?Ei; try done.
  - split; try done.
    + exists ((λ d, (d, [])) <$> Ds). split; [done|]. split.
      * rewrite <-list_fmap_compose. by rewrite list_fmap_id.
      * intros i o key (d & -> & _)%list_lookup_fmap_Some. done.
    + intros key. apply chain_end.
    + pose proof (os_ids _ _ Hr) as Hnd. by rewrite <-list_fmap_compose in Hnd.
  - apply intents_repr_new.
  - intros x st. by rewrite Hnone.
  - intros c. cbn. split; [by intros ?%elem_of_nil|lia].
  - constructor.
  - by split; constructor.
Qed.

(** What the replay left for the runtime. *)
Lemma opened_replay rs y :
  opened rs y → ∃ p R C, rgood Ds init p (sy_published y) R C ∧
    k_statuses (sy_kernel y) = ap_statuses p ∧ k_frontier (sy_kernel y) = ap_frontier p ∧
    k_intents (sy_kernel y) = ap_intents p ∧ k_engine (sy_kernel y) = ap_engine p ∧
    ca_next_csn (k_appender (sy_kernel y)) = checked_add (vf_visible (ap_frontier p)) 1.
Proof.
  intros [(trees & p0 & p & Htr & Hf & Hrs & Hrest) H64 Hh Ht].
  destruct (replays_inv Ds init trees rs p0 p Hrs [] [] [] (λ _, None)) as (pubs & R & C & Hg & Hh').
  { done. } { done. } { by apply fresh_good. } { by constructor. }
  rewrite (replay_history_inj _ _ _ Hh' Hh) in Hg. by exists p, R, C.
Qed.

Lemma opened_good rs y :
  opened rs y → ∃ R C, good Ds init (sy_kernel y) (sy_tasks y) (sy_published y) R C.
Proof.
  intros Ho. pose proof (op_tasks _ _ Ho) as Ht.
  destruct (opened_replay _ _ Ho) as (p & R & C & [He Hw Hi Hhd Hc Hrdy Hv Hcs Hnd Hp] & Es & Ef & Ei & Ee & En).
  exists R, C. rewrite Ht. split; try done.
  - by rewrite Es, Ee.
  - by rewrite Es.
  - by rewrite Ei.
  - intros key r Hr. destruct (Hhd key r Hr) as (x & ord & u & v & c & -> & Hx). exists x, ord, u, v.
    split; [done|]. left. exists c. by rewrite Es.
  - unfold frontier_ok. rewrite Ef, Hrdy, En. split_and!; [constructor|by intros c ?%elem_of_nil|done| |].
    + intros c Hc'. by apply Hcs.
    + intros n [-> _]%checked_add_Some. split; [lia|]. intros c Hc'%Hcs. lia.
Qed.

(** The frontier after the replay: all of it visible, nothing ahead. *)
Lemma opened_frontier rs y :
  opened rs y → vf_ready (k_frontier (sy_kernel y)) = [] ∧ init ≤ vf_visible (k_frontier (sy_kernel y)) ∧
  (∀ c, c ∈ pb_csn <$> sy_published y ↔ init < c ≤ vf_visible (k_frontier (sy_kernel y))) ∧
  ca_next_csn (k_appender (sy_kernel y)) = checked_add (vf_visible (k_frontier (sy_kernel y))) 1.
Proof. intros (p & R & C & [] & _ & -> & _ & _ & ->)%opened_replay. by split_and!. Qed.

Lemma opened_inv rs y : opened rs y → kernel_inv Ds init y.
Proof. intros Ho%opened_good. by right. Qed.

Lemma runtime_inv rs y0 y : opened rs y0 → rtc step y0 y → kernel_inv Ds init y.
Proof. intros Ho. apply sys_steps_inv. by eapply opened_inv. Qed.

Lemma reachable_good rs y0 y :
  opened rs y0 → rtc step y0 y → ¬ fenced (sy_kernel y) →
  ∃ R C, good Ds init (sy_kernel y) (sy_tasks y) (sy_published y) R C.
Proof. intros Ho Hs Hn. by destruct (runtime_inv _ _ _ Ho Hs). Qed.

(** ** Publications *)

Local Abbreviation vis y := (vf_visible (k_frontier (sy_kernel y))).

(** A step publishes at most one commit, beyond the visible frontier. *)
Lemma step_pubs y z R C :
  good Ds init (sy_kernel y) (sy_tasks y) (sy_published y) R C → step y z →
  sy_published z = sy_published y ∧ vis z = vis y ∨
  ∃ p R' C', sy_published z = p :: sy_published y ∧ vis y ≤ vis z ∧ vis y < pb_csn p ∧
     good Ds init (sy_kernel z) (sy_tasks z) (sy_published z) R' C'.
Proof.
  intros Hg [[? ?%settled_vis]|(x & t & a & ticket & position & Hx & Hp & ->)]%step_publishes; [by left|right]. cbn in *.
  destruct (publish_frontier _ _ _ _ _ _ _ _ _ _ _ _ _ _ Hg Hx Hp) as [Hle Hlt].
  apply (publish_inv _ _ _ _ _ _ _ _ _ _ _ _ _ _ _ Hg Hx) in Hp as [_ Hg'].
  eexists _, R, C. split_and!; [done..|exact Hg'].
Qed.

(** The facts about publications that a fence does not take back. *)
Record published_facts y : Prop := {
  pf_order : pubs_ok (sy_published y);
  pf_csns : NoDup (pb_csn <$> sy_published y);
  pf_prefix : ∀ c, init < c ≤ vis y → c ∈ pb_csn <$> sy_published y
}.

Lemma good_facts y R C : good Ds init (sy_kernel y) (sy_tasks y) (sy_published y) R C → published_facts y.
Proof. intros Hg. split; [apply Hg..|]. apply (gd_frontier _ _ _ _ _ _ _ Hg). Qed.

Lemma reachable_facts rs y0 y : opened rs y0 → rtc step y0 y → published_facts y.
Proof.
  intros Ho Hs. pose proof (opened_inv _ _ Ho) as Hk.
  assert (published_facts y0) as Hp by (apply opened_good in Ho as (R & C & Hg); by eapply good_facts).
  clear Ho. induction Hs as [y|y z z' Hstep _ IH]; [done|].
  apply IH; [by eapply sys_step_inv|]. destruct Hp as [Hp Hnd Hpre]. destruct Hk as [Hf|(R & C & Hg)].
  - apply (sys_step_fenced _ _ _ Hf) in Hstep as (_ & Ep & Ev). by split; rewrite Ep, ?Ev.
  - destruct (step_pubs _ _ _ _ Hg Hstep) as [[Ep Ev]|(p & R' & C' & _ & _ & _ & Hg')];
      [by split; rewrite Ep, ?Ev|by eapply good_facts].
Qed.

(** Visible snapshots see the same versions ever after. *)
Lemma stable_history y z s key :
  kernel_inv Ds init y → rtc step y z → s ≤ vf_visible (k_frontier (sy_kernel y)) →
  as_of (history (sy_published z) key) s = as_of (history (sy_published y) key) s.
Proof.
  intros Hk Hs Hle. induction Hs as [y|y z z' Hstep Hs IH]; [done|].
  pose proof (sys_step_inv _ _ _ _ Hk Hstep) as Hz. destruct Hk as [Hf|(R & C & Hg)].
  - assert (rtc step y z') as Hs' by (by eapply rtc_l).
    by rewrite (proj2 (sys_steps_fenced _ _ _ Hf Hs')).
  - destruct (step_pubs _ _ _ _ Hg Hstep) as [[Ep Hv]|(p & R' & C' & Ep & Hle' & Hlt & _)];
      rewrite IH, Ep by (done || lia); [done|]. rewrite history_cons.
    destruct (effect_value key (pb_effects p)) as [v|]; [|done]. apply as_of_newer. lia.
Qed.

(** The versions a transaction of the calling threads can meet were not written by
    it. *)
Lemma idle_foreign k tasks pubs R C x t :
  good Ds init k tasks pubs R C → tasks !! x = Some (TaskIdle t) → tx_phase t = Active →
  (∀ key rec, C key = Some rec → foreign (Some (tx_id t)) rec) ∧ Forall (foreign (Some (tx_id t))) R.
Proof.
  intros Hg Hx Hact. destruct (gd_tasks _ _ _ _ _ _ _ Hg _ _ Hx) as (_ & _ & _ & Hid & Hst & _).
  specialize (Hst Hact). cbn in Hst. subst x. split.
  - intros key rec Hc z [= <-] Ho. destruct (gd_heads _ _ _ _ _ _ _ Hg _ _ Hc) as (x & ord & u & v & -> & Hh).
    injection Ho as ->. destruct Hh as [[c Hh]|(_ & task & Ht & Hin)]; [congruence|].
    rewrite Hx in Ht. injection Ht as <-. by apply elem_of_nil in Hin.
  - eapply Forall_impl; [apply (er_committed _ _ _ _ _ _ (gd_engine _ _ _ _ _ _ _ Hg))|].
    intros rec [c Hc] z [= <-] Ho. rewrite Ho in Hc. cbn in Hc. by rewrite Hst in Hc.
Qed.

Lemma anyone_foreign (r : MvccRecord) : foreign None r.
Proof. by intros x. Qed.

(** ** Refusals *)
Lemma reader_fenced k :
  fenced k → reader_admission (reader_of k) = Err (ReadAdmission AdmissionErrRecoveryRequired).
Proof. unfold fenced, reader_admission, ensure_read_admission. cbn. by intros ->. Qed.

Lemma admitted_open k : reader_admission (reader_of k) = Ok tt → ¬ fenced k.
Proof. intros Ea Hf%reader_fenced. congruence. Qed.

Lemma refused_unreadable k err :
  reader_admission (reader_of k) = Err err →
  match err with ReadBTree _ => True | _ => ¬ readable (reader_of k) (k_engine k) end.
Proof. intros Ea. assert (¬ readable (reader_of k) (k_engine k)) by (intros [? _]; congruence). by destruct err. Qed.

(** ** Reading a replayed store *)
Lemma replays_lookup trees rs p0 p rd tree d key snap e r :
  Forall (λ h, (h < length Ds)%nat) trees → Forall (λ r, is_u64 (rt_txn_id r)) rs → fresh p0 →
  replays trees p0 rs p → rd_statuses rd = ap_statuses p → Ds !! tree = Some d →
  mvcc_lookup rd tree key None snap (ap_engine p) = (e, r) →
  ∃ pubs, replay_history rs pubs ∧ pubs_ok pubs ∧
    (∀ c, c ∈ pb_csn <$> pubs ↔ init < c ≤ vf_visible (ap_frontier p)) ∧
    match r with
    | Ok v => v = snapshot_lookup (history pubs (od_id d, key)) snap
    | Err (ReadBTree _) => True
    | Err _ => ¬ readable rd (ap_engine p)
    end.
Proof.
  intros Htr H64 Hf Hrs Est Hd E.
  destruct (replays_inv Ds init trees rs p0 p Hrs [] [] [] (λ _, None)) as (pubs & R & C & Hg & Hh);
    [done|done|by apply fresh_good|by constructor|].
  exists pubs. split; [done|]. split; [apply Hg|]. split; [apply Hg|].
  pose proof (rg_engine _ _ _ _ _ _ Hg) as He. rewrite <-Est in He.
  eapply (mvcc_lookup_spec _ _ _ _ _ rd); [exact He|exact Hd|..|exact E].
  - intros rec _. apply anyone_foreign.
  - apply Forall_forall. intros rec _. apply anyone_foreign.
Qed.

(** ** The properties *)

(** C2. A transaction reads its own staged writes, and otherwise the newest version at
    or below its snapshot of the commits that were published, whatever the other
    callers were doing; a read fails only with an error of the tree, or when the
    runtime is fenced, poisoned or its undo device failed. *)
Theorem transactions_read_their_snapshot rs y0 y x t tree d key e r :
  opened rs y0 → rtc step y0 y → sy_tasks y !! x = Some (TaskIdle t) → tx_phase t = Active →
  Ds !! tree = Some d →
  lookup_transaction (reader_of (sy_kernel y)) tree t key (k_engine (sy_kernel y)) = (e, r) →
  match r with
  | Ok v => v = match staged_ordered_lookup (od_id d) key t with
                | StagedPut value => MvccFound value
                | StagedDelete => MvccDeleted
                | Unchanged => snapshot_lookup (history (sy_published y) (od_id d, key)) (tx_snapshot t)
                end
  | Err (ReadBTree _) => True
  | Err _ => ¬ readable (reader_of (sy_kernel y)) (k_engine (sy_kernel y))
  end.
Proof.
  intros Ho Hs Hx Hact Hd. unfold lookup_transaction. destruct (reader_admission _) as [[]|err] eqn:Ea.
  2:{ intros [= <- <-]. by apply refused_unreadable. }
  destruct (reachable_good _ _ _ Ho Hs) as (R & C & Hg); [by apply admitted_open|].
  destruct (idle_foreign _ _ _ _ _ _ _ Hg Hx Hact) as [Hhead Hundo].
  pose proof (gd_engine _ _ _ _ _ _ _ Hg) as He. rewrite (engine_descriptor _ _ _ _ _ _ _ _ He Hd).
  destruct (staged_ordered_lookup (od_id d) key t); [by intros [= <- <-]..|].
  intros E. eapply (mvcc_lookup_spec _ _ _ _ _ (reader_of (sy_kernel y))); [exact He|exact Hd|..|exact E]; eauto.
Qed.

(** C3. First committer wins: of two published commits that write a common key, the
    later one had a snapshot that contains the earlier one, and a higher commit
    sequence; no commit overwrites a version its transaction could not see, and then
    no commit sequence is published twice. *)
Theorem first_committer_wins rs y0 y i j later earlier key :
  opened rs y0 → rtc step y0 y → (i < j)%nat →
  sy_published y !! i = Some later → sy_published y !! j = Some earlier →
  key ∈ slot_of <$> pb_effects later → key ∈ slot_of <$> pb_effects earlier →
  pb_csn earlier ≤ pb_snapshot later < pb_csn later ∧ NoDup (pb_csn <$> sy_published y).
Proof.
  intros Ho Hs Hij Hi Hj Hl He. destruct (reachable_facts _ _ _ Ho Hs) as [[Hsorted Hall] Hnd _].
  split; [|done]. split.
  - by apply (StronglySorted_lookup _ _ i j later earlier Hsorted Hij Hi Hj key).
  - by apply (proj1 (Forall_lookup _ _) Hall i).
Qed.

(** C11. The snapshot of a transaction never changes under it: for as long as the
    runtime runs, whatever is committed meanwhile, its snapshot selects the same
    version of every key as it did at any earlier moment of the transaction. *)
Theorem snapshots_never_change rs y0 y z x task key :
  opened rs y0 → rtc step y0 y → ¬ fenced (sy_kernel y) → sy_tasks y !! x = Some task → rtc step y z →
  snapshot_lookup (history (sy_published z) key) (tx_snapshot (task_txn task)) =
  snapshot_lookup (history (sy_published y) key) (tx_snapshot (task_txn task)).
Proof.
  intros Ho Hs Hn Hx Hz. destruct (reachable_good _ _ _ Ho Hs Hn) as (R & C & Hg).
  destruct (gd_tasks _ _ _ _ _ _ _ Hg _ _ Hx) as (_ & Hle & _). unfold snapshot_lookup.
  by rewrite (stable_history y z) by (done || right; eauto).
Qed.

(** C12. An acknowledged commit is published, and every transaction begun after the
    acknowledgement has it in its snapshot, together with every commit sequence
    below: a snapshot is a prefix of the commit order without gaps. *)
Theorem acknowledged_commits_are_seen rs y0 y x t c x' k' t' :
  opened rs y0 → rtc step y0 y → sy_tasks y !! x = Some (TaskIdle t) →
  tx_phase t = Released → tx_commit_seq t = Some c → begin_write x' (sy_kernel y) = (k', Ok t') →
  c ∈ pb_csn <$> sy_published y ∧ c ≤ tx_snapshot t' ∧
  ∀ c', init < c' ≤ tx_snapshot t' → c' ∈ pb_csn <$> sy_published y.
Proof.
  intros Ho Hs Hx Hp Hc Hb. unfold begin_write in Hb.
  destruct (ensure_open (sy_kernel y)) as [[]|e] eqn:Eo; [|done].
  destruct (reachable_good _ _ _ Ho Hs) as (R & C & Hg).
  { intros Hf%ensure_open_fenced. congruence. }
  destruct (gd_tasks _ _ _ _ _ _ _ Hg _ _ Hx) as (_ & _ & _ & _ & _ & Hrel).
  destruct (Hrel Hp c Hc) as [Hle Hin].
  destruct (status_begin _ _) as [st [[]|e]]; [|done]. injection Hb as <- <-. cbn.
  split; [done|]. split; [done|]. apply (gd_frontier _ _ _ _ _ _ _ Hg).
Qed.

(** C16. A fence is final: after it, in every continuation, nothing is published, no
    transaction begins, no commit is entered and no read is answered: the lookup of a
    transaction, the lookup at a snapshot, and the next batch of a snapshot cursor
    and of a transaction cursor are all refused, and change neither the store nor
    the cursor. *)
Theorem fenced_runtime_stays_fenced y z :
  fenced (sy_kernel y) → rtc step y z →
  let rd := reader_of (sy_kernel z) in
  let e := k_engine (sy_kernel z) in
  let refused := ReadAdmission AdmissionErrRecoveryRequired in
  fenced (sy_kernel z) ∧ sy_published z = sy_published y ∧
  (∀ x, begin_write x (sy_kernel z) = (sy_kernel z, Err CommitFenced)) ∧
  (∀ t trees, commit t trees (sy_kernel z) = (sy_kernel z, t, Some (Err CommitFenced))) ∧
  (∀ tree t key, lookup_transaction rd tree t key e = (e, Err refused)) ∧
  (∀ tree key reader snap, mvcc_lookup rd tree key reader snap e = (e, Err refused)) ∧
  (∀ fuel tree c limit, mvcc_next_batch fuel rd tree c limit e = (e, c, Some (Err refused))) ∧
  (∀ fuel tree c limit, txn_next_batch fuel rd tree c limit e = (e, c, Some (Err refused))).
Proof.
  intros Hf Hs rd e refused. destruct (sys_steps_fenced _ _ _ Hf Hs) as [Hz Hp].
  pose proof (ensure_open_fenced _ Hz) as Eo. pose proof (reader_fenced _ Hz) as Er. subst rd e refused.
  split_and!; [done|done|..].
  - intros x. unfold begin_write. by rewrite Eo.
  - intros t trees. unfold commit, commit_enter. by rewrite Eo.
  - intros tree t key. unfold lookup_transaction. by rewrite Er.
  - intros tree key reader snap. unfold mvcc_lookup. by rewrite Er.
  - intros fuel tree c limit. unfold mvcc_next_batch. by rewrite Er.
  - intros fuel tree c limit. unfold txn_next_batch. by rewrite Er.
Qed.

(** ** Replay *)
Lemma replayed_next p pubs R C r es p' R' C' :
  rgood Ds init p pubs R C → rgood Ds init p' (replayed r es :: pubs) R' C' →
  cp_csn (rt_position r) = vf_visible (ap_frontier p) + 1 →
  vf_visible (ap_frontier p') = vf_visible (ap_frontier p) + 1.
Proof.
  intros Hg Hg' Hc. pose proof (rg_csns _ _ _ _ _ _ Hg') as H'. pose proof (rg_csns _ _ _ _ _ _ Hg) as H.
  pose proof (rg_visible _ _ _ _ _ _ Hg) as Hv. cbn in H'. rewrite Hc in H'.
  destruct (proj1 (H' _) (list_elem_of_here _ _)) as [Hlo Hhi].
  destruct (proj1 (elem_of_cons _ _ _) (proj2 (H' (vf_visible (ap_frontier p'))) ltac:(lia))) as [?|Hin%H]; lia.
Qed.

(** A replay from a fresh store. *)
Lemma replays_good trees rs p0 p :
  Forall (λ h, (h < length Ds)%nat) trees → Forall (λ r, is_u64 (rt_txn_id r)) rs → fresh p0 → replays trees p0 rs p →
  ∃ pubs R C, rgood Ds init p pubs R C ∧ replay_history rs pubs ∧ vf_visible (ap_frontier p) = init + len rs.
Proof.
  intros Htr H64 Hf Hrs.
  enough (∀ done pubs R C, rgood Ds init p0 pubs R C → replay_history done pubs →
    ∃ pubs' R' C', rgood Ds init p pubs' R' C' ∧ replay_history (done ++ rs) pubs' ∧
      vf_visible (ap_frontier p) = vf_visible (ap_frontier p0) + len rs) as Hgen.
  { destruct (Hgen [] [] [] (λ _, None)) as (pubs & R & C & Hg & Hh & Hv); [by apply fresh_good|constructor|].
    exists pubs, R, C. split; [done|]. split; [done|]. destruct Hf as (_ & _ & Ef & _). by rewrite Ef in Hv. }
  clear Hf. induction Hrs as [p|p r p1 rs p2 E _ IH]; intros dn pubs R C Hg Hh.
  { exists pubs, R, C. rewrite app_nil_r. split; [done|]. split; [done|]. unfold len. cbn. lia. }
  apply Forall_cons in H64 as [Hr H64].
  destruct (replay_inv _ _ _ _ _ _ _ _ _ _ Hg Hr Htr E) as (es & R' & C' & Hfx & Hc & Hg').
  destruct (IH H64 (dn ++ [r]) (replayed r es :: pubs) R' C' Hg') as (pubs' & R2 & C2 & Hg2 & Hh2 & Hv2).
  - unfold replay_history. cbn. apply Forall2_app; [done|]. constructor; [eauto|constructor].
  - exists pubs', R2, C2. rewrite <-app_assoc in Hh2. split; [done|]. split; [done|].
    rewrite Hv2, (replayed_next _ _ _ _ _ _ _ _ _ Hg Hg' Hc). unfold len. cbn [length]. lia.
Qed.

(** C13. Replay goes in commit order and fails closed: after [rs] was applied to a fresh
    store, a transaction is applied only if its commit sequence is the next one,
    and then reads at every snapshot see [rs] and it, and nothing else; one that is
    already in [rs] is acknowledged without any change; everything else leaves the
    applicator as it was or fences it. *)
Theorem replay_in_commit_order trees rs p0 p r p' res :
  Forall (λ h, (h < length Ds)%nat) trees → Forall (λ r, is_u64 (rt_txn_id r)) (rs ++ [r]) → fresh p0 →
  replays trees p0 rs p → replay r trees p = (p', res) →
  match res with
  | Ok Applied => cp_csn (rt_position r) = init + len rs + 1 ∧
      vf_visible (ap_frontier p') = cp_csn (rt_position r) ∧
      ∃ pubs, replay_history (rs ++ [r]) pubs ∧
      ∀ rd tree d key snap e v, rd_statuses rd = ap_statuses p' → Ds !! tree = Some d →
        mvcc_lookup rd tree key None snap (ap_engine p') = (e, Ok v) →
        v = snapshot_lookup (history pubs (od_id d, key)) snap
  | Ok AlreadyApplied => p' = p ∧ ∃ r', r' ∈ rs ∧ rt_txn_id r' = rt_txn_id r ∧
      cp_csn (rt_position r') = cp_csn (rt_position r)
  | Err _ => ap_fenced p' = true ∨ p' = p
  end.
Proof.
  intros Htr H64 Hf Hrs E. pose proof H64 as [H1 [Hr _]%Forall_cons]%Forall_app.
  destruct (replays_good _ _ _ _ Htr H1 Hf Hrs) as (pubs & R & C & Hg & Hh & Hv).
  pose proof (replay_inv _ _ _ _ _ _ _ _ _ _ Hg Hr Htr E) as Hi. destruct res as [[|]|e]; [| |done].
  - destruct Hi as (es & R' & C' & Hfx & Hc & Hg'). split; [lia|].
    split; [by rewrite (replayed_next _ _ _ _ _ _ _ _ _ Hg Hg' Hc)|].
    exists (replayed r es :: pubs). split.
    { unfold replay_history. cbn. apply Forall2_app; [done|]. constructor; [eauto|constructor]. }
    intros rd tree d key snap e v Est Hd El. pose proof (rg_engine _ _ _ _ _ _ Hg') as He. rewrite <-Est in He.
    apply (mvcc_lookup_spec _ _ _ _ _ _ _ _ _ _ _ _ _ He Hd) in El; [done|by intros rec _ x|].
    apply Forall_forall. by intros rec _ x.
  - destruct Hi as [-> (pub & Hin & Hx & Hc)]. split; [done|].
    apply list_elem_of_In, in_rev, list_elem_of_In, list_elem_of_lookup in Hin as [i Hin].
    destruct (Forall2_lookup_r _ _ _ _ _ Hh Hin) as (r' & Hr' & es & _ & ->).
    exists r'. split; [by eapply list_elem_of_lookup_2|]. done.
Qed.
End isolation.

(** ** The runtime of [Demo.v] *)
Local Abbreviation demo_step := (sys_step (length demo_objects)).

Lemma demo_opened : opened demo_objects 0 [] demo_start.
Proof.
  split; [|constructor|constructor|done].
  exists [], demo_applier, demo_applier. split; [constructor|]. split.
  { split; [|done]. split; [apply demo_forest_repr|apply demo_undo_inv]. }
  split; [constructor|done].
Qed.

Lemma demo_reaches_waiting : rtc demo_step demo_start demo_waiting.
Proof. exact (acts_run _ demo_script_wait demo_start). Qed.

Lemma demo_reaches_settled : rtc demo_step demo_start demo_settled.
Proof. transitivity demo_waiting; [apply demo_reaches_waiting|exact (acts_run _ demo_script_done demo_waiting)]. Qed.

Lemma demo_reaches_reading : rtc demo_step demo_start demo_reading.
Proof. transitivity demo_settled; [apply demo_reaches_settled|exact (acts_run _ demo_script_third demo_settled)]. Qed.

Lemma demo_finishes : rtc demo_step demo_reading demo_end.
Proof. exact (acts_run _ demo_script_last demo_reading). Qed.

Lemma demo_reaches_end : rtc demo_step demo_start demo_end.
Proof. transitivity demo_reading; [apply demo_reaches_reading|apply demo_finishes]. Qed.

Lemma demo_end_open : ¬ fenced (sy_kernel demo_reading).
Proof. unfold fenced. by vm_compute. Qed.

(** The transaction of a thread. *)
Definition demo_txn (x : TxnId) (y : Sys SegmentedLog Forest8) : Transaction :=
  match sy_tasks y !! x with Some task => task_txn task | None => Transaction_new 0 0 end.

(** The reader began before the third commit and reads the version under it. *)
Lemma transactions_read_their_snapshot_witness :
  let t := demo_txn 10 demo_end in
  let answer := lookup_transaction (reader_of (sy_kernel demo_end)) 0 t [u8 1] (k_engine (sy_kernel demo_end)) in
  answer.2 = Ok (MvccFound [u8 10]) ∧
  snapshot_lookup (history (sy_published demo_end) (1, [u8 1])) (tx_snapshot t) = MvccFound [u8 10] ∧
  snapshot_lookup (history (sy_published demo_end) (1, [u8 1])) 3 = MvccFound [u8 11].
Proof.
  cbv zeta. set (t := demo_txn 10 demo_end).
  assert ((lookup_transaction (reader_of (sy_kernel demo_end)) 0 t [u8 1] (k_engine (sy_kernel demo_end))).2 =
    Ok (MvccFound [u8 10])) as E by (vm_compute; reflexivity).
  split; [exact E|]. split; [|vm_compute; reflexivity].
  pose proof (transactions_read_their_snapshot demo_objects 0 [] demo_start demo_end 10 t 0 demo_object [u8 1]
    (lookup_transaction (reader_of (sy_kernel demo_end)) 0 t [u8 1] (k_engine (sy_kernel demo_end))).1
    (Ok (MvccFound [u8 10])) demo_opened demo_reaches_end) as H.
  cbn beta iota in H. replace (staged_ordered_lookup (od_id demo_object) [u8 1] t) with Unchanged in H
    by (vm_compute; reflexivity).
  symmetry. apply H; [vm_compute; reflexivity|vm_compute; reflexivity|reflexivity|].
  rewrite <-E. apply surjective_pairing.
Defined.

Lemma first_committer_wins_witness :
  ∃ later earlier, sy_published demo_end !! 0%nat = Some later ∧ sy_published demo_end !! 1%nat = Some earlier ∧
    pb_txn later = 9 ∧ pb_txn earlier = 7 ∧
    pb_csn earlier ≤ pb_snapshot later < pb_csn later ∧ NoDup (pb_csn <$> sy_published demo_end).
Proof.
  destruct (sy_published demo_end !! 0%nat) as [later|] eqn:El; [|by vm_compute in El].
  destruct (sy_published demo_end !! 1%nat) as [earlier|] eqn:Ee; [|by vm_compute in Ee].
  exists later, earlier. pose proof El as El'. pose proof Ee as Ee'. vm_compute in El', Ee'.
  injection El' as El'. injection Ee' as Ee'. split; [done|]. split; [done|].
  split; [by rewrite <-El'|]. split; [by rewrite <-Ee'|].
  apply (first_committer_wins demo_objects 0 [] demo_start demo_end 0 1 later earlier (1, [u8 1]) demo_opened demo_reaches_end).
  - lia.
  - exact El.
  - exact Ee.
  - rewrite <-El'. left.
  - rewrite <-Ee'. left.
Defined.

Lemma snapshots_never_change_witness :
  tx_snapshot (demo_txn 10 demo_reading) = 2 ∧
  history (sy_published demo_end) (1, [u8 1]) ≠ history (sy_published demo_reading) (1, [u8 1]) ∧
  snapshot_lookup (history (sy_published demo_end) (1, [u8 1])) 2 =
  snapshot_lookup (history (sy_published demo_reading) (1, [u8 1])) 2.
Proof.
  split; [vm_compute; reflexivity|]. split; [by vm_compute|].
  assert (tx_snapshot (task_txn (TaskIdle (demo_txn 10 demo_reading))) = 2) as <- by (vm_compute; reflexivity).
  apply (snapshots_never_change demo_objects 0 [] demo_start demo_reading demo_end 10 (TaskIdle (demo_txn 10 demo_reading))
    (1, [u8 1]) demo_opened demo_reaches_reading demo_end_open); [vm_compute; reflexivity|exact demo_finishes].
Defined.

Lemma acknowledged_commits_are_seen_witness :
  (begin_write 11 (sy_kernel demo_end)).2 = Ok (Transaction_new 11 3) ∧
  3 ∈ pb_csn <$> sy_published demo_end ∧ 3 ≤ tx_snapshot (Transaction_new 11 3) ∧
  (∀ c, 0 < c ≤ 3 → c ∈ pb_csn <$> sy_published demo_end).
Proof.
  assert ((begin_write 11 (sy_kernel demo_end)).2 = Ok (Transaction_new 11 3)) as E by (vm_compute; reflexivity).
  split; [exact E|].
  apply (acknowledged_commits_are_seen demo_objects 0 [] demo_start demo_end 9 (demo_txn 9 demo_end) 3 11
    (begin_write 11 (sy_kernel demo_end)).1 (Transaction_new 11 3) demo_opened demo_reaches_end);
    [vm_compute; reflexivity..|].
  rewrite <-E. apply surjective_pairing.
Defined.

(** A thread past the append when the runtime was fenced. *)
Definition demo_fenced : Sys SegmentedLog Forest8 :=
  with_kernel (fence_admission (sy_kernel demo_waiting)) demo_waiting.
Definition demo_fenced_on : Sys SegmentedLog Forest8 :=
  acts (length demo_objects) [ActStep 7 9; ActBegin 12] demo_fenced.

Lemma fenced_runtime_stays_fenced_witness :
  is_Some (sy_tasks demo_fenced_on !! 7) ∧ fenced (sy_kernel demo_fenced_on) ∧
  sy_published demo_fenced_on = sy_published demo_fenced ∧
  begin_write 12 (sy_kernel demo_fenced_on) = (sy_kernel demo_fenced_on, Err CommitFenced).
Proof.
  destruct (fenced_runtime_stays_fenced demo_objects demo_fenced demo_fenced_on) as (Hf & Hp & Hb & _).
  - exact (fenced_fence (sy_kernel demo_waiting)).
  - exact (acts_run _ [ActStep 7 9; ActBegin 12] demo_fenced).
  - split; [vm_compute; by eexists|]. split; [exact Hf|]. split; [exact Hp|exact (Hb 12)].
Defined.

Lemma demo_fresh : fresh demo_objects 0 demo_applier.
Proof.
  split; [split; [apply demo_forest_repr|apply demo_undo_inv]|]. split; [exact eq_refl|]. split; exact eq_refl.
Qed.

Definition demo_second : OrderedRecoveryApplier Forest8 * result RecoveryApplyResult OrderedRecoveryError :=
  replay (demo_recovered 8 2 2 20) [0%nat] demo_replay_one.
Definition demo_gap : OrderedRecoveryApplier Forest8 * result RecoveryApplyResult OrderedRecoveryError :=
  replay (demo_recovered 8 3 2 20) [0%nat] demo_replay_one.

Lemma demo_replays_one : replays [0%nat] demo_applier [demo_recovered 7 1 1 10] demo_replay_one.
Proof.
  eapply (replays_cons _ _ _ demo_replay_one); [|constructor].
  rewrite (surjective_pairing (replay (demo_recovered 7 1 1 10) [0%nat] demo_applier)).
  apply pair_equal_spec. split; [exact eq_refl|vm_compute; reflexivity].
Qed.

Lemma replay_in_commit_order_witness :
  demo_second.2 = Ok Applied ∧ vf_visible (ap_frontier demo_second.1) = 2 ∧
  demo_gap.2 = Err (NonContiguousCommit 1 2 3) ∧ ap_fenced demo_gap.1 = true.
Proof.
  assert (demo_second.2 = Ok Applied) as E by (vm_compute; reflexivity).
  split; [exact E|]. split; [|split; vm_compute; reflexivity].
  pose proof (replay_in_commit_order demo_objects 0 [0%nat] [demo_recovered 7 1 1 10] demo_applier demo_replay_one
    (demo_recovered 8 2 2 20) demo_second.1 (Ok Applied)) as H. cbn beta iota in H.
  refine (proj1 (proj2 (H _ _ demo_fresh demo_replays_one _))).
  - constructor; [|constructor]. cbn. lia.
  - constructor; [|constructor; [|constructor]]; unfold is_u64; cbn; lia.
  - rewrite <-E. apply surjective_pairing.
Defined.
