(* ===== verification/RangeReads.v ===== *)
(** * Range reads

    The cursors of [ordered_mvcc_read.rs] and [ordered_txn_read.rs]: over any number
    of batches, with the other callers committing in between, the rows a cursor
    hands out are the rows of its range in the transaction's snapshot, overlaid with
    what the transaction had staged when the cursor was made. *)
From S2P Require Import Prelude StdCollections Ids Crc Store Fs Log WriteSet Txn LogIo CommitAppend Recovery SegmentLog SegmentRecovery Shards Mvcc UndoStore Visibility WriteIntent Admission PageIo Buffer PageBuffer PageDependency PageV4 PageSpec KeyOrder TreeShape TreeV4 TreeSpec TreeRange TreeMap ObjectStore OrderedMvcc OrderedRead OrderedCommit OrderedRecovery Versions InstallSpec Interleaving Demo Settling LaneStages IsolationInv IsolationSteps ReplaySpec SnapshotIsolation.

Local Open Scope Z_scope.
Local Open Scope seer_scope.

(** ** Rows of a range *)

(** [L] lists, in key order, what [view] has at the keys of [P]. *)
Definition is_range (P : bytes → Prop) (view : bytes → MvccLookup) (L : OrderedKeyValueBatch) : Prop :=
  keys_sorted L ∧ ∀ k v, (k, v) ∈ L ↔ P k ∧ view k = MvccFound v.

Lemma sorted_unique {V} (l l' : list (bytes * V)) :
  keys_sorted l → keys_sorted l' → (∀ k v, (k, v) ∈ l ↔ (k, v) ∈ l') → l = l'.
Proof.
  intros Hs Hs' Heq. apply BTreeMap.map_eq; [done..|]. intros k. apply option_eq. intros v. split.
  - intros Hg%BTreeMap.get_elem. apply BTreeMap.elem_get; [done|]. by apply Heq.
  - intros Hg%BTreeMap.get_elem. apply BTreeMap.elem_get; [done|]. by apply Heq.
Qed.

Lemma is_range_unique P view view' L L' :
  is_range P view L → is_range P view' L' → (∀ k, view k = view' k) → L = L'.
Proof.
  intros [Hs He] [Hs' He'] Hv. apply sorted_unique; [done..|]. intros k v. by rewrite He, He', Hv.
Qed.

(** The keys a raw cursor has in front of it. *)
Definition ahead (c : RangeCursor) (k : bytes) : Prop :=
  rc_done c = false ∧ kle (rc_start c) k ∧ klt k (rc_end c) ∧
  match rc_last_emitted c with Some l => klt l k | None => True end.

Lemma remaining_elem c m k l :
  (k, l) ∈ remaining c m ↔ ahead c k ∧ ∃ v, (k, v) ∈ m ∧ l = leaf_lookup v.
Proof.
  unfold remaining, ahead, after, map_range, rows_of. destruct (rc_done c).
  { split; [by intros ?%elem_of_nil|by intros [[? _] _]]. }
  assert ((k, l) ∈ map (λ e : LeafEntry, (e.1, leaf_lookup e.2)) (filter (in_range (rc_start c) (rc_end c)) m) ↔
    (kle (rc_start c) k ∧ klt k (rc_end c)) ∧ ∃ v, (k, v) ∈ m ∧ l = leaf_lookup v) as Hin.
  { rewrite list_elem_of_In, in_map_iff. split.
    - intros ([k' v] & [= <- <-] & [[H1 H2] Hm]%list_elem_of_In%list_elem_of_filter). eauto.
    - intros [[H1 H2] (v & Hm & ->)]. exists (k, v). split; [done|]. apply list_elem_of_In, list_elem_of_filter. done. }
  destruct (rc_last_emitted c) as [last|]; [rewrite list_elem_of_filter|]; rewrite Hin; cbn; tauto.
Qed.

Lemma remaining_sorted c m : keys_sorted m → keys_sorted (remaining c m).
Proof.
  intros Hs. unfold remaining, after. destruct (rc_done c); [constructor|].
  pose proof (map_range_sorted (rc_start c) (rc_end c) m Hs). destruct (rc_last_emitted c); [by apply filter_sorted|done].
Qed.

(** The rows a view makes of raw rows. *)
Definition row_of (view : bytes → MvccLookup) (row : Row) : option (bytes * bytes) :=
  match view row.1 with MvccFound v => Some (row.1, v) | _ => None end.

Definition visible_rows view (rows : list Row) : OrderedKeyValueBatch := omap (row_of view) rows.

Lemma visible_rows_elem view rows k v :
  (k, v) ∈ visible_rows view rows ↔ (∃ l, (k, l) ∈ rows) ∧ view k = MvccFound v.
Proof.
  unfold visible_rows. rewrite list_elem_of_omap. unfold row_of. split.
  - intros ([k' l] & Hin & E). cbn in E. destruct (view k') eqn:Ev; try done. injection E as <- <-. split; [eauto|done].
  - intros [[l Hin] Ev]. exists (k, l). cbn. by rewrite Ev.
Qed.

Lemma visible_rows_sorted view rows : keys_sorted rows → keys_sorted (visible_rows view rows).
Proof.
  unfold visible_rows. induction 1 as [|[k l] rows Hs IH Hx]; [constructor|]. cbn. unfold row_of at 1. cbn.
  destruct (view k) as [v| |]; try done. constructor; [done|]. apply Forall_forall.
  intros [k' v'] Hin. change (omap (row_of view) rows) with (visible_rows view rows) in Hin.
  apply visible_rows_elem in Hin as [[l' Hl'] _]. exact (proj1 (Forall_forall _ _) Hx _ Hl').
Qed.

Lemma visible_rows_length view rows : len (visible_rows view rows) ≤ len rows.
Proof.
  unfold len, visible_rows. induction rows as [|row rows IH]; cbn; [lia|]. destruct (row_of view row); cbn [length]; lia.
Qed.

Lemma visible_rows_range view c m :
  keys_sorted m → (∀ k v, view k = MvccFound v → ∃ u, (k, u) ∈ m) →
  is_range (ahead c) view (visible_rows view (remaining c m)).
Proof.
  intros Hs Hm. split; [by apply visible_rows_sorted, remaining_sorted|]. intros k v. rewrite visible_rows_elem. split.
  - intros [[l [Ha _]%remaining_elem] Hv]. done.
  - intros [Ha Hv]. split; [|done]. destruct (Hm k v Hv) as [u Hu]. exists (leaf_lookup u).
    apply remaining_elem. split; [done|]. eauto.
Qed.

(** ** The overlay *)
Abbreviation Staged := (list (bytes * PrivateRangeValue)).

Definition staged_row (e : bytes * PrivateRangeValue) : OrderedKeyValueBatch :=
  match e.2 with PrivatePut v => [(e.1, v)] | PrivateDelete => [] end.

(** The rows of [base], replaced by the staged ones. *)
Fixpoint overlaid (base : OrderedKeyValueBatch) : Staged → OrderedKeyValueBatch :=
  fix inner (staged : Staged) : OrderedKeyValueBatch :=
    match base, staged with
    | [], [] => []
    | _ :: _, [] => base
    | [], e :: staged' => staged_row e ++ inner staged'
    | row :: base', e :: staged' =>
        match key_cmp row.1 e.1 with
        | Lt => row :: overlaid base' staged
        | Eq => staged_row e ++ overlaid base' staged'
        | Gt => staged_row e ++ inner staged'
        end
    end.

Lemma overlaid_nil base : overlaid base [] = base.
Proof. by destruct base. Qed.

Lemma overlaid_none e staged : overlaid [] (e :: staged) = staged_row e ++ overlaid [] staged.
Proof. done. Qed.

Lemma overlaid_cons row base e staged :
  overlaid (row :: base) (e :: staged) =
    match key_cmp row.1 e.1 with
    | Lt => row :: overlaid base (e :: staged)
    | Eq => staged_row e ++ overlaid base staged
    | Gt => staged_row e ++ overlaid (row :: base) staged
    end.
Proof. done. Qed.

Lemma staged_row_elem e k v : (k, v) ∈ staged_row e ↔ e = (k, PrivatePut v).
Proof.
  destruct e as [k' [v'|]]; unfold staged_row; cbn; [|split; [by intros ?%elem_of_nil|done]].
  rewrite list_elem_of_singleton. naive_solver.
Qed.

Lemma sorted_head {V} (e : bytes * V) l x : keys_sorted (e :: l) → x ∈ l → klt e.1 x.1.
Proof. intros [_ Hx]%StronglySorted_inv Hin. exact (proj1 (Forall_forall _ _) Hx x Hin). Qed.

Lemma sorted_tail {V} (e : bytes * V) l : keys_sorted (e :: l) → keys_sorted l.
Proof. by intros [? _]%StronglySorted_inv. Qed.

(** A staged value hides the row of its key; a staged deletion shows nothing. *)
Lemma overlaid_elem : ∀ base staged, keys_sorted base → keys_sorted staged → ∀ k v,
  (k, v) ∈ overlaid base staged ↔ (k, PrivatePut v) ∈ staged ∨ (k, v) ∈ base ∧ k ∉ staged.*1.
Proof.
  induction base as [|row base IH]; intros staged Hb; induction staged as [|e staged IH2]; intros Hs k v.
  - cbn. rewrite !elem_of_nil. tauto.
  - rewrite overlaid_none, elem_of_app, staged_row_elem, (IH2 (sorted_tail _ _ Hs)), !elem_of_cons, !elem_of_nil. naive_solver.
  - rewrite overlaid_nil. cbn. rewrite !elem_of_nil. tauto.
  - rewrite overlaid_cons. pose proof (sorted_tail _ _ Hb) as Hb'. pose proof (sorted_tail _ _ Hs) as Hs'.
    destruct (key_cmp row.1 e.1) eqn:Ec.
    + apply key_cmp_eq in Ec. rewrite elem_of_app, staged_row_elem, (IH _ Hb' Hs'), !elem_of_cons. cbn.
      rewrite elem_of_cons. split.
      * intros [->|[?|[Hin Hn]]]; [by left; left|by left; right|]. right. split; [by right|]. intros [->|?]; [|done].
        pose proof (sorted_head _ _ _ Hb Hin). cbn in *. korder.
      * intros [[->|?]|[[<-|Hin] Hn]]; [by left|right; by left| |right; right; tauto]. cbn in Ec. tauto.
    + change (key_cmp row.1 e.1 = Lt) in Ec. fold (klt row.1 e.1) in Ec.
      rewrite elem_of_cons, (IH _ Hb' Hs), !elem_of_cons. split; [|tauto].
      intros [<-|?]; [|tauto]. right. split; [by left|]. rewrite fmap_cons, elem_of_cons. cbn. intros [Hk|Hk].
      * cbn in *. korder.
      * apply list_elem_of_fmap in Hk as ([k' p] & Hk & Hin). pose proof (sorted_head _ _ _ Hs Hin). cbn in *. korder.
    + apply key_cmp_gt in Ec. rewrite elem_of_app, staged_row_elem.
      rewrite (IH2 Hs'), !elem_of_cons, fmap_cons, elem_of_cons. split.
      * intros [->|[?|[Hin Hn]]]; [by left; left|by left; right|]. right. split; [done|]. intros [->|?]; [|done].
        destruct Hin as [Hk|Hin]; [rewrite <-Hk in *; cbn in *; korder|].
        pose proof (sorted_head _ _ _ Hb Hin). cbn in *. korder.
      * intros [[->|?]|[Hin Hn]]; [by left|right; by left|right; right; tauto].
Qed.

Lemma overlaid_keys base staged x :
  x ∈ overlaid base staged → x.1 ∈ base.*1 ∨ x.1 ∈ staged.*1.
Proof.
  revert staged. induction base as [|row base IH]; intros staged; induction staged as [|e staged IH2].
  - by intros ?%elem_of_nil.
  - rewrite overlaid_none, elem_of_app. destruct x as [k v]. intros [?%staged_row_elem|?%IH2]; [subst e; right; left|].
    rewrite fmap_cons, elem_of_cons. tauto.
  - rewrite overlaid_nil. intros Hx. left. by apply list_elem_of_fmap_2.
  - rewrite overlaid_cons, !fmap_cons, !elem_of_cons. destruct (key_cmp row.1 e.1).
    + rewrite elem_of_app. destruct x as [k v]. intros [?%staged_row_elem|?%IH]; [subst e; by right; left|tauto].
    + rewrite elem_of_cons. intros [->|Hx%IH]; [by left; left|]. rewrite fmap_cons, elem_of_cons in Hx. tauto.
    + rewrite elem_of_app. destruct x as [k v]. intros [?%staged_row_elem|Hx%IH2]; [subst e; by right; left|].
      rewrite fmap_cons, elem_of_cons in Hx. tauto.
Qed.

Lemma overlaid_sorted : ∀ base staged, keys_sorted base → keys_sorted staged → keys_sorted (overlaid base staged).
Proof.
  assert (∀ e L, (∀ x, x ∈ L → klt e.1 x.1) → keys_sorted L → keys_sorted (staged_row e ++ L)) as Hrow.
  { intros [k [v|]] L Hlt HL; [|done]. constructor; [done|]. apply Forall_forall. intros x Hx. exact (Hlt x Hx). }
  assert (∀ {V} (e : bytes * V) l k, keys_sorted (e :: l) → k ∈ l.*1 → klt e.1 k) as Hhd.
  { intros V e l k Hs (x & -> & Hx)%list_elem_of_fmap. by eapply sorted_head. }
  induction base as [|row base IH]; intros staged Hb; induction staged as [|e staged IH2]; intros Hs.
  - constructor.
  - rewrite overlaid_none. apply Hrow; [|apply IH2; by eapply sorted_tail].
    intros x [?%elem_of_nil|Hx]%overlaid_keys; [done|]. by eapply Hhd.
  - by rewrite overlaid_nil.
  - rewrite overlaid_cons. pose proof (sorted_tail _ _ Hb) as Hb'. pose proof (sorted_tail _ _ Hs) as Hs'.
    destruct (key_cmp row.1 e.1) eqn:Ec.
    + apply key_cmp_eq in Ec. apply Hrow; [|by apply IH]. intros x [Hx|Hx]%overlaid_keys; [rewrite <-Ec|]; by eapply Hhd.
    + change (klt row.1 e.1) in Ec. constructor; [by apply IH|]. apply Forall_forall. intros x [Hx|Hx]%overlaid_keys.
      * by eapply (Hhd _ row).
      * change (klt row.1 x.1). rewrite fmap_cons, elem_of_cons in Hx. destruct Hx as [->|Hx]; [done|].
        pose proof (Hhd _ _ _ _ Hs Hx). korder.
    + apply key_cmp_gt in Ec. apply Hrow; [|by apply IH2]. intros x [Hx|Hx]%overlaid_keys; [|by eapply Hhd].
      rewrite fmap_cons, elem_of_cons in Hx. destruct Hx as [->|Hx]; [done|]. pose proof (Hhd _ _ _ _ Hb Hx). korder.
Qed.

(** Rows missing at the front of the base only make rows of the overlay missing. *)
Lemma overlaid_less row base : keys_sorted (row :: base) → ∀ staged,
  overlaid base staged `sublist_of` overlaid (row :: base) staged.
Proof.
  intros Hs. induction staged as [|e staged IH]; [rewrite !overlaid_nil; by apply sublist_cons|].
  rewrite overlaid_cons. destruct (key_cmp row.1 e.1) eqn:Ec; [|by apply sublist_cons|].
  - apply key_cmp_eq in Ec. destruct base as [|row' base]; [done|]. rewrite overlaid_cons.
    pose proof (sorted_head _ _ row' Hs ltac:(left)) as Hlt. rewrite Ec in Hlt. apply key_cmp_gt in Hlt. by rewrite Hlt.
  - apply key_cmp_gt in Ec. destruct base as [|row' base]; [rewrite overlaid_none; by apply sublist_app|].
    rewrite overlaid_cons. pose proof (sorted_head _ _ row' Hs ltac:(left)) as Hlt.
    assert (key_cmp row'.1 e.1 = Gt) as -> by (apply key_cmp_gt; korder). by apply sublist_app.
Qed.

Lemma overlaid_suffix lost base staged :
  keys_sorted (lost ++ base) → overlaid base staged `sublist_of` overlaid (lost ++ base) staged.
Proof.
  induction lost as [|row lost IH]; cbn; [done|]. intros Hs. etrans; [apply IH; by eapply sorted_tail|].
  by apply overlaid_less.
Qed.

(** One round of the merge, when the base side shows its next row or has none. *)
Lemma merge_round_spec (c : OrderedTransactionRangeCursor) rows rest :
  tc_base_pending c ≠ [] ∨ rest = [] →
  match merge_round c rows with
  | Some (c', rows') =>
      rows ++ overlaid (tc_base_pending c ++ rest) (drop (tc_staged_index c) (tc_staged c)) =
      rows' ++ overlaid (tc_base_pending c' ++ rest) (drop (tc_staged_index c') (tc_staged c')) ∧
      tc_base c' = tc_base c ∧ tc_staged c' = tc_staged c ∧
      (length (tc_base_pending c') + (length (tc_staged c') - tc_staged_index c') <
       length (tc_base_pending c) + (length (tc_staged c) - tc_staged_index c))%nat
  | None => overlaid (tc_base_pending c ++ rest) (drop (tc_staged_index c) (tc_staged c)) = []
  end.
Proof.
  intros Hp. unfold merge_round, consume_staged. destruct (tc_staged c !! tc_staged_index c) as [[k p]|] eqn:Es.
  - rewrite (drop_S _ _ _ Es). pose proof (lookup_lt_Some _ _ _ Es) as Hl.
    destruct (tc_base_pending c) as [|row pending] eqn:Ep.
    + destruct Hp as [?| ->]; [done|]. cbn [tc_base tc_staged tc_staged_index tc_base_pending]. rewrite ?Ep. cbn [app].
      rewrite overlaid_none. split_and!; [|done..|cbn; lia]. destruct p; cbn [staged_row fst snd]; [by rewrite <-app_assoc|done].
    + cbn [app]. rewrite overlaid_cons. cbn [fst]. destruct (key_cmp row.1 k); cbn [with_pending tc_base tc_staged tc_staged_index tc_base_pending].
      * rewrite Es. cbn. split_and!; [|done..|lia]. destruct p; cbn [staged_row fst snd]; [by rewrite <-app_assoc|done].
      * rewrite (drop_S _ _ _ Es). split_and!; [by rewrite <-app_assoc|done..|cbn; lia].
      * rewrite ?Ep. split_and!; [|done..|cbn; lia]. destruct p; cbn [staged_row fst snd app]; [by rewrite <-app_assoc|done].
  - apply lookup_ge_None in Es. rewrite drop_ge by done. destruct (tc_base_pending c) as [|row pending].
    + destruct Hp as [?| ->]; done.
    + cbn [with_pending tc_base tc_staged tc_staged_index tc_base_pending]. rewrite drop_ge by done.
      rewrite !overlaid_nil. split_and!; [by rewrite <-app_assoc|done..|cbn; lia].
Qed.

(** ** One call of the snapshot cursor *)
Section batches.
Context `{Hcrc : Crc32c} {W : Type} `{Hos : ObjectStore W} `{Hlaws : !ObjectStoreLaws W}.
Context (rd : OrderedMvccReader) (reader : option TxnId) (snap : CommitSeq).
Context (R : list MvccRecord) (C : Currents) (H : Histories).
Context (M : Objects) (tree : nat) (d : StorageObjectDescriptor) (m : list LeafEntry).
Hypothesis HM : M !! tree = Some (d, m).
Hypothesis Hdec : ∀ key, decodes (map_lookup m key) (C (od_id d, key)).
Hypothesis Hch : ∀ key, chain (tget (rd_statuses rd)) R (C key) (H key).
Hypothesis Hcur : ∀ key rec, C key = Some rec → foreign reader rec.
Hypothesis HR : Forall (foreign reader) R.
Implicit Types (s : Engine W) (c : OrderedMvccRangeCursor).

(** The engine in a state with these objects and undo records. *)
Definition holds s : Prop := os_repr (e_objects s) M ∧ undo_inv (e_fs s) (e_undo s) R [].

Definition snapshot_view (key : bytes) : MvccLookup := snapshot_lookup (H (od_id d, key)) snap.
Definition ahead_rows c : OrderedKeyValueBatch := visible_rows snapshot_view (remaining (mc_raw c) m).

Definition reads_for c : Prop := mc_reader c = reader ∧ mc_snapshot c = snap ∧ cursor_ok (mc_raw c).

Lemma holds_read_only s s' : holds s → read_only s s' → holds s'.
Proof. intros [Hr Hu] Hro. split; [by destruct Hro as (-> & _)|by eapply read_only_undo]. Qed.

Lemma resolve_rows_spec : ∀ rows visible s s' out,
  holds s → Forall (λ row : Row, decodes row.2 (C (od_id d, row.1))) rows →
  resolve_rows rd reader snap rows visible s = (s', Ok out) →
  holds s' ∧ out = visible ++ visible_rows snapshot_view rows.
Proof.
  induction rows as [|[key l] rows IH]; intros visible s s' out Hh Hf; cbn [resolve_rows].
  { intros [= <- <-]. by rewrite app_nil_r. }
  apply Forall_cons in Hf as [Hl Hf].
  destruct (resolve_lookup rd l reader snap s) as [s1 [v|e]] eqn:E; [|done].
  pose proof (resolve_lookup_read_only _ _ _ _ _ _ _ E) as Hro.
  apply (resolve_lookup_spec _ _ R _ _ _ _ _ _ _ _ eq_refl (proj2 Hh) (Hch (od_id d, key)) Hl (Hcur _) HR) in E.
  intros [Hs ->]%IH; [|by eapply holds_read_only|done]. split; [done|].
  unfold visible_rows. cbn. unfold row_of at 2, snapshot_view at 2. cbn. rewrite <-E.
  destruct v; [by rewrite <-app_assoc|done..].
Qed.

Lemma sorted_m s : holds s → keys_sorted m.
Proof. intros [Hr _]. exact (os_sorted _ _ _ _ Hr HM). Qed.

Lemma remaining_decodes s (raw : RangeCursor) : holds s → Forall (λ row : Row, decodes row.2 (C (od_id d, row.1))) (remaining raw m).
Proof.
  intros Hh%sorted_m. apply Forall_forall. intros [k l] (_ & v & Hin & ->)%remaining_elem. cbn.
  specialize (Hdec k). unfold map_lookup in Hdec. by rewrite (BTreeMap.elem_get _ _ _ Hh Hin) in Hdec.
Qed.

Lemma visible_split rows n :
  visible_rows snapshot_view rows = visible_rows snapshot_view (take n rows) ++ visible_rows snapshot_view (drop n rows).
Proof. unfold visible_rows. by rewrite <-omap_app, take_drop. Qed.

Lemma mvcc_batch_spec limit : ∀ fuel s c visible s' c' out,
  holds s → reads_for c → limit < U64_MAX → len visible ≤ limit →
  mvcc_batch_loop fuel rd tree c limit visible s = (s', c', Some (Ok out)) →
  holds s' ∧ reads_for c' ∧ visible ++ ahead_rows c = out ++ ahead_rows c' ∧
  (len out < limit → ahead_rows c' = []) ∧
  (length out + length (remaining (mc_raw c') m) ≤ length visible + length (remaining (mc_raw c) m))%nat.
Proof.
  induction fuel as [|fuel IH]; intros s c visible s' c' out Hh Hc Hlim Hlen; cbn [mvcc_batch_loop]; [done|].
  destruct (len visible <? limit) eqn:El; cbn [negb orb]; bool_to_prop.
  2:{ intros [= <- <- <-]. split_and!; [done..|lia|lia]. }
  destruct (mvcc_is_done c) eqn:Ed.
  { intros [= <- <- <-]. split_and!; [done..| |lia]. intros _. unfold ahead_rows, remaining.
    unfold mvcc_is_done in Ed. by rewrite Ed. }
  destruct (reader_admission rd) as [[]|]; [|done].
  destruct (os_next_batch tree (mc_raw c) _ _) as [[w raw] rb] eqn:Eb. destruct Hc as (Er & Es & Hok).
  assert (0 < limit - len visible < U64_MAX) as Hn by (pose proof (len_nonneg visible); lia).
  destruct (os_next_batch_repr _ _ _ _ _ _ _ _ _ (proj1 Hh) HM Hok Hn Eb)
    as (Hr' & _ & Hok' & Hrb).
  destruct rb as [rows|e]; [|done]. destruct Hrb as [Hrows Hrest]. cbn in Hrows, Hrest.
  set (n := Z.to_nat (limit - len visible)) in *.
  assert (holds (with_objects w s)) as Hh' by (split; [exact Hr'|exact (proj2 Hh)]).
  assert (reads_for (with_raw raw c)) as Hc' by done.
  assert (ahead_rows c = visible_rows snapshot_view rows ++ ahead_rows (with_raw raw c)) as Hsplit.
  { unfold ahead_rows. cbn [mc_raw with_raw]. rewrite Hrest, Hrows. apply visible_split. }
  destruct rows as [|row rows].
  { intros [= <- <- <-]. rewrite Hsplit. split_and!; [done..| |cbn [mc_raw with_raw]; rewrite Hrest, length_drop; lia].
    intros _. unfold ahead_rows. cbn [mc_raw with_raw]. rewrite Hrest. assert (remaining (mc_raw c) m = []) as ->; [|by rewrite drop_nil].
    destruct (remaining (mc_raw c) m); [done|]. by destruct n eqn:En; [lia|]. }
  destruct (resolve_rows rd _ _ _ _ _) as [s2 [visible2|e]] eqn:Eres; [|done].
  cbn [mc_reader mc_snapshot with_raw] in Eres. rewrite Er, Es in Eres.
  apply resolve_rows_spec in Eres as [Hh2 ->]; [|done|].
  2:{ rewrite Hrows. apply Forall_take. by eapply remaining_decodes. }
  rewrite Hsplit, app_assoc. pose proof (visible_rows_length snapshot_view (row :: rows)) as Hvl.
  assert (len (row :: rows) ≤ limit - len visible) as Hrl.
  { rewrite Hrows. unfold len at 1. rewrite length_take. unfold n. lia. }
  intros E. apply IH in E as (Hh3 & Hc3 & Heq & Hend & Hcount); [|done..|rewrite len_app; lia].
  split_and!; [done..|]. rewrite length_app in Hcount. cbn [mc_raw with_raw] in Hcount. rewrite Hrest, length_drop in Hcount.
  assert (length (row :: rows) = Nat.min n (length (remaining (mc_raw c) m))) as Hlr by (by rewrite Hrows, length_take).
  unfold len in Hvl. lia.
Qed.

(** A batch that fails may have moved the cursor over rows it did not hand out. *)
Lemma mvcc_batch_failed limit : ∀ fuel s c visible s' c' e,
  holds s → reads_for c → limit < U64_MAX →
  mvcc_batch_loop fuel rd tree c limit visible s = (s', c', Some (Err e)) →
  holds s' ∧ reads_for c' ∧ ahead_rows c' `suffix_of` ahead_rows c.
Proof.
  induction fuel as [|fuel IH]; intros s c visible s' c' e Hh Hc Hlim; cbn [mvcc_batch_loop]; [done|].
  destruct (len visible <? limit) eqn:El; cbn [negb orb]; bool_to_prop; [|done].
  destruct (mvcc_is_done c); [done|]. destruct (reader_admission rd) as [[]|]; [|by intros [= <- <- _]].
  destruct (os_next_batch tree (mc_raw c) _ _) as [[w raw] rb] eqn:Eb. destruct Hc as (Er & Es & Hok).
  assert (0 < limit - len visible < U64_MAX) as Hn by (pose proof (len_nonneg visible); lia).
  destruct (os_next_batch_repr _ _ _ _ _ _ _ _ _ (proj1 Hh) HM Hok Hn Eb) as (Hr' & _ & Hok' & Hrb).
  assert (holds (with_objects w s)) as Hh' by (split; [exact Hr'|exact (proj2 Hh)]).
  assert (reads_for (with_raw raw c)) as Hc' by done.
  destruct rb as [rows|e']; [|intros [= <- <- _]; subst raw; by split_and!]. destruct Hrb as [Hrows Hrest].
  assert (ahead_rows (with_raw raw c) `suffix_of` ahead_rows c) as Hsuf.
  { unfold ahead_rows. cbn [mc_raw with_raw]. cbn in Hrest. rewrite Hrest.
    rewrite (visible_split (remaining (mc_raw c) m) (Z.to_nat (limit - len visible))). by apply suffix_app_r. }
  destruct rows as [|row rows]; [done|].
  destruct (resolve_rows rd _ _ _ _ _) as [s2 [visible2|e']] eqn:Eres; apply resolve_rows_read_only in Eres;
    (assert (holds s2) as Hh2 by (by eapply holds_read_only)); [|by intros [= <- <- _]].
  intros (Hh3 & Hc3 & Hs3)%IH; [|done..]. split_and!; [done..|]. by etrans.
Qed.

(** The loop ends after as many rounds as rows are left, and one. *)
Lemma mvcc_batch_total limit : ∀ fuel s c visible,
  holds s → reads_for c → limit < U64_MAX → (length (remaining (mc_raw c) m) < fuel)%nat →
  is_Some (mvcc_batch_loop fuel rd tree c limit visible s).2.
Proof.
  induction fuel as [|fuel IH]; intros s c visible Hh Hc Hlim Hfuel; [lia|]. cbn [mvcc_batch_loop].
  destruct (len visible <? limit) eqn:El; cbn [negb orb]; [|by eexists]. bool_to_prop.
  destruct (mvcc_is_done c); [by eexists|]. destruct (reader_admission rd) as [[]|]; [|by eexists].
  destruct (os_next_batch tree (mc_raw c) _ _) as [[w raw] rb] eqn:Eb. destruct Hc as (Er & Es & Hok).
  assert (0 < limit - len visible < U64_MAX) as Hn by (pose proof (len_nonneg visible); lia).
  destruct (os_next_batch_repr _ _ _ _ _ _ _ _ _ (proj1 Hh) HM Hok Hn Eb)
    as (Hr' & _ & Hok' & Hrb).
  destruct rb as [[|row rows]|e]; [by eexists| |by eexists]. destruct Hrb as [Hrows Hrest]. cbn in Hrows, Hrest.
  destruct (resolve_rows rd _ _ _ _ _) as [s2 [visible2|e]] eqn:Eres; [|by eexists].
  apply resolve_rows_read_only in Eres. apply IH; [|done..|].
  - eapply holds_read_only; [|exact Eres]. split; [exact Hr'|exact (proj2 Hh)].
  - cbn [mc_raw with_raw]. rewrite Hrest, length_drop. apply (f_equal length) in Hrows. cbn in Hrows.
    rewrite length_take in Hrows. lia.
Qed.

(** ** One call of the transaction cursor *)
Implicit Types (tc : OrderedTransactionRangeCursor).

(** What the cursor has still to hand out. *)
Definition to_come tc : OrderedKeyValueBatch :=
  overlaid (tc_base_pending tc ++ ahead_rows (tc_base tc)) (drop (tc_staged_index tc) (tc_staged tc)).

(** What bounds the rounds of its loops. *)
Definition left_over tc : nat :=
  length (tc_base_pending tc) + length (remaining (mc_raw (tc_base tc)) m) + (length (tc_staged tc) - tc_staged_index tc).

Lemma mvcc_next_batch_spec fuel s c limit s' c' out :
  holds s → reads_for c → 0 < limit < U64_MAX → mvcc_next_batch fuel rd tree c limit s = (s', c', Some (Ok out)) →
  holds s' ∧ reads_for c' ∧ ahead_rows c = out ++ ahead_rows c' ∧ (out = [] → ahead_rows c' = []) ∧
  (length out + length (remaining (mc_raw c') m) ≤ length (remaining (mc_raw c) m))%nat.
Proof.
  intros Hh Hc Hlim. unfold mvcc_next_batch. destruct (reader_admission rd) as [[]|]; [|done].
  destruct (limit =? 0) eqn:E0; bool_to_prop; [lia|]. cbn [orb]. destruct (mvcc_is_done c) eqn:Ed.
  { intros [= <- <- <-]. split_and!; [done..| |cbn; lia]. intros _. unfold ahead_rows, remaining, mvcc_is_done in *.
    by rewrite Ed. }
  intros E. apply mvcc_batch_spec in E as (Hh' & Hc' & Heq & Hend & Hn); [|done|done|lia|unfold len; cbn; lia].
  split_and!; [done..| |done]. intros ->. apply Hend. unfold len. cbn. lia.
Qed.

Lemma refill_spec fuel s tc wanted s' tc' :
  holds s → reads_for (tc_base tc) → wanted < U64_MAX → refill fuel rd tree tc wanted s = (s', tc', Some (Ok tt)) →
  holds s' ∧ reads_for (tc_base tc') ∧ to_come tc = to_come tc' ∧
  (tc_base_pending tc' ≠ [] ∨ ahead_rows (tc_base tc') = []) ∧
  tc_staged tc' = tc_staged tc ∧ tc_staged_index tc' = tc_staged_index tc ∧ (left_over tc' ≤ left_over tc)%nat.
Proof.
  intros Hh Hc Hw. unfold refill. case_bool_decide as Hp; cbn [andb].
  2:{ intros [= <- <-]. split_and!; auto. }
  destruct (mvcc_is_done (tc_base tc)) eqn:Ed; cbn [negb].
  { intros [= <- <-]. split_and!; auto. right. unfold ahead_rows, remaining, mvcc_is_done in *. by rewrite Ed. }
  destruct (mvcc_next_batch _ _ _ _ _ _) as [[s1 base] [[rows|e]|]] eqn:E; [|done..]. intros [= <- <-].
  apply mvcc_next_batch_spec in E as (Hh' & Hc' & Heq & Hend & Hn); [|done|done|unfold U64_MAX in *; lia].
  unfold to_come, left_over, with_pending.
  cbn [tc_base tc_base_pending tc_staged tc_staged_index]. rewrite Hp. cbn [app length].
  split_and!; [done|done|by rewrite Heq| |done..|lia]. destruct rows; [right; by apply Hend|by left].
Qed.

Lemma txn_batch_spec limit : ∀ fuel s tc rows s' tc' out,
  holds s → reads_for (tc_base tc) → limit < U64_MAX →
  txn_batch_loop fuel rd tree tc limit rows s = (s', tc', Some (Ok out)) →
  holds s' ∧ reads_for (tc_base tc') ∧ tc_staged tc' = tc_staged tc ∧ rows ++ to_come tc = out ++ to_come tc' ∧
  (len out < limit → to_come tc' = []).
Proof.
  induction fuel as [|fuel IH]; intros s tc rows s' tc' out Hh Hc Hlim; cbn [txn_batch_loop]; [done|].
  destruct (len rows <? limit) eqn:El; cbn [negb]; bool_to_prop; [|intros [= <- <- <-]; split_and!; [done..|lia]].
  destruct (reader_admission rd) as [[]|]; [|done].
  destruct (refill _ _ _ _ _ _) as [[s1 tc1] [[[]|e]|]] eqn:E; [|done..].
  apply refill_spec in E as (Hh1 & Hc1 & Heq & Hp & Est & Eix & _); [|done|done|pose proof (len_nonneg rows); lia].
  pose proof (merge_round_spec tc1 rows (ahead_rows (tc_base tc1)) Hp) as Hm. rewrite Heq.
  destruct (merge_round tc1 rows) as [[tc2 rows2]|].
  - destruct Hm as (Hm & Hb & Hs & _). intros (Hh2 & Hc2 & Es2 & Heq2 & Hend)%IH; [|done|by rewrite Hb|done].
    split_and!; [done|done|congruence| |done]. rewrite <-Heq2. unfold to_come. by rewrite Hm, Hb.
  - intros [= <- <- <-]. by split_and!.
Qed.

(** A batch that fails leaves rows to come that were to come, some of them skipped. *)
Lemma refill_failed fuel s tc wanted s' tc' e :
  holds s → reads_for (tc_base tc) → wanted < U64_MAX → refill fuel rd tree tc wanted s = (s', tc', Some (Err e)) →
  holds s' ∧ reads_for (tc_base tc') ∧ to_come tc' `sublist_of` to_come tc.
Proof.
  intros Hh Hc Hw. unfold refill. case_bool_decide as Hp; cbn [andb]; [|done].
  destruct (negb (mvcc_is_done (tc_base tc))); [|done]. unfold mvcc_next_batch.
  destruct (reader_admission rd) as [[]|]; [|intros [= <- <- _]; by split_and!].
  destruct (_ || _); [done|].
  destruct (mvcc_batch_loop _ _ _ _ _ _ _) as [[s1 base] [[rows|e']|]] eqn:E; [done| |done]. intros [= <- <- _].
  apply mvcc_batch_failed in E as (Hh' & Hc' & lost & Hlost); [|done|done|unfold U64_MAX in *; lia].
  split_and!; [done..|]. unfold to_come, with_pending. cbn [tc_base tc_base_pending tc_staged tc_staged_index].
  rewrite Hp, Hlost. cbn [app]. apply overlaid_suffix. rewrite <-Hlost.
  apply visible_rows_sorted, remaining_sorted. by eapply sorted_m.
Qed.

Lemma txn_batch_failed limit : ∀ fuel s tc rows s' tc' e,
  holds s → reads_for (tc_base tc) → limit < U64_MAX →
  txn_batch_loop fuel rd tree tc limit rows s = (s', tc', Some (Err e)) →
  holds s' ∧ reads_for (tc_base tc') ∧ to_come tc' `sublist_of` rows ++ to_come tc.
Proof.
  induction fuel as [|fuel IH]; intros s tc rows s' tc' e Hh Hc Hlim; cbn [txn_batch_loop]; [done|].
  destruct (len rows <? limit) eqn:El; cbn [negb]; bool_to_prop; [|done].
  destruct (reader_admission rd) as [[]|]; [|intros [= <- <- _]; split_and!; [done..|by apply sublist_inserts_l]].
  assert (limit - len rows < U64_MAX) as Hw by (pose proof (len_nonneg rows); lia).
  destruct (refill _ _ _ _ _ _) as [[s1 tc1] [[[]|e']|]] eqn:E; [| |done].
  - apply refill_spec in E as (Hh1 & Hc1 & Heq & Hp & _ & _ & _); [|done..].
    pose proof (merge_round_spec tc1 rows (ahead_rows (tc_base tc1)) Hp) as Hm. rewrite Heq.
    destruct (merge_round tc1 rows) as [[tc2 rows2]|]; [|done].
    destruct Hm as (Hm & Hb & _ & _). intros (Hh2 & Hc2 & Hsub)%IH; [|done|by rewrite Hb|done].
    split_and!; [done..|]. unfold to_come in Hsub |- *. rewrite Hm, <-Hb. exact Hsub.
  - intros [= <- <- _]. apply refill_failed in E as (Hh1 & Hc1 & Hsub); [|done..]. split_and!; [done..|].
    etrans; [exact Hsub|]. by apply sublist_inserts_l.
Qed.

Lemma txn_next_batch_failed fuel s tc limit s' tc' e :
  holds s → reads_for (tc_base tc) → limit < U64_MAX →
  txn_next_batch fuel rd tree tc limit s = (s', tc', Some (Err e)) →
  holds s' ∧ reads_for (tc_base tc') ∧ to_come tc' `sublist_of` to_come tc.
Proof.
  intros Hh Hc Hlim. unfold txn_next_batch. destruct (reader_admission rd) as [[]|]; [|intros [= <- <- _]; by split_and!].
  destruct (_ || _); [done|]. apply (txn_batch_failed limit fuel s tc []); done.
Qed.

(** The loop ends: every round takes a row of one of the two sides. *)
Lemma txn_batch_total limit : ∀ fuel s tc rows,
  holds s → reads_for (tc_base tc) → limit < U64_MAX → (left_over tc < fuel)%nat →
  is_Some (txn_batch_loop fuel rd tree tc limit rows s).2.
Proof.
  induction fuel as [|fuel IH]; intros s tc rows Hh Hc Hlim Hf; [lia|]. cbn [txn_batch_loop].
  destruct (len rows <? limit); cbn [negb]; [|by eexists]. destruct (reader_admission rd) as [[]|]; [|by eexists].
  assert (is_Some (refill (S fuel) rd tree tc (limit - len rows) s).2) as [r Hr].
  { unfold refill. destruct (_ && _); [|by eexists]. unfold mvcc_next_batch.
    destruct (reader_admission rd); [|by eexists]. destruct (_ || _); [by eexists|].
    pose proof (mvcc_batch_total (Z.max (limit - len rows) 16) (S fuel) s (tc_base tc) [] Hh Hc
      ltac:(pose proof (len_nonneg rows); unfold U64_MAX in *; lia)) as Ht.
    destruct Ht as [rb Hb]; [unfold left_over in Hf; lia|].
    destruct (mvcc_batch_loop _ _ _ _ _ _ _) as [[s1 base] o]. cbn in Hb. subst o. destruct rb; by eexists. }
  destruct (refill _ _ _ _ _ _) as [[s1 tc1] o] eqn:E. cbn in Hr. subst o. destruct r as [[]|e]; [|by eexists].
  apply refill_spec in E as (Hh1 & Hc1 & _ & Hp & _ & _ & Hle); [|done|done|pose proof (len_nonneg rows); lia].
  pose proof (merge_round_spec tc1 rows (ahead_rows (tc_base tc1)) Hp) as Hm.
  destruct (merge_round tc1 rows) as [[tc2 rows2]|]; [|by eexists]. destruct Hm as (_ & Hb & _ & Hlt).
  apply IH; [done|by rewrite Hb|done|]. unfold left_over in *. rewrite Hb. lia.
Qed.

Lemma to_come_done tc : txn_cursor_is_done tc = true → to_come tc = [].
Proof.
  unfold txn_cursor_is_done. intros [[Hb Hp]%andb_prop Hs]%andb_prop. apply bool_decide_eq_true in Hp, Hs.
  unfold to_come, ahead_rows, remaining. unfold mvcc_is_done in Hb. rewrite Hb, Hp, drop_ge by done. done.
Qed.

Lemma txn_next_batch_spec fuel s tc limit s' tc' out :
  holds s → reads_for (tc_base tc) → 0 ≤ limit < U64_MAX →
  txn_next_batch fuel rd tree tc limit s = (s', tc', Some (Ok out)) →
  holds s' ∧ reads_for (tc_base tc') ∧ tc_staged tc' = tc_staged tc ∧ to_come tc = out ++ to_come tc' ∧
  (len out < limit → to_come tc' = []).
Proof.
  intros Hh Hc Hlim. unfold txn_next_batch. destruct (reader_admission rd) as [[]|]; [|done].
  destruct (limit =? 0) eqn:El; bool_to_prop; cbn [orb].
  { intros [= <- <- <-]. split_and!; [done..|]. intros Hl. pose proof (len_nonneg (@nil (bytes * bytes))). lia. }
  destruct (txn_cursor_is_done tc) eqn:Ed.
  { intros [= <- <- <-]. split_and!; [done..|]. intros Hl. by apply to_come_done. }
  by intros E%txn_batch_spec; [|done|done|lia].
Qed.

Lemma txn_next_batch_total s tc limit :
  holds s → reads_for (tc_base tc) → limit < U64_MAX → is_Some (txn_next_batch (S (left_over tc)) rd tree tc limit s).2.
Proof.
  intros Hh Hc Hlim. unfold txn_next_batch. destruct (reader_admission rd); [|by eexists].
  destruct (_ || _); [by eexists|]. apply txn_batch_total; [done..|lia].
Qed.

(** What is ahead of the cursor, by the snapshot alone. *)
Lemma ahead_rows_range s c : holds s → is_range (ahead (mc_raw c)) snapshot_view (ahead_rows c).
Proof.
  intros Hh. apply visible_rows_range; [by eapply sorted_m|]. intros k v Hv. unfold snapshot_view in Hv.
  specialize (Hdec k). specialize (Hch (od_id d, k)). unfold map_lookup in Hdec.
  destruct (BTreeMap.get k m) as [u|] eqn:Hg; [exists u; by apply BTreeMap.get_elem|]. cbn in Hdec.
  destruct (C (od_id d, k)); [done|]. apply chain_none_inv in Hch. by rewrite Hch in Hv.
Qed.
End batches.

(** ** What a transaction has staged in a range *)
Definition private_lookup (p : PrivateRangeValue) : StagedOrderedLookup :=
  match p with PrivatePut v => StagedPut v | PrivateDelete => StagedDelete end.

Lemma staged_overlay_snoc o start stop ms x :
  staged_overlay o start stop (ms ++ [x]) =
  let staged := staged_overlay o start stop ms in
  if negb (lm_object x =? o) || bool_decide (klt (lm_key x) start) || bool_decide (kle stop (lm_key x))
  then staged else BTreeMap.insert (lm_key x) (private_value x) staged.
Proof. unfold staged_overlay. by rewrite fold_left_app. Qed.

Lemma staged_overlay_sorted o start stop ms : keys_sorted (staged_overlay o start stop ms).
Proof.
  induction ms as [|x ms IH] using rev_ind; [constructor|]. rewrite staged_overlay_snoc. cbv zeta.
  destruct (_ || _); [done|by apply BTreeMap.insert_wf].
Qed.

(** The overlay has the last mutation of each key of the range. *)
Lemma staged_overlay_get o start stop ms k :
  kle start k → klt k stop →
  BTreeMap.get k (staged_overlay o start stop ms) = private_value <$> last_for (o, k) ms.
Proof.
  intros Hlo Hhi. induction ms as [|x ms IH] using rev_ind; [done|]. rewrite staged_overlay_snoc, last_for_snoc. cbv zeta.
  destruct (decide (effect_key x = (o, k))) as [[= Ho Hk]|Hne].
  - rewrite Ho, Z.eqb_refl, Hk. rewrite !bool_decide_eq_false_2 by korder. cbn. by rewrite BTreeMap.get_insert_eq.
  - destruct (negb _) eqn:Ho; cbn [orb]; [done|]. bool_to_prop. destruct (_ || _); [done|].
    rewrite BTreeMap.get_insert_ne; [done|]. intros Hk. apply Hne. unfold effect_key. by rewrite Ho, Hk.
Qed.

Lemma staged_overlay_range o start stop ms k p :
  (k, p) ∈ staged_overlay o start stop ms → kle start k ∧ klt k stop.
Proof.
  induction ms as [|x ms IH] using rev_ind; [by intros ?%elem_of_nil|]. rewrite staged_overlay_snoc. cbv zeta.
  destruct (negb _); cbn [orb]; [done|]. case_bool_decide as H1; cbn [orb]; [done|]. case_bool_decide as H2; [done|].
  intros Hin. apply BTreeMap.elem_get in Hin; [|apply BTreeMap.insert_wf, staged_overlay_sorted].
  destruct (decide (lm_key x = k)) as [<-|Hne]; [split; korder|].
  rewrite BTreeMap.get_insert_ne in Hin by done. apply IH. by apply BTreeMap.get_elem.
Qed.

Lemma staged_overlay_lookup o start stop t k :
  kle start k → klt k stop →
  staged_ordered_lookup o k t =
  from_option private_lookup Unchanged (BTreeMap.get k (staged_overlay o start stop (tx_mutations t))).
Proof.
  intros Hlo Hhi. rewrite staged_overlay_get by done. unfold staged_ordered_lookup. rewrite staged_lookup_last.
  destruct (last_for _ _) as [x|]; [|done]. cbn. unfold private_value. by destruct (lm_kind x).
Qed.

(** What a transaction sees at a key of an object. *)
Definition txn_view (pubs : list Publication) (t : Transaction) (o : StorageObjectId) (key : bytes) : MvccLookup :=
  match staged_ordered_lookup o key t with
  | StagedPut value => MvccFound value
  | StagedDelete => MvccDeleted
  | Unchanged => snapshot_lookup (history pubs (o, key)) (tx_snapshot t)
  end.

Lemma overlay_range pubs t o start stop B :
  is_range (ahead (RangeCursor_new start stop)) (λ k, snapshot_lookup (history pubs (o, k)) (tx_snapshot t)) B →
  is_range (λ k, kle start k ∧ klt k stop) (txn_view pubs t o)
    (overlaid B (staged_overlay o start stop (tx_mutations t))).
Proof.
  intros [Hs Hel]. set (ov := staged_overlay o start stop (tx_mutations t)).
  assert (keys_sorted ov) as Hov by apply staged_overlay_sorted.
  split; [by apply overlaid_sorted|]. intros k v. rewrite overlaid_elem by done. rewrite Hel. unfold txn_view.
  assert (ahead (RangeCursor_new start stop) k ↔ kle start k ∧ klt k stop) as ->.
  { unfold ahead, RangeCursor_new. cbn [rc_done rc_start rc_end rc_last_emitted]. split; [by intros (_ & ? & ? & _)|]. intros [H1 H2].
    split_and!; [|done..]. assert (klt start stop) as Hlt by korder. unfold klt in Hlt. by rewrite Hlt. }
  split.
  - intros [Hin|[[Hr Hv] Hn]].
    + pose proof (staged_overlay_range _ _ _ _ _ _ Hin) as [H1 H2]. split; [done|].
      rewrite (staged_overlay_lookup o start stop) by done. fold ov. by rewrite (BTreeMap.elem_get _ _ _ Hov Hin).
    + split; [done|]. rewrite (staged_overlay_lookup o start stop) by apply Hr. fold ov.
      destruct (BTreeMap.get k ov) as [p|] eqn:Eg; [|done]. destruct Hn.
      apply BTreeMap.get_elem in Eg. exact (list_elem_of_fmap_2 fst _ _ Eg).
  - intros [Hr Hv]. rewrite (staged_overlay_lookup o start stop) in Hv by apply Hr. fold ov in Hv.
    destruct (BTreeMap.get k ov) as [[u|]|] eqn:Eg; cbn in Hv; [|done|].
    + injection Hv as <-. left. by apply BTreeMap.get_elem.
    + right. split; [done|]. intros ([k' p] & -> & Hin)%list_elem_of_fmap.
      pose proof (BTreeMap.elem_get _ _ _ Hov Hin). cbn in *. congruence.
Qed.

(** ** Batches between the steps of the other callers *)
Section sessions.
Context (Ds : list StorageObjectDescriptor) (init : CommitSeq).
Context `{Hcrc : Crc32c} {D : Type} `{Hld : LogDevice D} {W : Type} `{Hos : ObjectStore W}
  `{Hlaws : !ObjectStoreLaws W} `{Hih : IntentHasher}.
Implicit Types (k : Kernel D W) (y z : Sys D W) (c : OrderedTransactionRangeCursor).
Local Abbreviation step := (sys_step (length Ds)).

Definition cursor_batch (fuel : nat) tree c (limit : Z) y
    : Engine W * OrderedTransactionRangeCursor * option (result OrderedKeyValueBatch OrderedMvccReadError) :=
  txn_next_batch fuel (reader_of (sy_kernel y)) tree c limit (k_engine (sy_kernel y)).

(** The transaction of the cursor is still open. *)
Definition is_open (x : TxnId) y : Prop := ∃ t, sy_tasks y !! x = Some (TaskIdle t) ∧ tx_phase t = Active.

(** A cursor of the transaction [x] from [c] at [y] to [c'] at [z], the rows its
    batches returned, and whether one of them failed; the other callers, and [x]
    itself, may do anything that leaves [x] open between two batches. *)
Inductive session (x : TxnId) (tree : nat) y c :
    Sys D W → OrderedTransactionRangeCursor → OrderedKeyValueBatch → bool → Prop :=
| session_start : session x tree y c y c [] false
| session_step z z' c' rows failed :
    session x tree y c z c' rows failed → step z z' → session x tree y c z' c' rows failed
| session_batch z c' rows failed fuel limit e c2 out :
    session x tree y c z c' rows failed → is_open x z → 0 ≤ limit < U64_MAX →
    cursor_batch fuel tree c' limit z = (e, c2, Some (Ok out)) →
    session x tree y c (with_kernel (with_engine e (sy_kernel z)) z) c2 (rows ++ out) failed
| session_failed z c' rows failed fuel limit e c2 err :
    session x tree y c z c' rows failed → is_open x z → 0 ≤ limit < U64_MAX →
    cursor_batch fuel tree c' limit z = (e, c2, Some (Err err)) →
    session x tree y c (with_kernel (with_engine e (sy_kernel z)) z) c2 rows true.

(** What a cursor has in front of it in the versions of [pubs]. *)
Definition due (pubs : list Publication) (x : TxnId) (snap : CommitSeq) (o : StorageObjectId) c (L : OrderedKeyValueBatch) : Prop :=
  mc_reader (tc_base c) = Some x ∧ mc_snapshot (tc_base c) = snap ∧ cursor_ok (mc_raw (tc_base c)) ∧
  ∃ B, is_range (ahead (mc_raw (tc_base c))) (λ key, snapshot_lookup (history pubs (o, key)) snap) B ∧
    L = overlaid (tc_base_pending c ++ B) (drop (tc_staged_index c) (tc_staged c)).

Lemma due_same pubs pubs' x snap o c L :
  (∀ key, as_of (history pubs' (o, key)) snap = as_of (history pubs (o, key)) snap) →
  due pubs x snap o c L → due pubs' x snap o c L.
Proof.
  intros Hsame (Hr & Hs & Hc & B & [HB1 HB2] & HL). split_and!; [done..|]. exists B. split; [|done].
  split; [done|]. intros k v. rewrite HB2. unfold snapshot_lookup. by rewrite Hsame.
Qed.

(** The state a batch runs in. *)
Lemma batch_setting y x tree d R C :
  good Ds init (sy_kernel y) (sy_tasks y) (sy_published y) R C → Ds !! tree = Some d → is_open x y →
  ∃ M m, M !! tree = Some (d, m) ∧ M.*1 = Ds ∧
    (∀ i o key, M !! i = Some o → decodes (map_lookup o.2 key) (C (od_id o.1, key))) ∧
    holds R M (k_engine (sy_kernel y)) ∧
    (∀ key, chain (tget (k_statuses (sy_kernel y))) R (C key) (history (sy_published y) key)) ∧
    (∀ key rec, C key = Some rec → foreign (Some x) rec) ∧ Forall (foreign (Some x)) R.
Proof.
  intros Hg Hd (t & Hx & Hact). destruct (idle_foreign _ _ _ _ _ _ _ _ _ Hg Hx Hact) as [Hcur HR].
  destruct (gd_tasks _ _ _ _ _ _ _ Hg _ _ Hx) as (_ & _ & _ & Hid & _). rewrite Hid in *.
  destruct (gd_engine _ _ _ _ _ _ _ Hg) as [(M & Hr & HM & Hdec) Hu Hch _ _].
  assert (M.*1 !! tree = Some d) as Ht by (by rewrite HM). apply list_lookup_fmap_Some in Ht as ([d' m] & -> & Ht).
  exists M, m. by split_and!.
Qed.

Lemma with_engine_good y R C e :
  good Ds init (sy_kernel y) (sy_tasks y) (sy_published y) R C →
  engine_repr (tget (k_statuses (sy_kernel y))) e Ds R C (history (sy_published y)) →
  good Ds init (with_engine e (sy_kernel y)) (sy_tasks y) (sy_published y) R C.
Proof. intros Hg He. by eapply (good_same Ds init (sy_kernel y)); [|..|apply Hg|]. Qed.

(** A batch hands out the next rows that are due; one that fails may skip some. *)
Lemma batch_due y x snap tree d c L fuel limit e c' r :
  kernel_inv Ds init y → Ds !! tree = Some d → is_open x y → due (sy_published y) x snap (od_id d) c L →
  0 ≤ limit < U64_MAX → cursor_batch fuel tree c limit y = (e, c', Some r) →
  kernel_inv Ds init (with_kernel (with_engine e (sy_kernel y)) y) ∧
  ∃ L', due (sy_published y) x snap (od_id d) c' L' ∧
    match r with
    | Ok out => L = out ++ L' ∧ (len out < limit → L' = [])
    | Err _ => L' `sublist_of` L
    end.
Proof.
  intros Hk Hd Ho (Hr & Hs & Hc & B & HB & HL) Hlim E. destruct Hk as [Hf|(R & C & Hg)].
  { unfold cursor_batch, txn_next_batch in E. rewrite (reader_fenced _ Hf) in E. injection E as <- <- <-.
    split; [by left|]. exists L. split; [|done]. split_and!; [done..|by exists B]. }
  destruct (batch_setting _ _ _ _ _ _ Hg Hd Ho) as (M & m & HM & HDs & Hdec & Hh & Hch & Hcur & HR).
  assert (∀ key, decodes (map_lookup m key) (C (od_id d, key))) as Hdec' by (intros key; exact (Hdec _ _ key HM)).
  pose proof (ahead_rows_range (reader_of (sy_kernel y)) snap R C (history (sy_published y)) M tree d m HM Hdec' Hch
    _ (tc_base c) Hh) as HB'.
  rewrite (is_range_unique _ _ _ _ _ HB HB' (λ _, eq_refl)) in HL.
  set (left_of := to_come snap (history (sy_published y)) d m) in *.
  assert (holds R M e ∧ reads_for (Some x) snap (tc_base c') ∧
    match r with
    | Ok out => left_of c = out ++ left_of c' ∧ (len out < limit → left_of c' = [])
    | Err _ => left_of c' `sublist_of` left_of c
    end) as (Hh' & (Hr' & Hs' & Hc') & Hm).
  { assert (reads_for (Some x) snap (tc_base c)) as Hfor by (by split_and!).
    unfold cursor_batch in E. destruct r as [out|err].
    - eapply txn_next_batch_spec in E as (? & ? & _ & ? & ?);
        [by split_and!|exact HM|exact Hdec'|exact Hch|exact Hcur|exact HR|exact Hh|exact Hfor|exact Hlim].
    - eapply txn_next_batch_failed in E as (? & ? & ?);
        [by split_and!|exact HM|exact Hdec'|exact Hch|exact Hcur|exact HR|exact Hh|exact Hfor|exact (proj2 Hlim)]. }
  split.
  { right. exists R, C. refine (with_engine_good y R C e Hg _). destruct (gd_engine _ _ _ _ _ _ _ Hg) as [_ _ H1 H2 H3].
    split; try done; [exists M; split; [apply Hh'|done]|apply Hh']. }
  exists (left_of c'). split; [|rewrite HL; exact Hm]. split_and!; [done..|]. eexists. split; [|reflexivity].
  exact (ahead_rows_range (reader_of (sy_kernel y)) snap R C _ M tree d m HM Hdec' Hch _ (tc_base c') Hh').
Qed.

(** With enough fuel a batch has an answer. *)
Lemma batch_total y x snap tree d c L limit :
  kernel_inv Ds init y → Ds !! tree = Some d → is_open x y → due (sy_published y) x snap (od_id d) c L →
  limit < U64_MAX → ∃ fuel, is_Some (cursor_batch fuel tree c limit y).2.
Proof.
  intros Hk Hd Ho (Hr & Hs & Hc & _) Hlim. destruct Hk as [Hf|(R & C & Hg)].
  { exists 0%nat. unfold cursor_batch, txn_next_batch. rewrite (reader_fenced _ Hf). by eexists. }
  destruct (batch_setting _ _ _ _ _ _ Hg Hd Ho) as (M & m & HM & _ & Hdec & Hh & Hch & Hcur & HR).
  eexists. eapply (txn_next_batch_total _ (Some x) snap R C (history (sy_published y)) M tree d m); try done.
  intros key. exact (Hdec _ _ key HM).
Qed.

(** What holds all through a session. *)
Record session_inv (x : TxnId) (snap : CommitSeq) (o : StorageObjectId) pubs L z c rows (failed : bool) : Prop := {
  si_inv : kernel_inv Ds init z;
  si_visible : snap ≤ vf_visible (k_frontier (sy_kernel z));
  si_stable : ∀ key, as_of (history (sy_published z) key) snap = as_of (history pubs key) snap;
  si_due : ∃ L', due (sy_published z) x snap o c L' ∧ rows ++ L' `sublist_of` L ∧ (failed = false → L = rows ++ L')
}.

Lemma step_visible z z' : kernel_inv Ds init z → step z z' →
  vf_visible (k_frontier (sy_kernel z)) ≤ vf_visible (k_frontier (sy_kernel z')).
Proof.
  intros [Hf|(R & C & Hg)] Hs.
  - apply (sys_step_fenced _ _ _ Hf) in Hs as (_ & _ & ->). lia.
  - destruct (step_pubs _ _ _ _ _ _ Hg Hs) as [[_ ->]|(p & R' & C' & _ & ? & _)]; lia.
Qed.

Lemma session_keeps x snap tree d L y c z c' rows failed :
  Ds !! tree = Some d → session x tree y c z c' rows failed →
  session_inv x snap (od_id d) (sy_published y) L y c [] false →
  session_inv x snap (od_id d) (sy_published y) L z c' rows failed.
Proof.
  intros Hd Hses Hy. induction Hses as [|z z' c' rows failed _ IH Hstep|z c' rows failed fuel limit e c2 out _ IH Ho Hlim E
    |z c' rows failed fuel limit e c2 err _ IH Ho Hlim E]; [done|..]; destruct IH as [Hk Hv Hst (L' & Hdue & Hsub & HL)].
  - assert (∀ key, as_of (history (sy_published z') key) snap = as_of (history (sy_published z) key) snap) as Hsame.
    { intros key. apply (stable_history Ds init); [done|by apply rtc_once|done]. }
    split; [exact (sys_step_inv _ _ _ _ Hk Hstep)|pose proof (step_visible _ _ Hk Hstep); lia|intros key; by rewrite Hsame, Hst|].
    exists L'. split; [|done]. apply (due_same (sy_published z)); [|done]. intros key. apply Hsame.
  - destruct (batch_due _ _ _ _ _ _ _ _ _ _ _ _ Hk Hd Ho Hdue Hlim E) as (Hk' & L2 & Hdue' & HL' & _).
    split; [done..|]. exists L2. split; [done|]. rewrite <-app_assoc, <-HL'. done.
  - destruct (batch_due _ _ _ _ _ _ _ _ _ _ _ _ Hk Hd Ho Hdue Hlim E) as (Hk' & L2 & Hdue' & HL').
    split; [done..|]. exists L2. split; [done|]. split; [|done]. etrans; [|exact Hsub]. by apply sublist_app.
Qed.

Lemma due_done pubs x snap o c L : due pubs x snap o c L → txn_cursor_is_done c = true → L = [].
Proof.
  intros (_ & _ & _ & B & [_ HB] & ->) [[Hb Hp]%andb_prop Hs]%andb_prop.
  apply bool_decide_eq_true in Hp, Hs. rewrite Hp, drop_ge by done. rewrite overlaid_nil.
  destruct B as [|[k v] B]; [done|]. destruct (proj1 (HB k v) (list_elem_of_here _ _)) as [[Ha _] _].
  unfold mvcc_is_done in Hb. congruence.
Qed.

(** A new cursor of the transaction has all of the range in front of it. *)
Lemma session_begins y x t tree d start stop R C :
  good Ds init (sy_kernel y) (sy_tasks y) (sy_published y) R C → sy_tasks y !! x = Some (TaskIdle t) →
  tx_phase t = Active → Ds !! tree = Some d →
  ∃ L, is_range (λ key, kle start key ∧ klt key stop) (txn_view (sy_published y) t (od_id d)) L ∧
    session_inv x (tx_snapshot t) (od_id d) (sy_published y) L y
      (range_cursor_transaction tree t start stop (k_engine (sy_kernel y))) [] false.
Proof.
  intros Hg Hx Hact Hd. destruct (gd_tasks _ _ _ _ _ _ _ Hg _ _ Hx) as (_ & Hle & _ & Hid & _).
  destruct (batch_setting y x tree d R C Hg Hd) as (M & m & HM & HDs & Hdec & Hh & Hch & Hcur & HR); [by exists t|].
  set (c := range_cursor_transaction tree t start stop (k_engine (sy_kernel y))).
  pose proof (ahead_rows_range (reader_of (sy_kernel y)) (tx_snapshot t) R C (history (sy_published y)) M tree d m HM
    (λ key, Hdec _ _ key HM) Hch _ (tc_base c) Hh) as HB.
  eexists. split; [exact (overlay_range _ _ _ _ _ _ HB)|]. split; [right; by exists R, C|exact Hle|done|].
  eexists. split; [|cbn [app]; split; [reflexivity|done]]. unfold due. subst c. cbn.
  rewrite (engine_descriptor _ _ _ _ _ _ _ _ (gd_engine _ _ _ _ _ _ _ Hg) Hd).
  split; [by rewrite Hid|]. split_and!; [done..|]. eexists. split; [exact HB|done].
Qed.

(** C6. Range reads of a transaction, whatever the other callers commit between the
    batches.  As long as no batch of the cursor has failed they are exact: the rows it
    has returned are the first rows, in key order, of the range as the transaction saw
    it when the cursor was made (its own staged writes over its snapshot), each of
    them once, and a cursor that is done, or that answers less than was asked for, has
    returned all of them.  After a failed batch rows may be missing, and only that: what
    the cursor returns is still in key order, each row once, and of that range.  A
    batch with enough fuel has an answer. *)
Theorem transaction_ranges_are_exact rs y0 y x t tree d start stop z c rows failed :
  opened Ds init rs y0 → rtc step y0 y → ¬ fenced (sy_kernel y) → sy_tasks y !! x = Some (TaskIdle t) →
  tx_phase t = Active → Ds !! tree = Some d →
  session x tree y (range_cursor_transaction tree t start stop (k_engine (sy_kernel y))) z c rows failed →
  ∃ L, keys_sorted L ∧
    (∀ key value, (key, value) ∈ L ↔
       (kle start key ∧ klt key stop) ∧ txn_view (sy_published y) t (od_id d) key = MvccFound value) ∧
    rows `sublist_of` L ∧
    (failed = false → rows `prefix_of` L ∧ (txn_cursor_is_done c = true → rows = L)) ∧
    (is_open x z → ∀ limit, 0 ≤ limit < U64_MAX →
       (∃ fuel, is_Some (cursor_batch fuel tree c limit z).2) ∧
       ∀ fuel e c' out, failed = false → cursor_batch fuel tree c limit z = (e, c', Some (Ok out)) →
         len out < limit → rows ++ out = L).
Proof.
  intros Ho Hs Hn Hx Hact Hd Hses. destruct (reachable_good _ _ _ _ _ Ho Hs Hn) as (R & C & Hg).
  destruct (session_begins _ _ _ _ _ start stop _ _ Hg Hx Hact Hd) as (L & [Hsorted Hel] & Hinv).
  apply (session_keeps _ _ _ _ _ _ _ _ _ _ _ Hd Hses) in Hinv as [Hk _ _ (L' & Hdue & Hsub & HL)].
  exists L. split_and!; [done|done|etrans; [|exact Hsub]; by apply sublist_inserts_r| |].
  - intros Hok. split; [exists L'; by apply HL|].
    intros Hdone. by rewrite (HL Hok), (due_done _ _ _ _ _ _ Hdue Hdone), app_nil_r.
  - intros Hopen limit Hlim. split; [exact (batch_total _ _ _ _ _ _ _ _ Hk Hd Hopen Hdue (proj2 Hlim))|].
    intros fuel e c' out Hok E Hshort.
    destruct (batch_due _ _ _ _ _ _ _ _ _ _ _ _ Hk Hd Hopen Hdue Hlim E) as (_ & L2 & _ & HL2 & Hend).
    by rewrite (HL Hok), HL2, (Hend Hshort), app_nil_r.
Qed.
End sessions.

(** ** The reader of [Demo.v] over a range, with a commit between two batches *)
Definition demo_private : Sys SegmentedLog Forest8 :=
  acts (length demo_objects) [ActPut 10 demo_object [u8 3] [u8 30]; ActDelete 10 demo_object [u8 2]] demo_reading.
Definition demo_range_cursor : OrderedTransactionRangeCursor :=
  range_cursor_transaction 0 (demo_txn 10 demo_private) [u8 0] [u8 9] (k_engine (sy_kernel demo_private)).
Local Abbreviation demo_first_batch := (cursor_batch 9 0 demo_range_cursor 1 demo_private).
Local Abbreviation demo_after_first := (with_kernel (with_engine demo_first_batch.1.1 (sy_kernel demo_private)) demo_private).
Definition demo_meanwhile : Sys SegmentedLog Forest8 :=
  acts (length demo_objects) demo_script_last demo_after_first.
Local Abbreviation demo_second_batch := (cursor_batch 9 0 demo_first_batch.1.2 5 demo_meanwhile).

Lemma demo_reaches_private : rtc (sys_step (length demo_objects)) demo_start demo_private.
Proof. transitivity demo_reading; [apply demo_reaches_reading|exact (acts_run _ _ demo_reading)]. Qed.

Lemma session_steps Ds `{Crc32c} {D} `{LogDevice D} {W} `{ObjectStore W} `{IntentHasher}
    x tree (y : Sys D W) c z c' rows failed z' :
  session Ds x tree y c z c' rows failed → rtc (sys_step (length Ds)) z z' → session Ds x tree y c z' c' rows failed.
Proof. intros Hs Hr. induction Hr as [|? ? ? ? _ IH]; [done|]. apply IH. by eapply session_step. Qed.

Lemma demo_open_txn (y : Sys SegmentedLog Forest8) :
  sy_tasks y !! 10 = Some (TaskIdle (demo_txn 10 y)) → tx_phase (demo_txn 10 y) = Active → is_open 10 y.
Proof. intros H1 H2. by exists (demo_txn 10 y). Qed.

Lemma batch_answer fuel tree c limit (y : Sys SegmentedLog Forest8) r :
  (cursor_batch fuel tree c limit y).2 = r →
  cursor_batch fuel tree c limit y =
    ((cursor_batch fuel tree c limit y).1.1, (cursor_batch fuel tree c limit y).1.2, r).
Proof. intros <-. apply triple_eta. Qed.

Lemma demo_session :
  session demo_objects 10 0 demo_private demo_range_cursor demo_meanwhile demo_first_batch.1.2 [([u8 1], [u8 10])] false.
Proof.
  apply (session_steps demo_objects 10 0 demo_private demo_range_cursor demo_after_first);
    [|exact (acts_run _ demo_script_last demo_after_first)].
  assert (demo_first_batch.2 = Some (Ok [([u8 1], [u8 10])])) as E by (vm_compute; reflexivity).
  refine (session_batch demo_objects 10 0 demo_private demo_range_cursor demo_private demo_range_cursor [] false 9 1
    _ _ [([u8 1], [u8 10])] _ _ _ (batch_answer _ _ _ _ _ _ E)).
  - apply session_start.
  - apply demo_open_txn; vm_compute; reflexivity.
  - unfold U64_MAX. lia.
Qed.

(** The second batch asks for more than there is: the staged row, and not the row the
    transaction deleted; the first one kept the value of the snapshot. *)
Lemma transaction_ranges_are_exact_witness :
  demo_second_batch.2 = Some (Ok [([u8 3], [u8 30])]) ∧
  length (sy_published demo_meanwhile) = 3%nat ∧
  ∃ L, [([u8 1], [u8 10])] ++ [([u8 3], [u8 30])] = L ∧
    ∀ key value, (key, value) ∈ L ↔
      (kle [u8 0] key ∧ klt key [u8 9]) ∧
      txn_view (sy_published demo_private) (demo_txn 10 demo_private) 1 key = MvccFound value.
Proof.
  assert (demo_second_batch.2 = Some (Ok [([u8 3], [u8 30])])) as E by (vm_compute; reflexivity).
  split; [exact E|]. split; [vm_compute; reflexivity|].
  destruct (transaction_ranges_are_exact demo_objects 0 [] demo_start demo_private 10 (demo_txn 10 demo_private) 0
    demo_object [u8 0] [u8 9] demo_meanwhile demo_first_batch.1.2 [([u8 1], [u8 10])] false demo_opened demo_reaches_private)
    as (L & _ & Hel & _ & _ & Hlast).
  - unfold fenced. by vm_compute.
  - vm_compute. reflexivity.
  - vm_compute. reflexivity.
  - reflexivity.
  - exact demo_session.
  - exists L. split; [|exact Hel].
    assert (is_open 10 demo_meanwhile) as Hopen by (apply demo_open_txn; vm_compute; reflexivity).
    assert (0 ≤ 5 < U64_MAX) as Hlim by (unfold U64_MAX; lia).
    refine (proj2 (Hlast Hopen 5 Hlim) 9%nat _ _ [([u8 3], [u8 30])] eq_refl (batch_answer _ _ _ _ _ _ E) _).
    unfold len. cbn. lia.
Defined.
