(* ===== verification/Progress.v ===== *)
(** * Commits make progress

    A commit whose publication is ahead of the visible frontier waits.  It waits for
    an earlier commit that is still on its way, so some caller can always move, and
    every call in progress can be driven to its end. *)
From S2P Require Import Prelude StdCollections Ids Crc Store Fs Log WriteSet Txn LogIo CommitAppend Recovery SegmentLog SegmentRecovery Shards Mvcc UndoStore Visibility WriteIntent Admission PageIo Buffer PageBuffer PageDependency PageV4 KeyOrder TreeV4 TreeRange TreeMap ObjectStore OrderedMvcc OrderedRead OrderedCommit OrderedRecovery Versions InstallSpec Interleaving Demo Settling LaneStages IsolationInv IsolationSteps ReplaySpec SnapshotIsolation.

Local Open Scope Z_scope.
Local Open Scope seer_scope.

Section progress.
Context (Ds : list StorageObjectDescriptor) (init : CommitSeq).
Context `{Hcrc : Crc32c} {D : Type} `{Hld : LogDevice D} {W : Type} `{Hos : ObjectStore W}
  `{Hlaws : !ObjectStoreLaws W} `{Hih : IntentHasher}.
Implicit Types (k : Kernel D W) (y z : Sys D W) (tasks : gmap TxnId Task) (pubs : list Publication).
Local Abbreviation step := (sys_step (length Ds)).

(** ** The commit sequences that are on their way *)

(** The lane has given out [c]. *)
Definition assigned k (c : CommitSeq) : Prop :=
  init < c ∧ match ca_next_csn (k_appender k) with Some n => c < n | None => c ≤ U64_MAX end.

Definition in_flight tasks (c : CommitSeq) : Prop :=
  ∃ x task, tasks !! x = Some task ∧ task_csn task = Some c.

Record flow k tasks pubs : Prop := {
  fl_next : ∀ n, ca_next_csn (k_appender k) = Some n → init < n ≤ U64_MAX;
  fl_assigned : ∀ c, assigned k c → c ∈ pb_csn <$> pubs ∨ in_flight tasks c;
  fl_pubs : ∀ c, c ∈ pb_csn <$> pubs → vf_visible (k_frontier k) < c → assigned k c;
  fl_flight : ∀ c, in_flight tasks c → assigned k c;
  fl_ready : ∀ c, c ∈ pb_csn <$> pubs → c ≤ vf_visible (k_frontier k) ∨ c ∈ vf_ready (k_frontier k);
  fl_gap : vf_visible (k_frontier k) + 1 ∉ vf_ready (k_frontier k)
}.

(** A fenced runtime wakes the callers that wait; an open one is in flow. *)
Definition flowing y : Prop :=
  fenced (sy_kernel y) ∧ vf_recovery_required (k_frontier (sy_kernel y)) = true ∨
  ¬ fenced (sy_kernel y) ∧ flow (sy_kernel y) (sy_tasks y) (sy_published y).

Lemma assigned_next k k' n c :
  ca_next_csn (k_appender k) = Some n → init < n ≤ U64_MAX → ca_next_csn (k_appender k') = checked_add n 1 →
  assigned k' c ↔ assigned k c ∨ c = n.
Proof.
  intros En Hn En'. unfold assigned. rewrite En, En'. unfold checked_add.
  destruct (n + 1 <=? U64_MAX) eqn:E; bool_to_prop; lia.
Qed.

Lemma assigned_same k k' c :
  ca_next_csn (k_appender k') = ca_next_csn (k_appender k) → assigned k' c ↔ assigned k c.
Proof. unfold assigned. by intros ->. Qed.

Lemma in_flight_insert tasks x task c :
  in_flight (<[x := task]> tasks) c ↔
  task_csn task = Some c ∨ ∃ x' tz, x' ≠ x ∧ tasks !! x' = Some tz ∧ task_csn tz = Some c.
Proof.
  split.
  - intros (z & tz & Hz & Hc). apply lookup_insert_Some in Hz as [[<- <-]|[? ?]]; [by left|right; eauto].
  - intros [?|(z & tz & Hne & Hz & Hc)]; [exists x, task; by rewrite lookup_insert_eq|].
    exists z, tz. by rewrite lookup_insert_ne by done.
Qed.

(** A thread moves without a commit sequence of its own changing hands. *)
Lemma in_flight_same tasks x task task' c :
  tasks !! x = Some task ∨ tasks !! x = None ∧ task_csn task = None → task_csn task' = task_csn task →
  in_flight (<[x := task']> tasks) c ↔ in_flight tasks c.
Proof.
  intros Hx Ec. rewrite in_flight_insert, Ec. split.
  - intros [Hc|(z & tz & _ & Hz & Hc)]; [|by exists z, tz].
    destruct Hx as [Hx|[_ Hx]]; [by exists x, task|congruence].
  - intros (z & tz & Hz & Hc). destruct (decide (z = x)) as [->|Hne]; [left|right; eauto].
    destruct Hx as [Hx|[Hx _]]; congruence.
Qed.

Lemma flow_same k k' tasks pubs x task task' :
  flow k tasks pubs → tasks !! x = Some task ∨ tasks !! x = None ∧ task_csn task = None →
  task_csn task' = task_csn task →
  ca_next_csn (k_appender k') = ca_next_csn (k_appender k) → k_frontier k' = k_frontier k →
  flow k' (<[x := task']> tasks) pubs.
Proof.
  intros [Hn Ha Hp Hf Hr Hg] Hx Ec En Ef. split; rewrite ?Ef; try done.
  - by rewrite En.
  - intros c Hc%(assigned_same _ _ _ En). rewrite (in_flight_same _ _ task) by done. by apply Ha.
  - intros c Hc Hv. apply (assigned_same _ _ _ En). by apply Hp.
  - intros c Hc. apply (in_flight_same _ _ task) in Hc; [|done..]. apply (assigned_same _ _ _ En). by apply Hf.
Qed.

(** ** What the stages do to them *)
Lemma append_next t k k' t' r :
  tx_phase t = Active → commit_append t k = (k', t', r) →
  match r with
  | Ok ticket => ca_next_csn (k_appender k) = Some (at_csn ticket) ∧
      ca_next_csn (k_appender k') = checked_add (at_csn ticket) 1
  | Err _ => fenced k' ∨ ca_next_csn (k_appender k') = ca_next_csn (k_appender k)
  end.
Proof.
  intros Hp. unfold commit_append, begin_validation.
  destruct (transition_cases Active Validating t) as [[-> _]|[_ ?]]; [|done].
  destruct (append_validated _ _) as [[ca t1] [tk|e]] eqn:E; apply append_cases in E; try done.
  - intros [= <- <- <-]. destruct E as (_ & _ & n & En & En' & <- & _). done.
  - destruct E as (_ & _ & [Hr|[En Hph]]); [rewrite bool_decide_true by done; intros [= <- <- <-]; by left|].
    case_bool_decide; [intros [= <- <- <-]; by left|]. unfold cleanup_clean_append_failure.
    destruct (status_abort _ _) as [st [[]|e']]; [|intros [= <- <- <-]; by left].
    case_bool_decide; [intros [= <- <- <-]; by right|].
    destruct (abort t1) as [t2 [[]|e']]; intros [= <- <- <-]; [by right|by left].
Qed.

Lemma harden_next ticket required t k k' t' r :
  commit_harden ticket required t k = (k', t', r) →
  ca_next_csn (k_appender k') = ca_next_csn (k_appender k) ∧ (is_ok r = true ∨ fenced k').
Proof.
  intros E. split.
  - apply harden_stage in E as (_ & E & _). cbn in E. unfold appender_sync_through in E.
    destruct (log_sync_through _ _) as [log rl]. by injection E as <-.
  - revert E. unfold commit_harden.
    destruct (appender_sync_through _ _) as [ca [l|e]]; [|intros [= <- <- <-]; by right]. cbv zeta.
    destruct (mark_durable _ _) as [t1 [position|e]]; [|intros [= <- <- <-]; by right].
    destruct required as [version|]; [|intros [= <- <- <-]; by left].
    destruct (engine_sync _ _) as [e' [durable|error]]; intros [= <- <- <-]; [by left|by right].
Qed.

(** A step inside [commit] fences, keeps the commit sequence of its thread and the
    next one, takes the next one, or publishes. *)
Lemma task_flow task k k' task' new :
  (∀ t a rest plans, task = TaskPreparing t a rest plans → tx_phase t = Active) →
  task_step task k = Some (k', task', new) →
  fenced k' ∨
  (new = [] ∧ task_csn task' = task_csn task ∧ ca_next_csn (k_appender k') = ca_next_csn (k_appender k)) ∨
  (new = [] ∧ task_csn task = None ∧ ∃ n, ca_next_csn (k_appender k) = Some n ∧
     ca_next_csn (k_appender k') = checked_add n 1 ∧ task_csn task' = Some n) ∨
  ∃ t a ticket position, task = TaskApplying t a ticket position [] ∧
    commit_publish (at_csn ticket) t k = (k', t, Ok tt) ∧
    task' = TaskWaiting t a ticket position ∧ new = [publication t a ticket].
Proof.
  intros Hact E. destruct (task_publishes _ _ _ _ _ E) as [[-> _]|?]; [|by auto].
  destruct task as [t|t a [|e rest] plans|t a plans ticket|t a ticket pos [|plan todo]|t a ticket pos|t a ticket pos].
  - done.
  - cbn in E. specialize (Hact _ _ _ _ eq_refl).
    destruct (commit_append t k) as [[k1 t1] [ticket|e]] eqn:Eh; injection E as <- <-; apply append_next in Eh; try done.
    + destruct Eh as [En En']. right. right. left. split; [done|]. split; [done|]. by exists (at_csn ticket).
    + destruct Eh as [Hf|En]; [left; by apply fenced_abandon|right; by left].
  - apply off_lane_step in E as Hca; [|done]. destruct Hca as [_ Hca]. cbn in E. right. left.
    destruct (prepare_one t a e plans k) as [k1 [ps|err]]; injection E as <- <-; cbn in *; by rewrite Hca.
  - cbn in E. destruct (commit_harden _ _ t k) as [[k1 t1] [pos|e]] eqn:Eh; injection E as <- <-;
      apply harden_next in Eh as [En Ho]; [right; by left|]. destruct Ho as [?|Hf]; [done|left; by apply fenced_abandon].
  - cbn in E. destruct (commit_publish _ t k) as [[k1 t1] [[]|e]] eqn:Eh; [done|]. injection E as <- <-.
    left. apply fenced_abandon. unfold commit_publish in Eh. destruct (admit_visibility _); [|by injection Eh as <- <- <-].
    destruct (publish_commit _ _ _ _) as [w [v|e']]; [done|]. by injection Eh as <- <- <-.
  - cbn [task_step] in E. rewrite apply_one_dep in E.
    destruct (apply_prepared_inner _ _ _ _ _ _) as [s [r|err]]; injection E as <- <-; [right; by left|].
    left. by apply fenced_abandon.
  - apply off_lane_step in E as Hca; [|done]. destruct Hca as [_ Hca]. cbn in E. right. left.
    destruct (commit_wait _ t k) as [[k1 t1] [[]|]]; [..|done]; injection E as <- <-; cbn in *; by rewrite Hca.
  - apply off_lane_step in E as Hca; [|done]. destruct Hca as [_ Hca]. cbn in E. right. left.
    destruct (commit_complete t k) as [[k1 t1] [[]|]]; injection E as <- <-; cbn in *; by rewrite Hca.
Qed.

(** ** The steps *)
Lemma flow_append k k' tasks pubs x task task' n :
  flow k tasks pubs → tasks !! x = Some task → task_csn task = None → task_csn task' = Some n →
  ca_next_csn (k_appender k) = Some n → ca_next_csn (k_appender k') = checked_add n 1 →
  k_frontier k' = k_frontier k → flow k' (<[x := task']> tasks) pubs.
Proof.
  intros [Hn Ha Hp Hf Hr Hg] Hx Ec Ec' En En' Ef. pose proof (Hn n En) as Hb.
  pose proof (λ c, assigned_next k k' n c En Hb En') as Has.
  split; rewrite ?Ef; try done.
  - rewrite En'. intros m [-> ?]%checked_add_Some. lia.
  - intros c [Hc%Ha| ->]%Has; [|right; apply in_flight_insert; by left].
    destruct Hc as [?|(z & tz & Hz & Hc)]; [by left|right]. apply in_flight_insert. right.
    exists z, tz. split; [|done]. intros ->. congruence.
  - intros c Hc Hv. apply Has. left. by apply Hp.
  - intros c [Hc|(z & tz & _ & Hz & Hc)]%in_flight_insert; apply Has; [right; congruence|left].
    apply Hf. by exists z, tz.
Qed.

Lemma flow_publish k k' tasks pubs R C x t a ticket position :
  good Ds init k tasks pubs R C → flow k tasks pubs → tasks !! x = Some (TaskApplying t a ticket position []) →
  commit_publish (at_csn ticket) t k = (k', t, Ok tt) →
  flow k' (<[x := TaskWaiting t a ticket position]> tasks) (publication t a ticket :: pubs).
Proof.
  intros Hg [Hn Ha Hp Hf Hr Hgap] Hx. unfold commit_publish. destruct (admit_visibility _); [|done].
  unfold publish_commit. cbn [w_statuses w_frontier].
  destruct (status_commit _ _ _) as [st [[]|e]]; [|done].
  destruct (mark_ready _ _ _) as [f [v|e]] eqn:Em; [|done]. intros [= <-].
  destruct (mark_ready_gap _ _ _ _ _ (proj1 (gd_frontier _ _ _ _ _ _ _ Hg)) Em) as [Hgap' Hall].
  apply mark_ready_Ok in Em as (Hseen & _ & Hvis & _); [|apply (gd_frontier _ _ _ _ _ _ _ Hg)].
  unfold snapshot in Hseen. split; cbn; try done.
  - intros c [Hc|(z & tz & Hz & Hc)]%Ha; [left; by right|].
    destruct (decide (z = x)) as [->|Hne]; [left|right; apply in_flight_insert; right; by exists z, tz].
    rewrite Hx in Hz. injection Hz as <-. injection Hc as <-. by left.
  - intros c [->|Hc]%elem_of_cons Hv; [|apply Hp; [done|lia]]. apply Hf. by exists x, (TaskApplying t a ticket position []).
  - intros c [?|(z & tz & _ & Hz & Hc)]%in_flight_insert; [done|]. apply Hf. by exists z, tz.
  - intros c [->|Hc]%elem_of_cons; [apply Hall; [by right|done]|].
    destruct (Hr c Hc) as [?|?]; [left; lia|]. destruct (decide (c ≤ vf_visible (k_frontier k))); [left; lia|].
    apply Hall; [by left|lia].
Qed.

Lemma flow_kernel k k' tasks pubs :
  flow k tasks pubs → ca_next_csn (k_appender k') = ca_next_csn (k_appender k) → k_frontier k' = k_frontier k →
  flow k' tasks pubs.
Proof.
  intros [Hn Ha Hp Hf Hr Hg] En Ef. split; rewrite ?Ef, ?En; try done; intros c; rewrite (assigned_same _ _ _ En); auto.
Qed.

Lemma flow_step y z R C :
  good Ds init (sy_kernel y) (sy_tasks y) (sy_published y) R C → flow (sy_kernel y) (sy_tasks y) (sy_published y) →
  step y z → ¬ fenced (sy_kernel z) → k_frontier (sy_kernel z) = k_frontier (sy_kernel y) ∨
    sy_published z ≠ sy_published y →
  flow (sy_kernel z) (sy_tasks z) (sy_published z).
Proof.
  intros Hg Hfl Hs Hnf Hkeep.
  destruct Hs as [x k t H64 E|x k e E|x t o key value Hx|x t o key Hx|x t trees k a Hx Htr E
    |x t trees k e Hx Htr E|x task k task' new Hx E|x t k t' r Hx E|tree key reader snap e r Hd E
    |fuel tree c limit e c' r Hd Hc Hl E]; cbn -[app] in *.
  - destruct Hkeep as [Ef|?]; [|done].
    eapply (flow_same _ _ _ _ x (TaskIdle t)); [exact Hfl| |done|by rewrite (begin_appender _ _ _ _ E)|done].
    right. split; [|done]. by eapply begin_new.
  - destruct Hkeep as [Ef|?]; [|done]. eapply flow_kernel; [exact Hfl|by rewrite (begin_appender _ _ _ _ E)|done].
  - by eapply (flow_same _ _ _ _ x (TaskIdle t)); [exact Hfl|left|..].
  - by eapply (flow_same _ _ _ _ x (TaskIdle t)); [exact Hfl|left|..].
  - destruct Hkeep as [Ef|?]; [|done].
    eapply (flow_same _ _ _ _ x (TaskIdle t)); [exact Hfl|by left|done|by rewrite (enter_appender _ _ _ _ _ E)|done].
  - destruct Hkeep as [Ef|?]; [|done]. eapply flow_kernel; [exact Hfl|by rewrite (enter_appender _ _ _ _ _ E)|done].
  - apply task_flow in E as [?|[(-> & Ec & En)|[(-> & Ec & n & En & En' & Ec')|(t & a & ticket & position & -> & Hp & -> & ->)]]].
    + done.
    + destruct Hkeep as [Ef|?]; [|done]. by eapply flow_same; [exact Hfl|left|..].
    + destruct Hkeep as [Ef|?]; [|done]. by eapply flow_append.
    + by eapply flow_publish.
    + intros t a rest plans ->. destruct (gd_tasks _ _ _ _ _ _ _ Hg _ _ Hx) as (_ & _ & _ & _ & Hp & _). done.
  - apply abort_stage in E as [_ Eca]. destruct Hkeep as [Ef|?]; [|done].
    by eapply (flow_same _ _ _ _ x (TaskIdle t)); [exact Hfl|left| |rewrite Eca|].
  - by eapply flow_kernel.
  - by eapply flow_kernel.
Qed.

Lemma flowing_step y z : kernel_inv Ds init y → flowing y → step y z → flowing z.
Proof.
  intros Hk [[Hf Hr]|[Hn Hfl]] Hs.
  - left. split; [by eapply sys_step_fenced|].
    apply step_publishes in Hs as [[_ [[-> _]|(_ & _ & ?)]]|(x & t & a & ticket & position & _ & Hp & _)]; [done..|].
    unfold commit_publish in Hp. pose proof (admit_fenced _ Hf). by destruct (admit_visibility _).
  - destruct Hk as [?|(R & C & Hg)]; [done|].
    destruct (step_publishes _ _ _ Hs) as [[Hp [[Ef Ea]|(Hf & _ & Hr)]]|(x & t & a & ticket & position & Hx & Hp & Hz)].
    + assert (¬ fenced (sy_kernel z)) as Hnz by (unfold fenced in *; congruence).
      right. split; [done|]. eapply flow_step; eauto.
    + by left.
    + right. split; [|rewrite Hz; by eapply flow_publish].
      unfold commit_publish in Hp. destruct (admit_visibility _); [|done].
      destruct (publish_commit _ _ _ _) as [w [v|e]]; [|done]. by injection Hp as <-.
Qed.

Lemma flowing_steps y z : kernel_inv Ds init y → flowing y → rtc step y z → flowing z.
Proof. intros Hk Hf Hs. induction Hs; [done|]. eauto using flowing_step, sys_step_inv. Qed.

Lemma opened_flowing rs y : opened Ds init rs y → ¬ fenced (sy_kernel y) → flowing y.
Proof.
  intros Ho Hn. right. split; [done|]. pose proof (opened_inv _ _ _ _ Ho) as [?|(R & C & Hg)]; [done|].
  destruct (opened_frontier _ _ _ _ Ho) as (Hr & Hv & Hcs & En). rewrite (op_tasks _ _ _ _ Ho).
  assert (∀ c, in_flight ∅ c → False) as Hnone by (intros c (x & task & Hx & _); by rewrite lookup_empty in Hx).
  split; rewrite ?Hr.
  - rewrite En. intros n [-> ?]%checked_add_Some. lia.
  - intros c [Hc Hlt]. left. apply Hcs. split; [done|]. rewrite En in Hlt. unfold checked_add in Hlt.
    destruct (_ <=? _) eqn:E in Hlt; bool_to_prop; lia.
  - intros c Hc%Hcs. lia.
  - by intros c ?%Hnone.
  - intros c Hc%Hcs. left. lia.
  - apply not_elem_of_nil.
Qed.

(** ** Waiting *)
Lemma stuck_task task k :
  task_step task k = None →
  (∃ t, task = TaskIdle t) ∨
  ∃ t a ticket position, task = TaskWaiting t a ticket position ∧
    vf_recovery_required (k_frontier k) = false ∧ vf_visible (k_frontier k) < at_csn ticket.
Proof.
  intros E.
  destruct task as [t|t a [|e rest] plans|t a plans ticket|t a ticket pos [|plan todo]|t a ticket pos|t a ticket pos];
    cbn [task_step] in E; [left; eauto|..].
  - by destruct (commit_append t k) as [[k1 t1] []].
  - by destruct (prepare_one t a e plans k) as [k1 []].
  - by destruct (commit_harden _ _ t k) as [[k1 t1] []].
  - by destruct (commit_publish _ t k) as [[k1 t1] []].
  - by destruct (apply_one _ a plan t k) as [[k1 t1] []].
  - right. exists t, a, ticket, pos. split; [done|]. revert E. unfold commit_wait, wait_visible. cbn.
    destruct (vf_poisoned _); [done|]. unfold wait_round. cbn. destruct (vf_recovery_required _); [done|].
    unfold snapshot. destruct (_ <=? _) eqn:E; [done|]. bool_to_prop. done.
  - by destruct (commit_complete t k) as [[k1 t1] []].
Qed.

(** A caller that cannot move waits for one that can. *)
Lemma stuck_waits y x task :
  kernel_inv Ds init y → flowing y → sy_tasks y !! x = Some task → task_step task (sy_kernel y) = None →
  (∃ t, task = TaskIdle t) ∨
  ∃ t a ticket position, task = TaskWaiting t a ticket position ∧
  ∃ x' task' c, sy_tasks y !! x' = Some task' ∧ task_csn task' = Some c ∧ c < at_csn ticket ∧
    is_Some (task_step task' (sy_kernel y)).
Proof.
  intros Hk Hfl Hx [?|(t & a & ticket & position & -> & Hr & Hlt)]%stuck_task; [by left|right].
  exists t, a, ticket, position. split; [done|].
  destruct Hfl as [[_ ?]|[Hn [_ Ha Hp _ Hrd Hgap]]]; [congruence|]. destruct Hk as [?|(R & C & Hg)]; [done|].
  destruct (gd_tasks _ _ _ _ _ _ _ Hg _ _ Hx) as (_ & _ & _ & _ & _ & _ & _ & Hin). cbn in Hin.
  pose proof (proj1 (proj2 (proj2 (gd_frontier _ _ _ _ _ _ _ Hg)))) as Hinit. set (v := vf_visible _) in *.
  assert (v + 1 ∉ pb_csn <$> sy_published y) as Hnp by (intros [?|?]%Hrd; [lia|done]).
  assert (at_csn ticket ≠ v + 1) as Hne by congruence.
  destruct (Ha (v + 1)) as [?|(x' & task' & Hx' & Hc')]; [|done|].
  { destruct (Hp _ Hin Hlt) as [_ Hb]. split; [lia|]. destruct (ca_next_csn _); lia. }
  exists x', task', (v + 1). split_and!; [done..|lia|].
  destruct (task_step task' (sy_kernel y)) eqn:E; [by eexists|].
  apply stuck_task in E as [[t' ->]|(t' & a' & tk & p & -> & _)]; done.
Qed.

(** C15. A commit waits only for an earlier one: in every reachable state, a call that
    cannot move is waiting for its publication to become visible, and a call with
    a smaller commit sequence, appended and not published yet, can move.  No set of
    callers blocks itself. *)
Theorem commits_wait_only_for_earlier_ones rs y0 y x task :
  opened Ds init rs y0 → ¬ fenced (sy_kernel y0) → rtc step y0 y →
  sy_tasks y !! x = Some task → (∀ t, task ≠ TaskIdle t) → task_step task (sy_kernel y) = None →
  ∃ t a ticket position x' task' c, task = TaskWaiting t a ticket position ∧
    sy_tasks y !! x' = Some task' ∧ task_csn task' = Some c ∧ c < at_csn ticket ∧
    is_Some (task_step task' (sy_kernel y)).
Proof.
  intros Ho Hn Hs Hx Hni E. pose proof (opened_inv _ _ _ _ Ho) as Hk.
  destruct (stuck_waits y x task) as [[t ->]|(t & a & ticket & position & -> & x' & task' & c & Hw)]; try done.
  - by eapply runtime_inv.
  - by eapply flowing_steps; [|eapply opened_flowing|].
  - exfalso. by eapply Hni.
  - by exists t, a, ticket, position, x', task', c.
Qed.

(** ** Every call can be driven to its end *)
Definition task_size (task : Task) : nat :=
  match task with
  | TaskIdle _ => 0
  | TaskPreparing _ _ rest plans => 2 * length rest + length plans.1 + 5
  | TaskAppended _ _ plans _ => length plans.1 + 4
  | TaskApplying _ _ _ _ todo => length todo + 3
  | TaskWaiting _ _ _ _ => 2
  | TaskCompleting _ _ _ _ => 1
  end.

Lemma task_step_size task k k' task' new :
  task_step task k = Some (k', task', new) → (task_size task' < task_size task)%nat.
Proof.
  intros E.
  destruct task as [t|t a [|e rest] plans|t a plans ticket|t a ticket pos [|plan todo]|t a ticket pos|t a ticket pos];
    cbn [task_step] in E; [done|..].
  - destruct (commit_append t k) as [[k1 t1] [ticket|e]]; injection E as <- <- <-; cbn; lia.
  - unfold prepare_one in E. destruct (_ !! _) as [tree|]; [|injection E as <- <- <-; cbn; lia].
    destruct (prepare _ _ _ _ _ _) as [s [[p|u]|err]]; injection E as <- <- <-; cbn; rewrite ?length_app; cbn; lia.
  - destruct (commit_harden _ _ t k) as [[k1 t1] [pos|e]]; injection E as <- <- <-; cbn; lia.
  - destruct (commit_publish _ t k) as [[k1 t1] [[]|e]]; injection E as <- <- <-; cbn; lia.
  - destruct (apply_one _ a plan t k) as [[k1 t1] [[]|e]]; injection E as <- <- <-; cbn; lia.
  - destruct (commit_wait _ t k) as [[k1 t1] [[[]|e]|]]; [..|done]; injection E as <- <- <-; cbn; lia.
  - destruct (commit_complete t k) as [[k1 t1] [[]|e]]; injection E as <- <- <-; cbn; lia.
Qed.

Definition work tasks : nat := map_fold (λ _ task n, task_size task + n)%nat 0%nat tasks.

Lemma work_insert tasks x task task' :
  tasks !! x = Some task → (task_size task' < task_size task)%nat → (work (<[x := task']> tasks) < work tasks)%nat.
Proof.
  intros Hx Hlt. unfold work.
  rewrite (map_fold_delete_L (λ _ t n, task_size t + n)%nat 0%nat x task tasks) by (done || (intros; lia)).
  rewrite (map_fold_delete_L (λ _ t n, task_size t + n)%nat 0%nat x task' (<[x := task']> tasks))
    by (rewrite ?lookup_insert_eq; done || (intros; lia)).
  rewrite delete_insert_eq. lia.
Qed.

Definition is_idle (task : Task) : bool := match task with TaskIdle _ => true | _ => false end.

Definition all_idle tasks : Prop := map_Forall (λ _ task, is_idle task = true) tasks.

Lemma busy_moves y :
  kernel_inv Ds init y → flowing y → ¬ all_idle (sy_tasks y) →
  ∃ x task, sy_tasks y !! x = Some task ∧ is_Some (task_step task (sy_kernel y)).
Proof.
  intros Hk Hfl Hbusy. unfold all_idle in Hbusy. rewrite map_not_Forall in Hbusy by apply _. destruct Hbusy as (x & task & Hx & Hni).
  destruct (task_step task (sy_kernel y)) as [r|] eqn:E; [exists x, task; split; [done|by rewrite E]|].
  destruct (stuck_waits y x task Hk Hfl Hx E) as [[t ->]|(t & a & tk & p & _ & x' & task' & c & Hx' & _ & _ & Hm)]; [done|].
  by exists x', task'.
Qed.

(** C14. Every call can be driven to its end: from every reachable state the calls in
    progress have a schedule of their own steps, with no new call, after which all
    of them have returned. *)
Theorem commits_can_always_finish rs y0 y :
  opened Ds init rs y0 → ¬ fenced (sy_kernel y0) → rtc step y0 y →
  ∃ z, rtc (λ a b, ∃ x, thread_step x a b) y z ∧ all_idle (sy_tasks z).
Proof.
  intros Ho Hn Hs.
  assert (kernel_inv Ds init y) as Hk by (by eapply runtime_inv).
  assert (flowing y) as Hfl by (by eapply flowing_steps; [eapply opened_inv|eapply opened_flowing|]).
  clear Ho Hn Hs. remember (work (sy_tasks y)) as n eqn:En. revert y En Hk Hfl.
  induction (lt_wf n) as [n _ IH]. intros y -> Hk Hfl.
  destruct (decide (all_idle (sy_tasks y))) as [Hi|Hb]; [by exists y|].
  destruct (busy_moves y Hk Hfl Hb) as (x & task & Hx & [[[k' task'] new] E]).
  set (u := run_task x k' task' new y).
  assert (step y u) as Hstep by (by eapply sys_task).
  destruct (IH (work (sy_tasks u))) with (y := u) as (z & Hz & Hi); [|done|by eapply sys_step_inv|by eapply flowing_step|].
  - cbn. eapply work_insert; [done|]. by eapply task_step_size.
  - exists z. split; [|done]. eapply rtc_l; [|exact Hz]. exists x, task, k', task', new. done.
Qed.
End progress.

(** ** The runtime of [Demo.v]: the second commit waits for the first *)
Lemma demo_start_open : ¬ fenced (sy_kernel demo_start).
Proof. unfold fenced. by vm_compute. Qed.

Definition demo_task (x : TxnId) : Task :=
  match sy_tasks demo_waiting !! x with Some task => task | None => TaskIdle (Transaction_new 0 0) end.

Lemma commits_wait_only_for_earlier_ones_witness :
  task_step (demo_task 8) (sy_kernel demo_waiting) = None ∧
  ∃ t a ticket position x' task' c, demo_task 8 = TaskWaiting t a ticket position ∧
    sy_tasks demo_waiting !! x' = Some task' ∧ task_csn task' = Some c ∧ c < at_csn ticket ∧
    is_Some (task_step task' (sy_kernel demo_waiting)).
Proof.
  assert (task_step (demo_task 8) (sy_kernel demo_waiting) = None) as E by (vm_compute; reflexivity).
  split; [exact E|].
  apply (commits_wait_only_for_earlier_ones demo_objects 0 [] demo_start demo_waiting 8 (demo_task 8) demo_opened
    demo_start_open demo_reaches_waiting); [vm_compute; reflexivity| |exact E].
  intros t Ht. vm_compute in Ht. discriminate Ht.
Defined.

Lemma commits_can_always_finish_witness :
  is_idle (demo_task 7) = false ∧ is_idle (demo_task 8) = false ∧
  ∃ z, rtc (λ a b, ∃ x, thread_step x a b) demo_waiting z ∧ all_idle (sy_tasks z).
Proof.
  split; [vm_compute; reflexivity|]. split; [vm_compute; reflexivity|].
  exact (commits_can_always_finish demo_objects 0 [] demo_start demo_waiting demo_opened demo_start_open demo_reaches_waiting).
Defined.
