(* ===== verification/Durability.v ===== *)
(** * Durability of the runtime

    The publications of the concurrent callers against the log: every published
    commit is in the history of the append lane and behind its durable LSN, so a
    crash of the segmented log keeps it, and a replay of what the log returns
    rebuilds every snapshot that had been visible. *)
From S2P Require Import Prelude StdCollections Ids Crc Store Fs Log WriteSet Txn LogIo CommitAppend Recovery SegmentLog SegmentRecovery Shards Mvcc UndoStore Visibility WriteIntent Admission PageIo Buffer PageBuffer PageDependency PageV4 KeyOrder TreeV4 TreeRange TreeMap ObjectStore OrderedMvcc OrderedRead OrderedCommit OrderedRecovery Versions InstallSpec Interleaving Demo Settling LaneStages IsolationInv IsolationSteps ReplaySpec SnapshotIsolation.

Local Open Scope Z_scope.
Local Open Scope seer_scope.

Section logged.
Context (Ds : list StorageObjectDescriptor) (init : CommitSeq).
Context `{Hcrc : Crc32c} {D : Type} `{Hld : LogDevice D} {W : Type} `{Hos : ObjectStore W}
  `{Hlaws : !ObjectStoreLaws W} `{Hih : IntentHasher}.
Implicit Types (k : Kernel D W) (ca : CommitAppender D) (y z : Sys D W) (tasks : gmap TxnId Task)
  (pubs : list Publication) (h : list Appended).
Local Abbreviation step := (sys_step (length Ds)).
Local Abbreviation durable ca := (dl_durable_lsn (ca_log ca)).

(** ** The invariant *)

(** The decision of [x] is in the log, for the effects [es]. *)
Definition in_log h (x : TxnId) (ticket : AppendTicket) (es : list FinalEffect) : Prop :=
  ∃ a, a ∈ h ∧ ap_ticket a = ticket ∧ at_txn_id ticket = x ∧
    normalize_final_effects x (ap_mutations a) = Ok es.

Definition typed_txn (t : Transaction) : Prop :=
  is_u64 (tx_id t) ∧ Forall (λ m, is_u64 (lm_object m)) (tx_mutations t).

Definition task_logged h (L : Z) (x : TxnId) (task : Task) : Prop :=
  tx_id (task_txn task) = x ∧ typed_txn (task_txn task) ∧
  (tx_phase (task_txn task) = Active → x ∉ appended_id <$> h) ∧
  match task with
  | TaskIdle _ => True
  | TaskPreparing t a _ _ => tx_phase t = Active ∧ final_effects t = Ok (a_effects a)
  | TaskAppended t a _ ticket => in_log h x ticket (a_effects a)
  | TaskApplying t a ticket _ _ | TaskWaiting t a ticket _ | TaskCompleting t a ticket _ =>
      in_log h x ticket (a_effects a) ∧ at_decision_lsn ticket ≤ L
  end.

Definition pub_logged h (L : Z) (p : Publication) : Prop :=
  ∃ ticket, in_log h (pb_txn p) ticket (pb_effects p) ∧ at_csn ticket = pb_csn p ∧ at_decision_lsn ticket ≤ L.

Record logged ca0 (old : list Publication) ca tasks pubs ops h : Prop := {
  lg_run : lane_run ops ca0 = (ca, h);
  lg_typed : Forall typed_op ops;
  lg_ids : NoDup (appended_id <$> h);
  lg_known : ∀ a, a ∈ h → is_Some (tasks !! appended_id a);
  lg_tasks : ∀ x task, tasks !! x = Some task → task_logged h (durable ca) x task;
  lg_pubs : ∀ p, p ∈ pubs → p ∈ old ∨ pub_logged h (durable ca) p
}.

(** At most one call of the lane, which appended [h1]. *)
Definition lane_to ca ca' (h1 : list Appended) : Prop :=
  ca' = ca ∧ h1 = [] ∨ ∃ op, typed_op op ∧ lane_exec op ca = (ca', h1).

Lemma lane_run_snoc ops op ca0 ca h ca' h1 :
  lane_run ops ca0 = (ca, h) → lane_exec op ca = (ca', h1) → lane_run (ops ++ [op]) ca0 = (ca', h ++ h1).
Proof.
  revert ca0 h. induction ops as [|o ops IH]; intros ca0 h; cbn [lane_run app].
  - intros [= <- <-] ->. by rewrite app_nil_r.
  - destruct (lane_exec o ca0) as [ca1 ho], (lane_run ops ca1) as [ca2 h2] eqn:E.
    intros [= <- <-] Hx. by rewrite (IH _ _ E Hx), app_assoc.
Qed.

Lemma in_log_mono h h1 x ticket es : in_log h x ticket es → in_log (h ++ h1) x ticket es.
Proof. intros (a & Ha & ?). exists a. rewrite elem_of_app. auto. Qed.

Lemma pub_logged_mono h h1 L L' p : pub_logged h L p → L ≤ L' → pub_logged (h ++ h1) L' p.
Proof. intros (ticket & Hl & Hc & Hle) HL. exists ticket. split; [by apply in_log_mono|]. split; [done|lia]. Qed.

Lemma task_logged_mono h h1 L L' x task :
  task_logged h L x task → L ≤ L' → x ∉ appended_id <$> h1 → task_logged (h ++ h1) L' x task.
Proof.
  intros (Hi & Ht & Hp & Hm) HL Hx. split; [done|]. split; [done|]. split.
  { rewrite fmap_app, elem_of_app. intros ? [?|?]; [by apply Hp|done]. }
  destruct task; cbn in *; [done|done|by apply in_log_mono|..];
    (destruct Hm; split; [by apply in_log_mono|lia]).
Qed.

(** One thread moves, with at most one call of the lane. *)
Lemma logged_move ca0 old ca tasks pubs ops h ca' h1 x task' new :
  logged ca0 old ca tasks pubs ops h → lane_to ca ca' h1 →
  h1 = [] ∨ (∃ a, h1 = [a] ∧ appended_id a = x ∧ x ∉ appended_id <$> h) →
  task_logged (h ++ h1) (durable ca') x task' → Forall (pub_logged (h ++ h1) (durable ca')) new →
  ∃ ops', logged ca0 old ca' (<[x := task']> tasks) (new ++ pubs) ops' (h ++ h1).
Proof.
  intros [Hrun Hty Hnd Hkn Hts Hps] Hto Hh1 Ht Hn.
  assert (durable ca ≤ durable ca') as HL.
  { destruct Hto as [[-> _]|(op & _ & E)]; [lia|]. by eapply lane_durable. }
  assert (∃ ops', lane_run ops' ca0 = (ca', h ++ h1) ∧ Forall typed_op ops') as (ops' & Hrun' & Hty').
  { destruct Hto as [[-> ->]|(op & Hop & E)]; [exists ops; by rewrite app_nil_r|].
    exists (ops ++ [op]). split; [by eapply lane_run_snoc|]. by apply Forall_app_2; [|constructor]. }
  exists ops'. split; [done|done| | | |].
  - destruct Hh1 as [->|(a & -> & <- & Hx)]; [by rewrite app_nil_r|]. rewrite fmap_app, NoDup_app.
    split; [done|]. split; [|apply NoDup_singleton]. intros z Hz ->%list_elem_of_singleton. done.
  - intros a Ha. apply lookup_insert_is_Some'. apply elem_of_app in Ha as [Ha|Ha]; [right; by apply Hkn|].
    destruct Hh1 as [->|(b & -> & Hb & _)]; [by apply elem_of_nil in Ha|]. apply list_elem_of_singleton in Ha as ->. by left.
  - intros z tz. destruct (decide (x = z)) as [<-|Hne]; [rewrite lookup_insert_eq; by intros [= <-]|].
    rewrite lookup_insert_ne by done. intros Hz. apply (task_logged_mono _ _ (durable ca)); [by apply Hts|done|].
    destruct Hh1 as [->|(a & -> & Ha & _)]; cbn; [apply not_elem_of_nil|]. rewrite list_elem_of_singleton. congruence.
  - intros p [Hp|Hp]%elem_of_app; [right; rewrite Forall_forall in Hn; by apply Hn|].
    destruct (Hps p Hp) as [?|?]; [by left|right]. by eapply pub_logged_mono.
Qed.

(** Nothing moves but the engine. *)
Lemma logged_idle ca0 old ca tasks pubs ops h ca' x task new :
  logged ca0 old ca tasks pubs ops h → ca' = ca → task_logged h (durable ca) x task →
  Forall (pub_logged h (durable ca)) new →
  ∃ ops' h', logged ca0 old ca' (<[x := task]> tasks) (new ++ pubs) ops' h'.
Proof.
  intros Hl -> Ht Hn. destruct (logged_move _ _ _ _ _ _ _ ca [] x task new Hl) as [ops' ?]; rewrite ?app_nil_r; eauto.
  by left.
Qed.

(** ** Its steps *)
Lemma task_logged_idle h L x task t :
  task_logged h L x task → keeps (task_txn task) t → task_logged h L x (TaskIdle t).
Proof.
  intros (Hi & [H64 Hm] & Hp & _) (Ei & Em & Ep). split; [cbn; congruence|]. split; [|split; [|done]].
  - split; cbn; [by rewrite Ei|by rewrite Em].
  - cbn. auto.
Qed.

Lemma append_logged ca0 old k tasks pubs ops h x t a plans k' task' new :
  logged ca0 old (k_appender k) tasks pubs ops h → tasks !! x = Some (TaskPreparing t a [] plans) →
  task_step (TaskPreparing t a [] plans) k = Some (k', task', new) →
  ∃ ops' h', logged ca0 old (k_appender k') (<[x := task']> tasks) (new ++ pubs) ops' h'.
Proof.
  intros Hl Hx E. pose proof (lg_tasks _ _ _ _ _ _ _ Hl _ _ Hx) as Ht.
  pose proof Ht as (Hi & [H64 Hm] & Hp & Hact & Hfx). cbn in Hi. specialize (Hp Hact). cbn [task_step] in E.
  destruct (commit_append t k) as [[k1 t1] r] eqn:Eh.
  apply append_stage in Eh as [Hk (t2 & Hi2 & Hm2 & Hlane & Hr)]; [|done].
  assert (typed_op (LaneAppend t2)) as Hty by (cbn; by rewrite Hi2, Hm2).
  destruct r as [ticket|e]; injection E as <- <- <-.
  - destruct (Hr _ eq_refl) as [Hid Hph].
    destruct (logged_move _ _ _ _ _ _ _ (k_appender k1) [{| ap_ticket := ticket; ap_mutations := tx_mutations t |}] x
      (TaskAppended t1 a plans ticket) [] Hl) as [ops' ?]; [right; eauto| | |constructor|eauto].
    + right. eexists. split; [done|]. unfold appended_id at 1. cbn. by rewrite Hid.
    + destruct Hk as (Ei & Em & _). split; [cbn; congruence|]. split; [split; cbn; by rewrite ?Ei, ?Em|].
      split; [done|]. eexists. rewrite elem_of_app, list_elem_of_singleton. split; [by right|]. cbn.
      split; [done|]. split; [congruence|]. by rewrite <-Hi.
  - destruct (logged_move _ _ _ _ _ _ _ (k_appender k1) [] x (TaskIdle t1) [] Hl) as [ops' ?];
      [right; eauto|by left| |constructor|eauto].
    apply (task_logged_mono _ _ (durable (k_appender k))); [by eapply task_logged_idle|by eapply lane_durable|].
    apply not_elem_of_nil.
Qed.

Lemma harden_logged ca0 old k tasks pubs ops h x t a plans ticket k' task' new :
  logged ca0 old (k_appender k) tasks pubs ops h → tasks !! x = Some (TaskAppended t a plans ticket) →
  task_step (TaskAppended t a plans ticket) k = Some (k', task', new) →
  ∃ ops' h', logged ca0 old (k_appender k') (<[x := task']> tasks) (new ++ pubs) ops' h'.
Proof.
  intros Hl Hx E. pose proof (lg_tasks _ _ _ _ _ _ _ Hl _ _ Hx) as Ht. cbn [task_step] in E.
  destruct (commit_harden ticket plans.2 t k) as [[k1 t1] r] eqn:Eh.
  apply harden_stage in Eh as (Hk & Hlane & Hr).
  assert (lane_to (k_appender k) (k_appender k1) []) as Hto by (right; eexists; split; [|exact Hlane]; done).
  pose proof (task_logged_idle _ _ _ _ _ Ht Hk) as Hidle.
  apply (task_logged_mono _ [] _ (durable (k_appender k1))) in Hidle;
    [|by eapply lane_durable|apply not_elem_of_nil].
  destruct r as [position|e]; injection E as <- <- <-.
  - destruct (logged_move _ _ _ _ _ _ _ (k_appender k1) [] x (TaskApplying t1 a ticket position plans.1) [] Hl Hto)
      as [ops' ?]; [by left| |constructor|eauto].
    destruct Hidle as (Hi & Hty & Hp & _). split; [done|]. split; [done|]. split; [done|].
    destruct Ht as (_ & _ & _ & Hin). split; [by apply in_log_mono|by eapply Hr].
  - destruct (logged_move _ _ _ _ _ _ _ (k_appender k1) [] x (TaskIdle t1) [] Hl Hto) as [ops' ?];
      [by left|done|constructor|eauto].
Qed.

Lemma off_lane_logged h L x task k k' task' new :
  off_lane task → task_logged h L x task → task_step task k = Some (k', task', new) →
  task_logged h L x task' ∧ Forall (pub_logged h L) new.
Proof.
  intros Ho Ht E. destruct (off_lane_step _ _ _ _ _ Ho E) as [Hk _].
  pose proof (task_logged_idle _ _ _ _ _ Ht Hk) as (Hi & Hty & Hp & _).
  assert (∀ P : Prop, P → tx_id (task_txn task') = x ∧ typed_txn (task_txn task') ∧
    (tx_phase (task_txn task') = Active → x ∉ appended_id <$> h) ∧ P) as Hmk by auto.
  destruct Ht as (Hi0 & _ & _ & Ht). unfold task_logged.
  destruct task as [t|t a [|e rest] plans|t a plans ticket|t a ticket pos [|plan todo]|t a ticket pos|t a ticket pos];
    cbn [task_step] in E; try done.
  - destruct (prepare_one t a e plans k) as [k1 [ps|err]]; injection E as <- <- <-; (split; [by apply Hmk|constructor]).
  - destruct (commit_publish _ t k) as [[k1 t1] [[]|err]] eqn:Ep; injection E as <- <- <-; (split; [by apply Hmk|]); [|constructor].
    constructor; [|constructor]. destruct Ht as [Hin Hle]. exists ticket. apply publish_txn in Ep as ->.
    cbn in Hi0. cbn. by rewrite Hi0.
  - destruct (apply_one _ a plan t k) as [[k1 t1] [[]|err]]; injection E as <- <- <-; (split; [by apply Hmk|constructor]).
  - destruct (commit_wait _ t k) as [[k1 t1] [[[]|err]|]]; [..|done]; injection E as <- <- <-;
      (split; [by apply Hmk|constructor]).
  - destruct (commit_complete t k) as [[k1 t1] [[]|err]]; injection E as <- <- <-; (split; [by apply Hmk|constructor]).
Qed.

Lemma task_step_logged ca0 old k tasks pubs ops h x task k' task' new :
  logged ca0 old (k_appender k) tasks pubs ops h → tasks !! x = Some task →
  task_step task k = Some (k', task', new) →
  ∃ ops' h', logged ca0 old (k_appender k') (<[x := task']> tasks) (new ++ pubs) ops' h'.
Proof.
  intros Hl Hx E.
  assert (off_lane task → ∃ ops' h', logged ca0 old (k_appender k') (<[x := task']> tasks) (new ++ pubs) ops' h') as Hoff.
  { intros Ho. destruct (off_lane_logged _ _ _ _ _ _ _ _ Ho (lg_tasks _ _ _ _ _ _ _ Hl _ _ Hx) E) as [Ht Hn].
    destruct (off_lane_step _ _ _ _ _ Ho E) as [_ Hca]. by eapply logged_idle. }
  destruct task as [t|t a [|e rest] plans|t a plans ticket|t a ticket pos todo|t a ticket pos|t a ticket pos];
    try (by apply Hoff).
  - by eapply append_logged.
  - by eapply harden_logged.
Qed.

(** A begun transaction is new to the log. *)
Lemma begin_logged ca0 old y ops h x k t :
  kernel_inv Ds init y → logged ca0 old (k_appender (sy_kernel y)) (sy_tasks y) (sy_published y) ops h →
  is_u64 x → begin_write x (sy_kernel y) = (k, Ok t) →
  task_logged h (durable (k_appender (sy_kernel y))) x (TaskIdle t).
Proof.
  intros Hk Hl H64 E. pose proof E as Eb. unfold begin_write in E.
  destruct (ensure_open (sy_kernel y)) as [[]|e] eqn:Eo; [|done].
  destruct Hk as [Hf%ensure_open_fenced|(R & C & Hg)]; [congruence|].
  apply (begin_new _ _ _ _ _ _ _ _ _ _ Hg) in Eb.
  destruct (status_begin (k_statuses (sy_kernel y)) x) as [st [[]|e]]; [|done]. injection E as <- <-.
  split; [done|]. split; [split; [done|constructor]|]. split; [|done]. intros _ (a & -> & Ha)%list_elem_of_fmap.
  destruct (lg_known _ _ _ _ _ _ _ Hl a Ha) as [task Htask]. congruence.
Qed.

Lemma staged_logged h L x t t' :
  task_logged h L x (TaskIdle t) → tx_id t' = tx_id t → tx_phase t' = tx_phase t →
  Forall (λ m, is_u64 (lm_object m)) (tx_mutations t') → task_logged h L x (TaskIdle t').
Proof.
  intros (Hi & [H64 Hm] & Hp & _) Ei Ep Hm'. cbn in *. split; [cbn; congruence|].
  split; [split; cbn; [by rewrite Ei|done]|]. split; [|done]. cbn. by rewrite Ep.
Qed.

Lemma step_logged ca0 old y z ops h :
  kernel_inv Ds init y → step y z →
  logged ca0 old (k_appender (sy_kernel y)) (sy_tasks y) (sy_published y) ops h →
  ∃ ops' h', logged ca0 old (k_appender (sy_kernel z)) (sy_tasks z) (sy_published z) ops' h'.
Proof.
  intros Hk Hs Hl. pose proof (lg_tasks _ _ _ _ _ _ _ Hl) as Hts.
  destruct Hs as [x k t H64 E|x k e E|x t o key value Hx Ho|x t o key Hx Ho|x t trees k a Hx Htr E
    |x t trees k e Hx Htr E|x task k task' new Hx E|x t k t' r Hx E|tree key reader snap e r Hd E
    |fuel tree c limit e c' r Hd Hc Hl' E]; cbn -[app]; try (by exists ops, h).
  - eapply (logged_idle _ _ _ _ _ _ _ _ x _ [] Hl); [by eapply begin_appender|by eapply begin_logged|constructor].
  - rewrite (begin_appender _ _ _ _ E). by exists ops, h.
  - eapply (logged_idle _ _ _ _ _ _ _ _ x _ [] Hl); [done| |constructor]. specialize (Hts _ _ Hx).
    eapply staged_logged; [exact Hts|..]; destruct Hts as (_ & [_ Hm] & _); unfold stage_ordered_put;
      repeat (case_match; simplify_eq/=; try done). apply Forall_app_2; [done|]. by constructor.
  - eapply (logged_idle _ _ _ _ _ _ _ _ x _ [] Hl); [done| |constructor]. specialize (Hts _ _ Hx).
    eapply staged_logged; [exact Hts|..]; destruct Hts as (_ & [_ Hm] & _); unfold stage_ordered_delete;
      repeat (case_match; simplify_eq/=; try done). apply Forall_app_2; [done|]. by constructor.
  - eapply (logged_idle _ _ _ _ _ _ _ _ x _ [] Hl); [by eapply enter_appender| |constructor].
    destruct (Hts _ _ Hx) as (Hi & Hty & Hp & _). by apply enter_effects in E as [Hfx Hact].
  - rewrite (enter_appender _ _ _ _ _ E). by exists ops, h.
  - by eapply task_step_logged.
  - apply abort_stage in E as [Hkeep Hca]. eapply (logged_idle _ _ _ _ _ _ _ _ x _ [] Hl); [done| |constructor].
    by eapply task_logged_idle; [apply (Hts _ _ Hx)|].
Qed.

Lemma steps_logged ca0 old y z ops h :
  kernel_inv Ds init y → rtc step y z →
  logged ca0 old (k_appender (sy_kernel y)) (sy_tasks y) (sy_published y) ops h →
  ∃ ops' h', logged ca0 old (k_appender (sy_kernel z)) (sy_tasks z) (sy_published z) ops' h'.
Proof.
  intros Hk Hs. revert ops h. induction Hs as [y|y y' z Hstep _ IH]; intros ops h Hl; [eauto|].
  destruct (step_logged _ _ _ _ _ _ Hk Hstep Hl) as (ops1 & h1 & Hl1).
  eapply IH; [by eapply sys_step_inv|exact Hl1].
Qed.

(** Everything published since the runtime was opened is in the log. *)
Lemma reachable_logged rs y0 y :
  opened Ds init rs y0 → rtc step y0 y →
  ∃ ops h, logged (k_appender (sy_kernel y0)) (sy_published y0) (k_appender (sy_kernel y)) (sy_tasks y)
    (sy_published y) ops h.
Proof.
  intros Ho Hs. apply (steps_logged _ _ y0 y [] []); [by eapply opened_inv|done|].
  pose proof (op_tasks _ _ _ _ Ho) as Et. split; try done.
  - constructor.
  - by intros a ?%elem_of_nil.
  - intros x task. by rewrite Et, lookup_empty.
  - by left.
Qed.
End logged.

(** ** Equal commits spell equal snapshots *)
Lemma history_elem pubs key c v :
  (c, v) ∈ history pubs key ↔ ∃ p, p ∈ pubs ∧ pb_csn p = c ∧ effect_value key (pb_effects p) = Some v.
Proof.
  unfold history. rewrite list_elem_of_omap. split.
  - intros (p & Hp & E). exists p. destruct (effect_value key (pb_effects p)); [|done]. by injection E as <- <-.
  - intros (p & Hp & <- & E). exists p. by rewrite E.
Qed.

Lemma history_sorted pubs key : pubs_ok pubs → StronglySorted (λ v w : Version, w.1 < v.1) (history pubs key).
Proof.
  intros [Hs Hf]. induction pubs as [|p pubs IH]; [constructor|].
  apply StronglySorted_inv in Hs as [Hs Hp]. apply Forall_cons in Hf as [Hp0 Hf]. rewrite history_cons.
  destruct (effect_value key (pb_effects p)) as [v|] eqn:Ev; [|by apply IH]. constructor; [by apply IH|].
  apply Forall_forall. intros w (q & Hq & Ew & Hk)%history_csn. cbn. rewrite Ew.
  rewrite Forall_forall in Hp. apply effect_value_Some in Ev as (e & He & Hs' & _).
  assert (key ∈ slot_of <$> pb_effects p) as Hin by (apply list_elem_of_fmap; eauto).
  specialize (Hp q Hq key Hin Hk). lia.
Qed.

Definition same_commits (pubs pubs' : list Publication) (s : CommitSeq) : Prop :=
  ∀ p, p ∈ pubs → pb_csn p ≤ s → ∃ q, q ∈ pubs' ∧ pb_csn q = pb_csn p ∧ pb_effects q = pb_effects p.

Lemma as_of_agree pubs pubs' s key :
  pubs_ok pubs → pubs_ok pubs' → same_commits pubs pubs' s → same_commits pubs' pubs s →
  as_of (history pubs key) s = as_of (history pubs' key) s.
Proof.
  intros Ho Ho' H1 H2.
  assert (∀ a b, same_commits a b s → ∀ c v, c ≤ s → (c, v) ∈ history a key → (c, v) ∈ history b key) as Hsub.
  { intros a b Hab c v Hc (p & Hp & <- & Ev)%history_elem. destruct (Hab p Hp Hc) as (q & Hq & Ec & Ee).
    apply history_elem. exists q. by rewrite Ee. }
  apply (history_sorted pubs key) in Ho. apply (history_sorted pubs' key) in Ho'.
  apply option_eq. intros [c v]. rewrite !as_of_spec by done. cbn.
  split; intros (Hin & Hc & Hmax); (split; [by eapply Hsub|]); (split; [done|]); intros [c' v'] Hw Hc';
    (apply Hmax; [by eapply Hsub|done]).
Qed.

Lemma consecutive_lookup first h (i : nat) a :
  consecutive (Some first) h → h !! i = Some a → at_csn (ap_ticket a) = first + Z.of_nat i.
Proof.
  revert first i. induction h as [|b h IH]; intros first i; [by rewrite lookup_nil|].
  intros [Hb Hh]%consecutive_head. destruct i as [|i]; cbn; [intros [= ->]; lia|].
  destruct Hh as [->|Hh]; [done|]. intros Ha. rewrite (IH _ _ Hh Ha). lia.
Qed.

Lemma consecutive_inj first h (i j : nat) a b :
  consecutive (Some first) h → h !! i = Some a → h !! j = Some b →
  at_csn (ap_ticket a) = at_csn (ap_ticket b) → i = j ∧ a = b.
Proof.
  intros Hc Ha Hb E. rewrite (consecutive_lookup _ _ _ _ Hc Ha), (consecutive_lookup _ _ _ _ Hc Hb) in E.
  assert (i = j) as -> by lia. split; [done|congruence].
Qed.

(** A prefix of the log that covers the visible commits replays to the same
    snapshots. *)
Lemma replayed_agree h k pubs pubs' s :
  consecutive (Some 1) h → (∀ p, p ∈ pubs → ∃ (i : nat) a, h !! i = Some a ∧ (i < k)%nat ∧ at_csn (ap_ticket a) = pb_csn p ∧
    recovered_final_effects (recovered_of a) = Ok (pb_effects p)) →
  (∀ c, 0 < c ≤ s → c ∈ pb_csn <$> pubs) → replay_history (recovered_of <$> take k h) pubs' →
  same_commits pubs pubs' s ∧ same_commits pubs' pubs s.
Proof.
  intros Hc Hlog Hpre Hh. split; intros p Hp Hs.
  - destruct (Hlog p Hp) as (i & a & Ha & Hi & Ec & Ee).
    destruct (Forall2_lookup_l _ _ _ i (recovered_of a) Hh) as (q & Hq & es & Ees & ->).
    { rewrite list_lookup_fmap, lookup_take_lt, Ha by done. done. }
    exists (replayed (recovered_of a) es). split; [apply list_elem_of_In, in_rev, list_elem_of_In; by eapply list_elem_of_lookup_2|].
    cbn. split; [done|]. congruence.
  - apply list_elem_of_In, in_rev, list_elem_of_In, list_elem_of_lookup in Hp as [i Hp].
    destruct (Forall2_lookup_r _ _ _ _ _ Hh Hp) as (r & Hr & es & Ees & ->).
    apply list_lookup_fmap_Some in Hr as (a & -> & Ha%lookup_take_Some). destruct Ha as [Ha Hi]. cbn in *.
    pose proof (consecutive_lookup _ _ _ _ Hc Ha) as Ecsn.
    destruct (proj1 (list_elem_of_fmap _ _ _) (Hpre (at_csn (ap_ticket a)) ltac:(lia))) as (q & Eq & Hq).
    destruct (Hlog q Hq) as (j & b & Hb & Hj & Ec & Ee). exists q. split; [done|]. split; [done|].
    destruct (consecutive_inj _ _ _ _ _ _ Hc Ha Hb) as [-> ->]; [congruence|]. congruence.
Qed.

Section crash.
Context (Ds : list StorageObjectDescriptor).
Context `{Hcrc : Crc32c} {W : Type} `{Hos : ObjectStore W} `{Hlaws : !ObjectStoreLaws W} `{Hih : IntentHasher}.
Implicit Types (y : Sys SegmentedLog W).

(** The commits the lane of [y0] has appended on the way to [y]. *)
Definition appended_since y0 y (h : list Appended) : Prop :=
  ∃ ops, lane_run ops (k_appender (sy_kernel y0)) = (k_appender (sy_kernel y), h).

(** Every publication since an empty log was opened is at its place in the lane's
    history, behind the durable LSN. *)
Lemma published_appended y0 y ops h :
  opened Ds 0 [] y0 →
  logged (k_appender (sy_kernel y0)) (sy_published y0) (k_appender (sy_kernel y)) (sy_tasks y) (sy_published y) ops h →
  ∀ p, p ∈ sy_published y → ∃ (i : nat) a, h !! i = Some a ∧
    at_decision_lsn (ap_ticket a) ≤ dl_durable_lsn (ca_log (k_appender (sy_kernel y))) ∧
    at_csn (ap_ticket a) = pb_csn p ∧ recovered_final_effects (recovered_of a) = Ok (pb_effects p).
Proof.
  intros Ho Hl p Hp. destruct (lg_pubs _ _ _ _ _ _ _ Hl p Hp) as [Hold|(ticket & (a & Ha & <- & Ht & Hn) & Hc & Hle)].
  - pose proof (op_history _ _ _ _ Ho) as Hh. apply Forall2_nil_inv_l in Hh.
    apply (f_equal (@rev _)) in Hh. rewrite rev_involutive in Hh. rewrite Hh in Hold. by apply elem_of_nil in Hold.
  - apply list_elem_of_lookup in Ha as [i Ha]. exists i, a. split_and!; try done.
    unfold recovered_final_effects. cbn. by rewrite Ht.
Qed.

(** C1. Durability of a runtime opened over a newly created log, whatever the callers
    did.  Let the crash happen between two device calls, while no device call of the
    log has failed (the log is not fenced) and every segment the log has rotated away
    from is synchronized.  Then the log opens and returns a prefix of the appended
    commits that contains every visible one, and replaying it into an empty store
    answers every read at a visible snapshot from the history published before the
    crash.  Without the two conditions it does not hold: [rotate] synchronizes
    nothing, and a failed [create_segment] leaves a segment that [open] refuses. *)
Theorem visible_commits_survive_a_crash store sb fs0 fs1 d0 y0 y fs' :
  wf_store store → fs_files fs0 = [] → create store sb fs0 = (fs1, Ok d0) →
  opened Ds 0 [] y0 → k_appender (sy_kernel y0) = CommitAppender_new (DurableLog_new d0) 0 →
  rtc (sys_step (length Ds)) y0 y →
  let log := ca_log (k_appender (sy_kernel y)) in
  dl_fenced log = false → earlier_synced (dl_device log) → fs_crash (sl_fs (dl_device log)) fs' →
  ∃ h fs d' records k a, appended_since y0 y h ∧
    open (sl_store (dl_device log)) (sl_segment_bytes (dl_device log)) fs' = (fs, Ok d') ∧
    (recover_records d').2 = Ok records ∧
    push_all records RecoveryAssembler_new = (a, Ok (recovered_of <$> take k h)) ∧
    vf_visible (k_frontier (sy_kernel y)) ≤ Z.of_nat k ∧
    ∀ trees p0 p rd tree d key snap e v,
      Forall (λ h, (h < length Ds)%nat) trees → fresh Ds 0 p0 → replays trees p0 (recovered_of <$> take k h) p →
      rd_statuses rd = ap_statuses p → Ds !! tree = Some d → snap ≤ vf_visible (k_frontier (sy_kernel y)) →
      mvcc_lookup rd tree key None snap (ap_engine p) = (e, Ok v) →
      v = snapshot_lookup (history (sy_published y) (od_id d, key)) snap.
Proof.
  intros Hst H0 Hc Ho Hca Hs log Hf Hsync Hcrash.
  pose proof (reachable_facts _ _ _ _ _ Ho Hs) as [Hord _ Hpre].
  destruct (reachable_logged _ _ _ _ _ Ho Hs) as (ops & h & Hl).
  pose proof (lg_run _ _ _ _ _ _ _ Hl) as Hrun. rewrite Hca in Hrun.
  destruct (lane_recovery _ _ _ _ _ _ _ _ Hst H0 Hc (lg_typed _ _ _ _ _ _ _ Hl) Hrun) as (Hcs & Hty & Hrec).
  destruct (Hrec fs' (lg_ids _ _ _ _ _ _ _ Hl) Hf Hsync Hcrash) as (fs & d' & records & k & a & Hopen & Hscan & Hpush & Hk).
  assert (∀ p, p ∈ sy_published y → ∃ (i : nat) a, h !! i = Some a ∧ (i < k)%nat ∧ at_csn (ap_ticket a) = pb_csn p ∧
    recovered_final_effects (recovered_of a) = Ok (pb_effects p)) as Hlog.
  { intros p Hp. destruct (published_appended _ _ _ _ Ho Hl p Hp) as (i & b & Hb & Hle & Hrest). exists i, b.
    split; [done|]. split; [by eapply Hk|done]. }
  exists h, fs, d', records, k, a. split; [exists ops; apply Hl|]. split; [done|]. split; [done|]. split; [done|]. split.
  - destruct (decide (vf_visible (k_frontier (sy_kernel y)) ≤ 0)) as [?|Hv]; [lia|].
    destruct (proj1 (list_elem_of_fmap _ _ _) (Hpre (vf_visible (k_frontier (sy_kernel y))) ltac:(lia))) as (p & Ep & Hp).
    destruct (Hlog p Hp) as (i & b & Hb & Hi & Ec & _). pose proof (consecutive_lookup _ _ _ _ Hcs Hb). lia.
  - intros trees p0 p rd tree d key snap e v Htr Hfr Hrs Est Hd Hsnap E.
    destruct (replays_lookup Ds 0 trees (recovered_of <$> take k h) p0 p rd tree d key snap e (Ok v))
      as (pubs & Hh & Hok & _ & ->); [done| |done..|].
    + apply Forall_fmap, Forall_take. eapply Forall_impl; [exact Hty|]. by intros x (? & _).
    + unfold snapshot_lookup. destruct (replayed_agree h k (sy_published y) pubs snap) as [H1 H2]; try done.
      { intros c Hc'. apply Hpre. lia. }
      by rewrite (as_of_agree (sy_published y) pubs).
Qed.
End crash.


(** ** The runtime of [Demo.v]: a fourth commit is cut by the crash *)
Definition demo_torn : Sys SegmentedLog Forest8 :=
  acts (length demo_objects)
    [ActBegin 12; ActPut 12 demo_object [u8 2] [u8 21]; ActEnter 12 [0%nat]; ActStep 12 2] demo_end.
Definition demo_torn_log : DurableLog SegmentedLog := ca_log (k_appender (sy_kernel demo_torn)).
Definition demo_crashed : Fs := crash_at 320 (sl_fs (dl_device demo_torn_log)).

Lemma demo_reaches_torn : rtc (sys_step (length demo_objects)) demo_start demo_torn.
Proof.
  transitivity demo_end; [apply demo_reaches_end|].
  exact (acts_run _ [ActBegin 12; ActPut 12 demo_object [u8 2] [u8 21]; ActEnter 12 [0%nat]; ActStep 12 2] demo_end).
Qed.

Lemma visible_commits_survive_a_crash_witness :
  vf_visible (k_frontier (sy_kernel demo_torn)) = 3 ∧
  ca_next_csn (k_appender (sy_kernel demo_torn)) = Some 5 ∧
  ∃ h fs d' records k a, appended_since demo_start demo_torn h ∧
    open (sl_store (dl_device demo_torn_log)) (sl_segment_bytes (dl_device demo_torn_log)) demo_crashed = (fs, Ok d') ∧
    (recover_records d').2 = Ok records ∧
    push_all records RecoveryAssembler_new = (a, Ok (recovered_of <$> take k h)) ∧ 3 ≤ Z.of_nat k.
Proof.
  assert (vf_visible (k_frontier (sy_kernel demo_torn)) = 3) as Hv by (vm_compute; reflexivity).
  split; [exact Hv|]. split; [vm_compute; reflexivity|].
  destruct (visible_commits_survive_a_crash demo_objects demo_store 4096 demo_disk (create demo_store 4096 demo_disk).1
    demo_log demo_start demo_torn demo_crashed) as (h & fs & d' & records & k & a & Ha & Ho & Hr & Hp & Hk & _).
  - split; vm_compute; reflexivity.
  - reflexivity.
  - exact demo_log_created.
  - exact demo_opened.
  - exact eq_refl.
  - exact demo_reaches_torn.
  - vm_compute. reflexivity.
  - intros j f. apply synced_below_ok. vm_compute. reflexivity.
  - unfold demo_crashed, demo_torn_log. apply crash_at_crash.
  - rewrite Hv in Hk. exists h, fs, d', records, k, a. unfold demo_torn_log. split; [exact Ha|]. split; [exact Ho|].
    split; [exact Hr|]. split; [exact Hp|exact Hk].
Defined.
