(* ===== verification/Atomicity.v ===== *)
(** * Atomicity of commits

    Which publications the threads of [Interleaving.v] are answerable for, in any
    interleaving: a transaction that was acknowledged has published once, under its
    commit sequence and with its final effects, and any other has published nothing.
    Together with the invariant of the store this says what readers get of a
    transaction: all of its effects from its commit sequence on, and none of them
    below it. *)
From S2P Require Import Prelude StdCollections Ids Crc Store Fs Log WriteSet Txn LogIo CommitAppend Recovery SegmentLog SegmentRecovery Shards Mvcc UndoStore Visibility WriteIntent Admission PageIo Buffer PageBuffer PageDependency PageV4 KeyOrder TreeV4 TreeRange TreeMap ObjectStore OrderedMvcc OrderedRead OrderedCommit OrderedRecovery Versions InstallSpec Interleaving Demo Settling LaneStages IsolationInv IsolationSteps ReplaySpec SnapshotIsolation Durability.

Local Open Scope Z_scope.
Local Open Scope seer_scope.

Section atomicity.
Context (Ds : list StorageObjectDescriptor) (init : CommitSeq).
Context `{Hcrc : Crc32c} {D : Type} `{Hld : LogDevice D} {W : Type} `{Hos : ObjectStore W}
  `{Hlaws : !ObjectStoreLaws W} `{Hih : IntentHasher}.
Implicit Types (k : Kernel D W) (y z : Sys D W) (tasks : gmap TxnId Task) (new : list Publication)
  (x : TxnId) (t : Transaction).
Local Abbreviation step := (sys_step (length Ds)).

(** ** Who published what *)
Definition silent new x : Prop := ∀ p, p ∈ new → pb_txn p ≠ x.

(** [p] is the commit of [t]. *)
Record commit_of x t (p : Publication) : Prop := {
  co_txn : pb_txn p = x;
  co_csn : tx_commit_seq t = Some (pb_csn p);
  co_snapshot : pb_snapshot p = tx_snapshot t;
  co_effects : final_effects t = Ok (pb_effects p);
  co_slots : NoDup (slot_of <$> pb_effects p)
}.

Definition wrote new x t : Prop := ∃ p, p ∈ new ∧ commit_of x t p.

Definition accounted new x (task : Task) : Prop :=
  match task with
  | TaskIdle t => (tx_phase t = Released → wrote new x t) ∧ (tx_phase t ≠ Released → silent new x)
  | TaskPreparing t a _ _ | TaskAppended t a _ _ | TaskApplying t a _ _ _ =>
      final_effects t = Ok (a_effects a) ∧ silent new x
  | TaskWaiting t _ _ _ | TaskCompleting t _ _ _ => wrote new x t
  end.

Record accounts tasks new : Prop := {
  ac_tasks : ∀ x task, tasks !! x = Some task → accounted new x task;
  ac_known : ∀ p, p ∈ new → is_Some (tasks !! pb_txn p);
  ac_once : NoDup (pb_txn <$> new)
}.

(** One thread moves and publishes nothing. *)
Lemma accounts_move tasks new x task :
  accounts tasks new → accounted new x task → accounts (<[x := task]> tasks) new.
Proof.
  intros [Ht Hk Ho] Hx. split; [| |done].
  - intros z tz. destruct (decide (x = z)) as [<-|Hne]; [rewrite lookup_insert_eq; by intros [= <-]|].
    rewrite lookup_insert_ne by done. apply Ht.
  - intros p Hp. apply lookup_insert_is_Some'. right. by apply Hk.
Qed.

Lemma wrote_cons new x t p : wrote new x t → wrote (p :: new) x t.
Proof. intros (q & Hq & Hc). exists q. split; [by right|done]. Qed.

Lemma silent_cons new x p : silent new x → pb_txn p ≠ x → silent (p :: new) x.
Proof. by intros Hs Hp q [->|Hq]%elem_of_cons; [|apply Hs]. Qed.

(** One thread publishes. *)
Lemma accounts_publish tasks new x task p :
  accounts tasks new → silent new x → pb_txn p = x → accounted (p :: new) x task →
  accounts (<[x := task]> tasks) (p :: new).
Proof.
  intros [Ht Hk Ho] Hs Hp Hx. split.
  - intros z tz. destruct (decide (x = z)) as [<-|Hne]; [rewrite lookup_insert_eq; by intros [= <-]|].
    rewrite lookup_insert_ne by done. intros Hz%Ht.
    assert (pb_txn p ≠ z) as Hpz by congruence.
    destruct tz; cbn in *; intuition eauto using wrote_cons, silent_cons.
  - intros q Hq. apply lookup_insert_is_Some'. apply elem_of_cons in Hq as [->|Hq]; [by left|right; by apply Hk].
  - rewrite fmap_cons. constructor; [|done]. intros (q & Eq & Hq)%list_elem_of_fmap. apply (Hs q Hq). congruence.
Qed.

(** The transaction a stage hands on. *)
Lemma keeps_effects t t' : keeps t t' → final_effects t' = final_effects t.
Proof. intros (Ei & Em & _). unfold final_effects. by rewrite Ei, Em. Qed.

Lemma accounted_idle new x t : silent new x → tx_phase t ≠ Released → accounted new x (TaskIdle t).
Proof. by intros Hs Hp. Qed.

Lemma append_unreleased t k k' t' e :
  tx_phase t = Active → commit_append t k = (k', t', Err e) → tx_phase t' ≠ Released.
Proof.
  intros Hp. unfold commit_append, begin_validation.
  destruct (transition_cases Active Validating t) as [[-> _]|[_ ?]]; [|done].
  destruct (append_validated _ _) as [[ca t1] [tk|err]] eqn:E; [done|].
  apply append_cases in E as (_ & _ & Hc); [|done].
  unfold cleanup_clean_append_failure, fence_unresolved, abort, mark_recovery_required.
  destruct Hc as [Hc|[_ [Hc|Hc]]]; rewrite Hc; intros E; repeat (case_match; simplify_eq/=; try congruence).
Qed.

Lemma complete_released t k k' t' u :
  commit_complete t k = (k', t', Ok u) →
  tx_phase t' = Released ∧ tx_commit_seq t' = tx_commit_seq t ∧ tx_snapshot t' = tx_snapshot t ∧ keeps t t'.
Proof.
  intros E. pose proof E as [Hk _]%complete_stage. revert E Hk. unfold commit_complete.
  destruct (admit_visibility _); [|done]. unfold mark_visible.
  destruct (transition_cases DurableDecision Visible t) as [[-> _]|[-> _]]; [|done]. cbn. by intros [= <- <- <-].
Qed.

(** ** Its steps *)
Lemma task_accounts k tasks pubs R C new x task k' task' out :
  good Ds init k tasks pubs R C → accounts tasks new → tasks !! x = Some task →
  task_step task k = Some (k', task', out) → ¬ fenced k' → accounts (<[x := task']> tasks) (out ++ new).
Proof.
  intros Hg Ha Hx E Hn. pose proof (gd_tasks _ _ _ _ _ _ _ Hg _ _ Hx) as (_ & _ & _ & Ht).
  pose proof (ac_tasks _ _ Ha _ _ Hx) as Hc.
  assert (∀ task', accounted new x task' → accounts (<[x := task']> tasks) new) as Hmv
    by (intros; by apply accounts_move).
  assert (∀ a k1, abandon a k1 = k' → ¬ fenced k1) as Hab by (intros a k1 <- Hf; by apply Hn, fenced_abandon).
  destruct task as [t|t a [|e rest] plans|t a plans ticket|t a ticket pos [|plan todo]|t a ticket pos|t a ticket pos];
    cbn [task_step] in E; [done|..]; cbn in Hc.
  - destruct Ht as (_ & Hp & _), Hc as [Hfx Hs].
    destruct (commit_append t k) as [[k1 t1] [ticket|e]] eqn:Eh; injection E as <- <- <-; apply Hmv.
    + apply append_stage in Eh as [Hk _]; [|done]. cbn. by rewrite (keeps_effects _ _ Hk).
    + apply accounted_idle; [done|]. by eapply append_unreleased.
  - destruct Ht as (_ & Hp & _), Hc as [Hfx Hs].
    destruct (prepare_one t a e plans k) as [k1 [ps|err]]; injection E as <- <- <-; apply Hmv; [done|].
    apply accounted_idle; [done|congruence].
  - destruct Hc as [Hfx Hs]. destruct (commit_harden ticket plans.2 t k) as [[k1 t1] [position|e]] eqn:Eh.
    + injection E as <- <- <-. apply Hmv. apply harden_stage in Eh as [Hk _]. cbn. by rewrite (keeps_effects _ _ Hk).
    + apply (harden_inv _ _ _ _ _ _ _ _ _ _ _ _ _ _ _ Hg Hx) in Eh. injection E as E _ _. by eapply Hab in E.
  - destruct Ht as (Hatt & _ & _ & (Hcs & _) & _), Hc as [Hfx Hs].
    destruct (commit_publish _ t k) as [[k1 t1] [[]|e]] eqn:Eh;
      apply (publish_inv _ _ _ _ _ _ _ _ _ _ _ _ _ _ _ Hg Hx) in Eh.
    + destruct Eh as [-> _]. injection E as <- <- <-. cbn [app].
      apply accounts_publish; [done..|by apply (ao_id _ _ _ _ Hatt)|]. exists (publication t a ticket).
      split; [left|]. split; cbn; try done; [apply (ao_id _ _ _ _ Hatt)|by eapply slots_nodup].
    + injection E as E _ _. by eapply Hab in E.
  - destruct (apply_one _ a plan t k) as [[k1 t1] [[]|e]] eqn:Eh; rewrite apply_one_dep in Eh;
      destruct (apply_prepared_inner _ _ _ _ _ _) as [s [r|err]]; try done; injection Eh as <- <-.
    + injection E as <- <- <-. by apply Hmv.
    + injection E as E _ _. by eapply Hab in E.
  - unfold commit_wait in E. destruct (_.2) as [[v|e]|] in E; [| |done].
    + injection E as <- <- <-. by apply Hmv.
    + injection E as E _ _. by eapply Hab in E.
  - destruct (commit_complete t k) as [[k1 t1] [[]|e]] eqn:Eh.
    + injection E as <- <- <-. apply Hmv. apply complete_released in Eh as (Hp & Ec & Es & Hk).
      split; [|by rewrite Hp]. intros _. destruct Hc as (p & Hin & [Hx' Hcs Hsn Hfx Hnd]). exists p. split; [done|].
      split; try congruence. by rewrite (keeps_effects _ _ Hk).
    + apply commit_complete_fenced in Eh. injection E as E _ _. by eapply Hab in E.
Qed.

Lemma abort_accounted new x t k k' t' r :
  accounted new x (TaskIdle t) → coordinator_abort t k = (k', t', r) → ¬ fenced k' → accounted new x (TaskIdle t').
Proof.
  intros Hc E Hn. unfold coordinator_abort, abort in E.
  destruct (tx_phase t) eqn:Ep; try (by injection E as <- <- <-);
    repeat (case_match; simplify_eq/=; try done); cbn in *; rewrite ?Ep in Hc; split; intros; try done; by apply Hc.
Qed.

Lemma staged_accounted new x t t' :
  accounted new x (TaskIdle t) → t' = t ∨ tx_phase t' = Active ∧ tx_phase t = Active → accounted new x (TaskIdle t').
Proof. intros Hc [->|[Hp Hp']]; [done|]. apply accounted_idle; [apply Hc|]; congruence. Qed.

Lemma put_accounted new x t object key value :
  accounted new x (TaskIdle t) → accounted new x (TaskIdle (stage_ordered_put object key value t).1).
Proof.
  intros Hc. eapply staged_accounted; [exact Hc|].
  destruct (stage_cases object (λ o, ordered_put (tx_id t) o (od_id object) key value) t _ eq_refl) as [[E _]|(E & Hp & _)];
    unfold stage_ordered_put; rewrite E; [by left|by right].
Qed.

Lemma delete_accounted new x t object key :
  accounted new x (TaskIdle t) → accounted new x (TaskIdle (stage_ordered_delete object key t).1).
Proof.
  intros Hc. eapply staged_accounted; [exact Hc|].
  destruct (stage_cases object (λ o, ordered_delete (tx_id t) o (od_id object) key) t _ eq_refl) as [[E _]|(E & Hp & _)];
    unfold stage_ordered_delete; rewrite E; [by left|by right].
Qed.

Lemma step_accounts y z R C new :
  good Ds init (sy_kernel y) (sy_tasks y) (sy_published y) R C → accounts (sy_tasks y) new → step y z →
  ¬ fenced (sy_kernel z) → ∃ out, sy_published z = out ++ sy_published y ∧ accounts (sy_tasks z) (out ++ new).
Proof.
  intros Hg Ha Hs Hn. pose proof (ac_tasks _ _ Ha) as Hts.
  destruct Hs as [x k t H64 E|x k e E|x t o key value Hx Ho|x t o key Hx Ho|x t trees k a Hx Htr E
    |x t trees k e Hx Htr E|x task k task' out Hx E|x t k t' r Hx E|tree key reader snap e r Hd E
    |fuel tree c limit e c' r Hd Hc Hl' E]; cbn -[app] in *; try (by exists []).
  - exists []. split; [done|]. apply accounts_move; [done|]. apply accounted_idle.
    + pose proof (begin_new _ _ _ _ _ _ _ _ _ _ Hg E) as Hnone. intros p Hp <-.
      destruct (ac_known _ _ Ha p Hp) as [task ?]. congruence.
    + unfold begin_write in E. repeat (case_match; simplify_eq/=; try done).
  - exists []. split; [done|]. apply accounts_move; [done|]. apply put_accounted. by apply Hts.
  - exists []. split; [done|]. apply accounts_move; [done|]. apply delete_accounted. by apply Hts.
  - exists []. split; [done|]. apply accounts_move; [done|]. apply enter_effects in E as [Hfx Hp].
    split; [done|]. apply (Hts _ _ Hx). congruence.
  - exists out. split; [done|]. by eapply task_accounts.
  - exists []. split; [done|]. apply accounts_move; [done|]. by eapply abort_accounted; [apply Hts| |].
Qed.

Lemma reachable_accounts rs y0 y :
  opened Ds init rs y0 → rtc step y0 y → ¬ fenced (sy_kernel y) →
  ∃ new, sy_published y = new ++ sy_published y0 ∧ accounts (sy_tasks y) new.
Proof.
  intros Ho Hs. assert (accounts (sy_tasks y0) []) as Ha.
  { rewrite (op_tasks _ _ _ _ Ho). split; [done| |constructor]. by intros p ?%elem_of_nil. }
  pose proof (opened_inv _ _ _ _ Ho) as Hk. clear Ho. revert Hk Ha.
  enough (∀ new, kernel_inv Ds init y0 → accounts (sy_tasks y0) new → ¬ fenced (sy_kernel y) →
    ∃ out, sy_published y = out ++ sy_published y0 ∧ accounts (sy_tasks y) (out ++ new)) as Hgen.
  { intros Hk Ha Hn. destruct (Hgen [] Hk Ha Hn) as (out & ? & ?). exists out. by rewrite app_nil_r in *. }
  induction Hs as [y|y u z Hstep Hs IH]; intros new Hk Ha Hn; [by exists []|].
  assert (¬ fenced (sy_kernel u)) as Hu by (intros Hf; apply Hn; by eapply sys_steps_fenced).
  assert (¬ fenced (sy_kernel y)) as Hy by (intros Hf; apply Hu; by eapply sys_step_fenced).
  destruct Hk as [Hf|(R & C & Hg)]; [done|].
  destruct (step_accounts _ _ _ _ _ Hg Ha Hstep Hu) as (out1 & E1 & Ha1).
  destruct (IH (out1 ++ new)) as (out2 & E2 & Ha2); [by eapply sys_step_good|done|done|].
  exists (out2 ++ out1). rewrite E2, E1, <-!app_assoc in *. done.
Qed.

(** ** What readers get of a commit *)
Lemma published_read rs y0 y tree d key snap e v :
  opened Ds init rs y0 → rtc step y0 y → ¬ fenced (sy_kernel y) → Ds !! tree = Some d →
  mvcc_lookup (reader_of (sy_kernel y)) tree key None snap (k_engine (sy_kernel y)) = (e, Ok v) →
  v = snapshot_lookup (history (sy_published y) (od_id d, key)) snap.
Proof.
  intros Ho Hs Hn Hd E. destruct (reachable_good _ _ _ _ _ Ho Hs Hn) as (R & C & Hg).
  apply (mvcc_lookup_spec _ _ _ _ _ (reader_of (sy_kernel y)) _ _ _ _ _ _ _ (gd_engine _ _ _ _ _ _ _ Hg) Hd) in E;
    [done|intros rec _; apply anyone_foreign|].
  apply Forall_forall. intros rec _. apply anyone_foreign.
Qed.

(** From its sequence on, a commit is seen, or a later one of the same key. *)
Lemma commit_seen pubs p key w snap :
  pubs_ok pubs → p ∈ pubs → effect_value key (pb_effects p) = Some w → pb_csn p ≤ snap →
  ∃ later w', later ∈ pubs ∧ pb_csn p ≤ pb_csn later ≤ snap ∧ effect_value key (pb_effects later) = Some w' ∧
    snapshot_lookup (history pubs key) snap = mvcc_value_lookup w'.
Proof.
  intros Hok Hp Hw Hle. assert ((pb_csn p, w) ∈ history pubs key) as Hin by (apply history_elem; eauto).
  unfold snapshot_lookup. destruct (as_of (history pubs key) snap) as [[c w']|] eqn:E.
  - apply as_of_spec in E as (Hc & Hcs & Hmax); [|by apply history_sorted].
    apply history_elem in Hc as (q & Hq & <- & Ew). exists q, w'. split_and!; try done. by apply (Hmax (pb_csn p, w)).
  - rewrite list_elem_of_In in Hin. apply (List.find_none _ _ E) in Hin. cbn in Hin. bool_to_prop. lia.
Qed.

(** Below its sequence, it is as if it had not been published. *)
Lemma commit_unseen pubs c key snap :
  snap < c → snapshot_lookup (history pubs key) snap =
    snapshot_lookup (history (filter (λ q, pb_csn q ≠ c) pubs) key) snap.
Proof.
  intros Hlt. unfold snapshot_lookup.
  enough (as_of (history pubs key) snap = as_of (history (filter (λ q, pb_csn q ≠ c) pubs) key) snap) as -> by done.
  induction pubs as [|q pubs IH]; [done|]. rewrite filter_cons, history_cons. case_decide as Hq.
  - rewrite history_cons. destruct (effect_value key (pb_effects q)); [|done]. unfold as_of in *. cbn. by rewrite IH.
  - destruct (effect_value key (pb_effects q)); [|done]. rewrite as_of_newer; [done|].
    destruct (decide (pb_csn q = c)); [lia|done].
Qed.

Lemma nodup_fmap_elem {A B} (f : A → B) l p q : NoDup (f <$> l) → p ∈ l → q ∈ l → f q = f p → q = p.
Proof.
  intros Hnd [i Hp]%list_elem_of_lookup [j Hq]%list_elem_of_lookup E. assert (i = j) as ->; [|congruence].
  apply (NoDup_lookup _ _ _ (f p) Hnd); rewrite list_lookup_fmap, ?Hp, ?Hq; cbn; congruence.
Qed.

(** C10. Atomicity, in every interleaving of the callers that has not fenced the
    runtime.  Of a transaction whose [commit] was acknowledged, exactly one commit was
    published since the runtime was opened, with its commit sequence, its snapshot and its final effects, and
    readers get all or nothing of it: a lookup of a key it wrote, answered at a
    snapshot below the commit sequence, is the same as if it had not committed; at
    the commit sequence it is the value the transaction wrote; and above, that of
    this commit or of a later one.  A transaction that is not acknowledged, because it
    has not committed, was aborted or its [commit] failed, has published nothing, and
    lookups are answered from published commits only. *)
Theorem commit_is_atomic rs y0 y x t :
  opened Ds init rs y0 → rtc step y0 y → ¬ fenced (sy_kernel y) → sy_tasks y !! x = Some (TaskIdle t) →
  ∃ new, sy_published y = new ++ sy_published y0 ∧
  (∀ tree d key snap e v, Ds !! tree = Some d →
     mvcc_lookup (reader_of (sy_kernel y)) tree key None snap (k_engine (sy_kernel y)) = (e, Ok v) →
     v = snapshot_lookup (history (sy_published y) (od_id d, key)) snap) ∧
  (tx_phase t ≠ Released → ∀ q, q ∈ new → pb_txn q ≠ x) ∧
  (tx_phase t = Released →
   ∃ p, p ∈ new ∧ pb_txn p = x ∧ (∀ q, q ∈ new → pb_txn q = x → q = p) ∧
   tx_commit_seq t = Some (pb_csn p) ∧ pb_snapshot p = tx_snapshot t ∧ final_effects t = Ok (pb_effects p) ∧
   ∀ effect tree d snap e v, effect ∈ pb_effects p → Ds !! tree = Some d → od_id d = fe_object effect →
     mvcc_lookup (reader_of (sy_kernel y)) tree (fe_key effect) None snap (k_engine (sy_kernel y)) = (e, Ok v) →
     (snap < pb_csn p →
        v = snapshot_lookup (history (filter (λ q, pb_csn q ≠ pb_csn p) (sy_published y)) (slot_of effect)) snap) ∧
     (snap = pb_csn p → v = mvcc_value_lookup (intended_value effect)) ∧
     (pb_csn p ≤ snap → ∃ later value, later ∈ sy_published y ∧ pb_csn p ≤ pb_csn later ≤ snap ∧
        effect_value (slot_of effect) (pb_effects later) = Some value ∧ v = mvcc_value_lookup value)).
Proof.
  intros Ho Hs Hn Hx. destruct (reachable_accounts _ _ _ Ho Hs Hn) as (new & Enew & [Hts _ Honce]).
  destruct (reachable_facts _ _ _ _ _ Ho Hs) as [Hok Hnd _]. destruct (Hts _ _ Hx) as [Hrel Hnot].
  exists new. split; [done|]. split; [by intros; eapply published_read|]. split; [done|]. intros Hp.
  destruct (Hrel Hp) as (p & Hin & [Hpx Hcs Hsn Hfx Hsl]). exists p. split_and!; try done.
  { intros q Hq Eq. apply (nodup_fmap_elem pb_txn new); congruence. }
  intros effect tree d snap e v He Hd Eo E. apply (published_read _ _ _ _ _ _ _ _ _ Ho Hs Hn Hd) in E.
  assert (p ∈ sy_published y) as Hin' by (rewrite Enew; apply elem_of_app; by left).
  pose proof (effect_value_unique (slot_of effect) _ _ Hsl He eq_refl) as Hw.
  replace (od_id d, fe_key effect) with (slot_of effect) in E by (unfold slot_of; congruence). subst v.
  split_and!.
  - apply commit_unseen.
  - intros ->. destruct (commit_seen _ p _ _ (pb_csn p) Hok Hin' Hw) as (q & w & Hq & Hc & Ew & ->); [lia|].
    rewrite (nodup_fmap_elem pb_csn _ p q Hnd) in Ew by (done || lia). congruence.
  - intros Hle. destruct (commit_seen _ _ _ _ _ Hok Hin' Hw Hle) as (q & w & Hq & Hc & Ew & E). eauto 10.
Qed.
End atomicity.

(** ** The runtime of [Demo.v]: the third commit, over a key of the first *)
Definition demo_third : FinalEffect := {| fe_mutation := ordered_put 9 0 1 [u8 1] [u8 11] |}.
Definition demo_read (snap : CommitSeq) : Engine Forest8 * result MvccLookup OrderedMvccReadError :=
  mvcc_lookup (reader_of (sy_kernel demo_end)) 0 (fe_key demo_third) None snap (k_engine (sy_kernel demo_end)).

Lemma demo_third_effects : final_effects (demo_txn 9 demo_end) = Ok [demo_third].
Proof. vm_compute. reflexivity. Qed.
Lemma demo_third_csn : tx_commit_seq (demo_txn 9 demo_end) = Some 3.
Proof. vm_compute. reflexivity. Qed.
Lemma demo_reads : (demo_read 2).2 = Ok (MvccFound [u8 10]) ∧ (demo_read 3).2 = Ok (MvccFound [u8 11]).
Proof. vm_compute. split; reflexivity. Qed.

Lemma answer_eta {A B} (p : A * B) b : p.2 = b → p = (p.1, b).
Proof. by destruct p; cbn; intros ->. Qed.

Lemma commit_is_atomic_witness :
  (demo_read 2).2 = Ok (MvccFound [u8 10]) ∧ (demo_read 3).2 = Ok (MvccFound [u8 11]) ∧
  ∃ p, p ∈ sy_published demo_end ∧ pb_csn p = 3 ∧ pb_effects p = [demo_third] ∧
    MvccFound [u8 11] = mvcc_value_lookup (intended_value demo_third) ∧
    MvccFound [u8 10] = snapshot_lookup (history (filter (λ q, pb_csn q ≠ pb_csn p) (sy_published demo_end)) (1, [u8 1])) 2.
Proof.
  destruct demo_reads as [E2 E3]. split; [exact E2|]. split; [exact E3|].
  destruct (commit_is_atomic demo_objects 0 [] demo_start demo_end 9 (demo_txn 9 demo_end)) as (new & Enew & _ & _ & Hrel).
  - exact demo_opened.
  - exact demo_reaches_end.
  - unfold fenced. by vm_compute.
  - vm_compute. reflexivity.
  - destruct Hrel as (p & Hin & _ & _ & Hc & _ & Hfx & Hread); [vm_compute; reflexivity|].
    rewrite demo_third_csn in Hc. injection Hc as Hc. rewrite demo_third_effects in Hfx. injection Hfx as Hfx.
    rewrite <-Hfx in Hread.
    exists p. split; [rewrite Enew; apply elem_of_app; left; exact Hin|]. split; [symmetry; exact Hc|].
    split; [symmetry; exact Hfx|]. split.
    + eapply (Hread demo_third 0%nat demo_object 3); [left|reflexivity..|apply answer_eta; vm_compute; reflexivity|exact Hc].
    + eapply (Hread demo_third 0%nat demo_object 2); [left|reflexivity..|apply answer_eta; vm_compute; reflexivity|].
      rewrite <-Hc. reflexivity.
Defined.
